(* ===== verification/_CoqProject ===== *)
-Q . S2P
Prelude.v
Atomics.v
Reservation.v
Effects.v
Bytes.v
Types.v
RateLimit.v
Admission.v
CircuitBreaker.v
BreakerWindow.v
CoordinatorState.v
ProbeClaims.v
OutcomeChannel.v
OutcomeWake.v
Routing.v
Buffer.v
HttpText.v
HttpRequest.v
RequestSerializer.v
HttpResponse.v
ConfigLoader.v
TimerQueue.v
TimerFd.v
Coordinator.v
Selection.v
AttemptSelector.v
UpstreamConnection.v
ProxyTransaction.v
Forwarding.v
ClientConnection.v
TextCopies.v
Generation.v
RequestLease.v
Retirement.v
WorkerRuntime.v
WorkerData.v
ClientTable.v
UpstreamPool.v
HealthChecker.v
Double.v
Metrics.v
MetricsCounts.v
MetricsText.v
LogRecord.v
AsyncLogger.v
GatewayView.v
ReloadController.v
ReloadWatcher.v
EventLoop.v
WorkerSet.v
Acceptance.v
Sockets.v
Lifecycle.v
Migration.v
MockBackend.v
Programs.v
