(* ===== verification/Prelude.v ===== *)
(** * AegisGate: a verification development

    AegisGate is an event-driven HTTP/1.1 reverse proxy in C++20 for Linux: a
    control loop accepts connections and reloads the configuration, a fixed set
    of I/O workers serve the clients and talk to the upstreams, and a
    coordinator loop owns health and circuit-breaker state.  This library models
    its implementation (src/src and src/include) file by file and proves what
    makes each part correct.  File and function names below are those under src/.

    ** How the code is modelled

    Data: structs are records with the members' names, enums are inductive
    types, strings are lists of bytes (Bytes), unsigned integers are [Z] with the
    wrap-around written out ([wrap_u32], [wrap_u64]), signed integers are
    unbounded [Z] that the invariants keep in range, doubles are IEEE binary64
    (Double), maps are [gmap]s or association lists where the order matters.

    Effects: an operation is a function on the component's state, the whole
    handler with every early return; exceptions are [None], a boolean or a
    constructor of a result type.  Code that runs against system calls and
    callbacks uses the state monad of Effects (return, throw, null access, out of
    fuel) with its weakest preconditions; its environment is a class of answers
    ([UpstreamEnv], [ClientEnv], [TransactionEnv]).  Code shared by threads is a
    step relation or a list of steps whose granularity is one atomic access, one
    critical section or one system call, in every interleaving (Atomics for
    compare-and-swap loops).  Clock readings and results of system calls are
    arguments.  Most invariants are refinements: a log of what happened is
    replayed by an automaton ([accepts]) that states the contract.

    ** The files

    Admission of requests.  Reservation: the move-only guards over a weak
    pointer.  RateLimit: TokenBucket, InflightLimiter, RouteAdmission.  Admission:
    GlobalAdmission and the workers' token leases (WorkerData.cpp).

    Protection of upstreams.  CircuitBreaker: the breaker's state machine;
    BreakerWindow: its sliding window, its migration and the
    reference machine the breaker equals.  CoordinatorState:
    EndpointHealth, ProtectionSnapshot, CoordinatorState.  ProbeClaims: half-open
    probes claimed by worker threads.  OutcomeChannel: the lock-free ring of
    attempt outcomes; OutcomeWake: its wake-ups.  Coordinator: its tasks and
    timers, refill and health timers included.  HealthChecker: active probes.

    Choice of an upstream.  Routing: RouteTable and WeightedRoundRobin.
    Selection, AttemptSelector: endpoint choice against the interface
    [AttemptCoordinator], which Coordinator implements.

    HTTP.  Buffer; HttpText and TextCopies; HttpRequest (HttpRequestParser); RequestSerializer;
    HttpResponse (both serializers and HttpResponseParser); Forwarding (from an
    upstream's head to the client's).

    Connections and requests.  UpstreamConnection, UpstreamPool,
    ProxyTransaction, ClientConnection; ClientTable and WorkerData (WorkerData.cpp).

    Threads and loops.  TimerQueue and TimerFd (TimerQueue.cpp); EventLoop
    (EventLoop.cpp, Channel.cpp); WorkerRuntime, WorkerSet; Acceptance and Sockets
    (Fd.h, Socket.cpp, Acceptor.cpp, Gateway::Accept); Lifecycle (Gateway::Start,
    the destructor, the coordinator's thread).

    Configuration and reload.  Types, ConfigLoader (Config.cpp); Generation
    (RuntimeGeneration, GenerationMailbox); RequestLease (its lease objects);
    Retirement (the control loop of Gateway.cpp); Migration (RequestReload with
    both coordinators' threads); ReloadController; ReloadWatcher.

    Observability.  Double, Metrics, MetricsCounts; MetricsText (a reader of the
    metrics page); LogRecord, AsyncLogger; GatewayView (the metrics page, the log records and the views of Gateway.cpp).

    Programs.  MockBackend (the server of the tests), Programs (command lines).

    Prelude, Atomics, Effects and Bytes are the shared base.

    ** What is shown

    Admission: over every interleaving the requests admitted by all workers stay
    within the configured rate and in-flight limits, and every slot and lease is
    given back (RateLimit, Admission, WorkerData).  Breaker: call by call it gives
    the answers of a reference machine over a log of outcomes, trips exactly when
    the window says so, stale permits do nothing, probes are claimed with the
    permit of their turn and recorded once, an open breaker is always armed to
    half-open, also while refill timers are queued, outcomes reach the coordinator exactly once while
    the ring's counters do not wrap.  HTTP: parsing does not depend on how the
    bytes are cut, with exceptions the theorems state exactly (a cut between CR
    and LF of a line at the length limit is rejected, and of two errors in one
    request the one that arrives first is reported);
    serialised requests parse back to the request with its field names in lower
    case and its values trimmed; streamed bodies are lossless and equal to
    buffered ones unless cut so; a forwarded head is the accepted one
    without hop-by-hop fields.  Requests: a transaction follows its life cycle,
    answers the client once, makes boundedly many attempts, arms its total
    deadline and ends when it fires; a request handled by a worker gets one
    answer, an aborted connection or, where the code swallows the exception, none;
    connections of clients and upstreams follow theirs; descriptors,
    pooled connections and timers are used and released exactly once, also when
    the pool's callback starts the next exchange.  Threads:
    accepted tasks run once and in order, workers stop, start-up is all or
    nothing, connections are spread evenly, retired generations are reclaimed
    safely unless a worker refuses its balance task (exactly then the process
    terminates), accepted reload requests are served, a reload takes over the protection
    state or has no effect, the timerfd is armed while a timer is pending, events
    reach only registered channels, a channel destroyed in its own callback
    included.  Observability: the metrics page reads back to the counts of the
    observations made, log records are written once or counted as dropped while
    the stream's flushes succeed.

    Theorems at the ends of some files show behaviour that differs from what the
    code or its comments intend (for instance [ring_wrap_loses_outcomes],
    [move_self_diverges], [constructor_failure_closes_twice],
    [thread_failure_terminates], [flush_failure_uncounted]).

    ** Bounds and fuel

    Loops over data recurse on the data or take its length as fuel, which their
    lemmas show to suffice.  Loops that read or write a descriptor take fuel
    [Spin]s out of; [streaming_read_returns] and the returns theorems of
    ClientConnection show fuel from the bytes and answers at hand to be enough,
    [inotify_batch] two turns per event, [Select_correct] one more than the
    endpoints, WorkerSet and Lifecycle six steps of a thread.  Theorems that say
    "if it returns" are paired with one that says it does, or the loop really can
    run for ever and a theorem shows that.  Where a 64-bit identifier would have
    to run out (timers, tokens, generations) this is a hypothesis.

    ** What is not modelled

    yaml-cpp and inet_pton are parameters.  Signal masks, the send buffer size
    and the gateway constructor's wiring of callbacks are single system calls or
    assignments.  The constructor of ProxyTransaction over a bare port and the
    seams of tests in Gateway.cpp are used by tests only.  Memory
    exhaustion is modelled only where the code handles it. *)

From Stdlib Require Export ZArith Lia.
From stdpp Require Export prelude list gmap sets.

#[global] Open Scope Z_scope.

(** ** Machine integers

    Unsigned C++ integers wrap around and are kept in [0, 2^w); signed
    integers are kept as unbounded [Z], and the development proves that the
    values the code computes stay in range (signed overflow is undefined
    behaviour, so an out-of-range value would be a bug). *)

Definition u32_modulus : Z := 4294967296.
Definition u64_modulus : Z := 18446744073709551616.
Definition i64_modulus : Z := 9223372036854775808.

Definition wrap_u32 (z : Z) : Z := z mod u32_modulus.
Definition wrap_u64 (z : Z) : Z := z mod u64_modulus.

(** Unsigned addition as the machine does it. *)
Declare Scope machine_scope.
Delimit Scope machine_scope with machine.
Notation "x '+u32' y" := (wrap_u32 (x + y)) (at level 50, left associativity) : machine_scope.
Notation "x '+u64' y" := (wrap_u64 (x + y)) (at level 50, left associativity) : machine_scope.

Definition is_u32 (z : Z) : Prop := 0 <= z < u32_modulus.
Definition is_u64 (z : Z) : Prop := 0 <= z < u64_modulus.
Definition is_i64 (z : Z) : Prop := - i64_modulus <= z < i64_modulus.

#[global] Instance is_u32_dec z : Decision (is_u32 z).
Proof. unfold is_u32; apply _. Defined.
#[global] Instance is_u64_dec z : Decision (is_u64 z).
Proof. unfold is_u64; apply _. Defined.
#[global] Instance is_i64_dec z : Decision (is_i64 z).
Proof. unfold is_i64; apply _. Defined.

(** [mlia] is [lia] after the machine-width predicates are unfolded. *)
Ltac munfold :=
  unfold is_u32, is_u64, is_i64, u32_modulus, u64_modulus, i64_modulus in *.
Ltac mlia := munfold; lia.
Ltac mnia := munfold; nia.

(** [zcases] performs the case analysis of every integer comparison that a
    conditional of the goal or of a hypothesis tests. *)
Ltac zcase :=
  match goal with
  | |- context [?a <=? ?b] => destruct (Z.leb_spec a b)
  | |- context [?a <? ?b] => destruct (Z.ltb_spec a b)
  | |- context [?a =? ?b] => destruct (Z.eqb_spec a b)
  | |- context [?a >=? ?b] => rewrite (Z.geb_leb a b)
  | |- context [?a >? ?b] => rewrite (Z.gtb_ltb a b)
  | H : context [?a <=? ?b] |- _ => destruct (Z.leb_spec a b)
  | H : context [?a <? ?b] |- _ => destruct (Z.ltb_spec a b)
  | H : context [?a =? ?b] |- _ => destruct (Z.eqb_spec a b)
  | H : context [?a >=? ?b] |- _ => rewrite (Z.geb_leb a b) in H
  | H : context [?a >? ?b] |- _ => rewrite (Z.gtb_ltb a b) in H
  end.
Ltac zcases := repeat (zcase; simpl in *; try discriminate; try lia).

Lemma wrap_u32_small z : is_u32 z -> wrap_u32 z = z.
Proof. intros; by apply Z.mod_small. Qed.

Lemma wrap_u64_small z : is_u64 z -> wrap_u64 z = z.
Proof. intros; by apply Z.mod_small. Qed.

Lemma wrap_u32_range z : is_u32 (wrap_u32 z).
Proof. by apply Z.mod_pos_bound. Qed.

Lemma wrap_u64_range z : is_u64 (wrap_u64 z).
Proof. by apply Z.mod_pos_bound. Qed.

(** The facts automation may use: ranges and non-negativity ([aegis], with
    [auto]), and how sums and logs distribute over appending ([aegis], with
    [autorewrite]). *)
Create HintDb aegis.
#[export] Hint Resolve wrap_u32_range wrap_u64_range : aegis.

(** [wraps] proves equalities of sums that are reduced modulo 2^64. *)
Ltac wraps := unfold wrap_u64; rewrite ?Zplus_mod_idemp_l, ?Zplus_mod_idemp_r; try (f_equal; lia).

(** C++ integer division truncates towards zero; on the non-negative values
    the code divides it is the floor division. *)
Lemma quot_nonneg a b : 0 <= a -> 0 < b -> Z.quot a b = a / b.
Proof. intros; apply Z.quot_div_nonneg; lia. Qed.

(** The ceiling division idiom [(a + b - 1) / b]. *)
Definition ceil_div (a b : Z) : Z := Z.quot (a + b - 1) b.

Lemma ceil_div_le a b e : 0 <= a -> 0 < b -> ceil_div a b <= e <-> a <= b * e.
Proof.
  intros Ha Hb. unfold ceil_div. rewrite quot_nonneg by lia.
  pose proof (Z.div_mod (a + b - 1) b ltac:(lia)).
  pose proof (Z.mod_pos_bound (a + b - 1) b Hb). nia.
Qed.

Lemma ceil_div_nonneg a b : 0 <= a -> 0 < b -> 0 <= ceil_div a b.
Proof.
  intros. unfold ceil_div. rewrite quot_nonneg by lia. apply Z.div_pos; lia.
Qed.

(** ** Executions

    A component's step relation is an [Inductive]; its executions are the
    reflexive transitive closure [rtc] of stdpp, and an invariant of the
    steps is an invariant of the executions. *)
Lemma rtc_preserves {S} (R : S -> S -> Prop) (I : S -> Prop) :
  (forall s s', I s -> R s s' -> I s') ->
  forall s s', rtc R s s' -> I s -> I s'.
Proof. intros HI s s'. induction 1; eauto. Qed.

(** Building a concrete execution: each state is normalised before the next
    step. *)
Lemma rtc_to {S} (R : S -> S -> Prop) x y y' z : R x y -> y = y' -> rtc R y' z -> rtc R x z.
Proof. intros H <-. by apply rtc_l. Qed.

Ltac run_step tac := eapply rtc_to; [tac; reflexivity|lazy; reflexivity|].

(** A log replayed by an automaton: [None] once an event was not allowed. *)
Section Automaton.
Context {V E : Type} (step : V -> E -> option V) (start : V).

Definition accepts (l : list E) : option V := foldl (fun v e => v ← v; step v e) (Some start) l.

Lemma accepts_app l k : accepts (l ++ k) = foldl (fun v e => v ← v; step v e) (accepts l) k.
Proof. apply foldl_app. Qed.

Lemma accepts_snoc l e : accepts (l ++ [e]) = (v ← accepts l; step v e).
Proof. by rewrite accepts_app. Qed.

End Automaton.
#[export] Hint Rewrite @accepts_snoc : aegis.

(** ** Lists *)

Definition sumZ (l : list Z) : Z := foldr Z.add 0 l.

Lemma sumZ_cons x l : sumZ (x :: l) = x + sumZ l.
Proof. done. Qed.

Lemma sumZ_app l k : sumZ (l ++ k) = sumZ l + sumZ k.
Proof. induction l; simpl; lia. Qed.

Lemma sumZ_insert (l : list Z) i x y :
  l !! i = Some x -> sumZ (<[i := y]> l) = sumZ l - x + y.
Proof.
  revert i; induction l as [|a l IH]; intros [|i] H; simplify_eq/=; [lia|].
  rewrite (IH _ H). lia.
Qed.

Lemma sumZ_nonneg l : Forall (fun z => 0 <= z) l -> 0 <= sumZ l.
Proof. induction 1; simpl; lia. Qed.

#[export] Hint Resolve sumZ_nonneg : aegis.
#[export] Hint Rewrite sumZ_app : aegis.

Lemma sumZ_fmap_add {A} (f g : A -> Z) (l : list A) :
  sumZ ((fun x => f x + g x) <$> l) = sumZ (f <$> l) + sumZ (g <$> l).
Proof. induction l as [|x l IH]; [done|]. rewrite !fmap_cons, !sumZ_cons, IH. lia. Qed.

(** A sum over the elements is a sum over the indices. *)
Lemma sumZ_indices {A} (g : A -> Z) (h : nat -> Z) (l : list A) :
  (forall i x, l !! i = Some x -> g x = h i) ->
  sumZ (g <$> l) = sumZ (h <$> seq 0 (length l)).
Proof.
  intros H. f_equal. apply list_eq. intros i. rewrite !list_lookup_fmap.
  destruct (l !! i) as [x|] eqn:E; simpl.
  - rewrite lookup_seq_lt by (by eapply lookup_lt_Some). simpl. f_equal. by apply H.
  - rewrite lookup_seq_ge; [done|]. by apply lookup_ge_None.
Qed.

(** *** Permutations *)

Lemma count_cons_app (a : nat) l x : count_occ Nat.eq_dec (a :: l) x = (count_occ Nat.eq_dec [a] x + count_occ Nat.eq_dec l x)%nat.
Proof. simpl. by destruct (Nat.eq_dec a x). Qed.

(** [perm_lia] proves a permutation of lists of numbers from permutations, by
    counting. *)
Ltac count_norm H := rewrite ?fmap_app, ?fmap_cons, ?fmap_nil in H; rewrite ?count_occ_app in H;
  repeat match type of H with context [count_occ Nat.eq_dec (?a :: ?l) ?x] =>
    lazymatch l with [] => fail | _ => rewrite (count_cons_app a l x) in H end end.
Ltac perm_lia :=
  rewrite ?fmap_app, ?fmap_cons, ?fmap_nil; apply (Permutation_count_occ Nat.eq_dec); intros x;
  repeat match goal with H : _ ≡ₚ _ |- _ =>
    let H' := fresh in pose proof (proj1 (Permutation_count_occ Nat.eq_dec _ _) H x) as H'; clear H; count_norm H' end;
  rewrite ?count_occ_app;
  repeat match goal with |- context [count_occ Nat.eq_dec (?a :: ?l) ?x] =>
    lazymatch l with [] => fail | _ => rewrite (count_cons_app a l x) end end;
  simpl (count_occ _ [] _) in *; lia.

(** ** Finite maps *)

(** How many values of the map satisfy [P]. *)
Definition mcount {A} (P : A -> bool) (m : gmap nat A) : Z :=
  Z.of_nat (size (filter (fun p => P p.2 = true) m)).

Lemma mcount_insert_new {A} (P : A -> bool) (m : gmap nat A) i x :
  m !! i = None -> mcount P (<[ i := x ]> m) = mcount P m + (if P x then 1 else 0).
Proof.
  intros Hi. unfold mcount. destruct (P x) eqn:E.
  - rewrite map_filter_insert_True by done. rewrite map_size_insert_None; [lia|].
    apply map_lookup_filter_None_2. by left.
  - rewrite map_filter_insert_False by (simpl; congruence). rewrite delete_id by done. lia.
Qed.

Lemma mcount_delete {A} (P : A -> bool) (m : gmap nat A) i x :
  m !! i = Some x -> mcount P (delete i m) = mcount P m - (if P x then 1 else 0).
Proof.
  intros Hi. rewrite <- (insert_delete_id m i x Hi) at 2.
  rewrite mcount_insert_new by apply lookup_delete_eq. lia.
Qed.

Lemma mcount_insert {A} (P : A -> bool) (m : gmap nat A) i x y :
  m !! i = Some x ->
  mcount P (<[ i := y ]> m) = mcount P m - (if P x then 1 else 0) + (if P y then 1 else 0).
Proof.
  intros Hi. rewrite <- insert_delete_eq, mcount_insert_new by apply lookup_delete_eq.
  by rewrite (mcount_delete P m i x Hi).
Qed.

Lemma mcount_nonneg {A} (P : A -> bool) (m : gmap nat A) : 0 <= mcount P m.
Proof. unfold mcount. lia. Qed.

#[export] Hint Resolve mcount_nonneg : aegis.

Lemma mcount_pos {A} (P : A -> bool) (m : gmap nat A) i x :
  m !! i = Some x -> P x = true -> 1 <= mcount P m.
Proof.
  intros Hi HP. pose proof (mcount_delete P m i x Hi) as H. rewrite HP in H.
  pose proof (mcount_nonneg P (delete i m)). lia.
Qed.

Lemma mcount_empty {A} (P : A -> bool) : mcount P (∅ : gmap nat A) = 0.
Proof. done. Qed.

Lemma mcount_zero {A} (P : A -> bool) (m : gmap nat A) :
  (forall i x, m !! i = Some x -> P x = false) -> mcount P m = 0.
Proof.
  intros H. unfold mcount. rewrite (proj2 (map_empty_filter _ m)); [done|].
  intros i x Hi; simpl. rewrite (H i x Hi). done.
Qed.
