(* ===== verification/Atomics.v ===== *)
(** * Compare-and-swap loops

    The lock-free counters of the gateway (the global credit, the in-flight
    counter, the probe slots, the outcome credits) are all updated by the same
    loop: load the cell, decide from the loaded value either to return or to
    propose a new value, and install it with [compare_exchange_weak], retrying
    on failure.  This file models the loop once, as a small-step machine with
    any number of threads and arbitrary interleaving (including the spurious
    failures the weak exchange allows), and proves it linearizable: the calls
    that completed, in the order of their decisive access to the cell, form a
    sequential execution with the same results. *)

From S2P Require Import Prelude.

Section CasLoop.
Context {V O R : Type} `{EqDecision V, EqDecision R}.

(** One iteration of the loop from a loaded value: the new value to install
    ([None] when the loop returns without writing) and the call's result. *)
Context (attempt : O -> V -> option V * R).

(** The call executed atomically. *)
Definition apply (o : O) (v : V) : V * R :=
  match attempt o v with
  | (Some v', r) => (v', r)
  | (None, r) => (v, r)
  end.

(** Where a thread is in its call. *)
Inductive phase :=
  | Load (o : O)
  | Cas (o : O) (loaded : V)
  | Done (r : R).

(** The shared cell, the threads, and the completed calls in the order of
    their decisive access (history variable). *)
Record mach := Mach { cell : V; threads : gmap nat phase; hist : list (O * R) }.

Inductive step : mach -> mach -> Prop :=
  | step_call m i o :
      (threads m !! i = None \/ exists r, threads m !! i = Some (Done r)) ->
      step m (Mach (cell m) (<[i := Load o]> (threads m)) (hist m))
  | step_load_return m i o r :
      threads m !! i = Some (Load o) ->
      attempt o (cell m) = (None, r) ->
      step m (Mach (cell m) (<[i := Done r]> (threads m)) (hist m ++ [(o, r)]))
  | step_load m i o v r :
      threads m !! i = Some (Load o) ->
      attempt o (cell m) = (Some v, r) ->
      step m (Mach (cell m) (<[i := Cas o (cell m)]> (threads m)) (hist m))
  | step_cas_success m i o v' r :
      threads m !! i = Some (Cas o (cell m)) ->
      attempt o (cell m) = (Some v', r) ->
      step m (Mach v' (<[i := Done r]> (threads m)) (hist m ++ [(o, r)]))
  | step_cas_failure m i o v :
      threads m !! i = Some (Cas o v) ->
      step m (Mach (cell m) (<[i := Load o]> (threads m)) (hist m)).

(** Sequential replay of a history: the final value of the cell, provided
    every recorded result is the one the atomic call returns. *)
Fixpoint replay (v : V) (h : list (O * R)) : option V :=
  match h with
  | [] => Some v
  | (o, r) :: h =>
      let '(v', r') := apply o v in
      if decide (r' = r) then replay v' h else None
  end.

Lemma replay_app v h k : replay v (h ++ k) = replay v h ≫= fun v' => replay v' k.
Proof.
  revert v. induction h as [|[o r] h IH]; intros v; simpl; [done|].
  destruct (apply o v) as [v' r']. case_decide; [apply IH|done].
Qed.

Lemma replay_snoc v h o v' :
  replay v h = Some v' -> replay v (h ++ [(o, (apply o v').2)]) = Some (apply o v').1.
Proof.
  intros H. rewrite replay_app, H; simpl.
  destruct (apply o v') as [v2 r2]; simpl. by rewrite decide_True.
Qed.

Definition init (v : V) : mach := Mach v ∅ [].

Lemma step_linearizable v m m' :
  replay v (hist m) = Some (cell m) -> step m m' -> replay v (hist m') = Some (cell m').
Proof.
  intros H Hs. destruct Hs as [| m i o r Ht Ha | | m i o v' r Ht Ha |]; simpl; try done.
  - pose proof (replay_snoc _ _ o _ H) as Hr. unfold apply in Hr. by rewrite Ha in Hr.
  - pose proof (replay_snoc _ _ o _ H) as Hr. unfold apply in Hr. by rewrite Ha in Hr.
Qed.

(** Any interleaving of any number of calls is equivalent to the sequential
    execution of the completed calls. *)
Lemma cas_linearizable v m :
  rtc step (init v) m -> replay v (hist m) = Some (cell m).
Proof.
  intros Hs. eapply (rtc_preserves step (fun m => replay v (hist m) = Some (cell m)));
    [apply step_linearizable|exact Hs|done].
Qed.

(** An invariant of the atomic calls is an invariant of every interleaving. *)
Lemma cas_invariant (I : V -> Prop) v m :
  (forall o w, I w -> I (apply o w).1) ->
  I v -> rtc step (init v) m -> I (cell m).
Proof.
  intros Hpres Hv Hs%cas_linearizable.
  revert v Hv Hs. induction (hist m) as [|[o r] h IH]; intros v Hv Hs; simplify_eq/=; [done|].
  pose proof (Hpres o v Hv). destruct (apply o v) as [v' r'].
  case_decide; [|done]. by apply (IH v').
Qed.

(** A thread that runs alone finishes its call: one load and at most one
    exchange, with the result of the atomic call. *)
Lemma cas_solo m i o :
  threads m !! i = Some (Load o) ->
  exists m', rtc step m m' /\
    cell m' = (apply o (cell m)).1 /\
    threads m' !! i = Some (Done (apply o (cell m)).2).
Proof.
  intros Ht. destruct (attempt o (cell m)) as [[v'|] r] eqn:Ha.
  - exists (Mach v' (<[i := Done r]> (<[i := Cas o (cell m)]> (threads m)))
                 (hist m ++ [(o, r)])).
    unfold apply; rewrite Ha; simpl. split_and!; [|done|apply lookup_insert_eq].
    eapply rtc_l; [by eapply step_load|]. eapply rtc_once.
    eapply (step_cas_success (Mach _ _ _)); simpl; [apply lookup_insert_eq|exact Ha].
  - exists (Mach (cell m) (<[i := Done r]> (threads m)) (hist m ++ [(o, r)])).
    unfold apply; rewrite Ha; simpl. split_and!; [|done|apply lookup_insert_eq].
    eapply rtc_once. by eapply step_load_return.
Qed.

End CasLoop.

Arguments mach : clear implicits.
Arguments phase : clear implicits.
