(* ===== verification/Reservation.v ===== *)
(** * Weak-pointer RAII reservations

    Three classes of the gateway hand out the same kind of guard: a move-only
    object holding a [std::weak_ptr] to a shared counter, which gives its slot
    back exactly once ([resilience::InflightLimiter::Reservation],
    [resilience::GlobalAdmission::Reservation] and
    [routing::ActiveReservation]).  This file models the guard once, over the
    interface [SlotCounter] of the shared counter, and proves that the counter
    always equals the number of live guards bound to it.  The counters
    themselves are instances: [ActiveReservation] below, [InflightLimiter] in
    RateLimit and [GlobalAdmission] in Admission. *)

From S2P Require Import Prelude.

(** What a shared counter promises to the guards: [acquire] takes one slot
    (and fails when the counter refuses), [ReleaseOne] returns one slot and
    saturates at zero. *)
Class SlotCounter (S : Type) := {
  slots : S -> Z;
  acquire : S -> option S;
  ReleaseOne : S -> S
}.

Class SlotCounterLaws (S : Type) `{SlotCounter S} := {
  acquire_slots s s' :
    0 <= slots s -> slots s + 1 < u32_modulus ->
    acquire s = Some s' -> slots s' = slots s + 1;
  ReleaseOne_slots s : slots (ReleaseOne s) = if slots s =? 0 then slots s else slots s - 1
}.

(** A guard's [state_] member: empty, or a weak reference to a counter. *)
Abbreviation handle := (option nat).

Section Guards.
Context {S : Type} `{SlotCounter S}.

(** The live shared counters, and the guard objects by name. *)
Record sys := Sys { heap : gmap nat S; env : gmap nat handle }.

(** [weak_ptr::lock]: the counter, when its owner still keeps it alive. *)
Definition lock (h : gmap nat S) (r : handle) : option (nat * S) :=
  match r with
  | Some l => match h !! l with Some s => Some (l, s) | None => None end
  | None => None
  end.

(** [explicit operator bool]: the guard is bound and its counter is alive. *)
Definition bound (h : gmap nat S) (r : handle) : bool :=
  match lock h r with Some _ => true | None => false end.

(** [Release]: lock, reset the weak pointer, return the slot. *)
Definition Release (h : gmap nat S) (r : handle) : gmap nat S * handle :=
  match lock h r with
  | Some (l, s) => (<[l := ReleaseOne s]> h, None)
  | None => (h, None)
  end.

(** The operations a program performs on guards: acquiring from a live
    counter, the move constructor, the move assignment, an explicit
    [Release], the destructor, and the destruction of the counter's owner. *)
Inductive op :=
  | OAcquire (x l : nat)
  | OMoveConstruct (x y : nat)
  | OMoveAssign (x y : nat)
  | ORelease (x : nat)
  | ODestroy (x : nat)
  | ODropOwner (l : nat).

(** One operation; [None] when the program is ill-formed (it names an object
    that does not exist, or constructs one twice). *)
Definition exec (o : op) (st : sys) : option sys :=
  match o with
  | OAcquire x l =>
      match heap st !! l, env st !! x with
      | Some s, None =>
          match acquire s with
          | Some s' => Some (Sys (<[l := s']> (heap st)) (<[x := Some l]> (env st)))
          | None => Some (Sys (heap st) (<[x := None]> (env st)))
          end
      | _, _ => None
      end
  | OMoveConstruct x y =>
      match env st !! x, env st !! y with
      | None, Some r => Some (Sys (heap st) (<[x := r]> (<[y := None]> (env st))))
      | _, _ => None
      end
  | OMoveAssign x y =>
      match env st !! x, env st !! y with
      | Some rx, Some ry =>
          if decide (x = y) then Some st
          else let '(h, _) := Release (heap st) rx in
               Some (Sys h (<[x := ry]> (<[y := None]> (env st))))
      | _, _ => None
      end
  | ORelease x =>
      match env st !! x with
      | Some r => let '(h, r') := Release (heap st) r in
                  Some (Sys h (<[x := r']> (env st)))
      | None => None
      end
  | ODestroy x =>
      match env st !! x with
      | Some r => let '(h, _) := Release (heap st) r in
                  Some (Sys h (delete x (env st)))
      | None => None
      end
  | ODropOwner l => Some (Sys (delete l (heap st)) (env st))
  end.

Fixpoint exec_all (os : list op) (st : sys) : option sys :=
  match os with
  | [] => Some st
  | o :: os => exec o st ≫= exec_all os
  end.

(** The guards bound to counter [l]. *)
Definition holds (l : nat) (p : nat * handle) : Prop := p.2 = Some l.

#[global] Instance holds_dec l p : Decision (holds l p).
Proof. unfold holds. apply _. Defined.

Definition holders (l : nat) (e : gmap nat handle) : Z :=
  Z.of_nat (size (filter (holds l) e)).

Definition held (l : nat) (r : option handle) : Z :=
  if decide (r = Some (Some l)) then 1 else 0.

#[local] Arguments held : simpl never.
#[local] Arguments holders : simpl never.

Lemma holders_insert l e x r :
  holders l (<[x := r]> e) = holders l (delete x e) + held l (Some r).
Proof.
  unfold holders, held. rewrite <- insert_delete_eq.
  case_decide as Hr.
  - simplify_eq. rewrite map_filter_insert_True by done.
    rewrite map_size_insert_None; [lia|].
    apply map_lookup_filter_None_2. left. apply lookup_delete_eq.
  - rewrite map_filter_insert_False by (intros Hh; apply Hr, f_equal, Hh).
    rewrite (delete_id (delete x e)) by apply lookup_delete_eq. lia.
Qed.

Lemma holders_lookup l e x :
  holders l e = holders l (delete x e) + held l (e !! x).
Proof.
  destruct (e !! x) as [r|] eqn:E.
  - rewrite <- (insert_id e x r) at 1 by done. apply holders_insert.
  - rewrite delete_id by done. unfold held. case_decide; [done|lia].
Qed.

Lemma holders_update l e x r :
  holders l (<[x := r]> e) = holders l e - held l (e !! x) + held l (Some r).
Proof. rewrite (holders_lookup l e x), holders_insert. lia. Qed.

Lemma holders_delete l e x : holders l (delete x e) = holders l e - held l (e !! x).
Proof. rewrite (holders_lookup l e x). lia. Qed.

Lemma held_range l r : 0 <= held l r <= 1.
Proof. unfold held. case_decide; lia. Qed.

Lemma held_None l : held l (Some None) = 0 /\ held l None = 0.
Proof. split; unfold held; by rewrite decide_False. Qed.

Lemma held_Some l k : held l (Some (Some k)) = if decide (l = k) then 1 else 0.
Proof. unfold held. repeat case_decide; simplify_eq; done. Qed.

Lemma holders_nonneg l e : 0 <= holders l e.
Proof. unfold holders. lia. Qed.

(** Every live counter counts exactly its guards. *)
Definition counted (st : sys) : Prop :=
  forall l s, heap st !! l = Some s -> slots s = holders l (env st).

(** Fewer than 2^32 guards exist (each is an object in memory). *)
Definition few (st : sys) : Prop := Z.of_nat (size (env st)) + 1 < u32_modulus.

Lemma holders_le_size l e : holders l e <= Z.of_nat (size e).
Proof.
  unfold holders. apply Nat2Z.inj_le.
  apply map_subseteq_size, map_filter_subseteq.
Qed.

Context `{!SlotCounterLaws S}.

(** Releasing guard [x] returns exactly its slot. *)
Lemma Release_counted st x r :
  counted st -> env st !! x = Some r ->
  forall l s, (Release (heap st) r).1 !! l = Some s ->
  slots s = holders l (env st) - held l (Some r).
Proof.
  intros Hc Hx l s. unfold Release, lock.
  destruct r as [k|]; simpl.
  2: { intros Hl. rewrite (Hc _ _ Hl), (proj1 (held_None l)). lia. }
  rewrite held_Some.
  destruct (heap st !! k) as [sk|] eqn:Hk; simpl.
  2: { intros Hl. rewrite (Hc _ _ Hl). case_decide; [congruence|lia]. }
  rewrite lookup_insert. case_decide as E; intros Hl; simplify_eq.
  - rewrite ReleaseOne_slots, (Hc _ _ Hk), decide_True by done.
    pose proof (holders_lookup l (env st) x) as Hh. rewrite Hx, held_Some in Hh.
    rewrite decide_True in Hh by done.
    pose proof (holders_nonneg l (delete x (env st))). zcases.
  - rewrite (Hc _ _ Hl), decide_False by congruence. lia.
Qed.

Lemma exec_counted o st st' :
  counted st -> few st -> exec o st = Some st' -> counted st'.
Proof.
  intros Hc Hf He. destruct o as [x l|x y|x y|x|x|l]; simpl in He.
  - destruct (heap st !! l) as [s|] eqn:Hl, (env st !! x) as [r|] eqn:Hx;
      simplify_eq.
    destruct (acquire s) as [s'|] eqn:Ha; simplify_eq; intros k sk; simpl.
    + rewrite lookup_insert, holders_update, Hx, held_Some, (proj2 (held_None k)).
      pose proof (holders_nonneg l (env st)). pose proof (holders_le_size l (env st)).
      unfold few in Hf.
      case_decide as E; intros Hk; simplify_eq.
      * rewrite (acquire_slots _ _ ltac:(rewrite (Hc _ _ Hl); lia)
                  ltac:(rewrite (Hc _ _ Hl); mlia) Ha), (Hc _ _ Hl).
        rewrite decide_True by done. lia.
      * rewrite (Hc _ _ Hk), decide_False by congruence. lia.
    + intros Hk. rewrite holders_update, Hx, (Hc _ _ Hk).
      destruct (held_None k) as [-> ->]. lia.
  - destruct (env st !! x) as [rx|] eqn:Hx; [done|].
    destruct (env st !! y) as [ry|] eqn:Hy; simplify_eq.
    intros k sk Hk; simpl in *. assert (x <> y) by congruence.
    rewrite !holders_update, lookup_insert_ne, Hx, Hy, (Hc _ _ Hk) by done.
    destruct (held_None k) as [-> ->]. lia.
  - destruct (env st !! x) as [rx|] eqn:Hx; [|done].
    destruct (env st !! y) as [ry|] eqn:Hy; [|done].
    case_decide; simplify_eq; [done|].
    pose proof (Release_counted st x rx Hc Hx) as HR.
    destruct (Release (heap st) rx) as [h r'] eqn:ER; simplify_eq.
    intros k sk Hk; simpl in *.
    rewrite !holders_update, lookup_insert_ne, Hx, Hy, (HR _ _ Hk) by done.
    destruct (held_None k) as [-> _]. lia.
  - destruct (env st !! x) as [rx|] eqn:Hx; [|done].
    pose proof (Release_counted st x rx Hc Hx) as HR.
    destruct (Release (heap st) rx) as [h r'] eqn:ER.
    assert (r' = None) as -> by (unfold Release in ER; repeat case_match; congruence).
    simplify_eq. intros k sk Hk; simpl in *.
    rewrite holders_update, Hx, (HR _ _ Hk). destruct (held_None k) as [-> _]. lia.
  - destruct (env st !! x) as [rx|] eqn:Hx; [|done].
    pose proof (Release_counted st x rx Hc Hx) as HR.
    destruct (Release (heap st) rx) as [h r'] eqn:ER; simplify_eq.
    intros k sk Hk; simpl in *. rewrite holders_delete, Hx, (HR _ _ Hk). lia.
  - simplify_eq. intros k sk; simpl. rewrite lookup_delete.
    case_decide; [done|]. apply Hc.
Qed.

(** Every prefix of the program keeps the number of guard objects below 2^32. *)
Fixpoint all_few (os : list op) (st : sys) : Prop :=
  few st /\
  match os with
  | [] => True
  | o :: os => match exec o st with Some st' => all_few os st' | None => True end
  end.

Lemma exec_all_counted os st st' :
  counted st -> all_few os st -> exec_all os st = Some st' -> counted st'.
Proof.
  revert st. induction os as [|o os IH]; intros st Hc Hf He; simplify_eq/=; [done|].
  destruct Hf as [Hf Hfs].
  destruct (exec o st) as [st1|] eqn:E; simpl in *; [|done].
  apply (IH st1); eauto using exec_counted.
Qed.

End Guards.

Arguments sys : clear implicits.

(** A counter with a fixed limit: [acquire] refuses at the limit. *)
Class SlotLimit (S : Type) `{SlotCounter S} := {
  limit : S -> Z;
  acquire_limit s s' : acquire s = Some s' -> limit s' = limit s /\ slots s' <= limit s';
  ReleaseOne_limit s : limit (ReleaseOne s) = limit s
}.

Section Limited.
Context {S : Type} `{SlotCounter S, !SlotCounterLaws S, !SlotLimit S}.

Definition limited (st : sys S) : Prop :=
  forall l s, heap st !! l = Some s -> 0 <= slots s <= limit s.

Lemma Release_limited (h : gmap nat S) r :
  (forall l s, h !! l = Some s -> 0 <= slots s <= limit s) ->
  forall l s, (Release h r).1 !! l = Some s -> 0 <= slots s <= limit s.
Proof.
  intros Hh l s. unfold Release, lock. destruct r as [k|]; simpl; [|apply Hh].
  destruct (h !! k) as [sk|] eqn:Hk; simpl; [|apply Hh].
  rewrite lookup_insert. case_decide; intros; simplify_eq; [|by apply (Hh l)].
  rewrite ReleaseOne_limit, ReleaseOne_slots. specialize (Hh _ _ Hk). zcases.
Qed.

Lemma exec_limited o (st st' : sys S) :
  counted st -> few st -> limited st -> exec o st = Some st' -> limited st'.
Proof.
  intros Hc Hf Hl He.
  assert (Hr : forall r, forall k s, (Release (heap st) r).1 !! k = Some s ->
                         0 <= slots s <= limit s) by (intros; by eapply Release_limited).
  destruct o as [x l|x y|x y|x|x|l]; simpl in He.
  - destruct (heap st !! l) as [s|] eqn:E, (env st !! x); simplify_eq.
    destruct (acquire s) as [s'|] eqn:Ha; simplify_eq; [|done].
    intros k sk; simpl. rewrite lookup_insert.
    case_decide; intros; simplify_eq; [|by eapply Hl].
    pose proof (acquire_limit _ _ Ha). pose proof (Hc _ _ E).
    pose proof (holders_le_size k (env st)). unfold few in Hf.
    pose proof (acquire_slots _ _ ltac:(apply (Hl _ _ E)) ltac:(mlia) Ha).
    specialize (Hl _ _ E). lia.
  - repeat case_match; simplify_eq; done.
  - destruct (env st !! x) as [r|], (env st !! y) as [ry|]; try done.
    case_decide; simplify_eq; [done|].
    destruct (Release (heap st) r) eqn:E; simplify_eq.
    intros k sk Hk; simpl in *. by eapply (Hr r k); rewrite E.
  - destruct (env st !! x) as [r|]; [|done].
    destruct (Release (heap st) r) eqn:E; simplify_eq.
    intros k sk Hk; simpl in *. by eapply (Hr r k); rewrite E.
  - destruct (env st !! x) as [r|]; [|done].
    destruct (Release (heap st) r) eqn:E; simplify_eq.
    intros k sk Hk; simpl in *. by eapply (Hr r k); rewrite E.
  - simplify_eq. intros k sk; simpl. rewrite lookup_delete. case_decide; [done|].
    apply Hl.
Qed.

Lemma exec_all_limited os (st st' : sys S) :
  counted st -> limited st -> all_few os st -> exec_all os st = Some st' ->
  counted st' /\ limited st'.
Proof.
  revert st. induction os as [|o os IH]; intros st Hc Hl Hf He; simplify_eq/=; [done|].
  destruct Hf as [Hf Hfs].
  destruct (exec o st) as [st1|] eqn:E; simpl in *; [|done].
  apply (IH st1); eauto using exec_counted, exec_limited.
Qed.

End Limited.

(** ** [routing::ActiveReservation] *)
Module ActiveReservation.

(** [ActiveReservation::State]: one route x endpoint active-attempt count. *)
Record State := mkState { count : Z }.

Definition ReleaseOne (s : State) : State :=
  if count s =? 0 then s else mkState (count s - 1).

(** [++active->count] of [SelectionState::AcquireActive]. *)
Definition AcquireOne (s : State) : State := mkState (wrap_u32 (count s + 1)).

#[global] Instance State_counter : SlotCounter State := {|
  slots := count;
  acquire s := Some (AcquireOne s);
  Reservation.ReleaseOne := ReleaseOne
|}.

#[global] Instance State_laws : SlotCounterLaws State.
Proof.
  split; simpl.
  - intros s s' H0 Hs Ha. unfold AcquireOne in Ha. simplify_eq; simpl.
    apply wrap_u32_small. mlia.
  - intros s. unfold ReleaseOne. by zcases.
Qed.

End ActiveReservation.
