(* ===== verification/Effects.v ===== *)
(** * Effects

    A state monad for code that runs against the operating system and against
    callbacks: a computation returns, throws an exception with the state it
    left behind, gets stuck on an access through a null pointer, or runs out
    of the fuel of one of its loops.  [wp] is its weakest precondition for
    partial correctness: it excludes the stuck outcome and allows running out
    of fuel. *)

From S2P Require Import Prelude.

Inductive result (S A : Type) :=
| Ret (a : A) (s : S)
| Throw (s : S)
| Stuck
| Spin.
Arguments Ret {S A}.
Arguments Throw {S A}.
Arguments Stuck {S A}.
Arguments Spin {S A}.

Definition M (S A : Type) : Type := S -> result S A.

Definition ret {S A : Type} (a : A) : M S A := fun s => Ret a s.

Definition bind {S A B : Type} (m : M S A) (k : A -> M S B) : M S B := fun s =>
  match m s with
  | Ret a s => k a s
  | Throw s => Throw s
  | Stuck => Stuck
  | Spin => Spin
  end.

Declare Scope effect_scope.
Delimit Scope effect_scope with effect.
Notation "x <- m ;; k" := (bind m (fun x => k))
  (at level 100, m at next level, k at level 200, right associativity) : effect_scope.
Notation "m ;; k" := (bind m (fun _ => k))
  (at level 100, k at level 200, right associativity) : effect_scope.

Definition gets {S A} (f : S -> A) : M S A := fun s => Ret (f s) s.
Definition modify {S} (f : S -> S) : M S unit := fun s => Ret tt (f s).
Definition throw {S A} : M S A := fun s => Throw s.
Definition stuck {S A} : M S A := fun s => Stuck.
Definition spin {S A} : M S A := fun s => Spin.
Definition catch {S A} (m handler : M S A) : M S A := fun s =>
  match m s with Throw s => handler s | r => r end.

Section Wp.
Context {S : Type}.
Implicit Types E : S -> Prop.

(** [Q] holds of what [m] returns from [s], and [E] of the state an exception
    leaves. *)
Definition wp {A : Type} (m : M S A) (Q : A -> S -> Prop) (E : S -> Prop) (s : S) : Prop :=
  match m s with
  | Ret a s => Q a s
  | Throw s => E s
  | Stuck => False
  | Spin => True
  end.

Lemma wp_ret {A : Type} (a : A) Q E s : Q a s -> wp (ret a) Q E s.
Proof. done. Qed.

Lemma wp_bind {A B : Type} (m : M S A) (k : A -> M S B) Q E s :
  wp m (fun a s => wp (k a) Q E s) E s -> wp (bind m k) Q E s.
Proof. unfold wp, bind. by destruct (m s). Qed.

Lemma wp_gets {A : Type} (f : S -> A) Q E s : Q (f s) s -> wp (gets f) Q E s.
Proof. done. Qed.

Lemma wp_modify (f : S -> S) Q E s : Q tt (f s) -> wp (modify f) Q E s.
Proof. done. Qed.

Lemma wp_throw {A : Type} Q E s : E s -> wp (throw : M S A) Q E s.
Proof. done. Qed.

Lemma wp_spin {A : Type} Q E s : wp (spin : M S A) Q E s.
Proof. done. Qed.

Lemma wp_mono {A : Type} (m : M S A) (Q Q' : A -> S -> Prop) E E' s :
  wp m Q E s -> (forall a s, Q a s -> Q' a s) -> (forall s, E s -> E' s) -> wp m Q' E' s.
Proof. unfold wp. destruct (m s); auto. Qed.

Lemma wp_and {A : Type} (m : M S A) (Q Q' : A -> S -> Prop) E E' s :
  wp m Q E s -> wp m Q' E' s -> wp m (fun a s => Q a s /\ Q' a s) (fun s => E s /\ E' s) s.
Proof. unfold wp. destruct (m s); auto. Qed.

Lemma wp_catch {A : Type} (m handler : M S A) Q E s :
  wp m Q (fun s => wp handler Q E s) s -> wp (catch m handler) Q E s.
Proof. unfold wp, catch. by destruct (m s). Qed.

Lemma wp_if {A : Type} (b : bool) (m1 m2 : M S A) Q E s :
  (b = true -> wp m1 Q E s) -> (b = false -> wp m2 Q E s) -> wp (if b then m1 else m2) Q E s.
Proof. destruct b; auto. Qed.

(** What a returning run of [m] satisfies. *)
Lemma wp_Ret {A : Type} (m : M S A) Q E s a s' : wp m Q E s -> m s = Ret a s' -> Q a s'.
Proof. unfold wp. intros H Hm. by rewrite Hm in H. Qed.

End Wp.

(** ** Runs that do not exhaust their fuel *)

Section Returns.
Context {S : Type}.

Definition nospin {A : Type} (m : M S A) (s : S) : Prop := m s <> Spin.

Lemma nospin_bind {A B : Type} (m : M S A) (k : A -> M S B) s :
  nospin m s -> (forall a s', m s = Ret a s' -> nospin (k a) s') -> nospin (bind m k) s.
Proof. unfold nospin, bind. intros Hm Hk. destruct (m s) as [a s'|s'| |]; try done. by apply Hk. Qed.

Lemma nospin_if {A : Type} (b : bool) (m1 m2 : M S A) s :
  (b = true -> nospin m1 s) -> (b = false -> nospin m2 s) -> nospin (if b then m1 else m2) s.
Proof. destruct b; auto. Qed.

(** Partial correctness without exceptions, and no spinning, is total
    correctness. *)
Lemma wp_total {A : Type} (m : M S A) Q s :
  wp m Q (fun _ => False) s -> nospin m s -> exists a s', m s = Ret a s' /\ Q a s'.
Proof. unfold wp, nospin. destruct (m s) as [a s'|s'| |]; try done. eauto. Qed.

End Returns.
