(* ===== verification/Bytes.v ===== *)
(** * Byte strings

    [std::string] and [std::string_view] are lists of bytes; the functions
    below are the members of those classes the gateway uses, with
    [std::string_view::npos] as [None].  Character tests are the C locale's. *)

From Stdlib Require Export Strings.Byte.
From Stdlib Require Strings.String.
Export (notations) Strings.String.
From S2P Require Import Prelude.

Abbreviation bytes := (list byte).

#[global] Instance byte_eq_dec : EqDecision byte := Byte.byte_eq_dec.

(** A string literal of the source. *)
Definition lit (s : String.string) : bytes := String.list_byte_of_string s.
Arguments lit s%_string_scope.

(** The value of a character read as [unsigned char]. *)
Definition code (b : byte) : Z := Z.of_N (Byte.to_N b).

(** The byte of a small integer (0 outside the byte range). *)
Definition of_code (z : Z) : byte :=
  match Byte.of_N (Z.to_N z) with Some b => b | None => "000"%byte end.

Definition size (s : bytes) : Z := Z.of_nat (length s).

Definition beq (s r : bytes) : bool := bool_decide (s = r).

(** ** Search *)

Fixpoint starts_with (s p : bytes) {struct p} : bool :=
  match p, s with
  | [], _ => true
  | c :: p, d :: s => bool_decide (c = d) && starts_with s p
  | _ :: _, [] => false
  end.

(** [s.find(p)] *)
Fixpoint find (s p : bytes) : option nat :=
  if starts_with s p then Some 0%nat
  else match s with
       | [] => None
       | _ :: s => S <$> find s p
       end.

(** [s.find(p, pos)] *)
Definition find_from (s p : bytes) (pos : nat) : option nat :=
  if bool_decide (pos <= length s)%nat then (fun n => pos + n)%nat <$> find (drop pos s) p
  else None.

(** [s.substr(pos, len)] for [pos <= s.size()]. *)
Definition substr (s : bytes) (pos len : nat) : bytes := take len (drop pos s).

(** ** Character classes *)

Definition in_range (b : byte) (lo hi : Z) : bool := (lo <=? code b) && (code b <=? hi).

Definition is_digit (b : byte) : bool := in_range b 48 57.
Definition is_upper (b : byte) : bool := in_range b 65 90.
Definition is_lower (b : byte) : bool := in_range b 97 122.
Definition is_alnum (b : byte) : bool := is_upper b || is_lower b || is_digit b.

(** [value - 'A' + 'a'] on upper-case ASCII letters, identity elsewhere. *)
Definition lower (b : byte) : byte := if is_upper b then of_code (code b + 32) else b.

Definition lower_all (s : bytes) : bytes := lower <$> s.

Definition CR : byte := "013"%byte.
Definition LF : byte := "010"%byte.
Definition CRLF : bytes := [CR; LF].

(** ** Lemmas *)

Lemma code_range b : 0 <= code b < 256.
Proof. unfold code. pose proof (Byte.to_N_bounded b). lia. Qed.

Lemma code_of_code z : 0 <= z < 256 -> code (of_code z) = z.
Proof.
  intros Hz. unfold code, of_code.
  destruct (Byte.of_N (Z.to_N z)) as [b|] eqn:E.
  - apply Byte.to_of_N in E. rewrite E. lia.
  - apply Byte.of_N_None_iff in E. lia.
Qed.

Lemma lower_idemp b : lower (lower b) = lower b.
Proof. by destruct b. Qed.

Lemma lower_all_idemp s : lower_all (lower_all s) = lower_all s.
Proof.
  unfold lower_all. rewrite <- list_fmap_compose. apply list_fmap_ext.
  intros; apply lower_idemp.
Qed.

Lemma length_lower_all s : length (lower_all s) = length s.
Proof. apply length_fmap. Qed.

Lemma beq_spec s r : beq s r = true <-> s = r.
Proof. unfold beq. apply bool_decide_eq_true. Qed.

Lemma starts_with_spec s p : starts_with s p = true <-> exists k, s = p ++ k.
Proof.
  revert s; induction p as [|c p IH]; intros s; simpl.
  { split; [by exists s|done]. }
  destruct s as [|d s]; [by split; [|intros [k ?]]|].
  rewrite andb_true_iff, IH, bool_decide_eq_true. split.
  - intros [-> [k ->]]. by exists k.
  - intros [k ?]; simplify_eq. split; [done|by exists k].
Qed.

Lemma starts_with_app p k : starts_with (p ++ k) p = true.
Proof. apply starts_with_spec; eauto. Qed.

(** A match is where the pattern occurs, and it is the first one. *)
Lemma find_Some s p n :
  find s p = Some n <->
  starts_with (drop n s) p = true /\ (n <= length s)%nat /\
  forall m, (m < n)%nat -> starts_with (drop m s) p = false.
Proof.
  revert n; induction s as [|c s IH]; intros n.
  - simpl. rewrite !drop_nil. destruct (starts_with [] p) eqn:E; split.
    + intros; simplify_eq. split_and!; [done|simpl; lia|lia].
    + intros (_ & Hn & _). simpl in Hn. by replace n with 0%nat by lia.
    + done.
    + intros (H1 & _). congruence.
  - simpl. destruct (starts_with (c :: s) p) eqn:E; split.
    + intros; simplify_eq. split_and!; [done|lia|lia].
    + intros (_ & _ & H). destruct n as [|n]; [done|].
      specialize (H 0%nat ltac:(lia)). simpl in H. congruence.
    + intros (m & Hm & ->)%fmap_Some_1. apply IH in Hm as (H1 & H2 & H3).
      split_and!; [done|simpl; lia|]. intros [|k] Hk; [done|]. apply H3. lia.
    + destruct n as [|n]; simpl; [intros (H1 & _); simpl in *; congruence|].
      intros (H1 & H2 & H3).
      apply fmap_Some_2, IH. split_and!; [done|lia|].
      intros k Hk. apply (H3 (S k)). lia.
Qed.

Lemma find_None s p :
  find s p = None <-> forall n, (n <= length s)%nat -> starts_with (drop n s) p = false.
Proof.
  induction s as [|c s IH].
  - simpl. split.
    + intros H n Hn. rewrite drop_nil. by destruct (starts_with [] p).
    + intros H. specialize (H 0%nat ltac:(lia)). simpl in H. by rewrite H.
  - simpl. split.
    + destruct (starts_with (c :: s) p) eqn:E; [done|].
      rewrite fmap_None, IH. intros H [|n] Hn; [done|]. apply H. lia.
    + intros H. pose proof (H 0%nat ltac:(simpl; lia)) as H0. simpl in H0. rewrite H0.
      rewrite fmap_None, IH. intros n Hn. apply (H (S n)). simpl; lia.
Qed.

(** A single byte. *)
Lemma find_byte_app (s k : bytes) c : c ∉ s -> find (s ++ c :: k) [c] = Some (length s).
Proof.
  induction s as [|d s IH]; simpl; intros Hn.
  - by rewrite bool_decide_eq_true_2.
  - rewrite not_elem_of_cons in Hn. destruct Hn as [Hd Hn].
    rewrite bool_decide_eq_false_2 by done. simpl. by rewrite IH.
Qed.

Lemma find_byte_None (s : bytes) c : find s [c] = None <-> c ∉ s.
Proof.
  induction s as [|d s IH]; simpl.
  - split; [intros _; apply not_elem_of_nil|done].
  - rewrite not_elem_of_cons. case_bool_decide; simpl.
    + split; [done|]. by intros [? _].
    + rewrite fmap_None, IH. by split; [intros|intros [_ ?]].
Qed.

Lemma find_byte_Some (s : bytes) c n :
  find s [c] = Some n ->
  s = take n s ++ c :: drop (S n) s /\ c ∉ take n s.
Proof.
  revert n; induction s as [|d s IH]; intros n; simpl; [done|].
  case_bool_decide; simpl; intros Hf.
  - simplify_eq. split; [by rewrite drop_0|apply not_elem_of_nil].
  - apply fmap_Some_1 in Hf as (m & Hm & ->). destruct (IH _ Hm) as [H1 H2].
    split; [simpl; by rewrite <- H1|]. rewrite firstn_cons, not_elem_of_cons. done.
Qed.

(** ** Search in a growing string *)

#[global] Instance byte_countable : Countable byte.
Proof. apply (inj_countable Byte.to_N Byte.of_N Byte.of_to_N). Defined.

Lemma starts_with_app_l s k p :
  (length p <= length s)%nat -> starts_with (s ++ k) p = starts_with s p.
Proof.
  revert s; induction p as [|c p IH]; intros [|d s] H; simpl in *; try done; [lia|].
  by rewrite IH by lia.
Qed.

Lemma starts_with_length s p : starts_with s p = true -> (length p <= length s)%nat.
Proof. intros [k ->]%starts_with_spec. rewrite length_app. lia. Qed.

Lemma find_length s p n : find s p = Some n -> (n + length p <= length s)%nat.
Proof.
  intros (H1 & H2 & _)%find_Some. apply starts_with_length in H1.
  rewrite length_drop in H1. lia.
Qed.

(** A match inside the part already received is the match of the whole. *)
Lemma find_app s k p n :
  (n + length p <= length s)%nat -> find (s ++ k) p = Some n <-> find s p = Some n.
Proof.
  intros Hn. rewrite !find_Some.
  assert (H : forall m, (m <= n)%nat -> starts_with (drop m (s ++ k)) p = starts_with (drop m s) p).
  { intros m Hm. rewrite drop_app_le by lia. apply starts_with_app_l. rewrite length_drop. lia. }
  rewrite length_app. split; intros (H1 & H2 & H3); split_and!; try lia.
  - by rewrite <- H.
  - intros m Hm. rewrite <- H by lia. by apply H3.
  - by rewrite H.
  - intros m Hm. rewrite H by lia. by apply H3.
Qed.

Lemma find_app_Some s k p n : find s p = Some n -> find (s ++ k) p = Some n.
Proof. intros H. apply find_app; [by apply find_length|done]. Qed.

Lemma find_app_None s k p n :
  find s p = None -> find (s ++ k) p = Some n -> (length s < n + length p)%nat.
Proof.
  intros H1 H2. destruct (decide (n + length p <= length s)%nat) as [Hle|]; [|lia].
  apply find_app in H2; [congruence|done].
Qed.

Lemma find_exists s p n :
  starts_with (drop n s) p = true -> (n <= length s)%nat -> exists m, find s p = Some m /\ (m <= n)%nat.
Proof.
  intros H1 H2. destruct (find s p) as [m|] eqn:E.
  - exists m. split; [done|]. apply find_Some in E as (_ & _ & E).
    destruct (decide (m <= n)%nat); [done|]. rewrite E in H1 by lia. done.
  - rewrite find_None in E. by rewrite E in H1.
Qed.

(** The end of a line that holds no CR. *)
Lemma find_CRLF_line (l k : bytes) : CR ∉ l -> find (l ++ CRLF ++ k) CRLF = Some (length l).
Proof.
  intros Hl. apply find_Some. rewrite drop_app_length. split_and!.
  - apply (starts_with_app CRLF k).
  - rewrite length_app. lia.
  - intros m Hm. rewrite drop_app_le by lia.
    destruct (drop m l) as [|c l'] eqn:E.
    { apply (f_equal length) in E. rewrite length_drop in E. simpl in E. lia. }
    simpl. rewrite bool_decide_eq_false_2; [done|]. intros <-. apply Hl.
    apply (list_elem_of_lookup_2 _ m). rewrite <- (take_drop m l), E.
    rewrite lookup_app_r; rewrite length_take; [|lia].
    by replace (m - m `min` length l)%nat with 0%nat by lia.
Qed.

Lemma find_from_Some s p c n :
  find_from s p c = Some n <->
  (c <= length s)%nat /\ (c <= n)%nat /\ find (drop c s) p = Some (n - c)%nat.
Proof.
  unfold find_from. case_bool_decide as Hc; [|naive_solver].
  rewrite fmap_Some. split.
  - intros (m & Hm & ->). split_and!; [done|lia|]. by replace (c + m - c)%nat with m by lia.
  - intros (_ & H1 & H2). exists (n - c)%nat. split; [done|lia].
Qed.

Lemma find_from_length s p c n :
  find_from s p c = Some n -> (c <= n)%nat /\ (n + length p <= length s)%nat.
Proof.
  intros (H1 & H2 & H3)%find_from_Some. apply find_length in H3. rewrite length_drop in H3. lia.
Qed.

Lemma find_from_app_Some s k p c n : find_from s p c = Some n -> find_from (s ++ k) p c = Some n.
Proof.
  rewrite !find_from_Some, length_app. intros (H1 & H2 & H3). split_and!; [lia|done|].
  rewrite drop_app_le by done. by apply find_app_Some.
Qed.

Lemma find_from_app_None s k p c n :
  (c <= length s)%nat -> find_from s p c = None -> find_from (s ++ k) p c = Some n ->
  (length s < n + length p)%nat.
Proof.
  intros Hc H1 (H2 & H3 & H4)%find_from_Some. rewrite drop_app_le in H4 by done.
  unfold find_from in H1. rewrite bool_decide_eq_true_2 in H1 by done. apply fmap_None in H1.
  pose proof (find_app_None _ _ _ _ H1 H4) as H. rewrite length_drop in H. lia.
Qed.

Lemma substr_app s k c n : (c + n <= length s)%nat -> substr (s ++ k) c n = substr s c n.
Proof.
  intros H. unfold substr. rewrite drop_app_le by lia. apply take_app_le.
  rewrite length_drop. lia.
Qed.
