(* ===== verification/Types.v ===== *)
(** * Configuration values

    The value objects of src/include/aegisgate/config/Config.h: what the
    parser of Config produces and every other component consumes. *)

From S2P Require Import Prelude Bytes.

(** [std::array<std::uint8_t, 4>]. *)
Abbreviation ipv4 := (Z * Z * Z * Z)%type.

Record Endpoint := mkEndpoint {
  ep_host : bytes;
  ep_address : ipv4;
  ep_port : Z;
  ep_weight : Z
}.

Record CircuitBreakerSettings := mkBreakerSettings {
  window_seconds : Z;
  min_requests : Z;
  failure_threshold_permille : Z;
  open_seconds : Z;
  half_open_probes : Z
}.

Record HealthCheckSettings := mkHealthSettings {
  interval_ms : Z;
  timeout_ms : Z
}.

Inductive BalancePolicy := kWeightedRoundRobin | kLeastActive.

Record Route := mkRoute {
  rt_name : bytes;
  rt_host : bytes;
  rt_path_prefix : bytes;
  rt_endpoints : list Endpoint;
  rate_limit : Z;
  burst : Z;
  max_inflight : Z;
  connect_timeout_ms : Z;
  first_byte_timeout_ms : Z;
  total_timeout_ms : Z;
  retry_budget : Z;
  circuit_breaker : option CircuitBreakerSettings;
  health_check : option HealthCheckSettings;
  balance : BalancePolicy
}.

Record Config := mkConfig {
  routes : list Route;
  workers : Z
}.

#[global] Instance Endpoint_eq_dec : EqDecision Endpoint.
Proof. solve_decision. Defined.
#[global] Instance CircuitBreakerSettings_eq_dec : EqDecision CircuitBreakerSettings.
Proof. solve_decision. Defined.
#[global] Instance HealthCheckSettings_eq_dec : EqDecision HealthCheckSettings.
Proof. solve_decision. Defined.
#[global] Instance BalancePolicy_eq_dec : EqDecision BalancePolicy.
Proof. solve_decision. Defined.
#[global] Instance Route_eq_dec : EqDecision Route.
Proof. solve_decision. Defined.
