(* ===== verification/RateLimit.v ===== *)
(** * Worker-local rate limiting

    [Module TokenBucket] models src/src/resilience/TokenBucket.cpp,
    [Module InflightLimiter] src/src/resilience/InflightLimiter.cpp and
    [Module RouteAdmission] src/src/resilience/RouteAdmission.cpp.  Time points
    and durations are nanoseconds in [Z]; a constructor that throws returns
    [None]. *)

From S2P Require Import Prelude Reservation.

Module TokenBucket.

Definition kCreditScale : Z := 1000000000.

Record t := mk {
  rate_per_second_ : Z;
  capacity_credit_ : Z;
  credit_ : Z;
  last_refill_ : Z
}.

(** The constructor. *)
Definition make (rate_per_second burst now : Z) : option t :=
  if (rate_per_second =? 0) || (burst =? 0) then None
  else Some {| rate_per_second_ := rate_per_second;
               capacity_credit_ := burst * kCreditScale;
               credit_ := burst * kCreditScale;
               last_refill_ := now |}.

(** The refill half of [TryAcquire]. *)
Definition Refill (now : Z) (b : t) : t :=
  if last_refill_ b <? now then
    let elapsed := now - last_refill_ b in
    let missing_credit := capacity_credit_ b - credit_ b in
    let rate := rate_per_second_ b in
    let needed_nanoseconds := ceil_div missing_credit rate in
    {| rate_per_second_ := rate_per_second_ b;
       capacity_credit_ := capacity_credit_ b;
       credit_ := if needed_nanoseconds <=? elapsed then capacity_credit_ b
                  else credit_ b + rate * elapsed;
       last_refill_ := now |}
  else b.

Definition TryAcquire (now : Z) (b : t) : bool * t :=
  let b := Refill now b in
  if credit_ b <? kCreditScale then (false, b)
  else (true, {| rate_per_second_ := rate_per_second_ b;
                 capacity_credit_ := capacity_credit_ b;
                 credit_ := credit_ b - kCreditScale;
                 last_refill_ := last_refill_ b |}).

(** A run of [TryAcquire] calls at the given clock values: the number of
    accepted calls and the final bucket. *)
Fixpoint run (nows : list Z) (b : t) : Z * t :=
  match nows with
  | [] => (0, b)
  | now :: nows =>
      let '(ok, b) := TryAcquire now b in
      let '(n, b) := run nows b in
      ((if ok then 1 else 0) + n, b)
  end.

(** The class invariant: what the constructor establishes and the credit
    bounds. *)
Record wf (b : t) : Prop := {
  wf_rate : 0 < rate_per_second_ b < u32_modulus;
  wf_capacity : kCreditScale <= capacity_credit_ b < u32_modulus * kCreditScale;
  wf_credit : 0 <= credit_ b <= capacity_credit_ b
}.

Lemma make_wf rate burst now b :
  is_u32 rate -> is_u32 burst -> make rate burst now = Some b -> wf b.
Proof.
  unfold make, kCreditScale. intros Hr Hb.
  destruct (Z.eqb_spec rate 0), (Z.eqb_spec burst 0); intros; simplify_eq/=.
  split; simpl; unfold kCreditScale; mlia.
Qed.

(** The refill computes [min(capacity, credit + rate * elapsed)] without ever
    forming the product when it would exceed the capacity. *)
Lemma Refill_min now b :
  wf b -> last_refill_ b < now ->
  credit_ (Refill now b) =
    Z.min (capacity_credit_ b)
          (credit_ b + rate_per_second_ b * (now - last_refill_ b)).
Proof.
  intros [Hr Hc Hcr] Hlt. unfold Refill.
  rewrite (proj2 (Z.ltb_lt _ _) Hlt); simpl.
  destruct (Z.leb_spec (ceil_div (capacity_credit_ b - credit_ b) (rate_per_second_ b))
                       (now - last_refill_ b)) as [H|H].
  - apply ceil_div_le in H; lia.
  - assert (~ capacity_credit_ b - credit_ b
              <= rate_per_second_ b * (now - last_refill_ b)); [|lia].
    intros H'. rewrite <- ceil_div_le in H' by lia. lia.
Qed.

Lemma Refill_fields now b :
  rate_per_second_ (Refill now b) = rate_per_second_ b /\
  capacity_credit_ (Refill now b) = capacity_credit_ b /\
  last_refill_ (Refill now b) = Z.max (last_refill_ b) now.
Proof. unfold Refill. zcases; split_and!; simpl; lia. Qed.

Lemma Refill_wf now b : wf b -> wf (Refill now b).
Proof.
  intros Hwf. pose proof (Refill_fields now b) as (Er & Ec & _).
  split; rewrite ?Er, ?Ec; try apply Hwf.
  destruct (decide (last_refill_ b < now)) as [Hlt|Hge].
  - rewrite Refill_min by done. destruct Hwf.
    pose proof (Z.mul_nonneg_nonneg (rate_per_second_ b) (now - last_refill_ b)). lia.
  - unfold Refill. rewrite (proj2 (Z.ltb_ge _ _)) by lia. apply Hwf.
Qed.

Lemma TryAcquire_wf now b : wf b -> wf (TryAcquire now b).2.
Proof.
  intros Hwf%(Refill_wf now). unfold TryAcquire. zcases; [done|].
  destruct Hwf; split; simpl; unfold kCreditScale in *; lia.
Qed.

(** One call spends at most what the refill and the spent token account for. *)
Lemma TryAcquire_potential now b :
  wf b ->
  let '(ok, b') := TryAcquire now b in
  credit_ b' + (if ok then kCreditScale else 0)
    <= credit_ b + rate_per_second_ b * (last_refill_ b' - last_refill_ b) /\
  last_refill_ b' = Z.max (last_refill_ b) now /\
  rate_per_second_ b' = rate_per_second_ b.
Proof.
  intros Hwf. pose proof (Refill_fields now b) as (Er & Ec & El).
  assert (credit_ (Refill now b)
    <= credit_ b + rate_per_second_ b * (last_refill_ (Refill now b) - last_refill_ b)).
  { destruct (decide (last_refill_ b < now)) as [Hlt|Hge].
    - rewrite Refill_min, El by done. rewrite Z.max_r by lia. lia.
    - unfold Refill. rewrite (proj2 (Z.ltb_ge _ _)) by lia. lia. }
  unfold TryAcquire. zcases; simpl; split_and!; try lia.
Qed.

Lemma run_potential nows b :
  wf b ->
  let '(n, b') := run nows b in
  wf b' /\
  n * kCreditScale + credit_ b'
    <= credit_ b + rate_per_second_ b * (last_refill_ b' - last_refill_ b) /\
  last_refill_ b' = foldl Z.max (last_refill_ b) nows /\
  rate_per_second_ b' = rate_per_second_ b.
Proof.
  revert b. induction nows as [|now nows IH]; intros b Hwf; simpl.
  { split_and!; try done; lia. }
  pose proof (TryAcquire_potential now b Hwf) as Hp.
  pose proof (TryAcquire_wf now b Hwf) as Hwf'.
  destruct (TryAcquire now b) as [ok b1]; simpl in *.
  specialize (IH b1 Hwf'). destruct (run nows b1) as [n b2].
  destruct Hp as (Hp & Hl & Hr), IH as (? & IH & Hl' & Hr').
  split_and!; try done; try congruence.
  rewrite Hr in IH. destruct ok; lia.
Qed.

(** Over any sequence of calls, at any clock values, a fresh token bucket
    accepts at most [burst] requests plus [rate] requests per second of clock
    advance (in nanotoken units, so fractional tokens are never rounded up). *)
Theorem run_rate_bound rate burst t0 b nows :
  is_u32 rate -> is_u32 burst -> make rate burst t0 = Some b ->
  (run nows b).1 * kCreditScale
    <= burst * kCreditScale + rate * (foldl Z.max t0 nows - t0).
Proof.
  intros Hr Hb Hmk. pose proof (make_wf _ _ _ _ Hr Hb Hmk) as Hwf.
  pose proof (run_potential nows b Hwf) as Hp.
  destruct (run nows b) as [n b']; simpl.
  destruct Hp as ([] & Hp & Hl & _).
  unfold make in Hmk. destruct (_ || _); simplify_eq/=.
  rewrite Hl in Hp. lia.
Qed.

Lemma run_rate_bound_witness :
  (run [1; 2; 500000000; 1000000002] (mk 2 2000000000 2000000000 0)).1 * kCreditScale
    <= 2 * kCreditScale + 2 * (foldl Z.max 0 [1; 2; 500000000; 1000000002] - 0).
Proof.
  apply (run_rate_bound 2 2 0); [mlia | mlia | reflexivity].
Defined.

(** A caller that was refused and comes back after the time the missing credit
    takes to accrue is accepted. *)
Lemma TryAcquire_ready now b :
  wf b -> last_refill_ b < now ->
  kCreditScale - credit_ b <= rate_per_second_ b * (now - last_refill_ b) ->
  (TryAcquire now b).1 = true.
Proof.
  intros Hwf Hlt Hc. unfold TryAcquire. rewrite Refill_min by done.
  destruct Hwf. zcases.
Qed.

(** The refill arithmetic is exact and stays inside int64: after the clock
    advances, the credit is [min(capacity, credit + rate * elapsed)], every
    intermediate value of the code (the missing credit, the rounded-up
    dividend, and the product of the branch that is taken) is a valid
    [int64_t], and a time point that is not later never refills. *)
Theorem Refill_exact_no_overflow now b :
  wf b ->
  is_i64 (capacity_credit_ b - credit_ b + rate_per_second_ b - 1) /\
  is_i64 (credit_ (Refill now b)) /\
  (last_refill_ b < now ->
   (now - last_refill_ b
      < ceil_div (capacity_credit_ b - credit_ b) (rate_per_second_ b) ->
    is_i64 (rate_per_second_ b * (now - last_refill_ b))) /\
   credit_ (Refill now b) =
     Z.min (capacity_credit_ b)
           (credit_ b + rate_per_second_ b * (now - last_refill_ b))) /\
  (now <= last_refill_ b -> Refill now b = b).
Proof.
  intros Hwf. pose proof (Refill_wf now b Hwf) as [_ Hc' Hcr'].
  rewrite (proj1 (proj2 (Refill_fields now b))) in Hc', Hcr'.
  pose proof Hwf as [Hr Hc Hcr]. unfold kCreditScale in *. split_and!.
  - mlia.
  - mlia.
  - intros Hlt. split; [|by apply Refill_min]. intros Hn.
    assert (~ capacity_credit_ b - credit_ b
              <= rate_per_second_ b * (now - last_refill_ b)).
    { rewrite <- ceil_div_le by lia. lia. }
    pose proof (Z.mul_nonneg_nonneg (rate_per_second_ b) (now - last_refill_ b)). mlia.
  - intros. unfold Refill. by rewrite (proj2 (Z.ltb_ge _ _)).
Qed.

Lemma Refill_exact_witness :
  credit_ (Refill 300000000 (mk 2 2000000000 1500000000 0)) = 2000000000 /\
  is_i64 (credit_ (Refill 300000000 (mk 2 2000000000 1500000000 0))).
Proof.
  assert (wf (mk 2 2000000000 1500000000 0)) as Hwf.
  { split; simpl; unfold kCreditScale; mlia. }
  destruct (Refill_exact_no_overflow 300000000 _ Hwf) as (_ & H1 & H2 & _).
  destruct (H2 ltac:(simpl; lia)) as [_ H3]. split; [exact H3|exact H1].
Defined.

(** Refusal is temporary: after [Refill] the call succeeds exactly when one
    whole token of credit is present, and a refused caller that retries once
    the missing credit has accrued at the configured rate is accepted. *)
Theorem TryAcquire_live now b wait :
  wf b ->
  (TryAcquire now b).1 = (kCreditScale <=? credit_ (Refill now b)) /\
  ((TryAcquire now b).1 = false ->
   kCreditScale <= rate_per_second_ b * wait -> 0 < wait ->
   (TryAcquire (last_refill_ (TryAcquire now b).2 + wait) (TryAcquire now b).2).1 = true).
Proof.
  intros Hwf. pose proof (TryAcquire_wf now b Hwf) as Hwf'.
  pose proof (TryAcquire_potential now b Hwf) as Hp.
  destruct (TryAcquire now b) as [ok b'] eqn:E; simpl in *.
  destruct Hp as (_ & _ & Hr). split.
  - unfold TryAcquire in E. zcases; congruence.
  - intros _ Hw Hpos. apply TryAcquire_ready; [done|lia|].
    rewrite Hr. replace (last_refill_ b' + wait - last_refill_ b') with wait by lia.
    destruct Hwf'. lia.
Qed.

Lemma TryAcquire_live_witness :
  (TryAcquire 500000010 (TryAcquire 10 (mk 2 2000000000 0 10)).2).1 = true.
Proof.
  assert (wf (mk 2 2000000000 0 10)) as Hwf.
  { split; simpl; unfold kCreditScale; mlia. }
  apply (TryAcquire_live 10 _ 500000000 Hwf); [reflexivity|unfold kCreditScale; simpl; lia|lia].
Defined.

End TokenBucket.

Module InflightLimiter.

(** [InflightLimiter::State]. *)
Record State := mkState { maximum : Z; inflight : Z }.

Definition ReleaseOne (s : State) : State :=
  if inflight s =? 0 then s else mkState (maximum s) (inflight s - 1).

(** The constructor. *)
Definition make (maximum : Z) : option State :=
  if maximum =? 0 then None else Some (mkState maximum 0).

(** [Acquire]: [None] is the empty [Reservation]. *)
Definition Acquire (s : State) : option State :=
  if maximum s <=? inflight s then None
  else Some (mkState (maximum s) (inflight s + 1)).

#[global] Instance State_counter : SlotCounter State := {|
  slots := inflight; acquire := Acquire; Reservation.ReleaseOne := ReleaseOne
|}.

#[global] Instance State_laws : SlotCounterLaws State.
Proof.
  split; simpl.
  - intros s s' _ _. unfold Acquire. zcases; intros; by simplify_eq.
  - intros s. unfold ReleaseOne. by zcases.
Qed.

#[global] Program Instance State_limit : SlotLimit State := {| limit := maximum |}.
Next Obligation.
  intros s s'; simpl. unfold Acquire. zcases; intros; simplify_eq/=. lia.
Qed.
Next Obligation. intros s; simpl. unfold ReleaseOne. by zcases. Qed.

(** Whatever a program does with the reservations of one limiter (acquire,
    move-construct, move-assign, release, destroy, destroy the limiter first),
    while the limiter lives its in-flight count is exactly the number of
    reservation objects bound to it, and never exceeds the maximum. *)
Theorem inflight_counts_reservations max s0 os st s :
  make max = Some s0 -> 0 <= max ->
  let init := Sys {[ 0%nat := s0 ]} ∅ in
  all_few os init -> exec_all os init = Some st ->
  heap st !! 0%nat = Some s ->
  inflight s = holders 0 (env st) /\ 0 <= inflight s <= maximum s.
Proof.
  intros Hmk Hmax init Hf He Hs. unfold make in Hmk. case_match; simplify_eq.
  destruct (exec_all_limited os init st) as [Hc Hl]; [| |done|done|].
  - intros l s' Hl; simpl in Hl. apply lookup_singleton_Some in Hl as [<- <-]. reflexivity.
  - intros l s' Hl; simpl in Hl. apply lookup_singleton_Some in Hl as [<- <-]. simpl. lia.
  - split; [apply (Hc _ _ Hs)|apply (Hl _ _ Hs)].
Qed.

Lemma inflight_counts_reservations_witness :
  exists st s,
    exec_all [OAcquire 1 0; OAcquire 2 0; OAcquire 3 0; OMoveAssign 1 2]
             (Sys {[ 0%nat := mkState 2 0 ]} ∅) = Some st /\
    heap st !! 0%nat = Some s /\ inflight s = 1 /\
    inflight s = holders 0 (env st) /\ 0 <= inflight s <= maximum s.
Proof.
  eexists _, _. split; [reflexivity|]. split; [reflexivity|]. split; [reflexivity|].
  refine (inflight_counts_reservations 2 (mkState 2 0)
            [OAcquire 1 0; OAcquire 2 0; OAcquire 3 0; OMoveAssign 1 2] _ _
            eq_refl ltac:(lia) _ eq_refl eq_refl).
  repeat split.
Defined.

End InflightLimiter.

Module RouteAdmission.

Record t := mk { bucket_ : TokenBucket.t; limiter_ : InflightLimiter.State }.

(** The constructor, from the route's [rate_limit], [burst], [max_inflight]. *)
Definition make (rate_limit burst max_inflight now : Z) : option t :=
  match TokenBucket.make rate_limit burst now, InflightLimiter.make max_inflight with
  | Some b, Some l => Some (mk b l)
  | _, _ => None
  end.

(** [TryAcquire]: the concurrency slot first, then one token; a token
    rejection destroys the temporary reservation, which releases the slot. *)
Definition TryAcquire (now : Z) (r : t) : bool * t :=
  match InflightLimiter.Acquire (limiter_ r) with
  | None => (false, r)
  | Some l =>
      let '(ok, b) := TokenBucket.TryAcquire now (bucket_ r) in
      if ok then (true, mk b l) else (false, mk b (InflightLimiter.ReleaseOne l))
  end.

(** Admission takes both resources or neither: an accepted request holds
    one more slot and spent one token; a refusal leaves the concurrency count
    unchanged; and a request refused for concurrency spends (and even
    refills) nothing. *)
Theorem TryAcquire_all_or_nothing now r :
  0 <= InflightLimiter.inflight (limiter_ r) ->
  let '(ok, r') := TryAcquire now r in
  let n := InflightLimiter.inflight (limiter_ r) in
  InflightLimiter.maximum (limiter_ r') = InflightLimiter.maximum (limiter_ r) /\
  (ok = true ->
     n < InflightLimiter.maximum (limiter_ r) /\
     InflightLimiter.inflight (limiter_ r') = n + 1 /\
     TokenBucket.TryAcquire now (bucket_ r) = (true, bucket_ r')) /\
  (ok = false ->
     limiter_ r' = limiter_ r /\
     (InflightLimiter.maximum (limiter_ r) <= n -> r' = r)).
Proof.
  destruct r as [b [max n]]. unfold TryAcquire, InflightLimiter.Acquire; simpl. intros Hn.
  destruct (Z.leb_spec max n); simpl; [done|].
  destruct (TokenBucket.TryAcquire now b) as [[] b']; simpl.
  - split_and!; try done; intros; split_and!; done.
  - unfold InflightLimiter.ReleaseOne; simpl.
    destruct (Z.eqb_spec (n + 1) 0); [lia|]; simpl.
    split_and!; try done. intros _. split; [f_equal; lia|lia].
Qed.

Lemma TryAcquire_all_or_nothing_witness :
  let r := mk (TokenBucket.mk 1 1000000000 0 0) (InflightLimiter.mkState 1 0) in
  limiter_ (TryAcquire 1 r).2 = limiter_ r.
Proof.
  intros r. pose proof (TryAcquire_all_or_nothing 1 r ltac:(simpl; lia)) as H.
  destruct (TryAcquire 1 r) as [ok r'] eqn:E. simpl in *.
  vm_compute in E. simplify_eq. apply H. reflexivity.
Defined.

End RouteAdmission.
