(* ===== verification/Admission.v ===== *)
(** * Global admission and the workers' token leases

    [Module GlobalAdmission] models src/src/resilience/GlobalAdmission.cpp: a
    credit pool and an in-flight counter shared by every worker, each call a
    compare-and-swap loop in the sense of Atomics.  [Module WorkerAdmission]
    models the worker side, [WorkerData::TryAdmit],
    [WorkerData::ReturnGenerationLeaseBalance] and the lease part of
    [WorkerData::Shutdown] (src/src/runtime/WorkerData.cpp), and proves the
    global rate bound for any interleaving of any number of workers. *)

From S2P Require Import Prelude Atomics Reservation Bytes Types.

Module GlobalAdmission.

Definition kCreditScale : Z := 1000000000.

(** [GlobalAdmission::State]: the shared in-flight counter. *)
Record State := mkState { inflight : Z; maximum : Z }.

(** One iteration of the [TryAcquire] loop of [State]. *)
Definition acquire_attempt (current maximum : Z) : option Z * bool :=
  if current <? maximum then (Some (wrap_u32 (current + 1)), true) else (None, false).

(** One iteration of the [ReleaseOne] loop of [State]. *)
Definition release_attempt (current : Z) : option Z * bool :=
  if current =? 0 then (None, false) else (Some (current - 1), true).

Definition TryAcquire (s : State) : option State :=
  match acquire_attempt (inflight s) (maximum s) with
  | (Some n, _) => Some (mkState n (maximum s))
  | (None, _) => None
  end.

Definition ReleaseOne (s : State) : State :=
  match release_attempt (inflight s) with
  | (Some n, _) => mkState n (maximum s)
  | (None, _) => s
  end.

#[global] Instance State_counter : SlotCounter State := {|
  slots := inflight; acquire := TryAcquire; Reservation.ReleaseOne := ReleaseOne
|}.

#[global] Instance State_laws : SlotCounterLaws State.
Proof.
  split; simpl.
  - intros s s' H0 H1. unfold TryAcquire, acquire_attempt. zcases.
    intros; simplify_eq/=. apply wrap_u32_small; mlia.
  - intros s. unfold ReleaseOne, release_attempt. by zcases.
Qed.

(** The in-flight cell and its two calls as a compare-and-swap machine. *)
Inductive flight := FlightAcquire | FlightRelease.

Definition flight_attempt (maximum : Z) (o : flight) (current : Z) : option Z * bool :=
  match o with
  | FlightAcquire => acquire_attempt current maximum
  | FlightRelease => release_attempt current
  end.

Record t := mk {
  rate_ : Z;
  burst_ : Z;
  capacity_credit_ : Z;
  credit_ : Z;
  last_refill_ : Z;
  state_ : State
}.

(** The constructor; [None] is the exception on a zero limit. *)
Definition make (route : Route) (now : Z) : option t :=
  if (rate_limit route =? 0) || (burst route =? 0) || (max_inflight route =? 0) then None
  else Some {| rate_ := rate_limit route; burst_ := burst route;
               capacity_credit_ := burst route * kCreditScale;
               credit_ := burst route * kCreditScale;
               last_refill_ := now;
               state_ := mkState 0 (max_inflight route) |}.

(** ** The credit cell

    The three calls on the atomic [credit_]; the constant configuration is
    [rate] and [capacity]. *)
Inductive credit_op :=
  | OpRefill (elapsed : Z)
  | OpDraw (want : Z)
  | OpReturn (tokens : Z).

Section Credit.
Context (rate capacity : Z).

(** One iteration of the loop of [Refill]. *)
Definition refill_attempt (elapsed credit : Z) : option Z * Z :=
  let missing := capacity - credit in
  if missing <=? 0 then (None, 0)
  else
    let needed := ceil_div missing rate in
    let refilled := if needed <=? elapsed then missing else rate * elapsed in
    (Some (credit + refilled), refilled).

(** One iteration of the loop of [Draw]. *)
Definition draw_attempt (want credit : Z) : option Z * Z :=
  let whole := Z.quot credit kCreditScale in
  if whole <=? 0 then (None, 0)
  else
    let take := Z.min whole want in
    (Some (credit - take * kCreditScale), take).

(** One iteration of the loop of [Return]. *)
Definition return_attempt (tokens credit : Z) : option Z * Z :=
  if tokens =? 0 then (None, 0)
  else
    let value := tokens * kCreditScale in
    let returned := Z.min (capacity - credit) value in
    if returned <=? 0 then (None, 0) else (Some (credit + returned), returned).

Definition credit_attempt (o : credit_op) (credit : Z) : option Z * Z :=
  match o with
  | OpRefill elapsed => refill_attempt elapsed credit
  | OpDraw want => draw_attempt want credit
  | OpReturn tokens => return_attempt tokens credit
  end.

(** The calls with valid arguments: non-negative elapsed time and uint32
    token counts. *)
Definition valid_op (o : credit_op) : Prop :=
  match o with
  | OpRefill elapsed => 0 <= elapsed
  | OpDraw want => is_u32 want
  | OpReturn tokens => is_u32 tokens
  end.

(** What a completed call added to the credit, and the most it may add. *)
Definition op_gain (o : credit_op) (result : Z) : Z :=
  match o with
  | OpRefill _ => result
  | OpDraw _ => - (result * kCreditScale)
  | OpReturn _ => result
  end.

Hypothesis Hrate : 0 < rate.

Lemma refill_apply elapsed credit :
  0 <= credit <= capacity -> 0 <= elapsed ->
  apply credit_attempt (OpRefill elapsed) credit =
    (Z.min capacity (credit + rate * elapsed),
     Z.min (capacity - credit) (rate * elapsed)).
Proof.
  intros Hc He. unfold apply; simpl. unfold refill_attempt.
  pose proof (Z.mul_nonneg_nonneg rate elapsed).
  destruct (Z.leb_spec (capacity - credit) 0); [f_equal; lia|].
  destruct (Z.leb_spec (ceil_div (capacity - credit) rate) elapsed) as [Hn|Hn].
  - rewrite ceil_div_le in Hn by lia. f_equal; lia.
  - assert (~ capacity - credit <= rate * elapsed).
    { rewrite <- ceil_div_le by lia. lia. }
    f_equal; lia.
Qed.

Lemma draw_apply want credit :
  0 <= credit -> 0 <= want ->
  apply credit_attempt (OpDraw want) credit =
    (let take := Z.min (credit / kCreditScale) want in
     (credit - take * kCreditScale, take)).
Proof.
  intros Hc Hw. unfold apply; simpl. unfold draw_attempt.
  rewrite quot_nonneg by (unfold kCreditScale; lia).
  pose proof (Z.div_pos credit kCreditScale ltac:(lia) ltac:(unfold kCreditScale; lia)).
  destruct (Z.leb_spec (credit / kCreditScale) 0); simpl; [|done].
  replace (credit / kCreditScale) with 0 by lia. rewrite Z.min_l by lia. f_equal; lia.
Qed.

Lemma return_apply tokens credit :
  0 <= credit <= capacity -> 0 <= tokens ->
  apply credit_attempt (OpReturn tokens) credit =
    (Z.min capacity (credit + tokens * kCreditScale),
     Z.min (capacity - credit) (tokens * kCreditScale)).
Proof.
  intros Hc Ht. unfold apply; simpl. unfold return_attempt.
  destruct (Z.eqb_spec tokens 0); [subst; f_equal; lia|].
  unfold kCreditScale. zcases; f_equal; lia.
Qed.

(** Each atomic call keeps the credit inside [0, capacity] and moves it by
    exactly its gain. *)
Lemma credit_apply_bounds o credit :
  valid_op o -> 0 <= credit <= capacity ->
  let '(credit', r) := apply credit_attempt o credit in
  0 <= credit' <= capacity /\ credit' = credit + op_gain o r /\ 0 <= r /\
  match o with
  | OpRefill elapsed => r <= rate * elapsed
  | OpDraw want => r <= want
  | OpReturn tokens => r <= tokens * kCreditScale
  end.
Proof.
  intros Hv Hc. destruct o as [elapsed|want|tokens]; simpl in Hv.
  - rewrite refill_apply by done. simpl.
    pose proof (Z.mul_nonneg_nonneg rate elapsed). lia.
  - rewrite draw_apply by mlia. simpl.
    pose proof (Z.div_mod credit kCreditScale ltac:(unfold kCreditScale; lia)).
    pose proof (Z.mod_pos_bound credit kCreditScale ltac:(unfold kCreditScale; lia)).
    pose proof (Z.div_pos credit kCreditScale ltac:(lia) ltac:(unfold kCreditScale; lia)).
    unfold kCreditScale in *. mlia.
  - rewrite return_apply by mlia. simpl. unfold kCreditScale. mlia.
Qed.

(** The credit a sequence of completed calls accounts for. *)
Definition hist_gain (h : list (credit_op * Z)) : Z :=
  sumZ ((fun p => op_gain p.1 p.2) <$> h).

Lemma replay_gain h c c' :
  Forall (fun p => valid_op p.1) h -> 0 <= c <= capacity ->
  replay credit_attempt c h = Some c' ->
  0 <= c' <= capacity /\ c' = c + hist_gain h.
Proof.
  unfold hist_gain. revert c. induction h as [|[o r] h IH]; intros c Hv Hc Hr.
  { simplify_eq/=. lia. }
  rewrite fmap_cons, sumZ_cons; simpl in Hr |- *.
  apply Forall_cons in Hv as [Ho Hv].
  pose proof (credit_apply_bounds o c Ho Hc) as Hb.
  destruct (apply credit_attempt o c) as [c1 r1]. case_decide; simplify_eq.
  destruct Hb as (Hb & Hg & _). destruct (IH c1 Hv Hb Hr). lia.
Qed.

End Credit.

(** The calls as functions of the whole object.  [Refill] first moves
    [last_refill_] (a plain member written only by the coordinator loop). *)
Definition with_credit (g : t) (c : Z) : t :=
  mk (rate_ g) (burst_ g) (capacity_credit_ g) c (last_refill_ g) (state_ g).

Definition Refill (now : Z) (g : t) : t :=
  if now <=? last_refill_ g then g
  else
    let elapsed := now - last_refill_ g in
    let g := mk (rate_ g) (burst_ g) (capacity_credit_ g) (credit_ g) now (state_ g) in
    with_credit g (apply (credit_attempt (rate_ g) (capacity_credit_ g))
                         (OpRefill elapsed) (credit_ g)).1.

Definition Draw (want : Z) (g : t) : Z * t :=
  let '(c, r) := apply (credit_attempt (rate_ g) (capacity_credit_ g)) (OpDraw want) (credit_ g) in
  (r, with_credit g c).

Definition Return (tokens : Z) (g : t) : t :=
  with_credit g (apply (credit_attempt (rate_ g) (capacity_credit_ g))
                       (OpReturn tokens) (credit_ g)).1.

Definition with_state (g : t) (s : State) : t :=
  mk (rate_ g) (burst_ g) (capacity_credit_ g) (credit_ g) (last_refill_ g) s.

(** [TryAcquireInflight]: [false] is the empty optional. *)
Definition TryAcquireInflight (g : t) : bool * t :=
  match TryAcquire (state_ g) with
  | Some s => (true, with_state g s)
  | None => (false, g)
  end.

(** Releasing the reservation of an admitted request. *)
Definition ReleaseInflight (g : t) : t := with_state g (ReleaseOne (state_ g)).

#[global] Arguments Refill : simpl never.
#[global] Arguments Draw : simpl never.
#[global] Arguments Return : simpl never.

(** [LeaseBatch]. *)
Definition LeaseBatch (rate workers burst : Z) : Z :=
  if workers =? 0 then 0
  else
    let batch := ceil_div rate workers in
    if burst <=? batch then burst else if 0 <? batch then batch else 1.

Lemma ceil_div_pos a b : 0 < a -> 0 < b -> 1 <= ceil_div a b.
Proof.
  intros Ha Hb. destruct (decide (ceil_div a b <= 0)) as [H|H]; [|lia].
  rewrite ceil_div_le in H by lia. lia.
Qed.

Lemma LeaseBatch_min rate workers burst :
  0 < rate -> 0 < workers -> 0 < burst ->
  LeaseBatch rate workers burst = Z.min (ceil_div rate workers) burst /\
  1 <= LeaseBatch rate workers burst <= burst.
Proof.
  intros Hr Hw Hb. pose proof (ceil_div_pos rate workers Hr Hw).
  unfold LeaseBatch. rewrite (proj2 (Z.eqb_neq workers 0)) by lia. zcases; lia.
Qed.

(** ** Theorems *)

(** Every interleaving of concurrent [Refill], [Draw] and [Return] calls
    from any number of threads is linearizable, keeps the credit between zero
    and the burst capacity, and conserves it: the credit is the initial credit
    plus the refills and returns minus the drawn tokens, each exactly once. *)
Theorem credit_conserved rate capacity credit m :
  0 < rate -> 0 <= credit <= capacity ->
  rtc (step (credit_attempt rate capacity)) (init credit) m ->
  Forall (fun p => valid_op p.1) (hist m) ->
  replay (credit_attempt rate capacity) credit (hist m) = Some (cell m) /\
  0 <= cell m <= capacity /\
  cell m = credit + hist_gain (hist m).
Proof.
  intros Hr Hc Hs Hv. pose proof (cas_linearizable _ _ _ Hs) as Hl.
  split; [done|]. by eapply replay_gain.
Qed.

Lemma credit_conserved_witness :
  let f := credit_attempt 5 3000000000 in
  exists m, rtc (step f) (init 3000000000) m /\
    hist m = [(OpDraw 2, 2)] /\ cell m = 1000000000 /\
    cell m = 3000000000 + hist_gain (hist m).
Proof.
  intros f.
  set (m := Mach 1000000000
                 (<[ 0%nat := Done 2 ]> (<[ 0%nat := Cas (OpDraw 2) 3000000000 ]>
                   (<[ 0%nat := Load (OpDraw 2) ]> ∅)))
                 [(OpDraw 2, 2)] : mach Z credit_op Z).
  assert (rtc (step f) (init 3000000000) m) as Hs.
  { eapply rtc_l; [apply (step_call f _ 0 (OpDraw 2)); left; reflexivity|].
    eapply rtc_l; [eapply (step_load f _ 0 (OpDraw 2)); reflexivity|].
    apply rtc_once.
    refine (step_cas_success f
              (Mach 3000000000 (<[ 0%nat := Cas (OpDraw 2) 3000000000 ]>
                 (<[ 0%nat := Load (OpDraw 2) ]> ∅)) []) 0 (OpDraw 2) 1000000000 2 _ _);
      reflexivity. }
  exists m. split; [exact Hs|]. split; [reflexivity|]. split; [reflexivity|].
  apply (credit_conserved 5 3000000000 3000000000 m); [lia|lia|exact Hs|].
  repeat constructor; simpl; mlia.
Defined.

(** Concurrent admissions and releases never exceed the configured
    in-flight maximum and never wrap below zero, whatever the interleaving. *)
Theorem inflight_never_exceeds_maximum maximum m :
  is_u32 maximum ->
  rtc (step (flight_attempt maximum)) (init 0) m ->
  0 <= cell m <= maximum.
Proof.
  intros Hm. apply (cas_invariant _ (fun n => 0 <= n <= maximum)); [|mlia].
  intros [] w Hw; unfold apply; simpl; unfold acquire_attempt, release_attempt;
    zcases; rewrite ?wrap_u32_small by mlia; mlia.
Qed.

Lemma inflight_never_exceeds_maximum_witness :
  0 <= cell (Mach 1 (<[ 0%nat := Done true ]> (<[ 0%nat := Cas FlightAcquire 0 ]>
                      (<[ 0%nat := Load FlightAcquire ]> ∅)))
                    [(FlightAcquire, true)] : mach Z flight bool) <= 1.
Proof.
  apply (inflight_never_exceeds_maximum 1); [mlia|].
  eapply rtc_l; [apply (step_call _ _ 0 FlightAcquire); left; reflexivity|].
  eapply rtc_l; [eapply (step_load _ _ 0 FlightAcquire); reflexivity|].
  apply rtc_once.
  refine (step_cas_success (flight_attempt 1)
            (Mach 0 (<[ 0%nat := Cas FlightAcquire 0 ]> (<[ 0%nat := Load FlightAcquire ]> ∅)) [])
            0 FlightAcquire 1 true _ _); reflexivity.
Defined.

(** [LeaseBatch] is ceil(rate / workers) clamped to [1, burst] for every
    positive uint32 configuration, without uint64 overflow; so an empty balance
    always triggers a draw. *)
Theorem LeaseBatch_clamps rate workers burst :
  0 < rate < u32_modulus -> 0 < workers < u32_modulus -> 0 < burst < u32_modulus ->
  is_u64 (rate + workers - 1) /\
  1 <= LeaseBatch rate workers burst <= burst /\
  LeaseBatch rate workers burst = Z.min (ceil_div rate workers) burst /\
  (forall k, 0 <= k -> ceil_div rate workers <= k <-> rate <= workers * k).
Proof.
  intros Hr Hw Hb. destruct (LeaseBatch_min rate workers burst) as [H1 H2]; [lia..|].
  split_and!; [mlia..|lia|lia|done|]. intros; apply ceil_div_le; lia.
Qed.

Lemma LeaseBatch_clamps_witness :
  1 <= LeaseBatch 10 4 100 <= 100 /\ LeaseBatch 10 4 100 = 3.
Proof.
  split; [|reflexivity]. apply (LeaseBatch_clamps 10 4 100); mlia.
Defined.

End GlobalAdmission.

Module WorkerAdmission.
Import GlobalAdmission.

(** One route of one generation: the shared admission object, the lease
    balance of every worker for that route, and (history variables) the tokens
    spent on admitted requests. *)
Record t := mk {
  admission : GlobalAdmission.t;
  balances : list Z;
  spent : Z
}.

Definition balance_of (w : nat) (s : t) : Z := default 0 (balances s !! w).

Definition set_balance (w : nat) (b : Z) (s : t) : t :=
  mk (admission s) (<[ w := b ]> (balances s)) (spent s).

(** [admission->Return(balance); balance = 0;] *)
Definition return_balance (w : nat) (s : t) : t :=
  mk (Return (balance_of w s) (admission s)) (<[ w := 0 ]> (balances s)) (spent s).

(** [balance = admission->Draw(batch);] *)
Definition draw_balance (w : nat) (batch : Z) (s : t) : t :=
  let '(n, g) := Draw batch (admission s) in mk g (<[ w := n ]> (balances s)) (spent s).

(** [--balance;] *)
Definition spend (w : nat) (s : t) : t :=
  mk (admission s) (<[ w := wrap_u32 (balance_of w s - 1) ]> (balances s)) (spent s + 1).

Definition with_admission (s : t) (g : GlobalAdmission.t) : t := mk g (balances s) (spent s).

(** [WorkerData::TryAdmit] of worker [w]: the in-flight slot, then one lease
    token, refreshing the lease when the balance is below half a batch. *)
Definition TryAdmit (w : nat) (nworkers : Z) (s : t) : bool * t :=
  let '(ok, g) := TryAcquireInflight (admission s) in
  if negb ok then (false, s)
  else
    let s := with_admission s g in
    let batch := LeaseBatch (rate_ g) nworkers (burst_ g) in
    let s := if wrap_u32 (balance_of w s * 2) <? batch
             then draw_balance w batch (return_balance w s) else s in
    if balance_of w s =? 0
    then (false, with_admission s (ReleaseInflight (admission s)))
    else (true, spend w s).

(** [ReturnGenerationLeaseBalance] and the lease loop of [Shutdown], for this
    route. *)
Definition ReturnLease (w : nat) (s : t) : t := return_balance w s.

(** The atomic accesses of the workers and the coordinator, in any order: the
    steps [TryAdmit] is made of may be separated by other threads' steps. *)
Inductive step : t -> t -> Prop :=
  | step_refill s now :
      step s (with_admission s (Refill now (admission s)))
  | step_acquire s :
      step s (with_admission s (TryAcquireInflight (admission s)).2)
  | step_release s :
      step s (with_admission s (ReleaseInflight (admission s)))
  | step_return s w :
      step s (return_balance w s)
  | step_draw s w batch :
      is_u32 batch -> balance_of w s = 0 -> step s (draw_balance w batch s)
  | step_spend s w :
      0 < balance_of w s -> step s (spend w s).

(** The route's configuration is positive uint32 values and the credit is in
    range; balances are uint32. *)
Record wf (s : t) : Prop := {
  wf_rate : 0 < rate_ (admission s) < u32_modulus;
  wf_burst : 0 < burst_ (admission s) < u32_modulus;
  wf_capacity : capacity_credit_ (admission s) = burst_ (admission s) * kCreditScale;
  wf_credit : 0 <= credit_ (admission s) <= capacity_credit_ (admission s);
  wf_balances : Forall is_u32 (balances s)
}.

(** The tokens of the route, in credit units: the pool, the workers' leases and
    the tokens already spent. *)
Definition tokens (s : t) : Z :=
  credit_ (admission s) + (sumZ (balances s) + spent s) * kCreditScale.

(** What the route may have handed out since [t0]. *)
Definition within_budget (t0 : Z) (s : t) : Prop :=
  wf s /\ t0 <= last_refill_ (admission s) /\
  tokens s <= capacity_credit_ (admission s)
              + rate_ (admission s) * (last_refill_ (admission s) - t0).

Lemma balance_u32 s w : wf s -> is_u32 (balance_of w s).
Proof.
  intros [_ _ _ _ Hb]. unfold balance_of. destruct (balances s !! w) eqn:E; simpl; [|mlia].
  eapply Forall_lookup_1 in Hb; eauto.
Qed.

Lemma sumZ_set l w b :
  sumZ (<[ w := b ]> l) =
    sumZ l - default 0 (l !! w) + (if decide (w < length l)%nat then b else 0).
Proof.
  destruct (l !! w) eqn:E; simpl.
  - rewrite (sumZ_insert _ _ _ _ E), decide_True; [done|]. by eapply lookup_lt_Some.
  - apply lookup_ge_None in E. rewrite list_insert_ge, decide_False by lia. lia.
Qed.

Lemma balance_pos_lt s w : 0 < balance_of w s -> (w < length (balances s))%nat.
Proof.
  unfold balance_of. destruct (balances s !! w) eqn:E; simpl; [|lia].
  intros _. by eapply lookup_lt_Some.
Qed.

(** The effect of each call of the admission object on the quantities above. *)
Lemma Refill_budget now g :
  0 < rate_ g -> 0 <= credit_ g <= capacity_credit_ g ->
  let g' := Refill now g in
  rate_ g' = rate_ g /\ burst_ g' = burst_ g /\ capacity_credit_ g' = capacity_credit_ g /\
  0 <= credit_ g' <= capacity_credit_ g /\ last_refill_ g <= last_refill_ g' /\
  credit_ g' <= credit_ g + rate_ g * (last_refill_ g' - last_refill_ g).
Proof.
  intros Hr Hc. unfold Refill.
  destruct (Z.leb_spec now (last_refill_ g)); [split_and!; lia|].
  cbn [rate_ burst_ capacity_credit_ credit_ last_refill_ with_credit].
  rewrite refill_apply by lia. simpl.
  pose proof (Z.mul_nonneg_nonneg (rate_ g) (now - last_refill_ g)). split_and!; lia.
Qed.

Lemma Return_budget n g :
  0 <= credit_ g <= capacity_credit_ g -> 0 <= n ->
  let g' := Return n g in
  rate_ g' = rate_ g /\ burst_ g' = burst_ g /\ capacity_credit_ g' = capacity_credit_ g /\
  0 <= credit_ g' <= capacity_credit_ g /\ last_refill_ g' = last_refill_ g /\
  credit_ g' <= credit_ g + n * kCreditScale.
Proof.
  intros Hc Hn. unfold Return. rewrite return_apply by lia. simpl.
  unfold kCreditScale. split_and!; lia.
Qed.

Lemma Draw_budget want g :
  0 <= credit_ g <= capacity_credit_ g -> 0 <= want ->
  let '(n, g') := Draw want g in
  rate_ g' = rate_ g /\ burst_ g' = burst_ g /\ capacity_credit_ g' = capacity_credit_ g /\
  0 <= credit_ g' <= capacity_credit_ g /\ last_refill_ g' = last_refill_ g /\
  credit_ g' + n * kCreditScale = credit_ g /\ 0 <= n <= want.
Proof.
  intros Hc Hw. unfold Draw. rewrite draw_apply by lia. simpl.
  pose proof (Z.div_mod (credit_ g) kCreditScale ltac:(unfold kCreditScale; lia)).
  pose proof (Z.mod_pos_bound (credit_ g) kCreditScale ltac:(unfold kCreditScale; lia)).
  pose proof (Z.div_pos (credit_ g) kCreditScale ltac:(lia) ltac:(unfold kCreditScale; lia)).
  unfold kCreditScale in *. split_and!; lia.
Qed.

(** A change of the admission object that keeps its configuration and the
    credit range, together with uint32 balances, keeps the state well formed. *)
Lemma wf_update s g bs n :
  wf s -> rate_ g = rate_ (admission s) -> burst_ g = burst_ (admission s) ->
  capacity_credit_ g = capacity_credit_ (admission s) ->
  0 <= credit_ g <= capacity_credit_ (admission s) -> Forall is_u32 bs ->
  wf (mk g bs n).
Proof.
  intros [Hr Hbu Hcap Hcr Hbs] E1 E2 E3 E4 E5. split; simpl; rewrite ?E1, ?E2, ?E3; done.
Qed.

Lemma step_within_budget t0 s s' : within_budget t0 s -> step s s' -> within_budget t0 s'.
Proof.
  intros (Hwf & Ht & Hb) Hs. pose proof Hwf as [Hr Hbu Hcap Hcr Hbs].
  unfold within_budget, tokens in *.
  destruct Hs as [s now|s|s|s w|s w batch Hba Hz|s w Hp];
    unfold with_admission, return_balance, draw_balance, spend;
    cbn [admission balances spent].
  - destruct (Refill_budget now (admission s)) as (E1 & E2 & E3 & E4 & E5 & E6); [lia..|].
    rewrite E1, E3. split_and!; [by apply (wf_update s)|lia|nia].
  - unfold TryAcquireInflight. destruct (TryAcquire _); simpl.
    + split_and!; [by apply (wf_update s)|lia|lia].
    + split_and!; [by apply (wf_update s)|lia|lia].
  - split_and!; [by apply (wf_update s)|simpl; lia|simpl; lia].
  - pose proof (balance_u32 s w Hwf) as Hu.
    destruct (Return_budget (balance_of w s) (admission s)) as (E1 & E2 & E3 & E4 & E5 & E6);
      [done|mlia|].
    rewrite E1, E3, E5, sumZ_set. fold (balance_of w s).
    split_and!; [|lia|unfold kCreditScale in *; case_decide; lia].
    apply (wf_update s); try done. apply Forall_insert; [done|mlia].
  - pose proof (Draw_budget batch (admission s)) as HD.
    destruct (Draw batch (admission s)) as [n g']; cbn [admission balances spent].
    destruct HD as (E1 & E2 & E3 & E4 & E5 & E6 & E7); [done|mlia|].
    rewrite E1, E3, E5, sumZ_set. fold (balance_of w s). rewrite Hz.
    split_and!; [|lia|unfold kCreditScale in *; case_decide; lia].
    apply (wf_update s); try done. apply Forall_insert; [done|mlia].
  - pose proof (balance_u32 s w Hwf) as Hu. pose proof (balance_pos_lt s w Hp) as Hlt.
    rewrite wrap_u32_small by mlia.
    rewrite sumZ_set, decide_True by done. fold (balance_of w s).
    split_and!; [|lia|unfold kCreditScale in *; lia].
    apply (wf_update s); try done. apply Forall_insert; [done|mlia].
Qed.

(** Every well-formed state is within the budget counted from far enough back,
    so the steps preserve well-formedness. *)
Lemma step_wf s s' : wf s -> step s s' -> wf s'.
Proof.
  intros Hwf Hs. pose proof Hwf as [Hr _ _ Hcr _].
  set (t0 := last_refill_ (admission s) - Z.abs (tokens s)).
  apply (step_within_budget t0 s s'); [|done]. unfold within_budget, t0.
  split_and!; [done|lia|nia].
Qed.

(** [TryAdmit] is a run of the atomic steps. *)
Lemma TryAdmit_steps w nworkers s :
  wf s -> 0 < nworkers < u32_modulus -> (w < length (balances s))%nat ->
  rtc step s (TryAdmit w nworkers s).2.
Proof.
  intros Hwf Hn Hw. unfold TryAdmit.
  pose proof (step_acquire s) as Ha. destruct (TryAcquireInflight (admission s)) as [ok g] eqn:E.
  simpl in Ha. destruct ok; simpl; [|apply rtc_refl].
  assert (Hg : rate_ g = rate_ (admission s) /\ burst_ g = burst_ (admission s)).
  { unfold TryAcquireInflight in E. case_match; simplify_eq/=; done. }
  destruct Hg as [Eg1 Eg2]. pose proof Hwf as [Hr Hbu _ _ _].
  destruct (LeaseBatch_min (rate_ g) nworkers (burst_ g)) as [_ HL]; [lia..|].
  set (s1 := with_admission s g) in *.
  set (s2 := if _ <? _ then _ else s1).
  assert (H12 : rtc step s1 s2).
  { subst s2. zcases; [|apply rtc_refl].
    eapply rtc_l; [apply (step_return s1 w)|]. apply rtc_once, step_draw; [mlia|].
    unfold balance_of, return_balance; simpl. by rewrite list_lookup_insert_eq. }
  eapply rtc_l; [exact Ha|]. etrans; [exact H12|].
  assert (wf s2) as Hwf2.
  { eapply (rtc_preserves step wf step_wf); [exact H12|]. by eapply step_wf. }
  destruct (Z.eqb_spec (balance_of w s2) 0); simpl.
  - apply rtc_once, step_release.
  - apply rtc_once, step_spend. pose proof (balance_u32 s2 w Hwf2). mlia.
Qed.

(** A generation's route at start-up: full credit, no lease drawn. *)
Definition start (route : Route) (now : Z) (nworkers : nat) : option t :=
  g ← GlobalAdmission.make route now; Some (mk g (replicate nworkers 0) 0).

Lemma start_within_budget route now n s :
  is_u32 (rate_limit route) -> is_u32 (burst route) ->
  start route now n = Some s -> within_budget now s.
Proof.
  intros Hr Hb. unfold start, GlobalAdmission.make.
  destruct (Z.eqb_spec (rate_limit route) 0), (Z.eqb_spec (burst route) 0),
    (Z.eqb_spec (max_inflight route) 0); simpl; intros; simplify_eq/=.
  unfold within_budget, tokens; simpl.
  assert (sumZ (replicate n 0) = 0) as ->.
  { clear. induction n; [done|]. simpl replicate. by rewrite sumZ_cons, IHn. }
  split_and!; [|lia|lia].
  split; simpl; unfold kCreditScale; try mlia.
  apply Forall_replicate. mlia.
Qed.

(** C1: The configured rate holds globally: however many workers share a route
    and however their lease refreshes, admissions, refusals, in-flight
    releases and the coordinator's refills interleave, the requests admitted
    since start-up never exceed [burst + rate * elapsed]. *)
Theorem global_rate_bound route t0 n s s' :
  is_u32 (rate_limit route) -> is_u32 (burst route) ->
  start route t0 n = Some s -> rtc step s s' ->
  spent s' * kCreditScale
    <= burst route * kCreditScale
       + rate_limit route * (last_refill_ (admission s') - t0).
Proof.
  intros Hr Hb Hst Hrun. pose proof (start_within_budget _ _ _ _ Hr Hb Hst) as Hbud.
  assert (Hcfg : within_budget t0 s' /\ rate_ (admission s') = rate_limit route /\
                 capacity_credit_ (admission s') = burst route * kCreditScale).
  { eapply (rtc_preserves step (fun x => within_budget t0 x /\
              rate_ (admission x) = rate_limit route /\
              capacity_credit_ (admission x) = burst route * kCreditScale));
      [|exact Hrun|].
    - intros x y (Hx & E1 & E2) Hxy. split; [by eapply step_within_budget|].
      destruct Hxy; simpl; unfold Refill, TryAcquireInflight, draw_balance, Draw;
        repeat case_match; simplify_eq/=; done.
    - split; [done|]. unfold start, GlobalAdmission.make in Hst.
      destruct (_ || _ || _); simplify_eq/=. done. }
  destruct Hcfg as (([_ _ _ Hcr Hbs] & _ & Hle) & E1 & E2).
  rewrite E1, E2 in Hle. unfold tokens in Hle.
  assert (0 <= sumZ (balances s')).
  { apply sumZ_nonneg. eapply Forall_impl; [exact Hbs|]. intros z Hz; mlia. }
  unfold kCreditScale in *. lia.
Qed.

Definition example_route : Route :=
  mkRoute [] [] [] [] 10 5 100 5000 5000 30000 1 None None kWeightedRoundRobin.

Lemma global_rate_bound_witness :
  exists s, start example_route 0 2 = Some s /\
    spent (TryAdmit 0 2 s).2 = 1 /\
    spent (TryAdmit 0 2 s).2 * kCreditScale
      <= 5 * kCreditScale + 10 * (last_refill_ (admission (TryAdmit 0 2 s).2) - 0).
Proof.
  eexists. split; [reflexivity|]. split; [reflexivity|].
  apply (global_rate_bound example_route 0 2 _ _ ltac:(simpl; mlia) ltac:(simpl; mlia) eq_refl).
  apply TryAdmit_steps; [|mlia|simpl; lia].
  apply (start_within_budget example_route 0 2); [simpl; mlia|simpl; mlia|reflexivity].
Defined.

(** What the lease refresh of [TryAdmit] leaves in the balance: nothing exactly
    when the balance was empty and the pool holds less than one token. *)
Lemma refresh_empty w nworkers s :
  wf s -> 0 < nworkers -> (w < length (balances s))%nat ->
  let batch := LeaseBatch (rate_ (admission s)) nworkers (burst_ (admission s)) in
  let s2 := if wrap_u32 (balance_of w s * 2) <? batch
            then draw_balance w batch (return_balance w s) else s in
  (balance_of w s2 = 0 <-> balance_of w s = 0 /\ credit_ (admission s) < kCreditScale) /\
  state_ (admission s2) = state_ (admission s) /\ spent s2 = spent s.
Proof.
  intros Hwf Hn Hw batch s2. pose proof Hwf as [Hr Hbu Hcap Hcr _].
  pose proof (balance_u32 s w Hwf) as Hu.
  destruct (LeaseBatch_min (rate_ (admission s)) nworkers (burst_ (admission s)))
    as [_ HL]; [lia..|]. fold batch in HL.
  subst s2. destruct (Z.ltb_spec (wrap_u32 (balance_of w s * 2)) batch) as [Hlt|Hge].
  - unfold draw_balance, return_balance; cbn [admission balances spent].
    unfold Return, Draw; simpl.
    rewrite return_apply by mlia. rewrite draw_apply; simpl; [|unfold kCreditScale; mlia..].
    split; [|done]. unfold balance_of at 1; simpl.
    rewrite list_lookup_insert_eq by (rewrite length_insert; lia). simpl.
    match goal with |- context [?x / kCreditScale] => remember x as c eqn:Ec end.
    pose proof (Z.div_mod c kCreditScale ltac:(unfold kCreditScale; lia)).
    pose proof (Z.mod_pos_bound c kCreditScale ltac:(unfold kCreditScale; lia)).
    unfold kCreditScale in *. mlia.
  - split; [|done]. split; [|tauto]. intros E. rewrite E in Hge.
    change (wrap_u32 (0 * 2)) with 0 in Hge. lia.
Qed.

Lemma TryAdmit_effect w nworkers s :
  wf s -> 0 < nworkers -> (w < length (balances s))%nat ->
  0 <= inflight (state_ (admission s)) ->
  maximum (state_ (admission s)) < u32_modulus ->
  let n := inflight (state_ (admission s)) in
  let s' := (TryAdmit w nworkers s).2 in
  (TryAdmit w nworkers s).1 =
    (n <? maximum (state_ (admission s)))
    && ((0 <? balance_of w s) || (kCreditScale <=? credit_ (admission s))) /\
  inflight (state_ (admission s')) = (if (TryAdmit w nworkers s).1 then n + 1 else n) /\
  spent s' = (if (TryAdmit w nworkers s).1 then spent s + 1 else spent s).
Proof.
  intros Hwf Hn Hw Hf Hm n s'. subst s'. unfold TryAdmit, TryAcquireInflight, TryAcquire.
  unfold acquire_attempt. subst n.
  destruct (Z.ltb_spec (inflight (state_ (admission s))) (maximum (state_ (admission s))))
    as [Hlt|Hge]; simpl; [|done].
  set (s1 := with_admission s _).
  assert (Hwf1 : wf s1) by (apply (wf_update s); try done; apply Hwf).
  assert (Hw1 : (w < length (balances s1))%nat) by done.
  destruct (refresh_empty w nworkers s1 Hwf1 Hn Hw1) as (He & Es & Esp).
  change (rate_ (admission s1)) with (rate_ (admission s)) in *.
  change (burst_ (admission s1)) with (burst_ (admission s)) in *.
  set (s2 := if _ <? _ then _ else s1) in *.
  change (balance_of w s1) with (balance_of w s) in He.
  change (credit_ (admission s1)) with (credit_ (admission s)) in He.
  pose proof (balance_u32 s w Hwf) as Hu.
  destruct (Z.eqb_spec (balance_of w s2) 0) as [E|E]; simpl.
  - apply He in E as [-> Hc]. rewrite (proj2 (Z.leb_gt _ _)) by lia. simpl. rewrite Es.
    split_and!; [done| |done]. unfold ReleaseOne, release_attempt; simpl.
    rewrite wrap_u32_small by mlia. rewrite (proj2 (Z.eqb_neq _ 0)) by lia. simpl. lia.
  - rewrite Es, Esp; simpl. rewrite wrap_u32_small by mlia. split_and!; [|done|done].
    symmetry. rewrite orb_true_iff, Z.ltb_lt, Z.leb_le. mlia.
Qed.

(** [TryAdmit] admits a request exactly when an in-flight slot is free and
    the worker has a leased token or the pool has a whole one.  An admitted
    request takes one slot and spends one token; a refused one leaves the
    in-flight count as it was and spends nothing. *)
Theorem TryAdmit_outcome w nworkers s :
  wf s -> 0 < nworkers -> (w < length (balances s))%nat ->
  0 <= inflight (state_ (admission s)) ->
  maximum (state_ (admission s)) < u32_modulus ->
  let n := inflight (state_ (admission s)) in
  let s' := (TryAdmit w nworkers s).2 in
  (TryAdmit w nworkers s).1 =
    (n <? maximum (state_ (admission s)))
    && ((0 <? balance_of w s) || (kCreditScale <=? credit_ (admission s))) /\
  inflight (state_ (admission s')) = (if (TryAdmit w nworkers s).1 then n + 1 else n) /\
  spent s' = (if (TryAdmit w nworkers s).1 then spent s + 1 else spent s).
Proof. apply TryAdmit_effect. Qed.

Lemma TryAdmit_outcome_witness :
  exists s, start example_route 0 2 = Some s /\ (TryAdmit 0 2 s).1 = true /\
    inflight (state_ (admission (TryAdmit 0 2 s).2)) = 1.
Proof.
  eexists. split; [reflexivity|].
  match goal with |- (TryAdmit 0 2 ?x).1 = true /\ _ => set (s := x) end.
  destruct (TryAdmit_outcome 0 2 s) as (H1 & H2 & _);
    [|lia|simpl; lia|simpl; lia|simpl; mlia|].
  - apply (start_within_budget example_route 0 2); [simpl; mlia|simpl; mlia|reflexivity].
  - rewrite H2, H1. split; reflexivity.
Defined.

End WorkerAdmission.
