(* ===== verification/CircuitBreaker.v ===== *)
(** * The circuit breaker of one route x endpoint

    [Module CircuitBreaker] models src/src/resilience/CircuitBreaker.cpp and
    its header: the sliding window of ten buckets, the Closed / Open / HalfOpen
    state machine with its permits, and the export and import of its state
    across a configuration reload.  Clock values and durations are
    nanoseconds in [Z]; the two configured durations are milliseconds as in
    [CircuitBreakerConfig].

    The theorems of this file show that every call keeps the breaker well formed
    and makes at most one transition of its phase, and that permits of an older
    epoch are inert.  BreakerWindow shows which transition each call makes (a
    deterministic reference machine over an event log) and that a reload
    preserves the statistics. *)

From S2P Require Import Prelude.

Module CircuitBreaker.

(** ** Data *)

Record Config := mkConfig {
  window : Z;                       (* milliseconds *)
  min_requests : Z;
  failure_threshold_permille : Z;
  open_duration : Z;                (* milliseconds *)
  half_open_probes : Z
}.

Inductive State := kClosed | kOpen | kHalfOpen.

#[global] Instance State_eq_dec : EqDecision State.
Proof. solve_decision. Defined.

Inductive Selection := kAllowed | kRejectedOpen | kRejectedHalfOpenQuota | kProbe.

#[global] Instance Selection_eq_dec : EqDecision Selection.
Proof. solve_decision. Defined.

Record RequestPermit := mkPermit { selection : Selection; generation : Z; probe_id : Z }.

Record HalfOpenCycle := mkCycle { cycle_generation : Z; probe_base : Z; quota : Z }.

Record Bucket := mkBucket { start : Z; success : Z; failure : Z }.

(** [Bucket{}]. *)
Definition no_bucket : Bucket := mkBucket 0 0 0.

Definition kBucketCount : nat := 10.

Record t := mk {
  config_ : Config;
  state_ : State;
  epoch_ : Z;
  active_start_ : Z;
  active_index_ : nat;
  initialized_ : bool;
  buckets_ : list Bucket;
  open_until_ : Z;
  generation_ : Z;
  next_probe_id_ : Z;
  pending_probes_ : list Z;
  half_open_issued_ : Z;
  half_open_completed_ : Z
}.

(** [CircuitBreakerSnapshot]. *)
Record BucketSnapshot := mkBucketSnapshot {
  age_from_export : Z; snap_success : Z; snap_failure : Z
}.

Record Snapshot := mkSnapshot {
  snap_state : State;
  snap_buckets : list BucketSnapshot;
  open_remaining : Z;
  half_open_quota : Z;
  source_generation : Z
}.

(** Assignments to the members of the window and of the state machine. *)
Definition with_ring (b : t) (init : bool) (start : Z) (index : nat) (bs : list Bucket) : t :=
  mk (config_ b) (state_ b) (epoch_ b) start index init bs (open_until_ b) (generation_ b)
     (next_probe_id_ b) (pending_probes_ b) (half_open_issued_ b) (half_open_completed_ b).

Definition with_buckets (b : t) (bs : list Bucket) : t :=
  with_ring b (initialized_ b) (active_start_ b) (active_index_ b) bs.

Definition with_control (b : t) (st : State) (until gen next : Z) (pending : list Z)
    (issued completed : Z) : t :=
  mk (config_ b) st (epoch_ b) (active_start_ b) (active_index_ b) (initialized_ b) (buckets_ b)
     until gen next pending issued completed.

(** ** Construction *)

Definition ns (milliseconds : Z) : Z := milliseconds * 1000000.

Definition make (config : Config) (now : Z) : option t :=
  if (window config <=? 0) || (min_requests config =? 0)
     || (failure_threshold_permille config =? 0)
     || (1000 <=? failure_threshold_permille config)
     || (open_duration config <=? 0) || (half_open_probes config =? 0)
  then None
  else Some (mk config kClosed now 0 0 false (replicate kBucketCount no_bucket) 0 1 1 [] 0 0).

(** ** The sliding window *)

(** [duration_cast<Clock::duration>(config_.window) / kBucketCount]. *)
Definition bucket_duration (b : t) : Z := Z.quot (ns (window (config_ b))) 10.

(** The loop at the end of [AdvanceTo]. *)
Fixpoint advance_buckets (count : nat) (duration start : Z) (index : nat) (bs : list Bucket)
    : Z * nat * list Bucket :=
  match count with
  | O => (start, index, bs)
  | S count =>
      let start := start + duration in
      let index := ((index + 1) mod kBucketCount)%nat in
      advance_buckets count duration start index (<[ index := mkBucket start 0 0 ]> bs)
  end.

Definition AdvanceTo (now : Z) (b : t) : t :=
  if now <? epoch_ b then b
  else
    let duration := bucket_duration b in
    let b := if initialized_ b then b
             else with_ring b true (epoch_ b) 0 (<[ 0%nat := mkBucket (epoch_ b) 0 0 ]> (buckets_ b))
    in
    if now <? active_start_ b + duration then b
    else
      let skipped := Z.quot (now - active_start_ b) duration in
      if Z.of_nat kBucketCount <=? wrap_u64 skipped then
        let bs := replicate (length (buckets_ b)) no_bucket in
        let offset := Z.rem (now - epoch_ b) duration in
        let start := now - offset in
        let index := (Z.to_nat (wrap_u64 (Z.quot (now - epoch_ b) duration)) mod kBucketCount)%nat in
        with_ring b (initialized_ b) start index (<[ index := mkBucket start 0 0 ]> bs)
      else
        let '(start, index, bs) :=
          advance_buckets (Z.to_nat skipped) duration (active_start_ b) (active_index_ b)
                          (buckets_ b) in
        with_ring b (initialized_ b) start index bs.

Definition add_bucket (now window_ns : Z) (acc : Z * Z) (bucket : Bucket) : Z * Z :=
  if now - window_ns <? start bucket
  then (wrap_u64 (acc.1 + success bucket), wrap_u64 (acc.2 + failure bucket))
  else acc.

Definition Aggregate (now : Z) (b : t) : Z * Z :=
  foldl (add_bucket now (ns (window (config_ b)))) (0, 0) (buckets_ b).

(** ** The state machine *)

Definition AdvanceGeneration (g : Z) : Z :=
  let g := wrap_u64 (g + 1) in if g =? 0 then wrap_u64 (g + 1) else g.

Definition Open (now : Z) (b : t) : t :=
  with_control b kOpen (now + ns (open_duration (config_ b))) (AdvanceGeneration (generation_ b))
               (next_probe_id_ b) [] 0 0.

Definition BeginHalfOpen (b : t) : t :=
  with_control b kHalfOpen (open_until_ b) (AdvanceGeneration (generation_ b))
               (wrap_u64 (next_probe_id_ b + 1)) [next_probe_id_ b] 1 0.

Definition Close (b : t) : t :=
  with_ring (with_control b kClosed (open_until_ b) (AdvanceGeneration (generation_ b))
                          (next_probe_id_ b) [] 0 0)
            false (active_start_ b) 0 (replicate (length (buckets_ b)) no_bucket).

(** [std::find] and [erase] of the first occurrence; [None] when absent. *)
Fixpoint erase (id : Z) (l : list Z) : option (list Z) :=
  match l with
  | [] => None
  | x :: l => if x =? id then Some l else (x ::.) <$> erase id l
  end.

Definition ConsumeProbe (id : Z) (b : t) : option t :=
  (fun p => with_control b (state_ b) (open_until_ b) (generation_ b) (next_probe_id_ b) p
                         (half_open_issued_ b) (half_open_completed_ b))
  <$> erase id (pending_probes_ b).

Definition trips (config : Config) (counts : Z * Z) : bool :=
  let '(success, failure) := counts in
  let total := wrap_u64 (success + failure) in
  (min_requests config <=? total)
  && (wrap_u64 (failure_threshold_permille config * total) <=? wrap_u64 (failure * 1000)).

#[global] Arguments trips : simpl never.

Definition Evaluate (now : Z) (b : t) : t :=
  if trips (config_ b) (Aggregate now b) then Open now b else b.

(** [++buckets_[active_index_].success] and [.failure]. *)
Definition count_success (b : t) : t :=
  with_buckets b (alter (fun k => mkBucket (start k) (wrap_u32 (success k + 1)) (failure k))
                        (active_index_ b) (buckets_ b)).

Definition count_failure (b : t) : t :=
  with_buckets b (alter (fun k => mkBucket (start k) (success k) (wrap_u32 (failure k + 1)))
                        (active_index_ b) (buckets_ b)).

Definition RecordSuccess (now : Z) (permit : RequestPermit) (b : t) : t :=
  let b := AdvanceTo now b in
  if negb (generation permit =? generation_ b) then b
  else match state_ b with
  | kClosed =>
      if decide (selection permit = kAllowed) then Evaluate now (count_success b) else b
  | kHalfOpen =>
      if decide (selection permit = kProbe) then
        match ConsumeProbe (probe_id permit) b with
        | None => b
        | Some b =>
            let completed := wrap_u32 (half_open_completed_ b + 1) in
            let b := with_control b (state_ b) (open_until_ b) (generation_ b) (next_probe_id_ b)
                                  (pending_probes_ b) (half_open_issued_ b) completed in
            if completed =? half_open_probes (config_ b) then Close b else b
        end
      else b
  | kOpen => b
  end.

Definition RecordFailure (now : Z) (permit : RequestPermit) (b : t) : t :=
  let b := AdvanceTo now b in
  if negb (generation permit =? generation_ b) then b
  else match state_ b with
  | kClosed =>
      if decide (selection permit = kAllowed) then Evaluate now (count_failure b) else b
  | kHalfOpen =>
      if decide (selection permit = kProbe) then
        match ConsumeProbe (probe_id permit) b with
        | None => b
        | Some b => Open now b
        end
      else b
  | kOpen => b
  end.

Definition Select (now : Z) (b : t) : RequestPermit * t :=
  let b := AdvanceTo now b in
  match state_ b with
  | kClosed => (mkPermit kAllowed (generation_ b) 0, b)
  | kOpen =>
      if now <? open_until_ b then (mkPermit kRejectedOpen (generation_ b) 0, b)
      else
        let b := BeginHalfOpen b in
        (mkPermit kProbe (generation_ b) (default 0 (last (pending_probes_ b))), b)
  | kHalfOpen =>
      if half_open_issued_ b <? half_open_probes (config_ b) then
        let b := with_control b (state_ b) (open_until_ b) (generation_ b)
                   (wrap_u64 (next_probe_id_ b + 1)) (pending_probes_ b ++ [next_probe_id_ b])
                   (wrap_u32 (half_open_issued_ b + 1)) (half_open_completed_ b) in
        (mkPermit kProbe (generation_ b) (default 0 (last (pending_probes_ b))), b)
      else (mkPermit kRejectedHalfOpenQuota (generation_ b) 0, b)
  end.

Definition RefusesSelection (now : Z) (b : t) : bool :=
  match state_ b with
  | kOpen => now <? open_until_ b
  | kHalfOpen => half_open_probes (config_ b) <=? half_open_issued_ b
  | kClosed => false
  end.

(** The loop of [BeginFreshHalfOpenCycle]: [count] consecutive probe ids and
    the next id. *)
Fixpoint issue_probes (count : nat) (next : Z) : list Z * Z :=
  match count with
  | O => ([], next)
  | S count => let '(ids, n) := issue_probes count (wrap_u64 (next + 1)) in (next :: ids, n)
  end.

Definition BeginFreshHalfOpenCycle (b : t) : HalfOpenCycle * t :=
  let quota := half_open_probes (config_ b) in
  let generation := AdvanceGeneration (generation_ b) in
  let base := next_probe_id_ b in
  let '(ids, next) := issue_probes (Z.to_nat quota) base in
  (mkCycle generation base quota,
   with_control b kHalfOpen (open_until_ b) generation next ids quota 0).

(** ** Migration across a reload *)

Definition export_bucket (now window_ns : Z) (k : Bucket) : option BucketSnapshot :=
  if (start k =? 0) || (now <? start k) || (window_ns <=? now - start k) then None
  else Some (mkBucketSnapshot (now - start k) (success k) (failure k)).

Definition ExportSnapshot (now : Z) (b : t) : Snapshot :=
  match state_ b with
  | kClosed =>
      mkSnapshot kClosed (omap (export_bucket now (ns (window (config_ b)))) (buckets_ b))
                 0 0 (generation_ b)
  | kOpen =>
      mkSnapshot kOpen [] (if now <? open_until_ b then open_until_ b - now else 0) 0
                 (generation_ b)
  | kHalfOpen =>
      mkSnapshot kHalfOpen [] 0 (half_open_probes (config_ b)) (generation_ b)
  end.

(** One iteration of the loop over [snapshot.buckets]. *)
Definition import_bucket (now window_ns duration : Z) (bs : list Bucket) (source : BucketSnapshot)
    : list Bucket :=
  if (age_from_export source <? 0) || (window_ns <=? age_from_export source) then bs
  else
    let steps_back := wrap_u64 (Z.quot (age_from_export source) duration) in
    if Z.of_nat kBucketCount <=? steps_back then bs
    else
      let index := ((kBucketCount - Z.to_nat steps_back) mod kBucketCount)%nat in
      alter (fun target =>
               mkBucket (if start target =? 0 then now - steps_back * duration else start target)
                        (wrap_u32 (success target + snap_success source))
                        (wrap_u32 (failure target + snap_failure source)))
            index bs.

Definition ImportSnapshot (snapshot : Snapshot) (now : Z) (b : t) : option HalfOpenCycle * t :=
  let generation := AdvanceGeneration (source_generation snapshot) in
  let bs := <[ 0%nat := mkBucket now 0 0 ]> (replicate (length (buckets_ b)) no_bucket) in
  let fresh := mk (config_ b) (state_ b) now now 0 true bs 0 generation 1 [] 0 0 in
  let duration := bucket_duration b in
  match snap_state snapshot with
  | kClosed =>
      let bs := foldl (import_bucket now (ns (window (config_ b))) duration) bs
                      (snap_buckets snapshot) in
      (None, with_buckets (with_control fresh kClosed 0 generation 1 [] 0 0) bs)
  | kOpen =>
      if 0 <? open_remaining snapshot then
        (None, with_control fresh kOpen (now + open_remaining snapshot) generation 1 [] 0 0)
      else let '(c, b) := BeginFreshHalfOpenCycle fresh in (Some c, b)
  | kHalfOpen => let '(c, b) := BeginFreshHalfOpenCycle fresh in (Some c, b)
  end.

(** ** Executions *)

(** The calls of the coordinator on one breaker. *)
Inductive op :=
  | OSuccess (now : Z) (permit : RequestPermit)
  | OFailure (now : Z) (permit : RequestPermit)
  | OSelect (now : Z)
  | OFresh.

Definition exec (o : op) (b : t) : t :=
  match o with
  | OSuccess now p => RecordSuccess now p b
  | OFailure now p => RecordFailure now p b
  | OSelect now => (Select now b).2
  | OFresh => (BeginFreshHalfOpenCycle b).2
  end.

Definition run (os : list op) (b : t) : t := foldl (fun b o => exec o b) b os.

(** ** Well-formedness *)

Definition valid_config (c : Config) : Prop :=
  0 < window c /\ 0 < min_requests c < u32_modulus /\
  0 < failure_threshold_permille c < 1000 /\
  0 < open_duration c /\ 0 < half_open_probes c < u32_modulus.

(** The probe bookkeeping: outside a half-open cycle nothing is pending; inside
    one, the pending probes are distinct, every one is among the last
    [issued] ids handed out, and each issued probe is pending or completed. *)
Definition wf_probes (b : t) : Prop :=
  match state_ b with
  | kHalfOpen =>
      NoDup (pending_probes_ b) /\
      (forall id, id ∈ pending_probes_ b ->
        exists k, 1 <= k <= half_open_issued_ b /\ id = wrap_u64 (next_probe_id_ b - k)) /\
      Z.of_nat (length (pending_probes_ b)) + half_open_completed_ b = half_open_issued_ b /\
      half_open_issued_ b <= half_open_probes (config_ b) /\
      0 <= half_open_completed_ b < half_open_probes (config_ b)
  | _ => pending_probes_ b = [] /\ half_open_issued_ b = 0 /\ half_open_completed_ b = 0
  end.

Definition bucket_u32 (k : Bucket) : Prop := is_u32 (success k) /\ is_u32 (failure k).

Record wf (b : t) : Prop := {
  wf_config : valid_config (config_ b);
  wf_length : length (buckets_ b) = kBucketCount;
  wf_index : (active_index_ b < kBucketCount)%nat;
  wf_counts : Forall bucket_u32 (buckets_ b);
  wf_generation : 0 < generation_ b < u64_modulus;
  wf_next : is_u64 (next_probe_id_ b);
  wf_control : wf_probes b
}.

Lemma breaker_make_wf c now b :
  is_u32 (min_requests c) -> is_u32 (failure_threshold_permille c) ->
  is_u32 (half_open_probes c) -> make c now = Some b -> wf b.
Proof.
  unfold make. intros Hm Hf Hh. zcases; intros; simplify_eq.
  split; simpl; unfold valid_config, kBucketCount; try mlia; try done.
  repeat constructor; simpl; mlia.
Qed.

(** *** The window never touches the state machine *)

Definition window_part (b b' : t) : Prop :=
  exists init st i bs, b' = with_ring b init st i bs.

Lemma AdvanceTo_window now b : window_part b (AdvanceTo now b).
Proof.
  unfold AdvanceTo, window_part.
  destruct (now <? epoch_ b).
  { exists (initialized_ b), (active_start_ b), (active_index_ b), (buckets_ b). by destruct b. }
  set (b1 := if initialized_ b then b else _).
  assert (exists init st i bs, b1 = with_ring b init st i bs) as (i1 & s1 & x1 & bs1 & ->).
  { subst b1. destruct (initialized_ b); [|by eexists _, _, _, _].
    exists (initialized_ b), (active_start_ b), (active_index_ b), (buckets_ b). by destruct b. }
  destruct (_ <? _); [by eexists _, _, _, _|]. destruct (_ <=? _); [by eexists _, _, _, _|].
  destruct (advance_buckets _ _ _ _ _) as [[??]?]. by eexists _, _, _, _.
Qed.

(** The members of the state machine, the configuration and the epoch. *)
Lemma AdvanceTo_control now b :
  config_ (AdvanceTo now b) = config_ b /\ state_ (AdvanceTo now b) = state_ b /\
  epoch_ (AdvanceTo now b) = epoch_ b /\ open_until_ (AdvanceTo now b) = open_until_ b /\
  generation_ (AdvanceTo now b) = generation_ b /\
  next_probe_id_ (AdvanceTo now b) = next_probe_id_ b /\
  pending_probes_ (AdvanceTo now b) = pending_probes_ b /\
  half_open_issued_ (AdvanceTo now b) = half_open_issued_ b /\
  half_open_completed_ (AdvanceTo now b) = half_open_completed_ b.
Proof. by destruct (AdvanceTo_window now b) as (? & ? & ? & ? & ->). Qed.

(** *** The ring keeps its shape *)

Definition ring_shape (i : nat) (bs : list Bucket) : Prop :=
  length bs = kBucketCount /\ (i < kBucketCount)%nat /\ Forall bucket_u32 bs.

Lemma bucket_u32_zero s : bucket_u32 (mkBucket s 0 0).
Proof. split; simpl; mlia. Qed.

Lemma ring_shape_insert i bs j s :
  (j < kBucketCount)%nat -> ring_shape i bs -> ring_shape j (<[ j := mkBucket s 0 0 ]> bs).
Proof.
  intros Hj (Hl & Hi & Hf). split_and!; [by rewrite length_insert|done|].
  apply Forall_insert; [done|apply bucket_u32_zero].
Qed.

Lemma mod_bucket i : (i mod kBucketCount < kBucketCount)%nat.
Proof. apply Nat.mod_upper_bound. done. Qed.

Lemma advance_buckets_shape n d s i bs :
  ring_shape i bs ->
  let '(_, i', bs') := advance_buckets n d s i bs in ring_shape i' bs'.
Proof.
  revert s i bs. induction n as [|n IH]; intros s i bs H; simpl; [done|].
  apply IH. eapply ring_shape_insert; [apply mod_bucket|done].
Qed.

Lemma replicate_shape i n :
  (i < kBucketCount)%nat -> n = kBucketCount -> ring_shape i (replicate n no_bucket).
Proof.
  intros Hi ->. split_and!; [done|done|]. apply Forall_replicate, bucket_u32_zero.
Qed.

Lemma AdvanceTo_shape now b :
  ring_shape (active_index_ b) (buckets_ b) ->
  ring_shape (active_index_ (AdvanceTo now b)) (buckets_ (AdvanceTo now b)).
Proof.
  intros H. unfold AdvanceTo. destruct (now <? epoch_ b); [done|].
  set (b1 := if initialized_ b then b else _).
  assert (H1 : ring_shape (active_index_ b1) (buckets_ b1)).
  { subst b1. destruct (initialized_ b); simpl; [done|].
    eapply ring_shape_insert; [unfold kBucketCount; lia|done]. }
  destruct (_ <? _); [done|]. destruct (_ <=? _); simpl.
  - eapply ring_shape_insert; [apply mod_bucket|].
    by apply (replicate_shape 0); [unfold kBucketCount; lia|apply H1].
  - pose proof (advance_buckets_shape
      (Z.to_nat (Z.quot (now - active_start_ b1) (bucket_duration b)))
      (bucket_duration b) (active_start_ b1) _ _ H1) as Ha.
    by destruct (advance_buckets _ _ _ _ _) as [[??]?].
Qed.

Lemma count_shape f i bs :
  (forall k, bucket_u32 k -> bucket_u32 (f k)) ->
  ring_shape i bs -> ring_shape i (alter f i bs).
Proof.
  intros Hf (Hl & Hi & Hb). split_and!; [by rewrite length_alter|done|].
  apply Forall_alter; [done|]. intros k _ Hk. by apply Hf.
Qed.

(** *** Probe ids *)

Lemma erase_perm id l l' : erase id l = Some l' -> l ≡ₚ id :: l'.
Proof.
  revert l'. induction l as [|x l IH]; intros l' H; simpl in H; [done|].
  destruct (Z.eqb_spec x id); simplify_eq; [done|].
  apply fmap_Some_1 in H as (l1 & H & ->). rewrite (IH _ H). apply perm_swap.
Qed.

Lemma erase_None id l : erase id l = None <-> id ∉ l.
Proof.
  induction l as [|x l IH]; simpl; [split; [intros _; apply not_elem_of_nil|done]|].
  rewrite not_elem_of_cons. destruct (Z.eqb_spec x id) as [->|Hx].
  - split; [done|]. intros [H _]. by destruct H.
  - rewrite fmap_None, IH. split; [intros H; split; congruence|by intros [_ H]].
Qed.

Lemma issue_probes_spec n next ids next' :
  is_u64 next -> issue_probes n next = (ids, next') ->
  next' = wrap_u64 (next + Z.of_nat n) /\ is_u64 next' /\ length ids = n /\
  forall id, id ∈ ids -> exists k, 1 <= k <= Z.of_nat n /\ id = wrap_u64 (next' - k).
Proof.
  revert next ids next'. induction n as [|n IH]; intros next ids next' Hn H; simpl in H.
  { simplify_eq. rewrite Z.add_0_r, wrap_u64_small by done. split_and!; [done|done|done|].
    intros id Hid. by apply elem_of_nil in Hid. }
  destruct (issue_probes n (wrap_u64 (next + 1))) as [ids1 n1] eqn:E. simplify_eq.
  apply IH in E as (E1 & E2 & E3 & E4); [|apply wrap_u64_range].
  assert (next' = wrap_u64 (next + Z.of_nat (S n))) as Hnext.
  { rewrite E1. unfold wrap_u64. rewrite Zplus_mod_idemp_l. f_equal. lia. }
  split_and!; [done|done|simpl; lia|]. intros id [->|Hid]%elem_of_cons.
  - exists (Z.of_nat (S n)). split; [lia|]. rewrite Hnext. unfold wrap_u64.
    rewrite Zminus_mod_idemp_l. replace (next + Z.of_nat (S n) - Z.of_nat (S n)) with next by lia.
    symmetry. by apply Z.mod_small.
  - apply E4 in Hid as (k & Hk & ->). exists k. split; [lia|done].
Qed.

(** Fewer than 2^64 consecutive ids are distinct, across the wrap too. *)
Lemma wrap_sub_inj x j k :
  0 <= j < u64_modulus -> 0 <= k < u64_modulus ->
  wrap_u64 (x - j) = wrap_u64 (x - k) -> j = k.
Proof.
  unfold wrap_u64. intros Hj Hk H.
  pose proof (Z.div_mod (x - j) u64_modulus ltac:(mlia)).
  pose proof (Z.div_mod (x - k) u64_modulus ltac:(mlia)).
  assert ((x - j) / u64_modulus = (x - k) / u64_modulus); mnia.
Qed.

Lemma issue_probes_NoDup n next ids next' :
  is_u64 next -> Z.of_nat n < u64_modulus ->
  issue_probes n next = (ids, next') -> NoDup ids.
Proof.
  revert next ids next'. induction n as [|n IH]; intros next ids next' Hn Hlt H; simpl in H.
  { simplify_eq. constructor. }
  destruct (issue_probes n (wrap_u64 (next + 1))) as [ids1 n1] eqn:E. simplify_eq.
  constructor; [|eapply IH; [apply wrap_u64_range|lia|done]].
  intros Hin. apply issue_probes_spec in E as (E1 & _ & _ & E4); [|apply wrap_u64_range].
  apply E4 in Hin as (k & Hk & Hid).
  assert (Z.of_nat (S n) = k); [|lia].
  apply (wrap_sub_inj (next + Z.of_nat (S n))); [mlia|mlia|].
  replace (next + Z.of_nat (S n) - Z.of_nat (S n)) with next by lia.
  rewrite wrap_u64_small by done. etrans; [exact Hid|]. rewrite E1. unfold wrap_u64.
  rewrite Zplus_mod_idemp_l, Zminus_mod_idemp_l. f_equal. lia.
Qed.

Lemma AdvanceGeneration_range g : 0 < AdvanceGeneration g < u64_modulus.
Proof.
  unfold AdvanceGeneration. pose proof (wrap_u64_range (g + 1)).
  destruct (Z.eqb_spec (wrap_u64 (g + 1)) 0) as [E|E]; [|mlia].
  rewrite E. by vm_compute.
Qed.

(** *** The abstract state machine

    Each state with what it promises: an open breaker its deadline, a half-open
    cycle its pending probes (a set) with the issued and completed counts. *)
Inductive phase :=
  | PClosed
  | POpen (until : Z)
  | PHalfOpen (pending : gset Z) (issued completed : Z).

(** The failure rate reaches the threshold over at least the sample floor. *)
Definition over_threshold (c : Config) (s f : Z) : Prop :=
  min_requests c <= s + f /\ failure_threshold_permille c * (s + f) <= f * 1000.

(** The shape of the transitions between phases and what each does to the epoch.
    When each is taken is the matter of the reference machine of BreakerWindow. *)
Inductive transition (c : Config) : Z * phase -> Z * phase -> Prop :=
  | tr_trip g now s f :
      over_threshold c s f ->
      transition c (g, PClosed) (AdvanceGeneration g, POpen (now + ns (open_duration c)))
  | tr_elapsed g until now id :
      until <= now ->
      transition c (g, POpen until) (AdvanceGeneration g, PHalfOpen {[ id ]} 1 0)
  | tr_fresh g p ids :
      Z.of_nat (size ids) = half_open_probes c ->
      transition c (g, p) (AdvanceGeneration g, PHalfOpen ids (half_open_probes c) 0)
  | tr_issue g P i n id :
      i < half_open_probes c -> id ∉ P ->
      transition c (g, PHalfOpen P i n) (g, PHalfOpen (P ∪ {[ id ]}) (i + 1) n)
  | tr_probe_ok g P i n id :
      id ∈ P -> n + 1 < half_open_probes c ->
      transition c (g, PHalfOpen P i n) (g, PHalfOpen (P ∖ {[ id ]}) i (n + 1))
  | tr_close g P i n id :
      id ∈ P -> n + 1 = half_open_probes c ->
      transition c (g, PHalfOpen P i n) (AdvanceGeneration g, PClosed)
  | tr_reopen g P i n id now :
      id ∈ P ->
      transition c (g, PHalfOpen P i n)
                  (AdvanceGeneration g, POpen (now + ns (open_duration c))).

Definition abs (b : t) : Z * phase :=
  (generation_ b,
   match state_ b with
   | kClosed => PClosed
   | kOpen => POpen (open_until_ b)
   | kHalfOpen => PHalfOpen (list_to_set (pending_probes_ b)) (half_open_issued_ b)
                            (half_open_completed_ b)
   end).

(** *** The aggregate as a sum *)

Definition live (now window_ns : Z) (k : Bucket) : bool := now - window_ns <? start k.

(** The counts of the buckets inside the window. *)
Definition total (count : Bucket -> Z) (now window_ns : Z) (bs : list Bucket) : Z :=
  sumZ ((fun k => if live now window_ns k then count k else 0) <$> bs).

Lemma total_range count now w bs :
  Forall (fun k => is_u32 (count k)) bs ->
  0 <= total count now w bs <= Z.of_nat (length bs) * (u32_modulus - 1).
Proof.
  unfold total. induction 1 as [|k bs Hk _ IH]; [simpl; lia|].
  rewrite fmap_cons, sumZ_cons. simpl length. destruct (live now w k); mlia.
Qed.

Lemma Aggregate_total_acc now w bs a c :
  Forall bucket_u32 bs -> 0 <= a -> 0 <= c ->
  a + Z.of_nat (length bs) * u32_modulus < u64_modulus ->
  c + Z.of_nat (length bs) * u32_modulus < u64_modulus ->
  foldl (add_bucket now w) (a, c) bs = (a + total success now w bs, c + total failure now w bs).
Proof.
  unfold total. intros Hf. revert a c. induction Hf as [|k bs [Hs Hfl] _ IH]; intros a c Ha Hc Hal Hcl.
  { simpl. f_equal; lia. }
  simpl length in *. rewrite !fmap_cons, !sumZ_cons. simpl foldl.
  unfold add_bucket at 2, live at 1 3. simpl fst; simpl snd.
  destruct (now - w <? start k).
  - rewrite !wrap_u64_small by mlia. rewrite IH by mlia. f_equal; lia.
  - rewrite IH by mlia. f_equal; lia.
Qed.

Lemma Aggregate_total now b :
  wf b ->
  Aggregate now b =
    (total success now (ns (window (config_ b))) (buckets_ b),
     total failure now (ns (window (config_ b))) (buckets_ b)).
Proof.
  intros Hwf. unfold Aggregate.
  rewrite Aggregate_total_acc; [done|apply Hwf|lia|lia| |]; rewrite (wf_length _ Hwf); by vm_compute.
Qed.

Lemma trips_spec c s f :
  valid_config c -> 0 <= s <= 10 * u32_modulus -> 0 <= f <= 10 * u32_modulus ->
  trips c (s, f) = true <-> over_threshold c s f.
Proof.
  intros (_ & _ & Ht & _) Hs Hf. unfold trips, over_threshold.
  rewrite !wrap_u64_small by mnia. by rewrite andb_true_iff, !Z.leb_le.
Qed.

Lemma Aggregate_range now b :
  wf b -> 0 <= (Aggregate now b).1 <= 10 * u32_modulus /\
          0 <= (Aggregate now b).2 <= 10 * u32_modulus.
Proof.
  intros Hwf. rewrite Aggregate_total by done. simpl.
  pose proof (wf_length _ Hwf) as Hl. unfold kBucketCount in Hl.
  pose proof (total_range success now (ns (window (config_ b))) (buckets_ b)
    ltac:(eapply Forall_impl; [apply Hwf|]; by intros ? [? ?])).
  pose proof (total_range failure now (ns (window (config_ b))) (buckets_ b)
    ltac:(eapply Forall_impl; [apply Hwf|]; by intros ? [? ?])).
  rewrite Hl in *. mlia.
Qed.

(** *** Every operation preserves well-formedness *)

Lemma with_ring_wf b init st i bs :
  wf b -> ring_shape i bs -> wf (with_ring b init st i bs).
Proof. intros [] (? & ? & ?). by split. Qed.

Lemma AdvanceTo_wf now b : wf b -> wf (AdvanceTo now b).
Proof.
  intros Hwf. pose proof (AdvanceTo_shape now b ltac:(by destruct Hwf)) as Hs.
  destruct (AdvanceTo_window now b) as (i & st & x & bs & E).
  rewrite E in *. by apply with_ring_wf.
Qed.

Lemma with_control_wf b st until g next pending issued completed :
  wf b -> 0 < g < u64_modulus -> is_u64 next ->
  wf_probes (with_control b st until g next pending issued completed) ->
  wf (with_control b st until g next pending issued completed).
Proof. intros [] ???. by split. Qed.

Lemma Open_wf now b : wf b -> wf (Open now b).
Proof.
  intros Hwf. apply with_control_wf; [done|apply AdvanceGeneration_range|apply Hwf|done].
Qed.

Lemma BeginHalfOpen_wf b : wf b -> wf (BeginHalfOpen b).
Proof.
  intros Hwf. apply with_control_wf; [done|apply AdvanceGeneration_range|apply wrap_u64_range|].
  destruct (wf_config _ Hwf) as (_ & _ & _ & _ & Hq). unfold wf_probes; simpl.
  split_and!; [apply NoDup_singleton| |lia|lia|lia|lia].
  intros id ->%list_elem_of_singleton. exists 1. split; [lia|].
  unfold wrap_u64. rewrite Zminus_mod_idemp_l.
  replace (next_probe_id_ b + 1 - 1) with (next_probe_id_ b) by lia.
  symmetry. apply Z.mod_small. apply Hwf.
Qed.

Lemma Close_wf b : wf b -> wf (Close b).
Proof.
  intros Hwf. unfold Close. apply with_ring_wf.
  - apply with_control_wf; [done|apply AdvanceGeneration_range|apply Hwf|done].
  - apply replicate_shape; [unfold kBucketCount; lia|apply Hwf].
Qed.

Lemma count_wf f b :
  (forall k, bucket_u32 k -> bucket_u32 (f k)) -> wf b ->
  wf (with_buckets b (alter f (active_index_ b) (buckets_ b))).
Proof.
  intros Hf Hwf. apply with_ring_wf; [done|]. apply count_shape; [done|]. by destruct Hwf.
Qed.

Lemma count_success_wf b : wf b -> wf (count_success b).
Proof. apply count_wf. intros k [? ?]; split; simpl; [apply wrap_u32_range|done]. Qed.

Lemma count_failure_wf b : wf b -> wf (count_failure b).
Proof. apply count_wf. intros k [? ?]; split; simpl; [done|apply wrap_u32_range]. Qed.

Lemma Fresh_wf b : wf b -> wf (BeginFreshHalfOpenCycle b).2.
Proof.
  intros Hwf. unfold BeginFreshHalfOpenCycle.
  destruct (wf_config _ Hwf) as (_ & _ & _ & _ & Hq).
  destruct (issue_probes _ _) as [ids next] eqn:E. simpl.
  assert (NoDup ids) as Hnd by (eapply issue_probes_NoDup; [apply Hwf| |exact E]; mlia).
  apply issue_probes_spec in E as (E1 & E2 & E3 & E4); [|apply Hwf].
  apply with_control_wf; [done|apply AdvanceGeneration_range|done|].
  unfold wf_probes; simpl. rewrite E3, !Z2Nat.id in * by lia. split_and!; try done; lia.
Qed.

(** *** Simulation

    One call stutters or makes one abstract step, and keeps the breaker well
    formed. *)
Definition simulates (b b' : t) : Prop :=
  wf b' /\ config_ b' = config_ b /\
  (abs b' = abs b \/ transition (config_ b) (abs b) (abs b')).

Lemma simulates_refl b : wf b -> simulates b b.
Proof. intros; split_and!; [done|done|by left]. Qed.

Lemma abs_AdvanceTo now b : abs (AdvanceTo now b) = abs b.
Proof.
  unfold abs. pose proof (AdvanceTo_control now b) as (_ & -> & _ & -> & -> & _ & -> & -> & ->). done.
Qed.

(** The window advance in front of every call is invisible. *)
Lemma simulates_AdvanceTo now b b' : simulates (AdvanceTo now b) b' -> simulates b b'.
Proof.
  intros (H1 & H2 & H3). rewrite abs_AdvanceTo in H3.
  pose proof (AdvanceTo_control now b) as (E & _). rewrite E in *. done.
Qed.

Lemma Evaluate_simulates now b : wf b -> state_ b = kClosed -> simulates b (Evaluate now b).
Proof.
  intros Hwf Hc. unfold Evaluate. destruct (trips _ _) eqn:Ht; [|by apply simulates_refl].
  pose proof (Aggregate_range now b Hwf) as [Hs Hf].
  destruct (Aggregate now b) as [s f]; simpl in *.
  apply trips_spec in Ht; [|apply Hwf|done|done].
  split_and!; [by apply Open_wf|done|right]. unfold abs. rewrite Hc. by apply (tr_trip _ _ _ s f).
Qed.

Lemma count_simulates f b b' :
  b' = with_buckets b (alter f (active_index_ b) (buckets_ b)) ->
  abs b' = abs b /\ config_ b' = config_ b /\ state_ b' = state_ b.
Proof. by intros ->. Qed.

(** Consuming a probe removes exactly it from the pending set. *)
Lemma ConsumeProbe_spec id b b1 :
  wf b -> state_ b = kHalfOpen -> ConsumeProbe id b = Some b1 ->
  exists p, b1 = with_control b kHalfOpen (open_until_ b) (generation_ b) (next_probe_id_ b) p
                   (half_open_issued_ b) (half_open_completed_ b) /\
    pending_probes_ b ≡ₚ id :: p /\ NoDup p /\
    list_to_set p = (list_to_set (pending_probes_ b) ∖ {[ id ]} : gset Z).
Proof.
  intros Hwf Hs Hc. unfold ConsumeProbe in Hc. rewrite Hs in Hc.
  apply fmap_Some_1 in Hc as (p & Hp%erase_perm & ->). exists p.
  pose proof (wf_control _ Hwf) as Hw. unfold wf_probes in Hw. rewrite Hs in Hw.
  destruct Hw as (Hnd & _). rewrite Hp in Hnd. apply NoDup_cons in Hnd as [Hni Hnd].
  split_and!; [done|done|done|]. apply leibniz_equiv. rewrite Hp. clear -Hni. set_solver.
Qed.

Lemma probe_ok_simulates id b b1 :
  wf b -> state_ b = kHalfOpen -> ConsumeProbe id b = Some b1 ->
  let completed := wrap_u32 (half_open_completed_ b1 + 1) in
  let b2 := with_control b1 (state_ b1) (open_until_ b1) (generation_ b1) (next_probe_id_ b1)
              (pending_probes_ b1) (half_open_issued_ b1) completed in
  simulates b (if completed =? half_open_probes (config_ b2) then Close b2 else b2).
Proof.
  intros Hwf Hs Hc. pose proof (wf_control _ Hwf) as Hw. unfold wf_probes in Hw. rewrite Hs in Hw.
  destruct Hw as (_ & Hin & Hlen & Hiq & Hcq).
  destruct (wf_config _ Hwf) as (_ & _ & _ & _ & Hq).
  destruct (ConsumeProbe_spec _ _ _ Hwf Hs Hc) as (p & -> & Hp & Hnd & Hset).
  assert (id ∈ pending_probes_ b) as Hid by (rewrite Hp; left).
  assert (id ∈ (list_to_set (pending_probes_ b) : gset Z)) as Hid' by (by apply elem_of_list_to_set).
  assert (Z.of_nat (length (pending_probes_ b)) = 1 + Z.of_nat (length p)) as Hl
    by (rewrite Hp; simpl; lia).
  cbn [half_open_completed_ with_control config_]. rewrite wrap_u32_small by mlia.
  destruct (Z.eqb_spec (half_open_completed_ b + 1) (half_open_probes (config_ b))) as [E|E].
  - split_and!; [by apply (Close_wf b)|done|right].
    unfold abs; simpl. rewrite Hs. by eapply tr_close.
  - split_and!; [|done|right].
    + apply (with_control_wf b); [done|apply Hwf|apply Hwf|]. unfold wf_probes; simpl.
      split_and!; try done; try lia. intros x Hx. apply Hin. rewrite Hp. by right.
    + unfold abs; simpl. rewrite Hs, Hset. apply tr_probe_ok; [done|lia].
Qed.

Lemma probe_failed_simulates now id b b1 :
  wf b -> state_ b = kHalfOpen -> ConsumeProbe id b = Some b1 -> simulates b (Open now b1).
Proof.
  intros Hwf Hs Hc. destruct (ConsumeProbe_spec _ _ _ Hwf Hs Hc) as (p & -> & Hp & _ & _).
  split_and!; [by apply (Open_wf now b)|done|right].
  unfold abs; simpl. rewrite Hs. apply (tr_reopen _ _ _ _ _ id).
  apply elem_of_list_to_set. rewrite Hp. left.
Qed.

Lemma RecordSuccess_simulates now permit b : wf b -> simulates b (RecordSuccess now permit b).
Proof.
  intros Hwf. apply (simulates_AdvanceTo now). apply (AdvanceTo_wf now) in Hwf.
  unfold RecordSuccess. set (a := AdvanceTo now b) in *. clearbody a.
  destruct (negb _); [by apply simulates_refl|].
  destruct (state_ a) eqn:Hs; [|by apply simulates_refl|].
  - case_decide; [|by apply simulates_refl].
    apply (Evaluate_simulates now (count_success a)); [by apply count_success_wf|done].
  - case_decide; [|by apply simulates_refl].
    destruct (ConsumeProbe _ _) eqn:Hc; [|by apply simulates_refl].
    by apply (probe_ok_simulates (probe_id permit)).
Qed.

Lemma RecordFailure_simulates now permit b : wf b -> simulates b (RecordFailure now permit b).
Proof.
  intros Hwf. apply (simulates_AdvanceTo now). apply (AdvanceTo_wf now) in Hwf.
  unfold RecordFailure. set (a := AdvanceTo now b) in *. clearbody a.
  destruct (negb _); [by apply simulates_refl|].
  destruct (state_ a) eqn:Hs; [|by apply simulates_refl|].
  - case_decide; [|by apply simulates_refl].
    apply (Evaluate_simulates now (count_failure a)); [by apply count_failure_wf|done].
  - case_decide; [|by apply simulates_refl].
    destruct (ConsumeProbe _ _) eqn:Hc; [|by apply simulates_refl].
    by apply (probe_failed_simulates now (probe_id permit)).
Qed.

(** Issuing one more probe of the current cycle. *)
Lemma issue_simulates b :
  wf b -> state_ b = kHalfOpen -> half_open_issued_ b < half_open_probes (config_ b) ->
  simulates b (with_control b kHalfOpen (open_until_ b) (generation_ b)
                 (wrap_u64 (next_probe_id_ b + 1)) (pending_probes_ b ++ [next_probe_id_ b])
                 (wrap_u32 (half_open_issued_ b + 1)) (half_open_completed_ b)).
Proof.
  intros Hwf Hs Hlt. pose proof (wf_control _ Hwf) as Hw. unfold wf_probes in Hw. rewrite Hs in Hw.
  destruct Hw as (Hnd & Hin & Hlen & Hiq & Hcq). pose proof (wf_next _ Hwf) as Hn.
  destruct (wf_config _ Hwf) as (_ & _ & _ & _ & Hq).
  rewrite wrap_u32_small by mlia.
  assert (next_probe_id_ b ∉ pending_probes_ b) as Hfresh.
  { intros (k & Hk & E)%Hin.
    assert (0 = k); [|lia]. apply (wrap_sub_inj (next_probe_id_ b)); [mlia|mlia|].
    rewrite Z.sub_0_r, wrap_u64_small by done. exact E. }
  split_and!; [|done|right].
  - apply with_control_wf; [done|apply Hwf|apply wrap_u64_range|].
    unfold wf_probes; simpl. split_and!; try lia.
    + apply NoDup_app. split_and!; [done| |apply NoDup_singleton].
      intros x Hx ->%list_elem_of_singleton. done.
    + intros id [Hid| ->%list_elem_of_singleton]%elem_of_app.
      * apply Hin in Hid as (k & Hk & ->). exists (k + 1). split; [lia|].
        unfold wrap_u64. rewrite Zminus_mod_idemp_l. f_equal. lia.
      * exists 1. split; [lia|]. unfold wrap_u64. rewrite Zminus_mod_idemp_l.
        replace (next_probe_id_ b + 1 - 1) with (next_probe_id_ b) by lia.
        symmetry. by apply Z.mod_small.
    + rewrite length_app; simpl. lia.
  - unfold abs; simpl. rewrite Hs, list_to_set_app_L. simpl. rewrite union_empty_r_L.
    apply tr_issue; [done|]. by rewrite elem_of_list_to_set.
Qed.

Lemma Select_simulates now b : wf b -> simulates b (Select now b).2.
Proof.
  intros Hwf. apply (simulates_AdvanceTo now). apply (AdvanceTo_wf now) in Hwf.
  unfold Select. set (a := AdvanceTo now b) in *. clearbody a.
  destruct (state_ a) eqn:Hs; [by apply simulates_refl| |].
  - destruct (Z.ltb_spec now (open_until_ a)); [by apply simulates_refl|].
    split_and!; [by apply BeginHalfOpen_wf|done|right].
    unfold abs; simpl. rewrite Hs, union_empty_r_L. by apply (tr_elapsed _ _ _ now).
  - destruct (Z.ltb_spec (half_open_issued_ a) (half_open_probes (config_ a)));
      [by apply issue_simulates|by apply simulates_refl].
Qed.

Lemma Fresh_simulates b : wf b -> simulates b (BeginFreshHalfOpenCycle b).2.
Proof.
  intros Hwf. pose proof (Fresh_wf b Hwf) as Hwf'. unfold BeginFreshHalfOpenCycle in *.
  destruct (wf_config _ Hwf) as (_ & _ & _ & _ & Hq).
  destruct (issue_probes _ _) as [ids next] eqn:E. simpl in *.
  split_and!; [done|done|right]. unfold abs; simpl. apply tr_fresh.
  pose proof (wf_control _ Hwf') as (Hnd & _ & Hl & _); simpl in *.
  rewrite size_list_to_set by done. lia.
Qed.

Lemma exec_simulates o b : wf b -> simulates b (exec o b).
Proof.
  destruct o; [apply RecordSuccess_simulates|apply RecordFailure_simulates|
               apply Select_simulates|apply Fresh_simulates].
Qed.

Lemma run_wf os b : wf b -> wf (run os b) /\ config_ (run os b) = config_ b.
Proof.
  revert b. induction os as [|o os IH]; intros b Hwf; simpl; [done|].
  destruct (exec_simulates o b Hwf) as (H1 & H2 & _).
  destruct (IH _ H1) as [H3 H4]. split; [done|congruence].
Qed.

(** ** The state machine's theorems *)

Definition example_config : Config := mkConfig 10000 2 500 1000 2.

Definition example : t :=
  mk example_config kClosed 5000000000 0 0 false (replicate kBucketCount no_bucket) 0 1 1 [] 0 0.

Lemma example_wf : wf example.
Proof.
  apply (breaker_make_wf example_config 5000000000); [by vm_compute|by vm_compute|by vm_compute|done].
Qed.

(** Two failures trip the breaker, and after the open window a probe passes. *)
Definition example_ops : list op :=
  [OFailure 6000000000 (mkPermit kAllowed 1 0); OFailure 6000000000 (mkPermit kAllowed 1 0);
   OSelect 7000000000].

(** *** Epochs *)

(** The generation after [k] transitions: the non-zero uint64 values in
    cyclic order. *)
Definition gen_after (k g : Z) : Z := 1 + (g - 1 + k) mod (u64_modulus - 1).

Lemma gen_after_0 g : 0 < g < u64_modulus -> gen_after 0 g = g.
Proof. intros Hg. unfold gen_after. rewrite Z.mod_small by mlia. lia. Qed.

Lemma gen_after_succ k g : AdvanceGeneration (gen_after k g) = gen_after (k + 1) g.
Proof.
  unfold AdvanceGeneration, gen_after. set (x := g - 1 + k).
  replace (g - 1 + (k + 1)) with (x + 1) by lia.
  pose proof (Z.mod_pos_bound x (u64_modulus - 1) ltac:(mlia)) as Hx.
  rewrite <- (Zplus_mod_idemp_l x).
  remember (x mod (u64_modulus - 1)) as r eqn:Er. clear Er.
  destruct (decide (r = u64_modulus - 2)) as [->|Hr]; [by vm_compute|].
  rewrite wrap_u64_small by mlia. rewrite (Z.mod_small (r + 1)) by mlia.
  rewrite (proj2 (Z.eqb_neq _ 0)) by lia. lia.
Qed.

Lemma gen_after_ne k g :
  0 < g < u64_modulus -> 0 < k < u64_modulus - 1 -> gen_after k g <> g.
Proof.
  unfold gen_after. intros Hg Hk E.
  pose proof (Z.div_mod (g - 1 + k) (u64_modulus - 1) ltac:(mlia)).
  assert ((g - 1 + k) / (u64_modulus - 1) = 0 \/ (g - 1 + k) / (u64_modulus - 1) = 1)
    as [Hd|Hd]; [|mlia|mlia].
  pose proof (Z.div_pos (g - 1 + k) (u64_modulus - 1) ltac:(lia) ltac:(mlia)).
  pose proof (Z.div_lt_upper_bound (g - 1 + k) (u64_modulus - 1) 2 ltac:(mlia) ltac:(mlia)). lia.
Qed.

(** A call that changes the state advances the generation, at most once. *)
Lemma exec_generation o b :
  wf b ->
  (generation_ (exec o b) = generation_ b /\ state_ (exec o b) = state_ b) \/
  generation_ (exec o b) = AdvanceGeneration (generation_ b).
Proof.
  intros Hwf. destruct (exec_simulates o b Hwf) as (_ & _ & [E|Hs]); unfold abs in *.
  - left. simplify_eq. split; [done|]. destruct (state_ b), (state_ (exec o b)); done.
  - inversion Hs; simplify_eq; try (by right).
    + left. split; [done|]. destruct (state_ b), (state_ (exec o b)); done.
    + left. split; [done|]. destruct (state_ b), (state_ (exec o b)); done.
Qed.

Lemma run_generation os b :
  wf b -> exists k, 0 <= k <= Z.of_nat (length os) /\
    generation_ (run os b) = gen_after k (generation_ b) /\
    (k = 0 -> state_ (run os b) = state_ b).
Proof.
  intros Hwf. induction os as [|o os IH] using rev_ind.
  { exists 0. rewrite gen_after_0 by apply Hwf. simpl. done. }
  destruct IH as (k & Hk & Hg & Hs). unfold run in *. rewrite foldl_app, length_app; simpl.
  fold (run os b) in *. destruct (run_wf os b Hwf) as [Hw _].
  destruct (exec_generation o (run os b) Hw) as [[E1 E2]|E].
  - exists k. split_and!; [lia|lia|congruence|]. intros H0. rewrite E2. by apply Hs.
  - exists (k + 1). split_and!; [lia|lia| |lia]. by rewrite E, Hg, gen_after_succ.
Qed.

Lemma run_app os1 os2 b : run (os1 ++ os2) b = run os2 (run os1 b).
Proof. apply foldl_app. Qed.

Lemma gen_after_add j k g : gen_after j (gen_after k g) = gen_after (k + j) g.
Proof.
  unfold gen_after. replace (1 + (g - 1 + k) mod (u64_modulus - 1) - 1 + j)
    with ((g - 1 + k) mod (u64_modulus - 1) + j) by lia.
  rewrite Zplus_mod_idemp_l. do 2 f_equal. lia.
Qed.

(** C7: A permit is bound to its epoch: once the breaker has changed state (or
    started a fresh half-open cycle) after the permit was issued, reporting an
    outcome with it changes nothing but the clock of the statistics window,
    for as long as fewer than 2^64 - 1 calls have been made. *)
Theorem stale_permits_inert os1 os2 b p now :
  wf b ->
  state_ (run os1 b) <> state_ b \/ generation_ (run os1 b) <> generation_ b ->
  Z.of_nat (length (os1 ++ os2)) < u64_modulus - 1 ->
  generation p = generation_ b ->
  let b' := run (os1 ++ os2) b in
  RecordSuccess now p b' = AdvanceTo now b' /\ RecordFailure now p b' = AdvanceTo now b' /\
  abs (AdvanceTo now b') = abs b'.
Proof.
  intros Hwf Hch Hlen Hp b'.
  assert (Hne : generation_ b' <> generation_ b).
  { unfold b'. rewrite run_app. rewrite length_app in Hlen.
    destruct (run_generation os1 b Hwf) as (k & Hk & Hg & Hs).
    destruct (run_wf os1 b Hwf) as [Hw1 _].
    destruct (run_generation os2 _ Hw1) as (j & Hj & Hg2 & _).
    rewrite Hg2, Hg, gen_after_add. apply gen_after_ne; [apply Hwf|].
    destruct (decide (k = 0)) as [->|]; [|lia].
    rewrite gen_after_0 in Hg by apply Hwf. destruct Hch; [|done]. by rewrite Hs in *. }
  pose proof (AdvanceTo_control now b') as (_ & _ & _ & _ & Eg & _).
  unfold RecordSuccess, RecordFailure. rewrite Eg, Hp.
  rewrite (proj2 (Z.eqb_neq _ _)) by congruence. simpl. split_and!; [done|done|apply abs_AdvanceTo].
Qed.

Lemma stale_permits_inert_witness :
  let b' := run (example_ops ++ []) example in
  RecordFailure 8000000000 (mkPermit kAllowed 1 0) b' = AdvanceTo 8000000000 b'.
Proof.
  intros b'.
  apply (stale_permits_inert example_ops [] example (mkPermit kAllowed 1 0) 8000000000 example_wf);
    [left; by vm_compute|by vm_compute|reflexivity].
Defined.

(** *** Closing *)

(** The call is a success reported with a pending probe's permit. *)
Definition accepts_probe (o : op) (b : t) : bool :=
  match o with
  | OSuccess _ p =>
      (generation p =? generation_ b) && bool_decide (state_ b = kHalfOpen)
      && bool_decide (selection p = kProbe) && bool_decide (probe_id p ∈ pending_probes_ b)
  | _ => false
  end.

Fixpoint accepted (os : list op) (b : t) : Z :=
  match os with
  | [] => 0
  | o :: os => (if accepts_probe o b then 1 else 0) + accepted os (exec o b)
  end.

(** The probe successes a state presupposes. *)
Definition presupposed (b : t) : Z :=
  match state_ b with
  | kClosed => half_open_probes (config_ b)
  | kOpen => 0
  | kHalfOpen => half_open_completed_ b
  end.

Lemma presupposed_nonneg b : wf b -> 0 <= presupposed b.
Proof.
  intros Hwf. destruct (wf_config _ Hwf) as (_ & _ & _ & _ & Hq).
  pose proof (wf_control _ Hwf) as Hw. unfold presupposed, wf_probes in *.
  destruct (state_ b); lia.
Qed.

Lemma presupposed_AdvanceTo now b : presupposed (AdvanceTo now b) = presupposed b.
Proof.
  pose proof (AdvanceTo_control now b) as (Ec & Es & _ & _ & _ & _ & _ & _ & En).
  unfold presupposed. by rewrite Ec, Es, En.
Qed.

Lemma presupposed_Evaluate now b b' :
  wf b -> state_ b = kClosed -> state_ b' = kClosed -> config_ b' = config_ b ->
  presupposed (Evaluate now b') <= presupposed b.
Proof.
  intros Hwf Hs Hs' Ec. pose proof (presupposed_nonneg b Hwf).
  unfold Evaluate. destruct (trips _ _); [by unfold presupposed at 1|].
  unfold presupposed. rewrite Hs, Hs', Ec. done.
Qed.

Lemma RecordSuccess_presupposed now p b :
  wf b -> presupposed (RecordSuccess now p b)
          <= presupposed b + (if accepts_probe (OSuccess now p) b then 1 else 0).
Proof.
  intros Hwf. assert (Hacc : forall (x : bool) z, z <= z + (if x then 1 else 0))
    by (intros []; lia).
  pose proof (AdvanceTo_control now b) as (Ec & Es & _ & _ & Eg & _ & Ep & _).
  rewrite <- (presupposed_AdvanceTo now b). apply (AdvanceTo_wf now) in Hwf.
  destruct (wf_config _ Hwf) as (_ & _ & _ & _ & Hq).
  unfold accepts_probe, RecordSuccess in *. rewrite <- Eg, <- Es, <- Ep in *. clear Ec Es Eg Ep.
  set (a := AdvanceTo now b) in *. clearbody a.
  destruct (generation p =? generation_ a); simpl; [|lia].
  destruct (state_ a) eqn:Hs; simpl.
  - case_decide; [|lia]. pose proof (presupposed_Evaluate now a (count_success a) Hwf Hs Hs eq_refl).
    lia.
  - lia.
  - case_decide; [|apply Hacc]. rewrite (bool_decide_eq_true_2 (selection p = kProbe)) by done.
    simpl. destruct (ConsumeProbe (probe_id p) a) as [a1|] eqn:Hc; [|apply Hacc].
    destruct (ConsumeProbe_spec _ _ _ Hwf Hs Hc) as (q & -> & Hp & _ & _).
    rewrite bool_decide_eq_true_2 by (rewrite Hp; left).
    pose proof (wf_control _ Hwf) as Hw. unfold wf_probes in Hw. rewrite Hs in Hw.
    cbn [half_open_completed_ with_control config_]. rewrite wrap_u32_small by mlia.
    unfold presupposed. rewrite Hs.
    destruct (Z.eqb_spec (half_open_completed_ a + 1) (half_open_probes (config_ a))); simpl; lia.
Qed.

Lemma RecordFailure_presupposed now p b :
  wf b -> presupposed (RecordFailure now p b) <= presupposed b.
Proof.
  intros Hwf. rewrite <- (presupposed_AdvanceTo now b). apply (AdvanceTo_wf now) in Hwf.
  unfold RecordFailure. set (a := AdvanceTo now b) in *. clearbody a.
  destruct (negb _); [lia|]. destruct (state_ a) eqn:Hs; [|lia|]; (case_decide; [|lia]).
  - by apply presupposed_Evaluate.
  - pose proof (presupposed_nonneg a Hwf). destruct (ConsumeProbe _ a); [|lia].
    by unfold presupposed at 1.
Qed.

Lemma Select_presupposed now b : wf b -> presupposed (Select now b).2 <= presupposed b.
Proof.
  intros Hwf. rewrite <- (presupposed_AdvanceTo now b). apply (AdvanceTo_wf now) in Hwf.
  unfold Select. set (a := AdvanceTo now b) in *. clearbody a.
  pose proof (presupposed_nonneg a Hwf). unfold presupposed in *.
  destruct (state_ a) eqn:Hs; [simpl; rewrite Hs; lia| |];
    (destruct (_ <? _); simpl; rewrite ?Hs; lia).
Qed.

Lemma exec_presupposed o b :
  wf b -> presupposed (exec o b) <= presupposed b + (if accepts_probe o b then 1 else 0).
Proof.
  intros Hwf. destruct o as [now p|now p|now|].
  - by apply RecordSuccess_presupposed.
  - pose proof (RecordFailure_presupposed now p b Hwf). simpl. lia.
  - pose proof (Select_presupposed now b Hwf). simpl. lia.
  - pose proof (presupposed_nonneg b Hwf). simpl exec. unfold BeginFreshHalfOpenCycle.
    destruct (issue_probes _ _). unfold presupposed at 1; simpl. lia.
Qed.

Lemma run_presupposed os b : wf b -> presupposed (run os b) <= presupposed b + accepted os b.
Proof.
  revert b. induction os as [|o os IH]; intros b Hwf; simpl; [lia|].
  pose proof (exec_presupposed o b Hwf). pose proof (exec_simulates o b Hwf) as (Hw & _).
  specialize (IH _ Hw). lia.
Qed.

(** An open breaker closes only after at least the full configured quota of
    probe successes, each reported with the permit of a then pending probe of
    the current half-open cycle: neither ordinary successes nor a partial
    quota close it. *)
Theorem close_needs_full_quota os b :
  wf b -> state_ b = kOpen -> state_ (run os b) = kClosed ->
  half_open_probes (config_ b) <= accepted os b.
Proof.
  intros Hwf Ho Hc. pose proof (run_presupposed os b Hwf) as H.
  destruct (run_wf os b Hwf) as [_ Ec].
  unfold presupposed in H. rewrite Ho, Hc, Ec in H. lia.
Qed.

Definition example_recovery : list op :=
  [OSelect 7000000000; OSelect 7000000000; OSuccess 7100000000 (mkPermit kProbe 3 1);
   OSuccess 7100000000 (mkPermit kAllowed 3 0); OSuccess 7200000000 (mkPermit kProbe 3 2)].

Lemma close_needs_full_quota_witness :
  2 <= accepted example_recovery (run (take 2 example_ops) example).
Proof.
  apply (close_needs_full_quota example_recovery (run (take 2 example_ops) example));
    [|by vm_compute|by vm_compute].
  apply run_wf, example_wf.
Defined.

(** ** What an outcome does to a half-open cycle

    Used by the coordinator: an outcome leaves the breaker half-open only
    within the same cycle, and removes from the pending probes exactly the one
    its permit names. *)

(** The permit names a pending probe of the current cycle. *)
Definition names_pending (p : RequestPermit) (b : t) : Prop :=
  generation p = generation_ b /\ selection p = kProbe /\ probe_id p ∈ pending_probes_ b.

Definition Record_ (ok : bool) (now : Z) (p : RequestPermit) (b : t) : t :=
  if ok then RecordSuccess now p b else RecordFailure now p b.

Lemma Record_simulates ok now p b : wf b -> simulates b (Record_ ok now p b).
Proof. destruct ok; [apply RecordSuccess_simulates|apply RecordFailure_simulates]. Qed.

Lemma Record_generation ok now p b :
  wf b ->
  (generation_ (Record_ ok now p b) = generation_ b /\ state_ (Record_ ok now p b) = state_ b) \/
  generation_ (Record_ ok now p b) = AdvanceGeneration (generation_ b).
Proof.
  intros Hwf. destruct ok.
  - apply (exec_generation (OSuccess now p) b Hwf).
  - apply (exec_generation (OFailure now p) b Hwf).
Qed.

Lemma Record_half_open ok now p b :
  wf b -> state_ (Record_ ok now p b) = kHalfOpen ->
  state_ b = kHalfOpen /\ generation_ (Record_ ok now p b) = generation_ b /\
  next_probe_id_ (Record_ ok now p b) = next_probe_id_ b /\
  forall id, id ∈ pending_probes_ (Record_ ok now p b) <->
             id ∈ pending_probes_ b /\ ~ (names_pending p b /\ id = probe_id p).
Proof.
  intros Hwf. pose proof (AdvanceTo_control now b) as (_ & Es & _ & _ & Eg & En & Ep & _ & _).
  apply (AdvanceTo_wf now) in Hwf. unfold names_pending. rewrite <- Es, <- Eg, <- En, <- Ep.
  assert (Heq : Record_ ok now p b = Record_ ok now p b) by done.
  unfold Record_, RecordSuccess, RecordFailure in *. set (a := AdvanceTo now b) in *. clearbody a.
  clear Heq Es Eg En Ep.
  destruct (Z.eqb_spec (generation p) (generation_ a)) as [Hg|Hg]; simpl negb; cbn iota.
  2: { replace (if ok then a else a) with a by (by destruct ok). intros Hs. split_and!; try done.
       intros id. naive_solver. }
  destruct (state_ a) eqn:Hs.
  { assert (Hev : forall x, state_ x = kClosed -> state_ (Evaluate now x) <> kHalfOpen).
    { intros x Hx. unfold Evaluate. destruct (trips _ _); simpl; congruence. }
    intros Hh. exfalso. destruct ok; case_decide; try congruence; by eapply Hev in Hh. }
  { intros Hh. destruct ok; congruence. }
  destruct (decide (selection p = kProbe)) as [Hp|Hp].
  2: { replace (if ok then a else a) with a by (by destruct ok). intros _. split_and!; try done.
       intros id. naive_solver. }
  destruct (ConsumeProbe (probe_id p) a) as [a1|] eqn:Hc.
  - destruct (ConsumeProbe_spec _ _ _ Hwf Hs Hc) as (q & -> & Hperm & Hnd & _).
    destruct ok; [|done]. cbn [half_open_completed_ with_control config_].
    destruct (_ =? _); [done|]. simpl. intros _. split_and!; try done.
    pose proof (wf_control _ Hwf) as Hw. unfold wf_probes in Hw. rewrite Hs in Hw.
    destruct Hw as (Hnd' & _). rewrite Hperm in Hnd'. apply NoDup_cons in Hnd' as [Hni _].
    intros id. rewrite Hperm, !elem_of_cons. split.
    + intros Hid. split; [by right|]. intros [_ ->]. done.
    + intros [[->|Hid] Hn]; [|done]. exfalso. apply Hn. naive_solver.
  - apply fmap_None, erase_None in Hc. destruct ok; simpl; intros _; split_and!; try done;
      intros id; naive_solver.
Qed.

(** A fresh cycle: its probes are the ids from its base on. *)
Lemma fresh_cycle b :
  wf b ->
  let '(c, b') := BeginFreshHalfOpenCycle b in
  wf b' /\ state_ b' = kHalfOpen /\ generation_ b' = AdvanceGeneration (generation_ b) /\
  config_ b' = config_ b /\
  cycle_generation c = generation_ b' /\ quota c = half_open_probes (config_ b) /\
  probe_base c = next_probe_id_ b /\
  forall k, 0 <= k < quota c -> wrap_u64 (probe_base c + k) ∈ pending_probes_ b'.
Proof.
  intros Hwf. pose proof (Fresh_wf b Hwf) as Hw. unfold BeginFreshHalfOpenCycle in *.
  destruct (issue_probes _ _) as [ids next] eqn:E. simpl in *.
  split_and!; try done. intros k Hk.
  assert (H : forall n nx, is_u64 nx -> 0 <= k < Z.of_nat n ->
                wrap_u64 (nx + k) ∈ (issue_probes n nx).1).
  { clear. intros n. revert k. induction n as [|n IH]; intros k nx Hn Hk; [lia|]. simpl.
    specialize (IH (k - 1) (wrap_u64 (nx + 1)) (wrap_u64_range _)).
    destruct (issue_probes n (wrap_u64 (nx + 1))) as [ids m]. simpl in *.
    destruct (decide (k = 0)) as [->|Hk0].
    - rewrite Z.add_0_r, wrap_u64_small by done. left.
    - right. replace (wrap_u64 (nx + k)) with (wrap_u64 (wrap_u64 (nx + 1) + (k - 1))).
      + apply IH. lia.
      + unfold wrap_u64. rewrite Zplus_mod_idemp_l. f_equal. lia. }
  specialize (H (Z.to_nat (half_open_probes (config_ b))) (next_probe_id_ b) (wf_next _ Hwf)
                ltac:(lia)).
  by rewrite E in H.
Qed.

End CircuitBreaker.
