(* ===== verification/BreakerWindow.v ===== *)
(** * The breaker's statistics

    Two properties of the sliding window of CircuitBreaker.  First, the ring of
    ten buckets with its in-place rotation and its jump over skipped intervals
    is equivalent to a reference definition: an event log from which the
    events of the last ten bucket intervals are counted; so the breaker trips
    exactly when the reference counts reach the threshold.  Second, exporting
    the state of a breaker and importing it into the breaker of a new
    configuration generation preserves the counts and the open deadline.  Between
    the two, [breaker_refines] shows the whole breaker equal, call by call, to a
    deterministic reference machine over such a log. *)

From S2P Require Import Prelude CircuitBreaker.

Module BreakerWindow.
Import CircuitBreaker.

(** ** The reference: an event log *)

(** A recorded outcome: its time and whether it was a success. *)
Abbreviation event := (Z * bool)%type.

(** The bucket interval a time falls in, counted from the epoch. *)
Definition interval (e d t : Z) : Z := (t - e) / d.

(** Interval [n] is one of the ten that end with [K]. *)
Definition in_window (K n : Z) : bool := (K - 10 <? n) && (n <=? K).

Definition count (P : event -> bool) (log : list event) : Z :=
  sumZ ((fun ev => if P ev then 1 else 0) <$> log).

(** The successes ([ok = true]) or failures of the log in the window that ends
    with the interval of [now]. *)
Definition window_count (e d now : Z) (ok : bool) (log : list event) : Z :=
  count (fun ev => bool_decide (ev.2 = ok) && in_window (interval e d now) (interval e d ev.1)) log.

(** ** The ring invariant *)

(** The events of the window that bucket [i] stands for. *)
Definition slot_event (e d K : Z) (i : nat) (ok : bool) (ev : event) : bool :=
  bool_decide (ev.2 = ok) && in_window K (interval e d ev.1)
  && (interval e d ev.1 mod 10 =? Z.of_nat i).

Definition slot_ok (e d K : Z) (log : list event) (i : nat) (k : Bucket) : Prop :=
  success k = count (slot_event e d K i true) log /\
  failure k = count (slot_event e d K i false) log /\
  ((success k = 0 /\ failure k = 0) \/
   exists n, K - 10 < n <= K /\ n mod 10 = Z.of_nat i /\ start k = e + n * d).

Definition ring (e d K : Z) (log : list event) (bs : list Bucket) : Prop :=
  length bs = kBucketCount /\
  Forall (fun ev => interval e d ev.1 <= K) log /\
  (forall i k, bs !! i = Some k -> slot_ok e d K log i k) /\
  (forall i k, Z.of_nat i = K mod 10 -> bs !! i = Some k -> start k = e + K * d).

Lemma count_cons P ev log : count P (ev :: log) = (if P ev then 1 else 0) + count P log.
Proof. done. Qed.

Lemma count_app P log log' : count P (log ++ log') = count P log + count P log'.
Proof. unfold count. by rewrite fmap_app, sumZ_app. Qed.

Lemma count_ext P Q log :
  Forall (fun ev => P ev = Q ev) log -> count P log = count Q log.
Proof. induction 1 as [|ev log E _ IH]; [done|]. by rewrite !count_cons, E, IH. Qed.

Lemma count_none P log : Forall (fun ev => P ev = false) log -> count P log = 0.
Proof. induction 1 as [|ev log E _ IH]; [done|]. by rewrite count_cons, E, IH. Qed.

Lemma count_range P log : 0 <= count P log <= Z.of_nat (length log).
Proof.
  induction log as [|ev log IH]; [simpl; unfold count; simpl; lia|].
  rewrite count_cons. simpl length. destruct (P ev); lia.
Qed.

(** Rotating by one interval: the bucket that is cleared is the one of the
    interval that leaves the window. *)
Lemma slot_event_next e d K i ok ev :
  interval e d ev.1 <= K -> (i < 10)%nat ->
  slot_event e d (K + 1) i ok ev =
    if Z.of_nat i =? (K + 1) mod 10 then false else slot_event e d K i ok ev.
Proof.
  intros Hle Hi. unfold slot_event, in_window. set (n := interval e d ev.1) in *.
  destruct (bool_decide (ev.2 = ok)); simpl; [|by destruct (_ =? _)].
  pose proof (Z.div_mod n 10 ltac:(lia)). pose proof (Z.mod_pos_bound n 10 ltac:(lia)).
  pose proof (Z.div_mod (K + 1) 10 ltac:(lia)). pose proof (Z.mod_pos_bound (K + 1) 10 ltac:(lia)).
  zcases.
Qed.

Lemma ring_next e d K log bs i :
  0 < d -> Z.of_nat i = (K + 1) mod 10 -> ring e d K log bs ->
  ring e d (K + 1) log (<[ i := mkBucket (e + (K + 1) * d) 0 0 ]> bs).
Proof.
  intros Hd Hi (Hlen & Hlog & Hs & _). split_and!; [by rewrite length_insert| | |].
  { eapply Forall_impl; [exact Hlog|]. simpl. lia. }
  2: { intros j k Hj Hk. replace j with i in Hk by lia.
       by apply list_lookup_insert_Some in Hk as [(_ & <- & _)|(? & _)]. }
  intros j k Hj.
  assert (j < 10)%nat as Hj10.
  { apply lookup_lt_Some in Hj. rewrite length_insert, Hlen in Hj. done. }
  assert (Hc : forall ok, count (slot_event e d (K + 1) j ok) log =
                 if Z.of_nat j =? (K + 1) mod 10 then 0 else count (slot_event e d K j ok) log).
  { intros ok. destruct (Z.of_nat j =? (K + 1) mod 10) eqn:E.
    - apply count_none. eapply Forall_impl; [exact Hlog|]. intros ev Hev; simpl in Hev.
      by rewrite slot_event_next, E.
    - apply count_ext. eapply Forall_impl; [exact Hlog|]. intros ev Hev; simpl in Hev.
      by rewrite slot_event_next, E. }
  unfold slot_ok. rewrite !Hc. apply list_lookup_insert_Some in Hj as [(<- & <- & _)|(Hne & Hj)].
  - rewrite (proj2 (Z.eqb_eq _ _)) by done. simpl. split_and!; [done|done|left; done].
  - rewrite (proj2 (Z.eqb_neq _ _)) by lia. destruct (Hs _ _ Hj) as (H1 & H2 & H3).
    split_and!; [done|done|]. destruct H3 as [H3|(n & Hn & Hm & Hst)]; [by left|right].
    exists n. split_and!; [|lia|done|done].
    destruct (decide (n = K - 9)) as [->|]; [|lia].
    exfalso. apply Hne. apply Nat2Z.inj. rewrite Hi, <- Hm.
    replace (K + 1) with (K - 9 + 1 * 10) by lia. apply Z_mod_plus_full.
Qed.

(** Rotating by [n] intervals, as the loop of [AdvanceTo] does. *)
Lemma advance_buckets_ring e d n K i log bs :
  0 < d -> Z.of_nat i = K mod 10 -> ring e d K log bs ->
  let '(st, i', bs') := advance_buckets n d (e + K * d) i bs in
  let K' := K + Z.of_nat n in
  st = e + K' * d /\ Z.of_nat i' = K' mod 10 /\ ring e d K' log bs'.
Proof.
  intros Hd. revert K i bs. induction n as [|n IH]; intros K i bs Hi Hr.
  { simpl. rewrite Z.add_0_r. done. }
  simpl advance_buckets.
  assert (Hi' : Z.of_nat ((i + 1) mod kBucketCount) = (K + 1) mod 10).
  { rewrite Nat2Z.inj_mod, Nat2Z.inj_add, Hi. change (Z.of_nat kBucketCount) with 10.
    apply Zplus_mod_idemp_l. }
  replace (e + K * d + d) with (e + (K + 1) * d) by lia.
  specialize (IH (K + 1) _ _ Hi' (ring_next _ _ _ _ _ _ Hd Hi' Hr)).
  destruct (advance_buckets _ _ _ _ _) as [[st i'] bs'].
  replace (K + Z.of_nat (S n)) with (K + 1 + Z.of_nat n) by lia. done.
Qed.

(** A jump past the whole window clears the ring. *)
Lemma ring_reset e d K K' log i :
  Forall (fun ev => interval e d ev.1 <= K) log -> K + 10 <= K' -> Z.of_nat i = K' mod 10 ->
  ring e d K' log (<[ i := mkBucket (e + K' * d) 0 0 ]> (replicate kBucketCount no_bucket)).
Proof.
  intros Hlog HK Hi. split_and!; [by rewrite length_insert, length_replicate| | |].
  { eapply Forall_impl; [exact Hlog|]. simpl. lia. }
  2: { intros j k Hj Hk. replace j with i in Hk by lia.
       by apply list_lookup_insert_Some in Hk as [(_ & <- & _)|(? & _)]. }
  intros j k Hj.
  assert (Hz : success k = 0 /\ failure k = 0).
  { apply list_lookup_insert_Some in Hj as [(_ & <- & _)|(_ & [-> _]%lookup_replicate)]; done. }
  assert (Hc : forall ok, count (slot_event e d K' j ok) log = 0).
  { intros ok. apply count_none. eapply Forall_impl; [exact Hlog|]. intros ev Hev; simpl in Hev.
    unfold slot_event, in_window. rewrite (proj2 (Z.ltb_ge _ _)) by lia.
    by rewrite andb_false_r. }
  unfold slot_ok. rewrite !Hc. destruct Hz as [-> ->]. split_and!; [done|done|by left].
Qed.

(** ** The breaker's window *)

Section Breaker.
Context (b0 : t).
Context (Hcfg : valid_config (config_ b0)).

Abbreviation e := (epoch_ b0).
Abbreviation d := (bucket_duration b0).

Lemma duration_pos : 0 < d /\ ns (window (config_ b0)) = 10 * d.
Proof.
  destruct Hcfg as (Hw & _). unfold bucket_duration, ns.
  rewrite quot_nonneg by lia. replace (window (config_ b0) * 1000000)
    with (window (config_ b0) * 100000 * 10) by lia. rewrite Z.div_mul by lia. lia.
Qed.

(** The breaker after the events of [log], the last window advance having been
    to interval [K]. *)
Definition tracks (b : t) (K : Z) (log : list event) : Prop :=
  config_ b = config_ b0 /\ epoch_ b = e /\ initialized_ b = true /\ 0 <= K /\
  active_start_ b = e + K * d /\ Z.of_nat (active_index_ b) = K mod 10 /\
  ring e d K log (buckets_ b).

(** A breaker whose window was just cleared: by construction or by [Close]. *)
Definition fresh_window (b : t) : Prop :=
  config_ b = config_ b0 /\ epoch_ b = e /\ initialized_ b = false /\
  buckets_ b = replicate kBucketCount no_bucket.

Lemma interval_bounds now :
  interval e d now * d <= now - e < (interval e d now + 1) * d.
Proof.
  destruct duration_pos as [Hd _]. unfold interval.
  pose proof (Z.div_mod (now - e) d ltac:(lia)). pose proof (Z.mod_pos_bound (now - e) d Hd). nia.
Qed.

Lemma interval_unique now K : K * d <= now - e < (K + 1) * d -> interval e d now = K.
Proof.
  intros HK. destruct duration_pos as [Hd _]. unfold interval.
  symmetry. apply (Z.div_unique _ _ _ (now - e - K * d)); lia.
Qed.

(** [AdvanceTo] of an initialized window, when the clock does not go back. *)
Lemma AdvanceTo_tracks b K log now :
  tracks b K log -> e + K * d <= now -> now - e < u64_modulus ->
  tracks (AdvanceTo now b) (interval e d now) log.
Proof.
  intros (Hc & He & Hi & HK & Hst & Hx & Hr) Hnow Hlt. destruct duration_pos as [Hd _].
  assert (Hdur : bucket_duration b = d) by (unfold bucket_duration; by rewrite Hc).
  pose proof (interval_bounds now) as Hb. set (K' := interval e d now) in *.
  assert (K <= K') by nia.
  unfold AdvanceTo. rewrite Hi, He, Hdur. rewrite (proj2 (Z.ltb_ge _ _)) by nia.
  rewrite Hst. destruct (Z.ltb_spec now (e + K * d + d)) as [Hin|Hout].
  { assert (K' = K) as -> by nia. done. }
  assert (Hskip : Z.quot (now - (e + K * d)) d = K' - K).
  { rewrite quot_nonneg by lia. symmetry.
    apply (Z.div_unique _ _ _ (now - e - K' * d)); lia. }
  rewrite Hskip, wrap_u64_small by mnia.
  destruct (Z.leb_spec (Z.of_nat kBucketCount) (K' - K)) as [Hjump|Hstep].
  - assert (Hq : Z.quot (now - e) d = K') by (rewrite quot_nonneg by nia; done).
    rewrite Hq, wrap_u64_small by mnia.
    assert (Hrem : now - Z.rem (now - e) d = e + K' * d).
    { rewrite Z.rem_eq, Hq by lia. lia. }
    rewrite Hrem. unfold tracks, with_ring.
    cbn [config_ epoch_ initialized_ active_start_ active_index_ buckets_].
    split_and!; try done; try lia.
    + rewrite Nat2Z.inj_mod, Z2Nat.id by lia. done.
    + rewrite (proj1 Hr). apply (ring_reset _ _ K); [apply Hr| |].
      * change (Z.of_nat kBucketCount) with 10 in Hjump. lia.
      * rewrite Nat2Z.inj_mod, Z2Nat.id by lia. done.
  - pose proof (advance_buckets_ring e d (Z.to_nat (K' - K)) K (active_index_ b) log
                  (buckets_ b) Hd Hx Hr) as Ha.
    destruct (advance_buckets _ _ _ _ _) as [[st i'] bs'].
    rewrite Z2Nat.id in Ha by lia. replace (K + (K' - K)) with K' in Ha by lia.
    destruct Ha as (-> & Hi' & Hr'). unfold tracks; simpl. split_and!; try done; lia.
Qed.

(** The first [AdvanceTo] of a fresh window. *)
Lemma AdvanceTo_fresh b now :
  fresh_window b -> e <= now -> now - e < u64_modulus ->
  tracks (AdvanceTo now b) (interval e d now) [].
Proof.
  intros (Hc & He & Hi & Hbs) Hnow Hlt.
  set (b1 := with_ring b true (epoch_ b) 0
               (<[ 0%nat := mkBucket (epoch_ b) 0 0 ]> (buckets_ b))).
  assert (AdvanceTo now b = AdvanceTo now b1) as ->.
  { unfold AdvanceTo. change (epoch_ b1) with (epoch_ b). change (initialized_ b1) with true.
    change (bucket_duration b1) with (bucket_duration b). rewrite Hi.
    destruct (Z.ltb_spec now (epoch_ b)); [lia|reflexivity]. }
  apply (AdvanceTo_tracks b1 0); [|lia|done].
  unfold tracks; simpl. rewrite Hbs, He. split_and!; try done; try lia.
  split_and!; [done|by constructor| |].
  2: { intros [|i] k Hi0 Hk; [simpl in Hk; simplify_eq; simpl; lia|].
       change (0 mod 10) with 0 in Hi0. lia. }
  intros i k Hk. unfold slot_ok.
  assert (success k = 0 /\ failure k = 0) as [-> ->]; [|split_and!; [done|done|by left]].
  change (list_insert 0%nat (mkBucket e 0 0) (replicate kBucketCount no_bucket) !! i = Some k) in Hk.
  apply list_lookup_insert_Some in Hk as [(_ & <- & _)|(_ & [-> _]%lookup_replicate)]; done.
Qed.

(** Recording an outcome in the active bucket. *)
Lemma ring_record now K log bs i (ok : bool) (f : Bucket -> Bucket) :
  (forall k, start (f k) = start k /\
     success (f k) = (if ok then wrap_u32 (success k + 1) else success k) /\
     failure (f k) = (if ok then failure k else wrap_u32 (failure k + 1))) ->
  interval e d now = K -> Z.of_nat i = K mod 10 -> Z.of_nat (length log) + 1 < u32_modulus ->
  ring e d K log bs -> ring e d K (log ++ [(now, ok)]) (alter f i bs).
Proof.
  intros Hf HK Hi Hlen (Hl & Hlog & Hs & Hst). split_and!; [by rewrite length_alter| | |].
  { apply Forall_app. split; [done|]. apply Forall_singleton. simpl. lia. }
  2: { intros j k Hj Hk. replace j with i in Hk by lia. rewrite list_lookup_alter_eq in Hk.
       apply fmap_Some_1 in Hk as (k0 & Hk0 & ->). destruct (Hf k0) as (-> & _). exact (Hst i k0 Hi Hk0). }
  intros j k Hj.
  assert (Hnew : forall ok' : bool, count (slot_event e d K j ok') (log ++ [(now, ok)]) =
     count (slot_event e d K j ok') log + if bool_decide (ok = ok') && bool_decide (i = j) then 1 else 0).
  { intros ok'. rewrite count_app. f_equal. unfold count, slot_event, in_window; simpl.
    rewrite HK, (proj2 (Z.ltb_lt _ _)), (proj2 (Z.leb_le _ _)), <- Hi by lia. simpl.
    rewrite andb_true_r, Z.add_0_r. destruct (bool_decide (ok = ok')); simpl; [|done].
    destruct (Z.eqb_spec (Z.of_nat i) (Z.of_nat j)).
    - by rewrite bool_decide_eq_true_2 by lia.
    - by rewrite bool_decide_eq_false_2 by lia. }
  unfold slot_ok. rewrite !Hnew.
  pose proof (count_range (slot_event e d K j true) log).
  pose proof (count_range (slot_event e d K j false) log).
  destruct (decide (i = j)) as [<-|Hne].
  - rewrite list_lookup_alter_eq in Hj. apply fmap_Some_1 in Hj as (k0 & Hk0 & ->).
    destruct (Hs _ _ Hk0) as (H1 & H2 & _). destruct (Hf k0) as (-> & -> & ->).
    rewrite H1, H2. split_and!.
    + destruct ok; simpl; [rewrite wrap_u32_small by mlia|]; rewrite ?bool_decide_eq_true_2 by done; simpl; lia.
    + destruct ok; simpl; [|rewrite wrap_u32_small by mlia]; rewrite ?bool_decide_eq_true_2 by done; simpl; lia.
    + right. exists K. split_and!; [lia|lia|done|exact (Hst i k0 Hi Hk0)].
  - rewrite list_lookup_alter_ne in Hj by done. destruct (Hs _ _ Hj) as (H1 & H2 & H3).
    rewrite (bool_decide_eq_false_2 (i = j)), !andb_false_r, !Z.add_0_r by done. done.
Qed.

(** Every event of the window is counted by exactly one bucket. *)
Lemma slots_partition K ok log :
  sumZ ((fun i => count (slot_event e d K i ok) log) <$> seq 0 10) =
  count (fun ev => bool_decide (ev.2 = ok) && in_window K (interval e d ev.1)) log.
Proof.
  induction log as [|ev log IH]; [done|].
  transitivity (sumZ ((fun i => (if slot_event e d K i ok ev then 1 else 0)
                                + count (slot_event e d K i ok) log) <$> seq 0 10)); [done|].
  rewrite sumZ_fmap_add, IH, count_cons. f_equal. unfold slot_event.
  destruct (bool_decide _ && in_window _ _); simpl andb; [|done].
  pose proof (Z.mod_pos_bound (interval e d ev.1) 10 ltac:(lia)) as Hr.
  set (r := interval e d ev.1 mod 10) in *. clearbody r.
  assert (r = 0 \/ r = 1 \/ r = 2 \/ r = 3 \/ r = 4 \/ r = 5 \/ r = 6 \/ r = 7 \/ r = 8 \/ r = 9)
    as H by lia.
  repeat (destruct H as [->|H]; [done|]). by subst r.
Qed.

Lemma tracks_total b K log now :
  tracks b K log -> interval e d now = K ->
  total success now (10 * d) (buckets_ b) = window_count e d now true log /\
  total failure now (10 * d) (buckets_ b) = window_count e d now false log.
Proof.
  intros (_ & _ & _ & _ & _ & _ & Hl & _ & Hs & _) HK. destruct duration_pos as [Hd _].
  pose proof (interval_bounds now) as Hb. rewrite HK in Hb.
  assert (Hlive : forall i k, buckets_ b !! i = Some k ->
            (success k = 0 /\ failure k = 0) \/ live now (10 * d) k = true).
  { intros i k Hk. destruct (Hs _ _ Hk) as (_ & _ & [H|(n & Hn & _ & Hst)]); [by left|right].
    unfold live. apply Z.ltb_lt. rewrite Hst. nia. }
  unfold window_count, total. rewrite HK, <- !slots_partition.
  change 10%nat with kBucketCount. rewrite <- Hl. split; apply sumZ_indices; intros i k Hk;
    destruct (Hs _ _ Hk) as (H1 & H2 & _); rewrite <- ?H1, <- ?H2;
    (destruct (Hlive _ _ Hk) as [[Es Ef]|E]; [rewrite ?Es, ?Ef; by destruct (live _ _ _)|by rewrite E]).
Qed.

(** ** Recording a stream of outcomes of admitted requests *)

Definition record (b : t) (ev : event) : t :=
  let permit := mkPermit kAllowed (generation_ b) 0 in
  if ev.2 then RecordSuccess ev.1 permit b else RecordFailure ev.1 permit b.

Definition record_all (evs : list event) (b : t) : t := foldl record b evs.

(** The clock does not go back. *)
Fixpoint ordered (from : Z) (evs : list event) : Prop :=
  match evs with
  | [] => True
  | ev :: evs => from <= ev.1 /\ ordered ev.1 evs
  end.

(** The breaker has recorded [log], at times up to [now]. *)
Definition follows (b : t) (log : list event) (now : Z) : Prop :=
  (fresh_window b /\ log = [] /\ e <= now) \/ exists K, tracks b K log /\ e + K * d <= now.

Lemma follows_AdvanceTo b log now now' :
  follows b log now -> now <= now' -> now' - e < u64_modulus ->
  tracks (AdvanceTo now' b) (interval e d now') log.
Proof.
  intros [(Hf & -> & He)|(K & Ht & HK)] Hle Hlt.
  - apply AdvanceTo_fresh; [done|lia|done].
  - apply (AdvanceTo_tracks _ K); [done|lia|done].
Qed.

(** The closed branch of [RecordSuccess] and [RecordFailure] on the statistics
    [(s, f)] of the log with the new event. *)
Lemma record_closed b log now ev :
  wf b -> state_ b = kClosed -> follows b log now -> now <= ev.1 -> ev.1 - e < u64_modulus ->
  Z.of_nat (length log) + 1 < u32_modulus ->
  let s := window_count e d ev.1 true (log ++ [ev]) in
  let f := window_count e d ev.1 false (log ++ [ev]) in
  exists c, wf c /\ state_ c = kClosed /\ tracks c (interval e d ev.1) (log ++ [ev]) /\
    Aggregate ev.1 c = (s, f) /\
    record b ev = (if trips (config_ b0) (s, f) then Open ev.1 c else c) /\
    generation_ c = generation_ b /\ next_probe_id_ c = next_probe_id_ b.
Proof.
  intros Hwf Hc Hf Hle Hlt Hlen s f. destruct duration_pos as [Hd Hw].
  pose proof (follows_AdvanceTo _ _ _ _ Hf Hle Hlt) as Ht.
  pose proof (AdvanceTo_control ev.1 b) as (_ & Es & _ & _ & Eg & En & _).
  apply (AdvanceTo_wf ev.1) in Hwf.
  set (a := AdvanceTo ev.1 b) in *. rewrite Hc in Es.
  exists (if ev.2 then count_success a else count_failure a).
  assert (Hwc : wf (if ev.2 then count_success a else count_failure a))
    by (destruct ev.2; [by apply count_success_wf|by apply count_failure_wf]).
  assert (Htc : tracks (if ev.2 then count_success a else count_failure a)
                       (interval e d ev.1) (log ++ [ev])).
  { destruct Ht as (H1 & H2 & H3 & H4 & H5 & H6 & H7). destruct ev as [tm ok]; simpl in *.
    destruct ok; unfold tracks; simpl; (split_and!; try done);
      by apply ring_record. }
  assert (Hag : Aggregate ev.1 (if ev.2 then count_success a else count_failure a) = (s, f)).
  { rewrite Aggregate_total by done. destruct (tracks_total _ _ _ ev.1 Htc eq_refl) as [T1 T2].
    destruct Htc as (Hcc & _). rewrite Hcc, Hw. by rewrite T1, T2. }
  split_and!; [done|by destruct ev.2|done|done| |by destruct ev.2|by destruct ev.2].
  destruct Htc as (Hcc & _).
  unfold record, RecordSuccess, RecordFailure. fold a. simpl generation. simpl selection.
  rewrite Eg, Z.eqb_refl, Es, decide_True by done. simpl negb. cbn iota.
  destruct ev.2; unfold Evaluate; by rewrite Hag, Hcc.
Qed.

Lemma record_closed_back b ev : state_ (record b ev) = kClosed -> state_ b = kClosed.
Proof.
  pose proof (AdvanceTo_control ev.1 b) as (_ & Es & _).
  unfold record, RecordSuccess, RecordFailure. rewrite Es.
  destruct ev.2, (negb _), (state_ b); simpl; congruence.
Qed.

Lemma record_all_closed_back evs b : state_ (record_all evs b) = kClosed -> state_ b = kClosed.
Proof.
  revert b. induction evs as [|ev evs IH]; intros b; simpl; [done|].
  intros H%IH. by eapply record_closed_back.
Qed.

Lemma follows_record pre : forall b log now ev,
  wf b -> state_ b = kClosed -> follows b log now -> ordered now (pre ++ [ev]) ->
  Forall (fun x => x.1 - e < u64_modulus) (pre ++ [ev]) ->
  Z.of_nat (length log + length (pre ++ [ev])) < u32_modulus ->
  state_ (record_all pre b) = kClosed ->
  let all := log ++ pre ++ [ev] in
  let s := window_count e d ev.1 true all in
  let f := window_count e d ev.1 false all in
  state_ (record_all (pre ++ [ev]) b) = (if trips (config_ b0) (s, f) then kOpen else kClosed) /\
  Aggregate ev.1 (record_all (pre ++ [ev]) b) = (s, f).
Proof.
  induction pre as [|x pre IH]; intros b log now ev Hwf Hc Hf Ho Hr Hlen Hcl all s f; simpl in *.
  - destruct Ho as [Hle _]. apply Forall_cons in Hr as [Hr _].
    destruct (record_closed b log now ev Hwf Hc Hf Hle Hr ltac:(lia))
      as (c & Hwc & Hcc & _ & Ha & E & _).
    change (record_all [ev] b) with (record b ev). rewrite E.
    fold all s f in Ha |- *. destruct (trips _ _); (split; [done|exact Ha]).
  - destruct Ho as [Hle Ho]. apply Forall_cons in Hr as [Hrx Hr].
    destruct (record_closed b log now x Hwf Hc Hf Hle Hrx ltac:(lia))
      as (c & Hwc & Hcc & Ht & _ & E & _).
    change (record_all (x :: pre) b) with (record_all pre (record b x)) in Hcl.
    change (record_all (x :: pre ++ [ev]) b) with (record_all (pre ++ [ev]) (record b x)).
    rewrite E in *. pose proof (record_all_closed_back pre _ Hcl) as Hback.
    destruct (trips _ _); [done|].
    subst all s f. replace (log ++ x :: pre ++ [ev]) with ((log ++ [x]) ++ pre ++ [ev])
      by (by rewrite <- !app_assoc).
    apply (IH c (log ++ [x]) x.1); try done.
    + right. exists (interval e d x.1). split; [done|]. pose proof (interval_bounds x.1). lia.
    + rewrite !length_app in *. simpl length in *. lia.
Qed.

End Breaker.

(** C5: The ring of buckets computes the reference counts, and the breaker trips
    exactly on them: after any stream of outcomes with a non-decreasing clock
    that has left the breaker closed, the next outcome opens it if and only if
    the events of the last ten bucket intervals number at least [min_requests]
    with a failure rate of at least the threshold; the statistics then read
    exactly those counts. *)
Theorem breaker_trips_exactly b pre ev :
  wf b -> state_ b = kClosed -> fresh_window b b ->
  ordered (epoch_ b) (pre ++ [ev]) ->
  Forall (fun x => x.1 - epoch_ b < u64_modulus) (pre ++ [ev]) ->
  Z.of_nat (length (pre ++ [ev])) < u32_modulus ->
  state_ (record_all pre b) = kClosed ->
  let s := window_count (epoch_ b) (bucket_duration b) ev.1 true (pre ++ [ev]) in
  let f := window_count (epoch_ b) (bucket_duration b) ev.1 false (pre ++ [ev]) in
  Aggregate ev.1 (record_all (pre ++ [ev]) b) = (s, f) /\
  (over_threshold (config_ b) s f -> state_ (record_all (pre ++ [ev]) b) = kOpen) /\
  (~ over_threshold (config_ b) s f -> state_ (record_all (pre ++ [ev]) b) = kClosed).
Proof.
  intros Hwf Hc Hf Ho Hr Hlen Hcl s f.
  destruct (follows_record b (wf_config _ Hwf) pre b [] (epoch_ b) ev) as [H1 H2]; try done.
  { left. split_and!; [done|done|lia]. }
  simpl app in H1, H2. fold s f in H1, H2. split; [done|]. rewrite H1.
  assert (Hb : forall ok, 0 <= window_count (epoch_ b) (bucket_duration b) ev.1 ok (pre ++ [ev])
                          <= 10 * u32_modulus).
  { intros ok. pose proof (count_range (fun x => bool_decide (x.2 = ok)
      && in_window (interval (epoch_ b) (bucket_duration b) ev.1)
                   (interval (epoch_ b) (bucket_duration b) x.1)) (pre ++ [ev])).
    unfold window_count. mlia. }
  pose proof (trips_spec (config_ b) s f (wf_config _ Hwf) (Hb true) (Hb false)) as Ht.
  split; intros H; destruct (trips _ _); try done; exfalso; [apply Ht in H|apply H, Ht]; done.
Qed.

Lemma breaker_trips_exactly_witness :
  let pre := [(6000000000, true)] in
  Aggregate 15500000000 (record_all (pre ++ [(15500000000, false)]) example) = (1, 1) /\
  state_ (record_all (pre ++ [(15500000000, false)]) example) = kOpen.
Proof.
  intros pre.
  destruct (breaker_trips_exactly example pre (15500000000, false) example_wf) as (H1 & H2 & _).
  - reflexivity.
  - split_and!; reflexivity.
  - simpl. lia.
  - repeat constructor.
  - reflexivity.
  - reflexivity.
  - split; [exact H1|apply H2]. split; vm_compute; discriminate.
Defined.

(** ** The breaker against a deterministic reference machine

    The reference keeps no ring, no deadlines of buckets and no wrapping
    counters: a phase, an epoch, the next probe id and the log of the outcomes
    recorded since the breaker last closed.  Every call has exactly one answer
    and one next state; the clock is the one the call is given. *)

Inductive answer :=
  | ANone
  | APermit (p : RequestPermit)
  | ACycle (c : HalfOpenCycle).

(** One call of the code with what it returns. *)
Definition call (o : op) (b : t) : answer * t :=
  match o with
  | OSuccess now p => (ANone, RecordSuccess now p b)
  | OFailure now p => (ANone, RecordFailure now p b)
  | OSelect now => let '(p, b) := Select now b in (APermit p, b)
  | OFresh => let '(c, b) := BeginFreshHalfOpenCycle b in (ACycle c, b)
  end.

Record reference := mkRef {
  r_epoch : Z; r_phase : phase; r_next : Z; r_log : list event
}.

#[global] Instance over_threshold_dec c s f : Decision (over_threshold c s f).
Proof. unfold over_threshold. apply _. Defined.

(** The non-zero 64-bit values in cyclic order. *)
Definition next_epoch (g : Z) : Z := 1 + g mod (2 ^ 64 - 1).

Section Reference.
Context (c : Config) (epoch : Z).

(** A tenth of the window, in nanoseconds. *)
Definition tenth : Z := window c * 100000.

Definition reaches_threshold (now : Z) (log : list event) : Prop :=
  over_threshold c (window_count epoch tenth now true log) (window_count epoch tenth now false log).

#[global] Instance reaches_threshold_dec now log : Decision (reaches_threshold now log).
Proof. unfold reaches_threshold. apply _. Defined.

Definition opened (now : Z) (s : reference) : reference :=
  mkRef (next_epoch (r_epoch s)) (POpen (now + open_duration c * 1000000)) (r_next s) (r_log s).

(** An outcome counts only with a permit of the epoch: an ordinary one while
    closed, one of a pending probe while half open. *)
Definition ref_record (ok : bool) (now : Z) (p : RequestPermit) (s : reference) : reference :=
  if decide (generation p <> r_epoch s) then s
  else match r_phase s, selection p with
  | PClosed, kAllowed =>
      let s := mkRef (r_epoch s) PClosed (r_next s) (r_log s ++ [(now, ok)]) in
      if decide (reaches_threshold now (r_log s)) then opened now s else s
  | PHalfOpen P i n, kProbe =>
      if decide (probe_id p ∈ P) then
        if ok then
          if decide (n + 1 = half_open_probes c)
          then mkRef (next_epoch (r_epoch s)) PClosed (r_next s) []
          else mkRef (r_epoch s) (PHalfOpen (P ∖ {[ probe_id p ]}) i (n + 1)) (r_next s) (r_log s)
        else opened now s
      else s
  | _, _ => s
  end.

(** Everything passes while closed, nothing before the deadline while open; the
    call at or after it is the first probe, and further probes pass up to the
    quota. *)
Definition ref_select (now : Z) (s : reference) : RequestPermit * reference :=
  let g := r_epoch s in
  match r_phase s with
  | PClosed => (mkPermit kAllowed g 0, s)
  | POpen until =>
      if decide (now < until) then (mkPermit kRejectedOpen g 0, s)
      else (mkPermit kProbe (next_epoch g) (r_next s),
            mkRef (next_epoch g) (PHalfOpen {[ r_next s ]} 1 0) ((r_next s + 1) mod 2 ^ 64) (r_log s))
  | PHalfOpen P i n =>
      if decide (i < half_open_probes c)
      then (mkPermit kProbe g (r_next s),
            mkRef g (PHalfOpen (P ∪ {[ r_next s ]}) (i + 1) n) ((r_next s + 1) mod 2 ^ 64) (r_log s))
      else (mkPermit kRejectedHalfOpenQuota g 0, s)
  end.

(** A fresh cycle issues the whole quota of consecutive probe ids. *)
Definition ref_fresh (s : reference) : HalfOpenCycle * reference :=
  let q := half_open_probes c in
  (mkCycle (next_epoch (r_epoch s)) (r_next s) q,
   mkRef (next_epoch (r_epoch s))
         (PHalfOpen (list_to_set ((fun k => (r_next s + k) mod 2 ^ 64) <$> seqZ 0 q)) q 0)
         ((r_next s + q) mod 2 ^ 64) (r_log s)).

Definition ref_call (o : op) (s : reference) : answer * reference :=
  match o with
  | OSuccess now p => (ANone, ref_record true now p s)
  | OFailure now p => (ANone, ref_record false now p s)
  | OSelect now => let '(p, s) := ref_select now s in (APermit p, s)
  | OFresh => let '(c, s) := ref_fresh s in (ACycle c, s)
  end.

End Reference.

(** A sequence of calls with all their answers. *)
Fixpoint calls {S} (f : op -> S -> answer * S) (os : list op) (s : S) : list answer * S :=
  match os with
  | [] => ([], s)
  | o :: os => let '(a, s) := f o s in let '(l, s) := calls f os s in (a :: l, s)
  end.

(** The clock readings of the calls do not go back. *)
Fixpoint clock_ordered (from : Z) (os : list op) : Prop :=
  match os with
  | [] => True
  | OFresh :: os => clock_ordered from os
  | (OSuccess now _ | OFailure now _ | OSelect now) :: os => from <= now /\ clock_ordered now os
  end.

(** The nanoseconds since [from] fit the machine's unsigned type. *)
Definition clock_within (from : Z) (o : op) : Prop :=
  match o with
  | OFresh => True
  | OSuccess now _ | OFailure now _ | OSelect now => now - from < u64_modulus
  end.

Lemma AdvanceGeneration_next_epoch g : 0 < g < u64_modulus -> AdvanceGeneration g = next_epoch g.
Proof.
  intros Hg. rewrite <- (gen_after_0 g Hg) at 1. rewrite gen_after_succ. unfold gen_after, next_epoch.
  replace (g - 1 + (0 + 1)) with g by lia. done.
Qed.

Section Refinement.
Context (b0 : t).
Context (Hcfg : valid_config (config_ b0)).

Abbreviation e := (epoch_ b0).
Abbreviation d := (bucket_duration b0).
Abbreviation c := (config_ b0).

Lemma tenth_duration : d = tenth c.
Proof.
  destruct Hcfg as (Hw & _). destruct (duration_pos b0 Hcfg) as [_ H]. unfold ns in H.
  unfold tenth. lia.
Qed.

(** The breaker and the reference agree after calls up to clock value [now]. *)
Record agree (b : t) (s : reference) (now : Z) : Prop := {
  ag_wf : wf b;
  ag_config : config_ b = c;
  ag_epoch : epoch_ b = e;
  ag_now : e <= now;
  ag_abs : abs b = (r_epoch s, r_phase s);
  ag_next : next_probe_id_ b = r_next s;
  ag_window : follows b0 b (r_log s) now
}.

(** The window advance in front of a call. *)
Lemma agree_AdvanceTo b s now now' :
  agree b s now -> now <= now' -> now' - e < u64_modulus ->
  agree (AdvanceTo now' b) s now' /\ tracks b0 (AdvanceTo now' b) (interval e d now') (r_log s).
Proof.
  intros [Hw Hc He Hn Ha Hx Hf] Hle Hlt.
  pose proof (follows_AdvanceTo b0 Hcfg _ _ _ _ Hf Hle Hlt) as Ht.
  pose proof (AdvanceTo_control now' b) as (Ec & _ & Ee & _ & _ & En & _).
  split; [|done]. split; [by apply AdvanceTo_wf|congruence|congruence|lia| |congruence|].
  - by rewrite abs_AdvanceTo.
  - right. exists (interval e d now'). split; [done|].
    pose proof (interval_bounds b0 Hcfg now'). lia.
Qed.

(** A change of the state machine alone keeps the window. *)
Lemma follows_control b log now st until g next pending issued completed :
  follows b0 b log now ->
  follows b0 (with_control b st until g next pending issued completed) log now.
Proof. done. Qed.

Lemma follows_Close b now :
  length (buckets_ b) = kBucketCount -> config_ b = c -> epoch_ b = e -> e <= now ->
  follows b0 (Close b) [] now.
Proof.
  intros Hl Hc He Hn. left. split; [|done]. unfold fresh_window; simpl. by rewrite Hl.
Qed.

Lemma agree_select b s now now' :
  agree b s now -> now <= now' -> now' - e < u64_modulus ->
  let '(p, b') := Select now' b in
  let '(p', s') := ref_select c now' s in
  p = p' /\ agree b' s' now'.
Proof.
  intros Hag Hle Hlt. pose proof (Select_simulates now' b (ag_wf _ _ _ Hag)) as (Hw' & _ & _).
  destruct (agree_AdvanceTo _ _ _ _ Hag Hle Hlt) as [Ha _]. clear Hag.
  unfold Select in *. set (a := AdvanceTo now' b) in *. clearbody a.
  destruct Ha as [Hw Hc He Hn Ha Hx Hf]. pose proof (wf_control _ Hw) as Hp.
  pose proof (wf_generation _ Hw) as Hg. destruct (wf_config _ Hw) as (_ & _ & _ & _ & Hq).
  unfold ref_select, abs, wf_probes in *. injection Ha as Hge Hph. rewrite <- Hph, <- Hge in *.
  destruct (state_ a) eqn:Hs; simpl in *.
  - split; [done|]. split; try done. unfold abs. by rewrite Hs, Hge, Hph.
  - destruct (Z.ltb_spec now' (open_until_ a)); [rewrite decide_True by done|rewrite decide_False by lia].
    + split; [done|]. split; try done. unfold abs. by rewrite Hs, Hge, Hph.
    + rewrite <- AdvanceGeneration_next_epoch by done. simpl in *. rewrite <- Hx. split; [done|].
      split; try done. unfold abs; simpl. by rewrite union_empty_r_L.
  - rewrite <- Hc. destruct (Z.ltb_spec (half_open_issued_ a) (half_open_probes (config_ a)));
      [rewrite decide_True by done|rewrite decide_False by lia].
    + simpl in *. rewrite last_snoc, <- Hx. split; [done|]. split; try done.
      unfold abs; simpl. rewrite list_to_set_app_L, wrap_u32_small by mlia. simpl.
      by rewrite union_empty_r_L.
    + split; [done|]. split; try done. unfold abs. by rewrite Hs, Hge, Hph.
Qed.

Lemma issue_probes_list n next :
  is_u64 next ->
  issue_probes n next =
    ((fun k => wrap_u64 (next + k)) <$> seqZ 0 (Z.of_nat n), wrap_u64 (next + Z.of_nat n)).
Proof.
  revert next. induction n as [|n IH]; intros next Hn; simpl issue_probes.
  { simpl. by rewrite Z.add_0_r, wrap_u64_small. }
  rewrite IH by apply wrap_u64_range.
  rewrite (seqZ_cons 0 (Z.of_nat (S n))) by lia. rewrite fmap_cons, Z.add_0_r, (wrap_u64_small next) by done.
  replace (Z.pred (Z.of_nat (S n))) with (Z.of_nat n) by lia. f_equal.
  - f_equal. change (Z.succ 0) with (0 + 1). rewrite Z.add_0_l.
    rewrite <- (fmap_add_seqZ 1 0). rewrite <- list_fmap_compose. apply list_fmap_ext.
    intros i k _. unfold compose, wrap_u64. rewrite Zplus_mod_idemp_l. f_equal. lia.
  - unfold wrap_u64. rewrite Zplus_mod_idemp_l. f_equal. lia.
Qed.

Lemma agree_fresh b s now :
  agree b s now ->
  let '(cy, b') := BeginFreshHalfOpenCycle b in
  let '(cy', s') := ref_fresh c s in
  cy = cy' /\ agree b' s' now.
Proof.
  intros [Hw Hc He Hn Ha Hx Hf]. pose proof (Fresh_wf b Hw) as Hw'.
  pose proof (wf_generation _ Hw) as Hg. pose proof (wf_next _ Hw) as Hnx.
  destruct (wf_config _ Hw) as (_ & _ & _ & _ & Hq).
  unfold BeginFreshHalfOpenCycle, ref_fresh in *. injection Ha as Hge Hph.
  rewrite issue_probes_list in * by done. rewrite Z2Nat.id in * by lia.
  rewrite <- Hge, <- Hx, <- Hc, <- AdvanceGeneration_next_epoch by done. split; [done|].
  by split.
Qed.

(** The closed branch, on the statistics of the log. *)
Lemma record_closed_ref b s now ok now' p :
  agree b s now -> now <= now' -> now' - e < u64_modulus ->
  Z.of_nat (length (r_log s)) + 1 < u32_modulus ->
  state_ b = kClosed -> generation p = generation_ b -> selection p = kAllowed ->
  agree (Record_ ok now' p b) (ref_record c e ok now' p s) now'.
Proof.
  intros Hag Hle Hlt Hlen Hs Hg Hp.
  pose proof (Record_simulates ok now' p b (ag_wf _ _ _ Hag)) as (Hw' & _ & _).
  destruct Hag as [Hw Hc He Hn Ha Hx Hf].
  destruct (record_closed b0 Hcfg b (r_log s) now (now', ok) Hw Hs Hf Hle Hlt Hlen)
    as (x & Hwx & Hsx & Htx & Hagg & Hrec & Hgx & Hnx).
  assert (Hsame : Record_ ok now' p b = record b (now', ok)).
  { unfold Record_, record, RecordSuccess, RecordFailure; simpl.
    pose proof (AdvanceTo_control now' b) as (_ & Es & _ & _ & Eg & _).
    by rewrite Eg, Es, Hs, Hg, Hp. }
  rewrite Hsame in *. clear Hsame. simpl in Hrec, Hagg, Htx.
  pose proof (Aggregate_range now' x Hwx) as Hrg. rewrite Hagg in Hrg. simpl in Hrg.
  pose proof (trips_spec c _ _ Hcfg (proj1 Hrg) (proj2 Hrg)) as Htr.
  assert (Hfx : follows b0 x (r_log s ++ [(now', ok)]) now').
  { right. exists (interval e d now'). split; [done|].
    pose proof (interval_bounds b0 Hcfg now'). lia. }
  destruct Htx as (Hcx & Hex & _). pose proof (wf_generation _ Hw) as Hgr.
  unfold ref_record. unfold abs in Ha. injection Ha as Hge Hph. rewrite Hs in Hph.
  rewrite decide_False by (intros Hne; congruence). rewrite <- Hph, Hp. simpl.
  rewrite tenth_duration in Htr. change (_ <-> _) with
    (trips c (window_count e (tenth c) now' true (r_log s ++ [(now', ok)]),
              window_count e (tenth c) now' false (r_log s ++ [(now', ok)])) = true <->
     reaches_threshold c e now' (r_log s ++ [(now', ok)])) in Htr.
  rewrite tenth_duration in Hrec. rewrite Hrec in *. destruct (trips _ _).
  - rewrite decide_True by (by apply Htr). split; simpl; try done; try lia; try congruence.
    unfold abs; simpl. rewrite Hgx, Hcx, <- Hge, AdvanceGeneration_next_epoch by done. done.
  - rewrite decide_False by (intros H%Htr; done). split; simpl; try done; try lia; try congruence.
    unfold abs; simpl. by rewrite Hsx, Hgx, Hge.
Qed.

(** Recording an outcome, counted or not. *)
Lemma agree_record b s now ok now' p :
  agree b s now -> now <= now' -> now' - e < u64_modulus ->
  Z.of_nat (length (r_log s)) + 1 < u32_modulus ->
  agree (Record_ ok now' p b) (ref_record c e ok now' p s) now'.
Proof.
  intros Hag Hle Hlt Hlen.
  destruct (decide (state_ b = kClosed /\ generation p = generation_ b /\ selection p = kAllowed))
    as [(Hs & Hg & Hp)|Hno]; [by apply (record_closed_ref _ _ now)|].
  pose proof (Record_simulates ok now' p b (ag_wf _ _ _ Hag)) as (Hw' & _ & _).
  pose proof (AdvanceTo_control now' b) as (_ & Es & _ & _ & Eg & _).
  destruct (agree_AdvanceTo _ _ _ _ Hag Hle Hlt) as [Ha _]. rewrite <- Es, <- Eg in Hno.
  clear Hag Es Eg.
  assert (HR : Record_ ok now' p b = (if ok then RecordSuccess now' p b else RecordFailure now' p b))
    by done.
  unfold RecordSuccess, RecordFailure in HR. rewrite HR in *. clear HR.
  set (a := AdvanceTo now' b) in *. clearbody a.
  pose proof Ha as [Hw Hc He Hn Hab Hx Hf]. unfold abs in Hab. injection Hab as Hge Hph.
  pose proof (wf_generation _ Hw) as Hg. pose proof (wf_control _ Hw) as Hpr.
  destruct (wf_config _ Hw) as (_ & _ & _ & _ & Hq). unfold wf_probes in Hpr.
  unfold ref_record. rewrite <- Hph, <- Hge.
  destruct (Z.eqb_spec (generation p) (generation_ a)) as [Hgp|Hgp]; simpl negb in *; cbn iota in *.
  2: { rewrite (decide_True (P := generation p <> generation_ a)) by done. by destruct ok. }
  rewrite (decide_False (P := generation p <> generation_ a)) by (intros Hne; by apply Hne).
  destruct (state_ a) eqn:Hs.
  { rewrite decide_False by tauto. destruct (selection p) eqn:Hsel; try (by destruct ok). tauto. }
  { by destruct ok. }
  destruct (decide (selection p = kProbe)) as [Hp|Hp].
  2: { destruct (selection p); try done; by destruct ok. }
  rewrite Hp. destruct (ConsumeProbe (probe_id p) a) as [a1|] eqn:Hcp.
  2: { apply fmap_None, erase_None in Hcp. rewrite decide_False by (by rewrite elem_of_list_to_set).
       by destruct ok. }
  destruct (ConsumeProbe_spec _ _ _ Hw Hs Hcp) as (q & -> & Hperm & _ & Hset).
  rewrite decide_True by (rewrite elem_of_list_to_set, Hperm; left).
  destruct ok; cbn [half_open_completed_ with_control config_] in *.
  2: { split; simpl; try done. unfold abs; simpl. rewrite AdvanceGeneration_next_epoch, Hge by done.
       unfold ns. by rewrite Hc. }
  rewrite wrap_u32_small in * by mlia. rewrite Hc in *.
  destruct (Z.eqb_spec (half_open_completed_ a + 1) (half_open_probes c)) as [E|E].
  - rewrite decide_True by done. split; simpl; try done.
    + unfold abs; simpl. by rewrite AdvanceGeneration_next_epoch, Hge.
    + apply follows_Close; [apply (wf_length _ Hw)|done|done|lia].
  - rewrite decide_False by done. split; simpl; try done. unfold abs; simpl. by rewrite Hge, Hset.
Qed.

Lemma agree_log_length ok now p s :
  (length (r_log (ref_record c e ok now p s)) <= S (length (r_log s)))%nat.
Proof.
  unfold ref_record. repeat case_match; simpl; rewrite ?length_app; simpl; lia.
Qed.

(** One call. *)
Lemma agree_call o os b s now :
  agree b s now -> clock_ordered now (o :: os) ->
  Forall (clock_within e) (o :: os) ->
  Z.of_nat (length (r_log s) + length (o :: os)) < u32_modulus ->
  let '(x, b') := call o b in
  let '(x', s') := ref_call c e o s in
  x = x' /\ exists now', agree b' s' now' /\ clock_ordered now' os /\
    Z.of_nat (length (r_log s') + length os) < u32_modulus.
Proof.
  intros Hag Ho Hr Hlen. apply Forall_cons in Hr as [Hr _]. simpl length in Hlen.
  assert (Hrec : forall ok t p, now <= t -> t - e < u64_modulus -> clock_ordered t os ->
    exists now', agree (Record_ ok t p b) (ref_record c e ok t p s) now' /\ clock_ordered now' os /\
      Z.of_nat (length (r_log (ref_record c e ok t p s)) + length os) < u32_modulus).
  { intros ok t p Hle Hlt Ho'. exists t. split_and!; [|done|].
    - apply (agree_record _ _ now); try done. lia.
    - pose proof (agree_log_length ok t p s). lia. }
  destruct o as [t p|t p|t|]; simpl in Ho; [destruct Ho as [Hle Ho]..|].
  - split; [done|]. by apply (Hrec true).
  - split; [done|]. by apply (Hrec false).
  - pose proof (agree_select b s now t Hag Hle Hr) as H. unfold call, ref_call.
    assert (r_log (ref_select c t s).2 = r_log s) as El
      by (unfold ref_select; repeat case_match; done).
    destruct (Select t b), (ref_select c t s). destruct H as [-> H]. split; [done|].
    exists t. simpl in El. rewrite El. split_and!; [done|done|lia].
  - pose proof (agree_fresh b s now Hag) as H. unfold call, ref_call.
    destruct (BeginFreshHalfOpenCycle b), (ref_fresh c s) eqn:E. destruct H as [-> H]. split; [done|].
    exists now. injection E as <- <-. simpl. split_and!; [done|done|lia].
Qed.

Lemma agree_calls os : forall b s now,
  agree b s now -> clock_ordered now os ->
  Forall (clock_within e) os ->
  Z.of_nat (length (r_log s) + length os) < u32_modulus ->
  let '(l, b') := calls call os b in
  let '(l', s') := calls (ref_call c e) os s in
  l = l' /\ exists now', agree b' s' now'.
Proof.
  induction os as [|o os IH]; intros b s now Hag Ho Hr Hlen; simpl calls; [split; [done|by exists now]|].
  pose proof (agree_call o os b s now Hag Ho Hr Hlen) as H.
  destruct (call o b) as [x b1], (ref_call c e o s) as [x' s1].
  destruct H as [-> (now1 & Hag1 & Ho1 & Hlen1)]. apply Forall_cons in Hr as [_ Hr].
  specialize (IH b1 s1 now1 Hag1 Ho1 Hr Hlen1).
  destruct (calls call os b1), (calls (ref_call c e) os s1).
  destruct IH as [-> IH]. done.
Qed.

End Refinement.

(** C6: The breaker is the reference machine.  From its construction on, for
    every sequence of calls whose clock does not go back and that is shorter than
    2^32, the breaker gives exactly the answers the reference gives and ends in
    its phase and epoch: it opens on exactly the outcomes that bring the counts
    of the window to the threshold, refuses exactly before the deadline and
    beyond the probe quota, passes distinct probes with their permits, closes on
    exactly the last success of the quota and reopens on a failed pending
    probe. *)
Theorem breaker_refines config now b os :
  is_u32 (min_requests config) -> is_u32 (failure_threshold_permille config) ->
  is_u32 (half_open_probes config) -> make config now = Some b ->
  clock_ordered now os ->
  Forall (clock_within now) os ->
  Z.of_nat (length os) < u32_modulus ->
  let '(answers, b') := calls call os b in
  let '(expected, s) := calls (ref_call config now) os (mkRef 1 PClosed 1 []) in
  answers = expected /\ abs b' = (r_epoch s, r_phase s) /\ wf b'.
Proof.
  intros Hm Hf Hh Hmk Ho Hr Hlen.
  pose proof (breaker_make_wf config now b Hm Hf Hh Hmk) as Hw.
  assert (Hi : config_ b = config /\ epoch_ b = now /\ initialized_ b = false /\
               buckets_ b = replicate kBucketCount no_bucket /\ abs b = (1, PClosed) /\
               next_probe_id_ b = 1).
  { unfold make in Hmk. destruct (_ || _); [done|]. by simplify_eq. }
  destruct Hi as (Hc & He & Hin & Hb & Ha & Hn). subst config now.
  pose proof (agree_calls b (wf_config _ Hw) os b (mkRef 1 PClosed 1 []) (epoch_ b)) as H.
  destruct (calls call os b), (calls _ os _).
  destruct H as [-> (now' & Hag)]; try done.
  - split; try done. left. split_and!; done.
  - split_and!; [done|apply Hag|apply Hag].
Qed.

(** Two failures trip the breaker; the next call is refused, the one after the
    open window is a probe. *)
Lemma breaker_refines_witness :
  (calls call (example_ops ++ [OSelect 7000000001]) example).1 =
    [ANone; ANone; APermit (mkPermit kProbe 3 1); APermit (mkPermit kProbe 3 2)] /\
  (calls call [OFailure 6000000000 (mkPermit kAllowed 1 0); OFailure 6000000000 (mkPermit kAllowed 1 0);
               OSelect 6999999999] example).1 =
    (calls (ref_call example_config 5000000000)
       [OFailure 6000000000 (mkPermit kAllowed 1 0); OFailure 6000000000 (mkPermit kAllowed 1 0);
        OSelect 6999999999] (mkRef 1 PClosed 1 [])).1.
Proof.
  split; [by vm_compute|].
  pose proof (breaker_refines example_config 5000000000 example
    [OFailure 6000000000 (mkPermit kAllowed 1 0); OFailure 6000000000 (mkPermit kAllowed 1 0);
     OSelect 6999999999]) as H.
  destruct (calls call _ _), (calls (ref_call _ _) _ _).
  apply H; [by vm_compute|by vm_compute|by vm_compute|reflexivity| | |by vm_compute].
  - simpl. lia.
  - repeat constructor.
Defined.

(** ** Migration across a reload *)

(** Every bucket with counts has a start time that is set and not in the
    future of [now]. *)
Definition dated (now : Z) (b : t) : Prop :=
  Forall (fun k => (success k = 0 /\ failure k = 0) \/ 0 < start k <= now) (buckets_ b).

#[global] Instance dated_dec now b : Decision (dated now b).
Proof. unfold dated. apply _. Defined.

(** Breakers that recorded a stream of outcomes are dated. *)
Lemma tracks_dated b0 b K log now :
  valid_config (config_ b0) -> tracks b0 b K log -> epoch_ b0 + K * bucket_duration b0 <= now ->
  10 * bucket_duration b0 < epoch_ b0 -> dated now b.
Proof.
  intros Hv (_ & _ & _ & HK & _ & _ & _ & _ & Hs & _) Hn He.
  destruct (duration_pos b0 Hv) as [Hd _]. apply Forall_lookup. intros i k Hk.
  destruct (Hs _ _ Hk) as (_ & _ & [H|(n & Hr & _ & Hst)]); [by left|right]. rewrite Hst. nia.
Qed.

Lemma total_alter cnt now w f i bs k :
  bs !! i = Some k ->
  total cnt now w (alter f i bs) =
    total cnt now w bs - (if live now w k then cnt k else 0)
    + (if live now w (f k) then cnt (f k) else 0).
Proof.
  unfold total. revert i. induction bs as [|b bs IH]; intros [|i] H; simplify_eq/=.
  - lia.
  - change (list_alter f i bs) with (alter f i bs).
    specialize (IH i H). unfold sumZ in *. lia.
Qed.

Section Import.
Context (now w d : Z) (Hd : 0 < d) (Hw : 10 * d <= w <= 10 * d) (Hnow : w < now).

(** The buckets during the import loop: empty, or inside the window. *)
Definition importing (bs : list Bucket) : Prop :=
  length bs = kBucketCount /\
  Forall (fun k => bucket_u32 k /\
            ((start k = 0 /\ success k = 0 /\ failure k = 0) \/
             (start k <> 0 /\ live now w k = true))) bs.

Definition in_age (x : BucketSnapshot) : Prop :=
  0 <= age_from_export x < w /\ is_u32 (snap_success x) /\ is_u32 (snap_failure x).

Lemma total_importing cnt bs i k :
  (forall x, bucket_u32 x -> 0 <= cnt x) -> importing bs -> bs !! i = Some k ->
  cnt k * (if live now w k then 1 else 0) <= total cnt now w bs.
Proof.
  intros Hc (_ & Hf). unfold total. revert i Hf.
  induction bs as [|b bs IH]; intros [|i] Hf H; simplify_eq/=;
    apply Forall_cons in Hf as [[Hb Hb'] Hf].
  - assert (0 <= sumZ ((fun k0 => if live now w k0 then cnt k0 else 0) <$> bs)).
    { apply sumZ_nonneg, Forall_fmap. eapply Forall_impl; [exact Hf|]. intros x [Hx _]; simpl.
      specialize (Hc x Hx). destruct (live now w x); lia. }
    unfold sumZ in *. destruct (live now w k); lia.
  - specialize (IH i Hf H). specialize (Hc b Hb). unfold sumZ in *. destruct (live now w b); lia.
Qed.

Lemma import_bucket_total bs x :
  importing bs -> in_age x ->
  total success now w bs + snap_success x < u32_modulus ->
  total failure now w bs + snap_failure x < u32_modulus ->
  importing (import_bucket now w d bs x) /\
  total success now w (import_bucket now w d bs x) = total success now w bs + snap_success x /\
  total failure now w (import_bucket now w d bs x) = total failure now w bs + snap_failure x.
Proof.
  intros Hi (Ha & Hs & Hf) Hts Htf. unfold import_bucket.
  rewrite (proj2 (Z.ltb_ge _ _)), (proj2 (Z.leb_gt _ _)) by lia. simpl orb. cbn iota.
  assert (Hsb : 0 <= Z.quot (age_from_export x) d < 10).
  { rewrite quot_nonneg by lia. split; [apply Z.div_pos; lia|apply Z.div_lt_upper_bound; lia]. }
  rewrite wrap_u64_small by mlia. set (sb := Z.quot (age_from_export x) d) in *.
  rewrite (proj2 (Z.leb_gt _ _)) by (unfold kBucketCount; lia).
  set (i := ((kBucketCount - Z.to_nat sb) mod kBucketCount)%nat).
  destruct (lookup_lt_is_Some_2 bs i) as [k Hk].
  { rewrite (proj1 Hi). apply mod_bucket. }
  pose proof (proj2 Hi) as Hall. pose proof (Forall_lookup_1 _ _ _ _ Hall Hk) as [[Hk1 Hk2] Hk3].
  pose proof (total_importing success bs i k ltac:(intros ? [? ?]; mlia) Hi Hk) as T1.
  pose proof (total_importing failure bs i k ltac:(intros ? [? ?]; mlia) Hi Hk) as T2.
  set (f := fun target : Bucket => _).
  assert (Hfk : live now w (f k) = true /\ start (f k) <> 0).
  { unfold f, live in *; simpl. destruct (Z.eqb_spec (start k) 0); [|by destruct Hk3 as [[? _]|[? ?]]].
    split; [apply Z.ltb_lt|]; nia. }
  assert (Hcnt : success (f k) = success k + snap_success x /\
                 failure (f k) = failure k + snap_failure x).
  { unfold f; simpl. destruct Hk3 as [(_ & Ek1 & Ek2)|[_ El]].
    - rewrite Ek1, Ek2, !wrap_u32_small by mlia. done.
    - rewrite El in T1, T2. rewrite !wrap_u32_small by mlia. done. }
  split.
  - destruct Hi as [Hl _]. split; [by rewrite length_alter|].
    apply Forall_alter; [done|]. intros y Hy _. rewrite Hk in Hy. simplify_eq.
    split; [|right; by destruct Hfk]. destruct Hfk as [El _]. unfold f; split; simpl; apply wrap_u32_range.
  - rewrite !(total_alter _ _ _ _ _ _ _ Hk). destruct Hfk as [-> _], Hcnt as [-> ->].
    destruct Hk3 as [(_ & -> & ->)|[_ ->]]; [destruct (live now w k)|]; lia.
Qed.

Lemma import_buckets_total xs bs :
  importing bs -> Forall in_age xs ->
  total success now w bs + sumZ (snap_success <$> xs) < u32_modulus ->
  total failure now w bs + sumZ (snap_failure <$> xs) < u32_modulus ->
  let bs' := foldl (import_bucket now w d) bs xs in
  importing bs' /\
  total success now w bs' = total success now w bs + sumZ (snap_success <$> xs) /\
  total failure now w bs' = total failure now w bs + sumZ (snap_failure <$> xs).
Proof.
  revert bs. induction xs as [|x xs IH]; intros bs Hi Hx Hs Hf bs'; subst bs'; cbn [foldl].
  { unfold sumZ; simpl. split_and!; [done|lia|lia]. }
  apply Forall_cons in Hx as [Hx Hxs]. rewrite !fmap_cons, !sumZ_cons in *.
  assert (0 <= sumZ (snap_success <$> xs) /\ 0 <= sumZ (snap_failure <$> xs)) as [P1 P2].
  { split; apply sumZ_nonneg, Forall_fmap; (eapply Forall_impl; [exact Hxs|]);
      intros y (_ & Hy1 & Hy2); simpl; mlia. }
  destruct (import_bucket_total bs x Hi Hx) as (H1 & H2 & H3); [lia|lia|].
  destruct (IH _ H1 Hxs) as (H4 & H5 & H6); [lia|lia|].
  split_and!; [done|lia|lia].
Qed.

End Import.

(** What [ExportSnapshot] writes is what [Aggregate] reads. *)
Lemma export_total now w bs :
  Forall bucket_u32 bs ->
  Forall (fun k => (success k = 0 /\ failure k = 0) \/ 0 < start k <= now) bs ->
  let xs := omap (export_bucket now w) bs in
  Forall (in_age w) xs /\
  sumZ (snap_success <$> xs) = total success now w bs /\
  sumZ (snap_failure <$> xs) = total failure now w bs.
Proof.
  intros Hu Hd. induction bs as [|k bs IH]; intros xs; subst xs; [done|].
  apply Forall_cons in Hu as [[Hs Hf] Hu], Hd as [Hk Hd].
  destruct (IH Hu Hd) as (H1 & H2 & H3). clear IH.
  unfold total in *. rewrite !fmap_cons, !sumZ_cons.
  set (xs := omap (export_bucket now w) bs) in *.
  change (omap (export_bucket now w) (k :: bs))
    with (match export_bucket now w k with Some y => y :: xs | None => xs end).
  clearbody xs.
  change (live now w k) with (now - w <? start k).
  destruct (export_bucket now w k) as [x|] eqn:E; unfold export_bucket in E;
    destruct (Z.eqb_spec (start k) 0), (Z.ltb_spec now (start k)),
             (Z.leb_spec w (now - start k)); simplify_eq/=;
    destruct (Z.ltb_spec (now - w) (start k)); try lia;
    rewrite ?fmap_cons, ?sumZ_cons; simpl snap_success; simpl snap_failure;
    (split_and!; [|lia..]); try done.
  apply Forall_cons; split; [unfold in_age; simpl; mlia|done].
Qed.

(** A reload loses no statistics: importing the snapshot of a closed breaker
    into the breaker of the new generation, at any later time, gives a closed
    breaker of a new epoch whose window counts are exactly the exported
    breaker's, as long as they fit the uint32 counters. *)
Theorem reload_preserves_counts b b' now now' :
  wf b -> wf b' -> config_ b' = config_ b -> state_ b = kClosed -> dated now b ->
  ns (window (config_ b)) < now' ->
  (Aggregate now b).1 < u32_modulus -> (Aggregate now b).2 < u32_modulus ->
  let '(cycle, c) := ImportSnapshot (ExportSnapshot now b) now' b' in
  cycle = None /\ state_ c = kClosed /\ Aggregate now' c = Aggregate now b /\
  generation_ c = AdvanceGeneration (generation_ b) /\ generation_ c <> generation_ b.
Proof.
  intros Hwf Hwf' Ec Hc Hdt Hnow H1 H2.
  destruct (duration_pos b (wf_config _ Hwf)) as [Hd Hw].
  rewrite (Aggregate_total now b) in * by done. simpl in H1, H2.
  unfold ExportSnapshot, ImportSnapshot. rewrite Hc. simpl snap_state. cbn iota.
  assert (Ed : bucket_duration b' = bucket_duration b) by (unfold bucket_duration; by rewrite Ec).
  rewrite Ec, Ed. simpl snap_buckets. simpl source_generation.
  set (w := ns (window (config_ b))) in *.
  destruct (export_total now w (buckets_ b) (wf_counts _ Hwf) Hdt) as (X1 & X2 & X3).
  set (bs0 := <[0%nat := _]> _).
  assert (Hi : importing now' w bs0).
  { subst bs0. rewrite (wf_length _ Hwf'). split; [done|].
    apply Forall_insert; [apply Forall_replicate|]; (split; [apply bucket_u32_zero|]).
    - left. done.
    - right. simpl. split; [lia|]. unfold live; simpl. apply Z.ltb_lt. lia. }
  assert (T0 : forall cnt : Bucket -> Z, (forall st, cnt (mkBucket st 0 0) = 0) ->
                 total cnt now' w bs0 = 0).
  { intros cnt Hz. subst bs0. rewrite (wf_length _ Hwf'). unfold total, no_bucket; simpl.
    rewrite !Hz. repeat (destruct (live _ _ _); simpl). all: done. }
  destruct (import_buckets_total now' w (bucket_duration b) Hd ltac:(lia) Hnow
              (omap (export_bucket now w) (buckets_ b)) bs0 Hi X1) as ([Hl Hf] & T1 & T2);
    [rewrite T0 by done; lia..|].
  set (bs := foldl _ _ _) in *.
  assert (Hbs : Forall bucket_u32 bs) by (eapply Forall_impl; [exact Hf|]; by intros k [? _]).
  split_and!; [done|done| |done|].
  - unfold Aggregate. simpl. fold w.
    rewrite Aggregate_total_acc; [|done|lia|lia|rewrite Hl; by vm_compute..].
    rewrite T1, T2, !T0, X2, X3 by done. done.
  - simpl. pose proof (gen_after_0 _ (wf_generation _ Hwf)) as E0. rewrite <- E0 at 1.
    rewrite gen_after_succ. apply gen_after_ne; [apply Hwf|mlia].
Qed.

(** A closed breaker with one success and one failure in its window. *)
Definition example_live : t :=
  record_all [(6000000000, true); (6500000000, true); (9000000000, false)] example.

Lemma reload_preserves_counts_witness :
  let now := 12000000000 in
  let '(cycle, c) := ImportSnapshot (ExportSnapshot now example_live) now example in
  Aggregate now c = (2, 1) /\ state_ c = kClosed.
Proof.
  intros now.
  pose proof (reload_preserves_counts example_live example now now) as H.
  destruct (ImportSnapshot (ExportSnapshot now example_live) now example) as [cy c] eqn:E.
  destruct H as (_ & H2 & H3 & _).
  - apply (run_wf [OSuccess 6000000000 (mkPermit kAllowed 1 0);
                   OSuccess 6500000000 (mkPermit kAllowed 1 0);
                   OFailure 9000000000 (mkPermit kAllowed 1 0)] example example_wf).
  - exact example_wf.
  - vm_compute; reflexivity.
  - vm_compute; reflexivity.
  - apply (bool_decide_unpack (dated now example_live)). vm_compute. exact I.
  - vm_compute; reflexivity.
  - vm_compute; reflexivity.
  - vm_compute; reflexivity.
  - split; [rewrite H3; vm_compute; reflexivity|exact H2].
Defined.

(** The probe ids of a fresh cycle, away from the uint64 wrap. *)
Lemma issue_probes_range n next :
  0 <= next -> next + Z.of_nat n < u64_modulus ->
  (issue_probes n next).1 = (fun i => next + Z.of_nat i) <$> seq 0 n.
Proof.
  revert next. induction n as [|n IH]; intros next H0 Hn; [done|].
  simpl issue_probes. rewrite wrap_u64_small by mlia.
  specialize (IH (next + 1) ltac:(lia) ltac:(lia)).
  destruct (issue_probes n (next + 1)) as [ids m]. simpl in IH |- *. rewrite IH.
  f_equal; [lia|]. rewrite <- (fmap_S_seq 0), <- list_fmap_compose. apply list_fmap_ext.
  intros i x _. simpl. lia.
Qed.

(** The state [ImportSnapshot] starts from is well formed. *)
Lemma import_base_wf b' now' g :
  wf b' -> 0 < g < u64_modulus ->
  wf (mk (config_ b') (state_ b') now' now' 0 true
         (<[ 0%nat := mkBucket now' 0 0 ]> (replicate (length (buckets_ b')) no_bucket))
         0 g 1 [] 0 0).
Proof.
  intros Hwf Hg. pose proof (wf_config _ Hwf) as Hc.
  assert (ring_shape 0 (<[ 0%nat := mkBucket now' 0 0 ]>
            (replicate (length (buckets_ b')) no_bucket))) as (H1 & H2 & H3).
  { apply (ring_shape_insert 0); [unfold kBucketCount; lia|].
    apply replicate_shape; [unfold kBucketCount; lia|apply Hwf]. }
  split; try done; try mlia. unfold wf_probes; simpl.
  destruct Hc as (_ & _ & _ & _ & Hq).
  destruct (state_ b'); try done. split_and!; try lia; [constructor|].
  intros id Hid. by apply elem_of_nil in Hid.
Qed.

(** A fresh cycle has every probe pre-issued, so selection is always refused. *)
Lemma fresh_cycle_spec b :
  wf b -> next_probe_id_ b = 1 ->
  let '(cycle, c) := BeginFreshHalfOpenCycle b in
  generation_ c = AdvanceGeneration (generation_ b) /\
  cycle = mkCycle (generation_ c) 1 (half_open_probes (config_ b)) /\
  state_ c = kHalfOpen /\
  pending_probes_ c = (fun i => 1 + Z.of_nat i) <$> seq 0 (Z.to_nat (half_open_probes (config_ b))) /\
  forall t, (Select t c).1 = mkPermit kRejectedHalfOpenQuota (generation_ c) 0.
Proof.
  intros Hwf Hn. destruct (wf_config _ Hwf) as (_ & _ & _ & _ & Hq).
  unfold BeginFreshHalfOpenCycle. rewrite Hn.
  pose proof (issue_probes_range (Z.to_nat (half_open_probes (config_ b))) 1
                ltac:(lia) ltac:(mlia)) as Hi.
  destruct (issue_probes _ 1) as [ids next]. simpl in Hi. subst ids. simpl.
  split_and!; [done..|]. intros t. unfold Select.
  set (c := with_control _ _ _ _ _ _ _ _).
  pose proof (AdvanceTo_control t c) as (Ec & Es & _ & _ & Eg & _ & _ & Ei & _).
  rewrite Es, Ei, Ec, Eg. simpl. rewrite Z.ltb_irrefl. done.
Qed.

Lemma AdvanceGeneration_ne g :
  0 < g < u64_modulus -> AdvanceGeneration g <> g /\ AdvanceGeneration (AdvanceGeneration g) <> g.
Proof.
  intros Hg. pose proof (gen_after_succ 0 g) as E1. rewrite (gen_after_0 g Hg) in E1.
  rewrite E1, gen_after_succ. split; apply gen_after_ne; mlia.
Qed.

(** A reload keeps the protection of a breaker that is not closed: an open
    breaker stays open until what was left of its window has passed, counted
    from the import; an elapsed or half-open breaker starts one fresh cycle
    whose descriptor is exactly the pending probe range; and the permits of the
    exported breaker are stale in the new one. *)
Theorem reload_keeps_protection b b' now now' :
  wf b -> wf b' -> config_ b' = config_ b -> state_ b <> kClosed ->
  let '(cycle, c) := ImportSnapshot (ExportSnapshot now b) now' b' in
  wf c /\ generation_ c <> generation_ b /\
  if decide (state_ b = kOpen /\ now < open_until_ b) then
    cycle = None /\ state_ c = kOpen /\ open_until_ c - now' = open_until_ b - now
  else
    cycle = Some (mkCycle (generation_ c) 1 (half_open_probes (config_ b))) /\
    state_ c = kHalfOpen /\
    pending_probes_ c = (fun i => 1 + Z.of_nat i) <$> seq 0 (Z.to_nat (half_open_probes (config_ b))) /\
    forall t, (Select t c).1 = mkPermit kRejectedHalfOpenQuota (generation_ c) 0.
Proof.
  intros Hwf Hwf' Ec Hc. pose proof (wf_generation _ Hwf) as Hg.
  destruct (AdvanceGeneration_ne _ Hg) as [G1 G2].
  pose proof (import_base_wf b' now' _ Hwf' (AdvanceGeneration_range (generation_ b))) as Hbase.
  unfold ImportSnapshot, ExportSnapshot.
  assert (Hfresh : forall x, x = mk (config_ b') (state_ b') now' now' 0 true
            (<[ 0%nat := mkBucket now' 0 0 ]> (replicate (length (buckets_ b')) no_bucket))
            0 (AdvanceGeneration (generation_ b)) 1 [] 0 0 ->
          let '(cycle, c) := let '(c, b1) := BeginFreshHalfOpenCycle x in (Some c, b1) in
          wf c /\ generation_ c <> generation_ b /\
          cycle = Some (mkCycle (generation_ c) 1 (half_open_probes (config_ b))) /\
          state_ c = kHalfOpen /\
          pending_probes_ c = (fun i => 1 + Z.of_nat i)
             <$> seq 0 (Z.to_nat (half_open_probes (config_ b))) /\
          forall t, (Select t c).1 = mkPermit kRejectedHalfOpenQuota (generation_ c) 0).
  { intros x ->. pose proof (Fresh_wf _ Hbase) as Hw. pose proof (fresh_cycle_spec _ Hbase eq_refl) as F.
    destruct (BeginFreshHalfOpenCycle _) as [cy c]. simpl in *.
    destruct F as (F1 & -> & F3 & F4 & F5). rewrite Ec in *. split_and!; try done. by rewrite F1. }
  destruct (state_ b) eqn:Hs; [done| |]; simpl snap_state; simpl source_generation; cbn iota.
  - simpl open_remaining. destruct (Z.ltb_spec now (open_until_ b)) as [Hlt|Hge].
    + rewrite (proj2 (Z.ltb_lt _ _)) by lia. rewrite decide_True by done. simpl.
      split_and!; [|done|done|done|lia].
      by apply (with_control_wf _ _ _ _ _ _ _ _ Hbase); [apply AdvanceGeneration_range| |].
    + rewrite Z.ltb_irrefl. specialize (Hfresh _ eq_refl).
      destruct (BeginFreshHalfOpenCycle _) as [cy c].
      rewrite decide_False by (intros [_ ?]; lia). exact Hfresh.
  - specialize (Hfresh _ eq_refl). destruct (BeginFreshHalfOpenCycle _) as [cy c].
    rewrite decide_False by (intros [? _]; done). exact Hfresh.
Qed.

Lemma reload_keeps_protection_witness :
  let b := run (take 2 example_ops) example in
  let '(cycle, c) := ImportSnapshot (ExportSnapshot 6200000000 b) 6300000000 example in
  state_ c = kOpen /\ open_until_ c = 7100000000.
Proof.
  intros b. pose proof (reload_keeps_protection b example 6200000000 6300000000) as H.
  assert (Hb : wf b) by (apply run_wf, example_wf).
  specialize (H Hb example_wf eq_refl ltac:(by vm_compute)).
  destruct (ImportSnapshot _ _ _) as [cy c]. destruct H as (_ & _ & H).
  rewrite decide_True in H by (split; by vm_compute).
  destruct H as (_ & H2 & H3). split; [exact H2|].
  assert (E : open_until_ b = 7000000000) by (vm_compute; reflexivity). rewrite E in H3. lia.
Defined.

End BreakerWindow.
