(* ===== verification/CoordinatorState.v ===== *)
(** * The coordinator's health and breaker state

    [Module EndpointHealth] models src/include/aegisgate/health/EndpointHealth.h,
    [Module ProtectionSnapshot] src/src/health/ProtectionSnapshot.cpp and
    [Module CoordinatorState] src/src/health/CoordinatorState.cpp: the
    single-writer state of every route x endpoint, the published snapshots, the
    per-cycle probe slot objects the workers claim from, and the migration of
    the whole state across a reload.

    A probe slot object is an element of the store [slots_]; a
    [shared_ptr<const ProbeSlotState>] is its index, so that object identity
    (the currency check of [ClaimProbe]) is visible.  Objects are never removed
    from the store: the snapshots that name them keep them alive. *)

From S2P Require Import Prelude Bytes Types CircuitBreaker.

Module EndpointHealth.

Inductive HealthState := kImplicitHealthy | kUnknown | kHealthy | kUnhealthy.

#[global] Instance HealthState_eq_dec : EqDecision HealthState.
Proof. solve_decision. Defined.

Definition Healthy (s : HealthState) : bool :=
  match s with kImplicitHealthy | kHealthy => true | _ => false end.

Definition RecordCheckResult (ok : bool) : HealthState := if ok then kHealthy else kUnhealthy.

End EndpointHealth.

Module ProtectionSnapshot.
Import EndpointHealth.

Record RouteIdentity := mkRouteIdentity { id_name : bytes; id_host : bytes; id_path_prefix : bytes }.

Record EndpointIdentity := mkEndpointIdentity { id_ep_host : bytes; id_address : ipv4; id_port : Z }.

Record EndpointProtectionSnapshot := mkRecord {
  route : RouteIdentity;
  endpoint : EndpointIdentity;
  health_state : HealthState;
  source_health_policy : option HealthCheckSettings;
  source_breaker_policy : option CircuitBreakerSettings;
  breaker : option CircuitBreaker.Snapshot
}.

#[global] Instance RouteIdentity_eq_dec : EqDecision RouteIdentity.
Proof. solve_decision. Defined.
#[global] Instance EndpointIdentity_eq_dec : EqDecision EndpointIdentity.
Proof. solve_decision. Defined.

Definition RouteKey (r : Route) : RouteIdentity :=
  mkRouteIdentity (rt_name r) (rt_host r) (rt_path_prefix r).

Definition EndpointKey (x : Endpoint) : EndpointIdentity :=
  mkEndpointIdentity (ep_host x) (ep_address x) (ep_port x).

Definition SameRouteIdentity (key : RouteIdentity) (r : Route) : bool :=
  beq (id_name key) (rt_name r) && beq (id_host key) (rt_host r)
  && beq (id_path_prefix key) (rt_path_prefix r).

Definition SameEndpointIdentity (key : EndpointIdentity) (x : Endpoint) : bool :=
  beq (id_ep_host key) (ep_host x) && bool_decide (id_address key = ep_address x)
  && (id_port key =? ep_port x).

Definition SameHealthPolicy (left right : option HealthCheckSettings) : bool :=
  match left, right with
  | None, None => true
  | Some l, Some r => (interval_ms l =? interval_ms r) && (timeout_ms l =? timeout_ms r)
  | _, _ => false
  end.

Definition SameBreakerPolicy (left right : option CircuitBreakerSettings) : bool :=
  match left, right with
  | None, None => true
  | Some l, Some r =>
      (window_seconds l =? window_seconds r) && (min_requests l =? min_requests r)
      && (failure_threshold_permille l =? failure_threshold_permille r)
      && (open_seconds l =? open_seconds r) && (half_open_probes l =? half_open_probes r)
  | _, _ => false
  end.

Lemma SameRouteIdentity_spec k r : SameRouteIdentity k r = true <-> k = RouteKey r.
Proof.
  destruct k. unfold SameRouteIdentity, RouteKey; simpl. rewrite !andb_true_iff, !beq_spec.
  split; [intros [[-> ->] ->]; done|intros; simplify_eq; done].
Qed.

Lemma SameEndpointIdentity_spec k x : SameEndpointIdentity k x = true <-> k = EndpointKey x.
Proof.
  destruct k. unfold SameEndpointIdentity, EndpointKey; simpl.
  rewrite !andb_true_iff, beq_spec, bool_decide_eq_true, Z.eqb_eq.
  split; [intros [[-> ->] ->]; done|intros; simplify_eq; done].
Qed.

Lemma SameHealthPolicy_spec l r : SameHealthPolicy l r = true <-> l = r.
Proof.
  destruct l as [[]|], r as [[]|]; simpl; try done.
  rewrite andb_true_iff, !Z.eqb_eq. split; [intros [-> ->]; done|intros; simplify_eq; done].
Qed.

Lemma SameBreakerPolicy_spec l r : SameBreakerPolicy l r = true <-> l = r.
Proof.
  destruct l as [[]|], r as [[]|]; simpl; try done.
  rewrite !andb_true_iff, !Z.eqb_eq.
  split; [intros [[[[-> ->] ->] ->] ->]; done|intros; simplify_eq; done].
Qed.

End ProtectionSnapshot.

Module CoordinatorState.
Import EndpointHealth ProtectionSnapshot.

(** ** Data *)

Record ProbeSlotState := mkSlots {
  remaining : Z;
  issued : Z;
  probe_base : Z;
  slot_generation : Z;
  quota : Z
}.

(** [breaker_state] is the enumerator of [CircuitBreaker::State]. *)
Record EndpointDecision := mkDecision {
  healthy : bool;
  breaker_state : CircuitBreaker.State;
  decision_generation : Z;
  decision_probe_base : Z;
  probe_quota : Z;
  decision_slots : option nat
}.

Record HealthCircuitSnapshot := mkSnapshot {
  version : Z;
  decisions : list (list EndpointDecision)
}.

Record AttemptPermit := mkPermit { probe : bool; generation : Z; probe_id : Z }.

#[global] Instance AttemptPermit_eq_dec : EqDecision AttemptPermit.
Proof. solve_decision. Defined.

Record AttemptResult := mkResult {
  route_index : nat;
  endpoint_index : nat;
  permit : AttemptPermit;
  success : bool
}.

Record EndpointState := mkState {
  health : HealthState;
  breaker_ : option CircuitBreaker.t;
  probe_slots : option nat
}.

Record t := mk {
  config_ : Config;
  endpoints_ : list (list EndpointState);
  version_ : Z;
  slots_ : list ProbeSlotState
}.

Definition lookup (r e : nat) (s : t) : option EndpointState :=
  endpoints_ s !! r ≫= fun l => l !! e.

Definition with_endpoints (s : t) (es : list (list EndpointState)) : t :=
  mk (config_ s) es (version_ s) (slots_ s).

(** Assignment to one endpoint's state (nothing out of range). *)
Definition update (r e : nat) (f : EndpointState -> EndpointState) (s : t) : t :=
  with_endpoints s (alter (alter f e) r (endpoints_ s)).

(** ** Construction *)

Definition breaker_config (c : CircuitBreakerSettings) : CircuitBreaker.Config :=
  CircuitBreaker.mkConfig (window_seconds c * 1000) (min_requests c)
    (failure_threshold_permille c) (open_seconds c * 1000) (half_open_probes c).

(** One route's states; [None] is the breaker constructor's exception. *)
Definition make_route (now : Z) (r : Route) : option (list EndpointState) :=
  match circuit_breaker r with
  | None => Some ((fun _ => mkState kImplicitHealthy None None) <$> rt_endpoints r)
  | Some c =>
      mapM (fun _ => b ← CircuitBreaker.make (breaker_config c) now;
                     Some (mkState kImplicitHealthy (Some b) None)) (rt_endpoints r)
  end.

Definition make (config : Config) (now : Z) : option t :=
  es ← mapM (make_route now) (routes config); Some (mk config es 0 []).

(** ** Migration *)

Definition PrepareForMigration (s : t) : t :=
  with_endpoints s
    (zip_with (fun r states =>
       (fun st => mkState (match health_check r with Some _ => kUnknown | None => kImplicitHealthy end)
                          (breaker_ st) (probe_slots st)) <$> states)
      (routes (config_ s)) (endpoints_ s)).

Definition export_endpoint (now : Z) (r : Route) (x : Endpoint) (st : EndpointState)
    : EndpointProtectionSnapshot :=
  mkRecord (RouteKey r) (EndpointKey x) (health st) (health_check r) (circuit_breaker r)
           (CircuitBreaker.ExportSnapshot now <$> breaker_ st).

Definition ExportProtectionSnapshot (now : Z) (s : t) : list EndpointProtectionSnapshot :=
  mjoin (zip_with (fun r states => zip_with (export_endpoint now r) (rt_endpoints r) states)
                   (routes (config_ s)) (endpoints_ s)).

(** A new slot object from a cycle descriptor. *)
Definition slots_of (c : CircuitBreaker.HalfOpenCycle) : ProbeSlotState :=
  mkSlots (CircuitBreaker.quota c) 0 (CircuitBreaker.probe_base c)
          (CircuitBreaker.cycle_generation c) (CircuitBreaker.quota c).

(** The body of the innermost loop: the target endpoint takes the source's
    health and breaker state where the policies match. *)
Definition import_endpoint (now : Z) (source : EndpointProtectionSnapshot) (r : Route)
    (target : EndpointState) (slots : list ProbeSlotState)
    : EndpointState * list ProbeSlotState :=
  let target :=
    if SameHealthPolicy (source_health_policy source) (health_check r)
    then mkState (health_state source) (breaker_ target) (probe_slots target) else target in
  match breaker_ target, breaker source with
  | Some b, Some snap =>
      if SameBreakerPolicy (source_breaker_policy source) (circuit_breaker r) then
        let '(cycle, b') := CircuitBreaker.ImportSnapshot snap now b in
        match cycle with
        | Some c => (mkState (health target) (Some b') (Some (length slots)), slots ++ [slots_of c])
        | None => (mkState (health target) (Some b') (probe_slots target), slots)
        end
      else (target, slots)
  | _, _ => (target, slots)
  end.

(** One source record: the first matching route, its first matching endpoint. *)
Definition import_record (now : Z) (s : t) (source : EndpointProtectionSnapshot) : t :=
  match list_find (fun r => SameRouteIdentity (route source) r = true) (routes (config_ s)) with
  | None => s
  | Some (ri, r) =>
      match list_find (fun x => SameEndpointIdentity (endpoint source) x = true) (rt_endpoints r),
            endpoints_ s !! ri with
      | Some (ei, _), Some states =>
          match states !! ei with
          | Some target =>
              let '(target, slots) := import_endpoint now source r target (slots_ s) in
              mk (config_ s) (<[ ri := <[ ei := target ]> states ]> (endpoints_ s)) (version_ s) slots
          | None => s
          end
      | _, _ => s
      end
  end.

Definition ImportProtectionSnapshot (snapshot : list EndpointProtectionSnapshot) (now : Z) (s : t)
    : t :=
  foldl (import_record now) (PrepareForMigration s) snapshot.

(** ** The coordinator loop's operations *)

Definition RecordHealth (r e : nat) (ok : bool) (s : t) : t :=
  update r e (fun st => mkState (RecordCheckResult ok) (breaker_ st) (probe_slots st)) s.

Definition breaker_permit (p : AttemptPermit) : CircuitBreaker.RequestPermit :=
  CircuitBreaker.mkPermit
    (if probe p then CircuitBreaker.kProbe else CircuitBreaker.kAllowed)
    (generation p) (probe_id p).

Definition RecordResult (result : AttemptResult) (now : Z) (s : t) : t :=
  update (route_index result) (endpoint_index result)
    (fun st => mkState (health st)
       ((fun b => if success result
                  then CircuitBreaker.RecordSuccess now (breaker_permit (permit result)) b
                  else CircuitBreaker.RecordFailure now (breaker_permit (permit result)) b)
        <$> breaker_ st)
       (probe_slots st)) s.

Definition ArmHalfOpen (r e : nat) (now : Z) (s : t) : t :=
  match lookup r e s with
  | None => s
  | Some st =>
      match breaker_ st with
      | None => s
      | Some b =>
          if negb (bool_decide (CircuitBreaker.state_ b = CircuitBreaker.kOpen)) then s
          else if now <? CircuitBreaker.open_until_ b then s
          else
            let '(cycle, b') := CircuitBreaker.BeginFreshHalfOpenCycle b in
            let s' := update r e (fun st => mkState (health st) (Some b') (Some (length (slots_ s)))) s in
            mk (config_ s') (endpoints_ s') (version_ s') (slots_ s ++ [slots_of cycle])
      end
  end.

(** ** Publication *)

Definition decision_of (slots : list ProbeSlotState) (st : EndpointState) : EndpointDecision :=
  match breaker_ st with
  | None => mkDecision (Healthy (health st)) CircuitBreaker.kClosed 0 0 0 None
  | Some b =>
      let '(base, q) := match probe_slots st ≫= fun i => slots !! i with
                        | Some p => (probe_base p, quota p)
                        | None => (0, 0)
                        end in
      mkDecision (Healthy (health st)) (CircuitBreaker.state_ b) (CircuitBreaker.generation_ b)
                 base q (probe_slots st)
  end.

Definition BuildSnapshot (s : t) : HealthCircuitSnapshot * t :=
  let v := wrap_u64 (version_ s + 1) in
  (mkSnapshot v (map (map (decision_of (slots_ s))) (endpoints_ s)),
   mk (config_ s) (endpoints_ s) v (slots_ s)).

(** ** Workers *)

(** The claim loop on [remaining] and the [fetch_add] on [issued], as atomic
    accesses of one slot object. *)
Definition take_slot (p : ProbeSlotState) : option ProbeSlotState :=
  if 0 <? remaining p
  then Some (mkSlots (remaining p - 1) (issued p) (probe_base p) (slot_generation p) (quota p))
  else None.

Definition issue_slot (p : ProbeSlotState) : Z * ProbeSlotState :=
  (issued p, mkSlots (remaining p) (wrap_u64 (issued p + 1)) (probe_base p) (slot_generation p)
                     (quota p)).

(** The currency check and the permit. *)
Definition check_claim (r e o : nat) (index : Z) (s : t) : option AttemptPermit :=
  match lookup r e s, slots_ s !! o with
  | Some st, Some p =>
      if decide (probe_slots st = Some o)
      then Some (mkPermit true (slot_generation p) (wrap_u64 (probe_base p + index)))
      else None
  | _, _ => None
  end.

Definition with_slots (s : t) (o : nat) (p : ProbeSlotState) : t :=
  mk (config_ s) (endpoints_ s) (version_ s) (<[ o := p ]> (slots_ s)).

(** The slot object a snapshot offers for a half-open endpoint. *)
Definition offered (r e : nat) (snapshot : HealthCircuitSnapshot) : option nat :=
  decisions snapshot !! r ≫= fun l => l !! e ≫= fun d =>
    if decide (breaker_state d = CircuitBreaker.kHalfOpen) then decision_slots d else None.

(** [ClaimProbe] without interference. *)
Definition ClaimProbe (r e : nat) (snapshot : HealthCircuitSnapshot) (s : t)
    : option AttemptPermit * t :=
  match offered r e snapshot with
  | None => (None, s)
  | Some o =>
      match slots_ s !! o ≫= take_slot with
      | None => (None, s)
      | Some p =>
          let '(index, p) := issue_slot p in
          let s := with_slots s o p in
          (check_claim r e o index s, s)
      end
  end.

Definition ProbeAvailable (r e : nat) (s : t) : bool :=
  match lookup r e s ≫= fun st => probe_slots st ≫= fun o => slots_ s !! o with
  | Some p => 0 <? remaining p
  | None => false
  end.

(** ** Observation *)

Definition BreakerState (r e : nat) (s : t) : CircuitBreaker.State :=
  match lookup r e s ≫= breaker_ with
  | Some b => CircuitBreaker.state_ b
  | None => CircuitBreaker.kClosed
  end.

Definition IsOpen (r e : nat) (s : t) : bool :=
  bool_decide (BreakerState r e s = CircuitBreaker.kOpen).

(** [None] is [time_point::max()]. *)
Definition OpenUntil (r e : nat) (s : t) : option Z :=
  CircuitBreaker.open_until_ <$> (lookup r e s ≫= breaker_).

Definition Generation (r e : nat) (s : t) : Z :=
  match lookup r e s ≫= breaker_ with
  | Some b => CircuitBreaker.generation_ b
  | None => 0
  end.

Definition HealthyAt (r e : nat) (s : t) : bool :=
  match lookup r e s with Some st => Healthy (health st) | None => true end.

Lemma lookup_update r e f s r' e' :
  lookup r' e' (update r e f s) =
  if decide (r' = r /\ e' = e) then f <$> lookup r e s else lookup r' e' s.
Proof.
  unfold lookup, update; simpl. destruct (decide (r' = r)) as [->|Hr].
  - rewrite list_lookup_alter_eq. destruct (endpoints_ s !! r) as [l|]; simpl; [|by destruct (decide _)].
    destruct (decide (e' = e)) as [->|He].
    + rewrite list_lookup_alter_eq, decide_True by done. done.
    + rewrite list_lookup_alter_ne, decide_False by naive_solver. done.
  - rewrite list_lookup_alter_ne, decide_False by naive_solver. done.
Qed.

(** ** Migration *)

(** The state has one entry per configured endpoint. *)
Definition shaped (s : t) : Prop :=
  Forall2 (fun r states => length states = length (rt_endpoints r)) (routes (config_ s)) (endpoints_ s).

(** What the configuration validation guarantees: route identities are unique
    and endpoint identities are unique within a route. *)
Definition unique_identities (c : Config) : Prop :=
  NoDup (RouteKey <$> routes c) /\ Forall (fun r => NoDup (EndpointKey <$> rt_endpoints r)) (routes c).

(** Endpoint [(r, e)] of the configuration. *)
Definition configured (c : Config) (r e : nat) (rt : Route) (ep : Endpoint) : Prop :=
  routes c !! r = Some rt /\ rt_endpoints rt !! e = Some ep.

Definition key (x : EndpointProtectionSnapshot) : RouteIdentity * EndpointIdentity :=
  (route x, endpoint x).

(** The endpoint's health and breaker after the prepared baseline, and after
    one matching record. *)
Definition baseline (rt : Route) : HealthState :=
  match health_check rt with Some _ => kUnknown | None => kImplicitHealthy end.

Definition migrated (now : Z) (rt : Route) (src : EndpointProtectionSnapshot)
    (y : HealthState * option CircuitBreaker.t) : HealthState * option CircuitBreaker.t :=
  (if decide (source_health_policy src = health_check rt) then health_state src else y.1,
   match y.2, breaker src with
   | Some b, Some snap =>
       if decide (source_breaker_policy src = circuit_breaker rt)
       then Some (CircuitBreaker.ImportSnapshot snap now b).2 else y.2
   | _, _ => y.2
   end).

Definition protection (y : EndpointState) : HealthState * option CircuitBreaker.t :=
  (health y, breaker_ y).

Lemma import_endpoint_protection now src rt y slots :
  protection (import_endpoint now src rt y slots).1 = migrated now rt src (protection y).
Proof.
  unfold import_endpoint, migrated, protection; simpl.
  pose proof (SameHealthPolicy_spec (source_health_policy src) (health_check rt)) as Hh.
  pose proof (SameBreakerPolicy_spec (source_breaker_policy src) (circuit_breaker rt)) as Hb.
  destruct (SameHealthPolicy _ _), (SameBreakerPolicy _ _); simpl;
    destruct (decide (source_health_policy src = health_check rt));
    destruct (decide (source_breaker_policy src = circuit_breaker rt));
    try (exfalso; tauto || (intuition congruence));
    destruct (breaker_ y) as [b|] eqn:Eb, (breaker src) as [snap|]; simpl; rewrite ?Eb; try done;
    by destruct (CircuitBreaker.ImportSnapshot snap now b) as [[c|] b'].
Qed.

(** The search for the first match finds the endpoint with that identity. *)
Lemma find_unique {A B} (f : A -> B) (P : A -> Prop) `{forall x, Decision (P x)} (l : list A) i x :
  NoDup (f <$> l) -> l !! i = Some x -> (forall y, P y <-> f y = f x) -> list_find P l = Some (i, x).
Proof.
  intros Hnd Hi HP. apply list_find_Some. split_and!; [done|by apply HP|].
  intros j y Hj Hlt Hy. apply HP in Hy.
  assert (i = j); [|lia]. eapply (NoDup_lookup _ i j (f x) Hnd).
  - by rewrite list_lookup_fmap, Hi.
  - by rewrite list_lookup_fmap, Hj, <- Hy.
Qed.

Lemma import_record_lookup now s src r e rt ep y :
  unique_identities (config_ s) -> configured (config_ s) r e rt ep -> lookup r e s = Some y ->
  exists y', lookup r e (import_record now s src) = Some y' /\
    protection y' = if decide (key src = (RouteKey rt, EndpointKey ep))
                    then migrated now rt src (protection y) else protection y.
Proof.
  intros [Hur Hue] [Hrt Hep] Hy. unfold lookup in Hy.
  destruct (endpoints_ s !! r) as [states|] eqn:Hst; [simpl in Hy|done].
  unfold import_record, lookup. case_decide as Hk.
  - unfold key in Hk. injection Hk as Hk1 Hk2.
    rewrite (find_unique RouteKey _ _ r rt Hur Hrt)
      by (intros; rewrite SameRouteIdentity_spec, Hk1; split; congruence).
    pose proof (Forall_lookup_1 _ _ _ _ Hue Hrt) as Hue'.
    rewrite (find_unique EndpointKey _ _ e ep Hue' Hep)
      by (intros; rewrite SameEndpointIdentity_spec, Hk2; split; congruence).
    rewrite Hst, Hy. pose proof (import_endpoint_protection now src rt y (slots_ s)) as Hp.
    destruct (import_endpoint now src rt y (slots_ s)) as [y' slots']. exists y'. split; [|done].
    cbn [endpoints_]. rewrite list_lookup_insert_eq by (by eapply lookup_lt_Some). simpl.
    by rewrite list_lookup_insert_eq by (by eapply lookup_lt_Some).
  - exists y. split; [|done].
    destruct (list_find _ (routes (config_ s))) as [[ri rt']|] eqn:Fr; [|by rewrite Hst].
    destruct (list_find _ (rt_endpoints rt')) as [[ei ep']|] eqn:Fe; [|by rewrite Hst].
    apply list_find_Some in Fr as (Hri & Hrk & _), Fe as (Hei & Hek & _).
    apply SameRouteIdentity_spec in Hrk. apply SameEndpointIdentity_spec in Hek.
    destruct (endpoints_ s !! ri) as [st'|] eqn:Hst'; [|by rewrite Hst].
    destruct (st' !! ei) as [tg|] eqn:Htg; [|by rewrite Hst].
    destruct (import_endpoint now src rt' tg (slots_ s)) as [tg' slots']. cbn [endpoints_].
    destruct (decide (ri = r)) as [->|Hne].
    + rewrite list_lookup_insert_eq by (by eapply lookup_lt_Some). simpl. simplify_eq.
      rewrite list_lookup_insert_ne; [done|]. intros ->. simplify_eq.
      apply Hk. unfold key. by rewrite Hrk, Hek.
    + rewrite list_lookup_insert_ne by done. by rewrite Hst.
Qed.

Lemma import_record_config now s src : config_ (import_record now s src) = config_ s.
Proof. unfold import_record. repeat case_match; done. Qed.

(** Every record in turn: the matching ones apply, in order. *)
Lemma import_fold now snapshot s r e rt ep y :
  unique_identities (config_ s) -> configured (config_ s) r e rt ep -> lookup r e s = Some y ->
  exists y', lookup r e (foldl (import_record now) s snapshot) = Some y' /\
    protection y' =
      foldl (fun hb src => migrated now rt src hb) (protection y)
            (filter (fun src => key src = (RouteKey rt, EndpointKey ep)) snapshot).
Proof.
  intros Hu Hc. revert s y Hu Hc. induction snapshot as [|src snapshot IH]; intros s y Hu Hc Hy; simpl.
  { by exists y. }
  destruct (import_record_lookup now s src _ _ _ _ _ Hu Hc Hy) as (y1 & Hy1 & Hp1).
  destruct (IH (import_record now s src) y1) as (y2 & Hy2 & Hp2);
    [by rewrite import_record_config..|done|].
  exists y2. split; [done|]. rewrite filter_cons, Hp2, Hp1. by case_decide.
Qed.

Lemma Prepare_lookup s r e rt ep y :
  shaped s -> configured (config_ s) r e rt ep -> lookup r e s = Some y ->
  lookup r e (PrepareForMigration s) = Some (mkState (baseline rt) (breaker_ y) (probe_slots y)).
Proof.
  intros Hs [Hrt _] Hy. unfold lookup, PrepareForMigration in *; simpl.
  rewrite lookup_zip_with, Hrt. destruct (endpoints_ s !! r) as [l|]; [|done]. simpl in *.
  by rewrite list_lookup_fmap, Hy.
Qed.

(** What the exporting coordinator wrote about an endpoint. *)
Lemma filter_none {A} (P : A -> Prop) `{forall x, Decision (P x)} (l : list A) :
  Forall (fun x => ~ P x) l -> filter P l = [].
Proof. induction 1; [done|]. by rewrite filter_cons_False. Qed.

Lemma export_route now rt e ep y states :
  NoDup (EndpointKey <$> rt_endpoints rt) ->
  rt_endpoints rt !! e = Some ep -> states !! e = Some y ->
  filter (fun src => key src = (RouteKey rt, EndpointKey ep))
         (zip_with (export_endpoint now rt) (rt_endpoints rt) states) = [export_endpoint now rt ep y].
Proof.
  generalize (rt_endpoints rt). intros eps. revert e states.
  induction eps as [|x eps IH]; intros [|e] [|z states] Hnd He Hy; simplify_eq/=;
    apply NoDup_cons in Hnd as [Hni Hnd].
  - rewrite filter_cons_True by done. f_equal. apply filter_none, Forall_forall.
    intros src Hin Hk. apply list_elem_of_lookup in Hin as [i Hi].
    apply lookup_zip_with_Some in Hi as (ep' & y' & -> & Hep' & _).
    unfold key in Hk; simpl in Hk. injection Hk as Hk. apply Hni. apply list_elem_of_fmap.
    exists ep'. split; [|by eapply list_elem_of_lookup_2].
    unfold EndpointKey in *. congruence.
  - rewrite filter_cons_False; [by apply (IH e)|]. unfold key; simpl. intros Hk. injection Hk as H1 H2 H3.
    apply Hni. apply list_elem_of_fmap. exists ep. split; [unfold EndpointKey; congruence|].
    by eapply list_elem_of_lookup_2.
Qed.

Lemma export_records now s r e rt ep y :
  unique_identities (config_ s) -> configured (config_ s) r e rt ep -> lookup r e s = Some y ->
  filter (fun src => key src = (RouteKey rt, EndpointKey ep)) (ExportProtectionSnapshot now s) =
  [export_endpoint now rt ep y].
Proof.
  intros [Hur Hue] [Hrt Hep] Hy. unfold lookup in Hy. unfold ExportProtectionSnapshot.
  destruct (endpoints_ s !! r) as [states|] eqn:Hst; [simpl in Hy|done].
  revert Hur Hue Hrt Hst. generalize (routes (config_ s)) (endpoints_ s). intros rts ess. revert r ess.
  assert (Hother : forall rt' states', RouteKey rt' <> RouteKey rt ->
    filter (fun src => key src = (RouteKey rt, EndpointKey ep))
      (zip_with (export_endpoint now rt') (rt_endpoints rt') states') = []).
  { intros rt' states' Hne. apply filter_none, Forall_forall. intros src Hin Hk.
    apply list_elem_of_lookup in Hin as [i Hi].
    apply lookup_zip_with_Some in Hi as (ep' & y' & -> & _). unfold key in Hk; simpl in Hk. congruence. }
  induction rts as [|rt1 rts IH]; intros [|r] [|es ess] Hur Hue Hrt Hst; simplify_eq/=;
    apply NoDup_cons in Hur as [Hni Hur]; apply Forall_cons in Hue as [Hue1 Hue];
    rewrite filter_app.
  - rewrite (export_route now rt e ep y) by done. f_equal. apply filter_none, Forall_forall.
    intros src Hin Hk. apply list_elem_of_join in Hin as (l & Hsrc & Hl).
    apply list_elem_of_lookup in Hl as [i Hi].
    apply lookup_zip_with_Some in Hi as (rt' & es' & -> & Hrt' & _).
    destruct (decide (RouteKey rt' = RouteKey rt)) as [E|E].
    + apply Hni. rewrite <- E. apply list_elem_of_fmap_2. by eapply list_elem_of_lookup_2.
    + specialize (Hother rt' es' E). assert (src ∈ @nil EndpointProtectionSnapshot) as Hn;
        [|by apply elem_of_nil in Hn]. rewrite <- Hother. by apply list_elem_of_filter.
  - rewrite Hother; [by apply (IH r)|]. intros E. apply Hni. rewrite E.
    apply list_elem_of_fmap_2. by eapply list_elem_of_lookup_2.
Qed.

(** A reload migrates protection by identity: an endpoint of the new
    configuration whose route and endpoint identity the old one had takes over
    the old health where the health policy is unchanged and the old breaker's
    exported state where the breaker policy is unchanged; everything else
    starts from the safe baseline (unknown health when checks are configured). *)
Theorem migration_by_identity s_old s_new now now' r e rt ep y :
  unique_identities (config_ s_old) -> unique_identities (config_ s_new) -> shaped s_new ->
  configured (config_ s_new) r e rt ep -> lookup r e s_new = Some y ->
  exists y', lookup r e (ImportProtectionSnapshot (ExportProtectionSnapshot now s_old) now' s_new)
             = Some y' /\
    (forall r0 e0 rt0 ep0 y0,
       configured (config_ s_old) r0 e0 rt0 ep0 -> lookup r0 e0 s_old = Some y0 ->
       RouteKey rt0 = RouteKey rt -> EndpointKey ep0 = EndpointKey ep ->
       health y' = (if decide (health_check rt0 = health_check rt) then health y0 else baseline rt) /\
       breaker_ y' =
         match breaker_ y, breaker_ y0 with
         | Some b, Some b0 =>
             if decide (circuit_breaker rt0 = circuit_breaker rt)
             then Some (CircuitBreaker.ImportSnapshot (CircuitBreaker.ExportSnapshot now b0) now' b).2
             else Some b
         | _, _ => breaker_ y
         end) /\
    (Forall (fun src => key src <> (RouteKey rt, EndpointKey ep)) (ExportProtectionSnapshot now s_old) ->
       health y' = baseline rt /\ breaker_ y' = breaker_ y).
Proof.
  intros Hu0 Hu Hsh Hc Hy.
  destruct (import_fold now' (ExportProtectionSnapshot now s_old) (PrepareForMigration s_new)
              r e rt ep _ Hu Hc (Prepare_lookup _ _ _ _ _ _ Hsh Hc Hy)) as (y' & Hy' & Hp).
  exists y'. split_and!; [done| |].
  - intros r0 e0 rt0 ep0 y0 Hc0 Hy0 Hk1 Hk2.
    rewrite <- Hk1, <- Hk2, (export_records now s_old r0 e0 rt0 ep0 y0 Hu0 Hc0 Hy0) in Hp.
    simpl in Hp. unfold protection, migrated in Hp; simpl in Hp. injection Hp as -> ->.
    split; [done|]. destruct (breaker_ y), (breaker_ y0); done.
  - intros Hno. rewrite filter_none in Hp by done. simpl in Hp. unfold protection in Hp; simpl in Hp.
    by injection Hp as -> ->.
Qed.

Definition example_endpoint : Endpoint := mkEndpoint (lit "10.0.0.1") (10, 0, 0, 1) 80 1.

Definition example_route : Route :=
  mkRoute (lit "api") (lit "api.example") (lit "/v1") [example_endpoint] 1 1 1 1 1 1 1
          (Some (mkBreakerSettings 10 1 500 1 2)) (Some (mkHealthSettings 1000 500))
          kWeightedRoundRobin.

Definition example_new : t :=
  default (mk (mkConfig [] 1) [] 0 []) (make (mkConfig [example_route] 1) 5000000000).

Definition example_old : t :=
  RecordResult (mkResult 0 0 (mkPermit false 1 0) false) 6000000000 (RecordHealth 0 0 false example_new).

Lemma migration_by_identity_witness :
  exists y', lookup 0 0 (ImportProtectionSnapshot (ExportProtectionSnapshot 6100000000 example_old)
                           6200000000 example_new) = Some y' /\
    health y' = kUnhealthy /\
    (CircuitBreaker.state_ <$> breaker_ y') = Some CircuitBreaker.kOpen.
Proof.
  destruct (migration_by_identity example_old example_new 6100000000 6200000000 0 0 example_route
              example_endpoint (default (mkState kUnknown None None) (lookup 0 0 example_new)))
    as (y' & Hy' & H & _).
  - split; vm_compute; repeat constructor; apply not_elem_of_nil.
  - split; vm_compute; repeat constructor; apply not_elem_of_nil.
  - vm_compute. repeat constructor.
  - split; reflexivity.
  - reflexivity.
  - exists y'. split; [exact Hy'|].
    destruct (H 0%nat 0%nat example_route example_endpoint
                (default (mkState kUnknown None None) (lookup 0 0 example_old)))
      as [H1 H2]; [split; reflexivity|reflexivity..|].
    rewrite H1, H2. split; vm_compute; reflexivity.
Defined.

End CoordinatorState.
