(* ===== verification/ProbeClaims.v ===== *)
(** * Half-open probes across threads

    The workers claim half-open probes through shared slot objects while the
    coordinator re-arms cycles and records outcomes (src/src/health/
    CoordinatorState.cpp).  This file gives the concurrent system as a step
    relation whose steps are the single atomic accesses of [ClaimProbe] and the
    coordinator's operations, and proves that every probe of a cycle is handed
    out at most once, and that the outcome of a claimed probe is accepted
    exactly once while its cycle lasts. *)

From S2P Require Import Prelude Bytes Types CircuitBreaker CoordinatorState.

Module ProbeClaims.
Import CoordinatorState.

(** A worker inside [ClaimProbe] for endpoint [(r, e)]: after the successful
    exchange on [remaining], and after the [fetch_add] that gave [index]. *)
Inductive phase :=
  | Taken (r e o : nat)
  | Issued (r e o : nat) (index : Z).

(** A claimed probe: the endpoint, the slot object and the index in it. *)
Abbreviation entry := (nat * nat * nat * Z)%type.

(** A claim that succeeded, with the permit [ClaimProbe] returned. *)
Abbreviation grant := (entry * AttemptPermit)%type.

(** The coordinator's state, the published snapshots, the workers inside
    [ClaimProbe]; and, as history variables, the endpoint each slot object was
    made for, the permits handed out and the permits whose outcome has been
    recorded. *)
Record sys := Sys {
  st : t;
  snaps : list HealthCircuitSnapshot;
  claims : gmap nat phase;
  owners : list (nat * nat);
  granted : list grant;
  reported : list entry
}.

Definition with_st (x : sys) (s : t) : sys :=
  Sys s (snaps x) (claims x) (owners x) (granted x) (reported x).

(** The epoch counters are far from wrapping: a breaker would have to change
    state 2^64 - 2 times. *)
Definition epoch_small (y : EndpointState) : Prop :=
  from_option CircuitBreaker.generation_ 0 (breaker_ y) < u64_modulus - 1.

Definition epochs_small (s : t) : Prop := Forall (Forall epoch_small) (endpoints_ s).

#[global] Instance epochs_small_dec s : Decision (epochs_small s).
Proof. unfold epochs_small, epoch_small. apply _. Defined.

Lemma epochs_small_lookup s r e y b :
  epochs_small s -> lookup r e s = Some y -> breaker_ y = Some b ->
  CircuitBreaker.generation_ b < u64_modulus - 1.
Proof.
  intros Hs Hy Hb. unfold lookup in Hy. destruct (endpoints_ s !! r) as [l|] eqn:Hl; [|done].
  pose proof (Forall_lookup_1 _ _ _ _ Hs Hl) as Hl'. pose proof (Forall_lookup_1 _ _ _ _ Hl' Hy) as H.
  unfold epoch_small in H. by rewrite Hb in H.
Qed.

Inductive step : sys -> sys -> Prop :=
  | step_publish x :
      step x (Sys (BuildSnapshot (st x)).2 (snaps x ++ [(BuildSnapshot (st x)).1])
                  (claims x) (owners x) (granted x) (reported x))
  | step_health x r e ok : step x (with_st x (RecordHealth r e ok (st x)))
  | step_arm x r e now s' :
      epochs_small (st x) -> ArmHalfOpen r e now (st x) = s' ->
      step x (Sys s' (snaps x) (claims x)
                  (if decide (length (slots_ s') = length (slots_ (st x))) then owners x
                   else owners x ++ [(r, e)])
                  (granted x) (reported x))
  | step_result x result now :
      (** the outcome of an ordinary request *)
      epochs_small (st x) -> probe (permit result) = false ->
      step x (with_st x (RecordResult result now (st x)))
  | step_probe_result x result now o k c :
      (** the outcome of a probe, reported once *)
      epochs_small (st x) ->
      c = (route_index result, endpoint_index result, o, k) ->
      (c, permit result) ∈ granted x -> c ∉ reported x ->
      step x (Sys (RecordResult result now (st x)) (snaps x) (claims x) (owners x) (granted x)
                  (c :: reported x))
  | step_take x i r e o snap p p' :
      snap ∈ snaps x -> offered r e snap = Some o -> claims x !! i = None ->
      slots_ (st x) !! o = Some p -> take_slot p = Some p' ->
      step x (Sys (with_slots (st x) o p') (snaps x) (<[ i := Taken r e o ]> (claims x))
                  (owners x) (granted x) (reported x))
  | step_issue x i r e o p :
      claims x !! i = Some (Taken r e o) -> slots_ (st x) !! o = Some p ->
      step x (Sys (with_slots (st x) o (issue_slot p).2) (snaps x)
                  (<[ i := Issued r e o (issue_slot p).1 ]> (claims x))
                  (owners x) (granted x) (reported x))
  | step_check x i r e o k :
      claims x !! i = Some (Issued r e o k) ->
      step x (Sys (st x) (snaps x) (delete i (claims x)) (owners x)
                  (match check_claim r e o k (st x) with
                   | Some pm => ((r, e, o, k), pm) :: granted x
                   | None => granted x
                   end) (reported x)).

(** ** The invariant *)

Definition taken (o : nat) (c : phase) : bool :=
  match c with Taken _ _ o' => bool_decide (o' = o) | _ => false end.

(** Every probe of the object's quota is unclaimed, being claimed, or issued. *)
Definition slot_ok (x : sys) (o : nat) (p : ProbeSlotState) : Prop :=
  0 <= remaining p /\ 0 <= issued p /\ quota p < u32_modulus /\
  remaining p + mcount (taken o) (claims x) + issued p = quota p.

Definition claim_ok (x : sys) (c : phase) : Prop :=
  match c with
  | Taken r e o => owners x !! o = Some (r, e)
  | Issued r e o k =>
      owners x !! o = Some (r, e) /\ (r, e, o, k) ∉ (granted x).*1 /\
      exists p, slots_ (st x) !! o = Some p /\ 0 <= k < issued p
  end.

Definition granted_ok (x : sys) (g : grant) : Prop :=
  let '((r, e, o, k), pm) := g in
  owners x !! o = Some (r, e) /\ exists p, slots_ (st x) !! o = Some p /\ 0 <= k < issued p /\
    pm = mkPermit true (slot_generation p) (wrap_u64 (probe_base p + k)).

(** The current slot object of a half-open endpoint describes the breaker's
    cycle: the pending probes are those of its range not yet reported. *)
Definition cycle_ok (x : sys) (r e : nat) (y : EndpointState) (b : CircuitBreaker.t) : Prop :=
  exists o p, probe_slots y = Some o /\ slots_ (st x) !! o = Some p /\
    slot_generation p = CircuitBreaker.generation_ b /\
    forall k, 0 <= k < quota p ->
      wrap_u64 (probe_base p + k) ∈ CircuitBreaker.pending_probes_ b <->
      (r, e, o, k) ∉ reported x.

Definition endpoint_ok (x : sys) (r e : nat) (y : EndpointState) : Prop :=
  (forall o, owners x !! o = Some (r, e) -> exists o', probe_slots y = Some o' /\ (o <= o')%nat) /\
  (forall o, probe_slots y = Some o -> owners x !! o = Some (r, e)) /\
  forall b, breaker_ y = Some b ->
    CircuitBreaker.wf b /\
    (forall o p, owners x !! o = Some (r, e) -> slots_ (st x) !! o = Some p ->
       0 < slot_generation p <= CircuitBreaker.generation_ b) /\
    (CircuitBreaker.state_ b = CircuitBreaker.kHalfOpen -> cycle_ok x r e y b).

Record inv (x : sys) : Prop := {
  i_owners : length (owners x) = length (slots_ (st x));
  i_slots : forall o p, slots_ (st x) !! o = Some p -> slot_ok x o p;
  i_generations : forall o o' re p p', (o < o')%nat -> owners x !! o = Some re ->
    owners x !! o' = Some re -> slots_ (st x) !! o = Some p -> slots_ (st x) !! o' = Some p' ->
    slot_generation p < slot_generation p';
  i_claims : forall i c, claims x !! i = Some c -> claim_ok x c;
  i_distinct : forall i j r e o k, claims x !! i = Some (Issued r e o k) ->
    claims x !! j = Some (Issued r e o k) -> i = j;
  i_granted : NoDup (granted x).*1 /\ Forall (granted_ok x) (granted x);
  i_reported : forall c, c ∈ reported x -> c ∈ (granted x).*1;
  i_snaps : forall snap r e o, snap ∈ snaps x -> offered r e snap = Some o ->
    owners x !! o = Some (r, e);
  i_endpoints : forall r e y, lookup r e (st x) = Some y -> endpoint_ok x r e y
}.

(** ** Auxiliary facts *)

Lemma AdvanceGeneration_small g :
  0 <= g < u64_modulus - 1 -> CircuitBreaker.AdvanceGeneration g = g + 1.
Proof.
  intros Hg. unfold CircuitBreaker.AdvanceGeneration. rewrite wrap_u64_small by mlia.
  by rewrite (proj2 (Z.eqb_neq _ 0)) by lia.
Qed.

Lemma wrap_add_inj x j k :
  0 <= j < u64_modulus -> 0 <= k < u64_modulus ->
  wrap_u64 (x + j) = wrap_u64 (x + k) -> j = k.
Proof.
  unfold wrap_u64. intros Hj Hk H.
  pose proof (Z.div_mod (x + j) u64_modulus ltac:(mlia)).
  pose proof (Z.div_mod (x + k) u64_modulus ltac:(mlia)).
  assert ((x + j) / u64_modulus = (x + k) / u64_modulus); mnia.
Qed.

(** A reported probe belongs to the endpoint its slot object was made for. *)
Lemma reported_owner x r e o k :
  inv x -> (r, e, o, k) ∈ reported x -> owners x !! o = Some (r, e).
Proof.
  intros Hx Hin%(i_reported _ Hx). destruct (i_granted _ Hx) as [_ Hg].
  rewrite Forall_forall in Hg.
  apply list_elem_of_fmap in Hin as ([c pm] & E & Hin). simpl in E. subst c. by destruct (Hg _ Hin).
Qed.

(** Steps that change only the endpoints' states. *)
Lemma inv_frame x s' :
  inv x -> slots_ s' = slots_ (st x) ->
  (forall r e y, lookup r e s' = Some y -> endpoint_ok (with_st x s') r e y) ->
  inv (with_st x s').
Proof.
  intros [] Hs He. split; simpl; unfold slot_ok, claim_ok, granted_ok in *; simpl;
    rewrite ?Hs; try done.
Qed.

(** The endpoint invariant reads only the slot objects, their owners and the
    reported probes. *)
Lemma endpoint_ok_ext x x' r e y :
  slots_ (st x') = slots_ (st x) -> owners x' = owners x ->
  (forall o k, (r, e, o, k) ∈ reported x' <-> (r, e, o, k) ∈ reported x) ->
  endpoint_ok x r e y -> endpoint_ok x' r e y.
Proof.
  intros Hs Ho Hr (H1 & H2 & H3). unfold endpoint_ok, cycle_ok. rewrite Hs, Ho.
  split_and!; [done|done|]. intros b Hb. destruct (H3 b Hb) as (H4 & H5 & H6).
  split_and!; [done|done|]. intros Hh. destruct (H6 Hh) as (o & p & E1 & E2 & E3 & E4).
  exists o, p. split_and!; [done..|]. intros k Hk. by rewrite Hr, E4.
Qed.

Lemma health_inv x r e ok : inv x -> inv (with_st x (RecordHealth r e ok (st x))).
Proof.
  intros Hx. apply inv_frame; [done|done|]. intros r' e' y Hy.
  unfold RecordHealth in Hy. rewrite lookup_update in Hy.
  apply (endpoint_ok_ext x); [done|done|done|].
  case_decide as E; [destruct E as [-> ->]|by apply Hx].
  apply fmap_Some_1 in Hy as (y0 & Hy0 & ->). apply (i_endpoints _ Hx) in Hy0. exact Hy0.
Qed.

(** ** Recording an outcome *)

(** The breaker after an outcome, whether or not the outcome is a probe's:
    [Q] says which reported set the new state refers to. *)
Lemma endpoint_ok_record x r e y b ok now p rep :
  inv x -> lookup r e (st x) = Some y -> breaker_ y = Some b ->
  CircuitBreaker.generation_ b < u64_modulus - 1 ->
  (CircuitBreaker.state_ b = CircuitBreaker.kHalfOpen ->
   forall o q, probe_slots y = Some o -> slots_ (st x) !! o = Some q ->
     slot_generation q = CircuitBreaker.generation_ b ->
     forall k, 0 <= k < quota q ->
       (r, e, o, k) ∉ rep <->
       (r, e, o, k) ∉ reported x /\
       ~ (CircuitBreaker.names_pending p b /\ wrap_u64 (probe_base q + k) = CircuitBreaker.probe_id p)) ->
  endpoint_ok (Sys (st x) (snaps x) (claims x) (owners x) (granted x) rep) r e
    (mkState (health y) (Some (CircuitBreaker.Record_ ok now p b)) (probe_slots y)).
Proof.
  intros Hx Hy Hb Hsmall Hrep. destruct (i_endpoints _ Hx _ _ _ Hy) as (H1 & H2 & H3).
  destruct (H3 b Hb) as (Hwf & Hgen & Hcyc).
  destruct (CircuitBreaker.Record_simulates ok now p b Hwf) as (Hwf' & _).
  unfold endpoint_ok; simpl. split_and!; [done|done|]. intros b' Hb'. simplify_eq.
  split_and!; [done| |].
  - intros o q Ho Hq. specialize (Hgen o q Ho Hq).
    pose proof (CircuitBreaker.wf_generation _ Hwf).
    destruct (CircuitBreaker.Record_generation ok now p b Hwf) as [[-> _]| ->]; [done|].
    rewrite AdvanceGeneration_small by lia. lia.
  - intros Hh. destruct (CircuitBreaker.Record_half_open _ _ _ _ Hwf Hh) as (Hs & Eg & _ & Hp).
    destruct (Hcyc Hs) as (o & q & E1 & E2 & E3 & E4). exists o, q. simpl.
    split_and!; [done|done|congruence|]. intros k Hk. rewrite Hp, E4 by done.
    symmetry. by apply (Hrep Hs o q).
Qed.

Lemma record_result_inv x result now rep :
  inv x -> epochs_small (st x) ->
  (forall c, c ∈ rep -> c ∈ (granted x).*1) ->
  (forall r e o k, (r, e) <> (route_index result, endpoint_index result) ->
     (r, e, o, k) ∈ rep <-> (r, e, o, k) ∈ reported x) ->
  (forall y b, lookup (route_index result) (endpoint_index result) (st x) = Some y ->
     breaker_ y = Some b -> CircuitBreaker.state_ b = CircuitBreaker.kHalfOpen ->
     forall o q, probe_slots y = Some o -> slots_ (st x) !! o = Some q ->
     slot_generation q = CircuitBreaker.generation_ b ->
     forall k, 0 <= k < quota q ->
       (route_index result, endpoint_index result, o, k) ∉ rep <->
       (route_index result, endpoint_index result, o, k) ∉ reported x /\
       ~ (CircuitBreaker.names_pending (breaker_permit (permit result)) b /\
          wrap_u64 (probe_base q + k) = CircuitBreaker.probe_id (breaker_permit (permit result)))) ->
  inv (Sys (RecordResult result now (st x)) (snaps x) (claims x) (owners x) (granted x) rep).
Proof.
  intros Hx Hsmall Hsub Hother Hthis.
  assert (He : forall r e y, lookup r e (RecordResult result now (st x)) = Some y ->
            endpoint_ok (Sys (st x) (snaps x) (claims x) (owners x) (granted x) rep) r e y).
  { intros r e y Hy. unfold RecordResult in Hy. rewrite lookup_update in Hy.
    case_decide as E.
    - destruct E as [-> ->]. apply fmap_Some_1 in Hy as (y0 & Hy0 & ->).
      destruct (breaker_ y0) as [b|] eqn:Hb; simpl.
      + apply (endpoint_ok_record x _ _ y0 b (success result) now); try done.
        * by eapply epochs_small_lookup.
        * by apply Hthis.
      + destruct (i_endpoints _ Hx _ _ _ Hy0) as (H1 & H2 & _). by split_and!.
    - apply (endpoint_ok_ext x); [done|done| |by apply Hx].
      intros o k. apply Hother. intros ?; simplify_eq. by destruct E. }
  destruct Hx. split; simpl; unfold slot_ok, claim_ok, granted_ok in *; simpl; try done.
Qed.

Lemma result_inv x result now :
  inv x -> epochs_small (st x) -> probe (permit result) = false ->
  inv (with_st x (RecordResult result now (st x))).
Proof.
  intros Hx Hs Hp. apply record_result_inv; try done.
  - apply Hx.
  - intros y b Hy Hb _ o q Ho Hq Hg k Hk. split; [|naive_solver]. intros H. split; [done|].
    intros [(_ & Hsel & _) _]. unfold breaker_permit in Hsel. simpl in Hsel. by rewrite Hp in Hsel.
Qed.

Lemma probe_result_inv x result now o k :
  inv x -> epochs_small (st x) ->
  let c := (route_index result, endpoint_index result, o, k) in
  (c, permit result) ∈ granted x -> c ∉ reported x ->
  inv (Sys (RecordResult result now (st x)) (snaps x) (claims x) (owners x) (granted x)
           (c :: reported x)).
Proof.
  intros Hx Hs c Hg Hr.
  destruct (i_granted _ Hx) as [_ Hgr]. rewrite Forall_forall in Hgr.
  destruct (Hgr _ Hg) as (Hown & p & Hslot & Hk & Hp). symmetry in Hp.
  apply record_result_inv; try done.
  - intros c' [->|Hc']%elem_of_cons; [by apply (list_elem_of_fmap_2 fst _ (c, permit result))|by apply Hx].
  - intros r e o' k' Hne. rewrite elem_of_cons. unfold c. split; [intros [?|?]; [simplify_eq|done]|by right].
  - intros y b Hy Hb Hho o' q Ho' Hq Hgen k' Hk'. rewrite not_elem_of_cons.
    destruct (i_endpoints _ Hx _ _ _ Hy) as (H1 & H2 & H3).
    destruct (i_slots _ Hx _ _ Hslot) as (Hq0 & Hq1 & Hq2 & Hq3).
    pose proof (mcount_nonneg (taken o) (claims x)).
    destruct (H1 o Hown) as (o1 & Ho1 & Hle). simplify_eq.
    destruct (decide (o = o')) as [->|Hoo].
    + (* the probe's own cycle *)
      rewrite Hslot in Hq. simplify_eq. unfold CircuitBreaker.names_pending, breaker_permit; simpl.
      rewrite <- Hp; simpl. split.
      * intros [Hne Hnr]. split; [done|]. intros [_ E]. apply Hne.
        apply wrap_add_inj in E; [unfold c; congruence|mlia|mlia].
      * intros [Hnr Hn]. split; [|done]. intros E. unfold c in E. simplify_eq.
        apply Hn. split; [|done]. split_and!; [congruence|done|].
        destruct (H3 b Hb) as (_ & _ & Hcyc).
        destruct (Hcyc Hho) as (o2 & q2 & E1 & E2 & _ & E4). simplify_eq. by apply E4.
    + (* a stale permit *)
      assert (slot_generation p < slot_generation q).
      { eapply (i_generations _ Hx o o'); [lia|exact Hown|by apply H2|done|done]. }
      split; [intros [_ ?]; split; [done|]|intros [? _]; split; [|done]].
      * intros [(E & _) _]. unfold breaker_permit in E; simpl in E. rewrite <- Hp in E. simpl in E. lia.
      * unfold c. congruence.
Qed.

(** ** Arming a new cycle *)

Lemma endpoint_ok_extend x s' o0 re r e y :
  (r, e) <> re -> length (owners x) = length (slots_ (st x)) ->
  slots_ s' = slots_ (st x) ++ [o0] ->
  endpoint_ok x r e y ->
  endpoint_ok (Sys s' (snaps x) (claims x) (owners x ++ [re]) (granted x) (reported x)) r e y.
Proof.
  intros Hne Hlen Hs (H1 & H2 & H3). unfold endpoint_ok, cycle_ok; simpl. rewrite Hs.
  assert (Hold : forall o, (owners x ++ [re]) !! o = Some (r, e) -> owners x !! o = Some (r, e)).
  { intros o [Ho|[_ Ho]]%lookup_app_Some; [done|]. apply list_lookup_singleton_Some in Ho as [_ ?].
    congruence. }
  split_and!.
  - intros o Ho. by apply H1, Hold.
  - intros o Ho. apply lookup_app_l_Some. by apply H2.
  - intros b Hb. destruct (H3 b Hb) as (H4 & H5 & H6). split_and!; [done| |].
    + intros o p Ho%Hold Hp. eapply H5; [done|].
      apply lookup_lt_Some in Ho. rewrite Hlen in Ho. by rewrite lookup_app_l in Hp.
    + intros Hh. destruct (H6 Hh) as (o & p & E1 & E2 & E3 & E4). exists o, p.
      split_and!; [done| |done|done]. by apply lookup_app_l_Some.
Qed.

Lemma slot_snoc_cases {A} (l : list A) a o b : (l ++ [a]) !! o = Some b -> l !! o = Some b \/ o = length l /\ b = a.
Proof.
  intros [Ho|[Hge Ho]]%lookup_app_Some; [by left|right]. apply list_lookup_singleton_Some in Ho as [? ?]. split; [lia|done].
Qed.

(** The slot object that is about to be made has no claims. *)
Lemma new_slot_unclaimed x : inv x -> mcount (taken (length (slots_ (st x)))) (claims x) = 0.
Proof.
  intros Hx. assert (owners x !! length (slots_ (st x)) = None) by (apply lookup_ge_None_2; by rewrite (i_owners _ Hx)).
  apply mcount_zero. intros i [r1 e1 o1|] Hi; [|done]. apply (i_claims _ Hx) in Hi. simpl in *.
  apply bool_decide_eq_false_2. intros ->. congruence.
Qed.

(** Generations grow along an endpoint's slot objects, the new one included. *)
Lemma new_generations x r e q :
  inv x -> (forall o p, owners x !! o = Some (r, e) -> slots_ (st x) !! o = Some p -> slot_generation p < slot_generation q) ->
  forall o o' re p p', (o < o')%nat -> (owners x ++ [(r, e)]) !! o = Some re -> (owners x ++ [(r, e)]) !! o' = Some re ->
    (slots_ (st x) ++ [q]) !! o = Some p -> (slots_ (st x) ++ [q]) !! o' = Some p' -> slot_generation p < slot_generation p'.
Proof.
  intros Hx Hgen o o' re p p' Hlt Ho Ho' Hp Hp'. pose proof (i_owners _ Hx) as Hlen.
  apply slot_snoc_cases in Ho as [Ho|[-> Ere]], Ho' as [Ho'|[-> Ere']].
  - pose proof (lookup_lt_Some _ _ _ Ho). pose proof (lookup_lt_Some _ _ _ Ho').
    rewrite Hlen in *. rewrite lookup_app_l in Hp, Hp' by done. by eapply (i_generations _ Hx o o').
  - apply slot_snoc_cases in Hp as [Hp|[-> _]]; [|lia]. apply slot_snoc_cases in Hp' as [Hp'|[_ ->]].
    { apply lookup_lt_Some in Hp'. lia. }
    simpl. subst re. by apply (Hgen o p).
  - apply lookup_lt_Some in Ho'. lia.
  - lia.
Qed.

Lemma arm_inv x r e now s' :
  inv x -> epochs_small (st x) -> ArmHalfOpen r e now (st x) = s' ->
  inv (Sys s' (snaps x) (claims x)
           (if decide (length (slots_ s') = length (slots_ (st x))) then owners x
            else owners x ++ [(r, e)]) (granted x) (reported x)).
Proof.
  intros Hx Hsmall <-. unfold ArmHalfOpen.
  destruct (lookup r e (st x)) as [y|] eqn:Hy; [|by rewrite decide_True; destruct x].
  destruct (breaker_ y) as [b|] eqn:Hb; [|by rewrite decide_True; destruct x].
  destruct (negb _); [by rewrite decide_True; destruct x|].
  destruct (now <? _); [by rewrite decide_True; destruct x|].
  destruct (i_endpoints _ Hx _ _ _ Hy) as (H1 & H2 & H3). destruct (H3 b Hb) as (Hwf & Hgen & _).
  pose proof (CircuitBreaker.fresh_cycle b Hwf) as Hf.
  pose proof (CircuitBreaker.wf_generation _ Hwf) as Hg0.
  destruct (CircuitBreaker.wf_config _ Hwf) as (_ & _ & _ & _ & Hquota).
  destruct (CircuitBreaker.BeginFreshHalfOpenCycle b) as [c b'].
  destruct Hf as (Hwf' & Hst' & Hg' & _ & Hcg & Hcq & Hcb & Hpend).
  rewrite AdvanceGeneration_small in Hg' by (pose proof (epochs_small_lookup _ _ _ _ _ Hsmall Hy Hb); lia).
  pose proof (i_owners _ Hx) as Hlen.
  set (s' := mk _ _ _ _). assert (Hs' : slots_ s' = slots_ (st x) ++ [slots_of c]) by done.
  rewrite decide_False by (rewrite Hs', length_app; simpl; lia).
  assert (Hnew : forall o re', (owners x ++ [(r, e)]) !! o = Some re' -> owners x !! o = Some re' \/ o = length (slots_ (st x)) /\ re' = (r, e))
    by (rewrite <- Hlen; intros o re'; apply slot_snoc_cases).
  pose proof (slot_snoc_cases (slots_ (st x)) (slots_of c)) as Hold.
  assert (Hfreshowner : owners x !! length (slots_ (st x)) = None) by (apply lookup_ge_None_2; lia).
  split; simpl; rewrite ?Hs'.
  - rewrite !length_app, Hlen. done.
  - intros o p [Ho|[-> ->]]%Hold; [by apply (i_slots _ Hx)|].
    unfold slot_ok; simpl. rewrite (new_slot_unclaimed x Hx), Hcq. split_and!; mlia.
  - apply (new_generations x r e (slots_of c) Hx). intros o p Ho Hp. specialize (Hgen o p Ho Hp). simpl. lia.
  - intros i cl Hcl. pose proof (i_claims _ Hx _ _ Hcl) as Hc. destruct cl as [r1 e1 o1|r1 e1 o1 k1].
    + by apply lookup_app_l_Some.
    + destruct Hc as (Ho1 & Hn & p1 & Hp1 & Hk1). split_and!; [by apply lookup_app_l_Some|done|].
      exists p1. split; [by apply lookup_app_l_Some|done].
  - apply Hx.
  - split; [apply Hx|]. destruct (i_granted _ Hx) as [_ Hg]. eapply Forall_impl; [exact Hg|].
    intros [[[[r1 e1] o1] k1] pm] (Ho1 & p1 & Hp1 & Hk1). split; [by apply lookup_app_l_Some|].
    exists p1. split; [simpl; rewrite ?Hs'; by apply lookup_app_l_Some|done].
  - apply Hx.
  - intros snap r1 e1 o1 Hin Hoff. apply lookup_app_l_Some. by apply (i_snaps _ Hx snap).
  - intros r1 e1 y1 Hy1. change (lookup r1 e1 s') with
      (lookup r1 e1 (update r e (fun y => mkState (health y) (Some b')
                                          (Some (length (slots_ (st x))))) (st x))) in Hy1.
    rewrite lookup_update in Hy1. case_decide as E.
    2: { eapply (endpoint_ok_extend x s' (slots_of c)); [|done|done|by apply Hx].
         intros ?; simplify_eq. by destruct E. }
    destruct E as [-> ->]. rewrite Hy in Hy1. simpl in Hy1. injection Hy1 as <-.
    unfold endpoint_ok. cbn [st owners reported probe_slots breaker_]. rewrite Hs'. split_and!.
    + intros o [Ho|[-> _]]%Hnew; [|by eexists]. eexists. split; [done|].
      apply lookup_lt_Some in Ho. lia.
    + intros o Ho. injection Ho as <-. by apply list_lookup_middle.
    + intros b1 Hb1. injection Hb1 as <-. split_and!; [done| |].
      * intros o p Ho Hp. apply Hold in Hp as [Hp|[_ ->]]; [|simpl; lia].
        apply Hnew in Ho as [Ho|[-> _]]; [specialize (Hgen o p Ho Hp); lia|].
        apply lookup_lt_Some in Hp. lia.
      * intros _. exists (length (slots_ (st x))), (slots_of c).
        split_and!; [done|by apply list_lookup_middle|done|].
        intros k Hk. split; [|intros _; by apply Hpend].
        intros _ Hin%(reported_owner x); [|done]. congruence.
Qed.

(** ** Publishing *)

Lemma BuildSnapshot_offered s r e o :
  offered r e (BuildSnapshot s).1 = Some o ->
  exists y, lookup r e s = Some y /\ probe_slots y = Some o.
Proof.
  unfold offered, lookup; simpl. rewrite list_lookup_fmap.
  destruct (endpoints_ s !! r) as [l|]; simpl; [|done]. rewrite list_lookup_fmap.
  destruct (l !! e) as [y|]; simpl; [|done]. intros H. exists y. split; [done|].
  unfold decision_of in H. destruct (breaker_ y); [|by case_decide].
  destruct (probe_slots y ≫= _) as [p|] eqn:E; simpl in H; case_decide; congruence.
Qed.

Lemma publish_inv x :
  inv x -> inv (Sys (BuildSnapshot (st x)).2 (snaps x ++ [(BuildSnapshot (st x)).1])
                    (claims x) (owners x) (granted x) (reported x)).
Proof.
  intros Hx. assert (He : forall r e y, lookup r e (st x) = Some y -> endpoint_ok x r e y)
    by apply Hx.
  pose proof (i_snaps _ Hx) as Hs. destruct Hx.
  split; simpl; unfold slot_ok, claim_ok, granted_ok in *; try done.
  intros snap r e o [Hin| ->%list_elem_of_singleton]%elem_of_app Hoff; [by apply (Hs snap)|].
  apply BuildSnapshot_offered in Hoff as (y & Hy & Ho). by apply (He r e y Hy).
Qed.

(** ** The atomic accesses of a claim *)

(** An access to a slot object changes only its two counters. *)
Definition same_cycle (p p' : ProbeSlotState) : Prop :=
  probe_base p' = probe_base p /\ slot_generation p' = slot_generation p /\
  quota p' = quota p /\ issued p <= issued p'.

Lemma slots_access (slots : list ProbeSlotState) o p p' o' q' :
  slots !! o = Some p -> same_cycle p p' -> (<[ o := p' ]> slots) !! o' = Some q' ->
  exists q, slots !! o' = Some q /\ same_cycle q q' /\ (o' <> o -> q' = q) /\ (o' = o -> q' = p').
Proof.
  intros Hp Hc. rewrite list_lookup_insert_Some. intros [(<- & <- & _)|(Hne & Hq)].
  - exists p. split_and!; done.
  - exists q'. split_and!; try done; congruence || (unfold same_cycle; lia).
Qed.

Lemma slots_access_fwd (slots : list ProbeSlotState) o p p' o' q :
  slots !! o = Some p -> same_cycle p p' -> slots !! o' = Some q ->
  exists q', (<[ o := p' ]> slots) !! o' = Some q' /\ same_cycle q q'.
Proof.
  intros Hp Hc Hq. destruct (decide (o = o')) as [<-|Hne].
  - exists p'. rewrite list_lookup_insert_eq by (by eapply lookup_lt_Some).
    split; [done|]. by simplify_eq.
  - exists q. rewrite list_lookup_insert_ne by done. split; [done|]. by unfold same_cycle.
Qed.

Lemma access_inv x o p p' cl gr :
  inv x -> slots_ (st x) !! o = Some p -> same_cycle p p' ->
  let x' := Sys (with_slots (st x) o p') (snaps x) cl (owners x) gr (reported x) in
  (forall o q, slots_ (st x') !! o = Some q -> slot_ok x' o q) ->
  (forall i c, cl !! i = Some c -> claim_ok x' c) ->
  (forall i j r e o k, cl !! i = Some (Issued r e o k) -> cl !! j = Some (Issued r e o k) -> i = j) ->
  NoDup gr.*1 /\ Forall (granted_ok x') gr -> (forall c, c ∈ reported x -> c ∈ gr.*1) -> inv x'.
Proof.
  intros Hx Hp Hc x' H1 H2 H3 H4 H5. split; try done.
  - simpl. rewrite length_insert. apply Hx.
  - intros o1 o2 re p1 p2 Hlt Ho1 Ho2 Hp1 Hp2. simpl in *.
    destruct (slots_access _ _ _ _ _ _ Hp Hc Hp1) as (q1 & Hq1 & (_ & -> & _) & _).
    destruct (slots_access _ _ _ _ _ _ Hp Hc Hp2) as (q2 & Hq2 & (_ & -> & _) & _).
    by eapply (i_generations _ Hx o1 o2).
  - apply Hx.
  - intros r e y Hy. destruct (i_endpoints _ Hx r e y Hy) as (E1 & E2 & E3).
    split_and!; [done|done|]. intros b Hb. destruct (E3 b Hb) as (E4 & E5 & E6).
    split_and!; [done| |].
    + intros o1 p1 Ho1 Hp1. simpl in *.
      destruct (slots_access _ _ _ _ _ _ Hp Hc Hp1) as (q1 & Hq1 & (_ & -> & _) & _). by eapply E5.
    + intros Hh. destruct (E6 Hh) as (o1 & q1 & F1 & F2 & F3 & F4).
      destruct (slots_access_fwd _ _ _ _ _ _ Hp Hc F2) as (q2 & G1 & (G2 & G3 & G4 & _)).
      exists o1, q2. simpl. rewrite G2, G3, G4. split_and!; done.
Qed.

(** Claims and permits survive an access. *)
Lemma granted_ok_access x o p p' cl gr c :
  slots_ (st x) !! o = Some p -> same_cycle p p' -> granted_ok x c ->
  granted_ok (Sys (with_slots (st x) o p') (snaps x) cl (owners x) gr (reported x)) c.
Proof.
  intros Hp Hc. destruct c as [[[[r e] o1] k] pm]. intros (Ho & q & Hq & Hk & ->). split; [done|].
  destruct (slots_access_fwd _ _ _ _ _ _ Hp Hc Hq) as (q' & Hq' & E1 & E2 & _ & Hi).
  exists q'. rewrite E1, E2. split_and!; [done|lia|lia|done].
Qed.

Lemma claim_ok_access x o p p' cl c :
  slots_ (st x) !! o = Some p -> same_cycle p p' -> claim_ok x c ->
  claim_ok (Sys (with_slots (st x) o p') (snaps x) cl (owners x) (granted x) (reported x)) c.
Proof.
  intros Hp Hc. destruct c as [r e o1|r e o1 k]; [done|]. intros (Ho & Hn & q & Hq & Hk).
  destruct (slots_access_fwd _ _ _ _ _ _ Hp Hc Hq) as (q' & Hq' & _ & _ & _ & Hi).
  split_and!; [done|done|]. exists q'. split; [done|lia].
Qed.

Lemma claim_take_inv x i r e o snap p p' :
  inv x -> snap ∈ snaps x -> offered r e snap = Some o -> claims x !! i = None ->
  slots_ (st x) !! o = Some p -> take_slot p = Some p' ->
  inv (Sys (with_slots (st x) o p') (snaps x) (<[ i := Taken r e o ]> (claims x))
           (owners x) (granted x) (reported x)).
Proof.
  intros Hx Hsn Hoff Hi Hp Ht. unfold take_slot in Ht.
  destruct (Z.ltb_spec 0 (remaining p)); simplify_eq.
  assert (Hc : same_cycle p (mkSlots (remaining p - 1) (issued p) (probe_base p)
                                     (slot_generation p) (quota p)))
    by (unfold same_cycle; simpl; lia).
  destruct (i_granted _ Hx) as [Hnd Hg].
  apply (access_inv x o p); try done.
  - intros o1 q1 Hq1. simpl in Hq1.
    destruct (slots_access _ _ _ _ _ _ Hp Hc Hq1) as (q & Hq & _ & Hne & Heq).
    destruct (i_slots _ Hx _ _ Hq) as (S1 & S2 & S3 & S4).
    unfold slot_ok; simpl. rewrite mcount_insert_new by done. simpl.
    destruct (decide (o1 = o)) as [->|Ho].
    + rewrite Heq, bool_decide_eq_true_2 by done. simpl. simplify_eq. lia.
    + rewrite Hne, bool_decide_eq_false_2 by done. lia.
  - intros j c Hj. apply (claim_ok_access _ _ _ _ (<[ i := Taken r e o ]> (claims x)) _ Hp Hc).
    apply lookup_insert_Some in Hj as [[<- <-]|[_ Hj]]; [by apply (i_snaps _ Hx snap)|by apply (i_claims _ Hx j)].
  - intros j1 j2 r1 e1 o1 k1 Hj1 Hj2. apply lookup_insert_Some in Hj1 as [[_ ?]|[_ Hj1]]; [done|].
    apply lookup_insert_Some in Hj2 as [[_ ?]|[_ Hj2]]; [done|]. by eapply (i_distinct _ Hx).
  - split; [done|]. eapply Forall_impl; [exact Hg|]. intros c. by apply granted_ok_access with p.
  - apply Hx.
Qed.

Lemma issue_inv x i r e o p :
  inv x -> claims x !! i = Some (Taken r e o) -> slots_ (st x) !! o = Some p ->
  inv (Sys (with_slots (st x) o (issue_slot p).2) (snaps x)
           (<[ i := Issued r e o (issue_slot p).1 ]> (claims x)) (owners x) (granted x) (reported x)).
Proof.
  intros Hx Hi Hp. destruct (i_slots _ Hx _ _ Hp) as (S1 & S2 & S3 & S4).
  pose proof (mcount_pos (taken o) _ _ _ Hi ltac:(by apply bool_decide_eq_true_2)).
  unfold issue_slot; simpl. rewrite wrap_u64_small by mlia.
  assert (Hc : same_cycle p (mkSlots (remaining p) (issued p + 1) (probe_base p)
                                     (slot_generation p) (quota p)))
    by (unfold same_cycle; simpl; lia).
  destruct (i_granted _ Hx) as [Hnd Hg].
  assert (Hlt : forall r1 e1 k1, (r1, e1, o, k1) ∈ (granted x).*1 -> k1 < issued p).
  { intros r1 e1 k1 ([c pm] & E & Hin)%list_elem_of_fmap. simpl in E. subst c.
    rewrite Forall_forall in Hg. destruct (Hg _ Hin) as (_ & q & Hq & Hk & _).
    simplify_eq. lia. }
  apply (access_inv x o p); try done.
  - intros o1 q1 Hq1. simpl in Hq1.
    destruct (slots_access _ _ _ _ _ _ Hp Hc Hq1) as (q & Hq & _ & Hne & Heq).
    destruct (i_slots _ Hx _ _ Hq) as (T1 & T2 & T3 & T4).
    unfold slot_ok; simpl. rewrite (mcount_insert _ _ _ _ _ Hi). simpl.
    destruct (decide (o1 = o)) as [->|Ho].
    + rewrite Heq, bool_decide_eq_true_2 by done. simpl. simplify_eq. lia.
    + rewrite Hne, bool_decide_eq_false_2 by done. lia.
  - intros j c Hj. apply lookup_insert_Some in Hj as [[<- <-]|[_ Hj]].
    + split_and!; [by apply (i_claims _ Hx) in Hi| |].
      * intros Hin%Hlt. lia.
      * simpl. eexists. rewrite list_lookup_insert_eq by (by eapply lookup_lt_Some).
        split; [done|simpl; lia].
    + apply (claim_ok_access _ _ _ _ _ _ Hp Hc). by apply (i_claims _ Hx j).
  - assert (Hfresh : forall j r1 e1, claims x !! j <> Some (Issued r1 e1 o (issued p))).
    { intros j r1 e1 Hj%(i_claims _ Hx). destruct Hj as (_ & _ & q & Hq & Hk). simplify_eq. lia. }
    intros j1 j2 r1 e1 o1 k1 Hj1 Hj2.
    apply lookup_insert_Some in Hj1 as [[<- ?]|[Hn1 Hj1]];
      apply lookup_insert_Some in Hj2 as [[<- ?]|[Hn2 Hj2]]; simplify_eq; try done.
    + by apply Hfresh in Hj2.
    + by apply Hfresh in Hj1.
    + by eapply (i_distinct _ Hx).
  - split; [done|]. eapply Forall_impl; [exact Hg|]. intros c. by apply granted_ok_access with p.
  - apply Hx.
Qed.

Lemma check_inv x i r e o k :
  inv x -> claims x !! i = Some (Issued r e o k) ->
  inv (Sys (st x) (snaps x) (delete i (claims x)) (owners x)
           (match check_claim r e o k (st x) with
            | Some pm => ((r, e, o, k), pm) :: granted x | None => granted x end) (reported x)).
Proof.
  intros Hx Hi. pose proof (i_claims _ Hx _ _ Hi) as (Ho & Hn & p & Hp & Hk).
  destruct (i_granted _ Hx) as [Hnd Hg].
  set (gr := match check_claim r e o k (st x) with Some pm => _ | None => _ end).
  set (pm := mkPermit true (slot_generation p) (wrap_u64 (probe_base p + k))).
  assert (Hgr : gr = granted x \/ gr = ((r, e, o, k), pm) :: granted x).
  { subst gr pm. unfold check_claim. rewrite Hp. destruct (lookup r e (st x)); [|by left].
    case_decide; [by right|by left]. }
  clearbody gr. assert (Hsame : same_cycle p p) by (by unfold same_cycle).
  replace (st x) with (with_slots (st x) o p).
  2: { unfold with_slots. rewrite list_insert_id by done. by destruct (st x). }
  apply (access_inv x o p); try done.
  - intros o1 q1 Hq1. simpl in Hq1. rewrite list_insert_id in Hq1 by done.
    destruct (i_slots _ Hx _ _ Hq1) as (S1 & S2 & S3 & S4).
    unfold slot_ok; simpl. rewrite (mcount_delete _ _ _ _ Hi). simpl. lia.
  - intros j c Hj. apply lookup_delete_Some in Hj as [Hne Hj].
    pose proof (i_claims _ Hx _ _ Hj) as Hc.
    destruct c as [r1 e1 o1|r1 e1 o1 k1]; [done|]. destruct Hc as (F1 & F2 & q & F3 & F4).
    split_and!; [done| |].
    + simpl. destruct Hgr as [->| ->]; [done|]. rewrite fmap_cons, not_elem_of_cons. split; [|done].
      intros ?; simplify_eq/=. by apply Hne, (i_distinct _ Hx _ _ r e o k).
    + exists q. simpl. by rewrite list_insert_id.
  - intros j1 j2 r1 e1 o1 k1 [_ Hj1]%lookup_delete_Some [_ Hj2]%lookup_delete_Some.
    by eapply (i_distinct _ Hx).
  - assert (Hall : forall l, Forall (granted_ok x) l ->
              Forall (granted_ok (Sys (with_slots (st x) o p) (snaps x) (delete i (claims x))
                                      (owners x) gr (reported x))) l).
    { intros l Hl. eapply Forall_impl; [exact Hl|]. intros c. by apply granted_ok_access with p. }
    destruct Hgr as [->| ->]; (split; [|apply Hall]); try done.
    + rewrite fmap_cons. by apply NoDup_cons.
    + apply Forall_cons. split; [|done]. split; [done|]. by exists p.
  - intros c Hc%(i_reported _ Hx). destruct Hgr as [->| ->]; [done|by right].
Qed.

Lemma claims_step_inv x x' : inv x -> step x x' -> inv x'.
Proof.
  intros Hx Hs. destruct Hs; [by apply publish_inv|by apply health_inv|by eapply arm_inv|by apply result_inv|
    by subst; apply probe_result_inv|by eapply claim_take_inv|by apply issue_inv|by apply check_inv].
Qed.

(** ** Start-up *)

Definition initial (s : t) : sys := Sys s [] ∅ [] [] [].

(** The breaker settings fit their types. *)
Definition settings_u32 (c : Config) : Prop :=
  Forall (fun r => forall cb, circuit_breaker r = Some cb ->
    is_u32 (min_requests cb) /\ is_u32 (failure_threshold_permille cb) /\
    is_u32 (half_open_probes cb)) (routes c).

Lemma make_endpoints config now s r e y :
  settings_u32 config -> make config now = Some s -> lookup r e s = Some y ->
  probe_slots y = None /\
  forall b, breaker_ y = Some b -> CircuitBreaker.wf b /\ CircuitBreaker.state_ b = CircuitBreaker.kClosed.
Proof.
  intros Hu Hm Hy. unfold make in Hm.
  destruct (mapM (make_route now) (routes config)) as [es|] eqn:Ees; simplify_eq/=.
  unfold lookup in Hy; simpl in Hy. destruct (es !! r) as [l|] eqn:Hl; [|done]. simpl in Hy.
  apply mapM_Some_1 in Ees. destruct (Forall2_lookup_r _ _ _ _ _ Ees Hl) as (rt & Hrt & Hmk).
  pose proof (Forall_lookup_1 _ _ _ _ Hu Hrt) as Hrtu. simpl in Hrtu.
  unfold make_route in Hmk. destruct (circuit_breaker rt) as [cb|] eqn:Hcb.
  - apply mapM_Some_1 in Hmk. destruct (Forall2_lookup_r _ _ _ _ _ Hmk Hy) as (ep & _ & Hb).
    destruct (CircuitBreaker.make _ now) as [b|] eqn:Emk; simplify_eq/=. split; [done|].
    intros b' ?; simplify_eq. destruct (Hrtu _ eq_refl) as (U1 & U2 & U3). split.
    + by eapply CircuitBreaker.breaker_make_wf; [| | |exact Emk].
    + unfold CircuitBreaker.make in Emk. by case_match; simplify_eq/=.
  - simplify_eq. apply list_lookup_fmap_Some in Hy as (ep & -> & _). done.
Qed.

Lemma claims_initial_inv config now s :
  settings_u32 config -> make config now = Some s -> inv (initial s).
Proof.
  intros Hu Hm.
  assert (slots_ s = []) as Hs by (unfold make in Hm; by destruct (mapM _ _); simplify_eq/=).
  split; simpl; rewrite ?Hs; try done.
  - split; [constructor|done].
  - intros snap r e o Hc. by apply elem_of_nil in Hc.
  - intros r e y Hy. destruct (make_endpoints _ _ _ _ _ _ Hu Hm Hy) as [Hp Hb].
    unfold endpoint_ok; simpl. rewrite Hp. split_and!; try done. intros b Hbb.
    destruct (Hb b Hbb) as [Hwf Hc]. split_and!; try done. by rewrite Hc.
Qed.

(** Two grants of an endpoint with the same permit are the same. *)
Lemma grants_distinct x r e o o' k k' pm :
  inv x -> ((r, e, o, k), pm) ∈ granted x -> ((r, e, o', k'), pm) ∈ granted x -> o = o' /\ k = k'.
Proof.
  intros Hx H1 H2. destruct (i_granted _ Hx) as [_ Hg]. rewrite Forall_forall in Hg.
  destruct (Hg _ H1) as (O1 & p1 & P1 & K1 & ->). destruct (Hg _ H2) as (O2 & p2 & P2 & K2 & E).
  injection E as Eg Eb.
  assert (o = o') as <-.
  { destruct (lt_eq_lt_dec o o') as [[Hlt|]|Hlt]; [|done|].
    - pose proof (i_generations _ Hx _ _ _ _ _ Hlt O1 O2 P1 P2). lia.
    - pose proof (i_generations _ Hx _ _ _ _ _ Hlt O2 O1 P2 P1). lia. }
  split; [done|]. simplify_eq. destruct (i_slots _ Hx _ _ P1) as (S1 & S2 & S3 & S4).
  pose proof (mcount_nonneg (taken o) (claims x)). by apply wrap_add_inj in Eb; [|mlia|mlia].
Qed.

(** C10: In every interleaving of workers claiming probes with the coordinator's
    re-arming, publishing and recording, the permits [ClaimProbe] returned are
    distinct at each endpoint and each names a probe in the range of the cycle it
    was claimed from; while that cycle is current the outcome of a claimed probe
    is accepted exactly once: the returned permit names a pending probe of the
    breaker until its outcome is recorded and none afterwards. *)
Theorem probe_claimed_and_recorded_once config now s x :
  settings_u32 config -> make config now = Some s -> rtc step (initial s) x ->
  NoDup ((fun g => (g.1.1.1, g.2)) <$> granted x) /\
  forall r e o k pm, ((r, e, o, k), pm) ∈ granted x ->
    exists p, slots_ (st x) !! o = Some p /\ 0 <= k < quota p /\
      probe pm = true /\ generation pm = slot_generation p /\
      probe_id pm = (probe_base p + k) mod 2 ^ 64 /\
    forall y b, lookup r e (st x) = Some y -> breaker_ y = Some b -> probe_slots y = Some o ->
      CircuitBreaker.state_ b = CircuitBreaker.kHalfOpen ->
      CircuitBreaker.names_pending (breaker_permit pm) b <-> (r, e, o, k) ∉ reported x.
Proof.
  intros Hu Hm Hrun.
  pose proof (rtc_preserves step inv claims_step_inv _ _ Hrun (claims_initial_inv _ _ _ Hu Hm)) as Hx.
  destruct (i_granted _ Hx) as [Hnd Hg]. split.
  { apply (NoDup_fmap_2_strong); [|by apply NoDup_fmap_1 in Hnd].
    intros [[[[r e] o] k] pm] [[[[r' e'] o'] k'] pm'] H1 H2 E. simpl in E. simplify_eq.
    by destruct (grants_distinct x r' e' o o' k k' pm' Hx H1 H2) as [-> ->]. }
  intros r e o k pm Hin.
  rewrite Forall_forall in Hg. destruct (Hg _ Hin) as (Ho & p & Hp & Hk & ->).
  destruct (i_slots _ Hx _ _ Hp) as (S1 & S2 & S3 & S4).
  pose proof (mcount_nonneg (taken o) (claims x)).
  exists p. split_and!; [done|lia|lia|done|done|done|]. intros y b Hy Hb Hcur Hh.
  destruct (i_endpoints _ Hx _ _ _ Hy) as (_ & _ & E3). destruct (E3 b Hb) as (_ & _ & Hcyc).
  destruct (Hcyc Hh) as (o1 & p1 & F1 & F2 & F3 & F4). rewrite Hcur in F1. injection F1 as <-.
  rewrite Hp in F2. injection F2 as <-.
  unfold CircuitBreaker.names_pending, breaker_permit; simpl. rewrite <- (F4 k) by lia. naive_solver.
Qed.

(** *** A witness: a breaker trips, is armed, and one worker claims a probe *)

Definition example_config : Config :=
  mkConfig [mkRoute [] [] [] [mkEndpoint [] (127, 0, 0, 1) 80 1] 1 1 1 1 1 1 1
              (Some (mkBreakerSettings 10 1 500 1 2)) None kWeightedRoundRobin] 1.

Definition example_start : t :=
  default (mk example_config [] 0 []) (make example_config 5000000000).

Definition example_armed : sys :=
  Sys (ArmHalfOpen 0 0 9000000000
         (RecordResult (mkResult 0 0 (mkPermit false 1 0) false) 6000000000 example_start))
      [] ∅ [(0%nat, 0%nat)] [] [].

Definition example_published : sys :=
  Sys (BuildSnapshot (st example_armed)).2 [(BuildSnapshot (st example_armed)).1] ∅
      [(0%nat, 0%nat)] [] [].

Definition example_claimed : sys :=
  Sys (ClaimProbe 0 0 (BuildSnapshot (st example_armed)).1 (st example_published)).2
      (snaps example_published) (delete 0%nat (<[ 0%nat := Issued 0 0 0 0 ]>
        (<[ 0%nat := Taken 0 0 0 ]> ∅))) [(0%nat, 0%nat)] [((0%nat, 0%nat, 0%nat, 0), mkPermit true 3 1)] [].

Definition example_breaker : CircuitBreaker.t :=
  Eval vm_compute in
  match lookup 0 0 (st example_claimed) ≫= breaker_ with
  | Some b => b
  | None => CircuitBreaker.example
  end.

Lemma step_to x y y' : step x y -> y = y' -> step x y'.
Proof. by intros ? <-. Qed.

Lemma example_claimed_reachable : rtc step (initial example_start) example_claimed.
Proof.
  set (x1 := with_st (initial example_start)
               (RecordResult (mkResult 0 0 (mkPermit false 1 0) false) 6000000000 example_start)).
  apply rtc_l with x1.
  { apply (step_result (initial example_start)); [|done].
    apply (bool_decide_unpack (epochs_small example_start)). vm_compute. exact I. }
  apply rtc_l with example_armed.
  { eapply step_to; [apply (step_arm x1 0 0 9000000000); [|reflexivity]|vm_compute; reflexivity].
    apply (bool_decide_unpack (epochs_small (st x1))). vm_compute. exact I. }
  apply rtc_l with example_published.
  { exact (step_publish example_armed). }
  set (s2 := with_slots (st example_published) 0 (mkSlots 1 0 1 3 2)).
  set (x2 := Sys s2 (snaps example_published) (<[ 0%nat := Taken 0 0 0 ]> ∅) [(0%nat, 0%nat)] [] []).
  apply rtc_l with x2.
  { apply (step_take example_published 0 0 0 0 (BuildSnapshot (st example_armed)).1
             (mkSlots 2 0 1 3 2)); [left|vm_compute; reflexivity..]. }
  apply rtc_l with (Sys (with_slots s2 0 (mkSlots 1 1 1 3 2)) (snaps example_published)
      (<[ 0%nat := Issued 0 0 0 0 ]> (<[ 0%nat := Taken 0 0 0 ]> ∅)) [(0%nat, 0%nat)] [] []).
  { apply (step_issue x2 0 0 0 0 (mkSlots 1 0 1 3 2)); vm_compute; reflexivity. }
  apply rtc_once. eapply step_to; [eapply (step_check (Sys _ _ _ _ _ _) 0 0 0 0 0)|].
  - reflexivity.
  - vm_compute. reflexivity.
Qed.

Lemma probe_claimed_and_recorded_once_witness :
  exists p, slots_ (st example_claimed) !! 0%nat = Some p /\ 0 <= 0 < quota p /\
    CircuitBreaker.names_pending (breaker_permit (mkPermit true 3 1)) example_breaker.
Proof.
  destruct (probe_claimed_and_recorded_once example_config 5000000000 example_start example_claimed)
    as [_ H].
  - apply Forall_singleton. intros cb Hcb. injection Hcb as <-. vm_compute. repeat split; congruence.
  - vm_compute. reflexivity.
  - exact example_claimed_reachable.
  - destruct (H 0%nat 0%nat 0%nat 0 (mkPermit true 3 1) ltac:(left)) as (p & Hp & Hk & _ & _ & _ & Hb).
    exists p. split; [exact Hp|]. split; [exact Hk|].
    apply (Hb (mkState EndpointHealth.kImplicitHealthy (Some example_breaker) (Some 0%nat))
              example_breaker); [vm_compute; reflexivity|reflexivity..|]. exact (not_elem_of_nil _).
Defined.

End ProbeClaims.
