(* ===== verification/OutcomeChannel.v ===== *)
(** * The outcome channel

    Models src/src/health/OutcomeChannel.cpp: a bounded multi-producer
    single-consumer ring whose producers hold a credit reserved in advance.
    [Module OutcomeChannel] gives the class's operations as functions;
    [Module OutcomeRing] gives the concurrent system as a step relation whose
    steps are the single atomic accesses of the producers and of the consumer,
    and proves that the ring never overflows (the [std::terminate] of [Enqueue]
    is unreachable) and delivers every published outcome exactly once in claim
    order.  The wake descriptor carries no data; it is modelled in OutcomeWake. *)

From S2P Require Import Prelude.

Module OutcomeChannel.

Definition kMaxOutcomeCapacity : Z := 1048576.

(** [CapacityForRoute]; [None] is the exception. *)
Definition CapacityForRoute (max_inflight retry_budget : Z) : option Z :=
  let attempts := wrap_u64 (max_inflight * wrap_u64 (retry_budget + 1)) in
  if (attempts =? 0) || (kMaxOutcomeCapacity <? attempts) then None else Some attempts.

Section Channel.
Context {A : Type}.

(** [Slot]: the payload ([None] is the default-constructed result) and the
    ready flag. *)
Record Slot := mkSlot { value : option A; ready : bool }.

Definition no_slot : Slot := mkSlot None false.

Record State := mkState {
  accepting : bool;
  available : Z;
  head : Z;
  tail : Z;
  rejected : Z;
  capacity : Z;
  slots : list Slot
}.

Definition make (capacity : Z) : option State :=
  if (capacity =? 0) || (kMaxOutcomeCapacity <? capacity) then None
  else Some (mkState true capacity 0 0 0 capacity (replicate (Z.to_nat capacity) no_slot)).

Definition with_available (s : State) (n : Z) : State :=
  mkState (accepting s) n (head s) (tail s) (rejected s) (capacity s) (slots s).
Definition with_head (s : State) (n : Z) : State :=
  mkState (accepting s) (available s) n (tail s) (rejected s) (capacity s) (slots s).
Definition with_tail (s : State) (n : Z) : State :=
  mkState (accepting s) (available s) (head s) n (rejected s) (capacity s) (slots s).
Definition with_rejected (s : State) (n : Z) : State :=
  mkState (accepting s) (available s) (head s) (tail s) n (capacity s) (slots s).
Definition with_slot (s : State) (i : nat) (x : Slot) : State :=
  mkState (accepting s) (available s) (head s) (tail s) (rejected s) (capacity s)
          (<[ i := x ]> (slots s)).

(** [index % capacity]. *)
Definition slot_index (s : State) (index : Z) : nat := Z.to_nat (Z.rem index (capacity s)).

(** [TryReserve] without interference: the credit, or a counted rejection. *)
Definition TryReserve (s : State) : bool * State :=
  if negb (accepting s) then (false, with_rejected s (wrap_u64 (rejected s + 1)))
  else if 0 <? available s then (true, with_available s (available s - 1))
  else (false, with_rejected s (wrap_u64 (rejected s + 1))).

Definition BeginStopping (s : State) : State :=
  mkState false (available s) (head s) (tail s) (rejected s) (capacity s) (slots s).

(** [Enqueue]; [None] is [std::terminate]. *)
Definition Enqueue (result : A) (s : State) : option State :=
  let claimed := head s in
  let s := with_head s (wrap_u32 (head s + 1)) in
  if capacity s <=? wrap_u32 (claimed - tail s) then None
  else Some (with_slot s (slot_index s claimed) (mkSlot (Some result) true)).

(** The credit returned by [Finalize] and by the consumer. *)
Definition restore (s : State) : State := with_available s (wrap_u32 (available s + 1)).

(** One iteration of [DrainOnCoordinatorLoop]; [None] when the next slot is not
    ready. *)
Definition drain_one (s : State) : option (option A * State) :=
  let i := slot_index s (tail s) in
  match slots s !! i with
  | Some x =>
      if ready x
      then Some (value x, restore (with_tail (with_slot s i no_slot) (wrap_u32 (tail s + 1))))
      else None
  | None => None
  end.

(** The loop: each iteration clears one ready flag, so as many iterations as
    there are slots, and one more to observe the end, always suffice
    ([Drain_total]). *)
Fixpoint drain (fuel : nat) (s : State) : option (list (option A) * State) :=
  match fuel with
  | O => None
  | S fuel =>
      match drain_one s with
      | None => Some ([], s)
      | Some (v, s) => '(vs, s) ← drain fuel s; Some (v :: vs, s)
      end
  end.

Definition DrainOnCoordinatorLoop (s : State) : option (list (option A) * State) :=
  drain (S (length (slots s))) s.

Definition pending (s : State) : Z := wrap_u32 (head s - tail s).

(** ** Reservations *)

Record Reservation := mkReservation { bound : bool; finalized_ : bool }.

Definition Finalize (r : Reservation) (s : State) : Reservation * State :=
  (mkReservation false true, if bound r && negb (finalized_ r) then restore s else s).

Definition Publish (result : A) (r : Reservation) (s : State) : option (Reservation * State) :=
  if negb (bound r) || finalized_ r then Some (r, s)
  else s' ← Enqueue result s; Some (mkReservation (bound r) true, s').

Definition Cancel (r : Reservation) (s : State) : Reservation * State := Finalize r s.

(** The move constructor and assignment: the new object and the moved-from one. *)
Definition moved (r : Reservation) : Reservation * Reservation := (r, mkReservation false true).

Definition move_assign (r other : Reservation) (s : State)
    : Reservation * Reservation * State :=
  let '(_, s) := Finalize r s in (other, mkReservation false true, s).

End Channel.

Arguments Slot : clear implicits.
Arguments State : clear implicits.

(** *** The drain loop ends *)

Definition ready_count {A} (l : list (Slot A)) : nat := length (filter (fun x => ready x = true) l).

Lemma ready_count_clear {A} (l : list (Slot A)) i x :
  l !! i = Some x -> ready x = true -> S (ready_count (<[ i := no_slot ]> l)) = ready_count l.
Proof.
  unfold ready_count. revert i. induction l as [|y l IH]; intros [|i] Hi Hr; simplify_eq/=.
  - rewrite filter_cons_False, filter_cons_True by done. done.
  - rewrite !filter_cons. specialize (IH _ Hi Hr). case_decide; simpl; lia.
Qed.

Lemma drain_total {A} fuel (s : State A) :
  (ready_count (slots s) < fuel)%nat -> is_Some (drain fuel s).
Proof.
  revert s. induction fuel as [|fuel IH]; intros s Hf; simpl; [lia|].
  unfold drain_one. destruct (slots s !! _) as [x|] eqn:Hx; [|done].
  destruct (ready x) eqn:Hr; [|done]. simpl.
  destruct (IH (restore (with_tail (with_slot s (slot_index s (tail s)) no_slot)
                                   (wrap_u32 (tail s + 1))))) as [[vs s'] E].
  { simpl. pose proof (ready_count_clear _ _ _ Hx Hr). lia. }
  rewrite E. done.
Qed.

(** A drain ends where the next slot is not ready. *)
Lemma drain_empties {A} fuel (s : State A) vs s' : drain fuel s = Some (vs, s') -> drain_one s' = None.
Proof.
  revert s vs. induction fuel as [|fuel IH]; intros s vs H; simpl in H; [done|]. destruct (drain_one s) as [[v s1]|] eqn:Hd; [|by simplify_eq].
  apply bind_Some in H as ([vs1 s2] & H & E). simplify_eq. by eapply IH.
Qed.

Lemma ready_count_le {A} (l : list (Slot A)) : (ready_count l <= length l)%nat.
Proof. apply length_filter. Qed.

Lemma Drain_total {A} (s : State A) : is_Some (DrainOnCoordinatorLoop s).
Proof. apply drain_total. pose proof (ready_count_le (slots s)). lia. Qed.

End OutcomeChannel.

Module OutcomeRing.
Import OutcomeChannel.

Section Ring.
Context {A : Type}.

(** A reservation's holder: reserved; then inside [Publish], after the
    [fetch_add] on [head] (claim number [c], counted from the start), after the
    tail check, and after writing the payload.  The claim number read by the
    code is [wrap_u32 c]. *)
Inductive producer :=
  | Held
  | Claimed (c : Z) (v : A)
  | Checked (c : Z) (v : A)
  | Written (c : Z) (v : A).

(** The single consumer inside an iteration of [DrainOnCoordinatorLoop]. *)
Inductive consumer :=
  | CIdle
  | CTaken (v : option A)
  | CAdvanced (v : option A)
  | CConsumed.

(** The shared state, the threads, whether [std::terminate] was called; and, as
    history variables, the outcomes in claim order and the outcomes passed to
    [consume]. *)
Record sys := Sys {
  st : State A;
  producers : gmap nat producer;
  consumer_ : consumer;
  terminated : bool;
  log : list A;
  consumed : list (option A)
}.

Definition slot_at (x : sys) (c : Z) : nat := slot_index (st x) (wrap_u32 c).

Inductive step : sys -> sys -> Prop :=
  | step_reserve x i :
      producers x !! i = None -> accepting (st x) = true -> 0 < available (st x) ->
      step x (Sys (with_available (st x) (available (st x) - 1)) (<[ i := Held ]> (producers x))
                  (consumer_ x) (terminated x) (log x) (consumed x))
  | step_reject x :
      accepting (st x) = false \/ available (st x) = 0 ->
      step x (Sys (with_rejected (st x) (wrap_u64 (rejected (st x) + 1))) (producers x)
                  (consumer_ x) (terminated x) (log x) (consumed x))
  | step_cancel x i :
      producers x !! i = Some Held ->
      step x (Sys (restore (st x)) (delete i (producers x)) (consumer_ x) (terminated x) (log x)
                  (consumed x))
  | step_claim x i v :
      producers x !! i = Some Held ->
      step x (Sys (with_head (st x) (wrap_u32 (head (st x) + 1)))
                  (<[ i := Claimed (Z.of_nat (length (log x))) v ]> (producers x))
                  (consumer_ x) (terminated x) (log x ++ [v]) (consumed x))
  | step_check x i c v :
      producers x !! i = Some (Claimed c v) ->
      step x (if capacity (st x) <=? wrap_u32 (wrap_u32 c - tail (st x))
              then Sys (st x) (producers x) (consumer_ x) true (log x) (consumed x)
              else Sys (st x) (<[ i := Checked c v ]> (producers x)) (consumer_ x) (terminated x)
                       (log x) (consumed x))
  | step_write x i c v y :
      producers x !! i = Some (Checked c v) -> slots (st x) !! slot_at x c = Some y ->
      step x (Sys (with_slot (st x) (slot_at x c) (mkSlot (Some v) (ready y)))
                  (<[ i := Written c v ]> (producers x)) (consumer_ x) (terminated x) (log x)
                  (consumed x))
  | step_ready x i c v y :
      producers x !! i = Some (Written c v) -> slots (st x) !! slot_at x c = Some y ->
      step x (Sys (with_slot (st x) (slot_at x c) (mkSlot (value y) true))
                  (delete i (producers x)) (consumer_ x) (terminated x) (log x) (consumed x))
  | step_take x y :
      consumer_ x = CIdle -> slots (st x) !! slot_index (st x) (tail (st x)) = Some y ->
      ready y = true ->
      step x (Sys (with_slot (st x) (slot_index (st x) (tail (st x))) no_slot) (producers x)
                  (CTaken (value y)) (terminated x) (log x) (consumed x))
  | step_advance x v :
      consumer_ x = CTaken v ->
      step x (Sys (with_tail (st x) (wrap_u32 (tail (st x) + 1))) (producers x) (CAdvanced v)
                  (terminated x) (log x) (consumed x))
  | step_consume x v :
      consumer_ x = CAdvanced v ->
      step x (Sys (st x) (producers x) CConsumed (terminated x) (log x) (consumed x ++ [v]))
  | step_credit x :
      consumer_ x = CConsumed ->
      step x (Sys (restore (st x)) (producers x) CIdle (terminated x) (log x) (consumed x))
  | step_stop x :
      step x (Sys (BeginStopping (st x)) (producers x) (consumer_ x) (terminated x) (log x)
                  (consumed x)).

Definition initial (s : State A) : sys := Sys s ∅ CIdle false [] [].

(** ** The invariant *)

(** Claims made and claims drained, counted from the start. *)
Definition claims (x : sys) : Z := Z.of_nat (length (log x)).

Definition drained (x : sys) : Z :=
  Z.of_nat (length (consumed x)) + match consumer_ x with CAdvanced _ => 1 | _ => 0 end.

Definition is_held (p : producer) : bool := match p with Held => true | _ => false end.

Definition claim_of (p : producer) : option (Z * A) :=
  match p with Held => None | Claimed c v | Checked c v | Written c v => Some (c, v) end.

(** Claim [c] is complete: its flag was raised and not yet taken. *)
Definition published (x : sys) (c : Z) : Prop :=
  drained x <= c < claims x /\
  (forall i p v, producers x !! i = Some p -> claim_of p <> Some (c, v)) /\
  (match consumer_ x with CTaken _ => c <> drained x | _ => True end).

(** The slot of a claim number is the claim number modulo the capacity: the
    claims fit uint32, or the capacity divides 2^32. *)
Definition aligned (x : sys) : Prop :=
  claims x <= u32_modulus \/ (capacity (st x) | u32_modulus).

Record inv (x : sys) : Prop := {
  i_capacity : 0 < capacity (st x) <= kMaxOutcomeCapacity;
  i_length : Z.of_nat (length (slots (st x))) = capacity (st x);
  i_head : head (st x) = wrap_u32 (claims x);
  i_tail : tail (st x) = wrap_u32 (drained x);
  i_available : 0 <= available (st x);
  i_order : drained x <= claims x;
  i_credit : available (st x) + mcount is_held (producers x) + (claims x - drained x)
             + (match consumer_ x with CAdvanced _ | CConsumed => 1 | _ => 0 end)
             = capacity (st x);
  i_producers : forall i p c v, producers x !! i = Some p -> claim_of p = Some (c, v) ->
    drained x <= c < claims x /\ log x !! Z.to_nat c = Some v /\
    (match consumer_ x with CTaken _ => c <> drained x | _ => True end);
  i_distinct : forall i j p q c v w, producers x !! i = Some p -> producers x !! j = Some q ->
    claim_of p = Some (c, v) -> claim_of q = Some (c, w) -> i = j;
  i_ready : forall k y, slots (st x) !! k = Some y ->
    ready y = true <-> exists c, published x c /\ slot_at x c = k;
  i_value : forall c y, published x c -> slots (st x) !! slot_at x c = Some y ->
    value y = log x !! Z.to_nat c;
  i_written : forall i c v y, producers x !! i = Some (Written c v) ->
    slots (st x) !! slot_at x c = Some y -> value y = Some v;
  i_consumed : consumed x = Some <$> take (length (consumed x)) (log x);
  i_consumer : match consumer_ x with
               | CTaken v => drained x < claims x /\ v = log x !! Z.to_nat (drained x)
               | CAdvanced v => v = log x !! length (consumed x)
               | _ => True
               end;
  i_running : terminated x = false
}.

(** ** Slots of live claims *)

Lemma slot_at_mod x c :
  aligned x -> 0 < capacity (st x) -> 0 <= c < claims x ->
  Z.of_nat (slot_at x c) = c mod capacity (st x).
Proof.
  intros Ha Hcap Hc. unfold slot_at, slot_index.
  pose proof (wrap_u32_range c) as Hw.
  rewrite Z.rem_mod_nonneg by mlia. rewrite Z2Nat.id by (apply Z.mod_pos_bound; lia).
  destruct Ha as [Ha|Ha].
  - rewrite wrap_u32_small by mlia. done.
  - unfold wrap_u32. by apply Z.mod_mod_divide.
Qed.

Lemma mod_window_inj m c c' : 0 < m -> Z.abs (c - c') < m -> c mod m = c' mod m -> c = c'.
Proof.
  intros Hm Hd H. pose proof (Z.div_mod c m ltac:(lia)). pose proof (Z.div_mod c' m ltac:(lia)).
  assert (c / m = c' / m); nia.
Qed.

Lemma live_window x : inv x -> 0 <= drained x /\ claims x - drained x <= capacity (st x).
Proof.
  intros []. pose proof (mcount_nonneg is_held (producers x)). unfold drained in *.
  split; destruct (consumer_ x); lia.
Qed.

Lemma slot_at_inj x c c' :
  inv x -> aligned x -> drained x <= c < claims x -> drained x <= c' < claims x ->
  slot_at x c = slot_at x c' -> c = c'.
Proof.
  intros Hx Ha Hc Hc' E. pose proof (live_window x Hx) as [H0 Hw].
  pose proof (i_capacity _ Hx). apply (mod_window_inj (capacity (st x))); [lia|lia|].
  rewrite <- !slot_at_mod by (done || lia). by rewrite E.
Qed.

Lemma slot_at_lookup x c :
  inv x -> aligned x -> 0 <= c < claims x -> is_Some (slots (st x) !! slot_at x c).
Proof.
  intros Hx Ha Hc. pose proof (i_capacity _ Hx). apply lookup_lt_is_Some.
  apply Nat2Z.inj_lt. rewrite (i_length _ Hx), slot_at_mod by (done || lia).
  apply Z.mod_pos_bound. lia.
Qed.

(** Steps that leave the slots and the published claims alone. *)
Lemma ring_frame x x' :
  inv x -> capacity (st x') = capacity (st x) -> slots (st x') = slots (st x) ->
  (forall c, published x' c <-> published x c) -> log x `prefix_of` log x' ->
  (forall k y, slots (st x') !! k = Some y ->
     ready y = true <-> exists c, published x' c /\ slot_at x' c = k) /\
  (forall c y, published x' c -> slots (st x') !! slot_at x' c = Some y ->
     value y = log x' !! Z.to_nat c).
Proof.
  intros Hx Ec Es Hp [k Hk].
  assert (Hsl : forall c, slot_at x' c = slot_at x c)
    by (intros; unfold slot_at, slot_index; by rewrite Ec).
  rewrite Es. split.
  - intros j y Hy. rewrite (i_ready _ Hx j y Hy). split; intros (c & H1 & H2); exists c;
      rewrite ?Hsl in *; (split; [by apply Hp|done]).
  - intros c y Hc Hy. apply Hp in Hc. rewrite Hsl in Hy. rewrite (i_value _ Hx c y Hc Hy), Hk.
    rewrite lookup_app_l; [done|]. destruct Hc as ((Hc1 & Hc2) & _). unfold claims in Hc2.
    pose proof (live_window x Hx). lia.
Qed.

Lemma aligned_mono x x' : step x x' -> aligned x' -> aligned x.
Proof.
  intros Hs. unfold aligned, claims. destruct Hs; simpl; try done.
  - rewrite length_app; simpl. intros [?|?]; [left; lia|by right].
  - by destruct (_ <=? _).
Qed.

(** Reserving, rejecting, cancelling and stopping. *)
Lemma reserve_inv x i :
  inv x -> producers x !! i = None -> 0 < available (st x) ->
  inv (Sys (with_available (st x) (available (st x) - 1)) (<[ i := Held ]> (producers x))
           (consumer_ x) (terminated x) (log x) (consumed x)).
Proof.
  intros Hx Hi Ha. set (x' := Sys _ _ _ _ _ _).
  assert (Hpr : forall j p c v, <[ i := Held ]> (producers x) !! j = Some p ->
            claim_of p = Some (c, v) -> producers x !! j = Some p).
  { intros j p c v [[<- <-]|[_ Hj]]%lookup_insert_Some Hc; done. }
  destruct (ring_frame x x' Hx) as [F1 F2]; [done|done| |reflexivity|].
  { intros c. unfold published. split; intros (H1 & H2 & H3); (split; [done|split; [|done]]).
    - intros j p v Hj Hc. destruct (decide (i = j)) as [<-|Hne]; [congruence|].
      apply (H2 j p v); [|done]. by apply lookup_insert_Some; right.
    - intros j p v Hj Hc. eapply H2; [|exact Hc]. by eapply Hpr. }
  destruct Hx; split; try done; simpl.
  - lia.
  - change (claims x') with (claims x). change (drained x') with (drained x).
    rewrite mcount_insert_new by done. simpl. lia.
  - intros j p c v Hj Hc. eapply i_producers0; [by eapply Hpr|done].
  - intros j k p q c v w Hj Hk Hp Hq. eapply (i_distinct0 j k); eauto.
  - intros j c v y Hj. eapply i_written0. by eapply (Hpr j (Written c v)).
Qed.

Lemma status_inv x (s : State A) :
  inv x -> capacity s = capacity (st x) -> slots s = slots (st x) -> head s = head (st x) ->
  tail s = tail (st x) -> available s = available (st x) ->
  inv (Sys s (producers x) (consumer_ x) (terminated x) (log x) (consumed x)).
Proof.
  intros Hx E1 E2 E3 E4 E5. set (x' := Sys _ _ _ _ _ _).
  destruct (ring_frame x x' Hx) as [F1 F2]; [done|done|done|reflexivity|].
  assert (Hsl : forall c, slot_at x' c = slot_at x c)
    by (intros; unfold slot_at, slot_index; simpl; by rewrite E1).
  destruct Hx; split; try done; simpl; rewrite ?E1, ?E2, ?E3, ?E4, ?E5; try done.
  intros i c v y Hi. rewrite Hsl. by eapply i_written0.
Qed.

(** Restoring a credit stays below the capacity, so it does not wrap. *)
Lemma restore_available (s : State A) :
  0 <= available s < u32_modulus - 1 -> available (restore s) = available s + 1.
Proof. intros H. unfold restore; simpl. apply wrap_u32_small. mlia. Qed.

Lemma available_small x : inv x -> available (st x) <= kMaxOutcomeCapacity.
Proof.
  intros []. pose proof (mcount_nonneg is_held (producers x)). destruct (consumer_ x); lia.
Qed.

Lemma cancel_inv x i :
  inv x -> producers x !! i = Some Held ->
  inv (Sys (restore (st x)) (delete i (producers x)) (consumer_ x) (terminated x) (log x) (consumed x)).
Proof.
  intros Hx Hi. pose proof (available_small x Hx) as Hsm. pose proof (i_available _ Hx) as Hav.
  pose proof (restore_available (st x) ltac:(unfold kMaxOutcomeCapacity in *; mlia)) as Hre.
  set (x' := Sys _ _ _ _ _ _).
  destruct (ring_frame x x' Hx) as [F1 F2]; [done|done| |reflexivity|].
  { intros c. unfold published. change (producers x') with (delete i (producers x)). split; intros (H1 & H2 & H3); (split; [done|split; [|done]]).
    - intros j p v Hj Hc. destruct (decide (i = j)) as [<-|Hne]; [naive_solver|].
      apply (H2 j p v); [|done]. by apply lookup_delete_Some.
    - intros j p v [_ Hj]%lookup_delete_Some Hc. by eapply H2. }
  destruct Hx; split; try done; simpl.
  - simpl in Hre. lia.
  - change (claims x') with (claims x). change (drained x') with (drained x).
    simpl in Hre. rewrite Hre, (mcount_delete _ _ _ _ Hi). simpl. lia.
  - intros j p c v [_ Hj]%lookup_delete_Some Hc. by eapply i_producers0.
  - intros j k p q c v w [_ Hj]%lookup_delete_Some [_ Hk]%lookup_delete_Some. by apply i_distinct0.
  - intros j c v y [_ Hj]%lookup_delete_Some. by eapply i_written0.
Qed.

Lemma claim_inv x i v :
  inv x -> producers x !! i = Some Held ->
  inv (Sys (with_head (st x) (wrap_u32 (head (st x) + 1)))
           (<[ i := Claimed (claims x) v ]> (producers x))
           (consumer_ x) (terminated x) (log x ++ [v]) (consumed x)).
Proof.
  intros Hx Hi. pose proof (mcount_pos is_held _ _ _ Hi eq_refl) as Hheld.
  set (x' := Sys _ _ _ _ _ _).
  assert (Hcl : claims x' = claims x + 1)
    by (unfold claims; simpl; rewrite length_app; simpl; lia).
  change (drained x') with (drained x) in *.
  assert (Hpr : forall j p c w, <[ i := Claimed (claims x) v ]> (producers x) !! j = Some p ->
            claim_of p = Some (c, w) ->
            (i = j /\ c = claims x /\ w = v) \/ (i <> j /\ producers x !! j = Some p)).
  { intros j p c w [[<- <-]|[Hne Hj]]%lookup_insert_Some Hc; [left; naive_solver|by right]. }
  destruct (ring_frame x x' Hx) as [F1 F2]; [done|done| |by exists [v]|].
  { intros c. unfold published. rewrite Hcl.
    change (producers x') with (<[ i := Claimed (claims x) v ]> (producers x)). change (drained x') with (drained x).
    split; intros (H1 & H2 & H3).
    - assert (c <> claims x).
      { intros ->. eapply (H2 i); [apply lookup_insert_eq|done]. }
      split; [lia|]. split; [|done]. intros j p w Hj Hc.
      destruct (decide (i = j)) as [<-|Hne]; [naive_solver|].
      apply (H2 j p w); [|done]. by rewrite lookup_insert_ne.
    - split; [lia|]. split; [|done]. intros j p w Hj Hc.
      destruct (Hpr j p c w Hj Hc) as [(_ & -> & _)|[_ Hj']]; [lia|by eapply H2]. }
  pose proof (i_order _ Hx) as Hord. pose proof (live_window x Hx) as [Hdr0 _].
  assert (Hlog : forall c, 0 <= c < claims x -> (log x ++ [v]) !! Z.to_nat c = log x !! Z.to_nat c).
  { intros c Hc. apply lookup_app_l. unfold claims in Hc. lia. }
  destruct Hx; split; try done; simpl; rewrite ?Hcl; change (drained x') with (drained x).
  - rewrite i_head0. unfold wrap_u32. rewrite Zplus_mod_idemp_l. done.
  - lia.
  - rewrite (mcount_insert _ _ _ _ _ Hi). simpl. lia.
  - intros j p c w Hj Hc. destruct (Hpr j p c w Hj Hc) as [(_ & -> & ->)|[_ Hj']].
    + split; [lia|]. split.
      * unfold claims. rewrite Nat2Z.id. by apply list_lookup_middle.
      * destruct (consumer_ x); try done. lia.
    + destruct (i_producers0 j p c w Hj' Hc) as (P1 & P2 & P3). split; [lia|].
      split; [by rewrite Hlog by lia|done].
  - intros j k p q c w u Hj Hk Hp Hq.
    destruct (Hpr j p c w Hj Hp) as [(<- & -> & _)|[_ Hj']],
             (Hpr k q _ u Hk Hq) as [(<- & Hc & _)|[_ Hk']]; try done.
    + destruct (i_producers0 k q _ u Hk' Hq). lia.
    + subst c. destruct (i_producers0 j p _ w Hj' Hp). lia.
    + by eapply i_distinct0.
  - intros j c w y Hj Hy. destruct (Hpr j _ c w Hj eq_refl) as [(<- & _)|[_ Hj']].
    + rewrite lookup_insert_eq in Hj. done.
    + by eapply i_written0.
  - rewrite take_app_le; [done|]. revert Hord. unfold drained, claims. destruct (consumer_ x); lia.
  - unfold drained in *. destruct (consumer_ x); try done.
    + destruct i_consumer0 as [C1 C2]. split; [lia|]. by rewrite Hlog by lia.
    + rewrite lookup_app_l; [done|]. unfold claims in *. lia.
Qed.

(** The tail check of [Enqueue] always passes. *)
Lemma check_passes x i c v :
  inv x -> producers x !! i = Some (Claimed c v) ->
  (capacity (st x) <=? wrap_u32 (wrap_u32 c - tail (st x))) = false.
Proof.
  intros Hx Hi. destruct (i_producers _ Hx i _ c v Hi eq_refl) as (Hc & _).
  pose proof (live_window x Hx) as [H0 Hw]. pose proof (i_capacity _ Hx) as Hcap.
  rewrite (i_tail _ Hx). apply Z.leb_gt. unfold wrap_u32.
  rewrite Zminus_mod_idemp_l, Zminus_mod_idemp_r.
  rewrite Z.mod_small by (unfold kMaxOutcomeCapacity in *; mlia). lia.
Qed.

(** A producer moves to its next phase with the same claim. *)
Lemma phase_inv x i p p' (s : State A) :
  inv x -> aligned x -> producers x !! i = Some p -> claim_of p' = claim_of p -> is_held p = false ->
  is_held p' = false ->
  capacity s = capacity (st x) -> head s = head (st x) -> tail s = tail (st x) ->
  available s = available (st x) ->
  (s = st x /\ (forall c v, p' = Written c v -> p = Written c v) \/
   exists c v y, p' = Written c v /\ slots (st x) !! slot_at x c = Some y /\
     slots s = <[ slot_at x c := mkSlot (Some v) (ready y) ]> (slots (st x))) ->
  inv (Sys s (<[ i := p' ]> (producers x)) (consumer_ x) (terminated x) (log x) (consumed x)).
Proof.
  intros Hx Hal Hi Hcl Hh Hh' E1 E2 E3 E4 Hs. set (x' := Sys _ _ _ _ _ _).
  assert (Hpr : forall j q c v, <[ i := p' ]> (producers x) !! j = Some q -> claim_of q = Some (c, v) ->
            exists q', producers x !! j = Some q' /\ claim_of q' = Some (c, v)).
  { intros j q c v [[<- <-]|[_ Hj]]%lookup_insert_Some Hc; [exists p; split; congruence|by exists q]. }
  assert (Hsl : forall c, slot_at x' c = slot_at x c)
    by (intros; unfold slot_at, slot_index; simpl; by rewrite E1).
  assert (Hpub : forall c, published x' c <-> published x c).
  { intros c. unfold published. change (producers x') with (<[ i := p' ]> (producers x)).
    change (claims x') with (claims x). change (drained x') with (drained x).
    split; intros (H1 & H2 & H3); (split; [done|split; [|done]]).
    - intros j q v Hj Hc. destruct (decide (i = j)) as [<-|Hne].
      + simplify_eq. apply (H2 i p' v); [apply lookup_insert_eq|congruence].
      + apply (H2 j q v); [|done]. by rewrite lookup_insert_ne.
    - intros j q v Hj Hc. destruct (Hpr j q c v Hj Hc) as (q' & Hq' & Hc'). by eapply H2. }
  (* the written slot is not the slot of a published claim *)
  assert (Hslots : forall k y, slots s !! k = Some y -> exists y0, slots (st x) !! k = Some y0 /\
            ready y = ready y0 /\ (forall c, published x c -> slot_at x c = k -> value y = value y0)).
  { destruct Hs as [[-> _]|(c & v & y1 & -> & Hy1 & ->)]; [intros k y Hy; by exists y|].
    intros k y Hy. apply list_lookup_insert_Some in Hy as [(<- & <- & _)|(Hne & Hy)]; [|by exists y].
    exists y1. split_and!; [done|done|]. intros c' Hc' Ek.
    destruct (i_producers _ Hx i p c v Hi) as (Hlive & _); [by rewrite <- Hcl|].
    assert (c' = c) as -> by (eapply slot_at_inj; [done|done|apply Hc'|done|done]).
    destruct Hc' as (_ & Hno & _). exfalso. eapply Hno; [exact Hi|]. by rewrite <- Hcl. }
  pose proof (slot_at_inj x) as Hinj. specialize (fun c c' => Hinj c c' Hx Hal).
  destruct Hx; split; try done; simpl; rewrite ?E1, ?E2, ?E3, ?E4;
    change (claims x') with (claims x); change (drained x') with (drained x); try done.
  - destruct Hs as [[-> _]|(c & v & y1 & _ & _ & ->)]; [done|]. by rewrite length_insert.
  - rewrite (mcount_insert _ _ _ _ _ Hi), Hh, Hh'. lia.
  - intros j q c v Hj Hc. destruct (Hpr j q c v Hj Hc) as (q' & Hq' & Hc'). by eapply i_producers0.
  - intros j k q1 q2 c v w Hj Hk Hc1 Hc2.
    destruct (Hpr j q1 c v Hj Hc1) as (q1' & H1 & H1'), (Hpr k q2 c w Hk Hc2) as (q2' & H2 & H2').
    by eapply i_distinct0.
  - intros k y Hy. destruct (Hslots k y Hy) as (y0 & Hy0 & -> & _). rewrite (i_ready0 k y0 Hy0).
    split; intros (c & H1 & H2); exists c; rewrite ?Hsl in *; (split; [by apply Hpub|done]).
  - intros c y Hc Hy. apply Hpub in Hc. rewrite Hsl in Hy.
    destruct (Hslots _ y Hy) as (y0 & Hy0 & _ & Hv). rewrite (Hv c Hc eq_refl). by apply i_value0.
  - intros j c v y Hj Hy. rewrite Hsl in Hy. destruct Hs as [[-> Hw]|(c1 & v1 & y1 & -> & Hy1 & Es)].
    + apply lookup_insert_Some in Hj as [[<- E]|[_ Hj]]; [|by eapply i_written0].
      apply Hw in E. subst p. by eapply i_written0.
    + rewrite Es in Hy. apply lookup_insert_Some in Hj as [[<- E]|[Hne Hj]].
      * simplify_eq. rewrite list_lookup_insert_eq in Hy by (by eapply lookup_lt_Some). by simplify_eq.
      * apply list_lookup_insert_Some in Hy as [(Ek & <- & _)|(_ & Hy)]; [|by eapply i_written0].
        destruct (i_producers0 j _ c v Hj eq_refl) as (L1 & _).
        destruct (i_producers0 i p c1 v1 Hi ltac:(by rewrite <- Hcl)) as (L2 & _).
        assert (c1 = c) as -> by (by apply Hinj).
        exfalso. apply Hne. eapply i_distinct0; [exact Hi|exact Hj|by rewrite <- Hcl|done].
Qed.

Lemma ready_inv x i c v y :
  inv x -> aligned x -> producers x !! i = Some (Written c v) ->
  slots (st x) !! slot_at x c = Some y ->
  inv (Sys (with_slot (st x) (slot_at x c) (mkSlot (value y) true)) (delete i (producers x))
           (consumer_ x) (terminated x) (log x) (consumed x)).
Proof.
  intros Hx Hal Hi Hy. set (x' := Sys _ _ _ _ _ _).
  destruct (i_producers _ Hx i _ c v Hi eq_refl) as (Hlive & Hlog & Hcon).
  assert (Hsl : forall c, slot_at x' c = slot_at x c) by done.
  assert (Hpub : forall c', published x' c' <-> published x c' \/ c' = c).
  { intros c'. unfold published. change (claims x') with (claims x).
    change (drained x') with (drained x). change (producers x') with (delete i (producers x)).
    change (consumer_ x') with (consumer_ x). split.
    - intros (H1 & H2 & H3). destruct (decide (c' = c)) as [->|Hne]; [by right|left].
      split; [done|split; [|done]]. intros j p w Hj Hc. destruct (decide (i = j)) as [<-|Hij].
      + naive_solver.
      + apply (H2 j p w); [by apply lookup_delete_Some|done].
    - intros [(H1 & H2 & H3)| ->]; (split; [done|split; [|done]]).
      + intros j p w [_ Hj]%lookup_delete_Some. by eapply H2.
      + intros j p w [Hij Hj]%lookup_delete_Some Hc. apply Hij.
        by eapply (i_distinct _ Hx); [exact Hi|exact Hj| |exact Hc]. }
  pose proof (fun c1 c2 => slot_at_inj x c1 c2 Hx Hal) as Hinj.
  pose proof (i_written _ Hx i c v y Hi Hy) as Hval.
  destruct Hx; split; try done; simpl.
  - by rewrite length_insert.
  - change (claims x') with (claims x). change (drained x') with (drained x).
    rewrite (mcount_delete _ _ _ _ Hi). simpl. lia.
  - intros j p c1 w [_ Hj]%lookup_delete_Some. by eapply i_producers0.
  - intros j k p q c1 w u [_ Hj]%lookup_delete_Some [_ Hk]%lookup_delete_Some. by apply i_distinct0.
  - intros k z Hz. apply list_lookup_insert_Some in Hz as [(<- & <- & _)|(Hne & Hz)].
    + simpl. split; [|done]. intros _. exists c. split; [apply Hpub; by right|done].
    + rewrite (i_ready0 k z Hz). split; intros (c1 & H1 & H2).
      * exists c1. split; [apply Hpub; by left|done].
      * apply Hpub in H1 as [H1| ->]; [by exists c1|]. by rewrite Hsl in H2.
  - intros c1 z Hc1 Hz. rewrite Hsl in Hz. apply Hpub in Hc1 as [Hc1| ->].
    + apply list_lookup_insert_Some in Hz as [(E & _)|(_ & Hz)]; [|by apply i_value0].
      assert (c = c1) as <- by (apply Hinj; [done|apply Hc1|done]).
      destruct Hc1 as (_ & Hno & _). exfalso. by eapply (Hno i).
    + rewrite list_lookup_insert_eq in Hz by (by eapply lookup_lt_Some). simplify_eq/=. congruence.
  - intros j c1 w z [Hij Hj]%lookup_delete_Some Hz. rewrite Hsl in Hz.
    apply list_lookup_insert_Some in Hz as [(E & _)|(_ & Hz)]; [|by eapply i_written0].
    destruct (i_producers0 j _ c1 w Hj eq_refl) as (L1 & _).
    assert (c = c1) as <- by (by apply Hinj). exfalso. apply Hij. by eapply i_distinct0.
Qed.

Lemma take_inv x y :
  inv x -> aligned x -> consumer_ x = CIdle ->
  slots (st x) !! slot_index (st x) (tail (st x)) = Some y -> ready y = true ->
  inv (Sys (with_slot (st x) (slot_index (st x) (tail (st x))) no_slot) (producers x)
           (CTaken (value y)) (terminated x) (log x) (consumed x)).
Proof.
  intros Hx Hal Hcon Hy Hr. pose proof (live_window x Hx) as [Hd0 _].
  assert (Et : slot_index (st x) (tail (st x)) = slot_at x (drained x))
    by (unfold slot_at; by rewrite (i_tail _ Hx)).
  rewrite Et in *. set (x' := Sys _ _ _ _ _ _).
  pose proof (fun c1 c2 => slot_at_inj x c1 c2 Hx Hal) as Hinj.
  assert (Hp0 : published x (drained x)).
  { apply (i_ready _ Hx _ _ Hy) in Hr as (c & Hc & E).
    assert (c = drained x) as <-; [|done].
    pose proof (proj1 Hc) as Hr. apply Hinj; [lia|lia|done]. }
  assert (Hdr : drained x' = drained x) by (unfold drained; simpl; by rewrite Hcon).
  assert (Hsl : forall c, slot_at x' c = slot_at x c) by done.
  assert (Hpub : forall c, published x' c <-> published x c /\ c <> drained x).
  { intros c. unfold published. rewrite Hdr, Hcon. change (claims x') with (claims x).
    change (producers x') with (producers x). simpl consumer_. cbn iota. naive_solver. }
  assert (Hnot : forall i p c v, producers x !! i = Some p -> claim_of p = Some (c, v) -> c <> drained x).
  { intros i p c v Hi Hc ->. destruct Hp0 as (_ & Hno & _). by eapply Hno. }
  pose proof (i_value _ Hx _ _ Hp0 Hy) as Hv.
  destruct Hx; split; try done; simpl; rewrite ?Hdr; try done.
  - by rewrite length_insert.
  - rewrite Hcon in i_credit0. done.
  - intros i p c v Hi Hc. destruct (i_producers0 i p c v Hi Hc) as (P1 & P2 & _).
    split; [done|split; [done|]]. by eapply Hnot.
  - intros k z Hz. apply list_lookup_insert_Some in Hz as [(<- & <- & _)|(Hne & Hz)].
    + simpl. split; [done|]. intros (c & Hc & E). rewrite Hsl in E. apply Hpub in Hc as [Hc Hcd].
      exfalso. apply Hcd. apply Hinj; [apply Hc|apply Hp0|done].
    + rewrite (i_ready0 k z Hz). split; intros (c & H1 & H2).
      * exists c. split; [|done]. apply Hpub. split; [done|]. intros ->. done.
      * apply Hpub in H1 as [H1 _]. by exists c.
  - intros c z Hc Hz. rewrite Hsl in Hz. apply Hpub in Hc as [Hc Hcd].
    apply list_lookup_insert_Some in Hz as [(E & _)|(_ & Hz)]; [|by apply i_value0].
    exfalso. apply Hcd. symmetry. apply Hinj; [apply Hp0|apply Hc|done].
  - intros i c v z Hi Hz. rewrite Hsl in Hz.
    apply list_lookup_insert_Some in Hz as [(E & _)|(_ & Hz)]; [|by eapply i_written0].
    exfalso. eapply (Hnot i); [done|done|]. symmetry.
    apply Hinj; [apply Hp0|by eapply (i_producers0 i)|done].
  - split; [|done]. destruct Hp0 as [Hr' _]. change (claims x') with (claims x). lia.
Qed.

Lemma advance_inv x v :
  inv x -> consumer_ x = CTaken v ->
  inv (Sys (with_tail (st x) (wrap_u32 (tail (st x) + 1))) (producers x) (CAdvanced v)
           (terminated x) (log x) (consumed x)).
Proof.
  intros Hx Hcon. set (x' := Sys _ _ _ _ _ _).
  assert (Hdr : drained x' = drained x + 1) by (unfold drained; simpl; rewrite Hcon; lia).
  assert (Hdc : drained x = Z.of_nat (length (consumed x))) by (unfold drained; rewrite Hcon; lia).
  pose proof (i_consumer _ Hx) as Hc. rewrite Hcon in Hc. destruct Hc as [Hlt Hv].
  destruct (ring_frame x x' Hx) as [F1 F2]; [done|done| |reflexivity|].
  { intros c. unfold published. rewrite Hdr, Hcon. change (claims x') with (claims x).
    change (producers x') with (producers x). simpl consumer_. cbn iota. split.
    - intros (H1 & H2 & _). split; [lia|split; [done|lia]].
    - intros (H1 & H2 & H3). split; [lia|split; done]. }
  destruct Hx; split; try done; simpl; rewrite ?Hdr; change (claims x') with (claims x).
  - rewrite i_tail0. unfold wrap_u32. by rewrite Zplus_mod_idemp_l.
  - lia.
  - rewrite Hcon in i_credit0. lia.
  - intros i p c w Hi Hc. destruct (i_producers0 i p c w Hi Hc) as (P1 & P2 & P3).
    rewrite Hcon in P3. split; [lia|done].
  - by rewrite Hv, Hdc, Nat2Z.id.
Qed.

Lemma consume_inv x v :
  inv x -> consumer_ x = CAdvanced v ->
  inv (Sys (st x) (producers x) CConsumed (terminated x) (log x) (consumed x ++ [v])).
Proof.
  intros Hx Hcon. set (x' := Sys _ _ _ _ _ _).
  assert (Hdr : drained x' = drained x)
    by (unfold drained; simpl; rewrite Hcon, length_app; simpl; lia).
  pose proof (i_consumer _ Hx) as Hv. rewrite Hcon in Hv.
  destruct (ring_frame x x' Hx) as [F1 F2]; [done|done| |reflexivity|].
  { intros c. unfold published. rewrite Hdr, Hcon. done. }
  pose proof (i_order _ Hx) as Hord. unfold drained, claims in Hord. rewrite Hcon in Hord.
  destruct (lookup_lt_is_Some_2 (log x) (length (consumed x))) as [a Ha]; [lia|].
  destruct Hx; split; try done; simpl; rewrite ?Hdr; try done.
  - rewrite Hcon in i_credit0. done.
  - intros i p c w Hi Hc. by destruct (i_producers0 i p c w Hi Hc) as (P1 & P2 & P3).
  - rewrite length_app, Nat.add_1_r, (take_S_r _ _ a Ha), fmap_app, <- i_consumed0. simpl.
    by rewrite Hv, Ha.
Qed.

Lemma credit_inv x :
  inv x -> consumer_ x = CConsumed ->
  inv (Sys (restore (st x)) (producers x) CIdle (terminated x) (log x) (consumed x)).
Proof.
  intros Hx Hcon. pose proof (available_small x Hx) as Hsm. pose proof (i_available _ Hx) as Hav.
  pose proof (restore_available (st x) ltac:(unfold kMaxOutcomeCapacity in *; mlia)) as Hre.
  set (x' := Sys _ _ _ _ _ _).
  assert (Hdr : drained x' = drained x) by (unfold drained; simpl; by rewrite Hcon).
  destruct (ring_frame x x' Hx) as [F1 F2]; [done|done| |reflexivity|].
  { intros c. unfold published. rewrite Hdr, Hcon. done. }
  simpl in Hre.
  destruct Hx; split; try done; simpl; rewrite ?Hdr, ?Hre; change (claims x') with (claims x); try done.
  - lia.
  - rewrite Hcon in i_credit0. lia.
  - intros i p c w Hi Hc. by destruct (i_producers0 i p c w Hi Hc) as (P1 & P2 & P3).
Qed.

Lemma step_inv x x' : inv x -> aligned x -> step x x' -> inv x'.
Proof.
  intros Hx Hal Hs. destruct Hs.
  - by apply reserve_inv.
  - by apply status_inv.
  - by apply cancel_inv.
  - by apply claim_inv.
  - rewrite (check_passes x i c v) by done.
    eapply phase_inv; try done. left. split; [done|]. intros; simplify_eq.
  - eapply phase_inv; try done. right. exists c, v, y. done.
  - by eapply ready_inv.
  - by apply take_inv.
  - by apply advance_inv.
  - by apply consume_inv.
  - by apply credit_inv.
  - by apply status_inv.
Qed.

Lemma initial_inv capacity s : 0 <= capacity -> make capacity = Some s -> inv (initial s).
Proof.
  unfold make. intros Hc. destruct (Z.eqb_spec capacity 0), (Z.ltb_spec kMaxOutcomeCapacity capacity);
    simpl; intros; simplify_eq.
  split; simpl; unfold claims, drained; simpl; rewrite ?length_replicate; try done; try lia.
  - rewrite mcount_empty. lia.
  - intros k y Hy. apply lookup_replicate in Hy as [-> _]. simpl. split; [done|].
    intros (c & (Hc1 & _) & _). unfold claims, drained in Hc1; simpl in Hc1. lia.
  - intros c y (Hc1 & _). unfold claims, drained in Hc1; simpl in Hc1. lia.
Qed.

Lemma steps_inv x x' : rtc step x x' -> inv x -> aligned x' -> inv x' /\ aligned x.
Proof.
  intros Hs. induction Hs as [x|x y z Hxy Hyz IH]; intros Hx Ha; [done|].
  assert (aligned y) as Hay.
  { clear - Hyz Ha. induction Hyz as [|? ? ? H _ IH]; [done|]. eapply aligned_mono; eauto. }
  pose proof (aligned_mono _ _ Hxy Hay) as Hax. split; [|done].
  apply IH; [by eapply step_inv|done].
Qed.

End Ring.

(** In every interleaving of any number of producers with the consumer and
    [BeginStopping], while the claims fit the ring's index arithmetic: the
    overflow [std::terminate] is never reached; the credits are conserved; the
    outcomes consumed are exactly the claimed ones in claim order, each once;
    and a consumer that finds the next slot empty while no publication is in
    progress has consumed every outcome. *)
Theorem outcomes_exactly_once {A} cap (s : State A) x :
  0 <= cap -> make cap = Some s -> rtc step (initial s) x -> aligned x ->
  terminated x = false /\
  consumed x = Some <$> take (length (consumed x)) (log x) /\
  0 <= available (st x) /\
  available (st x) + mcount is_held (producers x) + (claims x - drained x) <= cap /\
  (consumer_ x = CIdle -> (forall i p, producers x !! i = Some p -> p = Held) ->
   (forall y, slots (st x) !! slot_index (st x) (tail (st x)) = Some y -> ready y = false) ->
   consumed x = Some <$> log x).
Proof.
  intros Hcap Hm Hrun Hal.
  destruct (steps_inv _ _ Hrun (initial_inv _ _ Hcap Hm) Hal) as [Hx _].
  assert (capacity (st x) = cap) as Ecap.
  { eapply (rtc_preserves step (fun x => capacity (st x) = cap)); [|exact Hrun|].
    - intros y z E Hs. destruct Hs; simpl; try done. by destruct (_ <=? _).
    - unfold make in Hm. by destruct (_ || _); simplify_eq/=. }
  split; [apply Hx|]. split; [apply Hx|]. split; [apply Hx|]. split.
  { pose proof (i_credit _ Hx). destruct (consumer_ x); lia. }
  intros Hid Hheld Hempty.
  assert (Hall : drained x = claims x).
  { pose proof (i_order _ Hx). destruct (decide (drained x < claims x)) as [Hlt|]; [|lia].
    pose proof (live_window x Hx) as [H0 _].
    destruct (slot_at_lookup x (drained x) Hx Hal ltac:(lia)) as [y Hy].
    assert (Hr : ready y = true).
    { apply (i_ready _ Hx _ _ Hy). exists (drained x). split; [|done].
      split; [lia|split; [|by rewrite Hid]]. intros i p v Hi Hc. apply Hheld in Hi. by subst p. }
    rewrite (Hempty y) in Hr; [done|]. rewrite (i_tail _ Hx). exact Hy. }
  unfold drained, claims in Hall. rewrite Hid in Hall.
  rewrite (i_consumed _ Hx) at 1. by rewrite firstn_all2 by lia.
Qed.

Lemma outcomes_exactly_once_witness :
  exists s x, make 2 = Some s /\ rtc step (initial s) x /\ log x = [7] /\
    terminated x = false /\ consumed x = Some <$> take (length (consumed x)) (log x).
Proof.
  eexists (mkState true 2 0 0 0 2 [no_slot; no_slot]), _. split; [reflexivity|].
  assert (H : forall x, rtc step (initial (mkState true 2 0 0 0 2 [no_slot; no_slot])) x ->
            log x = [7] ->
            rtc step (initial (mkState true 2 0 0 0 2 [no_slot; no_slot])) x /\ log x = [7] /\
            terminated x = false /\ consumed x = Some <$> take (length (consumed x)) (log x)).
  { intros x Hr Hl.
    destruct (outcomes_exactly_once 2 (mkState true 2 0 0 0 2 [no_slot; no_slot]) x
                ltac:(lia) eq_refl Hr) as (H1 & H2 & _).
    - left. unfold claims. rewrite Hl. by vm_compute.
    - exact (conj Hr (conj Hl (conj H1 H2))). }
  apply H.
  - run_step ltac:(apply (step_reserve _ 0)).
    run_step ltac:(apply (step_claim _ 0 7)).
    run_step ltac:(apply (step_check _ 0 0 7)).
    run_step ltac:(apply (step_write _ 0 0 7 no_slot)).
    run_step ltac:(apply (step_ready _ 0 0 7 (mkSlot (Some 7) false))).
    run_step ltac:(apply (step_take _ (mkSlot (Some 7) true))).
    run_step ltac:(apply (step_advance _ (Some 7))).
    run_step ltac:(apply (step_consume _ (Some 7))).
    run_step ltac:(apply step_credit).
    apply rtc_refl.
  - reflexivity.
Defined.

(** ** The index wrap

    [head] and [tail] are uint32 and are reduced modulo the capacity only when
    they index the ring; where the capacity does not divide 2^32 the slot
    sequence jumps when they wrap. *)

(** One outcome reserved, published and drained. *)
Definition round {A} (s s' : State A) : Prop :=
  exists v s1, TryReserve s = (true, s1) /\
    (Enqueue v s1 ≫= DrainOnCoordinatorLoop) = Some ([Some v], s').

Definition idle {A} (n : Z) : State A :=
  mkState true 3 (wrap_u32 n) (wrap_u32 n) 0 3 [no_slot; no_slot; no_slot].

Lemma idle_index {A} n : exists k, (k = 0 \/ k = 1 \/ k = 2)%nat /\
  forall X : State A, capacity X = 3 -> slot_index X (wrap_u32 n) = k.
Proof.
  exists (Z.to_nat (Z.rem (wrap_u32 n) 3)). split.
  - pose proof (wrap_u32_range n).
    pose proof (Z.rem_bound_pos (wrap_u32 n) 3 ltac:(mlia) ltac:(lia)). lia.
  - intros X E. unfold slot_index. by rewrite E.
Qed.

#[local] Arguments slot_index : simpl never.
#[local] Arguments wrap_u32 : simpl never.

Lemma idle_round {A} (v : A) n : round (idle n : State A) (idle (n + 1)).
Proof.
  exists v, (with_available (idle n) 2). split; [done|].
  assert (Hs : wrap_u32 (wrap_u32 n + 1) = wrap_u32 (n + 1))
    by (unfold wrap_u32; apply Zplus_mod_idemp_l).
  destruct (@idle_index A n) as (k & Hk & Ek), (@idle_index A (n + 1)) as (k' & Hk' & Ek').
  unfold Enqueue; simpl. rewrite Z.sub_diag, Hs. change (3 <=? wrap_u32 0) with false.
  cbn iota. rewrite Ek by done. simpl.
  unfold DrainOnCoordinatorLoop, with_slot; simpl. rewrite length_insert; simpl.
  unfold drain_one at 1; simpl. rewrite Ek by done.
  destruct Hk as [->|[->| ->]]; simpl; unfold drain_one at 1; simpl; rewrite Hs, Ek' by done;
    destruct Hk' as [->|[->| ->]]; simpl; done.
Qed.

Lemma idle_reachable {A} (v : A) n : rtc round (idle 0 : State A) (idle (Z.of_nat n)).
Proof.
  induction n as [|n IH]; [apply rtc_refl|]. eapply rtc_r; [exact IH|].
  replace (Z.of_nat (S n)) with (Z.of_nat n + 1) by lia. by apply idle_round.
Qed.

(** Publishing with a fresh reservation. *)
Definition publish_one {A} (v : A) (s : State A) : option (State A) :=
  let '(ok, s) := TryReserve s in if ok then Enqueue v s else None.

(** The ring breaks when its uint32 indices wrap and the capacity does not
    divide 2^32: with capacity 3, after 2^32 - 1 regular outcomes two outcomes
    published before a drain share a slot; the first is lost, and although two
    further outcomes can still be published, the consumer never sees them and
    every later reservation is rejected. *)
Theorem ring_wrap_loses_outcomes (a b c d : Z) :
  exists s0 s s1 s2 s3 s4, make 3 = Some s0 /\ rtc round s0 s /\
    publish_one a s = Some s1 /\ publish_one b s1 = Some s2 /\
    DrainOnCoordinatorLoop s2 = Some ([Some b], s3) /\
    (publish_one c s3 ≫= publish_one d) = Some s4 /\
    DrainOnCoordinatorLoop s4 = Some ([], s4) /\ (TryReserve s4).1 = false.
Proof.
  exists (idle 0), (idle (u32_modulus - 1)). eexists _, _, _, _.
  split; [reflexivity|]. split.
  { pose proof (idle_reachable a (Z.to_nat (u32_modulus - 1))) as H.
    by rewrite Z2Nat.id in H by mlia. }
  do 5 (split; [lazy; reflexivity|]). lazy. reflexivity.
Qed.

End OutcomeRing.
