(* ===== verification/OutcomeWake.v ===== *)
(** * Outcomes reach the coordinator

    Adds to the ring of OutcomeChannel the wake-up of the coordinator: the write
    to the eventfd that ends [Enqueue] (src/src/health/OutcomeChannel.cpp) and the
    callback of the channel's descriptor in OnLoopInit
    (src/src/health/Coordinator.cpp), which reads the counter and then drains. *)

From S2P Require Import Prelude OutcomeChannel.

Module OutcomeWake.
Import OutcomeChannel OutcomeRing.

Section Wake.
Context {A : Type}.

(** The coordinator waits for the descriptor or is in the callback's drain. *)
Inductive mode := Waiting | Draining.

(** The ring, the eventfd's counter being non-zero, the producers that have
    raised their slot's flag and not yet written to the eventfd. *)
Record t := mk { ring : sys (A := A); signalled : bool; writers : nat; at_ : mode }.

Definition start (s : State A) : t := mk (initial s) false 0 Waiting.

Definition flags (x : sys (A := A)) : list bool := ready <$> slots (st x).

(** What [write] on the eventfd answers: it is retried after [WInterrupted], and
    [WAgain] means that the counter is at its greatest value. *)
Inductive write_result := WWrote | WInterrupted | WAgain.

Definition next_slot (x : sys (A := A)) : option (Slot A) := slots (st x) !! slot_index (st x) (tail (st x)).
Definition next_ready (x : sys (A := A)) : bool := from_option ready false (next_slot x).

(** A write to the eventfd. *)
Definition wake_write (r : write_result) (x : t) : t :=
  match r with
  | WInterrupted => x
  | WWrote | WAgain => mk (ring x) true (Nat.pred (writers x)) (at_ x)
  end.

(** The callback reads the counter, which becomes zero, and drains until the next
    slot is not ready. *)
Definition wake_read (x : t) : t := mk (ring x) false (writers x) Draining.
Definition drain_ends (x : t) : t := mk (ring x) (signalled x) (writers x) Waiting.

(** The steps of the coordinator and of producers that are about to write. *)
Inductive delivery : t -> t -> Prop :=
| d_write x r : (0 < writers x)%nat -> (r = WAgain -> signalled x = true) -> delivery x (wake_write r x)
| d_wake x : at_ x = Waiting -> signalled x = true -> delivery x (wake_read x)
| d_drain x y : at_ x = Draining -> step (ring x) y -> consumer_ y <> consumer_ (ring x) -> delivery x (mk y (signalled x) (writers x) Draining)
| d_done x : at_ x = Draining -> consumer_ (ring x) = CIdle -> next_ready (ring x) = false -> delivery x (drain_ends x).

(** With the other steps of the producers: raising a flag, and the rest. *)
Inductive wstep : t -> t -> Prop :=
| w_delivery x x' : delivery x x' -> wstep x x'
| w_ready x i c v y :
    producers (ring x) !! i = Some (Written c v) -> slots (st (ring x)) !! slot_at (ring x) c = Some y ->
    wstep x (mk (Sys (with_slot (st (ring x)) (slot_at (ring x) c) (mkSlot (value y) true)) (delete i (producers (ring x)))
                     (consumer_ (ring x)) (terminated (ring x)) (log (ring x)) (consumed (ring x)))
                (signalled x) (S (writers x)) (at_ x))
| w_producer x y :
    step (ring x) y -> consumer_ y = consumer_ (ring x) -> flags y = flags (ring x) -> wstep x (mk y (signalled x) (writers x) (at_ x)).

(** Every step of the ring is of one of the three kinds. *)
Lemma ring_step_kinds (x y : sys (A := A)) :
  step x y ->
  consumer_ y <> consumer_ x \/ (consumer_ y = consumer_ x /\ flags y = flags x) \/
  exists i c v z, producers x !! i = Some (Written c v) /\ slots (st x) !! slot_at x c = Some z /\
    y = Sys (with_slot (st x) (slot_at x c) (mkSlot (value z) true)) (delete i (producers x)) (consumer_ x) (terminated x) (log x) (consumed x).
Proof.
  intros Hs. destruct Hs as [x i H1 H2 H3|x H|x i H|x i v H|x i c v H|x i c v y H1 H2|x i c v y H1 H2|x y H1 H2 H3|x v H|x v H|x H|x];
    try (right; left; split; reflexivity); try (left; simpl; congruence).
  - right. left. by destruct (_ <=? _).
  - right. left. split; [done|]. unfold flags. simpl. rewrite list_fmap_insert. simpl. apply list_insert_id. by rewrite list_lookup_fmap, H2.
  - right. right. by exists i, c, v, y.
Qed.

Lemma wstep_ring x x' : wstep x x' -> ring x' = ring x \/ step (ring x) (ring x').
Proof.
  intros Hs. destruct Hs as [x x' Hd|x i c v y H1 H2|x y Hs _ _]; [|right; simpl; by eapply step_ready|by right].
  destruct Hd as [x r _ _| | |]; [left; by destruct r|by left|by right|by left].
Qed.

Lemma wsteps_ring x x' : rtc wstep x x' -> rtc step (ring x) (ring x').
Proof.
  induction 1 as [|x y z Hs _ IH]; [done|]. destruct (wstep_ring _ _ Hs) as [E|E]; [by rewrite <- E|by eapply rtc_l].
Qed.

(** ** No wake-up is lost *)

(** A consumer at work is in the callback, and a coordinator that waits while the
    next outcome is ready has a wake-up under way. *)
Definition winv (x : t) : Prop :=
  (consumer_ (ring x) <> CIdle -> at_ x = Draining) /\
  (at_ x = Waiting -> next_ready (ring x) = true -> signalled x = true \/ (0 < writers x)%nat).

Lemma flags_next x y : flags y = flags x -> capacity (st y) = capacity (st x) -> tail (st y) = tail (st x) -> next_ready y = next_ready x.
Proof.
  intros Hf Hc Ht. unfold next_ready, next_slot, slot_index. rewrite Hc, Ht.
  assert (H : forall (l : list (Slot A)) k, from_option ready false (l !! k) = from_option id false ((ready <$> l : list bool) !! k)).
  { intros l k. rewrite list_lookup_fmap. by destruct (l !! k). }
  rewrite !H. unfold flags in Hf. by rewrite Hf.
Qed.

Lemma producer_keeps (x y : sys (A := A)) : step x y -> consumer_ y = consumer_ x -> capacity (st y) = capacity (st x) /\ tail (st y) = tail (st x).
Proof. intros Hs. destruct Hs; simpl; try done; try congruence. by destruct (_ <=? _). Qed.

Lemma wstep_winv x x' : winv x -> wstep x x' -> winv x'.
Proof.
  intros [H1 H2] Hs. destruct Hs as [x x' Hd|x i c v y Hi Hy|x y Hs Hc Hf].
  - destruct Hd as [x r Hw Hr|x Hm Hsig|x y Hm Hs Hne|x Hm Hc Hn].
    + destruct r; simpl; (split; [done|]); simpl; auto.
    + by split.
    + by split.
    + split; simpl; [by rewrite Hc|]. by rewrite Hn.
  - split; simpl; [done|]. intros _ _. right. lia.
  - destruct (producer_keeps _ _ Hs Hc) as [E1 E2]. split; simpl; [by rewrite Hc|]. by rewrite (flags_next _ _ Hf E1 E2).
Qed.

(** The coordinator, once in the callback, takes the next outcome. *)
Lemma drain_delivers x y :
  at_ x = Draining -> consumer_ (ring x) = CIdle -> next_slot (ring x) = Some y -> ready y = true ->
  exists x', rtc delivery x x' /\ consumed (ring x') = consumed (ring x) ++ [value y] /\ log (ring x') = log (ring x).
Proof.
  intros Hm Hc Hy Hr. destruct x as [r sg w m]. simpl in *. subst m. destruct r as [s ps cn tm lg cs]. simpl in *. subst cn.
  eexists. split; [|split].
  - eapply rtc_l. { apply d_drain; [done|simpl; by eapply step_take|done]. }
    eapply rtc_l. { apply d_drain; [done|simpl; by eapply step_advance|done]. }
    eapply rtc_once. apply d_drain; [done|simpl; by eapply step_consume|done].
  - done.
  - done.
Qed.

(** Whatever the coordinator does, a waiting outcome is delivered by it and by
    writes under way. *)
Lemma winv_delivers x y :
  winv x -> consumer_ (ring x) = CIdle -> next_slot (ring x) = Some y -> ready y = true ->
  exists x', rtc delivery x x' /\ consumed (ring x') = consumed (ring x) ++ [value y] /\ log (ring x') = log (ring x).
Proof.
  intros [_ H2] Hc Hy Hr. destruct (at_ x) eqn:Hm; [|by apply drain_delivers].
  assert (Hn : next_ready (ring x) = true) by (unfold next_ready; rewrite Hy; done).
  assert (Hs : exists x1, rtc delivery x x1 /\ ring x1 = ring x /\ at_ x1 = Waiting /\ signalled x1 = true).
  { destruct (H2 eq_refl Hn) as [H|H]; [by exists x|]. exists (wake_write WWrote x). split; [|done]. by apply rtc_once, d_write. }
  destruct Hs as (x1 & Hd & E1 & E2 & E3). destruct (drain_delivers (wake_read x1) y) as (x2 & Hd2 & E4 & E5); simpl; rewrite ?E1; try done.
  exists x2. simpl in E4, E5. rewrite E1 in E4, E5. split; [|done]. etrans; [exact Hd|]. eapply rtc_l; [by apply d_wake|exact Hd2].
Qed.

End Wake.

Lemma delivery_wsteps {A} (x x' : t (A := A)) : rtc delivery x x' -> rtc wstep x x'.
Proof. induction 1 as [|x y z H _ IH]; [done|]. eapply rtc_l; [by apply w_delivery|done]. Qed.

(** C14: Every published outcome is recorded once, in order, and none is forgotten.
    In every interleaving of any number of producers with the coordinator and
    [BeginStopping], while the claims fit the ring's index arithmetic: the
    overflow [std::terminate] is never reached; the credits are conserved; the
    outcomes consumed are exactly the claimed ones in claim order, each once; a
    consumer that finds the next slot empty while no publication is in progress
    has consumed every outcome.  A coordinator that waits while the next outcome
    is ready has its descriptor readable, or a producer is about to write to it;
    and a waiting outcome is consumed by steps of the coordinator and of such
    producers alone, with no further publication. *)
Theorem outcomes_delivered {A} cap (s : State A) x :
  0 <= cap -> make cap = Some s -> rtc wstep (start s) x -> aligned (ring x) ->
  terminated (ring x) = false /\
  consumed (ring x) = Some <$> take (length (consumed (ring x))) (log (ring x)) /\
  0 <= available (st (ring x)) /\
  available (st (ring x)) + mcount is_held (producers (ring x)) + (claims (ring x) - drained (ring x)) <= cap /\
  (consumer_ (ring x) = CIdle -> (forall i p, producers (ring x) !! i = Some p -> p = Held) -> next_ready (ring x) = false ->
   consumed (ring x) = Some <$> log (ring x)) /\
  (at_ x = Waiting -> next_ready (ring x) = true -> signalled x = true \/ (0 < writers x)%nat) /\
  (consumer_ (ring x) = CIdle -> next_ready (ring x) = true ->
   exists x', rtc delivery x x' /\ log (ring x') = log (ring x) /\
     consumed (ring x') = Some <$> take (S (length (consumed (ring x)))) (log (ring x))).
Proof.
  intros Hcap Hm Hrun Hal. pose proof (wsteps_ring _ _ Hrun) as Hr. simpl in Hr.
  destruct (outcomes_exactly_once cap s (ring x) Hcap Hm Hr Hal) as (H1 & H2 & H3 & H4 & H5).
  assert (Hw : winv x).
  { eapply (rtc_preserves wstep winv); [|exact Hrun|]; [by intros; eapply wstep_winv|]. split; simpl; [done|].
    intros _ Hn. exfalso. unfold make in Hm. destruct (_ || _); [done|]. injection Hm as <-. unfold next_ready, next_slot in Hn. simpl in Hn.
    destruct (replicate _ _ !! _) as [y|] eqn:E; [|done]. apply lookup_replicate in E as [-> _]. done. }
  do 4 (split; [done|]). split; [|split; [apply Hw|]].
  - intros Hc Hh Hn. apply H5; [done|done|]. intros y Hy. unfold next_ready, next_slot in Hn. by rewrite Hy in Hn.
  - intros Hc Hn. unfold next_ready in Hn. destruct (next_slot (ring x)) as [y|] eqn:Hy; [|done].
    destruct (winv_delivers x y Hw Hc Hy Hn) as (x' & Hd & E1 & E2). exists x'. split; [done|]. split; [done|].
    assert (Hal' : aligned (ring x')).
    { pose proof (wsteps_ring _ _ (delivery_wsteps _ _ Hd)) as Hq.
      assert (capacity (st (ring x')) = capacity (st (ring x))) as Ec.
      { eapply (rtc_preserves step (fun z => capacity (st z) = capacity (st (ring x)))); [|exact Hq|done].
        intros y1 z E Hs. destruct Hs; simpl; try done. by destruct (_ <=? _). }
      unfold aligned, claims in *. rewrite E2, Ec. done. }
    destruct (outcomes_exactly_once cap s (ring x') Hcap Hm) as (_ & F & _); [|done|].
    { etrans; [exact Hr|]. apply wsteps_ring. by apply delivery_wsteps. }
    rewrite E1, E2, length_app in F. simpl in F. rewrite Nat.add_1_r in F. by rewrite E1.
Qed.

(** One outcome goes through. *)
Definition one_slot : State Z := mkState true 2 0 0 0 2 [no_slot; no_slot].
Definition raised : t (A := Z) :=
  mk (Sys (mkState true 1 1 0 0 2 [mkSlot (Some 7) true; no_slot]) ∅ CIdle false [7] []) false 1 Waiting.

Lemma outcomes_delivered_witness :
  make 2 = Some one_slot /\ rtc wstep (start one_slot) raised /\ next_ready (ring raised) = true /\
  exists x', rtc delivery raised x' /\ consumed (ring x') = [Some 7].
Proof.
  assert (Hr : rtc wstep (start one_slot) raised).
  { eapply rtc_to; [apply w_producer; [apply (step_reserve _ 0); reflexivity|reflexivity|reflexivity]|lazy; reflexivity|].
    eapply rtc_to; [apply w_producer; [apply (step_claim _ 0 7); reflexivity|reflexivity|reflexivity]|lazy; reflexivity|].
    eapply rtc_to; [apply w_producer; [apply (step_check _ 0 0 7); reflexivity|reflexivity|reflexivity]|lazy; reflexivity|].
    eapply rtc_to; [apply w_producer; [apply (step_write _ 0 0 7 no_slot); reflexivity|reflexivity|reflexivity]|lazy; reflexivity|].
    eapply rtc_to; [apply (w_ready _ 0 0 7 (mkSlot (Some 7) false)); reflexivity|lazy; reflexivity|]. apply rtc_refl. }
  split; [reflexivity|]. split; [exact Hr|]. split; [reflexivity|].
  destruct (outcomes_delivered 2 one_slot raised) as (_ & _ & _ & _ & _ & _ & H); [lia|reflexivity|exact Hr|left; vm_compute; discriminate|].
  destruct (H eq_refl eq_refl) as (x' & Hd & _ & E). exists x'. split; [exact Hd|exact E].
Defined.

End OutcomeWake.
