(* ===== verification/Routing.v ===== *)
(** * Route matching and the weighted schedule

    [Module RouteTable] models src/src/routing/RouteTable.cpp and
    [Module WeightedRoundRobin] src/src/routing/WeightedRoundRobin.cpp. *)

From S2P Require Import Prelude Bytes Types.

Module RouteTable.

Definition EqualsIgnoreCase (left right : bytes) : bool :=
  if negb (Nat.eqb (length left) (length right)) then false
  else forallb (fun p => bool_decide (lower p.1 = lower p.2)) (zip left right).

Definition SLASH : byte := "/"%byte.

(** The character test of [IsOriginForm]: printable, not DEL, not [#]. *)
Definition origin_char (c : byte) : bool :=
  negb ((code c <=? 32) || (code c =? 127) || (code c =? 35)).

Definition IsOriginForm (target : bytes) : bool :=
  match target with
  | [] => false
  | c :: _ => if decide (c = SLASH) then forallb origin_char target else false
  end.

Definition PathOnly (target : bytes) : bytes :=
  match find target (lit "?") with
  | Some query => substr target 0 query
  | None => target
  end.

Definition PrefixMatches (path prefix : bytes) : bool :=
  if decide (prefix = lit "/") then true
  else if negb (starts_with path prefix) then false
  else Nat.eqb (length path) (length prefix)
       || bool_decide (last prefix = Some SLASH)
       || bool_decide (path !! length prefix = Some SLASH).

Definition eligible (host path : bytes) (r : Route) : bool :=
  EqualsIgnoreCase (rt_host r) host && PrefixMatches path (rt_path_prefix r).

(** The loop of [Match] from [index] on, with the best match so far. *)
Fixpoint match_loop (host path : bytes) (rs : list Route) (index : nat)
    (best : option nat) (best_prefix_size : nat) : option nat :=
  match rs with
  | [] => best
  | r :: rs =>
      if negb (eligible host path r) then match_loop host path rs (S index) best best_prefix_size
      else if bool_decide (best = None) || Nat.ltb best_prefix_size (length (rt_path_prefix r))
      then match_loop host path rs (S index) (Some index) (length (rt_path_prefix r))
      else match_loop host path rs (S index) best best_prefix_size
  end.

Definition Match (config : Config) (host target : bytes) : option nat :=
  if negb (IsOriginForm target) then None
  else match_loop host (PathOnly target) (routes config) 0 None 0.

(** ** What a match means *)

Lemma EqualsIgnoreCase_spec l r : EqualsIgnoreCase l r = true <-> lower_all l = lower_all r.
Proof.
  revert r. induction l as [|c l IH]; intros [|d r]; [done..|].
  change (lower_all (c :: l) = lower_all (d :: r))
    with (lower c :: lower_all l = lower d :: lower_all r).
  specialize (IH r). unfold EqualsIgnoreCase in *. simpl in *.
  destruct (Nat.eqb (length l) (length r)); simpl in *.
  - rewrite andb_true_iff, bool_decide_eq_true, IH. split; [intros [-> ->]; done|].
    intros H. by injection H.
  - split; [done|]. intros H. injection H as _ H. by apply IH in H.
Qed.

(** The path lies under the prefix: it is the prefix, or continues it at a
    path-segment boundary. *)
Definition under (path prefix : bytes) : Prop :=
  prefix = lit "/" \/
  exists rest, path = prefix ++ rest /\
    (rest = [] \/ last prefix = Some SLASH \/ rest !! 0%nat = Some SLASH).

Lemma PrefixMatches_spec path prefix : PrefixMatches path prefix = true <-> under path prefix.
Proof.
  unfold PrefixMatches, under. case_decide as Hp; [by split; [left|]|].
  destruct (starts_with path prefix) eqn:Hs; simpl.
  - apply starts_with_spec in Hs as [rest ->].
    rewrite !orb_true_iff, Nat.eqb_eq, !bool_decide_eq_true, length_app, lookup_app_r, Nat.sub_diag by lia.
    split.
    + intros [[H|H]|H]; right; exists rest; (split; [done|]); [left|right; by left|by right; right].
      apply length_zero_iff_nil. lia.
    + intros [?|(rest' & E & H)]; [done|]. apply app_inv_head in E as <-.
      destruct H as [->|[H|H]]; [left; left; simpl; lia|by left; right|by right].
  - split; [done|]. intros [?|(rest & -> & _)]; [done|]. by rewrite starts_with_app in Hs.
Qed.

(** [i] is the first of the longest matching prefixes. *)
Definition best_match (host path : bytes) (rs : list Route) (i : nat) : Prop :=
  exists r, rs !! i = Some r /\ eligible host path r = true /\
    forall j r', rs !! j = Some r' -> eligible host path r' = true ->
      (length (rt_path_prefix r') <= length (rt_path_prefix r))%nat /\
      ((j < i)%nat -> (length (rt_path_prefix r') < length (rt_path_prefix r))%nat).

(** The loop invariant: [best] is the best match of the routes before [index]. *)
Definition best_so_far (host path : bytes) (pre : list Route) (best : option nat) (size : nat) : Prop :=
  match best with
  | None => Forall (fun r => eligible host path r = false) pre
  | Some i => best_match host path pre i /\
              exists r, pre !! i = Some r /\ length (rt_path_prefix r) = size
  end.

Lemma best_so_far_step host path pre best size r :
  best_so_far host path pre best size ->
  let take := eligible host path r
              && (bool_decide (best = None) || Nat.ltb size (length (rt_path_prefix r))) in
  best_so_far host path (pre ++ [r]) (if take then Some (length pre) else best)
              (if take then length (rt_path_prefix r) else size).
Proof.
  intros Hb take. unfold take. destruct (eligible host path r) eqn:He; simpl.
  2: { destruct best as [i|]; simpl in *.
       - destruct Hb as [(r0 & Hi & H1 & H2) (r1 & Hi1 & Hs)]. simplify_eq. split.
         + exists r0. split; [by apply lookup_app_l_Some|]. split; [done|].
           intros j r' [Hj|[_ Hj]]%lookup_app_Some Hr'; [by eapply H2|].
           apply list_lookup_singleton_Some in Hj as [_ <-]. congruence.
         + exists r0. split; [by apply lookup_app_l_Some|done].
       - apply Forall_app. split; [done|by apply Forall_singleton]. }
  destruct (Nat.ltb_spec size (length (rt_path_prefix r))) as [Hlt|Hge];
    [rewrite orb_true_r|rewrite orb_false_r; destruct best as [i|]; simpl].
  - simpl. split; [|exists r; split; [by apply list_lookup_middle|done]].
    exists r. split; [by apply list_lookup_middle|]. split; [done|].
    assert (Hold : forall j r', pre !! j = Some r' -> eligible host path r' = true ->
              (length (rt_path_prefix r') < length (rt_path_prefix r))%nat).
    { intros j r' Hj Hr'. destruct best as [i|]; simpl in Hb.
      - destruct Hb as [(r0 & Hi & _ & H2) (r1 & Hi1 & Hs)]. simplify_eq.
        destruct (H2 j r' Hj Hr'). lia.
      - rewrite Forall_forall in Hb. rewrite (Hb r') in Hr'; [done|by eapply list_elem_of_lookup_2]. }
    intros j r' [Hj|[Hge Hj]]%lookup_app_Some Hr'.
    + specialize (Hold j r' Hj Hr'). lia.
    + apply list_lookup_singleton_Some in Hj as [Hj <-]. lia.
  - simpl in Hb. destruct Hb as [(r0 & Hi & H1 & H2) (r1 & Hi1 & Hs)]. simplify_eq. split.
    + exists r0. split; [by apply lookup_app_l_Some|]. split; [done|].
      intros j r' [Hj|[Hgj Hj]]%lookup_app_Some Hr'; [by eapply H2|].
      apply list_lookup_singleton_Some in Hj as [_ <-]. apply lookup_lt_Some in Hi. lia.
    + exists r0. split; [by apply lookup_app_l_Some|done].
  - simpl in Hb. split; [|exists r; split; [by apply list_lookup_middle|done]].
    exists r. split; [by apply list_lookup_middle|]. split; [done|].
    intros j r' [Hj|[Hgj Hj]]%lookup_app_Some Hr'.
    + rewrite Forall_forall in Hb. rewrite (Hb r') in Hr'; [done|by eapply list_elem_of_lookup_2].
    + apply list_lookup_singleton_Some in Hj as [Hj <-]. lia.
Qed.

Lemma match_loop_best host path rs pre best size :
  best_so_far host path pre best size ->
  exists size', best_so_far host path (pre ++ rs) (match_loop host path rs (length pre) best size) size'.
Proof.
  revert pre best size. induction rs as [|r rs IH]; intros pre best size Hb; simpl.
  { exists size. by rewrite app_nil_r. }
  pose proof (best_so_far_step host path pre best size r Hb) as Hstep. simpl in Hstep.
  replace (pre ++ r :: rs) with ((pre ++ [r]) ++ rs) by (by rewrite <- app_assoc).
  destruct (eligible host path r); simpl in *.
  - replace (S (length pre)) with (length (pre ++ [r])) by (rewrite length_app; simpl; lia).
    destruct (bool_decide (best = None) || _); by eapply IH.
  - replace (S (length pre)) with (length (pre ++ [r])) by (rewrite length_app; simpl; lia).
    by eapply IH.
Qed.

(** C40: [Match] is longest-prefix routing: it returns the first of the routes
    with the longest prefix among those whose host equals the request's host
    up to ASCII case and whose prefix covers the path (without the query) at a
    segment boundary, and nothing exactly when the target is not in origin form
    or no route qualifies. *)
Theorem Match_longest_prefix config host target :
  match Match config host target with
  | Some i =>
      IsOriginForm target = true /\
      exists r, routes config !! i = Some r /\
        lower_all (rt_host r) = lower_all host /\ under (PathOnly target) (rt_path_prefix r) /\
        forall j r', routes config !! j = Some r' ->
          lower_all (rt_host r') = lower_all host -> under (PathOnly target) (rt_path_prefix r') ->
          (length (rt_path_prefix r') <= length (rt_path_prefix r))%nat /\
          ((j < i)%nat -> (length (rt_path_prefix r') < length (rt_path_prefix r))%nat)
  | None =>
      IsOriginForm target = false \/
      forall j r', routes config !! j = Some r' ->
        ~ (lower_all (rt_host r') = lower_all host /\ under (PathOnly target) (rt_path_prefix r'))
  end.
Proof.
  assert (Hel : forall r, eligible host (PathOnly target) r = true <->
            lower_all (rt_host r) = lower_all host /\ under (PathOnly target) (rt_path_prefix r)).
  { intros r. unfold eligible. by rewrite andb_true_iff, EqualsIgnoreCase_spec, PrefixMatches_spec. }
  unfold Match. destruct (IsOriginForm target); simpl; [|by left].
  destruct (match_loop_best host (PathOnly target) (routes config) [] None 0) as [size Hb];
    [by constructor|]. simpl in Hb.
  destruct (match_loop _ _ _ _ _ _) as [i|]; simpl in Hb.
  - split; [done|]. destruct Hb as [(r & Hi & He & Hmax) _]. exists r. apply Hel in He as [H1 H2].
    split_and!; [done|done|done|]. intros j r' Hj Hh Hu. apply Hmax; [done|]. by apply Hel.
  - right. intros j r' Hj Hr'. apply Hel in Hr'. rewrite Forall_forall in Hb.
    rewrite (Hb r') in Hr'; [done|by eapply list_elem_of_lookup_2].
Qed.

End RouteTable.

Module WeightedRoundRobin.

Record t := mk {
  endpoints_ : list Endpoint;
  total_weight_ : Z;
  next_weight_ : Z
}.

(** The constructor's loop; [None] is the exception. *)
Fixpoint sum_weights (eps : list Endpoint) (total : Z) : option Z :=
  match eps with
  | [] => Some total
  | x :: eps =>
      if (ep_weight x =? 0) || (u64_modulus - 1 - ep_weight x <? total) then None
      else sum_weights eps (wrap_u64 (total + ep_weight x))
  end.

Definition make (eps : list Endpoint) : option t :=
  total ← sum_weights eps 0;
  if total =? 0 then None else Some (mk eps total 0).

(** The loop of [Next]: the position of the selected endpoint. *)
Fixpoint select (eps : list Endpoint) (selected upper : Z) : option nat :=
  match eps with
  | [] => None
  | x :: eps =>
      let upper := wrap_u64 (upper + ep_weight x) in
      if selected <? upper then Some 0%nat else S <$> select eps selected upper
  end.

(** [Next]: the position of the returned endpoint (the front one on the
    unreachable path) and the advanced cursor. *)
Definition Next (w : t) : nat * t :=
  let selected := next_weight_ w in
  let next := if wrap_u64 (next_weight_ w + 1) =? total_weight_ w then 0
              else wrap_u64 (next_weight_ w + 1) in
  (default 0%nat (select (endpoints_ w) selected 0), mk (endpoints_ w) (total_weight_ w) next).
#[global] Arguments Next : simpl never.

(** [n] consecutive calls. *)
Fixpoint run (n : nat) (w : t) : list nat * t :=
  match n with
  | O => ([], w)
  | S n => let '(i, w) := Next w in let '(picks, w) := run n w in (i :: picks, w)
  end.

Lemma wrr_run_S n w :
  run (S n) w = ((Next w).1 :: (run n (Next w).2).1, (run n (Next w).2).2).
Proof.
  change (run (S n) w) with (let '(i, w1) := Next w in let '(picks, w2) := run n w1 in (i :: picks, w2)).
  destruct (Next w) as [i w1]. cbn [fst snd]. by destruct (run n w1).
Qed.

(** ** Invariant *)

Definition weights (eps : list Endpoint) : Z := sumZ (ep_weight <$> eps).

Record wf (w : t) : Prop := {
  wf_weights : Forall (fun x => 0 < ep_weight x) (endpoints_ w);
  wf_total : weights (endpoints_ w) = total_weight_ w;
  wf_fits : total_weight_ w < u64_modulus;
  wf_cursor : 0 <= next_weight_ w < total_weight_ w
}.

Lemma sum_weights_spec eps total0 total :
  Forall (fun x => is_u32 (ep_weight x)) eps -> 0 <= total0 < u64_modulus ->
  sum_weights eps total0 = Some total ->
  Forall (fun x => 0 < ep_weight x) eps /\ total = total0 + weights eps /\ total < u64_modulus.
Proof.
  unfold weights. revert total0. induction eps as [|x eps IH]; intros total0 Hu H0 H; simpl in H.
  { simplify_eq/=. split_and!; [constructor|unfold sumZ; simpl; lia|lia]. }
  apply Forall_cons in Hu as [Hx Hu].
  destruct (Z.eqb_spec (ep_weight x) 0), (Z.ltb_spec (u64_modulus - 1 - ep_weight x) total0);
    simpl in H; try done.
  rewrite wrap_u64_small in H by mlia. apply IH in H as (P1 & P2 & P3); [|done|mlia].
  rewrite fmap_cons, sumZ_cons. split_and!; [|lia|done]. constructor; [mlia|done].
Qed.

Lemma wrr_make_wf eps w :
  Forall (fun x => is_u32 (ep_weight x)) eps -> make eps = Some w -> wf w.
Proof.
  intros Hu Hm. unfold make in Hm.
  destruct (sum_weights eps 0) as [total|] eqn:E; simpl in Hm; [|done].
  destruct (Z.eqb_spec total 0); simplify_eq.
  apply sum_weights_spec in E as (H1 & H2 & H3); [|done|mlia].
  assert (0 <= weights eps).
  { apply sumZ_nonneg, Forall_fmap. eapply Forall_impl; [exact H1|]. simpl. lia. }
  split; simpl; [done|lia|done|lia].
Qed.

(** The endpoint that owns weight [sel] owns the interval of its weight. *)
Lemma select_spec eps sel upper :
  Forall (fun x => 0 < ep_weight x) eps -> 0 <= upper <= sel ->
  upper + weights eps < u64_modulus ->
  match select eps sel upper with
  | Some i => (i < length eps)%nat /\
              upper + weights (take i eps) <= sel < upper + weights (take (S i) eps)
  | None => upper + weights eps <= sel
  end.
Proof.
  unfold weights. revert upper. induction eps as [|x eps IH]; intros upper Hf Hu Hlt.
  { unfold sumZ; simpl. lia. }
  apply Forall_cons in Hf as [Hx Hf]. rewrite fmap_cons, sumZ_cons in Hlt.
  assert (0 <= sumZ (ep_weight <$> eps)).
  { apply sumZ_nonneg, Forall_fmap. eapply Forall_impl; [exact Hf|]. simpl. lia. }
  simpl select. rewrite wrap_u64_small by mlia.
  destruct (Z.ltb_spec sel (upper + ep_weight x)) as [Hs|Hs].
  - split; [simpl; lia|]. simpl. unfold sumZ; simpl. lia.
  - specialize (IH (upper + ep_weight x) Hf ltac:(lia) ltac:(lia)).
    destruct (select eps sel (upper + ep_weight x)) as [i|].
    + change (S <$> Some i) with (Some (S i)). destruct IH as [IH1 IH2]. split; [simpl; lia|].
      rewrite !firstn_cons, !fmap_cons, !sumZ_cons. lia.
    + change (S <$> None) with (@None nat). rewrite fmap_cons, sumZ_cons. lia.
Qed.

Lemma weights_take_mono eps i :
  Forall (fun x => 0 < ep_weight x) eps -> weights (take i eps) <= weights eps.
Proof.
  intros Hf. unfold weights. rewrite <- (take_drop i eps) at 2. rewrite fmap_app, sumZ_app.
  assert (0 <= sumZ (ep_weight <$> drop i eps)); [|lia].
  apply sumZ_nonneg, Forall_fmap, Forall_drop. eapply Forall_impl; [exact Hf|]. simpl. lia.
Qed.

Lemma weights_take_S eps i x :
  eps !! i = Some x -> weights (take (S i) eps) = weights (take i eps) + ep_weight x.
Proof.
  intros Hx. unfold weights. rewrite (take_S_r _ _ _ Hx), fmap_app, sumZ_app. simpl.
  unfold sumZ; simpl. lia.
Qed.

Lemma weights_take_le eps i j :
  Forall (fun x => 0 < ep_weight x) eps -> (i <= j)%nat ->
  weights (take i eps) <= weights (take j eps).
Proof.
  intros Hf Hij. replace (take i eps) with (take i (take j eps)) by (rewrite take_take; f_equal; lia).
  apply weights_take_mono. by apply Forall_take.
Qed.

(** [Next] selects position [i] exactly while the cursor is in its interval. *)
Lemma Next_owner w i x :
  wf w -> endpoints_ w !! i = Some x ->
  (Next w).1 = i <->
  weights (take i (endpoints_ w)) <= next_weight_ w
    < weights (take i (endpoints_ w)) + ep_weight x.
Proof.
  intros [Hf Ht Hfit Hc] Hx. unfold Next; simpl.
  pose proof (select_spec (endpoints_ w) (next_weight_ w) 0 Hf ltac:(lia) ltac:(lia)) as Hs.
  destruct (select (endpoints_ w) (next_weight_ w) 0) as [j|]; simpl; [|lia].
  destruct Hs as [Hj Hs]. rewrite <- (weights_take_S _ _ _ Hx).
  split; [intros ->; lia|]. intros Hi.
  destruct (lt_eq_lt_dec j i) as [[Hlt|Heq]|Hgt]; [|done|].
  - pose proof (weights_take_le (endpoints_ w) (S j) i Hf ltac:(lia)). lia.
  - pose proof (weights_take_le (endpoints_ w) (S i) j Hf ltac:(lia)). lia.
Qed.

Lemma Next_cursor w :
  wf w -> wf (Next w).2 /\ endpoints_ (Next w).2 = endpoints_ w /\
  total_weight_ (Next w).2 = total_weight_ w /\
  next_weight_ (Next w).2 =
    if next_weight_ w + 1 =? total_weight_ w then 0 else next_weight_ w + 1.
Proof.
  intros [Hf Ht Hfit Hc]. unfold Next; simpl. rewrite wrap_u64_small by mlia.
  split_and!; [|done..]. split; simpl; [done..|]. zcases.
Qed.

Definition occurrences (i : nat) (l : list nat) : Z :=
  sumZ ((fun j => if decide (j = i) then 1 else 0) <$> l).

(** The part of [[c, c + n)] inside the interval that starts at [lo] and is [k]
    long. *)
Definition overlap (lo k c n : Z) : Z := Z.max 0 (Z.min (c + n) (lo + k) - Z.max c lo).

(** [n] calls that do not pass the end of the period. *)
Lemma run_straight n w i x :
  wf w -> endpoints_ w !! i = Some x -> next_weight_ w + Z.of_nat n <= total_weight_ w ->
  let '(picks, w') := run n w in
  occurrences i picks = overlap (weights (take i (endpoints_ w))) (ep_weight x) (next_weight_ w) (Z.of_nat n) /\
  endpoints_ w' = endpoints_ w /\ total_weight_ w' = total_weight_ w /\ wf w' /\
  next_weight_ w' = (if next_weight_ w + Z.of_nat n =? total_weight_ w then 0
                     else next_weight_ w + Z.of_nat n).
Proof.
  revert w. induction n as [|n IH]; intros w Hwf Hx Hn.
  { simpl. unfold occurrences, overlap, sumZ; simpl. pose proof (wf_cursor _ Hwf).
    split_and!; [lia|done|done|done|]. rewrite (proj2 (Z.eqb_neq _ _)) by lia. lia. }
  rewrite wrr_run_S. pose proof (Next_owner w i x Hwf Hx) as Ho.
  pose proof (Next_cursor w Hwf) as (Hwf' & Ee & Et & En).
  destruct (Next w) as [j w1]. cbn [fst snd] in *. pose proof (wf_cursor _ Hwf).
  assert (Hp : 0 < ep_weight x) by (pose proof (wf_weights _ Hwf) as Hf; by eapply Forall_lookup_1 in Hf).
  assert (Hocc : (if decide (j = i) then 1 else 0) =
                 overlap (weights (take i (endpoints_ w))) (ep_weight x) (next_weight_ w) 1).
  { unfold overlap. case_decide as Hd; [apply Ho in Hd; lia|].
    assert (~ (weights (take i (endpoints_ w)) <= next_weight_ w
               < weights (take i (endpoints_ w)) + ep_weight x)) by tauto. lia. }
  destruct (Z.eqb_spec (next_weight_ w + 1) (total_weight_ w)) as [Hend|Hend].
  - assert (n = 0%nat) as -> by lia. simpl.
    split; [|split; [done|split; [done|split; [exact Hwf'|]]]].
    { unfold occurrences. rewrite fmap_cons, sumZ_cons, Hocc. unfold overlap, sumZ; simpl. lia. }
    rewrite (proj2 (Z.eqb_eq _ _)) by lia. done.
  - specialize (IH w1 Hwf' ltac:(congruence) ltac:(lia)).
    destruct (run n w1) as [picks w2]. cbn [fst snd]. destruct IH as (I1 & I2 & I3 & I4 & I5).
    rewrite En, Ee, Et in *. split_and!; [|done|done|done|].
    + unfold occurrences in *. rewrite fmap_cons, sumZ_cons, I1, Hocc. unfold overlap. lia.
    + rewrite I5. replace (next_weight_ w + 1 + Z.of_nat n) with (next_weight_ w + Z.of_nat (S n)) by lia.
      done.
Qed.

Lemma run_plus n m w :
  run (n + m) w = let '(a, w1) := run n w in let '(b, w2) := run m w1 in (a ++ b, w2).
Proof.
  revert w. induction n as [|n IH]; intros w; [simpl; by destruct (run m w)|].
  change (S n + m)%nat with (S (n + m)). rewrite !wrr_run_S, IH.
  destruct (run n (Next w).2) as [a w2]; simpl. by destruct (run m w2).
Qed.

Lemma wrr_run_wf n w :
  wf w -> wf (run n w).2 /\ endpoints_ (run n w).2 = endpoints_ w /\
          total_weight_ (run n w).2 = total_weight_ w.
Proof.
  revert w. induction n as [|n IH]; intros w Hwf; [done|].
  pose proof (Next_cursor w Hwf) as (Hwf' & Ee & Et & _). rewrite wrr_run_S. cbn [snd].
  destruct (IH _ Hwf') as (H1 & H2 & H3). split; [done|]. split; congruence.
Qed.

(** A full period from a well-formed cursor. *)
Lemma period_fair w i x :
  wf w -> endpoints_ w !! i = Some x ->
  occurrences i (run (Z.to_nat (total_weight_ w)) w).1 = ep_weight x /\
  (run (Z.to_nat (total_weight_ w)) w).2 = w.
Proof.
  intros Hwf Hx. pose proof (wf_cursor _ Hwf) as Hc.
  set (c := next_weight_ w) in *. set (T := total_weight_ w) in *.
  replace (Z.to_nat T) with (Z.to_nat (T - c) + Z.to_nat c)%nat by lia. rewrite run_plus.
  pose proof (run_straight (Z.to_nat (T - c)) w i x Hwf Hx) as H1.
  destruct (run (Z.to_nat (T - c)) w) as [a w1].
  destruct H1 as (A1 & A2 & A3 & A4 & A5); [fold c T; lia|].
  rewrite Z2Nat.id in A1, A5 by lia. fold c T in A1, A3, A5.
  rewrite (proj2 (Z.eqb_eq _ _)) in A5 by lia.
  pose proof (run_straight (Z.to_nat c) w1 i x A4 ltac:(congruence)) as H2.
  destruct (run (Z.to_nat c) w1) as [b w2].
  destruct H2 as (B1 & B2 & B3 & B4 & B5); [lia|].
  rewrite Z2Nat.id in B1, B5 by lia. rewrite A2 in B1. rewrite A5 in B1, B5. rewrite A3 in B5.
  rewrite (proj2 (Z.eqb_neq _ _)) in B5 by lia.
  assert (Hw : 0 <= weights (take i (endpoints_ w))
               /\ weights (take i (endpoints_ w)) + ep_weight x <= T).
  { rewrite <- (weights_take_S _ _ _ Hx). unfold T. rewrite <- (wf_total _ Hwf). split.
    - apply sumZ_nonneg, Forall_fmap, Forall_take. eapply Forall_impl; [apply Hwf|]. simpl. lia.
    - apply weights_take_mono, Hwf. }
  assert (0 < ep_weight x) by (pose proof (wf_weights _ Hwf) as Hf; by eapply Forall_lookup_1 in Hf).
  simpl. split.
  - unfold occurrences in *. rewrite fmap_app, sumZ_app, A1, B1. unfold overlap. lia.
  - assert (endpoints_ w2 = endpoints_ w) as D1 by congruence.
    assert (total_weight_ w2 = total_weight_ w) as D2 by (fold T; congruence).
    assert (next_weight_ w2 = next_weight_ w) as D3 by (rewrite B5; unfold c; lia).
    clear -D1 D2 D3. destruct w, w2; simpl in *. by subst.
Qed.

(** The weighted rotation is exactly fair: after any number of earlier
    calls, every run of total-weight consecutive calls of [Next] selects each
    endpoint exactly as often as its weight, and returns the schedule to the
    same point.  The uint64 bookkeeping never overflows. *)
Theorem weighted_rotation_fair eps w n i x :
  Forall (fun y => is_u32 (ep_weight y)) eps -> make eps = Some w -> eps !! i = Some x ->
  let w' := (run n w).2 in
  occurrences i (run (Z.to_nat (total_weight_ w')) w').1 = ep_weight x /\
  (run (Z.to_nat (total_weight_ w')) w').2 = w'.
Proof.
  intros Hu Hm Hx w'. pose proof (wrr_make_wf _ _ Hu Hm) as Hwf.
  assert (endpoints_ w = eps) as He.
  { unfold make in Hm. destruct (sum_weights eps 0); simpl in Hm; [|done].
    by destruct (_ =? _); simplify_eq. }
  destruct (wrr_run_wf n w Hwf) as (H1 & H2 & _). apply period_fair; [done|].
  unfold w'. congruence.
Qed.

Definition example_endpoints : list Endpoint :=
  [mkEndpoint (lit "10.0.0.1") (10, 0, 0, 1) 80 5; mkEndpoint (lit "10.0.0.2") (10, 0, 0, 2) 80 1].

Lemma weighted_rotation_fair_witness :
  let w := mk example_endpoints 6 0 in
  make example_endpoints = Some w /\ occurrences 0 (run 6 (run 4 w).2).1 = 5.
Proof.
  intros w. split; [reflexivity|].
  apply (weighted_rotation_fair example_endpoints w 4 0
           (mkEndpoint (lit "10.0.0.1") (10, 0, 0, 1) 80 5)); [|reflexivity|reflexivity].
  repeat constructor; vm_compute; congruence.
Defined.

End WeightedRoundRobin.
