(* ===== verification/Buffer.v ===== *)
(** * The byte buffer

    Models src/src/net/Buffer.cpp: a string with a logical read cursor, whose
    consumed prefix is erased lazily.  The theorem shows that the buffer is a
    byte queue: compaction is invisible to every reader. *)

From S2P Require Import Prelude Bytes.

Module Buffer.

Record t := mk { storage_ : bytes; read_index_ : nat }.

Definition empty : t := mk [] 0.

(** Unsigned subtraction; [wf] below says that it does not wrap. *)
Definition ReadableBytes (b : t) : nat := length (storage_ b) - read_index_ b.

Definition ReadableView (b : t) : bytes := drop (read_index_ b) (storage_ b).

Definition Append (s : bytes) (b : t) : t :=
  match s with
  | [] => b
  | _ =>
      let b := if bool_decide (ReadableBytes b < read_index_ b)%nat
               then mk (drop (read_index_ b) (storage_ b)) 0 else b in
      mk (storage_ b ++ s) (read_index_ b)
  end.

Definition FindCrlf (b : t) : option nat := find (ReadableView b) CRLF.

(** [None] is [std::out_of_range]. *)
Definition Retrieve (n : nat) (b : t) : option t :=
  if bool_decide (ReadableBytes b < n)%nat then None
  else Some (mk (storage_ b) (read_index_ b + n)).

Definition RetrieveAll (b : t) : t := empty.

(** ** The queue it implements *)

Definition wf (b : t) : Prop := (read_index_ b <= length (storage_ b))%nat.

Inductive op := OAppend (s : bytes) | ORetrieve (n : nat) | ORetrieveAll.

Definition exec (o : op) (b : t) : option t :=
  match o with
  | OAppend s => Some (Append s b)
  | ORetrieve n => Retrieve n b
  | ORetrieveAll => Some (RetrieveAll b)
  end.

(** The same operations on a plain byte queue. *)
Definition queue_exec (o : op) (q : bytes) : option bytes :=
  match o with
  | OAppend s => Some (q ++ s)
  | ORetrieve n => if bool_decide (length q < n)%nat then None else Some (drop n q)
  | ORetrieveAll => Some []
  end.

Fixpoint exec_all {S} (f : op -> S -> option S) (os : list op) (s : S) : option S :=
  match os with
  | [] => Some s
  | o :: os => s ← f o s; exec_all f os s
  end.

Lemma length_view b : length (ReadableView b) = ReadableBytes b.
Proof. unfold ReadableView, ReadableBytes. apply length_drop. Qed.

Lemma Append_view s b : wf b -> wf (Append s b) /\ ReadableView (Append s b) = ReadableView b ++ s.
Proof.
  unfold wf, Append, ReadableView. intros Hw. destruct s as [|c s]; [by rewrite app_nil_r|].
  case_bool_decide; simpl.
  - rewrite !drop_0. split; [lia|done].
  - rewrite length_app, drop_app_le by done. split; [simpl; lia|done].
Qed.

Lemma Retrieve_view n b :
  wf b -> (n <= ReadableBytes b)%nat ->
  exists b', Retrieve n b = Some b' /\ wf b' /\ ReadableView b' = drop n (ReadableView b).
Proof.
  unfold wf, Retrieve, ReadableBytes, ReadableView. intros Hw Hn.
  rewrite bool_decide_eq_false_2 by lia. eexists; split; [done|]. simpl.
  split; [lia|by rewrite drop_drop].
Qed.

Lemma exec_queue o b :
  wf b ->
  match exec o b with
  | Some b' => wf b' /\ queue_exec o (ReadableView b) = Some (ReadableView b')
  | None => queue_exec o (ReadableView b) = None
  end.
Proof.
  intros Hw. destruct o as [s|n|]; simpl.
  - destruct (Append_view s b Hw) as [H1 H2]. split; [done|by rewrite H2].
  - rewrite length_view. destruct (decide (n <= ReadableBytes b)%nat) as [Hn|Hn].
    + destruct (Retrieve_view n b Hw Hn) as (b' & -> & Hw' & ->).
      by rewrite bool_decide_eq_false_2 by lia.
    + unfold Retrieve. by rewrite !bool_decide_eq_true_2 by lia.
  - split; [unfold wf; simpl; lia|done].
Qed.

(** The buffer refines a byte queue: for every sequence of [Append],
    [Retrieve] and [RetrieveAll], the readable view is the queue's content
    whether or not the storage was compacted, the read cursor never passes the
    end of the storage, and [Retrieve] throws exactly where more bytes are
    asked for than are readable. *)
Theorem buffer_refines_queue os :
  match exec_all exec os empty with
  | Some b => wf b /\ exec_all queue_exec os [] = Some (ReadableView b)
  | None => exec_all queue_exec os [] = None
  end.
Proof.
  assert (H : forall b, wf b ->
    match exec_all exec os b with
    | Some b' => wf b' /\ exec_all queue_exec os (ReadableView b) = Some (ReadableView b')
    | None => exec_all queue_exec os (ReadableView b) = None
    end).
  { induction os as [|o os IH]; intros b Hw; simpl; [done|].
    pose proof (exec_queue o b Hw) as Hq. destruct (exec o b) as [b'|]; simpl.
    - destruct Hq as [Hw' ->]. apply (IH b' Hw').
    - by rewrite Hq. }
  apply (H empty). unfold wf; simpl; lia.
Qed.

End Buffer.
