(* ===== verification/HttpText.v ===== *)
(** * Characters and fields of HTTP messages

    The helpers that src/src/http/HttpRequestParser.cpp, HttpResponseParser.cpp
    and HttpRequestSerializer.cpp each declare in an anonymous namespace; the
    copies are the same functions, so they are modelled once here; TextCopies
    translates the other copies and shows that.  The second half relates decimal printing
    and [ParseContentLength], and collects the facts on CRLF search that the
    parsers' theorems share. *)

From S2P Require Import Prelude Bytes.

Module HttpText.

Definition SP : byte := " "%byte.
Definition HTAB : byte := "009"%byte.
Definition COLON : byte := ":"%byte.
Definition COMMA : byte := ",".

Definition is_ows (b : byte) : bool := bool_decide (b = SP) || bool_decide (b = HTAB).

Fixpoint trim_front (s : bytes) : bytes :=
  match s with
  | c :: r => if is_ows c then trim_front r else s
  | [] => []
  end.

Definition trim_back (s : bytes) : bytes := rev (trim_front (rev s)).

Definition TrimOws (s : bytes) : bytes := trim_back (trim_front s).

(** The [switch] of [IsToken]. *)
Definition token_mark (b : byte) : bool := bool_decide (b ∈ lit "!#$%&'*+-.^_`|~").

Definition IsToken (s : bytes) : bool :=
  forallb (fun c => is_alnum c || token_mark c) s && negb (bool_decide (s = [])).

(** The loop of [ContainsChunked]; each turn removes at least one byte. *)
Fixpoint contains_chunked (fuel : nat) (value : bytes) : bool :=
  match fuel with
  | O => false
  | S fuel =>
      if bool_decide (value = []) then false
      else
        let comma := find value [COMMA] in
        let coding := TrimOws (match comma with Some n => take n value | None => value end) in
        if beq (lower_all coding) (lit "chunked") then true
        else match comma with
             | None => false
             | Some n => contains_chunked fuel (drop (S n) value)
             end
  end.

Definition ContainsChunked (value : bytes) : bool := contains_chunked (length value) value.

(** [prev] is the byte before the position, absent at the start. *)
Fixpoint bare_lf (prev : option byte) (s : bytes) : bool :=
  match s with
  | [] => false
  | c :: r => (bool_decide (c = LF) && negb (bool_decide (prev = Some CR))) || bare_lf (Some c) r
  end.

Definition HasBareLineFeed (s : bytes) : bool := bare_lf None s.

Definition value_char (b : byte) : bool :=
  bool_decide (b = HTAB) || negb ((code b <? 32) || (code b =? 127)).

Definition IsValidFieldValue (s : bytes) : bool := forallb value_char s.

(** The digit loop; [None] is [return false]. *)
Fixpoint parse_digits (s : bytes) (parsed : Z) : option Z :=
  match s with
  | [] => Some parsed
  | c :: r =>
      if negb (is_digit c) then None
      else
        let digit := code c - 48 in
        if (u64_modulus - 1 - digit) / 10 <? parsed then None
        else parse_digits r (wrap_u64 (parsed * 10 + digit))
  end.

Definition ParseContentLength (value : bytes) : option Z :=
  match value with [] => None | _ => parse_digits value 0 end.

(** [std::to_string] on an unsigned value; twenty digits are enough for
    [std::uint64_t]. *)
Fixpoint digits (fuel : nat) (n : Z) (acc : bytes) : bytes :=
  match fuel with
  | O => acc
  | S fuel =>
      let acc := of_code (48 + n mod 10) :: acc in
      if n / 10 =? 0 then acc else digits fuel (n / 10) acc
  end.

Definition to_string (n : Z) : bytes := digits 20 n [].

(** ** Decimal round trip *)

Lemma digit_code d : 0 <= d < 10 -> code (of_code (48 + d)) = 48 + d /\ is_digit (of_code (48 + d)) = true.
Proof.
  intros Hd. assert (code (of_code (48 + d)) = 48 + d) as E by (apply code_of_code; lia).
  split; [done|]. unfold is_digit, in_range. rewrite E. zcases.
Qed.

(** What the digit loop computes on a numeral it does not refuse. *)
Definition value_of (s : bytes) (n : Z) : Z := foldl (fun n c => n * 10 + (code c - 48)) n s.

Lemma value_of_ge s n : Forall (fun c => is_digit c = true) s -> 0 <= n -> n <= value_of s n.
Proof.
  intros Hs. revert n. induction Hs as [|c s Hc Hs IH]; intros n Hn; simpl; [lia|].
  unfold is_digit, in_range in Hc. apply andb_true_iff in Hc as [H1 H2].
  apply Z.leb_le in H1, H2. etrans; [|apply IH]; lia.
Qed.

Lemma parse_digits_value s n :
  Forall (fun c => is_digit c = true) s -> 0 <= n -> value_of s n < u64_modulus ->
  parse_digits s n = Some (value_of s n).
Proof.
  intros Hs. revert n. induction Hs as [|c s Hc Hs IH]; intros n Hn Hv; simpl; [done|].
  rewrite Hc. simpl. assert (0 <= code c - 48 <= 9).
  { unfold is_digit, in_range in Hc. apply andb_true_iff in Hc as [H1 H2].
    apply Z.leb_le in H1, H2. lia. }
  simpl in Hv. pose proof (value_of_ge s (n * 10 + (code c - 48)) Hs ltac:(lia)).
  assert (n <= (u64_modulus - 1 - (code c - 48)) / 10) by (apply Z.div_le_lower_bound; lia).
  destruct (Z.ltb_spec ((u64_modulus - 1 - (code c - 48)) / 10) n); [lia|].
  rewrite wrap_u64_small by mlia. apply IH; [lia|done].
Qed.

Lemma digits_spec fuel n acc m :
  0 <= n < 10 ^ Z.of_nat fuel -> (0 < fuel)%nat -> 0 <= m ->
  Forall (fun c => is_digit c = true) acc ->
  Forall (fun c => is_digit c = true) (digits fuel n acc) /\ digits fuel n acc <> [] /\
  value_of (digits fuel n acc) 0 = value_of acc n.
Proof.
  intros Hn Hf Hm. revert n acc Hn. induction fuel as [|fuel IH]; [lia|]. intros n acc Hn Hacc.
  simpl. pose proof (Z.mod_pos_bound n 10 ltac:(lia)) as Hmod.
  pose proof (Z.div_mod n 10 ltac:(lia)) as Hdm.
  destruct (digit_code (n mod 10) Hmod) as [Hc Hd].
  assert (0 <= n / 10) by (apply Z.div_pos; lia).
  destruct (Z.eqb_spec (n / 10) 0) as [E|E].
  - split_and!; [by constructor|done|]. simpl. rewrite Hc. f_equal. lia.
  - rewrite Nat2Z.inj_succ, Z.pow_succ_r in Hn by lia.
    destruct (decide (fuel = 0%nat)) as [->|Hz]; [simpl in Hn; lia|].
    destruct (IH ltac:(lia) (n / 10) (of_code (48 + n mod 10) :: acc)) as (H1 & H2 & H3).
    { split; [done|]. apply Z.div_lt_upper_bound; lia. }
    { by constructor. }
    split_and!; [done|done|]. rewrite H3. simpl. rewrite Hc. f_equal. lia.
Qed.

Lemma to_string_digits n :
  is_u64 n -> Forall (fun c => is_digit c = true) (to_string n) /\ to_string n <> [].
Proof.
  intros Hn. unfold to_string.
  destruct (digits_spec 20 n [] 0) as (H1 & H2 & _); [|lia|lia|constructor|done].
  change (10 ^ Z.of_nat 20) with 100000000000000000000. mlia.
Qed.

Lemma ParseContentLength_to_string n : is_u64 n -> ParseContentLength (to_string n) = Some n.
Proof.
  intros Hn. destruct (to_string_digits n Hn) as [H1 H2].
  assert (value_of (to_string n) 0 = n) as Hv.
  { unfold to_string. destruct (digits_spec 20 n [] 0) as (_ & _ & ->); [|lia|lia|constructor|done].
    change (10 ^ Z.of_nat 20) with 100000000000000000000. mlia. }
  unfold ParseContentLength. destruct (to_string n) as [|c s] eqn:E; [done|].
  rewrite <- E in *. rewrite parse_digits_value; [by rewrite Hv|done|lia|rewrite Hv; mlia].
Qed.

Lemma parse_digits_range s n r : 0 <= n < u64_modulus -> parse_digits s n = Some r -> is_u64 r.
Proof.
  revert n. induction s as [|c s IH]; intros n Hn H; simpl in H; [simplify_eq; mlia|].
  destruct (negb (is_digit c)); [done|]. destruct (_ <? n); [done|].
  eapply IH; [|exact H]. apply wrap_u64_range.
Qed.

Lemma ParseContentLength_range s r : ParseContentLength s = Some r -> is_u64 r.
Proof.
  unfold ParseContentLength. destruct s; [done|]. apply parse_digits_range. mlia.
Qed.

(** ** Bare line feeds of a growing input *)

Lemma bare_lf_app prev s k : bare_lf prev s = true -> bare_lf prev (s ++ k) = true.
Proof.
  revert prev; induction s as [|c s IH]; intros prev; simpl; [done|].
  rewrite !orb_true_iff. intros [H|H]; eauto.
Qed.

(** The part of the input up to the blank line, or all of it. *)
Definition header_part (s : bytes) : bytes :=
  match find s (CRLF ++ CRLF) with Some h => take (h + 4) s | None => s end.

Lemma header_part_app_Some s k h :
  find s (CRLF ++ CRLF) = Some h -> header_part (s ++ k) = header_part s.
Proof.
  intros H. unfold header_part. rewrite (find_app_Some _ _ _ _ H), H.
  apply find_length in H. simpl in H. by rewrite take_app_le by lia.
Qed.

Lemma header_part_app s k :
  HasBareLineFeed (header_part s) = true -> HasBareLineFeed (header_part (s ++ k)) = true.
Proof.
  destruct (find s (CRLF ++ CRLF)) as [h|] eqn:E; [by rewrite (header_part_app_Some _ _ _ E)|].
  unfold header_part. rewrite E.
  destruct (find (s ++ k) (CRLF ++ CRLF)) as [h|] eqn:E'; [|apply bare_lf_app].
  pose proof (find_app_None _ _ _ _ E E') as H. simpl in H.
  rewrite take_app_ge by lia. apply bare_lf_app.
Qed.

End HttpText.
