(* ===== verification/HttpRequest.v ===== *)
(** * The request parser

    Models src/src/http/HttpRequestParser.cpp over the buffer of Buffer.v.  The
    parser re-reads the whole buffer on every call and consumes nothing until a
    request is complete; [parse_bytes] is what one call decides of the readable
    bytes, and [Parse] is the method.  The theorems show that the decision does
    not depend on how the bytes were segmented on the way, with the two
    exceptions that the code has. *)

From S2P Require Import Prelude Bytes Buffer HttpText.

Module HttpRequestParser.
Import HttpText.

Definition kMaxRequestLineBytes : Z := 8 * 1024.
Definition kMaxHeaderBytes : Z := 32 * 1024.
Definition kMaxRequestBodyBytes : Z := 1024 * 1024.

Inductive ParseResult := kNeedMoreData | kComplete | kError | kUnsupported.

#[global] Instance ParseResult_eq_dec : EqDecision ParseResult.
Proof. solve_decision. Defined.

Record HttpRequest := mkRequest {
  method : bytes;
  target : bytes;
  version : bytes;
  body : bytes;
  headers : gmap bytes bytes
}.

Definition no_request : HttpRequest := mkRequest [] [] [] [] ∅.

Definition Header (name : bytes) (r : HttpRequest) : bytes :=
  default [] (headers r !! lower_all name).

(** ** One field line *)

(** [headers], [has_content_length] and [content_length] of the loop. *)
Record fields := mkFields {
  f_headers : gmap bytes bytes;
  has_content_length : bool;
  content_length : Z
}.

Definition start : fields := mkFields ∅ false 0.

(** The [content-length] branch; [None] is the error return. *)
Definition note_length (name value : bytes) (f : fields) : option fields :=
  if beq name (lit "content-length") then
    if has_content_length f then None
    else match ParseContentLength value with
         | None => None
         | Some n => if kMaxRequestBodyBytes <? n then None
                     else Some (mkFields (f_headers f) true n)
         end
  else Some f.

Definition store (name value : bytes) (hs : gmap bytes bytes) : gmap bytes bytes :=
  if beq name (lit "connection") then
    match hs !! name with
    | Some old => <[ name := old ++ [COMMA] ++ value ]> hs
    | None => <[ name := value ]> hs
    end
  else <[ name := value ]> hs.

(** The body of the loop on one line; [inl] is an early return. *)
Definition field_line (line : bytes) (f : fields) : ParseResult + fields :=
  match find line [COLON] with
  | None => inl kError
  | Some colon =>
      if bool_decide (colon = 0%nat) || negb (IsToken (take colon line)) then inl kError
      else
        let name := lower_all (take colon line) in
        let raw_value := drop (S colon) line in
        if negb (IsValidFieldValue raw_value) then inl kError
        else
          let value := TrimOws raw_value in
          match note_length name value f with
          | None => inl kError
          | Some f =>
              if beq name (lit "transfer-encoding") && ContainsChunked value then inl kUnsupported
              else inr (mkFields (store name value (f_headers f)) (has_content_length f)
                                 (content_length f))
          end
  end.

(** ** The header block *)

(** [HDone] carries the fields and the offset just past the blank line. *)
Inductive head :=
| HReturn (r : ParseResult)
| HDone (f : fields) (cursor : nat).

(** [for (;;)]: [None] is exhausted fuel, which [header_loop_total] excludes. *)
Fixpoint header_loop (fuel : nat) (s : bytes) (line_end0 cursor : nat) (f : fields)
    : option head :=
  match fuel with
  | O => None
  | S fuel =>
      let base := Z.of_nat line_end0 + 2 in
      if kMaxHeaderBytes + base <? Z.of_nat cursor then Some (HReturn kError)
      else match find_from s CRLF cursor with
           | None => if kMaxHeaderBytes + base <? size s then Some (HReturn kError)
                     else Some (HReturn kNeedMoreData)
           | Some line_end =>
               if kMaxHeaderBytes <? Z.of_nat line_end + 2 - base then Some (HReturn kError)
               else if bool_decide (line_end = cursor) then Some (HDone f (cursor + 2))
               else match field_line (substr s cursor (line_end - cursor)) f with
                    | inl r => Some (HReturn r)
                    | inr f => header_loop fuel s line_end0 (line_end + 2) f
                    end
           end
  end.

(** ** The request line *)

(** Method and target of a valid request line. *)
Definition request_line (line : bytes) : option (bytes * bytes) :=
  match find line [SP] with
  | None => None
  | Some first_space =>
      match find_from line [SP] (S first_space) with
      | None => None
      | Some second_space =>
          if bool_decide (is_Some (find_from line [SP] (S second_space)))
             || bool_decide (first_space = 0%nat)
             || bool_decide (second_space = S first_space)
             || negb (beq (drop (S second_space) line) (lit "HTTP/1.1"))
             || negb (IsToken (take first_space line))
          then None
          else Some (take first_space line,
                     substr line (S first_space) (second_space - first_space - 1))
      end
  end.

(** ** One call on the readable bytes *)

Inductive outcome :=
| Return (r : ParseResult)
| Complete (r : HttpRequest) (consumed : nat).

Definition finish (s : bytes) (m t : bytes) (f : fields) (cursor : nat) : outcome :=
  if size s - Z.of_nat cursor <? content_length f then Return kNeedMoreData
  else
    let n := Z.to_nat (content_length f) in
    Complete (mkRequest m t (lit "HTTP/1.1") (substr s cursor n) (f_headers f)) (cursor + n).

(** The request line at offset [line_end] and what follows it. *)
Definition parse_lines (s : bytes) (line_end : nat) : outcome :=
  if kMaxRequestLineBytes <? Z.of_nat line_end then Return kError
  else match request_line (take line_end s) with
       | None => Return kError
       | Some (m, t) =>
           match header_loop (S (length s)) s line_end (line_end + 2) start with
           | None => Return kError
           | Some (HReturn r) => Return r
           | Some (HDone f cursor) => finish s m t f cursor
           end
       end.

Definition parse_bytes (s : bytes) : outcome :=
  if HasBareLineFeed (header_part s) then Return kError
  else match find s CRLF with
       | None => if kMaxRequestLineBytes <? size s then Return kError else Return kNeedMoreData
       | Some line_end => parse_lines s line_end
       end.

(** ** The parser object *)

Record t := mk { result_ : ParseResult; request_ : HttpRequest }.

Definition make : t := mk kNeedMoreData no_request.

Definition Reset (p : t) : t := make.

Definition Request (p : t) : HttpRequest := request_ p.

(** [None] would be the exception of [Retrieve]. *)
Definition Parse (p : t) (input : Buffer.t) : option (ParseResult * t * Buffer.t) :=
  if negb (bool_decide (result_ p = kNeedMoreData)) then Some (result_ p, p, input)
  else match parse_bytes (Buffer.ReadableView input) with
       | Return r => Some (r, mk r (request_ p), input)
       | Complete r n => input ← Buffer.Retrieve n input; Some (kComplete, mk kComplete r, input)
       end.

(** ** The header block of a growing input *)

Lemma header_loop_total fuel s le0 c f :
  (c <= length s)%nat -> (length s - c < fuel)%nat -> is_Some (header_loop fuel s le0 c f).
Proof.
  revert c f. induction fuel as [|fuel IH]; intros c f Hc Hf; [lia|]. simpl.
  destruct (_ <? Z.of_nat c); [done|].
  destruct (find_from s CRLF c) as [le|] eqn:E; [|by destruct (_ <? _)].
  apply find_from_length in E as [E1 E2]. change (length CRLF) with 2%nat in E2.
  destruct (_ <? _); [done|]. case_bool_decide; [done|].
  destruct (field_line _ f); [done|]. apply IH; lia.
Qed.

(** The offset a complete block ends at; the four bytes before it are two line
    ends. *)
Lemma header_loop_end fuel s le0 c f g e :
  header_loop fuel s le0 c f = Some (HDone g e) ->
  (2 <= c <= length s)%nat -> starts_with (drop (c - 2) s) CRLF = true ->
  (c + 2 <= e <= length s)%nat /\ starts_with (drop (e - 4) s) (CRLF ++ CRLF) = true /\
  Z.of_nat e - (Z.of_nat le0 + 2) <= kMaxHeaderBytes.
Proof.
  revert c f. induction fuel as [|fuel IH]; intros c f H Hc Hs; simpl in H; [done|].
  destruct (_ <? Z.of_nat c); [done|].
  destruct (find_from s CRLF c) as [le|] eqn:E; [|by destruct (_ <? _)].
  pose proof (find_from_length _ _ _ _ E) as [E1 E2]. change (length CRLF) with 2%nat in E2.
  apply find_from_Some in E as (_ & _ & E). apply find_Some in E as (E & _ & _).
  rewrite drop_drop in E. replace (c + (le - c))%nat with le in E by lia.
  destruct (Z.ltb_spec kMaxHeaderBytes (Z.of_nat le + 2 - (Z.of_nat le0 + 2))); [done|].
  case_bool_decide.
  - simplify_eq. split_and!; [lia|lia| |lia]. replace (c + 2 - 4)%nat with (c - 2)%nat by lia.
    apply starts_with_spec in Hs as [k Hk]. apply starts_with_spec in E as [k' Hk'].
    assert (drop c s = k) as Hd.
    { replace c with (c - 2 + 2)%nat by lia. rewrite <- drop_drop, Hk. done. }
    apply starts_with_spec. exists k'. rewrite Hk, <- (app_assoc CRLF CRLF k'). congruence.
  - destruct (field_line _ f) as [|f']; [done|]. apply IH in H as (A1 & A2 & A3).
    + split_and!; [lia|lia|done|done].
    + lia.
    + by replace (le + 2 - 2)%nat with le by lia.
Qed.

(** A decision on a prefix of the input is the decision on the input; a block
    incomplete in the prefix ends beyond it. *)
Lemma header_loop_extend fuel fuel' s k le0 c f :
  (c <= length s)%nat -> (length (s ++ k) - c < fuel')%nat ->
  match header_loop fuel s le0 c f with
  | Some (HReturn kNeedMoreData) =>
      forall g e, header_loop fuel' (s ++ k) le0 c f = Some (HDone g e) -> (length s < e)%nat
  | Some o => header_loop fuel' (s ++ k) le0 c f = Some o
  | None => True
  end.
Proof.
  revert fuel' c f. induction fuel as [|fuel IH]; intros fuel' c f Hc Hf; [done|].
  destruct fuel' as [|fuel']; [lia|]. simpl.
  destruct (Z.ltb_spec (kMaxHeaderBytes + (Z.of_nat le0 + 2)) (Z.of_nat c)); [done|].
  destruct (find_from s CRLF c) as [le|] eqn:E.
  - rewrite (find_from_app_Some _ _ _ _ _ E). apply find_from_length in E as [E1 E2].
    change (length CRLF) with 2%nat in E2.
    destruct (_ <? _); [done|]. case_bool_decide; [done|].
    rewrite substr_app by lia. destruct (field_line _ f) as [[]|f']; try done.
    apply IH; [lia|]. rewrite length_app in *. lia.
  - destruct (Z.ltb_spec (kMaxHeaderBytes + (Z.of_nat le0 + 2)) (size s)) as [Hb|Hb].
    + destruct (find_from (s ++ k) CRLF c) as [le|] eqn:E'.
      * pose proof (find_from_app_None _ _ _ _ _ Hc E E') as Hle.
        change (length CRLF) with 2%nat in Hle. unfold size in Hb.
        destruct (Z.ltb_spec kMaxHeaderBytes (Z.of_nat le + 2 - (Z.of_nat le0 + 2))); [done|lia].
      * unfold size in *. rewrite length_app.
        destruct (Z.ltb_spec (kMaxHeaderBytes + (Z.of_nat le0 + 2)) (Z.of_nat (length s + length k)));
          [done|lia].
    + intros g e. destruct (find_from (s ++ k) CRLF c) as [le|] eqn:E'; [|by destruct (_ <? _)].
      pose proof (find_from_app_None _ _ _ _ _ Hc E E') as Hle. change (length CRLF) with 2%nat in Hle.
      destruct (_ <? _); [done|]. case_bool_decide; [intros; simplify_eq; lia|].
      destruct (field_line _ f) as [|f']; [done|]. intros He.
      assert (Hge : (le + 2 <= e)%nat); [|lia].
      revert He. clear -Hle. revert f'. generalize (le + 2)%nat as c'.
      induction fuel' as [|fu IH]; intros c' f' He; simpl in He; [done|].
      destruct (_ <? Z.of_nat c'); [done|].
      destruct (find_from (s ++ k) CRLF c') as [l2|] eqn:E2; [|by destruct (_ <? _)].
      apply find_from_length in E2 as [E2 _]. destruct (_ <? _); [done|].
      case_bool_decide; [simplify_eq; lia|]. destruct (field_line _ f') as [|f2]; [done|].
      apply IH in He. lia.
Qed.

(** The request line is as long as the limit allows and the input ends between
    its CR and its LF. *)
Definition split_line_end (s : bytes) : Prop :=
  size s = kMaxRequestLineBytes + 1 /\ find s CRLF = None /\ last s = Some CR.

Definition rejected (r : ParseResult) : Prop := r = kError \/ r = kUnsupported.

Lemma first_line_limit s k n :
  kMaxRequestLineBytes < size s -> find s CRLF = None -> ~ split_line_end s ->
  find (s ++ k) CRLF = Some n -> kMaxRequestLineBytes < Z.of_nat n.
Proof.
  intros Hs Hf Hn E. pose proof (find_app_None _ _ _ _ Hf E) as Hl.
  change (length CRLF) with 2%nat in Hl. unfold size in Hs.
  destruct (Z.lt_total kMaxRequestLineBytes (Z.of_nat n)) as [H|[H|H]]; [done| |lia].
  exfalso. apply Hn. split_and!; [unfold size; lia|done|].
  apply find_Some in E as (E & _ & _). rewrite drop_app_le in E by lia.
  apply starts_with_spec in E as [z E].
  rewrite last_lookup. replace (pred (length s)) with n by lia.
  rewrite <- (take_drop n s), lookup_app_r, length_take_le, Nat.sub_diag by (rewrite ?length_take; lia).
  destruct (drop n s) as [|c d] eqn:Ed.
  { apply (f_equal length) in Ed. rewrite length_drop in Ed. simpl in Ed. lia. }
  simpl in E. by simplify_eq.
Qed.

Lemma header_loop_done s le f e :
  find s CRLF = Some le -> header_loop (S (length s)) s le (le + 2) start = Some (HDone f e) ->
  (e <= length s)%nat /\ exists h, find s (CRLF ++ CRLF) = Some h.
Proof.
  intros Hle H. pose proof (find_length _ _ _ Hle) as Hl. change (length CRLF) with 2%nat in Hl.
  apply find_Some in Hle as (Hs & _ & _).
  apply header_loop_end in H as (H1 & H2 & _);
    [|lia|by replace (le + 2 - 2)%nat with le by lia].
  split; [lia|]. destruct (find_exists s (CRLF ++ CRLF) (e - 4)) as (h & Hh & _); [done|lia|eauto].
Qed.

Lemma finish_extend s k m t f e :
  (e <= length s)%nat ->
  match finish s m t f e with
  | Complete r n => (n <= length s)%nat /\ finish (s ++ k) m t f e = Complete r n
  | Return r => r = kNeedMoreData /\
                forall r n, finish (s ++ k) m t f e = Complete r n -> (length s < n)%nat
  end.
Proof.
  intros He. unfold finish, size. rewrite length_app.
  destruct (Z.ltb_spec (Z.of_nat (length s) - Z.of_nat e) (content_length f)) as [H|H].
  - split; [done|]. intros r n. destruct (_ <? _); intros; simplify_eq. lia.
  - destruct (Z.ltb_spec (Z.of_nat (length s + length k) - Z.of_nat e) (content_length f)); [lia|].
    split; [lia|]. by rewrite substr_app by lia.
Qed.

Lemma field_line_rejects line f r : field_line line f = inl r -> rejected r.
Proof.
  unfold field_line, rejected. destruct (find line [COLON]); [|naive_solver].
  destruct (_ || _); [naive_solver|]. destruct (negb _); [naive_solver|].
  destruct (note_length _ _ _); [|naive_solver]. destruct (_ && _); naive_solver.
Qed.

Lemma header_loop_rejects fuel s le0 c f r :
  header_loop fuel s le0 c f = Some (HReturn r) -> r = kNeedMoreData \/ rejected r.
Proof.
  revert c f. induction fuel as [|fuel IH]; intros c f H; simpl in H; [done|].
  destruct (_ <? Z.of_nat c); [simplify_eq; by right; left|].
  destruct (find_from s CRLF c) as [le|]; [|destruct (_ <? _); simplify_eq; unfold rejected; auto].
  destruct (_ <? _); [simplify_eq; by right; left|]. case_bool_decide; [done|].
  destruct (field_line _ f) as [r'|f'] eqn:E; [|eauto].
  simplify_eq. right. by eapply field_line_rejects.
Qed.

(** What more input can change after the request line. *)
Lemma parse_lines_extend s k le :
  find s CRLF = Some le ->
  match parse_lines s le with
  | Return kNeedMoreData => forall r n, parse_lines (s ++ k) le = Complete r n -> (length s < n)%nat
  | Return r => rejected r /\ parse_lines (s ++ k) le = Return r
  | Complete r n => (n <= length s)%nat /\ (exists h, find s (CRLF ++ CRLF) = Some h) /\
                    parse_lines (s ++ k) le = Complete r n
  end.
Proof.
  intros El. pose proof (find_length _ _ _ El) as Hl. change (length CRLF) with 2%nat in Hl.
  unfold parse_lines. rewrite take_app_le by lia.
  destruct (_ <? Z.of_nat le); [split; [by left|done]|].
  destruct (request_line (take le s)) as [[m t]|]; [|split; [by left|done]].
  pose proof (header_loop_extend (S (length s)) (S (length (s ++ k))) s k le (le + 2) start
                ltac:(lia) ltac:(rewrite length_app; lia)) as Hx.
  destruct (header_loop (S (length s)) s le (le + 2) start) as [[r|f e]|] eqn:Eh.
  - apply header_loop_rejects in Eh as [->|Hr].
    + intros r n. destruct (header_loop _ (s ++ k) _ _ _) as [[r'|f e]|]; try done.
      unfold finish. destruct (_ <? _); [done|]. intros; simplify_eq.
      specialize (Hx _ _ eq_refl). lia.
    + destruct Hr as [-> | ->]; rewrite Hx; (split; [by left + (by right)|done]).
  - destruct (header_loop_done _ _ _ _ El Eh) as [He Hh]. rewrite Hx.
    pose proof (finish_extend s k m t f e He) as Hfin. destruct (finish s m t f e).
    + destruct Hfin as [-> Hfin]. done.
    + destruct Hfin as [H1 H2]. done.
  - destruct (header_loop_total (S (length s)) s le (le + 2) start) as [? Ht]; [lia|lia|congruence].
Qed.

(** What more input can change. *)
Lemma parse_extend s k :
  match parse_bytes s with
  | Return kNeedMoreData => forall r n, parse_bytes (s ++ k) = Complete r n -> (length s < n)%nat
  | Return r => rejected r /\
      (split_line_end s \/ parse_bytes (s ++ k) = Return r \/
       HasBareLineFeed (header_part (s ++ k)) = true /\ parse_bytes (s ++ k) = Return kError)
  | Complete r n => (n <= length s)%nat /\ parse_bytes (s ++ k) = Complete r n
  end.
Proof.
  assert (Hrej : forall r, rejected r ->
    (HasBareLineFeed (header_part (s ++ k)) = false -> parse_bytes (s ++ k) = Return r) ->
    parse_bytes (s ++ k) = Return r \/
    HasBareLineFeed (header_part (s ++ k)) = true /\ parse_bytes (s ++ k) = Return kError).
  { intros r Hr Hp. destruct (HasBareLineFeed (header_part (s ++ k))) eqn:Eb; [right|left; eauto].
    split; [done|]. unfold parse_bytes. by rewrite Eb. }
  unfold parse_bytes at 1. destruct (HasBareLineFeed (header_part s)) eqn:Eb.
  { split; [by left|]. right. apply (Hrej kError); [by left|].
    intros Hb. apply (header_part_app _ k) in Eb. congruence. }
  destruct (find s CRLF) as [le|] eqn:El.
  - assert (Hsame : HasBareLineFeed (header_part (s ++ k)) = false ->
                    parse_bytes (s ++ k) = parse_lines (s ++ k) le).
    { intros H. unfold parse_bytes. by rewrite H, (find_app_Some _ _ _ _ El). }
    pose proof (parse_lines_extend s k le El) as Hx. destruct (parse_lines s le) as [r|r n].
    + destruct r.
      * intros r n. unfold parse_bytes at 1. destruct (HasBareLineFeed _); [done|].
        rewrite (find_app_Some _ _ _ _ El). apply Hx.
      * by destruct Hx as [[|] _].
      * split; [by left|]. right. apply (Hrej kError); [by left|]. intros Hb. rewrite Hsame by done. apply Hx.
      * split; [by right|]. right. apply (Hrej kUnsupported); [by right|].
        intros Hb. rewrite Hsame by done. apply Hx.
    + destruct Hx as (H1 & [h Hh] & H2). split; [done|]. rewrite Hsame; [done|].
      by rewrite (header_part_app_Some _ _ _ Hh).
  - destruct (Z.ltb_spec kMaxRequestLineBytes (size s)) as [Hs|Hs].
    + split; [by left|]. destruct (decide (size s = kMaxRequestLineBytes + 1 /\ last s = Some CR)) as [[H1 H2]|Hn].
      { by left. }
      right. apply (Hrej kError); [by left|]. intros Hb. unfold parse_bytes. rewrite Hb.
      destruct (find (s ++ k) CRLF) as [n|] eqn:E.
      * pose proof (first_line_limit s k n Hs El ltac:(unfold split_line_end; naive_solver) E).
        unfold parse_lines. by rewrite (proj2 (Z.ltb_lt _ _)).
      * unfold size in *. rewrite length_app. by rewrite (proj2 (Z.ltb_lt _ _)) by lia.
    + intros r n H. unfold parse_bytes in H. destruct (HasBareLineFeed _); [done|].
      destruct (find (s ++ k) CRLF) as [le|] eqn:E; [|by destruct (_ <? _)].
      pose proof (find_app_None _ _ _ _ El E) as Hlen. change (length CRLF) with 2%nat in Hlen.
      unfold parse_lines in H. destruct (_ <? _); [done|]. destruct (request_line _) as [[m t]|]; [|done].
      destruct (header_loop _ _ _ _ _) as [[]|] eqn:Eh; try done.
      pose proof (find_length _ _ _ E) as Hl. change (length CRLF) with 2%nat in Hl.
      apply find_Some in E as (E & _ & _). apply header_loop_end in Eh as (H1 & _ & _);
        [|lia|by replace (le + 2 - 2)%nat with le by lia].
      unfold finish in H. destruct (_ <? _); simplify_eq. lia.
Qed.

(** ** Segmentation *)

(** The connection appends each received segment and calls [Parse]. *)
Fixpoint feed (chunks : list bytes) (p : t) (b : Buffer.t) : option (t * Buffer.t) :=
  match chunks with
  | [] => Some (p, b)
  | c :: chunks =>
      match Parse p (Buffer.Append c b) with
      | Some (_, p, b) => feed chunks p b
      | None => None
      end
  end.

(** The parser says [r0] where one call on the whole input [s] says [r]: the
    same, unless an earlier segment ended with an unsupported coding seen and
    no bare LF yet, and the whole input has one. *)
Definition same_rejection (s : bytes) (r0 r : ParseResult) : Prop :=
  r0 = r \/
  r0 = kUnsupported /\ r = kError /\ HasBareLineFeed (header_part s) = true /\
  exists s0 k, s = s0 ++ k /\ parse_bytes s0 = Return kUnsupported.

(** What the parser and the buffer hold after the input [s]. *)
Definition decided (s : bytes) (p : t) (b : Buffer.t) : Prop :=
  match parse_bytes s with
  | Complete r n => result_ p = kComplete /\ request_ p = r /\ Buffer.ReadableView b = drop n s
  | Return kNeedMoreData => p = make /\ Buffer.ReadableView b = s
  | Return r => same_rejection s (result_ p) r /\ Buffer.ReadableView b = s
  end.

Lemma parse_consumes s r n : parse_bytes s = Complete r n -> (n <= length s)%nat.
Proof. intros H. pose proof (parse_extend s []) as Hx. rewrite H in Hx. apply Hx. Qed.

Lemma Parse_stable p b :
  result_ p <> kNeedMoreData -> Parse p b = Some (result_ p, p, b).
Proof. intros H. unfold Parse. by rewrite bool_decide_eq_false_2. Qed.

(** A segment ended between the CR and the LF of a request line of the limit:
    the input is refused. *)
Definition cut_short (s : bytes) (p : t) (b : Buffer.t) : Prop :=
  result_ p = kError /\ Buffer.ReadableView b = s.

Lemma cut_short_step s c p b :
  Buffer.wf b -> cut_short s p b ->
  exists r p' b', Parse p (Buffer.Append c b) = Some (r, p', b') /\ Buffer.wf b' /\ cut_short (s ++ c) p' b'.
Proof.
  intros Hw [Hp Hb]. destruct (Buffer.Append_view c b Hw) as [Hw' Hv].
  rewrite Parse_stable by congruence. do 3 eexists. split; [done|]. split; [done|]. split; [done|]. by rewrite Hv, Hb.
Qed.

Lemma parse_rejects s r : parse_bytes s = Return r -> r = kNeedMoreData \/ rejected r.
Proof.
  intros H. pose proof (parse_extend s []) as Hx. rewrite H in Hx. destruct r; [by left|..]; right; apply Hx.
Qed.

(** A coding is only seen behind the request line. *)
Lemma unsupported_line s : parse_bytes s = Return kUnsupported -> is_Some (find s CRLF).
Proof.
  unfold parse_bytes. destruct (HasBareLineFeed _); [done|]. destruct (find s CRLF); [done|]. by destruct (_ <? _).
Qed.

(** A rejection with more input. *)
Lemma rejection_extend s c r0 r :
  rejected r -> same_rejection s r0 r -> parse_bytes s = Return r -> ~ split_line_end s ->
  exists r', rejected r' /\ parse_bytes (s ++ c) = Return r' /\ same_rejection (s ++ c) r0 r'.
Proof.
  intros Hr Hs Es Hn. pose proof (parse_extend s c) as Hx. rewrite Es in Hx.
  assert (Hx' : parse_bytes (s ++ c) = Return r \/
    HasBareLineFeed (header_part (s ++ c)) = true /\ parse_bytes (s ++ c) = Return kError)
    by (destruct Hr as [-> | ->]; tauto).
  destruct Hs as [->|(-> & -> & Hb & s0 & k & -> & H0)].
  - destruct Hx' as [E|[Hb E]]; [exists r; split_and!; try done; by left|].
    exists kError. split; [by left|]. split; [done|]. destruct Hr as [-> | ->]; [by left|right].
    split_and!; try done. by exists s, c.
  - exists kError. split; [by left|]. split; [by destruct Hx' as [?|[_ ?]]|]. right.
    split_and!; try done; [by apply header_part_app|]. exists s0, (k ++ c). by rewrite app_assoc.
Qed.

Lemma decided_step s c p b :
  Buffer.wf b -> decided s p b ->
  exists r p' b', Parse p (Buffer.Append c b) = Some (r, p', b') /\ Buffer.wf b' /\
                  (decided (s ++ c) p' b' \/ split_line_end s /\ cut_short (s ++ c) p' b').
Proof.
  intros Hw Hd. destruct (Buffer.Append_view c b Hw) as [Hw' Hv]. unfold decided in Hd.
  destruct (parse_bytes s) as [r|r n] eqn:Es.
  - destruct (decide (r = kNeedMoreData)) as [->|Hr].
    + destruct Hd as [-> Hb]. unfold Parse; simpl. rewrite Hv, Hb. unfold decided.
      destruct (parse_bytes (s ++ c)) as [r|r n] eqn:Esc.
      * do 3 eexists. split; [done|]. split; [done|]. left. rewrite Hv, Hb. destruct r; [done|..]; (split; [by left|done]).
      * assert (n <= Buffer.ReadableBytes (Buffer.Append c b))%nat as Hn.
        { rewrite <- Buffer.length_view, Hv, Hb. exact (parse_consumes _ _ _ Esc). }
        destruct (Buffer.Retrieve_view n _ Hw' Hn) as (b' & -> & Hw2 & Hv2). simpl.
        do 3 eexists. split; [done|]. split; [done|]. left. by rewrite Hv2, Hv, Hb.
    + assert (Hrej : same_rejection s (result_ p) r /\ Buffer.ReadableView b = s) by (by destruct r).
      destruct Hrej as [Hp Hb]. assert (Hrr : rejected r) by (by destruct (parse_rejects _ _ Es)).
      assert (Hne : result_ p <> kNeedMoreData).
      { destruct Hp as [->|(-> & _)]; [by destruct Hrr as [-> | ->]|done]. }
      rewrite Parse_stable by done. do 3 eexists. split; [done|]. split; [done|].
      destruct (decide (size s = kMaxRequestLineBytes + 1 /\ find s CRLF = None /\ last s = Some CR)) as [Hcut|Hcut].
      * right. split; [exact Hcut|]. split; [|by rewrite Hv, Hb].
        destruct Hp as [->|(_ & _ & _ & s0 & k & -> & H0)].
        -- destruct Hcut as (_ & Hf & _). destruct Hrr as [-> | ->]; [done|].
           apply unsupported_line in Es as [? E]. congruence.
        -- destruct Hcut as (_ & Hf & _). apply unsupported_line in H0 as [m Hm].
           by rewrite (find_app_Some _ _ _ _ Hm) in Hf.
      * left. destruct (rejection_extend s c _ r Hrr Hp Es Hcut) as (r' & Hr' & E' & Hs').
        unfold decided. rewrite E', Hv, Hb. by destruct Hr' as [-> | ->].
  - pose proof (parse_extend s c) as Hx. rewrite Es in Hx.
    destruct Hd as (H1 & H2 & H3), Hx as [Hn Hx]. rewrite Parse_stable by congruence.
    do 3 eexists. split; [done|]. split; [done|]. left. unfold decided. rewrite Hx, Hv, H3.
    split_and!; [done|done|]. by rewrite drop_app_le.
Qed.

Lemma feed_app cs cs' p b :
  feed (cs ++ cs') p b = match feed cs p b with Some (p, b) => feed cs' p b | None => None end.
Proof.
  revert p b. induction cs as [|c cs IH]; intros p b; simpl; [done|].
  destruct (Parse p _) as [[[r p'] b']|]; simpl; [apply IH|done].
Qed.

(** C20: The parser's decision does not depend on TCP segmentation, with two
    exceptions that are spelled out.  However the input is cut into segments,
    appending them one by one and calling [Parse] after each ends with the same
    request as one call on the whole input, with exactly the bytes after that
    request left in the buffer; with the same rejection; or with the same wait,
    nothing consumed.  First exception: a segment that ends between the CR and
    the LF of a request line of exactly the limit makes the parser refuse the
    input with kError.  Second: an unsupported transfer coding that arrives in an
    earlier segment than a bare LF is reported as kUnsupported, where the whole
    input gives kError. *)
Theorem parse_segmentation chunks :
  exists p b, feed chunks make Buffer.empty = Some (p, b) /\ Buffer.wf b /\
    (decided (concat chunks) p b \/
     (exists q c k, chunks = q ++ c :: k /\ split_line_end (concat q)) /\ cut_short (concat chunks) p b).
Proof.
  induction chunks as [|c cs IH] using rev_ind.
  { exists make, Buffer.empty. split; [done|]. split; [unfold Buffer.wf; simpl; lia|by left]. }
  destruct IH as (p & b & Hf & Hw & Hd).
  rewrite concat_app. cbn [concat]. rewrite app_nil_r.
  assert (Hstep : exists r p' b', Parse p (Buffer.Append c b) = Some (r, p', b') /\ Buffer.wf b' /\
    (decided (concat cs ++ c) p' b' \/
     (exists q c' k, cs ++ [c] = q ++ c' :: k /\ split_line_end (concat q)) /\ cut_short (concat cs ++ c) p' b')).
  { destruct Hd as [Hd|[(q & c' & k & -> & Hq) Hd]].
    - destruct (decided_step (concat cs) c p b Hw Hd) as (r & p' & b' & Hp & Hw' & Hd').
      exists r, p', b'. split; [done|]. split; [done|]. destruct Hd' as [?|[Hs ?]]; [by left|right].
      split; [|done]. by exists cs, c, [].
    - destruct (cut_short_step _ c _ _ Hw Hd) as (r & p' & b' & Hp & Hw' & Hd').
      exists r, p', b'. split; [done|]. split; [done|]. right. split; [|done].
      exists q, c', (k ++ [c]). by rewrite <- app_assoc. }
  destruct Hstep as (r & p' & b' & Hp & Hw' & Hd').
  exists p', b'. rewrite feed_app, Hf. simpl. by rewrite Hp.
Qed.

Definition example_request : bytes :=
  lit "GET /a HTTP/1.1" ++ CRLF ++ lit "Host: x" ++ CRLF ++ lit "Content-Length: 2" ++ CRLF ++ CRLF
  ++ lit "hiGET".

Definition example_chunks : list bytes := (fun c => [c]) <$> example_request.

(** Byte by byte; no prefix of this input is as long as the limit. *)
Lemma parse_segmentation_witness :
  exists p b, feed example_chunks make Buffer.empty = Some (p, b) /\ Buffer.wf b /\
              decided example_request p b.
Proof.
  assert (H : concat example_chunks = example_request) by (vm_compute; reflexivity).
  rewrite <- H. destruct (parse_segmentation example_chunks) as (p & b & H1 & H2 & [H3|[(q & c & k & Hq & Hlen & _) _]]).
  - exists p, b. split; [exact H1|]. split; [exact H2|exact H3].
  - exfalso. apply (f_equal (fun l => length (concat l))) in Hq.
    rewrite concat_app, length_app in Hq. unfold size, kMaxRequestLineBytes in Hlen.
    assert (length (concat example_chunks) = 52)%nat as Hl by (vm_compute; reflexivity). lia.
Defined.

(** A request whose request line has exactly 8192 bytes. *)
Definition long_line : bytes := lit "GET /" ++ repeat "a"%byte 8178 ++ lit " HTTP/1.1".
Definition long_rest : bytes := lit "Host: x" ++ CRLF ++ CRLF.

Definition result_of (chunks : list bytes) : option ParseResult :=
  (fun pb => result_ pb.1) <$> feed chunks make Buffer.empty.

(** A request line of exactly [kMaxRequestLineBytes] is accepted, but the
    same bytes are rejected when a segment ends between its CR and its LF. *)
Theorem parse_split_line_end :
  result_of [long_line ++ CRLF ++ long_rest] = Some kComplete /\
  result_of [long_line; CRLF ++ long_rest] = Some kComplete /\
  result_of [long_line ++ [CR]; [LF] ++ long_rest] = Some kError.
Proof. split_and!; vm_compute; reflexivity. Qed.

(** A chunked request whose header has a bare LF further on: which of the two
    defects is reported depends on where the segments end. *)
Definition coded : bytes := lit "GET / HTTP/1.1" ++ CRLF ++ lit "Transfer-Encoding: chunked" ++ CRLF.

Example parse_coding_before_bare_lf :
  result_of [coded ++ [LF]] = Some kError /\ result_of [coded; [LF]] = Some kUnsupported.
Proof. split; vm_compute; reflexivity. Qed.

End HttpRequestParser.
