(* ===== verification/RequestSerializer.v ===== *)
(** * The request serializer

    Models src/src/http/HttpRequestSerializer.cpp.  The theorem is the round
    trip with the parser of HttpRequest.v: whatever the serializer emits is read
    back as the request it was given, its fields in the parser's form, in
    exactly the bytes it emitted. *)

From S2P Require Import Prelude Bytes Buffer HttpText HttpRequest.

Module HttpRequestSerializer.
Import HttpText HttpRequestParser.

Definition kMaxRequestLineBytes : Z := 8 * 1024.
Definition kMaxHeaderBytes : Z := 32 * 1024.

(** The file's own copies of the helpers. *)
Definition IsToken (value : bytes) : bool := HttpText.IsToken value.
Definition IsValidFieldValue (value : bytes) : bool := HttpText.IsValidFieldValue value.
Definition LowerAscii (value : bytes) : bytes := lower_all value.

(** [None] is [false]; the subtraction is on [std::size_t]. *)
Definition TryAddWithinLimit (limit total value : Z) : option Z :=
  if wrap_u64 (limit - total) <? value then None else Some (wrap_u64 (total + value)).

(** A disjunction of failed additions. *)
Fixpoint add_all (limit : Z) (values : list Z) (total : Z) : option Z :=
  match values with
  | [] => Some total
  | v :: values => total ← TryAddWithinLimit limit total v; add_all limit values total
  end.

#[global] Arguments add_all : simpl never.

Definition IsHexDigit (b : byte) : bool := is_digit b || in_range b 65 70 || in_range b 97 102.

Definition IsUnreserved (b : byte) : bool := is_alnum b || bool_decide (b ∈ lit "-._~").

Definition IsSubDelimiter (b : byte) : bool := bool_decide (b ∈ lit "!$&'()*+,;=").

Definition plain_uri_char (is_query : bool) (b : byte) : bool :=
  IsUnreserved b || IsSubDelimiter b || bool_decide (b = ":"%byte) || bool_decide (b = "@"%byte)
  || bool_decide (b = "/"%byte) || (is_query && bool_decide (b = "?"%byte)).

Fixpoint IsValidUriComponent (value : bytes) (is_query : bool) : bool :=
  match value with
  | [] => true
  | c :: r =>
      if plain_uri_char is_query c then IsValidUriComponent r is_query
      else match r with
           | h1 :: h2 :: r =>
               bool_decide (c = "%"%byte) && IsHexDigit h1 && IsHexDigit h2
               && IsValidUriComponent r is_query
           | _ => false
           end
  end.

Definition IsValidTarget (target : bytes) : bool :=
  match target with
  | c :: _ =>
      if negb (bool_decide (c = "/"%byte)) then false
      else
        let query_start := find target [("?"%byte)] in
        let path := match query_start with Some n => take n target | None => target end in
        let query := match query_start with Some n => drop (S n) target | None => [] end in
        IsValidUriComponent path false && IsValidUriComponent query true
  | [] => false
  end.

(** The loop over the header fields: the bytes counted and the Host fields. *)
Fixpoint check_fields (fields : list (bytes * bytes)) (header_bytes host_count : Z)
    : option (Z * Z) :=
  match fields with
  | [] => Some (header_bytes, host_count)
  | (name, value) :: fields =>
      if negb (IsToken name) || negb (IsValidFieldValue value) then None
      else
        match add_all kMaxHeaderBytes [size name; 2; size value; 2] header_bytes with
        | None => None
        | Some header_bytes =>
            let lower_name := LowerAscii name in
            let host_count := if beq lower_name (lit "host") then wrap_u64 (host_count + 1)
                              else host_count in
            if beq lower_name (lit "content-length") || beq lower_name (lit "transfer-encoding")
               || beq lower_name (lit "connection") then None
            else check_fields fields header_bytes host_count
        end
  end.

Definition field_text (f : bytes * bytes) : bytes := f.1 ++ lit ": " ++ f.2 ++ CRLF.

Definition content_length_text (r : HttpRequest) : bytes :=
  lit "Content-Length: " ++ to_string (size (body r)) ++ CRLF.

Definition kConnection : bytes := lit "Connection: keep-alive" ++ CRLF.

(** [SerializeRequest]; [fields] is the order in which the unordered map of the
    headers is iterated, and [None] is [std::invalid_argument]. *)
Definition SerializeRequest (fields : list (bytes * bytes)) (r : HttpRequest) : option bytes :=
  if negb (IsToken (method r)) || negb (IsValidTarget (target r))
     || negb (beq (version r) (lit "HTTP/1.1")) || (kMaxRequestBodyBytes <? size (body r))
  then None
  else
    _ ← add_all kMaxRequestLineBytes
          [size (method r); 1; size (target r); 1; size (version r)] 0;
    '(header_bytes, host_count) ← check_fields fields 0 0;
    if negb (host_count =? 1) then None
    else
      _ ← add_all kMaxHeaderBytes
            [size (content_length_text r); size kConnection; size CRLF] header_bytes;
      Some (method r ++ lit " " ++ target r ++ lit " " ++ version r ++ CRLF
            ++ concat (field_text <$> fields)
            ++ content_length_text r ++ kConnection ++ CRLF ++ body r).

(** ** What a successful call checked *)

Lemma TryAdd_spec limit total value t :
  0 <= total <= limit -> 0 <= value -> limit < u64_modulus ->
  TryAddWithinLimit limit total value = Some t -> t = total + value /\ t <= limit.
Proof.
  intros Ht Hv Hl. unfold TryAddWithinLimit. rewrite (wrap_u64_small (limit - total)) by mlia.
  destruct (Z.ltb_spec (limit - total) value); [done|]. intros; simplify_eq.
  rewrite wrap_u64_small by mlia. lia.
Qed.

Lemma add_all_spec limit values total t :
  0 <= total <= limit -> Forall (fun v => 0 <= v) values -> limit < u64_modulus ->
  add_all limit values total = Some t -> t = total + sumZ values /\ 0 <= t <= limit.
Proof.
  intros Ht Hv Hl. revert total Ht. induction Hv as [|v values Hv Hvs IH]; intros total Ht H.
  { unfold add_all in H. simplify_eq. unfold sumZ; simpl. lia. }
  unfold add_all in H; fold add_all in H. destruct (TryAddWithinLimit limit total v) as [t'|] eqn:E; [|done]. simpl in H.
  apply TryAdd_spec in E as [-> E]; [|done..]. apply IH in H as [-> H]; [|lia].
  rewrite sumZ_cons. lia.
Qed.

Lemma length_field_text f :
  length (field_text f) = (length f.1 + 2 + length f.2 + 2)%nat.
Proof. unfold field_text. rewrite !length_app. simpl. lia. Qed.

Definition framing_name (n : bytes) : Prop :=
  lower_all n = lit "content-length" \/ lower_all n = lit "transfer-encoding" \/
  lower_all n = lit "connection".

Definition good_field (f : bytes * bytes) : Prop :=
  HttpText.IsToken f.1 = true /\ HttpText.IsValidFieldValue f.2 = true /\ ~ framing_name f.1.

Lemma check_fields_spec fields n h n' h' :
  0 <= n <= kMaxHeaderBytes -> check_fields fields n h = Some (n', h') ->
  Forall good_field fields /\ 0 <= n' <= kMaxHeaderBytes /\
  n' = n + size (concat (field_text <$> fields)).
Proof.
  unfold size. revert n h. induction fields as [|[name value] fields IH]; intros n h Hn H; simpl in H.
  { simplify_eq. split; [constructor|simpl; lia]. }
  destruct (IsToken name) eqn:Et, (IsValidFieldValue value) eqn:Ev; try done. simpl in H.
  destruct (add_all _ _ _) as [n1|] eqn:Ea; [|done].
  apply add_all_spec in Ea as [-> Ea];
    [|done|repeat constructor; unfold size; lia|unfold kMaxHeaderBytes; mlia].
  destruct (beq _ _ || beq _ _ || beq _ _) eqn:Ef; [done|].
  apply IH in H as (H1 & H2 & H3); [|done]. split_and!; [|lia|lia|].
  - constructor; [|done]. split_and!; [done|done|]. unfold framing_name, LowerAscii in *. simpl.
    rewrite !orb_false_iff in Ef. destruct Ef as [[E1 E2] E3]. unfold beq in *.
    apply bool_decide_eq_false in E1, E2, E3. naive_solver.
  - rewrite H3, fmap_cons, concat_cons, length_app, length_field_text. unfold sumZ, size; simpl. lia.
Qed.

(** ** Characters *)

Lemma token_bytes s c : HttpText.IsToken s = true -> c ∈ s -> c <> SP /\ c <> CR /\ c <> LF /\ c <> COLON.
Proof.
  unfold HttpText.IsToken. rewrite andb_true_iff, forallb_forall. intros [H _] Hc.
  apply list_elem_of_In, H in Hc. split_and!; intros ->; vm_compute in Hc; done.
Qed.

Lemma token_nonempty s : HttpText.IsToken s = true -> s <> [].
Proof.
  unfold HttpText.IsToken. rewrite andb_true_iff. intros [_ H] ->. vm_compute in H. done.
Qed.

Lemma value_bytes s c : HttpText.IsValidFieldValue s = true -> c ∈ s -> c <> CR /\ c <> LF.
Proof.
  unfold HttpText.IsValidFieldValue. rewrite forallb_forall. intros H Hc.
  apply list_elem_of_In, H in Hc. split_and!; intros ->; vm_compute in Hc; done.
Qed.

Definition line_safe (c : byte) : Prop := c <> SP /\ c <> CR /\ c <> LF.

Lemma uri_bytes s q : IsValidUriComponent s q = true -> Forall line_safe s.
Proof.
  remember (length s) as n eqn:Hn. assert (length s <= n)%nat as Hle by lia. clear Hn. revert s Hle.
  induction n as [|n IH]; intros [|c s] Hle H; [constructor|simpl in Hle; lia|constructor|].
  simpl in H, Hle. destruct (plain_uri_char q c) eqn:Ec.
  { constructor; [|apply IH; [lia|done]]. split_and!; intros ->; destruct q; vm_compute in Ec; done. }
  destruct s as [|h1 [|h2 s]]; try done. rewrite !andb_true_iff in H.
  destruct H as [[[Hp H1] H2] Hs]. apply bool_decide_eq_true in Hp as ->.
  repeat constructor; try done; try (intros ->; vm_compute in H1; done);
    try (intros ->; vm_compute in H2; done).
  apply IH; [simpl in Hle; lia|done].
Qed.

Lemma target_bytes s : IsValidTarget s = true -> Forall line_safe s /\ s <> [].
Proof.
  destruct s as [|c s]; [done|]. unfold IsValidTarget. destruct (negb _); [done|].
  rewrite andb_true_iff. intros [H1 H2]. split; [|done].
  destruct (find (c :: s) [("?"%byte)]) as [n|] eqn:E; [|by eapply uri_bytes].
  apply find_byte_Some in E as [E _]. rewrite E. apply Forall_app. split; [by eapply uri_bytes|].
  constructor; [done|]. by eapply uri_bytes.
Qed.

(** ** The request line *)

Lemma find_from_drop s p c k :
  drop c s = k -> (c <= length s)%nat -> find_from s p c = (fun n => (c + n)%nat) <$> find k p.
Proof. intros <- H. unfold find_from. by rewrite bool_decide_eq_true_2. Qed.

Lemma drop_app_cons {A} (l : list A) x k : drop (S (length l)) (l ++ x :: k) = k.
Proof. by rewrite drop_app_ge, Nat.sub_succ_l, Nat.sub_diag by lia. Qed.

Lemma request_line_print m t :
  HttpText.IsToken m = true -> Forall line_safe t -> t <> [] ->
  request_line (m ++ SP :: t ++ SP :: lit "HTTP/1.1") = Some (m, t).
Proof.
  intros Hm Ht Hne. unfold request_line.
  set (v := lit "HTTP/1.1"). set (line := m ++ SP :: t ++ SP :: v).
  assert (SP ∉ m) as Hm' by (intros H; by apply (token_bytes _ _ Hm) in H as [? _]).
  assert (SP ∉ t) as Ht' by (intros H; rewrite Forall_forall in Ht; by apply Ht in H as [? _]).
  assert (Hlen : length line = (length m + S (length t + S (length v)))%nat).
  { unfold line. rewrite !length_app; simpl. rewrite !length_app. done. }
  unfold line at 1. rewrite find_byte_app by done.
  rewrite (find_from_drop line _ _ (t ++ SP :: v)) by (try lia; apply drop_app_cons).
  rewrite find_byte_app by done. cbn [fmap option_fmap option_map].
  assert (Hd2 : drop (S (S (length m) + length t)) line = v).
  { unfold line. rewrite drop_app_ge by lia.
    replace (S (S (length m) + length t) - length m)%nat with (S (S (length t))) by lia.
    apply (drop_app_cons t SP v). }
  rewrite (find_from_drop line _ _ v) by (try lia; exact Hd2).
  replace (find v [SP]) with (@None nat) by (vm_compute; reflexivity). simpl fmap.
  rewrite Hd2. unfold line at 1 2. rewrite take_app_length.
  pose proof (token_nonempty _ Hm) as Hmne.
  rewrite (bool_decide_eq_false_2 (is_Some None)) by (by intros [? ?]).
  rewrite (bool_decide_eq_false_2 (length m = 0%nat)) by (by destruct m).
  rewrite (bool_decide_eq_false_2 (_ = S (length m))) by (destruct t; simpl; [done|lia]).
  rewrite (proj2 (beq_spec _ _) eq_refl), Hm. simpl. f_equal. f_equal.
  unfold substr, line. rewrite drop_app_cons.
  replace (S (length m + length t) - length m - 1)%nat with (length t) by lia. apply take_app_length.
Qed.

(** ** The header block *)

Definition lines_text (lines : list bytes) : bytes := concat ((fun l => l ++ CRLF) <$> lines).

Fixpoint fold_lines (lines : list bytes) (f : fields) : ParseResult + fields :=
  match lines with
  | [] => inr f
  | l :: lines => match field_line l f with inl r => inl r | inr f => fold_lines lines f end
  end.

Definition good_line (l : bytes) : Prop := CR ∉ l /\ LF ∉ l /\ l <> [].

Lemma length_lines_text l lines :
  length (lines_text (l :: lines)) = (length l + 2 + length (lines_text lines))%nat.
Proof. unfold lines_text. rewrite fmap_cons, concat_cons, !length_app. simpl. lia. Qed.

(** The loop reads back a block of well-formed lines. *)
Lemma header_loop_lines lines fuel s le0 c f g k :
  Forall good_line lines -> (c <= length s)%nat ->
  drop c s = lines_text lines ++ CRLF ++ k -> (length lines < fuel)%nat ->
  Z.of_nat (c + length (lines_text lines)) + 2 - (Z.of_nat le0 + 2) <= HttpRequestParser.kMaxHeaderBytes ->
  fold_lines lines f = inr g ->
  header_loop fuel s le0 c f = Some (HDone g (c + length (lines_text lines) + 2)).
Proof.
  intros Hl. revert fuel c f. induction Hl as [|l lines (H1 & H2 & H3) Hl IH];
    intros fuel c f Hc Hd Hf Hb Hg; (destruct fuel as [|fuel]; [simpl in Hf; lia|]); simpl header_loop.
  - destruct (Z.ltb_spec (HttpRequestParser.kMaxHeaderBytes + (Z.of_nat le0 + 2)) (Z.of_nat c)).
    { simpl in Hb. lia. }
    change (lines_text [] ++ CRLF ++ k) with ([] ++ CRLF ++ k) in Hd.
    rewrite (find_from_drop _ _ _ _ Hd Hc).
    rewrite (find_CRLF_line [] k) by apply not_elem_of_nil. simpl fmap. rewrite Nat.add_0_r.
    destruct (Z.ltb_spec HttpRequestParser.kMaxHeaderBytes (Z.of_nat c + 2 - (Z.of_nat le0 + 2))).
    { simpl in Hb. lia. }
    rewrite bool_decide_eq_true_2 by done. simpl in Hg. simplify_eq. do 2 f_equal. simpl. lia.
  - rewrite length_lines_text in Hb |- *. simpl in Hg, Hf.
    assert (Hd' : drop c s = l ++ CRLF ++ (lines_text lines ++ CRLF ++ k)).
    { rewrite Hd. unfold lines_text at 1. rewrite fmap_cons, concat_cons, <- !app_assoc. done. }
    destruct (Z.ltb_spec (HttpRequestParser.kMaxHeaderBytes + (Z.of_nat le0 + 2)) (Z.of_nat c)).
    { lia. }
    rewrite (find_from_drop _ _ _ _ Hd' Hc), find_CRLF_line by done. cbn [fmap option_fmap option_map].
    rewrite (proj2 (Z.ltb_ge HttpRequestParser.kMaxHeaderBytes _)) by lia.
    rewrite (bool_decide_eq_false_2 ((c + length l)%nat = c)) by (destruct l; simpl; [done|lia]).
    replace (substr s c (c + length l - c)) with l.
    2: { unfold substr. rewrite Hd'. replace (c + length l - c)%nat with (length l) by lia.
         by rewrite take_app_length. }
    destruct (field_line l f) as [|f']; [done|].
    assert (Hlen : length (drop c s) = length (l ++ CRLF ++ lines_text lines ++ CRLF ++ k)) by congruence.
    rewrite length_drop, !length_app in Hlen. simpl in Hlen.
    rewrite (IH fuel (c + length l + 2)%nat f'); [do 2 f_equal; lia|lia| |lia|lia|done].
    replace (c + length l + 2)%nat with (c + (length l + 2))%nat by lia.
    rewrite <- drop_drop, Hd', drop_app_ge by lia.
    by replace (length l + 2 - length l)%nat with 2%nat by lia.
Qed.

Lemma bare_lf_line prev l k : LF ∉ l -> bare_lf prev (l ++ CRLF ++ k) = bare_lf (Some LF) k.
Proof.
  revert prev; induction l as [|c l IH]; intros prev Hl; simpl.
  - done.
  - rewrite not_elem_of_cons in Hl. destruct Hl as [Hc Hl].
    rewrite bool_decide_eq_false_2 by done. simpl. by apply IH.
Qed.

Lemma bare_lf_lines prev lines k :
  Forall good_line lines -> lines <> [] -> bare_lf prev (lines_text lines ++ k) = bare_lf (Some LF) k.
Proof.
  intros Hl Hne. revert prev. induction Hl as [|l lines (_ & H & _) Hl IH]; [done|]. intros prev.
  unfold lines_text. rewrite fmap_cons, concat_cons, <- !app_assoc, bare_lf_line by done.
  destruct lines as [|l' lines]; [done|]. by apply IH.
Qed.

(** A block that ends in a blank line and has no bare LF passes the check. *)
Lemma header_part_clean s k :
  HasBareLineFeed (s ++ CRLF ++ CRLF) = false ->
  HasBareLineFeed (header_part (s ++ CRLF ++ CRLF ++ k)) = false.
Proof.
  intros H. unfold header_part.
  destruct (find_exists (s ++ CRLF ++ CRLF ++ k) (CRLF ++ CRLF) (length s)) as (h & -> & Hh).
  { rewrite drop_app_length, app_assoc. apply starts_with_app. }
  { rewrite length_app. lia. }
  rewrite !app_assoc, <- (app_assoc s CRLF CRLF), take_app_le by (rewrite length_app; simpl; lia).
  destruct (HasBareLineFeed (take (h + 4) (s ++ CRLF ++ CRLF))) eqn:E; [|done].
  apply (bare_lf_app _ _ (drop (h + 4) (s ++ CRLF ++ CRLF))) in E.
  rewrite take_drop in E. unfold HasBareLineFeed in H. congruence.
Qed.

(** ** Printed fields *)

Definition field_of (f : bytes * bytes) : bytes := f.1 ++ lit ": " ++ f.2.

Lemma trim_front_id s : Forall (fun c => is_ows c = false) s -> trim_front s = s.
Proof. intros [|c l Hc _]; simpl; [done|by rewrite Hc]. Qed.

Lemma TrimOws_id s : Forall (fun c => is_ows c = false) s -> TrimOws s = s.
Proof.
  intros H. unfold TrimOws, trim_back. rewrite (trim_front_id s H), trim_front_id, rev_involutive; [done|].
  by apply Forall_rev.
Qed.

Lemma field_line_print name value f :
  HttpText.IsToken name = true -> HttpText.IsValidFieldValue value = true ->
  field_line (field_of (name, value)) f =
  match note_length (lower_all name) (TrimOws value) f with
  | None => inl kError
  | Some f =>
      if beq (lower_all name) (lit "transfer-encoding") && ContainsChunked (TrimOws value)
      then inl kUnsupported
      else inr (mkFields (store (lower_all name) (TrimOws value) (f_headers f))
                         (has_content_length f) (content_length f))
  end.
Proof.
  intros Hn Hv. unfold field_line, field_of. cbn [fst snd].
  change (lit ": " ++ value) with (COLON :: SP :: value).
  rewrite find_byte_app by (intros H; by apply (token_bytes _ _ Hn) in H as (_ & _ & _ & ?)).
  rewrite take_app_length, drop_app_cons, Hn.
  rewrite bool_decide_eq_false_2 by (apply token_nonempty in Hn; by destruct name).
  change (HttpText.IsValidFieldValue (SP :: value)) with (HttpText.IsValidFieldValue value).
  rewrite Hv. done.
Qed.

Lemma field_line_good nv f :
  good_field nv ->
  field_line (field_of nv) f =
  inr (mkFields (<[ lower_all nv.1 := TrimOws nv.2 ]> (f_headers f)) (has_content_length f)
                (content_length f)).
Proof.
  destruct nv as [name value]. intros (Hn & Hv & Hf). rewrite field_line_print by done. simpl in *.
  unfold framing_name in Hf. unfold note_length, store, beq.
  rewrite !bool_decide_eq_false_2 by tauto. done.
Qed.

Lemma field_line_length n f :
  0 <= n <= kMaxRequestBodyBytes -> has_content_length f = false ->
  field_line (field_of (lit "Content-Length", to_string n)) f =
  inr (mkFields (<[ lit "content-length" := to_string n ]> (f_headers f)) true n).
Proof.
  intros Hn Hf. assert (is_u64 n) as Hu by (unfold kMaxRequestBodyBytes in Hn; mlia).
  destruct (to_string_digits n Hu) as [Hd _].
  assert (TrimOws (to_string n) = to_string n) as Ht.
  { apply TrimOws_id. eapply Forall_impl; [exact Hd|]. intros c Hc. by destruct c. }
  rewrite field_line_print; [|done|].
  - rewrite Ht. change (lower_all (lit "Content-Length")) with (lit "content-length").
    unfold note_length. rewrite (proj2 (beq_spec _ _) eq_refl), Hf, ParseContentLength_to_string by done.
    rewrite (proj2 (Z.ltb_ge _ _)) by lia. done.
  - apply forallb_forall. intros c Hc%list_elem_of_In. rewrite Forall_forall in Hd.
    apply Hd in Hc. by destruct c.
Qed.

Lemma field_line_connection f :
  f_headers f !! lit "connection" = None ->
  field_line (field_of (lit "Connection", lit "keep-alive")) f =
  inr (mkFields (<[ lit "connection" := lit "keep-alive" ]> (f_headers f)) (has_content_length f)
                (content_length f)).
Proof.
  intros H. rewrite field_line_print by done.
  change (lower_all (lit "Connection")) with (lit "connection").
  change (TrimOws (lit "keep-alive")) with (lit "keep-alive").
  change (note_length (lit "connection") (lit "keep-alive") f) with (Some f).
  change (beq (lit "connection") (lit "transfer-encoding")) with false. cbn [andb].
  unfold store. rewrite (proj2 (beq_spec _ _) eq_refl), H. done.
Qed.

(** The fields as a parser stores them: lower-case names, values without
    surrounding blanks, the last of equal names. *)
Definition put_field (m : gmap bytes bytes) (nv : bytes * bytes) : gmap bytes bytes :=
  <[ lower_all nv.1 := TrimOws nv.2 ]> m.
Definition normalised (fields : list (bytes * bytes)) : gmap bytes bytes := foldl put_field ∅ fields.

Lemma fold_fields fields more m :
  Forall good_field fields ->
  fold_lines ((field_of <$> fields) ++ more) (mkFields m false 0) =
  fold_lines more (mkFields (foldl put_field m fields) false 0).
Proof.
  intros Hg. revert m. induction Hg as [|nv fields H Hg IH]; intros m; [done|].
  simpl. rewrite field_line_good by done. simpl. apply IH.
Qed.

Lemma put_fields_lookup fields m n :
  foldl put_field m fields !! n =
  match last (snd <$> filter (fun nv => lower_all nv.1 = n) fields) with
  | Some v => Some (TrimOws v)
  | None => m !! n
  end.
Proof.
  induction fields as [|[n' v] fields IH] using rev_ind; [done|].
  rewrite foldl_app, filter_app, fmap_app. simpl. unfold put_field at 1. cbn [fst snd].
  rewrite filter_cons, filter_nil. cbn [fst]. destruct (decide (lower_all n' = n)) as [<-|Hne].
  - rewrite lookup_insert_eq. cbn [fmap list_fmap]. by rewrite last_snoc.
  - rewrite lookup_insert_ne by done. cbn [fmap list_fmap]. by rewrite app_nil_r.
Qed.

Lemma normalised_lookup fields n :
  normalised fields !! n = TrimOws <$> last (snd <$> filter (fun nv => lower_all nv.1 = n) fields).
Proof. unfold normalised. rewrite put_fields_lookup. by destruct (last _). Qed.

(** Fields that are already stored so. *)
Lemma normalised_of_map (fields : list (bytes * bytes)) (m : gmap bytes bytes) :
  fields ≡ₚ map_to_list m ->
  (forall n v, m !! n = Some v -> lower_all n = n /\ TrimOws v = v) -> normalised fields = m.
Proof.
  intros Hp Hn. assert (Hd : NoDup fields.*1) by (rewrite Hp; apply NoDup_fst_map_to_list).
  rewrite <- (list_to_map_to_list m), <- (list_to_map_proper fields (map_to_list m)) by done.
  assert (Hf : Forall (fun nv => lower_all nv.1 = nv.1 /\ TrimOws nv.2 = nv.2) fields).
  { apply Forall_forall. intros [n v] H. rewrite Hp, elem_of_map_to_list in H. by apply Hn. }
  clear Hp Hn. unfold normalised. induction fields as [|[n v] fields IH] using rev_ind; [done|].
  rewrite fmap_app in Hd. apply NoDup_app in Hd as (Hd & Hdis & _).
  apply Forall_app in Hf as [Hf [[Hl Ht] _]%Forall_cons]. simpl in Hl, Ht.
  rewrite foldl_app, IH, list_to_map_app by done. simpl. unfold put_field. simpl. rewrite Hl, Ht.
  rewrite <- insert_union_r, (right_id_L ∅ _); [done|]. apply not_elem_of_list_to_map_1.
  intros Hin. apply (Hdis n Hin). simpl. set_solver.
Qed.

Lemma good_line_field nv : good_field nv -> good_line (field_of nv).
Proof.
  destruct nv as [n v]. intros (Hn & Hv & _). unfold good_line, field_of. simpl in *.
  split_and!; [| |by apply token_nonempty in Hn; destruct n].
  all: rewrite elem_of_app, !elem_of_cons; intros [H|[H|[H|H]]]; try done;
    [by apply (token_bytes _ _ Hn) in H as (_ & ? & ? & _)|by apply (value_bytes _ _ Hv) in H as [? ?]].
Qed.

(** ** Round trip *)

Definition first_line (r : HttpRequest) : bytes :=
  method r ++ SP :: target r ++ SP :: lit "HTTP/1.1".

Definition header_lines (fields : list (bytes * bytes)) (r : HttpRequest) : list bytes :=
  (field_of <$> fields)
  ++ [field_of (lit "Content-Length", to_string (size (body r)));
      field_of (lit "Connection", lit "keep-alive")].

(** What a successful call checked and printed. *)
Record printed (fields : list (bytes * bytes)) (r : HttpRequest) (out : bytes) : Prop := {
  pr_method : HttpText.IsToken (method r) = true;
  pr_target : IsValidTarget (target r) = true;
  pr_version : version r = lit "HTTP/1.1";
  pr_body : size (body r) <= kMaxRequestBodyBytes;
  pr_line : size (first_line r) <= kMaxRequestLineBytes;
  pr_fields : Forall good_field fields;
  pr_block : size (lines_text (header_lines fields r)) + 2 <= kMaxHeaderBytes;
  pr_out : out = first_line r ++ CRLF ++ lines_text (header_lines fields r) ++ CRLF ++ body r
}.

Lemma lines_text_app l k : lines_text (l ++ k) = lines_text l ++ lines_text k.
Proof. unfold lines_text. by rewrite fmap_app, concat_app. Qed.

Lemma lines_text_fields fields :
  lines_text (field_of <$> fields) = concat (field_text <$> fields).
Proof.
  unfold lines_text. rewrite <- list_fmap_compose. f_equal. apply list_fmap_ext.
  intros _ nv _. unfold compose, field_of, field_text. by rewrite <- !app_assoc.
Qed.

Lemma header_lines_text fields r :
  lines_text (header_lines fields r) =
  concat (field_text <$> fields) ++ content_length_text r ++ kConnection.
Proof.
  unfold header_lines. rewrite lines_text_app, lines_text_fields. f_equal.
Qed.

Lemma SerializeRequest_printed fields r out :
  SerializeRequest fields r = Some out -> printed fields r out.
Proof.
  unfold SerializeRequest.
  destruct (IsToken (method r)) eqn:E1, (IsValidTarget (target r)) eqn:E2,
    (beq (version r) (lit "HTTP/1.1")) eqn:E3, (Z.ltb_spec kMaxRequestBodyBytes (size (body r)));
    try done. cbn [negb orb]. apply beq_spec in E3.
  destruct (add_all kMaxRequestLineBytes _ 0) as [n|] eqn:El; [|done].
  apply add_all_spec in El as [El1 El2];
    [|unfold kMaxRequestLineBytes; lia|repeat constructor; unfold size; lia|unfold kMaxRequestLineBytes; mlia].
  simpl. destruct (check_fields fields 0 0) as [[hb hc]|] eqn:Ef; [|done]. simpl.
  apply check_fields_spec in Ef as (Hf & Hhb & Ehb); [|unfold kMaxHeaderBytes; lia].
  destruct (negb _); [done|].
  destruct (add_all kMaxHeaderBytes _ hb) as [n'|] eqn:Eh; [|done].
  apply add_all_spec in Eh as [Eh1 Eh2];
    [|done|repeat constructor; unfold size; lia|unfold kMaxHeaderBytes; mlia].
  simpl. intros Ho. apply (inj Some) in Ho. split; try done.
  - subst n. unfold sumZ, size in *. simpl in El2. rewrite E3 in El2. unfold first_line.
    rewrite !length_app; simpl. rewrite !length_app. simpl in *. lia.
  - rewrite header_lines_text. unfold sumZ, size in *. cbn [foldr] in Eh1.
    change (length CRLF) with 2%nat in Eh1.
    rewrite (length_app (concat _)), (length_app (content_length_text r)). lia.
  - rewrite header_lines_text, <- Ho, E3. unfold first_line. rewrite <- !app_assoc. simpl.
    by rewrite <- !app_assoc.
Qed.

Lemma header_lines_good fields r : Forall good_field fields -> is_u64 (size (body r)) ->
  Forall good_line (header_lines fields r).
Proof.
  intros Hf Hb. unfold header_lines. rewrite Forall_app, Forall_fmap. split.
  { eapply Forall_impl; [exact Hf|]. apply good_line_field. }
  destruct (to_string_digits _ Hb) as [Hd _]. rewrite Forall_forall in Hd.
  repeat constructor; try done; unfold field_of; simpl.
  all: intros H; repeat (apply elem_of_cons in H as [H|H]; [done|]).
  all: first [by apply Hd in H|by apply elem_of_nil in H].
Qed.

(** The fields the parser collects: [hs] and the two framing fields. *)
Definition framed (hs : gmap bytes bytes) (b : bytes) : gmap bytes bytes :=
  <[ lit "connection" := lit "keep-alive" ]> (<[ lit "content-length" := to_string (size b) ]> hs).

Lemma header_block_fields fields r :
  Forall good_field fields -> size (body r) <= kMaxRequestBodyBytes ->
  fold_lines (header_lines fields r) start =
  inr (mkFields (framed (normalised fields) (body r)) true (size (body r))).
Proof.
  intros Hg Hb. unfold header_lines, start. rewrite fold_fields by done. fold (normalised fields). cbn [fold_lines].
  rewrite field_line_length by (try done; unfold size in *; lia).
  rewrite field_line_connection; [done|]. cbn [f_headers].
  rewrite lookup_insert_ne, normalised_lookup by done.
  destruct (last _) as [v|] eqn:El; [|done]. exfalso. apply last_Some_elem_of in El.
  apply list_elem_of_fmap in El as (nv & _ & [Hl Hin]%list_elem_of_filter). rewrite Forall_forall in Hg.
  apply Hg in Hin as (_ & _ & Hf). apply Hf. unfold framing_name. tauto.
Qed.

Lemma first_line_good r :
  HttpText.IsToken (method r) = true -> Forall line_safe (target r) -> good_line (first_line r).
Proof.
  intros Hm Ht. pose proof (token_nonempty _ Hm) as Hne. rewrite Forall_forall in Ht.
  assert (Hv : Forall line_safe (lit "HTTP/1.1")) by (repeat constructor; done).
  rewrite Forall_forall in Hv. unfold good_line, first_line.
  rewrite !elem_of_app, !elem_of_cons, !elem_of_app, !elem_of_cons.
  split_and!; [| |by destruct (method r)].
  all: intros [H|[H|[H|[H|H]]]]; try done.
  all: first [by apply (token_bytes _ _ Hm) in H as (_ & ? & ? & _)|by apply Ht in H as (_ & ? & ?)
             |by apply Hv in H as (_ & ? & ?)].
Qed.

(** A blank line ends a clean block. *)
Lemma lines_clean lines k :
  Forall good_line lines -> lines <> [] ->
  HasBareLineFeed (header_part (lines_text lines ++ CRLF ++ k)) = false.
Proof.
  intros Hl Hne. destruct (exists_last Hne) as (front & l & ->).
  rewrite lines_text_app. replace (lines_text [l]) with (l ++ CRLF) by (unfold lines_text; simpl; by rewrite app_nil_r).
  rewrite <- !app_assoc, (app_assoc (lines_text front)). apply header_part_clean.
  rewrite <- app_assoc, (app_assoc l), (app_assoc (lines_text front)).
  replace (lines_text front ++ l ++ CRLF) with (lines_text (front ++ [l])).
  - unfold HasBareLineFeed. rewrite bare_lf_lines by done. done.
  - rewrite lines_text_app. unfold lines_text at 2; simpl. by rewrite app_nil_r.
Qed.

(** A printed message is read back. *)
Lemma parse_printed fl lines m t f k :
  good_line fl -> Forall good_line lines -> request_line fl = Some (m, t) ->
  size fl <= kMaxRequestLineBytes -> size (lines_text lines) + 2 <= kMaxHeaderBytes ->
  fold_lines lines start = inr f -> 0 <= content_length f <= size k ->
  parse_bytes (fl ++ CRLF ++ lines_text lines ++ CRLF ++ k) =
  Complete (mkRequest m t (lit "HTTP/1.1") (take (Z.to_nat (content_length f)) k) (f_headers f))
           (length fl + 2 + length (lines_text lines) + 2 + Z.to_nat (content_length f)).
Proof.
  intros Hfl Hl Hr Hs Hb Hf Hc. set (s := fl ++ CRLF ++ lines_text lines ++ CRLF ++ k).
  assert (Hlen : length s = (length fl + 2 + length (lines_text lines) + 2 + length k)%nat).
  { unfold s. rewrite !length_app. simpl. lia. }
  assert (Hclean : HasBareLineFeed (header_part s) = false).
  { pose proof (lines_clean (fl :: lines) k) as H. unfold lines_text at 1 in H.
    rewrite fmap_cons, concat_cons, <- !app_assoc in H. apply H; [by constructor|done]. }
  unfold parse_bytes. rewrite Hclean. unfold s at 1. destruct Hfl as (Hcr & _).
  rewrite find_CRLF_line by done. unfold parse_lines.
  unfold kMaxRequestLineBytes in Hs. unfold HttpRequestParser.kMaxRequestLineBytes.
  rewrite (proj2 (Z.ltb_ge _ _)) by (unfold size in Hs; lia).
  unfold s at 1. rewrite take_app_length, Hr.
  rewrite (header_loop_lines lines _ s (length fl) (length fl + 2) start f k); try done.
  - unfold finish. unfold size in *.
    rewrite (proj2 (Z.ltb_ge _ _)) by lia. do 2 f_equal. unfold substr. f_equal.
    unfold s. rewrite !app_assoc, drop_app_ge by (rewrite !length_app; simpl; lia).
    rewrite !length_app. simpl.
    replace (_ - _)%nat with 0%nat by lia. apply drop_0.
  - lia.
  - unfold s. rewrite drop_app_ge by lia.
    by replace (length fl + 2 - length fl)%nat with 2%nat by lia.
  - assert (H : forall ls, (length ls <= length (lines_text ls))%nat).
    { induction ls as [|l ls IH]; [done|]. rewrite length_lines_text. simpl. lia. }
    specialize (H lines). lia.
  - unfold size, kMaxHeaderBytes, HttpRequestParser.kMaxHeaderBytes in *. lia.
Qed.

(** C21: Round trip.  Whatever [SerializeRequest] emits, followed by any bytes,
    parses as exactly one complete request that ends where the emitted bytes
    end, with the method, target, version and body of the original; so no header
    or target content can move the message boundary.  Its headers are the
    original's with lower-case names and values trimmed of blanks (of names that
    differ only in case, the last one emitted), and the two framing fields the
    serializer adds; they are exactly the original's where these are stored in
    that form, as a parsed request's are. *)
Theorem request_roundtrip (fields : list (bytes * bytes)) r out rest :
  fields ≡ₚ map_to_list (headers r) ->
  SerializeRequest fields r = Some out ->
  exists hs,
    parse_bytes (out ++ rest) =
    Complete (mkRequest (method r) (target r) (version r) (body r) (framed hs (body r))) (length out) /\
    (forall n, hs !! n = TrimOws <$> last (snd <$> filter (fun nv => lower_all nv.1 = n) fields)) /\
    ((forall n v, headers r !! n = Some v -> lower_all n = n /\ TrimOws v = v) -> hs = headers r).
Proof.
  intros Hp [Hm Ht Hv Hb Hl Hf Hk ->]%SerializeRequest_printed.
  exists (normalised fields). split; [|split; [apply normalised_lookup|by apply normalised_of_map]].
  destruct (target_bytes _ Ht) as [Htb Htne].
  assert (is_u64 (size (body r))) as Hu by (unfold kMaxRequestBodyBytes, size in *; mlia).
  rewrite <- !app_assoc.
  rewrite (parse_printed _ _ (method r) (target r) (mkFields (framed (normalised fields) (body r)) true (size (body r)))).
  - rewrite Hv. cbn [content_length f_headers]. unfold size. rewrite Nat2Z.id, take_app_length. f_equal.
    rewrite (length_app (first_line r)), (length_app CRLF), (length_app (lines_text _)),
      (length_app CRLF). change (length CRLF) with 2%nat. lia.
  - by apply first_line_good.
  - by apply header_lines_good.
  - by apply request_line_print.
  - done.
  - done.
  - by apply header_block_fields.
  - simpl. unfold size. rewrite length_app. lia.
Qed.

(** The health checker's probe names its host field [Host]. *)
Definition example_request : HttpRequest :=
  mkRequest (lit "GET") (lit "/a?b=%20") (lit "HTTP/1.1") (lit "hi")
            {[ lit "Host" := lit "x"; lit "x-id" := lit " 1 2" ]}.

Definition example_fields : list (bytes * bytes) := map_to_list (headers example_request).

Definition example_output : bytes := default [] (SerializeRequest example_fields example_request).

Lemma request_roundtrip_witness :
  exists hs,
    parse_bytes (example_output ++ lit "next") =
    Complete (mkRequest (lit "GET") (lit "/a?b=%20") (lit "HTTP/1.1") (lit "hi") (framed hs (lit "hi")))
             (length example_output) /\
    hs !! lit "host" = Some (lit "x") /\ hs !! lit "x-id" = Some (lit "1 2").
Proof.
  destruct (request_roundtrip example_fields example_request example_output (lit "next")) as (hs & H1 & H2 & _).
  - reflexivity.
  - vm_compute; reflexivity.
  - exists hs. split; [exact H1|]. rewrite !H2. split; vm_compute; reflexivity.
Defined.

End HttpRequestSerializer.
