(* ===== verification/HttpResponse.v ===== *)
(** * Responses: serializers and parser

    [Module HttpResponse] models src/src/http/HttpResponse.cpp (framing and
    serialization of complete responses and of streaming heads) and
    [Module HttpResponseParser] models src/src/http/HttpResponseParser.cpp (the
    buffered path [Parse] and the streaming path [ParseHeaders] /
    [ConsumeBody]).  The theorems show that the streaming path delivers exactly
    the body the buffered path returns, however the bytes are segmented and
    however often the sink declines a segment, except for the cut inside a line
    end that the code refuses. *)

From S2P Require Import Prelude Bytes Buffer HttpText HttpRequest.

Module HttpResponse.
Import HttpText.

Inductive ResponseBodyMode := kNormal | kSuppressedWithKnownLength | kSuppressedWithUnknownLength.

#[global] Instance ResponseBodyMode_eq_dec : EqDecision ResponseBodyMode.
Proof. solve_decision. Defined.

Abbreviation header_list := (list (bytes * bytes)).

Record HttpResponse := mkResponse {
  status : Z;
  reason : bytes;
  headers : header_list;
  body : bytes;
  body_mode : ResponseBodyMode;
  content_length : option Z
}.

Record HttpResponseHead := mkHead {
  head_status : Z;
  head_reason : bytes;
  head_headers : header_list;
  head_body_mode : ResponseBodyMode;
  head_content_length : option Z
}.

(** The default member initialisers. *)
Definition default_response : HttpResponse := mkResponse 200 (lit "OK") [] [] kNormal None.
Definition default_head : HttpResponseHead := mkHead 200 (lit "OK") [] kNormal None.

Definition HasLineBreak (value : bytes) : bool :=
  existsb (fun c => bool_decide (c = CR) || bool_decide (c = LF)) value.

Definition Lowercase (value : bytes) : bytes := lower_all value.

Definition bodyless_status (s : Z) : bool := (s =? 204) || (s =? 304).

Definition status_line_ok (s : Z) (r : bytes) : bool :=
  negb ((s <? 200) || (599 <? s) || HasLineBreak r).

Definition has {A} (o : option A) : bool := match o with Some _ => true | None => false end.
Definition empty (s : bytes) : bool := bool_decide (s = []).

(** The loop over the caller's headers; [None] is the exception. *)
Fixpoint header_lines (hs : header_list) : option bytes :=
  match hs with
  | [] => Some []
  | (name, value) :: hs =>
      if empty name || HasLineBreak name || HasLineBreak value then None
      else if beq (Lowercase name) (lit "content-length")
              || beq (Lowercase name) (lit "transfer-encoding") then None
      else rest ← header_lines hs; Some (name ++ lit ": " ++ value ++ CRLF ++ rest)
  end.

Definition status_line (s : Z) (r : bytes) : bytes :=
  lit "HTTP/1.1 " ++ to_string s ++ lit " " ++ r ++ CRLF.

Definition length_line (n : Z) : bytes := lit "Content-Length: " ++ to_string n ++ CRLF.

(** The checks of [HttpResponse::Serialize] on its framing members. *)
Definition framing_ok (r : HttpResponse) : bool :=
  if bodyless_status (status r) then
    empty (body r) && bool_decide (body_mode r = kNormal) && negb (has (content_length r))
  else match body_mode r with
       | kNormal => negb (has (content_length r))
       | kSuppressedWithKnownLength => has (content_length r) && empty (body r)
       | kSuppressedWithUnknownLength => negb (has (content_length r)) && empty (body r)
       end.

Definition Serialize (r : HttpResponse) : option bytes :=
  if negb (status_line_ok (status r) (reason r)) || negb (framing_ok r) then None
  else
    fields ← header_lines (headers r);
    let length_field :=
      if negb (bodyless_status (status r))
         && negb (bool_decide (body_mode r = kSuppressedWithUnknownLength))
      then length_line (if bool_decide (body_mode r = kSuppressedWithKnownLength)
                        then default 0 (content_length r) else size (body r))
      else [] in
    Some (status_line (status r) (reason r) ++ fields ++ length_field ++ CRLF
          ++ (if bool_decide (body_mode r = kNormal) then body r else [])).

Definition head_framing_ok (h : HttpResponseHead) : bool :=
  if bodyless_status (head_status h) then
    bool_decide (head_body_mode h = kNormal) && negb (has (head_content_length h))
  else match head_body_mode h with
       | kNormal => has (head_content_length h)
       | kSuppressedWithKnownLength => has (head_content_length h)
       | kSuppressedWithUnknownLength => negb (has (head_content_length h))
       end.

Definition SerializeHead (h : HttpResponseHead) : option bytes :=
  if negb (status_line_ok (head_status h) (head_reason h)) || negb (head_framing_ok h) then None
  else
    fields ← header_lines (head_headers h);
    let length_field :=
      if negb (bodyless_status (head_status h))
         && negb (bool_decide (head_body_mode h = kSuppressedWithUnknownLength))
      then length_line (default 0 (head_content_length h)) else [] in
    Some (status_line (head_status h) (head_reason h) ++ fields ++ length_field ++ CRLF).

End HttpResponse.

Module HttpResponseParser.
Import HttpText HttpResponse.
Import HttpRequestParser(ParseResult, kNeedMoreData, kComplete, kError, kUnsupported, rejected).

Definition kMaxStatusLineBytes : Z := 8 * 1024.
Definition kMaxHeaderBytes : Z := 32 * 1024.
Definition kMaxUpstreamResponseBodyBytes : Z := 16 * 1024 * 1024.

Record ParsedHeader := mkParsed {
  p_status : Z;
  p_reason : bytes;
  p_headers : header_list;
  p_has_content_length : bool;
  p_content_length : Z;
  p_bodyless : bool;
  p_header_end : nat
}.

Record fields := mkFields {
  f_headers : header_list;
  f_has_length : bool;
  f_length : Z
}.

Definition start : fields := mkFields [] false 0.

(** The body of the loop on one line; [inl] is an early return. *)
Definition field_line (line : bytes) (f : fields) : ParseResult + fields :=
  match find line [COLON] with
  | None => inl kError
  | Some colon =>
      if bool_decide (colon = 0%nat) || negb (IsToken (take colon line)) then inl kError
      else
        let raw_value := drop (S colon) line in
        if negb (IsValidFieldValue raw_value) then inl kError
        else
          let value := TrimOws raw_value in
          let name := lower_all (take colon line) in
          let store := f_headers f ++ [(take colon line, value)] in
          if beq name (lit "transfer-encoding") then inl kUnsupported
          else if beq name (lit "content-length") then
            if f_has_length f then inl kError
            else match ParseContentLength value with
                 | None => inl kError
                 | Some n => if kMaxUpstreamResponseBodyBytes <? n then inl kError
                             else inr (mkFields store true n)
                 end
          else inr (mkFields store (f_has_length f) (f_length f))
  end.

Inductive head :=
| HReturn (r : ParseResult)
| HDone (f : fields) (cursor : nat).

(** [for (;;)]: [None] is exhausted fuel, which [resp_loop_total] excludes. *)
Fixpoint header_loop (fuel : nat) (s : bytes) (line_end0 cursor : nat) (f : fields)
    : option head :=
  match fuel with
  | O => None
  | S fuel =>
      let base := Z.of_nat line_end0 + 2 in
      if kMaxHeaderBytes + base <? Z.of_nat cursor then Some (HReturn kError)
      else match find_from s CRLF cursor with
           | None =>
               if kMaxStatusLineBytes <? size s - Z.of_nat cursor then Some (HReturn kError)
               else if kMaxHeaderBytes + base <? size s then Some (HReturn kError)
               else Some (HReturn kNeedMoreData)
           | Some line_end =>
               if kMaxHeaderBytes <? Z.of_nat line_end + 2 - base then Some (HReturn kError)
               else if bool_decide (line_end = cursor) then Some (HDone f (cursor + 2))
               else
                 let line := substr s cursor (line_end - cursor) in
                 if kMaxStatusLineBytes <? size line then Some (HReturn kError)
                 else match field_line line f with
                      | inl r => Some (HReturn r)
                      | inr f => header_loop fuel s line_end0 (line_end + 2) f
                      end
           end
  end.

(** Status and reason of a valid status line. *)
Definition status_of (line : bytes) : option (Z * bytes) :=
  match find line [SP] with
  | None => None
  | Some first_space =>
      let second_space := find_from line [SP] (S first_space) in
      if negb (bool_decide (first_space = 8%nat)) || negb (bool_decide (second_space = Some 12%nat))
         || bool_decide (length line <= 13)%nat
         || negb (beq (take 8 line) (lit "HTTP/1.1"))
      then None
      else match substr line 9 3 with
           | [d0; d1; d2] =>
               if negb (in_range d0 50 53) || negb (is_digit d1) || negb (is_digit d2)
                  || negb (IsValidFieldValue (drop 13 line))
               then None
               else Some ((code d0 - 48) * 100 + (code d1 - 48) * 10 + (code d2 - 48), drop 13 line)
           | _ => None
           end
  end.

(** The checks after the loop. *)
Definition finish_area (response_to_head : bool) (s : Z) (r : bytes) (f : fields) (cursor : nat)
    : ParseResult + ParsedHeader :=
  let bodyless := bodyless_status s in
  if bodyless then
    if f_has_length f && negb (f_length f =? 0) then inl kError
    else inr (mkParsed s r (f_headers f) (f_has_length f) 0 true cursor)
  else if negb (f_has_length f) && negb response_to_head then inl kError
  else inr (mkParsed s r (f_headers f) (f_has_length f) (f_length f) false cursor).

Definition parse_lines (response_to_head : bool) (s : bytes) (line_end : nat)
    : ParseResult + ParsedHeader :=
  if kMaxStatusLineBytes <? Z.of_nat line_end then inl kError
  else match status_of (take line_end s) with
       | None => inl kError
       | Some (st, r) =>
           match header_loop (S (length s)) s line_end (line_end + 2) start with
           | None => inl kError
           | Some (HReturn r) => inl r
           | Some (HDone f cursor) => finish_area response_to_head st r f cursor
           end
       end.

(** [ParseHeaderArea] on the readable bytes; [inr] is [kComplete]. *)
Definition ParseHeaderArea (response_to_head : bool) (s : bytes) : ParseResult + ParsedHeader :=
  if HasBareLineFeed (header_part s) then inl kError
  else match find s CRLF with
       | None => if kMaxStatusLineBytes <? size s then inl kError else inl kNeedMoreData
       | Some line_end => parse_lines response_to_head s line_end
       end.

(** ** The parser object *)

Record t := mk {
  result_ : ParseResult;
  headers_complete_ : bool;
  response_to_head_ : bool;
  response_ : HttpResponse;
  head_ : HttpResponseHead;
  remaining_body_ : Z;
  body_complete_ : bool
}.

Definition make : t := mk kNeedMoreData false false default_response default_head 0 false.

Definition Reset (response_to_head : bool) (p : t) : t :=
  mk kNeedMoreData false response_to_head default_response default_head 0 false.

Definition with_result (p : t) (r : ParseResult) : t :=
  mk r (headers_complete_ p) (response_to_head_ p) (response_ p) (head_ p) (remaining_body_ p)
     (body_complete_ p).

(** What [Parse] makes of a parsed header and the bytes after it; [None] waits
    for the body.  The second component is the number of bytes consumed. *)
Definition buffered (response_to_head : bool) (h : ParsedHeader) (s : bytes)
    : option (HttpResponse * nat) :=
  let length := if p_bodyless h then 0 else p_content_length h in
  if response_to_head then
    Some (if p_bodyless h then mkResponse (p_status h) (p_reason h) (p_headers h) [] kNormal None
          else if p_has_content_length h
          then mkResponse (p_status h) (p_reason h) (p_headers h) [] kSuppressedWithKnownLength
                          (Some length)
          else mkResponse (p_status h) (p_reason h) (p_headers h) [] kSuppressedWithUnknownLength
                          None,
          p_header_end h)
  else if size s - Z.of_nat (p_header_end h) <? length then None
  else Some (mkResponse (p_status h) (p_reason h) (p_headers h)
                        (substr s (p_header_end h) (Z.to_nat length)) kNormal None,
             (p_header_end h + Z.to_nat length)%nat).

(** [None] would be the exception of [Retrieve]. *)
Definition Parse (p : t) (input : Buffer.t) : option (ParseResult * t * Buffer.t) :=
  if negb (bool_decide (result_ p = kNeedMoreData)) then Some (result_ p, p, input)
  else match ParseHeaderArea (response_to_head_ p) (Buffer.ReadableView input) with
       | inl r => Some (r, with_result p r, input)
       | inr h =>
           let p' r resp := mk r true (response_to_head_ p) resp (head_ p) (remaining_body_ p)
                               (body_complete_ p) in
           match buffered (response_to_head_ p) h (Buffer.ReadableView input) with
           | None => Some (kNeedMoreData, p' kNeedMoreData (response_ p), input)
           | Some (resp, n) =>
               input ← Buffer.Retrieve n input; Some (kComplete, p' kComplete resp, input)
           end
       end.

(** The head, the remaining body and whether the body is complete. *)
Definition head_of (response_to_head : bool) (h : ParsedHeader) (remaining : Z)
    : HttpResponseHead * Z * bool :=
  if p_bodyless h then (mkHead (p_status h) (p_reason h) (p_headers h) kNormal None, remaining, true)
  else if response_to_head then
    (if p_has_content_length h
     then mkHead (p_status h) (p_reason h) (p_headers h) kSuppressedWithKnownLength
                 (Some (p_content_length h))
     else mkHead (p_status h) (p_reason h) (p_headers h) kSuppressedWithUnknownLength None,
     remaining, true)
  else (mkHead (p_status h) (p_reason h) (p_headers h) kNormal (Some (p_content_length h)),
        p_content_length h, p_content_length h =? 0).

Definition ParseHeaders (p : t) (input : Buffer.t) : option (ParseResult * t * Buffer.t) :=
  if negb (bool_decide (result_ p = kNeedMoreData)) then Some (result_ p, p, input)
  else match ParseHeaderArea (response_to_head_ p) (Buffer.ReadableView input) with
       | inl r => Some (r, with_result p r, input)
       | inr h =>
           let '(hd, remaining, complete) := head_of (response_to_head_ p) h (remaining_body_ p) in
           input ← Buffer.Retrieve (p_header_end h) input;
           Some (kComplete, mk (result_ p) true (response_to_head_ p) (response_ p) hd remaining
                               complete, input)
       end.

(** [sink] is what the callback answers for the segment; [None] is the
    [std::logic_error].  The fourth component is the segment the callback was
    given and kept. *)
Definition ConsumeBody (sink : bytes -> bool) (p : t) (input : Buffer.t)
    : option (ParseResult * t * Buffer.t * bytes) :=
  if negb (headers_complete_ p) then None
  else if negb (bool_decide (result_ p = kNeedMoreData)) || body_complete_ p then
    Some (kComplete, with_result p kComplete, input, [])
  else
    let view := Buffer.ReadableView input in
    let n := Z.min (remaining_body_ p) (size view) in
    if n =? 0 then Some (kNeedMoreData, p, input, [])
    else
      let segment := take (Z.to_nat n) view in
      if negb (sink segment) then Some (kNeedMoreData, p, input, [])
      else
        input ← Buffer.Retrieve (Z.to_nat n) input;
        let remaining := remaining_body_ p - n in
        let p := if remaining =? 0
                 then mk kComplete (headers_complete_ p) (response_to_head_ p) (response_ p)
                         (head_ p) remaining true
                 else mk (result_ p) (headers_complete_ p) (response_to_head_ p) (response_ p)
                         (head_ p) remaining (body_complete_ p) in
        Some (result_ p, p, input, segment).

(** ** The header area of a growing input *)

(** The input ends between the CR and the LF of a line of exactly the limit. *)
Definition split_line_end (s : bytes) : Prop :=
  last s = Some CR /\
  exists c, (c <= length s)%nat /\
    (c = 0%nat \/ (2 <= c)%nat /\ starts_with (drop (c - 2) s) CRLF = true) /\
    find_from s CRLF c = None /\ size s - Z.of_nat c = kMaxStatusLineBytes + 1.

Lemma resp_loop_total fuel s le0 c f :
  (c <= length s)%nat -> (length s - c < fuel)%nat -> is_Some (header_loop fuel s le0 c f).
Proof.
  revert c f. induction fuel as [|fuel IH]; intros c f Hc Hf; [lia|]. simpl.
  destruct (_ <? Z.of_nat c); [done|].
  destruct (find_from s CRLF c) as [le|] eqn:E; [|by repeat (destruct (_ <? _))].
  apply find_from_length in E as [E1 E2]. change (length CRLF) with 2%nat in E2.
  destruct (_ <? _); [done|]. case_bool_decide; [done|]. destruct (_ <? _); [done|].
  destruct (field_line _ f); [done|]. apply IH; lia.
Qed.

(** Where a found line ends, there is a CRLF. *)
Lemma find_from_at s p c n : find_from s p c = Some n -> starts_with (drop n s) p = true.
Proof.
  intros (H1 & H2 & H3)%find_from_Some. apply find_Some in H3 as (H3 & _ & _).
  rewrite drop_drop in H3. by replace (c + (n - c))%nat with n in H3 by lia.
Qed.

Lemma resp_loop_end fuel s le0 c f g e :
  header_loop fuel s le0 c f = Some (HDone g e) ->
  (2 <= c <= length s)%nat -> starts_with (drop (c - 2) s) CRLF = true ->
  (c + 2 <= e <= length s)%nat /\ starts_with (drop (e - 4) s) (CRLF ++ CRLF) = true.
Proof.
  revert c f. induction fuel as [|fuel IH]; intros c f H Hc Hs; simpl in H; [done|].
  destruct (_ <? Z.of_nat c); [done|].
  destruct (find_from s CRLF c) as [le|] eqn:E; [|by repeat (destruct (_ <? _))].
  pose proof (find_from_length _ _ _ _ E) as [E1 E2]. change (length CRLF) with 2%nat in E2.
  apply find_from_at in E. destruct (_ <? _); [done|]. case_bool_decide.
  - simplify_eq. split; [lia|]. replace (c + 2 - 4)%nat with (c - 2)%nat by lia.
    apply starts_with_spec in Hs as [k Hk]. apply starts_with_spec in E as [k' Hk'].
    assert (drop c s = k) as Hd.
    { replace c with (c - 2 + 2)%nat by lia. rewrite <- drop_drop, Hk. done. }
    apply starts_with_spec. exists k'. rewrite Hk, <- (app_assoc CRLF CRLF k'). congruence.
  - destruct (_ <? _); [done|]. destruct (field_line _ f) as [|f']; [done|].
    apply IH in H as (A1 & A2); [|lia|by replace (le + 2 - 2)%nat with le by lia].
    split; [lia|done].
Qed.

Lemma long_line_split s k c le :
  (2 <= c <= length s)%nat -> starts_with (drop (c - 2) s) CRLF = true ->
  find_from s CRLF c = None -> kMaxStatusLineBytes < size s - Z.of_nat c ->
  find_from (s ++ k) CRLF c = Some le ->
  split_line_end s \/ kMaxStatusLineBytes < Z.of_nat (le - c).
Proof.
  intros Hc Hs E Hb E'. pose proof (find_from_app_None _ _ _ _ _ (proj2 Hc) E E') as Hle.
  change (length CRLF) with 2%nat in Hle. unfold size in Hb.
  destruct (decide (kMaxStatusLineBytes < Z.of_nat (le - c))) as [|Hn]; [by right|left].
  apply find_from_at in E'. rewrite drop_app_le in E' by lia. apply starts_with_spec in E' as [z E'].
  split; [|exists c; split_and!; [lia|right; split; [lia|done]|done|unfold size; lia]].
  rewrite last_lookup. replace (pred (length s)) with le by lia.
  rewrite <- (take_drop le s), lookup_app_r, length_take_le, Nat.sub_diag by (rewrite ?length_take; lia).
  destruct (drop le s) as [|x d] eqn:Ed.
  { apply (f_equal length) in Ed. rewrite length_drop in Ed. simpl in Ed. lia. }
  simpl in E'. by simplify_eq.
Qed.

Lemma resp_field_rejects line f r : field_line line f = inl r -> rejected r.
Proof.
  unfold field_line, rejected. destruct (find line [COLON]); [|naive_solver].
  destruct (_ || _); [naive_solver|]. destruct (negb _); [naive_solver|].
  destruct (beq _ _); [naive_solver|]. destruct (beq _ _); [|naive_solver].
  destruct (f_has_length f); [naive_solver|]. destruct (ParseContentLength _); [|naive_solver].
  destruct (_ <? _); naive_solver.
Qed.

Lemma resp_loop_ge fuel s le0 c f g e :
  header_loop fuel s le0 c f = Some (HDone g e) -> (c + 2 <= e)%nat.
Proof.
  revert c f. induction fuel as [|fuel IH]; intros c f H; simpl in H; [done|].
  destruct (_ <? Z.of_nat c); [done|].
  destruct (find_from s CRLF c) as [le|] eqn:E; [|by repeat (destruct (_ <? _))].
  apply find_from_length in E as [E _]. destruct (_ <? _); [done|].
  case_bool_decide; [simplify_eq; lia|]. destruct (_ <? _); [done|].
  destruct (field_line _ f) as [|f']; [done|]. apply IH in H. lia.
Qed.

Lemma resp_loop_extend fuel fuel' s k le0 c f :
  (2 <= c <= length s)%nat -> starts_with (drop (c - 2) s) CRLF = true ->
  (length (s ++ k) - c < fuel')%nat ->
  match header_loop fuel s le0 c f with
  | Some (HReturn kNeedMoreData) =>
      forall g e, header_loop fuel' (s ++ k) le0 c f = Some (HDone g e) -> (length s < e)%nat
  | Some (HReturn r) =>
      rejected r /\ (split_line_end s \/ header_loop fuel' (s ++ k) le0 c f = Some (HReturn r))
  | Some o => header_loop fuel' (s ++ k) le0 c f = Some o
  | None => True
  end.
Proof.
  revert fuel' c f. induction fuel as [|fuel IH]; intros fuel' c f Hc Hs Hf; [done|].
  destruct fuel' as [|fuel']; [lia|]. simpl.
  destruct (Z.ltb_spec (kMaxHeaderBytes + (Z.of_nat le0 + 2)) (Z.of_nat c)); [split; [by left|by right]|].
  destruct (find_from s CRLF c) as [le|] eqn:E.
  - rewrite (find_from_app_Some _ _ _ _ _ E). pose proof (find_from_at _ _ _ _ E) as Hat.
    apply find_from_length in E as [E1 E2]. change (length CRLF) with 2%nat in E2.
    destruct (_ <? _); [split; [by left|by right]|]. case_bool_decide; [done|].
    rewrite substr_app by lia. destruct (_ <? _); [split; [by left|by right]|].
    destruct (field_line _ f) as [r|f'] eqn:Ef.
    + apply resp_field_rejects in Ef as [-> | ->]; (split; [by left + by right|by right]).
    + apply IH; [lia|by replace (le + 2 - 2)%nat with le by lia|]. rewrite length_app in *. lia.
  - destruct (Z.ltb_spec kMaxStatusLineBytes (size s - Z.of_nat c)) as [Hb|Hb];
      [|destruct (Z.ltb_spec (kMaxHeaderBytes + (Z.of_nat le0 + 2)) (size s)) as [Hb'|Hb']].
    + split; [by left|]. unfold size in *. rewrite length_app.
      destruct (find_from (s ++ k) CRLF c) as [le|] eqn:E'.
      * destruct (long_line_split s k c le Hc Hs E Hb E') as [|Hl]; [by left|right].
        destruct (_ <? _); [done|]. rewrite bool_decide_eq_false_2 by (unfold kMaxStatusLineBytes in *; lia).
        apply find_from_length in E' as [_ E']. change (length CRLF) with 2%nat in E'.
        unfold substr. rewrite length_take_le by (rewrite length_drop; lia).
        by rewrite (proj2 (Z.ltb_lt _ _)).
      * right. by rewrite (proj2 (Z.ltb_lt _ _)) by lia.
    + split; [by left|]. right. unfold size in *. rewrite length_app.
      destruct (find_from (s ++ k) CRLF c) as [le|] eqn:E'.
      * pose proof (find_from_app_None _ _ _ _ _ (proj2 Hc) E E') as Hle.
        change (length CRLF) with 2%nat in Hle.
        rewrite (proj2 (Z.ltb_lt kMaxHeaderBytes (Z.of_nat le + 2 - (Z.of_nat le0 + 2)))) by lia. done.
      * rewrite (proj2 (Z.ltb_lt (kMaxHeaderBytes + _) _)) by lia. by destruct (_ <? _).
    + intros g e. destruct (find_from (s ++ k) CRLF c) as [le|] eqn:E'; [|by repeat (destruct (_ <? _))].
      pose proof (find_from_app_None _ _ _ _ _ (proj2 Hc) E E') as Hle.
      change (length CRLF) with 2%nat in Hle. destruct (_ <? _); [done|].
      case_bool_decide; [intros; simplify_eq; lia|]. destruct (_ <? _); [done|].
      destruct (field_line _ f) as [|f']; [done|]. intros He%resp_loop_ge. lia.
Qed.

Lemma resp_loop_done s le f e :
  find s CRLF = Some le -> header_loop (S (length s)) s le (le + 2) start = Some (HDone f e) ->
  (e <= length s)%nat /\ exists h, find s (CRLF ++ CRLF) = Some h.
Proof.
  intros Hle H. pose proof (find_length _ _ _ Hle) as Hl. change (length CRLF) with 2%nat in Hl.
  apply find_Some in Hle as (Hs & _ & _).
  apply resp_loop_end in H as (H1 & H2); [|lia|by replace (le + 2 - 2)%nat with le by lia].
  split; [lia|]. destruct (find_exists s (CRLF ++ CRLF) (e - 4)) as (h & Hh & _); [done|lia|eauto].
Qed.

Lemma finish_area_end h st r f e ph : finish_area h st r f e = inr ph -> p_header_end ph = e.
Proof. unfold finish_area. intros. by repeat case_match; simplify_eq. Qed.

Lemma finish_area_rejects h st r f e r' : finish_area h st r f e = inl r' -> r' = kError.
Proof. unfold finish_area. intros. by repeat case_match; simplify_eq. Qed.

Lemma resp_lines_extend h s k le :
  find s CRLF = Some le ->
  match parse_lines h s le with
  | inl kNeedMoreData =>
      forall ph, parse_lines h (s ++ k) le = inr ph -> (length s < p_header_end ph)%nat
  | inl r => rejected r /\ (split_line_end s \/ parse_lines h (s ++ k) le = inl r)
  | inr ph => (p_header_end ph <= length s)%nat /\ (exists n, find s (CRLF ++ CRLF) = Some n) /\
              parse_lines h (s ++ k) le = inr ph
  end.
Proof.
  intros El. pose proof (find_length _ _ _ El) as Hl. change (length CRLF) with 2%nat in Hl.
  pose proof El as (Hs & _ & _)%find_Some.
  unfold parse_lines. rewrite take_app_le by lia.
  destruct (_ <? Z.of_nat le); [split; [by left|by right]|].
  destruct (status_of (take le s)) as [[st r]|]; [|split; [by left|by right]].
  pose proof (resp_loop_extend (S (length s)) (S (length (s ++ k))) s k le (le + 2) start
                ltac:(lia) ltac:(by replace (le + 2 - 2)%nat with le by lia)
                ltac:(rewrite length_app; lia)) as Hx.
  destruct (header_loop (S (length s)) s le (le + 2) start) as [[r'|f e]|] eqn:Eh.
  - destruct r'; try (destruct Hx as [Hr [Hx|Hx]]; split; [done|by left|done|right; by rewrite Hx]).
    intros ph. destruct (header_loop _ (s ++ k) _ _ _) as [[r'|f e]|]; try done.
    intros <-%finish_area_end. by eapply Hx.
  - destruct (resp_loop_done _ _ _ _ El Eh) as [He Hh]. rewrite Hx.
    destruct (finish_area h st r f e) as [r'|ph] eqn:Ef.
    + apply finish_area_rejects in Ef as ->. split; [by left|by right].
    + apply finish_area_end in Ef as ->. done.
  - destruct (resp_loop_total (S (length s)) s le (le + 2) start) as [? Ht]; [lia|lia|congruence].
Qed.

Lemma resp_first_line s k n :
  kMaxStatusLineBytes < size s -> find s CRLF = None -> find (s ++ k) CRLF = Some n ->
  split_line_end s \/ kMaxStatusLineBytes < Z.of_nat n.
Proof.
  intros Hs Hf E. pose proof (find_app_None _ _ _ _ Hf E) as Hl.
  change (length CRLF) with 2%nat in Hl. unfold size in Hs.
  destruct (decide (kMaxStatusLineBytes < Z.of_nat n)) as [|Hn]; [by right|left].
  apply find_Some in E as (E & _ & _). rewrite drop_app_le in E by lia.
  apply starts_with_spec in E as [z E]. split.
  - rewrite last_lookup. replace (pred (length s)) with n by lia.
    rewrite <- (take_drop n s), lookup_app_r, length_take_le, Nat.sub_diag by (rewrite ?length_take; lia).
    destruct (drop n s) as [|c d] eqn:Ed; [|simpl in E; by simplify_eq].
    apply (f_equal length) in Ed. rewrite length_drop in Ed. simpl in Ed. lia.
  - exists 0%nat. split_and!; [lia|by left| |unfold size; lia].
    unfold find_from. rewrite bool_decide_eq_true_2, drop_0, Hf by lia. done.
Qed.

(** What more input can change. *)
Lemma area_extend h s k :
  match ParseHeaderArea h s with
  | inl kNeedMoreData =>
      forall ph, ParseHeaderArea h (s ++ k) = inr ph -> (length s < p_header_end ph)%nat
  | inl r => rejected r /\
      (split_line_end s \/ exists r', rejected r' /\ ParseHeaderArea h (s ++ k) = inl r')
  | inr ph => (p_header_end ph <= length s)%nat /\ ParseHeaderArea h (s ++ k) = inr ph
  end.
Proof.
  assert (Hrej : forall r, rejected r ->
    (HasBareLineFeed (header_part (s ++ k)) = false -> ParseHeaderArea h (s ++ k) = inl r) ->
    exists r', rejected r' /\ ParseHeaderArea h (s ++ k) = inl r').
  { intros r Hr Hp. destruct (HasBareLineFeed (header_part (s ++ k))) eqn:Eb; [|eauto].
    exists kError. split; [by left|]. unfold ParseHeaderArea. by rewrite Eb. }
  unfold ParseHeaderArea at 1. destruct (HasBareLineFeed (header_part s)) eqn:Eb.
  { split; [by left|]. right. apply (Hrej kError); [by left|].
    intros Hb. apply (header_part_app _ k) in Eb. congruence. }
  destruct (find s CRLF) as [le|] eqn:El.
  - assert (Hsame : HasBareLineFeed (header_part (s ++ k)) = false ->
                    ParseHeaderArea h (s ++ k) = parse_lines h (s ++ k) le).
    { intros H. unfold ParseHeaderArea. by rewrite H, (find_app_Some _ _ _ _ El). }
    pose proof (resp_lines_extend h s k le El) as Hx. destruct (parse_lines h s le) as [r|ph].
    + destruct r; try (destruct Hx as [Hr [Hx|Hx]]; (split; [done|]); [by left|right];
        (apply (Hrej _ Hr); intros Hb; by rewrite Hsame)).
      intros ph. unfold ParseHeaderArea at 1. destruct (HasBareLineFeed _); [done|].
      rewrite (find_app_Some _ _ _ _ El). apply Hx.
    + destruct Hx as (H1 & [n Hn] & H2). split; [done|]. rewrite Hsame; [done|].
      by rewrite (header_part_app_Some _ _ _ Hn).
  - destruct (Z.ltb_spec kMaxStatusLineBytes (size s)) as [Hs|Hs].
    + split; [by left|]. destruct (find (s ++ k) CRLF) as [n|] eqn:E.
      * destruct (resp_first_line s k n Hs El E) as [|Hn]; [by left|right].
        apply (Hrej kError); [by left|]. intros Hb. unfold ParseHeaderArea. rewrite Hb, E.
        unfold parse_lines. by rewrite (proj2 (Z.ltb_lt _ _)).
      * right. apply (Hrej kError); [by left|]. intros Hb. unfold ParseHeaderArea. rewrite Hb, E.
        unfold size in *. rewrite length_app. by rewrite (proj2 (Z.ltb_lt _ _)) by lia.
    + intros ph H. unfold ParseHeaderArea in H. destruct (HasBareLineFeed _); [done|].
      destruct (find (s ++ k) CRLF) as [le|] eqn:E; [|by destruct (_ <? _)].
      pose proof (find_app_None _ _ _ _ El E) as Hlen. change (length CRLF) with 2%nat in Hlen.
      unfold parse_lines in H. destruct (_ <? _); [done|]. destruct (status_of _) as [[m t]|]; [|done].
      destruct (header_loop _ _ _ _ _) as [[]|] eqn:Eh; try done.
      apply finish_area_end in H as ->. apply resp_loop_ge in Eh. lia.
Qed.

(** ** Streaming *)

Lemma resp_loop_length fuel s le0 c f g e :
  0 <= f_length f -> header_loop fuel s le0 c f = Some (HDone g e) -> 0 <= f_length g.
Proof.
  revert c f. induction fuel as [|fuel IH]; intros c f Hf H; simpl in H; [done|].
  destruct (_ <? Z.of_nat c); [done|].
  destruct (find_from s CRLF c) as [le|]; [|by repeat (destruct (_ <? _))].
  destruct (_ <? _); [done|]. case_bool_decide; [by simplify_eq|]. destruct (_ <? _); [done|].
  destruct (field_line _ f) as [|f'] eqn:E; [done|]. apply IH in H; [done|].
  unfold field_line in E. repeat case_match; simplify_eq/=; try done.
  match goal with HL : ParseContentLength _ = Some _ |- _ => apply ParseContentLength_range in HL end.
  mlia.
Qed.

Lemma area_length h s ph : ParseHeaderArea h s = inr ph -> 0 <= p_content_length ph.
Proof.
  unfold ParseHeaderArea, parse_lines. intros H. repeat case_match; try done.
  match goal with HL : header_loop _ _ _ _ _ = Some (HDone _ _) |- _ =>
    apply resp_loop_length in HL; [|simpl; lia] end.
  unfold finish_area in H. repeat case_match; simplify_eq; simpl; lia.
Qed.

(** The body bytes a header announces on this connection. *)
Definition declared (h : bool) (ph : ParsedHeader) : Z :=
  if p_bodyless ph || h then 0 else p_content_length ph.

(** One segment arrives: the streaming path on it.  [accept] is what the sink
    answers, and the third component of the state is what it kept. *)
Definition stream_step (x : t * Buffer.t * bytes) (chunk : bytes * bool)
    : option (t * Buffer.t * bytes) :=
  let '(p, b, d) := x in
  let b := Buffer.Append chunk.1 b in
  match (if headers_complete_ p then Some (kComplete, p, b) else ParseHeaders p b) with
  | None => None
  | Some (_, p, b) =>
      if headers_complete_ p && negb (body_complete_ p) then
        match ConsumeBody (fun _ => chunk.2) p b with
        | None => None
        | Some (_, p, b, segment) => Some (p, b, d ++ segment)
        end
      else Some (p, b, d)
  end.

Fixpoint stream (chunks : list (bytes * bool)) (x : t * Buffer.t * bytes)
    : option (t * Buffer.t * bytes) :=
  match chunks with
  | [] => Some x
  | c :: chunks => x ← stream_step x c; stream chunks x
  end.

Definition stream_start (h : bool) : t * Buffer.t * bytes := (Reset h make, Buffer.empty, []).

(** What the parser, the buffer and the sink hold after the input [s]. *)
Definition streamed (h : bool) (s : bytes) (x : t * Buffer.t * bytes) : Prop :=
  let '(p, b, d) := x in
  match ParseHeaderArea h s with
  | inl kNeedMoreData => p = Reset h make /\ Buffer.ReadableView b = s /\ d = []
  | inl _ => rejected (result_ p) /\ headers_complete_ p = false /\
             Buffer.ReadableView b = s /\ d = []
  | inr ph =>
      headers_complete_ p = true /\ head_ p = (head_of h ph 0).1.1 /\
      d ++ Buffer.ReadableView b = drop (p_header_end ph) s /\
      size d <= declared h ph /\
      body_complete_ p = bool_decide (size d = declared h ph) /\
      (body_complete_ p = false -> result_ p = kNeedMoreData /\
                                   remaining_body_ p = declared h ph - size d)
  end.

Lemma consume_step h s p b d ph accept :
  Buffer.wf b -> ParseHeaderArea h s = inr ph -> streamed h s (p, b, d) ->
  exists p' b' d',
    (if headers_complete_ p && negb (body_complete_ p) then
       match ConsumeBody (fun _ => accept) p b with
       | None => None
       | Some (_, p, b, segment) => Some (p, b, d ++ segment)
       end
     else Some (p, b, d)) = Some (p', b', d') /\
    Buffer.wf b' /\ streamed h s (p', b', d') /\
    (accept = true -> size d' = declared h ph \/ Buffer.ReadableView b' = []).
Proof.
  intros Hw Hph Hs. unfold streamed in *. rewrite Hph in *.
  destruct Hs as (H1 & H2 & H3 & H4 & H5 & H6). rewrite H1. cbn [andb].
  destruct (body_complete_ p) eqn:Eb; cbn [negb].
  { exists p, b, d. split; [done|]. split; [done|]. split; [by rewrite Eb|].
    intros _. left. symmetry in H5. by apply bool_decide_eq_true in H5. }
  destruct (H6 eq_refl) as [Hr Hrem]. symmetry in H5. apply bool_decide_eq_false in H5.
  unfold ConsumeBody. rewrite H1, Hr, Eb. cbn [negb orb].
  rewrite bool_decide_eq_true_2 by done. cbn [negb orb].
  set (v := Buffer.ReadableView b) in *. set (n := Z.min (remaining_body_ p) (size v)).
  destruct (Z.eqb_spec n 0) as [Hn|Hn].
  { exists p, b, d. rewrite app_nil_r. split; [done|]. split; [done|].
    split; [by rewrite Eb, bool_decide_eq_false_2|].
    intros _. right. assert (size v = 0) as Hv by lia. unfold size in Hv. apply length_zero_iff_nil. fold v. lia. }
  assert (0 <= n) by (unfold n, size; lia).
  destruct accept; cbn [negb].
  2: { exists p, b, d. rewrite app_nil_r. split; [done|]. split; [done|].
       split; [by rewrite Eb, bool_decide_eq_false_2|done]. }
  assert (Hle : (Z.to_nat n <= length v)%nat) by (unfold n, size in *; lia).
  destruct (Buffer.Retrieve_view (Z.to_nat n) b Hw) as (b' & -> & Hw' & Hv').
  { by rewrite <- Buffer.length_view. }
  fold v in Hv'. simpl.
  assert (Hsz : size (d ++ take (Z.to_nat n) v) = size d + n).
  { unfold size. rewrite length_app, length_take_le by done. lia. }
  do 3 eexists. split; [done|]. split; [done|]. rewrite Hsz, Hv'. split.
  - destruct (Z.eqb_spec (remaining_body_ p - n) 0) as [Hz|Hz]; simpl.
    + split_and!; [done|done| |unfold n; lia|rewrite bool_decide_eq_true_2 by lia; done|done].
      rewrite <- app_assoc. by rewrite take_drop.
    + split_and!; [done|done| |unfold n; lia|rewrite bool_decide_eq_false_2 by lia; done|].
      * rewrite <- app_assoc. by rewrite take_drop.
      * intros _. split; [done|lia].
  - intros _. unfold n in *. destruct (Z.min_spec (remaining_body_ p) (size v)) as [[? Hm]|[? Hm]].
    + left. lia.
    + right. rewrite Hm. unfold size. rewrite Nat2Z.id. apply drop_all.
Qed.

(** After a segment the sink took, the body is complete or nothing is left to
    read. *)
Definition filled (h : bool) (s : bytes) (x : t * Buffer.t * bytes) : Prop :=
  forall ph, ParseHeaderArea h s = inr ph ->
  size x.2 = declared h ph \/ Buffer.ReadableView x.1.2 = [].

(** The header has just been parsed. *)
Lemma head_streamed h s b ph :
  Buffer.ReadableView b = drop (p_header_end ph) s -> ParseHeaderArea h s = inr ph ->
  let '(hd, remaining, complete) := head_of h ph 0 in
  streamed h s (mk kNeedMoreData true h default_response hd remaining complete, b, []).
Proof.
  intros Hb Hph. pose proof (area_length _ _ _ Hph) as Hl. unfold streamed, head_of, declared.
  rewrite Hph. destruct (p_bodyless ph), h; cbn [orb]; simpl; split_and!; try done.
  all: rewrite ?Hb; try done.
  - change (size []) with 0. destruct (Z.eqb_spec (p_content_length ph) 0).
    + by rewrite bool_decide_eq_true_2.
    + by rewrite bool_decide_eq_false_2.
  - intros _. split; [done|]. unfold size; simpl; lia.
Qed.

(** A segment ended between the CR and the LF of a line of the limit: the input
    is refused, nothing was delivered and nothing consumed. *)
Definition cut_short (s : bytes) (x : t * Buffer.t * bytes) : Prop :=
  let '(p, b, d) := x in
  rejected (result_ p) /\ headers_complete_ p = false /\ Buffer.ReadableView b = s /\ d = [].

Lemma cut_short_segment s c a p b d :
  Buffer.wf b -> cut_short s (p, b, d) ->
  exists p' b' d', stream_step (p, b, d) (c, a) = Some (p', b', d') /\ Buffer.wf b' /\ cut_short (s ++ c) (p', b', d').
Proof.
  intros Hw (Hp & Hh & Hb & ->). destruct (Buffer.Append_view c b Hw) as [Hw' Hv].
  unfold stream_step. cbn [fst snd]. rewrite Hh. unfold ParseHeaders.
  rewrite bool_decide_eq_false_2 by (by destruct Hp as [-> | ->]). cbn [negb]. rewrite Hh. cbn [andb].
  do 3 eexists. split; [done|]. split; [done|]. by rewrite <- Hb, <- Hv.
Qed.

(** The input is refused where its last segment ends. *)
Definition bad_cut (h : bool) (s : bytes) : Prop :=
  split_line_end s /\ exists r, rejected r /\ ParseHeaderArea h s = inl r.

Lemma streamed_step h s c a p b d :
  Buffer.wf b -> streamed h s (p, b, d) ->
  exists p' b' d', stream_step (p, b, d) (c, a) = Some (p', b', d') /\ Buffer.wf b' /\
    (streamed h (s ++ c) (p', b', d') /\ (a = true -> filled h (s ++ c) (p', b', d')) \/
     bad_cut h s /\ cut_short (s ++ c) (p', b', d')).
Proof.
  intros Hw Hs. destruct (Buffer.Append_view c b Hw) as [Hw' Hv].
  pose proof (area_extend h s c) as Hx. unfold stream_step. cbn [fst snd].
  unfold streamed in Hs. destruct (ParseHeaderArea h s) as [r|ph] eqn:Ea.
  - destruct (decide (r = kNeedMoreData)) as [->|Hr].
    + destruct Hs as (-> & Hb & ->). cbn [headers_complete_ Reset]. unfold ParseHeaders.
      cbn [result_ Reset negb response_to_head_ remaining_body_ response_]. rewrite Hv, Hb.
      rewrite bool_decide_eq_true_2 by done. cbn [negb].
      destruct (ParseHeaderArea h (s ++ c)) as [r|ph] eqn:Eac.
      * do 3 eexists. split; [done|]. split; [done|]. left. unfold streamed, filled. rewrite Eac, Hv, Hb.
        split; [|done]. pose proof (area_extend h (s ++ c) []) as Hx'. rewrite Eac in Hx'.
        destruct r; [done|..]; (split; [apply Hx'|done]).
      * pose proof (area_extend h (s ++ c) []) as Hx'. rewrite Eac in Hx'. destruct Hx' as [He _].
        destruct (Buffer.Retrieve_view (p_header_end ph) _ Hw') as (b' & Hb' & Hw2 & Hv2).
        { by rewrite <- Buffer.length_view, Hv, Hb. }
        rewrite Hv, Hb in Hv2. pose proof (head_streamed h (s ++ c) b' ph Hv2 Eac) as Hh.
        destruct (head_of h ph 0) as [[hd remaining] complete]. rewrite Hb'. simpl mbind.
        destruct (consume_step h (s ++ c) _ _ _ ph a Hw2 Eac Hh) as (p' & b2 & d' & E1 & E2 & E3 & E4).
        exists p', b2, d'. split; [exact E1|]. split; [done|]. left. split; [done|].
        intros Ha ph' Hph'. rewrite Eac in Hph'. simplify_eq. by apply E4.
    + assert (Hcs : cut_short s (p, b, d)) by (by destruct r).
      destruct (cut_short_segment s c a p b d Hw Hcs) as (p' & b' & d' & E1 & E2 & E3).
      exists p', b', d'. split; [exact E1|]. split; [done|].
      assert (Hrr : rejected r /\ (split_line_end s \/ exists r', rejected r' /\ ParseHeaderArea h (s ++ c) = inl r'))
        by (by destruct r).
      destruct Hrr as [Hrr [Hcut|(r' & Hr' & E')]]; [right; by split; [split; [done|exists r]|]|left].
      unfold streamed, filled. rewrite E'. split; [|done]. by destruct Hr' as [-> | ->].
  - destruct Hs as (H1 & H2 & H3 & H4 & H5 & H6), Hx as [He Hx]. rewrite H1.
    destruct (consume_step h (s ++ c) p (Buffer.Append c b) d ph a Hw' Hx) as (p' & b2 & d' & E1 & E2 & E3 & E4).
    { unfold streamed. rewrite Hx, Hv, app_assoc, H3. split_and!; try done. by rewrite drop_app_le. }
    exists p', b2, d'. split; [exact E1|]. split; [done|]. left. split; [done|].
    intros Ha ph' Hph'. rewrite Hx in Hph'. simplify_eq. by apply E4.
Qed.

Lemma stream_app cs cs' x :
  stream (cs ++ cs') x = (x ← stream cs x; stream cs' x).
Proof.
  revert x. induction cs as [|c cs IH]; intros x; [done|]. simpl. destruct (stream_step x c); [apply IH|done].
Qed.

(** Some segment ends between the CR and the LF of a header line of exactly the
    limit. *)
Definition cut_line (h : bool) (chunks : list (bytes * bool)) : Prop :=
  exists q c k, chunks = q ++ c :: k /\ bad_cut h (concat q.*1).

Lemma cut_line_app h chunks k : cut_line h chunks -> cut_line h (chunks ++ k).
Proof. intros (q & c & k' & -> & Hq). exists q, c, (k' ++ k). by rewrite <- app_assoc. Qed.

Lemma stream_invariant h chunks :
  exists p b d, stream chunks (stream_start h) = Some (p, b, d) /\ Buffer.wf b /\
    (streamed h (concat chunks.*1) (p, b, d) /\
     (forall cs c, chunks = cs ++ [(c, true)] -> filled h (concat chunks.*1) (p, b, d)) \/
     cut_line h chunks /\ cut_short (concat chunks.*1) (p, b, d)).
Proof.
  induction chunks as [|[c a] cs IH] using rev_ind.
  { do 3 eexists. split; [done|]. split; [unfold Buffer.wf; simpl; lia|].
    left. split; [done|]. intros cs c Hc. by destruct cs. }
  destruct IH as (p & b & d & E1 & Hw & Hs).
  rewrite fmap_app, concat_app. cbn [fmap list_fmap concat fst]. rewrite app_nil_r.
  assert (Hstep : exists p' b' d', stream_step (p, b, d) (c, a) = Some (p', b', d') /\ Buffer.wf b' /\
    (streamed h (concat cs.*1 ++ c) (p', b', d') /\ (a = true -> filled h (concat cs.*1 ++ c) (p', b', d')) \/
     cut_line h (cs ++ [(c, a)]) /\ cut_short (concat cs.*1 ++ c) (p', b', d'))).
  { destruct Hs as [[Hs _]|[Hcut Hs]].
    - destruct (streamed_step h _ c a p b d Hw Hs) as (p' & b' & d' & E2 & Hw' & Hs').
      exists p', b', d'. split; [done|]. split; [done|]. destruct Hs' as [?|[Hbad ?]]; [by left|right].
      split; [|done]. by exists cs, (c, a), [].
    - destruct (cut_short_segment _ c a p b d Hw Hs) as (p' & b' & d' & E2 & Hw' & Hs').
      exists p', b', d'. split; [done|]. split; [done|]. right. split; [by apply cut_line_app|done]. }
  destruct Hstep as (p' & b' & d' & E2 & Hw' & Hs'). exists p', b', d'.
  rewrite stream_app, E1. cbn [mbind option_bind stream]. rewrite E2. split; [done|]. split; [done|].
  destruct Hs' as [[Hs' Hf]|?]; [left|by right]. split; [done|].
  intros cs' c' Hc. apply app_inj_tail in Hc as [_ Hc]. simplify_eq. by apply Hf.
Qed.

(** C26: Streaming is lossless and never exceeds the declared body.  For every
    segmentation of the input and every mix of accepted and declined segments:
    what the sink kept followed by what is still buffered is exactly the input
    after the header, the sink kept at most the declared length, [BodyComplete]
    holds exactly when it kept all of it, and the head is the parsed head; a
    rejected or incomplete header delivers nothing and consumes nothing.  The
    one exception is a segment that ends between the CR and the LF of a header
    line of exactly the limit: the parser then refuses the response, and again
    delivers and consumes nothing. *)
Theorem streaming_lossless h chunks :
  exists p b d, stream chunks (stream_start h) = Some (p, b, d) /\
    (streamed h (concat chunks.*1) (p, b, d) \/
     cut_line h chunks /\ cut_short (concat chunks.*1) (p, b, d)).
Proof.
  destruct (stream_invariant h chunks) as (p & b & d & H1 & _ & [[H2 _]|H2]); exists p, b, d; auto.
Qed.

Lemma buffered_spec h ph s resp n :
  0 <= p_content_length ph -> (p_header_end ph <= length s)%nat ->
  buffered h ph s = Some (resp, n) ->
  body resp = take (Z.to_nat (declared h ph)) (drop (p_header_end ph) s) /\
  n = (p_header_end ph + Z.to_nat (declared h ph))%nat /\
  status resp = p_status ph /\ headers resp = p_headers ph /\
  0 <= declared h ph <= size s - Z.of_nat (p_header_end ph).
Proof.
  intros Hl He. unfold buffered, declared, size. destruct h.
  - rewrite orb_true_r. intros Hb.
    destruct (p_bodyless ph), (p_has_content_length ph); simplify_eq/=;
      (repeat split); try done; lia.
  - rewrite orb_false_r. destruct (Z.ltb_spec (Z.of_nat (length s) - Z.of_nat (p_header_end ph))
      (if p_bodyless ph then 0 else p_content_length ph)); [done|].
    intros Hb. simplify_eq/=. destruct (p_bodyless ph); (repeat split); try done; lia.
Qed.

(** C34: The streaming path computes what the buffered path computes.  When the
    input holds a complete response and the sink accepts its last segment,
    streaming it in any segmentation (whatever the sink declined before)
    delivers exactly the body [Parse] returns, leaves exactly the same bytes in
    the buffer and reports the body complete; unless a segment ended between the
    CR and the LF of a header line of exactly the limit, where the response is
    refused with nothing delivered and nothing consumed. *)
Theorem streaming_equals_buffered h cs c resp n :
  let s := concat (cs ++ [(c, true)]).*1 in
  match ParseHeaderArea h s with inr ph => buffered h ph s = Some (resp, n) | inl _ => False end ->
  (exists p b, stream (cs ++ [(c, true)]) (stream_start h) = Some (p, b, body resp) /\
    Buffer.ReadableView b = drop n s /\ body_complete_ p = true /\
    head_status (head_ p) = status resp /\ head_headers (head_ p) = headers resp) \/
  cut_line h (cs ++ [(c, true)]) /\
  exists x, stream (cs ++ [(c, true)]) (stream_start h) = Some x /\ cut_short s x.
Proof.
  intros s Hb.
  destruct (stream_invariant h (cs ++ [(c, true)])) as (p & b & d & E1 & Hw & [[Hs Hf]|[Hcut Hs]]);
    [left|right; split; [done|by exists (p, b, d)]].
  specialize (Hf cs c eq_refl). fold s in Hs, Hf. unfold streamed in Hs.
  destruct (ParseHeaderArea h s) as [|ph] eqn:Eh; [done|]. specialize (Hf ph Eh). simpl in Hf.
  destruct Hs as (_ & H2 & H3 & H4 & H5 & _). pose proof (area_length _ _ _ Eh) as Hlen.
  pose proof (area_extend h s []) as Hx. rewrite Eh in Hx. destruct Hx as [He _].
  destruct (buffered_spec _ _ _ _ _ Hlen He Hb) as (Hbody & -> & Hst & Hhd & Hdecl). exists p, b.
  assert (Hd : size d = declared h ph).
  { destruct Hf as [Hf|Hf]; [done|]. rewrite Hf, app_nil_r in H3. apply (f_equal length) in H3.
    rewrite length_drop in H3. unfold size in *. lia. }
  assert (Hlen' : length d = Z.to_nat (declared h ph)) by (unfold size in Hd; lia).
  assert (d = body resp) as <-.
  { rewrite Hbody, <- H3, <- Hlen'. by rewrite take_app_length. }
  split; [done|]. rewrite <- drop_drop, <- H3, <- Hlen', drop_app_length.
  split_and!; [done|by rewrite H5, bool_decide_eq_true_2| |].
  all: rewrite H2, ?Hst, ?Hhd; unfold head_of; by destruct (p_bodyless ph), h, (p_has_content_length ph).
Qed.

Lemma small_uncut h chunks : size (concat chunks.*1) <= kMaxStatusLineBytes -> ~ cut_line h chunks.
Proof.
  unfold size. intros Hs (q & c & k & -> & (_ & n & _ & _ & _ & Hn) & _). rewrite fmap_app, concat_app, length_app in Hs.
  unfold size in Hn. lia.
Qed.

Definition example_response : bytes :=
  lit "HTTP/1.1 200 OK" ++ CRLF ++ lit "Content-Length: 5" ++ CRLF ++ CRLF ++ lit "helloHTTP".

Definition example_chunks : list (bytes * bool) :=
  imap (fun i c => ([c], bool_decide (Z.of_nat i mod 3 = 0))) example_response.

Lemma streaming_lossless_witness :
  exists p b d, stream example_chunks (stream_start false) = Some (p, b, d) /\
                streamed false (concat example_chunks.*1) (p, b, d).
Proof.
  assert (Hn : ~ cut_line false example_chunks) by (apply small_uncut; vm_compute; discriminate).
  destruct (streaming_lossless false example_chunks) as (p & b & d & H1 & [H2|[H2 _]]).
  - exists p, b, d. split; [exact H1|exact H2].
  - destruct (Hn H2).
Defined.

Lemma streaming_equals_buffered_witness :
  exists p b, stream (example_chunks ++ [(lit "!", true)]) (stream_start false)
              = Some (p, b, lit "hello") /\
    Buffer.ReadableView b = lit "HTTP!" /\ body_complete_ p = true /\
    head_status (head_ p) = 200 /\ head_headers (head_ p) = [(lit "Content-Length", lit "5")].
Proof.
  assert (Hn : ~ cut_line false (example_chunks ++ [(lit "!", true)])) by (apply small_uncut; vm_compute; discriminate).
  destruct (streaming_equals_buffered false example_chunks (lit "!")
    (mkResponse 200 (lit "OK") [(lit "Content-Length", lit "5")] (lit "hello") kNormal None) 43)
    as [(p & b & H1 & H2 & H3 & H4 & H5)|[H _]]; [vm_compute; reflexivity| |].
  - exists p, b. split; [exact H1|]. split; [rewrite H2; vm_compute; reflexivity|].
    split; [exact H3|]. split; [exact H4|exact H5].
  - destruct (Hn H).
Defined.

(** A response with a field line of exactly 8192 bytes. *)
Definition long_field : bytes := lit "X: " ++ repeat "a"%byte 8189.
Definition long_head : bytes := lit "HTTP/1.1 200 OK" ++ CRLF ++ lit "Content-Length: 0" ++ CRLF.

Definition stream_result (chunks : list bytes) : option (ParseResult * bool) :=
  (fun x => (result_ x.1.1, headers_complete_ x.1.1)) <$>
  stream ((fun c => (c, true)) <$> chunks) (stream_start false).

(** A field line of exactly 8 KiB is valid, as the parser's comment says,
    but the same response is rejected when a segment ends between the CR and
    the LF of that line. *)
Theorem streaming_split_line_end :
  stream_result [long_head ++ long_field ++ CRLF ++ CRLF] = Some (kNeedMoreData, true) /\
  stream_result [long_head ++ long_field; CRLF ++ CRLF] = Some (kNeedMoreData, true) /\
  stream_result [long_head ++ long_field ++ [CR]; [LF] ++ CRLF] = Some (kError, false).
Proof. split_and!; vm_compute; reflexivity. Qed.

End HttpResponseParser.
