(* ===== verification/ConfigLoader.v ===== *)
(** * Configuration loading

    Models src/src/config/Config.cpp over the node tree of yaml-cpp.  The YAML
    parser itself ([YAML::Load]) is a parameter: it turns the text into a tree
    of scalars, sequences and maps, or throws.  The theorems show what a loaded
    configuration guarantees to the components built from it. *)

From S2P Require Import Prelude Bytes Types HttpText RequestSerializer.
From S2P Require Import RateLimit Admission CircuitBreaker CoordinatorState OutcomeChannel Routing.

Module ConfigLoader.

(** [YAML::Node]; a map keeps its entries in document order, duplicates
    included. *)
Inductive Node :=
| Null
| Scalar (text : bytes)
| Sequence (items : list Node)
| Map (entries : list (Node * Node)).

(** ** Fields

    Every [Invalid(...)] is [None]; the texts of the messages are not
    modelled. *)

Definition LowerAscii (value : bytes) : bytes := lower_all value.

Definition RequireString (node : Node) : option bytes :=
  match node with
  | Scalar value => if bool_decide (value = []) then None else Some value
  | _ => None
  end.

(** [std::all_of] on the digit test. *)
Definition all_digits (value : bytes) : bool := forallb is_digit value.

(** [std::from_chars] on a non-empty string of digits, into an unsigned type of
    the given modulus. *)
Definition from_chars (modulus : Z) (value : bytes) : option Z :=
  let n := HttpText.value_of value 0 in if n <? modulus then Some n else None.

Definition RequirePositiveUnsigned (node : Node) (maximum : Z) : option Z :=
  value ← RequireString node;
  if negb (all_digits value) then None
  else parsed ← from_chars u64_modulus value;
       if (parsed =? 0) || (maximum <? parsed) then None else Some parsed.

Definition RequireRetryBudget (node : Node) : option Z :=
  value ← RequireString node;
  if beq value (lit "0") then Some 0 else if beq value (lit "1") then Some 1 else None.

(** The loop of [ReadObject]. *)
Fixpoint read_fields (allowed : list bytes) (entries : list (Node * Node)) (fields : gmap bytes Node)
    : option (gmap bytes Node) :=
  match entries with
  | [] => Some fields
  | (Scalar key, value) :: entries =>
      if negb (bool_decide (key ∈ allowed)) then None
      else match fields !! key with
           | Some _ => None
           | None => read_fields allowed entries (<[ key := value ]> fields)
           end
  | _ :: _ => None
  end.

Definition ReadObject (allowed : list bytes) (node : Node) : option (gmap bytes Node) :=
  match node with Map entries => read_fields allowed entries ∅ | _ => None end.

Definition RequireField (fields : gmap bytes Node) (field : bytes) : option Node := fields !! field.

(** ** Hosts, addresses and paths *)

Definition IsDecimalPort (value : bytes) : bool :=
  match value with
  | [] => false
  | _ => all_digits value &&
         match from_chars u64_modulus value with
         | Some port => (1 <=? port) && (port <=? 65535)
         | None => false
         end
  end.

Definition host_char (b : byte) : bool :=
  is_alnum b || bool_decide (b = "-"%byte) || bool_decide (b = "."%byte).

Definition IsValidRouteHost (host : bytes) : bool :=
  if bool_decide (host = []) || (253 <? size host) || bool_decide ("["%byte ∈ host)
     || bool_decide ("]"%byte ∈ host)
  then false
  else
    let name :=
      match find host [HttpText.COLON] with
      | None => Some host
      | Some colon =>
          if bool_decide (is_Some (find_from host [HttpText.COLON] (S colon)))
             || negb (IsDecimalPort (drop (S colon) host))
          then None else Some (take colon host)
      end in
    match name with
    | None => false
    | Some name =>
        if bool_decide (name = []) || bool_decide (head name = Some "."%byte)
           || bool_decide (last name = Some "."%byte)
        then false else forallb host_char name
    end.

(** One octet. *)
Definition parse_octet (part : bytes) : option Z :=
  if bool_decide (part = []) || (3 <? size part) || negb (all_digits part) then None
  else value ← from_chars u32_modulus part; if 255 <? value then None else Some value.

(** The component loop from [host.substr(start)]. *)
Fixpoint parse_octets (components : nat) (host : bytes) : option (list Z) :=
  match components with
  | O => None
  | S components =>
      let stop := find host [("."%byte)] in
      value ← parse_octet (match stop with Some n => take n host | None => host end);
      match components, stop with
      | O, None => Some [value]
      | O, Some _ => None
      | S _, None => None
      | S _, Some n => rest ← parse_octets components (drop (S n) host); Some (value :: rest)
      end
  end.

Definition ParseNumericIpv4 (host : bytes) : option ipv4 :=
  match parse_octets 4 host with
  | Some [a; b; c; d] => Some (a, b, c, d)
  | _ => None
  end.

(** The file's copies of the URI character classes are those of the request
    serializer, and the loop is its component check without the query. *)
Definition IsHexDigit (b : byte) : bool := HttpRequestSerializer.IsHexDigit b.
Definition IsUnreserved (b : byte) : bool := HttpRequestSerializer.IsUnreserved b.
Definition IsSubDelimiter (b : byte) : bool := HttpRequestSerializer.IsSubDelimiter b.

Definition IsValidPathPrefix (prefix : bytes) : bool :=
  match prefix with
  | c :: _ => bool_decide (c = "/"%byte) && HttpRequestSerializer.IsValidUriComponent prefix false
  | [] => false
  end.

(** ** Settings *)

Definition ParseThresholdPermille (node : Node) : option Z :=
  value ← RequireString node;
  match value with
  | c0 :: c1 :: fraction =>
      if (size value <? 3) || negb (bool_decide (c0 = "0"%byte)) || negb (bool_decide (c1 = "."%byte))
      then None
      else if bool_decide (fraction = []) || (3 <? size fraction) || negb (all_digits fraction) then None
      else
        let permille := HttpText.value_of fraction 0 * 10 ^ (3 - size fraction) in
        if (permille =? 0) || (999 <? permille) then None else Some permille
  | _ => None
  end.

Definition u32_max : Z := u32_modulus - 1.

Definition positive (fields : gmap bytes Node) (name : bytes) (maximum : Z) : option Z :=
  node ← RequireField fields name; RequirePositiveUnsigned node maximum.

Definition string_field (fields : gmap bytes Node) (name : bytes) : option bytes :=
  node ← RequireField fields name; RequireString node.

Definition ParseCircuitBreaker (node : Node) : option CircuitBreakerSettings :=
  fields ← ReadObject [lit "window_seconds"; lit "min_requests"; lit "failure_threshold";
                       lit "open_seconds"; lit "half_open_probes"] node;
  window ← positive fields (lit "window_seconds") u32_max;
  requests ← positive fields (lit "min_requests") u32_max;
  threshold_node ← RequireField fields (lit "failure_threshold");
  threshold ← ParseThresholdPermille threshold_node;
  open ← positive fields (lit "open_seconds") u32_max;
  probes ← positive fields (lit "half_open_probes") u32_max;
  Some (mkBreakerSettings window requests threshold open probes).

Definition ParseHealthCheck (node : Node) : option HealthCheckSettings :=
  fields ← ReadObject [lit "interval_ms"; lit "timeout_ms"] node;
  interval ← positive fields (lit "interval_ms") u32_max;
  timeout ← positive fields (lit "timeout_ms") u32_max;
  Some (mkHealthSettings interval timeout).

Definition ParseEndpoint (node : Node) : option Endpoint :=
  fields ← ReadObject [lit "host"; lit "port"; lit "weight"] node;
  host ← string_field fields (lit "host");
  port ← positive fields (lit "port") 65535;
  weight ← positive fields (lit "weight") u32_max;
  address ← ParseNumericIpv4 host;
  Some (mkEndpoint host address port weight).

(** ** Routes *)

(** The lambda [optional_positive]. *)
Definition optional_positive (fields : gmap bytes Node) (name : bytes) (fallback : Z) : option Z :=
  match fields !! name with
  | None => Some fallback
  | Some node => RequirePositiveUnsigned node u32_max
  end.

(** An optional sub-object or value with its default. *)
Definition optional {A : Type} (fields : gmap bytes Node) (name : bytes) (parse : Node -> option A)
    (fallback : A) : option A :=
  match fields !! name with None => Some fallback | Some node => parse node end.

Definition ParseBalance (node : Node) : option BalancePolicy :=
  value ← RequireString node;
  if beq value (lit "weighted_round_robin") then Some kWeightedRoundRobin
  else if beq value (lit "least_active") then Some kLeastActive else None.

Definition same_place (x y : Endpoint) : bool :=
  bool_decide (ep_address x = ep_address y) && bool_decide (ep_port x = ep_port y).

(** The two nested loops. *)
Fixpoint has_duplicate (eps : list Endpoint) : bool :=
  match eps with
  | [] => false
  | x :: eps => existsb (same_place x) eps || has_duplicate eps
  end.

Definition route_fields : list bytes :=
  [lit "name"; lit "host"; lit "path_prefix"; lit "endpoints"; lit "rate_limit"; lit "burst";
   lit "max_inflight"; lit "connect_timeout_ms"; lit "first_byte_timeout_ms";
   lit "total_timeout_ms"; lit "retry_budget"; lit "circuit_breaker"; lit "health_check";
   lit "balance"].

Definition ParseEndpoints (node : Node) : option (list Endpoint) :=
  match node with
  | Sequence (x :: items) =>
      eps ← mapM ParseEndpoint (x :: items); if has_duplicate eps then None else Some eps
  | _ => None
  end.

Definition ParseRoute (node : Node) : option Route :=
  fields ← ReadObject route_fields node;
  name ← string_field fields (lit "name");
  host ← string_field fields (lit "host");
  prefix ← string_field fields (lit "path_prefix");
  rate ← positive fields (lit "rate_limit") u32_max;
  burst ← positive fields (lit "burst") u32_max;
  inflight ← positive fields (lit "max_inflight") u32_max;
  connect ← optional_positive fields (lit "connect_timeout_ms") 5000;
  first_byte ← optional_positive fields (lit "first_byte_timeout_ms") 5000;
  total ← optional_positive fields (lit "total_timeout_ms") 30000;
  retry ← optional fields (lit "retry_budget") RequireRetryBudget 1;
  breaker ← optional fields (lit "circuit_breaker") (fun n => Some <$> ParseCircuitBreaker n) None;
  health ← optional fields (lit "health_check") (fun n => Some <$> ParseHealthCheck n) None;
  balance ← optional fields (lit "balance") ParseBalance kWeightedRoundRobin;
  if negb (IsValidRouteHost host) || negb (IsValidPathPrefix prefix) then None
  else
    endpoints_node ← RequireField fields (lit "endpoints");
    endpoints ← ParseEndpoints endpoints_node;
    Some (mkRoute name host prefix endpoints rate burst inflight connect first_byte total retry
                  breaker health balance).

(** ** The document *)

Definition match_key (r : Route) : bytes := LowerAscii (rt_host r) ++ [LF] ++ rt_path_prefix r.

(** The loop over the routes with the names and match keys already seen. *)
Fixpoint read_routes (nodes : list Node) (names match_keys : gset bytes) : option (list Route) :=
  match nodes with
  | [] => Some []
  | node :: nodes =>
      r ← ParseRoute node;
      if bool_decide (rt_name r ∈ names) || bool_decide (match_key r ∈ match_keys) then None
      else rest ← read_routes nodes ({[ rt_name r ]} ∪ names) ({[ match_key r ]} ∪ match_keys);
           Some (r :: rest)
  end.

Definition load_document (document : Node) : option Config :=
  top_level ← ReadObject [lit "routes"; lit "workers"] document;
  routes_node ← RequireField top_level (lit "routes");
  match routes_node with
  | Sequence (x :: items) =>
      workers ← optional top_level (lit "workers") (fun n => RequirePositiveUnsigned n 1024) 1;
      routes ← read_routes (x :: items) ∅ ∅;
      Some (mkConfig routes workers)
  | _ => None
  end.

(** [yaml_load] is [YAML::Load]; [None] is its exception. *)
Definition LoadFromYaml (yaml_load : bytes -> option Node) (yaml : bytes) : option Config :=
  document ← yaml_load yaml; load_document document.

(** ** What a loaded configuration satisfies *)

Definition positive_u32 (n : Z) : Prop := 1 <= n < u32_modulus.

Definition octets (a : ipv4) : Prop :=
  let '(a, b, c, d) := a in
  0 <= a <= 255 /\ 0 <= b <= 255 /\ 0 <= c <= 255 /\ 0 <= d <= 255.

(** The texts are described without the loader's own functions. *)
Definition digit_byte (c : byte) : Prop := 48 <= code c <= 57.

(** The number a text of decimal digits denotes. *)
Fixpoint decimal (s : bytes) : Z :=
  match s with [] => 0 | c :: s => (code c - 48) * 10 ^ Z.of_nat (length s) + decimal s end.

(** One to three digits of value at most 255. *)
Definition octet_text (s : bytes) (v : Z) : Prop :=
  (1 <= length s <= 3)%nat /\ Forall digit_byte s /\ v = decimal s /\ v <= 255.

Definition dotted_quad (host : bytes) (address : ipv4) : Prop :=
  let '(a, b, c, d) := address in
  exists ta tb tc td, host = ta ++ lit "." ++ tb ++ lit "." ++ tc ++ lit "." ++ td /\
    octet_text ta a /\ octet_text tb b /\ octet_text tc c /\ octet_text td d.

(** Letters, digits, hyphens and inner dots, with an optional port. *)
Definition name_byte (c : byte) : Prop :=
  65 <= code c <= 90 \/ 97 <= code c <= 122 \/ digit_byte c \/ c = "-"%byte \/ c = "."%byte.

Definition route_host (host : bytes) : Prop :=
  (length host <= 253)%nat /\
  exists name, name <> [] /\ Forall name_byte name /\
    head name <> Some "."%byte /\ last name <> Some "."%byte /\
    (host = name \/
     exists port, host = name ++ lit ":" ++ port /\ Forall digit_byte port /\ 1 <= decimal port <= 65535).

(** Starts with a slash; visible characters only, neither query nor fragment. *)
Definition route_prefix (prefix : bytes) : Prop :=
  head prefix = Some "/"%byte /\
  Forall (fun c => 33 <= code c <= 126 /\ c <> "?"%byte /\ c <> "#"%byte) prefix.

(** The same letter in either case, or the same byte. *)
Definition case_variant (x y : byte) : Prop :=
  x = y \/ (65 <= code x <= 90 /\ code y = code x + 32) \/ (65 <= code y <= 90 /\ code x = code y + 32).

Record valid_endpoint (x : Endpoint) : Prop := {
  ve_address : dotted_quad (ep_host x) (ep_address x);
  ve_octets : octets (ep_address x);
  ve_port : 1 <= ep_port x <= 65535;
  ve_weight : positive_u32 (ep_weight x)
}.

Record valid_breaker (c : CircuitBreakerSettings) : Prop := {
  vb_window : positive_u32 (window_seconds c);
  vb_requests : positive_u32 (min_requests c);
  vb_threshold : 1 <= failure_threshold_permille c <= 999;
  vb_open : positive_u32 (open_seconds c);
  vb_probes : positive_u32 (half_open_probes c)
}.

Definition valid_health (h : HealthCheckSettings) : Prop :=
  positive_u32 (interval_ms h) /\ positive_u32 (timeout_ms h).

Definition place (x : Endpoint) : ipv4 * Z := (ep_address x, ep_port x).

Definition opt {A : Type} (P : A -> Prop) (o : option A) : Prop :=
  match o with Some x => P x | None => True end.

Record valid_route (r : Route) : Prop := {
  vr_name : rt_name r <> [];
  vr_host : route_host (rt_host r);
  vr_prefix : route_prefix (rt_path_prefix r);
  vr_rate : positive_u32 (rate_limit r);
  vr_burst : positive_u32 (burst r);
  vr_inflight : positive_u32 (max_inflight r);
  vr_connect : positive_u32 (connect_timeout_ms r);
  vr_first_byte : positive_u32 (first_byte_timeout_ms r);
  vr_total : positive_u32 (total_timeout_ms r);
  vr_retry : retry_budget r = 0 \/ retry_budget r = 1;
  vr_breaker : opt valid_breaker (circuit_breaker r);
  vr_health : opt valid_health (health_check r);
  vr_endpoints : rt_endpoints r <> [];
  vr_each : Forall valid_endpoint (rt_endpoints r);
  vr_places : NoDup (place <$> rt_endpoints r)
}.

Record valid_config (c : Config) : Prop := {
  vc_routes : routes c <> [];
  vc_workers : 1 <= workers c <= 1024;
  vc_each : Forall valid_route (routes c);
  vc_names : NoDup (rt_name <$> routes c);
  vc_keys : forall i j a b, routes c !! i = Some a -> routes c !! j = Some b ->
    Forall2 case_variant (rt_host a) (rt_host b) -> rt_path_prefix a = rt_path_prefix b -> i = j
}.

(** [binds H] opens every bind of a successful computation. *)
Ltac binds H :=
  repeat match type of H with
  | (_ ≫= _) = Some _ => let E := fresh "E" in apply bind_Some in H as (? & E & H)
  end.

Lemma positive_spec node maximum n :
  RequirePositiveUnsigned node maximum = Some n -> 1 <= n <= maximum.
Proof.
  unfold RequirePositiveUnsigned. intros H. binds H. destruct (negb _) eqn:Ed; [done|]. binds H.
  destruct (Z.eqb_spec x0 0), (Z.ltb_spec maximum x0); try done. simplify_eq/=.
  unfold from_chars in E0. destruct (_ <? _); simplify_eq.
  assert (0 <= HttpText.value_of x 0); [|lia]. apply HttpText.value_of_ge; [|lia].
  apply negb_false_iff in Ed. unfold all_digits in Ed. rewrite forallb_forall in Ed.
  apply Forall_forall. intros c Hc. by apply Ed, list_elem_of_In.
Qed.

Lemma positive_u32_spec fields name n : positive fields name u32_max = Some n -> positive_u32 n.
Proof.
  unfold positive. intros H. binds H. apply positive_spec in H. unfold positive_u32, u32_max in *. lia.
Qed.

Lemma optional_positive_spec fields name d n :
  positive_u32 d -> optional_positive fields name d = Some n -> positive_u32 n.
Proof.
  unfold optional_positive. intros Hd H. case_match; [|by simplify_eq].
  apply positive_spec in H. unfold positive_u32, u32_max in *. lia.
Qed.

Lemma optional_spec {A : Type} fields name parse (d : A) x (P : A -> Prop) :
  P d -> (forall n y, parse n = Some y -> P y) -> optional fields name parse d = Some x -> P x.
Proof. unfold optional. intros Hd Hp H. case_match; [eauto|by simplify_eq]. Qed.

Lemma string_field_spec fields name v : string_field fields name = Some v -> v <> [].
Proof.
  unfold string_field, RequireString. intros H. binds H. case_match; try done.
  case_bool_decide; by simplify_eq.
Qed.

Lemma threshold_spec node n : ParseThresholdPermille node = Some n -> 1 <= n <= 999.
Proof.
  unfold ParseThresholdPermille. intros H. binds H. destruct x as [|c0 [|c1 fraction]]; try done.
  destruct (_ || _); [done|]. destruct (_ || _ || _) eqn:Ef; [done|].
  rewrite !orb_false_iff in Ef. destruct Ef as [[_ Hs] Hd].
  apply Z.ltb_ge in Hs. apply negb_false_iff in Hd.
  assert (0 <= HttpText.value_of fraction 0).
  { apply HttpText.value_of_ge; [|lia]. unfold all_digits in Hd. rewrite forallb_forall in Hd.
    apply Forall_forall. intros c Hc. by apply Hd, list_elem_of_In. }
  assert (0 <= 10 ^ (3 - size fraction)) by (apply Z.pow_nonneg; lia).
  set (m := HttpText.value_of fraction 0 * 10 ^ (3 - size fraction)) in *.
  assert (0 <= m) by (unfold m; nia).
  destruct (Z.eqb_spec m 0), (Z.ltb_spec 999 m); try done. simplify_eq/=. lia.
Qed.

Lemma breaker_spec node c : ParseCircuitBreaker node = Some c -> valid_breaker c.
Proof.
  unfold ParseCircuitBreaker. intros H. binds H. simplify_eq/=.
  split; simpl; eauto using positive_u32_spec, threshold_spec.
Qed.

Lemma health_spec node h : ParseHealthCheck node = Some h -> valid_health h.
Proof.
  unfold ParseHealthCheck. intros H. binds H. simplify_eq/=.
  split; simpl; eauto using positive_u32_spec.
Qed.

Lemma is_digit_byte c : is_digit c = true <-> digit_byte c.
Proof. unfold is_digit, in_range, digit_byte. by rewrite andb_true_iff, !Z.leb_le. Qed.

Lemma all_digits_spec v : all_digits v = true -> Forall digit_byte v.
Proof.
  unfold all_digits. rewrite forallb_forall. intros Hd. apply Forall_forall. intros c Hc.
  by apply is_digit_byte, Hd, list_elem_of_In.
Qed.

Lemma value_of_decimal v n : HttpText.value_of v n = n * 10 ^ Z.of_nat (length v) + decimal v.
Proof.
  revert n. induction v as [|c v IH]; intros n; [simpl; lia|].
  change (HttpText.value_of (c :: v) n) with (HttpText.value_of v (n * 10 + (code c - 48))).
  rewrite IH. cbn [length decimal]. rewrite Nat2Z.inj_succ, Z.pow_succ_r by lia. ring.
Qed.

Lemma parse_octet_spec part v : parse_octet part = Some v -> octet_text part v.
Proof.
  unfold parse_octet, size. destruct (_ || _) eqn:Ed; [done|]. intros H. binds H.
  rewrite !orb_false_iff in Ed. destruct Ed as [[He Hl] Hd].
  apply bool_decide_eq_false in He. apply Z.ltb_ge in Hl. apply negb_false_iff, all_digits_spec in Hd.
  unfold from_chars in E. destruct (_ <? u32_modulus); simplify_eq.
  destruct (Z.ltb_spec 255 (HttpText.value_of part 0)); simplify_eq.
  rewrite value_of_decimal in *. split_and!; [destruct part; [done|simpl in *; lia]|lia|done|lia|lia].
Qed.

Lemma dot_split host n :
  find host [("."%byte)] = Some n -> host = take n host ++ lit "." ++ drop (S n) host.
Proof. intros [E _]%find_byte_Some. exact E. Qed.

Fixpoint dotted (texts : list bytes) : bytes :=
  match texts with [] => [] | [x] => x | x :: texts => x ++ lit "." ++ dotted texts end.

Lemma parse_octets_texts n host l :
  parse_octets n host = Some l ->
  exists texts, host = dotted texts /\ Forall2 octet_text texts l /\ texts <> [].
Proof.
  revert host l. induction n as [|n IH]; intros host l H; [done|].
  cbn [parse_octets] in H. binds H. apply parse_octet_spec in E.
  destruct (find host [("."%byte)]) as [k|] eqn:Ef, n as [|n]; try done.
  - binds H. injection H as <-. apply IH in E0 as (texts & E0 & Ht & Hne). exists (take k host :: texts).
    split_and!; [|by constructor|done]. apply dot_split in Ef. rewrite Ef at 1. rewrite E0.
    by destruct texts.
  - injection H as <-. exists [host]. split_and!; [done|by apply Forall2_cons|done].
Qed.

Lemma ipv4_quad host a : ParseNumericIpv4 host = Some a -> dotted_quad host a.
Proof.
  unfold ParseNumericIpv4. destruct (parse_octets 4 host) as [l|] eqn:E; [|done]. intros H.
  apply parse_octets_texts in E as (texts & -> & Ht & _).
  destruct l as [|x0 [|x1 [|x2 [|x3 [|]]]]]; simplify_eq.
  do 4 (let x := fresh "x" in apply Forall2_cons_inv_r in Ht as (x & ? & ? & Ht & ->)).
  apply Forall2_nil_inv_r in Ht as ->. by eexists _, _, _, _.
Qed.

Lemma host_char_byte c : host_char c = true -> name_byte c.
Proof.
  unfold host_char, is_alnum, is_upper, is_lower, name_byte. rewrite !orb_true_iff, is_digit_byte.
  unfold in_range. rewrite !andb_true_iff, !Z.leb_le, !bool_decide_eq_true. tauto.
Qed.

Lemma route_host_spec host : IsValidRouteHost host = true -> route_host host.
Proof.
  unfold IsValidRouteHost, size. destruct (_ || _ || _ || _) eqn:E; [done|].
  rewrite !orb_false_iff in E. destruct E as [[[_ Hl%Z.ltb_ge] _] _].
  set (name := match find host _ with Some _ => _ | None => _ end). intros H. split; [lia|].
  destruct name as [n|] eqn:En; [|done]. exists n.
  destruct (_ || _ || _) eqn:E; [done|]. rewrite !orb_false_iff, !bool_decide_eq_false in E.
  destruct E as [[E1 E2] E3]. split_and!; try done.
  { rewrite forallb_forall in H. apply Forall_forall. intros c Hc. by apply host_char_byte, H, list_elem_of_In. }
  subst name. destruct (find host [HttpText.COLON]) as [k|] eqn:Ef; [right|left; congruence].
  destruct (_ || _) eqn:E; [done|]. injection En as <-. rewrite orb_false_iff in E.
  destruct E as [_ Hp%negb_false_iff]. exists (drop (S k) host).
  split; [by apply find_byte_Some in Ef as [Ef _]|]. unfold IsDecimalPort in Hp.
  destruct (drop (S k) host) as [|c r] eqn:Er; [done|]. rewrite <- Er in *.
  apply andb_true_iff in Hp as [Hd Hp]. split; [by apply all_digits_spec|].
  unfold from_chars in Hp. destruct (_ <? u64_modulus); [|done].
  rewrite andb_true_iff, !Z.leb_le, value_of_decimal in Hp. lia.
Qed.

Lemma uri_visible c : HttpRequestSerializer.plain_uri_char false c = true ->
  33 <= code c <= 126 /\ c <> "?"%byte /\ c <> "#"%byte.
Proof. destruct c; intros H; try discriminate H; split_and!; try discriminate; vm_compute; discriminate. Qed.

Lemma hex_visible c : HttpRequestSerializer.IsHexDigit c = true ->
  33 <= code c <= 126 /\ c <> "?"%byte /\ c <> "#"%byte.
Proof. destruct c; intros H; try discriminate H; split_and!; try discriminate; vm_compute; discriminate. Qed.

Lemma component_visible v : HttpRequestSerializer.IsValidUriComponent v false = true ->
  Forall (fun c => 33 <= code c <= 126 /\ c <> "?"%byte /\ c <> "#"%byte) v.
Proof.
  remember (length v) as n eqn:Hn. assert (length v <= n)%nat as Hle by lia. clear Hn. revert v Hle.
  induction n as [|n IH]; intros [|c v] Hle H; [constructor|simpl in Hle; lia|constructor|].
  simpl in H, Hle. destruct (HttpRequestSerializer.plain_uri_char false c) eqn:Ec.
  { constructor; [by apply uri_visible|apply IH; [lia|done]]. }
  destruct v as [|h1 [|h2 v]]; try done. rewrite !andb_true_iff, bool_decide_eq_true in H.
  destruct H as [[[-> H1] H2] Hs].
  constructor; [split_and!; try done; vm_compute; discriminate|].
  constructor; [by apply hex_visible|]. constructor; [by apply hex_visible|].
  apply IH; [simpl in Hle; lia|done].
Qed.

Lemma route_prefix_spec prefix : IsValidPathPrefix prefix = true -> route_prefix prefix.
Proof.
  unfold IsValidPathPrefix. destruct prefix as [|c v]; [done|]. rewrite andb_true_iff, bool_decide_eq_true.
  intros [-> H]. split; [done|by apply component_visible].
Qed.

Lemma of_code_code b : of_code (code b) = b.
Proof. by destruct b. Qed.

Lemma case_variant_lower x y : case_variant x y -> lower x = lower y.
Proof.
  unfold case_variant, lower, is_upper, in_range. intros [->|[[H E]|[H E]]]; [done| |].
  - rewrite (proj2 (Z.leb_le 65 (code x))), (proj2 (Z.leb_le (code x) 90)), (proj2 (Z.leb_gt (code y) 90)),
      andb_false_r by lia. simpl. rewrite <- E. apply of_code_code.
  - rewrite (proj2 (Z.leb_le 65 (code y))), (proj2 (Z.leb_le (code y) 90)), (proj2 (Z.leb_gt (code x) 90)),
      andb_false_r by lia. simpl. rewrite <- E. symmetry. apply of_code_code.
Qed.

(** Hosts that differ in case only have the same key. *)
Lemma match_key_case a b :
  Forall2 case_variant (rt_host a) (rt_host b) -> rt_path_prefix a = rt_path_prefix b ->
  match_key a = match_key b.
Proof.
  intros Hh Hp. unfold match_key, LowerAscii, lower_all. rewrite Hp. f_equal.
  induction Hh as [|x y l k Hx _ IH]; [done|]. rewrite !fmap_cons, IH. f_equal. by apply case_variant_lower.
Qed.

Lemma parse_octet_range part v : parse_octet part = Some v -> 0 <= v <= 255.
Proof.
  unfold parse_octet. destruct (_ || _) eqn:Ed; [done|]. intros H. binds H.
  unfold from_chars in E. destruct (HttpText.value_of part 0 <? u32_modulus); simplify_eq.
  destruct (Z.ltb_spec 255 (HttpText.value_of part 0)); simplify_eq.
  split; [|lia]. rewrite !orb_false_iff in Ed. destruct Ed as [_ Hd]. apply negb_false_iff in Hd.
  apply HttpText.value_of_ge; [|lia]. unfold all_digits in Hd. rewrite forallb_forall in Hd.
  apply Forall_forall. intros c Hc. by apply Hd, list_elem_of_In.
Qed.

Lemma parse_octets_range n host l : parse_octets n host = Some l -> Forall (fun v => 0 <= v <= 255) l.
Proof.
  revert host l. induction n as [|n IH]; intros host l H; [done|].
  cbn [parse_octets] in H. binds H. apply parse_octet_range in E.
  destruct n, (find host [("."%byte)]); simplify_eq; try done; [by apply Forall_singleton|].
  binds H. simplify_eq. constructor; [done|]. by eapply IH.
Qed.

Lemma ipv4_octets host a : ParseNumericIpv4 host = Some a -> octets a.
Proof.
  unfold ParseNumericIpv4. destruct (parse_octets 4 host) as [l|] eqn:E; [|done].
  apply parse_octets_range in E. intros H.
  destruct l as [|x0 [|x1 [|x2 [|x3 [|]]]]]; simplify_eq. unfold octets.
  rewrite !Forall_cons in E. tauto.
Qed.

Lemma endpoint_spec node x : ParseEndpoint node = Some x -> valid_endpoint x.
Proof.
  unfold ParseEndpoint. intros H. binds H. simplify_eq/=.
  split; simpl; eauto using positive_u32_spec, ipv4_octets, ipv4_quad.
  unfold positive in E1. binds E1. by apply positive_spec in E1.
Qed.

Lemma has_duplicate_spec eps : has_duplicate eps = false -> NoDup (place <$> eps).
Proof.
  induction eps as [|x eps IH]; simpl; [constructor|]. rewrite orb_false_iff. intros [Hx Hd].
  constructor; [|by apply IH]. intros (y & Hy & Hin)%list_elem_of_fmap.
  assert (existsb (same_place x) eps = true); [|congruence]. apply existsb_exists.
  exists y. split; [by apply list_elem_of_In|]. unfold place in Hy. unfold same_place. simplify_eq.
  by rewrite !bool_decide_eq_true_2.
Qed.

Lemma endpoints_spec node eps :
  ParseEndpoints node = Some eps ->
  eps <> [] /\ Forall valid_endpoint eps /\ NoDup (place <$> eps).
Proof.
  unfold ParseEndpoints. destruct node as [| |[|n ns]|]; try done. intros H. binds H.
  destruct (has_duplicate x) eqn:Ed; simplify_eq. apply mapM_Some in E.
  split_and!; [by intros ->; inversion E| |by apply has_duplicate_spec].
  apply Forall_forall. intros y Hy. apply list_elem_of_lookup in Hy as [i Hi].
  eapply Forall2_lookup_r in Hi as (n' & _ & Hn); [|exact E]. by apply endpoint_spec in Hn.
Qed.

Lemma default_u32 n : n = 5000 \/ n = 30000 -> positive_u32 n.
Proof. unfold positive_u32. mlia. Qed.

Lemma retry_spec node n : RequireRetryBudget node = Some n -> n = 0 \/ n = 1.
Proof.
  unfold RequireRetryBudget. intros H. binds H.
  destruct (beq _ _); [simplify_eq; by left|]. destruct (beq _ _); [simplify_eq; by right|done].
Qed.

Lemma opt_spec {A : Type} (P : A -> Prop) (parse : Node -> option A) n y :
  (forall x, parse n = Some x -> P x) -> Some <$> parse n = Some y -> opt P y.
Proof. intros Hp. destruct (parse n); intros; simplify_eq/=. by apply Hp. Qed.

Lemma route_spec node r : ParseRoute node = Some r -> valid_route r.
Proof.
  unfold ParseRoute. intros H. binds H. destruct (_ || _) eqn:Ev; [done|]. binds H. simplify_eq.
  rewrite orb_false_iff, !negb_false_iff in Ev. destruct Ev as [Eh Ep].
  match goal with HE : ParseEndpoints _ = Some _ |- _ => apply endpoints_spec in HE as (? & ? & ?) end.
  split; simpl; eauto using positive_u32_spec, string_field_spec, route_host_spec, route_prefix_spec.
  all: try (eapply optional_positive_spec; [|done]; apply default_u32; lia).
  - eapply (optional_spec _ _ RequireRetryBudget 1 _ (fun n => n = 0 \/ n = 1)); eauto using retry_spec.
  - eapply (optional_spec _ _ _ None _ (opt valid_breaker)); [done| |done].
    intros n y. apply opt_spec. apply breaker_spec.
  - eapply (optional_spec _ _ _ None _ (opt valid_health)); [done| |done].
    intros n y. apply opt_spec. apply health_spec.
Qed.

Lemma read_routes_spec nodes names keys rs :
  read_routes nodes names keys = Some rs ->
  length rs = length nodes /\ Forall valid_route rs /\
  NoDup (rt_name <$> rs) /\ (forall n, n ∈ rt_name <$> rs -> n ∉ names) /\
  NoDup (match_key <$> rs) /\ (forall k, k ∈ match_key <$> rs -> k ∉ keys).
Proof.
  revert names keys rs. induction nodes as [|node nodes IH]; intros names keys rs H; simpl in H.
  { simplify_eq. split_and!; try constructor; intros ? H; by apply elem_of_nil in H. }
  binds H. destruct (_ || _) eqn:Ed; [done|]. binds H. simplify_eq.
  rewrite orb_false_iff in Ed. destruct Ed as [Hn%bool_decide_eq_false Hk%bool_decide_eq_false].
  apply IH in E0 as (H1 & H2 & H3 & H4 & H5 & H6). apply route_spec in E.
  rewrite !fmap_cons. split_and!; [simpl; lia|by constructor| | | |].
  - constructor; [|done]. intros Hx. apply H4 in Hx. set_solver.
  - intros n [->|Hx]%elem_of_cons; [done|]. apply H4 in Hx. set_solver.
  - constructor; [|done]. intros Hx. apply H6 in Hx. set_solver.
  - intros k [->|Hx]%elem_of_cons; [done|]. apply H6 in Hx. set_solver.
Qed.

Lemma document_spec document c : load_document document = Some c -> valid_config c.
Proof.
  unfold load_document. intros H. binds H. destruct x0 as [| |[|n ns]|]; try done. binds H. simplify_eq.
  match goal with HE : read_routes _ _ _ = Some _ |- _ =>
    apply read_routes_spec in HE as (H1 & H2 & H3 & _ & H5 & _) end.
  split; simpl; try done; [by intros ->| |].
  2: { intros i j a b Ha Hb Hh Hp. eapply (NoDup_lookup (match_key <$> _)); [exact H5|..];
         rewrite list_lookup_fmap; [by rewrite Ha|]. rewrite Hb. simpl. by rewrite (match_key_case a b). }
  eapply (optional_spec _ _ _ 1 _ (fun n => 1 <= n <= 1024)); [lia| |done].
  intros k y. apply positive_spec.
Qed.

(** C37: A configuration that loads is well formed: there is at least one route,
    between 1 and 1024 workers, route names are unique, and no two routes have
    hosts that differ at most in the case of letters together with the same path
    prefix; hosts and prefixes have their syntax; every limit, timeout and breaker setting is a positive
    32-bit value (threshold in 1..999 permille, retry budget 0 or 1); every
    route has at least one endpoint, each with a host that is the dotted quad of
    its address, a port in 1..65535 and a positive weight, and no two endpoints of
    a route share address and port. *)
Theorem loaded_config_valid yaml_load yaml c :
  LoadFromYaml yaml_load yaml = Some c -> valid_config c.
Proof. unfold LoadFromYaml. intros H. binds H. by eapply document_spec. Qed.

(** ** The components built from it *)

Lemma valid_identities c : valid_config c -> CoordinatorState.unique_identities c.
Proof.
  intros [_ _ Hr Hn _]. split.
  - apply (NoDup_fmap_1 ProtectionSnapshot.id_name). rewrite <- list_fmap_compose. exact Hn.
  - eapply Forall_impl; [exact Hr|]. intros r Hv.
    apply (NoDup_fmap_1 (fun k => (ProtectionSnapshot.id_address k, ProtectionSnapshot.id_port k))).
    rewrite <- list_fmap_compose. apply Hv.
Qed.

Lemma valid_weights eps total :
  Forall valid_endpoint eps -> 0 <= total ->
  total + Z.of_nat (length eps) * (u32_modulus - 1) < u64_modulus ->
  exists t, WeightedRoundRobin.sum_weights eps total = Some t /\ total + Z.of_nat (length eps) <= t.
Proof.
  intros Hv. revert total. induction Hv as [|x eps Hx Hv IH]; intros total H0 Ht.
  { exists total. simpl. split; [done|lia]. }
  pose proof (ve_weight _ Hx) as Hw. unfold positive_u32 in Hw. simpl length in Ht. simpl.
  destruct (Z.eqb_spec (ep_weight x) 0), (Z.ltb_spec (u64_modulus - 1 - ep_weight x) total); try mnia.
  simpl. rewrite wrap_u64_small by mnia.
  destruct (IH (total + ep_weight x)) as (t & Et & Hle); [lia|mnia|]. exists t. split; [done|lia].
Qed.

Lemma valid_selector r :
  valid_route r -> Z.of_nat (length (rt_endpoints r)) <= u32_modulus ->
  is_Some (WeightedRoundRobin.make (rt_endpoints r)).
Proof.
  intros Hv Hl. destruct (valid_weights (rt_endpoints r) 0 (vr_each _ Hv)) as (t & Et & Ht);
    [lia|mnia|]. unfold WeightedRoundRobin.make. rewrite Et. simpl.
  destruct (Z.eqb_spec t 0); [|done]. pose proof (vr_endpoints _ Hv). destruct (rt_endpoints r); [done|].
  simpl in Ht. lia.
Qed.

Lemma valid_breaker_make c now :
  valid_breaker c -> is_Some (CircuitBreaker.make (CoordinatorState.breaker_config c) now).
Proof.
  intros [H1 H2 H3 H4 H5]. unfold positive_u32 in *. unfold CircuitBreaker.make.
  simpl. zcases. done.
Qed.

Lemma valid_coordinator c now : valid_config c -> is_Some (CoordinatorState.make c now).
Proof.
  intros [_ _ Hr _ _]. unfold CoordinatorState.make.
  assert (is_Some (mapM (CoordinatorState.make_route now) (routes c))) as [es ->]; [|done].
  apply mapM_is_Some. eapply Forall_impl; [exact Hr|]. intros r Hv. unfold compose, CoordinatorState.make_route.
  pose proof (vr_breaker _ Hv) as Hb. destruct (circuit_breaker r) as [b|]; [|eexists; reflexivity].
  apply mapM_is_Some, Forall_forall. intros x _. simpl in Hb.
  destruct (valid_breaker_make b now Hb) as [t ->]. by eexists.
Qed.

Lemma valid_admission r now :
  valid_route r ->
  is_Some (GlobalAdmission.make r now) /\
  is_Some (RouteAdmission.make (rate_limit r) (burst r) (max_inflight r) now).
Proof.
  intros Hv. pose proof (vr_rate _ Hv). pose proof (vr_burst _ Hv). pose proof (vr_inflight _ Hv).
  unfold positive_u32 in *. unfold GlobalAdmission.make, RouteAdmission.make, TokenBucket.make,
    InflightLimiter.make. zcases. done.
Qed.

(** A loaded configuration is accepted by every component the runtime
    builds from it: the weighted selector, both admission controllers and the
    coordinator state construct without throwing for every route, and route and
    endpoint identities are unique, which protection migration relies on.  (The
    bound on the number of endpoints keeps the 64-bit weight total exact.) *)
Theorem loaded_config_constructs yaml_load yaml c now :
  LoadFromYaml yaml_load yaml = Some c ->
  Forall (fun r => Z.of_nat (length (rt_endpoints r)) <= u32_modulus) (routes c) ->
  is_Some (CoordinatorState.make c now) /\ CoordinatorState.unique_identities c /\
  Forall (fun r => is_Some (WeightedRoundRobin.make (rt_endpoints r)) /\
                   is_Some (GlobalAdmission.make r now) /\
                   is_Some (RouteAdmission.make (rate_limit r) (burst r) (max_inflight r) now))
         (routes c).
Proof.
  unfold LoadFromYaml. intros H Hl. binds H. apply document_spec in H as Hv.
  split; [by apply valid_coordinator|]. split; [by apply valid_identities|].
  apply Forall_forall. intros r Hin. rewrite Forall_forall in Hl.
  pose proof (vc_each _ Hv) as Hr. rewrite Forall_forall in Hr.
  split; [by apply valid_selector; auto|]. by apply valid_admission, Hr.
Qed.

(** ** Examples *)

Definition entry (k : bytes) (v : Node) : Node * Node := (Scalar k, v).

Definition example_breaker : Node :=
  Map [entry (lit "window_seconds") (Scalar (lit "10"));
       entry (lit "min_requests") (Scalar (lit "20"));
       entry (lit "failure_threshold") (Scalar (lit "0.5"));
       entry (lit "open_seconds") (Scalar (lit "5"));
       entry (lit "half_open_probes") (Scalar (lit "3"))].

Definition example_document (max_inflight : bytes) : Node :=
  Map [entry (lit "workers") (Scalar (lit "4"));
       entry (lit "routes")
         (Sequence
            [Map [entry (lit "name") (Scalar (lit "api"));
                  entry (lit "host") (Scalar (lit "api.example.com:8080"));
                  entry (lit "path_prefix") (Scalar (lit "/v1"));
                  entry (lit "endpoints")
                    (Sequence
                       [Map [entry (lit "host") (Scalar (lit "10.0.0.1"));
                             entry (lit "port") (Scalar (lit "80"));
                             entry (lit "weight") (Scalar (lit "5"))];
                        Map [entry (lit "host") (Scalar (lit "10.0.0.2"));
                             entry (lit "port") (Scalar (lit "80"));
                             entry (lit "weight") (Scalar (lit "1"))]]);
                  entry (lit "rate_limit") (Scalar (lit "100"));
                  entry (lit "burst") (Scalar (lit "50"));
                  entry (lit "max_inflight") (Scalar max_inflight);
                  entry (lit "circuit_breaker") example_breaker]])].

(** A parser that reads the text as the value of [max_inflight]. *)
Definition example_load (yaml : bytes) : option Node := Some (example_document yaml).

Definition example_config (max_inflight : Z) : Config :=
  mkConfig
    [mkRoute (lit "api") (lit "api.example.com:8080") (lit "/v1")
       [mkEndpoint (lit "10.0.0.1") (10, 0, 0, 1) 80 5;
        mkEndpoint (lit "10.0.0.2") (10, 0, 0, 2) 80 1]
       100 50 max_inflight 5000 5000 30000 1
       (Some (mkBreakerSettings 10 20 500 5 3)) None kWeightedRoundRobin] 4.

Lemma example_loads :
  LoadFromYaml example_load (lit "1000") = Some (example_config 1000).
Proof. vm_compute. reflexivity. Qed.

Lemma loaded_config_valid_witness : valid_config (example_config 1000).
Proof. apply (loaded_config_valid example_load (lit "1000")). exact example_loads. Defined.

Lemma loaded_config_constructs_witness :
  is_Some (CoordinatorState.make (example_config 1000) 0) /\
  CoordinatorState.unique_identities (example_config 1000) /\
  Forall (fun r => is_Some (WeightedRoundRobin.make (rt_endpoints r)) /\
                   is_Some (GlobalAdmission.make r 0) /\
                   is_Some (RouteAdmission.make (rate_limit r) (burst r) (max_inflight r) 0))
         (routes (example_config 1000)).
Proof.
  apply (loaded_config_constructs example_load (lit "1000")); [exact example_loads|].
  apply Forall_singleton. vm_compute. discriminate.
Defined.

(** The loader does not check the outcome-channel ceiling: a configuration
    with a breaker route of 600000 in-flight requests and one retry loads, and
    the coordinator's constructor then throws on its capacity. *)
Theorem loader_misses_channel_ceiling :
  LoadFromYaml example_load (lit "600000") = Some (example_config 600000) /\
  Forall (fun r => OutcomeChannel.CapacityForRoute (max_inflight r) (retry_budget r) = None)
         (routes (example_config 600000)).
Proof. split; [vm_compute; reflexivity|]. apply Forall_singleton. vm_compute. reflexivity. Qed.

End ConfigLoader.
