(* ===== verification/TimerQueue.v ===== *)
(** * The timer queue

    Models src/src/net/TimerQueue.cpp: an ordered map from (deadline,
    identifier) to callbacks, an index by identifier and the timerfd, which is
    the deadline it was last armed for.  Callbacks are data ([C]); the loop of
    [HandleReadable] is given what a callback does to its owner.  Clock readings
    are arguments. *)

From Stdlib Require Import Sorting.Sorted.
From S2P Require Import Prelude.

Module TimerQueue.

Section Queue.
Context {C : Type}.

Record entry := mkEntry { deadline : Z; identifier : Z; callback : C }.

(** [timers_] in key order; [by_identifier_] gives the key's deadline; [armed_]
    is the deadline in the timerfd, [None] when disarmed. *)
Record t := mk {
  timers_ : list entry;
  by_identifier_ : gmap Z Z;
  next_identifier_ : Z;
  armed_ : option Z
}.

Definition make : t := mk [] ∅ 1 None.

(** The order of [std::pair]. *)
Definition key_lt (x y : entry) : bool :=
  (deadline x <? deadline y) || ((deadline x =? deadline y) && (identifier x <? identifier y)).

Fixpoint insert_entry (x : entry) (l : list entry) : list entry :=
  match l with
  | [] => [x]
  | y :: r => if key_lt x y then x :: l else y :: insert_entry x r
  end.

Definition erase (id : Z) (l : list entry) : list entry :=
  filter (fun y => identifier y <> id) l.

(** [ToTimespec] maps a passed deadline to one nanosecond, which still fires. *)
Definition Rearm (q : t) : t :=
  mk (timers_ q) (by_identifier_ q) (next_identifier_ q) (deadline <$> head (timers_ q)).

(** [None] is [std::overflow_error]. *)
Definition ScheduleAt (d : Z) (c : C) (q : t) : option (Z * t) :=
  if next_identifier_ q =? 0 then None
  else
    let id := next_identifier_ q in
    Some (id, Rearm (mk (insert_entry (mkEntry d id c) (timers_ q))
                        (<[ id := d ]> (by_identifier_ q)) (wrap_u64 (id + 1)) (armed_ q))).

(** [None] is also [std::invalid_argument] on a negative delay. *)
Definition ScheduleAfter (now delay : Z) (c : C) (q : t) : option (Z * t) :=
  if delay <? 0 then None else ScheduleAt (now + delay) c q.

Definition Cancel (id : Z) (q : t) : bool * t :=
  match by_identifier_ q !! id with
  | None => (false, q)
  | Some _ => (true, Rearm (mk (erase id (timers_ q)) (delete id (by_identifier_ q))
                               (next_identifier_ q) (armed_ q)))
  end.

Definition PendingCount (q : t) : nat := length (timers_ q).

(** One turn of the loop of [HandleReadable]: the first entry that is due
    leaves the queue. *)
Definition pop_due (now : Z) (q : t) : option (entry * t) :=
  match timers_ q with
  | x :: r => if deadline x <=? now
              then Some (x, mk r (delete (identifier x) (by_identifier_ q)) (next_identifier_ q) (armed_ q))
              else None
  | [] => None
  end.

(** [HandleReadable]: [run] is the callback's effect on the queue and on the
    state [S] it belongs to; [None] is exhausted fuel. *)
Fixpoint handle_due {S : Type} (run : C -> S -> t -> S * t) (fuel : nat) (now : Z) (s : S) (q : t)
    : option (S * t) :=
  match pop_due now q with
  | None => Some (s, Rearm q)
  | Some (x, q) =>
      match fuel with
      | O => None
      | Datatypes.S fuel => let '(s, q) := run (callback x) s q in handle_due run fuel now s q
      end
  end.

(** ** Invariant *)

Definition before (x y : entry) : Prop := key_lt x y = true.

Record wf (q : t) : Prop := {
  wf_sorted : StronglySorted before (timers_ q);
  wf_index : forall id d, by_identifier_ q !! id = Some d <->
                          exists x, x ∈ timers_ q /\ identifier x = id /\ deadline x = d;
  wf_fresh : forall x, x ∈ timers_ q -> 0 < identifier x < next_identifier_ q;
  wf_next : 0 < next_identifier_ q
}.

Lemma key_lt_trans x y z : before x y -> before y z -> before x z.
Proof.
  unfold before, key_lt. rewrite !orb_true_iff, !andb_true_iff, !Z.ltb_lt, !Z.eqb_eq. lia.
Qed.

Lemma insert_entry_elem x y l : y ∈ insert_entry x l <-> y = x \/ y ∈ l.
Proof.
  induction l as [|z l IH]; simpl; [set_solver|]. destruct (key_lt x z); set_solver.
Qed.

Lemma key_lt_total x y : identifier x <> identifier y -> before x y \/ before y x.
Proof.
  unfold before, key_lt. rewrite !orb_true_iff, !andb_true_iff, !Z.ltb_lt, !Z.eqb_eq. lia.
Qed.

Lemma insert_entry_sorted x l :
  StronglySorted before l -> (forall y, y ∈ l -> identifier y <> identifier x) ->
  StronglySorted before (insert_entry x l).
Proof.
  induction 1 as [|y l Hs IH Hy]; intros Hx; simpl; [by repeat constructor|].
  destruct (key_lt x y) eqn:E.
  - constructor; [by constructor|]. constructor; [done|].
    eapply Forall_impl; [exact Hy|]. intros z Hz. by eapply key_lt_trans.
  - constructor; [apply IH; set_solver|]. apply Forall_forall. intros z [->|Hz]%insert_entry_elem.
    + destruct (key_lt_total x y) as [H|H]; [apply not_eq_sym, Hx; set_solver| |done].
      unfold before in H. congruence.
    + rewrite Forall_forall in Hy. by apply Hy.
Qed.

Lemma timers_make_wf : wf make.
Proof.
  split; simpl; [constructor| |intros x H; by apply elem_of_nil in H|lia].
  intros id d. rewrite lookup_empty. split; [done|]. intros (x & H & _). by apply elem_of_nil in H.
Qed.

Lemma ScheduleAt_wf d c q id q' :
  wf q -> next_identifier_ q + 1 < u64_modulus -> ScheduleAt d c q = Some (id, q') ->
  wf q' /\ id = next_identifier_ q /\ armed_ q' = deadline <$> head (timers_ q') /\
  (forall y, y ∈ timers_ q' <-> y = mkEntry d id c \/ y ∈ timers_ q).
Proof.
  intros [H1 H2 H3 H4] Hn. unfold ScheduleAt. destruct (Z.eqb_spec (next_identifier_ q) 0); [done|].
  intros Hs. simplify_eq. split_and!; [|done|done|intros y; apply insert_entry_elem].
  split; simpl.
  - apply insert_entry_sorted; [done|]. intros y Hy. apply H3 in Hy. simpl. lia.
  - intros id d'. destruct (decide (id = next_identifier_ q)) as [->|Hne].
    + rewrite lookup_insert_eq. split.
      * intros; simplify_eq. eexists. rewrite insert_entry_elem. eauto.
      * intros (x & [->|Hx]%insert_entry_elem & Hi & <-); [done|]. apply H3 in Hx. lia.
    + rewrite lookup_insert_ne, H2 by done. split.
      * intros (x & Hx & Hi & Hd). exists x. rewrite insert_entry_elem. eauto.
      * intros (x & [->|Hx]%insert_entry_elem & Hi & Hd); [simpl in Hi; congruence|eauto].
  - intros x [->|Hx]%insert_entry_elem; simpl; rewrite wrap_u64_small by mlia; [lia|].
    apply H3 in Hx. lia.
  - rewrite wrap_u64_small by mlia. lia.
Qed.

Lemma erase_elem id x l : x ∈ erase id l <-> identifier x <> id /\ x ∈ l.
Proof. unfold erase. by rewrite list_elem_of_filter. Qed.

Lemma erase_sorted id l : StronglySorted before l -> StronglySorted before (erase id l).
Proof.
  induction 1 as [|y l Hs IH Hy]; [constructor|]. unfold erase. rewrite filter_cons. case_decide; [|done].
  constructor; [done|]. apply Forall_forall. intros z [_ Hz]%erase_elem.
  rewrite Forall_forall in Hy. by apply Hy.
Qed.

Lemma Cancel_wf id q :
  wf q -> wf (Cancel id q).2 /\
  (forall y, y ∈ timers_ (Cancel id q).2 <-> y ∈ timers_ q /\ identifier y <> id).
Proof.
  intros [H1 H2 H3 H4]. unfold Cancel. destruct (by_identifier_ q !! id) as [d|] eqn:E; simpl.
  - split; [|intros y; rewrite erase_elem; tauto]. split; simpl; [by apply erase_sorted| | |done].
    + intros id' d'. destruct (decide (id' = id)) as [->|Hne].
      * rewrite lookup_delete_eq. split; [done|]. intros (x & [Hx _]%erase_elem & Hi & _). done.
      * rewrite lookup_delete_ne, H2 by done. split; intros (x & Hx & Hi & Hd); exists x;
          (split; [|done]); rewrite erase_elem in *; [split; [congruence|done]|tauto].
    + intros x [_ Hx]%erase_elem. by apply H3.
  - split; [done|]. intros y. split; [|tauto]. intros Hy. split; [done|]. intros Hi.
    assert (by_identifier_ q !! id = Some (deadline y)) as E'; [|congruence]. apply H2. eauto.
Qed.

(** The entry that fires is due, and no pending entry has an earlier key. *)
Lemma pop_due_wf now q x q' :
  wf q -> pop_due now q = Some (x, q') ->
  wf q' /\ deadline x <= now /\ x ∈ timers_ q /\ (forall y, y ∈ timers_ q' -> before x y) /\
  (forall y, y ∈ timers_ q <-> y = x \/ y ∈ timers_ q') /\ identifier x ∉ identifier <$> timers_ q'.
Proof.
  intros [H1 H2 H3 H4]. unfold pop_due. destruct (timers_ q) as [|y r] eqn:Eq; [done|].
  destruct (Z.leb_spec (deadline y) now); [|done]. intros; simplify_eq/=.
  apply StronglySorted_inv in H1 as [Hs Hf]. rewrite Forall_forall in Hf.
  assert (Hid : forall y, y ∈ r -> identifier y <> identifier x).
  { intros y Hy Hi. assert (by_identifier_ q !! identifier x = Some (deadline y)) as E1.
    { apply H2. exists y. split; [set_solver|done]. }
    assert (by_identifier_ q !! identifier x = Some (deadline x)) as E2.
    { apply H2. exists x. split; [set_solver|done]. }
    apply Hf in Hy. unfold before, key_lt in Hy. simplify_eq. rewrite Hi in *.
    rewrite orb_true_iff, andb_true_iff, !Z.ltb_lt, Z.eqb_eq in Hy. lia. }
  split_and!; [|done|set_solver|done|set_solver|].
  - split; simpl; [done| |set_solver|done].
    intros id d. destruct (decide (id = identifier x)) as [->|Hne].
    + rewrite lookup_delete_eq. split; [done|]. intros (z & Hz & Hi & _). by apply Hid in Hz.
    + rewrite lookup_delete_ne, H2 by done. set_solver.
  - intros (y & Hi & Hy)%list_elem_of_fmap. symmetry in Hi. by apply Hid in Hy.
Qed.

(** The identifier determines the entry's callback and deadline. *)
Lemma wf_unique q x y : wf q -> x ∈ timers_ q -> y ∈ timers_ q -> identifier x = identifier y -> x = y.
Proof.
  intros [H1 H2 _ _] Hx Hy He. assert (deadline x = deadline y) as Hd.
  { assert (by_identifier_ q !! identifier x = Some (deadline x)) by (apply H2; eauto).
    assert (by_identifier_ q !! identifier x = Some (deadline y)) by (apply H2; eauto). congruence. }
  assert (Hirr : forall z, before z z -> False) by (unfold before, key_lt; intros z; rewrite orb_true_iff, andb_true_iff, !Z.ltb_lt; lia).
  assert (Heq : forall z w, identifier z = identifier w -> deadline z = deadline w -> before z w -> False).
  { unfold before, key_lt. intros z w -> ->. rewrite orb_true_iff, andb_true_iff, !Z.ltb_lt. lia. }
  clear H2. induction H1 as [|z l Hs IH Hz]; [by apply elem_of_nil in Hx|]. rewrite Forall_forall in Hz.
  apply elem_of_cons in Hx as [->|Hx], Hy as [->|Hy]; [done| | |by apply IH].
  - exfalso. eapply (Heq z y); [done|done|]. by apply Hz.
  - exfalso. eapply (Heq z x); [done|done|]. by apply Hz.
Qed.

(** A timer can be scheduled while there are identifiers left. *)
Lemma ScheduleAfter_ok now delay c q :
  wf q -> 0 <= delay -> next_identifier_ q + 1 < u64_modulus ->
  exists q', ScheduleAfter now delay c q = Some (next_identifier_ q, q') /\ wf q' /\
    next_identifier_ q' = next_identifier_ q + 1 /\
    forall y, y ∈ timers_ q' <-> y = mkEntry (now + delay) (next_identifier_ q) c \/ y ∈ timers_ q.
Proof.
  intros Hw Hd Hn. unfold ScheduleAfter. destruct (Z.ltb_spec delay 0); [lia|]. pose proof (wf_next q Hw).
  destruct (ScheduleAt (now + delay) c q) as [[id q']|] eqn:E.
  - destruct (ScheduleAt_wf _ _ _ _ _ Hw Hn E) as (Hw' & -> & _ & Hy). exists q'. split_and!; try done.
    unfold ScheduleAt in E. destruct (_ =? 0); [done|]. injection E as <-. simpl. apply wrap_u64_small. mlia.
  - unfold ScheduleAt in E. destruct (Z.eqb_spec (next_identifier_ q) 0); [lia|done].
Qed.

Lemma ScheduleAfter_grows now delay c q q' id :
  wf q -> next_identifier_ q + 1 < u64_modulus -> ScheduleAfter now delay c q = Some (id, q') ->
  wf q' /\ next_identifier_ q' = next_identifier_ q + 1 /\
  forall y, y ∈ timers_ q' <-> y = mkEntry (now + delay) id c \/ y ∈ timers_ q.
Proof.
  intros Hw Hn E. destruct (Z.ltb_spec delay 0) as [Hd|Hd].
  - unfold ScheduleAfter in E. destruct (Z.ltb_spec delay 0); [done|lia].
  - destruct (ScheduleAfter_ok now delay c q Hw Hd Hn) as (q1 & E1 & Hw1 & Hn1 & Hy). rewrite E in E1. by injection E1 as -> ->.
Qed.

Lemma Cancel_next id q : next_identifier_ (Cancel id q).2 = next_identifier_ q.
Proof. unfold Cancel. by destruct (_ !! _). Qed.

Lemma pop_due_next now q x q' : pop_due now q = Some (x, q') -> next_identifier_ q' = next_identifier_ q.
Proof. unfold pop_due. destruct (timers_ q); [done|]. destruct (_ <=? _); [|done]. by intros [= <- <-]. Qed.

(** ** Histories

    The queue with the timers that fired (and when) and those cancelled. *)
Record sys := Sys { queue : t; fired : list (entry * Z); cancelled : gset Z }.

Inductive step : sys -> sys -> Prop :=
| step_schedule x d c id q :
    next_identifier_ (queue x) + 1 < u64_modulus -> ScheduleAt d c (queue x) = Some (id, q) ->
    step x (Sys q (fired x) (cancelled x))
| step_cancel x id q :
    Cancel id (queue x) = (true, q) -> step x (Sys q (fired x) ({[ id ]} ∪ cancelled x))
| step_cancel_none x id q :
    Cancel id (queue x) = (false, q) -> step x (Sys q (fired x) (cancelled x))
| step_fire x now e q :
    pop_due now (queue x) = Some (e, q) -> step x (Sys q (fired x ++ [(e, now)]) (cancelled x))
| step_rearm x : step x (Sys (Rearm (queue x)) (fired x) (cancelled x)).

Definition pending_ids (x : sys) : list Z := identifier <$> timers_ (queue x).
Definition fired_ids (x : sys) : list Z := (fun f => identifier f.1) <$> fired x.

(** Where an identifier that was handed out is. *)
Record accounted (x : sys) (id : Z) : Prop := {
  ac_some : id ∈ pending_ids x \/ id ∈ fired_ids x \/ id ∈ cancelled x;
  ac_pending : id ∈ pending_ids x -> id ∉ fired_ids x /\ id ∉ cancelled x;
  ac_fired : id ∈ fired_ids x -> id ∉ cancelled x
}.

Record inv (x : sys) : Prop := {
  i_wf : wf (queue x);
  i_each : forall id, 0 < id < next_identifier_ (queue x) -> accounted x id;
  i_range : forall id, id ∈ fired_ids x \/ id ∈ cancelled x -> 0 < id < next_identifier_ (queue x);
  i_once : NoDup (fired_ids x);
  i_due : Forall (fun f => deadline f.1 <= f.2) (fired x)
}.

Lemma pending_range x id : wf (queue x) -> id ∈ pending_ids x -> 0 < id < next_identifier_ (queue x).
Proof. intros Hw (y & -> & Hy)%list_elem_of_fmap. by apply (wf_fresh _ Hw). Qed.

Lemma schedule_inv x d c id q :
  inv x -> next_identifier_ (queue x) + 1 < u64_modulus -> ScheduleAt d c (queue x) = Some (id, q) ->
  inv (Sys q (fired x) (cancelled x)).
Proof.
  intros [H1 H2 H3 H4 H5] Hn Hs. destruct (ScheduleAt_wf _ _ _ _ _ H1 Hn Hs) as (Hw & -> & _ & Hin).
  assert (next_identifier_ q = next_identifier_ (queue x) + 1) as Hq.
  { pose proof (wf_next _ H1). unfold ScheduleAt in Hs. destruct (_ =? 0); simplify_eq/=.
    apply wrap_u64_small. mlia. }
  assert (Hp : forall id, id ∈ pending_ids (Sys q (fired x) (cancelled x)) <->
                          id = next_identifier_ (queue x) \/ id ∈ pending_ids x).
  { intros id. unfold pending_ids. simpl. rewrite !list_elem_of_fmap. setoid_rewrite Hin.
    split; [intros (y & -> & [->|Hy]); eauto|]. intros [->|(y & -> & Hy)]; [|by eauto].
    eexists (mkEntry d _ c). split; [done|by left]. }
  split; simpl; [done| | |done|done].
  - intros id Hid. destruct (decide (id = next_identifier_ (queue x))) as [->|Hne].
    + assert (next_identifier_ (queue x) ∉ fired_ids x /\ next_identifier_ (queue x) ∉ cancelled x) as [Ha Hb].
      { split; intros H; [specialize (H3 _ (or_introl H))|specialize (H3 _ (or_intror H))]; lia. }
      split; rewrite ?Hp; unfold fired_ids in *; simpl in *; tauto.
    + destruct (H2 id ltac:(lia)) as [A1 A2 A3].
      split; rewrite ?Hp; unfold fired_ids in *; simpl in *; tauto.
  - intros id Hid. apply H3 in Hid. lia.
Qed.

Lemma timer_cancel_inv x id q :
  inv x -> Cancel id (queue x) = (true, q) -> inv (Sys q (fired x) ({[ id ]} ∪ cancelled x)).
Proof.
  intros [H1 H2 H3 H4 H5] Hc. destruct (Cancel_wf id (queue x) H1) as [Hw Hin]. rewrite Hc in Hw, Hin.
  simpl in *. assert (id ∈ pending_ids x) as Hid.
  { unfold Cancel in Hc. destruct (by_identifier_ (queue x) !! id) as [d|] eqn:E; [|done].
    apply (wf_index _ H1) in E as (y & Hy & <- & _). apply list_elem_of_fmap. eauto. }
  assert (next_identifier_ q = next_identifier_ (queue x)) as Hq.
  { unfold Cancel in Hc. case_match; by simplify_eq. }
  assert (Hp : forall i, i ∈ pending_ids (Sys q (fired x) ({[ id ]} ∪ cancelled x)) <->
                         i <> id /\ i ∈ pending_ids x).
  { intros i. unfold pending_ids. simpl. rewrite !list_elem_of_fmap. setoid_rewrite Hin.
    split; [intros (y & -> & Hy & Hne); eauto|]. intros [Hne (y & -> & Hy)]; eauto. }
  pose proof (pending_range x id H1 Hid) as Hr. destruct (H2 id Hr) as [B1 B2 B3].
  split; simpl; [done| | |done|done].
  - intros i Hi. rewrite Hq in Hi. destruct (H2 i Hi) as [A1 A2 A3].
    split; rewrite ?Hp; unfold fired_ids in *; simpl in *; set_unfold; destruct (decide (i = id)); naive_solver.
  - intros i Hi. rewrite Hq. unfold fired_ids in *. simpl in Hi. set_unfold.
    destruct Hi as [Hi|[->|Hi]]; [by apply H3; left|done|by apply H3; right].
Qed.

Lemma fire_inv x now e q :
  inv x -> pop_due now (queue x) = Some (e, q) -> inv (Sys q (fired x ++ [(e, now)]) (cancelled x)).
Proof.
  intros [H1 H2 H3 H4 H5] Hf.
  destruct (pop_due_wf _ _ _ _ H1 Hf) as (Hw & Hd & He & _ & Hin & Hno).
  assert (next_identifier_ q = next_identifier_ (queue x)) as Hq.
  { unfold pop_due in Hf. repeat case_match; by simplify_eq. }
  assert (Hid : identifier e ∈ pending_ids x) by (apply list_elem_of_fmap; eauto).
  pose proof (pending_range x _ H1 Hid) as Hr. destruct (H2 _ Hr) as [B1 B2 B3].
  destruct (B2 Hid) as [B4 B5].
  assert (Hp : forall i, i ∈ pending_ids x <-> i = identifier e \/ i ∈ identifier <$> timers_ q).
  { intros i. unfold pending_ids. rewrite !list_elem_of_fmap. setoid_rewrite Hin.
    split; [intros (y & -> & [->|Hy]); eauto|]. intros [->|(y & -> & Hy)]; [|by eauto].
    exists e. split; [done|by left]. }
  assert (Hfi : fired_ids (Sys q (fired x ++ [(e, now)]) (cancelled x)) = fired_ids x ++ [identifier e]).
  { unfold fired_ids. simpl. by rewrite fmap_app. }
  split; [done| | | |].
  - intros i Hi. simpl in Hi. rewrite Hq in Hi. destruct (H2 i Hi) as [A1 A2 A3].
    rewrite Hp in A1, A2. split; rewrite ?Hfi; unfold pending_ids; simpl; set_unfold;
      destruct (decide (i = identifier e)) as [->|]; naive_solver.
  - intros i Hi. simpl. rewrite Hq. rewrite Hfi in Hi. set_unfold.
    destruct Hi as [[Hi|[->|[]]]|Hi]; [by apply H3; left|done|by apply H3; right].
  - rewrite Hfi. apply NoDup_app. split_and!; [done| |apply NoDup_singleton]. set_solver.
  - simpl. apply Forall_app. split; [done|]. by apply Forall_singleton.
Qed.

Lemma timers_step_inv x y : inv x -> step x y -> inv y.
Proof.
  intros Hx Hs. destruct Hs as [x d c id q Hn Hs|x id q Hc|x id q Hc|x now e q Hf|x].
  - by eapply schedule_inv.
  - by apply timer_cancel_inv.
  - assert (q = queue x) as -> by (unfold Cancel in Hc; case_match; by simplify_eq). by destruct x.
  - by apply fire_inv.
  - destruct Hx as [[W1 W2 W3 W4] H2 H3 H4 H5]. split; [by split| |done|done|done].
    intros id Hid. destruct (H2 id Hid). by split.
Qed.

Lemma timers_initial_inv : inv (Sys make [] ∅).
Proof.
  split; simpl; [apply timers_make_wf|intros; lia| |constructor|constructor].
  intros id [H|H]; [by apply elem_of_nil in H|set_solver].
Qed.

End Queue.
Arguments t : clear implicits.
Arguments entry : clear implicits.

(** Every scheduled timer has exactly one fate: in every history of
    scheduling, cancelling and firing, each identifier handed out is either
    pending, fired exactly once and not before its deadline, or cancelled; in
    particular a timer whose cancellation returned true never runs afterwards
    and a fired timer can no longer be cancelled. *)
Theorem timers_fire_once {C : Type} (x : sys (C := C)) :
  rtc step (Sys make [] ∅) x ->
  NoDup (fired_ids x) /\ Forall (fun f => deadline f.1 <= f.2) (fired x) /\
  (forall id, 0 < id < next_identifier_ (queue x) -> accounted x id) /\ wf (queue x).
Proof.
  intros Hx. assert (inv x) as [H1 H2 _ H4 H5].
  { eapply rtc_preserves; [exact timers_step_inv|exact Hx|apply timers_initial_inv]. }
  done.
Qed.

Lemma timers_fire_once_witness :
  exists x : sys (C := nat),
    rtc step (Sys make [] ∅) x /\ fired_ids x = [2] /\ cancelled x = {[ 1 ]} /\
    NoDup (fired_ids x) /\ accounted x 3.
Proof.
  set (q1 := mk [mkEntry 10 1 7%nat] {[ 1 := 10 ]} 2 (Some 10)).
  set (q2 := mk [mkEntry 5 2 8%nat; mkEntry 10 1 7%nat] {[ 2 := 5; 1 := 10 ]} 3 (Some 5)).
  set (q3 := mk [mkEntry 5 2 8%nat; mkEntry 10 1 7%nat; mkEntry 20 3 9%nat]
                {[ 3 := 20; 2 := 5; 1 := 10 ]} 4 (Some 5)).
  set (x := Sys (snd (Cancel 1 (default make (snd <$> pop_due 6 q3)))) [(mkEntry 5 2 8%nat, 6)] {[ 1 ]}).
  assert (Hx : rtc step (Sys make [] ∅) x).
  { eapply rtc_l; [by apply (step_schedule _ 10 7%nat 1 q1)|].
    eapply rtc_l; [by apply (step_schedule _ 5 8%nat 2 q2)|].
    eapply rtc_l; [by apply (step_schedule _ 20 9%nat 3 q3)|].
    eapply rtc_l; [by apply (step_fire _ 6 (mkEntry 5 2 8%nat))|].
    eapply rtc_l; [by apply (step_cancel _ 1)|]. apply rtc_refl. }
  exists x. destruct (timers_fire_once x Hx) as (H1 & _ & H3 & _).
  split; [exact Hx|]. split; [vm_compute; reflexivity|]. split; [vm_compute; reflexivity|].
  split; [exact H1|]. apply H3. vm_compute. split; reflexivity.
Defined.

End TimerQueue.
