(* ===== verification/TimerFd.v ===== *)
(** * The timer queue's descriptor

    Models how src/src/net/TimerQueue.cpp uses the timerfd: [ToTimespec], the
    arming in [Rearm], the reads of [HandleReadable], construction and
    destruction.  TimerQueue abstracts the descriptor to the deadline it was last
    armed for; here it has the kernel's view, an absolute expiry computed from a
    relative time, for which zero means disarmed. *)

From S2P Require Import Prelude TimerQueue.

Module TimerFd.

Definition nanoseconds_per_second : Z := 1000000000.

Record timespec := mkTimespec { tv_sec : Z; tv_nsec : Z }.

Definition zero_timespec : timespec := mkTimespec 0 0.

Definition ToTimespec (duration : Z) : timespec :=
  let duration := if duration <=? 0 then 1 else duration in
  let seconds := Z.quot duration nanoseconds_per_second in
  mkTimespec seconds (duration - seconds * nanoseconds_per_second).

Definition in_nanoseconds (x : timespec) : Z := tv_sec x * nanoseconds_per_second + tv_nsec x.

(** [timerfd_settime] at the kernel's time [at_]: a zero value disarms. *)
Definition timerfd_settime (at_ : Z) (x : timespec) : option Z :=
  if in_nanoseconds x =? 0 then None else Some (at_ + in_nanoseconds x).

(** The value passed is normalised and never zero, so a timer that is due
    already still expires. *)
Lemma ToTimespec_spec d :
  in_nanoseconds (ToTimespec d) = Z.max 1 d /\ 0 <= tv_sec (ToTimespec d) /\ 0 <= tv_nsec (ToTimespec d) < nanoseconds_per_second.
Proof.
  unfold ToTimespec, in_nanoseconds, nanoseconds_per_second. cbn [tv_sec tv_nsec].
  assert (H : 0 < (if d <=? 0 then 1 else d) /\ (if d <=? 0 then 1 else d) = Z.max 1 d) by (destruct (Z.leb_spec d 0); lia).
  revert H. generalize (if d <=? 0 then 1 else d). intros z [Hz <-]. rewrite quot_nonneg by lia.
  pose proof (Z.div_mod z 1000000000). pose proof (Z.mod_pos_bound z 1000000000). pose proof (Z.div_pos z 1000000000). lia.
Qed.

Section Queue.
Context {C : Type}.

(** The queue, the descriptor's expiry and whether the descriptor is open. *)
Record t := mk { queue : TimerQueue.t C; expires : option Z; timer_fd_ : bool }.

(** The constructor; [create_ok] is [timerfd_create], [channel_ok] the channel
    and its registration.  [None]: the exception. *)
Definition make (create_ok channel_ok : bool) : option t :=
  if negb create_ok then None else if negb channel_ok then None else Some (mk TimerQueue.make None true).

Definition destroy (q : t) : t := mk (queue q) None false.

(** [Rearm]: [now] is the reading of the clock, [at_] the time of the system
    call; [None]: its exception. *)
Definition Rearm (settime_ok : bool) (now at_ : Z) (q : t) : option t :=
  let specification := match TimerQueue.timers_ (queue q) with
                       | [] => zero_timespec
                       | x :: _ => ToTimespec (TimerQueue.deadline x - now)
                       end in
  if negb settime_ok then None
  else Some (mk (TimerQueue.Rearm (queue q)) (timerfd_settime at_ specification) (timer_fd_ q)).

(** The times of one [Rearm]. *)
Record arming := mkArming { settime_ok : bool; reading : Z; called : Z }.

Definition ScheduleAt (a : arming) (d : Z) (c : C) (q : t) : option (Z * t) :=
  '(id, q') ← TimerQueue.ScheduleAt d c (queue q);
  q ← Rearm (settime_ok a) (reading a) (called a) (mk q' (expires q) (timer_fd_ q));
  Some (id, q).

Definition Cancel (a : arming) (id : Z) (q : t) : option (bool * t) :=
  let '(found, q') := TimerQueue.Cancel id (queue q) in
  if negb found then Some (false, q)
  else q ← Rearm (settime_ok a) (reading a) (called a) (mk q' (expires q) (timer_fd_ q)); Some (true, q).

(** The answers of [read]. *)
Inductive read_result := ReadCounter | ReadInterrupted | ReadAgain | ReadError | ReadShort.

(** The loop that empties the counter; [false]: an exception, [None]: it still
    reads. *)
Fixpoint drain_counter (rs : list read_result) : option bool :=
  match rs with
  | [] => None
  | (ReadCounter | ReadInterrupted) :: rs => drain_counter rs
  | ReadAgain :: _ => Some true
  | (ReadError | ReadShort) :: _ => Some false
  end.

(** ** The loop and the descriptor

    The queue's history with the kernel's time: [clock] is a time not after the
    present, [handling] the reading of a [HandleReadable] under way. *)
Record sys := Sys {
  timers : t;
  fired : list (TimerQueue.entry C * Z);
  cancelled : gset Z;
  clock : Z;
  handling : option Z
}.

Definition history (x : sys) : TimerQueue.sys (C := C) := TimerQueue.Sys (queue (timers x)) (fired x) (cancelled x).

(** The parts of [HandleReadable]: the reads, after which the one-shot timer is
    disarmed; one turn of its loop, with the callback's own calls as later steps;
    its last [Rearm]. *)
Definition begin_handling (rs : list read_result) (now : Z) (x : sys) : option sys :=
  match drain_counter rs with
  | Some true => Some (Sys (mk (queue (timers x)) None (timer_fd_ (timers x))) (fired x) (cancelled x) now (Some now))
  | _ => None
  end.

Definition fire_one (now : Z) (x : sys) : option sys :=
  '(y, q) ← TimerQueue.pop_due now (queue (timers x));
  Some (Sys (mk q (expires (timers x)) (timer_fd_ (timers x))) (fired x ++ [(y, now)]) (cancelled x) (clock x) (handling x)).

Definition end_handling (a : arming) (x : sys) : option sys :=
  q ← Rearm (settime_ok a) (reading a) (called a) (timers x);
  Some (Sys q (fired x) (cancelled x) (called a) None).

Section Runs.
Context (delta : Z).

(** A [Rearm] that succeeds, at most [delta] between its reading and its call. *)
Definition timely (c : Z) (a : arming) : Prop := settime_ok a = true /\ c <= reading a <= called a /\ called a <= reading a + delta.

(** The steps of the loop: the descriptor is readable once it has expired. *)
Inductive loop_step : sys -> sys -> Prop :=
| l_begin x e rs now x' :
    handling x = None -> expires (timers x) = Some e -> e <= now -> clock x <= now -> begin_handling rs now x = Some x' -> loop_step x x'
| l_fire x now x' : handling x = Some now -> fire_one now x = Some x' -> loop_step x x'
| l_end x now a x' :
    handling x = Some now -> TimerQueue.pop_due now (queue (timers x)) = None -> timely (clock x) a -> end_handling a x = Some x' -> loop_step x x'.

(** With the calls of owners and callbacks. *)
Inductive step : sys -> sys -> Prop :=
| st_loop x x' : loop_step x x' -> step x x'
| st_schedule x a d c id q :
    TimerQueue.next_identifier_ (queue (timers x)) + 1 < u64_modulus -> timely (clock x) a ->
    ScheduleAt a d c (timers x) = Some (id, q) -> step x (Sys q (fired x) (cancelled x) (called a) (handling x))
| st_cancel x a id (found : bool) q :
    timely (clock x) a -> Cancel a id (timers x) = Some (found, q) ->
    step x (Sys q (fired x) (if found then {[ id ]} ∪ cancelled x else cancelled x) (called a) (handling x)).

(** The descriptor is disarmed exactly when nothing is scheduled; otherwise it
    expires when the first deadline has passed, and no later than the deadline or
    the present by more than [delta] and a nanosecond. *)
Definition wakes (x : sys) : Prop :=
  match TimerQueue.timers_ (queue (timers x)) with
  | [] => expires (timers x) = None
  | y :: _ => exists e, expires (timers x) = Some e /\ TimerQueue.deadline y <= e <= Z.max (TimerQueue.deadline y) (clock x + 1) + delta
  end.

Lemma Rearm_wakes c a q q' f cs h :
  timely c a -> Rearm (settime_ok a) (reading a) (called a) q = Some q' -> wakes (Sys q' f cs (called a) h).
Proof.
  intros (Hok & Hc & Hd) H. unfold Rearm in H. rewrite Hok in H. simpl in H. injection H as <-. unfold wakes. simpl.
  destruct (TimerQueue.timers_ (queue q)) as [|x l]; [done|]. unfold timerfd_settime.
  destruct (ToTimespec_spec (TimerQueue.deadline x - reading a)) as (E & _ & _). rewrite E.
  destruct (Z.eqb_spec (Z.max 1 (TimerQueue.deadline x - reading a)) 0); [lia|]. eexists. split; [done|]. lia.
Qed.

Lemma Rearm_queue ok now c q q' : Rearm ok now c q = Some q' -> queue q' = TimerQueue.Rearm (queue q).
Proof. unfold Rearm. destruct ok; [|done]. by intros [= <-]. Qed.

(** Time passes. *)
Lemma wakes_later q f cs h f' cs' h' c c' : c <= c' -> wakes (Sys q f cs c h) -> wakes (Sys q f' cs' c' h').
Proof.
  intros Hc. unfold wakes. simpl. destruct (TimerQueue.timers_ (queue q)); [done|]. intros (d & -> & H). exists d. split; [done|]. lia.
Qed.

Lemma step_wakes x y : (handling x = None -> wakes x) -> step x y -> handling y = None -> wakes y.
Proof.
  intros Hx Hs Hy. destruct Hs as [x y Hl|x a d c id q Hn Ht H|x a id found q Ht H].
  - destruct Hl as [x e rs now y Hh He Hn Hc Hb|x now y Hh Hf|x now a y Hh Hp Ht He].
    + unfold begin_handling in Hb. destruct (drain_counter rs) as [[]|]; try done. by injection Hb as <-.
    + unfold fire_one in Hf. apply bind_Some in Hf as ([z q] & _ & Hf). injection Hf as <-. simpl in Hy. congruence.
    + unfold end_handling in He. apply bind_Some in He as (q & Hr & He). injection He as <-. by eapply Rearm_wakes.
  - unfold ScheduleAt in H. apply bind_Some in H as ([i q1] & _ & H). apply bind_Some in H as (q2 & Hr & H). simplify_eq.
    by eapply Rearm_wakes.
  - unfold Cancel in H. destruct (TimerQueue.Cancel id _) as [f q1]. destruct f; simpl in H.
    + apply bind_Some in H as (q2 & Hr & H). simplify_eq. by eapply Rearm_wakes.
    + simplify_eq. destruct x as [q f cs c h]. simpl in *. destruct Ht as (_ & ? & _). eapply wakes_later; [|by apply Hx]. lia.
Qed.

(** The history is one of the queue. *)
Lemma step_history x y : step x y -> rtc TimerQueue.step (history x) (history y).
Proof.
  intros Hs. destruct Hs as [x y Hl|x a d c id q Hn Ht H|x a id found q Ht H].
  - destruct Hl as [x e rs now y Hh He Hn Hc Hb|x now y Hh Hf|x now a y Hh Hp Ht He].
    + unfold begin_handling in Hb. destruct (drain_counter rs) as [[]|]; try done. by injection Hb as <-.
    + unfold fire_one in Hf. apply bind_Some in Hf as ([z q] & Hq & Hf). injection Hf as <-. apply rtc_once. by apply (TimerQueue.step_fire (history x) now z q).
    + unfold end_handling in He. apply bind_Some in He as (q & Hr & He). injection He as <-. apply Rearm_queue in Hr. unfold history. simpl. rewrite Hr.
      apply rtc_once. apply (TimerQueue.step_rearm (history x)).
  - unfold ScheduleAt in H. apply bind_Some in H as ([i q1] & Hq & H). apply bind_Some in H as (q2 & Hr & H). simplify_eq.
    apply Rearm_queue in Hr. unfold history. simpl. rewrite Hr. simpl.
    eapply rtc_l; [by eapply (TimerQueue.step_schedule (history x) d c id q1)|]. apply rtc_once. apply (TimerQueue.step_rearm (TimerQueue.Sys q1 _ _)).
  - unfold Cancel in H. destruct (TimerQueue.Cancel id (queue (timers x))) as [f q1] eqn:E. destruct f; simpl in H.
    + apply bind_Some in H as (q2 & Hr & H). simplify_eq. apply Rearm_queue in Hr. unfold history. simpl. rewrite Hr. simpl.
      eapply rtc_l; [by apply (TimerQueue.step_cancel (history x) id q1)|]. apply rtc_once. apply (TimerQueue.step_rearm (TimerQueue.Sys q1 _ _)).
    + simplify_eq. done.
Qed.

Lemma steps_history x y : rtc step x y -> rtc TimerQueue.step (history x) (history y).
Proof. induction 1 as [|x y z H _ IH]; [done|]. etrans; [by apply step_history|done]. Qed.

(** When the descriptor has expired the loop runs the first timer. *)
Lemma wakes_fires x e now :
  wakes x -> handling x = None -> expires (timers x) = Some e -> e <= now -> clock x <= now ->
  exists y x', head (TimerQueue.timers_ (queue (timers x))) = Some y /\ rtc loop_step x x' /\ fired x' = fired x ++ [(y, now)].
Proof.
  intros Hw Hh He Hn Hc. unfold wakes in Hw. destruct (TimerQueue.timers_ (queue (timers x))) as [|y l] eqn:El; [congruence|].
  destruct Hw as (e' & He' & Hd & _). assert (e' = e) as -> by congruence. exists y. eexists. split; [done|]. split.
  - eapply rtc_l; [by eapply (l_begin x e [ReadAgain] now)|]. eapply rtc_once. eapply (l_fire _ now); [done|].
    unfold fire_one, TimerQueue.pop_due. simpl. rewrite El. simpl. destruct (Z.leb_spec (TimerQueue.deadline y) now); [|lia]. simpl. done.
  - done.
Qed.

End Runs.
End Queue.

(** C39: Every scheduled timer has exactly one fate, and none is lost.  In every
    history of schedulings, cancellations and wake-ups, callbacks included: each
    identifier handed out is either pending, fired exactly once and not before
    its deadline, or cancelled, so a timer whose cancellation returned true never
    runs afterwards; outside [HandleReadable] the descriptor is armed while a
    timer is pending, and expires once the first deadline has passed, no later
    than that deadline (or the present) by more than the time between the reading
    of the clock and the system call and a nanosecond; and once it has expired the
    loop runs the timer with the earliest deadline. *)
Theorem timers_delivered {C : Type} (delta : Z) (q : t (C := C)) c x :
  make true true = Some q -> rtc (step delta) (Sys q [] ∅ c None) x ->
  NoDup (TimerQueue.fired_ids (history x)) /\ Forall (fun f => TimerQueue.deadline f.1 <= f.2) (fired x) /\
  (forall id, 0 < id < TimerQueue.next_identifier_ (queue (timers x)) -> TimerQueue.accounted (history x) id) /\
  (handling x = None ->
   wakes delta x /\
   forall e now, expires (timers x) = Some e -> e <= now -> clock x <= now ->
     exists y x', head (TimerQueue.timers_ (queue (timers x))) = Some y /\ rtc (loop_step delta) x x' /\ fired x' = fired x ++ [(y, now)]).
Proof.
  intros Hm Hs. injection Hm as <-. pose proof (steps_history _ _ _ Hs) as Hh.
  destruct (TimerQueue.timers_fire_once _ Hh) as (H1 & H2 & H3 & _). split; [done|]. split; [done|]. split; [done|].
  intros Hn. assert (Hw : wakes delta x).
  { eapply (rtc_preserves (step delta) (fun x => handling x = None -> wakes delta x)); [|exact Hs|by intros _|done].
    intros y z Hy Hyz. by eapply step_wakes. }
  split; [done|]. intros e now He Hle Hc. by eapply wakes_fires.
Qed.

(** Two timers, the earlier one scheduled second. *)
Definition example_arming (n : Z) : arming := mkArming true n (n + 1).
Definition empty_queue : t (C := nat) := mk TimerQueue.make None true.
Definition after_one : t (C := nat) := Eval vm_compute in from_option snd empty_queue (ScheduleAt (example_arming 0) 100 7%nat empty_queue).
Definition after_two : t (C := nat) := Eval vm_compute in from_option snd empty_queue (ScheduleAt (example_arming 2) 50 8%nat after_one).

Lemma timers_delivered_witness :
  rtc (step 1) (Sys empty_queue [] ∅ 0 None) (Sys after_two [] ∅ 3 None) /\
  expires after_two = Some 51 /\
  exists x', rtc (loop_step 1) (Sys after_two [] ∅ 3 None) x' /\ fired x' = [(TimerQueue.mkEntry 50 2 8%nat, 60)].
Proof.
  assert (Hs : rtc (step 1) (Sys empty_queue [] ∅ 0 None) (Sys after_two [] ∅ 3 None)).
  { eapply rtc_l; [apply (st_schedule 1 _ (example_arming 0) 100 7%nat 1 after_one); [reflexivity|split; [reflexivity|split; simpl; lia]|vm_compute; reflexivity]|].
    eapply rtc_l; [apply (st_schedule 1 _ (example_arming 2) 50 8%nat 2 after_two); [reflexivity|split; [reflexivity|split; simpl; lia]|vm_compute; reflexivity]|].
    apply rtc_refl. }
  split; [exact Hs|]. split; [reflexivity|].
  destruct (timers_delivered 1 empty_queue 0 (Sys after_two [] ∅ 3 None) eq_refl Hs) as (_ & _ & _ & H).
  destruct (H eq_refl) as [_ H']. destruct (H' 51 60 eq_refl ltac:(lia) ltac:(simpl; lia)) as (y & x' & Hy & Hx & E).
  injection Hy as <-. exists x'. split; [exact Hx|exact E].
Defined.

End TimerFd.
