(* ===== verification/Coordinator.v ===== *)
(** * The coordinator

    Models src/src/health/Coordinator.cpp over the state of CoordinatorState.v,
    the outcome channels of OutcomeChannel.v and the timer queue of
    TimerQueue.v: the tasks that run on the coordinator loop (results, health
    reports, outcome drains, half-open timers, refill ticks, import and export)
    and the calls workers make on it.  A posted task is the function that runs; the
    thread and the waits are in Lifecycle and Migration.
    Clock readings are arguments, in program order. *)

From S2P Require Import Prelude Bytes Types Admission CircuitBreaker CoordinatorState OutcomeChannel TimerQueue.

Module Coordinator.
Import CoordinatorState.

Inductive Lifecycle := kNew | kPrepared | kActive | kStopping | kStopped.

#[global] Instance Lifecycle_eq_dec : EqDecision Lifecycle.
Proof. solve_decision. Defined.

(** The callbacks the coordinator gives its timer queue. *)
Inductive timer := TArm (r e : nat) | TRefill.

(** [checkers] are the endpoints whose health checker was started. *)
Record LoopData := mkLoop {
  timers : TimerQueue.t timer;
  checkers : list (nat * nat);
  arm_timers : list (list Z)
}.

Abbreviation channel := (OutcomeChannel.State AttemptResult).

Record t := mk {
  config_ : Config;
  state_ : CoordinatorState.t;
  admissions_ : list GlobalAdmission.t;
  outcome_channels_ : list (option channel);
  snapshot_ : HealthCircuitSnapshot;
  loop_data_ : option LoopData;
  lifecycle_ : Lifecycle;
  prepared_only_ : bool;
  runtime_started_ : bool
}.

Definition with_state (c : t) (s : CoordinatorState.t) : t :=
  mk (config_ c) s (admissions_ c) (outcome_channels_ c) (snapshot_ c) (loop_data_ c) (lifecycle_ c)
     (prepared_only_ c) (runtime_started_ c).
Definition with_loop (c : t) (d : option LoopData) : t :=
  mk (config_ c) (state_ c) (admissions_ c) (outcome_channels_ c) (snapshot_ c) d (lifecycle_ c)
     (prepared_only_ c) (runtime_started_ c).
Definition with_channels (c : t) (l : list (option channel)) : t :=
  mk (config_ c) (state_ c) (admissions_ c) l (snapshot_ c) (loop_data_ c) (lifecycle_ c)
     (prepared_only_ c) (runtime_started_ c).
Definition with_lifecycle (c : t) (l : Lifecycle) (prepared started : bool) : t :=
  mk (config_ c) (state_ c) (admissions_ c) (outcome_channels_ c) (snapshot_ c) (loop_data_ c) l
     prepared started.

(** ** Construction and publication *)

Definition Publish (c : t) : t :=
  let '(snapshot, s) := BuildSnapshot (state_ c) in
  mk (config_ c) s (admissions_ c) (outcome_channels_ c) snapshot (loop_data_ c) (lifecycle_ c)
     (prepared_only_ c) (runtime_started_ c).

(** The loop over the breaker routes; [None] is the exception of
    [CapacityForRoute]. *)
Definition make_channel (r : Route) : option (option channel) :=
  match circuit_breaker r with
  | None => Some None
  | Some _ =>
      capacity ← OutcomeChannel.CapacityForRoute (max_inflight r) (retry_budget r);
      ch ← OutcomeChannel.make capacity; Some (Some ch)
  end.

Definition no_snapshot : HealthCircuitSnapshot := mkSnapshot 0 [].

Definition make (config : Config) (now : Z) : option t :=
  s ← CoordinatorState.make config now;
  channels ← mapM make_channel (routes config);
  Some (Publish (mk config s [] channels no_snapshot None kActive false false)).

Definition SetAdmissions (l : list GlobalAdmission.t) (c : t) : t :=
  mk (config_ c) (state_ c) l (outcome_channels_ c) (snapshot_ c) (loop_data_ c) (lifecycle_ c)
     (prepared_only_ c) (runtime_started_ c).

(** ** Half-open timers *)

Definition arm_id (r e : nat) (d : LoopData) : option Z := arm_timers d !! r ≫= fun l => l !! e.

Definition set_arm (r e : nat) (id : Z) (d : LoopData) : LoopData :=
  mkLoop (timers d) (checkers d) (alter (alter (fun _ => id) e) r (arm_timers d)).

Definition with_timers (d : LoopData) (q : TimerQueue.t timer) : LoopData :=
  mkLoop q (checkers d) (arm_timers d).

(** [now] is the reading in [ScheduleArm], [later] the one in [ScheduleAfter];
    [None] is an exception of the timer queue. *)
Definition ScheduleArm (r e : nat) (now later : Z) (c : t) : option t :=
  match loop_data_ c with
  | None => Some c
  | Some d =>
      match arm_id r e d with
      | None => Some c
      | Some id =>
          let d := if id =? 0 then d else with_timers d (TimerQueue.Cancel id (timers d)).2 in
          let d := set_arm r e 0 d in
          match OpenUntil r e (state_ c) with
          | None => Some (with_loop c (Some d))
          | Some until =>
              if until <=? now then Some (with_loop c (Some d))
              else
                '(id, q) ← TimerQueue.ScheduleAfter later (until - now) (TArm r e) (timers d);
                Some (with_loop c (Some (set_arm r e id (with_timers d q))))
          end
      end
  end.

(** The timer's callback, with its own reading and those of a nested
    [ScheduleArm]. *)
Definition arm_fired (r e : nat) (fired_at now later : Z) (c : t) : option t :=
  let c := with_loop c (set_arm r e 0 <$> loop_data_ c) in
  if IsOpen r e (state_ c) then
    if match OpenUntil r e (state_ c) with Some until => fired_at <? until | None => true end
    then ScheduleArm r e now later c
    else Some (Publish (with_state c (ArmHalfOpen r e fired_at (state_ c))))
  else Some (Publish c).

(** ** Tasks of the loop *)

(** The readings of one [RecordResultDirect]: the result's, [ScheduleArm]'s and
    [ScheduleAfter]'s. *)
Record clock := mkClock { at_result : Z; at_arm : Z; at_schedule : Z }.

Definition RecordResultDirect (result : AttemptResult) (k : clock) (c : t) : option t :=
  let c := with_state c (RecordResult result (at_result k) (state_ c)) in
  if IsOpen (route_index result) (endpoint_index result) (state_ c)
  then ScheduleArm (route_index result) (endpoint_index result) (at_arm k) (at_schedule k) c
  else Some c.

Definition RecordResultTask (result : AttemptResult) (k : clock) (c : t) : option t :=
  c ← RecordResultDirect result k c; Some (Publish c).

Definition RecordHealthTask (r e : nat) (ok : bool) (c : t) : t :=
  Publish (with_state c (RecordHealth r e ok (state_ c))).

(** The drain's callback on each result of the channel. *)
Fixpoint record_all (results : list (AttemptResult * clock)) (c : t) : option t :=
  match results with
  | [] => Some c
  | (result, k) :: results => c ← RecordResultDirect result k c; record_all results c
  end.

(** One channel's drain with its callback: the coordinator and how many results
    were drained.  [clocks] are the readings of the results in order; [None] is an
    exception, a default-constructed result or a missing reading. *)
Definition drain_channel (route : nat) (ch : channel) (clocks : list clock) (c : t) : option (t * nat) :=
  '(values, ch) ← OutcomeChannel.DrainOnCoordinatorLoop ch;
  results ← mapM id values;
  let c := with_channels c (<[ route := Some ch ]> (outcome_channels_ c)) in
  if negb (bool_decide (length clocks = length results)) then None
  else c ← record_all (zip results clocks) c; Some (c, length results).

Definition DrainOneOutcomeChannel (route : nat) (clocks : list clock) (c : t) : option t :=
  match outcome_channels_ c !! route with
  | Some (Some ch) =>
      '(c, drained) ← drain_channel route ch clocks c;
      Some (if bool_decide (0 < drained)%nat then Publish c else c)
  | _ => None
  end.

(** The loop of [DrainAllOutcomeChannels]; [clocks] are the readings of each
    route's results. *)
Fixpoint drain_from (route : nat) (clocks : list (list clock)) (any : bool) (c : t) : option (t * bool) :=
  match clocks with
  | [] => Some (c, any)
  | ks :: clocks =>
      match outcome_channels_ c !! route with
      | Some (Some ch) =>
          '(c, drained) ← drain_channel route ch ks c;
          drain_from (S route) clocks (any || bool_decide (0 < drained)%nat) c
      | _ => drain_from (S route) clocks any c
      end
  end.

Definition DrainAllOutcomeChannels (clocks : list (list clock)) (c : t) : option t :=
  if negb (bool_decide (length clocks = length (outcome_channels_ c))) then None
  else '(c, any) ← drain_from 0 clocks false c; Some (if (any : bool) then Publish c else c).

Definition refill_tick : Z := 250000000.

Definition ScheduleRefillTick (later : Z) (c : t) : option t :=
  match loop_data_ c with
  | None => None
  | Some d =>
      '(_, q) ← TimerQueue.ScheduleAfter later refill_tick TRefill (timers d);
      Some (with_loop c (Some (with_timers d q)))
  end.

Definition refill_fired (now later : Z) (c : t) : option t :=
  ScheduleRefillTick later (SetAdmissions (GlobalAdmission.Refill now <$> admissions_ c) c).

(** ** Lifecycle *)

(** The health checkers of a loop initialisation. *)
Definition start_checkers (config : Config) : list (nat * nat) :=
  concat (imap (fun r rt => match health_check rt with
                            | None => []
                            | Some _ => imap (fun e _ => (r, e)) (rt_endpoints rt)
                            end) (routes config)).

Definition OnLoopInit (later : Z) (c : t) : option t :=
  let arm := (fun r => (fun _ => 0) <$> rt_endpoints r) <$> routes (config_ c) in
  let started := if prepared_only_ c then [] else start_checkers (config_ c) in
  let c := with_loop c (Some (mkLoop TimerQueue.make started arm)) in
  if negb (prepared_only_ c) && negb (bool_decide (admissions_ c = []))
  then ScheduleRefillTick later c else Some c.

Definition StartPrepared (later : Z) (c : t) : option t :=
  if runtime_started_ c then None
  else if negb (bool_decide (lifecycle_ c = kActive)) then None
  else OnLoopInit later (with_lifecycle c kPrepared true true).

Definition OnActivateLoopInit (later : Z) (c : t) : option t :=
  match loop_data_ c with
  | None => None
  | Some d =>
      let c := with_loop c (Some (mkLoop (timers d) (checkers d ++ start_checkers (config_ c))
                                         (arm_timers d))) in
      if bool_decide (admissions_ c = []) then Some c else ScheduleRefillTick later c
  end.

Definition Activate (later : Z) (c : t) : bool * t :=
  if negb (bool_decide (lifecycle_ c = kPrepared)) then (false, c)
  else match OnActivateLoopInit later (with_lifecycle c kPrepared false (runtime_started_ c)) with
       | None => (false, with_lifecycle c kPrepared false (runtime_started_ c))
       | Some c => (true, with_lifecycle c kActive (prepared_only_ c) (runtime_started_ c))
       end.

(** The import task, when the wait does not time out before it runs. *)
Definition ImportProtectionSnapshotAndWait
    (snapshot : list ProtectionSnapshot.EndpointProtectionSnapshot) (now : Z) (c : t) : bool * t :=
  if negb (bool_decide (lifecycle_ c = kPrepared)) then (false, c)
  else (true, Publish (with_state c (ImportProtectionSnapshot snapshot now (state_ c)))).

Definition ExportProtectionSnapshotAndWait (now : Z) (c : t)
    : option (list ProtectionSnapshot.EndpointProtectionSnapshot) :=
  if bool_decide (lifecycle_ c = kPrepared) || bool_decide (lifecycle_ c = kActive)
  then Some (ExportProtectionSnapshot now (state_ c)) else None.

Definition Stop (c : t) : t :=
  with_loop (with_lifecycle c kStopped (prepared_only_ c) (runtime_started_ c)) None.

Definition StopCheckers (c : t) : t :=
  if negb (bool_decide (lifecycle_ c = kActive)) then c
  else with_loop c ((fun d => mkLoop (timers d) [] (arm_timers d)) <$> loop_data_ c).

(** ** Calls of the workers *)

Definition CurrentSnapshot (c : t) : HealthCircuitSnapshot := snapshot_ c.

Definition active (c : t) : bool := bool_decide (lifecycle_ c = kActive).

Definition ReserveOutcome (route : nat) (c : t) : bool * t :=
  if negb (active c) then (false, c)
  else match outcome_channels_ c !! route with
       | Some (Some ch) =>
           let '(ok, ch) := OutcomeChannel.TryReserve ch in
           (ok, with_channels c (<[ route := Some ch ]> (outcome_channels_ c)))
       | _ => (false, c)
       end.

(** [PostResult] and the two calls that wait for their task; [accepted]: the
    loop takes the task.  [false]: refused, in the waiting calls an exception. *)
Definition PostResult (accepted : bool) (result : AttemptResult) (k : clock) (c : t) : option (t * bool) :=
  if negb (active c) then Some (c, false)
  else if negb accepted then Some (c, false)
  else c ← RecordResultTask result k c; Some (c, true).

Definition SubmitResultAndWait (accepted : bool) (result : AttemptResult) (k : clock) (c : t) : option (t * bool) :=
  if negb accepted then Some (c, false) else c ← RecordResultTask result k c; Some (c, true).

Definition RecordHealthAndWait (accepted : bool) (r e : nat) (healthy : bool) (c : t) : t * bool :=
  if negb accepted then (c, false) else (RecordHealthTask r e healthy c, true).

Definition RouteCount (c : t) : nat := length (endpoints_ (state_ c)).
Definition EndpointCount (r : nat) (c : t) : nat := from_option length 0%nat (endpoints_ (state_ c) !! r).

Definition ProbeAvailable (r e : nat) (c : t) : bool :=
  active c && CoordinatorState.ProbeAvailable r e (state_ c).

Definition ClaimProbe (r e : nat) (snapshot : HealthCircuitSnapshot) (c : t)
    : option AttemptPermit * t :=
  if negb (active c) then (None, c)
  else let '(p, s) := CoordinatorState.ClaimProbe r e snapshot (state_ c) in (p, with_state c s).

Definition BeginOutcomeStopping (c : t) : t :=
  with_channels c (map (option_map OutcomeChannel.BeginStopping) (outcome_channels_ c)).

Definition OutcomeRejectedTotal (c : t) : Z :=
  foldl (fun n ch => match ch with
                     | Some ch => wrap_u64 (n + OutcomeChannel.rejected ch)
                     | None => n
                     end) 0 (outcome_channels_ c).

(** ** Every open breaker has a timer *)

Lemma open_of_lookup r e s s' :
  lookup r e s = lookup r e s' ->
  IsOpen r e s = IsOpen r e s' /\ OpenUntil r e s = OpenUntil r e s'.
Proof. unfold IsOpen, BreakerState, OpenUntil. by intros ->. Qed.

Lemma IsOpen_until r e s : IsOpen r e s = true -> exists u, OpenUntil r e s = Some u.
Proof.
  unfold IsOpen, BreakerState, OpenUntil. rewrite bool_decide_eq_true.
  destruct (lookup r e s ≫= breaker_); [eauto|done].
Qed.

Lemma arm_id_set r e id d r' e' :
  arm_id r' e' (set_arm r e id d) =
  if decide (r' = r /\ e' = e) then (fun _ => id) <$> arm_id r e d else arm_id r' e' d.
Proof.
  unfold arm_id, set_arm; simpl. destruct (decide (r' = r)) as [->|Hr].
  - rewrite list_lookup_alter_eq. destruct (arm_timers d !! r) as [l|]; simpl; [|by destruct (decide _)].
    destruct (decide (e' = e)) as [->|He].
    + rewrite list_lookup_alter_eq, decide_True by done. done.
    + rewrite list_lookup_alter_ne, decide_False by naive_solver. done.
  - rewrite list_lookup_alter_ne, decide_False by naive_solver. done.
Qed.

Abbreviation queued d := (TimerQueue.timers_ (timers d)).

(** The timer table and the queue agree. *)
Record table (d : LoopData) : Prop := {
  tb_wf : TimerQueue.wf (timers d);
  tb_entry : forall x r e, x ∈ queued d -> TimerQueue.callback x = TArm r e ->
                           arm_id r e d = Some (TimerQueue.identifier x);
  tb_id : forall r e id, arm_id r e d = Some id -> id <> 0 ->
          exists x, x ∈ queued d /\ TimerQueue.identifier x = id /\ TimerQueue.callback x = TArm r e
}.

(** A timer that fires no earlier than the end of the open window. *)
Definition armed (s : CoordinatorState.t) (d : LoopData) (r e : nat) : Prop :=
  IsOpen r e s = true ->
  exists x u, x ∈ queued d /\ TimerQueue.callback x = TArm r e /\
              OpenUntil r e s = Some u /\ u <= TimerQueue.deadline x.

Definition sized (s : CoordinatorState.t) (d : LoopData) : Prop :=
  forall r e, is_Some (lookup r e s) -> is_Some (arm_id r e d).

Definition inv (c : t) : Prop :=
  exists d, loop_data_ c = Some d /\ table d /\ sized (state_ c) d /\
            forall r e, armed (state_ c) d r e.

Lemma same_id d x y :
  TimerQueue.wf (timers d) -> x ∈ queued d -> y ∈ queued d ->
  TimerQueue.identifier x = TimerQueue.identifier y -> x = y.
Proof.
  intros Hw. generalize (TimerQueue.wf_sorted _ Hw). intros Hs Hx Hy Hi.
  assert (TimerQueue.deadline x = TimerQueue.deadline y) as Hd.
  { assert (TimerQueue.by_identifier_ (timers d) !! TimerQueue.identifier x = Some (TimerQueue.deadline x)) as E1.
    { apply (TimerQueue.wf_index _ Hw). eauto. }
    assert (TimerQueue.by_identifier_ (timers d) !! TimerQueue.identifier x = Some (TimerQueue.deadline y)) as E2.
    { apply (TimerQueue.wf_index _ Hw). eauto. }
    congruence. }
  assert (Hirr : forall a b, TimerQueue.deadline a = TimerQueue.deadline b ->
            TimerQueue.identifier a = TimerQueue.identifier b -> ~ TimerQueue.before (C := timer) a b).
  { intros a b H1 H2. unfold TimerQueue.before, TimerQueue.key_lt. rewrite H1, H2.
    rewrite Z.ltb_irrefl, Z.eqb_refl, Z.ltb_irrefl. done. }
  revert Hx Hy. induction Hs as [|z l _ IH Hz]; intros Hx Hy; [by apply elem_of_nil in Hx|].
  rewrite Forall_forall in Hz.
  apply elem_of_cons in Hx as [->|Hx], Hy as [->|Hy]; [done| | |by apply IH].
  - apply Hz in Hy. destruct (Hirr _ _ Hd Hi Hy).
  - apply Hz in Hx. destruct (Hirr _ _ (eq_sym Hd) (eq_sym Hi) Hx).
Qed.

(** Cancelling an endpoint's timer and clearing its slot. *)
Definition cleared (r e : nat) (id : Z) (d : LoopData) : LoopData :=
  set_arm r e 0 (if id =? 0 then d else with_timers d (TimerQueue.Cancel id (timers d)).2).

Lemma cleared_table r e id d :
  table d -> arm_id r e d = Some id ->
  table (cleared r e id d) /\
  (forall x, x ∈ queued (cleared r e id d) <-> x ∈ queued d /\ TimerQueue.callback x <> TArm r e) /\
  (forall r' e', is_Some (arm_id r' e' d) -> is_Some (arm_id r' e' (cleared r e id d))).
Proof.
  intros [H1 H2 H3] Hid.
  set (d1 := if id =? 0 then d else with_timers d (TimerQueue.Cancel id (timers d)).2).
  assert (Hw : TimerQueue.wf (timers d1) /\
    forall x, x ∈ queued d1 <-> x ∈ queued d /\ TimerQueue.callback x <> TArm r e).
  { unfold d1. destruct (Z.eqb_spec id 0) as [->|Hne].
    - split; [done|]. intros x. split; [|tauto]. intros Hx. split; [done|]. intros Hc.
      pose proof (H2 _ _ _ Hx Hc) as E. pose proof (TimerQueue.wf_fresh _ H1 _ Hx).
      rewrite Hid in E. injection E as E. lia.
    - simpl. destruct (TimerQueue.Cancel_wf id (timers d) H1) as [Hw Hin]. split; [done|].
      intros x. rewrite Hin. split; intros [Hx Hc]; (split; [done|]); intros Hc'; apply Hc.
      + pose proof (H2 _ _ _ Hx Hc') as E. congruence.
      + destruct (H3 _ _ _ Hid Hne) as (y & Hy & Hi & Hcy).
        by rewrite (same_id d x y H1 Hx Hy (eq_trans Hc' (eq_sym Hi))). }
  assert (Harm : forall r' e', arm_id r' e' d1 = arm_id r' e' d) by (unfold d1; by destruct (id =? 0)).
  destruct Hw as [Hw Hin]. split_and!.
  - split; [done| |].
    + intros x r' e' Hx Hc. apply Hin in Hx as [Hx Hne]. unfold cleared. fold d1.
      rewrite arm_id_set, decide_False by (intros [-> ->]; done). rewrite Harm. by apply H2.
    + intros r' e' id' Ha Hne. unfold cleared in Ha. fold d1 in Ha. rewrite arm_id_set in Ha.
      destruct (decide (r' = r /\ e' = e)) as [[-> ->]|Hd].
      { rewrite Harm, Hid in Ha. by simplify_eq/=. }
      rewrite Harm in Ha. destruct (H3 _ _ _ Ha Hne) as (x & Hx & Hi & Hc). exists x.
      split; [|done]. apply Hin. split; [done|]. rewrite Hc. naive_solver.
  - exact Hin.
  - intros r' e' Hs. unfold cleared. fold d1. rewrite arm_id_set, !Harm.
    destruct (decide _) as [[-> ->]|]; [by rewrite Hid|done].
Qed.

Definition fresh (d : LoopData) : Prop :=
  TimerQueue.next_identifier_ (timers d) + 1 < u64_modulus.

(** A new timer for an endpoint whose slot is clear. *)
Lemma rearm_table r e id d q later delay :
  table d -> arm_id r e d = Some 0 -> fresh d -> 0 <= delay ->
  TimerQueue.ScheduleAfter later delay (TArm r e) (timers d) = Some (id, q) ->
  let d' := set_arm r e id (with_timers d q) in
  table d' /\
  (forall x, x ∈ queued d' <-> x = TimerQueue.mkEntry (later + delay) id (TArm r e) \/ x ∈ queued d) /\
  (forall r' e', is_Some (arm_id r' e' d) -> is_Some (arm_id r' e' d')).
Proof.
  intros [H1 H2 H3] H0 Hf Hd Hs d'. unfold TimerQueue.ScheduleAfter in Hs.
  rewrite (proj2 (Z.ltb_ge _ _)) in Hs by lia.
  destruct (TimerQueue.ScheduleAt_wf _ _ _ _ _ H1 Hf Hs) as (Hw & Hid & _ & Hin).
  assert (Hnew : arm_id r e d' = Some id).
  { unfold d'. rewrite arm_id_set, decide_True by done.
    change (arm_id r e (with_timers d q)) with (arm_id r e d). by rewrite H0. }
  assert (Hold : forall r' e', ~ (r' = r /\ e' = e) -> arm_id r' e' d' = arm_id r' e' d).
  { intros r' e' Hne. unfold d'. by rewrite arm_id_set, decide_False. }
  assert (Hno : forall x, x ∈ queued d -> TimerQueue.callback x <> TArm r e).
  { intros x Hx Hc. pose proof (H2 _ _ _ Hx Hc) as E. pose proof (TimerQueue.wf_fresh _ H1 _ Hx).
    rewrite H0 in E. injection E as E. lia. }
  split; [|split; [exact Hin|]].
  - split; [exact Hw| |].
    + intros x r' e' [->|Hx]%Hin Hc; [simpl in Hc; by simplify_eq|].
      rewrite Hold; [by apply H2|]. intros [-> ->]. by apply (Hno x).
    + intros r' e' id' Ha Hne. destruct (decide (r' = r /\ e' = e)) as [[-> ->]|Hd'].
      * rewrite Hnew in Ha. simplify_eq. eexists. split; [by apply Hin; left|done].
      * rewrite Hold in Ha by done. destruct (H3 _ _ _ Ha Hne) as (x & Hx & Hi & Hc).
        exists x. split; [by apply Hin; right|done].
  - intros r' e' Hr. destruct (decide (r' = r /\ e' = e)) as [[-> ->]|Hd']; [by rewrite Hnew|].
    by rewrite Hold.
Qed.

Lemma ScheduleArm_inv r e now later c d c' u :
  loop_data_ c = Some d -> table d -> sized (state_ c) d -> fresh d ->
  is_Some (lookup r e (state_ c)) -> OpenUntil r e (state_ c) = Some u -> now < u -> now <= later ->
  (forall r' e', ~ (r' = r /\ e' = e) -> armed (state_ c) d r' e') ->
  ScheduleArm r e now later c = Some c' -> inv c'.
Proof.
  intros Hd Ht Hz Hf Hl Hu Hn Hlater Ho. unfold ScheduleArm. rewrite Hd.
  destruct (Hz _ _ Hl) as [id Hid]. rewrite Hid, Hu. rewrite (proj2 (Z.leb_gt _ _)) by lia.
  fold (cleared r e id d). destruct (cleared_table r e id d Ht Hid) as (Ht2 & Hin2 & Hz2).
  intros H. apply bind_Some in H as ([id' q] & Hs & H). simplify_eq.
  assert (arm_id r e (cleared r e id d) = Some 0) as H0.
  { unfold cleared. rewrite arm_id_set, decide_True by done.
    destruct (id =? 0); simpl; change (arm_id r e (with_timers d _)) with (arm_id r e d); by rewrite Hid. }
  assert (fresh (cleared r e id d)) as Hf2.
  { unfold fresh, cleared. destruct (id =? 0); simpl; [done|]. unfold TimerQueue.Cancel.
    by destruct (TimerQueue.by_identifier_ (timers d) !! id). }
  destruct (rearm_table r e id' _ q later (u - now) Ht2 H0 Hf2 ltac:(lia) Hs) as (Ht3 & Hin3 & Hz3).
  exists (set_arm r e id' (with_timers (cleared r e id d) q)). split; [done|]. split; [done|].
  split; [intros r' e' Hr; by apply Hz3, Hz2, Hz|]. simpl.
  intros r' e' Hopen. destruct (decide (r' = r /\ e' = e)) as [[-> ->]|Hne].
  - eexists _, u. split; [apply Hin3; by left|]. simpl. split_and!; [done|done|lia].
  - destruct (Ho r' e' Hne Hopen) as (x & u' & Hx & Hc & Hu' & Hle). exists x, u'.
    split; [|done]. apply Hin3. right. apply Hin2. split; [done|]. rewrite Hc. naive_solver.
Qed.

(** Operations that keep the open breakers and their windows. *)
Definition same_open (s s' : CoordinatorState.t) : Prop :=
  forall r e, IsOpen r e s' = IsOpen r e s /\ OpenUntil r e s' = OpenUntil r e s /\
              (is_Some (lookup r e s') -> is_Some (lookup r e s)).

Lemma inv_same_open c c' :
  inv c -> loop_data_ c' = loop_data_ c -> same_open (state_ c) (state_ c') -> inv c'.
Proof.
  intros (d & Hd & Ht & Hz & Ha) Hl Hs. exists d. split; [congruence|]. split; [done|]. split.
  - intros r e Hr. apply Hz. by apply Hs.
  - intros r e. unfold armed. destruct (Hs r e) as (-> & -> & _). apply Ha.
Qed.

Lemma same_open_endpoints s s' : endpoints_ s' = endpoints_ s -> same_open s s'.
Proof. intros He r e. unfold IsOpen, BreakerState, OpenUntil, lookup. by rewrite He. Qed.

Lemma Publish_state c : endpoints_ (state_ (Publish c)) = endpoints_ (state_ c).
Proof. done. Qed.

Lemma Publish_inv c : inv c -> inv (Publish c).
Proof. intros H. eapply inv_same_open; [exact H|done|]. by apply same_open_endpoints. Qed.

Lemma RecordHealth_same r e ok s : same_open s (RecordHealth r e ok s).
Proof.
  intros r' e'. unfold IsOpen, BreakerState, OpenUntil, RecordHealth. rewrite lookup_update.
  destruct (decide _) as [[-> ->]|]; [|done]. by destruct (lookup r e s) as [st|].
Qed.

Lemma ClaimProbe_endpoints r e snap s :
  endpoints_ (CoordinatorState.ClaimProbe r e snap s).2 = endpoints_ s.
Proof.
  unfold CoordinatorState.ClaimProbe. destruct (offered r e snap) as [o|]; [|done].
  destruct (slots_ s !! o ≫= take_slot) as [p|]; [|done]. by destruct (issue_slot p).
Qed.

(** The readings of a result: [ScheduleArm] reads the clock before the open
    window it arms has elapsed. *)
Definition timely (result : AttemptResult) (k : clock) (c : t) : Prop :=
  at_arm k <= at_schedule k /\
  forall u, IsOpen (route_index result) (endpoint_index result)
              (RecordResult result (at_result k) (state_ c)) = true ->
            OpenUntil (route_index result) (endpoint_index result)
              (RecordResult result (at_result k) (state_ c)) = Some u -> at_arm k < u.

Lemma RecordResult_lookup result now s r e :
  ~ (r = route_index result /\ e = endpoint_index result) ->
  lookup r e (RecordResult result now s) = lookup r e s.
Proof. intros H. unfold RecordResult. by rewrite lookup_update, decide_False. Qed.

Lemma RecordResult_some result now s r e :
  is_Some (lookup r e (RecordResult result now s)) -> is_Some (lookup r e s).
Proof.
  unfold RecordResult. rewrite lookup_update. destruct (decide _) as [[-> ->]|]; [|done].
  by rewrite fmap_is_Some.
Qed.

Lemma RecordResultDirect_inv result k c c' :
  inv c -> (forall d, loop_data_ c = Some d -> fresh d) -> timely result k c ->
  RecordResultDirect result k c = Some c' -> inv c'.
Proof.
  intros (d & Hd & Ht & Hz & Ha) Hf [Hk Htime]. unfold RecordResultDirect.
  set (c1 := with_state c (RecordResult result (at_result k) (state_ c))).
  assert (Hz1 : sized (state_ c1) d) by (intros r e Hr; exact (Hz _ _ (RecordResult_some _ _ _ _ _ Hr))).
  assert (Ho : forall r e, ~ (r = route_index result /\ e = endpoint_index result) ->
                           armed (state_ c1) d r e).
  { intros r e Hne. unfold armed.
    destruct (open_of_lookup r e (state_ c1) (state_ c) (RecordResult_lookup _ _ _ _ _ Hne)) as [-> ->].
    apply Ha. }
  destruct (IsOpen (route_index result) (endpoint_index result) (state_ c1)) eqn:Eo.
  - destruct (IsOpen_until _ _ _ Eo) as [u Hu]. intros Hs.
    eapply (ScheduleArm_inv _ _ _ _ c1 d); try done; [by apply Hf| |by apply Htime].
    unfold IsOpen, BreakerState in Eo. apply bool_decide_eq_true in Eo.
    destruct (lookup _ _ (state_ c1)); [done|simpl in Eo; done].
  - intros; simplify_eq. exists d. split; [done|]. split; [done|]. split; [done|]. intros r e.
    destruct (decide (r = route_index result /\ e = endpoint_index result)) as [[-> ->]|]; [|by apply Ho].
    unfold armed. by rewrite Eo.
Qed.

Lemma ArmHalfOpen_lookup r e now s u :
  IsOpen r e s = true -> OpenUntil r e s = Some u -> u <= now ->
  IsOpen r e (ArmHalfOpen r e now s) = false /\
  (forall r' e', ~ (r' = r /\ e' = e) -> lookup r' e' (ArmHalfOpen r e now s) = lookup r' e' s) /\
  (forall r' e', is_Some (lookup r' e' (ArmHalfOpen r e now s)) -> is_Some (lookup r' e' s)).
Proof.
  intros Ho Hu Hn. unfold IsOpen, BreakerState in Ho. apply bool_decide_eq_true in Ho.
  unfold OpenUntil in Hu. unfold ArmHalfOpen.
  destruct (lookup r e s) as [st|] eqn:El; [|done]. simpl in Ho, Hu.
  destruct (breaker_ st) as [b|] eqn:Eb; [|done]. simpl in Hu. simplify_eq.
  rewrite (bool_decide_eq_true_2 (_ = _)) by done. simpl.
  rewrite (proj2 (Z.ltb_ge _ _)) by done.
  destruct (CircuitBreaker.BeginFreshHalfOpenCycle b) as [cycle b'] eqn:Ec.
  assert (CircuitBreaker.state_ b' = CircuitBreaker.kHalfOpen) as Hb'.
  { unfold CircuitBreaker.BeginFreshHalfOpenCycle in Ec.
    destruct (CircuitBreaker.issue_probes _ _). by simplify_eq. }
  set (f := fun st0 => mkState (health st0) (Some b') (Some (length (slots_ s)))).
  assert (Hl : forall r' e', lookup r' e' (CoordinatorState.mk (CoordinatorState.config_ (update r e f s))
      (endpoints_ (update r e f s)) (version_ (update r e f s)) (slots_ s ++ [slots_of cycle]))
      = lookup r' e' (update r e f s)) by done.
  split_and!.
  - unfold IsOpen, BreakerState. rewrite Hl, lookup_update, decide_True, El by done. simpl.
    rewrite Hb'. done.
  - intros r' e' Hne. by rewrite Hl, lookup_update, decide_False.
  - intros r' e'. rewrite Hl, lookup_update. destruct (decide _) as [[-> ->]|]; [|done].
    by rewrite fmap_is_Some.
Qed.

(** The fired timer leaves the table. *)
Lemma fired_table now d x q r e :
  table d -> TimerQueue.pop_due now (timers d) = Some (x, q) -> TimerQueue.callback x = TArm r e ->
  let d' := set_arm r e 0 (with_timers d q) in
  table d' /\ TimerQueue.deadline x <= now /\
  (forall y, y ∈ queued d -> TimerQueue.callback y = TArm r e -> y = x) /\
  (forall y, y ∈ queued d -> TimerQueue.callback y <> TArm r e -> y ∈ queued d').
Proof.
  intros [H1 H2 H3] Hp Hc d'. destruct (TimerQueue.pop_due_wf _ _ _ _ H1 Hp) as (Hw & Hd & Hx & _ & Hin & Hno).
  assert (Hxid : arm_id r e d = Some (TimerQueue.identifier x)) by (by apply H2).
  assert (Hold : forall r' e', ~ (r' = r /\ e' = e) -> arm_id r' e' d' = arm_id r' e' d).
  { intros r' e' Hne. unfold d'. by rewrite arm_id_set, decide_False. }
  assert (Hone : forall y, y ∈ queued d -> TimerQueue.callback y = TArm r e -> y = x).
  { intros y Hy Hcy. apply (same_id d); [done..|]. pose proof (H2 _ _ _ Hy Hcy). congruence. }
  split_and!; [|done|done|].
  - split; [done| |].
    + intros y r' e' Hy Hcy. change (queued d') with (TimerQueue.timers_ q) in Hy.
      rewrite Hold; [apply H2; [apply Hin; by right|done]|]. intros [-> ->].
      apply Hno. apply list_elem_of_fmap. exists y. split; [|done].
      f_equal. symmetry. apply Hone; [apply Hin; by right|done].
    + intros r' e' id Ha Hne. destruct (decide (r' = r /\ e' = e)) as [[-> ->]|Hne'].
      { unfold d' in Ha. rewrite arm_id_set, decide_True in Ha by done.
        change (arm_id r e (with_timers d q)) with (arm_id r e d) in Ha. rewrite Hxid in Ha.
        by simplify_eq/=. }
      rewrite Hold in Ha by done. destruct (H3 _ _ _ Ha Hne) as (y & Hy & Hi & Hcy).
      exists y. split; [|done]. apply Hin in Hy as [->|Hy]; [|done].
      rewrite Hc in Hcy. naive_solver.
  - intros y Hy Hcy. apply Hin in Hy as [->|Hy]; [done|exact Hy].
Qed.

Lemma arm_fired_inv now fired_at n l c d x q r e c' :
  inv c -> loop_data_ c = Some d -> TimerQueue.pop_due now (timers d) = Some (x, q) ->
  TimerQueue.callback x = TArm r e -> now <= fired_at ->
  arm_fired r e fired_at n l (with_loop c (Some (with_timers d q))) = Some c' -> inv c'.
Proof.
  intros (d0 & Hd0 & Ht & Hz & Ha) Hd Hp Hc Hn. simplify_eq.
  destruct (fired_table now d0 x q r e Ht Hp Hc) as (Ht' & Hdl & Hone & Hkeep).
  set (d' := set_arm r e 0 (with_timers d0 q)) in *.
  assert (Hz' : forall r' e', is_Some (arm_id r' e' d0) -> is_Some (arm_id r' e' d')).
  { intros r' e' Hr. unfold d'. rewrite arm_id_set. destruct (decide _) as [[-> ->]|]; [|done].
    change (arm_id r e (with_timers d0 q)) with (arm_id r e d0). by rewrite fmap_is_Some. }
  assert (Ho : forall s, (forall r' e', ~ (r' = r /\ e' = e) -> lookup r' e' s = lookup r' e' (state_ c)) ->
               forall r' e', ~ (r' = r /\ e' = e) -> armed s d' r' e').
  { intros s Hs r' e' Hne. unfold armed.
    destruct (open_of_lookup r' e' s (state_ c) (Hs _ _ Hne)) as [-> ->]. intros Hop.
    destruct (Ha r' e' Hop) as (y & u & Hy & Hcy & Hu & Hle). exists y, u. split; [|done].
    apply Hkeep; [done|]. rewrite Hcy. naive_solver. }
  unfold arm_fired. cbn [loop_data_ with_loop fmap option_fmap option_map]. fold d'.
  change (state_ (with_loop (with_loop c (Some (with_timers d0 q))) (Some d'))) with (state_ c).
  destruct (IsOpen r e (state_ c)) eqn:Eo.
  - destruct (Ha r e Eo) as (y & u & Hy & Hcy & Hu & Hle). rewrite Hu. rewrite (Hone y Hy Hcy) in Hle.
    rewrite (proj2 (Z.ltb_ge _ _)) by lia. intros; simplify_eq. apply Publish_inv.
    destruct (ArmHalfOpen_lookup r e fired_at (state_ c) u Eo Hu ltac:(lia)) as (A1 & A2 & A3).
    exists d'. split; [done|]. split; [done|]. simpl. split; [intros r' e' Hr; by apply Hz', Hz, A3|].
    intros r' e'. destruct (decide (r' = r /\ e' = e)) as [[-> ->]|]; [unfold armed; by rewrite A1|].
    by apply Ho.
  - intros; simplify_eq. apply Publish_inv. exists d'. split; [done|]. split; [done|].
    split; [intros r' e' Hr; by apply Hz', Hz|]. simpl.
    intros r' e'. destruct (decide (r' = r /\ e' = e)) as [[-> ->]|]; [unfold armed; by rewrite Eo|].
    by apply Ho.
Qed.

(** A timer that is not a half-open timer leaves the queue or enters it. *)
Lemma table_refill d q :
  table d -> TimerQueue.wf q ->
  (forall x r e, TimerQueue.callback x = TArm r e -> x ∈ TimerQueue.timers_ q <-> x ∈ queued d) ->
  table (with_timers d q).
Proof.
  intros [H1 H2 H3] Hw Hq. split; [done| |].
  - intros x r e Hx Hc. apply (H2 x); [by eapply Hq|done].
  - intros r e id Ha Hne. destruct (H3 r e id Ha Hne) as (x & Hx & Hi & Hc). exists x. split; [by eapply Hq|done].
Qed.

Lemma refill_fired_inv now at_refill later c d x q c' :
  inv c -> loop_data_ c = Some d -> fresh d -> TimerQueue.pop_due now (timers d) = Some (x, q) ->
  TimerQueue.callback x = TRefill ->
  refill_fired at_refill later (with_loop c (Some (with_timers d q))) = Some c' -> inv c'.
Proof.
  intros (d0 & Hd0 & Ht & Hz & Ha) Hd Hf Hp Hc. rewrite Hd0 in Hd. injection Hd as ->.
  unfold refill_fired, ScheduleRefillTick. cbn [loop_data_ SetAdmissions with_loop]. intros H.
  apply bind_Some in H as ([id q'] & Hs & H). injection H as <-.
  destruct (TimerQueue.pop_due_wf _ _ _ _ (tb_wf _ Ht) Hp) as (Hw & _ & _ & _ & Hin & _).
  assert (Hf' : TimerQueue.next_identifier_ q + 1 < u64_modulus) by (by rewrite (TimerQueue.pop_due_next _ _ _ _ Hp)).
  unfold TimerQueue.ScheduleAfter in Hs. cbn [Z.ltb refill_tick] in Hs. simpl in Hs.
  destruct (TimerQueue.ScheduleAt_wf _ _ _ _ _ Hw Hf' Hs) as (Hw' & _ & _ & Hin').
  assert (Hq : forall y r e, TimerQueue.callback y = TArm r e -> y ∈ TimerQueue.timers_ q' <-> y ∈ queued d).
  { intros y r e Hy. rewrite Hin', Hin. split; [|naive_solver congruence].
    intros [->|?]; [done|by right]. }
  exists (with_timers d q'). split; [done|]. split; [by apply table_refill|]. split; [exact Hz|].
  intros r e Hop. destruct (Ha r e Hop) as (y & u & Hy & Hcy & Hu). exists y, u. split; [by eapply Hq|done].
Qed.

(** ** Runs of the loop

    [st_direct] is one result of a task or of a drain, [st_publish] the
    publication that ends it, [st_drain] the emptying of a route's channel;
    [st_arm] and [st_refill] run the first timer of the queue when it is due. *)
Inductive step : t -> t -> Prop :=
| st_direct c result k c' :
    (forall d, loop_data_ c = Some d -> fresh d) -> timely result k c ->
    RecordResultDirect result k c = Some c' -> step c c'
| st_publish c : step c (Publish c)
| st_drain c route ch values ch' :
    outcome_channels_ c !! route = Some (Some ch) -> OutcomeChannel.DrainOnCoordinatorLoop ch = Some (values, ch') ->
    step c (with_channels c (<[ route := Some ch' ]> (outcome_channels_ c)))
| st_health c r e ok : step c (RecordHealthTask r e ok c)
| st_arm c d x q r e now fired_at n l c' :
    loop_data_ c = Some d -> TimerQueue.pop_due now (timers d) = Some (x, q) ->
    TimerQueue.callback x = TArm r e -> now <= fired_at ->
    arm_fired r e fired_at n l (with_loop c (Some (with_timers d q))) = Some c' -> step c c'
| st_refill c d x q now at_refill later c' :
    loop_data_ c = Some d -> fresh d -> TimerQueue.pop_due now (timers d) = Some (x, q) ->
    TimerQueue.callback x = TRefill ->
    refill_fired at_refill later (with_loop c (Some (with_timers d q))) = Some c' -> step c c'
| st_claim c r e snapshot p c' : ClaimProbe r e snapshot c = (p, c') -> step c c'
| st_reserve c route ok c' : ReserveOutcome route c = (ok, c') -> step c c'
| st_stop_checkers c : step c (StopCheckers c)
| st_stop_outcomes c : step c (BeginOutcomeStopping c).

Lemma coordinator_step_inv c c' : inv c -> step c c' -> inv c'.
Proof.
  intros Hc Hs. destruct Hs as [c result k c' Hf Ht Hr|c|c route ch vs ch' _ _|c r e ok|c d x q r e now fired n l c' Hd Hp Hx Hn Ha
                               |c d x q now ar l c' Hd Hf Hp Hx Ha|c r e snap p c' Hq|c route ok c' Hq|c|c].
  - by eapply RecordResultDirect_inv.
  - by apply Publish_inv.
  - by eapply inv_same_open; [exact Hc|done|apply same_open_endpoints].
  - apply Publish_inv. eapply inv_same_open; [exact Hc|done|]. apply RecordHealth_same.
  - by eapply arm_fired_inv.
  - by eapply refill_fired_inv.
  - unfold ClaimProbe in Hq. destruct (negb _); simplify_eq; [done|].
    pose proof (ClaimProbe_endpoints r e snap (state_ c)) as He.
    destruct (CoordinatorState.ClaimProbe r e snap (state_ c)) as [p0 s0]. simplify_eq.
    eapply inv_same_open; [exact Hc|done|]. by apply same_open_endpoints.
  - eapply inv_same_open; [exact Hc| |]; unfold ReserveOutcome in Hq; repeat case_match; simplify_eq; try done;
      by apply same_open_endpoints.
  - unfold StopCheckers. destruct (negb _); [done|]. destruct Hc as (d & Hd & [H1 H2 H3] & Hz & Ha).
    exists (mkLoop (timers d) [] (arm_timers d)). rewrite Hd. done.
  - by eapply inv_same_open; [exact Hc|done|apply same_open_endpoints].
Qed.

(** A half-open timer that runs no earlier than the end of the open window takes
    the breaker out of its open state. *)
Lemma arm_fired_opens now fired_at n l c d x q r e u :
  table d -> loop_data_ c = Some d -> TimerQueue.pop_due now (timers d) = Some (x, q) -> now <= fired_at ->
  IsOpen r e (state_ c) = true -> OpenUntil r e (state_ c) = Some u -> u <= TimerQueue.deadline x ->
  exists c', arm_fired r e fired_at n l (with_loop c (Some (with_timers d q))) = Some c' /\ IsOpen r e (state_ c') = false.
Proof.
  intros Ht Hd Hp Hn Ho Hu Hle. destruct (TimerQueue.pop_due_wf _ _ _ _ (tb_wf _ Ht) Hp) as (_ & Hdl & _).
  unfold arm_fired. cbn [state_ with_loop]. rewrite Ho, Hu, (proj2 (Z.ltb_ge _ _)) by lia.
  eexists. split; [done|]. apply (ArmHalfOpen_lookup r e fired_at (state_ c) u Ho Hu ltac:(lia)).
Qed.

(** ** Start *)

Lemma make_route_closed now rt l :
  make_route now rt = Some l ->
  length l = length (rt_endpoints rt) /\
  Forall (fun st => forall b, breaker_ st = Some b -> CircuitBreaker.state_ b = CircuitBreaker.kClosed) l.
Proof.
  unfold make_route. destruct (circuit_breaker rt) as [cfg|].
  - intros H. apply mapM_Some in H. split; [symmetry; by eapply Forall2_length|].
    apply Forall_forall. intros st Hst. apply list_elem_of_lookup in Hst as [i Hi].
    eapply Forall2_lookup_r in Hi as (x & _ & Hx); [|exact H].
    apply bind_Some in Hx as (b & Hb & Hx). simplify_eq/=. intros b' ?; simplify_eq.
    unfold CircuitBreaker.make in Hb. case_match; by simplify_eq.
  - intros; simplify_eq. rewrite length_fmap. split; [done|]. apply Forall_fmap, Forall_forall. done.
Qed.

Lemma make_closed config now s :
  CoordinatorState.make config now = Some s ->
  CoordinatorState.config_ s = config /\
  Forall2 (fun rt l => length l = length (rt_endpoints rt)) (routes config) (endpoints_ s) /\
  forall r e, IsOpen r e s = false.
Proof.
  unfold CoordinatorState.make. intros H. apply bind_Some in H as (es & He & H). simplify_eq/=.
  apply mapM_Some in He. split; [done|]. split.
  { eapply Forall2_impl; [exact He|]. intros rt l Hl. by apply make_route_closed in Hl as [? _]. }
  intros r e. unfold IsOpen, BreakerState, lookup; simpl. apply bool_decide_eq_false.
  destruct (es !! r) as [l|] eqn:El; [|done]. simpl. destruct (l !! e) as [st|] eqn:Est; [|done]. simpl.
  destruct (breaker_ st) as [b|] eqn:Eb; [|done].
  eapply Forall2_lookup_r in El as (rt & _ & Hrt); [|exact He].
  apply make_route_closed in Hrt as [_ Hc]. rewrite Forall_forall in Hc.
  rewrite (Hc st (list_elem_of_lookup_2 _ _ _ Est) b Eb). done.
Qed.

Definition starts (config : Config) (admissions : list GlobalAdmission.t) (now l1 l2 : Z) (c : t) : Prop :=
  exists c0 c1, make config now = Some c0 /\ StartPrepared l1 (SetAdmissions admissions c0) = Some c1 /\
                Activate l2 c1 = (true, c).

(** A loop whose slots are all clear. *)
Lemma clear_table q (ch : list (nat * nat)) config :
  TimerQueue.wf q -> (forall x r e, x ∈ TimerQueue.timers_ q -> TimerQueue.callback x <> TArm r e) ->
  table (mkLoop q ch ((fun rt => (fun _ => 0) <$> rt_endpoints rt) <$> routes config)).
Proof.
  intros Hw Hn. split; [done| |].
  - intros x r e Hx Hc. by apply Hn in Hc.
  - intros r e id Ha Hne. exfalso. unfold arm_id in Ha. simpl in Ha.
    apply bind_Some in Ha as (l & Hl & Ha). rewrite list_lookup_fmap in Hl.
    apply fmap_Some in Hl as (rt & _ & ->). rewrite list_lookup_fmap in Ha.
    by apply fmap_Some in Ha as (_ & _ & ->).
Qed.

Lemma refill_queue later (q : TimerQueue.t timer) :
  TimerQueue.ScheduleAfter later refill_tick TRefill TimerQueue.make = Some (1, q) ->
  TimerQueue.wf q /\ forall x r e, x ∈ TimerQueue.timers_ q -> TimerQueue.callback x <> TArm r e.
Proof.
  unfold TimerQueue.ScheduleAfter. simpl. intros H.
  apply TimerQueue.ScheduleAt_wf in H as (Hw & _ & _ & Hin); [|apply TimerQueue.timers_make_wf|simpl; mlia].
  split; [done|]. intros x r e [->|Hx]%Hin; [done|]. by apply elem_of_nil in Hx.
Qed.

Lemma starts_inv config admissions now l1 l2 c : starts config admissions now l1 l2 c -> inv c.
Proof.
  intros (c0 & c1 & Hm & Hp & Ha). unfold make in Hm. apply bind_Some in Hm as (s & Hs & Hm).
  apply bind_Some in Hm as (ch & _ & Hm). simplify_eq.
  apply make_closed in Hs as (Hcfg & Hshape & Hclosed).
  set (arm := (fun r => (fun _ => 0) <$> rt_endpoints r) <$> routes config).
  assert (Hc1 : state_ c1 = (BuildSnapshot s).2 /\ config_ c1 = config /\
                loop_data_ c1 = Some (mkLoop TimerQueue.make [] arm)).
  { change (StartPrepared l1 _) with
      (Some (with_loop (with_lifecycle (SetAdmissions admissions
         (Publish (mk config s [] ch no_snapshot None kActive false false))) kPrepared true true)
         (Some (mkLoop TimerQueue.make [] arm)))) in Hp.
    by injection Hp as <-. }
  destruct Hc1 as (Hst & Hcf & Hl).
  assert (Hgen : forall q checkers, TimerQueue.wf q ->
    (forall x r e, x ∈ TimerQueue.timers_ q -> TimerQueue.callback x <> TArm r e) ->
    state_ c = (BuildSnapshot s).2 -> loop_data_ c = Some (mkLoop q checkers arm) -> inv c).
  { intros q checkers Hw Hn Hsc Hlc. exists (mkLoop q checkers arm). split; [done|].
    split; [by apply clear_table|]. rewrite Hsc. split.
    - intros r e [st Hst']. unfold lookup in Hst'. simpl in Hst'. apply bind_Some in Hst' as (l & Hl' & He).
      eapply Forall2_lookup_r in Hl' as (rt & Hrt & Hlen); [|exact Hshape].
      unfold arm_id; simpl. unfold arm. rewrite list_lookup_fmap, Hrt. simpl. rewrite list_lookup_fmap, fmap_is_Some.
      apply lookup_lt_is_Some. apply lookup_lt_Some in He. simpl in Hlen. rewrite <- Hlen. exact He.
    - intros r e Ho. specialize (Hclosed r e).
      assert (IsOpen r e (BuildSnapshot s).2 = IsOpen r e s) by done. congruence. }
  unfold Activate in Ha. destruct (negb _); [done|]. unfold OnActivateLoopInit in Ha. simpl in Ha.
  rewrite Hl in Ha. simpl in Ha. case_bool_decide as Hadm.
  - simplify_eq. eapply (Hgen TimerQueue.make); [apply TimerQueue.timers_make_wf| |done|done].
    intros x r e Hx. by apply elem_of_nil in Hx.
  - unfold ScheduleRefillTick in Ha. simpl in Ha. simplify_eq.
    edestruct (refill_queue l2) as [Hw Hn]; [reflexivity|]. by eapply (Hgen _ _ Hw Hn).
Qed.

(** C13: No open breaker is forgotten.  After construction and activation (with
    the admissions set and no protection state imported), in every run of
    results, outcome drains, health reports, half-open timers, refill ticks and
    worker calls, each endpoint whose breaker is open has a pending half-open
    timer that is due no earlier than the end of its open window; and when the
    queue runs that timer, the breaker leaves the open state.  The condition on
    the clock readings ([timely]) is that a result is recorded and its timer
    armed before the open window elapses; timer identifiers do not wrap. *)
Theorem open_breaker_armed config admissions now l1 l2 c0 c r e :
  starts config admissions now l1 l2 c0 -> rtc step c0 c -> IsOpen r e (state_ c) = true ->
  exists d x u, loop_data_ c = Some d /\ x ∈ queued d /\ TimerQueue.callback x = TArm r e /\
                OpenUntil r e (state_ c) = Some u /\ u <= TimerQueue.deadline x /\
                forall due q fired_at n l,
                  TimerQueue.pop_due due (timers d) = Some (x, q) -> due <= fired_at ->
                  exists c', arm_fired r e fired_at n l (with_loop c (Some (with_timers d q))) = Some c' /\
                             IsOpen r e (state_ c') = false.
Proof.
  intros Hs Hr Ho. assert (inv c) as (d & Hd & Ht & _ & Ha).
  { eapply rtc_preserves; [exact coordinator_step_inv|exact Hr|]. by eapply starts_inv. }
  destruct (Ha r e Ho) as (x & u & Hx & Hc & Hu & Hle). exists d, x, u. split_and!; try done.
  intros due q fired_at n l Hp Hdue. by eapply arm_fired_opens.
Qed.

(** ** Examples *)

Definition example_config : Config :=
  mkConfig [mkRoute (lit "api") (lit "a") (lit "/") [mkEndpoint (lit "10.0.0.1") (10, 0, 0, 1) 80 1]
              100 100 10 5000 5000 30000 1 (Some (mkBreakerSettings 10 1 500 1 1)) None
              kWeightedRoundRobin] 1.

Definition second : Z := 1000000000.

Definition nothing : t :=
  mk (mkConfig [] 1) (CoordinatorState.mk (mkConfig [] 1) [] 0 []) [] [] no_snapshot None kNew false false.

Definition example_prepared : t :=
  default nothing (c ← make example_config second; StartPrepared second (SetAdmissions [] c)).

Definition example_active : t := (Activate second example_prepared).2.

(** A failure of an attempt admitted under the given breaker generation. *)
Definition failure (g : Z) : AttemptResult := mkResult 0 0 (mkPermit false g 0) false.

Definition at_time (z : Z) : clock := mkClock z (z + 10) (z + 20).

(** The only request of the window fails: the breaker opens for one second. *)
Definition example_open : t :=
  default nothing (RecordResultTask (failure 1) (at_time (2 * second)) example_active).

(** The same with the route's admission, which is refilled every 250 ms: the
    ticks before and after the result run first. *)
Definition example_admissions : list GlobalAdmission.t :=
  omap (fun route => GlobalAdmission.make route second) (routes example_config).
Definition ticking_prepared : t :=
  default nothing (c ← make example_config second; StartPrepared second (SetAdmissions example_admissions c)).
Definition ticking_active : t := (Activate second ticking_prepared).2.

(** The first timer of the queue, which must be a refill tick, is run. *)
Definition tick (now : Z) (c : t) : option t :=
  d ← loop_data_ c; '(x, q) ← TimerQueue.pop_due now (timers d);
  match TimerQueue.callback x with
  | TRefill => refill_fired now now (with_loop c (Some (with_timers d q)))
  | TArm _ _ => None
  end.

Definition ticked (now : Z) (c : t) : t := default nothing (tick now c).

Definition ticking_open : t :=
  ticked (2 * second + 100000000)
    (default nothing (RecordResultDirect (failure 1) (at_time (2 * second)) (ticked (second + 250000000) ticking_active))).

Lemma tick_step now c c' : (forall d, loop_data_ c = Some d -> fresh d) -> tick now c = Some c' -> step c c'.
Proof.
  intros Hf H. unfold tick in H. apply bind_Some in H as (d & Hd & H). apply bind_Some in H as ([x q] & Hp & H).
  destruct (TimerQueue.callback x) eqn:Hc; [done|]. eapply st_refill; eauto.
Qed.

Lemma ticking_run : rtc step ticking_active ticking_open.
Proof.
  eapply rtc_l; [|eapply rtc_l; [|apply rtc_once]].
  - apply (tick_step (second + 250000000)); [|vm_compute; reflexivity].
    intros d Hd. vm_compute in Hd. injection Hd as <-. vm_compute. reflexivity.
  - apply (st_direct _ (failure 1) (at_time (2 * second))); [| |vm_compute; reflexivity].
    + intros d Hd. vm_compute in Hd. injection Hd as <-. vm_compute. reflexivity.
    + split; [vm_compute; discriminate|]. intros u _ Hu. vm_compute in Hu. injection Hu as <-. vm_compute. reflexivity.
  - apply (tick_step (2 * second + 100000000)); [|vm_compute; reflexivity].
    intros d Hd. vm_compute in Hd. injection Hd as <-. vm_compute. reflexivity.
Qed.

Lemma open_breaker_armed_witness :
  IsOpen 0 0 (state_ ticking_open) = true /\
  (TimerQueue.PendingCount ∘ timers <$> loop_data_ ticking_open) = Some 2%nat /\
  exists d x u, loop_data_ ticking_open = Some d /\ x ∈ queued d /\ TimerQueue.callback x = TArm 0 0 /\
    OpenUntil 0 0 (state_ ticking_open) = Some u /\ u <= TimerQueue.deadline x.
Proof.
  assert (Ho : IsOpen 0 0 (state_ ticking_open) = true) by (vm_compute; reflexivity).
  split; [exact Ho|]. split.
  - vm_compute. reflexivity.
  - destruct (open_breaker_armed example_config example_admissions second second second ticking_active ticking_open 0 0)
      as (d & x & u & H1 & H2 & H3 & H4 & H5 & _).
    + exists (default nothing (make example_config second)), ticking_prepared.
      split; [vm_compute; reflexivity|]. split; vm_compute; reflexivity.
    + exact ticking_run.
    + exact Ho.
    + exists d, x, u. split_and!; assumption.
Defined.

(** ** An open breaker without a timer *)

Definition stuck (r e : nat) (c : t) : Prop :=
  IsOpen r e (state_ c) = true /\
  forall d x, loop_data_ c = Some d -> x ∈ queued d -> TimerQueue.callback x <> TArm r e.

(** Everything that happens on the loop apart from a result of the endpoint
    itself; open endpoints are not offered to requests, so none arrives. *)
Inductive quiet (r e : nat) : t -> t -> Prop :=
| q_direct c result k c' :
    ~ (r = route_index result /\ e = endpoint_index result) ->
    RecordResultDirect result k c = Some c' -> quiet r e c c'
| q_publish c : quiet r e c (Publish c)
| q_health c r' e' ok : quiet r e c (RecordHealthTask r' e' ok c)
| q_arm c d x q r' e' now fired_at n l c' :
    loop_data_ c = Some d -> TimerQueue.pop_due now (timers d) = Some (x, q) ->
    TimerQueue.callback x = TArm r' e' ->
    arm_fired r' e' fired_at n l (with_loop c (Some (with_timers d q))) = Some c' -> quiet r e c c'
| q_refill c d x q now l c' :
    loop_data_ c = Some d -> TimerQueue.pop_due now (timers d) = Some (x, q) ->
    TimerQueue.callback x = TRefill ->
    refill_fired now l (with_loop c (Some (with_timers d q))) = Some c' -> quiet r e c c'
| q_activate c l ok c' : Activate l c = (ok, c') -> quiet r e c c'
| q_claim c r' e' snapshot p c' : ClaimProbe r' e' snapshot c = (p, c') -> quiet r e c c'
| q_reserve c route ok c' : ReserveOutcome route c = (ok, c') -> quiet r e c c'.

(** The queue of [c'] has no arm timer of the endpoint that [c]'s had not. *)
Definition no_new_arm (r e : nat) (c c' : t) : Prop :=
  forall d' x, loop_data_ c' = Some d' -> x ∈ queued d' -> TimerQueue.callback x = TArm r e ->
  exists d, loop_data_ c = Some d /\ x ∈ queued d.

Lemma stuck_keep r e c c' :
  stuck r e c -> IsOpen r e (state_ c') = IsOpen r e (state_ c) -> no_new_arm r e c c' -> stuck r e c'.
Proof.
  intros [Ho Hn] He Ha. split; [congruence|]. intros d x Hd Hx Hc.
  destruct (Ha d x Hd Hx Hc) as (d0 & Hd0 & Hx0). by eapply Hn.
Qed.

Lemma Cancel_elem id (q : TimerQueue.t timer) x :
  x ∈ TimerQueue.timers_ (TimerQueue.Cancel id q).2 -> x ∈ TimerQueue.timers_ q.
Proof.
  unfold TimerQueue.Cancel. destruct (_ !! id); simpl; [|done]. by intros [_ ?]%TimerQueue.erase_elem.
Qed.

Lemma ScheduleAfter_elem now delay k (q : TimerQueue.t timer) id q' x :
  TimerQueue.ScheduleAfter now delay k q = Some (id, q') ->
  x ∈ TimerQueue.timers_ q' -> x ∈ TimerQueue.timers_ q \/ TimerQueue.callback x = k.
Proof.
  unfold TimerQueue.ScheduleAfter, TimerQueue.ScheduleAt. intros H Hx.
  destruct (_ <? 0); [done|]. destruct (_ =? 0); [done|]. simplify_eq/=.
  apply TimerQueue.insert_entry_elem in Hx as [->|Hx]; auto.
Qed.

Lemma ScheduleArm_quiet r e r' e' now later c c' :
  ~ (r = r' /\ e = e') -> ScheduleArm r' e' now later c = Some c' ->
  state_ c' = state_ c /\ no_new_arm r e c c'.
Proof.
  intros Hne. unfold ScheduleArm. destruct (loop_data_ c) as [d|] eqn:Hd.
  2: { intros; simplify_eq. split; [done|]. intros d' x Hd' Hx Hc. eauto. }
  destruct (arm_id r' e' d) as [id|].
  2: { intros; simplify_eq. split; [done|]. intros d' x Hd' Hx Hc. eauto. }
  set (d1 := if id =? 0 then d else with_timers d (TimerQueue.Cancel id (timers d)).2).
  assert (Hin : forall x, x ∈ queued d1 -> x ∈ queued d).
  { intros x. unfold d1. destruct (id =? 0); [done|]. apply Cancel_elem. }
  assert (Hbase : no_new_arm r e c (with_loop c (Some (set_arm r' e' 0 d1)))).
  { intros d' x Hd' Hx Hc. simpl in Hd'. simplify_eq. eauto. }
  destruct (OpenUntil r' e' (state_ c)) as [u|]; [|intros; by simplify_eq].
  destruct (u <=? now); [intros; by simplify_eq|].
  intros H. apply bind_Some in H as ([id' q] & Hs & H). simplify_eq. split; [done|].
  intros d' x Hd' Hx Hc. simpl in Hd'. simplify_eq. simpl in Hx.
  destruct (ScheduleAfter_elem _ _ _ _ _ _ _ Hs Hx) as [Hx'|Hk]; [eauto|].
  rewrite Hk in Hc. naive_solver.
Qed.

Lemma ArmHalfOpen_other r e r' e' now s :
  ~ (r = r' /\ e = e') -> IsOpen r e (ArmHalfOpen r' e' now s) = IsOpen r e s.
Proof.
  intros Hne. unfold ArmHalfOpen. destruct (lookup r' e' s) as [st|]; [|done].
  destruct (breaker_ st) as [b|]; [|done]. destruct (negb _); [done|]. destruct (_ <? _); [done|].
  destruct (CircuitBreaker.BeginFreshHalfOpenCycle b) as [cycle b']. unfold IsOpen, BreakerState.
  match goal with |- context [CoordinatorState.mk _ (endpoints_ (update r' e' ?f s)) _ _] =>
    change (lookup r e (CoordinatorState.mk _ _ _ _)) with (lookup r e (update r' e' f s)) end.
  by rewrite lookup_update, decide_False.
Qed.

Lemma no_new_refl r e c c' : loop_data_ c' = loop_data_ c -> no_new_arm r e c c'.
Proof. intros Hl d x Hd Hx _. exists d. by rewrite <- Hl. Qed.

Lemma refill_quiet r e l c c' : ScheduleRefillTick l c = Some c' ->
  state_ c' = state_ c /\ no_new_arm r e c c'.
Proof.
  unfold ScheduleRefillTick. destruct (loop_data_ c) as [d|] eqn:Hd; [|done]. intros H.
  apply bind_Some in H as ([id q] & Hs & H). simplify_eq. split; [done|].
  intros d' x Hd' Hx Hc. simpl in Hd'. simplify_eq. simpl in Hx.
  destruct (ScheduleAfter_elem _ _ _ _ _ _ _ Hs Hx) as [Hx'|Hk]; [eauto|congruence].
Qed.

Lemma no_new_trans r e c1 c2 c3 : no_new_arm r e c1 c2 -> no_new_arm r e c2 c3 -> no_new_arm r e c1 c3.
Proof. intros H1 H2 d x Hd Hx Hc. destruct (H2 _ _ Hd Hx Hc) as (d2 & Hd2 & Hx2). by eapply H1. Qed.

(** Taking a timer out of the queue adds none. *)
Lemma pop_no_new r e now c d x q :
  loop_data_ c = Some d -> TimerQueue.pop_due now (timers d) = Some (x, q) ->
  no_new_arm r e c (with_loop c (Some (with_timers d q))) /\ x ∈ queued d.
Proof.
  intros Hd Hp. unfold TimerQueue.pop_due in Hp. destruct (queued d) as [|y l] eqn:Eq; [done|].
  destruct (_ <=? _); simplify_eq. split; [|set_solver].
  intros d' z Hd' Hz _. simpl in Hd'. simplify_eq. exists d. split; [done|]. rewrite Eq. simpl in Hz. set_solver.
Qed.

Lemma arm_fired_quiet r e r' e' fired_at n l c c' :
  ~ (r = r' /\ e = e') -> arm_fired r' e' fired_at n l c = Some c' ->
  IsOpen r e (state_ c') = IsOpen r e (state_ c) /\ no_new_arm r e c c'.
Proof.
  intros Hne. unfold arm_fired. set (c1 := with_loop c (set_arm r' e' 0 <$> loop_data_ c)).
  assert (H1 : no_new_arm r e c c1).
  { intros d x Hd Hx _. unfold c1 in Hd. simpl in Hd. apply fmap_Some in Hd as (d0 & Hd0 & ->). eauto. }
  destruct (IsOpen r' e' (state_ c1)); [destruct (match OpenUntil r' e' (state_ c1) with Some _ => _ | None => _ end)|].
  - intros Hs. destruct (ScheduleArm_quiet r e _ _ _ _ _ _ Hne Hs) as [Hst Hn].
    rewrite Hst. split; [done|]. by eapply no_new_trans.
  - intros; simplify_eq. split; [|exact H1]. by apply (ArmHalfOpen_other r e r' e' fired_at (state_ c)).
  - intros; simplify_eq. split; [done|exact H1].
Qed.

Lemma activate_quiet r e l c ok c' :
  Activate l c = (ok, c') -> state_ c' = state_ c /\ no_new_arm r e c c'.
Proof.
  unfold Activate. destruct (negb _); [intros; simplify_eq; split; [done|by apply no_new_refl]|].
  destruct (OnActivateLoopInit l _) as [c1|] eqn:E; [|intros; simplify_eq; split; [done|by apply no_new_refl]].
  intros; simplify_eq. unfold OnActivateLoopInit in E. simpl in E.
  destruct (loop_data_ c) as [d|] eqn:Hd; [|done]. case_bool_decide.
  - simplify_eq. split; [done|]. intros d' x Hd' Hx _. simpl in Hd'. simplify_eq. eauto.
  - destruct (refill_quiet r e _ _ _ E) as [Hst Hn]. split; [exact Hst|].
    intros d' x Hd' Hx Hc. destruct (Hn d' x Hd' Hx Hc) as (d2 & Hd2 & Hx2). simpl in Hd2. simplify_eq. eauto.
Qed.

Lemma stuck_step r e c c' : stuck r e c -> quiet r e c c' -> stuck r e c'.
Proof.
  intros Hc Hq. destruct Hq as [c result k c' Hne Hr|c|c r' e' ok|c d x q r' e' now fired n l c' Hd Hp Hx Ha
    |c d x q now l c' Hd Hp Hx Ha|c l ok c' Ha|c r' e' snap p c' Hq|c route ok c' Hq].
  - unfold RecordResultDirect in Hr. set (c1 := with_state _ _) in Hr.
    assert (Ho : IsOpen r e (state_ c1) = IsOpen r e (state_ c)).
    { apply open_of_lookup. by apply RecordResult_lookup. }
    destruct (IsOpen _ _ (state_ c1)).
    + destruct (ScheduleArm_quiet r e _ _ _ _ _ _ Hne Hr) as [Hst Hn].
      eapply stuck_keep; [exact Hc|congruence|exact Hn].
    + simplify_eq. eapply stuck_keep; [exact Hc|done|by apply no_new_refl].
  - exact Hc.
  - eapply stuck_keep; [exact Hc| |by apply no_new_refl]. apply (RecordHealth_same r' e' ok (state_ c)).
  - destruct (pop_no_new r e _ _ _ _ _ Hd Hp) as [H1 H2].
    assert (~ (r = r' /\ e = e')) as Hne. { intros [-> ->]. destruct Hc as [_ Hn]. by apply (Hn d x). }
    destruct (arm_fired_quiet r e _ _ _ _ _ _ _ Hne Ha) as [Ho Hn].
    eapply stuck_keep; [exact Hc|exact Ho|]. by eapply no_new_trans.
  - destruct (pop_no_new r e _ _ _ _ _ Hd Hp) as [H1 _].
    destruct (refill_quiet r e _ _ _ Ha) as [Hst Hn].
    eapply stuck_keep; [exact Hc|by rewrite Hst|]. eapply no_new_trans; [exact H1|].
    eapply no_new_trans; [|exact Hn]. by apply no_new_refl.
  - destruct (activate_quiet r e _ _ _ _ Ha) as [Hst Hn]. eapply stuck_keep; [exact Hc|by rewrite Hst|exact Hn].
  - unfold ClaimProbe in Hq. destruct (negb _); simplify_eq; [done|].
    pose proof (ClaimProbe_endpoints r' e' snap (state_ c)) as He.
    destruct (CoordinatorState.ClaimProbe r' e' snap (state_ c)) as [p0 s0]. simplify_eq.
    eapply stuck_keep; [exact Hc| |by apply no_new_refl]. by apply (same_open_endpoints _ _ He).
  - unfold ReserveOutcome in Hq. repeat case_match; simplify_eq; try exact Hc.
Qed.

Lemma stuck_forever r e c c' : stuck r e c -> rtc (quiet r e) c c' -> IsOpen r e (state_ c') = true.
Proof. intros Hc Hr. by apply (rtc_preserves _ _ (stuck_step r e) _ _ Hr Hc). Qed.

(** The old generation's coordinator with its open breaker is exported half a
    second into the open window, and a new one imports it and is activated. *)
Definition example_migrated : t :=
  (Activate (3 * second)
    (ImportProtectionSnapshotAndWait
       (ExportProtectionSnapshot (2 * second + 500000000) (state_ example_open))
       (2 * second + 500000000) example_prepared).2).2.

(** A breaker that is open when the configuration is reloaded stays open
    for ever: the import keeps it open but schedules no half-open timer, so
    after activation no run of the loop without a result of that endpoint ever
    leaves the open state, and an open endpoint gets no requests. *)
Theorem migrated_open_never_armed c' :
  IsOpen 0 0 (state_ example_migrated) = true /\
  OpenUntil 0 0 (state_ example_migrated) = Some (3 * second) /\
  (rtc (quiet 0 0) example_migrated c' -> IsOpen 0 0 (state_ c') = true).
Proof.
  split; [vm_compute; reflexivity|]. split; [vm_compute; reflexivity|].
  apply stuck_forever. split; [vm_compute; reflexivity|].
  intros d x Hd Hx. vm_compute in Hd. injection Hd as <-. by apply elem_of_nil in Hx.
Qed.

(** A late outcome of an attempt admitted before the breaker opened, recorded
    after the open window but before its timer ran. *)
Definition example_late : t :=
  default nothing (RecordResultTask (failure 1) (at_time (3 * second + 1000)) example_open).

(** A late outcome can cancel the half-open timer: when a result of an open
    endpoint is recorded after the open window but before its timer callback
    ran, [ScheduleArm] cancels the pending timer and schedules none, and from
    then on no run without further results of that endpoint leaves the open
    state. *)
Theorem late_outcome_disarms c' :
  (exists d, loop_data_ example_open = Some d /\ TimerQueue.PendingCount (timers d) = 1%nat) /\
  (exists d, loop_data_ example_late = Some d /\ TimerQueue.PendingCount (timers d) = 0%nat) /\
  OpenUntil 0 0 (state_ example_late) = Some (3 * second) /\
  (rtc (quiet 0 0) example_late c' -> IsOpen 0 0 (state_ c') = true).
Proof.
  split; [eexists; vm_compute; split; reflexivity|]. split; [eexists; vm_compute; split; reflexivity|].
  split; [vm_compute; reflexivity|]. apply stuck_forever. split; [vm_compute; reflexivity|].
  intros d x Hd Hx. vm_compute in Hd. injection Hd as <-. by apply elem_of_nil in Hx.
Qed.

(** ** The drain at shutdown *)

Lemma ScheduleArm_state r e now later c c' : ScheduleArm r e now later c = Some c' -> state_ c' = state_ c /\ outcome_channels_ c' = outcome_channels_ c.
Proof.
  unfold ScheduleArm. intros H. repeat (case_match; simplify_eq/=; try done);
    apply bind_Some in H as ([? ?] & _ & H); by simplify_eq.
Qed.

(** What recording results does to the state. *)
Definition recorded (s : CoordinatorState.t) (l : list (AttemptResult * clock)) : CoordinatorState.t :=
  foldl (fun s x => RecordResult x.1 (at_result x.2) s) s l.

Lemma record_all_state l c c' :
  record_all l c = Some c' -> state_ c' = recorded (state_ c) l /\ outcome_channels_ c' = outcome_channels_ c.
Proof.
  revert c. induction l as [|[result k] l IH]; intros c H; simpl in H; [by simplify_eq|].
  apply bind_Some in H as (c1 & H1 & H). apply IH in H as [E1 E2].
  assert (state_ c1 = RecordResult result (at_result k) (state_ c) /\ outcome_channels_ c1 = outcome_channels_ c) as [E3 E4].
  { unfold RecordResultDirect in H1. case_match; [by apply ScheduleArm_state in H1|by simplify_eq]. }
  by rewrite E1, E2, E3, E4.
Qed.

(** The results a channel holds, with their readings. *)
Definition results_of (o : option channel) (ks : list clock) : list (AttemptResult * clock) :=
  match o ≫= OutcomeChannel.DrainOnCoordinatorLoop with
  | Some (values, _) => zip (omap id values) ks
  | None => []
  end.

Lemma mapM_id_omap {A} (l : list (option A)) k : mapM id l = Some k -> omap id l = k.
Proof.
  revert k. induction l as [|o l IH]; intros k H; simpl in H; [by injection H as <-|].
  apply bind_Some in H as (x & Hx & H). apply bind_Some in H as (k' & Hk & H). destruct o; [|done]. injection Hx as ->. injection H as <-. simpl. f_equal. by apply IH.
Qed.

Definition emptied (o : option channel) : Prop := forall ch, o = Some ch -> OutcomeChannel.drain_one ch = None.

Lemma drain_channel_exact route ch ks c c' n :
  (route < length (outcome_channels_ c))%nat -> drain_channel route ch ks c = Some (c', n) ->
  state_ c' = recorded (state_ c) (results_of (Some ch) ks) /\
  exists ch', outcome_channels_ c' = <[ route := Some ch' ]> (outcome_channels_ c) /\ OutcomeChannel.drain_one ch' = None.
Proof.
  intros Hr H. unfold drain_channel in H. apply bind_Some in H as ([values ch'] & Hd & H).
  apply bind_Some in H as (results & Hm & H). case_match; [done|]. apply bind_Some in H as (c1 & Hc & H). simplify_eq.
  apply record_all_state in Hc as [E1 E2]. unfold results_of. simpl. rewrite Hd, (mapM_id_omap _ _ Hm).
  split; [done|]. exists ch'. split; [done|]. by eapply OutcomeChannel.drain_empties.
Qed.

Lemma drain_from_exact clocks route any c c' any' :
  (route + length clocks = length (outcome_channels_ c))%nat -> drain_from route clocks any c = Some (c', any') ->
  state_ c' = recorded (state_ c) (concat (zip_with results_of (drop route (outcome_channels_ c)) clocks)) /\
  length (outcome_channels_ c') = length (outcome_channels_ c) /\
  (forall r, (r < route)%nat -> outcome_channels_ c' !! r = outcome_channels_ c !! r) /\
  (forall r o, (route <= r)%nat -> outcome_channels_ c' !! r = Some o -> emptied o).
Proof.
  revert route any c. induction clocks as [|ks clocks IH]; intros route any c Hl H; simpl in H, Hl.
  { simplify_eq. rewrite zip_with_nil_r. split_and!; try done. intros r o Hr Ho. apply lookup_lt_Some in Ho. lia. }
  destruct (lookup_lt_is_Some_2 (outcome_channels_ c) route ltac:(lia)) as [o Ho]. rewrite (drop_S _ _ _ Ho). simpl.
  unfold recorded. rewrite foldl_app. rewrite Ho in H. destruct o as [ch|].
  - apply bind_Some in H as ([c1 n] & Hd & H). destruct (drain_channel_exact _ _ _ _ _ _ (lookup_lt_Some _ _ _ Ho) Hd) as (E1 & ch' & E2 & He).
    apply IH in H as (F1 & F2 & F3 & F4); [|rewrite E2, length_insert; lia]. rewrite E2, length_insert in F2.
    rewrite E1, E2 in F1. rewrite drop_insert_lt in F1 by lia. split_and!; [done|done| |].
    + intros r Hr. rewrite F3, E2 by lia. apply list_lookup_insert_ne. lia.
    + intros r o Hr Ho'. destruct (decide (r = route)) as [->|Hne]; [|eapply F4; [|exact Ho']; lia].
      rewrite F3, E2, list_lookup_insert_eq in Ho' by lia. intros ch0 ->. by injection Ho' as <-.
  - apply IH in H as (F1 & F2 & F3 & F4); [|lia]. split_and!; [done|done| |].
    + intros r Hr. apply F3. lia.
    + intros r o Hr Ho'. destruct (decide (r = route)) as [->|Hne]; [|eapply F4; [|exact Ho']; lia].
      rewrite F3, Ho in Ho' by lia. by injection Ho' as <-.
Qed.

(** The drain of the shutdown loses nothing: the results that wait in the
    channels are recorded, route by route and in order, and no channel has a
    result left. *)
Theorem drain_all_exact clocks c c' :
  DrainAllOutcomeChannels clocks c = Some c' ->
  endpoints_ (state_ c') = endpoints_ (recorded (state_ c) (concat (zip_with results_of (outcome_channels_ c) clocks))) /\
  Forall emptied (outcome_channels_ c').
Proof.
  unfold DrainAllOutcomeChannels. case_bool_decide as Hl; simpl; [|done]. intros H. apply bind_Some in H as ([c1 any] & Hd & H).
  apply drain_from_exact in Hd as (E1 & _ & _ & E2); [|done]. rewrite drop_0 in E1. rewrite <- E1.
  assert (state_ c' = state_ c1 \/ endpoints_ (state_ c') = endpoints_ (state_ c1)) as Hs by (destruct any; simplify_eq; auto).
  assert (outcome_channels_ c' = outcome_channels_ c1) as -> by (destruct any; by simplify_eq).
  split; [destruct Hs as [->|?]; done|]. apply Forall_lookup. intros r o Ho. by eapply (E2 r o); [lia|].
Qed.

End Coordinator.
