(* ===== verification/Selection.v ===== *)
(** * Endpoint selection

    [Module SelectionState] models src/src/runtime/SelectionState.cpp (rotation
    cursors and active counters of one worker) and [Module AttemptSelector]
    models src/src/runtime/AttemptSelector.cpp (the choice of an endpoint for
    one attempt).  The selector talks to the coordinator through the interface
    [AttemptCoordinator]; the instance for the coordinator of Coordinator.v is
    at the end. *)

From S2P Require Import Prelude Bytes Types Reservation Routing CircuitBreaker CoordinatorState OutcomeChannel TimerQueue Coordinator.

Module SelectionState.

(** [active_counts_] holds the shared counters; position (route, endpoint) is
    the counter's identity. *)
Record t := mk {
  config_ : Config;
  version_ : Z;
  selectors_ : list WeightedRoundRobin.t;
  active_counts_ : list (list ActiveReservation.State)
}.

(** [None] is the exception of a selector's constructor. *)
Definition make (config : Config) (version : Z) : option t :=
  selectors ← mapM (fun r => WeightedRoundRobin.make (rt_endpoints r)) (routes config);
  Some (mk config version selectors
           ((fun r => (fun _ => ActiveReservation.mkState 0) <$> rt_endpoints r) <$> routes config)).

(** The content match by address and port. *)
Definition same_place (x y : Endpoint) : bool :=
  bool_decide (ep_address x = ep_address y) && bool_decide (ep_port x = ep_port y).

Definition locate (selected : Endpoint) (eps : list Endpoint) : option nat :=
  fst <$> list_find (fun x => same_place x selected = true) eps.

(** [selectors_[route_index].Next()] located in the route's own list; the
    cursor advances once. *)
Definition advance (r : nat) (s : t) : option (option nat * t) :=
  match selectors_ s !! r, routes (config_ s) !! r with
  | Some w, Some rt =>
      let '(i, w) := WeightedRoundRobin.Next w in
      let s := mk (config_ s) (version_ s) (<[ r := w ]> (selectors_ s)) (active_counts_ s) in
      Some (match WeightedRoundRobin.endpoints_ w !! i with
            | Some selected => locate selected (rt_endpoints rt)
            | None => None
            end, s)
  | _, _ => None
  end.

Definition NextWeightedIndex (r : nat) (s : t) : option nat * t :=
  match advance r s with Some (i, s) => (i, s) | None => (None, s) end.

Definition ActiveFor (r e : nat) (s : t) : Z :=
  match active_counts_ s !! r ≫= fun l => l !! e with
  | Some a => ActiveReservation.count a
  | None => 0
  end.

(** The endpoints in rotation order from [start]. *)
Definition rotation (start count : nat) : list nat :=
  (fun step => (start + step) `mod` count)%nat <$> seq 0 count.

Definition candidate (tried : gset nat) (eligible : nat -> bool) (i : nat) : bool :=
  negb (bool_decide (i ∈ tried)) && eligible i.

(** Pass 1: the minimum over the candidates, [None] when none was found. *)
Definition minimum_active (active : nat -> Z) (l : list nat) : option Z :=
  foldl (fun m i => Some (Z.min (default (u32_modulus - 1) m) (active i))) None l.

(** Both passes over the rotation. *)
Definition scan (tried : gset nat) (eligible : nat -> bool) (active : nat -> Z) (order : list nat)
    : option nat :=
  let l := filter (fun i => candidate tried eligible i = true) order in
  minimum ← minimum_active active l;
  snd <$> list_find (fun i => active i = minimum) l.

Definition NextLeastActiveIndex (r : nat) (tried : gset nat) (eligible : nat -> bool) (s : t)
    : option nat * t :=
  match routes (config_ s) !! r with
  | None => (None, s)
  | Some rt =>
      let count := length (rt_endpoints rt) in
      if bool_decide (count = 0%nat) then (None, s)
      else match advance r s with
           | None => (None, s)
           | Some (None, s) => (None, s)
           | Some (Some start, s) =>
               (scan tried eligible (fun i => ActiveFor r i s) (rotation start count), s)
           end
  end.

(** The guard is the position of the counter it holds. *)
Definition AcquireActive (r e : nat) (s : t) : option (nat * nat) * t :=
  match active_counts_ s !! r ≫= fun l => l !! e with
  | None => (None, s)
  | Some _ =>
      (Some (r, e),
       mk (config_ s) (version_ s) (selectors_ s)
          (alter (alter ActiveReservation.AcquireOne e) r (active_counts_ s)))
  end.

(** ** Invariant *)

Record wf (s : t) : Prop := {
  wf_selectors : Forall2 (fun rt w => WeightedRoundRobin.endpoints_ w = rt_endpoints rt /\
                                      WeightedRoundRobin.wf w) (routes (config_ s)) (selectors_ s);
  wf_counts : Forall2 (fun rt l => length l = length (rt_endpoints rt) /\
                                   Forall (fun a => is_u32 (ActiveReservation.count a)) l)
                      (routes (config_ s)) (active_counts_ s)
}.

Definition weights_fit (config : Config) : Prop :=
  Forall (fun rt => Forall (fun x => is_u32 (ep_weight x)) (rt_endpoints rt)) (routes config).

Lemma make_selection_wf config version s :
  weights_fit config -> make config version = Some s -> wf s /\ config_ s = config.
Proof.
  unfold make, weights_fit. intros Hw Hm. destruct (mapM _ _) as [sel|] eqn:E; simpl in Hm; [|done].
  injection Hm as <-. apply mapM_Some in E. split; [|done]. constructor; simpl.
  - revert Hw. induction E as [|rt w l k Hr E IH]; intros Hw; constructor;
      apply Forall_cons in Hw as [Hu Hw]; [|by apply IH].
    split; [|by eapply WeightedRoundRobin.wrr_make_wf]. unfold WeightedRoundRobin.make in Hr.
    destruct (WeightedRoundRobin.sum_weights _ _) as [z|]; simpl in Hr; [|done]. by destruct (z =? 0); simplify_eq.
  - clear. induction (routes config) as [|rt l IH]; constructor; [|exact IH].
    rewrite length_fmap. split; [done|]. apply Forall_fmap, Forall_true. intros ?. simpl. mlia.
Qed.

Lemma ActiveFor_range r e s : wf s -> is_u32 (ActiveFor r e s).
Proof.
  intros [_ Hc]. unfold ActiveFor. destruct (active_counts_ s !! r) as [l|] eqn:El; simpl; [|mlia].
  destruct (l !! e) as [a|] eqn:Ea; [|mlia].
  destruct (Forall2_lookup_r _ _ _ _ _ Hc El) as (rt & _ & _ & Hf).
  rewrite Forall_forall in Hf. apply Hf. by eapply list_elem_of_lookup_2.
Qed.

Lemma same_place_refl x : same_place x x = true.
Proof. unfold same_place. by rewrite !bool_decide_eq_true_2. Qed.

Lemma locate_found eps x : x ∈ eps -> exists i, locate x eps = Some i /\ (i < length eps)%nat.
Proof.
  intros Hx. unfold locate.
  destruct (list_find (fun y => same_place y x = true) eps) as [[i y]|] eqn:E; simpl.
  - apply list_find_Some in E as (E & _ & _). apply lookup_lt_Some in E. exists i. eauto.
  - apply list_find_None in E. rewrite Forall_forall in E. by destruct (E x Hx (same_place_refl x)).
Qed.

(** The owner of the cursor is always found. *)
Lemma advance_found r s rt :
  wf s -> routes (config_ s) !! r = Some rt ->
  exists w start, selectors_ s !! r = Some w /\ (start < length (rt_endpoints rt))%nat /\
    advance r s = Some (Some start, mk (config_ s) (version_ s)
                                      (<[ r := (WeightedRoundRobin.Next w).2 ]> (selectors_ s))
                                      (active_counts_ s)) /\
    wf (mk (config_ s) (version_ s) (<[ r := (WeightedRoundRobin.Next w).2 ]> (selectors_ s))
           (active_counts_ s)).
Proof.
  intros [Hs Hc] Hr. destruct (Forall2_lookup_l _ _ _ _ _ Hs Hr) as (w & Hw & He & Hwf).
  destruct (WeightedRoundRobin.Next_cursor w Hwf) as (Hwf' & He' & _).
  assert (Hsel : exists x, WeightedRoundRobin.endpoints_ w !! (WeightedRoundRobin.Next w).1 = Some x).
  { unfold WeightedRoundRobin.Next. simpl. destruct Hwf as [W1 W2 W3 W4].
    pose proof (WeightedRoundRobin.select_spec (WeightedRoundRobin.endpoints_ w)
      (WeightedRoundRobin.next_weight_ w) 0 W1 ltac:(lia) ltac:(lia)) as H.
    destruct (WeightedRoundRobin.select _ _ 0) as [i|]; simpl; [|lia].
    apply lookup_lt_is_Some. apply H. }
  destruct Hsel as [x Hx]. rewrite He in Hx.
  destruct (locate_found (rt_endpoints rt) x (list_elem_of_lookup_2 _ _ _ Hx)) as (start & Hst & Hlt).
  exists w, start. split; [done|]. split; [done|]. unfold advance. rewrite Hw, Hr.
  destruct (WeightedRoundRobin.Next w) as [i w']. simpl in *. rewrite He', He, Hx, Hst. split; [done|].
  split; simpl; [|done]. rewrite <- (list_insert_id _ _ _ Hr). apply Forall2_insert; [done|].
  split; [congruence|done].
Qed.

(** ** The two passes *)

Lemma minimum_active_spec active l :
  (forall i, is_u32 (active i)) ->
  match minimum_active active l with
  | None => l = []
  | Some m => (exists i, i ∈ l /\ active i = m) /\ forall i, i ∈ l -> m <= active i
  end.
Proof.
  intros Hu. unfold minimum_active. induction l as [|i l IH] using rev_ind; [done|].
  rewrite foldl_app. simpl. destruct (foldl _ None l) as [m|]; simpl.
  - destruct IH as [(j & Hj & Em) Hm]. split.
    + destruct (Z.min_spec m (active i)) as [[_ ->]|[_ ->]]; [exists j|exists i]; set_solver.
    + intros k [Hk|Hk]%elem_of_app; [apply Hm in Hk; lia|]. apply list_elem_of_singleton in Hk as ->. lia.
  - subst l. pose proof (Hu i). split; [exists i; split; [set_solver|mlia]|].
    intros k Hk. apply list_elem_of_singleton in Hk as ->. lia.
Qed.

(** [i] is the first of the least active candidates of the order. *)
Definition first_least (tried : gset nat) (eligible : nat -> bool) (active : nat -> Z)
    (order : list nat) (i : nat) : Prop :=
  i ∈ order /\ candidate tried eligible i = true /\
  (forall j, j ∈ order -> candidate tried eligible j = true -> active i <= active j) /\
  exists before after, order = before ++ i :: after /\
    forall j, j ∈ before -> candidate tried eligible j = true -> active i < active j.

Lemma filter_split {A : Type} (P : A -> Prop) `{forall x, Decision (P x)} (l : list A) k x :
  filter P l !! k = Some x ->
  exists before after, l = before ++ x :: after /\ filter P before = take k (filter P l).
Proof.
  revert k. induction l as [|y l IH]; intros k Hk; [done|]. rewrite filter_cons in Hk |- *.
  destruct (decide (P y)) as [Hy|Hy].
  - destruct k as [|k]; simpl in Hk.
    + simplify_eq. by exists [], l.
    + destruct (IH k Hk) as (b & a & -> & Hb). exists (y :: b), a. split; [done|].
      rewrite filter_cons, decide_True by done. simpl. by rewrite Hb.
  - destruct (IH k Hk) as (b & a & -> & Hb). exists (y :: b), a. split; [done|].
    by rewrite filter_cons, decide_False.
Qed.

Lemma scan_spec tried eligible active order :
  (forall i, is_u32 (active i)) ->
  match scan tried eligible active order with
  | Some i => first_least tried eligible active order i
  | None => forall j, j ∈ order -> candidate tried eligible j = false
  end.
Proof.
  intros Hu. unfold scan. set (l := filter _ order).
  assert (Hl : forall j, j ∈ l <-> candidate tried eligible j = true /\ j ∈ order)
    by (intros j; unfold l; by rewrite list_elem_of_filter).
  pose proof (minimum_active_spec active l Hu) as Hm.
  destruct (minimum_active active l) as [m|]; simpl.
  - destruct Hm as [(i0 & Hi0 & Em) Hmin].
    destruct (list_find (fun i => active i = m) l) as [[k i]|] eqn:E; simpl.
    + apply list_find_Some in E as (Ek & Ei & Eb). subst m.
      pose proof (proj1 (Hl i) (list_elem_of_lookup_2 _ _ _ Ek)) as [Hc Ho].
      split; [done|]. split; [done|]. split.
      * intros j Hj Hcj. rewrite Ei. apply Hmin, Hl. done.
      * destruct (filter_split _ order k i Ek) as (b & a & -> & Hb). exists b, a. split; [done|].
        intros j Hj Hcj. assert (j ∈ filter (fun i => candidate tried eligible i = true) b) as Hf
          by (by rewrite list_elem_of_filter).
        rewrite Hb in Hf. apply list_elem_of_lookup in Hf as [q Hq]. fold l in Hq.
        assert (q < k)%nat by (apply lookup_lt_Some in Hq; rewrite length_take in Hq; lia).
        rewrite lookup_take_lt in Hq by done.
        pose proof (Eb q j Hq ltac:(done)). pose proof (Hmin j (list_elem_of_lookup_2 _ _ _ Hq)). lia.
    + apply list_find_None in E. rewrite Forall_forall in E. by destruct (E i0 Hi0).
  - subst l. intros j Hj. destruct (candidate tried eligible j) eqn:Ec; [|done].
    assert (j ∈ []) as Hn by (rewrite <- Hm; by rewrite list_elem_of_filter). by apply elem_of_nil in Hn.
Qed.

Lemma rotation_elem start count i :
  (start < count)%nat -> i ∈ rotation start count <-> (i < count)%nat.
Proof.
  intros Hs. unfold rotation. rewrite list_elem_of_fmap. split.
  - intros (k & -> & _). apply Nat.mod_upper_bound. lia.
  - intros Hi. exists ((i + (count - start)) mod count)%nat. split.
    + rewrite Nat.Div0.add_mod_idemp_r. replace (start + (i + (count - start)))%nat with (i + 1 * count)%nat by lia.
      by rewrite Nat.Div0.mod_add, Nat.mod_small.
    + apply elem_of_seq. split; [lia|]. apply Nat.mod_upper_bound. lia.
Qed.

(** One call of [NextLeastActiveIndex]. *)
Lemma least_active_call s r rt tried eligible :
  wf s -> routes (config_ s) !! r = Some rt -> rt_endpoints rt <> [] ->
  exists w start s',
    selectors_ s !! r = Some w /\ (start < length (rt_endpoints rt))%nat /\
    s' = mk (config_ s) (version_ s) (<[ r := (WeightedRoundRobin.Next w).2 ]> (selectors_ s))
            (active_counts_ s) /\ wf s' /\
    NextLeastActiveIndex r tried eligible s =
    (scan tried eligible (fun i => ActiveFor r i s) (rotation start (length (rt_endpoints rt))), s').
Proof.
  intros Hw Hr Hne. destruct (advance_found r s rt Hw Hr) as (w & start & H1 & H2 & H3 & H4).
  exists w, start. eexists. split; [done|]. split; [done|]. split; [done|]. split; [done|].
  unfold NextLeastActiveIndex. rewrite Hr, bool_decide_eq_false_2 by (by destruct (rt_endpoints rt)).
  by rewrite H3.
Qed.

Lemma AcquireActive_spec r e s rt :
  wf s -> routes (config_ s) !! r = Some rt -> (e < length (rt_endpoints rt))%nat ->
  exists s', AcquireActive r e s = (Some (r, e), s') /\ wf s' /\
    config_ s' = config_ s /\ selectors_ s' = selectors_ s /\
    ActiveFor r e s' = wrap_u32 (ActiveFor r e s + 1) /\
    forall r' e', (r', e') <> (r, e) -> ActiveFor r' e' s' = ActiveFor r' e' s.
Proof.
  intros [Hs Hc] Hr He. destruct (Forall2_lookup_l _ _ _ _ _ Hc Hr) as (l & Hl & Hlen & Hf).
  destruct (lookup_lt_is_Some_2 l e ltac:(lia)) as [a Ha].
  unfold AcquireActive, ActiveFor. rewrite Hl; simpl. rewrite Ha.
  eexists. split; [done|]. split_and!; [|done|done| |].
  - constructor; [exact Hs|]. simpl. apply Forall2_alter_r; [done|].
    intros x y _ _ [Hxy Hy]. split; [by rewrite length_alter|].
    apply Forall_alter; [done|]. intros z _ _. apply wrap_u32_range.
  - simpl. rewrite list_lookup_alter_eq, Hl. simpl. by rewrite list_lookup_alter_eq, Ha.
  - intros r' e' Hne. simpl. destruct (decide (r' = r)) as [->|Hn].
    + rewrite list_lookup_alter_eq, Hl. simpl. rewrite list_lookup_alter_ne by congruence. done.
    + by rewrite list_lookup_alter_ne.
Qed.

(** Least-active selection is exact: it returns the first endpoint, in
    weighted rotation order from the cursor's owner, with the fewest active
    attempts among the eligible endpoints not yet tried, and nothing exactly
    when there is no such endpoint; it advances the cursor of that route once
    and changes no counter. *)
Theorem least_active_choice s r rt tried eligible :
  wf s -> routes (config_ s) !! r = Some rt -> rt_endpoints rt <> [] ->
  let n := length (rt_endpoints rt) in
  let '(res, s') := NextLeastActiveIndex r tried eligible s in
  (exists w, selectors_ s !! r = Some w /\
             selectors_ s' = <[ r := (WeightedRoundRobin.Next w).2 ]> (selectors_ s)) /\
  active_counts_ s' = active_counts_ s /\
  match res with
  | Some i => exists start, (start < n)%nat /\
              first_least tried eligible (fun j => ActiveFor r j s) (rotation start n) i
  | None => forall j, (j < n)%nat -> j ∈ tried \/ eligible j = false
  end.
Proof.
  intros Hw Hr Hne n.
  destruct (least_active_call s r rt tried eligible Hw Hr Hne) as (w & start & s' & H1 & H2 & -> & _ & ->).
  split; [eauto|]. split; [done|].
  pose proof (scan_spec tried eligible (fun i => ActiveFor r i s) (rotation start n)
                (fun i => ActiveFor_range r i s Hw)) as Hs.
  fold n. destruct (scan _ _ _ _) as [i|]; [eauto|].
  intros j Hj. specialize (Hs j (proj2 (rotation_elem start n j H2) Hj)).
  unfold candidate in Hs. apply andb_false_iff in Hs as [Hs|Hs]; [left|by right].
  apply negb_false_iff, bool_decide_eq_true in Hs. done.
Qed.

Definition example_config : Config :=
  mkConfig [mkRoute (lit "api") (lit "a") (lit "/")
              [mkEndpoint (lit "10.0.0.1") (10, 0, 0, 1) 80 5; mkEndpoint (lit "10.0.0.2") (10, 0, 0, 2) 80 1]
              100 100 10 5000 5000 30000 1 None (Some (mkHealthSettings 1000 500)) kLeastActive] 1.

Lemma example_weights : weights_fit example_config.
Proof. repeat constructor; simpl; mlia. Qed.

(** One attempt on the first endpoint is under way. *)
Definition example : t :=
  match make example_config 1 with
  | Some s => (AcquireActive 0 0 s).2
  | None => mk example_config 1 [] []
  end.

Lemma example_selection_wf : wf example /\ config_ example = example_config.
Proof.
  unfold example. destruct (make example_config 1) as [s|] eqn:E; [|by vm_compute in E].
  destruct (make_selection_wf _ _ _ example_weights E) as [Hs Ec].
  destruct (AcquireActive_spec 0 0 s (default (mkRoute [] [] [] [] 0 0 0 0 0 0 0 None None kLeastActive)
    (routes example_config !! 0%nat)) Hs) as (s' & -> & Hw & Hc & _); [by rewrite Ec|simpl; lia|].
  simpl. split; [done|congruence].
Qed.

Lemma least_active_choice_witness :
  (NextLeastActiveIndex 0 ∅ (fun _ => true) example).1 = Some 1%nat /\
  exists start, (start < 2)%nat /\
    first_least ∅ (fun _ => true) (fun j => ActiveFor 0 j example) (rotation start 2) 1.
Proof.
  destruct example_selection_wf as [Hw Hc]. split; [vm_compute; reflexivity|].
  pose proof (least_active_choice example 0 _ ∅ (fun _ => true) Hw ltac:(rewrite Hc; reflexivity)
                ltac:(discriminate)) as H.
  assert (E : NextLeastActiveIndex 0 ∅ (fun _ => true) example =
              (Some 1%nat, (NextLeastActiveIndex 0 ∅ (fun _ => true) example).2)) by (vm_compute; reflexivity).
  rewrite E in H. exact (proj2 (proj2 H)).
Defined.

End SelectionState.
