(* ===== verification/AttemptSelector.v ===== *)
(** * Choice of an endpoint for one attempt

    Models src/src/runtime/AttemptSelector.cpp over the selection state of
    Selection.v.  The selector reaches the coordinator through the interface
    [AttemptCoordinator]; its laws are what the coordinator promises between
    two publications, and the instance for the coordinator of Coordinator.v
    discharges them. *)

From S2P Require Import Prelude Bytes Types Reservation Routing CircuitBreaker CoordinatorState OutcomeChannel Coordinator Selection.

(** What a worker may ask of the coordinator. *)
Class AttemptCoordinator (C : Type) := {
  current_snapshot : C -> option CoordinatorState.HealthCircuitSnapshot;
  probe_available : nat -> nat -> C -> bool;
  claim_probe : nat -> nat -> CoordinatorState.HealthCircuitSnapshot -> C ->
                option CoordinatorState.AttemptPermit * C;
  reserve_outcome : nat -> C -> bool * C
}.

(** Neither call makes a probe slot appear. *)
Class AttemptCoordinatorLaws (C : Type) `{AttemptCoordinator C} : Prop := {
  claim_keeps r e snapshot c r' e' :
    probe_available r' e' (claim_probe r e snapshot c).2 = true -> probe_available r' e' c = true;
  reserve_keeps r c r' e' :
    probe_available r' e' (reserve_outcome r c).2 = probe_available r' e' c
}.

Module AttemptSelector.
Import CoordinatorState.

(** [BreakerLink]: the position, the permit, and the outcome reservation that
    comes with it. *)
Record BreakerLink := mkLink { bl_route : nat; bl_endpoint : nat; bl_permit : AttemptPermit }.

Record AttemptSelection := mkSelection {
  sel_endpoint : Endpoint;
  sel_link : option BreakerLink;
  sel_active : option (nat * nat);
  sel_snapshot : Config
}.

Record AttemptDecision := mkDecision {
  selection : option AttemptSelection;
  coordinator_overloaded : bool
}.

Section Selector.
Context {C : Type} `{AttemptCoordinator C}.

Record t := mk {
  selection_ : SelectionState.t;
  coordinator_ : option C;
  route_index_ : nat;
  snapshot_ : option Config;
  overload_ : bool;
  tried_ : gset nat
}.

(** The generation is a null pointer or its coordinator and snapshot. *)
Definition make (selection : SelectionState.t) (generation : option (option C * option Config))
    (route_index : nat) : t :=
  mk selection (generation ≫= fst) route_index (generation ≫= snd) false ∅.

Definition with_tried (s : t) (i : nat) : t :=
  mk (selection_ s) (coordinator_ s) (route_index_ s) (snapshot_ s) (overload_ s) ({[i]} ∪ tried_ s).
Definition with_overload (s : t) (o : bool) : t :=
  mk (selection_ s) (coordinator_ s) (route_index_ s) (snapshot_ s) o (tried_ s).
Definition with_selection (s : t) (sel : SelectionState.t) : t :=
  mk sel (coordinator_ s) (route_index_ s) (snapshot_ s) (overload_ s) (tried_ s).
Definition with_coordinator (s : t) (c : C) : t :=
  mk (selection_ s) (Some c) (route_index_ s) (snapshot_ s) (overload_ s) (tried_ s).

Definition decision_at (r e : nat) (snapshot : HealthCircuitSnapshot) : option EndpointDecision :=
  decisions snapshot !! r ≫= fun l => l !! e.

Definition Eligible (c : C) (r : nat) (snapshot : HealthCircuitSnapshot) (endpoint_index : nat) : bool :=
  match decision_at r endpoint_index snapshot with
  | None => false
  | Some decision =>
      if negb (healthy decision) then false
      else if bool_decide (breaker_state decision = CircuitBreaker.kOpen) then false
      else if bool_decide (breaker_state decision = CircuitBreaker.kHalfOpen) &&
              negb (probe_available r endpoint_index c) then false
      else true
  end.

(** The breaker part of [MakeSelection]: no breaker, a refusal, or a link. *)
Inductive link_result := LNone | LRefused | LOk (l : BreakerLink).

Definition make_link (e : nat) (decision : EndpointDecision) (snapshot : HealthCircuitSnapshot)
    (c : C) (s : t) : link_result * t :=
  let r := route_index_ s in
  if decision_generation decision =? 0 then (LNone, s)
  else
    let '(claimed, c) :=
      if bool_decide (breaker_state decision = CircuitBreaker.kHalfOpen)
      then claim_probe r e snapshot c
      else (Some (mkPermit false (decision_generation decision) 0), c) in
    match claimed with
    | None => (LRefused, with_coordinator s c)
    | Some permit =>
        let '(reserved, c) := reserve_outcome r c in
        if negb reserved then (LRefused, with_overload (with_coordinator s c) true)
        else (LOk (mkLink r e permit), with_coordinator s c)
    end.

(** [None] is an access out of range or through a null pointer. *)
Definition MakeSelection (e : nat) (snapshot : HealthCircuitSnapshot) (s : t)
    : option (option AttemptSelection * t) :=
  c ← coordinator_ s;
  decision ← decision_at (route_index_ s) e snapshot;
  let finish link s :=
    config ← snapshot_ s;
    rt ← routes config !! route_index_ s;
    endpoint ← rt_endpoints rt !! e;
    let '(active, sel) := SelectionState.AcquireActive (route_index_ s) e (selection_ s) in
    Some (Some (mkSelection endpoint link active config), with_selection s sel) in
  match make_link e decision snapshot c s with
  | (LRefused, s) => Some (None, s)
  | (LNone, s) => finish None s
  | (LOk l, s) => finish (Some l) s
  end.

(** The [for (;;)] of the least-active policy; [None] also for no fuel left. *)
Fixpoint least_active_loop (fuel : nat) (snapshot : HealthCircuitSnapshot) (s : t)
    : option (AttemptDecision * t) :=
  match fuel with
  | O => None
  | S fuel =>
      c ← coordinator_ s;
      let '(index, sel) :=
        SelectionState.NextLeastActiveIndex (route_index_ s) (tried_ s)
          (Eligible c (route_index_ s) snapshot) (selection_ s) in
      let s := with_selection s sel in
      match index with
      | None => Some (mkDecision None (overload_ s), s)
      | Some i =>
          '(made, s) ← MakeSelection i snapshot (with_tried s i);
          match made with
          | Some x => Some (mkDecision (Some x) false, s)
          | None => least_active_loop fuel snapshot s
          end
      end
  end.

(** The rotation of the weighted policy, [attempts] steps of it left. *)
Fixpoint weighted_loop (attempts : nat) (snapshot : HealthCircuitSnapshot) (s : t)
    : option (AttemptDecision * t) :=
  match attempts with
  | O => Some (mkDecision None (overload_ s), s)
  | S attempts =>
      c ← coordinator_ s;
      let '(index, sel) := SelectionState.NextWeightedIndex (route_index_ s) (selection_ s) in
      let s := with_selection s sel in
      match index with
      | None => weighted_loop attempts snapshot s
      | Some i =>
          if bool_decide (i ∈ tried_ s) then weighted_loop attempts snapshot s
          else
            let s := with_tried s i in
            if negb (Eligible c (route_index_ s) snapshot i) then weighted_loop attempts snapshot s
            else
              '(made, s) ← MakeSelection i snapshot s;
              match made with
              | Some x => Some (mkDecision (Some x) false, s)
              | None => weighted_loop attempts snapshot s
              end
      end
  end.

Definition endpoint_count (s : t) : option nat :=
  config ← snapshot_ s; rt ← routes config !! route_index_ s; Some (length (rt_endpoints rt)).

(** Each round of the least-active loop tries another endpoint, so one more
    round than there are endpoints is enough fuel. *)
Definition Select (least_active : bool) (s : t) : option (AttemptDecision * t) :=
  let s := with_overload s false in
  match coordinator_ s, snapshot_ s with
  | Some c, Some config =>
      match current_snapshot c with
      | None => Some (mkDecision None false, s)
      | Some health_snapshot =>
          if least_active then
            least_active_loop
              (S (match routes (SelectionState.config_ (selection_ s)) !! route_index_ s with
                  | Some rt => length (rt_endpoints rt) | None => 0 end))
              health_snapshot s
          else n ← endpoint_count s; weighted_loop n health_snapshot s
      end
  | _, _ => Some (mkDecision None false, s)
  end.

(** ** Correctness against the interface *)

Context {Hlaws : AttemptCoordinatorLaws C}.

(** The selector of route [r] of a configuration, bound to its generation. *)
Record ready (config : Config) (r : nat) (rt : Route) (s : t) : Prop := {
  rd_wf : SelectionState.wf (selection_ s);
  rd_config : SelectionState.config_ (selection_ s) = config;
  rd_snapshot : snapshot_ s = Some config;
  rd_route : routes config !! r = Some rt;
  rd_index : route_index_ s = r;
  rd_endpoints : rt_endpoints rt <> []
}.

(** Nothing becomes eligible from [c] to [c'] under the same snapshot. *)
Definition narrows (r : nat) (snapshot : HealthCircuitSnapshot) (c c' : C) : Prop :=
  forall j, Eligible c' r snapshot j = true -> Eligible c r snapshot j = true.

Lemma Eligible_mono r snapshot c c' :
  (forall j, probe_available r j c' = true -> probe_available r j c = true) -> narrows r snapshot c c'.
Proof.
  intros Hp j. unfold Eligible. destruct (decision_at _ _ _) as [d|]; [|done].
  destruct (negb (healthy d)); [done|]. case_bool_decide; [done|].
  case_bool_decide; simpl; [|done]. specialize (Hp j).
  destruct (probe_available r j c'); [by rewrite Hp|done].
Qed.

Lemma narrows_trans r snapshot c1 c2 c3 :
  narrows r snapshot c1 c2 -> narrows r snapshot c2 c3 -> narrows r snapshot c1 c3.
Proof. unfold narrows. eauto. Qed.

(** Where the permit of an attempt on a breaker's endpoint comes from: a claimed
    probe while half open, else the breaker's generation. *)
Definition permit_for (r e : nat) (snapshot : HealthCircuitSnapshot) (decision : EndpointDecision)
    (c : C) (permit : AttemptPermit) (c' : C) : Prop :=
  if decide (breaker_state decision = CircuitBreaker.kHalfOpen)
  then claim_probe r e snapshot c = (Some permit, c')
  else permit = mkPermit false (decision_generation decision) 0 /\ c' = c.

(** The link of an attempt: none without a breaker; with one, its permit and an
    outcome slot the coordinator granted, in this order. *)
Definition links (r e : nat) (snapshot : HealthCircuitSnapshot) (decision : EndpointDecision)
    (c : C) (link : option BreakerLink) (c' : C) : Prop :=
  match link with
  | None => decision_generation decision = 0 /\ c' = c
  | Some l => decision_generation decision <> 0 /\ bl_route l = r /\ bl_endpoint l = e /\
      exists c1, permit_for r e snapshot decision c (bl_permit l) c1 /\
                 reserve_outcome r c1 = (true, c')
  end.

(** An endpoint with a breaker that the coordinator turned down: its probe was
    claimed by another request, or no outcome slot is left ([overload]). *)
Definition turned_down (r e : nat) (snapshot : HealthCircuitSnapshot) (decision : EndpointDecision)
    (overload : bool) (c c' : C) : Prop :=
  decision_generation decision <> 0 /\
  if overload
  then exists permit c1, permit_for r e snapshot decision c permit c1 /\ reserve_outcome r c1 = (false, c')
  else breaker_state decision = CircuitBreaker.kHalfOpen /\ claim_probe r e snapshot c = (None, c').

(** A sequence of endpoints turned down, and whether one was for lack of a slot:
    all that is asked of the coordinator for endpoints that are not selected. *)
Inductive tries (r : nat) (snapshot : HealthCircuitSnapshot) : bool -> C -> C -> Prop :=
  | tries_none c : tries r snapshot false c c
  | tries_more o o' e decision c c1 c' :
      decision_at r e snapshot = Some decision -> turned_down r e snapshot decision o c c1 ->
      tries r snapshot o' c1 c' -> tries r snapshot (o || o') c c'.

Lemma tries_app r snapshot o c c1 : tries r snapshot o c c1 ->
  forall o' c2, tries r snapshot o' c1 c2 -> tries r snapshot (o || o') c c2.
Proof.
  induction 1 as [c|o o1 e d c c1 c' Hd Ht _ IH]; intros o' c2 Hr; [done|].
  rewrite <- orb_assoc. eapply tries_more; [exact Hd|exact Ht|]. by apply IH.
Qed.

(** What a selection of endpoint [i] hands out and changes, the coordinator from
    [c] to [c']. *)
Definition chosen (r i : nat) (rt : Route) (snapshot : HealthCircuitSnapshot)
    (decision : EndpointDecision) (c : C) (s : t) (x : AttemptSelection) (c' : C) (s' : t) : Prop :=
  rt_endpoints rt !! i = Some (sel_endpoint x) /\ sel_active x = Some (r, i) /\
  Some (sel_snapshot x) = snapshot_ s /\
  SelectionState.ActiveFor r i (selection_ s') =
    wrap_u32 (SelectionState.ActiveFor r i (selection_ s) + 1) /\
  (forall r' i', (r', i') <> (r, i) ->
     SelectionState.ActiveFor r' i' (selection_ s') = SelectionState.ActiveFor r' i' (selection_ s)) /\
  exists o c1, tries r snapshot o c c1 /\ links r i snapshot decision c1 (sel_link x) c'.

(** What [make_link] asks of the coordinator, and what it leaves alone. *)
Lemma make_link_spec e decision snapshot c s :
  coordinator_ s = Some c ->
  let '(res, s') := make_link e decision snapshot c s in
  (exists c', coordinator_ s' = Some c' /\ narrows (route_index_ s) snapshot c c' /\
    match res with
    | LNone => links (route_index_ s) e snapshot decision c None c' /\ overload_ s' = overload_ s
    | LRefused => exists o, turned_down (route_index_ s) e snapshot decision o c c' /\
                            overload_ s' = overload_ s || o
    | LOk l => links (route_index_ s) e snapshot decision c (Some l) c' /\ overload_ s' = overload_ s
    end) /\
  selection_ s' = selection_ s /\ route_index_ s' = route_index_ s /\
  snapshot_ s' = snapshot_ s /\ tried_ s' = tried_ s.
Proof.
  intros Hc. unfold make_link. destruct (Z.eqb_spec (decision_generation decision) 0) as [E|E].
  { split_and!; try done. exists c. split_and!; try done. by intros j. }
  set (claim := if bool_decide _ then _ else _).
  assert (Hn : narrows (route_index_ s) snapshot c claim.2 /\
    match claim.1 with
    | Some p => permit_for (route_index_ s) e snapshot decision c p claim.2
    | None => breaker_state decision = CircuitBreaker.kHalfOpen /\
              claim_probe (route_index_ s) e snapshot c = (None, claim.2)
    end).
  { unfold claim, permit_for. case_bool_decide as Hb.
    - split; [apply Eligible_mono; intros j; apply claim_keeps|].
      destruct (claim_probe _ _ _ _) as [[p|] c1]; simpl; [by rewrite decide_True|done].
    - split; [by intros j|]. simpl. by rewrite decide_False. }
  destruct claim as [[p|] c1]; destruct Hn as [Hn Hp]; simpl in Hn, Hp.
  2: { split_and!; try done. exists c1. split_and!; try done. exists false. by rewrite orb_false_r. }
  pose proof (fun j => reserve_keeps (route_index_ s) c1 (route_index_ s) j) as Hk.
  destruct (reserve_outcome (route_index_ s) c1) as [ok c2] eqn:Er; simpl in Hk.
  assert (narrows (route_index_ s) snapshot c c2) as Hn2.
  { eapply narrows_trans; [exact Hn|]. apply Eligible_mono. intros j. by rewrite Hk. }
  destruct ok; simpl; split_and!; try done; exists c2; split_and!; try done.
  - by exists c1.
  - exists true. rewrite orb_true_r. split; [|done]. split; [done|]. by exists p, c1.
Qed.

Lemma MakeSelection_spec config r rt e snapshot c s :
  ready config r rt s -> coordinator_ s = Some c -> (e < length (rt_endpoints rt))%nat ->
  Eligible c r snapshot e = true ->
  exists decision made s' c',
    decision_at r e snapshot = Some decision /\
    MakeSelection e snapshot s = Some (made, s') /\ ready config r rt s' /\
    coordinator_ s' = Some c' /\ narrows r snapshot c c' /\ tried_ s' = tried_ s /\
    match made with
    | Some x => chosen r e rt snapshot decision c s x c' s'
    | None => selection_ s' = selection_ s /\
              exists o, tries r snapshot o c c' /\ overload_ s' = overload_ s || o
    end.
Proof.
  intros [W1 W2 W3 W4 W5 W6] Hc He Hel. unfold MakeSelection. rewrite Hc, W5. simpl.
  unfold Eligible in Hel. destruct (decision_at r e snapshot) as [d|] eqn:Hdec; [|done]. simpl.
  pose proof (make_link_spec e d snapshot c s Hc) as Hm.
  destruct (make_link e d snapshot c s) as [res s1].
  destruct Hm as ((c' & Hc' & Hn & Hres) & E1 & E2 & E3 & E4). rewrite W5 in *.
  destruct (lookup_lt_is_Some_2 _ _ He) as [ep Hep].
  destruct (SelectionState.AcquireActive_spec r e (selection_ s1) rt) as (sel & Ha & Hw & Hcf & _ & Hi & Ho);
    [by rewrite E1|by rewrite E1, W2|done|].
  destruct res as [| |l]; simpl; rewrite ?E3, ?W3; simpl; rewrite ?E2, ?W4; simpl; rewrite ?Hep, ?Ha; simpl.
  2: { exists d, None, s1, c'. split_and!; try done; [constructor; congruence|].
       destruct Hres as (o & Ht & Hov). exists o. split; [|done]. rewrite <- (orb_false_r o).
       eapply tries_more; [exact Hdec|exact Ht|constructor]. }
  all: eexists d, (Some _), _, c'; split; [done|]; split; [done|]; split_and!;
    [constructor; simpl; congruence|exact Hc'|exact Hn|exact E4|].
  all: unfold chosen; simpl; rewrite W3, Hi, E1; split_and!; try done;
    [intros r' i' Hne; rewrite Ho, E1; done|]; exists false, c; split; [constructor|apply Hres].
Qed.

(** What a call of [Select] under one snapshot leaves: a selection of an
    endpoint that was untried and eligible, or nothing selected; for the
    least-active policy, the selected one is the least active, and nothing is
    selected only when no untried endpoint is eligible any more.  [over] is the
    overload flag at the start. *)
Definition outcome (least_active : bool) (r : nat) (rt : Route) (snapshot : HealthCircuitSnapshot)
    (c : C) (s : t) (over : bool) (d : AttemptDecision) (s' : t) : Prop :=
  let n := length (rt_endpoints rt) in
  tried_ s ⊆ tried_ s' /\
  exists c', coordinator_ s' = Some c' /\
  match selection d with
  | Some x =>
      coordinator_overloaded d = false /\
      exists i decision, (i < n)%nat /\ i ∉ tried_ s /\ i ∈ tried_ s' /\
        Eligible c r snapshot i = true /\ decision_at r i snapshot = Some decision /\
        chosen r i rt snapshot decision c s x c' s' /\
        (least_active = true ->
         forall j, (j < n)%nat -> j ∉ tried_ s' -> Eligible c' r snapshot j = true ->
                   SelectionState.ActiveFor r i (selection_ s) <= SelectionState.ActiveFor r j (selection_ s))
  | None =>
      (exists o, tries r snapshot o c c' /\ coordinator_overloaded d = over || o) /\
      (forall r' j, SelectionState.ActiveFor r' j (selection_ s') =
                    SelectionState.ActiveFor r' j (selection_ s)) /\
      (least_active = true ->
       forall j, (j < n)%nat -> j ∉ tried_ s' -> Eligible c' r snapshot j = false)
  end.

(** Progress that selects nothing. *)
Definition moves (r : nat) (snapshot : HealthCircuitSnapshot) (o : bool) (c : C) (s : t) (c1 : C) (s1 : t)
    : Prop :=
  tried_ s ⊆ tried_ s1 /\ snapshot_ s1 = snapshot_ s /\
  (forall r' j, SelectionState.ActiveFor r' j (selection_ s1) =
                SelectionState.ActiveFor r' j (selection_ s)) /\
  narrows r snapshot c c1 /\ tries r snapshot o c c1.

Lemma moves_selection r snapshot c s sel :
  (forall r' j, SelectionState.ActiveFor r' j sel = SelectionState.ActiveFor r' j (selection_ s)) ->
  moves r snapshot false c s c (with_selection s sel).
Proof. intros Ha. split_and!; [done|done|exact Ha|by intros j|constructor]. Qed.

Lemma chosen_from r i rt decision snapshot o c s c1 s1 x c' s' :
  moves r snapshot o c s c1 s1 -> chosen r i rt snapshot decision c1 s1 x c' s' ->
  chosen r i rt snapshot decision c s x c' s'.
Proof.
  intros (_ & Es & Ea & _ & Ht) (H1 & H2 & H3 & H4 & H5 & o2 & c2 & Ht2 & Hl). unfold chosen.
  rewrite <- Es, <- Ea. split_and!; try done.
  - intros r' i' Hne. by rewrite <- Ea, H5.
  - exists (o || o2), c2. split; [by eapply tries_app|done].
Qed.

Lemma outcome_from la r rt snapshot o c s c1 s1 over d s' :
  moves r snapshot o c s c1 s1 -> outcome la r rt snapshot c1 s1 (over || o) d s' ->
  outcome la r rt snapshot c s over d s'.
Proof.
  intros Hm (Ht & c' & Hc' & Ho). pose proof Hm as (Ht1 & _ & Ea & Hn & Htr).
  split; [set_solver|]. exists c'. split; [done|]. destruct (selection d) as [x|].
  - destruct Ho as (Hov & i & dec & H1 & H2 & H3 & H4 & H5 & H6 & H7).
    split; [done|]. exists i, dec. split_and!; [done|set_solver|done|by apply Hn|done| |].
    + by eapply chosen_from.
    + intros Hla j Hj Hjt Hel. rewrite <- !Ea. by eapply H7.
  - destruct Ho as ((o2 & Ho2 & E2) & H2 & H3). split_and!; [|intros; by rewrite H2|done].
    exists (o || o2). rewrite orb_assoc. split; [by eapply tries_app|done].
Qed.

(** [MakeSelection] for an untried, eligible endpoint: the call ends there, or
    the endpoint was refused and the rest goes on from [s']. *)
Lemma attempt_spec la config r rt i snapshot c s :
  ready config r rt s -> coordinator_ s = Some c -> (i < length (rt_endpoints rt))%nat ->
  i ∉ tried_ s -> Eligible c r snapshot i = true ->
  (la = true -> forall j, (j < length (rt_endpoints rt))%nat -> j ∉ tried_ s ->
     Eligible c r snapshot j = true ->
     SelectionState.ActiveFor r i (selection_ s) <= SelectionState.ActiveFor r j (selection_ s)) ->
  exists made s' c', MakeSelection i snapshot (with_tried s i) = Some (made, s') /\
    ready config r rt s' /\ coordinator_ s' = Some c' /\ narrows r snapshot c c' /\
    tried_ s' = {[i]} ∪ tried_ s /\
    match made with
    | Some x => forall over, outcome la r rt snapshot c s over (mkDecision (Some x) false) s'
    | None => exists o, moves r snapshot o c s c' s' /\ overload_ s' = overload_ s || o
    end.
Proof.
  intros Hr Hc Hi Hit Hel Hleast.
  assert (Hr' : ready config r rt (with_tried s i)) by (destruct Hr; by constructor).
  destruct (MakeSelection_spec config r rt i snapshot c (with_tried s i) Hr' Hc Hi Hel)
    as (dec & made & s' & c' & Hd & Hm & Hrd & Hc' & Hn & Ht & Hres).
  exists made, s', c'. simpl in Ht. split_and!; try done. destruct made as [x|].
  - intros over. split; [rewrite Ht; set_solver|]. exists c'. split; [done|]. simpl. split; [done|].
    exists i, dec. split_and!; try done; [rewrite Ht; set_solver|].
    intros Hla j Hj Hjt Hjel. rewrite Ht in Hjt. apply Hleast; [done..|set_solver|].
    by apply Hn.
  - destruct Hres as [Hsel (o & Htr & Ho)]. exists o. split; [|done]. unfold moves. rewrite Ht, Hsel.
    destruct Hr, Hrd. split_and!; [set_solver|simpl; congruence|done|done|done].
Qed.

Lemma least_active_loop_spec fuel config r rt snapshot c s :
  ready config r rt s -> coordinator_ s = Some c ->
  (base.size (set_seq (C := gset nat) 0 (length (rt_endpoints rt)) ∖ tried_ s) < fuel)%nat ->
  exists d s', least_active_loop fuel snapshot s = Some (d, s') /\ ready config r rt s' /\
    outcome true r rt snapshot c s (overload_ s) d s'.
Proof.
  revert c s. induction fuel as [|fuel IH]; intros c s Hr Hc Hf; [lia|]. simpl. rewrite Hc. simpl.
  destruct Hr as [W1 W2 W3 W4 W5 W6]. rewrite W5.
  destruct (SelectionState.least_active_call (selection_ s) r rt (tried_ s) (Eligible c r snapshot) W1
              ltac:(by rewrite W2) W6) as (w & start & sel & _ & Hst & Esel & Hsel & ->).
  assert (Hr1 : ready config r rt (with_selection s sel)) by (subst sel; by constructor).
  pose proof (SelectionState.scan_spec (tried_ s) (Eligible c r snapshot)
                (fun i => SelectionState.ActiveFor r i (selection_ s))
                (SelectionState.rotation start (length (rt_endpoints rt)))
                (fun i => SelectionState.ActiveFor_range r i _ W1)) as Hs.
  assert (Ea : forall r' j, SelectionState.ActiveFor r' j sel = SelectionState.ActiveFor r' j (selection_ s))
    by (by subst sel).
  assert (Hcand : forall j, (j < length (rt_endpoints rt))%nat -> j ∉ tried_ s ->
            SelectionState.candidate (tried_ s) (Eligible c r snapshot) j = Eligible c r snapshot j).
  { intros j _ Hj. unfold SelectionState.candidate. by rewrite bool_decide_eq_false_2. }
  destruct (SelectionState.scan _ _ _ _) as [i|].
  - destruct Hs as (Hi & Hic & Hmin & _). apply SelectionState.rotation_elem in Hi; [|done].
    unfold SelectionState.candidate in Hic. apply andb_prop in Hic as [Hit Hel].
    apply negb_true_iff, bool_decide_eq_false in Hit.
    destruct (attempt_spec true config r rt i snapshot c (with_selection s sel) Hr1 Hc Hi Hit Hel)
      as (made & s' & c' & Hm & Hr' & Hc' & Hn & Ht & Hres).
    { intros _ j Hj Hjt Hjel. simpl. rewrite !Ea. apply Hmin; [by apply SelectionState.rotation_elem|].
      by rewrite Hcand. }
    rewrite Hm. simpl. destruct made as [x|].
    + exists (mkDecision (Some x) false), s'. split_and!; [done|done|].
      eapply (outcome_from _ _ _ _ false c s c); [by apply moves_selection|apply Hres].
    + destruct Hres as (o & Hres & Hov). destruct (IH c' s' Hr' Hc') as (d & s2 & Hl & Hr2 & Ho).
      { rewrite Ht. simpl. eapply Nat.lt_le_trans; [|apply Nat.lt_succ_r, Hf]. apply subset_size.
        assert (i ∈ set_seq (C := gset nat) 0 (length (rt_endpoints rt))) by (apply elem_of_set_seq; lia).
        set_solver. }
      exists d, s2. split_and!; [done|done|]. rewrite Hov in Ho. eapply outcome_from; [|exact Ho].
      destruct Hres as (M1 & M2 & M3 & M4 & M5). split_and!; try done. intros. by rewrite M3.
  - exists (mkDecision None (overload_ s)), (with_selection s sel). split_and!; [done|done|].
    split; [done|]. exists c. split; [done|]. simpl. split_and!; [|done|].
    { exists false. rewrite orb_false_r. split; [constructor|done]. }
    intros _ j Hj Hjt. rewrite <- Hcand by done. apply Hs. by apply SelectionState.rotation_elem.
Qed.

Lemma NextWeightedIndex_spec config r rt s :
  ready config r rt s ->
  exists i sel, SelectionState.NextWeightedIndex r (selection_ s) = (Some i, sel) /\
    (i < length (rt_endpoints rt))%nat /\ ready config r rt (with_selection s sel) /\
    forall r' j, SelectionState.ActiveFor r' j sel = SelectionState.ActiveFor r' j (selection_ s).
Proof.
  intros [W1 W2 W3 W4 W5 W6].
  destruct (SelectionState.advance_found r (selection_ s) rt W1 ltac:(by rewrite W2))
    as (w & i & _ & Hi & Ha & Hw).
  unfold SelectionState.NextWeightedIndex. rewrite Ha. do 2 eexists. split; [done|]. split; [done|].
  split; [by constructor|done].
Qed.

Lemma weighted_loop_spec attempts config r rt snapshot c s :
  ready config r rt s -> coordinator_ s = Some c ->
  exists d s', weighted_loop attempts snapshot s = Some (d, s') /\ ready config r rt s' /\
    outcome false r rt snapshot c s (overload_ s) d s'.
Proof.
  revert c s. induction attempts as [|n IH]; intros c s Hr Hc.
  { exists (mkDecision None (overload_ s)), s. split_and!; [done|done|]. split; [done|]. exists c.
    split; [done|]. simpl. split_and!; try done. exists false. rewrite orb_false_r. split; [constructor|done]. }
  cbn [weighted_loop]. rewrite Hc, (rd_index _ _ _ _ Hr). simpl.
  destruct (NextWeightedIndex_spec config r rt s Hr) as (i & sel & -> & Hi & Hr1 & Ea).
  set (s1 := with_selection s sel) in *.
  assert (Hm1 : moves r snapshot false c s c s1) by (by apply moves_selection).
  assert (Hgo : forall o s2 c2, ready config r rt s2 -> coordinator_ s2 = Some c2 ->
            moves r snapshot o c s c2 s2 -> overload_ s2 = overload_ s || o ->
            exists d s', weighted_loop n snapshot s2 = Some (d, s') /\ ready config r rt s' /\
              outcome false r rt snapshot c s (overload_ s) d s').
  { intros o s2 c2 Hr2 Hc2 Hm2 Ho2. destruct (IH c2 s2 Hr2 Hc2) as (d & s' & H1 & H2 & H3).
    exists d, s'. split_and!; try done. rewrite Ho2 in H3. by eapply outcome_from. }
  case_bool_decide as Hit; [apply (Hgo false s1 c); try done; by rewrite orb_false_r|].
  assert (Hr2 : ready config r rt (with_tried s1 i)) by (destruct Hr1; by constructor).
  simpl. destruct (Eligible c _ snapshot i) eqn:Hel; rewrite ?(rd_index _ _ _ _ Hr) in Hel; simpl.
  2: { apply (Hgo false _ c); [done|done| |simpl; by rewrite orb_false_r].
       destruct Hm1 as (M1 & M2 & M3 & M4 & M5). split_and!; try done. set_solver. }
  destruct (attempt_spec false config r rt i snapshot c s1 Hr1 Hc Hi Hit Hel ltac:(done))
    as (made & s' & c' & -> & Hr' & Hc' & Hn & Ht & Hres). simpl. destruct made as [x|].
  - exists (mkDecision (Some x) false), s'. split_and!; try done. eapply outcome_from; [exact Hm1|apply Hres].
  - destruct Hres as (o & (M1 & M2 & M3 & M4 & M5) & Hov). apply (Hgo o _ c'); [done|done| |done].
    split_and!; try done. intros r' j. by rewrite M3, Ea.
Qed.


End Selector.
Arguments t : clear implicits.

(** ** The coordinator as an implementation of the interface *)

#[global] Instance coordinator_attempts : AttemptCoordinator Coordinator.t := {
  current_snapshot c := Some (Coordinator.CurrentSnapshot c);
  probe_available := Coordinator.ProbeAvailable;
  claim_probe := Coordinator.ClaimProbe;
  reserve_outcome := Coordinator.ReserveOutcome
}.

Lemma ClaimProbe_narrows r e snapshot s r' e' :
  ProbeAvailable r' e' (ClaimProbe r e snapshot s).2 = true -> ProbeAvailable r' e' s = true.
Proof.
  unfold ClaimProbe. destruct (offered r e snapshot) as [o|]; [|done].
  destruct (slots_ s !! o) as [p|] eqn:Hp; simpl; [|done].
  unfold take_slot. destruct (Z.ltb_spec 0 (remaining p)) as [Hpos|]; [|done]. simpl.
  unfold ProbeAvailable, lookup. simpl.
  destruct (endpoints_ s !! r') as [l|]; simpl; [|done]. destruct (l !! e') as [st|]; simpl; [|done].
  destruct (probe_slots st) as [o'|]; simpl; [|done]. destruct (decide (o' = o)) as [->|Hne].
  - rewrite Hp, list_lookup_insert_eq by (by eapply lookup_lt_Some). intros _. by apply Z.ltb_lt.
  - by rewrite list_lookup_insert_ne.
Qed.

#[global] Instance coordinator_laws : AttemptCoordinatorLaws Coordinator.t.
Proof.
  constructor; simpl; intros *;
    unfold Coordinator.ProbeAvailable, Coordinator.ClaimProbe, Coordinator.ReserveOutcome.
  - destruct (Coordinator.active c) eqn:Ha; simpl; [|by rewrite Ha].
    destruct (CoordinatorState.ClaimProbe r e snapshot (Coordinator.state_ c)) as [p s] eqn:E. simpl.
    unfold Coordinator.active in *. simpl. rewrite Ha. simpl. intros Hq.
    apply (ClaimProbe_narrows r e snapshot). by rewrite E.
  - destruct (Coordinator.active c) eqn:Ha; simpl; [|by rewrite Ha].
    destruct (Coordinator.outcome_channels_ c !! r) as [[ch|]|]; simpl; [|by rewrite Ha..].
    destruct (OutcomeChannel.TryReserve ch) as [ok ch']. simpl.
    unfold Coordinator.active in *. simpl. by rewrite Ha.
Qed.

(** ** Examples *)

(** Two endpoints of weights 5 and 1; the first one fails its health check and
    the second one passes. *)
Definition example_coordinator : Coordinator.t :=
  match Coordinator.make SelectionState.example_config 0 with
  | Some c => Coordinator.RecordHealthTask 0 1 true (Coordinator.RecordHealthTask 0 0 false c)
  | None => Coordinator.nothing
  end.

Definition example_selector : t Coordinator.t :=
  make SelectionState.example (Some (Some example_coordinator, Some SelectionState.example_config)) 0.

Lemma example_ready rt :
  routes SelectionState.example_config !! 0%nat = Some rt ->
  ready SelectionState.example_config 0 rt example_selector.
Proof.
  intros Hr. destruct SelectionState.example_selection_wf as [Hw Hc].
  constructor; [exact Hw|exact Hc|done|exact Hr|done|]. injection Hr as <-. discriminate.
Qed.


(** The weighted policy gives up too early: with endpoints of weights 5
    and 1 of which only the second is healthy, a fresh request's [Select] finds
    no endpoint, not because of overload, although the second endpoint is
    untried and eligible; the least-active policy selects it. *)
Theorem weighted_misses_eligible :
  exists s' x s2,
    Select false example_selector = Some (mkDecision None false, s') /\
    1%nat ∉ tried_ s' /\
    Eligible example_coordinator 0 (Coordinator.CurrentSnapshot example_coordinator) 1 = true /\
    Select true example_selector = Some (mkDecision (Some x) false, s2) /\
    ep_host (sel_endpoint x) = lit "10.0.0.2".
Proof.
  eexists _, _, _. split; [vm_compute; reflexivity|].
  split; [apply (bool_decide_unpack _); vm_compute; exact I|].
  split; [vm_compute; reflexivity|]. split; vm_compute; reflexivity.
Qed.

End AttemptSelector.
