(* ===== verification/UpstreamConnection.v ===== *)
(** * One exchange with an upstream

    Models src/src/net/UpstreamConnection.cpp: connecting, writing the
    serialized request, reading the response in the buffered or the streaming
    mode, pausing and resuming, and the keep-alive decision.  The operating
    system and the owner's callbacks are the interface [UpstreamEnv]; what the
    connection tells its owner, and what it receives, is recorded in a log. *)

From S2P Require Import Prelude Effects Bytes Types Buffer HttpText HttpRequest RequestSerializer HttpResponse.

Module UpstreamConnection.
Import HttpText HttpRequestParser HttpRequestSerializer HttpResponse.

Inductive UpstreamResult :=
| kSuccess | kConnectError | kWriteError | kReadError | kEof | kProtocolError | kUnsupported.

Inductive UpstreamProgress := kConnected | kRequestWritten | kFirstByte | kResponseHeader.

Inductive State := kIdle | kConnecting | kWriting | kReading | kFinished.

#[global] Instance UpstreamResult_eq_dec : EqDecision UpstreamResult.
Proof. solve_decision. Defined.
#[global] Instance State_eq_dec : EqDecision State.
Proof. solve_decision. Defined.

(** ** The system calls and the callbacks *)

Inductive connect_result := CError | CInProgress | CConnected.
Inductive recv_result := RData (b : byte) (bs : bytes) | RClosed | RInterrupted | RAgain | RError.
Inductive send_result := SCount (n : nat) | SInterrupted | SAgain | SError.

(** What the body sink answered, and whether it asked to pause reading. *)
Record body_reply := mkReply { accepted : bool; pauses : bool }.

(** [W] is the state of everything outside the connection.  [None] of
    [pending_error] is its exception; [false] of [create_socket] is its. *)
Class UpstreamEnv (W : Type) := {
  create_socket : W -> bool * W;
  set_socket_buffer : W -> bool * W;
  connect : ipv4 -> Z -> W -> connect_result * W;
  pending_error : W -> option Z * W;
  recv : W -> recv_result * W;
  peek : W -> recv_result * W;
  send : bytes -> W -> send_result * W;
  on_progress : UpstreamProgress -> W -> W;
  on_head : HttpResponseHead -> W -> W;
  on_body : bytes -> W -> body_reply * W;
  on_result : UpstreamResult -> HttpResponse -> W -> W
}.

Inductive event :=
| EReceived (bs : bytes)
| ESent (bs : bytes)
| EProgress (p : UpstreamProgress)
| EHead (h : HttpResponseHead)
| EBody (bs : bytes) (kept : bool)
| EResult (r : UpstreamResult) (response : HttpResponse).

(** ** State *)

Record Channel := mkChannel { reading : bool; writing : bool }.

(** Which callbacks are installed. *)
Record Callbacks := mkCallbacks {
  callback_ : bool;
  progress_callback_ : bool;
  header_callback_ : bool;
  body_sink_ : bool
}.

Record t := mk {
  address_ : ipv4;
  port_ : Z;
  socket_ : bool;
  channel_ : option Channel;
  input_ : Buffer.t;
  output_ : Buffer.t;
  parser_ : HttpResponseParser.t;
  callbacks : Callbacks;
  state_ : State;
  reusable_ : bool;
  first_byte_reported_ : bool;
  response_header_reported_ : bool;
  header_reported_ : bool;
  reading_paused_ : bool
}.

Definition make (endpoint : Endpoint) (callback : bool) : t :=
  mk (ep_address endpoint) (ep_port endpoint) false None Buffer.empty Buffer.empty
     HttpResponseParser.make (mkCallbacks callback false false false) kIdle false false false false false.

Definition set_io (s : bool) (ch : option Channel) (st : State) (c : t) : t :=
  mk (address_ c) (port_ c) s ch (input_ c) (output_ c) (parser_ c) (callbacks c) st (reusable_ c)
     (first_byte_reported_ c) (response_header_reported_ c) (header_reported_ c) (reading_paused_ c).
Definition set_state (st : State) (c : t) : t := set_io (socket_ c) (channel_ c) st c.
Definition set_channel (ch : option Channel) (c : t) : t := set_io (socket_ c) ch (state_ c) c.
Definition set_buffers (i o : Buffer.t) (p : HttpResponseParser.t) (c : t) : t :=
  mk (address_ c) (port_ c) (socket_ c) (channel_ c) i o p (callbacks c) (state_ c) (reusable_ c)
     (first_byte_reported_ c) (response_header_reported_ c) (header_reported_ c) (reading_paused_ c).
Definition set_callbacks (k : Callbacks) (c : t) : t :=
  mk (address_ c) (port_ c) (socket_ c) (channel_ c) (input_ c) (output_ c) (parser_ c) k (state_ c)
     (reusable_ c) (first_byte_reported_ c) (response_header_reported_ c) (header_reported_ c)
     (reading_paused_ c).
Definition set_flags (reusable first header1 header2 paused : bool) (c : t) : t :=
  mk (address_ c) (port_ c) (socket_ c) (channel_ c) (input_ c) (output_ c) (parser_ c) (callbacks c)
     (state_ c) reusable first header1 header2 paused.
Definition set_paused (paused : bool) (c : t) : t :=
  set_flags (reusable_ c) (first_byte_reported_ c) (response_header_reported_ c) (header_reported_ c)
            paused c.

Definition interest (r w : bool) (ch : option Channel) : option Channel := (fun _ => mkChannel r w) <$> ch.
Definition enable_writing (ch : option Channel) : option Channel :=
  (fun k => mkChannel (reading k) true) <$> ch.
Definition disable_writing (ch : option Channel) : option Channel :=
  (fun k => mkChannel (reading k) false) <$> ch.
Definition set_reading (b : bool) (ch : option Channel) : option Channel :=
  (fun k => mkChannel b (writing k)) <$> ch.

(** ** RequestsClose *)

(** The tokens of one Connection value, in order. *)
Fixpoint close_token (fuel : nat) (value : bytes) : bool :=
  match fuel with
  | O => false
  | S fuel =>
      if bool_decide (value = []) then false
      else
        let comma := find value [COMMA] in
        let token := TrimOws (match comma with Some n => take n value | None => value end) in
        if beq (lower_all token) (lit "close") then true
        else match comma with
             | None => false
             | Some n => close_token fuel (drop (S n) value)
             end
  end.

Definition RequestsClose (hs : header_list) : bool :=
  existsb (fun f => beq (lower_all f.1) (lit "connection") && close_token (length f.2) f.2) hs.

Section Connection.
Local Open Scope effect_scope.
Context {W : Type} `{UpstreamEnv W}.

Record machine := mkMachine { conn : t; world : W; log : list event }.

Definition get {A : Type} (f : t -> A) : M machine A := gets (fun m => f (conn m)).

Definition update (f : t -> t) : M machine unit :=
  modify (fun m => mkMachine (f (conn m)) (world m) (log m)).

Definition record (e : event) : M machine unit :=
  modify (fun m => mkMachine (conn m) (world m) (log m ++ [e])).

(** A system call or a callback. *)
Definition call {A : Type} (f : W -> A * W) : M machine A := fun m =>
  let '(a, w) := f (world m) in Ret a (mkMachine (conn m) w (log m)).

Definition need_socket : M machine unit :=
  s <- get (fun c => socket_ c) ;; if s then ret tt else stuck.

Definition need_channel : M machine unit :=
  ch <- get (fun c => channel_ c) ;; match ch with Some _ => ret tt | None => stuck end.

Definition report_progress (p : UpstreamProgress) : M machine unit :=
  k <- get (fun c => progress_callback_ (callbacks c)) ;;
  if k then record (EProgress p);; call (fun w => (tt, on_progress p w)) else ret tt.

(** [EINTR] retries. *)
Fixpoint PeerHasClosedOrSentExtraBytes (fuel : nat) : M machine bool :=
  match fuel with
  | O => spin
  | S fuel =>
      need_socket;;
      r <- call peek ;;
      match r with
      | RData _ _ | RClosed => ret true
      | RInterrupted => PeerHasClosedOrSentExtraBytes fuel
      | RAgain => ret false
      | RError => ret true
      end
  end.

Definition requests_close (c : t) : bool :=
  if body_sink_ (callbacks c) then RequestsClose (head_headers (HttpResponseParser.head_ (parser_ c)))
  else RequestsClose (headers (HttpResponseParser.response_ (parser_ c))).

Definition Close : M machine unit :=
  c <- get (fun c => c) ;;
  if bool_decide (state_ c = kFinished) then ret tt
  else update (set_io false None kFinished).

Definition call_result (callback : bool) (r : UpstreamResult) (response : HttpResponse) : M machine unit :=
  if callback then record (EResult r response);; call (fun w => (tt, on_result r response w)) else ret tt.

(** What [Finish] does to the connection. *)
Definition finish_state (keep_alive : bool) (c : t) : t :=
  if keep_alive then
    set_callbacks (mkCallbacks false false false false)
      (set_flags true (first_byte_reported_ c) (response_header_reported_ c) (header_reported_ c)
                 (reading_paused_ c)
                 (set_io (socket_ c) (interest false false (channel_ c)) kIdle c))
  else
    set_callbacks (mkCallbacks false (progress_callback_ (callbacks c)) (header_callback_ (callbacks c))
                               (body_sink_ (callbacks c)))
      (set_io false None kFinished c).

Definition Finish (fuel : nat) (result : UpstreamResult) : M machine unit :=
  c <- get (fun c => c) ;;
  if bool_decide (state_ c = kFinished) then ret tt
  else
    keep_alive <-
      (if bool_decide (result = kSuccess) && bool_decide (Buffer.ReadableBytes (input_ c) = 0%nat)
          && negb (requests_close c)
       then closed <- PeerHasClosedOrSentExtraBytes fuel ;; ret (negb closed) else ret false) ;;
    let response := if bool_decide (result = kSuccess) then HttpResponseParser.response_ (parser_ c)
                    else default_response in
    let callback := callback_ (callbacks c) in
    update (finish_state keep_alive);;
    call_result callback result response.

Definition PauseReading : M machine unit :=
  update (fun c =>
    if negb (body_sink_ (callbacks c)) || negb (bool_decide (state_ c = kReading))
       || negb (bool_decide (is_Some (channel_ c))) then c
    else set_channel (set_reading false (channel_ c)) (set_paused true c)).

(** [parser_.ConsumeBody(input_, body_sink_)]: the segment the parser offers,
    the sink's answer, and the parser's step with that answer. *)
Definition offered (p : HttpResponseParser.t) (input : Buffer.t) : option bytes :=
  if negb (HttpResponseParser.headers_complete_ p)
     || negb (bool_decide (HttpResponseParser.result_ p = kNeedMoreData))
     || HttpResponseParser.body_complete_ p then None
  else
    let view := Buffer.ReadableView input in
    let n := Z.min (HttpResponseParser.remaining_body_ p) (size view) in
    if n =? 0 then None else Some (take (Z.to_nat n) view).

Definition run_sink (segment : bytes) : M machine bool :=
  reply <- call (on_body segment) ;;
  record (EBody segment (accepted reply));;
  (if pauses reply then PauseReading else ret tt);;
  ret (accepted reply).

Definition ConsumeBody : M machine ParseResult :=
  c <- get (fun c => c) ;;
  kept <- (match offered (parser_ c) (input_ c) with
          | Some segment => run_sink segment
          | None => ret true
          end) ;;
  match HttpResponseParser.ConsumeBody (fun _ => kept) (parser_ c) (input_ c) with
  | None => throw
  | Some (r, p, b, _) => update (fun c => set_buffers b (output_ c) p c);; ret r
  end.

Definition ConsumeStreamingInput (fuel : nat) : M machine bool :=
  c <- get (fun c => c) ;;
  if negb (header_reported_ c) then
    match HttpResponseParser.ParseHeaders (parser_ c) (input_ c) with
    | None => throw
    | Some (r, p, b) =>
        update (fun c => set_buffers b (output_ c) p c);;
        match r with
        | kError => Finish fuel kProtocolError;; ret false
        | HttpRequestParser.kUnsupported => Finish fuel kUnsupported;; ret false
        | kNeedMoreData => ret true
        | kComplete =>
            update (fun c => set_flags (reusable_ c) (first_byte_reported_ c)
                               (response_header_reported_ c) true (reading_paused_ c) c);;
            (if header_callback_ (callbacks c)
             then record (EHead (HttpResponseParser.head_ p));;
                  call (fun w => (tt, on_head (HttpResponseParser.head_ p) w))
             else ret tt);;
            if HttpResponseParser.body_complete_ p then Finish fuel kSuccess;; ret false
            else ret true
        end
    end
  else if HttpResponseParser.body_complete_ (parser_ c) then Finish fuel kSuccess;; ret false
  else
    r <- ConsumeBody ;;
    if bool_decide (r = kComplete) then Finish fuel kSuccess;; ret false
    else
      left <- get (fun c => Buffer.ReadableBytes (input_ c)) ;;
      if negb (bool_decide (left = 0%nat)) then PauseReading;; ret false
      else ret true.

(** [input_.Append] and the first-byte report. *)
Definition take_bytes (bs : bytes) : M machine unit :=
  record (EReceived bs);;
  update (fun c => set_buffers (Buffer.Append bs (input_ c)) (output_ c) (parser_ c) c);;
  first <- get (fun c => first_byte_reported_ c) ;;
  if first then ret tt
  else
    update (fun c => set_flags (reusable_ c) true (response_header_reported_ c) (header_reported_ c)
                       (reading_paused_ c) c);;
    report_progress kFirstByte.

Fixpoint HandleStreamingRead (fuel : nat) : M machine unit :=
  match fuel with
  | O => spin
  | S fuel =>
      c <- get (fun c => c) ;;
      if reading_paused_ c then ret tt
      else if negb (bool_decide (Buffer.ReadableBytes (input_ c) = 0%nat)) then
        go <- ConsumeStreamingInput fuel ;; if go then HandleStreamingRead fuel else ret tt
      else
        need_socket;;
        r <- call recv ;;
        match r with
        | RData b bs =>
            take_bytes (b :: bs);;
            go <- ConsumeStreamingInput fuel ;; if go then HandleStreamingRead fuel else ret tt
        | RClosed => Finish fuel kEof
        | RInterrupted => HandleStreamingRead fuel
        | RAgain => ret tt
        | RError => Finish fuel kReadError
        end
  end.

(** The [kResponseHeader] report of the buffered mode. *)
Definition note_header (p : HttpResponseParser.t) : M machine unit :=
  reported <- get (fun c => response_header_reported_ c) ;;
  if HttpResponseParser.headers_complete_ p && negb reported then
    update (fun c => set_flags (reusable_ c) (first_byte_reported_ c) true (header_reported_ c)
                       (reading_paused_ c) c);;
    report_progress kResponseHeader
  else ret tt.

(** The buffered mode. *)
Fixpoint read_loop (fuel : nat) : M machine unit :=
  match fuel with
  | O => spin
  | S fuel =>
      need_socket;;
      r <- call recv ;;
      match r with
      | RData b bs =>
          take_bytes (b :: bs);;
          c <- get (fun c => c) ;;
          match HttpResponseParser.Parse (parser_ c) (input_ c) with
          | None => throw
          | Some (r, p, i) =>
              update (fun c => set_buffers i (output_ c) p c);;
              note_header p;;
              match r with
              | kNeedMoreData => read_loop fuel
              | kComplete => Finish fuel kSuccess
              | kError => Finish fuel kProtocolError
              | HttpRequestParser.kUnsupported => Finish fuel kUnsupported
              end
          end
      | RClosed => Finish fuel kEof
      | RInterrupted => read_loop fuel
      | RAgain => ret tt
      | RError => Finish fuel kReadError
      end
  end.

(** The send loop; [true] when everything was written. *)
Fixpoint write_loop (fuel : nat) : M machine bool :=
  match fuel with
  | O => spin
  | S fuel =>
      c <- get (fun c => c) ;;
      if bool_decide (Buffer.ReadableBytes (output_ c) = 0%nat) then ret true
      else
        need_socket;;
        r <- call (send (Buffer.ReadableView (output_ c))) ;;
        match r with
        | SCount (S n) =>
            match Buffer.Retrieve (S n) (output_ c) with
            | None => throw
            | Some o =>
                record (ESent (take (S n) (Buffer.ReadableView (output_ c))));;
                update (fun c => set_buffers (input_ c) o (parser_ c) c);; write_loop fuel
            end
        | SInterrupted => write_loop fuel
        | SAgain =>
            need_channel;; update (fun c => set_channel (enable_writing (channel_ c)) c);; ret false
        | SCount O | SError => Finish fuel kWriteError;; ret false
        end
  end.

(** The connecting part; [false] when it ended in an error. *)
Definition finish_connect (fuel : nat) : M machine bool :=
  need_socket;;
  e <- call pending_error ;;
  match e with
  | Some 0 => update (set_state kWriting);; report_progress kConnected;; ret true
  | _ => Finish fuel kConnectError;; ret false
  end.

(** The rest of [HandleWrite]. *)
Definition write_request (fuel : nat) : M machine unit :=
  st <- get (fun c => state_ c) ;;
  if negb (bool_decide (st = kWriting)) then ret tt
  else
    written <- write_loop fuel ;;
    if negb (written : bool) then ret tt
    else
      need_channel;;
      update (fun c => set_io (socket_ c) (disable_writing (channel_ c)) kReading c);;
      report_progress kRequestWritten;;
      update (fun c => set_channel (set_reading true (channel_ c)) c).

Definition HandleWrite (fuel : nat) : M machine unit :=
  c <- get (fun c => c) ;;
  go <- (if bool_decide (state_ c = kConnecting) then finish_connect fuel else ret true) ;;
  if negb go then ret tt else write_request fuel.

Definition HandleRead (fuel : nat) : M machine unit :=
  c <- get (fun c => c) ;;
  if bool_decide (state_ c = kConnecting) || bool_decide (state_ c = kWriting) then HandleWrite fuel
  else if negb (bool_decide (state_ c = kReading)) then ret tt
  else if body_sink_ (callbacks c) then HandleStreamingRead fuel
  else read_loop fuel.

Definition ResumeReading (fuel : nat) : M machine unit :=
  c <- get (fun c => c) ;;
  if negb (body_sink_ (callbacks c)) || negb (bool_decide (state_ c = kReading))
     || negb (bool_decide (is_Some (channel_ c))) || negb (reading_paused_ c) then ret tt
  else
    update (fun c => set_channel (set_reading true (channel_ c)) (set_paused false c));;
    if negb (bool_decide (Buffer.ReadableBytes (input_ c) = 0%nat)) then HandleRead fuel else ret tt.

(** The part of [Start] that opens a new socket. *)
Definition open_socket (fuel : nat) : M machine unit :=
  made <- call create_socket ;;
  if negb made then throw
  else
    update (fun c => set_io true (channel_ c) (state_ c) c);;
    sent <- call set_socket_buffer ;;
    if negb sent then Finish fuel kConnectError
    else
      received <- call set_socket_buffer ;;
      if negb received then Finish fuel kConnectError
      else
        update (fun c => set_io (socket_ c) (Some (mkChannel false false)) kConnecting c);;
        c <- get (fun c => c) ;;
        r <- call (connect (address_ c) (port_ c)) ;;
        match r with
        | CError => Finish fuel kConnectError
        | CInProgress => update (fun c => set_channel (enable_writing (channel_ c)) c)
        | CConnected =>
            update (fun c => set_channel (enable_writing (channel_ c)) c);; HandleWrite fuel
        end.

(** [fields] is the iteration order of the request's headers. *)
Definition Start (fuel : nat) (fields : list (bytes * bytes)) (request : HttpRequest) : M machine unit :=
  c <- get (fun c => c) ;;
  if negb (bool_decide (state_ c = kIdle)) then throw
  else
    update (fun c => set_flags false false false false false
                       (set_buffers (Buffer.RetrieveAll (input_ c)) (Buffer.RetrieveAll (output_ c))
                          (HttpResponseParser.Reset (beq (method request) (lit "HEAD")) (parser_ c)) c));;
    match SerializeRequest fields request with
    | None => Finish fuel kProtocolError
    | Some text =>
        update (fun c => set_buffers (input_ c) (Buffer.Append text (output_ c)) (parser_ c) c);;
        if socket_ c then
          update (set_state kWriting);;
          report_progress kConnected;;
          need_channel;;
          update (fun c => set_channel (enable_writing (channel_ c)) c);;
          HandleWrite fuel
        else open_socket fuel
    end.

Definition SuppressCallbacks : M machine unit :=
  update (set_callbacks (mkCallbacks false false false false)).

(** What the event loop and the owner may call during an exchange. *)
Inductive owner_call := CallRead | CallWrite | CallPause | CallResume | CallSuppress | CallClose.

Definition run_call (fuel : nat) (o : owner_call) : M machine unit :=
  match o with
  | CallRead => HandleRead fuel
  | CallWrite => HandleWrite fuel
  | CallPause => PauseReading
  | CallResume => ResumeReading fuel
  | CallSuppress => SuppressCallbacks
  | CallClose => Close
  end.

Fixpoint run_calls (fuel : nat) (os : list owner_call) : M machine unit :=
  match os with
  | [] => ret tt
  | o :: os => run_call fuel o;; run_calls fuel os
  end.

(** The three setters; the callbacks may only change while idle. *)
Definition SetCallbacks (response progress header body : bool) : M machine unit :=
  c <- get (fun c => c) ;;
  if negb (bool_decide (state_ c = kIdle)) then throw
  else update (set_callbacks (mkCallbacks response progress header body)).

Definition Reusable (c : t) : bool := bool_decide (state_ c = kIdle) && reusable_ c.

Definition HealthyForReuse (fuel : nat) : M machine bool :=
  c <- get (fun c => c) ;;
  if negb (Reusable c) then ret false
  else
    closed <- PeerHasClosedOrSentExtraBytes fuel ;;
    if negb (closed : bool) then ret true else Close;; ret false.

(** ** What an exchange guarantees *)

(** [send] accepts at most what it was given. *)
Class UpstreamEnvLaws : Prop := {
  send_bounded bs w n w' : send bs w = (SCount n, w') -> (n <= length bs)%nat
}.

Definition received (l : list event) : bytes :=
  concat (omap (fun e => match e with EReceived bs => Some bs | _ => None end) l).
Definition delivered (l : list event) : bytes :=
  concat (omap (fun e => match e with EBody bs true => Some bs | _ => None end) l).
Definition heads (l : list event) : list HttpResponseHead :=
  omap (fun e => match e with EHead h => Some h | _ => None end) l.
Definition results (l : list event) : list (UpstreamResult * HttpResponse) :=
  omap (fun e => match e with EResult r x => Some (r, x) | _ => None end) l.

(** The received bytes are a complete response that ends at offset [n], and it
    was handed over completely: to the body sink, or in the result. *)
Definition complete_response (sink h : bool) (l : list event) (response : HttpResponse) (n : nat) : Prop :=
  exists ph resp,
    HttpResponseParser.ParseHeaderArea h (received l) = inr ph /\
    HttpResponseParser.buffered h ph (received l) = Some (resp, n) /\
    if sink then heads l = [(HttpResponseParser.head_of h ph 0).1.1] /\ delivered l = body resp
    else response = resp.

(** At most one result; a success means a complete response, without any
    further byte if the connection was [kept]. *)
Definition results_ok (sink h kept : bool) (l : list event) : Prop :=
  results l = [] \/
  exists r response, results l = [(r, response)] /\
    (r = kSuccess -> exists n, complete_response sink h l response n /\
                               (kept = true -> drop n (received l) = [])).

Definition no_callbacks : Callbacks := mkCallbacks false false false false.

(** How far the parser is. *)
Definition reading_ok (sink h : bool) (c : t) (l : list event) : Prop :=
  if sink then
    if header_reported_ c then
      exists ph, HttpResponseParser.ParseHeaderArea h (received l) = inr ph /\
        HttpResponseParser.streamed h (received l) (parser_ c, input_ c, delivered l) /\
        heads l = [(HttpResponseParser.head_of h ph 0).1.1]
    else
      parser_ c = HttpResponseParser.Reset h HttpResponseParser.make /\
      Buffer.ReadableView (input_ c) = received l /\ delivered l = [] /\ heads l = []
  else
    exists hc, parser_ c = HttpResponseParser.mk kNeedMoreData hc h default_response default_head 0 false /\
               Buffer.ReadableView (input_ c) = received l.

(** The exchange is under way: callbacks installed and no result yet, or
    suppressed. *)
Definition active_ok (sink h : bool) (c : t) (l : list event) : Prop :=
  results l = [] /\
  (callbacks c = no_callbacks \/
   callbacks c = mkCallbacks true (progress_callback_ (callbacks c)) sink sink /\ reading_ok sink h c l).

Definition buffers_ok (c : t) : Prop := Buffer.wf (input_ c) /\ Buffer.wf (output_ c).

Definition exchange (sink h : bool) (m : machine) : Prop :=
  let c := conn m in
  buffers_ok c /\
  match state_ c with
  | kIdle => (socket_ c = true -> is_Some (channel_ c)) /\ results_ok sink h true (log m)
  | kFinished => results_ok sink h false (log m)
  | _ => socket_ c = true /\ is_Some (channel_ c) /\ active_ok sink h c (log m)
  end.

(** What [Finish r] may be called on. *)
Definition finishing (sink h : bool) (r : UpstreamResult) (m : machine) : Prop :=
  let c := conn m in
  buffers_ok c /\ state_ c <> kFinished /\
  (r = kSuccess -> socket_ c = true /\ is_Some (channel_ c)) /\
  results (log m) = [] /\
  (callbacks c = no_callbacks \/
   callbacks c = mkCallbacks true (progress_callback_ (callbacks c)) sink sink /\
   (r = kSuccess -> exists n, complete_response sink h (log m) (HttpResponseParser.response_ (parser_ c)) n /\
                              Buffer.ReadableView (input_ c) = drop n (received (log m)))).

Context {Hlaws : UpstreamEnvLaws}.

Lemma wp_get {A : Type} (f : t -> A) Q E m : Q (f (conn m)) m -> wp (get f) Q E m.
Proof. done. Qed.

Lemma wp_update f Q E m : Q tt (mkMachine (f (conn m)) (world m) (log m)) -> wp (update f) Q E m.
Proof. done. Qed.

Lemma wp_record e Q E m : Q tt (mkMachine (conn m) (world m) (log m ++ [e])) -> wp (record e) Q E m.
Proof. done. Qed.

Lemma wp_call {A : Type} (f : W -> A * W) Q E m :
  (forall a w, f (world m) = (a, w) -> Q a (mkMachine (conn m) w (log m))) -> wp (call f) Q E m.
Proof. intros HQ. unfold wp, call. destruct (f (world m)) as [a w] eqn:Ef. by apply HQ. Qed.

Lemma wp_need_socket Q E m : socket_ (conn m) = true -> Q tt m -> wp need_socket Q E m.
Proof. intros Hs HQ. unfold need_socket. apply wp_bind, wp_get. by rewrite Hs. Qed.

Lemma wp_need_channel Q E m : is_Some (channel_ (conn m)) -> Q tt m -> wp need_channel Q E m.
Proof. intros [ch Hs] HQ. unfold need_channel. apply wp_bind, wp_get. by rewrite Hs. Qed.

(** Events that carry neither input nor answers. *)
Definition quiet (e : event) : bool :=
  match e with ESent _ | EProgress _ => true | _ => false end.

Lemma quiet_log l e :
  quiet e = true ->
  received (l ++ [e]) = received l /\ delivered (l ++ [e]) = delivered l /\
  heads (l ++ [e]) = heads l /\ results (l ++ [e]) = results l.
Proof.
  unfold received, delivered, heads, results. rewrite !omap_app, !concat_app.
  destruct e; simpl; rewrite ?app_nil_r; done.
Qed.

Record same_log (l l' : list event) : Prop := {
  same_received : received l' = received l;
  same_delivered : delivered l' = delivered l;
  same_heads : heads l' = heads l;
  same_results : results l' = results l
}.

Lemma same_log_refl l : same_log l l.
Proof. done. Qed.

Lemma results_ok_same sink h kept l l' : same_log l l' -> results_ok sink h kept l -> results_ok sink h kept l'.
Proof. intros [E1 E2 E3 E4]. unfold results_ok, complete_response. by rewrite E1, E2, E3, E4. Qed.

Lemma reading_ok_same sink h c l l' : same_log l l' -> reading_ok sink h c l -> reading_ok sink h c l'.
Proof. intros [E1 E2 E3 E4]. unfold reading_ok. by rewrite E1, E2, E3. Qed.

Lemma active_ok_same sink h c l l' : same_log l l' -> active_ok sink h c l -> active_ok sink h c l'.
Proof.
  intros Hs [Hr Hc]. split; [by rewrite (same_results _ _ Hs)|].
  destruct Hc as [Hc|[Hc Hp]]; [by left|right]. split; [done|]. by eapply reading_ok_same.
Qed.

(** A success that need not have been kept. *)
Lemma results_ok_weaken sink h kept l : results_ok sink h kept l -> results_ok sink h false l.
Proof.
  intros [Hr|(r & x & Hr & Hs)]; [by left|right]. exists r, x. split; [done|].
  intros E. destruct (Hs E) as (n & Hn & _). by exists n.
Qed.

Lemma report_progress_spec p Q E m :
  (forall m', conn m' = conn m -> same_log (log m) (log m') -> Q tt m') ->
  wp (report_progress p) Q E m.
Proof.
  intros HQ. unfold report_progress. apply wp_bind, wp_get, wp_if; intros _; [|by apply wp_ret, HQ].
  apply wp_bind, wp_record, wp_call. intros [] w _. apply HQ; [done|].
  destruct (quiet_log (log m) (EProgress p) eq_refl) as (? & ? & ? & ?). by constructor.
Qed.

Lemma peer_spec fuel Q E m :
  socket_ (conn m) = true ->
  (forall b m', conn m' = conn m -> log m' = log m -> Q b m') ->
  wp (PeerHasClosedOrSentExtraBytes fuel) Q E m.
Proof.
  revert m. induction fuel as [|fuel IH]; intros m Hs HQ; [done|]. simpl.
  apply wp_bind, wp_need_socket; [done|]. apply wp_bind, wp_call. intros r w _.
  destruct r; try (apply wp_ret; by apply HQ). apply IH; [done|]. intros b m' Hc Hl. by apply HQ.
Qed.

(** A connection with no result is closed, kept or failed with one. *)
Lemma results_after l r x : results l = [] -> results (l ++ [EResult r x]) = [(r, x)].
Proof. unfold results. rewrite omap_app. simpl. by intros ->. Qed.

Lemma log_result l r x :
  received (l ++ [EResult r x]) = received l /\ delivered (l ++ [EResult r x]) = delivered l /\
  heads (l ++ [EResult r x]) = heads l.
Proof.
  unfold received, delivered, heads. rewrite !omap_app, !concat_app. simpl. by rewrite !app_nil_r.
Qed.

Definition ended (m : machine) : Prop := state_ (conn m) = kIdle \/ state_ (conn m) = kFinished.

Lemma call_result_spec sink h (callback : bool) r x Q E m :
  ended m -> exchange sink h (mkMachine (conn m) (world m) (if callback then log m ++ [EResult r x] else log m)) ->
  (forall m', exchange sink h m' -> ended m' -> Q tt m') ->
  wp (call_result callback r x) Q E m.
Proof.
  intros He Hx HQ. unfold call_result. destruct callback.
  - apply wp_bind, wp_record, wp_call. intros [] w _. by apply HQ.
  - apply wp_ret, HQ; [by destruct m|done].
Qed.

Lemma view_empty b : Buffer.ReadableBytes b = 0%nat -> Buffer.ReadableView b = [].
Proof. intros Hb. apply length_zero_iff_nil. by rewrite Buffer.length_view. Qed.

Lemma Finish_spec sink h fuel r Q E m :
  finishing sink h r m ->
  (forall m', exchange sink h m' -> ended m' -> Q tt m') ->
  wp (Finish fuel r) Q E m.
Proof.
  intros (Hb & Hst & Hsock & Hr & Hcb) HQ. unfold Finish. apply wp_bind, wp_get.
  rewrite bool_decide_eq_false_2 by done.
  set (x := if bool_decide (r = kSuccess) then _ else _).
  assert (Hdone : forall keep m1, conn m1 = conn m -> log m1 = log m ->
    (keep = true -> r = kSuccess /\ Buffer.ReadableBytes (input_ (conn m)) = 0%nat) ->
    wp (update (finish_state keep);; call_result (callback_ (callbacks (conn m))) r x) Q E m1).
  { intros keep m1 Hc Hl Hkeep.
    assert (Hres : results_ok sink h keep (if callback_ (callbacks (conn m))
                     then log m ++ [EResult r x] else log m)).
    { destruct Hcb as [-> |[-> Hok]]; simpl; [by left|].
      right. exists r, x. split; [by apply results_after|]. intros ->.
      destruct (Hok eq_refl) as (n & Hn & Hv). exists n.
      destruct (log_result (log m) kSuccess x) as (L1 & L2 & L3).
      unfold complete_response in *. rewrite L1, L2, L3. split; [done|].
      intros ->. destruct (Hkeep eq_refl) as [_ Hz]. rewrite <- Hv. by apply view_empty. }
    apply wp_bind, wp_update. eapply call_result_spec; [| |exact HQ].
    - unfold ended, finish_state. destruct keep; simpl; auto.
    - destruct m1 as [c1 w1 l1]; simpl in Hc, Hl; subst c1 l1. unfold finish_state.
      split; destruct keep; simpl; [exact Hb..| |exact Hres]. split; [|exact Hres].
      intros _. destruct (Hkeep eq_refl) as [E1 _]. destruct (Hsock E1) as [_ [ch ->]]. by eexists. }
  apply wp_bind, wp_if.
  - intros Hk. apply andb_prop in Hk as [Hk _]. apply andb_prop in Hk as [E1 Hz].
    apply bool_decide_eq_true in E1, Hz. apply wp_bind, peer_spec; [by apply Hsock|].
    intros b m1 Hc Hl. apply wp_ret, Hdone; [done|done|]. by intros _.
  - intros _. apply wp_ret, Hdone; [done|done|]. done.
Qed.

(** ** The parser's answers *)

Lemma Retrieve_wf n b : Buffer.wf b -> (n <= length (Buffer.ReadableView b))%nat ->
  exists b', Buffer.Retrieve n b = Some b' /\ Buffer.wf b' /\
             Buffer.ReadableView b' = drop n (Buffer.ReadableView b).
Proof. intros Hw Hn. apply Buffer.Retrieve_view; [done|]. by rewrite <- Buffer.length_view. Qed.

Lemma header_end_le h s ph :
  HttpResponseParser.ParseHeaderArea h s = inr ph -> (HttpResponseParser.p_header_end ph <= length s)%nat.
Proof. intros Hp. pose proof (HttpResponseParser.area_extend h s []) as Hx. rewrite Hp in Hx. apply Hx. Qed.

Lemma buffered_end h ph s resp n :
  HttpResponseParser.ParseHeaderArea h s = inr ph ->
  HttpResponseParser.buffered h ph s = Some (resp, n) -> (n <= length s)%nat.
Proof.
  intros Hp Hb. pose proof (header_end_le _ _ _ Hp).
  pose proof (HttpResponseParser.area_length _ _ _ Hp).
  destruct (HttpResponseParser.buffered_spec _ _ _ _ _ ltac:(done) ltac:(done) Hb) as (_ & -> & _ & _ & Hd).
  unfold size in Hd. lia.
Qed.

Lemma streamed_complete h s ph p b d :
  HttpResponseParser.ParseHeaderArea h s = inr ph ->
  HttpResponseParser.streamed h s (p, b, d) -> HttpResponseParser.body_complete_ p = true ->
  exists resp n, HttpResponseParser.buffered h ph s = Some (resp, n) /\ body resp = d /\
                 Buffer.ReadableView b = drop n s.
Proof.
  intros Hp Hs Hc. pose proof (header_end_le _ _ _ Hp) as He.
  pose proof (HttpResponseParser.area_length _ _ _ Hp) as Hl.
  unfold HttpResponseParser.streamed in Hs. rewrite Hp in Hs.
  destruct Hs as (_ & _ & Hv & _ & Hbc & _). rewrite Hc in Hbc. symmetry in Hbc.
  apply bool_decide_eq_true in Hbc.
  assert (Hsz : size s - Z.of_nat (HttpResponseParser.p_header_end ph) = size d + size (Buffer.ReadableView b)).
  { apply (f_equal length) in Hv. rewrite length_app, length_drop in Hv. unfold size. lia. }
  assert (Hd : exists resp n, HttpResponseParser.buffered h ph s = Some (resp, n)).
  { unfold HttpResponseParser.buffered. unfold HttpResponseParser.declared in Hbc. destruct h; [eauto|].
    rewrite orb_false_r in Hbc. rewrite Hsz. rewrite (proj2 (Z.ltb_ge _ _)); [eauto|].
    unfold size in *. destruct (HttpResponseParser.p_bodyless ph); lia. }
  destruct Hd as (resp & n & Hb). exists resp, n. split; [done|].
  destruct (HttpResponseParser.buffered_spec _ _ _ _ _ Hl He Hb) as (-> & -> & _ & _ & _).
  rewrite <- drop_drop, <- Hv. rewrite <- Hbc. unfold size. rewrite Nat2Z.id.
  by rewrite take_app_length, drop_app_length.
Qed.

(** The segment the parser hands to the sink. *)
Lemma consume_offered a p b :
  HttpResponseParser.headers_complete_ p = true -> Buffer.wf b ->
  exists r p' b', HttpResponseParser.ConsumeBody (fun _ => a) p b =
                  Some (r, p', b', if a then default [] (offered p b) else []) /\
    (r = kComplete -> HttpResponseParser.result_ p = kNeedMoreData \/ HttpResponseParser.body_complete_ p = true ->
     HttpResponseParser.body_complete_ p' = true).
Proof.
  intros Hh Hw. unfold HttpResponseParser.ConsumeBody, offered. rewrite Hh. simpl.
  destruct (bool_decide_reflect (HttpResponseParser.result_ p = kNeedMoreData)) as [Hr|Hr]; simpl.
  2: { do 3 eexists. split; [by destruct a|]. intros _ [?|Hb]; [done|exact Hb]. }
  destruct (HttpResponseParser.body_complete_ p) eqn:Eb; simpl.
  { do 3 eexists. split; [by destruct a|]. simpl. by rewrite Eb. }
  set (n := Z.min _ _). destruct (Z.eqb_spec n 0) as [Hn|Hn].
  { do 3 eexists. split; [by destruct a|]. done. }
  destruct a; simpl; [|do 3 eexists; split; [done|]; done].
  destruct (Retrieve_wf (Z.to_nat n) b Hw) as (b' & -> & _ & _).
  { unfold n, size. lia. }
  simpl. do 3 eexists. split; [done|]. destruct (_ =? 0); simpl; [done|]. by rewrite Hr.
Qed.

(** ** Streaming *)

(** The connection is reading for its streaming owner. *)
Record streaming (h : bool) (c : t) (l : list event) : Prop := {
  sm_buffers : buffers_ok c;
  sm_state : state_ c = kReading;
  sm_socket : socket_ c = true;
  sm_channel : is_Some (channel_ c);
  sm_callbacks : callbacks c = mkCallbacks true (progress_callback_ (callbacks c)) true true;
  sm_results : results l = [];
  sm_reading : reading_ok true h c l
}.

Lemma streaming_exchange h m : streaming h (conn m) (log m) -> exchange true h m.
Proof.
  intros [H1 H2 H3 H4 H5 H6 H7]. split; [done|]. rewrite H2. split; [done|]. split; [done|].
  split; [done|]. right. done.
Qed.

Lemma streaming_finishing h r m :
  streaming h (conn m) (log m) ->
  (r = kSuccess -> header_reported_ (conn m) = true /\
                   HttpResponseParser.body_complete_ (parser_ (conn m)) = true) ->
  finishing true h r m.
Proof.
  intros [H1 H2 H3 H4 H5 H6 H7] Hr. split; [done|]. split; [by rewrite H2|]. split; [done|].
  split; [done|]. right. split; [done|]. intros E. destruct (Hr E) as [Eh Eb].
  unfold reading_ok in H7. rewrite Eh in H7. destruct H7 as (ph & Hp & Hs & Hh).
  destruct (streamed_complete _ _ _ _ _ _ Hp Hs Eb) as (resp & n & Hbuf & Hbody & Hv).
  exists n. split; [|done]. exists ph, resp. done.
Qed.

(** Pausing changes nothing the streaming state depends on. *)
Lemma PauseReading_streaming h Q E m :
  streaming h (conn m) (log m) ->
  (forall m', streaming h (conn m') (log m') -> input_ (conn m') = input_ (conn m) ->
              parser_ (conn m') = parser_ (conn m) -> header_reported_ (conn m') = header_reported_ (conn m) ->
              log m' = log m -> Q tt m') ->
  wp PauseReading Q E m.
Proof.
  intros Hs HQ. unfold PauseReading. apply wp_update. simpl.
  destruct (_ || _); [apply HQ; by try destruct m|].
  apply HQ; try done. simpl. destruct Hs as [H1 H2 H3 [ch H4] H5 H6 H7].
  constructor; simpl; try done. rewrite H4. by eexists.
Qed.

Lemma log_body l bs a :
  received (l ++ [EBody bs a]) = received l /\ heads (l ++ [EBody bs a]) = heads l /\
  results (l ++ [EBody bs a]) = results l /\
  delivered (l ++ [EBody bs a]) = delivered l ++ (if a then bs else []).
Proof.
  unfold received, delivered, heads, results. rewrite !omap_app, !concat_app.
  destruct a; simpl; by rewrite !app_nil_r.
Qed.

Lemma log_received l bs :
  received (l ++ [EReceived bs]) = received l ++ bs /\ heads (l ++ [EReceived bs]) = heads l /\
  results (l ++ [EReceived bs]) = results l /\ delivered (l ++ [EReceived bs]) = delivered l.
Proof.
  unfold received, delivered, heads, results. rewrite !omap_app, !concat_app.
  simpl; by rewrite !app_nil_r.
Qed.

Lemma log_head l hd :
  received (l ++ [EHead hd]) = received l /\ heads (l ++ [EHead hd]) = heads l ++ [hd] /\
  results (l ++ [EHead hd]) = results l /\ delivered (l ++ [EHead hd]) = delivered l.
Proof.
  unfold received, delivered, heads, results. rewrite !omap_app, !concat_app.
  simpl; by rewrite !app_nil_r.
Qed.

(** What the parser has consumed, before its own state is stored back. *)
Lemma run_sink_spec segment Q E m :
  (forall a m', log m' = log m ++ [EBody segment a] ->
     (conn m' = conn m \/
      conn m' = set_channel (set_reading false (channel_ (conn m))) (set_paused true (conn m))) -> Q a m') ->
  wp (run_sink segment) Q E m.
Proof.
  intros HQ. unfold run_sink. apply wp_bind, wp_call. intros reply w _.
  apply wp_bind, wp_record. simpl. apply wp_bind. destruct (pauses reply).
  - unfold PauseReading. apply wp_update, wp_ret. simpl. apply HQ; [done|]. simpl.
    destruct (_ || _); auto.
  - apply wp_ret, wp_ret. simpl. apply HQ; auto.
Qed.

Lemma streaming_consumed h c l p b d :
  streaming h c l -> header_reported_ c = true ->
  Buffer.wf b -> HttpResponseParser.streamed h (received l) (p, b, delivered l ++ d) ->
  forall l', received l' = received l -> heads l' = heads l -> results l' = results l ->
             delivered l' = delivered l ++ d -> forall c',
  (c' = c \/ c' = set_channel (set_reading false (channel_ c)) (set_paused true c)) ->
  streaming h (set_buffers b (output_ c') p c') l'.
Proof.
  intros Hs Eh Hw Hst l' L1 L2 L3 L4 c' Hc'. destruct Hs as [[H1 H1'] H2 H3 [ch H4] H5 H6 H7].
  unfold reading_ok in H7. rewrite Eh in H7. destruct H7 as (ph & Hp & _ & Hh).
  assert (Hr : exists ph, HttpResponseParser.ParseHeaderArea h (received l') = inr ph /\
    HttpResponseParser.streamed h (received l') (p, b, delivered l') /\
    heads l' = [(HttpResponseParser.head_of h ph 0).1.1]).
  { exists ph. by rewrite L1, L2, L4. }
  destruct Hc' as [-> | ->]; constructor; simpl; try done; try (by rewrite L3); try (by rewrite H4; eexists).
  all: unfold reading_ok; simpl; by rewrite Eh.
Qed.

Lemma ConsumeBody_spec h Q E m :
  streaming h (conn m) (log m) -> header_reported_ (conn m) = true ->
  HttpResponseParser.body_complete_ (parser_ (conn m)) = false ->
  (forall r m', streaming h (conn m') (log m') -> header_reported_ (conn m') = true ->
     (r = kComplete -> HttpResponseParser.body_complete_ (parser_ (conn m')) = true) -> Q r m') ->
  wp ConsumeBody Q E m.
Proof.
  intros Hs Eh Eb HQ. unfold ConsumeBody. apply wp_bind, wp_get.
  pose proof Hs as [[Hw _] _ _ _ _ _ Hrd]. unfold reading_ok in Hrd. rewrite Eh in Hrd.
  destruct Hrd as (ph & Hp & Hst & _). pose proof Hst as Hst'. unfold HttpResponseParser.streamed in Hst'.
  rewrite Hp in Hst'. destruct Hst' as (Hhc & _ & _ & _ & _ & Hnb). destruct (Hnb Eb) as [Hres _].
  assert (Hgo : forall (a : bool) m1,
    (conn m1 = conn m \/
     conn m1 = set_channel (set_reading false (channel_ (conn m))) (set_paused true (conn m))) ->
    received (log m1) = received (log m) -> heads (log m1) = heads (log m) ->
    results (log m1) = results (log m) ->
    delivered (log m1) = delivered (log m) ++
      (if a then default [] (offered (parser_ (conn m)) (input_ (conn m))) else []) ->
    wp (match HttpResponseParser.ConsumeBody (fun _ => a) (parser_ (conn m)) (input_ (conn m)) with
        | None => throw
        | Some (r, p, b, _) => update (fun c => set_buffers b (output_ c) p c);; ret r
        end) Q E m1).
  { intros a m1 Hc1 L1 L2 L3 L4.
    destruct (consume_offered a (parser_ (conn m)) (input_ (conn m)) Hhc Hw) as (r & p' & b' & Ec & Hcomp).
    destruct (HttpResponseParser.consume_step h (received (log m)) _ _ _ ph a Hw Hp Hst)
      as (p2 & b2 & d2 & E2 & Hw2 & Hst2 & _).
    rewrite Hhc, Eb, Ec in E2. cbn [negb andb] in E2. simplify_eq. rewrite Ec.
    apply wp_bind, wp_update, wp_ret, HQ; simpl.
    - by apply (streaming_consumed h (conn m) (log m) p2 b2
        (if a then default [] (offered (parser_ (conn m)) (input_ (conn m))) else []) Hs Eh Hw2 Hst2).
    - by destruct Hc1 as [-> | ->].
    - intros Hr. apply Hcomp; [done|by left]. }
  apply wp_bind. destruct (offered (parser_ (conn m)) (input_ (conn m))) as [seg|] eqn:Eo.
  - apply run_sink_spec. intros a m' Hl Hc.
    destruct (log_body (log m) seg a) as (L1 & L2 & L3 & L4). apply Hgo; rewrite ?Hl; done.
  - apply wp_ret, Hgo; try done; [by left|]. by rewrite app_nil_r.
Qed.

(** The header step: what [ParseHeaders] makes of everything received. *)
Lemma headers_step h c l :
  streaming h c l -> header_reported_ c = false ->
  exists r p b, HttpResponseParser.ParseHeaders (parser_ c) (input_ c) = Some (r, p, b) /\
    match r with
    | kComplete =>
        forall c', c' = set_flags (reusable_ c) (first_byte_reported_ c) (response_header_reported_ c) true
                          (reading_paused_ c) (set_buffers b (output_ c) p c) ->
        streaming h c' (l ++ [EHead (HttpResponseParser.head_ p)])
    | kNeedMoreData => p = parser_ c /\ b = input_ c
    | _ => b = input_ c
    end.
Proof.
  intros Hs Eh. destruct Hs as [[Hw Hw'] H2 H3 H4 H5 H6 H7]. unfold reading_ok in H7. rewrite Eh in H7.
  destruct H7 as (Hp & Hv & Hd & Hh). unfold HttpResponseParser.ParseHeaders. rewrite Hp, Hv.
  cbn [HttpResponseParser.Reset HttpResponseParser.result_ HttpResponseParser.response_to_head_
       HttpResponseParser.remaining_body_ HttpResponseParser.response_].
  rewrite bool_decide_eq_true_2 by done. cbn [negb].
  destruct (HttpResponseParser.ParseHeaderArea h (received l)) as [r|ph] eqn:Ea.
  - do 3 eexists. split; [done|]. pose proof (HttpResponseParser.area_extend h (received l) []) as Hx.
    rewrite Ea in Hx. destruct r; try done. by destruct Hx as [[?|?] _].
  - pose proof (header_end_le _ _ _ Ea) as He. rewrite <- Hv in He.
    destruct (Retrieve_wf _ _ Hw He) as (b & Hb & Hwb & Hvb). rewrite Hv in Hvb.
    pose proof (HttpResponseParser.head_streamed h (received l) b ph Hvb Ea) as Hst.
    assert (Ehd : (HttpResponseParser.head_of h ph 0).1.1 = (HttpResponseParser.head_of h ph 0).1.1) by done.
    destruct (HttpResponseParser.head_of h ph 0) as [[hd remaining] complete] eqn:Eho.
    rewrite Hb. simpl. do 3 eexists. split; [done|]. simpl. intros c' ->.
    destruct (log_head l hd) as (L1 & L2 & L3 & L4).
    constructor; simpl; try done; [by rewrite L3|]. unfold reading_ok. simpl.
    rewrite L1, L2, L4, Hd, Hh. exists ph. rewrite Eho. done.
Qed.

Lemma ConsumeStreamingInput_spec h fuel Q E m :
  streaming h (conn m) (log m) ->
  (forall m', streaming h (conn m') (log m') -> Q true m') ->
  (forall m', exchange true h m' -> Q false m') ->
  wp (ConsumeStreamingInput fuel) Q E m.
Proof.
  intros Hs HT HF. unfold ConsumeStreamingInput. apply wp_bind, wp_get.
  assert (Hfin : forall r m1, finishing true h r m1 -> wp (Finish fuel r;; ret false) Q E m1).
  { intros r m1 Hf. apply wp_bind. eapply Finish_spec; [exact Hf|]. intros m2 He _. by apply wp_ret, HF. }
  destruct (header_reported_ (conn m)) eqn:Eh; cbn [negb].
  - destruct (HttpResponseParser.body_complete_ (parser_ (conn m))) eqn:Eb.
    { apply Hfin. by apply streaming_finishing. }
    apply wp_bind. eapply ConsumeBody_spec; [done..|]. intros r m1 Hs1 Eh1 Hr.
    case_bool_decide as Er.
    + apply Hfin, streaming_finishing; auto.
    + apply wp_bind, wp_get. case_bool_decide as El; cbn [negb].
      * by apply wp_ret, HT.
      * apply wp_bind. eapply PauseReading_streaming; [done|]. intros m2 Hs2 _ _ _ _.
        apply wp_ret, HF. by apply streaming_exchange.
  - destruct (headers_step h _ _ Hs Eh) as (r & p & b & Hph & Hr). rewrite Hph.
    apply wp_bind, wp_update. pose proof Hs as [[Hw Hw'] H2 H3 H4 H5 H6 H7].
    assert (Hbad : forall r', r' <> kSuccess -> b = input_ (conn m) ->
      finishing true h r' (mkMachine (set_buffers b (output_ (conn m)) p (conn m)) (world m) (log m))).
    { intros r' Hne ->. split; [done|]. split; [simpl; by rewrite H2|]. split; [done|]. split; [done|].
      right. split; [done|]. by intros ->. }
    destruct r.
    + destruct Hr as [-> ->]. apply wp_ret, HT. simpl. by destruct (conn m).
    + specialize (Hr _ eq_refl). apply wp_bind, wp_update, wp_bind.
      rewrite H5. cbn [header_callback_]. apply wp_bind, wp_record, wp_call. intros [] w _. simpl.
      destruct (HttpResponseParser.body_complete_ p) eqn:Eb.
      * by apply Hfin, streaming_finishing.
      * apply wp_ret, HT. done.
    + apply Hfin, Hbad; done.
    + apply Hfin, Hbad; done.
Qed.

(** New bytes. *)
Lemma reading_received sink h c l bs b first :
  reading_ok sink h c l -> Buffer.ReadableView b = Buffer.ReadableView (input_ c) ++ bs ->
  reading_ok sink h (set_flags (reusable_ c) first (response_header_reported_ c) (header_reported_ c)
                       (reading_paused_ c) (set_buffers b (output_ c) (parser_ c) c)) (l ++ [EReceived bs]).
Proof.
  destruct (log_received l bs) as (L1 & L2 & L3 & L4). unfold reading_ok. simpl. rewrite L1, L2, L4.
  intros Hr Hb. destruct sink.
  - destruct (header_reported_ c).
    + destruct Hr as (ph & Hp & Hs & Hh). exists ph.
      pose proof (HttpResponseParser.area_extend h (received l) bs) as Hx. rewrite Hp in Hx.
      destruct Hx as [He Hx]. split; [done|]. split; [|done].
      unfold HttpResponseParser.streamed in *. rewrite Hp in Hs. rewrite Hx.
      destruct Hs as (S1 & S2 & S3 & S4 & S5 & S6). split_and!; try done.
      rewrite Hb, app_assoc, S3. by rewrite drop_app_le.
    + destruct Hr as (H1 & H2 & H3 & H4). split_and!; try done. by rewrite Hb, H2.
  - destruct Hr as (hc & H1 & H2). exists hc. split; [done|]. by rewrite Hb, H2.
Qed.

Lemma take_bytes_spec bs Q E m :
  buffers_ok (conn m) ->
  (forall m' b first, Buffer.wf b -> Buffer.ReadableView b = Buffer.ReadableView (input_ (conn m)) ++ bs ->
     conn m' = set_flags (reusable_ (conn m)) first (response_header_reported_ (conn m))
                 (header_reported_ (conn m)) (reading_paused_ (conn m))
                 (set_buffers b (output_ (conn m)) (parser_ (conn m)) (conn m)) ->
     same_log (log m ++ [EReceived bs]) (log m') -> Q tt m') ->
  wp (take_bytes bs) Q E m.
Proof.
  intros [Hw _] HQ. destruct (Buffer.Append_view bs _ Hw) as [Hw' Hv]. unfold take_bytes.
  apply wp_bind, wp_record, wp_bind, wp_update, wp_bind, wp_get. simpl. apply wp_if.
  - intros Ef. apply wp_ret. eapply (HQ _ _ true); [exact Hw'|exact Hv| |done]. simpl. by rewrite <- Ef.
  - intros _. apply wp_bind, wp_update, report_progress_spec. intros m' Hc Hl. simpl in Hc, Hl.
    eapply (HQ _ _ true); [exact Hw'|exact Hv| |done]. exact Hc.
Qed.

Lemma take_bytes_streaming h bs Q E m :
  streaming h (conn m) (log m) ->
  (forall m', streaming h (conn m') (log m') -> Q tt m') -> wp (take_bytes bs) Q E m.
Proof.
  intros Hs HQ. apply take_bytes_spec; [apply Hs|]. intros m' b first Hw Hv Hc Hl. apply HQ.
  pose proof Hs as [[H1 H1'] H2 H3 H4 H5 H6 H7]. destruct (log_received (log m) bs) as (L1 & L2 & L3 & L4).
  rewrite Hc. constructor; simpl; try done.
  - by rewrite (same_results _ _ Hl), L3.
  - exact (reading_ok_same true h _ _ _ Hl (reading_received true h _ _ bs b first H7 Hv)).
Qed.

Lemma HandleStreamingRead_spec h fuel E m :
  streaming h (conn m) (log m) ->
  wp (HandleStreamingRead fuel) (fun _ m' => exchange true h m') E m.
Proof.
  revert m. induction fuel as [|fuel IH]; intros m Hs; [done|]. simpl. apply wp_bind, wp_get.
  assert (Hx := streaming_exchange h m Hs).
  assert (Hgo : forall m1, streaming h (conn m1) (log m1) ->
    wp (go <- ConsumeStreamingInput fuel ;; if go then HandleStreamingRead fuel else ret tt)
       (fun _ m' => exchange true h m') E m1).
  { intros m1 Hs1. apply wp_bind. eapply ConsumeStreamingInput_spec; [exact Hs1|exact IH|].
    intros m2 He. by apply wp_ret. }
  apply wp_if; intros _; [by apply wp_ret|]. apply wp_if; intros _; [by apply Hgo|].
  apply wp_bind, wp_need_socket; [apply Hs|]. apply wp_bind, wp_call. intros r w _.
  assert (Hs' : streaming h (conn (mkMachine (conn m) w (log m))) (log (mkMachine (conn m) w (log m)))) by done.
  destruct r as [b bs| | | |].
  - apply wp_bind. eapply take_bytes_streaming; [exact Hs'|]. exact Hgo.
  - eapply Finish_spec; [by apply (streaming_finishing h)|]. done.
  - by apply IH.
  - by apply wp_ret.
  - eapply Finish_spec; [by apply (streaming_finishing h)|]. done.
Qed.

(** ** Connecting, writing and the buffered mode *)

Definition under_way (sink h : bool) (c : t) (l : list event) : Prop :=
  buffers_ok c /\ socket_ c = true /\ is_Some (channel_ c) /\ active_ok sink h c l.

Lemma under_way_exchange sink h m :
  under_way sink h (conn m) (log m) -> state_ (conn m) <> kIdle -> state_ (conn m) <> kFinished ->
  exchange sink h m.
Proof. intros (H1 & H2 & H3 & H4) Hi Hf. split; [done|]. by destruct (state_ (conn m)). Qed.

Lemma under_way_finishing sink h r m :
  under_way sink h (conn m) (log m) -> state_ (conn m) <> kFinished -> r <> kSuccess ->
  finishing sink h r m.
Proof.
  intros (H1 & H2 & H3 & [H4 Hc]) Hf Hr. split; [done|]. split; [done|]. split; [done|]. split; [done|].
  destruct Hc as [Hc|[Hc _]]; [by left|right]. split; [done|]. by intros ->.
Qed.

(** The members the exchange's promise depends on. *)
Record same_core (c c' : t) : Prop := {
  core_callbacks : callbacks c' = callbacks c;
  core_parser : parser_ c' = parser_ c;
  core_input : input_ c' = input_ c;
  core_header : header_reported_ c' = header_reported_ c
}.

Lemma active_ok_core sink h c c' l : same_core c c' -> active_ok sink h c l -> active_ok sink h c' l.
Proof. intros [H1 H2 H3 H4]. unfold active_ok, reading_ok. by rewrite H1, H2, H3, H4. Qed.

Lemma under_way_core sink h c c' l l' :
  under_way sink h c l -> same_core c c' -> same_log l l' -> Buffer.wf (output_ c') ->
  socket_ c' = true -> is_Some (channel_ c') -> under_way sink h c' l'.
Proof.
  intros ([Hw _] & _ & _ & Ha) Hc Hl Ho Hs Hch. split; [split; [by rewrite (core_input _ _ Hc)|done]|].
  split; [done|]. split; [done|]. eapply active_ok_same; [exact Hl|]. by eapply active_ok_core.
Qed.

Lemma fmap_channel (f : Channel -> Channel) o : is_Some o -> is_Some (f <$> o).
Proof. intros [x ->]. by eexists. Qed.

Lemma write_loop_spec sink h fuel Q E m :
  under_way sink h (conn m) (log m) -> state_ (conn m) = kWriting ->
  (forall m', under_way sink h (conn m') (log m') -> state_ (conn m') = kWriting -> Q true m') ->
  (forall m', exchange sink h m' -> Q false m') ->
  wp (write_loop fuel) Q E m.
Proof.
  revert m. induction fuel as [|fuel IH]; intros m Hu Hst HT HF; [done|]. simpl. apply wp_bind, wp_get.
  pose proof Hu as ([Hw Hwo] & Hs & Hch & Ha).
  apply wp_if; intros _; [by apply wp_ret, HT|].
  apply wp_bind, wp_need_socket; [done|]. apply wp_bind, wp_call. intros r w Hr.
  set (m1 := mkMachine (conn m) w (log m)).
  assert (Hfin : wp (Finish fuel kWriteError;; ret false) Q E m1).
  { apply wp_bind. eapply (Finish_spec sink h); [apply under_way_finishing; simpl; [done|congruence|done]|].
    intros m2 He _. by apply wp_ret, HF. }
  destruct r as [[|n]| | |]; [exact Hfin| | | |exact Hfin].
  - destruct (Retrieve_wf (S n) (output_ (conn m)) Hwo (send_bounded _ _ _ _ Hr)) as (o & -> & Hwo' & _).
    apply wp_bind, wp_record, wp_bind, wp_update. simpl.
    apply IH; [|done|done|done]. simpl.
    destruct (quiet_log (log m) (ESent (take (S n) (Buffer.ReadableView (output_ (conn m))))) eq_refl)
      as (? & ? & ? & ?).
    by eapply under_way_core; [exact Hu| | | | |].
  - by apply IH.
  - apply wp_bind, wp_need_channel; [done|]. apply wp_bind, wp_update, wp_ret, HF.
    apply under_way_exchange; [|simpl; congruence|simpl; congruence]. simpl.
    eapply under_way_core; [exact Hu|done|done|done|done|]. by apply fmap_channel.
Qed.

Lemma write_request_spec sink h fuel E m :
  exchange sink h m -> wp (write_request fuel) (fun _ m' => exchange sink h m') E m.
Proof.
  intros Hx. unfold write_request. apply wp_bind, wp_get.
  case_bool_decide as Hst; cbn [negb]; [|by apply wp_ret].
  destruct Hx as [Hb Hx]. rewrite Hst in Hx. destruct Hx as (Hs & Hch & Ha).
  apply wp_bind. eapply (write_loop_spec sink h); [by split_and!|done| |].
  - intros m2 Hu Hst2. cbn [negb]. pose proof Hu as ([Hw Hwo] & Hs2 & Hch2 & Ha2).
    apply wp_bind, wp_need_channel; [done|]. apply wp_bind, wp_update, wp_bind, report_progress_spec.
    intros m3 Hc3 Hl3. simpl in Hc3, Hl3. apply wp_update.
    apply under_way_exchange; simpl; rewrite Hc3; simpl; try done.
    eapply under_way_core; [exact Hu|done|exact Hl3|done|done|]. by apply fmap_channel, fmap_channel.
  - intros m2 He. by apply wp_ret.
Qed.

Lemma HandleWrite_spec sink h fuel E m :
  exchange sink h m -> wp (HandleWrite fuel) (fun _ m' => exchange sink h m') E m.
Proof.
  intros Hx. unfold HandleWrite. apply wp_bind, wp_get, wp_bind, wp_if.
  - intros Hst. apply bool_decide_eq_true in Hst. destruct Hx as [Hb Hx]. rewrite Hst in Hx.
    destruct Hx as (Hs & Hch & Ha). unfold finish_connect. apply wp_bind, wp_need_socket; [done|].
    apply wp_bind, wp_call. intros e w _.
    assert (Hfin : wp (Finish fuel kConnectError;; ret false)
                      (fun go m' => wp (if negb go then ret tt else write_request fuel)
                                       (fun _ m' => exchange sink h m') E m') E
                      (mkMachine (conn m) w (log m))).
    { apply wp_bind. eapply (Finish_spec sink h).
      - apply under_way_finishing; simpl; [by split_and!|congruence|done].
      - intros m2 He _. by apply wp_ret, wp_ret. }
    destruct e as [[|q|q]|]; try exact Hfin.
    apply wp_bind, wp_update, wp_bind, report_progress_spec. intros m1 Hc Hl. simpl in Hc, Hl.
    apply wp_ret. cbn [negb]. apply write_request_spec. apply under_way_exchange; rewrite Hc; simpl; try done.
    eapply (under_way_core sink h (conn m)); [by split_and!|done|exact Hl|apply Hb|done|done].
  - intros _. apply wp_ret. by apply write_request_spec.
Qed.

(** One buffered parse. *)
Lemma Parse_step p b :
  Buffer.wf b ->
  exists r p' b', HttpResponseParser.Parse p b = Some (r, p', b') /\ Buffer.wf b' /\
    forall hc h, p = HttpResponseParser.mk kNeedMoreData hc h default_response default_head 0 false ->
    match r with
    | kNeedMoreData =>
        (exists hc', p' = HttpResponseParser.mk kNeedMoreData hc' h default_response default_head 0 false) /\
        b' = b
    | kComplete =>
        exists ph resp n, HttpResponseParser.ParseHeaderArea h (Buffer.ReadableView b) = inr ph /\
          HttpResponseParser.buffered h ph (Buffer.ReadableView b) = Some (resp, n) /\
          HttpResponseParser.response_ p' = resp /\ Buffer.ReadableView b' = drop n (Buffer.ReadableView b)
    | _ => True
    end.
Proof.
  intros Hw. unfold HttpResponseParser.Parse. case_bool_decide as Hr; cbn [negb].
  2: { do 3 eexists. split; [done|]. split; [done|]. by intros hc h ->. }
  destruct (HttpResponseParser.ParseHeaderArea _ _) as [r|ph] eqn:Ea.
  - do 3 eexists. split; [done|]. split; [done|]. intros hc h ->. simpl in Ea.
    pose proof (HttpResponseParser.area_extend h (Buffer.ReadableView b) []) as Hx. rewrite Ea in Hx.
    destruct r; [by split; [eexists|]| |done|done]. by destruct Hx as [[?|?] _].
  - destruct (HttpResponseParser.buffered _ ph _) as [[resp n]|] eqn:Eb.
    + destruct (Retrieve_wf n b Hw) as (b' & -> & Hw' & Hv'); [by eapply buffered_end|].
      simpl. do 3 eexists. split; [done|]. split; [done|]. intros hc h ->. by exists ph, resp, n.
    + do 3 eexists. split; [done|]. split; [done|]. intros hc h ->. simpl. split; [by eexists|done].
Qed.

(** The connection is reading for a buffering owner, or for none. *)
Definition buffering (sink h : bool) (c : t) (l : list event) : Prop :=
  under_way sink h c l /\ state_ c = kReading /\ body_sink_ (callbacks c) = false.

Lemma buffering_take sink h bs Q E m :
  buffering sink h (conn m) (log m) ->
  (forall m', buffering sink h (conn m') (log m') -> Q tt m') -> wp (take_bytes bs) Q E m.
Proof.
  intros [((Hw & Hwo) & Hs & Hch & [Hr Hcb]) [Hst Hk]] HQ. apply take_bytes_spec; [done|].
  intros m' b first Hwb Hv Hc Hl. apply HQ. destruct (log_received (log m) bs) as (L1 & L2 & L3 & L4).
  rewrite Hc. split; [|done]. split; [done|]. split; [done|]. split; [done|].
  split; [by rewrite (same_results _ _ Hl), L3|]. destruct Hcb as [Hcb|[Hcb Hrd]]; [by left|right].
  split; [done|]. exact (reading_ok_same sink h _ _ _ Hl (reading_received sink h _ _ bs b first Hrd Hv)).
Qed.

Lemma note_header_spec p Q E m :
  (forall m' rh, conn m' = set_flags (reusable_ (conn m)) (first_byte_reported_ (conn m)) rh
                             (header_reported_ (conn m)) (reading_paused_ (conn m)) (conn m) ->
                 same_log (log m) (log m') -> Q tt m') ->
  wp (note_header p) Q E m.
Proof.
  intros HQ. unfold note_header. apply wp_bind, wp_get, wp_if; intros _.
  - apply wp_bind, wp_update, report_progress_spec. intros m' Hc Hl. by eapply HQ.
  - apply wp_ret. apply (HQ m (response_header_reported_ (conn m))); [by destruct (conn m)|done].
Qed.

Lemma read_loop_spec sink h fuel E m :
  buffering sink h (conn m) (log m) -> wp (read_loop fuel) (fun _ m' => exchange sink h m') E m.
Proof.
  revert m. induction fuel as [|fuel IH]; intros m Hm; [done|]. simpl.
  assert (Hfail : forall r m1, buffering sink h (conn m1) (log m1) -> r <> kSuccess ->
    wp (Finish fuel r) (fun _ m' => exchange sink h m') E m1).
  { intros r m1 (Hu & Hst & _) Hr. eapply (Finish_spec sink h); [|done].
    apply under_way_finishing; [done|congruence|done]. }
  apply wp_bind, wp_need_socket; [apply Hm|]. apply wp_bind, wp_call. intros r w _.
  destruct r as [b bs| | | |]; [|by apply Hfail|by apply IH| |by apply Hfail].
  2: { destruct Hm as (Hu & Hst & _). apply wp_ret, under_way_exchange; simpl; [done|congruence..]. }
  apply wp_bind. eapply (buffering_take sink h); [exact Hm|]. clear m w Hm. intros m Hm.
  apply wp_bind, wp_get. pose proof Hm as (((Hw & Hwo) & Hs & Hch & [Hres Hcb]) & Hst & Hk).
  destruct (Parse_step (parser_ (conn m)) (input_ (conn m)) Hw) as (r & p & i & -> & Hwi & Hp).
  apply wp_bind, wp_update, wp_bind, note_header_spec. intros m2 rh Hc Hl. simpl in Hc, Hl.
  assert (Hok : results (log m2) = []) by (by rewrite (same_results _ _ Hl)).
  destruct Hcb as [Hcb|[Hcb Hrd]].
  - assert (Hb2 : buffering sink h (conn m2) (log m2)).
    { rewrite Hc. split; [|done]. split; [done|]. split; [done|]. split; [done|]. split; [done|]. by left. }
    destruct r; [by apply IH| |by apply Hfail..].
    eapply (Finish_spec sink h); [|done]. split; [apply Hb2|]. split; [rewrite Hc; simpl; congruence|].
    split; [intros _; split; apply Hb2|]. split; [done|]. left. by rewrite Hc.
  - assert (sink = false) as -> by (by rewrite Hcb in Hk). destruct Hrd as (hc & Hpar & Hv).
    specialize (Hp hc h Hpar). rewrite Hv in Hp.
    assert (Hf : forall r', (r' = kSuccess -> exists n, complete_response false h (log m2)
               (HttpResponseParser.response_ p) n /\ Buffer.ReadableView i = drop n (received (log m2))) ->
             finishing false h r' m2).
    { intros r' Hr'. split; [by rewrite Hc|]. split; [rewrite Hc; simpl; congruence|].
      split; [by rewrite Hc|]. split; [done|]. right. rewrite Hc. by split. }
    destruct r.
    + destruct Hp as [(hc' & ->) ->]. apply IH. rewrite Hc. split; [|done]. split; [done|].
      split; [done|]. split; [done|]. split; [done|]. right. split; [done|].
      exists hc'. split; [done|]. simpl. by rewrite (same_received _ _ Hl).
    + destruct Hp as (ph & resp & n & H1 & H2 & H3 & H4). eapply (Finish_spec false h); [|done].
      apply Hf. intros _. exists n. rewrite (same_received _ _ Hl). split; [|done].
      exists ph, resp. by rewrite (same_received _ _ Hl).
    + eapply (Finish_spec false h); [by apply Hf|done].
    + eapply (Finish_spec false h); [by apply Hf|done].
Qed.

(** ** The calls of the event loop and of the owner *)

Lemma HandleRead_spec sink h fuel E m :
  exchange sink h m -> wp (HandleRead fuel) (fun _ m' => exchange sink h m') E m.
Proof.
  intros Hx. unfold HandleRead. apply wp_bind, wp_get, wp_if; intros Hst; [by apply HandleWrite_spec|].
  apply orb_false_iff in Hst as [Hnc Hnw]. apply bool_decide_eq_false in Hnc, Hnw.
  case_bool_decide as Hst; cbn [negb]; [|by apply wp_ret].
  destruct Hx as [Hb Hx]. rewrite Hst in Hx. destruct Hx as (Hs & Hch & [Hr Hcb]).
  apply wp_if; intros Hk.
  - destruct Hcb as [Hcb|[Hcb Hrd]]; [by rewrite Hcb in Hk|]. rewrite Hcb in Hk. simpl in Hk. subst sink.
    apply HandleStreamingRead_spec. by constructor.
  - apply read_loop_spec. split; [|done]. by split_and!.
Qed.

Lemma ResumeReading_spec sink h fuel E m :
  exchange sink h m -> wp (ResumeReading fuel) (fun _ m' => exchange sink h m') E m.
Proof.
  intros Hx. unfold ResumeReading. apply wp_bind, wp_get, wp_if; [intros _; by apply wp_ret|].
  intros Hg. repeat (apply orb_false_iff in Hg as [Hg ?]).
  apply wp_bind, wp_update. assert (Hst : state_ (conn m) = kReading).
  { match goal with H : negb (bool_decide (state_ _ = kReading)) = false |- _ =>
      apply negb_false_iff, bool_decide_eq_true in H; exact H end. }
  assert (Hx' : exchange sink h (mkMachine (set_channel (set_reading true (channel_ (conn m)))
                                   (set_paused false (conn m))) (world m) (log m))).
  { destruct Hx as [Hb Hx]. rewrite Hst in Hx. destruct Hx as (Hs & Hch & Ha).
    apply under_way_exchange; simpl; [|congruence..].
    eapply under_way_core; [by split_and!|done|done|apply Hb|done|]. by apply fmap_channel. }
  apply wp_if; intros _; [by apply HandleRead_spec|by apply wp_ret].
Qed.

Lemma PauseReading_spec sink h E m :
  exchange sink h m -> wp PauseReading (fun _ m' => exchange sink h m') E m.
Proof.
  intros Hx. unfold PauseReading. apply wp_update.
  destruct (_ || negb (bool_decide (state_ (conn m) = kReading)) || _) eqn:Eg; [by destruct m|].
  apply orb_false_iff in Eg as [Eg _]. apply orb_false_iff in Eg as [_ Eg].
  apply negb_false_iff, bool_decide_eq_true in Eg. destruct Hx as [Hb Hx]. rewrite Eg in Hx.
  destruct Hx as (Hs & Hch & Ha). apply under_way_exchange; simpl; [|congruence..].
  eapply under_way_core; [by split_and!|done|done|apply Hb|done|]. by apply fmap_channel.
Qed.

Lemma exchange_results sink h m : exchange sink h m -> results_ok sink h false (log m).
Proof.
  intros [_ Hx]. destruct (state_ (conn m)).
  - by eapply results_ok_weaken, Hx.
  - left. apply Hx.
  - left. apply Hx.
  - left. apply Hx.
  - exact Hx.
Qed.

Lemma Close_spec sink h E m :
  exchange sink h m -> wp Close (fun _ m' => exchange sink h m') E m.
Proof.
  intros Hx. unfold Close. apply wp_bind, wp_get, wp_if; intros _; [by apply wp_ret|].
  apply wp_update. split; [apply Hx|]. simpl. by apply exchange_results.
Qed.

Lemma SuppressCallbacks_spec sink h E m :
  exchange sink h m -> wp SuppressCallbacks (fun _ m' => exchange sink h m') E m.
Proof.
  intros [Hb Hx]. unfold SuppressCallbacks. apply wp_update. split; [done|]. simpl.
  destruct (state_ (conn m)); try done; destruct Hx as (Hs & Hch & [Hr _]);
    (split; [done|]); (split; [done|]); (split; [done|by left]).
Qed.

(** An idle connection lent to an owner, with the log of the exchange empty. *)
Definition lent (sink : bool) (m : machine) : Prop :=
  state_ (conn m) = kIdle /\ (socket_ (conn m) = true -> is_Some (channel_ (conn m))) /\
  callbacks (conn m) = mkCallbacks true (progress_callback_ (callbacks (conn m))) sink sink /\
  log m = [].

Definition is_head (request : HttpRequest) : bool := beq (method request) (lit "HEAD").

Lemma started_active sink h c l :
  callbacks c = mkCallbacks true (progress_callback_ (callbacks c)) sink sink ->
  parser_ c = HttpResponseParser.Reset h HttpResponseParser.make -> header_reported_ c = false ->
  Buffer.ReadableView (input_ c) = [] -> same_log [] l -> active_ok sink h c l.
Proof.
  intros H1 H2 H3 H4 Hl. eapply active_ok_same; [exact Hl|]. split; [done|]. right. split; [done|].
  unfold reading_ok. rewrite H3, H2, H4. destruct sink; [done|]. by exists false.
Qed.

(** The connection right after [Start] serialized the request. *)
Record started (sink h : bool) (c : t) : Prop := {
  st_callbacks : callbacks c = mkCallbacks true (progress_callback_ (callbacks c)) sink sink;
  st_parser : parser_ c = HttpResponseParser.Reset h HttpResponseParser.make;
  st_header : header_reported_ c = false;
  st_buffers : buffers_ok c;
  st_view : Buffer.ReadableView (input_ c) = []
}.

Lemma started_finishing sink h r m :
  started sink h (conn m) -> log m = [] -> state_ (conn m) <> kFinished -> r <> kSuccess ->
  finishing sink h r m.
Proof.
  intros [H1 H2 H3 H4 H5] Hl Hs Hr. split; [done|]. split; [done|]. split; [done|]. rewrite Hl.
  split; [done|]. right. split; [done|]. by intros ->.
Qed.

Lemma started_exchange sink h m :
  started sink h (conn m) -> same_log [] (log m) -> socket_ (conn m) = true -> is_Some (channel_ (conn m)) ->
  state_ (conn m) <> kIdle -> state_ (conn m) <> kFinished -> exchange sink h m.
Proof.
  intros [H1 H2 H3 H4 H5] Hl Hs Hch Hi Hf. apply under_way_exchange; [|done|done].
  split; [done|]. split; [done|]. split; [done|]. by apply started_active.
Qed.

Lemma open_socket_spec sink h fuel m :
  started sink h (conn m) -> log m = [] -> state_ (conn m) = kIdle -> socket_ (conn m) = false ->
  wp (open_socket fuel) (fun _ m' => exchange sink h m') (exchange sink h) m.
Proof.
  intros Hs Hl Hst Hsk. unfold open_socket. apply wp_bind, wp_call. intros made w _.
  destruct made; cbn [negb].
  2: { apply wp_throw. split; [apply Hs|]. simpl. rewrite Hst, Hl. split; [by rewrite Hsk|by left]. }
  assert (Hfail : forall m1, started sink h (conn m1) -> log m1 = [] -> state_ (conn m1) <> kFinished ->
    wp (Finish fuel kConnectError) (fun _ m' => exchange sink h m') (exchange sink h) m1).
  { intros m1 H1 H2 H3. eapply (Finish_spec sink h); [|done]. by apply started_finishing. }
  assert (Hs1 : forall a b k, started sink h (set_io a b k (conn m))) by (intros; by destruct Hs).
  apply wp_bind, wp_update, wp_bind, wp_call. intros sent w1 _.
  destruct sent; cbn [negb]; [|apply Hfail; simpl; [exact (Hs1 _ _ _)|done|congruence]].
  apply wp_bind, wp_call. intros rcvd w2 _.
  destruct rcvd; cbn [negb]; [|apply Hfail; simpl; [exact (Hs1 _ _ _)|done|congruence]].
  apply wp_bind, wp_update, wp_bind, wp_get, wp_bind, wp_call. intros r w3 _.
  destruct r; simpl; [by apply Hfail; [exact (Hs1 _ _ _)|..]|apply wp_update|
                      apply wp_bind, wp_update, HandleWrite_spec];
    (apply started_exchange; simpl; [exact (Hs1 _ _ _)|by rewrite Hl|done|by eexists|done|done]).
Qed.

Lemma Start_spec sink fuel fields request m :
  lent sink m ->
  wp (Start fuel fields request) (fun _ m' => exchange sink (is_head request) m')
     (exchange sink (is_head request)) m.
Proof.
  intros (Hst & Hch & Hcb & Hl). unfold Start. apply wp_bind, wp_get.
  rewrite bool_decide_eq_true_2 by done. cbn [negb]. apply wp_bind, wp_update.
  set (c1 := set_flags _ _ _ _ _ _).
  assert (Hs1 : started sink (is_head request) c1).
  { constructor; [exact Hcb|done|done|split; unfold Buffer.wf; simpl; lia|done]. }
  destruct (SerializeRequest fields request) as [text|].
  2: { eapply (Finish_spec sink (is_head request)); [|done]. apply started_finishing; [done|done| |done].
       simpl. by rewrite Hst. }
  apply wp_bind, wp_update. cbn [conn].
  set (c2 := set_buffers _ _ _ c1).
  assert (Hs2 : started sink (is_head request) c2).
  { destruct Hs1 as [H1 H2 H3 [H4 H4'] H5]. constructor; [exact H1|exact H2|exact H3| |exact H5].
    split; [exact H4|]. by apply Buffer.Append_view. }
  apply wp_if; intros Hsk.
  - apply wp_bind, wp_update, wp_bind, report_progress_spec. intros m3 Hc3 Hl3. simpl in Hc3, Hl3.
    assert (is_Some (channel_ (conn m3))) by (rewrite Hc3; simpl; by apply Hch).
    apply wp_bind, wp_need_channel; [done|]. apply wp_bind, wp_update, HandleWrite_spec.
    assert (started sink (is_head request) (conn m3)) by (rewrite Hc3; by destruct Hs2).
    apply started_exchange; simpl; rewrite ?Hc3; try done.
    + by destruct Hs2.
    + by rewrite Hl in Hl3.
    + simpl. by apply fmap_channel, Hch.
  - by apply open_socket_spec.
Qed.

Lemma run_calls_spec sink h fuel os E m :
  exchange sink h m -> wp (run_calls fuel os) (fun _ m' => exchange sink h m') E m.
Proof.
  revert m. induction os as [|o os IH]; intros m Hx; [by apply wp_ret|]. simpl. apply wp_bind.
  assert (Ho : wp (run_call fuel o) (fun _ m' => exchange sink h m') E m).
  { destruct o; simpl; [by apply HandleRead_spec|by apply HandleWrite_spec|by apply PauseReading_spec|
      by apply ResumeReading_spec|by apply SuppressCallbacks_spec|by apply Close_spec]. }
  eapply wp_mono; [exact Ho| |done]. intros [] m' Hm'. by apply IH.
Qed.

(** C8: An exchange reports at most one result, and a success exactly delivers
    the response: whatever the operating system answers and whatever sequence
    of events and owner calls follows [Start], no null descriptor or channel is
    used, no handler throws after [Start], and if success was reported then the
    received bytes are a complete response whose head was reported once and
    whose body was handed to the sink byte for byte (or is in the result, in
    the buffered mode); a connection kept for reuse has no byte left unread. *)
Theorem upstream_exchange_exact sink fuel fields request calls m :
  lent sink m ->
  match (Start fuel fields request;; run_calls fuel calls) m with
  | Ret _ m' | Throw m' =>
      results_ok sink (is_head request) (bool_decide (state_ (conn m') = kIdle)) (log m')
  | Stuck => False
  | Spin => True
  end.
Proof.
  intros Hm. pose proof (Start_spec sink fuel fields request m Hm) as Hs. unfold wp in Hs.
  assert (Hok : forall m', exchange sink (is_head request) m' ->
    results_ok sink (is_head request) (bool_decide (state_ (conn m') = kIdle)) (log m')).
  { intros m' Hx. case_bool_decide as Hi; [|by apply exchange_results].
    destruct Hx as [_ Hx]. rewrite Hi in Hx. apply Hx. }
  unfold bind. destruct (Start fuel fields request m) as [[] m1|m1| |]; [|by apply Hok|done|done].
  pose proof (run_calls_spec sink (is_head request) fuel calls (fun _ => False) m1 Hs) as Hr. unfold wp in Hr.
  destruct (run_calls fuel calls m1) as [[] m2|m2| |]; [by apply Hok|done|done|done].
Qed.

(** ** Termination of the streaming read *)

(** Only finitely much can be read at once: [available] bounds the successful
    and interrupted reads before one blocks, closes or fails. *)
Class FiniteEnv := {
  available : W -> nat;
  recv_available w r w' : recv w = (r, w') ->
    match r with
    | RData _ _ | RInterrupted => (available w' < available w)%nat
    | _ => (available w' <= available w)%nat
    end;
  peek_available w r w' : peek w = (r, w') ->
    match r with
    | RInterrupted => (available w' < available w)%nat
    | _ => (available w' <= available w)%nat
    end;
  body_available bs w r w' : on_body bs w = (r, w') -> (available w' <= available w)%nat;
  progress_available p w : (available (on_progress p w) <= available w)%nat
}.

Context {Hfinite : FiniteEnv}.

Lemma peer_returns fuel m :
  (available (world m) < fuel)%nat -> nospin (PeerHasClosedOrSentExtraBytes fuel) m.
Proof.
  revert m. induction fuel as [|fuel IH]; intros m Hf; [lia|]. simpl.
  apply nospin_bind; [unfold nospin, need_socket, bind, get, gets; by destruct (socket_ (conn m))|].
  intros [] m1 Hm1. assert (m1 = m) as ->.
  { unfold need_socket, bind, get, gets in Hm1. destruct (socket_ (conn m)); [|done]. by injection Hm1. }
  apply nospin_bind; [unfold nospin, call; by destruct (peek (world m))|].
  intros r m2 Hm2. unfold call in Hm2. destruct (peek (world m)) as [r' w] eqn:Ep. injection Hm2 as <- <-.
  pose proof (peek_available _ _ _ Ep). destruct r'; try done. apply IH. simpl. lia.
Qed.

Lemma Finish_returns fuel r m :
  (available (world m) < fuel)%nat -> nospin (Finish fuel r) m.
Proof.
  intros Hf. unfold Finish. apply nospin_bind; [done|]. intros c m1 Hc. injection Hc as <- <-.
  apply nospin_if; [done|intros _]. apply nospin_bind.
  - apply nospin_if; [intros _|done]. apply nospin_bind; [by apply peer_returns|done].
  - intros keep m1 _. apply nospin_bind; [done|]. intros [] m2 _. unfold call_result.
    apply nospin_if; [intros _|done]. done.
Qed.

Lemma ConsumeBody_available m :
  wp ConsumeBody (fun _ m' => (available (world m') <= available (world m))%nat) (fun _ => True) m.
Proof.
  unfold ConsumeBody. apply wp_bind, wp_get, wp_bind.
  assert (Hgo : forall (a : bool) m1, (available (world m1) <= available (world m))%nat ->
    wp (match HttpResponseParser.ConsumeBody (fun _ => a) (parser_ (conn m)) (input_ (conn m)) with
        | None => throw
        | Some (r, p, b, _) => update (fun c => set_buffers b (output_ c) p c);; ret r
        end) (fun _ m' => (available (world m') <= available (world m))%nat) (fun _ => True) m1).
  { intros a m1 Hm1. by destruct (HttpResponseParser.ConsumeBody _ _ _) as [[[[? ?] ?] ?]|]. }
  destruct (offered _ _) as [seg|]; [|by apply wp_ret, Hgo].
  unfold run_sink. apply wp_bind, wp_call. intros reply w Eo. apply body_available in Eo.
  apply wp_bind, wp_record, wp_bind, wp_if; intros _; (apply wp_update || apply wp_ret); by apply wp_ret, Hgo.
Qed.

Lemma ConsumeBody_nospin m : nospin ConsumeBody m.
Proof.
  unfold ConsumeBody. apply nospin_bind; [done|]. intros c m1 _. apply nospin_bind.
  - destruct (offered _ _); [|done]. unfold run_sink. apply nospin_bind.
    { unfold nospin, call. by destruct (on_body _ _). }
    intros reply m2 _. apply nospin_bind; [done|]. intros [] m3 _.
    apply nospin_bind; [by apply nospin_if|done].
  - intros a m2 _. by destruct (HttpResponseParser.ConsumeBody _ _ _) as [[[[? ?] ?] ?]|].
Qed.

(** A body step ends the read, or it leaves nothing buffered. *)
Lemma body_step h fuel m :
  streaming h (conn m) (log m) -> header_reported_ (conn m) = true ->
  (available (world m) < fuel)%nat ->
  nospin (ConsumeStreamingInput fuel) m /\
  wp (ConsumeStreamingInput fuel)
     (fun go m' => go = true -> streaming h (conn m') (log m') /\ header_reported_ (conn m') = true /\
        Buffer.ReadableBytes (input_ (conn m')) = 0%nat /\ (available (world m') <= available (world m))%nat)
     (fun _ => True) m.
Proof.
  intros Hs Eh Hf.
  assert (Hend : forall m1, (available (world m1) <= available (world m))%nat ->
            nospin (Finish fuel kSuccess;; ret false) m1).
  { intros m1 Hm1. apply nospin_bind; [apply Finish_returns; lia|done]. }
  assert (Hfin : forall m1 Q, finishing true h kSuccess m1 ->
            wp (Finish fuel kSuccess;; ret false) (fun go m' => go = true -> Q m') (fun _ => True) m1).
  { intros m1 Q Hm1. apply wp_bind. eapply Finish_spec; [exact Hm1|]. intros m2 _ _. by apply wp_ret. }
  assert (Hbody : HttpResponseParser.body_complete_ (parser_ (conn m)) = false ->
    wp ConsumeBody (fun r m' => (available (world m') <= available (world m))%nat /\
       streaming h (conn m') (log m') /\ header_reported_ (conn m') = true /\
       (r = kComplete -> HttpResponseParser.body_complete_ (parser_ (conn m')) = true)) (fun _ => True) m).
  { intros Eb. eapply wp_mono; [eapply (wp_and ConsumeBody _ _ _ (fun _ => True) m (ConsumeBody_available m))| |done].
    - eapply (ConsumeBody_spec h); [done..|]. intros r m' H1 H2 H3. exact (conj H1 (conj H2 H3)).
    - auto. }
  unfold ConsumeStreamingInput. split.
  - apply nospin_bind; [done|]. intros c m1 Hc. injection Hc as <- <-. rewrite Eh. cbn [negb].
    apply nospin_if; [intros _; by apply Hend|intros Eb]. apply nospin_bind; [apply ConsumeBody_nospin|].
    intros r m1 Hm1. specialize (Hbody Eb).
    destruct (wp_Ret _ _ _ _ _ _ Hbody Hm1) as [Hav _].
    apply nospin_if; [intros _; by apply Hend|intros _]. apply nospin_bind; [done|]. intros n m2 _.
    by apply nospin_if.
  - apply wp_bind, wp_get. rewrite Eh. cbn [negb]. apply wp_if; intros Eb.
    { apply Hfin. by apply streaming_finishing. }
    apply wp_bind. eapply wp_mono; [exact (Hbody Eb)| |done].
    intros r m1 (Hav & Hs1 & Eh1 & Hr). case_bool_decide as Er.
    + apply Hfin, streaming_finishing; auto.
    + apply wp_bind, wp_get. case_bool_decide as El; cbn [negb]; [by apply wp_ret|].
      apply wp_bind. eapply PauseReading_streaming; [exact Hs1|]. intros m2 _ _ _ _ _. by apply wp_ret.
Qed.

Lemma take_bytes_available bs m :
  wp (take_bytes bs) (fun _ m' => header_reported_ (conn m') = header_reported_ (conn m) /\
                                  (available (world m') <= available (world m))%nat) (fun _ => True) m.
Proof.
  unfold take_bytes, report_progress. apply wp_bind, wp_record, wp_bind, wp_update, wp_bind, wp_get.
  apply wp_if; intros _; [by apply wp_ret|]. apply wp_bind, wp_update, wp_bind, wp_get, wp_if; intros _.
  - apply wp_bind, wp_record, wp_call. intros [] w Hw. injection Hw as <-. split; [done|].
    simpl. apply progress_available.
  - by apply wp_ret.
Qed.

Lemma take_bytes_nospin bs m : nospin (take_bytes bs) m.
Proof.
  unfold take_bytes, report_progress. apply nospin_bind; [done|]. intros [] m1 _.
  apply nospin_bind; [done|]. intros [] m2 _. apply nospin_bind; [done|]. intros b m3 _.
  apply nospin_if; [done|intros _]. apply nospin_bind; [done|]. intros [] m4 _.
  apply nospin_bind; [done|]. intros k m5 _. by apply nospin_if.
Qed.

Lemma streaming_nospin h fuel m :
  streaming h (conn m) (log m) -> header_reported_ (conn m) = true ->
  (2 * available (world m) + (if bool_decide (Buffer.ReadableBytes (input_ (conn m)) = 0%nat) then 1 else 2)
   < fuel)%nat ->
  nospin (HandleStreamingRead fuel) m.
Proof.
  revert m. induction fuel as [|fuel IH]; intros m Hs Eh Hf; [lia|]. simpl.
  apply nospin_bind; [done|]. intros c m1 Hc. injection Hc as <- <-.
  assert (Hstep : forall m1, streaming h (conn m1) (log m1) -> header_reported_ (conn m1) = true ->
    (2 * available (world m1) + 1 < fuel)%nat ->
    nospin (go <- ConsumeStreamingInput fuel ;; if go then HandleStreamingRead fuel else ret tt) m1).
  { intros m1 Hs1 Eh1 Hf1. destruct (body_step h fuel m1 Hs1 Eh1 ltac:(lia)) as [Hn Hw].
    apply nospin_bind; [exact Hn|]. intros [] m2 Hm2; [|done].
    destruct (wp_Ret _ _ _ _ _ _ Hw Hm2 eq_refl) as (Hs2 & Eh2 & Hz & Hav).
    apply IH; [done|done|]. rewrite bool_decide_eq_true_2 by done. lia. }
  apply nospin_if; [done|intros _]. case_bool_decide as Hz; cbn [negb]; [|apply Hstep; [done|done|lia]].
  apply nospin_bind; [unfold nospin, need_socket, bind, get, gets; by destruct (socket_ (conn m))|].
  intros [] m1 Hm1. assert (m1 = m) as ->.
  { unfold need_socket, bind, get, gets in Hm1. destruct (socket_ (conn m)); [|done]. by injection Hm1. }
  apply nospin_bind; [unfold nospin, call; by destruct (recv (world m))|].
  intros r m2 Hm2. unfold call in Hm2. destruct (recv (world m)) as [r' w] eqn:Er. injection Hm2 as <- <-.
  pose proof (recv_available _ _ _ Er) as Hav. destruct r' as [b bs| | | |]; try done.
  - apply nospin_bind; [apply take_bytes_nospin|]. intros [] m3 Hm3.
    pose proof (wp_Ret _ _ _ _ _ _ (take_bytes_available _ _) Hm3) as [Eh3 Hav3]. simpl in Eh3, Hav3.
    apply Hstep; [|congruence|lia].
    refine (wp_Ret _ _ _ _ _ _ (take_bytes_streaming h _ (fun _ m' => streaming h (conn m') (log m'))
              (fun _ => True) _ _ _) Hm3); auto.
  - apply Finish_returns. simpl. lia.
  - apply IH; [done|done|]. simpl. rewrite bool_decide_eq_true_2 by done. lia.
  - apply Finish_returns. simpl. lia.
Qed.

(** C22: Once the response head is parsed, a streaming read always returns: with
    finitely much to read, whatever the sink answers, the loop ends by blocking,
    pausing, completing or failing, and the exchange's guarantees hold. *)
Theorem streaming_read_returns h fuel m :
  streaming h (conn m) (log m) -> header_reported_ (conn m) = true ->
  (2 * available (world m) + 2 < fuel)%nat ->
  exists m', HandleStreamingRead fuel m = Ret tt m' /\ exchange true h m'.
Proof.
  intros Hs Eh Hf.
  destruct (wp_total _ _ _ (HandleStreamingRead_spec h fuel (fun _ => False) m Hs)) as ([] & m' & H1 & H2).
  - apply (streaming_nospin h); [done|done|]. case_bool_decide; lia.
  - eauto.
Qed.

(** With an incomplete head buffered, the loop parses it again and again. *)
Lemma buffered_head_spins h fuel m :
  streaming h (conn m) (log m) -> header_reported_ (conn m) = false -> reading_paused_ (conn m) = false ->
  received (log m) <> [] -> HttpResponseParser.ParseHeaderArea h (received (log m)) = inl kNeedMoreData ->
  HandleStreamingRead fuel m = Spin.
Proof.
  intros Hs Eh Ep Hne Ha. induction fuel as [|fuel IH]; [done|]. simpl. unfold bind at 1, get at 1, gets.
  rewrite Ep. destruct Hs as [H1 H2 H3 H4 H5 H6 H7]. unfold reading_ok in H7. rewrite Eh in H7.
  destruct H7 as (Hp & Hv & _). rewrite bool_decide_eq_false_2; cbn [negb].
  2: { intros Hz. apply Hne. rewrite <- Hv. by apply view_empty. }
  unfold bind at 1, ConsumeStreamingInput, bind at 1, get at 1, gets. rewrite Eh. cbn [negb].
  unfold HttpResponseParser.ParseHeaders. rewrite Hp, Hv.
  cbn [HttpResponseParser.Reset HttpResponseParser.result_ HttpResponseParser.response_to_head_].
  rewrite bool_decide_eq_true_2 by done. cbn [negb]. rewrite Ha.
  unfold bind at 1, update, modify, ret.
  replace (mkMachine _ (world m) (log m)) with m; [exact IH|].
  destruct m as [c w l]. simpl in *. destruct c. simpl in *. subst. done.
Qed.

(** A response head that does not arrive in one piece hangs the worker: when
    the first bytes read from the upstream are an incomplete head, the read loop
    neither reads the socket again nor returns, however long it runs. *)
Theorem partial_head_spins h fuel m b bs w :
  streaming h (conn m) (log m) -> header_reported_ (conn m) = false -> reading_paused_ (conn m) = false ->
  received (log m) = [] -> recv (world m) = (RData b bs, w) ->
  HttpResponseParser.ParseHeaderArea h (b :: bs) = inl kNeedMoreData ->
  HandleStreamingRead fuel m = Spin.
Proof.
  intros Hs Eh Ep Hrc Hrv Ha. destruct fuel as [|fuel]; [done|]. simpl. unfold bind at 1, get at 1, gets.
  rewrite Ep. pose proof Hs as [[Hw Hwo] H2 H3 H4 H5 H6 H7]. unfold reading_ok in H7. rewrite Eh in H7.
  destruct H7 as (Hp & Hv & _). rewrite Hrc in Hv. rewrite bool_decide_eq_true_2; cbn [negb].
  2: { by rewrite <- Buffer.length_view, Hv. }
  unfold bind at 1, need_socket, bind at 1, get at 1, gets. rewrite H3. unfold ret at 1.
  unfold bind at 1, call. rewrite Hrv. set (m1 := mkMachine (conn m) w (log m)).
  assert (Htake : wp (take_bytes (b :: bs))
    (fun _ m' => streaming h (conn m') (log m') /\ header_reported_ (conn m') = false /\
                 reading_paused_ (conn m') = false /\ received (log m') = b :: bs) (fun _ => False) m1).
  { eapply wp_mono.
    - apply (wp_and _ (fun _ m' => streaming h (conn m') (log m'))
               (fun _ m' => header_reported_ (conn m') = false /\ reading_paused_ (conn m') = false /\
                            received (log m') = b :: bs) (fun _ => False) (fun _ => False)).
      + apply (take_bytes_streaming h); [done|auto].
      + apply take_bytes_spec; [done|]. intros m' i first _ _ -> Hl. split; [done|]. split; [done|].
        rewrite (same_received _ _ Hl). cbn [log m1]. rewrite (proj1 (log_received (log m) (b :: bs))).
        by rewrite Hrc.
    - auto.
    - by intros m' []. }
  unfold wp in Htake. unfold bind at 1. destruct (take_bytes (b :: bs) m1) as [[] m2|m2| |]; try done.
  destruct Htake as (S1 & S2 & S3 & S4).
  (* the rest is an iteration of the loop on what is buffered *)
  assert (Hnext : HandleStreamingRead (S fuel) m2 = Spin).
  { apply (buffered_head_spins h); rewrite ?S4; done. }
  simpl in Hnext. unfold bind at 1, get at 1, gets in Hnext. rewrite S3, bool_decide_eq_false_2 in Hnext; [exact Hnext|].
  pose proof S1 as [_ _ _ _ _ _ S7]. unfold reading_ok in S7. rewrite S2 in S7. destruct S7 as (_ & Hv2 & _).
  rewrite <- Buffer.length_view, Hv2, S4. done.
Qed.

Lemma exchange_streaming h m :
  exchange true h m -> state_ (conn m) = kReading -> body_sink_ (callbacks (conn m)) = true ->
  streaming h (conn m) (log m).
Proof.
  intros [Hb Hx] Hst Hk. rewrite Hst in Hx. destruct Hx as (Hs & Hch & Hr & [Hcb|[Hcb Hrd]]).
  - by rewrite Hcb in Hk.
  - by constructor.
Qed.

End Connection.
Arguments machine : clear implicits.
Arguments mkMachine {W}.

(** ** Examples *)

(** A peer that follows a script and then has nothing more to say; every write
    is taken completely. *)
Record script := mkScript {
  reads : list recv_result;
  peeks : list recv_result;
  replies : list body_reply
}.

Definition next_read (w : script) : recv_result * script :=
  match reads w with
  | [] => (RAgain, w)
  | r :: l => (r, mkScript l (peeks w) (replies w))
  end.

Definition next_peek (w : script) : recv_result * script :=
  match peeks w with
  | [] => (RAgain, w)
  | r :: l => (r, mkScript (reads w) l (replies w))
  end.

Definition next_reply (bs : bytes) (w : script) : body_reply * script :=
  match replies w with
  | [] => (mkReply true false, w)
  | r :: l => (r, mkScript (reads w) (peeks w) l)
  end.

#[global] Instance script_env : UpstreamEnv script := {
  create_socket w := (true, w);
  set_socket_buffer w := (true, w);
  connect _ _ w := (CConnected, w);
  pending_error w := (Some 0, w);
  recv := next_read;
  peek := next_peek;
  send bs w := (SCount (length bs), w);
  on_progress _ w := w;
  on_head _ w := w;
  on_body := next_reply;
  on_result _ _ w := w
}.

#[global] Instance script_laws : UpstreamEnvLaws (W := script).
Proof. constructor. simpl. intros bs w n w' E. by simplify_eq. Qed.

#[global] Instance script_finite : FiniteEnv (W := script).
Proof.
  refine {| available w := (length (reads w) + length (peeks w))%nat |}; simpl.
  - intros w r w'. unfold next_read. destruct (reads w) as [|x l] eqn:El; intros E; injection E as <- <-;
      simpl; rewrite ?El; simpl; [lia|]. destruct x; lia.
  - intros w r w'. unfold next_peek. destruct (peeks w) as [|x l] eqn:El; intros E; injection E as <- <-;
      simpl; rewrite ?El; simpl; [lia|]. destruct x; lia.
  - intros bs w r w'. unfold next_reply. destruct (replies w) as [|x l]; intros E; injection E as <- <-; simpl; lia.
  - done.
Defined.

Definition example_upstream : t :=
  set_callbacks (mkCallbacks true true true true) (make (mkEndpoint (lit "10.0.0.1") (10, 0, 0, 1) 80 1) true).

Definition data (bs : bytes) : recv_result :=
  match bs with b :: bs => RData b bs | [] => RAgain end.

Definition example_head : bytes :=
  lit "HTTP/1.1 200 OK" ++ CRLF ++ lit "Content-Length: 5" ++ CRLF ++ CRLF.

(** The head and the body arrive in three segments; the sink pauses once. *)
Definition example_script : script :=
  mkScript [data (example_head ++ lit "he"); RInterrupted; data (lit "llo")] [] [mkReply true true].

Definition example_machine (w : script) : machine script := mkMachine example_upstream w [].

Definition example_exchange : M (machine script) unit :=
  bind (Start 20 example_fields example_request) (fun _ => run_calls 20 [CallRead; CallResume; CallRead]).

Lemma example_lent w : lent true (example_machine w).
Proof. done. Qed.

Lemma upstream_exchange_exact_witness :
  exists m' n, example_exchange (example_machine example_script) = Ret tt m' /\
    delivered (log m') = lit "hello" /\ state_ (conn m') = kIdle /\
    complete_response true false (log m') default_response n /\ drop n (received (log m')) = [].
Proof.
  pose proof (upstream_exchange_exact true 20 example_fields example_request [CallRead; CallResume; CallRead]
                (example_machine example_script) (example_lent _)) as H.
  change (bind _ _) with example_exchange in H.
  assert (Hc : match example_exchange (example_machine example_script) with
               | Ret _ m' => results (log m') = [(kSuccess, default_response)] /\
                             delivered (log m') = lit "hello" /\ state_ (conn m') = kIdle
               | _ => False
               end) by (vm_compute; auto).
  destruct (example_exchange (example_machine example_script)) as [[] m'|m'| |]; try done.
  destruct Hc as (Hr & Hd & Hi). destruct H as [H|(r & x & Hr' & Hs)]; [by rewrite H in Hr|].
  rewrite Hr in Hr'. injection Hr' as <- <-. destruct (Hs eq_refl) as (n & Hn & Hk).
  exists m', n. split; [done|]. split; [done|]. split; [done|]. split; [exact Hn|].
  apply Hk. by rewrite bool_decide_eq_true_2.
Defined.

(** The connection after [Start] and some calls. *)
Definition example_after (calls : list owner_call) (w : script) : machine script :=
  match bind (Start 20 example_fields example_request) (fun _ => run_calls 20 calls) (example_machine w) with
  | Ret _ m => m
  | _ => example_machine w
  end.

Lemma example_after_streaming calls w :
  let m := example_after calls w in
  state_ (conn m) = kReading -> body_sink_ (callbacks (conn m)) = true -> streaming false (conn m) (log m).
Proof.
  intros m Hst Hk. apply exchange_streaming; [|done|done]. unfold m, example_after, bind in *.
  pose proof (Start_spec true 20 example_fields example_request _ (example_lent w)) as Hs. unfold wp in Hs.
  destruct (Start 20 example_fields example_request (example_machine w)) as [[] m1|m1| |]; try done.
  pose proof (run_calls_spec true (is_head example_request) 20 calls (fun _ => False) m1 Hs) as Hr. unfold wp in Hr.
  by destruct (run_calls 20 calls m1).
Qed.

(** The head and two bytes arrived, and the rest is still to come. *)
Lemma streaming_read_returns_witness :
  let m := example_after [CallRead] (mkScript [data (example_head ++ lit "he"); RAgain; data (lit "llo")] [] []) in
  exists m', HandleStreamingRead 20 m = Ret tt m' /\ exchange true false m'.
Proof.
  intros m. apply streaming_read_returns.
  - apply example_after_streaming; vm_compute; reflexivity.
  - vm_compute. reflexivity.
  - vm_compute. lia.
Defined.

(** The status line arrives in two segments. *)
Lemma partial_head_spins_witness :
  let m := example_after [] (mkScript [data (lit "HTTP/1.1 20"); data (lit "0 OK")] [] []) in
  HandleStreamingRead 1000 m = Spin.
Proof.
  intros m. apply (partial_head_spins false 1000 m "H"%byte (lit "TTP/1.1 20") (mkScript [data (lit "0 OK")] [] [])).
  - apply example_after_streaming; vm_compute; reflexivity.
  - vm_compute. reflexivity.
  - vm_compute. reflexivity.
  - vm_compute. reflexivity.
  - vm_compute. reflexivity.
  - vm_compute. reflexivity.
Defined.

End UpstreamConnection.
