(* ===== verification/ProxyTransaction.v ===== *)
(** * One proxied request

    Models src/src/proxy/ProxyTransaction.cpp over the upstream pool: choosing
    an endpoint, the upstream exchange, the retry, the deadlines, streaming the
    response to the client, and the terminal paths.  The client connection, the
    pool, the timers, the attempt provider and the lifetimes of the client and
    of the gateway are the interface [TransactionEnv]; every call the
    transaction makes on them is recorded in a log.  The abstract specification
    is an automaton over that log. *)

From S2P Require Import Prelude Effects Bytes Types HttpText HttpRequest HttpResponse CoordinatorState AttemptSelector UpstreamConnection.

Module ProxyTransaction.
Import HttpText HttpRequestParser HttpResponse AttemptSelector.

(** ** Hop-by-hop headers *)

(** The tokens of one Connection value; each turn removes at least one byte. *)
Fixpoint connection_tokens (fuel : nat) (value : bytes) : list bytes :=
  match fuel with
  | O => []
  | S fuel =>
      if bool_decide (value = []) then []
      else
        let comma := find value [COMMA] in
        let token := TrimOws (match comma with Some n => take n value | None => value end) in
        (if bool_decide (token = []) then [] else [lower_all token]) ++
        match comma with
        | None => []
        | Some n => connection_tokens fuel (drop (S n) value)
        end
  end.

Definition AddConnectionTokens (value : bytes) : list bytes := connection_tokens (length value) value.

Definition hop_by_hop : list bytes :=
  [lit "connection"; lit "content-length"; lit "keep-alive"; lit "proxy-authenticate";
   lit "proxy-authorization"; lit "proxy-connection"; lit "te"; lit "trailer";
   lit "transfer-encoding"; lit "upgrade"].

Definition HopByHopNames (hs : list (bytes * bytes)) : list bytes :=
  hop_by_hop ++
  concat ((fun f => if beq (lower_all f.1) (lit "connection") then AddConnectionTokens f.2 else []) <$> hs).

Definition kept (names : list bytes) (f : bytes * bytes) : Prop := lower_all f.1 ∉ names.

#[global] Instance kept_dec names f : Decision (kept names f).
Proof. unfold kept. apply _. Defined.

Definition StripRequest (r : HttpRequest) : HttpRequest :=
  mkRequest (method r) (target r) (version r) (HttpRequestParser.body r)
            (filter (kept (HopByHopNames (map_to_list (HttpRequestParser.headers r))))
                    (HttpRequestParser.headers r)).

Definition StripHeaders (hs : header_list) : header_list := filter (kept (HopByHopNames hs)) hs.

Definition StripResponse (r : HttpResponse) : HttpResponse :=
  mkResponse (status r) (reason r) (StripHeaders (headers r)) (body r) (body_mode r) (content_length r).

Definition StripHead (h : HttpResponseHead) : HttpResponseHead :=
  mkHead (head_status h) (head_reason h) (StripHeaders (head_headers h)) (head_body_mode h)
         (head_content_length h).

(** ** The surroundings *)

Abbreviation UpstreamResult := UpstreamConnection.UpstreamResult.
Abbreviation UpstreamProgress := UpstreamConnection.UpstreamProgress.

(** How [pool_->Execute] came back: the exchange goes on, it completed before
    returning, or an exception the transaction catches. *)
Inductive exec_result :=
| ExecPending
| ExecDone (r : UpstreamResult) (response : HttpResponse)
| ExecThrow.

(** A call on the client connection: it may throw, and it may fire the request
    abort callback before it returns. *)
Record client_reply := mkClient { throws : bool; aborts : bool }.

(** The timeouts are milliseconds. *)
Record UpstreamPolicy := mkPolicy {
  connect_timeout : Z;
  first_byte_timeout : Z;
  total_timeout : Z;
  budget : Z;
  retry_endpoints : list Endpoint
}.

(** The transaction's three timers. *)
Inductive deadline := DConnect | DFirstByte | DTotal.

#[global] Instance deadline_eq_dec : EqDecision deadline.
Proof. solve_decision. Defined.

Class TransactionEnv (W : Type) := {
  gateway_down : W -> bool;
  client_alive : W -> bool;
  schedule : Z -> W -> Z * W;
  provide : W -> AttemptDecision * W;
  execute : Endpoint -> HttpRequest -> W -> list UpstreamProgress * exec_result * W;
  client_send : HttpResponse -> W -> client_reply * W;
  client_begin : HttpResponseHead -> W -> client_reply * W;
  client_write : bytes -> W -> client_reply * bool * W;
  client_finish : W -> client_reply * W
}.

(** What the transaction did. *)
Inductive effect :=
| FSelect (link : option BreakerLink) (active : option (nat * nat))
| FExecute (endpoint : Endpoint) (request : HttpRequest)
| FPublish (link : BreakerLink) (success : bool)
| FDropLink
| FReleaseActive
| FReleaseAdmission
| FSend (response : HttpResponse)
| FBegin (head : HttpResponseHead)
| FBody (bs : bytes)
| FFinish
| FAbort
| FMetric (status : Z) (reason : bytes)
| FLog (status : Z) (reason : bytes)
| FSchedule (d : deadline) (after id : Z)
| FCancelTimer (d : deadline) (id : Z)
| FPauseUpstream
| FResumeUpstream
| FCancelUpstream.

(** ** State *)

(** Work queued to the end of the event batch. *)
Inductive task := TaskRetry | TaskCancel (connection : bool).

Record t := mk {
  endpoint_ : option Endpoint;
  request_ : HttpRequest;
  provider_ : bool;
  policy_ : UpstreamPolicy;
  reservation_ : bool;
  breaker_link_ : option BreakerLink;
  active_reservation_ : option (nat * nat);
  attempt_accounted_ : bool;
  active_connection_ : bool;
  connect_timer_ : Z;
  first_byte_timer_ : Z;
  total_timer_ : Z;
  generation_ : Z;
  retries_ : Z;
  coordinator_overloaded_ : bool;
  committed_ : bool;
  upstream_read_paused_ : bool;
  finished_ : bool;
  logged_ : bool;
  stream_callbacks_ : bool;
  response_head_ : HttpResponseHead;
  queued_ : list task
}.

Definition make (endpoint : Endpoint) (request : HttpRequest) (provider : bool) (policy : UpstreamPolicy)
    (reservation : bool) : t :=
  mk (Some endpoint) request provider policy reservation None None false false 0 0 0 0 0 false false false
     false false false default_head [].

(** Assignments, by the members they change. *)
Definition set_attempt (link : option BreakerLink) (active : option (nat * nat)) (accounted : bool) (c : t) : t :=
  mk (endpoint_ c) (request_ c) (provider_ c) (policy_ c) (reservation_ c) link active accounted
     (active_connection_ c) (connect_timer_ c) (first_byte_timer_ c) (total_timer_ c) (generation_ c)
     (retries_ c) (coordinator_overloaded_ c) (committed_ c) (upstream_read_paused_ c) (finished_ c)
     (logged_ c) (stream_callbacks_ c) (response_head_ c) (queued_ c).
Definition set_timers (c1 c2 c3 : Z) (c : t) : t :=
  mk (endpoint_ c) (request_ c) (provider_ c) (policy_ c) (reservation_ c) (breaker_link_ c)
     (active_reservation_ c) (attempt_accounted_ c) (active_connection_ c) c1 c2 c3 (generation_ c)
     (retries_ c) (coordinator_overloaded_ c) (committed_ c) (upstream_read_paused_ c) (finished_ c)
     (logged_ c) (stream_callbacks_ c) (response_head_ c) (queued_ c).
Definition set_counters (generation retries : Z) (overloaded : bool) (c : t) : t :=
  mk (endpoint_ c) (request_ c) (provider_ c) (policy_ c) (reservation_ c) (breaker_link_ c)
     (active_reservation_ c) (attempt_accounted_ c) (active_connection_ c) (connect_timer_ c)
     (first_byte_timer_ c) (total_timer_ c) generation retries overloaded (committed_ c)
     (upstream_read_paused_ c) (finished_ c) (logged_ c) (stream_callbacks_ c) (response_head_ c) (queued_ c).
Definition set_flags (reservation connection committed paused finished logged callbacks : bool) (c : t) : t :=
  mk (endpoint_ c) (request_ c) (provider_ c) (policy_ c) reservation (breaker_link_ c)
     (active_reservation_ c) (attempt_accounted_ c) connection (connect_timer_ c) (first_byte_timer_ c)
     (total_timer_ c) (generation_ c) (retries_ c) (coordinator_overloaded_ c) committed paused finished
     logged callbacks (response_head_ c) (queued_ c).
Definition set_data (endpoint : option Endpoint) (head : HttpResponseHead) (queue : list task) (c : t) : t :=
  mk endpoint (request_ c) (provider_ c) (policy_ c) (reservation_ c) (breaker_link_ c)
     (active_reservation_ c) (attempt_accounted_ c) (active_connection_ c) (connect_timer_ c)
     (first_byte_timer_ c) (total_timer_ c) (generation_ c) (retries_ c) (coordinator_overloaded_ c)
     (committed_ c) (upstream_read_paused_ c) (finished_ c) (logged_ c) (stream_callbacks_ c) head queue.

Definition set_connection (b : bool) (c : t) : t :=
  set_flags (reservation_ c) b (committed_ c) (upstream_read_paused_ c) (finished_ c) (logged_ c)
            (stream_callbacks_ c) c.
Definition set_finished (c : t) : t :=
  set_flags (reservation_ c) (active_connection_ c) (committed_ c) (upstream_read_paused_ c) true (logged_ c)
            (stream_callbacks_ c) c.
Definition set_paused (b : bool) (c : t) : t :=
  set_flags (reservation_ c) (active_connection_ c) (committed_ c) b (finished_ c) (logged_ c)
            (stream_callbacks_ c) c.
Definition set_callbacks (b : bool) (c : t) : t :=
  set_flags (reservation_ c) (active_connection_ c) (committed_ c) (upstream_read_paused_ c) (finished_ c)
            (logged_ c) b c.
Definition enqueue (k : task) (c : t) : t :=
  set_data (endpoint_ c) (response_head_ c) (queued_ c ++ [k]) c.
Definition advance_generation (c : t) : t :=
  set_counters (wrap_u64 (generation_ c + 1)) (retries_ c) (coordinator_overloaded_ c) c.

(** ** The abstract specification *)

(** What the client has been told. *)
Inductive phase := PWait | PStreaming | PDone.

(** The client's view, the current attempt's breaker link and whether it was
    accounted, the two reservations held, whether the metric was completed, and
    the number of attempts started. *)
Record spec := mkSpec {
  sp_phase : phase;
  sp_link : option BreakerLink;
  sp_accounted : bool;
  sp_admission : bool;
  sp_active : option (nat * nat);
  sp_metric : bool;
  sp_attempts : Z
}.

Definition spec_start (reservation : bool) : spec := mkSpec PWait None false reservation None false 0.

#[global] Instance BreakerLink_eq_dec : EqDecision BreakerLink.
Proof. solve_decision. Defined.

(** The allowed next states; [None] is a violation of the contract: a second
    answer, a body outside a streamed response, a second release, publication
    or metric, an attempt after the client was told something. *)
Definition sstep (s : spec) (e : effect) : option spec :=
  let '(mkSpec ph link accounted admission active metric attempts) := s in
  match e with
  | FSelect l a =>
      match active with
      | None => Some (mkSpec ph l false admission a metric attempts)
      | Some _ => None
      end
  | FExecute _ _ =>
      match ph with
      | PWait => Some (mkSpec ph link false admission active metric (attempts + 1))
      | _ => None
      end
  | FPublish l _ =>
      if bool_decide (link = Some l) && negb accounted
      then Some (mkSpec ph link true admission active metric attempts) else None
  | FDropLink => Some (mkSpec ph None accounted admission active metric attempts)
  | FReleaseActive =>
      match active with
      | Some _ => Some (mkSpec ph link accounted admission None metric attempts)
      | None => None
      end
  | FReleaseAdmission =>
      if admission then Some (mkSpec ph link accounted false active metric attempts) else None
  | FSend _ =>
      match ph with
      | PWait => Some (mkSpec PDone link accounted admission active metric attempts)
      | _ => None
      end
  | FBegin _ =>
      match ph with
      | PWait => Some (mkSpec PStreaming link accounted admission active metric attempts)
      | _ => None
      end
  | FBody _ => match ph with PStreaming => Some s | _ => None end
  | FFinish =>
      match ph with
      | PStreaming => Some (mkSpec PDone link accounted admission active metric attempts)
      | _ => None
      end
  | FAbort =>
      match ph with
      | PDone => None
      | _ => Some (mkSpec PDone link accounted admission active metric attempts)
      end
  | FMetric _ _ =>
      if metric then None else Some (mkSpec ph link accounted admission active true attempts)
  | FLog _ _ | FSchedule _ _ _ | FCancelTimer _ _ | FPauseUpstream | FResumeUpstream | FCancelUpstream => Some s
  end.

Definition accept (reservation : bool) (l : list effect) : option spec :=
  foldl (fun o e => s ← o; sstep s e) (Some (spec_start reservation)) l.

Lemma accept_snoc r l e : accept r (l ++ [e]) = (s ← accept r l; sstep s e).
Proof. unfold accept. by rewrite foldl_app. Qed.

Section Transaction.
Context {W : Type} `{TransactionEnv W}.
Local Open Scope effect_scope.

Record machine := mkMachine { tx : t; world : W; log : list effect }.

Definition get {A : Type} (f : t -> A) : M machine A := gets (fun m => f (tx m)).
Definition ask {A : Type} (f : W -> A) : M machine A := gets (fun m => f (world m)).
Definition update (f : t -> t) : M machine unit :=
  modify (fun m => mkMachine (f (tx m)) (world m) (log m)).
Definition emit (e : effect) : M machine unit :=
  modify (fun m => mkMachine (tx m) (world m) (log m ++ [e])).
Definition call {A : Type} (f : W -> A * W) : M machine A := fun m =>
  let '(a, w) := f (world m) in Ret a (mkMachine (tx m) w (log m)).

(** ** Deadlines *)

Definition cancel_timer (d : deadline) (id : Z) : M machine unit :=
  if id =? 0 then ret tt else emit (FCancelTimer d id).

(** [timers_->ScheduleAfter]. *)
Definition schedule_after (d : deadline) (after : Z) : M machine Z :=
  id <- call (schedule after) ;;
  emit (FSchedule d after id);;
  ret id.

Definition CancelAttemptDeadlines : M machine unit :=
  down <- ask gateway_down ;;
  if (down : bool) then ret tt
  else
    c <- get (fun c => c) ;;
    cancel_timer DConnect (connect_timer_ c);;
    cancel_timer DFirstByte (first_byte_timer_ c);;
    update (fun c => set_timers 0 0 (total_timer_ c) c).

Definition CancelDeadlines : M machine unit :=
  down <- ask gateway_down ;;
  if (down : bool) then ret tt
  else
    CancelAttemptDeadlines;;
    c <- get (fun c => c) ;;
    cancel_timer DTotal (total_timer_ c);;
    update (fun c => set_timers (connect_timer_ c) (first_byte_timer_ c) 0 c).

Definition ArmConnectDeadline : M machine unit :=
  c <- get (fun c => c) ;;
  cancel_timer DConnect (connect_timer_ c);;
  id <- schedule_after DConnect (connect_timeout (policy_ c)) ;;
  update (fun c => set_timers id (first_byte_timer_ c) (total_timer_ c) c).

Definition ArmFirstByteDeadline : M machine unit :=
  c <- get (fun c => c) ;;
  id <- schedule_after DFirstByte (first_byte_timeout (policy_ c)) ;;
  update (fun c => set_timers (connect_timer_ c) id (total_timer_ c) c).

Definition ArmTotalDeadline : M machine unit :=
  c <- get (fun c => c) ;;
  id <- schedule_after DTotal (total_timeout (policy_ c)) ;;
  update (fun c => set_timers (connect_timer_ c) (first_byte_timer_ c) id c).

(** ** Guards and accounting *)

(** [reservation_.reset()]. *)
Definition release_admission : M machine unit :=
  held <- get (fun c => reservation_ c) ;;
  if (held : bool) then
    emit FReleaseAdmission;;
    update (fun c => set_flags false (active_connection_ c) (committed_ c) (upstream_read_paused_ c)
                       (finished_ c) (logged_ c) (stream_callbacks_ c) c)
  else ret tt.

(** [active_reservation_.Release()]. *)
Definition release_active : M machine unit :=
  held <- get (fun c => active_reservation_ c) ;;
  match held with
  | Some _ => emit FReleaseActive;; update (fun c => set_attempt (breaker_link_ c) None (attempt_accounted_ c) c)
  | None => ret tt
  end.

(** [breaker_link_.reset()]. *)
Definition drop_link : M machine unit :=
  link <- get (fun c => breaker_link_ c) ;;
  match link with
  | Some _ => emit FDropLink;; update (fun c => set_attempt None (active_reservation_ c) (attempt_accounted_ c) c)
  | None => ret tt
  end.

(** [AccountSuccess] and [AccountFailure]. *)
Definition Account (success : bool) : M machine unit :=
  c <- get (fun c => c) ;;
  match breaker_link_ c with
  | Some link =>
      if attempt_accounted_ c then ret tt
      else
        update (fun c => set_attempt (breaker_link_ c) (active_reservation_ c) true c);;
        emit (FPublish link success)
  | None => ret tt
  end.

Definition CompleteMetric (status : Z) (reason : bytes) : M machine unit := emit (FMetric status reason).

Definition LogTerminal (status : Z) (reason : bytes) : M machine unit :=
  logged <- get (fun c => logged_ c) ;;
  if (logged : bool) then ret tt
  else
    update (fun c => set_flags (reservation_ c) (active_connection_ c) (committed_ c)
                       (upstream_read_paused_ c) (finished_ c) true (stream_callbacks_ c) c);;
    emit (FLog status reason).

Definition ClearClientStreamCallbacks : M machine unit :=
  alive <- ask client_alive ;;
  if (alive : bool) then update (set_callbacks false) else ret tt.

Definition PauseUpstreamReading : M machine unit :=
  paused <- get (fun c => upstream_read_paused_ c) ;;
  if (paused : bool) then ret tt else update (set_paused true);; emit FPauseUpstream.

Definition ResumeUpstreamReading : M machine unit :=
  c <- get (fun c => c) ;;
  down <- ask gateway_down ;;
  if finished_ c || down then ret tt
  else if negb (upstream_read_paused_ c) then ret tt
  else update (set_paused false);; emit FResumeUpstream.

(** ** Terminal paths *)

(** [client_->AbortResponse()] while the client lives. *)
Definition abort_client : M machine unit :=
  alive <- ask client_alive ;;
  if (alive : bool) then ClearClientStreamCallbacks;; emit FAbort else ret tt.

Definition HandleClientAbort : M machine unit :=
  c <- get (fun c => c) ;;
  if finished_ c then ret tt
  else
    update set_finished;;
    update advance_generation;;
    CancelDeadlines;;
    release_admission;;
    release_active;;
    drop_link;;
    let status := if committed_ c then head_status (response_head_ c) else 502 in
    CompleteMetric status [];;
    LogTerminal status (lit "client_abort");;
    abort_client;;
    update (fun c => enqueue (TaskCancel (active_connection_ c)) c).

(** The request abort callback, if the call fired it. *)
Definition after_call (reply : client_reply) : M machine unit :=
  installed <- get (fun c => stream_callbacks_ c) ;;
  if aborts reply && installed then HandleClientAbort else ret tt.

(** [client_->SendResponse] with its exceptions caught. *)
Definition send_response (response : HttpResponse) : M machine unit :=
  emit (FSend response);;
  reply <- call (client_send response) ;;
  after_call reply.

Definition plain (status : Z) (reason : bytes) : HttpResponse := mkResponse status reason [] [] kNormal None.

Definition FinishNoEndpoint : M machine unit :=
  c <- get (fun c => c) ;;
  if finished_ c then ret tt
  else
    update set_finished;;
    update advance_generation;;
    CancelDeadlines;;
    release_admission;;
    let reason := if coordinator_overloaded_ c then lit "coordinator_overloaded"
                  else lit "no_healthy_endpoint" in
    emit (FMetric 503 reason);;
    LogTerminal 503 reason;;
    alive <- ask client_alive ;;
    if negb alive then ret tt
    else ClearClientStreamCallbacks;; send_response (plain 503 (lit "Service Unavailable")).

(** The shared end of [FinishFailure] and [FinishGatewayTimeout]. *)
Definition finish_with (committed : bool) (status : Z) (reason log_committed log_plain : bytes) : M machine unit :=
  CompleteMetric status [];;
  if committed then
    Account false;;
    LogTerminal status log_committed;;
    abort_client
  else
    LogTerminal status log_plain;;
    alive <- ask client_alive ;;
    if negb alive then ret tt
    else
      ClearClientStreamCallbacks;;
      Account false;;
      send_response (plain status reason).

Definition FinishFailure : M machine unit :=
  c <- get (fun c => c) ;;
  if finished_ c then ret tt
  else
    update set_finished;;
    update advance_generation;;
    CancelDeadlines;;
    release_admission;;
    release_active;;
    finish_with (committed_ c) 502 (lit "Bad Gateway") (lit "committed_truncated") (lit "upstream_failure").

Definition FinishGatewayTimeout : M machine unit :=
  c <- get (fun c => c) ;;
  if finished_ c then ret tt
  else
    update set_finished;;
    update advance_generation;;
    CancelDeadlines;;
    release_admission;;
    release_active;;
    (if active_connection_ c then emit FCancelUpstream else ret tt);;
    update (set_connection false);;
    finish_with (committed_ c) 504 (lit "Gateway Timeout") (lit "timeout") (lit "timeout").

Definition HandleDeadline (generation : Z) : M machine unit :=
  c <- get (fun c => c) ;;
  if finished_ c || negb (generation =? generation_ c) then ret tt else FinishGatewayTimeout.

Definition HandleTotalDeadline : M machine unit :=
  c <- get (fun c => c) ;;
  if finished_ c then ret tt else FinishGatewayTimeout.

(** ** The upstream's callbacks *)

Definition other_place (e : Endpoint) (x : Endpoint) : bool :=
  negb (bool_decide (ep_address x = ep_address e)) || negb (bool_decide (ep_port x = ep_port e)).

Definition HasRetryAlternative (c : t) : bool :=
  match endpoint_ c with
  | None => false
  | Some e => existsb (other_place e) (retry_endpoints (policy_ c))
  end.

Definition connection_failure (r : UpstreamResult) : bool :=
  match r with
  | UpstreamConnection.kConnectError | UpstreamConnection.kWriteError
  | UpstreamConnection.kReadError | UpstreamConnection.kEof => true
  | _ => false
  end.

Definition RetryableFailure (r : UpstreamResult) (c : t) : bool :=
  negb (committed_ c) && (retries_ c =? 0) && negb (budget (policy_ c) =? 0)
  && (beq (method (request_ c)) (lit "GET") || beq (method (request_ c)) (lit "HEAD"))
  && connection_failure r && (provider_ c || HasRetryAlternative c).

(** The end of a complete exchange. *)
Definition HandleSuccess (response : HttpResponse) : M machine unit :=
  update set_finished;;
  CancelDeadlines;;
  release_admission;;
  release_active;;
  c <- get (fun c => c) ;;
  alive <- ask client_alive ;;
  if negb alive then
    let status := if committed_ c then head_status (response_head_ c) else status response in
    CompleteMetric status [];; LogTerminal status (lit "client_gone")
  else if committed_ c then
    emit FFinish;;
    reply <- call client_finish ;;
    after_call reply;;
    CompleteMetric (head_status (response_head_ c)) [];;
    LogTerminal (head_status (response_head_ c)) [];;
    Account (negb (500 <=? head_status (response_head_ c)))
  else
    CompleteMetric (status response) [];;
    LogTerminal (status response) [];;
    Account (negb (500 <=? status response));;
    send_response (StripResponse response).

Definition HandleUpstream (r : UpstreamResult) (response : HttpResponse) : M machine unit :=
  c <- get (fun c => c) ;;
  if finished_ c then ret tt
  else
    update (set_connection false);;
    if RetryableFailure r c then
      release_active;;
      alive <- ask client_alive ;;
      (if (alive : bool) then Account false else ret tt);;
      update (enqueue TaskRetry)
    else if negb (bool_decide (r = UpstreamConnection.kSuccess)) then FinishFailure
    else HandleSuccess response.

Definition HandleProgress (p : UpstreamProgress) : M machine unit :=
  c <- get (fun c => c) ;;
  down <- ask gateway_down ;;
  if finished_ c || down then ret tt
  else
    match p with
    | UpstreamConnection.kConnected =>
        cancel_timer DConnect (connect_timer_ c);;
        update (fun c => set_timers 0 (first_byte_timer_ c) (total_timer_ c) c)
    | UpstreamConnection.kRequestWritten => ArmFirstByteDeadline
    | UpstreamConnection.kFirstByte =>
        cancel_timer DFirstByte (first_byte_timer_ c);;
        update (fun c => set_timers (connect_timer_ c) 0 (total_timer_ c) c)
    | UpstreamConnection.kResponseHeader => ret tt
    end.

Definition commit (head : HttpResponseHead) (c : t) : t :=
  set_flags (reservation_ c) (active_connection_ c) true (upstream_read_paused_ c) (finished_ c) (logged_ c)
            (stream_callbacks_ c) (set_data (endpoint_ c) (StripHead head) (queued_ c) c).

Definition HandleResponseHead (head : HttpResponseHead) : M machine unit :=
  c <- get (fun c => c) ;;
  down <- ask gateway_down ;;
  if finished_ c || down then ret tt
  else
    update (commit head);;
    alive <- ask client_alive ;;
    if negb alive then HandleClientAbort
    else
      emit (FBegin (StripHead head));;
      reply <- call (client_begin (StripHead head)) ;;
      after_call reply;;
      if throws reply then HandleClientAbort else ret tt.

(** [client_] is used without looking at its lifetime token. *)
Definition HandleResponseBody (bs : bytes) : M machine bool :=
  c <- get (fun c => c) ;;
  down <- ask gateway_down ;;
  if finished_ c || down then ret false
  else
    emit (FBody bs);;
    r <- call (client_write bs) ;;
    let '(reply, high) := r in
    after_call reply;;
    if throws reply then HandleClientAbort;; ret false
    else (if (high : bool) then PauseUpstreamReading else ret tt);; ret true.

(** ** Attempts *)

Fixpoint progress_all (ps : list UpstreamProgress) : M machine unit :=
  match ps with
  | [] => ret tt
  | p :: ps => HandleProgress p;; progress_all ps
  end.

(** [pool_->Execute] and what follows it. *)
Definition run_attempt : M machine bool :=
  ArmConnectDeadline;;
  c <- get (fun c => c) ;;
  match endpoint_ c with
  | None => stuck
  | Some endpoint =>
      emit (FExecute endpoint (StripRequest (request_ c)));;
      x <- call (execute endpoint (StripRequest (request_ c))) ;;
      let '(ps, r) := x in
      progress_all ps;;
      match r with
      | ExecPending => update (set_connection true);; ret true
      | ExecDone r response => HandleUpstream r response;; update (set_connection false);; ret true
      | ExecThrow => HandleUpstream UpstreamConnection.kConnectError default_response;; ret true
      end
  end.

Definition install (x : AttemptSelection) (c : t) : t :=
  set_attempt (sel_link x) (sel_active x) false
    (set_data (Some (sel_endpoint x)) (response_head_ c) (queued_ c) c).

Definition StartUpstream : M machine bool :=
  down <- ask gateway_down ;;
  if (down : bool) then ret false
  else
    CancelAttemptDeadlines;;
    update advance_generation;;
    drop_link;;
    update (fun c => set_counters (generation_ c) (retries_ c) false c);;
    c <- get (fun c => c) ;;
    if provider_ c then
      d <- call provide ;;
      match selection d with
      | None =>
          update (fun c => set_counters (generation_ c) (retries_ c) (coordinator_overloaded d) c);; ret false
      | Some x =>
          release_active;;
          emit (FSelect (sel_link x) (sel_active x));;
          update (install x);;
          run_attempt
      end
    else
      update (fun c => set_attempt (breaker_link_ c) (active_reservation_ c) false c);;
      run_attempt.

Definition count_retry (c : t) : t :=
  set_counters (generation_ c) (wrap_u32 (retries_ c + 1)) (coordinator_overloaded_ c) c.

Definition StartRetry : M machine bool :=
  c <- get (fun c => c) ;;
  if provider_ c then
    ok <- StartUpstream ;;
    if negb ok then ret false else update count_retry;; ret true
  else
    match endpoint_ c with
    | None => ret false
    | Some e =>
        match List.find (other_place e) (retry_endpoints (policy_ c)) with
        | None => ret false
        | Some next =>
            update (fun c => set_data (Some next) (response_head_ c) (queued_ c) c);;
            ok <- StartUpstream ;;
            if negb ok then ret false else update count_retry;; ret true
        end
    end.

Definition Begin : M machine unit :=
  down <- ask gateway_down ;;
  if (down : bool) then update set_finished
  else
    update (set_callbacks true);;
    ArmTotalDeadline;;
    ok <- StartUpstream ;;
    if negb ok then FinishNoEndpoint else ret tt.

Definition run_task (k : task) : M machine unit :=
  match k with
  | TaskRetry =>
      c <- get (fun c => c) ;;
      if finished_ c then ret tt
      else ok <- StartRetry ;; if negb ok then FinishFailure else ret tt
  | TaskCancel connection => if connection then emit FCancelUpstream else ret tt
  end.

(** ** Executions *)

(** What the event loop delivers, and [EvWorld] for any change outside. *)
Inductive event :=
| EvProgress (p : UpstreamProgress)
| EvHead (h : HttpResponseHead)
| EvBody (bs : bytes)
| EvResult (r : UpstreamResult) (response : HttpResponse)
| EvDeadline (generation : Z)
| EvTotalDeadline
| EvClientAbort
| EvDrained
| EvTask
| EvWorld (w : W).

(** The upstream reports while the exchange is active, its head once and
    before the body ([UpstreamConnection.upstream_exchange_exact]); a finished
    transaction ignores it. *)
Definition enabled (e : event) (c : t) : bool :=
  match e with
  | EvProgress _ | EvResult _ _ => finished_ c || active_connection_ c
  | EvHead _ => finished_ c || (active_connection_ c && negb (committed_ c))
  | EvBody _ => finished_ c || (active_connection_ c && committed_ c)
  | EvClientAbort | EvDrained => stream_callbacks_ c
  | _ => true
  end.

Definition deliver (e : event) : M machine unit :=
  match e with
  | EvProgress p => HandleProgress p
  | EvHead h => HandleResponseHead h
  | EvBody bs => HandleResponseBody bs;; ret tt
  | EvResult r response => HandleUpstream r response
  | EvDeadline g => HandleDeadline g
  | EvTotalDeadline => HandleTotalDeadline
  | EvClientAbort => HandleClientAbort
  | EvDrained => ResumeUpstreamReading
  | EvTask =>
      q <- get (fun c => queued_ c) ;;
      match q with
      | [] => ret tt
      | k :: q => update (fun c => set_data (endpoint_ c) (response_head_ c) q c);; run_task k
      end
  | EvWorld w => modify (fun m => mkMachine (tx m) w (log m))
  end.

Fixpoint run (es : list event) : M machine unit :=
  match es with
  | [] => ret tt
  | e :: es =>
      c <- get (fun c => c) ;;
      (if enabled e c then deliver e else ret tt);; run es
  end.

(** ** The transaction refines the specification *)

Section Refinement.
Context (held : bool) (retry_budget : Z) (sync : bool).

(** The members the specification does not mention, blanked. *)
Definition core (c : t) : t :=
  set_timers 0 0 0 (set_counters 0 (retries_ c) false
    (set_flags (reservation_ c) (active_connection_ c) (committed_ c) false (finished_ c) false false c)).

(** The machine is at [c], up to those members, and its log leads to [s]. *)
Definition at_ (c : t) (s : spec) (m : machine) : Prop :=
  core (tx m) = core c /\ accept held (log m) = Some s.

(** The specification tracks the members it mentions. *)
Record tracks (c : t) (s : spec) : Prop := {
  tr_link : sp_link s = breaker_link_ c;
  tr_accounted : sp_accounted s = attempt_accounted_ c;
  tr_admission : sp_admission s = reservation_ c;
  tr_active : sp_active s = active_reservation_ c
}.

Lemma tx_get {A : Type} (f : t -> A) Q E m : Q (f (tx m)) m -> wp (get f) Q E m.
Proof. done. Qed.

Lemma tx_ask {A : Type} (f : W -> A) Q E m : Q (f (world m)) m -> wp (ask f) Q E m.
Proof. done. Qed.

Lemma tx_update f Q E m : Q tt (mkMachine (f (tx m)) (world m) (log m)) -> wp (update f) Q E m.
Proof. done. Qed.

Lemma tx_emit e Q E m : Q tt (mkMachine (tx m) (world m) (log m ++ [e])) -> wp (emit e) Q E m.
Proof. done. Qed.

Lemma tx_call {A : Type} (f : W -> A * W) Q E m :
  (forall a w, f (world m) = (a, w) -> Q a (mkMachine (tx m) w (log m))) -> wp (call f) Q E m.
Proof. intros HQ. unfold wp, call. destruct (f (world m)) as [a w] eqn:Ef. by apply HQ. Qed.

(** An effect the specification allows. *)
Lemma emit_at e s' Q E c s m :
  at_ c s m -> sstep s e = Some s' -> (forall m', at_ c s' m' -> Q tt m') -> wp (emit e) Q E m.
Proof.
  intros [Hc Ha] Hs HQ. apply tx_emit, HQ. split; [done|]. simpl. by rewrite accept_snoc, Ha.
Qed.

(** Assignments that commute with blanking. *)
Lemma update_at f Q E c s m :
  (forall x y, core x = core y -> core (f x) = core (f y)) ->
  at_ c s m -> (forall m', at_ (f c) s m' -> Q tt m') -> wp (update f) Q E m.
Proof. intros Hf [Hc Ha] HQ. apply tx_update, HQ. split; [by apply Hf|done]. Qed.

(** Assignments to blanked members. *)
Lemma quiet_at f Q E c s m :
  (forall x, core (f x) = core x) ->
  at_ c s m -> (forall m', at_ c s m' -> Q tt m') -> wp (update f) Q E m.
Proof. intros Hf [Hc Ha] HQ. apply tx_update, HQ. split; [simpl; by rewrite Hf|done]. Qed.

Lemma call_at {A : Type} (f : W -> A * W) Q E c s m :
  at_ c s m -> (forall a m', at_ c s m' -> Q a m') -> wp (call f) Q E m.
Proof. intros Hm HQ. apply tx_call. intros a w _. by apply HQ. Qed.

(** Equality of cores gives equality of the members kept. *)
Lemma core_fields x y : core x = core y ->
  endpoint_ x = endpoint_ y /\ request_ x = request_ y /\ provider_ x = provider_ y /\
  policy_ x = policy_ y /\ reservation_ x = reservation_ y /\ breaker_link_ x = breaker_link_ y /\
  active_reservation_ x = active_reservation_ y /\ attempt_accounted_ x = attempt_accounted_ y /\
  active_connection_ x = active_connection_ y /\ retries_ x = retries_ y /\ committed_ x = committed_ y /\
  finished_ x = finished_ y /\ response_head_ x = response_head_ y /\ queued_ x = queued_ y.
Proof. destruct x, y; unfold core; simpl; intros E; simplify_eq. done. Qed.

Ltac core_same := let x := fresh in intros x; by destruct x.
Ltac core_both :=
  let x := fresh in let y := fresh in let Hxy := fresh in
  intros x y Hxy; destruct x, y; unfold core in Hxy |- *; simpl in Hxy |- *; simplify_eq; done.

Lemma cancel_timer_at d id Q E c s m :
  at_ c s m -> (forall m', at_ c s m' -> Q tt m') -> wp (cancel_timer d id) Q E m.
Proof.
  intros Hm HQ. unfold cancel_timer. apply wp_if; intros _; [by apply wp_ret, HQ|].
  eapply emit_at; [exact Hm|by destruct s|done].
Qed.

Lemma schedule_after_at d after Q E c s m :
  at_ c s m -> (forall id m', at_ c s m' -> Q id m') -> wp (schedule_after d after) Q E m.
Proof.
  intros Hm HQ. unfold schedule_after. apply wp_bind. eapply call_at; [exact Hm|]. intros id m1 Hm1.
  apply wp_bind. eapply emit_at; [exact Hm1|by destruct s|]. intros m2 Hm2. by apply wp_ret, HQ.
Qed.

Lemma CancelAttemptDeadlines_at Q E c s m :
  at_ c s m -> (forall m', at_ c s m' -> Q tt m') -> wp CancelAttemptDeadlines Q E m.
Proof.
  intros Hm HQ. unfold CancelAttemptDeadlines. apply wp_bind, tx_ask, wp_if; intros _; [by apply wp_ret, HQ|].
  apply wp_bind, tx_get, wp_bind. eapply cancel_timer_at; [exact Hm|]. intros m1 Hm1.
  apply wp_bind. eapply cancel_timer_at; [exact Hm1|]. intros m2 Hm2.
  eapply quiet_at; [core_same|exact Hm2|done].
Qed.

Lemma CancelDeadlines_at Q E c s m :
  at_ c s m -> (forall m', at_ c s m' -> Q tt m') -> wp CancelDeadlines Q E m.
Proof.
  intros Hm HQ. unfold CancelDeadlines. apply wp_bind, tx_ask, wp_if; intros _; [by apply wp_ret, HQ|].
  apply wp_bind. eapply CancelAttemptDeadlines_at; [exact Hm|]. intros m1 Hm1.
  apply wp_bind, tx_get, wp_bind. eapply cancel_timer_at; [exact Hm1|]. intros m2 Hm2.
  eapply quiet_at; [core_same|exact Hm2|done].
Qed.

Lemma ArmConnectDeadline_at Q E c s m :
  at_ c s m -> (forall m', at_ c s m' -> Q tt m') -> wp ArmConnectDeadline Q E m.
Proof.
  intros Hm HQ. unfold ArmConnectDeadline. apply wp_bind, tx_get, wp_bind.
  eapply cancel_timer_at; [exact Hm|]. intros m1 Hm1. apply wp_bind. eapply schedule_after_at; [exact Hm1|].
  intros id m2 Hm2. eapply quiet_at; [core_same|exact Hm2|done].
Qed.

Lemma ArmFirstByteDeadline_at Q E c s m :
  at_ c s m -> (forall m', at_ c s m' -> Q tt m') -> wp ArmFirstByteDeadline Q E m.
Proof.
  intros Hm HQ. unfold ArmFirstByteDeadline. apply wp_bind, tx_get, wp_bind. eapply schedule_after_at; [exact Hm|].
  intros id m2 Hm2. eapply quiet_at; [core_same|exact Hm2|done].
Qed.

Lemma LogTerminal_at st r Q E c s m :
  at_ c s m -> (forall m', at_ c s m' -> Q tt m') -> wp (LogTerminal st r) Q E m.
Proof.
  intros Hm HQ. unfold LogTerminal. apply wp_bind, tx_get, wp_if; intros _; [by apply wp_ret, HQ|].
  apply wp_bind. eapply quiet_at; [core_same|exact Hm|]. intros m1 Hm1.
  eapply emit_at; [exact Hm1|by destruct s|done].
Qed.

Lemma ClearClientStreamCallbacks_at Q E c s m :
  at_ c s m -> (forall m', at_ c s m' -> Q tt m') -> wp ClearClientStreamCallbacks Q E m.
Proof.
  intros Hm HQ. unfold ClearClientStreamCallbacks. apply wp_bind, tx_ask, wp_if; intros _; [|by apply wp_ret, HQ].
  eapply quiet_at; [core_same|exact Hm|done].
Qed.

Lemma PauseUpstreamReading_at Q E c s m :
  at_ c s m -> (forall m', at_ c s m' -> Q tt m') -> wp PauseUpstreamReading Q E m.
Proof.
  intros Hm HQ. unfold PauseUpstreamReading. apply wp_bind, tx_get, wp_if; intros _; [by apply wp_ret, HQ|].
  apply wp_bind. eapply quiet_at; [core_same|exact Hm|]. intros m1 Hm1.
  eapply emit_at; [exact Hm1|by destruct s|done].
Qed.

Lemma ResumeUpstreamReading_at Q E c s m :
  at_ c s m -> (forall m', at_ c s m' -> Q tt m') -> wp ResumeUpstreamReading Q E m.
Proof.
  intros Hm HQ. unfold ResumeUpstreamReading. apply wp_bind, tx_get, wp_bind, tx_ask, wp_if; intros _; [by apply wp_ret, HQ|].
  apply wp_if; intros _; [by apply wp_ret, HQ|].
  apply wp_bind. eapply quiet_at; [core_same|exact Hm|]. intros m1 Hm1.
  eapply emit_at; [exact Hm1|by destruct s|done].
Qed.

Lemma HandleProgress_at p Q E c s m :
  at_ c s m -> (forall m', at_ c s m' -> Q tt m') -> wp (HandleProgress p) Q E m.
Proof.
  intros Hm HQ. unfold HandleProgress. apply wp_bind, tx_get, wp_bind, tx_ask, wp_if; intros _; [by apply wp_ret, HQ|].
  destruct p.
  - apply wp_bind. eapply cancel_timer_at; [exact Hm|]. intros m1 Hm1. eapply quiet_at; [core_same|exact Hm1|done].
  - by eapply ArmFirstByteDeadline_at.
  - apply wp_bind. eapply cancel_timer_at; [exact Hm|]. intros m1 Hm1. eapply quiet_at; [core_same|exact Hm1|done].
  - by apply wp_ret, HQ.
Qed.

Lemma progress_all_at ps Q E c s m :
  at_ c s m -> (forall m', at_ c s m' -> Q tt m') -> wp (progress_all ps) Q E m.
Proof.
  revert m. induction ps as [|p ps IH]; intros m Hm HQ; [by apply wp_ret, HQ|]. simpl. apply wp_bind.
  eapply HandleProgress_at; [exact Hm|]. intros m1 Hm1. by apply IH.
Qed.

(** *** Guards and accounting in any state *)

Definition with_admission (b : bool) (s : spec) : spec :=
  mkSpec (sp_phase s) (sp_link s) (sp_accounted s) b (sp_active s) (sp_metric s) (sp_attempts s).
Definition with_active (a : option (nat * nat)) (s : spec) : spec :=
  mkSpec (sp_phase s) (sp_link s) (sp_accounted s) (sp_admission s) a (sp_metric s) (sp_attempts s).
Definition with_attempt (l : option BreakerLink) (accounted : bool) (s : spec) : spec :=
  mkSpec (sp_phase s) l accounted (sp_admission s) (sp_active s) (sp_metric s) (sp_attempts s).
Definition with_metric (s : spec) : spec :=
  mkSpec (sp_phase s) (sp_link s) (sp_accounted s) (sp_admission s) (sp_active s) true (sp_attempts s).
Definition with_phase (ph : phase) (s : spec) : spec :=
  mkSpec ph (sp_link s) (sp_accounted s) (sp_admission s) (sp_active s) (sp_metric s) (sp_attempts s).

Definition no_admission (c : t) : t :=
  set_flags false (active_connection_ c) (committed_ c) (upstream_read_paused_ c) (finished_ c) (logged_ c)
            (stream_callbacks_ c) c.
Definition no_active (c : t) : t := set_attempt (breaker_link_ c) None (attempt_accounted_ c) c.

Lemma release_admission_at Q E c s m :
  at_ c s m -> tracks c s ->
  (forall m', at_ (no_admission c) (with_admission false s) m' ->
              tracks (no_admission c) (with_admission false s) -> Q tt m') ->
  wp release_admission Q E m.
Proof.
  intros Hm [T1 T2 T3 T4] HQ. pose proof (core_fields _ _ (proj1 Hm)) as (_ & _ & _ & _ & Hr & _).
  assert (Ht : tracks (no_admission c) (with_admission false s)) by done.
  unfold release_admission. apply wp_bind, tx_get. rewrite Hr. apply wp_if; intros Hh.
  - apply wp_bind. eapply (emit_at _ (with_admission false s)); [exact Hm| |].
    { destruct s; simpl in *. by rewrite T3, Hh. }
    intros m1 Hm1. eapply update_at; [core_both|exact Hm1|]. intros m2 Hm2. by apply HQ.
  - apply wp_ret, HQ; [|done]. destruct Hm as [Hc Ha]. split.
    + rewrite Hc. clear -Hh. unfold no_admission, no_active, core. destruct c; simpl in *. by subst.
    + rewrite Ha. unfold with_admission, with_active, with_attempt. destruct s; simpl in *. congruence.
Qed.

Lemma release_active_at Q E c s m :
  at_ c s m -> tracks c s ->
  (forall m', at_ (no_active c) (with_active None s) m' ->
              tracks (no_active c) (with_active None s) -> Q tt m') ->
  wp release_active Q E m.
Proof.
  intros Hm [T1 T2 T3 T4] HQ. pose proof (core_fields _ _ (proj1 Hm)) as (_ & _ & _ & _ & _ & _ & Hr & _).
  assert (Ht : tracks (no_active c) (with_active None s)) by done.
  unfold release_active. apply wp_bind, tx_get. rewrite Hr. destruct (active_reservation_ c) as [a|] eqn:Hh.
  - apply wp_bind. eapply (emit_at _ (with_active None s)); [exact Hm| |].
    { destruct s; simpl in *. by rewrite T4. }
    intros m1 Hm1. eapply update_at; [core_both|exact Hm1|]. intros m2 Hm2. by apply HQ.
  - apply wp_ret, HQ; [|done]. destruct Hm as [Hc Ha]. split.
    + rewrite Hc. clear -Hh. unfold no_admission, no_active, core. destruct c; simpl in *. by subst.
    + rewrite Ha. unfold with_admission, with_active, with_attempt. destruct s; simpl in *. congruence.
Qed.

Lemma drop_link_at Q E c s m :
  at_ c s m -> tracks c s ->
  (forall m', at_ (set_attempt None (active_reservation_ c) (attempt_accounted_ c) c)
                  (with_attempt None (attempt_accounted_ c) s) m' ->
              tracks (set_attempt None (active_reservation_ c) (attempt_accounted_ c) c)
                     (with_attempt None (attempt_accounted_ c) s) -> Q tt m') ->
  wp drop_link Q E m.
Proof.
  intros Hm [T1 T2 T3 T4] HQ. pose proof (core_fields _ _ (proj1 Hm)) as (_ & _ & _ & _ & _ & Hr & _).
  set (c' := set_attempt _ _ _ _) in *. set (s' := with_attempt _ _ _) in *.
  assert (Ht : tracks c' s') by done.
  unfold drop_link. apply wp_bind, tx_get. rewrite Hr. destruct (breaker_link_ c) as [l|] eqn:Hh.
  - apply wp_bind. eapply (emit_at _ s'); [exact Hm| |].
    { subst s'. unfold with_attempt. destruct s; simpl in *. congruence. }
    intros m1 Hm1. eapply update_at; [core_both|exact Hm1|]. intros m2 Hm2. by apply HQ.
  - apply wp_ret, HQ; [|done]. destruct Hm as [Hc Ha]. subst c' s'. split.
    + rewrite Hc. clear -Hh. unfold no_admission, no_active, core. destruct c; simpl in *. by subst.
    + rewrite Ha. unfold with_admission, with_active, with_attempt. destruct s; simpl in *. congruence.
Qed.

(** The attempt after it was accounted. *)
Definition accounted (c : t) : t :=
  match breaker_link_ c with
  | Some _ => set_attempt (breaker_link_ c) (active_reservation_ c) true c
  | None => c
  end.

Lemma Account_at b Q E c s m :
  at_ c s m -> tracks c s ->
  (forall m', at_ (accounted c) (with_attempt (sp_link s) (attempt_accounted_ (accounted c)) s) m' ->
              tracks (accounted c) (with_attempt (sp_link s) (attempt_accounted_ (accounted c)) s) -> Q tt m') ->
  wp (Account b) Q E m.
Proof.
  intros Hm [T1 T2 T3 T4] HQ.
  pose proof (core_fields _ _ (proj1 Hm)) as (_ & _ & _ & _ & _ & Hr & _ & Hacc & _).
  set (s' := with_attempt _ _ _) in *.
  assert (Ht : tracks (accounted c) s').
  { unfold accounted, s'. destruct (breaker_link_ c) eqn:El; constructor; simpl; try congruence.
    all: unfold accounted; by rewrite El. }
  assert (Hsame : attempt_accounted_ (accounted c) = attempt_accounted_ c -> Q tt m).
  { intros Ea. apply HQ; [|done]. destruct Hm as [Hc Ha]. split.
    - rewrite Hc. unfold accounted in *. destruct (breaker_link_ c) eqn:El; [|done].
      clear -Ea El. unfold core. destruct c; simpl in *. by subst.
    - rewrite Ha. unfold s'. rewrite Ea, <- T2. by destruct s. }
  unfold Account. apply wp_bind, tx_get. rewrite Hr. destruct (breaker_link_ c) as [l|] eqn:El.
  2: { apply wp_ret, Hsame. unfold accounted. by rewrite El. }
  rewrite Hacc. apply wp_if; intros Ea.
  { apply wp_ret, Hsame. unfold accounted. by rewrite El. }
  apply wp_bind.
  eapply (update_at (fun c => set_attempt (breaker_link_ c) (active_reservation_ c) true c));
    [core_both|exact Hm|]. intros m1 Hm1. eapply (emit_at _ s'); [exact Hm1| |].
  - unfold s', accounted, with_attempt. rewrite El. clear -T1 T2 Ea. destruct s; simpl in *.
    rewrite T1, T2, Ea, bool_decide_eq_true_2 by done. done.
  - intros m2 Hm2. apply HQ; [|done].
    replace (accounted c) with (set_attempt (breaker_link_ c) (active_reservation_ c) true c); [exact Hm2|].
    unfold accounted. by rewrite El.
Qed.

(** *** Terminal paths *)

(** A finished transaction after [n] attempts: everything it held was given
    back and the metric is complete. *)
Record settled (n : Z) (c : t) (s : spec) : Prop := {
  st_tracks : tracks c s;
  st_finished : finished_ c = true;
  st_admission : sp_admission s = false;
  st_active : sp_active s = None;
  st_metric : sp_metric s = true;
  st_attempts : sp_attempts s = n
}.

(** In addition a client that lives was told how it ended. *)
Definition ended (n : Z) (m : machine) : Prop := exists c s,
  at_ c s m /\ settled n c s /\ ((forall w, client_alive w = true) -> sp_phase s = PDone).

Lemma metric_at st r Q E c s m :
  at_ c s m -> tracks c s -> sp_metric s = false ->
  (forall m', at_ c (with_metric s) m' -> tracks c (with_metric s) -> Q tt m') -> wp (emit (FMetric st r)) Q E m.
Proof.
  intros Hm [T1 T2 T3 T4] Hs HQ. eapply (emit_at _ (with_metric s)); [exact Hm| |].
  - destruct s; simpl in *. by rewrite Hs.
  - intros m1 Hm1. by apply HQ.
Qed.

(** The first two assignments of every terminal path. *)
Lemma close_at {A : Type} (k : M machine A) Q E c s m :
  at_ c s m -> tracks c s ->
  (forall m', at_ (set_finished c) s m' -> tracks (set_finished c) s -> wp k Q E m') ->
  wp (update set_finished;; update advance_generation;; k) Q E m.
Proof.
  intros Hm [T1 T2 T3 T4] Hk. apply wp_bind. eapply update_at; [core_both|exact Hm|]. intros m1 Hm1.
  apply wp_bind. eapply quiet_at; [core_same|exact Hm1|]. intros m2 Hm2. by apply Hk.
Qed.

Lemma abort_client_at Q E c s m :
  at_ c s m -> tracks c s -> sp_phase s <> PDone ->
  (forall m' s', at_ c s' m' -> s' = s \/ s' = with_phase PDone s ->
     ((forall w, client_alive w = true) -> s' = with_phase PDone s) -> Q tt m') ->
  wp abort_client Q E m.
Proof.
  intros Hm Ht Hp HQ. unfold abort_client. apply wp_bind, tx_ask, wp_if; intros Ha.
  - apply wp_bind. eapply ClearClientStreamCallbacks_at; [exact Hm|]. intros m1 Hm1.
    eapply (emit_at _ (with_phase PDone s)); [exact Hm1| |].
    + unfold with_phase. destruct s as [[]]; simpl in *; done.
    + intros m2 Hm2. eapply HQ; [exact Hm2|by right|done].
  - apply wp_ret. eapply HQ; [exact Hm|by left|]. intros Hall. by rewrite Hall in Ha.
Qed.

Lemma tracks_phase ph c s : tracks c s -> tracks c (with_phase ph s).
Proof. intros [T1 T2 T3 T4]. by constructor. Qed.

(** Steps over one operation, keeping the current position in [Hm] and what
    the specification tracks in [Ht]. *)
Ltac quietly L Hm := apply wp_bind; eapply L; [exact Hm|]; clear Hm; let m := fresh "m" in intros m Hm.
Ltac tracking L Hm Ht :=
  apply wp_bind; eapply L; [exact Hm|exact Ht|]; clear Hm Ht; let m := fresh "m" in intros m Hm Ht.

Lemma HandleClientAbort_ends n Q E c s m :
  at_ c s m -> tracks c s -> finished_ c = false -> sp_metric s = false -> sp_phase s <> PDone ->
  sp_attempts s = n -> (forall m', ended n m' -> Q tt m') -> wp HandleClientAbort Q E m.
Proof.
  intros Hm Ht Hf Hmet Hp Hn HQ. unfold HandleClientAbort. apply wp_bind, tx_get.
  pose proof (core_fields _ _ (proj1 Hm)) as (_ & _ & _ & _ & _ & _ & _ & _ & _ & _ & _ & Ef & _).
  rewrite Ef, Hf. eapply close_at; [exact Hm|exact Ht|]. clear Hm Ht. intros m0 Hm Ht.
  quietly CancelDeadlines_at Hm. tracking release_admission_at Hm Ht. tracking release_active_at Hm Ht.
  tracking drop_link_at Hm Ht.
  apply wp_bind. eapply metric_at; [exact Hm|exact Ht|done|]. clear Hm Ht. intros m5 Hm Ht.
  quietly LogTerminal_at Hm.
  apply wp_bind. eapply abort_client_at; [exact Hm|exact Ht|done|]. clear Hm. intros m7 s' Hm Hs' Ha.
  eapply (update_at (fun c => enqueue (TaskCancel (active_connection_ c)) c)); [core_both|exact Hm|].
  intros m8 Hm8. apply HQ. eexists _, s'. split; [exact Hm8|].
  split; [|intros Hall; by rewrite (Ha Hall)].
  destruct Ht as [T1 T2 T3 T4]. destruct Hs' as [-> | ->]; by constructor.
Qed.

(** A finished transaction ignores the abort callback. *)
Lemma after_call_finished reply Q E c s m :
  at_ c s m -> finished_ c = true -> (forall m', at_ c s m' -> Q tt m') -> wp (after_call reply) Q E m.
Proof.
  intros Hm Hf HQ. unfold after_call. apply wp_bind, tx_get, wp_if; intros _; [|by apply wp_ret, HQ].
  unfold HandleClientAbort. apply wp_bind, tx_get.
  pose proof (core_fields _ _ (proj1 Hm)) as (_ & _ & _ & _ & _ & _ & _ & _ & _ & _ & _ & Ef & _).
  rewrite Ef, Hf. by apply wp_ret, HQ.
Qed.

Lemma settled_phase n ph c s : settled n c s -> settled n c (with_phase ph s).
Proof. intros []. constructor; try done. by apply tracks_phase. Qed.

Lemma send_response_ends r n Q E c s m :
  at_ c s m -> settled n c s -> sp_phase s = PWait -> (forall m', ended n m' -> Q tt m') ->
  wp (send_response r) Q E m.
Proof.
  intros Hm Hs Hp HQ. unfold send_response. apply wp_bind.
  eapply (emit_at _ (with_phase PDone s)); [exact Hm| |].
  { unfold with_phase. destruct s; simpl in *. by subst. }
  clear Hm. intros m1 Hm. apply wp_bind. eapply call_at; [exact Hm|]. clear Hm. intros reply m2 Hm.
  eapply after_call_finished; [exact Hm|apply Hs|]. intros m3 Hm3. apply HQ.
  exists c, (with_phase PDone s). split; [done|]. split; [by apply settled_phase|done].
Qed.

(** Sending while the client lives. *)
Lemma reply_ends r n Q E c s m :
  at_ c s m -> settled n c s -> sp_phase s = PWait -> (forall m', ended n m' -> Q tt m') ->
  wp (alive <- ask client_alive ;;
      if negb alive then ret tt else ClearClientStreamCallbacks;; send_response r) Q E m.
Proof.
  intros Hm Hs Hp HQ. apply wp_bind, tx_ask, wp_if; intros Ha.
  - apply wp_ret, HQ. exists c, s. split; [done|]. split; [done|].
    intros Hall. by rewrite Hall in Ha.
  - quietly ClearClientStreamCallbacks_at Hm. by eapply send_response_ends.
Qed.

Lemma FinishNoEndpoint_ends n Q E c s m :
  at_ c s m -> tracks c s -> finished_ c = false -> sp_metric s = false -> sp_phase s = PWait ->
  sp_active s = None -> sp_attempts s = n -> (forall m', ended n m' -> Q tt m') -> wp FinishNoEndpoint Q E m.
Proof.
  intros Hm Ht Hf Hmet Hp Hact Hn HQ. unfold FinishNoEndpoint. apply wp_bind, tx_get.
  pose proof (core_fields _ _ (proj1 Hm)) as (_ & _ & _ & _ & _ & _ & _ & _ & _ & _ & _ & Ef & _).
  rewrite Ef, Hf. eapply close_at; [exact Hm|exact Ht|]. clear Hm Ht. intros m0 Hm Ht.
  quietly CancelDeadlines_at Hm. tracking release_admission_at Hm Ht.
  apply wp_bind. eapply metric_at; [exact Hm|exact Ht|done|]. clear Hm Ht. intros m5 Hm Ht.
  quietly LogTerminal_at Hm. eapply reply_ends; [exact Hm| |done|done]. by constructor.
Qed.

Lemma Account_settled b n Q E c s m :
  at_ c s m -> settled n c s ->
  (forall m' c' s', at_ c' s' m' -> settled n c' s' -> sp_phase s' = sp_phase s -> Q tt m') -> wp (Account b) Q E m.
Proof.
  intros Hm [Ht S2 S3 S4 S5 S6] HQ. eapply Account_at; [exact Hm|exact Ht|]. clear Hm Ht. intros m1 Hm Ht.
  eapply HQ; [exact Hm| |done]. constructor; try done.
  unfold accounted. by destruct (breaker_link_ c).
Qed.

Lemma finish_with_ends (b : bool) st r l1 l2 n Q E c s m :
  at_ c s m -> settled n c (with_metric s) -> sp_metric s = false -> sp_phase s = (if b then PStreaming else PWait) ->
  (forall m', ended n m' -> Q tt m') -> wp (finish_with b st r l1 l2) Q E m.
Proof.
  intros Hm Hs Hmet Hp HQ. unfold finish_with, CompleteMetric. apply wp_bind.
  assert (Ht : tracks c s) by (destruct Hs as [[T1 T2 T3 T4]]; by constructor).
  eapply metric_at; [exact Hm|exact Ht|done|]. clear Hm Ht. intros m1 Hm _. destruct b.
  - apply wp_bind. eapply Account_settled; [exact Hm|exact Hs|]. clear Hm. intros m2 c' s' Hm Hs' Hp'.
    quietly LogTerminal_at Hm. eapply abort_client_at; [exact Hm|apply Hs'| |].
    { rewrite Hp'. simpl. congruence. }
    intros m4 s4 Hm4 Hs4 Ha. apply HQ. exists c', s4. split; [done|]. split.
    + destruct Hs4 as [-> | ->]; [done|by apply settled_phase].
    + intros Hall. by rewrite (Ha Hall).
  - quietly LogTerminal_at Hm. apply wp_bind, tx_ask, wp_if; intros Ha.
    + apply wp_ret, HQ. exists c, (with_metric s). split; [done|]. split; [done|].
      intros Hall. by rewrite Hall in Ha.
    + quietly ClearClientStreamCallbacks_at Hm. apply wp_bind.
      eapply Account_settled; [exact Hm|exact Hs|]. clear Hm. intros m4 c' s' Hm Hs' Hp'.
      eapply send_response_ends; [exact Hm|exact Hs'| |done]. by rewrite Hp'.
Qed.

(** What a live transaction has told the client. *)
Definition live_phase (c : t) (s : spec) : Prop :=
  sp_phase s = (if committed_ c then PStreaming else PWait).

Lemma FinishFailure_ends n Q E c s m :
  at_ c s m -> tracks c s -> finished_ c = false -> sp_metric s = false -> live_phase c s ->
  sp_attempts s = n -> (forall m', ended n m' -> Q tt m') -> wp FinishFailure Q E m.
Proof.
  intros Hm Ht Hf Hmet Hp Hn HQ. unfold FinishFailure. apply wp_bind, tx_get.
  pose proof (core_fields _ _ (proj1 Hm)) as (_ & _ & _ & _ & _ & _ & _ & _ & _ & _ & Ec & Ef & _).
  rewrite Ef, Hf, Ec. eapply close_at; [exact Hm|exact Ht|]. clear Hm Ht. intros m0 Hm Ht.
  quietly CancelDeadlines_at Hm. tracking release_admission_at Hm Ht. tracking release_active_at Hm Ht.
  eapply finish_with_ends; [exact Hm| |done|done|done].
  destruct Ht as [T1 T2 T3 T4]. by constructor.
Qed.

Lemma FinishGatewayTimeout_ends n Q E c s m :
  at_ c s m -> tracks c s -> finished_ c = false -> sp_metric s = false -> live_phase c s ->
  sp_attempts s = n -> (forall m', ended n m' -> Q tt m') -> wp FinishGatewayTimeout Q E m.
Proof.
  intros Hm Ht Hf Hmet Hp Hn HQ. unfold FinishGatewayTimeout. apply wp_bind, tx_get.
  pose proof (core_fields _ _ (proj1 Hm)) as (_ & _ & _ & _ & _ & _ & _ & _ & _ & _ & Ec & Ef & _).
  rewrite Ef, Hf, Ec. eapply close_at; [exact Hm|exact Ht|]. clear Hm Ht. intros m0 Hm Ht.
  quietly CancelDeadlines_at Hm. tracking release_admission_at Hm Ht. tracking release_active_at Hm Ht.
  apply wp_bind. set (c1 := no_active _) in *. set (s1 := with_active _ _) in *.
  assert (Hk : forall m', at_ c1 s1 m' ->
    wp (update (set_connection false);;
        finish_with (committed_ c) 504 (lit "Gateway Timeout") (lit "timeout") (lit "timeout")) Q E m').
  { clear Hm. intros m' Hm. apply wp_bind. eapply (update_at (set_connection false)); [core_both|exact Hm|]. clear Hm. intros m4 Hm.
    eapply finish_with_ends; [exact Hm| |done|done|done].
    destruct Ht as [T1 T2 T3 T4]. by constructor. }
  apply wp_if; intros _; [|by apply wp_ret, Hk].
  eapply emit_at; [exact Hm|reflexivity|exact Hk].
Qed.

Lemma HandleSuccess_ends r n Q E c s m :
  at_ c s m -> tracks c s -> finished_ c = false -> sp_metric s = false -> live_phase c s ->
  sp_attempts s = n -> (forall m', ended n m' -> Q tt m') -> wp (HandleSuccess r) Q E m.
Proof.
  intros Hm Ht Hf Hmet Hp Hn HQ. unfold HandleSuccess. apply wp_bind.
  eapply (update_at set_finished); [core_both|exact Hm|].
  assert (Ht' : tracks (set_finished c) s) by (destruct Ht as [T1 T2 T3 T4]; by constructor).
  clear Hm Ht. rename Ht' into Ht. intros m0 Hm.
  quietly CancelDeadlines_at Hm. tracking release_admission_at Hm Ht. tracking release_active_at Hm Ht.
  set (c1 := no_active _) in *. set (s1 := with_active _ _) in *.
  assert (Hs : settled n c1 (with_metric s1)).
  { destruct Ht as [T1 T2 T3 T4]. by constructor. }
  apply wp_bind, tx_get.
  pose proof (core_fields _ _ (proj1 Hm)) as (_ & _ & _ & _ & _ & _ & _ & _ & _ & _ & Ec & _).
  apply wp_bind, tx_ask, wp_if; intros Ha.
  - apply wp_bind. eapply metric_at; [exact Hm|exact Ht|done|]. intros m4 Hm4 _.
    eapply LogTerminal_at; [exact Hm4|]. intros m5 Hm5. apply HQ. exists c1, (with_metric s1). split; [done|]. split; [done|].
    intros Hall. by rewrite Hall in Ha.
  - rewrite Ec. change (committed_ c1) with (committed_ c). unfold live_phase in Hp. apply wp_if; intros Hc; rewrite Hc in Hp.
    + apply wp_bind. eapply (emit_at _ (with_phase PDone s1)); [exact Hm| |].
      { unfold s1, with_phase, with_active. destruct s; simpl in *. by subst. }
      clear Hm. intros m4 Hm. apply wp_bind. eapply call_at; [exact Hm|]. clear Hm. intros reply m5 Hm.
      apply wp_bind. eapply after_call_finished; [exact Hm|done|]. clear Hm. intros m6 Hm.
      apply wp_bind. eapply metric_at; [exact Hm|by apply tracks_phase|done|]. clear Hm. intros m7 Hm _.
      quietly LogTerminal_at Hm. eapply Account_settled; [exact Hm|exact (settled_phase _ PDone _ _ Hs)|].
      intros m9 c' s' Hm' Hs' Hp'. apply HQ. exists c', s'. split; [done|]. split; [done|]. intros _. by rewrite Hp'.
    + apply wp_bind. eapply metric_at; [exact Hm|exact Ht|done|]. clear Hm. intros m4 Hm _.
      quietly LogTerminal_at Hm. apply wp_bind. eapply Account_settled; [exact Hm|exact Hs|].
      clear Hm. intros m9 c' s' Hm Hs' Hp'. eapply send_response_ends; [exact Hm|exact Hs'| |done]. by rewrite Hp'.
Qed.

(** *** The live transaction *)

(** Nothing terminal has happened: [a] attempts were started, [r] of them
    counted as retries. *)
Record base (a r : Z) (c : t) (s : spec) : Prop := {
  bs_tracks : tracks c s;
  bs_finished : finished_ c = false;
  bs_phase : live_phase c s;
  bs_metric : sp_metric s = false;
  bs_attempts : sp_attempts s = a;
  bs_retries : retries_ c = r;
  bs_budget : budget (policy_ c) = retry_budget;
  bs_endpoint : is_Some (endpoint_ c)
}.

(** No exchange is under way: before an attempt, or with a retry queued. *)
Definition between (q : list task) (c : t) : Prop :=
  active_connection_ c = false /\ queued_ c = q /\ committed_ c = false /\ active_reservation_ c = None.
Definition busy (c : t) : Prop := active_connection_ c = true /\ queued_ c = [].

(** A machine at [c], or one whose transaction ended. *)
Definition at_or_ended (n : Z) (P : t -> spec -> Prop) (m : machine) : Prop :=
  ended n m \/ exists c s, at_ c s m /\ P c s.

(** Assignments a finished transaction may still make. *)
Lemma ended_update f n Q E m :
  (forall x y, core x = core y -> core (f x) = core (f y)) ->
  (forall x, breaker_link_ (f x) = breaker_link_ x /\ attempt_accounted_ (f x) = attempt_accounted_ x /\
             reservation_ (f x) = reservation_ x /\ active_reservation_ (f x) = active_reservation_ x /\
             finished_ (f x) = finished_ x) ->
  ended n m -> (forall m', ended n m' -> Q tt m') -> wp (update f) Q E m.
Proof.
  intros Hf Hk (c & s & Hm & Hs & Hp) HQ. eapply update_at; [exact Hf|exact Hm|]. intros m' Hm'. apply HQ.
  exists (f c), s. split; [done|]. split; [|done]. destruct (Hk c) as (K1 & K2 & K3 & K4 & K5).
  destruct Hs as [[T1 T2 T3 T4] S2 S3 S4 S5 S6]. repeat split; congruence.
Qed.

Lemma ended_finished n m : ended n m -> finished_ (tx m) = true.
Proof.
  intros (c & s & Hm & Hs & _).
  pose proof (core_fields _ _ (proj1 Hm)) as (_ & _ & _ & _ & _ & _ & _ & _ & _ & _ & _ & Ef & _).
  rewrite Ef. apply Hs.
Qed.

Lemma HandleClientAbort_ended n Q E m :
  ended n m -> (forall m', ended n m' -> Q tt m') -> wp HandleClientAbort Q E m.
Proof.
  intros Hm HQ. unfold HandleClientAbort. apply wp_bind, tx_get. rewrite (ended_finished n m Hm).
  by apply wp_ret, HQ.
Qed.

Lemma base_live_phase a r c s : base a r c s -> sp_phase s <> PDone.
Proof. intros []. unfold live_phase in *. rewrite bs_phase0. by destruct (committed_ c). Qed.

(** The abort callback of a live transaction. *)
Lemma after_call_at reply a r Q E c s m :
  at_ c s m -> base a r c s -> (forall m', ended a m' \/ at_ c s m' -> Q tt m') -> wp (after_call reply) Q E m.
Proof.
  intros Hm Hb HQ. unfold after_call. apply wp_bind, tx_get, wp_if; intros _.
  - pose proof (base_live_phase _ _ _ _ Hb). destruct Hb. eapply HandleClientAbort_ends; eauto.
  - apply wp_ret, HQ. by right.
Qed.

(** An exception of the client. *)
Lemma HandleClientAbort_either a r Q E c s m :
  ended a m \/ at_ c s m -> base a r c s -> (forall m', ended a m' -> Q tt m') -> wp HandleClientAbort Q E m.
Proof.
  intros [Hm|Hm] Hb HQ; [by eapply HandleClientAbort_ended|].
  pose proof (base_live_phase _ _ _ _ Hb). destruct Hb. by eapply HandleClientAbort_ends.
Qed.

Lemma HandleUpstream_at u response a r Q E c s m :
  at_ c s m -> base a r c s -> queued_ c = [] ->
  (forall m', ended a m' -> Q tt m') ->
  (forall m' c' s', at_ c' s' m' -> base a r c' s' -> between [TaskRetry] c' -> r = 0 -> retry_budget <> 0 -> Q tt m') ->
  wp (HandleUpstream u response) Q E m.
Proof.
  intros Hm Hb Hq HQ1 HQ2. unfold HandleUpstream. apply wp_bind, tx_get.
  pose proof (core_fields _ _ (proj1 Hm)) as (E1 & E2 & E3 & E4 & _ & _ & _ & _ & _ & E5 & E6 & Ef & _).
  pose proof Hb as [[T1 T2 T3 T4] B1 B2 B3 B4 B5 B6 B7].
  rewrite Ef, B1. apply wp_bind. eapply (update_at (set_connection false)); [core_both|exact Hm|].
  clear Hm. intros m1 Hm. assert (Ht : tracks (set_connection false c) s) by done.
  apply wp_if; intros Hr.
  - unfold RetryableFailure in Hr. rewrite E4, E5, E6, B5, B6 in Hr.
    apply andb_prop in Hr as [Hr _]. apply andb_prop in Hr as [Hr _]. apply andb_prop in Hr as [Hr _].
    apply andb_prop in Hr as [Hr Hbud]. apply andb_prop in Hr as [Hcom Hr]. apply Z.eqb_eq in Hr.
    apply negb_true_iff, Z.eqb_neq in Hbud. apply negb_true_iff in Hcom.
    tracking release_active_at Hm Ht. apply wp_bind, tx_ask, wp_bind.
    assert (Hk : forall m' c' s', at_ c' s' m' -> tracks c' s' -> 
       core c' = core (set_attempt (breaker_link_ c') None (attempt_accounted_ c') (set_connection false c)) ->
       sp_phase s' = sp_phase s -> sp_metric s' = sp_metric s -> sp_attempts s' = sp_attempts s ->
       wp (update (enqueue TaskRetry)) Q E m').
    { clear Hm Ht. intros m' c' s' Hm Ht Ec P1 P2 P3.
      pose proof (core_fields _ _ Ec) as (F1 & F2 & F3 & F4 & F5 & F6 & F7 & F8 & F9 & F10 & F11 & F12 & F13 & F14).
      simpl in *. eapply (update_at (enqueue TaskRetry)); [core_both|exact Hm|].
      intros m3 Hm3. eapply HQ2; [exact Hm3| | |exact Hr|exact Hbud].
      - destruct Ht as [U1 U2 U3 U4]. split; try (simpl; congruence); [done|].
        unfold live_phase in *. simpl. by rewrite P1, F11.
      - unfold between. simpl. rewrite F14, Hq. repeat split; congruence. }
    apply wp_if; intros _; [|by eapply wp_ret, Hk].
    eapply Account_at; [exact Hm|exact Ht|]. clear Hm Ht. intros m3 Hm Ht.
    eapply Hk; [exact Hm|exact Ht| |done..].
    unfold accounted. destruct (breaker_link_ _) eqn:El; simpl; [done|]. done.
  - assert (Hp : live_phase (set_connection false c) s) by done.
    apply wp_if; intros _.
    + eapply FinishFailure_ends; [exact Hm|exact Ht|done..].
    + eapply HandleSuccess_ends; [exact Hm|exact Ht|done..].
Qed.

Lemma HandleResponseHead_at h a r Q E c s m :
  at_ c s m -> base a r c s -> busy c -> committed_ c = false ->
  (forall m', at_or_ended a (fun c s => base a r c s /\ busy c) m' -> Q tt m') ->
  wp (HandleResponseHead h) Q E m.
Proof.
  intros Hm Hb Hbusy Hc HQ. unfold HandleResponseHead. apply wp_bind, tx_get, wp_bind, tx_ask, wp_if; intros _.
  { apply wp_ret, HQ. right. by exists c, s. }
  pose proof Hb as [[T1 T2 T3 T4] B1 B2 B3 B4 B5 B6 B7]. unfold live_phase in B2. rewrite Hc in B2.
  apply wp_bind. eapply (update_at (commit h)); [core_both|exact Hm|]. clear Hm. intros m1 Hm.
  apply wp_bind, tx_ask, wp_if; intros _.
  - eapply HandleClientAbort_ends; [exact Hm|done|done|done|congruence|done|]. intros m' Hm'. apply HQ. by left.
  - apply wp_bind. eapply (emit_at _ (with_phase PStreaming s)); [exact Hm| |].
    { unfold with_phase. destruct s; simpl in *. by subst. }
    clear Hm. intros m2 Hm. apply wp_bind. eapply call_at; [exact Hm|]. clear Hm. intros reply m3 Hm.
    assert (Hb' : base a r (commit h c) (with_phase PStreaming s)) by done.
    apply wp_bind. eapply after_call_at; [exact Hm|exact Hb'|]. clear Hm. intros m4 Hm. apply wp_if; intros _.
    + eapply HandleClientAbort_either; [exact Hm|exact Hb'|]. intros m' Hm'. apply HQ. by left.
    + apply wp_ret, HQ. destruct Hm as [Hm|Hm]; [by left|right]. by eexists _, _.
Qed.

Lemma HandleResponseBody_at bs a r Q E c s m :
  at_ c s m -> base a r c s -> busy c -> committed_ c = true ->
  (forall b m', at_or_ended a (fun c s => base a r c s /\ busy c) m' -> Q b m') ->
  wp (HandleResponseBody bs) Q E m.
Proof.
  intros Hm Hb Hbusy Hc HQ. unfold HandleResponseBody. apply wp_bind, tx_get, wp_bind, tx_ask, wp_if; intros _.
  { apply wp_ret, HQ. right. by exists c, s. }
  assert (Hp : sp_phase s = PStreaming) by (destruct Hb; unfold live_phase in *; by rewrite bs_phase0, Hc).
  apply wp_bind. eapply (emit_at _ s); [exact Hm| |].
  { destruct s; simpl in *. by subst. }
  clear Hm. intros m2 Hm. apply wp_bind. eapply call_at; [exact Hm|]. clear Hm. intros [reply high] m3 Hm.
  apply wp_bind. eapply after_call_at; [exact Hm|exact Hb|]. clear Hm. intros m4 Hm. apply wp_if; intros _.
  - apply wp_bind. eapply HandleClientAbort_either; [exact Hm|exact Hb|]. intros m' Hm'. apply wp_ret, HQ. by left.
  - apply wp_bind. destruct Hm as [(c' & s' & Hm & He)|Hm].
    + assert (Hk : forall m', at_ c' s' m' -> wp (ret true) Q E m').
      { intros m' Hm'. apply wp_ret, HQ. left. by exists c', s'. }
      apply wp_if; intros _; [|by apply wp_ret, Hk]. eapply PauseUpstreamReading_at; [exact Hm|exact Hk].
    + assert (Hk : forall m', at_ c s m' -> wp (ret true) Q E m').
      { intros m' Hm'. apply wp_ret, HQ. right. by exists c, s. }
      apply wp_if; intros _; [|by apply wp_ret, Hk]. eapply PauseUpstreamReading_at; [exact Hm|exact Hk].
Qed.

(** *** Attempts *)

(** After an attempt was started: it is under way, or it failed before
    [pool_->Execute] returned and a retry is queued. *)
Definition started (a r : Z) (c : t) (s : spec) : Prop :=
  base a r c s /\
  (busy c \/ between [TaskRetry] c /\ r = 0 /\ retry_budget <> 0 /\ sync = true).

(** Execute completes only later, unless [sync]. *)
Hypothesis Hsync : sync = false -> forall e q w, (execute e q w).1.2 = ExecPending.

(** The accounting of the new attempt starts with its execution. *)
Lemma run_attempt_at a r Q E c s m :
  at_ c s m -> base a r c (with_attempt (sp_link s) false s) -> queued_ c = [] -> committed_ c = false ->
  (forall m', at_or_ended (a + 1) (started (a + 1) r) m' -> Q true m') -> wp run_attempt Q E m.
Proof.
  intros Hm Hb Hq Hc HQ. unfold run_attempt. quietly ArmConnectDeadline_at Hm. apply wp_bind, tx_get.
  pose proof (core_fields _ _ (proj1 Hm)) as (E1 & _).
  destruct Hb as [[T1 T2 T3 T4] B1 B2 B3 B4 B5 B6 [e He]]. unfold live_phase in B2. rewrite Hc in B2.
  simpl in *. rewrite E1, He.
  set (s1 := mkSpec PWait (sp_link s) false (sp_admission s) (sp_active s) (sp_metric s) (sp_attempts s + 1)).
  apply wp_bind. eapply (emit_at _ s1); [exact Hm| |].
  { subst s1. destruct s; simpl in *. by subst. }
  assert (Hb : base (a + 1) r c s1).
  { split; try done; [|simpl; lia]. unfold live_phase. by rewrite Hc. }
  clear Hm. intros m1 Hm. apply wp_bind, tx_call. intros [ps x] w Hx. apply wp_bind.
  eapply progress_all_at; [exact Hm|]. clear Hm. intros m2 Hm.
  assert (Hok : x <> ExecPending -> sync = true).
  { intros Hne. destruct sync; [done|]. exfalso. apply Hne. specialize (Hsync eq_refl e (StripRequest (request_ (tx m0))) (world m1)).
    by rewrite Hx in Hsync. }
  assert (Hretry : forall m' c' s', sync = true -> at_ c' s' m' -> base (a + 1) r c' s' -> between [TaskRetry] c' ->
    r = 0 -> retry_budget <> 0 -> at_or_ended (a + 1) (started (a + 1) r) m').
  { intros m' c' s' Hs Hm' Hb' Hbt Hr Hbud. right. exists c', s'. split; [done|]. split; [done|]. by right. }
  destruct x as [|u response|].
  - apply wp_bind. eapply (update_at (set_connection true)); [core_both|exact Hm|]. clear Hm. intros m3 Hm.
    apply wp_ret, HQ. right. eexists _, s1. split; [exact Hm|]. split; [by destruct Hb as [[]]|]. by left.
  - apply wp_bind. eapply HandleUpstream_at; [exact Hm|exact Hb|done| |].
    + intros m3 Hm3. apply wp_bind. eapply (ended_update (set_connection false)); [core_both|done|exact Hm3|].
      intros m4 Hm4. apply wp_ret, HQ. by left.
    + intros m3 c' s' Hm3 Hb' Hbt Hr Hbud. apply wp_bind.
      eapply (update_at (set_connection false)); [core_both|exact Hm3|]. intros m4 Hm4. apply wp_ret, HQ.
      eapply Hretry; [by apply Hok|exact Hm4| | |done|done]; [by destruct Hb' as [[]]|].
      by destruct Hbt as (? & ? & ? & ?).
  - apply wp_bind. eapply HandleUpstream_at; [exact Hm|exact Hb|done| |].
    + intros m3 Hm3. apply wp_ret, HQ. by left.
    + intros m3 c' s' Hm3 Hb' Hbt Hr Hbud. apply wp_ret, HQ. eapply Hretry; eauto.
Qed.

Lemma StartUpstream_at a r Q E c s m :
  at_ c s m -> base a r c s -> between [] c ->
  (forall m', at_or_ended (a + 1) (started (a + 1) r) m' -> Q true m') ->
  (forall m' c' s', at_ c' s' m' -> base a r c' s' -> between [] c' -> Q false m') ->
  wp StartUpstream Q E m.
Proof.
  intros Hm Hb Hi HQ1 HQ2. pose proof Hi as (I1 & I2 & I3 & I4). unfold StartUpstream.
  apply wp_bind, tx_ask, wp_if; intros _; [by eapply wp_ret, HQ2|].
  quietly CancelAttemptDeadlines_at Hm.
  apply wp_bind. eapply quiet_at; [core_same|exact Hm|]. clear Hm. intros m1 Hm.
  destruct Hb as [Ht B1 B2 B3 B4 B5 B6 B7]. tracking drop_link_at Hm Ht.
  set (c1 := set_attempt _ _ _ _) in *. set (s1 := with_attempt _ _ _) in *.
  apply wp_bind. eapply quiet_at; [core_same|exact Hm|]. clear Hm. intros m3 Hm.
  apply wp_bind, tx_get.
  pose proof (core_fields _ _ (proj1 Hm)) as (_ & _ & E3 & _ & _ & _ & E7 & _).
  apply wp_if; intros _.
  - apply wp_bind. eapply call_at; [exact Hm|]. clear Hm E3 E7. intros d m4 Hm.
    destruct (selection d) as [x|].
    2: { apply wp_bind. eapply quiet_at; [core_same|exact Hm|]. intros m5 Hm5. eapply wp_ret, HQ2; [exact Hm5| |done].
         by split. }
    tracking release_active_at Hm Ht. apply wp_bind.
    eapply (emit_at _ (with_active (sel_active x) (with_attempt (sel_link x) false s))); [exact Hm| |].
    { unfold s1, with_active, with_attempt. destruct s; done. }
    clear Hm. intros m6 Hm. apply wp_bind. eapply (update_at (install x)); [core_both|exact Hm|].
    clear Hm. intros m7 Hm. destruct Ht as [T1 T2 T3 T4].
    eapply run_attempt_at; [exact Hm| |done|done|exact HQ1]. by split.
  - apply wp_bind. eapply (update_at (fun c => set_attempt (breaker_link_ c) (active_reservation_ c) false c));
      [core_both|exact Hm|]. clear Hm. intros m7 Hm. destruct Ht as [T1 T2 T3 T4].
    eapply run_attempt_at; [exact Hm| |done|done|exact HQ1]. by split.
Qed.

(** *** The invariant of the executions *)

(** The retries there can be, and the attempts. *)
Definition max_retries : Z := if sync then 2 else 1.
Definition attempt_limit : Z := if retry_budget =? 0 then 1 else max_retries + 1.

Definition live (r : Z) (c : t) (s : spec) : Prop :=
  base (r + 1) r c s /\ 0 <= r <= max_retries /\ (retry_budget = 0 -> r = 0) /\
  (busy c \/ between [TaskRetry] c /\ r <= max_retries - 1 /\ retry_budget <> 0).

Definition inv (m : machine) : Prop :=
  (exists n, ended n m /\ 0 <= n <= attempt_limit) \/ exists r c s, at_ c s m /\ live r c s.

Lemma max_retries_range : 1 <= max_retries <= 2.
Proof. unfold max_retries. destruct sync; lia. Qed.

Lemma attempt_limit_ge r : 0 <= r <= max_retries -> (retry_budget = 0 -> r = 0) -> 0 <= r + 1 <= attempt_limit.
Proof. unfold attempt_limit. intros H1 H2. destruct (Z.eqb_spec retry_budget 0); [rewrite H2 by done|]; lia. Qed.

Lemma live_ended r c s m : live r c s -> ended (r + 1) m -> inv m.
Proof. intros (_ & L1 & L2 & _) Hm. left. exists (r + 1). split; [done|]. by apply attempt_limit_ge. Qed.

Lemma StartRetry_inner a r Q E c s m :
  at_ c s m -> base (r + 1) r c s -> between [] c -> a = r + 1 -> 0 <= r <= max_retries - 1 -> retry_budget <> 0 ->
  (forall m', inv m' -> Q true m') ->
  (forall m' c' s', at_ c' s' m' -> base a r c' s' -> between [] c' -> Q false m') ->
  wp (ok <- StartUpstream ;; if negb ok then ret false else update count_retry;; ret true) Q E m.
Proof.
  intros Hm Hb Hi -> Hr Hbud HQ1 HQ2. pose proof max_retries_range as Hmax.
  apply wp_bind. eapply StartUpstream_at; [exact Hm|exact Hb|exact Hi| |].
  2: { intros m' c' s' Hm' Hb' Hi'. by eapply wp_ret, HQ2. }
  clear Hm. intros m1 [Hm|(c1 & s1 & Hm & Hb1 & Hw)]; simpl; apply wp_bind.
  - eapply (ended_update count_retry); [core_both|done|exact Hm|]. intros m2 Hm2. apply wp_ret, HQ1. left.
    exists (r + 1 + 1). split; [done|]. apply attempt_limit_ge; [lia|done].
  - eapply (update_at count_retry); [core_both|exact Hm|]. intros m2 Hm2. apply wp_ret, HQ1. right.
    exists (r + 1). eexists _, s1. split; [exact Hm2|].
    split; [|split; [lia|split; [done|]]].
    + destruct Hb1 as [[T1 T2 T3 T4] B1 B2 B3 B4 B5 B6 B7]. split; try done. simpl. rewrite B5. apply wrap_u32_small.
      unfold is_u32, u32_modulus. lia.
    + destruct Hw as [Hw|(Hw & -> & _ & Hs)]; [by left|right]. split; [done|]. split; [|done].
      unfold max_retries. rewrite Hs. lia.
Qed.

Lemma StartRetry_at r Q E c s m :
  at_ c s m -> base (r + 1) r c s -> between [] c -> 0 <= r <= max_retries - 1 -> retry_budget <> 0 ->
  (forall m', inv m' -> Q true m') ->
  (forall m' c' s', at_ c' s' m' -> base (r + 1) r c' s' -> between [] c' -> Q false m') ->
  wp StartRetry Q E m.
Proof.
  intros Hm Hb Hi Hr Hbud HQ1 HQ2. unfold StartRetry. apply wp_bind, tx_get. apply wp_if; intros _.
  { by eapply StartRetry_inner. }
  destruct (endpoint_ (tx m)) as [e|]; [|by eapply wp_ret, HQ2].
  destruct (List.find _ _) as [next|]; [|by eapply wp_ret, HQ2].
  apply wp_bind. eapply (update_at (fun c => set_data (Some next) (response_head_ c) (queued_ c) c)); [core_both|exact Hm|].
  intros m1 Hm1. eapply StartRetry_inner; [exact Hm1| |done|done|done|done|done|done].
  destruct Hb as [[T1 T2 T3 T4] B1 B2 B3 B4 B5 B6 B7]. by split.
Qed.

Lemma FinishFailure_live a r Q E c s m :
  at_ c s m -> base a r c s -> (forall m', ended a m' -> Q tt m') -> wp FinishFailure Q E m.
Proof. intros Hm [] HQ. by eapply FinishFailure_ends. Qed.

Lemma FinishGatewayTimeout_live a r Q E c s m :
  at_ c s m -> base a r c s -> (forall m', ended a m' -> Q tt m') -> wp FinishGatewayTimeout Q E m.
Proof. intros Hm [] HQ. by eapply FinishGatewayTimeout_ends. Qed.

Lemma emit_ended e n Q E m :
  (forall s, sstep s e = Some s) -> ended n m -> (forall m', ended n m' -> Q tt m') -> wp (emit e) Q E m.
Proof.
  intros He (c & s & Hm & Hs) HQ. eapply emit_at; [exact Hm|apply He|]. intros m' Hm'. apply HQ. by exists c, s.
Qed.

(** A finished transaction ignores what is delivered. *)
Lemma deliver_ended e n Q E m : ended n m -> (forall m', ended n m' -> Q tt m') -> wp (deliver e) Q E m.
Proof.
  intros Hm HQ. pose proof (ended_finished n m Hm) as Hf.
  destruct e as [p|h|bs|u response|g| | | | |w]; simpl.
  1-8: unfold HandleProgress, HandleResponseHead, HandleResponseBody, HandleUpstream, HandleDeadline,
    HandleTotalDeadline, HandleClientAbort, ResumeUpstreamReading;
    repeat (apply wp_bind, tx_get || apply wp_bind, tx_ask || apply wp_bind); rewrite ?Hf; simpl; try by apply wp_ret, HQ.
  - apply wp_bind, tx_get. destruct (queued_ (tx m)) as [|k q]; [by apply wp_ret, HQ|].
    apply wp_bind. eapply (ended_update (fun c => set_data (endpoint_ c) (response_head_ c) q c)); [core_both|done|exact Hm|].
    intros m1 Hm1. destruct k as [|[]]; simpl; [|eapply emit_ended; [by intros []|exact Hm1|exact HQ]|by apply wp_ret, HQ].
    apply wp_bind, tx_get. rewrite (ended_finished n m1 Hm1). by apply wp_ret, HQ.
  - apply wp_modify, HQ. destruct Hm as (c & s & Hm & Hs). by exists c, s.
Qed.

Lemma deliver_live e Q E r c s m :
  at_ c s m -> live r c s -> enabled e (tx m) = true -> (forall m', inv m' -> Q tt m') -> wp (deliver e) Q E m.
Proof.
  intros Hm Hl He HQ. pose proof Hl as (Hb & L1 & L2 & Hw).
  pose proof (core_fields _ _ (proj1 Hm)) as (_ & _ & _ & _ & _ & _ & _ & _ & E1 & _ & E2 & E3 & _ & E4).
  pose proof (bs_finished _ _ _ _ Hb) as Hf.
  assert (Hend : forall m', ended (r + 1) m' -> Q tt m') by (intros m' Hm'; by eapply HQ, live_ended).
  assert (Hsame : forall m', at_ c s m' -> Q tt m') by (intros m' Hm'; apply HQ; right; by exists r, c, s).
  assert (Hbusy : active_connection_ c = true -> busy c).
  { intros Ha. destruct Hw as [Hw|((Hn & _) & _)]; [done|congruence]. }
  assert (Hboth : forall m', at_or_ended (r + 1) (fun c s => base (r + 1) r c s /\ busy c) m' -> Q tt m').
  { intros m' [Hm'|(c' & s' & Hm' & Hb' & Hw')]; [by apply Hend|]. apply HQ. right. exists r, c', s'.
    split; [done|]. split; [done|]. split; [done|]. split; [done|]. by left. }
  destruct e as [p|h|bs|u response|g| | | | |w]; simpl in He |- *; rewrite ?E1, ?E2, ?E3, ?Hf in He; simpl in He.
  - by eapply HandleProgress_at.
  - apply andb_prop in He as [Ha Hc]. apply negb_true_iff in Hc. eapply HandleResponseHead_at; eauto.
  - apply andb_prop in He as [Ha Hc]. apply wp_bind. eapply HandleResponseBody_at; eauto.
  - eapply HandleUpstream_at; [exact Hm|exact Hb|apply Hbusy, He|exact Hend|].
    intros m' c' s' Hm' Hb' Hbt Hr Hbud. apply HQ. right. exists r, c', s'. split; [done|]. split; [done|].
    split; [done|]. split; [done|]. right. split; [done|]. split; [|done]. pose proof max_retries_range. lia.
  - unfold HandleDeadline. apply wp_bind, tx_get, wp_if; intros _; [by apply wp_ret, Hsame|].
    by eapply FinishGatewayTimeout_live.
  - unfold HandleTotalDeadline. apply wp_bind, tx_get, wp_if; intros _; [by apply wp_ret, Hsame|].
    by eapply FinishGatewayTimeout_live.
  - eapply HandleClientAbort_either; [by right|exact Hb|exact Hend].
  - by eapply ResumeUpstreamReading_at.
  - apply wp_bind, tx_get. rewrite E4. destruct Hw as [[_ ->]|((N1 & -> & N3 & N4) & N5 & N6)]; [by apply wp_ret, Hsame|].
    apply wp_bind. eapply (update_at (fun c => set_data (endpoint_ c) (response_head_ c) [] c)); [core_both|exact Hm|].
    intros m1 Hm1. simpl. apply wp_bind, tx_get.
    pose proof (core_fields _ _ (proj1 Hm1)) as (_ & _ & _ & _ & _ & _ & _ & _ & _ & _ & _ & Ef & _).
    rewrite Ef. change (finished_ (set_data (endpoint_ c) (response_head_ c) [] c)) with (finished_ c). rewrite Hf.
    apply wp_bind. eapply (StartRetry_at r); [exact Hm1| |done|lia|done| |].
    + by destruct Hb as [[]].
    + intros m2 Hm2. by apply wp_ret, HQ.
    + intros m2 c2 s2 Hm2 Hb2 _. eapply FinishFailure_live; [exact Hm2|exact Hb2|exact Hend].
  - by apply wp_modify, Hsame.
Qed.

Lemma deliver_inv e Q E m :
  inv m -> enabled e (tx m) = true -> (forall m', inv m' -> Q tt m') -> wp (deliver e) Q E m.
Proof.
  intros [(n & Hm & Hn)|(r & c & s & Hm & Hl)] He HQ; [|by eapply deliver_live].
  eapply deliver_ended; [exact Hm|]. intros m' Hm'. apply HQ. left. by exists n.
Qed.

Lemma run_events_inv es Q E m : inv m -> (forall m', inv m' -> Q tt m') -> wp (run es) Q E m.
Proof.
  revert m. induction es as [|e es IH]; intros m Hm HQ; [by apply wp_ret, HQ|]. simpl. apply wp_bind, tx_get, wp_bind.
  apply wp_if; intros He; [|by apply wp_ret, IH]. eapply deliver_inv; [done|done|]. intros m' Hm'. by apply IH.
Qed.

(** A transaction the gateway had already left behind. *)
Definition inert (m : machine) : Prop := finished_ (tx m) = true /\ queued_ (tx m) = [] /\ log m = [].

Lemma deliver_inert e Q E m : inert m -> (forall m', inert m' -> Q tt m') -> wp (deliver e) Q E m.
Proof.
  intros (Hf & Hq & Hl) HQ. destruct e as [p|h|bs|u response|g| | | | |w]; simpl.
  1-8: unfold HandleProgress, HandleResponseHead, HandleResponseBody, HandleUpstream, HandleDeadline,
    HandleTotalDeadline, HandleClientAbort, ResumeUpstreamReading;
    repeat (apply wp_bind, tx_get || apply wp_bind, tx_ask || apply wp_bind); rewrite ?Hf; simpl; by apply wp_ret, HQ.
  - apply wp_bind, tx_get. rewrite Hq. by apply wp_ret, HQ.
  - by apply wp_modify, HQ.
Qed.

Lemma run_inert es Q E m : inert m -> (forall m', inert m' -> Q tt m') -> wp (run es) Q E m.
Proof.
  revert m. induction es as [|e es IH]; intros m Hm HQ; [by apply wp_ret, HQ|]. simpl. apply wp_bind, tx_get, wp_bind.
  apply wp_if; intros He; [|by apply wp_ret, IH]. eapply deliver_inert; [done|]. intros m' Hm'. by apply IH.
Qed.

Lemma Begin_inv endpoint request provider policy w Q E :
  budget policy = retry_budget -> gateway_down w = false -> (forall m', inv m' -> Q tt m') ->
  wp Begin Q E (mkMachine (make endpoint request provider policy held) w []).
Proof.
  intros Hbud Hd HQ. set (c := make endpoint request provider policy held). unfold Begin.
  apply wp_bind, tx_ask. simpl. rewrite Hd.
  assert (Hm : at_ c (spec_start held) (mkMachine c w [])) by done.
  assert (Hb : base 0 0 c (spec_start held)) by (subst c; by split).
  apply wp_bind. eapply quiet_at; [core_same|exact Hm|]. clear Hm. intros m1 Hm. unfold ArmTotalDeadline.
  apply wp_bind, wp_bind, tx_get, wp_bind. eapply schedule_after_at; [exact Hm|]. clear Hm. intros id m2 Hm.
  eapply quiet_at; [core_same|exact Hm|]. clear Hm. intros m3 Hm.
  apply wp_bind. eapply StartUpstream_at; [exact Hm|exact Hb|done| |].
  - intros m4 [Hm4|(c' & s' & Hm4 & Hb' & Hw)]; apply wp_ret, HQ.
    + left. exists 1. split; [done|]. apply (attempt_limit_ge 0); [pose proof max_retries_range; lia|done].
    + right. exists 0, c', s'. split; [done|]. pose proof max_retries_range. split; [done|]. split; [lia|]. split; [done|].
      destruct Hw as [Hw|(Hw & _ & Hn & _)]; [by left|right]. split; [done|]. split; [lia|done].
  - intros m4 c' s' Hm4 [] Hbt. destruct Hbt as (_ & _ & Hc & Ha). unfold live_phase in *. rewrite Hc in *.
    eapply (FinishNoEndpoint_ends 0); [exact Hm4|done..| | |].
    + destruct bs_tracks0. congruence.
    + done.
    + intros m5 Hm5. apply HQ. left. exists 0. split; [done|]. pose proof (attempt_limit_ge 0). pose proof max_retries_range. lia.
Qed.

End Refinement.

(** *** Every operation returns *)

Create HintDb returning discriminated.
#[local] Hint Constants Opaque : returning.

Definition returns {A : Type} (x : M machine A) : Prop := forall m, nospin x m.

Lemma returns_bind {A B : Type} (x : M machine A) (k : A -> M machine B) :
  returns x -> (forall a, returns (k a)) -> returns (bind x k).
Proof. intros Hx Hk m. apply nospin_bind; [apply Hx|]. intros a m' _. apply Hk. Qed.

Lemma returns_call {A : Type} (f : W -> A * W) : returns (call f).
Proof. intros m. unfold nospin, call. by destruct (f (world m)). Qed.

(** Follows the structure of a computation; named operations are unfolded by
    the caller or resolved by the lemmas in [returning]. *)
Ltac returning :=
  intros; repeat first
    [ match goal with
      | |- returns (call _) => apply returns_call
      | |- returns (bind _ _) => apply returns_bind; [|intros]
      | |- returns (if ?b then _ else _) => destruct b
      | |- returns (match ?x with _ => _ end) => destruct x
      end
    | solve [eauto with returning nocore]
    | done ].

Lemma cancel_timer_returns d id : returns (cancel_timer d id).
Proof. unfold cancel_timer. returning. Qed.
#[local] Hint Resolve cancel_timer_returns : returning.
Lemma schedule_after_returns d after : returns (schedule_after d after).
Proof. unfold schedule_after. returning. Qed.
#[local] Hint Resolve schedule_after_returns : returning.
Lemma CancelAttemptDeadlines_returns : returns CancelAttemptDeadlines.
Proof. unfold CancelAttemptDeadlines. returning. Qed.
#[local] Hint Resolve CancelAttemptDeadlines_returns : returning.
Lemma CancelDeadlines_returns : returns CancelDeadlines.
Proof. unfold CancelDeadlines. returning. Qed.
#[local] Hint Resolve CancelDeadlines_returns : returning.
Lemma guards_return : returns release_admission /\ returns release_active /\ returns drop_link.
Proof. unfold release_admission, release_active, drop_link. split; [|split]; returning. Qed.
#[local] Hint Extern 0 (returns release_admission) => apply guards_return : returning.
#[local] Hint Extern 0 (returns release_active) => apply guards_return : returning.
#[local] Hint Extern 0 (returns drop_link) => apply guards_return : returning.
Lemma notes_return :
  (forall b, returns (Account b)) /\ (forall st r, returns (LogTerminal st r)) /\ returns abort_client.
Proof. unfold Account, LogTerminal, abort_client, ClearClientStreamCallbacks. split; [|split]; returning. Qed.
#[local] Hint Extern 0 (returns (Account _)) => apply notes_return : returning.
#[local] Hint Extern 0 (returns (LogTerminal _ _)) => apply notes_return : returning.
#[local] Hint Extern 0 (returns abort_client) => apply notes_return : returning.
Lemma HandleClientAbort_returns : returns HandleClientAbort.
Proof. unfold HandleClientAbort, CompleteMetric. returning. Qed.
#[local] Hint Resolve HandleClientAbort_returns : returning.
Lemma client_calls_return : (forall x, returns (after_call x)) /\ (forall r, returns (send_response r)).
Proof. unfold send_response, after_call. split; returning. Qed.
#[local] Hint Extern 0 (returns (after_call _)) => apply client_calls_return : returning.
#[local] Hint Extern 0 (returns (send_response _)) => apply client_calls_return : returning.
Lemma finish_with_returns b st r l1 l2 : returns (finish_with b st r l1 l2).
Proof. unfold finish_with, CompleteMetric, ClearClientStreamCallbacks. returning. Qed.
#[local] Hint Resolve finish_with_returns : returning.
Lemma terminal_return :
  returns FinishNoEndpoint /\ returns FinishFailure /\ returns FinishGatewayTimeout /\ forall r, returns (HandleSuccess r).
Proof.
  unfold FinishNoEndpoint, FinishFailure, FinishGatewayTimeout, HandleSuccess, CompleteMetric,
    ClearClientStreamCallbacks. split; [|split; [|split]]; returning.
Qed.
#[local] Hint Extern 0 (returns FinishNoEndpoint) => apply terminal_return : returning.
#[local] Hint Extern 0 (returns FinishFailure) => apply terminal_return : returning.
#[local] Hint Extern 0 (returns FinishGatewayTimeout) => apply terminal_return : returning.
#[local] Hint Extern 0 (returns (HandleSuccess _)) => apply terminal_return : returning.
Lemma HandleProgress_returns p : returns (HandleProgress p).
Proof. unfold HandleProgress, ArmFirstByteDeadline. returning. Qed.
#[local] Hint Resolve HandleProgress_returns : returning.
Lemma upstream_return :
  (forall u x, returns (HandleUpstream u x)) /\ (forall h, returns (HandleResponseHead h)) /\
  forall bs, returns (HandleResponseBody bs).
Proof.
  unfold HandleUpstream, HandleResponseHead, HandleResponseBody, PauseUpstreamReading.
  split; [|split]; returning.
Qed.
#[local] Hint Extern 0 (returns (HandleUpstream _ _)) => apply upstream_return : returning.
#[local] Hint Extern 0 (returns (HandleResponseHead _)) => apply upstream_return : returning.
#[local] Hint Extern 0 (returns (HandleResponseBody _)) => apply upstream_return : returning.
Lemma progress_all_returns ps : returns (progress_all ps).
Proof. induction ps; simpl; returning. Qed.
#[local] Hint Resolve progress_all_returns : returning.
Lemma StartUpstream_returns : returns StartUpstream.
Proof. unfold StartUpstream, run_attempt, ArmConnectDeadline. returning. Qed.
#[local] Hint Resolve StartUpstream_returns : returning.
Lemma StartRetry_returns : returns StartRetry.
Proof. unfold StartRetry. returning. Qed.
#[local] Hint Resolve StartRetry_returns : returning.
Lemma deliver_returns e : returns (deliver e).
Proof.
  destruct e; unfold deliver, HandleDeadline, HandleTotalDeadline, ResumeUpstreamReading, run_task; returning.
Qed.
#[local] Hint Resolve deliver_returns : returning.
Lemma run_returns es : returns (run es).
Proof. induction es; simpl; returning. Qed.
#[local] Hint Resolve run_returns : returning.
Lemma Begin_returns : returns Begin.
Proof. unfold Begin, ArmTotalDeadline. returning. Qed.
#[local] Hint Resolve Begin_returns : returning.

(** ** Theorems *)

(** A transaction from [Begin] on, under any sequence of events. *)
Definition serve (es : list event) : M machine unit := Begin;; run es.

Definition fresh (held : bool) (endpoint : Endpoint) (request : HttpRequest) (provider : bool)
    (policy : UpstreamPolicy) (w : W) : machine := mkMachine (make endpoint request provider policy held) w [].

(** The upstream exchanges started. *)
Definition is_execute (e : effect) : bool := match e with FExecute _ _ => true | _ => false end.
Definition attempts (l : list effect) : Z := Z.of_nat (length (filter is_execute l)).

Lemma accept_attempts r l s : accept r l = Some s -> sp_attempts s = attempts l.
Proof.
  revert s. induction l as [|e l IH] using rev_ind; intros s Hs; [by injection Hs as <-|].
  rewrite accept_snoc in Hs. destruct (accept r l) as [s0|] eqn:E0; [|done]. specialize (IH s0 eq_refl).
  unfold attempts in *. rewrite filter_app, length_app, Nat2Z.inj_add, <- IH. simpl in Hs.
  destruct s0 as [ph lk ac ad av mt n], e; simpl in *; repeat case_match; simplify_eq; simpl; lia.
Qed.

(** What holds after [Begin] and any events. *)
Lemma serve_inv sync held endpoint request provider policy w es :
  (sync = false -> forall e q w, (execute e q w).1.2 = ExecPending) ->
  exists m, serve es (fresh held endpoint request provider policy w) = Ret tt m /\
            (gateway_down w = true -> inert m) /\
            (gateway_down w = false -> inv held (budget policy) sync m).
Proof.
  intros Hsync.
  destruct (wp_total (serve es) (fun _ m => (gateway_down w = true -> inert m) /\
      (gateway_down w = false -> inv held (budget policy) sync m))
      (fresh held endpoint request provider policy w)) as ([] & m & Hr & Hm).
  - unfold serve. apply wp_bind. destruct (gateway_down w) eqn:Hd.
    + unfold Begin. apply wp_bind, tx_ask. simpl. rewrite Hd. apply tx_update. by apply run_inert.
    + eapply Begin_inv; [exact Hsync|reflexivity|exact Hd|]. intros m Hm.
      eapply run_events_inv; [exact Hsync|exact Hm|]. by intros m' Hm'.
  - apply returns_bind; [apply Begin_returns|]. intros _. apply run_returns.
  - by exists m.
Qed.

(** C3: Every execution of a transaction, whatever the upstream, the client,
    the timers and the provider do and in whatever order the events arrive,
    follows the specification: one answer, body bytes only inside a streamed
    response, each breaker outcome published at most once, the admission and
    every active slot given back once, the metric completed once.  A finished
    transaction has given everything back, and a client that lives was
    answered or aborted; an unfinished one has an exchange under way or a retry
    queued.  A transaction begun after the gateway went down does nothing. *)
Theorem transaction_refines held endpoint request provider policy w es :
  exists m s, serve es (fresh held endpoint request provider policy w) = Ret tt m /\
  accept held (log m) = Some s /\
  if gateway_down w then log m = []
  else if finished_ (tx m) then
    sp_admission s = false /\ sp_active s = None /\ sp_metric s = true /\
    ((forall w, client_alive w = true) -> sp_phase s = PDone)
  else
    sp_metric s = false /\ sp_phase s = (if committed_ (tx m) then PStreaming else PWait) /\
    (active_connection_ (tx m) = true \/ queued_ (tx m) = [TaskRetry]).
Proof.
  destruct (serve_inv true held endpoint request provider policy w es) as (m & Hr & Hd & Hi); [done|].
  exists m. destruct (gateway_down w).
  { destruct (Hd eq_refl) as (_ & _ & Hl). exists (spec_start held). by rewrite Hl. }
  clear Hd. destruct (Hi eq_refl) as [(n & (c & s & Hm & [] & Hp) & _)|(r & c & s & Hm & [] & _ & _ & Hw)].
  - exists s. split; [done|]. split; [apply Hm|].
    pose proof (core_fields _ _ (proj1 Hm)) as (_ & _ & _ & _ & _ & _ & _ & _ & _ & _ & _ & -> & _).
    rewrite st_finished0. done.
  - exists s. split; [done|]. split; [apply Hm|].
    pose proof (core_fields _ _ (proj1 Hm)) as (_ & _ & _ & _ & _ & _ & _ & _ & E1 & _ & E2 & -> & _ & E4).
    rewrite bs_finished0, E1, E2, E4. split; [done|]. split; [done|].
    destruct Hw as [[Hw _]|[(_ & Hw & _) _]]; [by left|by right].
Qed.

(** ** The total deadline

    [steady] operations never un-finish a transaction; [calm] ones also leave the
    total deadline alone while it is unfinished. *)

Definition is_total (e : effect) : bool :=
  match e with FSchedule DTotal _ _ | FCancelTimer DTotal _ => true | _ => false end.

(** The total deadline was scheduled once, for the policy's timeout, was not
    cancelled, and its identifier is kept. *)
Definition total_armed (after : Z) (m : machine) : Prop :=
  total_timeout (policy_ (tx m)) = after /\
  filter is_total (log m) = [FSchedule DTotal after (total_timer_ (tx m))].

Definition steady {A : Type} (x : M machine A) : Prop := forall m a m',
  x m = Ret a m' -> finished_ (tx m) = true -> finished_ (tx m') = true.
Definition calm {A : Type} (x : M machine A) : Prop := forall after m a m',
  x m = Ret a m' -> finished_ (tx m) = true \/ total_armed after m ->
  finished_ (tx m') = true \/ total_armed after m'.
Definition gentle {A : Type} (x : M machine A) : Prop := steady x /\ calm x.

Lemma gentle_steady {A : Type} (x : M machine A) : gentle x -> steady x.
Proof. by intros []. Qed.
Lemma gentle_calm {A : Type} (x : M machine A) : gentle x -> calm x.
Proof. by intros []. Qed.

Lemma steady_bind {A B : Type} (x : M machine A) (k : A -> M machine B) :
  steady x -> (forall a, steady (k a)) -> steady (bind x k).
Proof.
  intros Hx Hk m b m' Hr Hf. unfold bind in Hr. destruct (x m) as [a m1|m1| |] eqn:E; try done.
  eapply Hk; [exact Hr|]. by eapply Hx.
Qed.

Lemma calm_bind {A B : Type} (x : M machine A) (k : A -> M machine B) :
  calm x -> (forall a, calm (k a)) -> calm (bind x k).
Proof.
  intros Hx Hk after m b m' Hr Hf. unfold bind in Hr. destruct (x m) as [a m1|m1| |] eqn:E; try done.
  eapply Hk; [exact Hr|]. by eapply Hx.
Qed.

Lemma bind_inv {A B : Type} (x : M machine A) (k : A -> M machine B) m b m' :
  bind x k m = Ret b m' -> exists a m1, x m = Ret a m1 /\ k a m1 = Ret b m'.
Proof. unfold bind. destruct (x m) as [a m1|m1| |] eqn:E; try done. eauto. Qed.

(** Once the transaction is finished, anything steady may follow. *)
Lemma calm_finish {A : Type} (k : M machine A) : steady k -> calm (update set_finished;; k).
Proof. intros Hk after m b m' Hr _. left. eapply Hk; [exact Hr|done]. Qed.

Lemma steady_call {A : Type} (f : W -> A * W) : steady (call f).
Proof. intros m a m' Hr. unfold call in Hr. destruct (f (world m)). by simplify_eq. Qed.
Lemma calm_call {A : Type} (f : W -> A * W) : calm (call f).
Proof. intros after m a m' Hr. unfold call in Hr. destruct (f (world m)). by simplify_eq. Qed.

Lemma steady_update f : (forall c, finished_ c = true -> finished_ (f c) = true) -> steady (update f).
Proof. intros Hf m a m' Hr. injection Hr as <- <-. apply Hf. Qed.
Lemma calm_update f :
  (forall c, finished_ c = true -> finished_ (f c) = true) ->
  (forall c, total_timer_ (f c) = total_timer_ c) -> (forall c, policy_ (f c) = policy_ c) ->
  calm (update f).
Proof.
  intros Hf Ht Hp after m a m' Hr [Hd|[H1 H2]]; injection Hr as <- <-; [left; by apply Hf|right].
  unfold total_armed; simpl. by rewrite Ht, Hp.
Qed.

Lemma steady_emit e : steady (emit e).
Proof. intros m a m' Hr. by injection Hr as <- <-. Qed.
Lemma calm_emit e : is_total e = false -> calm (emit e).
Proof.
  intros He after m a m' Hr [Hd|[H1 H2]]; injection Hr as <- <-; [by left|right].
  unfold total_armed; simpl. rewrite filter_app, H2. split; [done|].
  rewrite filter_cons_False, filter_nil; [done|]. rewrite He. by intros [].
Qed.

(** Follows the structure of a computation, like [returning]. *)
Ltac keeping :=
  intros; repeat first
    [ match goal with
      | |- gentle _ => split
      | |- steady (call _) => apply steady_call
      | |- calm (call _) => apply calm_call
      | |- calm (bind (update set_finished) _) => apply calm_finish
      | |- steady (bind _ _) => apply steady_bind; [|intros]
      | |- calm (bind _ _) => apply calm_bind; [|intros]
      | |- steady (if ?b then _ else _) => destruct b
      | |- calm (if ?b then _ else _) => destruct b
      | |- steady (match ?x with _ => _ end) => destruct x
      | |- calm (match ?x with _ => _ end) => destruct x
      | |- steady (update _) => apply steady_update; done
      | |- calm (update _) => apply calm_update; done
      | |- steady (emit _) => apply steady_emit
      | |- calm (emit _) => apply calm_emit; done
      | |- steady (get _) => let E := fresh in intros ? ? ? E; by injection E as <- <-
      | |- calm (get _) => let E := fresh in intros ? ? ? ? E; by injection E as <- <-
      | |- steady (ask _) => let E := fresh in intros ? ? ? E; by injection E as <- <-
      | |- calm (ask _) => let E := fresh in intros ? ? ? ? E; by injection E as <- <-
      | |- steady (ret _) => let E := fresh in intros ? ? ? E; by injection E as <- <-
      | |- calm (ret _) => let E := fresh in intros ? ? ? ? E; by injection E as <- <-
      | |- steady stuck => let E := fresh in intros ? ? ? E; discriminate E
      | |- calm stuck => let E := fresh in intros ? ? ? ? E; discriminate E
      end
    | solve [eauto with keeping nocore]
    | solve [apply gentle_steady; eauto with keeping nocore]
    | solve [apply gentle_calm; eauto with keeping nocore] ].

Lemma cancel_timer_steady d id : steady (cancel_timer d id).
Proof. unfold cancel_timer. keeping. Qed.
#[local] Hint Resolve cancel_timer_steady : keeping.
Lemma cancel_timer_calm d id : d <> DTotal -> calm (cancel_timer d id).
Proof. unfold cancel_timer. destruct d; keeping; done. Qed.
#[local] Hint Extern 0 (calm (cancel_timer _ _)) => apply cancel_timer_calm; done : keeping.
Lemma schedule_after_gentle d after : d <> DTotal -> gentle (schedule_after d after).
Proof. unfold schedule_after. destruct d; keeping; done. Qed.
#[local] Hint Extern 0 (gentle (schedule_after _ _)) => apply schedule_after_gentle; done : keeping.
Lemma CancelAttemptDeadlines_gentle : gentle CancelAttemptDeadlines.
Proof. unfold CancelAttemptDeadlines. keeping. Qed.
#[local] Hint Resolve CancelAttemptDeadlines_gentle : keeping.
Lemma CancelDeadlines_steady : steady CancelDeadlines.
Proof. unfold CancelDeadlines. keeping. Qed.
#[local] Hint Resolve CancelDeadlines_steady : keeping.
Lemma release_admission_gentle : gentle release_admission.
Proof. unfold release_admission. keeping. Qed.
Lemma release_active_gentle : gentle release_active.
Proof. unfold release_active. keeping. Qed.
Lemma drop_link_gentle : gentle drop_link.
Proof. unfold drop_link. keeping. Qed.
Lemma Account_gentle b : gentle (Account b).
Proof. unfold Account. keeping. Qed.
Lemma LogTerminal_gentle st r : gentle (LogTerminal st r).
Proof. unfold LogTerminal. keeping. Qed.
Lemma abort_client_gentle : gentle abort_client.
Proof. unfold abort_client, ClearClientStreamCallbacks. keeping. Qed.
#[local] Hint Resolve release_admission_gentle release_active_gentle drop_link_gentle Account_gentle
  LogTerminal_gentle abort_client_gentle : keeping.
Lemma HandleClientAbort_gentle : gentle HandleClientAbort.
Proof. unfold HandleClientAbort, CompleteMetric. keeping. Qed.
#[local] Hint Resolve HandleClientAbort_gentle : keeping.
Lemma after_call_gentle x : gentle (after_call x).
Proof. unfold after_call. keeping. Qed.
#[local] Hint Resolve after_call_gentle : keeping.
Lemma send_response_gentle r : gentle (send_response r).
Proof. unfold send_response. keeping. Qed.
#[local] Hint Resolve send_response_gentle : keeping.
Lemma finish_with_gentle b st r l1 l2 : gentle (finish_with b st r l1 l2).
Proof. unfold finish_with, CompleteMetric, ClearClientStreamCallbacks. keeping. Qed.
#[local] Hint Resolve finish_with_gentle : keeping.
Lemma FinishNoEndpoint_gentle : gentle FinishNoEndpoint.
Proof. unfold FinishNoEndpoint, ClearClientStreamCallbacks. keeping. Qed.
Lemma FinishFailure_gentle : gentle FinishFailure.
Proof. unfold FinishFailure. keeping. Qed.
Lemma FinishGatewayTimeout_gentle : gentle FinishGatewayTimeout.
Proof. unfold FinishGatewayTimeout. keeping. Qed.
Lemma HandleSuccess_gentle r : gentle (HandleSuccess r).
Proof. unfold HandleSuccess, CompleteMetric. keeping. Qed.
Lemma HandleProgress_gentle p : gentle (HandleProgress p).
Proof. unfold HandleProgress, ArmFirstByteDeadline. keeping. Qed.
#[local] Hint Resolve FinishNoEndpoint_gentle FinishFailure_gentle FinishGatewayTimeout_gentle
  HandleSuccess_gentle HandleProgress_gentle : keeping.
Lemma HandleUpstream_gentle u x : gentle (HandleUpstream u x).
Proof. unfold HandleUpstream. keeping. Qed.
Lemma HandleResponseHead_gentle h : gentle (HandleResponseHead h).
Proof. unfold HandleResponseHead. keeping. Qed.
Lemma HandleResponseBody_gentle bs : gentle (HandleResponseBody bs).
Proof. unfold HandleResponseBody, PauseUpstreamReading. keeping. Qed.
Lemma progress_all_gentle ps : gentle (progress_all ps).
Proof. induction ps as [|p ps [IH1 IH2]]; simpl; keeping. Qed.
#[local] Hint Resolve HandleUpstream_gentle HandleResponseHead_gentle HandleResponseBody_gentle
  progress_all_gentle : keeping.
Lemma StartUpstream_gentle : gentle StartUpstream.
Proof. unfold StartUpstream, run_attempt, ArmConnectDeadline. keeping. Qed.
#[local] Hint Resolve StartUpstream_gentle : keeping.
Lemma StartRetry_gentle : gentle StartRetry.
Proof. unfold StartRetry. keeping. Qed.
#[local] Hint Resolve StartRetry_gentle : keeping.
Lemma deliver_gentle e : gentle (deliver e).
Proof.
  destruct e; unfold deliver, HandleDeadline, HandleTotalDeadline, ResumeUpstreamReading, run_task; keeping.
  - intros m a m' E. by injection E as <- <-.
  - intros after m a m' E. by injection E as <- <-.
Qed.
#[local] Hint Resolve deliver_gentle : keeping.
Lemma run_gentle es : gentle (run es).
Proof. induction es as [|e es [IH1 IH2]]; simpl; keeping. Qed.

(** From [Begin] on the total deadline is armed or the transaction finished. *)
Lemma serve_armed held endpoint request provider policy w es m :
  serve es (fresh held endpoint request provider policy w) = Ret tt m ->
  finished_ (tx m) = true \/ total_armed (total_timeout policy) m.
Proof.
  intros (? & m1 & Hb & Hr)%bind_inv. eapply (proj2 (run_gentle es)); [exact Hr|]. clear Hr.
  unfold Begin in Hb. apply bind_inv in Hb as (down & m2 & E & Hb). injection E as <- <-.
  simpl in Hb. destruct (gateway_down w); [injection Hb as <- <-; by left|].
  apply bind_inv in Hb as (? & m2 & E & Hb). injection E as <- <-.
  apply bind_inv in Hb as (? & m2 & E & Hb).
  assert (Ha : total_armed (total_timeout policy) m2).
  { unfold ArmTotalDeadline in E. apply bind_inv in E as (c & m3 & E3 & E). injection E3 as <- <-.
    apply bind_inv in E as (id & m3 & E3 & E). injection E as <- <-.
    unfold schedule_after in E3. apply bind_inv in E3 as (i & m4 & E4 & E3). unfold call in E4. simpl in E4.
    destruct (schedule _ w). injection E4 as <- <-. by injection E3 as <- <-. }
  assert (Hc : calm (ok <- StartUpstream ;; if negb ok then FinishNoEndpoint else ret tt)) by keeping.
  eapply Hc; [exact Hb|by right].
Qed.

(** *** What the deadline does *)

(** The effects the client or the upstream sees, and the metric. *)
Definition visible (e : effect) : bool :=
  match e with
  | FSend _ | FBegin _ | FBody _ | FFinish | FAbort | FCancelUpstream | FMetric _ _ => true
  | _ => false
  end.

(** [x] makes no visible effect and keeps what the end of the request reads. *)
Definition quiet (x : M machine unit) : Prop := forall m, exists m' ext,
  x m = Ret tt m' /\ log m' = log m ++ ext /\ world m' = world m /\ filter visible ext = [] /\
  finished_ (tx m') = finished_ (tx m).

Lemma quiet_bind x k : quiet x -> quiet k -> quiet (x;; k).
Proof.
  intros Hx Hk m. destruct (Hx m) as (m1 & e1 & E1 & L1 & W1 & V1 & F1).
  destruct (Hk m1) as (m2 & e2 & E2 & L2 & W2 & V2 & F2). exists m2, (e1 ++ e2).
  unfold bind. rewrite E1. split_and!; [done|by rewrite L2, L1, app_assoc|congruence| |congruence].
  by rewrite filter_app, V1, V2.
Qed.

Lemma quiet_emit e : visible e = false -> quiet (emit e).
Proof.
  intros He m. eexists _, [e]. split_and!; [done..| |done].
  rewrite filter_cons_False, filter_nil; [done|]. rewrite He. by intros [].
Qed.

Lemma quiet_update f : (forall c, finished_ (f c) = finished_ c) -> quiet (update f).
Proof. intros Hf m. eexists _, []. split_and!; try done. simpl. by rewrite app_nil_r. apply Hf. Qed.

Lemma quiet_ret : quiet (ret tt).
Proof. intros m. exists m, []. by rewrite app_nil_r. Qed.

(** Reading a member or the surroundings. *)
Lemma quiet_gets {A : Type} (f : machine -> A) (k : A -> M machine unit) :
  (forall a, quiet (k a)) -> quiet (bind (gets f) k).
Proof. intros Hk m. apply (Hk (f m) m). Qed.

Ltac quietly :=
  repeat first
    [ apply quiet_ret | (apply quiet_emit; done) | (apply quiet_update; done)
    | (apply quiet_gets; intros) | apply quiet_bind
    | match goal with
      | |- quiet (if ?b then _ else _) => destruct b
      | |- quiet (match ?x with _ => _ end) => destruct x
      end ].

Lemma CancelDeadlines_quiet : quiet CancelDeadlines.
Proof. unfold CancelDeadlines, CancelAttemptDeadlines, cancel_timer, ask, get. quietly. Qed.
Lemma release_admission_quiet : quiet release_admission.
Proof. unfold release_admission, get. quietly. Qed.
Lemma release_active_quiet : quiet release_active.
Proof. unfold release_active, get. quietly. Qed.
Lemma Account_quiet b : quiet (Account b).
Proof. unfold Account, get. quietly. Qed.
Lemma LogTerminal_quiet st r : quiet (LogTerminal st r).
Proof. unfold LogTerminal, get. quietly. Qed.

(** From a finished transaction on, the visible effects of [x] are [V]. *)
Definition shows (V : list effect) (x : M machine unit) (m : machine) : Prop := exists m' ext,
  x m = Ret tt m' /\ log m' = log m ++ ext /\ filter visible ext = V /\ finished_ (tx m') = true.

Lemma shows_quiet V x k m :
  quiet x -> finished_ (tx m) = true ->
  (forall m', world m' = world m -> finished_ (tx m') = true -> shows V k m') -> shows V (x;; k) m.
Proof.
  intros Hx Hf Hk. destruct (Hx m) as (m1 & e1 & E1 & L1 & W1 & V1 & F1).
  destruct (Hk m1 W1 ltac:(congruence)) as (m2 & e2 & E2 & L2 & V2 & F2). exists m2, (e1 ++ e2).
  unfold bind. rewrite E1. split_and!; [done|by rewrite L2, L1, app_assoc| |done].
  by rewrite filter_app, V1.
Qed.

Lemma shows_last x m : quiet x -> finished_ (tx m) = true -> shows [] x m.
Proof.
  intros Hx Hf. destruct (Hx m) as (m1 & e1 & E1 & L1 & _ & V1 & F1). exists m1, e1.
  split_and!; [done..|congruence].
Qed.

Lemma shows_emit V e k m :
  visible e = true -> shows V k (mkMachine (tx m) (world m) (log m ++ [e])) -> shows (e :: V) (emit e;; k) m.
Proof.
  intros He (m' & ext & E1 & L1 & V1 & F1). exists m', (e :: ext). split_and!; [done| | |done].
  - rewrite L1. simpl. by rewrite <- app_assoc.
  - rewrite filter_cons_True by (by rewrite He). by rewrite V1.
Qed.

Lemma shows_get V (k : t -> M machine unit) m :
  shows V (k (tx m)) m -> shows V (bind (get (fun c => c)) k) m.
Proof. done. Qed.

Lemma shows_finish V k m :
  shows V k (mkMachine (set_finished (tx m)) (world m) (log m)) -> shows V (update set_finished;; k) m.
Proof. done. Qed.

(** A finished transaction ignores the abort callback. *)
Lemma send_response_shows response m :
  finished_ (tx m) = true -> shows [FSend response] (send_response response) m.
Proof.
  intros Hf. unfold send_response. apply shows_emit; [done|].
  unfold shows, bind, call, after_call, HandleClientAbort, get, gets; simpl.
  destruct (client_send response (world m)) as [reply w]. simpl. unfold bind; simpl.
  exists (mkMachine (tx m) w (log m ++ [FSend response])), []. rewrite app_nil_r.
  destruct (aborts reply && stream_callbacks_ (tx m)); simpl; [|done]. unfold bind; simpl. by rewrite Hf.
Qed.

Lemma finish_with_shows (committed : bool) status reason l1 l2 m :
  finished_ (tx m) = true ->
  shows (FMetric status [] ::
         if client_alive (world m) then [if committed then FAbort else FSend (plain status reason)] else [])
        (finish_with committed status reason l1 l2) m.
Proof.
  intros Hf. unfold finish_with, CompleteMetric. apply shows_emit; [done|].
  change (world m) with (world (mkMachine (tx m) (world m) (log m ++ [FMetric status []]))).
  set (m1 := mkMachine _ _ _). assert (finished_ (tx m1) = true) as Hf1 by done. clearbody m1. clear m Hf.
  assert (Hclear : quiet ClearClientStreamCallbacks) by (unfold ClearClientStreamCallbacks, ask; quietly).
  destruct committed.
  - apply shows_quiet; [apply Account_quiet|done|]. intros m2 W2 F2.
    apply shows_quiet; [apply LogTerminal_quiet|done|]. intros m3 W3 F3. rewrite <- W2, <- W3.
    unfold abort_client, ask, gets. unfold shows, bind at 1; simpl.
    destruct (client_alive (world m3)).
    + apply (shows_quiet [FAbort] ClearClientStreamCallbacks (emit FAbort) m3 Hclear F3). intros m4 _ F4.
      exists (mkMachine (tx m4) (world m4) (log m4 ++ [FAbort])), [FAbort]. done.
    + by apply (shows_last (ret tt)), F3; apply quiet_ret.
  - apply shows_quiet; [apply LogTerminal_quiet|done|]. intros m2 W2 F2. rewrite <- W2.
    unfold ask, gets. unfold shows, bind at 1; simpl. destruct (client_alive (world m2)); simpl.
    + apply (shows_quiet [FSend (plain status reason)] _ _ m2 Hclear F2). intros m3 _ F3.
      apply shows_quiet; [apply Account_quiet|done|]. intros m4 _ F4. by apply send_response_shows.
    + by apply (shows_last (ret tt)), F2; apply quiet_ret.
Qed.

(** The deadline's end of an unfinished transaction. *)
Lemma FinishGatewayTimeout_shows m :
  finished_ (tx m) = false ->
  shows ((if active_connection_ (tx m) then [FCancelUpstream] else []) ++ FMetric 504 [] ::
         if client_alive (world m)
         then [if committed_ (tx m) then FAbort else FSend (plain 504 (lit "Gateway Timeout"))] else [])
        FinishGatewayTimeout m.
Proof.
  intros Hf. unfold FinishGatewayTimeout. apply shows_get. rewrite Hf. apply shows_finish.
  change (world m) with (world (mkMachine (set_finished (tx m)) (world m) (log m))) at 1.
  set (m1 := mkMachine (set_finished (tx m)) (world m) (log m)).
  assert (F1 : finished_ (tx m1) = true) by done. clearbody m1.
  generalize (active_connection_ (tx m)), (committed_ (tx m)). clear m Hf. intros conn com.
  apply shows_quiet; [by apply quiet_update|done|]. intros m2 W2 F2.
  apply shows_quiet; [apply CancelDeadlines_quiet|done|]. intros m3 W3 F3.
  rewrite <- W2, <- W3. clear W2 W3 F1 F2.
  apply shows_quiet; [apply release_admission_quiet|done|]. intros m4 W4 F4.
  apply shows_quiet; [apply release_active_quiet|done|]. intros m5 W5 F5.
  rewrite <- W4, <- W5. clear W4 W5 F4 F3.
  assert (Hend : forall m6, world m6 = world m5 -> finished_ (tx m6) = true ->
    shows (FMetric 504 [] :: if client_alive (world m5)
             then [if com then FAbort else FSend (plain 504 (lit "Gateway Timeout"))] else [])
      (update (set_connection false);;
       finish_with com 504 (lit "Gateway Timeout") (lit "timeout") (lit "timeout")) m6).
  { intros m6 W6 F6. apply shows_quiet; [by apply quiet_update|done|]. intros m7 W7 F7.
    rewrite <- W6, <- W7. by apply finish_with_shows. }
  destruct conn; [apply shows_emit; [done|]; by apply Hend|].
  apply shows_quiet; [apply quiet_ret|done|]. intros m6 W6 F6. by apply Hend.
Qed.

(** C16: The total deadline ends every transaction.  From [Begin] on it is
    scheduled once, for the policy's total timeout, and while the transaction is
    unfinished it is not cancelled and its identifier is kept.  When it fires, at
    any point of any execution, an unfinished transaction is finished: the
    exchange under way is cancelled, the metric completed with 504, and a living
    client is sent the 504 answer, or cut off if the response had begun, and
    nothing else; a finished transaction does nothing. *)
Theorem total_deadline_ends held endpoint request provider policy w es :
  exists m, serve es (fresh held endpoint request provider policy w) = Ret tt m /\
  (finished_ (tx m) = false ->
   filter is_total (log m) = [FSchedule DTotal (total_timeout policy) (total_timer_ (tx m))]) /\
  exists m' ext, deliver EvTotalDeadline m = Ret tt m' /\ log m' = log m ++ ext /\
    finished_ (tx m') = true /\
    filter visible ext =
      if finished_ (tx m) then []
      else (if active_connection_ (tx m) then [FCancelUpstream] else []) ++ FMetric 504 [] ::
           (if client_alive (world m)
            then [if committed_ (tx m) then FAbort else FSend (plain 504 (lit "Gateway Timeout"))]
            else []).
Proof.
  destruct (serve_inv true held endpoint request provider policy w es) as (m & Hr & _); [done|].
  exists m. split; [done|]. split.
  { intros Hf. destruct (serve_armed _ _ _ _ _ _ _ _ Hr) as [Hd|[_ Hd]]; [congruence|done]. }
  simpl. unfold HandleTotalDeadline, get, gets, bind at 1; simpl.
  destruct (finished_ (tx m)) eqn:Hf.
  - exists m, []. by rewrite app_nil_r.
  - destruct (FinishGatewayTimeout_shows m Hf) as (m' & ext & E & L & V & F). by exists m', ext.
Qed.

(** C15: The attempts of a request.  Without a retry budget there is one; with
    one there are at most two if [pool_->Execute] always leaves the result to a
    later event, and three if it can also complete before it returns. *)
Theorem attempts_bounded sync held endpoint request provider policy w es :
  (sync = false -> forall e q w, (execute e q w).1.2 = ExecPending) ->
  exists m, serve es (fresh held endpoint request provider policy w) = Ret tt m /\
            attempts (log m) <= (if budget policy =? 0 then 1 else if sync then 3 else 2).
Proof.
  intros Hsync. destruct (serve_inv sync held endpoint request provider policy w es Hsync) as (m & Hr & Hd & Hi).
  exists m. split; [done|]. assert (0 <= attempts (log m)) by (unfold attempts; lia).
  destruct (gateway_down w).
  { destruct (Hd eq_refl) as (_ & _ & Hl). rewrite Hl. unfold attempts. simpl. repeat case_match; lia. }
  clear Hd. destruct (Hi eq_refl) as [(n & (c & s & Hm & [] & _) & Hn)|(r & c & s & Hm & [] & Hr1 & Hr2 & _)].
  - rewrite <- (accept_attempts _ _ _ (proj2 Hm)), st_attempts0. unfold attempt_limit, max_retries in Hn.
    repeat case_match; lia.
  - rewrite <- (accept_attempts _ _ _ (proj2 Hm)), bs_attempts0.
    pose proof (attempt_limit_ge (budget policy) sync r Hr1 Hr2) as Hn. unfold attempt_limit, max_retries in Hn.
    repeat case_match; lia.
Qed.

End Transaction.
Arguments machine : clear implicits.
Arguments mkMachine {W}.
Arguments event : clear implicits.

(** ** Concrete surroundings *)

(** A provider that always selects the same endpoint, a client that takes
    everything, and [exchange] for what [pool_->Execute] does. *)
Definition example_attempt : AttemptDecision :=
  mkDecision (Some (mkSelection CoordinatorState.example_endpoint
                     (Some (mkLink 0 0 (CoordinatorState.mkPermit false 0 0))) (Some (0%nat, 0%nat))
                     Selection.SelectionState.example_config)) false.

Definition example_env (exchange : exec_result) : TransactionEnv unit := {|
  gateway_down := fun _ => false;
  client_alive := fun _ => true;
  schedule := fun _ w => (1, w);
  provide := fun w => (example_attempt, w);
  execute := fun _ _ w => ([], exchange, w);
  client_send := fun _ w => (mkClient false false, w);
  client_begin := fun _ w => (mkClient false false, w);
  client_write := fun _ w => (mkClient false false, false, w);
  client_finish := fun w => (mkClient false false, w)
|}.

Definition example_get : HttpRequest := mkRequest (lit "GET") (lit "/") (lit "HTTP/1.1") [] ∅.

Definition example_fresh : machine unit :=
  fresh true CoordinatorState.example_endpoint example_get true (mkPolicy 5000 5000 30000 1 []) tt.

(** The first exchange ends early, its retry answers. *)
Definition example_events : list (event unit) :=
  [EvResult UpstreamConnection.kEof default_response; EvTask;
   EvResult UpstreamConnection.kSuccess (plain 200 (lit "OK"))].

Lemma attempts_bounded_witness :
  exists m, @serve unit (example_env ExecPending) example_events example_fresh = Ret tt m /\
            attempts (log m) <= 2.
Proof.
  exact (@attempts_bounded unit (example_env ExecPending) false true CoordinatorState.example_endpoint example_get
           true (mkPolicy 5000 5000 30000 1 []) tt example_events (fun _ _ _ _ => eq_refl)).
Defined.

(** That execution makes two attempts and answers the client. *)
Example retry_answers :
  match @serve unit (example_env ExecPending) example_events example_fresh with
  | Ret _ m => attempts (log m) = 2 /\ finished_ (tx m) = true /\ List.existsb (fun e => match e with FSend r => status r =? 200 | _ => false end) (log m) = true
  | _ => False
  end.
Proof. vm_compute. auto. Qed.

(** With a budget of one retry, connections that fail before [pool_->Execute]
    returns make a request attempt three times: the retry is counted after it
    was started. *)
Theorem sync_failures_exceed_budget :
  match @serve unit (example_env (ExecDone UpstreamConnection.kConnectError default_response))
          [EvTask; EvTask] example_fresh with
  | Ret _ m => attempts (log m) = 3 /\ budget (policy_ (tx m)) = 1
  | _ => False
  end.
Proof. vm_compute. auto. Qed.

End ProxyTransaction.
