(* ===== verification/Forwarding.v ===== *)
(** * From the upstream's head to the client's

    Composes the response parser (HttpResponseParser.cpp), the removal of
    hop-by-hop fields (ProxyTransaction.cpp) and the serializer
    (HttpResponse.cpp): what the parser accepts can always be forwarded, and
    what is forwarded is the same status, reason and end-to-end fields. *)

From S2P Require Import Prelude Bytes HttpText HttpRequest HttpResponse UpstreamConnection ProxyTransaction.

Module Forwarding.
Import HttpText HttpResponse HttpResponseParser ProxyTransaction.

(** ** The tokens of a Connection field *)

(** The pieces between the commas. *)
Fixpoint split_commas (s : bytes) : list bytes :=
  match s with
  | [] => [[]]
  | c :: r =>
      if bool_decide (c = COMMA) then [] :: split_commas r
      else match split_commas r with
           | [] => [[c]]
           | p :: ps => (c :: p) :: ps
           end
  end.

Definition token_of (piece : bytes) : list bytes :=
  if bool_decide (TrimOws piece = []) then [] else [lower_all (TrimOws piece)].

Lemma split_commas_none s : COMMA ∉ s -> split_commas s = [s].
Proof.
  induction s as [|c s IH]; [done|]. rewrite not_elem_of_cons. intros [Hc Hs]. simpl.
  by rewrite bool_decide_eq_false_2, IH by done.
Qed.

Lemma split_commas_some s k : COMMA ∉ s -> split_commas (s ++ COMMA :: k) = s :: split_commas k.
Proof.
  induction s as [|c s IH]; [done|]. simpl.
  rewrite not_elem_of_cons. intros [Hc Hs]. by rewrite bool_decide_eq_false_2, IH by done.
Qed.

Lemma connection_tokens_spec fuel v :
  (length v <= fuel)%nat -> connection_tokens fuel v = concat (token_of <$> split_commas v).
Proof.
  revert v. induction fuel as [|fuel IH]; intros v Hv.
  { by destruct v; [|simpl in Hv; lia]. }
  simpl. case_bool_decide as Hnil; [by subst|].
  destruct (find v [COMMA]) as [n|] eqn:Hf.
  - apply find_byte_Some in Hf as [Hsplit Hnot]. 
    assert (split_commas v = take n v :: split_commas (drop (S n) v)) as ->
      by (rewrite Hsplit at 1; by apply split_commas_some).
    simpl. rewrite IH; [done|]. apply (f_equal length) in Hsplit. rewrite length_app in Hsplit. simpl in Hsplit. lia.
  - apply find_byte_None in Hf. rewrite split_commas_none by done. done.
Qed.

(** A token some Connection field of [hs] names. *)
Definition named_by_connection (hs : header_list) (name : bytes) : Prop :=
  exists f piece, f ∈ hs /\ lower_all f.1 = lit "connection" /\ piece ∈ split_commas f.2 /\
    TrimOws piece <> [] /\ lower_all (TrimOws piece) = name.

Lemma elem_concat {A : Type} (x : A) ls : x ∈ concat ls <-> exists l, x ∈ l /\ l ∈ ls.
Proof.
  rewrite list_elem_of_In, in_concat. setoid_rewrite list_elem_of_In. naive_solver.
Qed.

Lemma elem_HopByHopNames hs name :
  name ∈ HopByHopNames hs <-> name ∈ hop_by_hop \/ named_by_connection hs name.
Proof.
  unfold HopByHopNames. rewrite elem_of_app, elem_concat. f_equiv. split.
  - intros (ts & Hin & (f & -> & Hf)%list_elem_of_fmap). unfold beq in Hin. case_bool_decide as Hc; [|by apply elem_of_nil in Hin].
    unfold AddConnectionTokens in Hin. rewrite connection_tokens_spec in Hin by done.
    apply elem_concat in Hin as (ts & Hin & (piece & -> & Hp)%list_elem_of_fmap). unfold token_of in Hin.
    case_bool_decide; [by apply elem_of_nil in Hin|]. apply list_elem_of_singleton in Hin. exists f, piece. auto.
  - intros (f & piece & Hf & Hc & Hp & Hne & <-). eexists. split; [|apply list_elem_of_fmap; by exists f].
    unfold beq. rewrite bool_decide_eq_true_2 by done. unfold AddConnectionTokens.
    rewrite connection_tokens_spec by done. apply elem_concat. exists (token_of piece).
    split; [|apply list_elem_of_fmap; by exists piece]. unfold token_of. rewrite bool_decide_eq_false_2 by done.
    by apply list_elem_of_singleton.
Qed.

(** ** Fields the parser stores *)

Definition good_field (f : bytes * bytes) : Prop :=
  f.1 <> [] /\ IsToken f.1 = true /\ IsValidFieldValue f.2 = true.

Lemma not_break P s : (P CR = false) -> (P LF = false) -> forallb P s = true -> HasLineBreak s = false.
Proof.
  intros HC HL. induction s as [|c s IH]; simpl; [done|]. intros [Hc Hs]%andb_prop.
  rewrite (IH Hs), !bool_decide_eq_false_2; [done|intros ->; congruence|intros ->; congruence].
Qed.

Lemma token_no_break s : IsToken s = true -> HasLineBreak s = false.
Proof. unfold IsToken. intros [H _]%andb_prop. by eapply not_break in H. Qed.

Lemma value_no_break s : IsValidFieldValue s = true -> HasLineBreak s = false.
Proof. unfold IsValidFieldValue. intros H. by eapply not_break in H. Qed.

Lemma forallb_trim P s : forallb P s = true -> forallb P (TrimOws s) = true.
Proof.
  assert (Hf : forall s, forallb P s = true -> forallb P (trim_front s) = true).
  { clear s. induction s as [|c s IH]; [done|]. simpl. intros [Hc Hs]%andb_prop.
    destruct (is_ows c); [by apply IH|]. simpl. by rewrite Hc, Hs. }
  assert (Hr : forall s, forallb P s = true -> forallb P (rev s) = true).
  { clear. intros s. rewrite !forallb_forall. intros H x Hx. apply H. by apply in_rev. }
  intros Hs. unfold TrimOws, trim_back. auto.
Qed.

Lemma upstream_field_good line f f' :
  field_line line f = inr f' -> Forall good_field (f_headers f) -> Forall good_field (f_headers f').
Proof.
  unfold field_line. destruct (find line [COLON]) as [colon|]; [|done].
  destruct (bool_decide (colon = 0%nat) || negb (IsToken (take colon line))) eqn:Ht; [done|].
  apply orb_false_elim in Ht as [_ Ht]. apply negb_false_iff in Ht.
  destruct (IsValidFieldValue (drop (S colon) line)) eqn:Hv; [|done]. simpl.
  intros Hf Hall.
  assert (Hnew : Forall good_field (f_headers f ++ [(take colon line, TrimOws (drop (S colon) line))])).
  { apply Forall_app. split; [done|]. apply Forall_singleton. split; [|split; [done|by apply forallb_trim]].
    simpl. intros E. unfold IsToken in Ht. rewrite E in Ht. done. }
  repeat case_match; simplify_eq; done.
Qed.

Lemma header_loop_good fuel s le0 c f f' n :
  header_loop fuel s le0 c f = Some (HDone f' n) -> Forall good_field (f_headers f) -> Forall good_field (f_headers f').
Proof.
  revert c f. induction fuel as [|fuel IH]; intros c f; [done|]. simpl. intros Hl Hall.
  destruct (_ <? Z.of_nat c); [done|]. destruct (find_from s CRLF c) as [le|].
  2: { repeat case_match; done. }
  destruct (kMaxHeaderBytes <? _); [done|]. case_bool_decide; [by simplify_eq|].
  destruct (kMaxStatusLineBytes <? _); [done|].
  destruct (field_line _ f) as [r|f1] eqn:Hf; [done|]. eapply IH; [exact Hl|]. by eapply upstream_field_good.
Qed.

Lemma status_of_ok line st r : status_of line = Some (st, r) -> 200 <= st <= 599 /\ HasLineBreak r = false.
Proof.
  unfold status_of. destruct (find line [SP]); [|done]. case_match; [done|].
  destruct (substr line 9 3) as [|d0 [|d1 [|d2 [|]]]]; try done.
  destruct (negb (in_range d0 50 53) || _ || _ || _) eqn:Hd; [done|]. intros [= <- <-].
  apply orb_false_elim in Hd as [Hd Hv]. apply orb_false_elim in Hd as [Hd H2]. apply orb_false_elim in Hd as [H0 H1].
  apply negb_false_iff in H0, H1, H2, Hv. split; [|by apply value_no_break].
  unfold is_digit, in_range in *. lia.
Qed.

(** What an accepted header block consists of. *)
Lemma ParseHeaderArea_good h s ph :
  ParseHeaderArea h s = inr ph ->
  200 <= p_status ph <= 599 /\ HasLineBreak (p_reason ph) = false /\ Forall good_field (p_headers ph) /\
  p_bodyless ph = bodyless_status (p_status ph).
Proof.
  unfold ParseHeaderArea. destruct (HasBareLineFeed _); [done|]. destruct (find s CRLF) as [le|]; [|by case_match].
  unfold parse_lines. destruct (kMaxStatusLineBytes <? _); [done|].
  destruct (status_of (take le s)) as [[st r]|] eqn:Hst; [|done]. apply status_of_ok in Hst as [Hs Hr].
  destruct (header_loop _ s le _ start) as [[r'|f n]|] eqn:Hl; try done.
  apply header_loop_good in Hl; [|by apply Forall_nil]. unfold finish_area.
  destruct (bodyless_status st) eqn:Hb.
  - destruct (f_has_length f && _); [done|]. intros [= <-]. simpl. by rewrite Hb.
  - destruct (negb (f_has_length f) && _); [done|]. intros [= <-]. simpl. by rewrite Hb.
Qed.

(** ** Forwarding *)

Definition field_text (f : bytes * bytes) : bytes := f.1 ++ lit ": " ++ f.2 ++ CRLF.

Lemma header_lines_ok hs :
  Forall good_field hs -> Forall (fun f => lower_all f.1 ∉ hop_by_hop) hs ->
  header_lines hs = Some (concat (field_text <$> hs)).
Proof.
  induction hs as [|[name value] hs IH]; intros Hg Hn; [done|].
  apply Forall_cons in Hg as [(G1 & G2 & G3) Hg]. apply Forall_cons in Hn as [Hn1 Hn]. simpl in *.
  unfold empty, beq, Lowercase. rewrite bool_decide_eq_false_2 by done.
  rewrite (token_no_break name G2), (value_no_break value G3), IH by done. simpl.
  rewrite !bool_decide_eq_false_2; [by unfold field_text; simpl; rewrite <- app_assoc; simpl; rewrite <- app_assoc| |];
    intros E; apply Hn1; rewrite E; apply (bool_decide_unpack _); vm_compute; exact I.
Qed.

(** The end-to-end fields of a message. *)
Lemma elem_StripHeaders hs f :
  f ∈ StripHeaders hs <-> f ∈ hs /\ lower_all f.1 ∉ hop_by_hop /\ ~ named_by_connection hs (lower_all f.1).
Proof.
  unfold StripHeaders. rewrite list_elem_of_filter. unfold kept. rewrite elem_HopByHopNames. naive_solver.
Qed.

Lemma StripHeaders_lines hs :
  Forall good_field hs -> header_lines (StripHeaders hs) = Some (concat (field_text <$> StripHeaders hs)).
Proof.
  intros Hg. apply header_lines_ok.
  - apply Forall_forall. intros f [Hf _]%elem_StripHeaders. by eapply Forall_forall in Hg.
  - apply Forall_forall. intros f Hf. by apply elem_StripHeaders in Hf as (_ & ? & _).
Qed.

(** The Content-Length line of a forwarded head. *)
Definition length_text (h : bool) (ph : ParsedHeader) : bytes :=
  if p_bodyless ph || (h && negb (p_has_content_length ph)) then [] else length_line (p_content_length ph).

(** C27: Whatever head the upstream parser accepts, the proxy can send to the
    client: the stripped head serializes, without an exception, to the same
    status and reason, the end-to-end fields in their order with their values,
    and the body length the parser found.  The end-to-end fields are those
    whose name is none of the ten hop-by-hop names nor named by a Connection
    field.  A response read as a whole serializes likewise, with its body. *)
Theorem accepted_head_forwarded h s ph :
  ParseHeaderArea h s = inr ph ->
  let fields := StripHeaders (p_headers ph) in
  let start := status_line (p_status ph) (p_reason ph) ++ concat (field_text <$> fields) in
  SerializeHead (StripHead (head_of h ph 0).1.1) = Some (start ++ length_text h ph ++ CRLF) /\
  (forall resp n, buffered h ph s = Some (resp, n) ->
     Serialize (StripResponse resp) = Some (start ++ length_text h ph ++ CRLF ++ body resp)) /\
  fields `sublist_of` p_headers ph /\
  (forall f, f ∈ fields <-> f ∈ p_headers ph /\ lower_all f.1 ∉ hop_by_hop /\
                            ~ named_by_connection (p_headers ph) (lower_all f.1)).
Proof.
  intros Hp fields start. pose proof (area_length _ _ _ Hp) as Hlen0.
  pose proof (UpstreamConnection.header_end_le _ _ _ Hp) as Hend.
  apply ParseHeaderArea_good in Hp as (Hst & Hr & Hg & Hb).
  pose proof (StripHeaders_lines _ Hg) as Hl. fold fields in Hl.
  assert (Hok : status_line_ok (p_status ph) (p_reason ph) = true).
  { unfold status_line_ok. rewrite Hr. rewrite !(proj2 (Z.ltb_ge _ _)) by lia. done. }
  split; [|split; [|split]].
  - unfold SerializeHead, head_of, StripHead, head_framing_ok, length_text. rewrite Hb.
    destruct (bodyless_status (p_status ph)) eqn:Hbl; [|destruct h, (p_has_content_length ph)]; simpl;
      rewrite Hok, Hbl; simpl; fold fields; rewrite Hl; simpl; unfold start; by rewrite <- !app_assoc.
  - intros resp n Hbuf. unfold buffered in Hbuf. rewrite Hb in Hbuf.
    unfold Serialize, framing_ok, length_text. rewrite Hb.
    destruct h; [|destruct (_ <? _) eqn:Hz in Hbuf; [done|]]; injection Hbuf as <- <-.
    + destruct (bodyless_status (p_status ph)) eqn:Hbl; [|destruct (p_has_content_length ph)]; simpl;
        rewrite Hok, Hbl; simpl; fold fields; rewrite Hl; simpl; unfold start; by rewrite <- !app_assoc.
    + apply Z.ltb_ge in Hz. simpl. rewrite Hok.
      destruct (bodyless_status (p_status ph)); simpl; fold fields; rewrite Hl; simpl; unfold start; [by rewrite <- !app_assoc|].
      replace (size (substr s (p_header_end ph) (Z.to_nat (p_content_length ph)))) with (p_content_length ph).
      * by rewrite <- !app_assoc.
      * unfold size, substr in *. rewrite length_take, length_drop. lia.
  - unfold fields, StripHeaders. apply sublist_filter.
  - intros f. apply elem_StripHeaders.
Qed.

Definition example_response : bytes :=
  lit "HTTP/1.1 200 OK" ++ CRLF ++ lit "Connection: X-Trace , close" ++ CRLF ++ lit "X-trace: 1" ++ CRLF ++
  lit "Server: up" ++ CRLF ++ lit "Content-Length: 5" ++ CRLF ++ CRLF ++ lit "hello".

Definition example_header : ParsedHeader :=
  match ParseHeaderArea false example_response with
  | inr ph => ph
  | inl _ => mkParsed 0 [] [] false 0 false 0
  end.

(** Only the end-to-end field is left. *)
Lemma accepted_head_forwarded_witness :
  ParseHeaderArea false example_response = inr example_header /\
  SerializeHead (StripHead (head_of false example_header 0).1.1) =
    Some (lit "HTTP/1.1 200 OK" ++ CRLF ++ lit "Server: up" ++ CRLF ++ lit "Content-Length: 5" ++ CRLF ++ CRLF).
Proof.
  assert (Hp : ParseHeaderArea false example_response = inr example_header) by (vm_compute; reflexivity).
  split; [exact Hp|]. destruct (accepted_head_forwarded false example_response example_header Hp) as [-> _].
  vm_compute. reflexivity.
Defined.

End Forwarding.
