(* ===== verification/ClientConnection.v ===== *)
(** * One client connection

    Models src/src/net/ClientConnection.cpp: reading and parsing requests one
    at a time, queueing and writing responses, whole or streamed, the
    watermarks, keep-alive and closing.  The operating system and the owner's
    callbacks are the interface [ClientEnv].  The abstract specification is an
    automaton over what the connection does: it answers one request at a time,
    and sends what was queued, in order, before it takes the next request. *)

From S2P Require Import Prelude Effects Bytes Buffer HttpText HttpRequest HttpResponse UpstreamConnection.

Module ClientConnection.
Import HttpText HttpRequestParser HttpResponse.
Import UpstreamConnection(recv_result, RData, RClosed, RInterrupted, RAgain, RError, send_result, SCount, SInterrupted, SAgain, SError).

(** ** Connection: close *)

(** The same length, and the same bytes up to case. *)
Fixpoint EqualsIgnoreCase (l r : bytes) : bool :=
  match l, r with
  | [], [] => true
  | c :: l, d :: r => bool_decide (lower c = lower d) && EqualsIgnoreCase l r
  | _, _ => false
  end.

(** [std::isspace] in the C locale. *)
Definition isspace (b : byte) : bool := (code b =? 32) || ((9 <=? code b) && (code b <=? 13)).

Fixpoint trim_space_front (s : bytes) : bytes :=
  match s with
  | c :: r => if isspace c then trim_space_front r else s
  | [] => []
  end.

Definition trim_space (s : bytes) : bytes := rev (trim_space_front (rev (trim_space_front s))).

(** The loop over the tokens; each turn removes at least one byte. *)
Fixpoint close_tokens (fuel : nat) (value : bytes) : bool :=
  match fuel with
  | O => false
  | S fuel =>
      if bool_decide (value = []) then false
      else
        let comma := find value [COMMA] in
        let token := trim_space (match comma with Some n => take n value | None => value end) in
        if EqualsIgnoreCase token (lit "close") then true
        else match comma with
             | None => false
             | Some n => close_tokens fuel (drop (S n) value)
             end
  end.

Definition ContainsConnectionClose (value : bytes) : bool := close_tokens (length value) value.

(** [ResponseWantsClose] and [HeadWantsClose]. *)
Definition WantsClose (hs : header_list) : bool :=
  existsb (fun f => EqualsIgnoreCase f.1 (lit "connection") && ContainsConnectionClose f.2) hs.

(** ** The surroundings *)

(** [on_request]: the owner answers before the callback returns, or later.
    [on_abort]: the owner aborts the response.  The callback for a drained
    queue lets the upstream go on. *)
Class ClientEnv (W : Type) := {
  recv : W -> recv_result * W;
  send : bytes -> W -> send_result * W;
  on_request : HttpRequest -> W -> option HttpResponse * W;
  on_abort : W -> bool * W;
  on_drained : W -> W;
  on_close : W -> W
}.

(** What happened, as seen from outside. *)
Inductive event :=
| EReceived (bs : bytes)
| ERequest (request : HttpRequest)
| EResponse (text : bytes)
| EBegin (text : bytes)
| EBody (bs : bytes)
| EFull
| EFinish
| ESent (bs : bytes)
| EDrained
| EAborted
| EReady
| EClosed.

(** ** The abstract specification *)

Inductive phase :=
| PReady        (* reading a request *)
| PPending      (* a request was delivered, nothing answered *)
| PStream       (* a streamed response is open *)
| PFlush        (* the answer is complete, not all of it sent *)
| PClosed.

(** The bytes received and not yet consumed, the bytes queued and not yet sent,
    whether the owner was told that the queue is full and not yet that it
    drained, and whether it was told of the abort. *)
Record spec := mkSpec { sp_phase : phase; sp_input : bytes; sp_queue : bytes; sp_owed : bool; sp_aborted : bool }.

Definition spec_start : spec := mkSpec PReady [] [] false false.

#[global] Instance HttpRequest_eq_dec : EqDecision HttpRequest.
Proof. solve_decision. Defined.

(** The allowed next states.  Requests are delivered one at a time and are what
    the parser finds at the front of the input; the answer is queued once and
    sent in order; the next request is read when all of it was sent. *)
Definition sstep (low : nat) (s : spec) (e : event) : option spec :=
  let '(mkSpec ph input queue owed aborted) := s in
  match e with
  | EReceived bs =>
      match ph with PReady => Some (mkSpec PReady (input ++ bs) queue owed aborted) | _ => None end
  | ERequest r =>
      match ph, queue, parse_bytes input with
      | PReady, [], Complete r' n =>
          if bool_decide (r = r') then Some (mkSpec PPending (drop n input) [] false aborted) else None
      | _, _, _ => None
      end
  | EResponse text => match ph with PPending => Some (mkSpec PFlush input text owed aborted) | _ => None end
  | EBegin text => match ph with PPending => Some (mkSpec PStream input text false aborted) | _ => None end
  | EBody bs => match ph with PStream => Some (mkSpec PStream input (queue ++ bs) owed aborted) | _ => None end
  | EFull =>
      match ph with
      | PStream => if bool_decide (low < length queue)%nat then Some (mkSpec PStream input queue true aborted) else None
      | PClosed => Some s
      | _ => None
      end
  | EFinish => match ph with PStream => Some (mkSpec PFlush input queue false aborted) | _ => None end
  | ESent bs =>
      match ph with
      | PStream | PFlush =>
          if starts_with queue bs then Some (mkSpec ph input (drop (length bs) queue) owed aborted) else None
      | _ => None
      end
  | EDrained =>
      match ph with
      | PStream => if bool_decide (low < length queue)%nat then None else Some (mkSpec PStream input queue false aborted)
      | _ => None
      end
  | EAborted => if aborted then None else Some (mkSpec ph input queue owed true)
  | EReady => match ph, queue with PFlush, [] => Some (mkSpec PReady input [] false aborted) | _, _ => None end
  | EClosed => match ph with PClosed => None | _ => Some (mkSpec PClosed input queue owed aborted) end
  end.

Definition accept (low : nat) (l : list event) : option spec :=
  foldl (fun o e => s ← o; sstep low s e) (Some spec_start) l.

Lemma accept_last low l e : accept low (l ++ [e]) = (s ← accept low l; sstep low s e).
Proof. unfold accept. by rewrite foldl_app. Qed.

(** ** State *)

Record StreamFlowControl := mkFlow { high_watermark_ : nat; low_watermark_ : nat }.

(** [None]: the constructor's exception. *)
Definition make_flow (high low : nat) : option StreamFlowControl :=
  if bool_decide (low = 0%nat) || bool_decide (high <= low)%nat then None else Some (mkFlow high low).

Record t := mk {
  socket_ : bool;
  want_read : bool;
  want_write : bool;
  input_ : Buffer.t;
  output_ : Buffer.t;
  parser_ : HttpRequestParser.t;
  flow_control_ : StreamFlowControl;
  write_drained_callback_ : bool;
  request_abort_callback_ : bool;
  reading_paused_ : bool;
  writing_ : bool;
  close_after_write_ : bool;
  response_committed_ : bool;
  response_finished_ : bool;
  abort_fired_ : bool
}.

Definition make (flow : StreamFlowControl) : t :=
  mk true false false Buffer.empty Buffer.empty HttpRequestParser.make flow false false false false false false
     false false.

Definition set_channel (r w : bool) (c : t) : t :=
  mk (socket_ c) r w (input_ c) (output_ c) (parser_ c) (flow_control_ c) (write_drained_callback_ c)
     (request_abort_callback_ c) (reading_paused_ c) (writing_ c) (close_after_write_ c) (response_committed_ c)
     (response_finished_ c) (abort_fired_ c).
Definition set_socket (s : bool) (c : t) : t :=
  mk s (want_read c) (want_write c) (input_ c) (output_ c) (parser_ c) (flow_control_ c)
     (write_drained_callback_ c) (request_abort_callback_ c) (reading_paused_ c) (writing_ c)
     (close_after_write_ c) (response_committed_ c) (response_finished_ c) (abort_fired_ c).
Definition set_input (i : Buffer.t) (p : HttpRequestParser.t) (c : t) : t :=
  mk (socket_ c) (want_read c) (want_write c) i (output_ c) p (flow_control_ c) (write_drained_callback_ c)
     (request_abort_callback_ c) (reading_paused_ c) (writing_ c) (close_after_write_ c) (response_committed_ c)
     (response_finished_ c) (abort_fired_ c).
Definition set_output (o : Buffer.t) (c : t) : t :=
  mk (socket_ c) (want_read c) (want_write c) (input_ c) o (parser_ c) (flow_control_ c)
     (write_drained_callback_ c) (request_abort_callback_ c) (reading_paused_ c) (writing_ c)
     (close_after_write_ c) (response_committed_ c) (response_finished_ c) (abort_fired_ c).
Definition set_callbacks (drained abort : bool) (c : t) : t :=
  mk (socket_ c) (want_read c) (want_write c) (input_ c) (output_ c) (parser_ c) (flow_control_ c) drained abort
     (reading_paused_ c) (writing_ c) (close_after_write_ c) (response_committed_ c) (response_finished_ c)
     (abort_fired_ c).
Definition set_flags (paused writing close committed finished fired : bool) (c : t) : t :=
  mk (socket_ c) (want_read c) (want_write c) (input_ c) (output_ c) (parser_ c) (flow_control_ c)
     (write_drained_callback_ c) (request_abort_callback_ c) paused writing close committed finished fired.

Definition set_writing (b : bool) (c : t) : t :=
  set_flags (reading_paused_ c) b (close_after_write_ c) (response_committed_ c) (response_finished_ c)
            (abort_fired_ c) c.
Definition set_close (b : bool) (c : t) : t :=
  set_flags (reading_paused_ c) (writing_ c) b (response_committed_ c) (response_finished_ c) (abort_fired_ c) c.

Section Connection.
Local Open Scope effect_scope.
Context {W : Type} `{ClientEnv W}.

Record machine := mkMachine { conn : t; world : W; log : list event }.

Definition get {A : Type} (f : t -> A) : M machine A := gets (fun m => f (conn m)).
Definition update (f : t -> t) : M machine unit :=
  modify (fun m => mkMachine (f (conn m)) (world m) (log m)).
Definition emit (e : event) : M machine unit :=
  modify (fun m => mkMachine (conn m) (world m) (log m ++ [e])).
Definition call {A : Type} (f : W -> A * W) : M machine A := fun m =>
  let '(a, w) := f (world m) in Ret a (mkMachine (conn m) w (log m)).
Definition notify (f : W -> W) : M machine unit := call (fun w => (tt, f w)).

(** The close callback is always installed. *)
Definition Close : M machine unit :=
  c <- get (fun c => c) ;;
  if negb (socket_ c) then ret tt
  else
    update (fun c => set_socket false (set_channel false false c));;
    emit EClosed;;
    notify on_close.

Definition AbortResponse : M machine unit := Close.

Definition ClearStreamCallbacks : M machine unit := update (set_callbacks false false).

Definition NotifyRequestAbort : M machine unit :=
  c <- get (fun c => c) ;;
  if abort_fired_ c then ret tt
  else
    update (fun c => set_flags (reading_paused_ c) (writing_ c) (close_after_write_ c) (response_committed_ c)
                       (response_finished_ c) true c);;
    if request_abort_callback_ c then
      emit EAborted;;
      aborts <- call on_abort ;;
      if (aborts : bool) then ClearStreamCallbacks;; AbortResponse else ret tt
    else ret tt.

Definition NotifyDrainedIfBelowLow (was_above_low : bool) : M machine unit :=
  c <- get (fun c => c) ;;
  if negb (response_committed_ c) || response_finished_ c || negb was_above_low
     || bool_decide (low_watermark_ (flow_control_ c) < Buffer.ReadableBytes (output_ c))%nat then ret tt
  else if write_drained_callback_ c then emit EDrained;; notify on_drained else ret tt.

(** How the send loop of [HandleWrite] ended. *)
Inductive write_result := Written | Blocked | Broken.

Fixpoint write_loop (fuel : nat) : M machine write_result :=
  match fuel with
  | O => spin
  | S fuel =>
      c <- get (fun c => c) ;;
      if bool_decide (Buffer.ReadableBytes (output_ c) = 0%nat) then ret Written
      else
        r <- call (send (Buffer.ReadableView (output_ c))) ;;
        match r with
        | SCount (S n) =>
            match Buffer.Retrieve (S n) (output_ c) with
            | None => throw
            | Some o =>
                emit (ESent (take (S n) (Buffer.ReadableView (output_ c))));;
                update (set_output o);;
                write_loop fuel
            end
        | SInterrupted => write_loop fuel
        | SAgain => ret Blocked
        | SCount O | SError => ret Broken
        end
  end.

(** [parser_.Parse(input_)]. *)
Definition parse_input : M machine ParseResult :=
  c <- get (fun c => c) ;;
  match Parse (parser_ c) (input_ c) with
  | None => throw
  | Some (r, p, i) => update (set_input i p);; ret r
  end.

(** The connection is ready for an answer: the guard of [SendResponse] and
    [BeginResponse]. *)
Definition answerable (c : t) : bool :=
  socket_ c && reading_paused_ c && negb (writing_ c) && negb (response_committed_ c) && negb (response_finished_ c).

Fixpoint HandleWrite (fuel : nat) : M machine unit :=
  match fuel with
  | O => spin
  | S fuel =>
      c <- get (fun c => c) ;;
      if negb (socket_ c) || negb (writing_ c) then ret tt
      else
        let was_above_low :=
          bool_decide (low_watermark_ (flow_control_ c) < Buffer.ReadableBytes (output_ c))%nat in
        r <- write_loop fuel ;;
        match r with
        | Blocked => NotifyDrainedIfBelowLow was_above_low;; update (fun c => set_channel (want_read c) true c)
        | Broken => NotifyRequestAbort;; Close
        | Written =>
            update (fun c => set_channel (want_read c) false (set_writing false c));;
            c <- get (fun c => c) ;;
            if response_committed_ c && negb (response_finished_ c) then NotifyDrainedIfBelowLow was_above_low
            else if close_after_write_ c then Close
            else ResumeReading fuel
        end
  end
with ResumeReading (fuel : nat) : M machine unit :=
  match fuel with
  | O => spin
  | S fuel =>
      c <- get (fun c => c) ;;
      if negb (socket_ c) || negb (reading_paused_ c) || writing_ c then ret tt
      else
        update (fun c => set_flags false (writing_ c) (close_after_write_ c) false false (abort_fired_ c)
                           (set_input (input_ c) (HttpRequestParser.Reset (parser_ c)) c));;
        emit EReady;;
        if negb (bool_decide (Buffer.ReadableBytes (input_ c) = 0%nat)) then
          r <- parse_input ;;
          match r with
          | kNeedMoreData => update (fun c => set_channel true (want_write c) c)
          | kComplete => DeliverParsedRequest fuel
          | kError | kUnsupported => Close
          end
        else update (fun c => set_channel true (want_write c) c)
  end
with DeliverParsedRequest (fuel : nat) : M machine unit :=
  match fuel with
  | O => spin
  | S fuel =>
      c <- get (fun c => c) ;;
      let request := HttpRequestParser.Request (parser_ c) in
      update (fun c => set_channel false (want_write c)
                         (set_flags true (writing_ c)
                            (ContainsConnectionClose (HttpRequestParser.Header (lit "connection") request))
                            (response_committed_ c) (response_finished_ c) (abort_fired_ c) c));;
      emit (ERequest request);;
      answer <- call (on_request request) ;;
      match answer with
      | None => ret tt
      | Some response => catch (SendResponse fuel response) (ret tt)
      end
  end
with SendResponse (fuel : nat) (response : HttpResponse) : M machine unit :=
  match fuel with
  | O => spin
  | S fuel =>
      c <- get (fun c => c) ;;
      if negb (answerable c) then throw
      else
        match Serialize response with
        | None => throw
        | Some text =>
            emit (EResponse text);;
            update (fun c => set_close (close_after_write_ c || WantsClose (headers response))
                               (set_writing true (set_output (Buffer.Append text (output_ c)) c)));;
            HandleWrite fuel
        end
  end.

Definition BeginResponse (fuel : nat) (head : HttpResponseHead) : M machine unit :=
  c <- get (fun c => c) ;;
  if negb (answerable c) then throw
  else
    match SerializeHead head with
    | None => throw
    | Some text =>
        emit (EBegin text);;
        update (fun c => set_flags (reading_paused_ c) true (close_after_write_ c || WantsClose (head_headers head))
                           true (response_finished_ c) (abort_fired_ c)
                           (set_output (Buffer.Append text (output_ c)) c));;
        HandleWrite fuel
    end.

Definition WriteResponseBody (fuel : nat) (bs : bytes) : M machine bool :=
  c <- get (fun c => c) ;;
  if negb (socket_ c) || negb (response_committed_ c) || response_finished_ c then throw
  else if bool_decide (bs = []) then ret false
  else
    emit (EBody bs);;
    update (fun c => set_writing true (set_output (Buffer.Append bs (output_ c)) c));;
    HandleWrite fuel;;
    c <- get (fun c => c) ;;
    if bool_decide (high_watermark_ (flow_control_ c) <= Buffer.ReadableBytes (output_ c))%nat
    then emit EFull;; ret true else ret false.

Definition FinishResponse (fuel : nat) : M machine unit :=
  c <- get (fun c => c) ;;
  if negb (socket_ c) || negb (response_committed_ c) || response_finished_ c then throw
  else
    emit EFinish;;
    update (fun c => set_flags (reading_paused_ c) (writing_ c) (close_after_write_ c) (response_committed_ c) true
                       (abort_fired_ c) c);;
    if writing_ c then ret tt
    else if close_after_write_ c then Close
    else ResumeReading fuel.

Definition Start : M machine unit :=
  update (fun c => if socket_ c && negb (reading_paused_ c) then set_channel true (want_write c) c else c).

Definition SetStreamCallbacks (drained abort : bool) : M machine unit := update (set_callbacks drained abort).

(** The receive loop of [HandleRead]. *)
Fixpoint read_loop (fuel : nat) : M machine unit :=
  match fuel with
  | O => spin
  | S fuel =>
      r <- call recv ;;
      match r with
      | RData b bs =>
          emit (EReceived (b :: bs));;
          update (fun c => set_input (Buffer.Append (b :: bs) (input_ c)) (parser_ c) c);;
          r <- parse_input ;;
          match r with
          | kNeedMoreData => read_loop fuel
          | kComplete => DeliverParsedRequest fuel
          | kError | kUnsupported => Close
          end
      | RClosed => Close
      | RInterrupted => read_loop fuel
      | RAgain => ret tt
      | RError => Close
      end
  end.

Definition HandleRead (fuel : nat) : M machine unit :=
  c <- get (fun c => c) ;;
  if negb (socket_ c) then ret tt
  else if reading_paused_ c then
    NotifyRequestAbort;;
    update (set_close true);;
    w <- get (fun c => writing_ c) ;;
    if (w : bool) then HandleWrite fuel else ret tt
  else read_loop fuel.

(** ** Calls from outside *)

(** What the event loop and the owner may call; the owner catches the
    exceptions.  The transaction installs its callbacks before it answers. *)
Inductive owner_call :=
| CallRead
| CallWrite
| CallSend (response : HttpResponse)
| CallBegin (head : HttpResponseHead)
| CallBody (bs : bytes)
| CallFinish
| CallAbort
| CallCallbacks (drained abort : bool)
| CallClear
| CallStart.

Definition run_call (fuel : nat) (o : owner_call) : M machine unit :=
  match o with
  | CallRead => HandleRead fuel
  | CallWrite => HandleWrite fuel
  | CallSend response => catch (SendResponse fuel response) (ret tt)
  | CallBegin head => catch (BeginResponse fuel head) (ret tt)
  | CallBody bs => catch (WriteResponseBody fuel bs;; ret tt) (ret tt)
  | CallFinish => catch (FinishResponse fuel) (ret tt)
  | CallAbort => AbortResponse
  | CallCallbacks drained abort =>
      c <- get (fun c => c) ;;
      if answerable c then SetStreamCallbacks drained abort else ret tt
  | CallClear => ClearStreamCallbacks
  | CallStart => Start
  end.

(** [send] accepts at most what it was given. *)
Class ClientEnvLaws : Prop := {
  send_bounded bs w n w' : send bs w = (SCount n, w') -> (n <= length bs)%nat
}.

(** Only finitely much happens at once: [available] bounds the bytes that can be
    received and the interruptions, [answer_bound] the answers given before the
    request callback returns. *)
Class ClientFinite := {
  available : W -> nat;
  answer_bound : nat;
  recv_available w r w' : recv w = (r, w') ->
    match r with
    | RData _ bs => (available w' + S (length bs) <= available w)%nat
    | RInterrupted => (available w' < available w)%nat
    | _ => (available w' <= available w)%nat
    end;
  send_available bs w r w' : send bs w = (r, w') ->
    match r with
    | SInterrupted => (available w' < available w)%nat
    | _ => (available w' <= available w)%nat
    end;
  request_available r w a w' : on_request r w = (a, w') -> (available w' <= available w)%nat;
  answer_bounded r w response w' text :
    on_request r w = (Some response, w') -> Serialize response = Some text -> (length text <= answer_bound)%nat;
  abort_available w b w' : on_abort w = (b, w') -> (available w' <= available w)%nat;
  drained_available w : (available (on_drained w) <= available w)%nat;
  close_available w : (available (on_close w) <= available w)%nat
}.

(** ** Refinement *)

Section Refinement.
Context (high low : nat) (Hflow : (low < high)%nat) {Hlaws : ClientEnvLaws}.

Definition queue_ok (c : t) (s : spec) : Prop := writing_ c = false -> sp_queue s = [].

(** The members in each phase. *)
Definition phase_ok (c : t) (s : spec) : Prop :=
  match sp_phase s with
  | PReady =>
      reading_paused_ c = false /\ writing_ c = false /\ response_committed_ c = false /\
      response_finished_ c = false /\ sp_queue s = [] /\ parser_ c = HttpRequestParser.make
  | PPending =>
      reading_paused_ c = true /\ writing_ c = false /\ response_committed_ c = false /\
      response_finished_ c = false /\ sp_queue s = []
  | PStream =>
      reading_paused_ c = true /\ response_committed_ c = true /\ response_finished_ c = false /\ queue_ok c s
  | PFlush => reading_paused_ c = true /\ response_committed_ c = response_finished_ c /\ queue_ok c s
  | PClosed => True
  end.

Record rel (c : t) (s : spec) : Prop := {
  r_flow : flow_control_ c = mkFlow high low;
  r_in : Buffer.wf (input_ c);
  r_out : Buffer.wf (output_ c);
  r_input : Buffer.ReadableView (input_ c) = sp_input s;
  r_queue : Buffer.ReadableView (output_ c) = sp_queue s;
  r_abort : sp_aborted s = true -> abort_fired_ c = true;
  r_open : socket_ c = negb (match sp_phase s with PClosed => true | _ => false end);
  r_phase : phase_ok c s
}.

(** An owner that waits for the drain will be told: the queue is above the low
    watermark. *)
Definition owed_ok (c : t) (s : spec) : Prop :=
  sp_owed s = true -> sp_phase s = PStream -> write_drained_callback_ c = true -> (low < length (sp_queue s))%nat.

(** Between calls a complete answer is still being written. *)
Definition settled (c : t) (s : spec) : Prop :=
  rel c s /\ owed_ok c s /\ (sp_phase s = PFlush -> writing_ c = true).

Definition at_ (P : t -> spec -> Prop) (m : machine) : Prop :=
  exists s, accept low (log m) = Some s /\ P (conn m) s.

Lemma cl_get {A : Type} (f : t -> A) Q E m : Q (f (conn m)) m -> wp (get f) Q E m.
Proof. done. Qed.
Lemma cl_update f Q E m : Q tt (mkMachine (f (conn m)) (world m) (log m)) -> wp (update f) Q E m.
Proof. done. Qed.
Lemma cl_call {A : Type} (f : W -> A * W) Q E m :
  (forall a w, f (world m) = (a, w) -> Q a (mkMachine (conn m) w (log m))) -> wp (call f) Q E m.
Proof. intros HQ. unfold wp, call. destruct (f (world m)) as [a w] eqn:Ef. by apply HQ. Qed.

Lemma cl_emit e s s' Q E m :
  accept low (log m) = Some s -> sstep low s e = Some s' ->
  (forall l, accept low l = Some s' -> Q tt (mkMachine (conn m) (world m) l)) -> wp (emit e) Q E m.
Proof. intros Hs He HQ. apply HQ. by rewrite accept_last, Hs. Qed.

Lemma closed_socket c s : rel c s -> socket_ c = false -> sp_phase s = PClosed.
Proof. intros Hr Hs. pose proof (r_open _ _ Hr) as Ho. rewrite Hs in Ho. by destruct (sp_phase s). Qed.

Lemma open_socket c s : rel c s -> socket_ c = true -> sp_phase s <> PClosed.
Proof. intros Hr Hs E. pose proof (r_open _ _ Hr) as Ho. by rewrite Hs, E in Ho. Qed.

(** Up to the parser's state. *)
Definition rel_parser (c : t) (s : spec) : Prop := exists p, rel (set_input (input_ c) p c) s.

Lemma rel_rel_parser c s : rel c s -> rel_parser c s.
Proof. intros Hr. exists (parser_ c). by destruct c. Qed.

Definition closed (c : t) (s : spec) : Prop := settled c s /\ sp_phase s = PClosed.

Lemma Close_closed Q E m : at_ rel_parser m -> (forall m', at_ closed m' -> Q tt m') -> wp Close Q E m.
Proof.
  intros (s & Hs & p & Hr) HQ. unfold Close. apply wp_bind, cl_get, wp_if; intros Ho.
  - apply negb_true_iff in Ho. apply wp_ret, HQ. exists s. split; [done|].
    pose proof (closed_socket _ _ Hr Ho) as Hp. destruct Hr.
    split; [|done]. split; [|unfold owed_ok; by rewrite Hp]. constructor; try done. unfold phase_ok. by rewrite Hp.
  - apply negb_false_iff in Ho. pose proof (open_socket _ _ Hr Ho) as Hp.
    apply wp_bind, cl_update, wp_bind.
    eapply (cl_emit _ s (mkSpec PClosed (sp_input s) (sp_queue s) (sp_owed s) (sp_aborted s))); [exact Hs| |].
    { destruct s as [[]]; simpl in *; done. }
    intros l Hl. apply cl_call. intros [] w _. apply HQ. eexists. split; [exact Hl|]. simpl.
    destruct Hr. split; [|done]. split; [by constructor|]. done.
Qed.

Lemma Close_ok Q E m : at_ rel_parser m -> (forall m', at_ settled m' -> Q tt m') -> wp Close Q E m.
Proof. intros Hm HQ. apply Close_closed; [done|]. intros m' (s & Hs & Hc & _). apply HQ. by exists s. Qed.

Lemma settled_rel m : at_ settled m -> at_ rel_parser m.
Proof. intros (s & Hs & Hr & _). exists s. split; [done|]. by apply rel_rel_parser. Qed.

Lemma NotifyRequestAbort_gen (P : t -> spec -> Prop) Q E m :
  (forall c s, settled c s -> P c s) -> (forall c s, P c s -> rel c s) ->
  (forall c s b, P c s -> P (set_flags (reading_paused_ c) (writing_ c) (close_after_write_ c) (response_committed_ c)
                               (response_finished_ c) true c)
                            (mkSpec (sp_phase s) (sp_input s) (sp_queue s) (sp_owed s) b)) ->
  at_ P m -> (forall m', at_ P m' -> Q tt m') -> wp NotifyRequestAbort Q E m.
Proof.
  intros HS HR HF Hm HQ. unfold NotifyRequestAbort. apply wp_bind, cl_get, wp_if; intros Hf; [by apply wp_ret, HQ|].
  destruct Hm as (s & Hs & HP). apply wp_bind, cl_update, wp_if; intros _.
  - apply wp_bind.
    eapply (cl_emit _ s (mkSpec (sp_phase s) (sp_input s) (sp_queue s) (sp_owed s) true)); [exact Hs| |].
    { destruct (sp_aborted s) eqn:Ea; [pose proof (r_abort _ _ (HR _ _ HP) Ea); congruence|].
      by destruct s; simpl in *; subst. }
    intros l Hl. specialize (HF _ _ true HP). apply wp_bind, cl_call. intros aborts w _. simpl.
    apply wp_if; intros _.
    + apply wp_bind, cl_update. apply Close_ok.
      * eexists. split; [exact Hl|]. apply rel_rel_parser. specialize (HR _ _ HF). destruct HR. by constructor.
      * intros m' (s' & Hs' & Hset). apply HQ. exists s'. auto.
    + apply wp_ret, HQ. eexists. split; [exact Hl|done].
  - apply wp_ret, HQ. exists s. split; [done|]. specialize (HF _ _ (sp_aborted s) HP). by destruct s.
Qed.

Lemma NotifyRequestAbort_ok Q E m : at_ settled m -> (forall m', at_ settled m' -> Q tt m') -> wp NotifyRequestAbort Q E m.
Proof.
  apply NotifyRequestAbort_gen; [done|by intros c s [? _]|].
  intros c s b (Hr & Ho & Hw). destruct Hr. split; [by constructor|]. done.
Qed.

Lemma NotifyRequestAbort_rel Q E m : at_ rel m -> (forall m', at_ rel m' -> Q tt m') -> wp NotifyRequestAbort Q E m.
Proof.
  apply NotifyRequestAbort_gen; [by intros c s [? _]|done|]. intros c s b Hr. destruct Hr. by constructor.
Qed.

Lemma NotifyDrained_ok was Q E c s m :
  conn m = c -> accept low (log m) = Some s -> rel c s -> sp_phase s <> PClosed ->
  (sp_owed s = true -> sp_phase s = PStream -> write_drained_callback_ c = true -> was = true) ->
  (forall m' s', conn m' = c -> accept low (log m') = Some s' -> rel c s' -> owed_ok c s' -> sp_phase s' = sp_phase s -> Q tt m') ->
  wp (NotifyDrainedIfBelowLow was) Q E m.
Proof.
  intros Hc Hs Hr Hop Hwas HQ. unfold NotifyDrainedIfBelowLow. apply wp_bind, cl_get. rewrite Hc, (r_flow _ _ Hr).
  simpl. rewrite <- Buffer.length_view, (r_queue _ _ Hr). apply wp_if; intros Hg.
  - apply wp_ret. eapply HQ; try done. intros H1 H2 H3. specialize (Hwas H1 H2 H3). subst was.
    pose proof (r_phase _ _ Hr) as Hp. unfold phase_ok in Hp. rewrite H2 in Hp. destruct Hp as (_ & -> & -> & _) in Hg.
    simpl in Hg. by apply bool_decide_eq_true in Hg.
  - apply orb_false_elim in Hg as [Hg Hlow]. apply orb_false_elim in Hg as [Hg _]. apply orb_false_elim in Hg as [Hg1 Hg2].
    apply negb_false_iff in Hg1. apply wp_if; intros Hcb.
    2: { apply wp_ret. eapply HQ; try done. intros _ _ H3. congruence. }
    assert (Hp : sp_phase s = PStream).
    { pose proof (r_phase _ _ Hr) as Hp. unfold phase_ok in Hp. destruct (sp_phase s); try done.
      - destruct Hp as (_ & _ & ? & _). congruence.
      - destruct Hp as (_ & _ & ? & _). congruence.
      - destruct Hp as (_ & ? & _). congruence. }
    apply wp_bind. eapply (cl_emit _ s (mkSpec PStream (sp_input s) (sp_queue s) false (sp_aborted s))); [exact Hs| |].
    { destruct s; simpl in *. subst. by rewrite Hlow. }
    intros l Hl. apply cl_call. intros [] w _. eapply HQ; [done|exact Hl| |done|done].
    destruct Hr as [R1 R2 R3 R4 R5 R6 R7 R8]. constructor; try done; simpl; [by rewrite Hp in R7|].
    unfold phase_ok in *. simpl. by rewrite Hp in R8.
Qed.

(** The send loop takes bytes off the front of the queue. *)
Lemma write_loop_ok fuel Q E c s m :
  conn m = c -> accept low (log m) = Some s -> Buffer.wf (output_ c) -> Buffer.ReadableView (output_ c) = sp_queue s ->
  sp_phase s = PStream \/ sp_phase s = PFlush ->
  (forall r m' o, conn m' = set_output o c -> Buffer.wf o ->
     accept low (log m') = Some (mkSpec (sp_phase s) (sp_input s) (Buffer.ReadableView o) (sp_owed s) (sp_aborted s)) ->
     (r = Written -> Buffer.ReadableView o = []) -> Q r m') ->
  wp (write_loop fuel) Q E m.
Proof.
  revert c s m. induction fuel as [|fuel IH]; intros c s m Hc Hs Hw Hq Hp HQ; [done|]. simpl.
  assert (Hnow : forall r m', conn m' = c -> log m' = log m -> (r = Written -> sp_queue s = []) -> Q r m').
  { intros r m' Hc' Hl' Hr. eapply (HQ r m' (output_ c)); [rewrite Hc'; by destruct c|done| |by rewrite Hq].
    rewrite Hl', Hs, Hq. by destruct s. }
  apply wp_bind, cl_get, wp_if; intros Hz; rewrite Hc in *.
  { apply wp_ret, Hnow; [done|done|]. intros _. rewrite <- Hq. apply bool_decide_eq_true in Hz.
    by apply UpstreamConnection.view_empty. }
  apply wp_bind, cl_call. intros r w Hsend. rewrite Hc. destruct r as [[|n]| | |]; try by apply wp_ret, Hnow.
  - apply send_bounded in Hsend.
    destruct (Buffer.Retrieve_view (S n) (output_ c) Hw) as (o & Ho & Hwo & Hvo); [by rewrite <- Buffer.length_view|].
    rewrite Ho. apply wp_bind.
    eapply (cl_emit _ s (mkSpec (sp_phase s) (sp_input s) (drop (S n) (sp_queue s)) (sp_owed s) (sp_aborted s)));
      [exact Hs| |].
    { rewrite Hq in Hsend |- *. destruct s as [ph ? queue ? ?]. simpl in *.
      rewrite length_take_le by done.
      assert (starts_with queue (take (S n) queue) = true) as ->.
      { apply starts_with_spec. exists (drop (S n) queue). by rewrite take_drop. }
      by destruct Hp as [-> | ->]. }
    intros l Hl. apply wp_bind, cl_update. simpl.
    eapply (IH (set_output o c)); [done|exact Hl|done|simpl; by rewrite Hvo, Hq|done|].
    intros r m' o' Hm' Hwo' Ha Hr. eapply HQ; [|exact Hwo'|exact Ha|exact Hr]. by rewrite Hm'.
  - eapply (IH c); done.
Qed.

(** *** Requests and answers *)

(** A request was parsed: the parser took it off the input. *)
Definition parsed (c : t) (s : spec) : Prop :=
  exists c0 i p r n, c = set_input i p c0 /\ rel c0 s /\ sp_phase s = PReady /\ Buffer.wf i /\
    parse_bytes (sp_input s) = Complete r n /\ Buffer.ReadableView i = drop n (sp_input s) /\
    HttpRequestParser.Request p = r.

Lemma parse_input_ok Q E m s :
  accept low (log m) = Some s -> rel (conn m) s -> sp_phase s = PReady ->
  (forall r m', log m' = log m -> world m' = world m ->
     match r with
     | kNeedMoreData => rel (conn m') s
     | kComplete => parsed (conn m') s
     | _ => rel_parser (conn m') s
     end -> Q r m') ->
  wp parse_input Q E m.
Proof.
  intros Hs Hr Hp HQ. unfold parse_input. apply wp_bind, cl_get.
  pose proof (r_phase _ _ Hr) as Hph. unfold phase_ok in Hph. rewrite Hp in Hph. destruct Hph as (P1 & P2 & P3 & P4 & P5 & P6).
  unfold Parse. rewrite P6. simpl. pose proof (r_input _ _ Hr) as Hin. rewrite Hin.
  destruct (parse_bytes (sp_input s)) as [r|r n] eqn:Hpb.
  - apply wp_bind, cl_update, wp_ret, HQ; [done|done|].
    assert (Hrel : rel_parser (set_input (input_ (conn m)) (HttpRequestParser.mk r no_request) (conn m)) s).
    { exists HttpRequestParser.make. rewrite <- P6. by destruct (conn m). }
    destruct r; try done; [|pose proof (parse_extend (sp_input s) []) as Hx; rewrite Hpb in Hx; destruct Hx as [[?|?] _]; done].
    simpl. change (HttpRequestParser.mk kNeedMoreData no_request) with HttpRequestParser.make.
    rewrite <- P6. by destruct (conn m).
  - pose proof (parse_consumes _ _ _ Hpb) as Hn. pose proof (r_in _ _ Hr) as Hw.
    destruct (Buffer.Retrieve_view n (input_ (conn m)) Hw) as (i & -> & Hwi & Hvi).
    { rewrite <- Buffer.length_view. by rewrite Hin. }
    simpl. apply wp_bind, cl_update, wp_ret, HQ; [done|done|].
    exists (conn m), i, (HttpRequestParser.mk kComplete r), r, n. rewrite Hin in Hvi. done.
Qed.

(** Writing leaves an open stream open, or closes the connection. *)
Definition stays (s : spec) (c : t) (s' : spec) : Prop :=
  settled c s' /\ (sp_phase s = PStream -> sp_phase s' = PStream \/ sp_phase s' = PClosed).

Lemma stays_settled s m : at_ (stays s) m -> at_ settled m.
Proof. intros (s' & Hs' & Hset & _). by exists s'. Qed.

(** The specification of the four mutually recursive operations. *)
Definition block (fuel : nat) : Prop :=
  (forall Q E m s, accept low (log m) = Some s -> settled (conn m) s -> (forall m', at_ (stays s) m' -> Q tt m') ->
     wp (HandleWrite fuel) Q E m) /\
  (forall Q E m, at_ (fun c s => rel c s /\ sp_phase s = PFlush /\ writing_ c = false) m ->
     (forall m', at_ settled m' -> Q tt m') -> wp (ResumeReading fuel) Q E m) /\
  (forall Q E m, at_ parsed m -> (forall m', at_ settled m' -> Q tt m') -> wp (DeliverParsedRequest fuel) Q E m) /\
  (forall response Q E m, at_ settled m -> (forall m', at_ settled m' -> Q tt m') ->
     (forall m', at_ settled m' -> E m') -> wp (SendResponse fuel response) Q E m).

Lemma HandleWrite_step fuel :
  block fuel -> forall Q E m s, accept low (log m) = Some s -> settled (conn m) s ->
  (forall m', at_ (stays s) m' -> Q tt m') -> wp (HandleWrite (S fuel)) Q E m.
Proof.
  intros (IHW & IHR & _ & _) Q E m s Hs Hset HQ. simpl. apply wp_bind, cl_get, wp_if; intros Hg.
  { apply wp_ret, HQ. exists s. split; [done|]. split; auto. }
  apply orb_false_elim in Hg as [Ho Hw]. apply negb_false_iff in Ho, Hw.
  assert (Hclose : forall m', at_ closed m' -> Q tt m').
  { intros m' (s' & Hs' & ? & ?). apply HQ. exists s'. split; [done|]. split; auto. }
  destruct Hset as (Hr & Howed & _). pose proof (open_socket _ _ Hr Ho) as Hop.
  assert (Hp : sp_phase s = PStream \/ sp_phase s = PFlush).
  { pose proof (r_phase _ _ Hr) as Hp. unfold phase_ok in Hp.
    destruct (sp_phase s); auto; [destruct Hp as (_ & ? & _)|destruct Hp as (_ & ? & _)|done]; congruence. }
  set (was := bool_decide _).
  assert (Hwas : sp_owed s = true -> sp_phase s = PStream -> write_drained_callback_ (conn m) = true -> was = true).
  { intros H1 H2 H3. specialize (Howed H1 H2 H3). unfold was. apply bool_decide_eq_true_2.
    rewrite (r_flow _ _ Hr), <- Buffer.length_view, (r_queue _ _ Hr). done. }
  apply wp_bind. eapply (write_loop_ok fuel _ _ (conn m) s); [done|exact Hs|apply Hr|apply Hr|done|].
  intros r m1 o Hc1 Hwo Ha1 Hwr.
  set (s1 := mkSpec (sp_phase s) (sp_input s) (Buffer.ReadableView o) (sp_owed s) (sp_aborted s)) in *.
  assert (Hr1 : rel (set_output o (conn m)) s1).
  { destruct Hr as [R1 R2 R3 R4 R5 R6 R7 R8]. constructor; try done. unfold phase_ok, queue_ok in *.
    destruct Hp as [Hp|Hp]; unfold s1; simpl; rewrite Hp in *; destruct R8 as (? & ? & R8); split_and!; try done; try apply R8;
      simpl; congruence. }
  destruct r.
  - specialize (Hwr eq_refl). apply wp_bind, cl_update, wp_bind, cl_get. simpl. rewrite Hc1. simpl.
    assert (Hr2 : rel (set_channel (want_read (conn m)) false (set_writing false (set_output o (conn m)))) s1).
    { destruct Hr1 as [R1 R2 R3 R4 R5 R6 R7 R8]. constructor; try done. unfold phase_ok, queue_ok in *.
      destruct Hp as [Hp|Hp]; unfold s1 in *; simpl in *; rewrite Hp in *; destruct R8 as (? & ? & R8); split_and!; try done; apply R8. }
    apply wp_if; intros Hcf.
    + eapply (NotifyDrained_ok was); [reflexivity|exact Ha1|exact Hr2|done|exact Hwas|].
      intros m' s' Hc' Ha' Hr' Ho' Hp'. apply HQ. exists s'. rewrite Hc'. split; [done|].
      split; [|intros Hst; left; by rewrite Hp']. split; [done|]. split; [done|]. intros Hfl. exfalso. pose proof (r_phase _ _ Hr') as Hpp. unfold phase_ok in Hpp. rewrite Hfl in Hpp. simpl in Hpp.
      destruct Hpp as (_ & Hpp & _). rewrite Hpp in Hcf. by destruct (response_finished_ (conn m)).
    + assert (Hfl : sp_phase s = PFlush).
      { destruct Hp as [Hp|Hp]; [|done]. pose proof (r_phase _ _ Hr) as Hpp. unfold phase_ok in Hpp. rewrite Hp in Hpp.
        destruct Hpp as (_ & E1 & E2 & _). by rewrite E1, E2 in Hcf. }
      apply wp_if; intros _.
      * apply Close_closed; [|done]. exists s1. split; [done|]. by apply rel_rel_parser.
      * apply IHR; [by exists s1|]. intros m' (s' & Hs' & Hset'). apply HQ. exists s'. split; [done|].
        split; [done|congruence].
  - apply wp_bind. eapply (NotifyDrained_ok was); [exact Hc1|exact Ha1|exact Hr1|done|exact Hwas|].
    intros m' s' Hc' Ha' Hr' Ho' Hp'. apply cl_update, HQ. exists s'. split; [done|]. simpl. rewrite Hc'.
    split; [|intros Hst; left; by rewrite Hp']. split; [destruct Hr'; by constructor|]. done.
  - apply wp_bind. apply NotifyRequestAbort_rel; [exists s1; by rewrite Hc1|].
    intros m' (s' & Hs' & Hr'). apply Close_closed; [|done]. exists s'. split; [done|]. by apply rel_rel_parser.
Qed.

Lemma view_nonempty b : negb (bool_decide (Buffer.ReadableBytes b = 0%nat)) = false -> Buffer.ReadableView b = [].
Proof. intros Hz. apply negb_false_iff, bool_decide_eq_true in Hz. by apply UpstreamConnection.view_empty. Qed.

Lemma ResumeReading_step fuel :
  block fuel -> forall Q E m, at_ (fun c s => rel c s /\ sp_phase s = PFlush /\ writing_ c = false) m ->
  (forall m', at_ settled m' -> Q tt m') -> wp (ResumeReading (S fuel)) Q E m.
Proof.
  intros (_ & _ & IHD & _) Q E m (s & Hs & Hr & Hp & Hw) HQ. simpl. apply wp_bind, cl_get.
  pose proof (r_phase _ _ Hr) as Hph. unfold phase_ok in Hph. rewrite Hp in Hph. destruct Hph as (P1 & P2 & P3).
  specialize (P3 Hw). pose proof (r_open _ _ Hr) as Ho. rewrite Hp in Ho. simpl in Ho. rewrite Ho, P1, Hw. simpl.
  apply wp_bind, cl_update. simpl. apply wp_bind.
  eapply (cl_emit _ s (mkSpec PReady (sp_input s) [] false (sp_aborted s))); [exact Hs| |].
  { destruct s as [[] ? [] ? ?]; simpl in *; done. }
  intros l Hl. simpl. match goal with |- wp _ _ _ ?m1 => set (m2 := m1) end.
  set (s2 := mkSpec PReady _ _ _ _) in *.
  assert (Hr2 : rel (conn m2) s2).
  { destruct Hr as [R1 R2 R3 R4 R5 R6 R7 R8]. constructor; try done; simpl. by rewrite R5. }
  assert (Hdone : forall m', log m' = log m2 -> rel (conn m') s2 ->
    wp (update (fun c => set_channel true (want_write c) c)) Q E m').
  { intros m' Hl' Hr'. apply cl_update, HQ. exists s2. split; [simpl; by rewrite Hl'|]. destruct Hr'.
    split; [by constructor|]. done. }
  apply wp_if; intros _; [|by apply Hdone]. apply wp_bind. eapply (parse_input_ok _ _ _ s2); [done|done|done|].
  intros r m3 Hl3 _ Hr3. destruct r.
  - by apply Hdone.
  - apply IHD; [|done]. exists s2. by rewrite Hl3.
  - apply Close_ok; [|done]. exists s2. by rewrite Hl3.
  - apply Close_ok; [|done]. exists s2. by rewrite Hl3.
Qed.

Lemma Deliver_step fuel :
  block fuel -> forall Q E m, at_ parsed m -> (forall m', at_ settled m' -> Q tt m') ->
  wp (DeliverParsedRequest (S fuel)) Q E m.
Proof.
  intros (_ & _ & _ & IHS) Q E m (s & Hs & c0 & i & p & r & n & Hc & Hr & Hp & Hwi & Hpb & Hvi & Hreq) HQ. simpl.
  apply wp_bind, cl_get, wp_bind, cl_update. rewrite Hc. simpl. rewrite Hreq.
  pose proof (r_phase _ _ Hr) as Hph. unfold phase_ok in Hph. rewrite Hp in Hph.
  destruct Hph as (P1 & P2 & P3 & P4 & P5 & P6).
  apply wp_bind. eapply (cl_emit _ s (mkSpec PPending (drop n (sp_input s)) [] false (sp_aborted s))); [exact Hs| |].
  { destruct s as [ph ? queue ? ?]. simpl in *. subst ph queue. rewrite Hpb, bool_decide_eq_true_2 by done. done. }
  intros l Hl. apply wp_bind, cl_call. intros answer w _. simpl.
  match goal with |- wp _ _ _ ?m1 => set (m2 := m1) end.
  assert (Hm2 : at_ settled m2).
  { eexists. split; [exact Hl|]. destruct Hr as [R1 R2 R3 R4 R5 R6 R7 R8].
    split; [|done]. constructor; try done; simpl; [by rewrite R5|]. rewrite Hp in R7. done. }
  destruct answer as [response|]; [|by apply wp_ret, HQ].
  apply wp_catch. apply IHS; [done|done|]. intros m' Hm'. by apply wp_ret, HQ.
Qed.

(** The answer goes behind an empty queue. *)
Lemma answerable_pending c s : rel c s -> answerable c = true ->
  (sp_phase s = PFlush -> writing_ c = true) -> sp_phase s = PPending /\ sp_queue s = [] /\
  Buffer.ReadableView (output_ c) = [] /\ socket_ c = true.
Proof.
  intros Hr Ha Hfl. unfold answerable in Ha. repeat (apply andb_prop in Ha as [Ha ?]).
  rewrite !negb_true_iff in *. pose proof (r_phase _ _ Hr) as Hp. unfold phase_ok in Hp.
  rewrite (r_queue _ _ Hr). pose proof (open_socket _ _ Hr Ha) as Hop.
  destruct (sp_phase s) eqn:E; try done.
  - destruct Hp as (? & _). congruence.
  - destruct Hp as (_ & _ & _ & _ & ->). done.
  - destruct Hp as (_ & ? & _). congruence.
  - specialize (Hfl eq_refl). congruence.
Qed.

Lemma Send_step fuel :
  block fuel -> forall response Q E m, at_ settled m -> (forall m', at_ settled m' -> Q tt m') ->
  (forall m', at_ settled m' -> E m') -> wp (SendResponse (S fuel) response) Q E m.
Proof.
  intros (IHW & _) response Q E m Hm HQ HE. simpl. apply wp_bind, cl_get, wp_if; intros Hg; [by apply HE|].
  apply negb_false_iff in Hg. destruct (Serialize response) as [text|]; [|by apply HE].
  destruct Hm as (s & Hs & Hr & Ho & Hw). destruct (answerable_pending _ _ Hr Hg Hw) as (Hp & Hq & Hv & Hsock).
  apply wp_bind. eapply (cl_emit _ s (mkSpec PFlush (sp_input s) text (sp_owed s) (sp_aborted s))); [exact Hs| |].
  { destruct s; simpl in *. by subst. }
  intros l Hl. apply wp_bind, cl_update. eapply IHW; [exact Hl| |intros m' Hm'; eapply HQ, stays_settled, Hm'].
  pose proof (r_phase _ _ Hr) as Hph. unfold phase_ok in Hph. rewrite Hp in Hph. destruct Hph as (P1 & P2 & P3 & P4 & P5).
  destruct Hr as [R1 R2 R3 R4 R5 R6 R7 R8]. destruct (Buffer.Append_view text _ R3) as [Hwf Hav].
  split; [|done]. constructor; try done; simpl; [by rewrite Hav, Hv|].
  unfold phase_ok, queue_ok. simpl. split; [done|]. split; [congruence|done].
Qed.

Lemma block_all fuel : block fuel.
Proof.
  induction fuel as [|fuel IH]; [by split_and!|]. split; [by apply HandleWrite_step|].
  split; [by apply ResumeReading_step|]. split; [by apply Deliver_step|by apply Send_step].
Qed.

(** *** The other operations *)

Lemma BeginResponse_ok fuel head Q E m :
  at_ settled m -> (forall m', at_ settled m' -> Q tt m') -> (forall m', at_ settled m' -> E m') ->
  wp (BeginResponse fuel head) Q E m.
Proof.
  intros Hm HQ HE. unfold BeginResponse. apply wp_bind, cl_get, wp_if; intros Hg; [by apply HE|].
  apply negb_false_iff in Hg. destruct (SerializeHead head) as [text|]; [|by apply HE].
  destruct Hm as (s & Hs & Hr & Ho & Hw). destruct (answerable_pending _ _ Hr Hg Hw) as (Hp & Hq & Hv & Hsock).
  apply wp_bind. eapply (cl_emit _ s (mkSpec PStream (sp_input s) text false (sp_aborted s))); [exact Hs| |].
  { destruct s; simpl in *. by subst. }
  intros l Hl. apply wp_bind, cl_update.
  eapply (block_all fuel); [exact Hl| |intros m' Hm'; eapply HQ, stays_settled, Hm'].
  pose proof (r_phase _ _ Hr) as Hph. unfold phase_ok in Hph. rewrite Hp in Hph. destruct Hph as (P1 & P2 & P3 & P4 & P5).
  destruct Hr as [R1 R2 R3 R4 R5 R6 R7 R8]. destruct (Buffer.Append_view text _ R3) as [Hwf Hav].
  split; [|done]. constructor; try done; simpl. by rewrite Hav, Hv.
Qed.

(** An open stream: the guard of [WriteResponseBody] and [FinishResponse]. *)
Lemma streaming c s : rel c s -> negb (socket_ c) || negb (response_committed_ c) || response_finished_ c = false ->
  sp_phase s = PStream.
Proof.
  intros Hr Hg. apply orb_false_elim in Hg as [Hg H1]. apply orb_false_elim in Hg as [H2 H3].
  apply negb_false_iff in H2, H3. pose proof (open_socket _ _ Hr H2). pose proof (r_phase _ _ Hr) as Hp.
  unfold phase_ok in Hp. destruct (sp_phase s); try done.
  - destruct Hp as (_ & _ & ? & _). congruence.
  - destruct Hp as (_ & _ & ? & _). congruence.
  - destruct Hp as (_ & ? & _). congruence.
Qed.

Lemma WriteResponseBody_ok fuel bs Q E m :
  at_ settled m -> (forall b m', at_ settled m' -> Q b m') -> (forall m', at_ settled m' -> E m') ->
  wp (WriteResponseBody fuel bs) Q E m.
Proof.
  intros Hm HQ HE. unfold WriteResponseBody. apply wp_bind, cl_get, wp_if; intros Hg; [by apply HE|].
  apply wp_if; intros Hb; [by apply wp_ret, HQ|].
  destruct Hm as (s & Hs & Hr & Ho & Hw). pose proof (streaming _ _ Hr Hg) as Hp.
  apply wp_bind. eapply (cl_emit _ s (mkSpec PStream (sp_input s) (sp_queue s ++ bs) (sp_owed s) (sp_aborted s)));
    [exact Hs| |].
  { destruct s; simpl in *. by subst. }
  intros l Hl. apply wp_bind, cl_update, wp_bind. eapply (block_all fuel); [exact Hl| |].
  { pose proof (r_phase _ _ Hr) as Hph. unfold phase_ok in Hph. rewrite Hp in Hph. destruct Hph as (P1 & P2 & P3 & P4).
    destruct Hr as [R1 R2 R3 R4 R5 R6 R7 R8]. destruct (Buffer.Append_view bs _ R3) as [Hwf Hav].
    split; [|split; [|done]].
    - constructor; try done; simpl; [by rewrite Hav, R5|by rewrite Hp in R7].
    - intros H1 H2 H3. simpl in *. specialize (Ho H1 Hp H3). rewrite length_app. lia. }
  intros m' (s' & Hs' & Hset & Hst). specialize (Hst eq_refl). apply wp_bind, cl_get, wp_if; intros Hhi.
  2: { apply wp_ret, HQ. by exists s'. }
  destruct Hset as (Hr' & Ho' & Hw'). rewrite (r_flow _ _ Hr') in Hhi. simpl in Hhi.
  rewrite <- Buffer.length_view, (r_queue _ _ Hr') in Hhi. apply bool_decide_eq_true in Hhi.
  apply wp_bind. destruct Hst as [Hst|Hst].
  - eapply (cl_emit _ s' (mkSpec PStream (sp_input s') (sp_queue s') true (sp_aborted s'))); [exact Hs'| |].
    { destruct s'; simpl in *. subst. rewrite bool_decide_eq_true_2; [done|lia]. }
    intros l' Hl'. apply wp_ret, HQ. eexists. split; [exact Hl'|]. destruct Hr' as [R1 R2 R3 R4 R5 R6 R7 R8].
    split; [|split; [|done]].
    + constructor; try done; simpl; [by rewrite Hst in R7|]. unfold phase_ok in *. by rewrite Hst in R8.
    + intros _ _ _. simpl. lia.
  - eapply (cl_emit _ s' s'); [exact Hs'|destruct s'; simpl in *; by subst|].
    intros l' Hl'. apply wp_ret, HQ. by exists s'.
Qed.

Lemma FinishResponse_ok fuel Q E m :
  at_ settled m -> (forall m', at_ settled m' -> Q tt m') -> (forall m', at_ settled m' -> E m') ->
  wp (FinishResponse fuel) Q E m.
Proof.
  intros Hm HQ HE. unfold FinishResponse. apply wp_bind, cl_get, wp_if; intros Hg; [by apply HE|].
  destruct Hm as (s & Hs & Hr & Ho & Hw). pose proof (streaming _ _ Hr Hg) as Hp.
  apply wp_bind. eapply (cl_emit _ s (mkSpec PFlush (sp_input s) (sp_queue s) false (sp_aborted s))); [exact Hs| |].
  { destruct s; simpl in *. by subst. }
  intros l Hl. apply wp_bind, cl_update. simpl.
  pose proof (r_phase _ _ Hr) as Hph. unfold phase_ok in Hph. rewrite Hp in Hph. destruct Hph as (P1 & P2 & P3 & P4).
  match goal with |- wp _ _ _ (mkMachine ?c1 _ _) => set (c2 := c1) end.
  match type of Hl with _ = Some ?s1 => set (s2 := s1) in * end.
  assert (Hr2 : rel c2 s2).
  { destruct Hr as [R1 R2 R3 R4 R5 R6 R7 R8]. constructor; try done; simpl. by rewrite Hp in R7. }
  apply wp_if; intros Hwr; [|apply wp_if; intros _].
  - apply wp_ret, HQ. exists s2. split; [exact Hl|]. by split.
  - apply Close_ok; [|done]. exists s2. split; [exact Hl|]. by apply rel_rel_parser.
  - apply (block_all fuel); [|done]. by exists s2.
Qed.

Lemma read_loop_ok fuel Q E m s :
  accept low (log m) = Some s -> rel (conn m) s -> sp_phase s = PReady -> (forall m', at_ settled m' -> Q tt m') ->
  wp (read_loop fuel) Q E m.
Proof.
  revert m s. induction fuel as [|fuel IH]; intros m s Hs Hr Hp HQ; [done|]. simpl.
  apply wp_bind, cl_call. intros r w _.
  assert (Hclose : wp Close Q E (mkMachine (conn m) w (log m))).
  { apply Close_ok; [|done]. exists s. split; [done|]. by apply rel_rel_parser. }
  destruct r as [b bs| | | |]; try done.
  - apply wp_bind. eapply (cl_emit _ s (mkSpec PReady (sp_input s ++ b :: bs) (sp_queue s) (sp_owed s) (sp_aborted s)));
      [exact Hs| |].
    { destruct s; simpl in *. by subst. }
    intros l Hl. apply wp_bind, cl_update, wp_bind. eapply parse_input_ok; [exact Hl| |done|].
    { destruct Hr as [R1 R2 R3 R4 R5 R6 R7 R8]. destruct (Buffer.Append_view (b :: bs) _ R2) as [Hwf Hav].
      unfold phase_ok in R8. rewrite Hp in R7, R8. constructor; try done.
      change (Buffer.ReadableView (Buffer.Append (b :: bs) (input_ (conn m))) = sp_input s ++ b :: bs). by rewrite Hav, R4. }
    intros r m' Hl' _ Hres. simpl in Hl'. destruct r.
    + eapply IH; [by rewrite Hl', Hl|done|done|done].
    + apply (block_all fuel); [|done]. eexists. split; [by rewrite Hl', Hl|done].
    + apply Close_ok; [|done]. eexists. split; [by rewrite Hl', Hl|done].
    + apply Close_ok; [|done]. eexists. split; [by rewrite Hl', Hl|done].
  - by eapply IH.
  - apply wp_ret, HQ. exists s. split; [done|]. split; [done|]. unfold owed_ok. by rewrite Hp.
Qed.

Lemma HandleRead_ok fuel Q E m :
  at_ settled m -> (forall m', at_ settled m' -> Q tt m') -> wp (HandleRead fuel) Q E m.
Proof.
  intros Hm HQ. unfold HandleRead. apply wp_bind, cl_get, wp_if; intros Ho; [by apply wp_ret, HQ|].
  apply negb_false_iff in Ho. apply wp_if; intros Hpa.
  - apply wp_bind, NotifyRequestAbort_ok; [done|]. intros m1 (s1 & Hs1 & Hr1 & Ho1 & Hw1).
    apply wp_bind, cl_update, wp_bind, cl_get. simpl.
    assert (Hset : settled (set_close true (conn m1)) s1).
    { split; [destruct Hr1; by constructor|]. done. }
    apply wp_if; intros _; [|apply wp_ret, HQ; by exists s1].
    eapply (block_all fuel); [exact Hs1|done|]. intros m' Hm'. eapply HQ, stays_settled, Hm'.
  - destruct Hm as (s & Hs & Hr & Ho' & Hw). pose proof (open_socket _ _ Hr Ho). eapply read_loop_ok; [exact Hs|done| |done].
    pose proof (r_phase _ _ Hr) as Hp. unfold phase_ok in Hp.
    destruct (sp_phase s); try done; destruct Hp as (? & _); congruence.
Qed.

Lemma callbacks_settled d a c s :
  (d = true -> write_drained_callback_ c = false -> sp_phase s = PStream -> False) ->
  settled c s -> settled (set_callbacks d a c) s.
Proof.
  intros Hd (Hr & Ho & Hw). split; [destruct Hr; by constructor|]. split; [|done].
  intros H1 H2 H3. simpl in H3. apply Ho; try done.
  destruct (write_drained_callback_ c) eqn:E; [done|]. exfalso. by apply Hd.
Qed.

Lemma run_call_ok fuel o Q E m :
  at_ settled m -> (forall m', at_ settled m' -> Q tt m') -> wp (run_call fuel o) Q E m.
Proof.
  intros Hm HQ. assert (Hret : forall m', at_ settled m' -> wp (ret tt) Q E m') by (intros; by apply wp_ret, HQ).
  destruct o as [| |response|head|bs| | |d a| |]; simpl.
  - by apply HandleRead_ok.
  - destruct Hm as (s & Hs & Hset). eapply (block_all fuel); [exact Hs|done|]. intros m' Hm'. eapply HQ, stays_settled, Hm'.
  - apply wp_catch, (block_all fuel); auto.
  - apply wp_catch, BeginResponse_ok; auto.
  - apply wp_catch, wp_bind, WriteResponseBody_ok; auto.
  - apply wp_catch, FinishResponse_ok; auto.
  - by apply Close_ok; [apply settled_rel|].
  - apply wp_bind, cl_get, wp_if; intros Ha; [|by apply Hret]. apply cl_update, HQ.
    destruct Hm as (s & Hs & Hset). exists s. split; [done|]. apply callbacks_settled; [|done].
    destruct Hset as (Hr & _ & Hw). destruct (answerable_pending _ _ Hr Ha Hw) as (Hp & _). congruence.
  - apply cl_update, HQ. destruct Hm as (s & Hs & Hset). exists s. split; [done|]. by apply callbacks_settled.
  - apply cl_update, HQ. destruct Hm as (s & Hs & Hset). exists s. split; [done|].
    case_match; [|done]. destruct Hset as (Hr & Ho & Hw). split; [destruct Hr; by constructor|]. done.
Qed.

Lemma make_settled w : at_ settled (mkMachine (make (mkFlow high low)) w []).
Proof. exists spec_start. split; [done|]. split; [|done]. constructor; try done; unfold Buffer.wf; simpl; lia. Qed.

End Refinement.

(** ** Termination *)

Lemma nospin_get {A B : Type} (f : t -> A) (k : A -> M machine B) m :
  nospin (k (f (conn m))) m -> nospin (bind (get f) k) m.
Proof. done. Qed.
Lemma nospin_update {B : Type} f (k : unit -> M machine B) m :
  nospin (k tt) (mkMachine (f (conn m)) (world m) (log m)) -> nospin (bind (update f) k) m.
Proof. done. Qed.
Lemma nospin_emit {B : Type} e (k : unit -> M machine B) m :
  nospin (k tt) (mkMachine (conn m) (world m) (log m ++ [e])) -> nospin (bind (emit e) k) m.
Proof. done. Qed.
Lemma nospin_call {A B : Type} (f : W -> A * W) (k : A -> M machine B) m :
  (forall a w, f (world m) = (a, w) -> nospin (k a) (mkMachine (conn m) w (log m))) -> nospin (bind (call f) k) m.
Proof. unfold nospin, bind, call. destruct (f (world m)) as [a w]. auto. Qed.
Lemma nospin_last {A : Type} (f : W -> A * W) m : nospin (call f) m.
Proof. unfold nospin, call. by destruct (f (world m)). Qed.
Lemma nospin_catch {A : Type} (m1 m2 : M machine A) m :
  nospin m1 m -> (forall m', nospin m2 m') -> nospin (catch m1 m2) m.
Proof. unfold nospin, catch. intros H1 H2. destruct (m1 m); auto. Qed.

Lemma Close_returns m : nospin Close m.
Proof.
  unfold Close. apply nospin_get, nospin_if; intros _; [done|]. apply nospin_update, nospin_emit, nospin_last.
Qed.

Lemma NotifyDrained_returns was m : nospin (NotifyDrainedIfBelowLow was) m.
Proof.
  unfold NotifyDrainedIfBelowLow. apply nospin_get, nospin_if; intros _; [done|].
  apply nospin_if; intros _; [|done]. apply nospin_emit, nospin_last.
Qed.

Lemma NotifyRequestAbort_returns m : nospin NotifyRequestAbort m.
Proof.
  unfold NotifyRequestAbort. apply nospin_get, nospin_if; intros _; [done|]. apply nospin_update, nospin_if; intros _; [|done].
  apply nospin_emit, nospin_call. intros b w _. apply nospin_if; intros _; [|done]. apply nospin_update, Close_returns.
Qed.

Section Termination.
Context {Hlaws : ClientEnvLaws} {Hfinite : ClientFinite}.

(** What is left to do: bytes to receive, bytes received and not parsed, each
    of which may be answered at once, and bytes to send. *)
Definition work (c : t) (w : W) : nat :=
  (5 + answer_bound) * available w + (4 + answer_bound) * Buffer.ReadableBytes (input_ c) + Buffer.ReadableBytes (output_ c).

Lemma work_mono c c' w w' :
  (available w' <= available w)%nat -> (Buffer.ReadableBytes (input_ c') <= Buffer.ReadableBytes (input_ c))%nat ->
  (Buffer.ReadableBytes (output_ c') <= Buffer.ReadableBytes (output_ c))%nat -> (work c' w' <= work c w)%nat.
Proof. unfold work. intros. nia. Qed.

Lemma work_recv c c' w w' k :
  (available w' + S k <= available w)%nat ->
  (Buffer.ReadableBytes (input_ c') <= Buffer.ReadableBytes (input_ c) + S k)%nat ->
  (Buffer.ReadableBytes (output_ c') <= Buffer.ReadableBytes (output_ c))%nat -> (work c' w' + 1 <= work c w)%nat.
Proof.
  unfold work. intros H1 H2 H3.
  assert ((5 + answer_bound) * (available w' + S k) <= (5 + answer_bound) * available w)%nat by (by apply Nat.mul_le_mono_l).
  assert ((4 + answer_bound) * Buffer.ReadableBytes (input_ c') <= (4 + answer_bound) * (Buffer.ReadableBytes (input_ c) + S k))%nat
    by (by apply Nat.mul_le_mono_l). lia.
Qed.

Lemma Retrieve_size n b b' : Buffer.Retrieve n b = Some b' ->
  (Buffer.ReadableBytes b' + n = Buffer.ReadableBytes b)%nat.
Proof.
  unfold Buffer.Retrieve. case_bool_decide; [done|]. intros [= <-]. unfold Buffer.ReadableBytes in *. simpl. lia.
Qed.

Lemma Append_size s b : (Buffer.ReadableBytes (Buffer.Append s b) <= Buffer.ReadableBytes b + length s)%nat.
Proof.
  unfold Buffer.Append. destruct s as [|x s]; [lia|]. case_bool_decide; unfold Buffer.ReadableBytes in *; simpl;
    rewrite length_app; simpl; [rewrite length_drop|]; lia.
Qed.

Lemma write_loop_returns fuel m :
  (available (world m) + Buffer.ReadableBytes (output_ (conn m)) < fuel)%nat -> nospin (write_loop fuel) m.
Proof.
  revert m. induction fuel as [|fuel IH]; intros m Hf; [lia|]. simpl. apply nospin_get, nospin_if; intros Hz; [done|].
  apply nospin_call. intros r w Hs. pose proof (send_available _ _ _ _ Hs) as Ha.
  destruct r as [[|n]| | |]; try done; [|apply IH; simpl; lia].
  destruct (Buffer.Retrieve (S n) (output_ (conn m))) as [o|] eqn:Ho; [|done].
  apply Retrieve_size in Ho. apply nospin_emit, nospin_update, IH. simpl. lia.
Qed.

(** The send loop touches the queue only. *)
Definition only_output (m m' : machine) : Prop :=
  (available (world m') <= available (world m))%nat /\ (exists o, conn m' = set_output o (conn m) /\
    (Buffer.ReadableBytes o <= Buffer.ReadableBytes (output_ (conn m)))%nat).

Lemma write_loop_keeps fuel m : wp (write_loop fuel) (fun _ => only_output m) (fun _ => True) m.
Proof.
  revert m. induction fuel as [|fuel IH]; intros m; [done|]. simpl.
  assert (Hnow : forall w, (available w <= available (world m))%nat -> only_output m (mkMachine (conn m) w (log m))).
  { intros w Hw. split; [done|]. exists (output_ (conn m)). simpl. by destruct (conn m). }
  apply wp_bind, cl_get, wp_if; intros _; [apply wp_ret; destruct m; by apply Hnow|].
  apply wp_bind, cl_call. intros r w Hs. pose proof (send_available _ _ _ _ Hs) as Ha.
  destruct r as [[|n]| | |]; try (by apply wp_ret, Hnow).
  - destruct (Buffer.Retrieve (S n) (output_ (conn m))) as [o|] eqn:Ho; [|done]. apply Retrieve_size in Ho.
    apply wp_bind. unfold emit. apply wp_modify, wp_bind, cl_update.
    eapply wp_mono; [apply IH| |done]. intros _ m' (H1 & o' & H2 & H3). simpl in *.
    split; [lia|]. exists o'. split; [by rewrite H2|lia].
  - eapply wp_mono; [apply IH| |done]. intros _ m' (H1 & o' & H2 & H3). simpl in *. split; [lia|]. by exists o'.
Qed.

Lemma parse_input_returns m : nospin parse_input m.
Proof. unfold parse_input. apply nospin_get. by destruct (Parse _ _) as [[[? ?] ?]|]. Qed.

(** A parsed request takes at least one byte. *)
Lemma parse_input_takes m :
  wp parse_input (fun r m' => world m' = world m /\ exists i p, conn m' = set_input i p (conn m) /\
    (Buffer.ReadableBytes i <= Buffer.ReadableBytes (input_ (conn m)))%nat /\
    (parser_ (conn m) = HttpRequestParser.make -> r = kComplete ->
     (Buffer.ReadableBytes i < Buffer.ReadableBytes (input_ (conn m)))%nat)) (fun _ => True) m.
Proof.
  unfold parse_input. apply wp_bind, cl_get.
  assert (Hpos : forall r n, parse_bytes (Buffer.ReadableView (input_ (conn m))) = Complete r n -> (0 < n)%nat).
  { intros r n Hp. exact (parse_extend [] (Buffer.ReadableView (input_ (conn m))) r n Hp). }
  unfold Parse. case_bool_decide as Hr; simpl.
  - destruct (parse_bytes _) as [r|r n] eqn:Hp.
    + apply wp_bind, cl_update, wp_ret. split; [done|]. do 2 eexists. split; [done|]. split; [done|].
      intros _ ->. pose proof (parse_extend (Buffer.ReadableView (input_ (conn m))) []) as Hx. rewrite Hp in Hx.
      by destruct Hx as [[?|?] _].
    + destruct (Buffer.Retrieve n (input_ (conn m))) as [i|] eqn:Hi; simpl; [|done]. apply Retrieve_size in Hi.
      specialize (Hpos r n eq_refl). apply wp_bind, cl_update, wp_ret. split; [done|]. do 2 eexists. split; [done|].
      split; [lia|]. intros _ _. lia.
  - apply wp_bind, cl_update, wp_ret. split; [done|]. do 2 eexists. split; [done|]. split; [done|].
    intros Hm. by rewrite Hm in Hr.
Qed.

Definition block_returns (fuel : nat) : Prop :=
  (forall m, (work (conn m) (world m) + 1 < fuel)%nat -> nospin (HandleWrite fuel) m) /\
  (forall m, (work (conn m) (world m) < fuel)%nat -> nospin (ResumeReading fuel) m) /\
  (forall m, (work (conn m) (world m) + answer_bound + 3 < fuel)%nat -> nospin (DeliverParsedRequest fuel) m) /\
  (forall response m, (work (conn m) (world m) + (match Serialize response with Some s => length s | None => 0 end) + 2 < fuel)%nat ->
     nospin (SendResponse fuel response) m).

Lemma HandleWrite_returns_step fuel :
  block_returns fuel -> forall m, (work (conn m) (world m) + 1 < S fuel)%nat -> nospin (HandleWrite (S fuel)) m.
Proof.
  intros (_ & IHR & _) m Hf. simpl. apply nospin_get, nospin_if; intros _; [done|].
  apply nospin_bind; [apply write_loop_returns; unfold work in Hf; nia|].
  intros r m1 Hm1. destruct (wp_Ret _ _ _ _ _ _ (write_loop_keeps fuel m) Hm1) as (Ha & o & Hc & Ho). destruct r.
  - apply nospin_update, nospin_get, nospin_if; intros _; [apply NotifyDrained_returns|].
    apply nospin_if; intros _; [apply Close_returns|]. apply IHR. simpl. rewrite Hc.
    eapply Nat.le_lt_trans; [eapply (work_mono (conn m) _ (world m)); done|]. lia.
  - apply nospin_bind; [apply NotifyDrained_returns|done].
  - apply nospin_bind; [apply NotifyRequestAbort_returns|]. intros; apply Close_returns.
Qed.

Lemma ResumeReading_returns_step fuel :
  block_returns fuel -> forall m, (work (conn m) (world m) < S fuel)%nat -> nospin (ResumeReading (S fuel)) m.
Proof.
  intros (_ & _ & IHD & _) m Hf. simpl. apply nospin_get, nospin_if; intros _; [done|].
  apply nospin_update, nospin_emit, nospin_if; intros _; [|done].
  apply nospin_bind; [apply parse_input_returns|]. intros r m1 Hm1.
  destruct (wp_Ret _ _ _ _ _ _ (parse_input_takes _) Hm1) as (Hw & i & p & Hc & Hle & Hlt).
  destruct r; try done; try apply Close_returns. apply IHD. specialize (Hlt eq_refl eq_refl). simpl in Hlt, Hw.
  rewrite Hc, Hw. unfold work in *. simpl. nia.
Qed.

Lemma Deliver_returns_step fuel :
  block_returns fuel -> forall m, (work (conn m) (world m) + answer_bound + 3 < S fuel)%nat ->
  nospin (DeliverParsedRequest (S fuel)) m.
Proof.
  intros (_ & _ & _ & IHS) m Hf. simpl. apply nospin_get, nospin_update, nospin_emit, nospin_call. intros a w Ha.
  destruct a as [response|]; [|done]. apply nospin_catch; [|done]. apply IHS. simpl.
  assert (Hl : ((match Serialize response with Some s => length s | None => 0 end) <= answer_bound)%nat).
  { destruct (Serialize response) eqn:Es; [|lia]. by eapply answer_bounded. }
  apply request_available in Ha. simpl in Ha.
  assert (Hm : (work (conn m) w <= work (conn m) (world m))%nat) by by apply work_mono.
  unfold work in *. simpl in *. lia.
Qed.

Lemma Send_returns_step fuel :
  block_returns fuel -> forall response m,
  (work (conn m) (world m) + (match Serialize response with Some s => length s | None => 0 end) + 2 < S fuel)%nat ->
  nospin (SendResponse (S fuel) response) m.
Proof.
  intros (IHW & _) response m Hf. simpl. apply nospin_get, nospin_if; intros _; [done|].
  destruct (Serialize response) as [text|]; [|done]. apply nospin_emit, nospin_update, IHW.
  pose proof (Append_size text (output_ (conn m))). unfold work in *. cbn [conn world input_ output_ set_close set_writing set_flags set_output] in *. lia.
Qed.

Lemma block_returns_all fuel : block_returns fuel.
Proof.
  induction fuel as [|fuel IH]; [by split_and!; intros; lia|]. split; [by apply HandleWrite_returns_step|].
  split; [by apply ResumeReading_returns_step|]. split; [by apply Deliver_returns_step|by apply Send_returns_step].
Qed.

Lemma read_loop_returns fuel m :
  (work (conn m) (world m) + answer_bound + 4 < fuel)%nat -> nospin (read_loop fuel) m.
Proof.
  revert m. induction fuel as [|fuel IH]; intros m Hf; [lia|]. simpl. apply nospin_call. intros r w Hr.
  apply recv_available in Hr. destruct r as [b bs| | | |]; try done; try apply Close_returns.
  - apply nospin_emit, nospin_update, nospin_bind; [apply parse_input_returns|]. intros r m1 Hm1.
    destruct (wp_Ret _ _ _ _ _ _ (parse_input_takes _) Hm1) as (Hw & i & p & Hc & Hle & _).
    assert (Hm : (work (conn m1) (world m1) + 1 <= work (conn m) (world m))%nat).
    { rewrite Hc, Hw. pose proof (Append_size (b :: bs) (input_ (conn m))) as Ha. cbn [length] in Ha.
      cbn [conn world input_ output_ set_input] in *. eapply (work_recv _ _ _ _ (length bs)); [done|simpl in *; lia|done]. }
    destruct r; try apply Close_returns; [apply IH; lia|]. apply (block_returns_all fuel). lia.
  - apply IH. unfold work in *. simpl. nia.
Qed.

Lemma NotifyRequestAbort_keeps m :
  wp NotifyRequestAbort (fun _ m' => (work (conn m') (world m') <= work (conn m) (world m))%nat) (fun _ => True) m.
Proof.
  unfold NotifyRequestAbort. apply wp_bind, cl_get, wp_if; intros _; [by apply wp_ret|].
  apply wp_bind, cl_update, wp_if; intros _; [|by apply wp_ret]. apply wp_bind. unfold emit. apply wp_modify.
  apply wp_bind, cl_call. intros aborts w Ha. apply abort_available in Ha. simpl in Ha. apply wp_if; intros _.
  - apply wp_bind, cl_update. unfold AbortResponse, Close. apply wp_bind, cl_get, wp_if; intros _.
    + apply wp_ret. by apply work_mono.
    + apply wp_bind, cl_update, wp_bind. unfold emit. apply wp_modify. apply cl_call. intros [] w' [= <-].
      apply work_mono; simpl; [|done|done]. etrans; [apply close_available|done].
  - apply wp_ret. by apply work_mono.
Qed.

(** Enough fuel for a call: what is left to do, and what the call queues. *)
Definition call_fuel (o : owner_call) (m : machine) : nat :=
  work (conn m) (world m) + answer_bound + 5 +
  match o with
  | CallSend response => match Serialize response with Some s => length s | None => 0 end
  | CallBegin head => match SerializeHead head with Some s => length s | None => 0 end
  | CallBody bs => length bs
  | _ => 0
  end.

Lemma run_call_returns o m : nospin (run_call (call_fuel o m) o) m.
Proof.
  destruct o as [| |response|head|bs| | |d a| |]; unfold call_fuel; simpl.
  - unfold HandleRead. apply nospin_get, nospin_if; intros _; [done|]. apply nospin_if; intros _.
    + apply nospin_bind; [apply NotifyRequestAbort_returns|]. intros [] m1 Hm1.
      pose proof (wp_Ret _ _ _ _ _ _ (NotifyRequestAbort_keeps m) Hm1) as Hw. simpl in Hw.
      apply nospin_update, nospin_get, nospin_if; intros _; [|done]. apply block_returns_all. unfold work in *. simpl in *. lia.
    + apply read_loop_returns. lia.
  - apply block_returns_all. lia.
  - apply nospin_catch; [|done]. apply block_returns_all. lia.
  - apply nospin_catch; [|done]. unfold BeginResponse. apply nospin_get, nospin_if; intros _; [done|].
    destruct (SerializeHead head) as [text|]; [|done]. apply nospin_emit, nospin_update, block_returns_all.
    pose proof (Append_size text (output_ (conn m))). unfold work in *. cbn [conn world input_ output_ set_flags set_output] in *. lia.
  - apply nospin_catch; [|done]. apply nospin_bind; [|done]. unfold WriteResponseBody.
    apply nospin_get, nospin_if; intros _; [done|]. apply nospin_if; intros _; [done|]. apply nospin_emit, nospin_update, nospin_bind.
    + apply block_returns_all. pose proof (Append_size bs (output_ (conn m))). unfold work in *.
      cbn [conn world input_ output_ set_writing set_flags set_output] in *. lia.
    + intros [] m1 _. apply nospin_get. by apply nospin_if.
  - apply nospin_catch; [|done]. unfold FinishResponse. apply nospin_get, nospin_if; intros _; [done|].
    apply nospin_emit, nospin_update, nospin_if; intros _; [done|]. apply nospin_if; intros _; [apply Close_returns|].
    apply block_returns_all. unfold work in *. simpl in *. lia.
  - apply Close_returns.
  - apply nospin_get. by apply nospin_if.
  - done.
  - done.
Qed.

(** Any calls, each run to its end. *)
Fixpoint run_calls (os : list owner_call) : M machine unit :=
  match os with
  | [] => ret tt
  | o :: os => (fun m => run_call (call_fuel o m) o m);; run_calls os
  end.

(** C9: Whatever the peer, the operating system and the owner do, every call on
    a client connection returns, and what the connection does follows the
    specification: requests are what the parser finds in the input, delivered
    one at a time; each is answered at most once; the bytes sent are the bytes
    queued, in order, nothing lost or repeated; the next request is read when
    the answer was sent completely; nothing is sent or delivered after closing,
    which happens once; the abort is reported at most once.  At the end the
    buffers hold what the specification says, and an owner that was told that
    the queue is full, and installed its callback, has yet to be told that it
    drained. *)
Theorem client_refines high low flow w os :
  make_flow high low = Some flow ->
  exists m s, run_calls os (mkMachine (make flow) w []) = Ret tt m /\ accept low (log m) = Some s /\
    settled high low (conn m) s.
Proof.
  intros Hflow. unfold make_flow in Hflow. destruct (bool_decide (low = 0%nat)); [done|]. simpl in Hflow.
  case_bool_decide as Hlt; [done|]. injection Hflow as <-.
  pose proof (make_settled high low ltac:(lia) w) as Hm. revert Hm. generalize (mkMachine (make (mkFlow high low)) w []).
  induction os as [|o os IH]; intros m Hm.
  - destruct Hm as (s & Hs & Hset). exists m, s. done.
  - destruct (wp_total _ _ _ (run_call_ok high low ltac:(lia) (call_fuel o m) o (fun _ => at_ low (settled high low))
                (fun _ => False) m Hm (fun _ H => H)) (run_call_returns o m)) as ([] & m' & Hr & Hm').
    destruct (IH m' Hm') as (m2 & s & H1 & H2). exists m2, s. split; [|done]. simpl. unfold bind. by rewrite Hr.
Qed.

End Termination.


End Connection.
Arguments machine : clear implicits.
Arguments mkMachine {W}.

(** ** Example *)

(** The world is what the peer still sends; the socket takes seven bytes at a
    time; requests for [/missing] are answered at once. *)
Definition not_found : HttpResponse := mkResponse 404 (lit "Not Found") [] [] kNormal None.

#[global] Instance example_client : ClientEnv (list (byte * bytes)) := {|
  recv w := match w with [] => (RAgain, []) | (b, bs) :: w => (RData b bs, w) end;
  send bs w := (SCount (Nat.min 7 (length bs)), w);
  on_request r w := (if beq (target r) (lit "/missing") then Some not_found else None, w);
  on_abort w := (true, w);
  on_drained w := w;
  on_close w := w
|}.

#[global] Instance example_client_laws : ClientEnvLaws.
Proof.
  constructor. intros bs w n w' Hs. cbn [send example_client] in Hs.
  assert (n = Nat.min 7 (length bs)) as -> by congruence. lia.
Qed.

#[global] Program Instance example_client_finite : ClientFinite := {|
  available w := sum_list_with (fun c => S (length c.2)) w;
  answer_bound := match Serialize not_found with Some s => length s | None => 0 end
|}.
Next Obligation.
  intros [|[b bs] w] r w'; simpl; intros [= <- <-]; simpl; lia.
Qed.
Next Obligation. by intros bs w r w' [= <- <-]. Qed.
Next Obligation. by intros r w a w' [= _ <-]. Qed.
Next Obligation.
  intros r w response w' text Hr Ht. cbn [on_request example_client] in Hr.
  assert (response = not_found) as -> by (destruct (beq _ _); congruence). rewrite Ht. done.
Qed.
Next Obligation. by intros w b w' [= _ <-]. Qed.
Next Obligation. done. Qed.
Next Obligation. done. Qed.

Definition example_pipeline : bytes :=
  lit "GET /missing HTTP/1.1" ++ CRLF ++ lit "Host: x" ++ CRLF ++ CRLF ++
  lit "GET /a HTTP/1.1" ++ CRLF ++ lit "Host: x" ++ CRLF ++ CRLF.

Definition example_head : HttpResponseHead := mkHead 200 (lit "OK") [] kNormal (Some 3).

Definition example_calls : list owner_call :=
  [CallStart; CallRead; CallCallbacks true true; CallBegin example_head; CallBody (lit "abc"); CallFinish; CallRead].

Definition example_world : list (byte * bytes) := match example_pipeline with b :: bs => [(b, bs)] | [] => [] end.

Lemma client_refines_witness :
  exists m s, run_calls example_calls (mkMachine (make (mkFlow 4 2)) example_world []) = Ret tt m /\
    accept 2 (log m) = Some s /\ settled 4 2 (conn m) s.
Proof. apply (client_refines 4 2); reflexivity. Defined.

(** Both requests are delivered and answered, in order. *)
Definition requested (l : list event) : list bytes :=
  omap (fun e => match e with ERequest r => Some (target r) | EFinish => Some (lit "done") | _ => None end) l.

Example example_log :
  match run_calls example_calls (mkMachine (make (mkFlow 4 2)) example_world []) with
  | Ret _ m => requested (log m) = [lit "/missing"; lit "/a"; lit "done"] /\
               sp_phase <$> accept 2 (log m) = Some PReady
  | _ => False
  end.
Proof. vm_compute. by split. Qed.

End ClientConnection.
