(* ===== verification/TextCopies.v ===== *)
(** * The copies of the text helpers

    Several files declare the same helpers in an anonymous namespace.  HttpText,
    Bytes and ClientConnection model them once; here the copies of
    src/src/http/HttpResponseParser.cpp, src/src/proxy/ProxyTransaction.cpp and
    src/src/health/HealthChecker.cpp are translated as they are written, with
    their index loops, and shown to be the functions that the models of those
    files use. *)

From S2P Require Import Prelude Bytes HttpText ClientConnection.

Module TextCopies.
Import HttpText(token_mark, trim_front, trim_back, is_ows, value_char, HTAB, bare_lf, parse_digits).

(** ** HttpResponseParser.cpp *)

Definition LowerAscii_char (value : byte) : byte :=
  if (code "A"%byte <=? code value) && (code value <=? code "Z"%byte)
  then of_code (code value - code "A"%byte + code "a"%byte) else value.

Fixpoint LowerAscii (value : bytes) : bytes :=
  match value with
  | [] => []
  | c :: r => LowerAscii_char c :: LowerAscii r
  end.

Definition blank (c : byte) : bool := bool_decide (c = " "%byte) || bool_decide (c = "009"%byte).

(** [remove_prefix] and [remove_suffix], as long as the end is blank. *)
Fixpoint trim_prefix (value : bytes) : bytes :=
  match value with
  | c :: r => if blank c then trim_prefix r else value
  | [] => []
  end.
Fixpoint trim_suffix (fuel : nat) (value : bytes) : bytes :=
  match fuel with
  | O => value
  | S fuel =>
      match last value with
      | Some c => if blank c then trim_suffix fuel (take (length value - 1) value) else value
      | None => value
      end
  end.

Definition TrimOws (value : bytes) : bytes :=
  let value := trim_prefix value in trim_suffix (length value) value.

(** The loop: every character is a letter, a digit or a case of the switch. *)
Fixpoint token_chars (value : bytes) : bool :=
  match value with
  | [] => true
  | c :: r => if is_alnum c then token_chars r else if token_mark c then token_chars r else false
  end.

Definition IsToken (value : bytes) : bool := if token_chars value then negb (bool_decide (value = [])) else false.

Fixpoint IsValidFieldValue (value : bytes) : bool :=
  match value with
  | [] => true
  | c :: r => if negb (bool_decide (c = "009"%byte)) && ((code c <? 32) || (code c =? 127)) then false else IsValidFieldValue r
  end.

(** The test at one index, and the loop over the indices. *)
Definition bare_at (bytes_ : bytes) (index : nat) : bool :=
  bool_decide (bytes_ !! index = Some LF) && (Nat.eqb index 0 || negb (bool_decide (bytes_ !! (index - 1)%nat = Some CR))).
Definition HasBareLineFeed (bytes_ : bytes) : bool := existsb (bare_at bytes_) (seq 0 (length bytes_)).

(** [None] is [return false]. *)
Fixpoint length_digits (value : bytes) (parsed : Z) : option Z :=
  match value with
  | [] => Some parsed
  | c :: r =>
      if (code c <? code "0"%byte) || (code "9"%byte <? code c) then None
      else
        let digit := code c - code "0"%byte in
        if (u64_modulus - 1 - digit) / 10 <? parsed then None else length_digits r (wrap_u64 (parsed * 10 + digit))
  end.
Definition ParseContentLength (value : bytes) : option Z :=
  if bool_decide (value = []) then None else length_digits value 0.

(** ** ProxyTransaction.cpp and HealthChecker.cpp *)

(** [std::tolower] in the C locale. *)
Definition tolower (c : byte) : byte := if is_upper c then of_code (code c + 32) else c.

Definition differ_at (left right : bytes) (index : nat) : bool := negb (bool_decide (tolower <$> left !! index = tolower <$> right !! index)).
Definition EqualsIgnoreCase (left right : bytes) : bool :=
  if negb (Nat.eqb (length left) (length right)) then false else negb (existsb (differ_at left right) (seq 0 (length left))).

Definition LowerAscii_proxy (value : bytes) : bytes := foldl (fun result c => result ++ [tolower c]) [] value.

(** ** They are the modelled ones *)

Lemma LowerAscii_char_same c : LowerAscii_char c = lower c.
Proof. by destruct c. Qed.

Lemma LowerAscii_same s : LowerAscii s = lower_all s.
Proof. induction s as [|c s IH]; simpl; [done|]. by rewrite LowerAscii_char_same, IH. Qed.

Lemma trim_prefix_same s : trim_prefix s = trim_front s.
Proof. induction s as [|c s IH]; simpl; [done|]. by rewrite IH. Qed.

Lemma trim_suffix_same n s : (length s <= n)%nat -> trim_suffix n s = trim_back s.
Proof.
  revert s. induction n as [|n IH]; intros s Hn; [by destruct s; [|simpl in Hn; lia]|].
  destruct s as [|c s _] using rev_ind; [done|]. cbn [trim_suffix]. rewrite last_snoc. unfold trim_back. rewrite rev_app_distr. simpl.
  change (is_ows c) with (blank c). destruct (blank c); [|simpl; by rewrite rev_involutive].
  rewrite length_app, take_app_le by (simpl; lia). simpl. rewrite Nat.add_sub, take_ge by lia. apply IH. rewrite length_app in Hn. simpl in Hn. lia.
Qed.

Lemma TrimOws_same s : TrimOws s = HttpText.TrimOws s.
Proof. unfold TrimOws, HttpText.TrimOws. cbv zeta. rewrite trim_suffix_same by done. by rewrite trim_prefix_same. Qed.

Lemma IsToken_same s : IsToken s = HttpText.IsToken s.
Proof.
  unfold IsToken, HttpText.IsToken. assert (token_chars s = forallb (fun c => is_alnum c || token_mark c) s) as ->; [|by destruct (forallb _ _)].
  induction s as [|c s IH]; simpl; [done|]. rewrite IH. by destruct (is_alnum c), (token_mark c).
Qed.

Lemma IsValidFieldValue_same s : IsValidFieldValue s = HttpText.IsValidFieldValue s.
Proof.
  induction s as [|c s IH]; simpl; [done|]. rewrite IH. unfold value_char. change HTAB with "009"%byte.
  by destruct (bool_decide (c = "009"%byte)), ((code c <? 32) || (code c =? 127)).
Qed.

Lemma existsb_bare prev s k :
  existsb (bare_at (prev ++ s)) (seq (length prev) k) = bare_lf (last prev) (take k s).
Proof.
  revert prev s. induction k as [|k IH]; intros prev s; [by destruct s|]. destruct s as [|c s].
  - simpl. rewrite app_nil_r. apply not_true_is_false. intros [i [Hi Hb]]%(existsb_exists (bare_at prev) (seq (length prev) (S k))).
    unfold bare_at in Hb. rewrite lookup_ge_None_2 in Hb; [done|]. apply in_seq in Hi. lia.
  - simpl. f_equal.
    + unfold bare_at. rewrite list_lookup_middle by done. destruct prev as [|d prev _] using rev_ind; simpl.
      { f_equal. apply bool_decide_ext. naive_solver. }
      rewrite last_snoc. rewrite length_app. simpl. rewrite Nat.add_1_r. simpl. rewrite Nat.sub_0_r.
      rewrite <- app_assoc. simpl. rewrite list_lookup_middle by done. f_equal; apply bool_decide_ext; naive_solver.
    + specialize (IH (prev ++ [c]) s). rewrite <- app_assoc, length_app, last_snoc in IH. simpl in IH. by rewrite Nat.add_1_r in IH.
Qed.

Lemma HasBareLineFeed_same s : HasBareLineFeed s = HttpText.HasBareLineFeed s.
Proof. unfold HasBareLineFeed. pose proof (existsb_bare [] s (length s)) as E. simpl in E. by rewrite E, take_ge. Qed.

Lemma length_digits_same s n : length_digits s n = parse_digits s n.
Proof.
  revert n. induction s as [|c s IH]; intros n; simpl; [done|]. unfold is_digit, in_range. change (code "0"%byte) with 48. change (code "9"%byte) with 57.
  destruct (Z.ltb_spec (code c) 48), (Z.ltb_spec 57 (code c)), (Z.leb_spec 48 (code c)), (Z.leb_spec (code c) 57); simpl; try lia; try done.
  destruct (_ <? n); [done|apply IH].
Qed.

Lemma ParseContentLength_same s : ParseContentLength s = HttpText.ParseContentLength s.
Proof. destruct s; [done|]. apply length_digits_same. Qed.

Lemma existsb_map {X Y} (f : Y -> bool) (g : X -> Y) l : existsb f (map g l) = existsb (fun x => f (g x)) l.
Proof. induction l as [|x l IH]; simpl; [done|]. by rewrite IH. Qed.

Lemma EqualsIgnoreCase_same l r : EqualsIgnoreCase l r = ClientConnection.EqualsIgnoreCase l r.
Proof.
  unfold EqualsIgnoreCase. revert r. induction l as [|c l IH]; intros [|d r]; try done. specialize (IH r). simpl in IH |- *.
  destruct (Nat.eqb (length l) (length r)); simpl in IH |- *; [|by rewrite <- IH, andb_false_r].
  rewrite <- seq_shift, existsb_map. rewrite negb_orb. f_equal; [|exact IH].
  unfold differ_at. simpl. rewrite negb_involutive. apply bool_decide_ext. change tolower with lower. split; [by intros [= ->]|by intros ->].
Qed.

Lemma LowerAscii_proxy_same s : LowerAscii_proxy s = lower_all s.
Proof.
  unfold LowerAscii_proxy. assert (H : forall acc, foldl (fun result c => result ++ [tolower c]) acc s = acc ++ lower_all s); [|by rewrite H].
  induction s as [|c s IH]; intros acc; simpl; [by rewrite app_nil_r|]. by rewrite IH, <- app_assoc.
Qed.

End TextCopies.
