(* ===== verification/Generation.v ===== *)
(** * Configuration generations

    [Module RuntimeGeneration] models src/src/runtime/RuntimeGeneration.cpp: the
    request leases of one generation and its retirement states.
    [Module GenerationMailbox] models src/src/runtime/GenerationMailbox.cpp, the
    bounded queue through which workers and reapers talk to the gateway's
    control loop.  Every operation of both runs under the object's mutex; the
    callbacks it owes are returned, because the code calls them after the
    mutex is released. *)

From S2P Require Import Prelude.

Module RuntimeGeneration.

Inductive RetirementState := kActive | kRetiring | kCheckersStopped | kWaitingForLeases | kOutcomeDraining | kDone.

#[global] Instance RetirementState_eq_dec : EqDecision RetirementState.
Proof. solve_decision. Defined.

(** The two callback members are present or absent. *)
Record t := mk {
  active_request_leases_ : Z;
  retirement_state_ : RetirementState;
  coordinator_stopped_ : bool;
  on_state_change_ : bool;
  on_last_lease_ : bool;
  retirement_notified_ : bool;
  checkers_stopped_ : bool
}.

Definition make : t := mk 0 kActive false false false false false.

(** What is called once the mutex is released. *)
Inductive notice := StateChange (s : RetirementState) | LastLease.

Definition set_leases (n : Z) (g : t) : t :=
  mk n (retirement_state_ g) (coordinator_stopped_ g) (on_state_change_ g) (on_last_lease_ g)
     (retirement_notified_ g) (checkers_stopped_ g).
Definition set_state (s : RetirementState) (g : t) : t :=
  mk (active_request_leases_ g) s (coordinator_stopped_ g) (on_state_change_ g) (on_last_lease_ g)
     (retirement_notified_ g) (checkers_stopped_ g).
Definition set_notified (g : t) : t :=
  mk (active_request_leases_ g) (retirement_state_ g) (coordinator_stopped_ g) (on_state_change_ g)
     (on_last_lease_ g) true (checkers_stopped_ g).

(** A state change is reported if the callback is set. *)
Definition report (g : t) (s : RetirementState) : list notice :=
  if on_state_change_ g then [StateChange s] else [].
Definition last_lease (g : t) : list notice := if on_last_lease_ g then [LastLease] else [].

Definition SetStateChangeCallback (cb : bool) (g : t) : t :=
  mk (active_request_leases_ g) (retirement_state_ g) (coordinator_stopped_ g) cb (on_last_lease_ g)
     (retirement_notified_ g) (checkers_stopped_ g).

(** [None]: no lease. *)
Definition TryAcquireRequestLease (g : t) : option t :=
  if bool_decide (retirement_state_ g = kActive)
  then Some (set_leases (wrap_u64 (active_request_leases_ g + 1)) g)
  else None.

Definition AdvanceIfReady (g : t) : t * list notice :=
  let '(g, first) :=
    if bool_decide (retirement_state_ g = kRetiring) && checkers_stopped_ g
    then (set_state kCheckersStopped g, report g kCheckersStopped)
    else (g, []) in
  if bool_decide (retirement_state_ g = kCheckersStopped) && (active_request_leases_ g =? 0)
  then (set_state kWaitingForLeases g, first ++ report g kWaitingForLeases)
  else (g, first).

Definition BeginRetirement (on_last_lease : bool) (g : t) : t * list notice * bool :=
  if negb (bool_decide (retirement_state_ g = kActive)) then (g, [], false)
  else
    let g := mk (active_request_leases_ g) kRetiring (coordinator_stopped_ g) (on_state_change_ g)
                on_last_lease (retirement_notified_ g) (checkers_stopped_ g) in
    if (active_request_leases_ g =? 0) && negb (retirement_notified_ g)
    then (set_notified g, report g kRetiring ++ last_lease g, true)
    else (g, report g kRetiring, true).

Definition NotifyCheckersStopped (g : t) : t * list notice * bool :=
  if negb (bool_decide (retirement_state_ g = kRetiring))
     && negb (bool_decide (retirement_state_ g = kCheckersStopped)) then (g, [], false)
  else
    let g := mk (active_request_leases_ g) (retirement_state_ g) (coordinator_stopped_ g) (on_state_change_ g)
                (on_last_lease_ g) (retirement_notified_ g) true in
    let '(g, ns) := AdvanceIfReady g in (g, ns, true).

Definition BeginOutcomeStopping (g : t) : t * list notice * bool :=
  if negb (bool_decide (retirement_state_ g = kWaitingForLeases)) then (g, [], false)
  else if negb (active_request_leases_ g =? 0) then (g, [], false)
  else (set_state kOutcomeDraining g, report g kOutcomeDraining, true).

Definition BeginReaping (g : t) : t * list notice * bool :=
  if negb (bool_decide (retirement_state_ g = kWaitingForLeases)) || negb (active_request_leases_ g =? 0)
  then (g, [], false)
  else (set_state kOutcomeDraining g, report g kOutcomeDraining, true).

(** The state change is reported only when there was one: [cb] stays empty
    otherwise. *)
Definition MarkRetired (g : t) : t * list notice :=
  if bool_decide (retirement_state_ g = kOutcomeDraining) then (set_state kDone g, report g kDone) else (g, []).

Definition MarkCoordinatorStopped (g : t) : t :=
  mk (active_request_leases_ g) (retirement_state_ g) true (on_state_change_ g) (on_last_lease_ g)
     (retirement_notified_ g) (checkers_stopped_ g).

(** [None]: [std::terminate]. *)
Definition ReleaseRequestLease (g : t) : option (t * list notice) :=
  let previous := active_request_leases_ g in
  let g := set_leases (wrap_u64 (previous - 1)) g in
  if previous =? 0 then None
  else if previous =? 1 then
    let '(g, ns) := AdvanceIfReady g in
    if bool_decide (retirement_state_ g = kRetiring) && negb (retirement_notified_ g)
    then Some (set_notified g, ns ++ last_lease g)
    else Some (g, ns)
  else Some (g, []).

End RuntimeGeneration.

Module GenerationMailbox.

Inductive Kind := kLastRequestLeaseReleased | kWorkerBalancesReturned | kReaperFinished.

#[global] Instance Kind_eq_dec : EqDecision Kind.
Proof. solve_decision. Defined.

(** A generation is named by its version. *)
Definition Event : Type := Kind * Z.

(** [signalled] is the eventfd's counter being non-zero. *)
Record t := mk {
  capacity_ : nat;
  events_ : list Event;
  wake_fd_ : bool;
  closed_ : bool;
  signalled : bool
}.

(** [None]: an exception of the constructor. *)
Definition make (capacity : nat) : option t :=
  if bool_decide (capacity = 0%nat) then None else Some (mk capacity [] true false false).

(** [written]: the eventfd takes the write or already holds a signal. *)
Definition WakeLocked (written : bool) (m : t) : t * bool :=
  if negb (wake_fd_ m) then (m, false)
  else if written then (mk (capacity_ m) (events_ m) (wake_fd_ m) (closed_ m) true, true)
  else (m, false).

Definition Post (written : bool) (e : Event) (m : t) : t * bool :=
  if closed_ m || bool_decide (capacity_ m <= length (events_ m))%nat then (m, false)
  else
    let '(m', ok) := WakeLocked written (mk (capacity_ m) (events_ m ++ [e]) (wake_fd_ m) (closed_ m) (signalled m)) in
    if ok then (m', true) else (m, false).

(** [Drain] empties the eventfd first and takes the events in a second
    critical section. *)
Definition DrainRead (m : t) : t :=
  if wake_fd_ m then mk (capacity_ m) (events_ m) (wake_fd_ m) (closed_ m) false else m.
Definition DrainSwap (m : t) : t * list Event :=
  (mk (capacity_ m) [] (wake_fd_ m) (closed_ m) (signalled m), events_ m).

Definition Close (m : t) : t :=
  if closed_ m then m else mk (capacity_ m) (events_ m) false true (signalled m).

Definition pending (m : t) : nat := length (events_ m).

End GenerationMailbox.
