(* ===== verification/RequestLease.v ===== *)
(** * Request leases as objects

    Models RuntimeGeneration::RequestLease (src/src/runtime/RuntimeGeneration.cpp):
    the move-only object that keeps a generation from retiring while a request
    runs.  Lease objects are cells of a store that name a generation or none;
    the generations are those of Generation.v and may meanwhile retire. *)

From S2P Require Import Prelude Generation.

Module RequestLease.
Import RuntimeGeneration(ReleaseRequestLease, TryAcquireRequestLease, active_request_leases_).

Abbreviation generation := RuntimeGeneration.t.

Record t := mk { generations : gmap Z generation; cells : gmap nat (option Z) }.

Definition set_cell (x : nat) (o : option Z) (s : t) : t := mk (generations s) (<[ x := o ]> (cells s)).
Definition set_generation (v : Z) (g : generation) (s : t) : t := mk (<[ v := g ]> (generations s)) (cells s).

(** [TryAcquireRequestLease] into a new object; [false]: no lease. *)
Definition acquire (v : Z) (y : nat) (s : t) : option (t * bool) :=
  g ← generations s !! v;
  Some (match TryAcquireRequestLease g with
        | Some g => (set_cell y (Some v) (set_generation v g s), true)
        | None => (s, false)
        end).

(** [Release]: the object is empty before the generation is told; [None] is
    [std::terminate]. *)
Definition Release (x : nat) (s : t) : option t :=
  match cells s !! x with
  | Some (Some v) =>
      let s := set_cell x None s in
      g ← generations s !! v;
      '(g, _) ← ReleaseRequestLease g;
      Some (set_generation v g s)
  | Some None => Some s
  | None => None
  end.

Definition move_construct (x y : nat) (s : t) : option t :=
  o ← cells s !! x; Some (set_cell y o (set_cell x None s)).

Definition move_assign (x y : nat) (s : t) : option t :=
  if Nat.eqb x y then Some s
  else s ← Release y s; o ← cells s !! x; Some (set_cell y o (set_cell x None s)).

Definition destroy (x : nat) (s : t) : option t :=
  s ← Release x s; Some (mk (generations s) (delete x (cells s))).

(** The calls of the control loop on a generation. *)
Inductive call := CBeginRetirement (cb : bool) | CNotifyCheckersStopped | CBeginOutcomeStopping | CBeginReaping | CMarkRetired.

Definition apply (c : call) (g : generation) : generation :=
  match c with
  | CBeginRetirement cb => (RuntimeGeneration.BeginRetirement cb g).1.1
  | CNotifyCheckersStopped => (RuntimeGeneration.NotifyCheckersStopped g).1.1
  | CBeginOutcomeStopping => (RuntimeGeneration.BeginOutcomeStopping g).1.1
  | CBeginReaping => (RuntimeGeneration.BeginReaping g).1.1
  | CMarkRetired => (RuntimeGeneration.MarkRetired g).1
  end.

Inductive op :=
| OPublish (v : Z)
| OAcquire (v : Z) (y : nat)
| OMove (x y : nat)
| OAssign (x y : nat)
| ORelease (x : nat)
| ODestroy (x : nat)
| OCall (v : Z) (c : call).

(** The uses of objects the program can make: a new object takes a free cell,
    the others are used while they exist. *)
Definition possible (o : op) (s : t) : bool :=
  match o with
  | OPublish v => bool_decide (generations s !! v = None)
  | OAcquire v y => bool_decide (is_Some (generations s !! v)) && bool_decide (cells s !! y = None)
  | OMove x y => bool_decide (is_Some (cells s !! x)) && bool_decide (cells s !! y = None)
  | OAssign x y => bool_decide (is_Some (cells s !! x)) && bool_decide (is_Some (cells s !! y))
  | ORelease x | ODestroy x => bool_decide (is_Some (cells s !! x))
  | OCall v _ => bool_decide (is_Some (generations s !! v))
  end.

Definition exec (o : op) (s : t) : option t :=
  match o with
  | OPublish v => Some (set_generation v RuntimeGeneration.make s)
  | OAcquire v y => '(s, _) ← acquire v y s; Some s
  | OMove x y => move_construct x y s
  | OAssign x y => move_assign x y s
  | ORelease x => Release x s
  | ODestroy x => destroy x s
  | OCall v c => g ← generations s !! v; Some (set_generation v (apply c g) s)
  end.

Inductive result := Ran (s : t) | Impossible | Terminated.

Fixpoint run (os : list op) (s : t) : result :=
  match os with
  | [] => Ran s
  | o :: os =>
      if negb (possible o s) then Impossible
      else match exec o s with Some s => run os s | None => Terminated end
  end.

(** ** The leases are counted *)

Definition holds (v : Z) (p : nat * option Z) : Prop := p.2 = Some v.

#[global] Instance holds_dec v p : Decision (holds v p).
Proof. unfold holds. apply _. Defined.

Definition holders (v : Z) (m : gmap nat (option Z)) : Z := Z.of_nat (base.size (filter (holds v) m)).

Definition one (v : Z) (o : option Z) : Z := if bool_decide (o = Some v) then 1 else 0.

Lemma lease_holders_new v m x o : m !! x = None -> holders v (<[ x := o ]> m) = one v o + holders v m.
Proof.
  intros Hx. unfold holders, one. case_bool_decide as Ho.
  - rewrite map_filter_insert_True by done. rewrite map_size_insert_None; [lia|]. apply map_lookup_filter_None. by left.
  - rewrite map_filter_insert_False by done. rewrite delete_id by done. lia.
Qed.

Lemma lease_holders_delete v m x o : m !! x = Some o -> holders v m = one v o + holders v (delete x m).
Proof. intros Hx. rewrite <- (lease_holders_new v (delete x m) x o) by apply lookup_delete_eq. by rewrite insert_delete_id. Qed.

Lemma lease_holders_replace v m x o o' : m !! x = Some o -> holders v (<[ x := o' ]> m) = one v o' - one v o + holders v m.
Proof.
  intros Hx. rewrite (lease_holders_delete v m x o Hx), <- insert_delete_eq, lease_holders_new by apply lookup_delete_eq. lia.
Qed.

Lemma holders_pos v m : 0 <= holders v m.
Proof. unfold holders. lia. Qed.

(** Every generation counts the objects that hold it, and a held generation
    exists. *)
Definition inv (s : t) : Prop :=
  (forall v g, generations s !! v = Some g -> active_request_leases_ g = holders v (cells s)) /\
  (forall x v, cells s !! x = Some (Some v) -> is_Some (generations s !! v)).

Lemma holders_size v m : holders v m <= Z.of_nat (base.size m).
Proof. unfold holders. apply inj_le, map_size_filter. Qed.

Lemma AdvanceIfReady_leases g : active_request_leases_ (RuntimeGeneration.AdvanceIfReady g).1 = active_request_leases_ g.
Proof. unfold RuntimeGeneration.AdvanceIfReady. by repeat case_match; simplify_eq/=. Qed.

Lemma apply_leases c g : active_request_leases_ (apply c g) = active_request_leases_ g.
Proof.
  destruct c; simpl.
  - unfold RuntimeGeneration.BeginRetirement. by repeat case_match.
  - unfold RuntimeGeneration.NotifyCheckersStopped. case_match; [done|].
    pose proof (AdvanceIfReady_leases (RuntimeGeneration.mk (active_request_leases_ g) (RuntimeGeneration.retirement_state_ g)
      (RuntimeGeneration.coordinator_stopped_ g) (RuntimeGeneration.on_state_change_ g) (RuntimeGeneration.on_last_lease_ g)
      (RuntimeGeneration.retirement_notified_ g) true)) as E.
    by destruct (RuntimeGeneration.AdvanceIfReady _).
  - unfold RuntimeGeneration.BeginOutcomeStopping. by repeat case_match.
  - unfold RuntimeGeneration.BeginReaping. by repeat case_match.
  - unfold RuntimeGeneration.MarkRetired. by repeat case_match.
Qed.

Lemma ReleaseRequestLease_leases g :
  0 < active_request_leases_ g < u64_modulus ->
  exists g' ns, ReleaseRequestLease g = Some (g', ns) /\ active_request_leases_ g' = active_request_leases_ g - 1.
Proof.
  intros Hg. unfold ReleaseRequestLease. destruct (Z.eqb_spec (active_request_leases_ g) 0); [lia|].
  assert (Hw : wrap_u64 (active_request_leases_ g - 1) = active_request_leases_ g - 1) by (apply wrap_u64_small; mlia).
  destruct (Z.eqb_spec (active_request_leases_ g) 1); [|eexists _, _; split; [done|done]].
  pose proof (AdvanceIfReady_leases (RuntimeGeneration.set_leases (wrap_u64 (active_request_leases_ g - 1)) g)) as E.
  destruct (RuntimeGeneration.AdvanceIfReady _) as [g1 ns]. simpl in E. destruct (_ && _); eexists _, _; (split; [done|]); simpl; congruence.
Qed.

(** A change of one cell that gives and takes what the generations count. *)
Lemma lease_release_inv x s o :
  inv s -> Z.of_nat (base.size (cells s)) < u64_modulus -> cells s !! x = Some o ->
  exists s', Release x s = Some s' /\ inv s' /\ cells s' = <[ x := None ]> (cells s) /\ dom (generations s') = dom (generations s).
Proof.
  intros [H1 H2] Hs Hx. unfold Release. rewrite Hx. destruct o as [v|].
  2: { exists s. split; [done|]. split; [done|]. split; [by rewrite insert_id|done]. }
  destruct (H2 x v Hx) as [g Hg]. simpl. rewrite Hg. cbn [mbind option_bind].
  assert (Hh : holders v (cells s) = 1 + holders v (delete x (cells s))).
  { rewrite (lease_holders_delete v _ x _ Hx). unfold one. by rewrite bool_decide_eq_true_2. }
  pose proof (holders_pos v (delete x (cells s))). pose proof (holders_size v (cells s)).
  destruct (ReleaseRequestLease_leases g) as (g' & ns & E & Eg); [rewrite (H1 v g Hg); lia|]. rewrite E. cbn.
  eexists. split; [done|]. simpl. split; [|split; [done|]].
  - split; simpl.
    + intros w h Hw. rewrite (lease_holders_replace w _ x _ None Hx). unfold one. destruct (decide (w = v)) as [->|Hne].
      * rewrite lookup_insert_eq in Hw. injection Hw as <-. rewrite Eg, (H1 v g Hg), (bool_decide_eq_false_2 (None = Some v)), (bool_decide_eq_true_2 (Some v = Some v)) by done. lia.
      * rewrite lookup_insert_ne in Hw by done. rewrite (H1 w h Hw), !bool_decide_eq_false_2 by congruence. lia.
    + intros y w. rewrite lookup_insert_Some. intros [[_ ?]|[_ Hy]]; [done|]. apply lookup_insert_is_Some'. right. by eapply H2.
  - rewrite dom_insert_L. assert (v ∈ dom (generations s)) by (apply elem_of_dom; eauto). set_solver.
Qed.

(** A lease moves from [x] to a cell that holds nothing. *)
Lemma lease_move_inv x y s o :
  inv s -> x <> y -> cells s !! x = Some o -> cells s !! y = Some None \/ cells s !! y = None ->
  inv (set_cell y o (set_cell x None s)).
Proof.
  intros [H1 H2] Hne Hx Hy. split; simpl.
  - intros v g Hg. rewrite (H1 v g Hg). destruct Hy as [Hy|Hy].
    + rewrite (lease_holders_replace v _ y None o) by (by rewrite lookup_insert_ne). rewrite (lease_holders_replace v _ x o None Hx). unfold one. simpl. lia.
    + rewrite lease_holders_new by (by rewrite lookup_insert_ne). rewrite (lease_holders_replace v _ x o None Hx). unfold one. simpl. lia.
  - intros z v. rewrite lookup_insert_Some. intros [[_ ->]|[_ Hz]]; [by eapply H2|].
    rewrite lookup_insert_Some in Hz. destruct Hz as [[_ ?]|[_ Hz]]; [done|by eapply H2].
Qed.

Lemma lease_generation_inv v g s :
  inv s -> active_request_leases_ g = holders v (cells s) -> inv (set_generation v g s).
Proof.
  intros [H1 H2] Hg. split; simpl.
  - intros w h. rewrite lookup_insert_Some. intros [[<- <-]|[_ Hw]]; [done|by apply H1].
  - intros x w Hx. apply lookup_insert_is_Some'. right. by eapply H2.
Qed.

Lemma lease_exec_inv o s :
  inv s -> Z.of_nat (base.size (cells s)) + 1 < u64_modulus -> possible o s = true ->
  exists s', exec o s = Some s' /\ inv s' /\ (base.size (cells s') <= S (base.size (cells s)))%nat.
Proof.
  intros Hi Hs Hp.
  assert (Hone : forall y (m : gmap nat (option Z)) z, (base.size (<[ y := z ]> m) <= S (base.size m))%nat)
    by (intros y m z; rewrite map_size_insert; case_match; unfold id; lia).
  assert (Hsame : forall y (m : gmap nat (option Z)) z, is_Some (m !! y) -> base.size (<[ y := z ]> m) = base.size m)
    by (intros y m z [? Hy]; by rewrite map_size_insert, Hy).
  destruct o as [v|v y|x y|x y|x|x|v c]; simpl in Hp |- *; rewrite ?andb_true_iff, ?bool_decide_eq_true in Hp.
  - eexists. split; [done|]. split; [|simpl; lia]. apply lease_generation_inv; [done|]. simpl. symmetry. unfold holders.
    destruct Hi as [_ H2]. assert (filter (holds v) (cells s) = ∅) as ->; [|done].
    apply map_empty. intros x. apply map_lookup_filter_None. right. intros o Ho Hh. unfold holds in Hh. simpl in Hh. subst o.
    destruct (H2 x v Ho). congruence.
  - destruct Hp as [[g Hg] Hy]. unfold acquire. rewrite Hg. simpl. unfold TryAcquireRequestLease.
    case_bool_decide; simpl; [|eexists; split; [done|]; split; [done|lia]]. eexists. split; [done|]. split; [|simpl; apply Hone].
    destruct Hi as [H1 H2]. pose proof (holders_pos v (cells s)). pose proof (holders_size v (cells s)).
    assert (Hw : wrap_u64 (active_request_leases_ g + 1) = 1 + holders v (cells s)) by (rewrite (H1 v g Hg); rewrite Z.add_comm; apply wrap_u64_small; mlia).
    split; simpl.
    + intros w h. rewrite lease_holders_new by done. unfold one. rewrite lookup_insert_Some. intros [[<- <-]|[Hne Hh]].
      * simpl. rewrite Hw, bool_decide_eq_true_2 by done. done.
      * rewrite (H1 w h Hh), bool_decide_eq_false_2 by congruence. lia.
    + intros x w. rewrite lookup_insert_Some. intros [[_ [= ->]]|[_ Hx]]; apply lookup_insert_is_Some'; [by left|right; by eapply H2].
  - destruct Hp as [[o Hx] Hy]. unfold move_construct. rewrite Hx. simpl. eexists. split; [done|]. assert (x <> y) by congruence.
    split; [apply lease_move_inv; auto|]. simpl. etrans; [apply Hone|]. by rewrite Hsame by eauto.
  - destruct Hp as [[o Hx] [o' Hy]]. unfold move_assign. destruct (Nat.eqb_spec x y) as [|Hne]; [eexists; split; [done|]; split; [done|lia]|].
    destruct (lease_release_inv y s o' Hi ltac:(lia) Hy) as (s1 & -> & H1 & E & _). simpl.
    assert (Hx1 : cells s1 !! x = Some o) by (rewrite E; by rewrite lookup_insert_ne).
    assert (Hy1 : cells s1 !! y = Some None) by (rewrite E; by rewrite lookup_insert_eq).
    rewrite Hx1. simpl. eexists. split; [done|]. split; [apply lease_move_inv; auto|]. simpl.
    rewrite Hsame by (rewrite lookup_insert_ne by done; eauto). rewrite Hsame by eauto. rewrite E, Hsame by eauto. lia.
  - destruct Hp as [o Hx]. destruct (lease_release_inv x s o Hi ltac:(lia) Hx) as (s1 & -> & H1 & E & _).
    eexists. split; [done|]. split; [done|]. rewrite E, Hsame by eauto. lia.
  - destruct Hp as [o Hx]. unfold destroy. destruct (lease_release_inv x s o Hi ltac:(lia) Hx) as (s1 & -> & [H1 H2] & E & _). simpl.
    assert (Hx1 : cells s1 !! x = Some None) by (rewrite E; by rewrite lookup_insert_eq).
    eexists. split; [done|]. split; [split; simpl|].
    + intros v g Hg. rewrite (H1 v g Hg), (lease_holders_delete v _ x None Hx1). unfold one. by rewrite bool_decide_eq_false_2.
    + intros y v. rewrite lookup_delete_Some. intros [_ Hy]. by eapply H2.
    + simpl. rewrite map_size_delete, Hx1, E, Hsame by eauto. lia.
  - destruct Hp as [g Hg]. rewrite Hg. simpl. eexists. split; [done|]. split; [|simpl; lia]. apply lease_generation_inv; [done|].
    rewrite apply_leases. by apply Hi.
Qed.

(** Lease objects never release what they do not hold: in every sequence of
    acquisitions, moves, assignments, releases and destructions, while generations
    retire, the process is not terminated by an underflow, and every generation's
    counter is the number of objects that hold it. *)
Theorem leases_counted os :
  Z.of_nat (length os) + 1 < u64_modulus ->
  match run os (mk ∅ ∅) with
  | Ran s => forall v g, generations s !! v = Some g -> active_request_leases_ g = holders v (cells s)
  | Impossible => True
  | Terminated => False
  end.
Proof.
  intros Hl. assert (Hi : inv (mk ∅ ∅)) by (split; by intros ? ? ?).
  assert (Hs : Z.of_nat (base.size (cells (mk ∅ ∅)) + length os) + 1 < u64_modulus) by (simpl; rewrite map_size_empty; lia).
  clear Hl. revert Hi Hs. generalize (mk ∅ ∅). induction os as [|o os IH]; intros s Hi Hs; simpl; [apply Hi|].
  destruct (possible o s) eqn:Hp; simpl; [|done]. simpl in Hs.
  destruct (lease_exec_inv o s Hi ltac:(lia) Hp) as (s' & -> & Hi' & Hsz). apply IH; [done|lia].
Qed.

End RequestLease.
