(* ===== verification/Retirement.v ===== *)
(** * Reload and retirement

    The control loop of src/src/gateway/Gateway.cpp: publishing a replacement
    generation, and retiring the previous one while requests still hold leases
    of it.  Workers, reaper threads and the control loop interleave freely;
    [fire] is one step of one of them.  The gateway runs [worker_count] workers,
    and a generation is named by its version. *)

From S2P Require Import Prelude Generation.

Module Gateway.
Import RuntimeGeneration GenerationMailbox.

Definition kMaxRetiringGenerations : nat := 2.

(** The control loop's position in [HandleGenerationEvents]. *)
Inductive control := Idle | Swapping | Handling (events : list Event).

Record t := mk {
  worker_count : nat;
  generations : gmap Z RuntimeGeneration.t;
  current_generation_ : Z;
  retiring_generations_ : gmap Z nat;
  generation_mailbox_ : GenerationMailbox.t;
  running : bool;
  workers_stopped_ : bool;
  loop : control;
  notices : list Z;
  tasks : list (nat * Z);
  reapers : list Z
}.

(** A gateway that has started, with its first generation. *)
Definition make (workers : nat) (mailbox : GenerationMailbox.t) : t :=
  mk workers {[1 := RuntimeGeneration.make]} 1 ∅ mailbox true false Idle [] [] [].

Definition with_generation (v : Z) (x : RuntimeGeneration.t) (g : t) : t :=
  mk (worker_count g) (<[v := x]> (generations g)) (current_generation_ g) (retiring_generations_ g)
     (generation_mailbox_ g) (running g) (workers_stopped_ g) (loop g) (notices g) (tasks g) (reapers g).
Definition with_retiring (r : gmap Z nat) (g : t) : t :=
  mk (worker_count g) (generations g) (current_generation_ g) r (generation_mailbox_ g) (running g)
     (workers_stopped_ g) (loop g) (notices g) (tasks g) (reapers g).
Definition with_mailbox (m : GenerationMailbox.t) (g : t) : t :=
  mk (worker_count g) (generations g) (current_generation_ g) (retiring_generations_ g) m (running g)
     (workers_stopped_ g) (loop g) (notices g) (tasks g) (reapers g).
Definition with_loop (l : control) (g : t) : t :=
  mk (worker_count g) (generations g) (current_generation_ g) (retiring_generations_ g)
     (generation_mailbox_ g) (running g) (workers_stopped_ g) l (notices g) (tasks g) (reapers g).
Definition with_threads (ns : list Z) (ts : list (nat * Z)) (rs : list Z) (g : t) : t :=
  mk (worker_count g) (generations g) (current_generation_ g) (retiring_generations_ g)
     (generation_mailbox_ g) (running g) (workers_stopped_ g) (loop g) ns ts rs.
Definition with_current (v : Z) (g : t) : t :=
  mk (worker_count g) (generations g) v (retiring_generations_ g) (generation_mailbox_ g) (running g)
     (workers_stopped_ g) (loop g) (notices g) (tasks g) (reapers g).
Definition with_lifecycle (running stopped : bool) (g : t) : t :=
  mk (worker_count g) (generations g) (current_generation_ g) (retiring_generations_ g)
     (generation_mailbox_ g) running stopped (loop g) (notices g) (tasks g) (reapers g).

(** [mailbox->Post(...)], and [std::terminate] when it is refused. *)
Definition post (e : Event) (g : t) : option t :=
  let '(m, ok) := Post true e (generation_mailbox_ g) in
  if ok then Some (with_mailbox m g) else None.

(** ** The retirement pipeline *)

(** The calls owed for generation [v]; state changes have no listener in the
    gateway. *)
Definition is_last_lease (n : notice) : bool := match n with LastLease => true | StateChange _ => false end.
Definition last_leases (ns : list notice) : nat := length (filter is_last_lease ns).

Definition RetireGeneration (v : Z) (g : t) : option t :=
  match retiring_generations_ g !! v with
  | Some _ => Some g
  | None =>
      match generations g !! v with
      | None => Some g
      | Some x =>
          let g' := with_retiring (<[v := 0%nat]> (retiring_generations_ g)) g in
          let '(x, ns, ok) := BeginRetirement true x in
          if negb ok then Some (with_retiring (delete v (retiring_generations_ g')) g')
          else
            let g' := with_generation v x g' in
            if bool_decide (last_leases ns = 0%nat) then Some g'
            else post (kLastRequestLeaseReleased, v) g'
      end
  end.

(** What [RequestReload] finds: the candidate asks for the same number of
    workers, and the replacement could be built and took over the protection
    state. *)
Record candidate := mkCandidate { same_workers : bool; prepared : bool }.

Definition RequestReload (c : candidate) (g : t) : option t :=
  let previous := current_generation_ g in
  if negb (running g) then Some g
  else if negb (same_workers c) then Some g
  else if bool_decide (kMaxRetiringGenerations <= base.size (retiring_generations_ g))%nat then Some g
  else if negb (prepared c) then Some g
  else
    let version := wrap_u64 (previous + 1) in
    RetireGeneration previous (with_current version (with_generation version RuntimeGeneration.make g)).

Definition StartRetirementReaper (v : Z) (g : t) : t :=
  match generations g !! v with
  | None => g
  | Some x =>
      let '(x, _, ok) := BeginReaping x in
      if ok then with_threads (notices g) (tasks g) (reapers g ++ [v]) (with_generation v x g) else g
  end.

(** [StopCheckers], the state machine, and the reaper. *)
Definition stop_checkers (v : Z) (g : t) : t :=
  match generations g !! v with
  | None => g
  | Some x =>
      let '(x, _, ok) := NotifyCheckersStopped x in
      let g := with_generation v x g in
      if ok then StartRetirementReaper v g else g
  end.

(** [accepted i]: worker [i] takes the task; otherwise [std::terminate]. *)
Definition RequestWorkerBalanceReturn (accepted : nat -> bool) (v : Z) (g : t) : option t :=
  if workers_stopped_ g || bool_decide (worker_count g = 0%nat) then Some (stop_checkers v g)
  else if forallb accepted (seq 0 (worker_count g))
  then Some (with_threads (notices g) (tasks g ++ ((fun i => (i, v)) <$> seq 0 (worker_count g))) (reapers g) g)
  else None.

(** One turn of the loop of [HandleGenerationEvents]. *)
Definition handle_event (accepted : nat -> bool) (e : Event) (g : t) : option t :=
  let v := e.2 in
  match retiring_generations_ g !! v with
  | None => Some g
  | Some returned =>
      match e.1 with
      | kLastRequestLeaseReleased => RequestWorkerBalanceReturn accepted v g
      | kWorkerBalancesReturned =>
          let g := with_retiring (<[v := S returned]> (retiring_generations_ g)) g in
          Some (if bool_decide (S returned = worker_count g) then stop_checkers v g else g)
      | kReaperFinished =>
          match generations g !! v with
          | None => Some g
          | Some x =>
              let '(x, _) := MarkRetired x in
              Some (with_retiring (delete v (retiring_generations_ g)) (with_generation v x g))
          end
      end
  end.

(** ** Interleavings *)

(** A step: a worker acquires or releases a lease; the thread that released
    the last lease posts; a worker runs its balance task; a reaper ends; the
    control loop reloads, drains the mailbox or handles one event; the
    destructor stops the gateway and then its workers. *)
Inductive label :=
| Acquire (v : Z)
| Release (v : Z)
| Notify (k : nat)
| ReturnBalance (k : nat)
| Reap (k : nat)
| Reload (c : candidate)
| BeginDrain
| Take
| Handle (accepted : nat -> bool)
| BeginStop
| StopWorkers.

Inductive outcome := Next (g : t) | Disabled | Terminated.

Definition or_terminate (o : option t) : outcome := match o with Some g => Next g | None => Terminated end.

Definition fire (l : label) (g : t) : outcome :=
  match l with
  | Acquire v =>
      match x ← generations g !! v; TryAcquireRequestLease x with
      | Some x => Next (with_generation v x g)
      | None => Disabled
      end
  | Release v =>
      match generations g !! v with
      | None => Disabled
      | Some x =>
          (* a lease releases once, so one is held *)
          if active_request_leases_ x =? 0 then Disabled
          else
            match ReleaseRequestLease x with
            | None => Terminated
            | Some (x, ns) =>
                Next (with_threads (notices g ++ replicate (last_leases ns) v) (tasks g) (reapers g)
                        (with_generation v x g))
            end
      end
  | Notify k =>
      match notices g !! k with
      | None => Disabled
      | Some v =>
          or_terminate (post (kLastRequestLeaseReleased, v)
                          (with_threads (delete k (notices g)) (tasks g) (reapers g) g))
      end
  | ReturnBalance k =>
      match tasks g !! k with
      | None => Disabled
      | Some (_, v) =>
          or_terminate (post (kWorkerBalancesReturned, v)
                          (with_threads (notices g) (delete k (tasks g)) (reapers g) g))
      end
  | Reap k =>
      match reapers g !! k with
      | None => Disabled
      | Some v =>
          or_terminate (post (kReaperFinished, v)
            (with_threads (notices g) (tasks g) (delete k (reapers g))
               (match generations g !! v with
                | Some x => with_generation v (MarkCoordinatorStopped x) g
                | None => g
                end)))
      end
  | Reload c =>
      match loop g with
      | Idle => or_terminate (RequestReload c g)
      | _ => Disabled
      end
  | BeginDrain =>
      match loop g with
      | Idle => Next (with_loop Swapping (with_mailbox (DrainRead (generation_mailbox_ g)) g))
      | _ => Disabled
      end
  | Take =>
      match loop g with
      | Swapping =>
          let '(m, es) := DrainSwap (generation_mailbox_ g) in
          Next (with_loop (Handling es) (with_mailbox m g))
      | _ => Disabled
      end
  | Handle accepted =>
      match loop g with
      | Handling [] => Next (with_loop Idle g)
      | Handling (e :: es) => or_terminate (handle_event accepted e (with_loop (Handling es) g))
      | _ => Disabled
      end
  | BeginStop =>
      match loop g with
      | Idle => Next (with_lifecycle false (workers_stopped_ g) g)
      | _ => Disabled
      end
  | StopWorkers =>
      match loop g, tasks g with
      | Idle, [] => if running g then Disabled else Next (with_lifecycle false true g)
      | _, _ => Disabled
      end
  end.

(** A step that cannot be taken leaves the gateway as it is. *)
Fixpoint run (ls : list label) (g : t) : option t :=
  match ls with
  | [] => Some g
  | l :: ls =>
      match fire l g with
      | Next g => run ls g
      | Disabled => run ls g
      | Terminated => None
      end
  end.

(** ** Messages in flight *)

Definition batch (l : control) : list Event := match l with Handling es => es | _ => [] end.

(** Every notification, event, task and reaper, as the event it is or will
    post. *)
Definition tokens (g : t) : list Event :=
  (pair kLastRequestLeaseReleased <$> notices g) ++ events_ (generation_mailbox_ g) ++ batch (loop g) ++
  ((fun x => (kWorkerBalancesReturned, x.2)) <$> tasks g) ++ (pair kReaperFinished <$> reapers g).

Definition occ (e : Event) (l : list Event) : nat := length (filter (eq e) l).
Definition of_version (v : Z) (e : Event) : bool := bool_decide (e.2 = v).

#[global] Instance occ_perm e : Proper ((≡ₚ) ==> eq) (occ e).
Proof. intros l k H. unfold occ. by rewrite H. Qed.

Lemma occ_app e l k : occ e (l ++ k) = (occ e l + occ e k)%nat.
Proof. unfold occ. by rewrite filter_app, length_app. Qed.

Lemma occ_cons e x l : occ e (x :: l) = ((if bool_decide (e = x) then 1 else 0) + occ e l)%nat.
Proof. unfold occ. rewrite filter_cons. case_decide; case_bool_decide; done. Qed.

Lemma occ_none e l : e ∉ l -> occ e l = 0%nat.
Proof.
  induction l as [|x l IH]; intros He; [done|]. apply not_elem_of_cons in He as [Hx Hl].
  by rewrite occ_cons, IH, bool_decide_eq_false_2 by done.
Qed.

(** The messages of one generation, and how many there can be of several. *)
Lemma occ_version v l :
  length (filter (of_version v) l) =
  (occ (kLastRequestLeaseReleased, v) l + occ (kWorkerBalancesReturned, v) l + occ (kReaperFinished, v) l)%nat.
Proof.
  induction l as [|[k w] l IH]; [done|]. rewrite !occ_cons, filter_cons. simpl.
  unfold of_version at 1. simpl.
  case_decide as Hd; rewrite bool_decide_spec in Hd; simpl in Hd |- *; subst; rewrite IH; destruct k;
    repeat case_bool_decide; try congruence; simpl; lia.
Qed.

Lemma length_by_version (n : nat) (D : gset Z) l :
  (forall e, e ∈ l -> e.2 ∈ D) -> (forall v, length (filter (of_version v) l) <= n)%nat ->
  (length l <= base.size D * n)%nat.
Proof.
  revert l. induction D as [|v D Hv IH] using set_ind_L; intros l Hin Hn.
  { destruct l as [|e l]; [done|]. specialize (Hin e ltac:(set_solver)). set_solver. }
  rewrite size_union, size_singleton, Nat.mul_add_distr_r, Nat.mul_1_l by set_solver.
  pose proof (filter_app_complement (of_version v) l) as Hp.
  rewrite <- Hp, length_app. specialize (IH (filter (fun e => ~ of_version v e) l)). specialize (Hn v) as Hv'.
  assert (length (filter (fun e => ~ of_version v e) l) <= base.size D * n)%nat; [apply IH|by apply Nat.add_le_mono].
  - intros e [He1 He2]%list_elem_of_filter. specialize (Hin e He2). unfold of_version in He1. rewrite bool_decide_spec in He1. set_solver.
  - intros w. specialize (Hn w). rewrite <- Hp, filter_app, length_app in Hn.
    etrans; [|exact Hn]. apply Nat.le_add_l.
Qed.

(** ** The invariant *)

(** Where a generation is: its retirement state, the balances counted for it,
    and its messages in flight by kind. *)
Inductive stage (n : nat) (x : RuntimeGeneration.t) : option nat -> nat -> nat -> nat -> Prop :=
| stage_active :
    retirement_state_ x = kActive -> retirement_notified_ x = false -> checkers_stopped_ x = false ->
    coordinator_stopped_ x = false -> stage n x None 0 0 0
| stage_held :
    retirement_state_ x = kRetiring -> retirement_notified_ x = false -> checkers_stopped_ x = false ->
    coordinator_stopped_ x = false -> on_last_lease_ x = true -> 0 < active_request_leases_ x ->
    stage n x (Some 0%nat) 0 0 0
| stage_notified :
    retirement_state_ x = kRetiring -> retirement_notified_ x = true -> checkers_stopped_ x = false ->
    coordinator_stopped_ x = false -> active_request_leases_ x = 0 -> stage n x (Some 0%nat) 1 0 0
| stage_returning k :
    (k < n)%nat -> retirement_state_ x = kRetiring -> retirement_notified_ x = true -> checkers_stopped_ x = false ->
    coordinator_stopped_ x = false -> active_request_leases_ x = 0 -> stage n x (Some k) 0 (n - k) 0
| stage_reaping k :
    retirement_state_ x = kOutcomeDraining -> active_request_leases_ x = 0 -> stage n x (Some k) 0 0 1
| stage_done :
    retirement_state_ x = kDone -> active_request_leases_ x = 0 -> stage n x None 0 0 0.

Definition stage_at (g : t) (v : Z) : Prop :=
  let c k := occ (k, v) (tokens g) in
  match generations g !! v with
  | Some x =>
      stage (worker_count g) x (retiring_generations_ g !! v) (c kLastRequestLeaseReleased)
            (c kWorkerBalancesReturned) (c kReaperFinished)
  | None => retiring_generations_ g !! v = None /\ forall k, c k = 0%nat
  end.

(** After [i] steps. *)
Record inv (i : Z) (g : t) : Prop := {
  inv_stage : forall v, stage_at g v;
  inv_workers : (0 < worker_count g <= 8)%nat;
  inv_size : (base.size (retiring_generations_ g) <= kMaxRetiringGenerations)%nat;
  inv_versions : forall v x, generations g !! v = Some x -> 1 <= v <= current_generation_ g;
  inv_current : exists x, generations g !! current_generation_ g = Some x /\ retirement_state_ x = kActive;
  inv_leases : forall v x, generations g !! v = Some x -> 0 <= active_request_leases_ x <= i;
  inv_version : current_generation_ g <= 1 + i;
  inv_box : capacity_ (generation_mailbox_ g) = 16%nat /\ wake_fd_ (generation_mailbox_ g) = true /\
            closed_ (generation_mailbox_ g) = false;
  inv_wake : events_ (generation_mailbox_ g) <> [] -> signalled (generation_mailbox_ g) = true \/ loop g = Swapping
}.

(** A generation the step does not touch. *)
Lemma stage_at_same g g' v :
  worker_count g' = worker_count g -> generations g' !! v = generations g !! v ->
  retiring_generations_ g' !! v = retiring_generations_ g !! v ->
  (forall k, occ (k, v) (tokens g') = occ (k, v) (tokens g)) -> stage_at g v -> stage_at g' v.
Proof.
  intros H1 H2 H3 H4. unfold stage_at. rewrite H1, H2, H3, !H4.
  destruct (generations g !! v); [done|]. intros [H5 H6]. split; [done|]. intros k. by rewrite H4.
Qed.

Lemma stage_total n x r a b c : (0 < n)%nat -> stage n x r a b c -> (a + b + c <= n)%nat /\ (r = None -> a + b + c = 0)%nat.
Proof. intros Hn []; simpl; split; (lia || done). Qed.

(** The mailbox always has room for one more message. *)
Lemma tokens_by_size i g : inv i g -> (length (tokens g) <= base.size (retiring_generations_ g) * worker_count g)%nat.
Proof.
  intros [Hs Hw Hz _ _ _ _ _ _].
  assert (Hv : forall v, (length (filter (of_version v) (tokens g)) <= worker_count g)%nat /\
                         (retiring_generations_ g !! v = None -> length (filter (of_version v) (tokens g)) = 0%nat)).
  { intros v. rewrite occ_version. specialize (Hs v). unfold stage_at in Hs.
    destruct (generations g !! v) as [x|].
    - apply stage_total in Hs; lia || done.
    - destruct Hs as [_ Hs]. rewrite !Hs. lia. }
  pose proof (length_by_version (worker_count g) (dom (retiring_generations_ g)) (tokens g)) as Hl.
  rewrite size_dom in Hl. apply Hl.
  - intros e He. apply elem_of_dom. destruct (retiring_generations_ g !! e.2) eqn:Er; [done|].
    destruct (Hv e.2) as [_ H0]. specialize (H0 Er). apply nil_length_inv in H0.
    assert (e ∈ filter (of_version e.2) (tokens g)) as H; [|rewrite H0 in H; by apply elem_of_nil in H].
    apply list_elem_of_filter. split; [|done]. unfold of_version. by apply bool_decide_pack.
  - intros v. apply Hv.
Qed.

Lemma tokens_bounded i g : inv i g -> (length (tokens g) <= 16)%nat.
Proof.
  intros Hi. pose proof (tokens_by_size i g Hi). pose proof (inv_workers _ _ Hi). pose proof (inv_size _ _ Hi) as Hz.
  unfold kMaxRetiringGenerations in Hz. nia.
Qed.

Lemma post_ok e g :
  capacity_ (generation_mailbox_ g) = 16%nat -> wake_fd_ (generation_mailbox_ g) = true ->
  closed_ (generation_mailbox_ g) = false -> (length (events_ (generation_mailbox_ g)) < 16)%nat ->
  post e g = Some (with_mailbox (GenerationMailbox.mk 16 (events_ (generation_mailbox_ g) ++ [e]) true false true) g).
Proof.
  intros H1 H2 H3 H4. unfold post, Post, WakeLocked. rewrite H1, H2, H3. simpl.
  rewrite bool_decide_eq_false_2 by lia. done.
Qed.

Lemma tokens_post e g b1 b2 b3 n :
  tokens (with_mailbox (GenerationMailbox.mk n (events_ (generation_mailbox_ g) ++ [e]) b1 b2 b3) g) ≡ₚ e :: tokens g.
Proof. unfold tokens. simpl. solve_Permutation. Qed.

Lemma occ_token e e' l l' : l ≡ₚ e :: l' -> occ e' l = ((if bool_decide (e' = e) then 1 else 0) + occ e' l')%nat.
Proof. intros ->. apply occ_cons. Qed.

(** A step that touches one generation only. *)
Lemma inv_change i j v g g' :
  inv i g -> i <= j -> worker_count g' = worker_count g -> current_generation_ g' = current_generation_ g ->
  (forall w, w <> v -> generations g' !! w = generations g !! w) ->
  (forall w, w <> v -> retiring_generations_ g' !! w = retiring_generations_ g !! w) ->
  (forall w k, w <> v -> occ (k, w) (tokens g') = occ (k, w) (tokens g)) ->
  stage_at g' v ->
  (base.size (retiring_generations_ g') <= kMaxRetiringGenerations)%nat ->
  (forall x', generations g' !! v = Some x' -> exists x, generations g !! v = Some x /\ 0 <= active_request_leases_ x' <= j /\
     (v = current_generation_ g -> retirement_state_ x = kActive -> retirement_state_ x' = kActive)) ->
  (is_Some (generations g !! v) -> is_Some (generations g' !! v)) ->
  (capacity_ (generation_mailbox_ g') = 16%nat /\ wake_fd_ (generation_mailbox_ g') = true /\
   closed_ (generation_mailbox_ g') = false) ->
  (events_ (generation_mailbox_ g') <> [] -> signalled (generation_mailbox_ g') = true \/ loop g' = Swapping) ->
  inv j g'.
Proof.
  intros [I1 I2 I3 I4 I5 I6 I7 I8 I9] Hij Hn Hc Hg Hr Ht Hs Hz Hx Hsome Hb Hwk.
  split; try done; rewrite ?Hn, ?Hc; try done; try lia.
  - intros w. destruct (decide (w = v)) as [->|Hne]; [done|]. eapply (stage_at_same g); auto.
  - intros w x Hw. destruct (decide (w = v)) as [->|Hne]; [|rewrite Hg in Hw by done; eauto].
    destruct (Hx x Hw) as (x0 & Hx0 & _). eauto.
  - destruct I5 as (x & Hcur & Ha). destruct (decide (current_generation_ g = v)) as [Hv|Hne].
    + rewrite Hv in *. destruct (Hsome (ex_intro _ x Hcur)) as [x' Hx']. exists x'. split; [done|].
      destruct (Hx x' Hx') as (x0 & Hx0 & _ & Hact). rewrite Hcur in Hx0. injection Hx0 as <-. by apply Hact.
    + exists x. by rewrite Hg.
  - intros w x Hw. destruct (decide (w = v)) as [->|Hne].
    + by destruct (Hx x Hw) as (x0 & _ & ? & _).
    + rewrite Hg in Hw by done. specialize (I6 w x Hw). lia.
Qed.

(** A message moves from a thread into the mailbox. *)
Lemma post_inv i g g0 e :
  inv i g -> tokens g ≡ₚ e :: tokens g0 -> worker_count g0 = worker_count g -> generations g0 = generations g ->
  current_generation_ g0 = current_generation_ g -> retiring_generations_ g0 = retiring_generations_ g ->
  generation_mailbox_ g0 = generation_mailbox_ g ->
  exists g', post e g0 = Some g' /\ inv i g'.
Proof.
  intros Hi Ht Hn Hg Hc Hr Hm. pose proof (tokens_bounded i g Hi) as Hl.
  pose proof (inv_box _ _ Hi) as (B1 & B2 & B3). rewrite <- Hm in B1, B2, B3.
  assert (Hlen : (length (events_ (generation_mailbox_ g0)) < 16)%nat).
  { rewrite Ht in Hl. simpl in Hl. unfold tokens in Hl. rewrite !length_app in Hl. lia. }
  eexists. split; [by apply post_ok|].
  destruct Hi as [I1 I2 I3 I4 I5 I6 I7 I8 I9]. split; simpl; rewrite ?Hn, ?Hg, ?Hc, ?Hr; auto.
  intros v. eapply (stage_at_same g); simpl; rewrite ?Hn, ?Hg, ?Hr; auto.
  intros k. by rewrite tokens_post, <- Ht.
Qed.

Lemma inv_weaken i j g : inv i g -> i <= j -> inv j g.
Proof.
  intros [I1 I2 I3 I4 I5 I6 I7 I8 I9] Hij. split; try done; [|lia].
  intros v x Hx. specialize (I6 v x Hx). lia.
Qed.

(** *** Workers and reapers *)

Lemma Acquire_inv i v x x' g :
  inv i g -> i + 1 < u64_modulus -> generations g !! v = Some x -> TryAcquireRequestLease x = Some x' ->
  inv (i + 1) (with_generation v x' g).
Proof.
  intros Hi Hb Hx Ha. unfold TryAcquireRequestLease in Ha. case_bool_decide as Hs; [|done]. injection Ha as <-.
  pose proof (inv_leases _ _ Hi v x Hx) as Hl.
  assert (wrap_u64 (active_request_leases_ x + 1) = active_request_leases_ x + 1) as Hw
    by (apply wrap_u64_small; unfold is_u64; lia).
  apply (inv_change i (i + 1) v g); simpl; try done; try lia.
  - intros w Hne. by rewrite lookup_insert_ne.
  - pose proof (inv_stage _ _ Hi v) as Hst. unfold stage_at in *. simpl. rewrite lookup_insert_eq, Hx in *.
    change (tokens (with_generation _ _ g)) with (tokens g). inversion Hst; try congruence. by apply stage_active.
  - apply Hi.
  - intros x' Hx'. rewrite lookup_insert_eq in Hx'. injection Hx' as <-. exists x. split; [done|]. simpl. split; [lia|done].
  - intros _. rewrite lookup_insert_eq. done.
  - apply Hi.
  - apply Hi.
Qed.

Lemma replicate_last n (v : Z) : pair kLastRequestLeaseReleased <$> replicate n v = replicate n (kLastRequestLeaseReleased, v).
Proof. apply fmap_replicate. Qed.

(** The last release of a retiring generation owes the notification; no other
    release does. *)
Lemma Release_stage n x r a b c :
  stage n x r a b c -> 0 < active_request_leases_ x < u64_modulus ->
  exists x' ns, ReleaseRequestLease x = Some (x', ns) /\
    active_request_leases_ x' = active_request_leases_ x - 1 /\
    (retirement_state_ x = kActive -> retirement_state_ x' = kActive) /\
    stage n x' r (last_leases ns + a) b c.
Proof.
  intros Hst Hl. assert (wrap_u64 (active_request_leases_ x - 1) = active_request_leases_ x - 1) as Hw
    by (apply wrap_u64_small; unfold is_u64; lia).
  destruct x as [leases st stopped sc ll notified checkers]. simpl in *. unfold ReleaseRequestLease. simpl. rewrite Hw.
  rewrite (proj2 (Z.eqb_neq _ _)) by lia.
  inversion Hst; simpl in *; subst; try lia; destruct (Z.eqb_spec leases 1); subst; simpl;
    eexists _, _; repeat (split; [reflexivity || done|]); simpl.
  - by apply stage_active.
  - by apply stage_active.
  - by apply stage_notified.
  - apply stage_held; try done. simpl. lia.
Qed.

Lemma Release_inv i v x g :
  inv i g -> generations g !! v = Some x -> active_request_leases_ x <> 0 -> i < u64_modulus ->
  exists x' ns, ReleaseRequestLease x = Some (x', ns) /\
    inv i (with_threads (notices g ++ replicate (last_leases ns) v) (tasks g) (reapers g) (with_generation v x' g)).
Proof.
  intros Hi Hx H0 Hb. pose proof (inv_leases _ _ Hi v x Hx) as Hl.
  pose proof (inv_stage _ _ Hi v) as Hst. unfold stage_at in Hst. rewrite Hx in Hst.
  destruct (Release_stage _ _ _ _ _ _ Hst) as (x' & ns & He & Hl' & Hact & Hst'); [lia|].
  exists x', ns. split; [done|]. set (g' := with_threads _ _ _ _).
  assert (Hocc : forall e, occ e (tokens g') =
    ((if bool_decide (e = (kLastRequestLeaseReleased, v)) then last_leases ns else 0) + occ e (tokens g))%nat).
  { intros e. assert (tokens g' ≡ₚ replicate (last_leases ns) (kLastRequestLeaseReleased, v) ++ tokens g) as ->.
    { unfold tokens. simpl. rewrite fmap_app, replicate_last. solve_Permutation. }
    rewrite occ_app. f_equal. clear. induction (last_leases ns) as [|m IH]; [by case_bool_decide|].
    simpl. rewrite occ_cons, IH. by case_bool_decide. }
  apply (inv_change i i v g); simpl; try done; try lia.
  - intros w Hne. by rewrite lookup_insert_ne.
  - intros w k Hne. rewrite Hocc. by rewrite bool_decide_eq_false_2 by congruence.
  - unfold stage_at. simpl. rewrite lookup_insert_eq, !Hocc.
    rewrite bool_decide_eq_true_2 by done. by rewrite !bool_decide_eq_false_2 by congruence.
  - apply Hi.
  - intros x0 Hx0. rewrite lookup_insert_eq in Hx0. injection Hx0 as <-. exists x. split; [done|]. split; [lia|auto].
  - intros _. rewrite lookup_insert_eq. done.
  - apply Hi.
  - apply Hi.
Qed.

Lemma Notify_inv i g k v :
  inv i g -> notices g !! k = Some v ->
  exists g', post (kLastRequestLeaseReleased, v) (with_threads (delete k (notices g)) (tasks g) (reapers g) g) = Some g' /\
             inv i g'.
Proof.
  intros Hi Hk. eapply post_inv; try done. unfold tokens. simpl.
  rewrite (delete_Permutation _ _ _ Hk) at 1. simpl. solve_Permutation.
Qed.

Lemma ReturnBalance_inv i g k w v :
  inv i g -> tasks g !! k = Some (w, v) ->
  exists g', post (kWorkerBalancesReturned, v) (with_threads (notices g) (delete k (tasks g)) (reapers g) g) = Some g' /\
             inv i g'.
Proof.
  intros Hi Hk. eapply post_inv; try done. unfold tokens. simpl.
  rewrite (delete_Permutation _ _ _ Hk) at 1. simpl. solve_Permutation.
Qed.

(** The reaper's mark. *)
Lemma MarkCoordinatorStopped_inv i g v x :
  inv i g -> generations g !! v = Some x -> (0 < occ (kReaperFinished, v) (tokens g))%nat ->
  inv i (with_generation v (MarkCoordinatorStopped x) g).
Proof.
  intros Hi Hx Hr. pose proof (inv_stage _ _ Hi v) as Hst. unfold stage_at in Hst. rewrite Hx in Hst.
  apply (inv_change i i v g); simpl; try done; try lia.
  - intros w Hne. by rewrite lookup_insert_ne.
  - unfold stage_at. simpl. rewrite lookup_insert_eq. change (tokens (with_generation _ _ g)) with (tokens g).
    inversion Hst; try lia. by apply stage_reaping.
  - apply Hi.
  - intros x' Hx'. rewrite lookup_insert_eq in Hx'. injection Hx' as <-. exists x. split; [done|].
    split; [apply (inv_leases _ _ Hi v x Hx)|done].
  - intros _. rewrite lookup_insert_eq. done.
  - apply Hi.
  - apply Hi.
Qed.

Lemma Reap_inv i g k v :
  inv i g -> reapers g !! k = Some v ->
  exists g', post (kReaperFinished, v)
    (with_threads (notices g) (tasks g) (delete k (reapers g))
       (match generations g !! v with
        | Some x => with_generation v (MarkCoordinatorStopped x) g
        | None => g
        end)) = Some g' /\ inv i g'.
Proof.
  intros Hi Hk. assert (Ht : tokens g ≡ₚ (kReaperFinished, v) :: tokens (with_threads (notices g) (tasks g) (delete k (reapers g)) g)).
  { unfold tokens. simpl. rewrite (delete_Permutation _ _ _ Hk) at 1. simpl. solve_Permutation. }
  destruct (generations g !! v) as [x|] eqn:Hx; [|by eapply post_inv].
  eapply post_inv; [apply (MarkCoordinatorStopped_inv _ _ v x Hi Hx)|exact Ht|done..].
  rewrite Ht, occ_cons, bool_decide_eq_true_2 by done. lia.
Qed.

(** *** Reloads *)

Lemma Retire_stage n x :
  stage n x None 0 0 0 -> retirement_state_ x = kActive -> 0 <= active_request_leases_ x ->
  exists x' ns, BeginRetirement true x = (x', ns, true) /\ active_request_leases_ x' = active_request_leases_ x /\
    stage n x' (Some 0%nat) (last_leases ns) 0 0 /\ (last_leases ns <= 1)%nat.
Proof.
  intros Hst Ha Hl. destruct x as [leases st stopped sc ll notified checkers]. simpl in *. subst.
  inversion Hst; simpl in *; try done. subst. unfold BeginRetirement. simpl.
  destruct (Z.eqb_spec leases 0); subst; simpl; eexists _, _; (split; [reflexivity|]); (split; [done|]).
  - unfold last_leases, last_lease. simpl. destruct sc; simpl; (split; [by apply stage_notified|done]).
  - unfold last_leases. destruct sc; simpl; (split; [|lia]); apply stage_held; simpl; (done || lia).
Qed.

Lemma RetireGeneration_inv i v x g :
  inv i g -> generations g !! v = Some x -> retirement_state_ x = kActive -> v <> current_generation_ g ->
  (base.size (retiring_generations_ g) < kMaxRetiringGenerations)%nat ->
  exists g', RetireGeneration v g = Some g' /\ inv i g'.
Proof.
  intros Hi Hx Ha Hc Hz. pose proof (inv_stage _ _ Hi v) as Hst. unfold stage_at in Hst. rewrite Hx in Hst.
  assert (Hst0 : stage (worker_count g) x None 0 0 0 /\ retiring_generations_ g !! v = None /\
                 forall k, occ (k, v) (tokens g) = 0%nat).
  { inversion Hst; try congruence. split; [by apply stage_active|]. split; [done|]. by intros []. }
  destruct Hst0 as (Hst0 & Hr & Ho). unfold RetireGeneration. rewrite Hr, Hx.
  pose proof (inv_leases _ _ Hi v x Hx) as Hl.
  destruct (Retire_stage _ _ Hst0 Ha) as (x' & ns & -> & Hl' & Hst' & Hone); [lia|]. simpl.
  set (g1 := with_generation v x' _).
  assert (Hchange : forall g', worker_count g' = worker_count g -> current_generation_ g' = current_generation_ g ->
    generations g' = <[v := x']> (generations g) -> retiring_generations_ g' = <[v := 0%nat]> (retiring_generations_ g) ->
    tokens g' ≡ₚ replicate (last_leases ns) (kLastRequestLeaseReleased, v) ++ tokens g ->
    (capacity_ (generation_mailbox_ g') = 16%nat /\ wake_fd_ (generation_mailbox_ g') = true /\
     closed_ (generation_mailbox_ g') = false) ->
    (events_ (generation_mailbox_ g') <> [] -> signalled (generation_mailbox_ g') = true \/ loop g' = Swapping) -> inv i g').
  { intros g' E1 E2 E3 E4 Ht Hb Hw. apply (inv_change i i v g); rewrite ?E3, ?E4; try done; try lia.
    - intros w Hne. by rewrite lookup_insert_ne.
    - intros w Hne. by rewrite lookup_insert_ne.
    - intros w k Hne. rewrite Ht, occ_app. destruct (last_leases ns) as [|[|]]; try lia; simpl; [done|].
      rewrite occ_cons, bool_decide_eq_false_2 by congruence. done.
    - unfold stage_at. rewrite E3, E4, E1, !lookup_insert_eq, !Ht, !occ_app, !Ho.
      destruct (last_leases ns) as [|[|]]; try lia; simpl; [done|].
      rewrite !occ_cons. repeat case_bool_decide; congruence || done.
    - rewrite map_size_insert_None by done. lia.
    - intros x0 Hx0. rewrite lookup_insert_eq in Hx0. injection Hx0 as <-. exists x. split; [done|]. split; [lia|done].
    - intros _. by rewrite lookup_insert_eq. }
  case_bool_decide as Hn0.
  - exists g1. split; [done|]. apply Hchange; try done; [|apply Hi|apply Hi]. by rewrite Hn0.
  - assert (last_leases ns = 1%nat) as H1 by lia. rewrite H1 in *.
    pose proof (inv_box _ _ Hi) as (B1 & B2 & B3). rewrite post_ok; simpl; try done.
    + eexists. split; [done|]. apply Hchange; try done; [apply (tokens_post _ g1)|by left].
    + pose proof (tokens_by_size _ _ Hi) as Htb. unfold tokens in Htb. rewrite !length_app in Htb.
      pose proof (inv_workers _ _ Hi). unfold kMaxRetiringGenerations in Hz. nia.
Qed.

Lemma RequestReload_inv i c g :
  inv i g -> i + 2 < u64_modulus -> exists g', RequestReload c g = Some g' /\ inv (i + 1) g'.
Proof.
  intros Hi Hb. unfold RequestReload.
  assert (Hsame : exists g', Some g = Some g' /\ inv (i + 1) g').
  { exists g. split; [done|]. eapply inv_weaken; [done|lia]. }
  destruct (running g); [|done]. destruct (same_workers c); [|done]. simpl. case_bool_decide as Hz; [done|].
  destruct (prepared c); [|done]. simpl.
  pose proof (inv_current _ _ Hi) as (x & Hx & Ha). pose proof (inv_version _ _ Hi) as Hv.
  pose proof (inv_versions _ _ Hi _ _ Hx) as Hpos.
  rewrite (wrap_u64_small (current_generation_ g + 1)) by (unfold is_u64; lia).
  set (v := current_generation_ g + 1). set (g1 := with_current v _).
  assert (Hfresh : generations g !! v = None).
  { destruct (generations g !! v) as [y|] eqn:Hy; [|done]. pose proof (inv_versions _ _ Hi _ _ Hy). lia. }
  assert (Hg1 : inv (i + 1) g1).
  { pose proof (inv_stage _ _ Hi v) as Hst. unfold stage_at in Hst. rewrite Hfresh in Hst. destruct Hst as [Hr Ho].
    destruct Hi as [I1 I2 I3 I4 I5 I6 I7 I8 I9]. split; simpl; try done; try lia.
    - intros w. destruct (decide (w = v)) as [->|Hne].
      + unfold stage_at. simpl. rewrite lookup_insert_eq, Hr. change (tokens g1) with (tokens g). rewrite !Ho.
        by apply stage_active.
      + eapply (stage_at_same g); simpl; auto. by rewrite lookup_insert_ne.
    - intros w y Hy. destruct (decide (w = v)) as [->|Hne]; [lia|]. rewrite lookup_insert_ne in Hy by done.
      specialize (I4 w y Hy). lia.
    - exists RuntimeGeneration.make. by rewrite lookup_insert_eq.
    - intros w y Hy. destruct (decide (w = v)) as [->|Hne].
      + rewrite lookup_insert_eq in Hy. injection Hy as <-. simpl. specialize (I6 _ _ Hx). lia.
      + rewrite lookup_insert_ne in Hy by done. specialize (I6 w y Hy). lia. }
  apply (RetireGeneration_inv _ _ x); try done; simpl; [rewrite lookup_insert_ne by lia; done|lia|].
  unfold kMaxRetiringGenerations in *. lia.
Qed.

(** *** The control loop *)

(** Steps that only move messages. *)
Lemma inv_moved i g g' :
  inv i g -> tokens g' ≡ₚ tokens g -> worker_count g' = worker_count g -> generations g' = generations g ->
  current_generation_ g' = current_generation_ g -> retiring_generations_ g' = retiring_generations_ g ->
  (capacity_ (generation_mailbox_ g') = 16%nat /\ wake_fd_ (generation_mailbox_ g') = true /\
   closed_ (generation_mailbox_ g') = false) ->
  (events_ (generation_mailbox_ g') <> [] -> signalled (generation_mailbox_ g') = true \/ loop g' = Swapping) ->
  inv i g'.
Proof.
  intros [I1 I2 I3 I4 I5 I6 I7 I8 I9] Ht Hn Hg Hc Hr Hb Hw. split; rewrite ?Hn, ?Hg, ?Hc, ?Hr; try done.
  intros v. eapply (stage_at_same g); rewrite ?Hg, ?Hr; try done. intros k. by rewrite Ht.
Qed.

Lemma BeginDrain_inv i g : inv i g -> loop g = Idle ->
  inv i (with_loop Swapping (with_mailbox (DrainRead (generation_mailbox_ g)) g)).
Proof.
  intros Hi Hl. pose proof (inv_box _ _ Hi) as (B1 & B2 & B3).
  apply (inv_moved i g); simpl; try done; unfold DrainRead; rewrite ?B2; simpl; try done; [|by right].
  unfold tokens. simpl. by rewrite Hl.
Qed.

Lemma Take_inv i g : inv i g -> loop g = Swapping ->
  inv i (with_loop (Handling (events_ (generation_mailbox_ g)))
           (with_mailbox (DrainSwap (generation_mailbox_ g)).1 g)).
Proof.
  intros Hi Hl. pose proof (inv_box _ _ Hi) as (B1 & B2 & B3).
  apply (inv_moved i g); simpl; try done. unfold tokens. simpl. rewrite Hl. simpl. solve_Permutation.
Qed.

(** Stopping the checkers of a generation without leases starts its reaper. *)
Lemma stop_checkers_spec v x g :
  generations g !! v = Some x -> retirement_state_ x = kRetiring -> active_request_leases_ x = 0 ->
  exists x', stop_checkers v g = with_threads (notices g) (tasks g) (reapers g ++ [v]) (with_generation v x' g) /\
    retirement_state_ x' = kOutcomeDraining /\ active_request_leases_ x' = 0.
Proof.
  intros Hx Hs Hl. unfold stop_checkers. rewrite Hx. destruct x as [leases st stopped sc ll notified checkers].
  simpl in *. subst. unfold NotifyCheckersStopped, AdvanceIfReady. simpl. unfold StartRetirementReaper. simpl.
  rewrite lookup_insert_eq. simpl. eexists.
  split; [unfold with_threads, with_generation; simpl; rewrite insert_insert_eq; reflexivity|done].
Qed.

(** The gateway after one event of [v]: its generation, its count of balances,
    and the tasks and reapers the event starts. *)
Definition progressed (v : Z) (x : RuntimeGeneration.t) (r : option nat) (ts : list (nat * Z)) (rs : list Z) (g : t) : t :=
  with_threads (notices g) (tasks g ++ ts) (reapers g ++ rs)
    (with_retiring (partial_alter (fun _ => r) v (retiring_generations_ g)) (with_generation v x g)).

Lemma alter_same (m : gmap Z nat) v r : m !! v = r -> partial_alter (fun _ => r) v m = m.
Proof.
  intros Hr. apply map_eq. intros w. destruct (decide (w = v)) as [->|Hne].
  - by rewrite lookup_partial_alter_eq.
  - by rewrite lookup_partial_alter_ne.
Qed.

(** It is the unchanged gateway when nothing changes. *)
Lemma progressed_same v x r g ts rs :
  generations g !! v = Some x -> retiring_generations_ g !! v = r ->
  progressed v x r ts rs g = with_threads (notices g) (tasks g ++ ts) (reapers g ++ rs) g.
Proof.
  intros Hx Hr. unfold progressed, with_threads, with_retiring, with_generation. simpl. f_equal.
  - by apply insert_id.
  - by apply alter_same.
Qed.

Lemma handle_event_cases k v x accepted g :
  (0 < worker_count g)%nat -> generations g !! v = Some x -> (forall w, accepted w = true) ->
  stage (worker_count g) x (retiring_generations_ g !! v)
    ((if bool_decide (kLastRequestLeaseReleased = k) then 1 else 0) + occ (kLastRequestLeaseReleased, v) (tokens g))
    ((if bool_decide (kWorkerBalancesReturned = k) then 1 else 0) + occ (kWorkerBalancesReturned, v) (tokens g))
    ((if bool_decide (kReaperFinished = k) then 1 else 0) + occ (kReaperFinished, v) (tokens g)) ->
  exists x' r' ts rs, handle_event accepted (k, v) g = Some (progressed v x' r' ts rs g) /\
    ((fun y => (kWorkerBalancesReturned, y.2)) <$> ts) = replicate (length ts) (kWorkerBalancesReturned, v) /\
    (pair kReaperFinished <$> rs) = replicate (length rs) (kReaperFinished, v) /\
    is_Some (retiring_generations_ g !! v) /\ retirement_state_ x <> kActive /\
    active_request_leases_ x' = active_request_leases_ x /\
    stage (worker_count g) x' r' (occ (kLastRequestLeaseReleased, v) (tokens g))
      (length ts + occ (kWorkerBalancesReturned, v) (tokens g)) (length rs + occ (kReaperFinished, v) (tokens g)).
Proof.
  intros Hn Hx Hacc Hst. unfold handle_event. simpl.
  destruct k; simpl in Hst; inversion Hst as [| |S1 S2 S3 S4 S5|k S0 S1 S2 S3 S4 S5|k S1 S5|]; try lia.
  - unfold RequestWorkerBalanceReturn.
    destruct (workers_stopped_ g || bool_decide (worker_count g = 0%nat)).
    + destruct (stop_checkers_spec v x g Hx S1 S5) as (x' & -> & E1 & E2). exists x', (Some 0%nat), [], [v].
      split; [by unfold progressed, with_threads, with_retiring; simpl; rewrite app_nil_r, alter_same|].
      split; [done|]. split; [done|]. split; [done|]. split; [congruence|]. split; [congruence|]. by apply stage_reaping.
    + rewrite (proj2 (forallb_forall accepted (seq 0 (worker_count g)))) by auto.
      exists x, (Some 0%nat), ((fun i => (i, v)) <$> seq 0 (worker_count g)), [].
      rewrite progressed_same, app_nil_r by done. rewrite length_fmap, length_seq.
      split; [done|]. split; [rewrite <- list_fmap_compose; etrans; [by apply (const_fmap _ _ (kWorkerBalancesReturned, v))|by rewrite length_seq]|].
      split; [done|]. split; [done|]. split; [congruence|]. split; [done|].
      replace (worker_count g + 0)%nat with (worker_count g - 0)%nat by lia. by apply stage_returning.
  - case_bool_decide as Hlast.
    + destruct (stop_checkers_spec v x (with_retiring (<[v:=S k]> (retiring_generations_ g)) g) Hx S1 S5) as (x' & -> & E1 & E2).
      exists x', (Some (S k)), [], [v]. unfold progressed, with_threads, with_retiring, with_generation. simpl. rewrite app_nil_r.
      split; [done|]. split; [done|]. split; [done|]. split; [done|]. split; [congruence|]. split; [congruence|].
      replace (occ (kWorkerBalancesReturned, v) (tokens g)) with 0%nat by lia. by apply stage_reaping.
    + exists x, (Some (S k)), [], []. unfold progressed, with_threads, with_retiring, with_generation. simpl. rewrite !app_nil_r.
      rewrite (insert_id (generations g)) by done. split; [done|].
      split; [done|]. split; [done|]. split; [done|]. split; [congruence|]. split; [congruence|].
      replace (occ (kWorkerBalancesReturned, v) (tokens g)) with (worker_count g - S k)%nat by lia.
      apply stage_returning; try done. lia.
  - rewrite Hx. unfold MarkRetired. rewrite S1, bool_decide_eq_true_2 by done.
    exists (set_state kDone x), None, [], []. unfold progressed, with_threads, with_retiring, with_generation. simpl. rewrite !app_nil_r.
    split; [done|]. split; [done|]. split; [done|]. split; [done|]. split; [congruence|]. split; [done|].
    by apply stage_done.
Qed.

Lemma occ_replicate e e' n : occ e (replicate n e') = (if bool_decide (e = e') then n else 0%nat).
Proof. induction n as [|n IH]; simpl; [by case_bool_decide|]. rewrite occ_cons, IH. by case_bool_decide. Qed.

Lemma same_version (k k' : Kind) (v : Z) : bool_decide ((k, v) = (k', v)) = bool_decide (k = k').
Proof. apply bool_decide_ext. split; congruence. Qed.

Lemma handle_event_inv i e es accepted g :
  inv i g -> loop g = Handling (e :: es) -> (forall w, accepted w = true) ->
  exists g', handle_event accepted e (with_loop (Handling es) g) = Some g' /\ inv i g'.
Proof.
  intros Hi Hl Hacc. destruct e as [k v]. set (g0 := with_loop (Handling es) g).
  assert (Ho : forall e, occ e (tokens g) = ((if bool_decide (e = (k, v)) then 1 else 0) + occ e (tokens g0))%nat).
  { intros e. apply occ_token. unfold tokens. simpl. rewrite Hl. simpl. solve_Permutation. }
  pose proof (inv_stage _ _ Hi v) as Hst. unfold stage_at in Hst.
  destruct (generations g !! v) as [x|] eqn:Hx.
  2: { destruct Hst as [_ Hz]. specialize (Hz k). rewrite Ho, bool_decide_eq_true_2 in Hz by done. lia. }
  rewrite !Ho, !same_version in Hst.
  destruct (handle_event_cases k v x accepted g0) as (x' & r' & ts & rs & Hh & Hts & Hrs & Hr & Hna & Hle & Hst');
    [apply Hi|done|done|done|].
  eexists. split; [exact Hh|].
  assert (Ht : tokens (progressed v x' r' ts rs g0) ≡ₚ
     replicate (length ts) (kWorkerBalancesReturned, v) ++ replicate (length rs) (kReaperFinished, v) ++ tokens g0).
  { unfold tokens. simpl. rewrite !fmap_app, Hts, Hrs. solve_Permutation. }
  apply (inv_change i i v g); simpl; try done; try lia.
  - intros w Hne. by rewrite lookup_insert_ne.
  - intros w Hne. by rewrite lookup_partial_alter_ne.
  - intros w k' Hne. rewrite Ht, !occ_app, !occ_replicate, Ho.
    by rewrite !bool_decide_eq_false_2 by congruence.
  - unfold stage_at. simpl. rewrite lookup_insert_eq, lookup_partial_alter_eq, !Ht, !occ_app, !occ_replicate.
    repeat case_bool_decide; congruence || done.
  - etrans; [|apply (inv_size _ _ Hi)]. destruct Hr as [r Hr]. destruct r' as [r'|].
    + change (partial_alter _ v _) with (<[v := r']> (retiring_generations_ g)). rewrite map_size_insert_Some by (by exists r). done.
    + change (partial_alter _ v _) with (delete v (retiring_generations_ g)). rewrite map_size_delete_Some by (by exists r). lia.
  - intros y Hy. rewrite lookup_insert_eq in Hy. injection Hy as <-. exists x. split; [done|].
    split; [rewrite Hle; apply (inv_leases _ _ Hi v x Hx)|done].
  - intros _. by rewrite lookup_insert_eq.
  - apply Hi.
  - intros He. destruct (inv_wake _ _ Hi He) as [?|Hw]; [by left|congruence].
Qed.

(** ** Theorems *)

(** The step asks the workers to return their balances of a generation, and one
    of them refuses its task. *)
Definition refused (l : label) (g : t) : Prop :=
  exists accepted v es w, l = Handle accepted /\ loop g = Handling ((kLastRequestLeaseReleased, v) :: es) /\
    is_Some (retiring_generations_ g !! v) /\ workers_stopped_ g = false /\ (w < worker_count g)%nat /\ accepted w = false.

Lemma refused_terminates l g : refused l g -> fire l g = Terminated.
Proof.
  intros (accepted & v & es & w & -> & Hl & [k Hk] & Hs & Hw & Ha). simpl. rewrite Hl. unfold handle_event. simpl.
  rewrite Hk. unfold RequestWorkerBalanceReturn. simpl. rewrite Hs, bool_decide_eq_false_2 by lia. simpl.
  destruct (forallb accepted (seq 0 (worker_count g))) eqn:Hf; [|done].
  rewrite forallb_forall in Hf. rewrite (Hf w) in Ha; [done|]. apply in_seq. lia.
Qed.

(** A turn of the control loop takes the tasks as if every worker accepted, or
    one refuses. *)
Lemma handle_accepted accepted e es g :
  loop g = Handling (e :: es) ->
  refused (Handle accepted) g \/
  handle_event accepted e (with_loop (Handling es) g) = handle_event (fun _ => true) e (with_loop (Handling es) g).
Proof.
  intros Hl. destruct e as [k v]. unfold handle_event. simpl.
  destruct (retiring_generations_ g !! v) as [n|] eqn:Hv; [|by right]. destruct k; try by right.
  unfold RequestWorkerBalanceReturn. simpl. destruct (workers_stopped_ g) eqn:Hs; [by right|]. simpl.
  case_bool_decide; [by right|].
  destruct (forallb accepted (seq 0 (worker_count g))) eqn:Hf.
  - right. replace (forallb (fun _ => true) (seq 0 (worker_count g))) with true; [done|].
    symmetry. by apply forallb_forall.
  - left. assert (Hex : existsb (fun w => negb (accepted w)) (seq 0 (worker_count g)) = true).
    { clear -Hf. induction (seq 0 (worker_count g)) as [|w l IH]; [done|]. simpl in *. destruct (accepted w); [by apply IH|done]. }
    apply existsb_exists in Hex as (w & Hw%in_seq & Ha%negb_true_iff). exists accepted, v, es, w. split_and!; try done; lia.
Qed.

Lemma fire_retirement i l g :
  inv i g -> i + 2 < u64_modulus ->
  match fire l g with Next g' => inv (i + 1) g' | Disabled => True | Terminated => refused l g end.
Proof.
  intros Hi Hb.
  assert (Hpost : forall o, (exists g', o = Some g' /\ inv i g') ->
    match or_terminate o with Next g' => inv (i + 1) g' | Disabled => True | Terminated => refused l g end).
  { intros o (g' & -> & Hg'). simpl. eapply inv_weaken; [done|lia]. }
  destruct l as [v|v|k|k|k|c| | |accepted| |]; simpl.
  - destruct (generations g !! v) as [x|] eqn:Hx; simpl; [|done].
    destruct (TryAcquireRequestLease x) as [x'|] eqn:Ha; [|done]. eapply Acquire_inv; eauto. lia.
  - destruct (generations g !! v) as [x|] eqn:Hx; [|done]. destruct (Z.eqb_spec (active_request_leases_ x) 0); [done|].
    destruct (Release_inv i v x g) as (x' & ns & -> & Hg'); try done; [lia|]. eapply inv_weaken; [done|lia].
  - destruct (notices g !! k) as [v|] eqn:Hk; [|done]. by eapply Hpost, Notify_inv.
  - destruct (tasks g !! k) as [[w v]|] eqn:Hk; [|done]. by eapply Hpost, ReturnBalance_inv.
  - destruct (reapers g !! k) as [v|] eqn:Hk; [|done]. by eapply Hpost, Reap_inv.
  - destruct (loop g); try done. destruct (RequestReload_inv i c g Hi Hb) as (g' & -> & Hg'). done.
  - destruct (loop g) eqn:Hl; try done. eapply inv_weaken; [by apply BeginDrain_inv|lia].
  - destruct (loop g) eqn:Hl; try done. eapply inv_weaken; [by apply (Take_inv i g)|lia].
  - destruct (loop g) as [| |[|e es]] eqn:Hl; try done.
    + eapply (inv_moved _ g); try done.
      * eapply inv_weaken; [done|lia].
      * unfold tokens. simpl. by rewrite Hl.
      * apply Hi.
      * intros He. destruct (inv_wake _ _ Hi He); [by left|congruence].
    + destruct (handle_accepted accepted e es g Hl) as [Href| ->]; [|by eapply Hpost, handle_event_inv].
      pose proof (refused_terminates _ _ Href) as Ht. simpl in Ht. rewrite Hl in Ht. by rewrite Ht.
  - destruct (loop g) eqn:Hl; try done.
    eapply (inv_moved _ g); [eapply inv_weaken; [done|lia]|done..|apply Hi|apply Hi].
  - destruct (loop g) eqn:Hl; try done. destruct (tasks g) eqn:Htk; try done. destruct (running g); [done|].
    eapply (inv_moved _ g); [eapply inv_weaken; [done|lia]|done..|apply Hi|apply Hi].
Qed.

Lemma run_gateway_app ls1 ls2 g : run (ls1 ++ ls2) g = match run ls1 g with Some g => run ls2 g | None => None end.
Proof. revert g. induction ls1 as [|l ls1 IH]; intros g; simpl; [done|]. by destruct (fire l g). Qed.

Lemma run_retirement ls i g :
  inv i g -> i + Z.of_nat (length ls) + 2 < u64_modulus ->
  match run ls g with
  | Some g' => inv (i + Z.of_nat (length ls)) g'
  | None => exists ls1 l ls2 g', ls = ls1 ++ l :: ls2 /\ run ls1 g = Some g' /\ refused l g'
  end.
Proof.
  revert i g. induction ls as [|l ls IH]; intros i g Hi Hb; simpl length in *.
  { eapply inv_weaken; [done|lia]. }
  simpl. pose proof (fire_retirement i l g Hi ltac:(lia)) as Hf.
  replace (i + Z.of_nat (S (length ls))) with (i + 1 + Z.of_nat (length ls)) in * by lia.
  assert (Hnext : forall g1, inv (i + 1) g1 -> (forall ls', run (l :: ls') g = run ls' g1) ->
    match run ls g1 with
    | Some g' => inv (i + 1 + Z.of_nat (length ls)) g'
    | None => exists ls1 l' ls2 g', l :: ls = ls1 ++ l' :: ls2 /\ run ls1 g = Some g' /\ refused l' g'
    end).
  { intros g1 Hi1 Hrun. specialize (IH (i + 1) g1 Hi1 ltac:(lia)). destruct (run ls g1); [done|].
    destruct IH as (ls1 & l' & ls2 & g' & -> & H1 & H2). exists (l :: ls1), l', ls2, g'. by rewrite Hrun. }
  destruct (fire l g) as [g'| |] eqn:Ef.
  - apply Hnext; [done|]. intros ls'. simpl. by rewrite Ef.
  - apply Hnext; [eapply inv_weaken; [done|lia]|]. intros ls'. simpl. by rewrite Ef.
  - by exists [], l, ls, g.
Qed.

(** The mailbox of the gateway, with its default capacity. *)
Definition mailbox : GenerationMailbox.t := GenerationMailbox.mk 16 [] true false false.

Lemma make_inv n : (0 < n <= 8)%nat -> inv 0 (make n mailbox).
Proof.
  intros Hn. split; simpl; try done; try lia.
  - intros v. unfold stage_at. simpl. destruct (decide (v = 1)) as [->|Hv].
    + rewrite lookup_singleton_eq. by apply stage_active.
    + rewrite lookup_singleton_ne by done. by split.
  - unfold kMaxRetiringGenerations. rewrite map_size_empty. lia.
  - intros v x [<- <-]%lookup_singleton_Some. lia.
  - exists RuntimeGeneration.make. by rewrite lookup_singleton_eq.
  - intros v x [<- <-]%lookup_singleton_Some. simpl. lia.
Qed.


(** ** Examples *)

Definition all (_ : nat) : bool := true.
Definition good : candidate := mkCandidate true true.

(** Two reloads while requests of both old generations are in flight, both
    retirements, and every worker returning its balances before the control
    loop reads its mailbox again. *)
Definition two_reloads (n : nat) : list label :=
  [Acquire 1; Reload good; Acquire 2; Reload good; Release 1; Notify 0; Release 2; Notify 0;
   BeginDrain; Take; Handle all; Handle all; Handle all] ++ replicate (2 * n) (ReturnBalance 0).

(** Both retirements to their end. *)
Definition two_retirements (n : nat) : list label :=
  two_reloads n ++ [BeginDrain; Take] ++ replicate (2 * n + 1) (Handle all) ++ [Reap 0; Reap 0; BeginDrain; Take] ++
  replicate 3 (Handle all).

Lemma computed {A} (o : option A) (P : A -> Prop) :
  match o with Some a => P a | None => False end -> exists a, o = Some a /\ P a.
Proof. destruct o as [a|]; [|done]. intros Ha. by exists a. Qed.


(** With nine workers, two generations retiring at once overflow the
    mailbox's sixteen places and the process terminates; the configuration
    admits up to 1024 workers. *)
Theorem nine_workers_terminate : run (two_reloads 9) (make 9 mailbox) = None.
Proof. vm_compute. reflexivity. Qed.

(** One retirement is enough with seventeen. *)
Example seventeen_workers_terminate :
  run ([Reload good; BeginDrain; Take; Handle all] ++ replicate 17 (ReturnBalance 0)) (make 17 mailbox) = None.
Proof. vm_compute. reflexivity. Qed.

(** A worker whose queue is full refuses its task. *)
Example full_worker_terminates :
  run [Reload good; BeginDrain; Take; Handle (fun i => negb (bool_decide (i = 0%nat)))] (make 1 mailbox) = None.
Proof. vm_compute. reflexivity. Qed.

End Gateway.
