(* ===== verification/WorkerRuntime.v ===== *)
(** * One I/O worker

    Models src/src/runtime/WorkerRuntime.cpp: the bounded task queue, the wake
    descriptor (an eventfd) and the worker thread that drains the queue.
    Posting threads, the owner that starts and stops the worker, and the worker
    thread interleave freely: [fire] is one critical section or system call of
    one of them.  Tasks do not stop the event loop themselves. *)

From S2P Require Import Prelude.

Module WorkerRuntime.

(** What a posted task is: a plain one, one that gets the loop, or the handler
    of a descriptor. *)
Inductive Task := plain (id : nat) | with_loop (id : nat) | fd_handler (fd : nat).

#[global] Instance Task_eq_dec : EqDecision Task.
Proof. solve_decision. Defined.

(** Where the worker thread is. *)
Inductive worker_pc :=
| NoThread
| Setup                 (* [Run], before the loop is ready *)
| Parked                (* in [epoll_wait] *)
| Drain                 (* [DrainQueue], before the lock *)
| Running (task : Task)
| TakeShutdown          (* [DrainShutdownTask], before the lock *)
| RunningShutdown (task : Task)
| CheckStop             (* the end of [HandleWake] *)
| Leaving               (* [Quit] was called *)
| Exited.

(** What the owner thread is doing. *)
Inductive owner_pc := OwnerIdle | OwnerStarting | OwnerJoining.

(** The members, the kernel's counter of the wake descriptor, the threads, and
    what happened so far: tasks accepted and run, in order, descriptors the
    interface closed, times the wake descriptor was closed, and whether the
    loop was left by an exception. *)
Record t := mk {
  task_capacity_ : nat;
  wake_fd_ : bool;
  counter : Z;
  tasks_ : list Task;
  shutdown_task_ : option Task;
  running_ : bool;
  loop_ready_ : bool;
  started_ : bool;
  stopping_ : bool;
  worker : worker_pc;
  owner : owner_pc;
  accepted : list Task;
  ran : list Task;
  shutdown_accepted : list Task;
  shutdown_ran : list Task;
  fds_closed : list nat;
  wake_closed : nat;
  crashed : bool
}.

(** [None]: the constructor's exception. *)
Definition make (task_capacity : nat) : option t :=
  if bool_decide (task_capacity = 0%nat) then None
  else Some (mk task_capacity true 0 [] None false false false false NoThread OwnerIdle [] [] [] [] [] 0 false).

Definition with_worker (p : worker_pc) (s : t) : t :=
  mk (task_capacity_ s) (wake_fd_ s) (counter s) (tasks_ s) (shutdown_task_ s) (running_ s) (loop_ready_ s)
     (started_ s) (stopping_ s) p (owner s) (accepted s) (ran s) (shutdown_accepted s) (shutdown_ran s)
     (fds_closed s) (wake_closed s) (crashed s).
Definition with_owner (o : owner_pc) (s : t) : t :=
  mk (task_capacity_ s) (wake_fd_ s) (counter s) (tasks_ s) (shutdown_task_ s) (running_ s) (loop_ready_ s)
     (started_ s) (stopping_ s) (worker s) o (accepted s) (ran s) (shutdown_accepted s) (shutdown_ran s)
     (fds_closed s) (wake_closed s) (crashed s).
Definition with_counter (c : Z) (s : t) : t :=
  mk (task_capacity_ s) (wake_fd_ s) c (tasks_ s) (shutdown_task_ s) (running_ s) (loop_ready_ s)
     (started_ s) (stopping_ s) (worker s) (owner s) (accepted s) (ran s) (shutdown_accepted s) (shutdown_ran s)
     (fds_closed s) (wake_closed s) (crashed s).
Definition with_queue (ts acc rn : list Task) (s : t) : t :=
  mk (task_capacity_ s) (wake_fd_ s) (counter s) ts (shutdown_task_ s) (running_ s) (loop_ready_ s)
     (started_ s) (stopping_ s) (worker s) (owner s) acc rn (shutdown_accepted s) (shutdown_ran s)
     (fds_closed s) (wake_closed s) (crashed s).
Definition with_shutdown (o : option Task) (acc rn : list Task) (s : t) : t :=
  mk (task_capacity_ s) (wake_fd_ s) (counter s) (tasks_ s) o (running_ s) (loop_ready_ s)
     (started_ s) (stopping_ s) (worker s) (owner s) (accepted s) (ran s) acc rn
     (fds_closed s) (wake_closed s) (crashed s).
Definition with_flags (running ready started stopping : bool) (s : t) : t :=
  mk (task_capacity_ s) (wake_fd_ s) (counter s) (tasks_ s) (shutdown_task_ s) running ready started stopping
     (worker s) (owner s) (accepted s) (ran s) (shutdown_accepted s) (shutdown_ran s)
     (fds_closed s) (wake_closed s) (crashed s).
Definition with_crashed (s : t) : t :=
  mk (task_capacity_ s) (wake_fd_ s) (counter s) (tasks_ s) (shutdown_task_ s) (running_ s) (loop_ready_ s)
     (started_ s) (stopping_ s) (worker s) (owner s) (accepted s) (ran s) (shutdown_accepted s) (shutdown_ran s)
     (fds_closed s) (wake_closed s) true.
Definition close_fd (fd : nat) (s : t) : t :=
  mk (task_capacity_ s) (wake_fd_ s) (counter s) (tasks_ s) (shutdown_task_ s) (running_ s) (loop_ready_ s)
     (started_ s) (stopping_ s) (worker s) (owner s) (accepted s) (ran s) (shutdown_accepted s) (shutdown_ran s)
     (fds_closed s ++ [fd]) (wake_closed s) (crashed s).

(** [wake_fd_.exchange(-1)] and the close that follows. *)
Definition close_wake (s : t) : t :=
  if wake_fd_ s then
    mk (task_capacity_ s) false 0 (tasks_ s) (shutdown_task_ s) (running_ s) (loop_ready_ s)
       (started_ s) (stopping_ s) (worker s) (owner s) (accepted s) (ran s) (shutdown_accepted s) (shutdown_ran s)
       (fds_closed s) (S (wake_closed s)) (crashed s)
  else s.

(** ** The wake descriptor *)

(** The largest value an eventfd counts to. *)
Definition eventfd_max : Z := 18446744073709551614.

(** A write of one: it is added, or the counter is full ([EAGAIN]). *)
Definition eventfd_write (s : t) : t :=
  if counter s <? eventfd_max then with_counter (counter s + 1) s else s.

(** What the write of [WakeLocked] returned, in turn. *)
Inductive write_result := Interrupted | Wrote | Failed.

(** [EAGAIN] counts as written: a wake is already pending.  [None]: the loop
    still retries. *)
Fixpoint WakeLocked (rs : list write_result) (s : t) : option (t * bool) :=
  if negb (wake_fd_ s) then Some (s, false)
  else match rs with
       | [] => None
       | Interrupted :: rs => WakeLocked rs s
       | Wrote :: _ => Some (eventfd_write s, true)
       | Failed :: _ => Some (s, false)
       end.

(** ** Posting *)

(** [seen]: what the read of [started_] before the lock returned. *)
Definition PostTask (seen : bool) (task : Task) (rs : list write_result) (s : t) : option (t * bool) :=
  if negb seen then Some (s, false)
  else if stopping_ s || negb (running_ s) then Some (s, false)
  else if bool_decide (task_capacity_ s <= length (tasks_ s))%nat then Some (s, false)
  else
    let pushed := with_queue (tasks_ s ++ [task]) (accepted s ++ [task]) (ran s) s in
    '(woken, ok) ← WakeLocked rs pushed;
    if (ok : bool) then Some (woken, true)
    else Some (with_queue (tasks_ s) (accepted s) (ran s) woken, false).

Definition PostFd (seen : bool) (fd : nat) (rs : list write_result) (s : t) : option (t * bool) :=
  '(s, ok) ← PostTask seen (fd_handler fd) rs s;
  if (ok : bool) then Some (s, true) else Some (close_fd fd s, false).

Definition PostShutdown (task : Task) (rs : list write_result) (s : t) : option (t * bool) :=
  if negb (started_ s) || negb (running_ s) || stopping_ s || bool_decide (is_Some (shutdown_task_ s))
  then Some (s, false)
  else
    let reserved := with_shutdown (Some task) (shutdown_accepted s ++ [task]) (shutdown_ran s) s in
    '(woken, ok) ← WakeLocked rs reserved;
    if (ok : bool) then Some (woken, true)
    else Some (with_shutdown None (shutdown_accepted s) (shutdown_ran s) woken, false).

(** ** Starting and stopping *)

(** Up to the wait for the loop; [false]: the exception. *)
Definition Start (s : t) : t * bool :=
  if started_ s then (s, false)
  else if stopping_ s then (s, false)
  else (with_owner OwnerStarting (with_worker Setup (with_flags (running_ s) (loop_ready_ s) true (stopping_ s) s)), true).

(** The critical section of [Stop]: the stop flag and the final wake. *)
Definition stop_signal (s : t) : t :=
  let s := with_flags (running_ s) (loop_ready_ s) (started_ s) true s in
  if wake_fd_ s then eventfd_write s else s.

(** The rest of [Stop], once the thread was joined. *)
Definition stop_joined (s : t) : t := close_wake s.

(** ** The worker thread *)

(** [Run] makes the loop ready. *)
Definition run_ready (s : t) : t :=
  with_worker Parked (with_flags true true (started_ s) (stopping_ s) s).

(** [Run] after the loop returned. *)
Definition run_left (s : t) : t :=
  with_worker Exited (close_wake (with_flags false (loop_ready_ s) (started_ s) (stopping_ s) s)).

(** The handler of an exception in [Run]. *)
Definition run_failed (s : t) : t :=
  with_worker Exited (with_crashed (with_flags false true (started_ s) true s)).

(** The read at the start of [HandleWake]. *)
Definition wake_read (s : t) : t := with_worker Drain (if wake_fd_ s then with_counter 0 s else s).

(** One turn of [DrainQueue]. *)
Definition DrainQueue (s : t) : t :=
  match tasks_ s with
  | [] => with_worker TakeShutdown s
  | task :: rest => with_worker (Running task) (with_queue rest (accepted s) (ran s ++ [task]) s)
  end.

Definition DrainShutdownTask (s : t) : t :=
  match shutdown_task_ s with
  | None => with_worker CheckStop s
  | Some task => with_worker (RunningShutdown task) (with_shutdown None (shutdown_accepted s) (shutdown_ran s ++ [task]) s)
  end.

(** The stop decision at the end of [HandleWake]. *)
Definition check_stop (s : t) : t :=
  if stopping_ s && bool_decide (tasks_ s = []) && bool_decide (shutdown_task_ s = None)
  then with_worker Leaving s else with_worker Parked s.

(** The worker thread's next step; a task that throws is absorbed. *)
Definition worker_step (s : t) : option t :=
  match worker s with
  | NoThread | Exited => None
  | Setup => Some (run_ready s)
  | Parked => if 0 <? counter s then Some (wake_read s) else None
  | Drain => Some (DrainQueue s)
  | Running _ => Some (with_worker Drain s)
  | TakeShutdown => Some (DrainShutdownTask s)
  | RunningShutdown _ => Some (with_worker CheckStop s)
  | CheckStop => Some (check_stop s)
  | Leaving => Some (run_left s)
  end.

(** ** Interleavings *)

Inductive action :=
| AWorker
| ACrash                                   (* an exception leaves [Run]'s body *)
| APost (seen : bool) (loop : bool) (id : nat) (rs : list write_result)
| APostFd (seen : bool) (fd : nat) (rs : list write_result)
| APostShutdown (id : nat) (rs : list write_result)
| AStart
| AReady                                   (* [Start] returns, or throws *)
| AStop                                    (* the owner's [Stop], up to the join *)
| AStopInside                              (* [Stop] on the worker's thread *)
| AJoined.

Definition fire (a : action) (s : t) : option t :=
  match a with
  | AWorker => worker_step s
  | ACrash => match worker s with Setup | Parked | Leaving => Some (run_failed s) | _ => None end
  | APost seen loop id rs => fst <$> PostTask seen (if (loop : bool) then with_loop id else plain id) rs s
  | APostFd seen fd rs => fst <$> PostFd seen fd rs s
  | APostShutdown id rs => fst <$> PostShutdown (with_loop id) rs s
  | AStart => match owner s with OwnerIdle => Some (Start s).1 | _ => None end
  | AReady => match owner s with OwnerStarting => if loop_ready_ s then Some (with_owner OwnerIdle s) else None | _ => None end
  | AStop => match owner s with OwnerIdle => Some (with_owner OwnerJoining (stop_signal s)) | _ => None end
  | AStopInside => match worker s with Running _ | RunningShutdown _ => Some (stop_signal s) | _ => None end
  | AJoined =>
      match owner s, worker s with
      | OwnerJoining, (NoThread | Exited) => Some (with_owner OwnerIdle (stop_joined s))
      | _, _ => None
      end
  end.

Fixpoint run (os : list action) (s : t) : option t :=
  match os with
  | [] => Some s
  | a :: os => s ← fire a s; run os s
  end.

(** ** Invariant *)

Definition looping (p : worker_pc) : bool := match p with NoThread | Setup | Exited => false | _ => true end.

(** There is something for the worker to take up. *)
Definition queued (s : t) : Prop := tasks_ s <> [].
Definition reserved (s : t) : Prop := shutdown_task_ s <> None.

(** What [HandleWake] has yet to look at is announced by the counter. *)
Definition wake_ok (s : t) : Prop :=
  match worker s with
  | NoThread => ~ queued s /\ ~ reserved s
  | Setup => ~ queued s /\ ~ reserved s /\ (stopping_ s = true -> 0 < counter s)
  | Parked => queued s \/ reserved s \/ stopping_ s = true -> 0 < counter s
  | Drain | Running _ => True
  | TakeShutdown => queued s -> 0 < counter s
  | RunningShutdown _ | CheckStop => queued s \/ reserved s -> 0 < counter s
  | Leaving => ~ queued s /\ ~ reserved s /\ stopping_ s = true
  | Exited => stopping_ s = true /\ (crashed s = true \/ ~ queued s /\ ~ reserved s /\ wake_fd_ s = false)
  end.

Record inv (s : t) : Prop := {
  i_fifo : accepted s = ran s ++ tasks_ s;
  i_shutdown : shutdown_accepted s = shutdown_ran s ++ option_list (shutdown_task_ s);
  i_capacity : (length (tasks_ s) <= task_capacity_ s)%nat;
  i_closed : (wake_closed s + (if wake_fd_ s then 1 else 0) = 1)%nat;
  i_counter : 0 <= counter s <= eventfd_max;
  i_running : running_ s = looping (worker s);
  i_started : worker s <> NoThread -> started_ s = true;
  i_open : wake_fd_ s = false -> stopping_ s = true /\ (worker s = NoThread \/ worker s = Exited);
  i_ready : looping (worker s) = true \/ worker s = Exited -> loop_ready_ s = true;
  i_joining : owner s = OwnerJoining -> stopping_ s = true;
  i_wake : wake_ok s
}.

Lemma make_worker_inv cap s : make cap = Some s -> inv s.
Proof.
  unfold make. case_bool_decide; [done|]. intros [= <-].
  constructor; simpl; try done; try lia; [intros [|]; done|]. unfold wake_ok, queued, reserved. simpl. naive_solver.
Qed.

Ltac winv := constructor; unfold wake_ok, queued, reserved, eventfd_max in *; simpl in *; try done; try lia; try (intuition (congruence || lia)).

Lemma eventfd_write_inv s : inv s -> inv (eventfd_write s) /\ (0 < counter (eventfd_write s)).
Proof.
  intros Hi. unfold eventfd_write, eventfd_max. pose proof (i_counter s Hi). zcases.
  - split; [|simpl; lia]. destruct Hi. destruct s as [? ? ? ? ? ? ? ? ? p]. destruct p; winv.
  - split; [done|]. unfold eventfd_max in *. lia.
Qed.

(** A queue push is announced by the write, or taken back. *)
Lemma WakeLocked_spec rs s s' ok :
  WakeLocked rs s = Some (s', ok) -> if ok then wake_fd_ s = true /\ s' = eventfd_write s else s' = s.
Proof.
  induction rs as [|[] rs IH]; simpl; destruct (wake_fd_ s) eqn:E; simpl; try done; try (intros [= <- <-]; done).
Qed.

(** Nothing but the counter may be missing. *)
Lemma announced s s0 :
  inv s0 -> looping (worker s) = true -> worker s <> Leaving ->
  wake_fd_ s = wake_fd_ s0 -> counter s = counter s0 -> running_ s = running_ s0 -> worker s = worker s0 ->
  started_ s = started_ s0 -> stopping_ s = stopping_ s0 -> loop_ready_ s = loop_ready_ s0 -> wake_closed s = wake_closed s0 ->
  owner s = owner s0 ->
  accepted s = ran s ++ tasks_ s -> shutdown_accepted s = shutdown_ran s ++ option_list (shutdown_task_ s) ->
  (length (tasks_ s) <= task_capacity_ s)%nat -> inv (eventfd_write s).
Proof.
  intros [] Hl Hp E1 E2 E3 E4 E5 E6 E7 E8 E9 H1 H2 H3. unfold eventfd_write.
  destruct s as [? ? ? ? ? ? ? ? ? p]; simpl in *; subst. zcases; destruct (worker s0) eqn:Ew; try done; winv.
Qed.

Lemma PostTask_inv seen task rs s s' ok : inv s -> PostTask seen task rs s = Some (s', ok) ->
  inv s' /\ fds_closed s' = fds_closed s /\ accepted s' = accepted s ++ (if ok then [task] else []).
Proof.
  intros Hi. unfold PostTask.
  assert (Hno : Some (s, false) = Some (s', ok) -> inv s' /\ fds_closed s' = fds_closed s /\
    accepted s' = accepted s ++ (if ok then [task] else [])).
  { intros [= <- <-]. by rewrite app_nil_r. }
  destruct seen; simpl; [|done]. destruct (stopping_ s) eqn:Es; [done|]. destruct (running_ s) eqn:Er; [|done].
  case_bool_decide as Hc; [done|]. simpl.
  destruct (WakeLocked _ _) as [[w k]|] eqn:Ew; simpl; [|done]. apply WakeLocked_spec in Ew. destruct k; intros [= <- <-].
  - destruct Ew as [Ho ->]. rewrite (i_running s Hi) in Er. split.
    + eapply (announced _ s); simpl; try done; try apply Hi.
      * intros E. pose proof (i_wake s Hi) as Hw. unfold wake_ok in Hw. rewrite E in Hw. destruct Hw as (_ & _ & ?). congruence.
      * by rewrite (i_fifo s Hi), app_assoc.
      * rewrite length_app. simpl. lia.
    + unfold eventfd_write. by destruct (_ <? _).
  - subst w. rewrite app_nil_r. split; [|done]. by destruct s, Hi.
Qed.

Lemma PostShutdown_inv task rs s s' ok : inv s -> PostShutdown task rs s = Some (s', ok) ->
  inv s' /\ fds_closed s' = fds_closed s /\ accepted s' = accepted s.
Proof.
  intros Hi. unfold PostShutdown.
  assert (Hno : Some (s, false) = Some (s', ok) -> inv s' /\ fds_closed s' = fds_closed s /\ accepted s' = accepted s)
    by (by intros [= <- <-]).
  destruct (started_ s) eqn:Est; simpl; [|done]. destruct (running_ s) eqn:Er; [|done]. destruct (stopping_ s) eqn:Es; [done|].
  simpl. case_bool_decide as Hn; [done|]. assert (Hn' : shutdown_task_ s = None) by (by apply eq_None_not_Some).
  destruct (WakeLocked _ _) as [[w k]|] eqn:Ew; simpl; [|done]. apply WakeLocked_spec in Ew. destruct k; intros [= <- <-].
  - destruct Ew as [Ho ->]. rewrite (i_running s Hi) in Er. split.
    + eapply (announced _ s); simpl; try done; try apply Hi.
      * intros E. pose proof (i_wake s Hi) as Hw. unfold wake_ok in Hw. rewrite E in Hw. destruct Hw as (_ & _ & ?). congruence.
      * rewrite (i_shutdown s Hi), Hn'. simpl. by rewrite app_nil_r.
    + unfold eventfd_write. by destruct (_ <? _).
  - subst w. split; [|done]. destruct s; simpl in *; subst. by destruct Hi.
Qed.

Lemma worker_step_inv s s' : inv s -> worker_step s = Some s' -> inv s'.
Proof.
  intros Hi. unfold worker_step. destruct s as [cap fd ct ts sh rn rd st sp p ow ac rr sa sr fc wc cr]. simpl. destruct p; try done.
  - intros [= <-]. destruct Hi. winv.
  - destruct Hi; simpl in *. zcases. intros [= <-]. unfold wake_read. simpl. destruct fd; winv.
  - intros [= <-]. destruct Hi; simpl in *. unfold DrainQueue. simpl. destruct ts as [|task ts]; simpl in *; winv.
    by rewrite <- app_assoc.
  - intros [= <-]. destruct Hi. winv.
  - intros [= <-]. destruct Hi; simpl in *. unfold DrainShutdownTask. simpl. destruct sh as [task|]; simpl in *; winv.
    by rewrite app_nil_r.
  - intros [= <-]. destruct Hi. winv.
  - intros [= <-]. destruct Hi; simpl in *. unfold check_stop. simpl. destruct sp; simpl; [|winv].
    case_bool_decide; simpl; [|winv]. case_bool_decide; simpl; winv.
  - intros [= <-]. destruct Hi; simpl in *. unfold run_left, close_wake. simpl. destruct fd; winv.
Qed.

Lemma stop_signal_inv s : inv s -> inv (stop_signal s).
Proof.
  intros []. unfold stop_signal, eventfd_write, eventfd_max in *. destruct s as [? fd ct ? ? ? ? ? ? p]. simpl in *.
  destruct fd; simpl.
  - zcases; destruct p; winv.
  - destruct p; winv.
Qed.

Lemma stop_signal_stopping s : stopping_ (stop_signal s) = true.
Proof. unfold stop_signal, eventfd_write. simpl. destruct (wake_fd_ s), (counter s <? eventfd_max) eqn:E; simpl; try rewrite E; done. Qed.

(** The descriptors an action hands over. *)
Definition handed (a : action) : list nat := match a with APostFd _ fd _ => [fd] | _ => [] end.
Definition handlers (ts : list Task) : list nat := omap (fun task => match task with fd_handler fd => Some fd | _ => None end) ts.

Lemma action_inv a s s' : inv s -> fire a s = Some s' -> inv s'.
Proof.
  intros Hi. destruct a as [| |seen lp id rs|seen fd rs|id rs| | | | |]; simpl.
  - by apply worker_step_inv.
  - destruct s as [? ? ? ? ? ? ? ? ? p]. destruct Hi. simpl in *. destruct p; try done; intros [= <-]; winv.
  - destruct (PostTask seen _ rs s) as [[s1 ok]|] eqn:E; simpl; [|done]. intros [= <-]. by eapply PostTask_inv in E as [? _].
  - unfold PostFd. destruct (PostTask seen (fd_handler fd) rs s) as [[s1 ok]|] eqn:E; simpl; [|done].
    eapply PostTask_inv in E as [Hi' _]; [|done]. destruct ok; simpl; intros [= <-]; [done|]. destruct Hi'. by constructor.
  - destruct (PostShutdown (with_loop id) rs s) as [[s1 ok]|] eqn:E; simpl; [|done]. intros [= <-]. by eapply PostShutdown_inv in E as [? _].
  - destruct (owner s); try done. intros [= <-]. unfold Start. destruct (started_ s) eqn:Est; [done|].
    destruct (stopping_ s) eqn:Es; [done|]. simpl. destruct s as [? fd ? ? ? ? ? ? ? p]. destruct Hi. simpl in *. subst.
    destruct p; try (exfalso; by discriminate i_started0). winv.
  - destruct (owner s); try done. destruct (loop_ready_ s) eqn:E; [|done]. intros [= <-]. destruct Hi. by constructor.
  - destruct (owner s); try done. intros [= <-].
    apply stop_signal_inv in Hi. destruct Hi. constructor; try done. intros _. apply stop_signal_stopping.
  - destruct (worker s); try done; intros [= <-]; by apply stop_signal_inv.
  - destruct s as [? fd ? ? ? ? ? ? ? p ow]. destruct Hi. simpl in *. destruct ow; try done.
    unfold stop_joined, close_wake. destruct p; try done; intros [= <-]; destruct fd; simpl; winv.
Qed.

(** A descriptor is handed to its handler's task, or closed. *)
Lemma fire_fds a s s' : inv s -> fire a s = Some s' ->
  handlers (accepted s') ++ fds_closed s' ≡ₚ handed a ++ handlers (accepted s) ++ fds_closed s.
Proof.
  intros Hi. assert (Hsame : forall x, accepted x = accepted s -> fds_closed x = fds_closed s ->
    handlers (accepted x) ++ fds_closed x ≡ₚ handlers (accepted s) ++ fds_closed s) by (by intros x -> ->).
  destruct a as [| |seen lp id rs|seen fd rs|id rs| | | | |]; simpl.
  - unfold worker_step. destruct (worker s); try done; try (intros [= <-]; by apply Hsame).
    + destruct (0 <? counter s); [|done]. intros [= <-]. unfold wake_read. by destruct (wake_fd_ s); apply Hsame.
    + intros [= <-]. unfold DrainQueue. by destruct (tasks_ s); apply Hsame.
    + intros [= <-]. unfold DrainShutdownTask. by destruct (shutdown_task_ s); apply Hsame.
    + intros [= <-]. unfold check_stop. by destruct (_ && _); apply Hsame.
    + intros [= <-]. unfold run_left, close_wake. simpl. by destruct (wake_fd_ s); apply Hsame.
  - destruct (worker s); try done; intros [= <-]; by apply Hsame.
  - destruct (PostTask seen _ rs s) as [[s1 ok]|] eqn:E; simpl; [|done]. intros [= <-].
    eapply PostTask_inv in E as (_ & -> & ->); [|done]. unfold handlers. rewrite omap_app. destruct ok, lp; simpl; by rewrite app_nil_r.
  - unfold PostFd. destruct (PostTask seen _ rs s) as [[s1 ok]|] eqn:E; simpl; [|done].
    eapply PostTask_inv in E as (_ & Hf & Ha); [|done]. destruct ok; simpl; intros [= <-]; simpl; rewrite Hf, Ha.
    + unfold handlers. rewrite omap_app. simpl. rewrite <- app_assoc. simpl. by rewrite <- Permutation_middle.
    + rewrite app_nil_r, app_assoc. symmetry. apply Permutation_cons_append.
  - destruct (PostShutdown _ rs s) as [[s1 ok]|] eqn:E; simpl; [|done]. intros [= <-].
    eapply PostShutdown_inv in E as (_ & E1 & E2); [|done]. by apply Hsame.
  - destruct (owner s); try done. intros [= <-]. unfold Start. destruct (started_ s); [done|]. by destruct (stopping_ s).
  - destruct (owner s); try done. destruct (loop_ready_ s); [|done]. intros [= <-]. by apply Hsame.
  - destruct (owner s); try done. intros [= <-]. unfold stop_signal, eventfd_write. simpl.
    destruct (wake_fd_ s); [|by apply Hsame]. simpl. destruct (counter s <? eventfd_max); by apply Hsame.
  - assert (Hs : handlers (accepted (stop_signal s)) ++ fds_closed (stop_signal s) ≡ₚ handlers (accepted s) ++ fds_closed s).
    { unfold stop_signal, eventfd_write. simpl. destruct (wake_fd_ s); [|done]. simpl. by destruct (counter s <? eventfd_max). }
    destruct (worker s); try done; by intros [= <-].
  - destruct (owner s); try done. unfold stop_joined, close_wake. destruct (worker s); try done; intros [= <-];
      destruct (wake_fd_ s); by apply Hsame.
Qed.

Lemma run_inv os s s' : inv s -> run os s = Some s' ->
  inv s' /\ handlers (accepted s') ++ fds_closed s' ≡ₚ concat (handed <$> os) ++ handlers (accepted s) ++ fds_closed s.
Proof.
  revert s. induction os as [|a os IH]; intros s Hi; simpl; [by intros [= <-]|].
  destruct (fire a s) as [s1|] eqn:E; simpl; [|done]. intros Hr. pose proof (fire_fds _ _ _ Hi E) as Hf.
  apply action_inv in E; [|done]. destruct (IH s1 E Hr) as [H1 H2]. split; [done|]. rewrite H2, Hf.
  by rewrite <- (app_assoc (handed a)), Permutation_app_swap_app.
Qed.

Lemma fire_capacity a s s' : fire a s = Some s' -> task_capacity_ s' = task_capacity_ s.
Proof.
  destruct s as [cap fd ct ts sh rn rd st sp p ow ac rr sa sr fc wc cr].
  assert (Hw : forall rs x y, WakeLocked rs x = Some y -> task_capacity_ y.1 = task_capacity_ x).
  { intros rs x [y ok] Hy. apply WakeLocked_spec in Hy. destruct ok; [destruct Hy as [_ ->]|by subst].
    unfold eventfd_write. by destruct (_ <? _). }
  destruct a; simpl; unfold worker_step, PostFd, PostTask, PostShutdown, Start, stop_signal, eventfd_write, stop_joined,
    close_wake, wake_read, DrainQueue, DrainShutdownTask, check_stop, run_left; simpl;
    repeat (case_match; simpl; try done); try (by intros [= <-]).
  - intros [= <-]. by destruct fd.
  - destruct (WakeLocked _ _) as [[w [|]]|] eqn:E; simpl; [..|done]; apply Hw in E; by intros [= <-].
  - destruct (WakeLocked _ _) as [[w [|]]|] eqn:E; simpl; [..|done]; apply Hw in E; by intros [= <-].
  - destruct (WakeLocked _ _) as [[w [|]]|] eqn:E; simpl; [..|done]; apply Hw in E; by intros [= <-].
  - destruct (WakeLocked _ _) as [[w [|]]|] eqn:E; simpl; [..|done]; apply Hw in E; by intros [= <-].
Qed.

Lemma run_capacity os s s' : run os s = Some s' -> task_capacity_ s' = task_capacity_ s.
Proof.
  revert s. induction os as [|a os IH]; intros s; simpl; [by intros [= <-]|].
  destruct (fire a s) as [s1|] eqn:E; simpl; [|done]. intros Hr. rewrite (IH _ Hr). by eapply fire_capacity.
Qed.

(** C12: Whatever the posting threads, the owner and the worker do, in whatever
    order: accepted tasks run in the order of acceptance, each once, and no
    other task runs; likewise the shutdown tasks; the queue stays within its
    capacity; every descriptor handed over goes to its handler's task or is
    closed, never both and never neither; the wake descriptor is closed at most
    once.  A parked worker with work, or asked to stop, has a wake pending.  A
    worker that left its loop without an exception has run every accepted task
    and closed the wake descriptor. *)
Theorem worker_tasks_once cap s0 os s :
  make cap = Some s0 -> run os s0 = Some s ->
  accepted s = ran s ++ tasks_ s /\
  shutdown_accepted s = shutdown_ran s ++ option_list (shutdown_task_ s) /\
  (length (tasks_ s) <= cap)%nat /\
  handlers (accepted s) ++ fds_closed s ≡ₚ concat (handed <$> os) /\
  (wake_closed s <= 1)%nat /\
  (worker s = Parked -> tasks_ s <> [] \/ shutdown_task_ s <> None \/ stopping_ s = true -> 0 < counter s) /\
  (worker s = Exited -> crashed s = false ->
   ran s = accepted s /\ shutdown_ran s = shutdown_accepted s /\ wake_closed s = 1%nat).
Proof.
  intros Hm Hr. destruct (run_inv _ _ _ (make_worker_inv _ _ Hm) Hr) as [Hi Hf]. apply run_capacity in Hr.
  unfold make in Hm. case_bool_decide; [done|]. injection Hm as <-. simpl in Hr, Hf. rewrite app_nil_r in Hf.
  pose proof (i_wake _ Hi) as Hw. pose proof (i_closed _ Hi). unfold wake_ok, queued, reserved in Hw.
  split; [apply Hi|]. split; [apply Hi|]. split; [rewrite <- Hr; apply Hi|]. split; [done|]. split; [lia|].
  split; [by intros Hp; rewrite Hp in Hw|]. intros Hp Hc. rewrite Hp in Hw. destruct Hw as (_ & [?|(H1 & H2 & H3)]); [congruence|].
  rewrite (i_fifo _ Hi), (i_shutdown _ Hi). rewrite H3 in *.
  destruct (tasks_ s); [|by destruct H1]. destruct (shutdown_task_ s); [by destruct H2|]. simpl. rewrite !app_nil_r.
  split_and!; [done|done|lia].
Qed.

(** ** Stopping *)

(** The worker's steps to its exit.  Work that arrived behind the drain costs
    another turn of the loop. *)
Definition again (s : t) : nat :=
  match worker s with
  | TakeShutdown => if bool_decide (tasks_ s = []) then 0 else 10
  | RunningShutdown _ | CheckStop => if bool_decide (tasks_ s = []) && bool_decide (shutdown_task_ s = None) then 0 else 10
  | _ => 0
  end.

Definition position (p : worker_pc) : nat :=
  match p with
  | NoThread | Exited => 0 | Leaving => 1 | CheckStop => 2 | RunningShutdown _ => 3 | TakeShutdown => 4
  | Drain => 5 | Running _ => 6 | Parked => 7 | Setup => 8
  end.

Definition steps_left (s : t) : nat :=
  20 * length (tasks_ s) + (if bool_decide (shutdown_task_ s = None) then 0 else 20) + again s + position (worker s).

Lemma worker_progress s : inv s -> stopping_ s = true -> worker s <> NoThread -> worker s <> Exited -> is_Some (worker_step s).
Proof.
  intros Hi Hs H1 H2. unfold worker_step. pose proof (i_wake _ Hi) as Hw. unfold wake_ok in Hw.
  destruct (worker s); try done. assert (0 < counter s) as Hc by auto. apply Z.ltb_lt in Hc. by rewrite Hc.
Qed.

Lemma worker_step_left s s' : stopping_ s = true -> worker_step s = Some s' ->
  stopping_ s' = true /\ (steps_left s' < steps_left s)%nat.
Proof.
  destruct s as [cap fd ct ts sh rn rd st sp p ow ac rr sa sr fc wc cr]. simpl. intros ->. unfold worker_step. simpl.
  destruct p; try done.
  - intros [= <-]. unfold steps_left, again. simpl. split; [done|lia].
  - zcases. intros [= <-]. unfold steps_left, again, wake_read. simpl. destruct fd; simpl; split; done || lia.
  - intros [= <-]. unfold steps_left, again, DrainQueue. simpl. destruct ts; simpl; split; done || lia.
  - intros [= <-]. unfold steps_left, again. simpl. split; [done|lia].
  - intros [= <-]. unfold steps_left, again, DrainShutdownTask. simpl. destruct sh; simpl; case_bool_decide; simpl; split; done || lia.
  - intros [= <-]. unfold steps_left, again. simpl. split; [done|lia].
  - intros [= <-]. unfold steps_left, again, check_stop. simpl. destruct ts, sh; simpl; split; done || lia.
  - intros [= <-]. unfold steps_left, again, run_left, close_wake. simpl. destruct fd; simpl; split; done || lia.
Qed.

(** Once asked to stop, the worker gets no more work. *)
Lemma other_step_left a s s' : stopping_ s = true -> worker s <> NoThread -> a <> AWorker -> fire a s = Some s' ->
  stopping_ s' = true /\ worker s' <> NoThread /\ (steps_left s' <= steps_left s)%nat.
Proof.
  destruct s as [cap fd ct ts sh rn rd st sp p ow ac rr sa sr fc wc cr]. simpl. intros -> Hp Ha.
  destruct a; simpl; unfold PostFd, PostTask, PostShutdown, Start, stop_signal, eventfd_write, stop_joined, close_wake; simpl;
    repeat (case_match; simpl; try done); subst; intros E; simplify_eq/=; try (split_and!; [done|done|]; unfold steps_left, again; simpl; lia).
  exfalso. match goal with H : _ || true || _ = false |- _ => by rewrite orb_true_r in H end.
Qed.

Definition is_worker (a : action) : bool := match a with AWorker => true | _ => false end.

Lemma worker_stays s s' : worker_step s = Some s' -> worker s' <> NoThread.
Proof.
  unfold worker_step, wake_read, DrainQueue, DrainShutdownTask, check_stop, run_left. intros E.
  repeat case_match; simplify_eq/=; done.
Qed.

Lemma run_left_bound os s s' : stopping_ s = true -> worker s <> NoThread -> run os s = Some s' ->
  stopping_ s' = true /\ worker s' <> NoThread /\ (length (List.filter is_worker os) + steps_left s' <= steps_left s)%nat.
Proof.
  revert s. induction os as [|a os IH]; intros s Hs Hn; simpl; [intros [= <-]; auto|].
  destruct (fire a s) as [s1|] eqn:E; simpl; [|done]. intros Hr.
  assert (Hstep : stopping_ s1 = true /\ worker s1 <> NoThread /\
    ((if is_worker a then 1 else 0) + steps_left s1 <= steps_left s)%nat).
  { destruct a; try (eapply other_step_left in E; done). simpl in E. pose proof (worker_stays _ _ E).
    apply worker_step_left in E as [? ?]; [|done]. simpl. split_and!; [done|done|lia]. }
  destruct Hstep as (H1 & H2 & H3). destruct (IH s1 H1 H2 Hr) as (H4 & H5 & H6). split; [done|]. split; [done|].
  destruct (is_worker a); simpl in *; lia.
Qed.

(** C17: A worker that was asked to stop comes to its end: whatever the other
    threads do meanwhile, it takes at most [steps_left] more steps, and until it
    has exited it can take one. *)
Theorem worker_stops cap s0 os s os' s' :
  make cap = Some s0 -> run os s0 = Some s -> stopping_ s = true -> worker s <> NoThread -> run os' s = Some s' ->
  (length (List.filter is_worker os') <= steps_left s)%nat /\
  (worker s' = Exited \/ is_Some (worker_step s')).
Proof.
  intros Hm Hr Hs Hn Hr'. destruct (run_inv _ _ _ (make_worker_inv _ _ Hm) Hr) as [Hi _].
  destruct (run_inv _ _ _ Hi Hr') as [Hi' _]. destruct (run_left_bound _ _ _ Hs Hn Hr') as (H1 & H2 & H3).
  split; [lia|]. destruct (worker s') eqn:E; try (right; apply worker_progress; congruence). by left.
Qed.

(** ** Example *)

(** A worker is started; a task and a descriptor arrive, the queue of two is
    full for a third, the worker drains, and is stopped. *)
Definition example_start : t := default (mk 1 true 0 [] None false false false false NoThread OwnerIdle [] [] [] [] [] 0 false) (make 2).

Definition example_posts : list action :=
  [AStart; AWorker; AReady; APost true false 1 [Interrupted; Wrote]; APostFd true 7 [Wrote]; APostFd true 8 [Wrote];
   APostShutdown 3 [Wrote]; AWorker; AWorker; AStop].

Definition example_finish : list action :=
  [AWorker; AWorker; AWorker; APost true false 4 [Wrote]; AWorker; AWorker; AWorker; AWorker; AWorker; AJoined].

Definition example_stopping : t := default example_start (run example_posts example_start).
Definition example_end : t := default example_start (run example_finish example_stopping).

Lemma worker_tasks_once_witness :
  worker example_end = Exited /\ ran example_end = [plain 1; fd_handler 7] /\
  handlers (accepted example_end) ++ fds_closed example_end ≡ₚ [7; 8]%nat.
Proof.
  destruct (worker_tasks_once 2 example_start (example_posts ++ example_finish) example_end) as (_ & _ & _ & Hf & _);
    [reflexivity|vm_compute; reflexivity|].
  split; [vm_compute; reflexivity|]. split; [vm_compute; reflexivity|]. exact Hf.
Defined.

Lemma worker_stops_witness :
  stopping_ example_stopping = true /\ (length (List.filter is_worker example_finish) <= steps_left example_stopping)%nat /\
  (worker example_end = Exited \/ is_Some (worker_step example_end)).
Proof.
  split; [vm_compute; reflexivity|].
  apply (worker_stops 2 example_start example_posts example_stopping example_finish example_end);
    try (vm_compute; reflexivity). vm_compute. done.
Defined.

End WorkerRuntime.
