(* ===== verification/WorkerData.v ===== *)
(** * The worker data plane

    Models src/src/runtime/WorkerData.cpp: what a worker does with a parsed
    request - routing, the generation lease, admission with worker-local token
    leases, and starting the transaction - and the return of leases.  The
    connection table is in ClientTable.  [sys] holds what the workers share:
    the generations, and which transactions hold resources of them.  One step
    is one request, one transaction's end, or one control task; the finer
    interleavings of the shared counters are those of Admission and
    Retirement. *)

From S2P Require Import Prelude Effects Bytes Types Admission Routing HttpText HttpRequest HttpResponse Generation.

Module WorkerData.
Import HttpRequestParser GlobalAdmission.
Import HttpResponse(mkResponse, kNormal).
Abbreviation HttpResponse := HttpResponse.HttpResponse.

(** What a worker reads of a generation; the snapshot and the selection states
    are fixed at construction; [created] is when that was. *)
Record generation := mkGeneration {
  snapshot : option Config;
  lease : RuntimeGeneration.t;
  admissions : list GlobalAdmission.t;
  selection_states : nat;
  created : Z
}.

(** Observable effects: a metric sample, a response, an aborted connection, a
    transaction with its generation, route index, first endpoint and policy,
    and what the last lease sets off. *)
Record UpstreamPolicy := mkPolicy {
  connect_timeout : Z; first_byte_timeout : Z; total_timeout : Z; retry_budget : Z
}.

Inductive effect :=
| ERecord (route : bytes) (status : Z) (rate_limited : bool) (reason : bytes)
| ESend (response : HttpResponse)
| EAbort
| EStart (version : Z) (route : nat) (endpoint : Endpoint) (least_active : bool) (policy : UpstreamPolicy)
| ENotices (version : Z) (ns : list RuntimeGeneration.notice).

(** [lease_balances_] has one table per worker; [live] are the transactions in
    progress, [admitted] all requests ever admitted, by generation and route. *)
Record sys := mkSys {
  generations : gmap Z generation;
  current_generation : option Z;
  lease_balances_ : list (gmap Z (list Z));
  live : list (Z * nat);
  admitted : list (Z * nat);
  log : list effect
}.

Definition with_generation (v : Z) (g : generation) (s : sys) : sys :=
  mkSys (<[v := g]> (generations s)) (current_generation s) (lease_balances_ s) (live s) (admitted s) (log s).
Definition with_current (v : option Z) (s : sys) : sys :=
  mkSys (generations s) v (lease_balances_ s) (live s) (admitted s) (log s).
Definition with_balances (w : nat) (m : gmap Z (list Z)) (s : sys) : sys :=
  mkSys (generations s) (current_generation s) (<[w := m]> (lease_balances_ s)) (live s) (admitted s) (log s).
Definition with_live (l : list (Z * nat)) (s : sys) : sys :=
  mkSys (generations s) (current_generation s) (lease_balances_ s) l (admitted s) (log s).
Definition with_admitted (x : Z * nat) (s : sys) : sys :=
  mkSys (generations s) (current_generation s) (lease_balances_ s) (live s) (x :: admitted s) (log s).
Definition with_log (e : effect) (s : sys) : sys :=
  mkSys (generations s) (current_generation s) (lease_balances_ s) (live s) (admitted s) (log s ++ [e]).

Definition set_lease (x : RuntimeGeneration.t) (g : generation) : generation :=
  mkGeneration (snapshot g) x (admissions g) (selection_states g) (created g).
Definition set_admission (r : nat) (a : GlobalAdmission.t) (g : generation) : generation :=
  mkGeneration (snapshot g) (lease g) (<[r := a]> (admissions g)) (selection_states g) (created g).

Definition balances_of (w : nat) (s : sys) : gmap Z (list Z) := default ∅ (lease_balances_ s !! w).

(** ** Admission *)

Definition TryAdmit (w : nat) (v : Z) (route_index : nat) (s : sys) : bool * sys :=
  match generations s !! v with
  | None => (false, s)
  | Some g =>
      match admissions g !! route_index, snapshot g with
      | Some admission, Some config =>
          let '(ok, admission) := TryAcquireInflight admission in
          if negb ok then (false, s)
          else
            let balances := default (replicate (length (admissions g)) 0) (balances_of w s !! v) in
            let balance := default 0 (balances !! route_index) in
            let batch := LeaseBatch (rate_ admission) (workers config) (burst_ admission) in
            let '(balance, admission) :=
              if wrap_u32 (balance * 2) <? batch then Draw batch (Return balance admission) else (balance, admission) in
            let put balance admission :=
              with_balances w (<[v := <[route_index := balance]> balances]> (balances_of w s))
                (with_generation v (set_admission route_index admission g) s) in
            if balance =? 0 then (false, put 0 (ReleaseInflight admission))
            else (true, with_admitted (v, route_index) (put (wrap_u32 (balance - 1)) admission))
      | _, _ => (false, s)
      end
  end.

(** ** Leases *)

(** [TryAcquireRequestLease] on generation [v]. *)
Definition acquire_lease (v : Z) (s : sys) : option sys :=
  g ← generations s !! v; x ← RuntimeGeneration.TryAcquireRequestLease (lease g);
  Some (with_generation v (set_lease x g) s).

(** The lease's destructor; [None]: [std::terminate]. *)
Definition release_lease (v : Z) (s : sys) : option sys :=
  g ← generations s !! v; '(x, ns) ← RuntimeGeneration.ReleaseRequestLease (lease g);
  Some (with_log (ENotices v ns) (with_generation v (set_lease x g) s)).

(** The reservation's destructor. *)
Definition release_inflight (v : Z) (r : nat) (s : sys) : sys :=
  match generations s !! v with
  | Some g => match admissions g !! r with
              | Some a => with_generation v (set_admission r (ReleaseInflight a) g) s
              | None => s
              end
  | None => s
  end.

(** ** Requests *)

(** What a throw raises, as far as the handlers tell. *)
Inductive exception := logic_error | system_error | other_exception.

(** What one request meets: the rendered metrics or what the renderer throws,
    what [SendResponse] throws for the request's answer and for the controlled
    500 ([None]: it takes the response), whether recording a metric succeeds,
    whether the transaction could be set up. *)
Record surroundings := mkSurroundings {
  metrics_renderer : bytes + exception;
  answer_throws : option exception;
  error_throws : option exception;
  records : bool;
  starts : bool
}.

Local Open Scope effect_scope.

Definition emit (e : effect) : M sys unit := modify (with_log e).

(** [client.SendResponse]; a throw leaves nothing sent. *)
Definition SendResponse (throws : option exception) (response : HttpResponse) : M sys unit :=
  match throws with None => emit (ESend response) | Some _ => throw end.

(** [metrics_->RecordImmediate]. *)
Definition RecordImmediate (env : surroundings) (e : effect) : M sys unit :=
  if records env then emit e else throw.

(** [catch (const std::logic_error &)] and [catch (const std::system_error &)],
    with one handler. *)
Definition caught (e : exception) : bool :=
  match e with logic_error | system_error => true | other_exception => false end.

Definition catch_std (throws : option exception) (m handler : M sys unit) : M sys unit :=
  if from_option caught true throws then catch m handler else m.

Definition answer (env : surroundings) (response : HttpResponse) : M sys unit :=
  catch_std (answer_throws env) (SendResponse (answer_throws env) response) (ret tt).

(** A destructor that runs however [m] is left. *)
Definition finally (m : M sys unit) (f : M sys unit) : M sys unit := fun s =>
  match m s with
  | Ret tt s => f s
  | Throw s => bind f (fun _ => throw) s
  | r => r
  end.

Definition plain (status : Z) (reason : bytes) : HttpResponse := mkResponse status reason [] [] kNormal None.

Definition or_terminate (f : sys -> option sys) : M sys unit := fun s =>
  match f s with Some s => Ret tt s | None => Stuck end.

Definition is_metrics (request : HttpRequest) : bool :=
  beq (method request) (lit "GET") && beq (target request) (lit "/metrics").

(** The generation worker [w] serves from, with its snapshot. *)
Definition serving (w : nat) (s : sys) : option (Z * generation * Config) :=
  v ← current_generation s; g ← generations s !! v; config ← snapshot g;
  if bool_decide (selection_states g <= w)%nat then None else Some (v, g, config).

(** [WorkerData::HandleRequest] of worker [w]. *)
Definition HandleRequest (w : nat) (env : surroundings) (request : HttpRequest) : M sys unit :=
  if is_metrics request then
    match metrics_renderer env with
    | inr e => catch_std (Some e) throw (ret tt)
    | inl text =>
        answer env (mkResponse 200 (lit "OK")
          [(lit "Content-Type", lit "text/plain; version=0.0.4; charset=utf-8")] text kNormal None)
    end
  else
    s <- gets (fun s => s) ;;
    match serving w s with
    | None =>
        catch (RecordImmediate env (ERecord (lit "_generation_unavailable") 503 false []);;
               SendResponse (answer_throws env) (plain 503 (lit "Service Unavailable"))) (ret tt)
    | Some (v, g, config) =>
        match RouteTable.Match config (Header (lit "host") request) (target request) with
        | None =>
            catch (RecordImmediate env (ERecord (lit "_unmatched") 404 false [])) (ret tt);;
            answer env (plain 404 (lit "Not Found"))
        | Some route_index =>
            match routes config !! route_index with
            | None => stuck
            | Some route =>
                match acquire_lease v s with
                | None =>
                    catch (RecordImmediate env (ERecord (rt_name route) 503 false (lit "generation_retiring"));;
                           SendResponse (answer_throws env) (plain 503 (lit "Service Unavailable"))) (ret tt)
                | Some s =>
                    let '(ok, s) := TryAdmit w v route_index s in
                    modify (fun _ => s);;
                    if negb ok then
                      finally
                        (catch (RecordImmediate env (ERecord (rt_name route) 429 true [])) (ret tt);;
                         answer env (plain 429 (lit "Too Many Requests")))
                        (or_terminate (release_lease v))
                    else
                      let policy := mkPolicy (connect_timeout_ms route) (first_byte_timeout_ms route)
                                             (total_timeout_ms route) (Types.retry_budget route) in
                      match rt_endpoints route !! 0%nat with
                      | None => stuck
                      | Some endpoint =>
                          if starts env then
                            emit (EStart v route_index endpoint (bool_decide (Types.balance route = kLeastActive)) policy);;
                            modify (fun s => with_live ((v, route_index) :: live s) s)
                          else
                            modify (release_inflight v route_index);; or_terminate (release_lease v);; throw
                      end
                end
            end
        end
    end.

(** The request callback installed by [Accept]. *)
Definition on_request (w : nat) (env : surroundings) (request : HttpRequest) : M sys unit :=
  catch (HandleRequest w env request)
    (catch (RecordImmediate env (ERecord (lit "_internal_error") 500 false [])) (ret tt);;
     catch_std (error_throws env) (SendResponse (error_throws env) (plain 500 (lit "Internal Server Error"))) (emit EAbort)).

(** The end of a transaction: its reservation and its lease are released. *)
Definition finish (i : nat) (s : sys) : option sys :=
  '(v, r) ← live s !! i;
  release_lease v (release_inflight v r (with_live (delete i (live s)) s)).

(** ** Returning leases *)

(** [balances.admissions[route]->Return(balances.balances[route])] for every
    route of the entry. *)
Definition return_admissions (bs : list Z) (s : list GlobalAdmission.t) : list GlobalAdmission.t :=
  zip_with Return bs s ++ drop (length bs) s.

Definition ReturnGenerationLeaseBalance (w : nat) (v : Z) (s : sys) : sys :=
  match balances_of w s !! v, generations s !! v with
  | Some bs, Some g =>
      with_balances w (delete v (balances_of w s))
        (with_generation v (mkGeneration (snapshot g) (lease g) (return_admissions bs (admissions g)) (selection_states g) (created g)) s)
  | _, _ => s
  end.

(** The lease loop of [Shutdown]; the transactions end one by one. *)
Definition Shutdown (w : nat) (s : sys) : sys :=
  mkSys (map_imap (fun v g => Some (match balances_of w s !! v with
           | Some bs => mkGeneration (snapshot g) (lease g) (return_admissions bs (admissions g)) (selection_states g) (created g)
           | None => g
           end)) (generations s))
    (current_generation s)
    (<[w := (fun bs => replicate (length bs) 0) <$> balances_of w s]> (lease_balances_ s))
    (live s) (admitted s) (log s).

(** ** The system *)

(** A new generation; [None]: a limit of the configuration is zero. *)
Definition make_generation (config : Config) (now : Z) : option generation :=
  admissions ← mapM (fun route => GlobalAdmission.make route now) (routes config);
  Some (mkGeneration (Some config) RuntimeGeneration.make admissions (Z.to_nat (workers config)) now).

(** The coordinator's refill tick. *)
Definition refill (v now : Z) (s : sys) : sys :=
  match generations s !! v with
  | Some g => with_generation v (mkGeneration (snapshot g) (lease g) (Refill now <$> admissions g) (selection_states g) (created g)) s
  | None => s
  end.

(** A change of retirement state by the control loop. *)
Definition retire (v : Z) (f : RuntimeGeneration.t -> RuntimeGeneration.t) (s : sys) : sys :=
  match generations s !! v with
  | Some g => with_generation v (set_lease (f (lease g)) g) s
  | None => s
  end.

(** A configuration the loader accepts, as far as this component relies on it. *)
Record usable (config : Config) : Prop := {
  u_workers : 0 < workers config < u32_modulus;
  u_routes : Forall (fun route => is_u32 (rate_limit route) /\ is_u32 (burst route) /\ is_u32 (max_inflight route) /\
                                  rt_endpoints route <> []) (routes config)
}.

Definition start (worker_count : nat) : sys := mkSys ∅ None (replicate worker_count ∅) [] [] [].

(** Fewer transactions than a counter of 64 bits can count. *)
Inductive step : sys -> sys -> Prop :=
| step_publish config now v g s :
    usable config -> make_generation config now = Some g -> generations s !! v = None ->
    step s (with_current (Some v) (with_generation v g s))
| step_request w env request s s' :
    (w < length (lease_balances_ s))%nat -> Z.of_nat (length (live s)) + 1 < u64_modulus ->
    on_request w env request s = Ret tt s' \/ on_request w env request s = Throw s' -> step s s'
| step_finish i s s' : finish i s = Some s' -> step s s'
| step_return w v s : step s (ReturnGenerationLeaseBalance w v s)
| step_shutdown w s : (w < length (lease_balances_ s))%nat -> step s (Shutdown w s)
| step_refill v now s : step s (refill v now s)
| step_begin_retirement v s : step s (retire v (fun x => (RuntimeGeneration.BeginRetirement true x).1.1) s)
| step_checkers_stopped v s : step s (retire v (fun x => (RuntimeGeneration.NotifyCheckersStopped x).1.1) s)
| step_reaping v s : step s (retire v (fun x => (RuntimeGeneration.BeginReaping x).1.1) s)
| step_retired v s : step s (retire v (fun x => (RuntimeGeneration.MarkRetired x).1) s).

(** ** One route of one generation *)

Definition count (p : Z * nat) (l : list (Z * nat)) : Z := Z.of_nat (length (List.filter (fun q => bool_decide (q = p)) l)).
Definition leases (v : Z) (l : list (Z * nat)) : Z := Z.of_nat (length (List.filter (fun q => bool_decide (q.1 = v)) l)).

Definition worker_balance (v : Z) (r : nat) (m : gmap Z (list Z)) : Z := default 0 (bs ← m !! v; bs !! r).

(** The route as Admission sees it: the shared object, the workers' balances
    and the admitted requests. *)
Definition proj (v : Z) (r : nat) (a : GlobalAdmission.t) (s : sys) : WorkerAdmission.t :=
  WorkerAdmission.mk a (worker_balance v r <$> lease_balances_ s) (count (v, r) (admitted s)).

(** The tables have a balance for every route of their generation. *)
Definition tables_ok (s : sys) : Prop :=
  forall w m v bs, lease_balances_ s !! w = Some m -> m !! v = Some bs ->
    exists g, generations s !! v = Some g /\ length bs = length (admissions g).

Lemma balances_of_lookup w s : (w < length (lease_balances_ s))%nat -> lease_balances_ s !! w = Some (balances_of w s).
Proof. intros Hw. unfold balances_of. by destruct (lookup_lt_is_Some_2 _ _ Hw) as [m ->]. Qed.

(** Worker [w] sets its balance of [(v, r)]. *)
Lemma set_worker_balance v r w b bs v' r' s :
  (w < length (lease_balances_ s))%nat ->
  bs = default (replicate (length bs) 0) (balances_of w s !! v) -> (r < length bs)%nat ->
  worker_balance v' r' <$> <[w := <[v := <[r := b]> bs]> (balances_of w s)]> (lease_balances_ s) =
  if bool_decide ((v', r') = (v, r)) then <[w := b]> (worker_balance v r <$> lease_balances_ s)
  else worker_balance v' r' <$> lease_balances_ s.
Proof.
  intros Hw Hbs Hr. rewrite list_fmap_insert. unfold worker_balance at 1. case_bool_decide as E.
  - injection E as -> ->. rewrite lookup_insert_eq. simpl. by rewrite list_lookup_insert_eq.
  - apply list_insert_id. rewrite list_lookup_fmap, balances_of_lookup by done. simpl. f_equal. unfold worker_balance.
    destruct (decide (v' = v)) as [->|Hv]; [|by rewrite lookup_insert_ne].
    rewrite lookup_insert_eq. simpl. rewrite list_lookup_insert_ne by congruence.
    destruct (balances_of w s !! v) as [bs'|]; simpl in *; [by subst|].
    rewrite Hbs. destruct (replicate (length bs) 0 !! r') as [z|] eqn:E'; [|done].
    by apply lookup_replicate in E' as [-> _].
Qed.

(** [s'] differs from [s] in generation [v] and what the workers hold of its
    route [r]. *)
Record touches (v : Z) (r : nat) (g' : generation) (s s' : sys) : Prop := {
  t_generations : generations s' = <[v := g']> (generations s);
  t_other : forall v' r' a, (v', r') <> (v, r) -> proj v' r' a s' = proj v' r' a s;
  t_current : current_generation s' = current_generation s;
  t_live : live s' = live s;
  t_log : log s' = log s;
  t_admitted : forall x, x ∈ admitted s' -> x = (v, r) \/ x ∈ admitted s;
  t_workers : length (lease_balances_ s') = length (lease_balances_ s);
  t_tables : tables_ok s'
}.

Lemma set_admission_same r a g : admissions g !! r = Some a -> set_admission r a g = g.
Proof. intros Ha. unfold set_admission. rewrite list_insert_id by done. by destruct g. Qed.

Lemma holders_cons p q l : count p (q :: l) = count p l + (if bool_decide (q = p) then 1 else 0).
Proof. unfold count. simpl. case_bool_decide; simpl; lia. Qed.

(** Writing back an admission and a balance. *)
Lemma put_touches w v r g a b bs s (ok : bool) :
  (w < length (lease_balances_ s))%nat -> tables_ok s -> generations s !! v = Some g -> (r < length (admissions g))%nat ->
  bs = default (replicate (length (admissions g)) 0) (balances_of w s !! v) ->
  let s' := with_balances w (<[v := <[r := b]> bs]> (balances_of w s)) (with_generation v (set_admission r a g) s) in
  let s'' := if ok then with_admitted (v, r) s' else s' in
  touches v r (set_admission r a g) s s'' /\
  proj v r a s'' = WorkerAdmission.mk a (<[w := b]> (worker_balance v r <$> lease_balances_ s))
                     (count (v, r) (admitted s) + if ok then 1 else 0).
Proof.
  intros Hw Ht Hg Hr Hbs s' s''.
  assert (Hlen : length bs = length (admissions g)).
  { destruct (balances_of w s !! v) as [bs'|] eqn:E; simpl in Hbs; subst bs; [|by rewrite length_replicate].
    destruct (Ht w (balances_of w s) v bs') as (g2 & Hg2 & ->); [by apply balances_of_lookup|done|congruence]. }
  assert (Hset : forall v' r', worker_balance v' r' <$> lease_balances_ s' =
    if bool_decide ((v', r') = (v, r)) then <[w := b]> (worker_balance v r <$> lease_balances_ s)
    else worker_balance v' r' <$> lease_balances_ s).
  { intros v' r'. apply (set_worker_balance v r w b bs v' r' s); [done|by rewrite Hlen|lia]. }
  assert (Hb : lease_balances_ s'' = lease_balances_ s') by (by destruct ok).
  split; [constructor|].
  - by destruct ok.
  - intros v' r' a' Hne. unfold proj. rewrite Hb, Hset, bool_decide_eq_false_2 by done. f_equal.
    destruct ok; [|done]. simpl. rewrite holders_cons, bool_decide_eq_false_2 by congruence. lia.
  - by destruct ok.
  - by destruct ok.
  - by destruct ok.
  - intros x Hx. destruct ok; [|by right]. simpl in Hx. by apply elem_of_cons in Hx.
  - rewrite Hb. apply length_insert.
  - intros w' m v' bs' Hm Hv. rewrite Hb in Hm.
    assert (Hgens : generations s'' = <[v := set_admission r a g]> (generations s)) by (by destruct ok).
    rewrite Hgens. destruct (decide (v' = v)) as [->|Hne].
    + exists (set_admission r a g). rewrite lookup_insert_eq. split; [done|]. simpl. rewrite length_insert.
      simpl in Hm. destruct (decide (w' = w)) as [->|Hw'].
      * rewrite list_lookup_insert_eq in Hm by done. injection Hm as <-. rewrite lookup_insert_eq in Hv. injection Hv as <-.
        by rewrite length_insert.
      * rewrite list_lookup_insert_ne in Hm by done. destruct (Ht w' m v bs' Hm Hv) as (g2 & Hg2 & ->). congruence.
    + rewrite lookup_insert_ne by done. simpl in Hm. destruct (decide (w' = w)) as [->|Hw'].
      * rewrite list_lookup_insert_eq in Hm by done. injection Hm as <-. rewrite lookup_insert_ne in Hv by done.
        apply (Ht w (balances_of w s) v'); [by apply balances_of_lookup|done].
      * rewrite list_lookup_insert_ne in Hm by done. by apply (Ht w' m v').
  - unfold proj. rewrite Hb, Hset, bool_decide_eq_true_2 by done. f_equal.
    destruct ok; simpl; [|lia]. by rewrite holders_cons, bool_decide_eq_true_2 by done.
Qed.

Lemma TryAdmit_proj w v r g a config s :
  (w < length (lease_balances_ s))%nat -> tables_ok s -> generations s !! v = Some g ->
  admissions g !! r = Some a -> snapshot g = Some config ->
  exists a', touches v r (set_admission r a' g) s (TryAdmit w v r s).2 /\
    WorkerAdmission.TryAdmit w (workers config) (proj v r a s) = ((TryAdmit w v r s).1, proj v r a' (TryAdmit w v r s).2).
Proof.
  intros Hw Ht Hg Ha Hc. unfold TryAdmit, WorkerAdmission.TryAdmit. rewrite Hg, Ha, Hc. simpl.
  destruct (TryAcquireInflight a) as [ok a1]. destruct ok; simpl.
  2: { exists a. rewrite set_admission_same by done. split; [|done]. constructor; try done; [by rewrite insert_id|by right]. }
  set (bs := default (replicate (length (admissions g)) 0) (balances_of w s !! v)). set (bal := default 0 (bs !! r)).
  pose proof (lookup_lt_Some _ _ _ Ha) as Hr.
  assert (Hbal : forall a', WorkerAdmission.balance_of w (WorkerAdmission.mk a' (worker_balance v r <$> lease_balances_ s)
                   (count (v, r) (admitted s))) = bal).
  { intros a'. unfold WorkerAdmission.balance_of. simpl. rewrite list_lookup_fmap, balances_of_lookup by done. simpl.
    unfold bal, bs, worker_balance. destruct (balances_of w s !! v) as [bs'|]; [done|]. simpl.
    by rewrite lookup_replicate_2. }
  assert (Hbs : bs = default (replicate (length (admissions g)) 0) (balances_of w s !! v)) by done.
  unfold WorkerAdmission.with_admission, proj. simpl. rewrite Hbal.
  set (batch := LeaseBatch _ _ _).
  assert (Hwl : (w < length (worker_balance v r <$> lease_balances_ s))%nat) by (by rewrite length_fmap).
  destruct (wrap_u32 (bal * 2) <? batch) eqn:Elt.
  - unfold WorkerAdmission.return_balance, WorkerAdmission.draw_balance. simpl. rewrite Hbal.
    destruct (Draw batch (Return bal a1)) as [n a2]. rewrite list_insert_insert_eq.
    unfold WorkerAdmission.balance_of at 1. simpl. rewrite list_lookup_insert_eq by done. simpl.
    destruct (n =? 0) eqn:En.
    + apply Z.eqb_eq in En as ->. exists (ReleaseInflight a2).
      destruct (put_touches w v r g (ReleaseInflight a2) 0 bs s false) as [H1 H2]; try done.
      split; [exact H1|]. simpl in H2 |- *. unfold proj in H2. simpl in H2. rewrite H2. by rewrite Z.add_0_r.
    + exists a2. destruct (put_touches w v r g a2 (wrap_u32 (n - 1)) bs s true) as [H1 H2]; try done.
      split; [exact H1|]. unfold proj in H2. simpl in H2 |- *. rewrite H2. unfold WorkerAdmission.spend. simpl.
      unfold WorkerAdmission.balance_of. simpl. rewrite list_lookup_insert_eq by done. simpl. by rewrite list_insert_insert_eq.
  - rewrite Hbal. destruct (bal =? 0) eqn:En.
    + apply Z.eqb_eq in En. exists (ReleaseInflight a1).
      destruct (put_touches w v r g (ReleaseInflight a1) 0 bs s false) as [H1 H2]; try done.
      split; [exact H1|]. unfold proj in H2. simpl in H2 |- *. rewrite H2, Z.add_0_r. do 2 f_equal.
      symmetry. apply list_insert_id. rewrite list_lookup_fmap, balances_of_lookup by done. simpl. f_equal.
      specialize (Hbal a). unfold WorkerAdmission.balance_of in Hbal. simpl in Hbal.
      rewrite list_lookup_fmap, balances_of_lookup in Hbal by done. simpl in Hbal. congruence.
    + exists a1. destruct (put_touches w v r g a1 (wrap_u32 (bal - 1)) bs s true) as [H1 H2]; try done.
      split; [exact H1|]. unfold proj in H2. simpl in H2 |- *. rewrite H2. unfold WorkerAdmission.spend. simpl. by rewrite Hbal.
Qed.

(** ** Invariant *)

(** One route's accounts: [li] are the holders of its in-flight slots. *)
Record route_ok (v : Z) (r : nat) (t0 : Z) (route : Route) (a : GlobalAdmission.t) (li : list (Z * nat)) (s : sys) : Prop := {
  ro_budget : WorkerAdmission.within_budget t0 (proj v r a s);
  ro_rate : rate_ a = rate_limit route;
  ro_capacity : capacity_credit_ a = burst route * kCreditScale;
  ro_maximum : maximum (state_ a) = max_inflight route;
  ro_inflight : inflight (state_ a) = count (v, r) li;
  ro_limit : inflight (state_ a) <= maximum (state_ a)
}.

(** A generation's accounts: [ll] are the holders of its leases. *)
Definition gen_ok (v : Z) (g : generation) (ll li : list (Z * nat)) (s : sys) : Prop :=
  RuntimeGeneration.active_request_leases_ (lease g) = leases v ll /\
  exists config, snapshot g = Some config /\ usable config /\ length (admissions g) = length (routes config) /\
    forall r a, admissions g !! r = Some a ->
      exists route, routes config !! r = Some route /\ route_ok v r (created g) route a li s.

(** Holders refer to a generation and a route that exist. *)
Definition known (s : sys) (p : Z * nat) : Prop :=
  exists g, generations s !! p.1 = Some g /\ (p.2 < length (admissions g))%nat.

Record accounts (ll li : list (Z * nat)) (s : sys) : Prop := {
  a_gens : forall v g, generations s !! v = Some g -> gen_ok v g ll li s;
  a_tables : tables_ok s;
  a_leases : Forall (known s) ll;
  a_slots : Forall (known s) li;
  a_admitted : Forall (known s) (admitted s);
  a_few : Z.of_nat (length ll) < u64_modulus
}.

Lemma leases_le v l : 0 <= leases v l <= Z.of_nat (length l).
Proof. unfold leases. pose proof (List.filter_length_le (fun q => bool_decide (q.1 = v)) l). lia. Qed.

Lemma leases_cons v p l : leases v (p :: l) = leases v l + (if bool_decide (p.1 = v) then 1 else 0).
Proof. unfold leases. simpl. case_bool_decide; simpl; lia. Qed.

Lemma filter_perm (f : Z * nat -> bool) l k : l ≡ₚ k -> length (List.filter f l) = length (List.filter f k).
Proof. induction 1; simpl; repeat case_match; simpl; lia. Qed.

Lemma leases_perm v l k : l ≡ₚ k -> leases v l = leases v k.
Proof. intros H. unfold leases. by rewrite (filter_perm _ _ _ H). Qed.
Lemma count_perm p l k : l ≡ₚ k -> count p l = count p k.
Proof. intros H. unfold count. by rewrite (filter_perm _ _ _ H). Qed.

(** Replacing generation [v] keeps what is known. *)
Lemma known_insert v g g' s s' p :
  generations s !! v = Some g -> generations s' = <[v := g']> (generations s) ->
  length (admissions g') = length (admissions g) -> known s p -> known s' p.
Proof.
  destruct p as [v' r]. intros Hg Hs' Hlen (g0 & Hg0 & Hr). unfold known. rewrite Hs'. simpl in *.
  destruct (decide (v' = v)) as [->|Hne].
  - exists g'. rewrite lookup_insert_eq. split; [done|]. assert (g0 = g) as -> by congruence. by rewrite Hlen.
  - exists g0. by rewrite lookup_insert_ne.
Qed.

Lemma tables_insert v g g' s s' :
  generations s !! v = Some g -> generations s' = <[v := g']> (generations s) ->
  length (admissions g') = length (admissions g) -> lease_balances_ s' = lease_balances_ s -> tables_ok s -> tables_ok s'.
Proof.
  intros Hg Hs' Hlen Hb Ht w m v' bs Hm Hv. rewrite Hb in Hm. destruct (Ht w m v' bs Hm Hv) as (g0 & Hg0 & Hl).
  rewrite Hs'. destruct (decide (v' = v)) as [->|Hne].
  - exists g'. rewrite lookup_insert_eq. split; [done|]. congruence.
  - exists g0. by rewrite lookup_insert_ne.
Qed.

(** Only the lease object of generation [v] changes. *)
Lemma set_lease_accounts v g x ll ll' li s s' :
  accounts ll li s -> generations s !! v = Some g ->
  generations s' = <[v := set_lease x g]> (generations s) -> lease_balances_ s' = lease_balances_ s -> admitted s' = admitted s ->
  RuntimeGeneration.active_request_leases_ x = leases v ll' ->
  (forall v', v' <> v -> leases v' ll' = leases v' ll) ->
  Forall (known s) ll' -> Z.of_nat (length ll') < u64_modulus ->
  accounts ll' li s'.
Proof.
  intros [A1 A2 A3 A4 A5 A6] Hg Hs' Hb Ha Hx Hother Hk Hf.
  assert (Hkn : forall p, known s p -> known s' p) by (intros p; by apply (known_insert v g (set_lease x g))).
  assert (Hproj : forall v r a, proj v r a s' = proj v r a s) by (intros; unfold proj; by rewrite Hb, Ha).
  constructor.
  - intros v' g' Hg'. rewrite Hs' in Hg'.
    assert (Hold : forall g0 li0, (exists config, snapshot g0 = Some config /\ usable config /\ length (admissions g0) = length (routes config) /\
      forall r a, admissions g0 !! r = Some a -> exists route, routes config !! r = Some route /\ route_ok v' r (created g0) route a li0 s) ->
      exists config, snapshot g0 = Some config /\ usable config /\ length (admissions g0) = length (routes config) /\
      forall r a, admissions g0 !! r = Some a -> exists route, routes config !! r = Some route /\ route_ok v' r (created g0) route a li0 s').
    { intros g0 li0 (config & H1 & H2 & H3 & H4). exists config. split_and!; try done. intros r a Hr.
      destruct (H4 r a Hr) as (route & H5 & []). exists route. split; [done|]. constructor; try done. by rewrite Hproj. }
    destruct (decide (v' = v)) as [->|Hne].
    + rewrite lookup_insert_eq in Hg'. injection Hg' as <-. split; [done|]. apply (Hold g), (A1 v g Hg).
    + rewrite lookup_insert_ne in Hg' by done. destruct (A1 v' g' Hg') as [H1 H2]. split; [by rewrite Hother|]. by apply Hold.
  - by eapply tables_insert.
  - eapply Forall_impl; [exact Hk|done].
  - eapply Forall_impl; [exact A4|done].
  - rewrite Ha. eapply Forall_impl; [exact A5|done].
  - done.
Qed.

Lemma acquire_lease_accounts v r ll li s s' :
  accounts ll li s -> known s (v, r) -> Z.of_nat (length ll) + 1 < u64_modulus -> acquire_lease v s = Some s' ->
  accounts ((v, r) :: ll) li s' /\ log s' = log s /\ live s' = live s /\ lease_balances_ s' = lease_balances_ s.
Proof.
  intros Ha Hk Hf. unfold acquire_lease. destruct (generations s !! v) as [g|] eqn:Hg; simpl; [|done].
  unfold RuntimeGeneration.TryAcquireRequestLease. case_bool_decide; simpl; [|done]. intros [= <-]. split; [|done].
  pose proof (proj1 (a_gens _ _ _ Ha v g Hg)) as Hl. pose proof (leases_le v ll).
  eapply (set_lease_accounts v g _ ll _ li s); try done.
  - simpl. rewrite leases_cons, bool_decide_eq_true_2, Hl by done. apply wrap_u64_small. mlia.
  - intros v' Hne. rewrite leases_cons, bool_decide_eq_false_2 by (simpl; congruence). lia.
  - constructor; [done|]. apply Ha.
  - simpl. lia.
Qed.

Lemma release_lease_accounts v r ll ll' li s :
  accounts ll li s -> ll ≡ₚ (v, r) :: ll' ->
  exists s' ns, release_lease v s = Some s' /\ accounts ll' li s' /\ log s' = log s ++ [ENotices v ns] /\ live s' = live s /\
    lease_balances_ s' = lease_balances_ s /\ current_generation s' = current_generation s.
Proof.
  intros Ha Hp.
  assert (Hk : Forall (known s) ((v, r) :: ll')) by (rewrite <- Hp; apply Ha).
  apply Forall_cons in Hk as [(g & Hg & _) Hk]. simpl in Hg.
  pose proof (proj1 (a_gens _ _ _ Ha v g Hg)) as Hl. rewrite (leases_perm v _ _ Hp), leases_cons in Hl.
  rewrite bool_decide_eq_true_2 in Hl by done. pose proof (leases_le v ll') as Hle.
  pose proof (a_few _ _ _ Ha) as Hf. rewrite Hp in Hf. simpl in Hf.
  unfold release_lease. rewrite Hg. simpl.
  assert (exists x ns, RuntimeGeneration.ReleaseRequestLease (lease g) = Some (x, ns) /\
            RuntimeGeneration.active_request_leases_ x = leases v ll') as (x & ns & -> & Hx).
  { unfold RuntimeGeneration.ReleaseRequestLease. rewrite Hl.
    assert (Hw : wrap_u64 (leases v ll' + 1 - 1) = leases v ll') by (rewrite wrap_u64_small; mlia).
    destruct (Z.eqb_spec (leases v ll' + 1) 0); [lia|]. destruct (Z.eqb_spec (leases v ll' + 1) 1); [|do 2 eexists; split; [done|done]].
    unfold RuntimeGeneration.AdvanceIfReady. repeat (case_match; simplify_eq/=); do 2 eexists; (split; [done|done]). }
  simpl. do 2 eexists. split; [done|]. split; [|done].
  eapply (set_lease_accounts v g x ll ll' li s); try done.
  - intros v' Hne. rewrite (leases_perm v' _ _ Hp), leases_cons, bool_decide_eq_false_2 by (simpl; congruence). lia.
  - lia.
Qed.

(** The limits of a route never change. *)
Lemma steps_limits x y : rtc WorkerAdmission.step x y ->
  rate_ (WorkerAdmission.admission y) = rate_ (WorkerAdmission.admission x) /\
  capacity_credit_ (WorkerAdmission.admission y) = capacity_credit_ (WorkerAdmission.admission x) /\
  maximum (state_ (WorkerAdmission.admission y)) = maximum (state_ (WorkerAdmission.admission x)).
Proof.
  induction 1 as [|x y z Hxy _ (E1 & E2 & E3)]; [done|]. rewrite E1, E2, E3.
  destruct Hxy; simpl; unfold Refill, TryAcquireInflight, TryAcquire, acquire_attempt, ReleaseInflight, ReleaseOne, release_attempt,
    WorkerAdmission.draw_balance, Draw; repeat (case_match; simplify_eq/=); done.
Qed.

Lemma steps_budget t0 x y : rtc WorkerAdmission.step x y -> WorkerAdmission.within_budget t0 x -> WorkerAdmission.within_budget t0 y.
Proof. apply rtc_preserves. apply WorkerAdmission.step_within_budget. Qed.

(** The admissions of generation [v] change, and the holders of its slots. *)
Lemma change_accounts v g g' ll li li' s s' :
  accounts ll li s -> generations s !! v = Some g ->
  snapshot g' = snapshot g -> lease g' = lease g -> created g' = created g ->
  length (admissions g') = length (admissions g) -> generations s' = <[v := g']> (generations s) ->
  (forall v' r a, v' <> v -> proj v' r a s' = proj v' r a s /\ count (v', r) li' = count (v', r) li) ->
  (forall r a a' route, admissions g !! r = Some a -> admissions g' !! r = Some a' ->
     route_ok v r (created g) route a li s -> is_u32 (max_inflight route) -> route_ok v r (created g) route a' li' s') ->
  tables_ok s' -> Forall (known s) li' -> Forall (known s) (admitted s') -> accounts ll li' s'.
Proof.
  intros [A1 A2 A3 A4 A5 A6] Hg E1 E2 E3 E4 Hs' Hother Hroute Ht Hli Hadm.
  assert (Hkn : forall p, known s p -> known s' p) by (intros p; by apply (known_insert v g g')).
  constructor; try done; [|by eapply Forall_impl..].
  intros v' g0 Hg0. rewrite Hs' in Hg0. destruct (decide (v' = v)) as [->|Hne].
  - rewrite lookup_insert_eq in Hg0. injection Hg0 as <-. destruct (A1 v g Hg) as (H1 & config & H2 & H3 & H4 & H5).
    split; [by rewrite E2|]. exists config. split_and!; [by rewrite E1|done|by rewrite E4|].
    intros r a' Ha'. destruct (lookup_lt_is_Some_2 (admissions g) r) as [a Ha].
    { rewrite <- E4. by eapply lookup_lt_Some. }
    destruct (H5 r a Ha) as (route & H6 & H7). exists route. split; [done|]. rewrite E3. apply (Hroute r a a'); try done.
    pose proof (u_routes _ H3) as Hu. eapply Forall_lookup_1 in Hu; [|exact H6]. tauto.
  - rewrite lookup_insert_ne in Hg0 by done. destruct (A1 v' g0 Hg0) as (H1 & config & H2 & H3 & H4 & H5).
    split; [done|]. exists config. split_and!; try done. intros r a Ha. destruct (H5 r a Ha) as (route & H6 & []).
    exists route. split; [done|]. destruct (Hother v' r a Hne) as [Hp Hc]. constructor; try done; [by rewrite Hp|by rewrite Hc].
Qed.

Lemma TryAdmit_accounts w v r ll li s :
  (w < length (lease_balances_ s))%nat -> accounts ll li s -> known s (v, r) ->
  let ok := (TryAdmit w v r s).1 in let s' := (TryAdmit w v r s).2 in
  accounts ll (if ok then (v, r) :: li else li) s' /\ log s' = log s /\ live s' = live s /\ known s' (v, r) /\
  current_generation s' = current_generation s /\ length (lease_balances_ s') = length (lease_balances_ s) /\
  exists g a, generations s !! v = Some g /\ admissions g !! r = Some a /\
    ok = (inflight (state_ a) <? maximum (state_ a)) &&
         ((0 <? worker_balance v r (balances_of w s)) || (kCreditScale <=? credit_ a)).
Proof.
  intros Hw Ha (g & Hg & Hr). simpl in Hg, Hr. destruct (lookup_lt_is_Some_2 _ _ Hr) as [a Hadm].
  destruct (a_gens _ _ _ Ha v g Hg) as (Hl & config & Hc & Hu & Hlen & Hroutes).
  destruct (Hroutes r a Hadm) as (route & Hroute & [B1 B2 B3 B4 B5 B6]).
  pose proof (u_routes _ Hu) as Hus. eapply Forall_lookup_1 in Hus; [|exact Hroute].
  destruct (TryAdmit_proj w v r g a config s Hw (a_tables _ _ _ Ha) Hg Hadm Hc) as (a' & [T1 T2 T3 T4 T5 T8 T6 T7] & Hproj).
  assert (Hwl : (w < length (WorkerAdmission.balances (proj v r a s)))%nat) by (simpl; by rewrite length_fmap).
  destruct Hus as (U1 & U2 & U3 & U4).
  assert (Hpos : 0 <= count (v, r) li) by (unfold count; lia).
  pose proof (WorkerAdmission.TryAdmit_steps w (workers config) _ (proj1 B1) (u_workers _ Hu) Hwl) as Hsteps.
  destruct (WorkerAdmission.TryAdmit_effect w (workers config) _ (proj1 B1) (proj1 (u_workers _ Hu)) Hwl) as (F1 & F2 & F3);
    [simpl; lia|simpl; mlia|]. simpl in F1, F2, F3. rewrite Hproj in Hsteps, F1, F2, F3. simpl in Hsteps, F1, F2, F3.
  destruct (steps_limits _ _ Hsteps) as (L1 & L2 & L3). simpl in L1, L2, L3. simpl.
  set (ok := (TryAdmit w v r s).1) in *. set (s' := (TryAdmit w v r s).2) in *.
  assert (Hkn : known s (v, r)) by (by exists g).
  split.
  { eapply (change_accounts v g (set_admission r a' g) ll li _ s s'); try done.
    - simpl. by rewrite length_insert.
    - intros v' r' b Hne. rewrite T2 by congruence. split; [done|]. destruct ok; [|done].
      rewrite holders_cons, bool_decide_eq_false_2 by congruence. lia.
    - intros r' b b' route' Hb Hb' [C1 C2 C3 C4 C5 C6] _. simpl in Hb'. destruct (decide (r' = r)) as [->|Hne].
      + rewrite list_lookup_insert_eq in Hb' by done. injection Hb' as <-. assert (b = a) as -> by congruence.
        assert (Hin : inflight (state_ a') <= maximum (state_ a')).
        { rewrite F2, L3. destruct ok eqn:Eok; [|lia]. symmetry in F1. apply andb_true_iff in F1 as [F1 _].
          apply Z.ltb_lt in F1. lia. }
        constructor; try congruence; [by eapply steps_budget|]. rewrite F2, C5. destruct ok; [|done].
        rewrite holders_cons, bool_decide_eq_true_2 by done. lia.
      + rewrite list_lookup_insert_ne in Hb' by done. assert (b' = b) as -> by congruence.
        constructor; try done; [rewrite T2 by congruence; done|]. rewrite C5. destruct ok; [|done].
        rewrite holders_cons, bool_decide_eq_false_2 by congruence. lia.
    - pose proof (a_slots _ _ _ Ha). by destruct ok; [constructor|].
    - apply Forall_forall. intros x Hx. apply T8 in Hx as [->|Hx]; [done|].
      pose proof (a_admitted _ _ _ Ha) as Hf. rewrite Forall_forall in Hf. auto. }
  split_and!; try done.
  - exists (set_admission r a' g). simpl. rewrite T1, lookup_insert_eq, length_insert. done.
  - exists g, a. split_and!; try done. rewrite F1. do 2 f_equal. unfold WorkerAdmission.balance_of. simpl.
    by rewrite list_lookup_fmap, balances_of_lookup.
Qed.

Lemma release_inflight_accounts v r ll li li' s :
  accounts ll li s -> li ≡ₚ (v, r) :: li' ->
  accounts ll li' (release_inflight v r s) /\ log (release_inflight v r s) = log s /\ live (release_inflight v r s) = live s /\
  lease_balances_ (release_inflight v r s) = lease_balances_ s /\
  current_generation (release_inflight v r s) = current_generation s.
Proof.
  intros Ha Hp.
  assert (Hk : Forall (known s) ((v, r) :: li')) by (rewrite <- Hp; apply Ha).
  apply Forall_cons in Hk as [(g & Hg & Hr) Hk]. simpl in Hg, Hr. destruct (lookup_lt_is_Some_2 _ _ Hr) as [a Hadm].
  unfold release_inflight. rewrite Hg, Hadm. split; [|done].
  assert (Hcount : forall p, count p li = count p li' + if bool_decide ((v, r) = p) then 1 else 0).
  { intros p. by rewrite (count_perm p _ _ Hp), holders_cons. }
  eapply (change_accounts v g (set_admission r (ReleaseInflight a) g) ll li li' s); try done.
  - simpl. by rewrite length_insert.
  - intros v' r' b Hne. split; [done|]. rewrite Hcount, bool_decide_eq_false_2 by congruence. lia.
  - intros r' b b' route Hb Hb' [C1 C2 C3 C4 C5 C6] Hu. simpl in Hb'. destruct (decide (r' = r)) as [->|Hne].
    + rewrite list_lookup_insert_eq in Hb' by done. injection Hb' as <-. assert (b = a) as -> by congruence.
      rewrite Hcount, bool_decide_eq_true_2 in C5 by done. assert (0 <= count (v, r) li') by (unfold count; lia).
      assert (Hi : inflight (state_ (ReleaseInflight a)) = count (v, r) li').
      { unfold ReleaseInflight, ReleaseOne, release_attempt. simpl.
        destruct (Z.eqb_spec (inflight (state_ a)) 0); [lia|]. simpl. rewrite ?wrap_u32_small; mlia. }
      assert (Hm : maximum (state_ (ReleaseInflight a)) = maximum (state_ a)).
      { unfold ReleaseInflight, ReleaseOne, release_attempt. simpl. by destruct (_ =? _). }
      constructor; try done; [|congruence|lia].
      eapply WorkerAdmission.step_within_budget; [exact C1|]. apply (WorkerAdmission.step_release (proj v r a s)).
    + rewrite list_lookup_insert_ne in Hb' by done. assert (b' = b) as -> by congruence. constructor; try done.
      rewrite C5, Hcount, bool_decide_eq_false_2 by congruence. lia.
  - eapply tables_insert; [exact Hg|reflexivity|simpl; by rewrite length_insert|done|apply Ha].
  - apply Ha.
Qed.

Lemma accounts_ext ll li s s' :
  generations s' = generations s -> lease_balances_ s' = lease_balances_ s -> admitted s' = admitted s ->
  accounts ll li s -> accounts ll li s'.
Proof.
  intros E1 E2 E3 [A1 A2 A3 A4 A5 A6].
  assert (Hproj : forall v r a, proj v r a s' = proj v r a s) by (intros; unfold proj; by rewrite E2, E3).
  assert (Hkn : forall p, known s p -> known s' p) by (intros p; unfold known; by rewrite E1).
  constructor; try (by eapply Forall_impl); try done.
  - intros v g Hg. rewrite E1 in Hg. destruct (A1 v g Hg) as (H1 & config & H2 & H3 & H4 & H5). split; [done|].
    exists config. split_and!; try done. intros r a Ha. destruct (H5 r a Ha) as (route & H6 & []). exists route.
    split; [done|]. constructor; try done. by rewrite Hproj.
  - intros w m v bs Hm Hv. rewrite E2 in Hm. rewrite E1. by eapply A2.
  - rewrite E3. by eapply Forall_impl.
Qed.

(** ** What becomes of a request *)

(** [Silent]: the client gets nothing; [Escaped]: so, and the callback throws. *)
Inductive verdict := Answered (status : Z) | Forwarded (v : Z) (route : nat) | Aborted | Silent | Escaped.

(** A slot is free, and a token is leased or in the pool. *)
Definition admissible (w : nat) (v : Z) (r : nat) (g : generation) (s : sys) : bool :=
  match admissions g !! r with
  | Some a => (inflight (state_ a) <? maximum (state_ a)) &&
              ((0 <? worker_balance v r (balances_of w s)) || (kCreditScale <=? credit_ a))
  | None => false
  end.

(** An answer whose logic and system errors are dropped; [None]: the request
    fails with another exception. *)
Definition replied (env : surroundings) (status : Z) : option verdict :=
  match answer_throws env with
  | None => Some (Answered status)
  | Some other_exception => None
  | Some _ => Some Silent
  end.

(** An answer all of whose errors are dropped, the recording's too. *)
Definition offered (env : surroundings) (status : Z) : verdict :=
  match answer_throws env, records env with None, true => Answered status | _, _ => Silent end.

(** What [HandleRequest] comes to; [None]: it fails. *)
Definition decided (w : nat) (env : surroundings) (request : HttpRequest) (s : sys) : option verdict :=
  if is_metrics request then
    match metrics_renderer env with
    | inl _ => replied env 200
    | inr other_exception => None
    | inr _ => Some Silent
    end
  else match serving w s with
  | None => Some (offered env 503)
  | Some (v, g, config) =>
      match RouteTable.Match config (Header (lit "host") request) (target request) with
      | None => replied env 404
      | Some r =>
          if negb (bool_decide (RuntimeGeneration.retirement_state_ (lease g) = RuntimeGeneration.kActive)) then Some (offered env 503)
          else if negb (admissible w v r g s) then replied env 429
          else if starts env then Some (Forwarded v r) else None
      end
  end.

(** A request that fails is answered 500; a connection that refuses is aborted. *)
Definition verdict_of (w : nat) (env : surroundings) (request : HttpRequest) (s : sys) : verdict :=
  match decided w env request s with
  | Some d => d
  | None => match error_throws env with
            | None => Answered 500
            | Some other_exception => Escaped
            | Some _ => Aborted
            end
  end.

(** How the effects end the request. *)
Definition verdict_in (e : effect) : option verdict :=
  match e with
  | ESend response => Some (Answered (HttpResponse.status response))
  | EStart v r _ _ _ => Some (Forwarded v r)
  | EAbort => Some Aborted
  | _ => None
  end.

(** What the client gets. *)
Definition delivered (d : verdict) : list verdict :=
  match d with Silent | Escaped => [] | _ => [d] end.

(** What is in progress afterwards. *)
Definition live_after (d : verdict) (l : list (Z * nat)) : list (Z * nat) :=
  match d with Forwarded v r => (v, r) :: l | _ => l end.

(** The request came to [d]. *)
Definition settled (d : verdict) (s s' : sys) : Prop :=
  accounts (live_after d (live s)) (live_after d (live s)) s' /\ live s' = live_after d (live s) /\
  length (lease_balances_ s') = length (lease_balances_ s) /\
  exists es, log s' = log s ++ es /\ omap verdict_in es = delivered d.

(** A computation that only logs, with what it says to the client. *)
Definition says (m : M sys unit) (d : option verdict) : Prop :=
  match d with None | Some (Answered _) | Some Silent => True | _ => False end /\
  exists es, omap verdict_in es = from_option delivered [] d /\
    forall s, m s = (let s' := fold_left (fun s e => with_log e s) es s in match d with Some _ => Ret tt s' | None => Throw s' end).

Lemma offered_says env route status limited reason text :
  says (catch (RecordImmediate env (ERecord route status limited reason);;
               SendResponse (answer_throws env) (plain status text)) (ret tt)) (Some (offered env status)).
Proof.
  unfold says, offered, RecordImmediate, SendResponse. destruct (records env), (answer_throws env); (split; [exact I|]).
  - exists [ERecord route status limited reason]. done.
  - exists [ERecord route status limited reason; ESend (plain status text)]. done.
  - by exists [].
  - by exists [].
Qed.

Lemma answer_says env response :
  says (answer env response) (replied env (HttpResponse.status response)).
Proof.
  unfold says, replied, answer, catch_std, SendResponse.
  destruct (answer_throws env) as [[]|]; (split; [exact I|]); [by exists []..|]. by exists [ESend response].
Qed.

Lemma recorded_says env route status limited reason m d :
  says m d -> says (catch (RecordImmediate env (ERecord route status limited reason)) (ret tt);; m) d.
Proof.
  intros [Hd (es & Hes & Hm)]. unfold RecordImmediate. split; [done|]. destruct (records env).
  - exists (ERecord route status limited reason :: es). split; [done|]. intros s. apply Hm.
  - by exists es.
Qed.

Lemma logged_facts es s :
  let s' := fold_left (fun s e => with_log e s) es s in
  generations s' = generations s /\ current_generation s' = current_generation s /\
  lease_balances_ s' = lease_balances_ s /\ live s' = live s /\ admitted s' = admitted s /\ log s' = log s ++ es.
Proof.
  revert s. induction es as [|e es IH]; intros s; simpl; [by rewrite app_nil_r|].
  destruct (IH (with_log e s)) as (-> & -> & -> & -> & -> & ->). simpl. by rewrite <- app_assoc.
Qed.

Lemma logged_accounts l l' es s :
  accounts l l' s -> accounts l l' (fold_left (fun s e => with_log e s) es s).
Proof. intros Ha. destruct (logged_facts es s) as (E1 & E2 & E3 & E4 & E5 & E6). by eapply accounts_ext; [..|exact Ha]. Qed.

Lemma Match_lookup config host target r :
  RouteTable.Match config host target = Some r -> is_Some (routes config !! r).
Proof.
  unfold RouteTable.Match. destruct (RouteTable.IsOriginForm target); simpl; [|done]. intros Hm.
  destruct (RouteTable.match_loop_best host (RouteTable.PathOnly target) (routes config) [] None 0) as [size Hb];
    [by constructor|]. simpl in Hb. rewrite Hm in Hb. destruct Hb as [(route & Hr & _) _]. eauto.
Qed.

(** A request that fails has sent nothing. *)
Definition handled (w : nat) (env : surroundings) (request : HttpRequest) (s : sys) (o : result sys unit) : Prop :=
  match o, decided w env request s with
  | Ret _ s', Some d => settled d s s' /\ d <> Escaped
  | Throw s', None => settled Silent s s'
  | _, _ => False
  end.

Lemma says_handled w env request m s :
  accounts (live s) (live s) s -> says m (decided w env request s) -> handled w env request s (m s).
Proof.
  intros Ha [Hd (es & Hes & ->)]. destruct (logged_facts es s) as (E1 & E2 & E3 & E4 & E5 & E6).
  pose proof (logged_accounts _ _ es _ Ha) as Hac. unfold handled. set (s' := fold_left _ _ _) in *. cbv zeta.
  destruct (decided w env request s) as [[]|]; try done; unfold settled; simpl in *; rewrite E3, E4, E6; split_and!; eauto.
Qed.

(** The part of [HandleRequest] behind the lease. *)
Lemma admitted_handled w env request v g config r route s s1 :
  is_metrics request = false -> serving w s = Some (v, g, config) ->
  RouteTable.Match config (Header (lit "host") request) (target request) = Some r -> routes config !! r = Some route ->
  (w < length (lease_balances_ s))%nat -> Z.of_nat (length (live s)) + 1 < u64_modulus -> accounts (live s) (live s) s ->
  generations s !! v = Some g -> snapshot g = Some config -> acquire_lease v s = Some s1 ->
  handled w env request s (HandleRequest w env request s).
Proof.
  intros Hm Hsv Hma Hro Hw Hfew Ha Hg Hc Hl.
  destruct (a_gens _ _ _ Ha v g Hg) as (Hlg & config' & Hc' & Hu & Hlen & Hroutes). assert (config' = config) as -> by congruence.
  pose proof (lookup_lt_Some _ _ _ Hro) as Hlt.
  assert (Hk : known s (v, r)) by (exists g; simpl; rewrite Hlen; done).
  destruct (acquire_lease_accounts v r _ _ _ _ Ha Hk Hfew Hl) as (Ha1 & E1 & E2 & E3).
  assert (Hg1 : generations s1 !! v = Some (set_lease (RuntimeGeneration.set_leases
            (wrap_u64 (RuntimeGeneration.active_request_leases_ (lease g) + 1)) (lease g)) g) /\
          RuntimeGeneration.retirement_state_ (lease g) = RuntimeGeneration.kActive).
  { unfold acquire_lease in Hl. rewrite Hg in Hl. simpl in Hl. unfold RuntimeGeneration.TryAcquireRequestLease in Hl.
    case_bool_decide; [|done]. injection Hl as <-. simpl. by rewrite lookup_insert_eq. }
  destruct Hg1 as [Hg1 Hact].
  assert (Hk1 : known s1 (v, r)) by (eexists; simpl; split; [exact Hg1|]; simpl; by rewrite Hlen).
  destruct (TryAdmit_accounts w v r _ _ s1 ltac:(by rewrite E3) Ha1 Hk1) as (Ha2 & F1 & F2 & F3 & F4 & F5 & g' & a & Hg' & Hadm & Hok).
  rewrite Hg1 in Hg'. injection Hg' as <-. simpl in Hadm.
  assert (Hbal : balances_of w s1 = balances_of w s) by (unfold balances_of; by rewrite E3). rewrite Hbal in Hok.
  unfold handled, decided. rewrite Hm, Hsv, Hma, bool_decide_eq_true_2 by done. unfold admissible. rewrite Hadm, <- Hok.
  unfold HandleRequest. rewrite Hm. unfold bind at 1, gets. rewrite Hsv, Hma, Hro, Hl.
  destruct (TryAdmit w v r s1) as [ok s2] eqn:Et. simpl in *. unfold bind at 1, modify. simpl. destruct ok; simpl.
  2: { (* refused: the lease goes back *)
    unfold finally.
    destruct (recorded_says env (rt_name route) 429 true [] _ _ (answer_says env (plain 429 (lit "Too Many Requests"))))
      as [Hd (es & Hes & ->)]. simpl HttpResponse.status in *. set (d := replied env 429) in *.
    destruct (logged_facts es s2) as (L1 & L2 & L3 & L4 & L5 & L6).
    pose proof (logged_accounts _ _ es _ Ha2) as Ha3. set (s3 := fold_left _ es s2) in *.
    destruct (release_lease_accounts v r _ (live s) _ s3 Ha3 ltac:(done)) as (s4 & ns & Hr4 & Ha4 & G1 & G2 & G3 & G4).
    assert (Hset : settled (default Silent d) s s4).
    { assert (Hla : live_after (default Silent d) (live s) = live s) by (by destruct d as [[]|]).
      unfold settled. rewrite Hla, G3, L3, F5, E3, G2, L4, F2, E2, G1, L6, F1, E1. split_and!; try done.
      eexists. rewrite <- app_assoc. split; [done|]. rewrite omap_app, Hes. simpl. destruct d as [[]|]; done. }
    unfold bind, or_terminate. destruct d as [[]|]; try done; cbv zeta iota; rewrite Hr4; done. }
  destruct (rt_endpoints route !! 0%nat) as [endpoint|] eqn:He.
  2: { pose proof (u_routes _ Hu) as Hus. eapply Forall_lookup_1 in Hus; [|exact Hro]. by destruct (rt_endpoints route), Hus as (_ & _ & _ & []). }
  destruct (starts env); simpl.
  - unfold bind, emit, modify, settled. simpl. rewrite F2, E2, F5, E3, F1, E1.
    split; [|done]. split; [by eapply accounts_ext; [..|exact Ha2]|]. split_and!; try done. by eexists.
  - unfold bind at 1, modify.
    destruct (release_inflight_accounts v r _ _ (live s) s2 Ha2 ltac:(done)) as (Ha3 & G1 & G2 & G3 & G4).
    destruct (release_lease_accounts v r _ (live s) _ _ Ha3 ltac:(done)) as (s4 & ns & Hr4 & Ha4 & K1 & K2 & K3 & K4).
    unfold bind, or_terminate. rewrite Hr4. simpl. unfold settled. simpl.
    rewrite K3, G3, F5, E3, K2, G2, F2, E2, K1, G1, F1, E1. split_and!; try done. by eexists.
Qed.

Lemma HandleRequest_handled w env request s :
  (w < length (lease_balances_ s))%nat -> Z.of_nat (length (live s)) + 1 < u64_modulus -> accounts (live s) (live s) s ->
  handled w env request s (HandleRequest w env request s).
Proof.
  intros Hw Hfew Ha. destruct (is_metrics request) eqn:Hm.
  { apply says_handled; [done|]. unfold HandleRequest, decided. rewrite Hm. destruct (metrics_renderer env) as [text|[]].
    - apply answer_says.
    - split; [exact I|]. by exists [].
    - split; [exact I|]. by exists [].
    - split; [exact I|]. by exists []. }
  destruct (serving w s) as [[[v g] config]|] eqn:Hsv.
  2: { assert (Ed : decided w env request s = Some (offered env 503)) by (unfold decided; by rewrite Hm, Hsv).
    unfold HandleRequest. rewrite Hm. unfold bind at 1, gets. rewrite Hsv.
    apply says_handled; [done|]. rewrite Ed. apply offered_says. }
  assert (Hgc : generations s !! v = Some g /\ snapshot g = Some config).
  { unfold serving in Hsv. destruct (current_generation s) as [v0|]; simpl in Hsv; [|done].
    destruct (generations s !! v0) as [g0|] eqn:E; simpl in Hsv; [|done]. destruct (snapshot g0) as [c0|] eqn:E0; simpl in Hsv; [|done].
    case_bool_decide; [done|]. by injection Hsv as <- <- <-. }
  destruct Hgc as [Hg Hc].
  destruct (RouteTable.Match config (Header (lit "host") request) (target request)) as [r|] eqn:Hma.
  2: { assert (Ed : decided w env request s = replied env 404) by (unfold decided; by rewrite Hm, Hsv, Hma).
    unfold HandleRequest. rewrite Hm. unfold bind at 1, gets. rewrite Hsv, Hma.
    apply says_handled; [done|]. rewrite Ed. apply recorded_says, (answer_says env (plain 404 _)). }
  destruct (Match_lookup _ _ _ _ Hma) as [route Hro].
  destruct (acquire_lease v s) as [s1|] eqn:Hl; [by eapply admitted_handled|].
  assert (Ed : decided w env request s = Some (offered env 503)).
  { unfold decided. rewrite Hm, Hsv, Hma, bool_decide_eq_false_2; [done|].
    intros E. unfold acquire_lease in Hl. rewrite Hg in Hl. simpl in Hl. unfold RuntimeGeneration.TryAcquireRequestLease in Hl.
    by rewrite bool_decide_eq_true_2 in Hl. }
  unfold HandleRequest. rewrite Hm. unfold bind at 1, gets. rewrite Hsv, Hma, Hro, Hl.
  apply says_handled; [done|]. rewrite Ed. apply offered_says.
Qed.

(** How the callback is left. *)
Definition left_with (d : verdict) (s : sys) : result sys unit :=
  match d with Escaped => Throw s | _ => Ret tt s end.

Lemma on_request_spec w env request s :
  (w < length (lease_balances_ s))%nat -> Z.of_nat (length (live s)) + 1 < u64_modulus -> accounts (live s) (live s) s ->
  exists s', on_request w env request s = left_with (verdict_of w env request s) s' /\
    settled (verdict_of w env request s) s s'.
Proof.
  intros Hw Hfew Ha. pose proof (HandleRequest_handled w env request s Hw Hfew Ha) as Hh.
  unfold on_request, catch at 1, verdict_of. unfold handled in Hh.
  destruct (HandleRequest w env request s) as [[] s1|s1| |], (decided w env request s) as [d|]; try done.
  - exists s1. destruct Hh as [Hh Hd]. split; [|done]. by destruct d.
  - destruct Hh as (H1 & H2 & H3 & es & H4 & H5). unfold catch_std, SendResponse.
    set (record := if records env then [ERecord (lit "_internal_error") 500 false []] else []).
    set (s2 := fold_left (fun s e => with_log e s) record s1).
    assert (Er : catch (RecordImmediate env (ERecord (lit "_internal_error") 500 false [])) (ret tt) s1 = Ret tt s2)
      by (unfold RecordImmediate, s2, record; by destruct (records env)).
    unfold bind. rewrite Er. clear Er.
    assert (Hlast : forall d last, live_after d (live s) = live s -> omap verdict_in last = delivered d ->
      settled d s (fold_left (fun s e => with_log e s) last s2)).
    { intros d last Hl Hd. unfold settled. unfold s2. rewrite <- fold_left_app, Hl.
      destruct (logged_facts (record ++ last) s1) as (_ & _ & L3 & L4 & _ & L6). rewrite L3, L4, L6, H2, H3, H4.
      split_and!; [by apply logged_accounts|done|done|]. eexists. rewrite <- app_assoc. split; [done|].
      rewrite !omap_app, H5, Hd. simpl. unfold record. by destruct (records env). }
    destruct (error_throws env) as [[]|]; simpl; eexists;
      (split; [reflexivity|]); [by apply (Hlast Aborted [EAbort])..|by apply (Hlast Escaped [])|by apply (Hlast (Answered 500) [ESend _])].
Qed.

(** ** The other steps *)

Lemma finish_accounts i s : accounts (live s) (live s) s -> (i < length (live s))%nat ->
  exists s', finish i s = Some s' /\ accounts (live s') (live s') s' /\ live s' = delete i (live s) /\
    length (lease_balances_ s') = length (lease_balances_ s).
Proof.
  intros Ha Hi. destruct (lookup_lt_is_Some_2 _ _ Hi) as [[v r] Hx]. unfold finish. rewrite Hx. simpl.
  pose proof (delete_Permutation _ _ _ Hx) as Hp. set (l := delete i (live s)) in *.
  assert (Ha0 : accounts (live s) (live s) (with_live l s)) by (by eapply accounts_ext; [..|exact Ha]).
  destruct (release_inflight_accounts v r _ _ l _ Ha0 Hp) as (Ha1 & E1 & E2 & E3 & E4).
  destruct (release_lease_accounts v r _ l _ _ Ha1 Hp) as (s2 & ns & -> & Ha2 & F1 & F2 & F3 & F4).
  exists s2. rewrite F2, E2, F3, E3. simpl. done.
Qed.

(** Every generation keeps its snapshot, lease and routes. *)
Lemma accounts_mono ll li s s' :
  accounts ll li s ->
  (forall v g', generations s' !! v = Some g' -> exists g, generations s !! v = Some g /\
     snapshot g' = snapshot g /\ lease g' = lease g /\ created g' = created g /\ length (admissions g') = length (admissions g) /\
     forall r a a' route, admissions g !! r = Some a -> admissions g' !! r = Some a' ->
       route_ok v r (created g) route a li s -> route_ok v r (created g) route a' li s') ->
  (forall v g, generations s !! v = Some g -> is_Some (generations s' !! v)) ->
  tables_ok s' -> admitted s' = admitted s -> accounts ll li s'.
Proof.
  intros [A1 A2 A3 A4 A5 A6] Hgens Hdom Ht Hadm.
  assert (Hkn : forall p, known s p -> known s' p).
  { intros p (g & Hg & Hr). destruct (Hdom _ _ Hg) as [g' Hg']. exists g'. split; [done|].
    destruct (Hgens _ _ Hg') as (g0 & Hg0 & _ & _ & _ & Hlen & _). rewrite Hlen. by assert (g0 = g) as -> by congruence. }
  rewrite <- Hadm in A5. constructor; try done; try (by eapply Forall_impl). intros v g' Hg'. destruct (Hgens _ _ Hg') as (g & Hg & E1 & E2 & E3 & E4 & Hr).
  destruct (A1 v g Hg) as (H1 & config & H2 & H3 & H4 & H5). split; [by rewrite E2|]. exists config.
  split_and!; [by rewrite E1|done|by rewrite E4|]. intros r a' Ha'.
  destruct (lookup_lt_is_Some_2 (admissions g) r) as [a Ha]; [rewrite <- E4; by eapply lookup_lt_Some|].
  destruct (H5 r a Ha) as (route & H6 & H7). exists route. split; [done|]. rewrite E3. by eapply Hr.
Qed.

(** One atomic step of a route's admission that leaves the slots alone. *)
Lemma step_route_ok v r t0 route a a' li s s' :
  route_ok v r t0 route a li s -> WorkerAdmission.step (proj v r a s) (proj v r a' s') ->
  inflight (state_ a') = inflight (state_ a) -> route_ok v r t0 route a' li s'.
Proof.
  intros [C1 C2 C3 C4 C5 C6] Hs Hi. destruct (steps_limits _ _ (rtc_once _ _ Hs)) as (L1 & L2 & L3). simpl in *.
  constructor; try congruence. by eapply WorkerAdmission.step_within_budget.
Qed.

Lemma refill_accounts v now ll li s : accounts ll li s -> accounts ll li (refill v now s).
Proof.
  intros Ha. unfold refill. destruct (generations s !! v) as [g|] eqn:Hg; [|done].
  match goal with |- accounts _ _ (with_generation _ ?x _) => set (g' := x) end.
  eapply (change_accounts v g g' ll li li s); try done; simpl.
  - by rewrite length_fmap.
  - intros r a a' route Hx Hx' Hro _. rewrite list_lookup_fmap, Hx in Hx'. injection Hx' as <-.
    eapply step_route_ok; [exact Hro|apply (WorkerAdmission.step_refill (proj v r a s))|].
    unfold Refill. by case_match.
  - eapply tables_insert; [exact Hg|reflexivity|simpl; by rewrite length_fmap|done|apply Ha].
  - apply Ha.
  - apply Ha.
Qed.

Lemma retire_accounts v f ll li s :
  (forall x, RuntimeGeneration.active_request_leases_ (f x) = RuntimeGeneration.active_request_leases_ x) ->
  accounts ll li s -> accounts ll li (retire v f s).
Proof.
  intros Hf Ha. unfold retire. destruct (generations s !! v) as [g|] eqn:Hg; [|done].
  eapply (set_lease_accounts v g); try done.
  - rewrite Hf. apply (a_gens _ _ _ Ha v g Hg).
  - apply Ha.
  - apply Ha.
Qed.

(** *** Returning leases *)

Lemma return_admissions_lookup bs l r a : length bs = length l -> l !! r = Some a ->
  exists b, bs !! r = Some b /\ return_admissions bs l !! r = Some (Return b a).
Proof.
  intros Hlen Ha. unfold return_admissions. rewrite Hlen, drop_all, app_nil_r.
  destruct (lookup_lt_is_Some_2 bs r) as [b Hb]; [rewrite Hlen; by eapply lookup_lt_Some|].
  exists b. split; [done|]. by rewrite lookup_zip_with, Hb, Ha.
Qed.

Lemma return_admissions_length bs l : length bs = length l -> length (return_admissions bs l) = length l.
Proof. intros Hlen. unfold return_admissions. rewrite length_app, length_zip_with, length_drop. lia. Qed.

(** Worker [w] hands back its balance of [(v, r)]. *)
Lemma return_proj w v r a b m bs s s' :
  (w < length (lease_balances_ s))%nat -> balances_of w s !! v = Some bs -> bs !! r = Some b ->
  lease_balances_ s' = <[w := m]> (lease_balances_ s) -> worker_balance v r m = 0 -> admitted s' = admitted s ->
  WorkerAdmission.step (proj v r a s) (proj v r (Return b a) s').
Proof.
  intros Hw Hbs Hb Hs' Hm Hadm.
  replace (proj v r (Return b a) s') with (WorkerAdmission.return_balance w (proj v r a s)).
  { apply WorkerAdmission.step_return. }
  unfold proj, WorkerAdmission.return_balance, WorkerAdmission.balance_of. simpl.
  rewrite Hs', Hadm, list_fmap_insert, Hm, list_lookup_fmap, balances_of_lookup by done. simpl.
  unfold worker_balance at 1. by rewrite Hbs; simpl; rewrite Hb.
Qed.

(** Nothing changes for a generation of which the worker holds nothing. *)
Lemma keep_proj w v r a m s s' :
  (w < length (lease_balances_ s))%nat -> lease_balances_ s' = <[w := m]> (lease_balances_ s) ->
  worker_balance v r m = worker_balance v r (balances_of w s) -> admitted s' = admitted s -> proj v r a s' = proj v r a s.
Proof.
  intros Hw Hs' Hm Hadm. unfold proj. rewrite Hs', Hadm, list_fmap_insert, Hm. f_equal. apply list_insert_id.
  by rewrite list_lookup_fmap, balances_of_lookup.
Qed.

Lemma ReturnGenerationLeaseBalance_accounts w v ll li s :
  accounts ll li s -> accounts ll li (ReturnGenerationLeaseBalance w v s).
Proof.
  intros Ha. unfold ReturnGenerationLeaseBalance. destruct (balances_of w s !! v) as [bs|] eqn:Hbs; [|done].
  destruct (generations s !! v) as [g|] eqn:Hg; [|done].
  assert (Hw : (w < length (lease_balances_ s))%nat).
  { unfold balances_of in Hbs. destruct (lease_balances_ s !! w) eqn:E; [by eapply lookup_lt_Some|]. simpl in Hbs. by rewrite lookup_empty in Hbs. }
  destruct (a_tables _ _ _ Ha w _ v bs (balances_of_lookup _ _ Hw) Hbs) as (g0 & Hg0 & Hlen). assert (g0 = g) as -> by congruence.
  match goal with |- accounts _ _ ?x => set (s' := x) end.
  pose (g' := mkGeneration (snapshot g) (lease g) (return_admissions bs (admissions g)) (selection_states g) (created g)).
  assert (Hg' : generations s' = <[v := g']> (generations s)) by done.
  assert (Hb' : lease_balances_ s' = <[w := delete v (balances_of w s)]> (lease_balances_ s)) by done.
  eapply (change_accounts v g g' ll li li s s' Ha Hg eq_refl eq_refl eq_refl (return_admissions_length _ _ Hlen) Hg'); try done; simpl.
  - intros v' r a Hne. split; [|done]. eapply keep_proj; try done. unfold worker_balance. by rewrite lookup_delete_ne.
  - intros r a a' route Hx Hx' Hro _. destruct (return_admissions_lookup bs _ r a Hlen Hx) as (b & Hb & Hr').
    rewrite Hr' in Hx'. injection Hx' as <-. eapply step_route_ok; [exact Hro| |done].
    eapply return_proj; [done|exact Hbs|exact Hb|exact Hb'| |done]. unfold worker_balance. by rewrite lookup_delete_eq.
  - intros w' m v' bs' Hm Hv. rewrite Hg'. rewrite Hb' in Hm.
    assert (Hold : exists m0, lease_balances_ s !! w' = Some m0 /\ m0 !! v' = Some bs').
    { destruct (decide (w' = w)) as [->|Hne].
      - rewrite list_lookup_insert_eq in Hm by done. injection Hm as <-. exists (balances_of w s).
        split; [by apply balances_of_lookup|]. by apply lookup_delete_Some in Hv as [_ ?].
      - rewrite list_lookup_insert_ne in Hm by done. by exists m. }
    destruct Hold as (m0 & Hm0 & Hv0). destruct (a_tables _ _ _ Ha _ _ _ _ Hm0 Hv0) as (g1 & Hg1 & Hl1).
    destruct (decide (v' = v)) as [->|Hne].
    + rewrite lookup_insert_eq. eexists. split; [done|]. simpl. rewrite return_admissions_length by done. congruence.
    + rewrite lookup_insert_ne by done. eauto.
  - apply Ha.
  - apply Ha.
Qed.

Lemma Shutdown_accounts w ll li s :
  (w < length (lease_balances_ s))%nat -> accounts ll li s -> accounts ll li (Shutdown w s).
Proof.
  intros Hw Ha.
  assert (Hlen : forall v g bs, generations s !! v = Some g -> balances_of w s !! v = Some bs -> length bs = length (admissions g)).
  { intros v g bs Hg Hbs. destruct (a_tables _ _ _ Ha w _ v bs (balances_of_lookup _ _ Hw) Hbs) as (g0 & Hg0 & ->). congruence. }
  assert (Hb' : lease_balances_ (Shutdown w s) = <[w := (fun bs => replicate (length bs) 0) <$> balances_of w s]> (lease_balances_ s)) by done.
  assert (Hgen : forall v, generations (Shutdown w s) !! v = (fun g => match balances_of w s !! v with
           | Some bs => mkGeneration (snapshot g) (lease g) (return_admissions bs (admissions g)) (selection_states g) (created g)
           | None => g end) <$> generations s !! v).
  { intros v. simpl. rewrite map_lookup_imap. by destruct (generations s !! v). }
  assert (Hzero : forall v r bs, balances_of w s !! v = Some bs ->
            worker_balance v r ((fun bs => replicate (length bs) 0) <$> balances_of w s) = 0).
  { intros v r bs Hbs. unfold worker_balance. rewrite lookup_fmap, Hbs. simpl.
    destruct (replicate (length bs) 0 !! r) eqn:E; [|done]. simpl. by apply lookup_replicate in E as [-> _]. }
  eapply (accounts_mono ll li s); try done.
  - intros v g' Hg'. rewrite Hgen in Hg'. destruct (generations s !! v) as [g|] eqn:Hg; [|done]. injection Hg' as <-.
    exists g. split; [done|]. destruct (balances_of w s !! v) as [bs|] eqn:Hbs.
    + simpl. split_and!; try done; [by apply return_admissions_length, (Hlen v g)|]. intros r a a' route Hx Hx' Hro.
      destruct (return_admissions_lookup bs _ r a (Hlen v g bs Hg Hbs) Hx) as (b & Hb & Hr').
      rewrite Hr' in Hx'. injection Hx' as <-. eapply step_route_ok; [exact Hro| |done].
      eapply return_proj; [done|exact Hbs|exact Hb|exact Hb'|by eapply Hzero|done].
    + split_and!; try done. intros r a a' route Hx Hx' [C1 C2 C3 C4 C5 C6]. assert (a' = a) as -> by congruence.
      constructor; try done. erewrite keep_proj; [exact C1|done|exact Hb'| |done].
      unfold worker_balance. by rewrite lookup_fmap, Hbs.
  - intros v g Hg. rewrite Hgen, Hg. by eexists.
  - intros w' m v bs Hm Hv. rewrite Hgen. rewrite Hb' in Hm. destruct (decide (w' = w)) as [->|Hne].
    + rewrite list_lookup_insert_eq in Hm by done. injection Hm as <-. rewrite lookup_fmap in Hv.
      destruct (balances_of w s !! v) as [bs0|] eqn:Hbs; [|done]. injection Hv as <-.
      destruct (a_tables _ _ _ Ha w _ v bs0 (balances_of_lookup _ _ Hw) Hbs) as (g & Hg & Hl). rewrite Hg. simpl.
      eexists. split; [done|]. simpl. rewrite length_replicate, return_admissions_length by done. done.
    + rewrite list_lookup_insert_ne in Hm by done. destruct (a_tables _ _ _ Ha _ _ _ _ Hm Hv) as (g & Hg & Hl). rewrite Hg. simpl.
      eexists. split; [done|]. destruct (balances_of w s !! v) as [bs0|] eqn:Hbs; [|done]. simpl.
      rewrite return_admissions_length by (by eapply Hlen). done.
Qed.

(** *** A new generation *)

Lemma no_balances v r s : tables_ok s -> generations s !! v = None ->
  replicate (length (lease_balances_ s)) 0 = worker_balance v r <$> lease_balances_ s.
Proof.
  intros Ht Hnew. apply list_eq. intros w. rewrite list_lookup_fmap. destruct (lease_balances_ s !! w) as [m|] eqn:Hm; simpl.
  - rewrite lookup_replicate_2 by (by eapply lookup_lt_Some). unfold worker_balance.
    destruct (m !! v) as [bs|] eqn:Hv; [|done]. destruct (Ht w m v bs Hm Hv) as (g & Hg & _). congruence.
  - apply lookup_replicate_None. by apply lookup_ge_None.
Qed.

Lemma publish_accounts config now v g ll li s :
  usable config -> make_generation config now = Some g -> generations s !! v = None ->
  accounts ll li s -> accounts ll li (with_current (Some v) (with_generation v g s)).
Proof.
  intros Hu Hmk Hnew Ha. unfold make_generation in Hmk.
  destruct (mapM (fun route => GlobalAdmission.make route now) (routes config)) as [adms|] eqn:Hadms; simpl in Hmk; [|done].
  injection Hmk as <-. apply mapM_Some in Hadms.
  set (g := mkGeneration _ _ _ _ _). set (s' := with_current _ _).
  assert (Hout : forall l p, Forall (known s) l -> p.1 = v -> p ∉ l).
  { intros l [v0 r] Hl E Hin. rewrite Forall_forall in Hl. destruct (Hl _ Hin) as (g0 & Hg0 & _). simpl in *. congruence. }
  assert (Hkn : forall p, known s p -> known s' p).
  { intros [v0 r] (g0 & Hg0 & Hr). exists g0. simpl in *. rewrite lookup_insert_ne; [done|]. congruence. }
  assert (Hcount : forall l r, Forall (known s) l -> count (v, r) l = 0).
  { intros l r Hl. unfold count.
    assert (Hf : List.filter (fun q => bool_decide (q = (v, r))) l = []).
    { clear -Hl Hout. assert (Hno : (v, r) ∉ l) by (by apply Hout). induction l as [|q l IH]; [done|]. simpl.
      apply not_elem_of_cons in Hno as [H1 H2]. apply Forall_cons in Hl as [_ Hl]. rewrite bool_decide_eq_false_2 by congruence. by apply IH. }
    by rewrite Hf. }
  assert (Hlease : leases v ll = 0).
  { pose proof (a_leases _ _ _ Ha) as Hl. unfold leases.
    assert (Hf : List.filter (fun q => bool_decide (q.1 = v)) ll = []); [|by rewrite Hf].
    clear -Hl Hnew. induction ll as [|q l IH]; [done|]. simpl. apply Forall_cons in Hl as [(g0 & Hg0 & _) Hl].
    rewrite bool_decide_eq_false_2 by congruence. by apply IH. }
  destruct Ha as [A1 A2 A3 A4 A5 A6]. constructor; try done; try (by eapply Forall_impl).
  - intros v0 g0 Hg0. simpl in Hg0. destruct (decide (v0 = v)) as [->|Hne].
    + rewrite lookup_insert_eq in Hg0. injection Hg0 as <-. split; [done|]. exists config.
      split_and!; try done; [simpl; by apply Forall2_length in Hadms|]. intros r a Hx. simpl in Hx.
      destruct (Forall2_lookup_r _ _ _ _ _ Hadms Hx) as (route & Hroute & Hmk). exists route. split; [done|].
      pose proof (u_routes _ Hu) as Hus. eapply Forall_lookup_1 in Hus; [|exact Hroute]. destruct Hus as (U1 & U2 & U3 & _).
      assert (Hproj : WorkerAdmission.start route now (length (lease_balances_ s)) = Some (proj v r a s')).
      { unfold WorkerAdmission.start. rewrite Hmk. simpl. f_equal. unfold proj. simpl. rewrite Hcount by done. f_equal.
        by apply no_balances. }
      unfold GlobalAdmission.make in Hmk. destruct (_ || _ || _) eqn:E; [done|]. injection Hmk as <-.
      constructor; simpl; try done; [|by rewrite Hcount|munfold; lia].
      by eapply WorkerAdmission.start_within_budget.
    + rewrite lookup_insert_ne in Hg0 by done. destruct (A1 v0 g0 Hg0) as (H1 & c & H2 & H3 & H4 & H5). split; [done|].
      exists c. split_and!; try done. intros r a Hx. destruct (H5 r a Hx) as (route & H6 & []). exists route. split; [done|]. by constructor.
  - intros w m v0 bs Hm Hv. destruct (A2 w m v0 bs Hm Hv) as (g0 & Hg0 & Hl). exists g0. split; [|done]. simpl.
    rewrite lookup_insert_ne; [done|]. congruence.
Qed.

(** ** The theorems *)

Definition sound (n : nat) (s : sys) : Prop := accounts (live s) (live s) s /\ length (lease_balances_ s) = n.

Lemma start_sound n : sound n (start n).
Proof.
  split; [|apply length_replicate]. constructor; try done.
  intros w m v bs Hm Hv. apply lookup_replicate in Hm as [-> _]. by apply lookup_empty_Some in Hv.
Qed.

Lemma retire_sound n v f s :
  (forall x, RuntimeGeneration.active_request_leases_ (f x) = RuntimeGeneration.active_request_leases_ x) ->
  sound n s -> sound n (retire v f s).
Proof.
  intros Hf [Ha Hn]. assert (Hl : live (retire v f s) = live s /\ lease_balances_ (retire v f s) = lease_balances_ s).
  { unfold retire. by case_match. }
  destruct Hl as [Hl1 Hl2]. split; [|congruence]. rewrite Hl1. by apply retire_accounts.
Qed.

Lemma step_sound n s s' : sound n s -> step s s' -> sound n s'.
Proof.
  intros [Ha Hn] Hs. destruct Hs as [config now v g s Hu Hmk Hnew|w env request s s' Hw Hf Hr|i s s' Hfin|w v s|w s Hw|v now s|v s|v s|v s|v s].
  - split; [|done]. by eapply publish_accounts.
  - destruct (on_request_spec w env request s Hw Hf Ha) as (s1 & Hr1 & H1 & H2 & H3 & _).
    assert (s1 = s') as -> by (unfold left_with in Hr1; destruct Hr as [Hr|Hr]; rewrite Hr in Hr1; destruct (verdict_of _ _ _ _); congruence).
    split; [by rewrite H2|congruence].
  - assert (Hi : (i < length (live s))%nat).
    { unfold finish in Hfin. destruct (live s !! i) eqn:E; [by eapply lookup_lt_Some|done]. }
    destruct (finish_accounts i s Ha Hi) as (s1 & H1 & H2 & _ & H3). rewrite Hfin in H1. injection H1 as <-. split; [done|congruence].
  - assert (Hl : live (ReturnGenerationLeaseBalance w v s) = live s /\
      length (lease_balances_ (ReturnGenerationLeaseBalance w v s)) = length (lease_balances_ s)).
    { unfold ReturnGenerationLeaseBalance. repeat case_match; simpl; rewrite ?length_insert; done. }
    destruct Hl as [Hl1 Hl2]. split; [|congruence]. rewrite Hl1. by apply ReturnGenerationLeaseBalance_accounts.
  - split; [by apply Shutdown_accounts|]. simpl. by rewrite length_insert.
  - assert (Hl : live (refill v now s) = live s /\ lease_balances_ (refill v now s) = lease_balances_ s).
    { unfold refill. by case_match. }
    destruct Hl as [Hl1 Hl2]. split; [|congruence]. rewrite Hl1. by apply refill_accounts.
  - apply retire_sound; [|done]. intros x. unfold RuntimeGeneration.BeginRetirement. by repeat case_match.
  - apply retire_sound; [|done]. intros x. unfold RuntimeGeneration.NotifyCheckersStopped, RuntimeGeneration.AdvanceIfReady.
    repeat (case_match; simplify_eq/=); done.
  - apply retire_sound; [|done]. intros x. unfold RuntimeGeneration.BeginReaping. by case_match.
  - apply retire_sound; [|done]. intros x. unfold RuntimeGeneration.MarkRetired. by case_match.
Qed.

Lemma reachable_sound n s : rtc step (start n) s -> sound n s.
Proof. intros H. apply (rtc_preserves step (sound n) (step_sound n) (start n)); [done|apply start_sound]. Qed.

(** C2: The accounts of the whole gateway balance.  Over any sequence of
    requests on any workers, transaction ends, reloads, retirements, refills,
    lease returns and shutdowns, for every generation and route: the requests
    admitted never exceed the burst plus the rate times the time since the
    generation was made; the in-flight count is the number of transactions in
    progress and within its limit; the generation's lease count is the number
    of its transactions in progress. *)
Theorem gateway_accounting n s v g :
  rtc step (start n) s -> generations s !! v = Some g ->
  RuntimeGeneration.active_request_leases_ (lease g) = leases v (live s) /\
  exists config, snapshot g = Some config /\
    forall r a, admissions g !! r = Some a -> exists route, routes config !! r = Some route /\
      count (v, r) (admitted s) * kCreditScale
        <= burst route * kCreditScale + rate_limit route * (last_refill_ a - created g) /\
      inflight (state_ a) = count (v, r) (live s) /\ count (v, r) (live s) <= max_inflight route.
Proof.
  intros Hr Hg. destruct (reachable_sound n s Hr) as [Ha _].
  destruct (a_gens _ _ _ Ha v g Hg) as (H1 & config & H2 & _ & _ & H5). split; [done|]. exists config. split; [done|].
  intros r a Hx. destruct (H5 r a Hx) as (route & Hroute & [(B1 & _ & B2) B3 B4 B5 B6 B7]). exists route. split; [done|].
  destruct B1 as [_ _ _ Hcr Hbs]. unfold WorkerAdmission.tokens in B2. simpl in *.
  assert (0 <= sumZ (worker_balance v r <$> lease_balances_ s)).
  { apply sumZ_nonneg. eapply Forall_impl; [exact Hbs|]. intros z Hz. mlia. }
  rewrite B3, B4 in B2. unfold kCreditScale in *. split_and!; [lia|done|lia].
Qed.

(** C4: Every request is dealt with once.  In any reachable state a request
    comes to the verdict the configuration, the generation, the free slots and
    the tokens decide: the metrics; 503 when there is no generation to serve
    from or it is being retired; 404 without a route; 429 when no slot is free
    or no token is left; otherwise a transaction is started, and only then a
    lease and a slot stay taken.  The client gets exactly that, once.  Where an
    operation throws: a logic or system error of the metrics renderer or of
    sending 200, 404 or 429, and any error around a 503, is dropped and the
    client gets nothing; any other error, and a transaction that cannot be set
    up, is answered 500, or the connection is aborted when it refuses that.  The
    callback returns, unless sending the 500 fails with yet another exception,
    which leaves it. *)
Theorem request_answered n s w env request :
  rtc step (start n) s -> (w < n)%nat -> Z.of_nat (length (live s)) + 1 < u64_modulus ->
  exists s' es, on_request w env request s = left_with (verdict_of w env request s) s' /\
    log s' = log s ++ es /\ omap verdict_in es = delivered (verdict_of w env request s) /\
    live s' = live_after (verdict_of w env request s) (live s).
Proof.
  intros Hr Hw Hf. destruct (reachable_sound n s Hr) as [Ha Hn].
  destruct (on_request_spec w env request s ltac:(by rewrite Hn) Hf Ha) as (s' & H1 & _ & H2 & _ & es & H3 & H4).
  by exists s', es.
Qed.

(** ** Example *)

Definition example_route : Route :=
  mkRoute (lit "a") (lit "x") (lit "/") [mkEndpoint (lit "10.0.0.1") (10, 0, 0, 1) 80 1] 10 1 100 5000 5000 30000 1 None None
          kWeightedRoundRobin.
Definition example_config : Config := mkConfig [example_route] 1.
Definition example_get (path : bytes) : HttpRequest :=
  mkRequest (lit "GET") path (lit "HTTP/1.1") [] {[lit "host" := lit "x"]}.
Definition example_env : surroundings := mkSurroundings (inl (lit "text")) None None true true.

Definition example_published : sys :=
  match make_generation example_config 0 with
  | Some g => with_current (Some 1) (with_generation 1 g (start 1))
  | None => start 1
  end.
Definition example_forwarded : sys :=
  match on_request 0 example_env (example_get (lit "/a")) example_published with Ret _ s => s | _ => start 1 end.

Lemma example_reachable : rtc step (start 1) example_forwarded.
Proof.
  eapply rtc_l.
  - apply (step_publish example_config 0 1); [|vm_compute; reflexivity|reflexivity].
    constructor; [vm_compute; done|]. apply Forall_singleton. vm_compute. done.
  - apply rtc_once. eapply (step_request 0 example_env (example_get (lit "/a"))); [simpl; lia|vm_compute; done|left; vm_compute; reflexivity].
Qed.

(** The burst of one is spent: the next request is refused. *)
Lemma request_answered_witness :
  verdict_of 0 example_env (example_get (lit "/a")) example_published = Forwarded 1 0 /\
  exists s' es, on_request 0 example_env (example_get (lit "/b")) example_forwarded = Ret tt s' /\
    log s' = log example_forwarded ++ es /\ omap verdict_in es = [Answered 429] /\ live s' = [(1, 0%nat)].
Proof.
  split; [vm_compute; reflexivity|].
  destruct (request_answered 1 example_forwarded 0 example_env (example_get (lit "/b")) example_reachable) as (s' & es & H1 & H2 & H3 & H4);
    [lia|vm_compute; reflexivity|]. exists s', es. split; [exact H1|]. split; [exact H2|]. split; [exact H3|]. exact H4.
Defined.

Lemma gateway_accounting_witness :
  exists g, generations example_forwarded !! 1 = Some g /\
    RuntimeGeneration.active_request_leases_ (lease g) = 1 /\ leases 1 (live example_forwarded) = 1.
Proof.
  eexists. split; [vm_compute; reflexivity|].
  destruct (gateway_accounting 1 example_forwarded 1 _ example_reachable ltac:(vm_compute; reflexivity)) as [H _].
  rewrite H. split; vm_compute; reflexivity.
Defined.

End WorkerData.
