(* ===== verification/ClientTable.v ===== *)
(** * The table of client connections

    Models the connection table of src/src/runtime/WorkerData.cpp: accepting,
    closing, and reaping after the event batch, with the descriptors the
    connections own. *)

From S2P Require Import Prelude.

Module ClientTable.

(** A connection owns its descriptor and knows whether it is still open. *)
Record client := mkClient { fd : nat; open : bool }.

(** [owner]: the worker data exists; [deferred]: cleanup tasks in the event
    loop's queue.  [closed_fds] are the descriptors closed so far. *)
Record t := mk {
  next_client_identifier_ : Z;
  clients_ : gmap Z client;
  owner : bool;
  cleanup_scheduled : bool;
  closed_clients : list Z;
  deferred : nat;
  active_connections : nat;
  client_count_ : nat;
  closed_fds : list nat
}.

Definition make : t := mk 1 ∅ true false [] 0 0 0 [].

Definition with_clients (m : gmap Z client) (fds : list nat) (s : t) : t :=
  mk (next_client_identifier_ s) m (owner s) (cleanup_scheduled s) (closed_clients s) (deferred s) (active_connections s)
     (client_count_ s) fds.
Definition with_next (n : Z) (s : t) : t :=
  mk n (clients_ s) (owner s) (cleanup_scheduled s) (closed_clients s) (deferred s) (active_connections s) (client_count_ s)
     (closed_fds s).
Definition publish_count (s : t) : t :=
  mk (next_client_identifier_ s) (clients_ s) (owner s) (cleanup_scheduled s) (closed_clients s) (deferred s)
     (base.size (clients_ s)) (base.size (clients_ s)) (closed_fds s).

Definition NotifyClientClosed (identifier : Z) (s : t) : t :=
  if negb (owner s) then s
  else
    let ids := closed_clients s ++ [identifier] in
    mk (next_client_identifier_ s) (clients_ s) (owner s) true ids
       (if cleanup_scheduled s then deferred s else S (deferred s)) (active_connections s) (client_count_ s) (closed_fds s).

(** [ClientConnection::Close] of one client: its descriptor and its callback. *)
Definition close_client (identifier : Z) (s : t) : t :=
  match clients_ s !! identifier with
  | Some (mkClient f true) =>
      NotifyClientClosed identifier (with_clients (<[identifier := mkClient f false]> (clients_ s)) (closed_fds s ++ [f]) s)
  | _ => s
  end.

(** [clients_.erase]: the destructor closes the connection. *)
Definition erase (identifier : Z) (s : t) : t :=
  let s := close_client identifier s in with_clients (delete identifier (clients_ s)) (closed_fds s) s.

(** How [make_unique<ClientConnection>] ends: a connection, no memory for it, or
    an exception of the constructor's body (or of a later member), which destroys
    the socket it has already made of the descriptor. *)
Inductive construction := Built | NoMemory | ConstructorThrows.

(** [starts]: the connection's [Start] did not throw.  While [fd.release()] has
    not been reached, the descriptor's owner closes it at the end. *)
Definition Accept (f : nat) (built : construction) (starts : bool) (s : t) : t :=
  if next_client_identifier_ s =? 0 then with_clients (clients_ s) (closed_fds s ++ [f]) s
  else
    let identifier := next_client_identifier_ s in
    let s := with_next (wrap_u64 (identifier + 1)) s in
    match built with
    | NoMemory => publish_count (with_clients (clients_ s) (closed_fds s ++ [f]) s)
    | ConstructorThrows => publish_count (with_clients (clients_ s) (closed_fds s ++ [f; f]) s)
    | Built =>
        let s := publish_count (with_clients (<[identifier := mkClient f true]> (clients_ s)) (closed_fds s) s) in
        if starts then s else publish_count (erase identifier s)
    end.

(** [ReapClosedClients]. *)
Definition ReapClosedClients (ids : list Z) (s : t) : t := publish_count (foldl (fun s i => erase i s) s ids).

(** The cleanup task; [None]: none is queued. *)
Definition run_deferred (s : t) : option t :=
  match deferred s with
  | O => None
  | S n =>
      let s' := mk (next_client_identifier_ s) (clients_ s) (owner s) false (closed_clients s) n (active_connections s)
                   (client_count_ s) (closed_fds s) in
      if negb (owner s) then Some s'
      else
        let ids := closed_clients s in
        Some (ReapClosedClients ids
                (mk (next_client_identifier_ s) (clients_ s) (owner s) false [] n (active_connections s) (client_count_ s)
                    (closed_fds s)))
  end.

(** The clients part of [Shutdown]: every connection is destroyed. *)
Definition Shutdown (s : t) : t := publish_count (foldl (fun s i => erase i s) s (map_to_list (clients_ s)).*1).

(** The destructor. *)
Definition destroy (s : t) : t :=
  Shutdown (mk (next_client_identifier_ s) (clients_ s) false (cleanup_scheduled s) (closed_clients s) (deferred s)
               (active_connections s) (client_count_ s) (closed_fds s)).

Inductive op := OAccept (f : nat) (built : construction) (starts : bool) | OClose (identifier : Z) | ODeferred | OShutdown | ODestroy.

(** Nothing happens to a destroyed object but the tasks still queued. *)
Definition exec (o : op) (s : t) : option t :=
  match o with
  | ODeferred => run_deferred s
  | _ =>
      if negb (owner s) then None
      else Some (match o with
                 | OAccept f built starts => Accept f built starts s
                 | OClose i => close_client i s
                 | OShutdown => Shutdown s
                 | ODestroy => destroy s
                 | ODeferred => s
                 end)
  end.

Fixpoint exec_all (os : list op) (s : t) : option t :=
  match os with
  | [] => Some s
  | o :: os => s ← exec o s; exec_all os s
  end.

(** ** Invariant *)

Definition open_fds (m : gmap Z client) : list nat := omap (fun p => if open p.2 then Some (fd p.2) else None) (map_to_list m).

(** [fds] are the descriptors accepted, [pending] the closed connections about
    to be reaped. *)
Record core (fds : list nat) (pending : list Z) (s : t) : Prop := {
  i_fds : open_fds (clients_ s) ++ closed_fds s ≡ₚ fds;
  i_ids : forall i c, clients_ s !! i = Some c -> next_client_identifier_ s = 0 \/ i < next_client_identifier_ s;
  i_next : is_u64 (next_client_identifier_ s);
  i_closed : owner s = true -> forall i c, clients_ s !! i = Some c -> open c = false -> i ∈ closed_clients s \/ i ∈ pending;
  i_scheduled : owner s = true -> closed_clients s <> [] -> cleanup_scheduled s = true;
  i_deferred : cleanup_scheduled s = true -> (0 < deferred s)%nat;
  i_settled : forall i, i ∈ closed_clients s \/ i ∈ pending ->
    (next_client_identifier_ s = 0 \/ i < next_client_identifier_ s) /\
    forall c, clients_ s !! i = Some c -> open c = false
}.

Record inv (fds : list nat) (s : t) : Prop := {
  i_core : core fds [] s;
  i_count : active_connections s = base.size (clients_ s) /\ client_count_ s = base.size (clients_ s);
  i_gone : owner s = false -> clients_ s = ∅
}.

Lemma open_fds_insert m i c : m !! i = None -> open_fds (<[i := c]> m) ≡ₚ (if open c then [fd c] else []) ++ open_fds m.
Proof.
  intros Hi. unfold open_fds. rewrite map_to_list_insert by done. simpl. destruct (open c); done.
Qed.

Lemma open_fds_delete m i c : m !! i = Some c -> open_fds m ≡ₚ (if open c then [fd c] else []) ++ open_fds (delete i m).
Proof. intros Hi. rewrite <- (insert_delete_id m i c Hi) at 1. apply open_fds_insert, lookup_delete_eq. Qed.

Lemma close_client_core i fds pending s : core fds pending s -> core fds pending (close_client i s).
Proof.
  intros [C1 C2 C3 C4 C5 C6 C7]. unfold close_client. destruct (clients_ s !! i) as [[f []]|] eqn:Hi; try done.
  assert (Hfds : open_fds (<[i := mkClient f false]> (clients_ s)) ++ closed_fds s ++ [f] ≡ₚ fds).
  { rewrite <- C1, (open_fds_delete (clients_ s) i _ Hi), <- (insert_delete_eq (clients_ s) i).
    rewrite open_fds_insert by apply lookup_delete_eq. simpl. rewrite app_assoc. symmetry. apply Permutation_cons_append. }
  assert (Hids : forall j c, <[i := mkClient f false]> (clients_ s) !! j = Some c ->
            next_client_identifier_ s = 0 \/ j < next_client_identifier_ s).
  { intros j c Hj. destruct (decide (j = i)) as [->|Hne]; [by eapply C2|]. rewrite lookup_insert_ne in Hj by done. by eapply C2. }
  assert (Hset : forall j, j = i \/ j ∈ closed_clients s \/ j ∈ pending ->
            (next_client_identifier_ s = 0 \/ j < next_client_identifier_ s) /\
            forall c, <[i := mkClient f false]> (clients_ s) !! j = Some c -> open c = false).
  { intros j Hj. destruct (decide (j = i)) as [->|Hne].
    - split; [by eapply C2|]. intros c Hc. rewrite lookup_insert_eq in Hc. by injection Hc as <-.
    - destruct Hj as [?|Hj]; [done|]. destruct (C7 j Hj) as [H1 H2]. split; [done|]. intros c Hc.
      rewrite lookup_insert_ne in Hc by done. auto. }
  unfold NotifyClientClosed. simpl. destruct (owner s) eqn:Ho; simpl.
  - constructor; simpl; try done; [| |intros j Hj; apply Hset; set_solver].
    + intros _ j c Hj Hc. destruct (decide (j = i)) as [->|Hne]; [set_solver|].
      rewrite lookup_insert_ne in Hj by done. destruct (C4 eq_refl j c Hj Hc); set_solver.
    + intros _. destruct (cleanup_scheduled s); [by apply C6|lia].
  - constructor; simpl; try done; [by rewrite Ho..|]. intros j Hj. apply Hset. tauto.
Qed.

Lemma close_client_keeps i s :
  owner (close_client i s) = owner s /\ next_client_identifier_ (close_client i s) = next_client_identifier_ s /\
  (forall c, clients_ (close_client i s) !! i = Some c -> open c = false) /\
  (forall j, j <> i -> clients_ (close_client i s) !! j = clients_ s !! j).
Proof.
  unfold close_client. destruct (clients_ s !! i) as [[f []]|] eqn:Hi.
  - unfold NotifyClientClosed. simpl. destruct (owner s) eqn:Ho; simpl; rewrite ?Ho; split_and!; try done.
    + intros c Hc. rewrite lookup_insert_eq in Hc. by injection Hc as <-.
    + intros j Hj. by rewrite lookup_insert_ne.
    + intros c Hc. rewrite lookup_insert_eq in Hc. by injection Hc as <-.
    + intros j Hj. by rewrite lookup_insert_ne.
  - split_and!; try done. intros c Hc. rewrite Hi in Hc. by injection Hc as <-.
  - split_and!; try done. intros c Hc. congruence.
Qed.

Lemma erase_core i fds pending s : core fds pending s -> core fds pending (erase i s).
Proof.
  intros Hc. pose proof (close_client_core i fds pending s Hc) as [C1 C2 C3 C4 C5 C6 C7].
  destruct (close_client_keeps i s) as (_ & _ & Hcl & _). unfold erase. constructor; simpl; try done.
  - rewrite <- C1. destruct (clients_ (close_client i s) !! i) as [c|] eqn:Hi; [|by rewrite delete_id].
    rewrite (open_fds_delete _ _ _ Hi), (Hcl c eq_refl). done.
  - intros j c Hj. apply lookup_delete_Some in Hj as [_ Hj]. by eapply C2.
  - intros Ho j c Hj. apply lookup_delete_Some in Hj as [_ Hj]. by eapply C4.
  - intros j Hj. destruct (C7 j Hj) as [H1 H2]. split; [done|]. intros c Hx. apply lookup_delete_Some in Hx as [_ Hx]. auto.
Qed.

Lemma erase_keeps i s :
  owner (erase i s) = owner s /\ forall j, clients_ (erase i s) !! j = if decide (j = i) then None else clients_ s !! j.
Proof.
  destruct (close_client_keeps i s) as (H1 & _ & _ & H4). unfold erase. simpl. split; [done|]. intros j. case_decide as E.
  - subst. apply lookup_delete_eq.
  - rewrite lookup_delete_ne by done. by apply H4.
Qed.

Lemma erase_all_core ids fds pending s : core fds pending s -> core fds pending (foldl (fun s i => erase i s) s ids).
Proof. revert s. induction ids as [|i ids IH]; intros s Hc; simpl; [done|]. by apply IH, erase_core. Qed.

Lemma erase_all_keeps ids s :
  owner (foldl (fun s i => erase i s) s ids) = owner s /\
  forall j, clients_ (foldl (fun s i => erase i s) s ids) !! j = if decide (j ∈ ids) then None else clients_ s !! j.
Proof.
  revert s. induction ids as [|i ids IH]; intros s; cbn [foldl].
  { split; [done|]. intros j. case_decide as E; [by apply elem_of_nil in E|done]. }
  destruct (IH (erase i s)) as [H1 H2]. destruct (erase_keeps i s) as [H3 H4]. split; [congruence|]. intros j. rewrite H2, H4.
  repeat case_decide; set_solver.
Qed.

(** Erasing connections that are closed announces nothing. *)
Lemma erase_all_closed ids s :
  (forall i, i ∈ ids -> forall c, clients_ s !! i = Some c -> open c = false) ->
  closed_clients (foldl (fun s i => erase i s) s ids) = closed_clients s.
Proof.
  revert s. induction ids as [|i ids IH]; intros s Hc; cbn [foldl]; [done|]. rewrite IH.
  - unfold erase, close_client. simpl. destruct (clients_ s !! i) as [[f []]|] eqn:E; try done.
    by specialize (Hc i ltac:(left) _ E).
  - intros j Hj c Hx. destruct (erase_keeps i s) as [_ Hk]. rewrite Hk in Hx. case_decide; [done|]. apply (Hc j); [by right|done].
Qed.

Lemma counted_inv fds s : core fds [] s -> (owner s = false -> clients_ s = ∅) -> inv fds (publish_count s).
Proof. intros [] Ho. constructor; [by constructor|done|done]. Qed.

(** The descriptor a throwing constructor closes before its owner does. *)
Definition closed_again (o : op) (s : t) : list nat :=
  match o with OAccept f ConstructorThrows _ => if next_client_identifier_ s =? 0 then [] else [f] | _ => [] end.

Lemma Accept_inv f built starts fds s :
  inv fds s -> owner s = true -> inv (closed_again (OAccept f built starts) s ++ f :: fds) (Accept f built starts s).
Proof.
  intros [[C1 C2 C3 C4 C5 C6 C7] Hc Hg] Ho. unfold Accept, closed_again.
  assert (Hcl : open_fds (clients_ s) ++ closed_fds s ++ [f] ≡ₚ f :: fds).
  { rewrite <- C1, app_assoc. symmetry. apply Permutation_cons_append. }
  destruct (Z.eqb_spec (next_client_identifier_ s) 0) as [Hz|Hz].
  { destruct built; (constructor; [constructor; try done|done|done]). }
  set (id := next_client_identifier_ s) in *.
  assert (Hn : wrap_u64 (id + 1) = 0 \/ id < wrap_u64 (id + 1)).
  { unfold wrap_u64. destruct (decide (id + 1 = u64_modulus)) as [->|Hne]; [left; done|right].
    rewrite Z.mod_small by mlia. lia. }
  assert (Hids : forall j c, clients_ s !! j = Some c -> wrap_u64 (id + 1) = 0 \/ j < wrap_u64 (id + 1)).
  { intros j c Hj. destruct (C2 j c Hj); [done|]. lia. }
  assert (Hfresh : clients_ s !! id = None).
  { destruct (clients_ s !! id) as [c|] eqn:E; [|done]. destruct (C2 id c E); lia. }
  pose proof (wrap_u64_range (id + 1)) as Hr.
  assert (Hset : forall j, j ∈ closed_clients s \/ j ∈ [] -> (wrap_u64 (id + 1) = 0 \/ j < wrap_u64 (id + 1)) /\ j <> id /\
            forall c, clients_ s !! j = Some c -> open c = false).
  { intros j Hj. destruct (C7 j Hj) as [[?|Hlt] H2]; [done|]. split; [|split; [|done]]; lia. }
  destruct built; simpl.
  2: { apply counted_inv; [constructor; try done|simpl; congruence]. intros j Hj. destruct (Hset j Hj) as (? & _ & ?). done. }
  2: { apply counted_inv; [constructor; try done|simpl; congruence].
    - simpl. rewrite <- Hcl. change [f; f] with ([f] ++ [f]). rewrite !app_assoc. symmetry. apply Permutation_cons_append.
    - intros j Hj. destruct (Hset j Hj) as (? & _ & ?). done. }
  match goal with |- context [if starts then ?x else _] => set (s1 := x) end.
  assert (H1 : core (f :: fds) [] s1).
  { constructor; simpl; try done.
    - rewrite open_fds_insert by done. simpl. by rewrite C1.
    - intros j c Hj. destruct (decide (j = id)) as [->|Hne]; [done|]. rewrite lookup_insert_ne in Hj by done. by eapply Hids.
    - intros _ j c Hj Hop. destruct (decide (j = id)) as [->|Hne]; [rewrite lookup_insert_eq in Hj; by injection Hj as <-|].
      rewrite lookup_insert_ne in Hj by done. by eapply C4.
    - intros j Hj. destruct (Hset j Hj) as (H1 & H2 & H3). split; [done|]. intros c Hx. rewrite lookup_insert_ne in Hx by done. auto. }
  destruct starts.
  - constructor; [done|done|]. simpl. congruence.
  - apply counted_inv; [by apply erase_core|]. destruct (erase_keeps id s1) as [-> _]. simpl. congruence.
Qed.

Lemma Shutdown_inv fds s : core fds [] s -> inv fds (Shutdown s) /\ clients_ (Shutdown s) = ∅ /\ owner (Shutdown s) = owner s.
Proof.
  intros Hc. unfold Shutdown. set (ids := (map_to_list (clients_ s)).*1). destruct (erase_all_keeps ids s) as [H1 H2].
  assert (He : clients_ (foldl (fun s i => erase i s) s ids) = ∅).
  { apply map_eq. intros j. rewrite H2, lookup_empty. case_decide as E; [done|].
    destruct (clients_ s !! j) as [c|] eqn:Hj; [|done]. destruct E. apply list_elem_of_fmap. exists (j, c).
    split; [done|]. by apply elem_of_map_to_list. }
  split; [|done]. apply counted_inv; [by apply erase_all_core|done].
Qed.

Lemma run_deferred_inv fds s s' : inv fds s -> run_deferred s = Some s' ->
  inv fds s' /\ (owner s = true -> forall i c, clients_ s' !! i = Some c -> open c = true).
Proof.
  intros [[C1 C2 C3 C4 C5 C6 C7] Hc Hg]. unfold run_deferred. destruct (deferred s) as [|n] eqn:Hd; [done|].
  destruct (owner s) eqn:Ho; simpl; intros [= <-].
  2: { split; [|done]. constructor; [constructor; simpl; done|done|intros _; by apply Hg]. }
  match goal with |- context [ReapClosedClients _ ?x] => set (s0 := x) end.
  assert (H0 : core fds (closed_clients s) s0).
  { constructor; simpl; try done.
    - intros _ i c Hi Hop. right. destruct (C4 eq_refl i c Hi Hop) as [?|H]; [done|by apply elem_of_nil in H].
    - intros i [Hi|Hi]; [by apply elem_of_nil in Hi|]. apply C7. by left. }
  assert (Hnil : closed_clients (foldl (fun s i => erase i s) s0 (closed_clients s)) = []).
  { apply (erase_all_closed (closed_clients s) s0). intros i Hi. by apply C7; left. }
  pose proof (erase_all_core (closed_clients s) _ _ _ H0) as [D1 D2 D3 D4 D5 D6 D7].
  destruct (erase_all_keeps (closed_clients s) s0) as [H1 H2].
  assert (Hcl : forall i c, clients_ (foldl (fun s i => erase i s) s0 (closed_clients s)) !! i = Some c -> open c = false ->
            i ∈ closed_clients (foldl (fun s i => erase i s) s0 (closed_clients s))).
  { intros i c Hi Hop. destruct (D4 ltac:(by rewrite H1) i c Hi Hop) as [?|Hp]; [done|].
    rewrite H2, decide_True in Hi by done. done. }
  split.
  - apply counted_inv; [|rewrite H1; done]. constructor; try done.
    + intros _ i c Hi Hop. left. by eapply Hcl.
    + intros i [Hi|Hi]; [apply D7; by left|by apply elem_of_nil in Hi].
  - intros _ i c Hi. destruct (open c) eqn:Eo; [done|]. specialize (Hcl i c Hi Eo). rewrite Hnil in Hcl. by apply elem_of_nil in Hcl.
Qed.

Definition accepted (o : op) : list nat := match o with OAccept f _ _ => [f] | _ => [] end.
Definition constructs (o : op) : Prop := match o with OAccept _ ConstructorThrows _ => False | _ => True end.

(** The descriptors closed twice in a run. *)
Fixpoint again (os : list op) (s : t) : list nat :=
  match os with
  | [] => []
  | o :: os => closed_again o s ++ from_option (again os) [] (exec o s)
  end.

Lemma exec_inv o fds s s' : inv fds s -> exec o s = Some s' -> inv (closed_again o s ++ accepted o ++ fds) s'.
Proof.
  intros Hi. destruct o as [f built starts|i| | |]; simpl; try (destruct (owner s) eqn:Ho; simpl; [|done]; intros [= <-]).
  - by apply Accept_inv.
  - pose proof (close_client_core i _ _ _ (i_core _ _ Hi)) as Hcore. destruct (close_client_keeps i s) as (H1 & _ & _ & H4).
    constructor; [done| |rewrite H1; congruence].
    assert (Hs : base.size (clients_ (close_client i s)) = base.size (clients_ s) /\
      active_connections (close_client i s) = active_connections s /\ client_count_ (close_client i s) = client_count_ s).
    { unfold close_client. destruct (clients_ s !! i) as [[f []]|] eqn:Ei; try done. unfold NotifyClientClosed. simpl.
      rewrite Ho. simpl. by rewrite map_size_insert_Some by done. }
    destruct Hs as (-> & -> & ->). apply Hi.
  - intros H. by eapply run_deferred_inv in H as [? _].
  - apply Shutdown_inv, Hi.
  - unfold destroy. match goal with |- inv _ (Shutdown ?x) => assert (Hx : core fds [] x) end.
    { destruct Hi as [[]]. by constructor. }
    by apply Shutdown_inv.
Qed.

Lemma exec_all_inv os fds s s' : inv fds s -> exec_all os s = Some s' ->
  exists fds', inv fds' s' /\ fds' ≡ₚ concat (accepted <$> os) ++ again os s ++ fds.
Proof.
  revert fds s. induction os as [|o os IH]; intros fds s Hi; simpl; [intros [= <-]; eauto|].
  destruct (exec o s) as [s1|] eqn:E; simpl; [|done]. intros Hr. destruct (IH _ _ (exec_inv _ _ _ _ Hi E) Hr) as (fds' & H1 & H2).
  exists fds'. split; [done|]. rewrite H2. solve_Permutation.
Qed.

Lemma again_nil os s : Forall constructs os -> again os s = [].
Proof.
  intros Hb. revert s. induction Hb as [|o os Ho Hb IH]; intros s; [done|]. simpl.
  assert (closed_again o s = []) as -> by (destruct o as [? [] ?| | | |]; done). simpl. destruct (exec o s); [apply IH|done].
Qed.

(** C38: Client connections do not leak: after any sequence of accepts, failures,
    closings, cleanup tasks and shutdowns, every accepted descriptor belongs to
    exactly one open connection of the table or was closed, and closed once
    except for the descriptors of connections whose constructor threw, which are
    closed exactly twice; so none is closed twice when no constructor throws.
    The published connection counts are the size of the table; a closed
    connection is in the table only until the cleanup task, which is queued, has
    run; and the destroyed worker holds no connection. *)
Theorem client_table_exact os s :
  exec_all os make = Some s ->
  open_fds (clients_ s) ++ closed_fds s ≡ₚ concat (accepted <$> os) ++ again os make /\
  (Forall constructs os -> again os make = []) /\
  active_connections s = base.size (clients_ s) /\ client_count_ s = base.size (clients_ s) /\
  (forall i c, clients_ s !! i = Some c -> open c = false -> i ∈ closed_clients s /\ (0 < deferred s)%nat) /\
  (owner s = false -> clients_ s = ∅) /\
  (forall s', owner s = true -> closed_clients s <> [] -> run_deferred s = Some s' ->
     forall i c, clients_ s' !! i = Some c -> open c = true).
Proof.
  intros Hr. assert (H0 : inv [] make).
  { constructor; [constructor; simpl; try done; set_solver|done|done]. }
  destruct (exec_all_inv os [] make s H0 Hr) as (fds & Hi & Hp). rewrite app_nil_r in Hp.
  pose proof Hi as [[C1 C2 C3 C4 C5 C6 C7] [Hc1 Hc2] Hg].
  assert (Hcl : forall i c, clients_ s !! i = Some c -> open c = false -> i ∈ closed_clients s /\ owner s = true).
  { intros i c Hx Hop. destruct (owner s) eqn:Ho; [|rewrite Hg in Hx by done; by apply lookup_empty_Some in Hx].
    split; [|done]. destruct (C4 eq_refl i c Hx Hop) as [?|H]; [done|by apply elem_of_nil in H]. }
  split_and!; try done; [by rewrite C1, Hp|apply again_nil| |].
  - intros i c Hx Hop. destruct (Hcl i c Hx Hop) as [H1 H2]. split; [done|]. apply C6, C5; [done|]. intros E. rewrite E in H1.
    by apply elem_of_nil in H1.
  - intros s' Ho Hne Hd. destruct (run_deferred_inv fds s s' Hi Hd) as [_ H]. by apply H.
Qed.

(** The constructor of the third connection throws. *)
Definition example_ops : list op :=
  [OAccept 5 Built true; OAccept 6 Built false; OAccept 9 ConstructorThrows true; OAccept 7 NoMemory true; OAccept 8 Built true;
   OClose 1; ODeferred; OShutdown].
Definition example_table : t := default make (exec_all example_ops make).

Lemma client_table_exact_witness :
  closed_fds example_table = [6; 9; 9; 7; 5; 8]%nat /\
  open_fds (clients_ example_table) ++ closed_fds example_table ≡ₚ [5; 6; 9; 7; 8; 9]%nat.
Proof.
  split; [vm_compute; reflexivity|].
  destruct (client_table_exact example_ops example_table) as [H _]; [vm_compute; reflexivity|]. exact H.
Defined.

(** When the constructor throws after [socket_] took the descriptor (its
    [SetNonblocking] fails), the socket and the descriptor's owner both close it. *)
Theorem constructor_failure_closes_twice f starts :
  closed_fds (Accept f ConstructorThrows starts make) = [f; f].
Proof. done. Qed.

End ClientTable.
