(* ===== verification/UpstreamPool.v ===== *)
(** * The pool of upstream connections

    Models src/src/proxy/UpstreamPool.cpp: connections are borrowed for one
    exchange, go back to the idle store of their endpoint or are closed, and
    exchanges can be cancelled.  A connection is known by its address, which the
    allocator may hand out again once the object is gone, and by a serial number
    that only the model has; an exchange is one call of [Execute].  What a
    connection does on its own - starting, answering, judging whether it can be
    reused - is given with each operation; UpstreamConnection models it.  The
    response callback may call back into the pool (the answer to a pipelined
    client lets its next request start at once): the operations it performs,
    nested to any depth, are part of the operation that answers. *)

From S2P Require Import Prelude Bytes Types.

Module UpstreamPool.

(** [address, port]. *)
Definition Key : Type := ipv4 * Z.

Definition ToKey (endpoint : Endpoint) : Key := (ep_address endpoint, ep_port endpoint).

(** [to]: the endpoint the connection was made for; [exchange] and [key]: what
    its response callback captured. *)
Record connection := mkConnection { pointer : nat; serial : nat; to : Key; exchange : nat; key : Key }.

(** What the code outside sees: an exchange goes out on a connection, its
    callback runs, a connection is closed. *)
Inductive event :=
| EStart (exchange : nat) (key : Key) (serial : nat) (to : Key)
| ECallback (exchange : nat)
| EClose (serial : nat).

(** [deferred]: closures of [CancelAll] waiting for the end of the event batch;
    [held]: connections owned by the [Complete] calls on the stack.  [serials] and [exchanges] count what was made; the last three lists say
    how exchanges ended. *)
Record t := mk {
  idle_ : gmap Key (list connection);
  active_ : gmap nat connection;
  deferred : list (list connection);
  held : list connection;
  serials : nat;
  exchanges : nat;
  completed : list nat;
  cancelled : list nat;
  failed : list nat;
  log : list event
}.

Definition make : t := mk ∅ ∅ [] [] 0 0 [] [] [] [].

Definition with_idle (m : gmap Key (list connection)) (p : t) : t :=
  mk m (active_ p) (deferred p) (held p) (serials p) (exchanges p) (completed p) (cancelled p) (failed p) (log p).
Definition with_active (m : gmap nat connection) (p : t) : t :=
  mk (idle_ p) m (deferred p) (held p) (serials p) (exchanges p) (completed p) (cancelled p) (failed p) (log p).
Definition with_deferred (d : list (list connection)) (p : t) : t :=
  mk (idle_ p) (active_ p) d (held p) (serials p) (exchanges p) (completed p) (cancelled p) (failed p) (log p).
Definition with_held (h : list connection) (p : t) : t :=
  mk (idle_ p) (active_ p) (deferred p) h (serials p) (exchanges p) (completed p) (cancelled p) (failed p) (log p).
Definition with_counts (s e : nat) (p : t) : t :=
  mk (idle_ p) (active_ p) (deferred p) (held p) s e (completed p) (cancelled p) (failed p) (log p).
Definition with_ends (co ca fa : list nat) (p : t) : t :=
  mk (idle_ p) (active_ p) (deferred p) (held p) (serials p) (exchanges p) co ca fa (log p).
Definition with_log (es : list event) (p : t) : t :=
  mk (idle_ p) (active_ p) (deferred p) (held p) (serials p) (exchanges p) (completed p) (cancelled p) (failed p) (log p ++ es).

(** A connection is closed, by [Close] or by its destructor. *)
Definition close (c : connection) (p : t) : t := with_log [EClose (serial c)] p.

Definition idle_at (k : Key) (p : t) : list connection := default [] (idle_ p !! k).

(** The loop over the idle connections of the endpoint: unhealthy ones are
    destroyed. *)
Fixpoint borrow (healthy : nat -> bool) (idle : list connection) : option connection * list connection * list connection :=
  match idle with
  | [] => (None, [], [])
  | c :: rest =>
      if healthy (pointer c) then (Some c, rest, [])
      else let '(found, rest, dead) := borrow healthy rest in (found, rest, c :: dead)
  end.

(** [Complete] up to the callback; [reusable]: what [Reusable] answers. *)
Definition settle (owned : connection) (key : Key) (reusable : bool) (p : t) : t :=
  let p := with_active (delete (pointer owned) (active_ p)) p in
  let p :=
    if reusable then
      match idle_at key p with
      | [] => with_idle (<[key := [owned]]> (idle_ p)) p
      | _ => close owned p
      end
    else with_held (owned :: held p) p in
  with_ends (completed p ++ [exchange owned]) (cancelled p) (failed p) (with_log [ECallback (exchange owned)] p).

(** A connection that cannot be reused is destroyed at the end of the function. *)
Definition release (owned : connection) (reusable : bool) (p : t) : t :=
  if reusable then p else close owned (with_held (tail (held p)) p).

(** [Complete]; [callback]: what the response callback does with the pool. *)
Definition Complete (connection : nat) (key : Key) (reusable : bool) (callback : t -> option t) (p : t) : option t :=
  match active_ p !! connection with
  | None => Some p
  | Some owned => p ← callback (settle owned key reusable p); Some (release owned reusable p)
  end.

(** How [Start] of the connection ends: the exchange is under way, was answered
    at once, or throws, before or after it was answered. *)
Inductive start_outcome := Pending | Answered (reusable : bool) | Throws | AnsweredThrows (reusable : bool).

(** The handler of [Execute]: whatever is active at the connection's address is
    closed. *)
Definition drop_active (raw : nat) (p : t) : t :=
  match active_ p !! raw with
  | Some c => with_ends (completed p) (cancelled p) (failed p ++ [exchange c])
                (close c (with_active (delete raw (active_ p)) p))
  | None => p
  end.

(** [active_.contains(raw) ? raw : nullptr]. *)
Definition returned (raw : nat) (p : t) : option nat := (fun _ => raw) <$> active_ p !! raw.

(** [fresh]: the address of a new connection; [callback]: what the response
    callback does when the exchange is answered at once.  The result is the
    connection returned to the caller, and whether [Execute] throws. *)
Definition Execute (endpoint : Endpoint) (healthy : nat -> bool) (fresh : nat) (outcome : start_outcome)
    (callback : t -> option t) (p : t) : option (t * option nat * bool) :=
  let key := ToKey endpoint in
  let '(found, rest, dead) := borrow healthy (idle_at key p) in
  let p := with_log (EClose ∘ serial <$> dead) (with_idle (<[key := rest]> (idle_ p)) p) in
  let e := exchanges p in
  let '(c, p) := match found with
                 | Some c => (c, with_counts (serials p) (S e) p)
                 | None => (mkConnection fresh (serials p) key e key, with_counts (S (serials p)) (S e) p)
                 end in
  let raw := pointer c in
  let owned := mkConnection raw (serial c) (to c) e key in
  match active_ p !! raw with
  | Some _ => Some (with_ends (completed p) (cancelled p) (failed p ++ [e]) (close c p), None, true)
  | None =>
      let p := with_log [EStart e key (serial c) (to c)] (with_active (<[raw := owned]> (active_ p)) p) in
      match outcome with
      | Pending => Some (p, returned raw p, false)
      | Answered reusable => p ← Complete raw key reusable callback p; Some (p, returned raw p, false)
      | Throws => Some (drop_active raw p, None, true)
      | AnsweredThrows reusable => p ← Complete raw key reusable callback p; Some (drop_active raw p, None, true)
      end
  end.

Definition Cancel (connection : nat) (p : t) : t * bool :=
  match active_ p !! connection with
  | None => (p, false)
  | Some owned =>
      (with_ends (completed p) (cancelled p ++ [exchange owned]) (failed p)
         (with_active (delete connection (active_ p)) (close owned p)), true)
  end.

(** [dispatching]: an event callback is on the stack. *)
Definition CancelAll (dispatching : bool) (p : t) : t :=
  let pending := (map_to_list (active_ p)).*2 in
  let p := with_ends (completed p) (cancelled p ++ (exchange <$> pending)) (failed p) (with_active ∅ p) in
  if dispatching then with_deferred (deferred p ++ [pending]) p else with_log (EClose ∘ serial <$> pending) p.

(** The end of the event batch runs the closures. *)
Definition run_batch (p : t) : t :=
  with_log (EClose ∘ serial <$> concat (deferred p)) (with_deferred [] p).

Definition IdleCount (endpoint : Endpoint) (p : t) : nat := length (idle_at (ToKey endpoint) p).

(** ** Operations *)

(** [OAnswer]: an active connection reports its result; it does so once per
    exchange.  [inside]: the operations of the response callback, in order. *)
Inductive op :=
| OExecute (endpoint : Endpoint) (healthy : nat -> bool) (fresh : nat) (outcome : start_outcome) (inside : list op)
| OAnswer (connection : nat) (reusable : bool) (inside : list op)
| OCancel (connection : nat)
| OCancelAll (dispatching : bool)
| OBatchEnd.

(** The connection objects that exist. *)
Definition alive (p : t) : list connection :=
  concat (map_to_list (idle_ p)).*2 ++ (map_to_list (active_ p)).*2 ++ concat (deferred p) ++ held p.

(** The allocator hands out no address of an existing object. *)
Fixpoint exec (o : op) (p : t) : option t :=
  let run := fix run (os : list op) (p : t) : option t :=
    match os with
    | [] => Some p
    | o :: os => p ← exec o p; run os p
    end in
  match o with
  | OExecute endpoint healthy fresh outcome inside =>
      if bool_decide (fresh ∈ pointer <$> alive p) then None
      else '(p, _, _) ← Execute endpoint healthy fresh outcome (run inside) p; Some p
  | OAnswer c reusable inside => owned ← active_ p !! c; Complete c (key owned) reusable (run inside) p
  | OCancel c => Some (Cancel c p).1
  | OCancelAll d => Some (CancelAll d p)
  | OBatchEnd => Some (run_batch p)
  end.

Fixpoint run (os : list op) (p : t) : option t :=
  match os with
  | [] => Some p
  | o :: os => p ← exec o p; run os p
  end.

Lemma exec_eq o p :
  exec o p =
  match o with
  | OExecute endpoint healthy fresh outcome inside =>
      if bool_decide (fresh ∈ pointer <$> alive p) then None
      else '(p, _, _) ← Execute endpoint healthy fresh outcome (run inside) p; Some p
  | OAnswer c reusable inside => owned ← active_ p !! c; Complete c (key owned) reusable (run inside) p
  | OCancel c => Some (Cancel c p).1
  | OCancelAll d => Some (CancelAll d p)
  | OBatchEnd => Some (run_batch p)
  end.
Proof. by destruct o. Qed.

(** Induction over operations and what happens inside them. *)
Section OpInd.
Context (P : op -> Prop).
Context (HE : forall endpoint healthy fresh outcome inside, Forall P inside -> P (OExecute endpoint healthy fresh outcome inside)).
Context (HA : forall c reusable inside, Forall P inside -> P (OAnswer c reusable inside)).
Context (HC : forall c, P (OCancel c)) (HL : forall d, P (OCancelAll d)) (HB : P OBatchEnd).

Fixpoint op_nested_ind (o : op) : P o :=
  let all := fix all (os : list op) : Forall P os :=
    match os with [] => Forall_nil_2 P | o :: os => Forall_cons_2 P o os (op_nested_ind o) (all os) end in
  match o with
  | OExecute endpoint healthy fresh outcome inside => HE endpoint healthy fresh outcome inside (all inside)
  | OAnswer c reusable inside => HA c reusable inside (all inside)
  | OCancel c => HC c
  | OCancelAll d => HL d
  | OBatchEnd => HB
  end.
End OpInd.

(** ** Where the connections are *)

Lemma idle_perm (m : gmap Key (list connection)) k l :
  concat (map_to_list (<[k := l]> m)).*2 ++ default [] (m !! k) ≡ₚ l ++ concat (map_to_list m).*2.
Proof.
  rewrite <- insert_delete_eq, map_to_list_insert by apply lookup_delete_eq. simpl.
  destruct (m !! k) as [l0|] eqn:E; simpl.
  - rewrite <- (insert_delete_id m k l0 E) at 2. rewrite map_to_list_insert by apply lookup_delete_eq. simpl.
    rewrite <- app_assoc. by rewrite (Permutation_app_comm _ l0).
  - rewrite delete_id by done. by rewrite app_nil_r.
Qed.

Lemma active_insert (m : gmap nat connection) i c : m !! i = None -> (map_to_list (<[i := c]> m)).*2 ≡ₚ c :: (map_to_list m).*2.
Proof. intros Hi. by rewrite map_to_list_insert. Qed.

Lemma active_delete (m : gmap nat connection) i c : m !! i = Some c -> (map_to_list m).*2 ≡ₚ c :: (map_to_list (delete i m)).*2.
Proof. intros Hi. rewrite <- (insert_delete_id m i c Hi) at 1. apply active_insert, lookup_delete_eq. Qed.

Definition idle_list (p : t) : list connection := concat (map_to_list (idle_ p)).*2.
Definition active_list (p : t) : list connection := (map_to_list (active_ p)).*2.

Definition closed (l : list event) : list nat := omap (fun e => match e with EClose s => Some s | _ => None end) l.
Definition callbacks (l : list event) : list nat := omap (fun e => match e with ECallback x => Some x | _ => None end) l.
Definition begun (l : list event) : list nat := omap (fun e => match e with EStart x _ _ _ => Some x | _ => None end) l.

Lemma closed_fmap l : closed (EClose ∘ serial <$> l) = serial <$> l.
Proof. unfold closed. induction l as [|c l IH]; [done|]. simpl. by f_equal. Qed.
Lemma callbacks_fmap l : callbacks (EClose ∘ serial <$> l) = [].
Proof. by induction l. Qed.
Lemma begun_fmap l : begun (EClose ∘ serial <$> l) = [].
Proof. by induction l. Qed.

Lemma borrow_spec healthy l found rest dead :
  borrow healthy l = (found, rest, dead) -> l = dead ++ option_list found ++ rest.
Proof.
  revert found rest dead. induction l as [|c l IH]; intros found rest dead; simpl; [by intros [= <- <- <-]|].
  destruct (healthy (pointer c)); [by intros [= <- <- <-]|].
  destruct (borrow healthy l) as [[f r] d]. intros [= <- <- <-]. by rewrite (IH f r d eq_refl).
Qed.

(** ** Invariant *)

Record inv (p : t) : Prop := {
  i_serials : (serial <$> alive p) ++ closed (log p) ≡ₚ seq 0 (serials p);
  i_exchanges : (exchange <$> active_list p) ++ completed p ++ cancelled p ++ failed p ≡ₚ seq 0 (exchanges p);
  i_pointers : NoDup (pointer <$> alive p);
  i_idle : forall k l, idle_ p !! k = Some l -> (length l <= 1)%nat /\ Forall (fun c => to c = k) l;
  i_active : forall i c, active_ p !! i = Some c -> pointer c = i /\ key c = to c;
  i_callbacks : callbacks (log p) = completed p;
  i_begun : NoDup (begun (log p)) /\ Forall (fun x => (x < exchanges p)%nat) (begun (log p));
  i_target : Forall (fun e => match e with EStart _ k _ k' => k' = k | _ => True end) (log p)
}.

Lemma make_pool_inv : inv make.
Proof.
  constructor; simpl; try done; [apply NoDup_nil_2|split; [apply NoDup_nil_2|apply Forall_nil_2]].
Qed.

Lemma alive_perm (p : t) : alive p ≡ₚ idle_list p ++ active_list p ++ concat (deferred p) ++ held p.
Proof. done. Qed.

(** A step in which connections are closed and none is made. *)
Lemma closing_serials (p p' : t) (dead : list connection) :
  inv p -> serials p' = serials p ->
  (serial <$> alive p') ++ (serial <$> dead) ≡ₚ serial <$> alive p ->
  closed (log p') = closed (log p) ++ (serial <$> dead) ->
  (serial <$> alive p') ++ closed (log p') ≡ₚ seq 0 (serials p').
Proof. intros Hi -> Ha ->. pose proof (i_serials p Hi) as H. clear Hi. perm_lia. Qed.

Lemma closing_pointers (p p' : t) (dead : list connection) :
  inv p -> (pointer <$> alive p') ++ (pointer <$> dead) ≡ₚ pointer <$> alive p -> NoDup (pointer <$> alive p').
Proof. intros Hi Ha. pose proof (i_pointers p Hi) as H. rewrite <- Ha in H. by apply NoDup_app in H as [H _]. Qed.

(** The ways an active connection leaves: closed or into the idle store. *)
Lemma leave_closed (f : connection -> nat) (p : t) i owned :
  active_ p !! i = Some owned ->
  (f <$> alive (with_active (delete i (active_ p)) p)) ++ [f owned] ≡ₚ f <$> alive p.
Proof.
  intros Hi. unfold alive. simpl. rewrite (active_delete _ _ _ Hi), !fmap_app, !fmap_cons. solve_Permutation.
Qed.

Lemma leave_idle (f : connection -> nat) (p : t) i owned k :
  active_ p !! i = Some owned -> idle_at k p = [] ->
  (f <$> alive (with_idle (<[k := [owned]]> (idle_ p)) (with_active (delete i (active_ p)) p))) ++ [] ≡ₚ f <$> alive p.
Proof.
  intros Hi Hk. unfold alive. simpl. pose proof (idle_perm (idle_ p) k [owned]) as Hp.
  unfold idle_at in Hk. rewrite Hk, app_nil_r in Hp. rewrite Hp, (active_delete _ _ _ Hi), !fmap_app, !fmap_cons.
  solve_Permutation.
Qed.

Lemma omap_log {A} (g : event -> option A) l es : omap g (l ++ es) = omap g l ++ omap g es.
Proof. apply omap_app. Qed.

(** An active exchange ends: its connection stays in one place or is closed. *)
Lemma leave_inv (p p' : t) i owned dead es :
  inv p -> active_ p !! i = Some owned ->
  active_ p' = delete i (active_ p) -> serials p' = serials p -> exchanges p' = exchanges p ->
  (forall f : connection -> nat, (f <$> alive p') ++ (f <$> dead) ≡ₚ f <$> alive p) ->
  (forall k l, idle_ p' !! k = Some l -> (length l <= 1)%nat /\ Forall (fun c => to c = k) l) ->
  completed p' ++ cancelled p' ++ failed p' ≡ₚ exchange owned :: completed p ++ cancelled p ++ failed p ->
  log p' = log p ++ es -> closed es = serial <$> dead -> begun es = [] ->
  Forall (fun e => match e with EStart _ _ _ _ => False | _ => True end) es ->
  callbacks (log p') = completed p' ->
  inv p'.
Proof.
  intros Hi Hl Ha Hs He Hall Hidle Hend Hlog Hcl Hb Ht Hcb. constructor; try done.
  - apply (closing_serials p p' dead); [done..|]. rewrite Hlog, <- Hcl. apply omap_log.
  - unfold active_list. rewrite Ha, He, <- (i_exchanges p Hi). unfold active_list.
    rewrite (active_delete _ _ _ Hl), Hend, fmap_cons. solve_Permutation.
  - by apply (closing_pointers p p' dead).
  - rewrite Ha. intros j c Hj. apply lookup_delete_Some in Hj as [_ Hj]. by apply (i_active p Hi).
  - rewrite Hlog, He. unfold begun in *. rewrite omap_log, Hb, app_nil_r. apply (i_begun p Hi).
  - rewrite Hlog. apply Forall_app. split; [apply (i_target p Hi)|]. eapply Forall_impl; [done|]. by intros [].
Qed.

Lemma leave_held (f : connection -> nat) (p : t) i owned :
  active_ p !! i = Some owned ->
  (f <$> alive (with_held (owned :: held p) (with_active (delete i (active_ p)) p))) ++ [] ≡ₚ f <$> alive p.
Proof.
  intros Hi. unfold alive. simpl. rewrite (active_delete _ _ _ Hi), !fmap_app, !fmap_cons. solve_Permutation.
Qed.

Lemma settle_inv p c owned reusable :
  inv p -> active_ p !! c = Some owned ->
  inv (settle owned (key owned) reusable p) /\
  held (settle owned (key owned) reusable p) = (if reusable then held p else owned :: held p).
Proof.
  intros Hi Hc. unfold settle. pose proof (i_active p Hi c owned Hc) as [-> Hk].
  assert (Hcb : forall es, callbacks es = [exchange owned] -> callbacks (log p ++ es) = completed p ++ [exchange owned]).
  { intros es Hes. rewrite <- (i_callbacks p Hi), <- Hes. apply omap_log. }
  destruct reusable; [destruct (idle_at (key owned) _) as [|c0 l0] eqn:E|]; (split; [|done]).
  - eapply (leave_inv p _ c owned [] [ECallback (exchange owned)]); try done.
    + intros f. by apply (leave_idle f p c owned).
    + intros k l. simpl. destruct (decide (k = key owned)) as [->|Hne].
      * rewrite lookup_insert_eq. intros [= <-]. simpl. split; [lia|]. by repeat constructor.
      * rewrite lookup_insert_ne by done. apply (i_idle p Hi).
    + simpl. solve_Permutation.
    + by repeat constructor.
    + by apply Hcb.
  - eapply (leave_inv p _ c owned [owned] [EClose (serial owned); ECallback (exchange owned)]); try done.
    + intros f. by apply (leave_closed f p c owned).
    + apply (i_idle p Hi).
    + simpl. solve_Permutation.
    + simpl. by rewrite <- app_assoc.
    + by repeat constructor.
    + simpl. rewrite <- app_assoc. by apply Hcb.
  - eapply (leave_inv p _ c owned [] [ECallback (exchange owned)]); try done.
    + intros f. by apply (leave_held f p c owned).
    + apply (i_idle p Hi).
    + simpl. solve_Permutation.
    + by repeat constructor.
    + by apply Hcb.
Qed.

(** An exchange that ends without its callback. *)
Lemma drop_inv p p' c owned :
  inv p -> active_ p !! c = Some owned ->
  active_ p' = delete c (active_ p) -> idle_ p' = idle_ p -> deferred p' = deferred p -> held p' = held p ->
  serials p' = serials p -> exchanges p' = exchanges p -> completed p' = completed p ->
  cancelled p' ++ failed p' ≡ₚ exchange owned :: cancelled p ++ failed p ->
  log p' = log p ++ [EClose (serial owned)] -> inv p'.
Proof.
  intros Hi Hc Ha Hid Hd Hh Hs He Hco Hend Hlog.
  eapply (leave_inv p p' c owned [owned] [EClose (serial owned)]); try done.
  - intros f. rewrite <- (leave_closed f p c owned Hc). unfold alive. by rewrite Ha, Hid, Hd, Hh.
  - rewrite Hid. apply (i_idle p Hi).
  - rewrite Hco, Hend. solve_Permutation.
  - by repeat constructor.
  - rewrite Hlog, Hco, <- (i_callbacks p Hi). unfold callbacks. by rewrite omap_log, app_nil_r.
Qed.

Lemma Cancel_inv p c : inv p -> inv (Cancel c p).1.
Proof.
  intros Hi. unfold Cancel. destruct (active_ p !! c) as [owned|] eqn:Hc; [|done].
  eapply (drop_inv p _ c owned); try done. simpl. solve_Permutation.
Qed.

(** Connections outside the active table are closed. *)
Lemma log_closing p es (dead : list connection) :
  inv p -> es = EClose ∘ serial <$> dead ->
  closed (log p ++ es) = closed (log p) ++ (serial <$> dead) /\
  callbacks (log p ++ es) = completed p /\
  (NoDup (begun (log p ++ es)) /\ Forall (fun x => (x < exchanges p)%nat) (begun (log p ++ es))) /\
  Forall (fun e => match e with EStart _ k _ k' => k' = k | _ => True end) (log p ++ es).
Proof.
  intros Hi ->. unfold closed, callbacks, begun. rewrite !omap_log.
  rewrite closed_fmap, callbacks_fmap, begun_fmap, !app_nil_r. refine (conj _ (conj _ (conj _ _))); [done|apply (i_callbacks p Hi)|apply (i_begun p Hi)|].
  apply Forall_app. split; [apply (i_target p Hi)|]. apply Forall_fmap, Forall_true. done.
Qed.

Lemma CancelAll_inv p d : inv p -> inv (CancelAll d p).
Proof.
  intros Hi. unfold CancelAll.
  assert (Hex : cancelled p ++ (exchange <$> active_list p) ≡ₚ (exchange <$> active_list p) ++ cancelled p) by solve_Permutation.
  assert (Hs : (exchange <$> ([] : list connection)) ++ completed p ++ (cancelled p ++ (exchange <$> active_list p)) ++ failed p
               ≡ₚ seq 0 (exchanges p)).
  { rewrite <- (i_exchanges p Hi), Hex. simpl. solve_Permutation. }
  destruct d.
  - assert (Ha : forall f : connection -> nat, f <$> alive (with_deferred (deferred p ++ [active_list p]) (with_active ∅ p)) ≡ₚ f <$> alive p).
    { intros f. unfold alive. simpl. rewrite concat_app. simpl. rewrite app_nil_r. apply fmap_Permutation.
      unfold active_list. solve_Permutation. }
    destruct Hi. constructor; try done.
    + by rewrite <- i_serials0, <- (Ha serial).
    + eapply NoDup_Permutation_proper; [apply (Ha pointer)|done].
  - assert (Ha : forall f : connection -> nat, (f <$> alive (with_active ∅ p)) ++ (f <$> active_list p) ≡ₚ f <$> alive p).
    { intros f. rewrite <- fmap_app. apply fmap_Permutation. unfold alive, active_list. simpl. solve_Permutation. }
    destruct (log_closing p _ (active_list p) Hi eq_refl) as (Hcl & Hcb & Hb & Ht).
    constructor; try done.
    + by apply (closing_serials p _ (active_list p)).
    + by apply (closing_pointers p _ (active_list p)).
    + apply (i_idle p Hi).
Qed.

Lemma run_batch_inv p : inv p -> inv (run_batch p).
Proof.
  intros Hi. unfold run_batch.
  assert (Ha : forall f : connection -> nat, (f <$> alive (with_deferred [] p)) ++ (f <$> concat (deferred p)) ≡ₚ f <$> alive p).
  { intros f. rewrite <- fmap_app. apply fmap_Permutation. unfold alive. simpl. solve_Permutation. }
  destruct (log_closing p _ (concat (deferred p)) Hi eq_refl) as (Hcl & Hcb & Hb & Ht).
  constructor; try done.
  - by apply (closing_serials p _ (concat (deferred p))).
  - apply (i_exchanges p Hi).
  - by apply (closing_pointers p _ (concat (deferred p))).
  - apply (i_idle p Hi).
  - apply (i_active p Hi).
Qed.

(** *** Complete *)

(** What the callback does keeps the invariant and the stack. *)
Definition keeps (f : t -> option t) : Prop := forall p p', inv p -> f p = Some p' -> inv p' /\ held p' = held p.

Lemma release_inv p owned h :
  inv p -> held p = owned :: h -> inv (release owned false p) /\ held (release owned false p) = h.
Proof.
  intros Hi Hh. unfold release. rewrite Hh. cbn [tail].
  assert (Ha : forall f : connection -> nat, (f <$> alive (with_held h p)) ++ (f <$> [owned]) ≡ₚ f <$> alive p).
  { intros f. rewrite <- fmap_app. apply fmap_Permutation. unfold alive. simpl. rewrite Hh. solve_Permutation. }
  destruct (log_closing p _ [owned] Hi eq_refl) as (Hcl & Hcb & Hb & Ht). split; [|done].
  constructor; try done.
  - by apply (closing_serials p _ [owned]).
  - apply (i_exchanges p Hi).
  - by apply (closing_pointers p _ [owned]).
  - apply (i_idle p Hi).
  - apply (i_active p Hi).
Qed.

Lemma Complete_inv p c owned reusable callback p' :
  inv p -> active_ p !! c = Some owned -> keeps callback ->
  Complete c (key owned) reusable callback p = Some p' -> inv p' /\ held p' = held p.
Proof.
  intros Hi Hc Hf. unfold Complete. rewrite Hc. intros H. apply bind_Some in H as (p1 & H1 & [= <-]).
  destruct (settle_inv p c owned reusable Hi Hc) as [Hs Hh].
  destruct (Hf _ _ Hs H1) as [Hi1 Hh1]. rewrite Hh in Hh1. destruct reusable; [done|]. by apply release_inv.
Qed.

Lemma drop_active_inv raw p : inv p -> inv (drop_active raw p) /\ held (drop_active raw p) = held p.
Proof.
  intros Hi. unfold drop_active. destruct (active_ p !! raw) as [c|] eqn:Hc; [|done]. split; [|done].
  eapply (drop_inv p _ raw c Hi Hc); try done. simpl. solve_Permutation.
Qed.

(** *** Execute *)

(** The state when [Start] is called. *)
Definition taken (endpoint : Endpoint) (healthy : nat -> bool) (fresh : nat) (p : t) : connection :=
  match (borrow healthy (idle_at (ToKey endpoint) p)).1.1 with
  | Some c => mkConnection (pointer c) (serial c) (to c) (exchanges p) (ToKey endpoint)
  | None => mkConnection fresh (serials p) (ToKey endpoint) (exchanges p) (ToKey endpoint)
  end.

Definition started (endpoint : Endpoint) (healthy : nat -> bool) (fresh : nat) (p : t) : t :=
  let '(found, rest, dead) := borrow healthy (idle_at (ToKey endpoint) p) in
  let owned := taken endpoint healthy fresh p in
  mk (<[ToKey endpoint := rest]> (idle_ p)) (<[pointer owned := owned]> (active_ p)) (deferred p) (held p)
     (serials p + (if found then 0 else 1)) (S (exchanges p)) (completed p) (cancelled p) (failed p)
     ((log p ++ (EClose ∘ serial <$> dead)) ++ [EStart (exchanges p) (ToKey endpoint) (serial owned) (to owned)]).

(** The connection that is taken is not in use. *)
Lemma taken_idle endpoint healthy fresh p :
  inv p -> fresh ∉ pointer <$> alive p -> active_ p !! pointer (taken endpoint healthy fresh p) = None.
Proof.
  intros Hi Hf. destruct (active_ p !! _) as [c|] eqn:E; [|done]. exfalso.
  pose proof (i_active p Hi _ _ E) as [Hp _].
  assert (Hc : c ∈ active_list p).
  { unfold active_list. apply list_elem_of_fmap. exists (pointer (taken endpoint healthy fresh p), c). split; [done|]. by apply elem_of_map_to_list. }
  unfold taken in *. destruct (borrow healthy _) as [[[c0|] rest] dead] eqn:B; simpl in *.
  - apply borrow_spec in B. unfold idle_at in B.
    destruct (idle_ p !! ToKey endpoint) as [l|] eqn:L; simpl in B; [subst l|by destruct dead].
    pose proof (i_pointers p Hi) as Hn. unfold alive in Hn. rewrite fmap_app in Hn.
    apply NoDup_app in Hn as (_ & Hn & _). apply (Hn (pointer c)).
    + rewrite Hp. apply list_elem_of_fmap. exists c0. split; [done|]. apply list_elem_of_In, in_concat.
      exists (dead ++ [c0] ++ rest). rewrite <- !list_elem_of_In. split; [|set_solver].
      apply list_elem_of_fmap. eexists (_, _). split; [|by apply elem_of_map_to_list]. done.
    + rewrite fmap_app. apply elem_of_app. left. by apply list_elem_of_fmap_2.
  - apply Hf. rewrite <- Hp. apply list_elem_of_fmap_2. unfold alive. rewrite !elem_of_app. right. by left.
Qed.

Lemma taken_perm (f : connection -> nat) endpoint healthy fresh p found rest dead :
  (forall q e k c, f (mkConnection (pointer c) (serial c) q e k) = f c) ->
  inv p -> fresh ∉ pointer <$> alive p -> borrow healthy (idle_at (ToKey endpoint) p) = (found, rest, dead) ->
  (f <$> alive (started endpoint healthy fresh p)) ++ (f <$> dead)
  ≡ₚ (f <$> alive p) ++ (if found then [] else [f (taken endpoint healthy fresh p)]).
Proof.
  intros Hext Hi Hf B. pose proof (taken_idle endpoint healthy fresh p Hi Hf) as Hn.
  pose proof (idle_perm (idle_ p) (ToKey endpoint) rest) as Hp.
  unfold started. rewrite B. fold (idle_at (ToKey endpoint) p) in Hp. rewrite (borrow_spec _ _ _ _ _ B) in Hp.
  apply (fmap_Permutation f) in Hp. unfold alive. cbn [idle_ active_ deferred held]. rewrite !fmap_app.
  rewrite (fmap_Permutation f _ _ (active_insert _ _ _ Hn)), fmap_cons.
  destruct found as [c|]; simpl in Hp.
  - assert (Hc : f (taken endpoint healthy fresh p) = f c) by (unfold taken; rewrite B; apply Hext).
    rewrite Hc. rewrite !fmap_app, fmap_cons in Hp. clear Hext Hi Hf. perm_lia.
  - rewrite !fmap_app in Hp. clear Hext Hi Hf. perm_lia.
Qed.

Lemma taken_to endpoint healthy fresh p : inv p -> to (taken endpoint healthy fresh p) = ToKey endpoint.
Proof.
  intros Hi. unfold taken. destruct (borrow _ _) as [[[c|] rest] dead] eqn:B; [|done]. simpl.
  apply borrow_spec in B. unfold idle_at in B. destruct (idle_ p !! ToKey endpoint) as [l|] eqn:L; [|by destruct dead].
  simpl in B. subst l. apply (i_idle p Hi) in L as [_ L]. decompose_Forall. done.
Qed.

Lemma borrow_rest p k healthy found rest dead :
  inv p -> borrow healthy (idle_at k p) = (found, rest, dead) -> (length rest <= 1)%nat /\ Forall (fun c => to c = k) rest.
Proof.
  intros Hi B. apply borrow_spec in B. unfold idle_at in B. destruct (idle_ p !! k) as [l|] eqn:L; simpl in B.
  - subst l. apply (i_idle p Hi) in L as [L1 L2]. rewrite !length_app in L1.
    apply Forall_app in L2 as [_ L2]. apply Forall_app in L2 as [_ L2]. split; [lia|done].
  - destruct dead, found, rest; try done. simpl. split; [lia|constructor].
Qed.

Lemma started_inv endpoint healthy fresh p :
  inv p -> fresh ∉ pointer <$> alive p -> inv (started endpoint healthy fresh p).
Proof.
  intros Hi Hf. pose proof (taken_idle endpoint healthy fresh p Hi Hf) as Hn.
  pose proof (taken_to endpoint healthy fresh p Hi) as Hto.
  destruct (borrow healthy (idle_at (ToKey endpoint) p)) as [[found rest] dead] eqn:B.
  pose proof (taken_perm serial endpoint healthy fresh p found rest dead ltac:(done) Hi Hf B) as Hs.
  pose proof (taken_perm pointer endpoint healthy fresh p found rest dead ltac:(done) Hi Hf B) as Hp.
  destruct (log_closing p _ dead Hi eq_refl) as (Hcl & Hcb & [Hb Hbl] & Ht).
  assert (Hex : exchange (taken endpoint healthy fresh p) = exchanges p /\ key (taken endpoint healthy fresh p) = ToKey endpoint).
  { unfold taken. by destruct (borrow _ _) as [[[c|] ?] ?]. }
  assert (Hlog : log (started endpoint healthy fresh p) = (log p ++ (EClose ∘ serial <$> dead)) ++
      [EStart (exchanges p) (ToKey endpoint) (serial (taken endpoint healthy fresh p)) (to (taken endpoint healthy fresh p))])
    by (unfold started; by rewrite B).
  constructor.
  - rewrite Hlog. unfold closed. rewrite omap_log. fold closed. rewrite app_nil_r. fold (closed (log p ++ (EClose ∘ serial <$> dead))).
    rewrite Hcl. replace (serials (started endpoint healthy fresh p)) with (serials p + (if found then 0 else 1))%nat
      by (unfold started; by rewrite B).
    pose proof (i_serials p Hi) as H0. rewrite seq_app, <- H0. simpl.
    assert (Hnew : found = None -> serial (taken endpoint healthy fresh p) = serials p) by (intros ->; unfold taken; by rewrite B).
    destruct found; [|rewrite (Hnew eq_refl) in Hs]; simpl in *; clear Hp; perm_lia.
  - unfold started. rewrite B. cbn [exchanges completed cancelled failed]. unfold active_list. cbn [active_].
    rewrite (active_insert _ _ _ Hn), fmap_cons. destruct Hex as [-> _].
    rewrite seq_S. rewrite <- (i_exchanges p Hi). simpl. unfold active_list. solve_Permutation.
  - pose proof (i_pointers p Hi) as H0.
    assert (Hn2 : NoDup ((pointer <$> alive p) ++ (if found then [] else [pointer (taken endpoint healthy fresh p)]))).
    { destruct found; [by rewrite app_nil_r|]. apply NoDup_app. split_and!; [done| |apply NoDup_singleton].
      intros x Hx ->%list_elem_of_singleton. apply Hf. unfold taken in Hx. rewrite B in Hx. done. }
    rewrite <- Hp in Hn2. by apply NoDup_app in Hn2 as [Hn2 _].
  - unfold started. rewrite B. cbn [idle_]. intros k l. destruct (decide (k = ToKey endpoint)) as [->|Hne].
    + rewrite lookup_insert_eq. intros [= <-]. by apply (borrow_rest p (ToKey endpoint) healthy found rest dead).
    + rewrite lookup_insert_ne by done. apply (i_idle p Hi).
  - unfold started. rewrite B. cbn [active_]. intros i c. destruct (decide (i = pointer (taken endpoint healthy fresh p))) as [->|Hne].
    + rewrite lookup_insert_eq. intros [= <-]. split; [done|]. destruct Hex as [_ ->]. done.
    + rewrite lookup_insert_ne by done. apply (i_active p Hi).
  - rewrite Hlog. unfold callbacks. rewrite omap_log, app_nil_r. fold (callbacks (log p ++ (EClose ∘ serial <$> dead))).
    rewrite Hcb. unfold started. by rewrite B.
  - rewrite Hlog. unfold begun in *. rewrite omap_log. simpl.
    replace (exchanges (started endpoint healthy fresh p)) with (S (exchanges p)) by (unfold started; by rewrite B).
    split.
    + apply NoDup_app. split_and!; [done| |apply NoDup_singleton].
      intros x Hx ->%list_elem_of_singleton. rewrite Forall_forall in Hbl. specialize (Hbl _ Hx). lia.
    + apply Forall_app. split; [|repeat constructor; lia]. eapply Forall_impl; [done|]. simpl. lia.
  - rewrite Hlog. apply Forall_app. split; [done|]. by repeat constructor.
Qed.

(** [Execute] reaches [Start], and then does what the outcome says; the table of
    active connections never holds the taken connection already. *)
Lemma Execute_started endpoint healthy fresh outcome callback p :
  inv p -> fresh ∉ pointer <$> alive p ->
  let st := started endpoint healthy fresh p in
  let raw := pointer (taken endpoint healthy fresh p) in
  Execute endpoint healthy fresh outcome callback p =
  match outcome with
  | Pending => Some (st, returned raw st, false)
  | Answered reusable => p ← Complete raw (ToKey endpoint) reusable callback st; Some (p, returned raw p, false)
  | Throws => Some (drop_active raw st, None, true)
  | AnsweredThrows reusable => p ← Complete raw (ToKey endpoint) reusable callback st; Some (drop_active raw p, None, true)
  end.
Proof.
  intros Hi Hf st raw. pose proof (taken_idle endpoint healthy fresh p Hi Hf) as Hn.
  subst st raw. unfold started, taken in *. unfold Execute.
  destruct (borrow healthy _) as [[[c|] rest] dead] eqn:B; simpl in *; rewrite Hn.
  - rewrite Nat.add_0_r. by destruct outcome.
  - rewrite Nat.add_1_r. by destruct outcome.
Qed.

Lemma started_active_entry endpoint healthy fresh p :
  active_ (started endpoint healthy fresh p) !! pointer (taken endpoint healthy fresh p) = Some (taken endpoint healthy fresh p).
Proof. unfold started. destruct (borrow _ _) as [[? ?] ?]. apply lookup_insert_eq. Qed.

Lemma taken_fields endpoint healthy fresh p :
  exchange (taken endpoint healthy fresh p) = exchanges p /\ key (taken endpoint healthy fresh p) = ToKey endpoint.
Proof. unfold taken. by destruct (borrow _ _) as [[[c|] ?] ?]. Qed.

Lemma Execute_inv endpoint healthy fresh outcome callback p p' r x :
  inv p -> fresh ∉ pointer <$> alive p -> keeps callback ->
  Execute endpoint healthy fresh outcome callback p = Some (p', r, x) -> inv p' /\ held p' = held p.
Proof.
  intros Hi Hf Hk. rewrite (Execute_started endpoint healthy fresh outcome callback p Hi Hf).
  pose proof (started_inv endpoint healthy fresh p Hi Hf) as Hs.
  pose proof (started_active_entry endpoint healthy fresh p) as Ha.
  destruct (taken_fields endpoint healthy fresh p) as [_ Hkey].
  assert (Hh : held (started endpoint healthy fresh p) = held p) by (unfold started; by destruct (borrow _ _) as [[? ?] ?]).
  rewrite <- Hkey, <- Hh. destruct outcome as [|reusable| |reusable]; cbn zeta.
  - by intros [= <- _ _].
  - intros H. apply bind_Some in H as (p1 & H1 & [= <- _ _]). by eapply Complete_inv.
  - intros [= <- _ _]. by apply drop_active_inv.
  - intros H. apply bind_Some in H as (p1 & H1 & [= <- _ _]).
    destruct (Complete_inv _ _ _ _ _ _ Hs Ha Hk H1) as [Hi1 Hh1]. rewrite <- Hh1. by apply drop_active_inv.
Qed.

Lemma run_keeps os : Forall (fun o => keeps (exec o)) os -> keeps (run os).
Proof.
  induction 1 as [|o os Ho _ IH]; intros p p' Hi H; simpl in H; [by injection H as <-|].
  apply bind_Some in H as (p1 & H1 & H). destruct (Ho _ _ Hi H1) as [Hi1 Hh1].
  destruct (IH _ _ Hi1 H) as [Hi2 Hh2]. split; [done|congruence].
Qed.

Lemma pool_exec_keeps o : keeps (exec o).
Proof.
  induction o as [endpoint healthy fresh outcome inside IH|c r inside IH|c|d|] using op_nested_ind;
    intros p p' Hi; rewrite exec_eq.
  - case_bool_decide as Hf; [done|]. intros H. apply bind_Some in H as ([[p1 r] x] & H1 & [= <-]).
    eapply Execute_inv; [done|done| |exact H1]. by apply run_keeps.
  - intros H. apply bind_Some in H as (owned & Hc & H). eapply Complete_inv; [done|done| |exact H]. by apply run_keeps.
  - intros [= <-]. split; [by apply Cancel_inv|]. unfold Cancel. by case_match.
  - intros [= <-]. split; [by apply CancelAll_inv|]. unfold CancelAll. by case_match.
  - intros [= <-]. split; [by apply run_batch_inv|done].
Qed.

Lemma pool_run_inv os p p' : inv p -> run os p = Some p' -> inv p' /\ held p' = held p.
Proof. apply run_keeps. apply Forall_forall. intros o _. apply pool_exec_keeps. Qed.

(** ** What holds in every run *)

(** C29: However exchanges, answers, cancellations and event batches follow each
    other, and whatever the response callbacks do with the pool while it answers
    them (starting further exchanges included, nested to any depth), the pool
    keeps at most one idle connection per endpoint, an exchange is only sent on a
    connection made for the requested address and port, a connection object is
    at one place at a time (idle, serving one exchange, or waiting to be closed)
    and, once it leaves, has been closed exactly once; every exchange is under
    way or has ended in exactly one way, and its callback runs exactly once when
    it completed and never when it was cancelled or failed.  With no exchange
    under way and nothing deferred, every connection ever made is idle or
    closed. *)
Theorem pool_exact os p :
  run os make = Some p ->
  (forall endpoint, (IdleCount endpoint p <= 1)%nat) /\
  Forall (fun e => match e with EStart _ k _ k' => k' = k | _ => True end) (log p) /\
  NoDup (pointer <$> alive p) /\
  (serial <$> alive p) ++ closed (log p) ≡ₚ seq 0 (serials p) /\
  (exchange <$> active_list p) ++ completed p ++ cancelled p ++ failed p ≡ₚ seq 0 (exchanges p) /\
  callbacks (log p) = completed p /\
  (forall x, x ∈ cancelled p ++ failed p -> x ∉ callbacks (log p)) /\
  (active_ p = ∅ -> deferred p = [] -> (serial <$> idle_list p) ++ closed (log p) ≡ₚ seq 0 (serials p)).
Proof.
  intros Hr. destruct (pool_run_inv os make p make_pool_inv Hr) as [Hi Hheld].
  assert (Hn : NoDup ((exchange <$> active_list p) ++ completed p ++ cancelled p ++ failed p)).
  { rewrite (i_exchanges p Hi). apply NoDup_seq. }
  split_and!; try apply Hi.
  - intros endpoint. unfold IdleCount, idle_at. destruct (idle_ p !! ToKey endpoint) as [l|] eqn:E; simpl; [|lia].
    by apply (i_idle p Hi) in E as [E _].
  - intros x Hx. rewrite (i_callbacks p Hi). apply NoDup_app in Hn as (_ & _ & Hn). apply NoDup_app in Hn as (_ & Hn & _).
    intros Hc. by apply (Hn x).
  - intros Ha Hd. rewrite <- (i_serials p Hi). unfold alive. rewrite Ha, Hd, Hheld, map_to_list_empty. simpl. by rewrite app_nil_r.
Qed.

(** Two endpoints; a reused connection, one closed for being the second to come
    back, a cancelled exchange and one that fails to start, an address given to
    a new object, an answer whose callback starts an exchange that fails at once
    and whose callback starts another, and a shutdown inside an event callback. *)
Definition example_endpoint (port : Z) : Endpoint := mkEndpoint [] (10, 0, 0, 1) port 1.

Definition example_ops : list op :=
  [ OExecute (example_endpoint 80) (fun _ => true) 1 Pending [];
    OExecute (example_endpoint 80) (fun _ => true) 2 Pending [];
    OAnswer 2 true []; OAnswer 1 true [];
    OExecute (example_endpoint 80) (fun _ => true) 1 Pending [];
    OCancel 2;
    OExecute (example_endpoint 90) (fun _ => true) 3 (Answered true) [];
    OExecute (example_endpoint 90) (fun _ => false) 4 Throws [];
    OExecute (example_endpoint 80) (fun _ => true) 3 Pending [];
    OAnswer 3 false [OExecute (example_endpoint 80) (fun _ => true) 5 (Answered false)
                       [OExecute (example_endpoint 80) (fun _ => true) 6 Pending []]];
    OCancelAll true; OBatchEnd ].

Lemma pool_exact_witness : exists p, run example_ops make = Some p /\
  completed p = [1; 0; 3; 5; 6]%nat /\ cancelled p = [2; 7]%nat /\ failed p = [4]%nat /\
  NoDup (pointer <$> alive p) /\ (serial <$> idle_list p) ++ closed (log p) ≡ₚ seq 0 (serials p).
Proof.
  eexists. split; [vm_compute; reflexivity|]. split_and!; [reflexivity..| |].
  - apply (pool_exact example_ops). vm_compute. reflexivity.
  - apply (pool_exact example_ops); vm_compute; reflexivity.
Defined.

End UpstreamPool.
