(* ===== verification/HealthChecker.v ===== *)
(** * The active health checker of one endpoint

    Models src/src/health/HealthChecker.cpp: one probe at a time over its own
    upstream connection, a timeout timer for the probe, a timer for the next
    one, and generations that make timers and results of earlier probes inert.
    The timer queue is the modelled one and is shared with other users; the
    connection's [Start] and its result are given with each operation
    (UpstreamConnection models them).  The report callback is the last thing
    an operation does, so what it does to the checker (it may stop it) is the
    next operation. *)

From S2P Require Import Prelude Bytes Types HttpText HttpRequest HttpResponse UpstreamConnection ClientConnection TimerQueue.

Module HealthChecker.
Import HttpResponse.
Import UpstreamConnection(UpstreamResult, kSuccess, kConnectError, kEof).
Import ClientConnection(EqualsIgnoreCase).

Definition HasContentLength (response : HttpResponse) : bool :=
  existsb (fun f => EqualsIgnoreCase f.1 (lit "content-length")) (headers response).

Record HealthCheckConfig := mkConfig { interval : Z; timeout : Z }.

(** The callbacks in the timer queue; [Foreign] belongs to another user. *)
Inductive callback := Timeout (generation : Z) | Next (generation : Z) | Foreign.

Definition queue := TimerQueue.t callback.

(** What happens: the checker is started or stopped, a probe connection is made,
    it answers, expires or fails to start, it is closed, the callback is told. *)
Inductive event :=
| EStart
| EStop
| EProbe (generation : Z)
| EAnswer (result : UpstreamResult) (response : HttpResponse)
| EExpired
| EFailed
| EClose (generation : Z)
| EReport (healthy : bool).

(** [connection_]: the generation its callback captured. *)
Record t := mk {
  config_ : HealthCheckConfig;
  running_ : bool;
  generation_ : Z;
  timeout_timer_ : Z;
  connection_ : option Z;
  timers_ : queue;
  log : list event
}.

Definition with_running (b : bool) (c : t) : t :=
  mk (config_ c) b (generation_ c) (timeout_timer_ c) (connection_ c) (timers_ c) (log c).
Definition with_generation (g : Z) (c : t) : t :=
  mk (config_ c) (running_ c) g (timeout_timer_ c) (connection_ c) (timers_ c) (log c).
Definition with_timeout_timer (id : Z) (c : t) : t :=
  mk (config_ c) (running_ c) (generation_ c) id (connection_ c) (timers_ c) (log c).
Definition with_connection (o : option Z) (c : t) : t :=
  mk (config_ c) (running_ c) (generation_ c) (timeout_timer_ c) o (timers_ c) (log c).
Definition with_timers (q : queue) (c : t) : t :=
  mk (config_ c) (running_ c) (generation_ c) (timeout_timer_ c) (connection_ c) q (log c).
Definition say (es : list event) (c : t) : t :=
  mk (config_ c) (running_ c) (generation_ c) (timeout_timer_ c) (connection_ c) (timers_ c) (log c ++ es).

(** [None] is [std::invalid_argument]. *)
Definition make (config : HealthCheckConfig) (q : queue) : option t :=
  if (interval config <=? 0) || (timeout config <=? 0) then None
  else Some (mk config false 0 0 None q []).

(** [connection_.reset()], after [Close] or not: the descriptor is closed. *)
Definition drop_connection (c : t) : t :=
  match connection_ c with
  | None => c
  | Some g => with_connection None (say [EClose g] c)
  end.

Definition cancel_timeout (c : t) : t :=
  let c := if timeout_timer_ c =? 0 then c
           else with_timers (TimerQueue.Cancel (timeout_timer_ c) (timers_ c)).2 c in
  with_timeout_timer 0 c.

(** [None] is an exception of the timer queue. *)
Definition ScheduleNext (now : Z) (generation : Z) (c : t) : option t :=
  if negb (generation =? generation_ c) then Some c
  else
    let c := with_generation (wrap_u64 (generation_ c + 1)) c in
    '(_, q) ← TimerQueue.ScheduleAfter now (interval (config_ c)) (Next (generation_ c)) (timers_ c);
    Some (with_timers q c).

Definition FinishCheck (now : Z) (generation : Z) (healthy : bool) (c : t) : option t :=
  c ← (if running_ c && (generation =? generation_ c) then ScheduleNext now generation c else Some c);
  Some (say [EReport healthy] c).

Definition HandleResult (now : Z) (generation : Z) (result : UpstreamResult) (response : HttpResponse) (c : t) : option t :=
  if negb (running_ c) || negb (generation =? generation_ c) then Some c
  else
    let c := cancel_timeout (say [EAnswer result response] c) in
    let healthy := bool_decide (result = kSuccess) && ((200 <=? status response) && (status response <=? 299))
                   && HasContentLength response in
    FinishCheck now generation healthy (drop_connection c).

Definition HandleTimeout (now : Z) (generation : Z) (c : t) : option t :=
  if negb (running_ c) || negb (generation =? generation_ c) then Some c
  else
    let c := with_timeout_timer 0 (say [EExpired] c) in
    FinishCheck now generation false (drop_connection c).

(** How [Start] of the connection ends: the exchange is under way, its result
    has been reported already, or it throws. *)
Inductive start_outcome := Pending | Answered (result : UpstreamResult) (response : HttpResponse) | Throws.

(** [now] and [later]: the clock at the two calls of [ScheduleAfter].  A connection
    that is replaced is destroyed after the new one was made. *)
Definition RunCheck (now later : Z) (generation : Z) (outcome : start_outcome) (c : t) : option t :=
  if negb (running_ c) || negb (generation =? generation_ c) then Some c
  else
    '(id, q) ← TimerQueue.ScheduleAfter now (timeout (config_ c)) (Timeout generation) (timers_ c);
    let c := with_timeout_timer id (with_timers q c) in
    let c := with_connection (Some generation) (drop_connection (say [EProbe generation] c)) in
    match outcome with
    | Pending => Some c
    | Answered result response => HandleResult later generation result response c
    | Throws => FinishCheck later generation false (drop_connection (say [EFailed] c))
    end.

(** [None]: [std::logic_error] when it is running already. *)
Definition Start (now later : Z) (outcome : start_outcome) (c : t) : option t :=
  if running_ c then None
  else
    let c := say [EStart] (with_generation (wrap_u64 (generation_ c + 1)) (with_running true c)) in
    RunCheck now later (generation_ c) outcome c.

(** Also the destructor. *)
Definition Stop (c : t) : t :=
  let c := with_generation (wrap_u64 (generation_ c + 1)) (with_running false c) in
  drop_connection (say [EStop] (cancel_timeout c)).

(** ** Operations *)

Definition run_callback (now later : Z) (outcome : start_outcome) (k : callback) (c : t) : option t :=
  match k with
  | Timeout g => HandleTimeout later g c
  | Next g => RunCheck now later g outcome c
  | Foreign => Some c
  end.

(** [OFire]: the first timer that is due at [clock] fires.  [OResult]: a probe
    connection that was made reports, however late.  [OForeign]: another user
    of the queue schedules a timer. *)
Inductive op :=
| OStart (now later : Z) (outcome : start_outcome)
| OStop
| OFire (clock now later : Z) (outcome : start_outcome)
| OResult (now : Z) (generation : Z) (result : UpstreamResult) (response : HttpResponse)
| OForeign (now delay : Z).

Definition exec (o : op) (c : t) : option t :=
  match o with
  | OStart now later outcome => if running_ c then Some c else Start now later outcome c
  | OStop => Some (Stop c)
  | OFire clock now later outcome =>
      match TimerQueue.pop_due clock (timers_ c) with
      | None => Some c
      | Some (x, q) => run_callback now later outcome (TimerQueue.callback x) (with_timers q c)
      end
  | OResult now generation result response =>
      if existsb (fun e => match e with EProbe g => g =? generation | _ => false end) (log c)
      then HandleResult now generation result response c else None
  | OForeign now delay =>
      match TimerQueue.ScheduleAfter now delay Foreign (timers_ c) with
      | None => Some c
      | Some (_, q) => Some (with_timers q c)
      end
  end.

Fixpoint run (os : list op) (c : t) : option t :=
  match os with
  | [] => Some c
  | o :: os => c ← exec o c; run os c
  end.

(** ** The specification

    The checker's life as an automaton over the events. *)
Inductive phase :=
| Stopped
| Due
| Probing (generation : Z)
| Judged (generation : Z) (healthy : bool)
| Closed (healthy : bool)
| Waiting
| Stopping (generation : Z).

(** A successful exchange with a 2xx status and a Content-Length field. *)
Definition is_healthy (result : UpstreamResult) (response : HttpResponse) : Prop :=
  result = kSuccess /\ 200 <= status response <= 299 /\
  exists name value, (name, value) ∈ headers response /\ lower_all name = lit "content-length".

Inductive step : phase -> event -> phase -> Prop :=
| s_start : step Stopped EStart Due
| s_first g : step Due (EProbe g) (Probing g)
| s_next g : step Waiting (EProbe g) (Probing g)
| s_healthy g r resp : is_healthy r resp -> step (Probing g) (EAnswer r resp) (Judged g true)
| s_unhealthy g r resp : ~ is_healthy r resp -> step (Probing g) (EAnswer r resp) (Judged g false)
| s_expired g : step (Probing g) EExpired (Judged g false)
| s_failed g : step (Probing g) EFailed (Judged g false)
| s_closed g b : step (Judged g b) (EClose g) (Closed b)
| s_report b : step (Closed b) (EReport b) Waiting
| s_stop : step Stopped EStop Stopped
| s_stop_waiting : step Waiting EStop Stopped
| s_stop_probing g : step (Probing g) EStop (Stopping g)
| s_stopped g : step (Stopping g) (EClose g) Stopped.

Inductive steps : phase -> list event -> phase -> Prop :=
| steps_nil p : steps p [] p
| steps_cons p e q es r : step p e q -> steps q es r -> steps p (e :: es) r.

Definition phase_of (c : t) : phase :=
  if running_ c then match connection_ c with Some g => Probing g | None => Waiting end else Stopped.

(** ** Events and phases *)

Lemma steps_snoc p es q e r : steps p es q -> step q e r -> steps p (es ++ [e]) r.
Proof. induction 1; intros Hs; simpl; [by repeat econstructor|econstructor; eauto]. Qed.

Lemma steps_app p es q es' r : steps p es q -> steps q es' r -> steps p (es ++ es') r.
Proof. induction 1; intros Hs; simpl; [done|econstructor; eauto]. Qed.

Lemma EqualsIgnoreCase_lower l r : EqualsIgnoreCase l r = true <-> lower_all l = lower_all r.
Proof.
  revert r. induction l as [|c l IH]; intros [|d r]; simpl; try done.
  rewrite andb_true_iff, bool_decide_eq_true, IH. split; [intros [-> ->]; done|intros [= -> ->]; done].
Qed.

Lemma HasContentLength_spec response :
  HasContentLength response = true <->
  exists name value, (name, value) ∈ headers response /\ lower_all name = lit "content-length".
Proof.
  unfold HasContentLength. rewrite existsb_exists. split.
  - intros ([n v] & Hin & Heq). exists n, v. split; [by apply list_elem_of_In|]. by apply EqualsIgnoreCase_lower in Heq.
  - intros (n & v & Hin & Heq). exists (n, v). split; [by apply list_elem_of_In|]. by apply EqualsIgnoreCase_lower.
Qed.

Lemma healthy_spec result response :
  bool_decide (result = kSuccess) && ((200 <=? status response) && (status response <=? 299)) && HasContentLength response = true
  <-> is_healthy result response.
Proof.
  unfold is_healthy. rewrite !andb_true_iff, bool_decide_eq_true, !Z.leb_le, HasContentLength_spec. tauto.
Qed.

(** ** Invariant *)

Definition entries (c : t) : list (TimerQueue.entry callback) := TimerQueue.timers_ (timers_ c).

(** What holds inside an operation: no timer and no probe is of a generation to
    come, and no timer for a next probe is of the current one. *)
Record loose (c : t) : Prop := {
  l_wf : TimerQueue.wf (timers_ c);
  l_gen : 0 <= generation_ c;
  l_config : 0 < interval (config_ c) /\ 0 < timeout (config_ c);
  l_probes : forall g, EProbe g ∈ log c -> g <= generation_ c;
  l_timeouts : forall x g, x ∈ entries c -> TimerQueue.callback x = Timeout g -> g <= generation_ c;
  l_nexts : forall x g, x ∈ entries c -> TimerQueue.callback x = Next g -> g < generation_ c
}.

(** Between operations, the timers and results that still count are those of the
    probe under way, or of the wait for the next one. *)
Record inv (c : t) : Prop := {
  v_wf : TimerQueue.wf (timers_ c);
  v_gen : 0 <= generation_ c;
  v_config : 0 < interval (config_ c) /\ 0 < timeout (config_ c);
  v_probes : forall g, EProbe g ∈ log c -> g <= generation_ c /\ (g = generation_ c -> connection_ c = Some g);
  v_timeouts : forall x g, x ∈ entries c -> TimerQueue.callback x = Timeout g ->
               g <= generation_ c /\ (g = generation_ c -> connection_ c = Some g);
  v_nexts : forall x g, x ∈ entries c -> TimerQueue.callback x = Next g ->
            g <= generation_ c /\ (g = generation_ c -> running_ c = true /\ connection_ c = None);
  v_unique : forall x y, x ∈ entries c -> y ∈ entries c ->
             TimerQueue.callback x = Next (generation_ c) -> TimerQueue.callback y = Next (generation_ c) -> x = y;
  v_probing : forall g, connection_ c = Some g -> running_ c = true /\ g = generation_ c /\
              exists x, x ∈ entries c /\ TimerQueue.callback x = Timeout g /\ TimerQueue.identifier x = timeout_timer_ c;
  v_waiting : running_ c = true -> connection_ c = None ->
              exists x, x ∈ entries c /\ TimerQueue.callback x = Next (generation_ c);
  v_log : steps Stopped (log c) (phase_of c)
}.

(** Room for [n] more generations and timers. *)
Definition room (n : Z) (c : t) : Prop :=
  generation_ c + n < u64_modulus /\ TimerQueue.next_identifier_ (timers_ c) + n < u64_modulus.

Definition grows (n : Z) (c c' : t) : Prop :=
  generation_ c' <= generation_ c + n /\
  TimerQueue.next_identifier_ (timers_ c') <= TimerQueue.next_identifier_ (timers_ c) + n.

(** *** The end of a probe *)
Lemma FinishCheck_inv now healthy c :
  loose c -> room 1 c -> running_ c = true -> connection_ c = None -> steps Stopped (log c) (Closed healthy) ->
  exists c', FinishCheck now (generation_ c) healthy c = Some c' /\ inv c' /\ grows 1 c c'.
Proof.
  intros [Lw Lg Lc Lp Lt Ln] [Rg Rn] Hr Hc Hlog. unfold FinishCheck, ScheduleNext.
  rewrite Hr, Z.eqb_refl. simpl. rewrite wrap_u64_small by mlia.
  destruct (TimerQueue.ScheduleAfter_ok now (interval (config_ c)) (Next (generation_ c + 1)) (timers_ c) Lw ltac:(lia) ltac:(lia))
    as (q' & -> & Hw' & Hn' & Hy). simpl. eexists. split; [reflexivity|]. split; [|split; simpl; lia].
  assert (Hlog' : steps Stopped (log c ++ [EReport healthy]) Waiting) by (eapply steps_snoc; [done|constructor]).
  constructor; unfold entries in *; simpl; rewrite ?Hc; try done.
  - lia.
  - intros g [Hg|Hg%list_elem_of_singleton]%elem_of_app; [|done]. apply Lp in Hg. lia.
  - intros x g [->|Hx]%Hy Hk; [done|]. specialize (Lt x g Hx Hk). lia.
  - intros x g [->|Hx]%Hy Hk; [simpl in Hk; injection Hk as <-; rewrite Hr; split; [lia|done]|].
    specialize (Ln x g Hx Hk). lia.
  - intros x y [->|Hx]%Hy [->|Hx']%Hy Hk Hk'; [done|..];
      [specialize (Ln _ _ Hx' Hk')|specialize (Ln _ _ Hx Hk)|specialize (Ln _ _ Hx Hk)]; lia.
  - intros _ _. eexists. rewrite Hy. split; [by left|done].
  - unfold phase_of. simpl. by rewrite Hr, Hc.
Qed.

Lemma inv_loose c : inv c -> connection_ c <> None \/ running_ c = false -> loose c.
Proof.
  intros Hi Hp. constructor; try apply Hi.
  intros x g Hx Hk. destruct (v_nexts c Hi x g Hx Hk) as [Hle Heq].
  destruct (Z.eq_dec g (generation_ c)) as [->|]; [|lia]. destruct (Heq eq_refl) as [Hr Hc]. destruct Hp; congruence.
Qed.

(** Events other than probes, and cancelled timers, leave the rest as it is. *)
Lemma loose_say c es : (forall g, EProbe g ∉ es) -> loose c -> loose (say es c).
Proof.
  intros He Hl. destruct Hl. constructor; try done. simpl. intros g [Hg|Hg]%elem_of_app; [auto|]. by apply He in Hg.
Qed.

Lemma loose_cancel c : loose c -> loose (cancel_timeout c).
Proof.
  intros [Lw Lg Lc Lp Lt Ln]. unfold cancel_timeout. destruct (timeout_timer_ c =? 0); [by constructor|].
  destruct (TimerQueue.Cancel_wf (timeout_timer_ c) (timers_ c) Lw) as [Hw Hy].
  constructor; unfold entries in *; simpl; try done; intros x g [Hx _]%Hy; eauto.
Qed.

Lemma cancel_timeout_fields c :
  running_ (cancel_timeout c) = running_ c /\ generation_ (cancel_timeout c) = generation_ c /\
  connection_ (cancel_timeout c) = connection_ c /\ log (cancel_timeout c) = log c /\
  TimerQueue.next_identifier_ (timers_ (cancel_timeout c)) = TimerQueue.next_identifier_ (timers_ c).
Proof.
  unfold cancel_timeout. destruct (timeout_timer_ c =? 0); simpl; split_and!; try done.
  apply TimerQueue.Cancel_next.
Qed.

Lemma finish_probe now healthy c :
  loose c -> room 1 c -> running_ c = true -> connection_ c = Some (generation_ c) ->
  steps Stopped (log c) (Judged (generation_ c) healthy) ->
  exists c', FinishCheck now (generation_ c) healthy (drop_connection c) = Some c' /\ inv c' /\ grows 1 c c'.
Proof.
  intros Hl Hroom Hr Hc Hlog. unfold drop_connection. rewrite Hc.
  apply (FinishCheck_inv now healthy (with_connection None (say [EClose (generation_ c)] c))); try done.
  - apply (loose_say c [EClose (generation_ c)]) in Hl; [|set_solver]. by destruct Hl.
  - simpl. eapply steps_snoc; [done|constructor].
Qed.

Lemma drop_none c : connection_ c = None -> drop_connection c = c.
Proof. unfold drop_connection. by intros ->. Qed.

Lemma phase_probing c g : running_ c = true -> connection_ c = Some g -> phase_of c = Probing g.
Proof. unfold phase_of. by intros -> ->. Qed.

Lemma HandleResult_inv now g result response c :
  inv c -> room 1 c -> connection_ c = Some g ->
  exists c', HandleResult now g result response c = Some c' /\ inv c' /\ grows 1 c c'.
Proof.
  intros Hi Hroom Hc. destruct (v_probing c Hi g Hc) as (Hr & -> & _). unfold HandleResult. rewrite Hr, Z.eqb_refl. simpl.
  set (healthy := _ && HasContentLength response).
  set (c1 := say [EAnswer result response] c).
  destruct (cancel_timeout_fields c1) as (Er & Eg & Ec & El & En).
  destruct (finish_probe now healthy (cancel_timeout c1)) as (c' & E & Hi' & Hg).
  - apply loose_cancel, loose_say; [set_solver|]. apply inv_loose; [done|]. left. congruence.
  - unfold room. rewrite Eg, En. exact Hroom.
  - by rewrite Er.
  - by rewrite Eg, Ec.
  - rewrite Eg, El. simpl. apply (steps_snoc _ _ (Probing (generation_ c))); [rewrite <- (phase_probing c _ Hr Hc); apply Hi|].
    destruct healthy eqn:Eh; constructor; rewrite <- healthy_spec; fold healthy; congruence.
  - rewrite Eg in E. exists c'. split_and!; [done|done|]. unfold grows in *. rewrite Eg, En in Hg. exact Hg.
Qed.

Lemma HandleTimeout_inv now g c :
  loose c -> room 1 c -> running_ c = true -> connection_ c = Some (generation_ c) -> steps Stopped (log c) (Probing (generation_ c)) ->
  g = generation_ c ->
  exists c', HandleTimeout now g c = Some c' /\ inv c' /\ grows 1 c c'.
Proof.
  intros Hl Hroom Hr Hc Hlog ->. unfold HandleTimeout. rewrite Hr, Z.eqb_refl. simpl.
  destruct (finish_probe now false (with_timeout_timer 0 (say [EExpired] c))) as (c' & E & Hi' & Hg); try done; [..|by eauto].
  - apply (loose_say c [EExpired]) in Hl; [|set_solver]. by destruct Hl.
  - simpl. eapply steps_snoc; [done|constructor].
Qed.

(** *** The begin of a probe *)
Lemma RunCheck_inv now later outcome c p :
  loose c -> room 2 c -> running_ c = true -> connection_ c = None ->
  steps Stopped (log c) p -> p = Due \/ p = Waiting ->
  exists c', RunCheck now later (generation_ c) outcome c = Some c' /\ inv c' /\ grows 2 c c'.
Proof.
  intros Hl Hroom Hr Hc Hlog Hp. pose proof Hl as [Lw Lg Lc Lp Lt Ln]. unfold RunCheck. rewrite Hr, Z.eqb_refl. simpl.
  destruct Hroom as [Rg Rn].
  destruct (TimerQueue.ScheduleAfter_ok now (timeout (config_ c)) (Timeout (generation_ c)) (timers_ c) Lw ltac:(lia) ltac:(lia))
    as (q' & -> & Hw' & Hn' & Hy). cbn [mbind option_bind].
  rewrite (drop_none (say [EProbe (generation_ c)] _)) by exact Hc.
  set (c1 := with_connection (Some (generation_ c)) _).
  assert (Hi1 : inv c1 /\ generation_ c1 = generation_ c /\ TimerQueue.next_identifier_ (timers_ c1) = TimerQueue.next_identifier_ (timers_ c) + 1).
  { split; [|by subst c1]. subst c1. constructor; unfold entries in *; simpl; try done.
    - intros g [Hg|Hg%list_elem_of_singleton]%elem_of_app; [|by injection Hg as ->]. split; [by apply Lp|]. by intros ->.
    - intros x g [->|Hx]%Hy Hk; [by injection Hk as ->|]. split; [by apply (Lt x)|]. by intros ->.
    - intros x g [->|Hx]%Hy Hk; [done|]. specialize (Ln x g Hx Hk). lia.
    - intros x y [->|Hx]%Hy ? Hk; [done|]. specialize (Ln _ _ Hx Hk). lia.
    - intros g [= <-]. split_and!; [done|done|]. eexists. rewrite Hy. split; [by left|done].
    - unfold phase_of. simpl. rewrite Hr. eapply steps_snoc; [done|]. destruct Hp as [-> | ->]; constructor. }
  destruct Hi1 as (Hi1 & Hg1 & Hq1).
  assert (Hroom1 : room 1 c1) by (unfold room; rewrite Hg1, Hq1; lia).
  destruct outcome as [|result response|].
  - exists c1. split_and!; [done|done|]. unfold grows. rewrite Hg1, Hq1. lia.
  - destruct (HandleResult_inv later (generation_ c) result response c1 Hi1 Hroom1 eq_refl) as (c' & E & Hi' & [G1 G2]).
    exists c'. split_and!; [done|done|]. unfold grows. rewrite Hg1 in G1. rewrite Hq1 in G2. lia.
  - destruct (finish_probe later false (say [EFailed] c1)) as (c' & E & Hi' & [G1 G2]); try done.
    + apply loose_say; [set_solver|]. apply inv_loose; [done|]. by left.
    + simpl. subst c1. simpl. eapply steps_snoc; [eapply steps_snoc; [done|destruct Hp as [-> | ->]; constructor]|constructor].
    + exists c'. split_and!; [done|done|]. unfold grows. simpl in G1, G2. rewrite Hn' in G2. lia.
Qed.

Lemma stopped_no_connection c : inv c -> running_ c = false -> connection_ c = None.
Proof. intros Hi Hr. destruct (connection_ c) as [g|] eqn:E; [|done]. destruct (v_probing c Hi g E) as [? _]. congruence. Qed.

Lemma loose_generation c n : loose c -> 0 <= n -> loose (with_generation (generation_ c + n) c).
Proof.
  intros [Lw Lg Lc Lp Lt Ln] Hn. constructor; unfold entries in *; simpl; try done; [lia|..].
  - intros g Hg. apply Lp in Hg. lia.
  - intros x g Hx Hk. specialize (Lt x g Hx Hk). lia.
  - intros x g Hx Hk. specialize (Ln x g Hx Hk). lia.
Qed.

Lemma Start_inv now later outcome c :
  inv c -> room 3 c -> running_ c = false ->
  exists c', Start now later outcome c = Some c' /\ inv c' /\ grows 3 c c'.
Proof.
  intros Hi [Rg Rn] Hr. unfold Start. rewrite Hr. pose proof (v_gen c Hi) as Hg. rewrite wrap_u64_small by mlia.
  pose proof (stopped_no_connection c Hi Hr) as Hc.
  set (c1 := say [EStart] _).
  destruct (RunCheck_inv now later outcome c1 Due) as (c' & E & Hi' & G1 & G2).
  - pose proof (loose_generation c 1 (inv_loose c Hi (or_intror Hr)) ltac:(lia)) as Hl.
    apply (loose_say _ [EStart]) in Hl; [|set_solver]. by destruct Hl.
  - unfold room. simpl. lia.
  - done.
  - done.
  - simpl. pose proof (v_log c Hi) as Hlog. unfold phase_of in Hlog. rewrite Hr in Hlog. eapply steps_snoc; [done|constructor].
  - by left.
  - exists c'. split_and!; [done|done|]. unfold grows in *. simpl in *. lia.
Qed.

Lemma Stop_loose c :
  inv c -> room 1 c ->
  let c1 := cancel_timeout (with_generation (wrap_u64 (generation_ c + 1)) (with_running false c)) in
  TimerQueue.wf (timers_ c1) /\ generation_ c1 = generation_ c + 1 /\
  (forall x g, x ∈ entries c1 -> TimerQueue.callback x = Timeout g -> g < generation_ c1) /\
  (forall x g, x ∈ entries c1 -> TimerQueue.callback x = Next g -> g < generation_ c1).
Proof.
  intros Hi [Rg Rn] c1. pose proof (v_gen c Hi). subst c1. rewrite wrap_u64_small by mlia.
  assert (Hsub : forall x, x ∈ entries (cancel_timeout (with_generation (generation_ c + 1) (with_running false c))) -> x ∈ entries c).
  { unfold cancel_timeout, entries. simpl. destruct (timeout_timer_ c =? 0); [done|]. simpl. intros x Hx.
    by apply (TimerQueue.Cancel_wf (timeout_timer_ c) (timers_ c) (v_wf c Hi)) in Hx as [Hx _]. }
  destruct (cancel_timeout_fields (with_generation (generation_ c + 1) (with_running false c))) as (_ & Eg & _).
  rewrite Eg. simpl. split_and!; [|done|..].
  - unfold cancel_timeout. simpl. destruct (timeout_timer_ c =? 0); simpl; [apply Hi|]. by apply TimerQueue.Cancel_wf, Hi.
  - intros x g Hx%Hsub Hk. pose proof (v_timeouts c Hi x g Hx Hk). lia.
  - intros x g Hx%Hsub Hk. pose proof (v_nexts c Hi x g Hx Hk). lia.
Qed.

Lemma Stop_log c :
  inv c -> steps Stopped (log (Stop c)) Stopped /\ connection_ (Stop c) = None /\ running_ (Stop c) = false /\
  (forall g, EProbe g ∈ log (Stop c) -> EProbe g ∈ log c).
Proof.
  intros Hi. unfold Stop, drop_connection.
  destruct (cancel_timeout_fields (with_generation (wrap_u64 (generation_ c + 1)) (with_running false c))) as (Er & _ & Ec & El & _).
  set (c1 := cancel_timeout _) in *. clearbody c1. simpl in *. rewrite Ec. pose proof (v_log c Hi) as Hlog. unfold phase_of in Hlog.
  destruct (connection_ c) as [g|] eqn:E; simpl.
  - destruct (v_probing c Hi g E) as (Hr & -> & _). rewrite Hr in Hlog. rewrite El, Er. simpl. split_and!; try done.
    + eapply steps_snoc; [eapply steps_snoc; [done|constructor]|constructor].
    + intros g' [[Hg|Hg%list_elem_of_singleton]%elem_of_app|Hg%list_elem_of_singleton]%elem_of_app; done.
  - rewrite El, Er, Ec. simpl. split_and!; try done.
    + eapply steps_snoc; [done|]. destruct (running_ c); constructor.
    + intros g' [Hg|Hg%list_elem_of_singleton]%elem_of_app; done.
Qed.

Lemma drop_fields c :
  running_ (drop_connection c) = running_ c /\ generation_ (drop_connection c) = generation_ c /\
  timers_ (drop_connection c) = timers_ c /\ config_ (drop_connection c) = config_ c.
Proof. unfold drop_connection. by destruct (connection_ c). Qed.

Lemma Stop_inv c : inv c -> room 1 c -> inv (Stop c) /\ grows 1 c (Stop c).
Proof.
  intros Hi Hroom. destruct (Stop_loose c Hi Hroom) as (Hw & Eg & Ht & Hn). destruct (Stop_log c Hi) as (Hlog & Ec & Er & Hp).
  unfold Stop in *.
  destruct (cancel_timeout_fields (with_generation (wrap_u64 (generation_ c + 1)) (with_running false c))) as (_ & _ & _ & _ & Hq).
  assert (Hcf : config_ (cancel_timeout (with_generation (wrap_u64 (generation_ c + 1)) (with_running false c))) = config_ c)
    by (unfold cancel_timeout; by destruct (_ =? 0)).
  set (c1 := cancel_timeout _) in *. clearbody c1. simpl in Hq.
  destruct (drop_fields (say [EStop] c1)) as (Dr & Dg & Dt & Dc). simpl in Dr, Dg, Dt, Dc.
  pose proof (v_gen c Hi). split; [|unfold grows; rewrite Dg, Dt, Hq, Eg; lia].
  constructor; unfold entries in *; rewrite ?Ec, ?Dg, ?Dt, ?Dc, ?Er, ?Eg, ?Hcf; try done.
  - lia.
  - apply Hi.
  - intros g Hg%Hp. apply (v_probes c Hi) in Hg. lia.
  - intros x g Hx Hk. specialize (Ht x g Hx Hk). lia.
  - intros x g Hx Hk. specialize (Hn x g Hx Hk). lia.
  - intros x y Hx _ Hk. specialize (Hn x _ Hx Hk). lia.
  - unfold phase_of. by rewrite Er.
Qed.

(** *** Timers *)
Lemma pop_stale c clock x q :
  inv c -> TimerQueue.pop_due clock (timers_ c) = Some (x, q) ->
  TimerQueue.callback x <> Timeout (generation_ c) -> TimerQueue.callback x <> Next (generation_ c) ->
  inv (with_timers q c).
Proof.
  intros Hi E Ht Hn. destruct (TimerQueue.pop_due_wf _ _ _ _ (v_wf c Hi) E) as (Hw & _ & Hx & _ & Hy & _).
  constructor; unfold entries in *; simpl; try apply Hi; try done.
  - intros y g Hin. apply (v_timeouts c Hi). apply Hy. by right.
  - intros y g Hin. apply (v_nexts c Hi). apply Hy. by right.
  - intros y z Hin Hin'. apply (v_unique c Hi); apply Hy; by right.
  - intros g Hc. destruct (v_probing c Hi g Hc) as (Hr & -> & y & Hin & Hk & Hid). split_and!; try done.
    exists y. split_and!; [|done|done]. apply Hy in Hin as [->|]; [congruence|done].
  - intros Hr Hc. destruct (v_waiting c Hi Hr Hc) as (y & Hin & Hk). exists y. split; [|done].
    apply Hy in Hin as [->|]; [congruence|done].
Qed.

Lemma stale_callback now later outcome k c :
  k <> Timeout (generation_ c) -> k <> Next (generation_ c) -> run_callback now later outcome k c = Some c.
Proof.
  intros Ht Hn. destruct k as [g|g|]; simpl; [| |done].
  - unfold HandleTimeout. destruct (Z.eqb_spec g (generation_ c)) as [->|]; [done|]. by rewrite orb_true_r.
  - unfold RunCheck. destruct (Z.eqb_spec g (generation_ c)) as [->|]; [done|]. by rewrite orb_true_r.
Qed.

(** A timer of the current generation fires. *)
Lemma pop_current c clock x q now later outcome :
  inv c -> room 2 c -> TimerQueue.pop_due clock (timers_ c) = Some (x, q) ->
  TimerQueue.callback x = Timeout (generation_ c) \/ TimerQueue.callback x = Next (generation_ c) ->
  exists c', run_callback now later outcome (TimerQueue.callback x) (with_timers q c) = Some c' /\ inv c' /\ grows 2 c c'.
Proof.
  intros Hi [Rg Rn] E Hk. pose proof (TimerQueue.pop_due_next _ _ _ _ E) as Hq.
  destruct (TimerQueue.pop_due_wf _ _ _ _ (v_wf c Hi) E) as (Hw & _ & Hx & _ & Hy & Hid).
  pose proof (v_log c Hi) as Hlog. unfold phase_of in Hlog.
  assert (Hl : (forall y g, y ∈ TimerQueue.timers_ q -> TimerQueue.callback y = Next g -> g < generation_ c) -> loose (with_timers q c)).
  { intros Hnext. constructor; unfold entries in *; simpl; try apply Hi; try done.
    intros y g Hin. apply (v_timeouts c Hi). apply Hy. by right. }
  destruct Hk as [Hk|Hk]; rewrite Hk; simpl.
  - destruct (v_timeouts c Hi x _ Hx Hk) as [_ Hc]. specialize (Hc eq_refl).
    destruct (v_probing c Hi _ Hc) as (Hr & _ & _). rewrite Hr, Hc in Hlog.
    destruct (HandleTimeout_inv later (generation_ c) (with_timers q c)) as (c' & E' & Hi' & G1 & G2); try done.
    + apply Hl. intros y g Hin Hky. destruct (v_nexts c Hi y g) as [Hle Heq]; [apply Hy; by right|done|].
      destruct (Z.eq_dec g (generation_ c)) as [->|]; [|lia]. destruct (Heq eq_refl). congruence.
    + unfold room. simpl. rewrite Hq. lia.
    + exists c'. split_and!; [done|done|]. unfold grows. simpl in G1, G2. rewrite Hq in G2. lia.
  - destruct (v_nexts c Hi x _ Hx Hk) as [_ Hc]. destruct (Hc eq_refl) as [Hr Hn]. rewrite Hr, Hn in Hlog.
    destruct (RunCheck_inv now later outcome (with_timers q c) Waiting) as (c' & E' & Hi' & G1 & G2); try done.
    + apply Hl. intros y g Hin Hky. destruct (v_nexts c Hi y g) as [Hle Heq]; [apply Hy; by right|done|].
      destruct (Z.eq_dec g (generation_ c)) as [->|]; [|lia]. exfalso. apply Hid.
      rewrite (v_unique c Hi x y); [by apply list_elem_of_fmap_2|done|apply Hy; by right|done|done].
    + unfold room. simpl. rewrite Hq. lia.
    + by right.
    + exists c'. split_and!; [done|done|]. unfold grows. simpl in G1, G2. rewrite Hq in G2. lia.
Qed.

Lemma current_or_stale k g :
  (k = Timeout g \/ k = Next g) \/ (k <> Timeout g /\ k <> Next g).
Proof.
  destruct k as [g'|g'|]; [destruct (Z.eq_dec g' g) as [->|]..|]; [by left; left| |by left; right| |]; right; split; congruence.
Qed.

Lemma checker_fire_inv clock now later outcome c :
  inv c -> room 2 c -> exists c', exec (OFire clock now later outcome) c = Some c' /\ inv c' /\ grows 2 c c'.
Proof.
  intros Hi Hroom. simpl. destruct (TimerQueue.pop_due clock (timers_ c)) as [[x q]|] eqn:E.
  - destruct (current_or_stale (TimerQueue.callback x) (generation_ c)) as [Hk|[Ht Hn]].
    + by apply (pop_current c clock x q).
    + exists (with_timers q c). rewrite (stale_callback _ _ _ _ (with_timers q c) Ht Hn). split_and!; [done|by apply (pop_stale c clock x)|].
      unfold grows. simpl. rewrite (TimerQueue.pop_due_next _ _ _ _ E). lia.
  - exists c. split_and!; [done|done|]. unfold grows. lia.
Qed.

Lemma late_result_inv now g result response c c' :
  inv c -> room 1 c -> exec (OResult now g result response) c = Some c' -> inv c' /\ grows 1 c c'.
Proof.
  intros Hi Hroom. simpl. destruct (existsb _ (log c)) eqn:E; [|done]. apply existsb_exists in E as (e & Hin & He).
  destruct e as [| |g'| | | | |]; try done. apply Z.eqb_eq in He as ->. apply list_elem_of_In in Hin.
  destruct (v_probes c Hi g Hin) as [_ Hc]. destruct (Z.eq_dec g (generation_ c)) as [->|Hne].
  - destruct (HandleResult_inv now (generation_ c) result response c Hi Hroom (Hc eq_refl)) as (c1 & -> & Hi' & Hg).
    intros [= <-]. done.
  - unfold HandleResult. apply Z.eqb_neq in Hne. rewrite Hne, orb_true_r. intros [= <-]. split; [done|]. unfold grows. lia.
Qed.

Lemma foreign_inv now delay c c' :
  inv c -> room 1 c -> exec (OForeign now delay) c = Some c' -> inv c' /\ grows 1 c c'.
Proof.
  intros Hi [Rg Rn]. simpl. destruct (TimerQueue.ScheduleAfter now delay Foreign (timers_ c)) as [[id q]|] eqn:E.
  - destruct (TimerQueue.ScheduleAfter_grows _ _ _ _ _ _ (v_wf c Hi) Rn E) as (Hw & Hq & Hy). intros [= <-]. split; [|unfold grows; simpl; lia].
    constructor; unfold entries in *; simpl; try apply Hi; try done.
    + intros x g [->|Hx]%Hy; [done|]. by apply (v_timeouts c Hi).
    + intros x g [->|Hx]%Hy; [done|]. by apply (v_nexts c Hi).
    + intros x y [->|Hx]%Hy [->|Hx']%Hy; try done. by apply (v_unique c Hi).
    + intros g Hc. destruct (v_probing c Hi g Hc) as (Hr & -> & x & Hx & Hk). split_and!; try done. exists x. split; [apply Hy; by right|done].
    + intros Hr Hc. destruct (v_waiting c Hi Hr Hc) as (x & Hx & Hk). exists x. split; [apply Hy; by right|done].
  - intros [= <-]. split; [done|]. unfold grows. lia.
Qed.

Lemma checker_exec_inv o c c' : inv c -> room 3 c -> exec o c = Some c' -> inv c' /\ grows 3 c c'.
Proof.
  intros Hi Hroom Hex. pose proof Hroom as [Rg Rn].
  assert (Hr1 : room 1 c) by (unfold room; lia). assert (Hr2 : room 2 c) by (unfold room; lia).
  destruct o as [now later outcome| |clock now later outcome|now g result response|now delay].
  - simpl in Hex. destruct (running_ c) eqn:Hr; [injection Hex as <-; split; [done|unfold grows; lia]|].
    destruct (Start_inv now later outcome c Hi Hroom Hr) as (c1 & E & Hi1 & Hg). rewrite E in Hex. by injection Hex as <-.
  - injection Hex as <-. destruct (Stop_inv c Hi Hr1) as [? Hg]. split; [done|]. unfold grows in *. lia.
  - destruct (checker_fire_inv clock now later outcome c Hi Hr2) as (c1 & E & Hi1 & Hg). rewrite E in Hex. injection Hex as <-.
    split; [done|]. unfold grows in *. lia.
  - destruct (late_result_inv _ _ _ _ _ _ Hi Hr1 Hex) as [? Hg]. split; [done|]. unfold grows in *. lia.
  - destruct (foreign_inv _ _ _ _ Hi Hr1 Hex) as [? Hg]. split; [done|]. unfold grows in *. lia.
Qed.

Lemma checker_run_inv os c c' : inv c -> room (3 * Z.of_nat (length os)) c -> run os c = Some c' -> inv c' /\ grows (3 * Z.of_nat (length os)) c c'.
Proof.
  revert c. induction os as [|o os IH]; intros c Hi Hroom; simpl run.
  - intros [= <-]. split; [done|]. unfold grows. simpl. lia.
  - destruct Hroom as [Rg Rn]. simpl length in *.
    destruct (exec o c) as [c1|] eqn:E; [|done]. simpl. intros Hrun.
    destruct (checker_exec_inv o c c1 Hi ltac:(unfold room; lia) E) as [Hi1 [G1 G2]].
    destruct (IH c1 Hi1 ltac:(unfold room; lia) Hrun) as [Hi' [G1' G2']]. split; [done|]. unfold grows. lia.
Qed.

Lemma make_checker_inv config q c :
  make config q = Some c -> TimerQueue.wf q -> Forall (fun x => TimerQueue.callback x = Foreign) (TimerQueue.timers_ q) -> inv c.
Proof.
  unfold make. destruct (Z.leb_spec (interval config) 0), (Z.leb_spec (timeout config) 0); simpl; try done.
  intros [= <-] Hw Hf. rewrite Forall_forall in Hf. constructor; unfold entries; simpl; try done; try constructor; try lia.
  - by apply elem_of_nil in H1.
  - by apply elem_of_nil in H1.
  - apply Hf in H1. congruence.
  - apply Hf in H1. congruence.
  - apply Hf in H1. congruence.
  - apply Hf in H1. congruence.
  - intros x y Hx _ Hk. apply Hf in Hx. congruence.
Qed.

(** The states the checker reaches from its construction on a queue that holds
    only timers of others, within the width of generations and timer numbers. *)
Definition reached (config : HealthCheckConfig) (q : queue) (os : list op) (c : t) : Prop :=
  TimerQueue.wf q /\ Forall (fun x => TimerQueue.callback x = Foreign) (TimerQueue.timers_ q) /\
  TimerQueue.next_identifier_ q + 3 * Z.of_nat (S (length os)) < u64_modulus /\
  exists c0, make config q = Some c0 /\ run os c0 = Some c.

Lemma reached_inv config q os c : reached config q os c -> inv c /\ room 3 c.
Proof.
  intros (Hw & Hf & Hn & c0 & Hm & Hr). pose proof (make_checker_inv config q c0 Hm Hw Hf) as Hi.
  pose proof (TimerQueue.wf_next q Hw).
  assert (generation_ c0 = 0 /\ timers_ c0 = q) as [Hg Hq] by (unfold make in Hm; destruct (_ || _); [done|]; by injection Hm as <-).
  destruct (checker_run_inv os c0 c Hi) as [Hi' [G1 G2]]; [unfold room; rewrite Hg, Hq; lia|done|].
  split; [done|]. unfold room. rewrite Hg in G1. rewrite Hq in G2. lia.
Qed.

(** C31: Refinement: whatever mixture of starts, stops, timers (the checker's own,
    stale ones and those of other users) and results (late ones too) happens,
    the events of the checker are a run of the specification: one probe
    connection at a time, closed exactly once, a report exactly when the probe
    under way answered, expired or failed to start, with the verdict the
    specification gives, none after a stop; and the run ends in the phase the
    checker's members say. *)
Theorem health_checker_refines config q os c :
  reached config q os c -> steps Stopped (log c) (phase_of c).
Proof. intros [Hi _]%reached_inv. apply Hi. Qed.

(** ** Progress *)

Lemma FinishCheck_log now g healthy c c' : FinishCheck now g healthy c = Some c' -> log c' = log c ++ [EReport healthy].
Proof.
  unfold FinishCheck, ScheduleNext. destruct (running_ c && (g =? generation_ c)) eqn:E; simpl; [|by intros [= <-]].
  apply andb_true_iff in E as [_ ->]. simpl. destruct (TimerQueue.ScheduleAfter _ _ _ _) as [[id q]|]; simpl; [|done]. by intros [= <-].
Qed.

Lemma timeout_log now c g c' :
  running_ c = true -> connection_ c = Some g -> HandleTimeout now (generation_ c) c = Some c' ->
  log c' = log c ++ [EExpired; EClose g; EReport false].
Proof.
  intros Hr Hc. unfold HandleTimeout. rewrite Hr, Z.eqb_refl. simpl. intros ->%FinishCheck_log. unfold drop_connection.
  simpl. rewrite Hc. simpl. by rewrite <- !app_assoc.
Qed.

Lemma drop_log c : exists es, log (drop_connection c) = log c ++ es.
Proof. unfold drop_connection. destruct (connection_ c); [by eexists|]. exists []. by rewrite app_nil_r. Qed.

Lemma HandleResult_log now g result response c c' :
  HandleResult now g result response c = Some c' -> exists es, log c' = log c ++ es.
Proof.
  unfold HandleResult. destruct (_ || _); [intros [= <-]; exists []; by rewrite app_nil_r|].
  intros ->%FinishCheck_log. destruct (cancel_timeout_fields (say [EAnswer result response] c)) as (_ & _ & _ & El & _).
  destruct (drop_log (cancel_timeout (say [EAnswer result response] c))) as [es ->]. rewrite El. cbn [log say].
  rewrite <- !app_assoc. eauto.
Qed.

Lemma RunCheck_log now later outcome c c' :
  running_ c = true -> RunCheck now later (generation_ c) outcome c = Some c' ->
  exists es, log c' = log c ++ EProbe (generation_ c) :: es.
Proof.
  intros Hr. unfold RunCheck. rewrite Hr, Z.eqb_refl. simpl.
  destruct (TimerQueue.ScheduleAfter _ _ _ _) as [[id q]|]; [|done]. cbn [mbind option_bind].
  set (c1 := with_connection _ _). assert (Hl : exists es, log c1 = log c ++ EProbe (generation_ c) :: es).
  { subst c1. unfold drop_connection. simpl. destruct (connection_ c); simpl; rewrite <- ?app_assoc; simpl; eauto. }
  destruct Hl as [es Hl]. destruct outcome as [|result response|].
  - intros [= <-]. eauto.
  - intros [es' ->]%HandleResult_log. rewrite Hl, <- app_assoc. simpl. eauto.
  - intros ->%FinishCheck_log. destruct (drop_log (say [EFailed] c1)) as [es' ->]. cbn [log say]. rewrite Hl, <- !app_assoc. simpl. eauto.
Qed.

(** What the current timer brings about. *)
Definition advanced (c c' : t) : Prop :=
  match connection_ c with
  | Some g => log c' = log c ++ [EExpired; EClose g; EReport false]
  | None => exists es, log c' = log c ++ EProbe (generation_ c) :: es
  end.

Lemma current_advances c clock x q now later outcome c' :
  inv c -> TimerQueue.pop_due clock (timers_ c) = Some (x, q) ->
  TimerQueue.callback x = Timeout (generation_ c) \/ TimerQueue.callback x = Next (generation_ c) ->
  run_callback now later outcome (TimerQueue.callback x) (with_timers q c) = Some c' -> advanced c c'.
Proof.
  intros Hi E Hk. destruct (TimerQueue.pop_due_wf _ _ _ _ (v_wf c Hi) E) as (_ & _ & Hx & _).
  unfold advanced. destruct Hk as [Hk|Hk]; rewrite Hk; simpl.
  - destruct (v_timeouts c Hi x _ Hx Hk) as [_ Hc]. specialize (Hc eq_refl). destruct (v_probing c Hi _ Hc) as (Hr & _ & _).
    rewrite Hc. by apply (timeout_log later (with_timers q c)).
  - destruct (v_nexts c Hi x _ Hx Hk) as [_ Hc]. destruct (Hc eq_refl) as [Hr Hn]. rewrite Hn.
    by apply (RunCheck_log now later outcome (with_timers q c)).
Qed.

Lemma fires_until clock now later outcome n c x :
  inv c -> room 2 c -> length (entries c) = n -> x ∈ entries c -> TimerQueue.deadline x <= clock ->
  TimerQueue.callback x = Timeout (generation_ c) \/ TimerQueue.callback x = Next (generation_ c) ->
  exists k c', (k <= n)%nat /\ run (replicate k (OFire clock now later outcome)) c = Some c' /\ advanced c c'.
Proof.
  revert c. induction n as [|n IH]; intros c Hi Hroom Hlen Hx Hd Hk.
  { apply length_zero_iff_nil in Hlen. rewrite Hlen in Hx. by apply elem_of_nil in Hx. }
  destruct (TimerQueue.pop_due clock (timers_ c)) as [[y q]|] eqn:E.
  - destruct (TimerQueue.pop_due_wf _ _ _ _ (v_wf c Hi) E) as (Hw & _ & Hy & _ & Hyq & _).
    destruct (current_or_stale (TimerQueue.callback y) (generation_ c)) as [Hky|[Ht Hn]].
    + destruct (pop_current c clock y q now later outcome Hi Hroom E Hky) as (c' & Er & Hi' & _).
      exists 1%nat, c'. split; [lia|]. split; [simpl; rewrite E, Er; done|]. by apply (current_advances c clock y q now later outcome).
    + destruct (IH (with_timers q c)) as (k & c' & Hle & Hrun & Hadv).
      * by apply (pop_stale c clock y).
      * unfold room in *. simpl. by rewrite (TimerQueue.pop_due_next _ _ _ _ E).
      * unfold entries in *. simpl. unfold TimerQueue.pop_due in E. destruct (TimerQueue.timers_ (timers_ c)) as [|z r]; [done|].
        destruct (_ <=? _); [|done]. injection E as <- <-. simpl in *. lia.
      * unfold entries in *. simpl. apply Hyq in Hx as [->|Hx]; [destruct Hk; congruence|done].
      * done.
      * done.
      * exists (S k), c'. split; [lia|]. split; [|done]. simpl. rewrite E.
        rewrite (stale_callback _ _ _ _ (with_timers q c) Ht Hn). exact Hrun.
  - exfalso. unfold TimerQueue.pop_due, entries in *. destruct (TimerQueue.timers_ (timers_ c)) as [|z r] eqn:Eq; [by apply elem_of_nil in Hx|].
    destruct (Z.leb_spec (TimerQueue.deadline z) clock) as [|Hlt]; [done|].
    apply elem_of_cons in Hx as [->|Hx]; [lia|]. pose proof (TimerQueue.wf_sorted _ (v_wf c Hi)) as Hs. rewrite Eq in Hs.
    apply Sorted.StronglySorted_inv in Hs as [_ Hs]. rewrite Forall_forall in Hs. specialize (Hs x Hx).
    unfold TimerQueue.before, TimerQueue.key_lt in Hs. rewrite orb_true_iff, andb_true_iff, !Z.ltb_lt, Z.eqb_eq in Hs. lia.
Qed.

(** C32: The checker never stalls: while it runs, a timer of its own is pending,
    and once the clock has passed that timer's deadline, letting the due timers
    fire (at most as many as are pending) either ends the probe under way with
    an unhealthy report and its connection closed, or begins the next probe. *)
Theorem health_checker_progress config q os c :
  reached config q os c -> running_ c = true ->
  exists x, x ∈ entries c /\ forall clock now later outcome, TimerQueue.deadline x <= clock ->
  exists k c', (k <= length (entries c))%nat /\ run (replicate k (OFire clock now later outcome)) c = Some c' /\ advanced c c'.
Proof.
  intros [Hi Hroom]%reached_inv Hr. assert (Hr2 : room 2 c) by (unfold room in *; lia).
  destruct (connection_ c) as [g|] eqn:Hc.
  - destruct (v_probing c Hi g Hc) as (_ & -> & x & Hx & Hk & _). exists x. split; [done|]. intros. apply (fires_until _ _ _ _ _ c x); auto.
  - destruct (v_waiting c Hi Hr Hc) as (x & Hx & Hk). exists x. split; [done|]. intros. apply (fires_until _ _ _ _ _ c x); auto.
Qed.

(** A healthy answer, a probe that cannot start (its timeout stays in the queue),
    a late result, a restart. *)
Definition example_response : HttpResponse :=
  mkResponse 204 (lit "No Content") [(lit "Content-LENGTH", lit "0")] [] kNormal None.

Definition example_config : HealthCheckConfig := mkConfig 5000 1000.

Definition example_ops : list op :=
  [ OStart 0 0 Pending; OResult 600 1 kSuccess example_response;
    OFire 5600 5600 5600 Throws; OForeign 5600 10; OFire 7000 7000 7000 Pending; OFire 7000 7000 7000 Pending;
    OResult 7100 1 kSuccess example_response; OFire 11000 11000 11000 Pending; OStop;
    OStart 12000 12000 Pending; OStart 12000 12000 Pending ].

Lemma example_reached : exists c, reached example_config TimerQueue.make example_ops c /\ running_ c = true /\
  log c = [ EStart; EProbe 1; EAnswer kSuccess example_response; EClose 1; EReport true;
            EProbe 2; EFailed; EClose 2; EReport false; EProbe 3; EStop; EClose 3; EStart; EProbe 5 ].
Proof.
  eexists. split.
  - split; [apply TimerQueue.timers_make_wf|]. split; [apply Forall_nil_2|]. split; [reflexivity|].
    eexists. split; [reflexivity|]. vm_compute. reflexivity.
  - split; vm_compute; reflexivity.
Defined.

Lemma health_checker_refines_witness : exists c,
  reached example_config TimerQueue.make example_ops c /\ steps Stopped (log c) (Probing 5).
Proof.
  destruct example_reached as (c & Hr & Hrun & Hlog). exists c. split; [done|].
  pose proof (health_checker_refines _ _ _ _ Hr) as Hs.
  destruct Hr as (_ & _ & _ & c0 & Hm & Hr). vm_compute in Hm. injection Hm as <-. vm_compute in Hr. injection Hr as <-. exact Hs.
Defined.

Lemma health_checker_progress_witness : exists c x,
  reached example_config TimerQueue.make example_ops c /\ x ∈ entries c /\
  exists k c', (k <= length (entries c))%nat /\
    run (replicate k (OFire (TimerQueue.deadline x) 20000 20000 Pending)) c = Some c' /\ advanced c c'.
Proof.
  destruct example_reached as (c & Hr & Hrun & Hlog).
  destruct (health_checker_progress _ _ _ _ Hr Hrun) as (x & Hx & H).
  exists c, x. split; [done|]. split; [done|]. apply H. reflexivity.
Defined.

End HealthChecker.
