(* ===== verification/Double.v ===== *)
(** * Double precision numbers

    The C++ [double] of the duration metrics: IEEE binary64 in the executable
    specification of the Standard Library, its comparison and addition, the
    conversion of durations, and the text a stream with precision 17 prints. *)

From Stdlib Require Floats.SpecFloat.
From S2P Require Import Prelude Bytes HttpText.

Module Double.
Import SpecFloat HttpText.

Abbreviation double := spec_float.

Definition add (x y : double) : double := SFadd 53 1024 x y.
Definition le (x y : double) : bool := SFleb x y.
Definition lt (x y : double) : bool := SFltb x y.
Definition zero : double := S754_zero false.

(** [static_cast<double>] of an integer, rounded to nearest. *)
Definition of_Z (n : Z) : double := binary_normalize 53 1024 n 0 false.

(** The literal [n/d] for integers that are exact: division rounds correctly. *)
Definition ratio (n d : Z) : double := SFdiv 53 1024 (of_Z n) (of_Z d).

(** [std::chrono::duration<double>] of a count of nanoseconds. *)
Definition seconds (ns : Z) : double := SFdiv 53 1024 (of_Z ns) (of_Z 1000000000).

(** ** Printing: the [%.17g] format *)

(** Decimal digits of a number below 10^400. *)
Definition decimal (n : Z) : bytes := digits 400 n [].

Definition ndigits (n : Z) : Z := size (decimal n).

(** [n / d] to the nearest integer, ties to even. *)
Definition round_div (n d : Z) : Z :=
  let q := n / d in
  let r := n mod d in
  if (2 * r <? d) || ((2 * r =? d) && Z.even q) then q else q + 1.

(** [n / d] times ten to the [k], rounded. *)
Definition scaled (n d k : Z) : Z := if 0 <=? k then round_div (n * 10 ^ k) d else round_div n (d * 10 ^ (- k)).

(** The decimal exponent of [n / d]: the largest [x] with [10^x <= n / d]. *)
Definition exponent (n d : Z) : Z :=
  let x := ndigits n - ndigits d in
  if (if 0 <=? x then d * 10 ^ x <=? n else d <=? n * 10 ^ (- x)) then x else x - 1.

Definition ZERO : byte := "0"%byte.

Fixpoint strip_zeros_rev (s : bytes) : bytes :=
  match s with
  | c :: r => if bool_decide (c = ZERO) then strip_zeros_rev r else s
  | [] => []
  end.

Definition strip_zeros (s : bytes) : bytes := rev (strip_zeros_rev (rev s)).

Definition with_fraction (whole fraction : bytes) : bytes :=
  match strip_zeros fraction with [] => whole | f => whole ++ lit "." ++ f end.

Definition show_exponent (x : Z) : bytes :=
  let s := decimal (Z.abs x) in
  (if x <? 0 then lit "e-" else lit "e+") ++ (if (length s <? 2)%nat then ZERO :: s else s).

(** Seventeen significant digits of a positive number with decimal exponent [x]. *)
Definition show_digits (ds : bytes) (x : Z) : bytes :=
  if (-4 <=? x) && (x <? 17) then
    if 0 <=? x then with_fraction (take (Z.to_nat (x + 1)) ds) (drop (Z.to_nat (x + 1)) ds)
    else with_fraction [ZERO] (replicate (Z.to_nat (- x - 1)) ZERO ++ ds)
  else with_fraction (take 1 ds) (drop 1 ds) ++ show_exponent x.

Definition show_positive (m : positive) (e : Z) : bytes :=
  let '(n, d) := if 0 <=? e then (Z.pos m * 2 ^ e, 1) else (Z.pos m, 2 ^ (- e)) in
  let x := exponent n d in
  let v := scaled n d (16 - x) in
  if v =? 10 ^ 17 then show_digits (decimal (10 ^ 16)) (x + 1) else show_digits (decimal v) x.

Definition sign (s : bool) : bytes := if s then lit "-" else [].

Definition show (x : double) : bytes :=
  match x with
  | S754_zero s => sign s ++ lit "0"
  | S754_infinity s => sign s ++ lit "inf"
  | S754_nan => lit "nan"
  | S754_finite s m e => sign s ++ show_positive m e
  end.

Example show_bounds : show <$> [ratio 1 1000; ratio 5 1000; ratio 1 100; ratio 5 100; ratio 1 10; ratio 5 10; of_Z 1; of_Z 5] =
  [lit "0.001"; lit "0.0050000000000000001"; lit "0.01"; lit "0.050000000000000003"; lit "0.10000000000000001";
   lit "0.5"; lit "1"; lit "5"].
Proof. vm_compute. reflexivity. Qed.

Example show_sums : show <$> [seconds 1; seconds 123456789012; seconds 99999999; of_Z (10 ^ 20); add (ratio 1 10) (ratio 2 10)] =
  [lit "1.0000000000000001e-09"; lit "123.456789012"; lit "0.099999999000000006"; lit "1e+20"; lit "0.30000000000000004"].
Proof. vm_compute. reflexivity. Qed.

(** ** Order *)

Lemma le_finite_trans x m1 e1 m2 e2 :
  le x (S754_finite false m1 e1) = true -> le (S754_finite false m1 e1) (S754_finite false m2 e2) = true ->
  le x (S754_finite false m2 e2) = true.
Proof.
  unfold le, SFleb. destruct x as [s|[]| |[] m e]; simpl; try done.
  change (Pos.compare_cont Eq m m1) with (Pos.compare m m1). change (Pos.compare_cont Eq m1 m2) with (Pos.compare m1 m2).
  change (Pos.compare_cont Eq m m2) with (Pos.compare m m2).
  destruct (Z.compare_spec e e1), (Z.compare_spec e1 e2), (Z.compare_spec e e2); try done; try lia;
    destruct (Pos.compare_spec m m1), (Pos.compare_spec m1 m2), (Pos.compare_spec m m2); try done; lia.
Qed.

End Double.
