(* ===== verification/Metrics.v ===== *)
(** * Metrics

    Models src/src/observability/Metrics.cpp: the counters of a worker, the
    handles of requests in flight, snapshots and their sum over the workers,
    and the Prometheus text.  The mutex makes every operation one step.  A
    [std::map] is a finite map; where the code iterates over one, the model
    lists it in the order of the map's comparison. *)

From Stdlib Require Import Sorting.Sorted.
From stdpp Require Import sorting.
From S2P Require Import Prelude Bytes HttpText Double.

Module Metrics.
Import HttpText Double.

(** ** Data *)

Definition kDurationBounds : list double :=
  [ratio 1 1000; ratio 5 1000; ratio 1 100; ratio 5 100; ratio 1 10; ratio 5 10; of_Z 1; of_Z 5].

Record RequestKey := mkKey { route : bytes; status : Z; upstream : bytes; reason : bytes }.

#[global] Instance RequestKey_eq_dec : EqDecision RequestKey.
Proof. solve_decision. Defined.
#[global] Instance RequestKey_countable : Countable RequestKey.
Proof.
  apply (inj_countable' (fun k => (route k, status k, upstream k, reason k))
           (fun x => mkKey x.1.1.1 x.1.1.2 x.1.2 x.2)). by intros [].
Defined.

(** [operator<] of [std::string]: bytes compare as [unsigned char]. *)
Fixpoint bytes_lt (l r : bytes) : bool :=
  match l, r with
  | _, [] => false
  | [], _ => true
  | c :: l, d :: r => (code c <? code d) || ((code c =? code d) && bytes_lt l r)
  end.

Definition key_lt (x y : RequestKey) : bool :=
  if negb (beq (route x) (route y)) then bytes_lt (route x) (route y)
  else if negb (status x =? status y) then status x <? status y
  else if negb (beq (upstream x) (upstream y)) then bytes_lt (upstream x) (upstream y)
  else bytes_lt (reason x) (reason y).

(** [operator<] of [std::pair]. *)
Definition pair_lt (x y : bytes * bytes) : bool :=
  bytes_lt x.1 y.1 || (negb (bytes_lt y.1 x.1) && bytes_lt x.2 y.2).

Record Histogram := mkHistogram { buckets : list Z; count : Z; sum : double }.

Definition no_histogram : Histogram := mkHistogram (replicate (length kDurationBounds) 0) 0 zero.

Record Data := mkData {
  requests : gmap RequestKey Z;
  rate_limited : gmap bytes Z;
  duration : gmap bytes Histogram;
  active_connections : Z;
  inflight : Z;
  upstream_read_pauses : Z;
  upstream_read_resumes : Z
}.

Definition no_data : Data := mkData ∅ ∅ ∅ 0 0 0 0.

(** [Metrics::State]: the counters that [Snapshot] copies, and the protection
    state. *)
Record State := mkState {
  data : Data;
  circuit_states : gmap (bytes * bytes) bytes;
  upstream_health : gmap (bytes * bytes) bool
}.

Record ProtectionSample := mkSample { s_route : bytes; s_upstream : bytes; s_state : bytes; s_healthy : bool }.

(** ** Counting *)

Definition increment {K} `{Countable K} (k : K) (m : gmap K Z) : gmap K Z :=
  <[ k := wrap_u64 (default 0 (m !! k) + 1) ]> m.

(** The bucket loop: the first bound the duration does not exceed. *)
Fixpoint bump (seconds : double) (bounds : list double) (bs : list Z) : list Z :=
  match bounds, bs with
  | b :: bounds, n :: bs => if le seconds b then wrap_u64 (n + 1) :: bs else n :: bump seconds bounds bs
  | _, bs => bs
  end.

Definition observe_duration (seconds : double) (h : Histogram) : Histogram :=
  mkHistogram (bump seconds kDurationBounds (buckets h)) (wrap_u64 (count h + 1)) (add (sum h) seconds).

(** [Record]. *)
Definition record (r : bytes) (st : Z) (up : bytes) (limited : bool) (seconds : double) (why : bytes) (d : Data) : Data :=
  mkData (increment (mkKey r st up why) (requests d))
         (if limited then increment r (rate_limited d) else rate_limited d)
         (<[ r := observe_duration seconds (default no_histogram (duration d !! r)) ]> (duration d))
         (active_connections d) (inflight d) (upstream_read_pauses d) (upstream_read_resumes d).

Definition with_inflight (n : Z) (d : Data) : Data :=
  mkData (requests d) (rate_limited d) (duration d) (active_connections d) n (upstream_read_pauses d) (upstream_read_resumes d).

Definition RecordImmediate (r : bytes) (st : Z) (up : bytes) (limited : bool) (why : bytes) (d : Data) : Data :=
  record r st up limited zero why d.

Definition SetActiveConnections (n : Z) (d : Data) : Data :=
  mkData (requests d) (rate_limited d) (duration d) n (inflight d) (upstream_read_pauses d) (upstream_read_resumes d).

Definition RecordUpstreamReadPause (d : Data) : Data :=
  mkData (requests d) (rate_limited d) (duration d) (active_connections d) (inflight d)
         (wrap_u64 (upstream_read_pauses d + 1)) (upstream_read_resumes d).

Definition RecordUpstreamReadResume (d : Data) : Data :=
  mkData (requests d) (rate_limited d) (duration d) (active_connections d) (inflight d)
         (upstream_read_pauses d) (wrap_u64 (upstream_read_resumes d + 1)).

Definition with_data (d : Data) (s : State) : State := mkState d (circuit_states s) (upstream_health s).

Definition SetCircuitState (r up state : bytes) (s : State) : State :=
  mkState (data s) (<[ (r, up) := state ]> (circuit_states s)) (upstream_health s).

Definition SetUpstreamHealth (r up : bytes) (healthy : bool) (s : State) : State :=
  mkState (data s) (circuit_states s) (<[ (r, up) := healthy ]> (upstream_health s)).

(** ** Request handles *)

(** A handle that owns a request; a moved-from or finished handle is [None]. *)
Record request := mkRequest { h_route : bytes; h_started : Z }.
Abbreviation RequestHandle := (option request).

Definition BeginRequest (r : bytes) (now : Z) (d : Data) : RequestHandle * Data :=
  (Some (mkRequest r now), with_inflight (wrap_u64 (inflight d + 1)) d).

Definition decrement_inflight (d : Data) : Data :=
  if inflight d =? 0 then d else with_inflight (inflight d - 1) d.

Definition Complete (now : Z) (st : Z) (up : bytes) (limited : bool) (why : bytes) (h : RequestHandle) (d : Data)
    : RequestHandle * Data :=
  match h with
  | None => (None, d)
  | Some q =>
      let s := seconds (now - h_started q) in
      (None, decrement_inflight (record (h_route q) st up limited (if lt s zero then zero else s) why d))
  end.

(** [Release], also the destructor. *)
Definition Release (h : RequestHandle) (d : Data) : RequestHandle * Data :=
  match h with
  | None => (None, d)
  | Some _ => (None, decrement_inflight d)
  end.

(** Move assignment to another handle: the target's request is released. *)
Definition move_assign (target source : RequestHandle) (d : Data) : RequestHandle * RequestHandle * Data :=
  (source, None, (Release target d).2).

(** ** Aggregation *)

Definition add_maps {K} `{Countable K} (target source : gmap K Z) : gmap K Z :=
  map_fold (fun k n m => <[ k := wrap_u64 (default 0 (m !! k) + n) ]> m) target source.

Definition merge_histogram (merged h : Histogram) : Histogram :=
  mkHistogram (zip_with (fun x y => wrap_u64 (x + y)) (buckets merged) (buckets h)) (wrap_u64 (count merged + count h))
              (add (sum merged) (sum h)).

Definition MergeInto (target source : Data) : Data :=
  mkData (add_maps (requests target) (requests source))
         (add_maps (rate_limited target) (rate_limited source))
         (map_fold (fun r h m => <[ r := merge_histogram (default no_histogram (m !! r)) h ]> m) (duration target) (duration source))
         (wrap_u64 (active_connections target + active_connections source))
         (wrap_u64 (inflight target + inflight source))
         (wrap_u64 (upstream_read_pauses target + upstream_read_pauses source))
         (wrap_u64 (upstream_read_resumes target + upstream_read_resumes source)).

Definition Snapshot (s : State) : Data := data s.

(** ** Rendering *)

Definition BACKSLASH : byte := "\"%byte.
Definition QUOTE : byte := "034"%byte.
Definition NEWLINE : byte := "010"%byte.

Fixpoint EscapeLabel (value : bytes) : bytes :=
  match value with
  | [] => []
  | c :: r =>
      (if bool_decide (c = BACKSLASH) then [BACKSLASH; BACKSLASH]
       else if bool_decide (c = QUOTE) then [BACKSLASH; QUOTE]
       else if bool_decide (c = NEWLINE) then [BACKSLASH; "n"%byte]
       else [c]) ++ EscapeLabel r
  end.

(** A map in the order of its comparison. *)
Definition not_after {K V} (lt : K -> K -> bool) (x y : K * V) : Prop := lt y.1 x.1 = false.

#[global] Instance not_after_dec {K V} (lt : K -> K -> bool) (x y : K * V) : Decision (not_after lt x y).
Proof. unfold not_after. apply _. Defined.

Definition in_order {K V} `{Countable K} (lt : K -> K -> bool) (m : gmap K V) : list (K * V) :=
  merge_sort (not_after lt) (map_to_list m).

(** [operator<<] on an [int]. *)
Definition show_int (n : Z) : bytes := if n <? 0 then lit "-" ++ to_string (- n) else to_string n.

Definition label (name : bytes) (value : bytes) : bytes := name ++ lit "=" ++ [QUOTE] ++ EscapeLabel value ++ [QUOTE].

Definition request_line (x : RequestKey * Z) : bytes :=
  lit "aegisgate_requests_total{" ++ label (lit "route") (route x.1) ++ lit ",status=" ++ [QUOTE] ++ show_int (status x.1)
  ++ [QUOTE] ++ lit "," ++ label (lit "upstream") (upstream x.1)
  ++ (if bool_decide (reason x.1 = []) then [] else lit "," ++ label (lit "reason") (reason x.1))
  ++ lit "} " ++ to_string x.2 ++ [NEWLINE].

Definition circuit_line (s : ProtectionSample) (candidate : bytes) : bytes :=
  lit "aegisgate_circuit_state{" ++ label (lit "route") (s_route s) ++ lit "," ++ label (lit "upstream") (s_upstream s)
  ++ lit ",state=" ++ [QUOTE] ++ candidate ++ [QUOTE] ++ lit "} "
  ++ (if beq (s_state s) candidate then lit "1" else lit "0") ++ [NEWLINE].

Definition circuit_lines (s : ProtectionSample) : bytes :=
  concat (circuit_line s <$> [lit "closed"; lit "open"; lit "half_open"]).

Definition health_line (s : ProtectionSample) : bytes :=
  lit "aegisgate_upstream_health{" ++ label (lit "route") (s_route s) ++ lit "," ++ label (lit "upstream") (s_upstream s)
  ++ lit "} " ++ (if s_healthy s then lit "1" else lit "0") ++ [NEWLINE].

Definition bucket_line (r : bytes) (bound : bytes) (n : Z) : bytes :=
  lit "aegisgate_request_duration_seconds_bucket{" ++ label (lit "route") r ++ lit ",le=" ++ [QUOTE] ++ bound ++ [QUOTE]
  ++ lit "} " ++ to_string n ++ [NEWLINE].

(** The running sum of the bucket loop. *)
Fixpoint cumulative (total : Z) (bs : list Z) : list Z :=
  match bs with
  | [] => []
  | n :: bs => let total := wrap_u64 (total + n) in total :: cumulative total bs
  end.

Definition duration_lines (x : bytes * Histogram) : bytes :=
  concat (zip_with (fun b n => bucket_line x.1 (show b) n) kDurationBounds (cumulative 0 (buckets x.2)))
  ++ bucket_line x.1 (lit "+Inf") (count x.2)
  ++ lit "aegisgate_request_duration_seconds_sum{" ++ label (lit "route") x.1 ++ lit "} " ++ show (sum x.2) ++ [NEWLINE]
  ++ lit "aegisgate_request_duration_seconds_count{" ++ label (lit "route") x.1 ++ lit "} " ++ to_string (count x.2) ++ [NEWLINE].

Definition limited_line (x : bytes * Z) : bytes :=
  lit "aegisgate_rate_limited_total{" ++ label (lit "route") x.1 ++ lit "} " ++ to_string x.2 ++ [NEWLINE].

Definition gauge (kind name : bytes) (n : Z) : bytes :=
  lit "# TYPE " ++ name ++ lit " " ++ kind ++ [NEWLINE] ++ name ++ lit " " ++ to_string n ++ [NEWLINE].

(** [RenderPrometheus] of an aggregate and the coordinator's samples. *)
Definition RenderPrometheus (d : Data) (protection : list ProtectionSample) : bytes :=
  lit "# TYPE aegisgate_requests_total counter" ++ [NEWLINE]
  ++ concat (request_line <$> in_order key_lt (requests d))
  ++ lit "# TYPE aegisgate_circuit_state gauge" ++ [NEWLINE]
  ++ concat (circuit_lines <$> protection)
  ++ lit "# TYPE aegisgate_upstream_health gauge" ++ [NEWLINE]
  ++ concat (health_line <$> protection)
  ++ lit "# TYPE aegisgate_request_duration_seconds histogram" ++ [NEWLINE]
  ++ concat (duration_lines <$> in_order bytes_lt (duration d))
  ++ lit "# TYPE aegisgate_rate_limited_total counter" ++ [NEWLINE]
  ++ concat (limited_line <$> in_order bytes_lt (rate_limited d))
  ++ gauge (lit "gauge") (lit "aegisgate_active_connections") (active_connections d)
  ++ gauge (lit "gauge") (lit "aegisgate_inflight_requests") (inflight d)
  ++ gauge (lit "counter") (lit "aegisgate_upstream_read_pauses_total") (upstream_read_pauses d)
  ++ gauge (lit "counter") (lit "aegisgate_upstream_read_resumes_total") (upstream_read_resumes d).

(** [RenderPrometheus] of one worker. *)
Definition protection_samples (s : State) : list ProtectionSample :=
  (fun x : (bytes * bytes) * bytes =>
     mkSample x.1.1 x.1.2 x.2 (default true (upstream_health s !! x.1))) <$> in_order pair_lt (circuit_states s).

Definition RenderPrometheus_own (s : State) : bytes := RenderPrometheus (data s) (protection_samples s).

(** ** The order of the maps *)

Lemma code_inj b b' : code b = code b' -> b = b'.
Proof.
  unfold code. intros H. assert (Some b = Some b') as E; [|by injection E]. rewrite <- !Byte.of_to_N. f_equal. lia.
Qed.

Lemma bytes_lt_irrefl s : bytes_lt s s = false.
Proof. induction s as [|c s IH]; simpl; [done|]. rewrite IH, Z.ltb_irrefl. by rewrite andb_false_r. Qed.

Lemma bytes_lt_trans s1 s2 s3 : bytes_lt s1 s2 = true -> bytes_lt s2 s3 = true -> bytes_lt s1 s3 = true.
Proof.
  revert s2 s3. induction s1 as [|c s1 IH]; intros [|d s2] [|e s3]; simpl; try done.
  rewrite !orb_true_iff, !andb_true_iff, !Z.ltb_lt, !Z.eqb_eq. intros [?|[? ?]] [?|[? ?]]; [left; lia..|right]. split; [lia|eauto].
Qed.

Lemma bytes_lt_total s1 s2 : bytes_lt s1 s2 = false -> bytes_lt s2 s1 = false -> s1 = s2.
Proof.
  revert s2. induction s1 as [|c s1 IH]; intros [|d s2]; simpl; try done.
  rewrite !orb_false_iff, !andb_false_iff, !Z.ltb_ge, !Z.eqb_neq. intros [? [?|?]] [? [?|?]]; try lia.
  rewrite (IH s2) by done. f_equal. apply code_inj. lia.
Qed.

Lemma beq_reflect s r : reflect (s = r) (beq s r).
Proof. unfold beq. case_bool_decide; by constructor. Qed.

(** A comparison as the standard containers require it. *)
Class StrictOrderb {K} (lt : K -> K -> bool) : Prop := {
  lt_irrefl : forall x, lt x x = false;
  lt_trans : forall x y z, lt x y = true -> lt y z = true -> lt x z = true;
  lt_total : forall x y, lt x y = false -> lt y x = false -> x = y
}.

#[global] Instance bytes_order : StrictOrderb bytes_lt.
Proof. split; [apply bytes_lt_irrefl|apply bytes_lt_trans|apply bytes_lt_total]. Qed.

Lemma bytes_lt_neq s r : bytes_lt s r = true -> s <> r.
Proof. intros H ->. by rewrite bytes_lt_irrefl in H. Qed.

Lemma key_lt_spec x y :
  key_lt x y = true <->
  bytes_lt (route x) (route y) = true \/ route x = route y /\
  (status x < status y \/ status x = status y /\
   (bytes_lt (upstream x) (upstream y) = true \/ upstream x = upstream y /\ bytes_lt (reason x) (reason y) = true)).
Proof.
  unfold key_lt. pose proof (bytes_lt_neq (route x) (route y)). pose proof (bytes_lt_neq (upstream x) (upstream y)).
  destruct (beq_reflect (route x) (route y)), (Z.eqb_spec (status x) (status y)),
    (beq_reflect (upstream x) (upstream y)); simpl; rewrite ?Z.ltb_lt; try tauto; intuition lia.
Qed.

#[global] Instance key_order : StrictOrderb key_lt.
Proof.
  split.
  - intros x. apply not_true_iff_false. rewrite key_lt_spec, !bytes_lt_irrefl. intuition (try lia; done).
  - intros [r1 s1 u1 w1] [r2 s2 u2 w2] [r3 s3 u3 w3]. rewrite !key_lt_spec. simpl.
    intros [H1|[-> H1]] [H2|[<- H2]]; [left; by eapply bytes_lt_trans|by left|by left|right; split; [done|]].
    destruct H1 as [H1|[-> H1]], H2 as [H2|[<- H2]]; [left; lia..|right; split; [done|]].
    destruct H1 as [H1|[-> H1]], H2 as [H2|[<- H2]]; [left; by eapply bytes_lt_trans|by left|by left|right; split; [done|]].
    by eapply bytes_lt_trans.
  - intros [r1 s1 u1 w1] [r2 s2 u2 w2] H1%not_true_iff_false H2%not_true_iff_false. rewrite key_lt_spec in H1, H2. simpl in *.
    assert (r1 = r2) as -> by (apply bytes_lt_total; apply not_true_iff_false; tauto).
    assert (s1 = s2) as -> by (destruct (Z.lt_trichotomy s1 s2) as [|[|]]; tauto).
    assert (u1 = u2) as -> by (apply bytes_lt_total; apply not_true_iff_false; tauto).
    f_equal. apply bytes_lt_total; apply not_true_iff_false; tauto.
Qed.

Section InOrder.
Context {K V : Type} `{Countable K} (lt : K -> K -> bool) `{!StrictOrderb lt}.

#[local] Instance not_lt_total : Total (not_after (V := V) lt).
Proof.
  intros x y. unfold not_after. destruct (lt y.1 x.1) eqn:E; [|by left]. right. destruct (lt x.1 y.1) eqn:E'; [|done].
  pose proof (lt_trans _ _ _ E E') as E2. by rewrite lt_irrefl in E2.
Qed.

#[local] Instance not_lt_trans : Transitive (not_after (V := V) lt).
Proof.
  intros x y z. unfold not_after. intros H1 H2. destruct (lt z.1 x.1) eqn:E; [|done]. destruct (lt x.1 y.1) eqn:E'.
  - pose proof (lt_trans _ _ _ E E') as E2. congruence.
  - rewrite (lt_total _ _ E' H1) in E. congruence.
Qed.

Lemma in_order_perm (m : gmap K V) : in_order lt m ≡ₚ map_to_list m.
Proof. apply merge_sort_Permutation. Qed.

Lemma in_order_map (m : gmap K V) : list_to_map (in_order lt m) = m.
Proof.
  rewrite <- (list_to_map_to_list m) at 2. apply list_to_map_proper; [|apply in_order_perm].
  rewrite in_order_perm. apply NoDup_fst_map_to_list.
Qed.

Lemma in_order_sorted (m : gmap K V) : StronglySorted (fun x y => lt x y = true) (in_order lt m).*1.
Proof.
  assert (Hs : StronglySorted (not_after lt) (in_order lt m)).
  { apply Sorted_StronglySorted; [apply not_lt_trans|]. apply Sorted_merge_sort. apply _. }
  assert (Hn : NoDup (in_order lt m).*1) by (rewrite in_order_perm; apply NoDup_fst_map_to_list).
  induction Hs as [|x l Hs IH Hx]; [constructor|]. simpl in *. apply NoDup_cons in Hn as [Hnx Hn].
  constructor; [by apply IH|]. apply Forall_fmap. rewrite Forall_forall in *. intros y Hy. simpl.
  destruct (lt x.1 y.1) eqn:E; [done|]. destruct Hnx. rewrite (lt_total _ _ E (Hx y Hy)). by apply list_elem_of_fmap_2.
Qed.

End InOrder.

(** ** Reading the text back *)

Fixpoint read_label (s : bytes) : option (bytes * bytes) :=
  match s with
  | [] => None
  | c :: r =>
      if bool_decide (c = QUOTE) then Some ([], r)
      else if bool_decide (c = BACKSLASH) then
        match r with
        | [] => None
        | e :: r => '(v, rest) ← read_label r; Some ((if bool_decide (e = "n"%byte) then NEWLINE else e) :: v, rest)
        end
      else '(v, rest) ← read_label r; Some (c :: v, rest)
  end.

Definition expect (p s : bytes) : option bytes := if starts_with s p then Some (drop (length p) s) else None.

Fixpoint span_digits (s : bytes) : bytes * bytes :=
  match s with
  | c :: r => if is_digit c then let '(ds, rest) := span_digits r in (c :: ds, rest) else ([], s)
  | [] => ([], [])
  end.

Definition read_number (s : bytes) : option (Z * bytes) :=
  let '(ds, rest) := span_digits s in n ← ParseContentLength ds; Some (n, rest).

Definition read_int (s : bytes) : option (Z * bytes) :=
  match expect (lit "-") s with
  | Some s => '(n, rest) ← read_number s; Some (- n, rest)
  | None => read_number s
  end.

Definition read_named (name s : bytes) : option (bytes * bytes) :=
  s ← expect (name ++ lit "=" ++ [QUOTE]) s; read_label s.

Definition read_request (s : bytes) : option ((RequestKey * Z) * bytes) :=
  s ← expect (lit "aegisgate_requests_total{") s;
  '(r, s) ← read_named (lit "route") s;
  s ← expect (lit ",status=" ++ [QUOTE]) s;
  '(st, s) ← read_int s;
  s ← expect ([QUOTE] ++ lit ",") s;
  '(up, s) ← read_named (lit "upstream") s;
  '(why, s) ← match expect (lit ",") s with
               | Some s => read_named (lit "reason") s
               | None => Some ([], s)
               end;
  s ← expect (lit "} ") s;
  '(n, s) ← read_number s;
  s ← expect [NEWLINE] s;
  Some ((mkKey r st up why, n), s).

Fixpoint read_requests (fuel : nat) (s : bytes) : list (RequestKey * Z) :=
  match fuel with
  | O => []
  | S fuel => match read_request s with
              | Some (x, s) => x :: read_requests fuel s
              | None => []
              end
  end.

(** What a scraper reads as the request counters. *)
Definition read_metrics (s : bytes) : option (list (RequestKey * Z)) :=
  s ← expect (lit "# TYPE aegisgate_requests_total counter" ++ [NEWLINE]) s; Some (read_requests (length s) s).

Lemma read_label_escape v rest : read_label (EscapeLabel v ++ QUOTE :: rest) = Some (v, rest).
Proof.
  induction v as [|c v IH]; [done|]. simpl EscapeLabel.
  destruct (decide (c = BACKSLASH)) as [->|H1]; [simpl; by rewrite IH|].
  destruct (decide (c = QUOTE)) as [->|H2]; [simpl; by rewrite IH|].
  destruct (decide (c = NEWLINE)) as [->|H3]; [simpl; by rewrite IH|].
  rewrite !bool_decide_eq_false_2 by done. simpl. rewrite !bool_decide_eq_false_2 by done. by rewrite IH.
Qed.

Lemma expect_app p s : expect p (p ++ s) = Some s.
Proof. unfold expect. by rewrite starts_with_app, drop_app_length. Qed.

Lemma read_named_label name v rest : read_named name (label name v ++ rest) = Some (v, rest).
Proof.
  unfold read_named.
  replace (label name v ++ rest) with ((name ++ lit "=" ++ [QUOTE]) ++ EscapeLabel v ++ QUOTE :: rest)
    by (unfold label; by rewrite <- !app_assoc).
  rewrite expect_app. apply read_label_escape.
Qed.

Definition no_digit (s : bytes) : Prop := match s with [] => True | c :: _ => is_digit c = false end.

Lemma span_digits_app ds rest :
  Forall (fun c => is_digit c = true) ds -> no_digit rest -> span_digits (ds ++ rest) = (ds, rest).
Proof.
  intros Hd Hr. induction Hd as [|c ds Hc Hd IH]; simpl; [|by rewrite Hc, IH].
  destruct rest as [|c r]; [done|]. simpl in Hr. simpl. by rewrite Hr.
Qed.

Lemma read_number_to_string n rest : is_u64 n -> no_digit rest -> read_number (to_string n ++ rest) = Some (n, rest).
Proof.
  intros Hn Hr. destruct (to_string_digits n Hn) as [Hd _]. unfold read_number. rewrite span_digits_app by done.
  by rewrite ParseContentLength_to_string.
Qed.

Definition is_int (n : Z) : Prop := - 2147483648 <= n < 2147483648.

Lemma read_int_show n rest : is_int n -> no_digit rest -> read_int (show_int n ++ rest) = Some (n, rest).
Proof.
  intros Hn Hr. unfold is_int in Hn. unfold read_int, show_int. destruct (Z.ltb_spec n 0).
  - rewrite <- app_assoc, expect_app, read_number_to_string by (try done; mlia). simpl. do 2 f_equal. lia.
  - assert (Hu : is_u64 n) by mlia. destruct (to_string_digits n Hu) as [Hd Hne].
    rewrite read_number_to_string by done. replace (expect (lit "-") (to_string n ++ rest)) with (@None bytes); [done|].
    destruct (to_string n) as [|c s]; [done|]. apply Forall_cons_1 in Hd as [Hc _]. unfold expect. simpl.
    destruct (bool_decide_reflect ("-"%byte = c)) as [<-|]; done.
Qed.

Lemma request_line_app x rest :
  request_line x ++ rest =
  lit "aegisgate_requests_total{" ++ label (lit "route") (route x.1) ++ (lit ",status=" ++ [QUOTE]) ++ show_int (status x.1)
  ++ ([QUOTE] ++ lit ",") ++ label (lit "upstream") (upstream x.1)
  ++ (if bool_decide (reason x.1 = []) then [] else lit "," ++ label (lit "reason") (reason x.1))
  ++ lit "} " ++ to_string x.2 ++ [NEWLINE] ++ rest.
Proof. unfold request_line. by rewrite <- !app_assoc. Qed.

Lemma read_request_line x rest :
  is_int (status x.1) -> is_u64 x.2 -> read_request (request_line x ++ rest) = Some (x, rest).
Proof.
  intros Hs Hn. destruct x as [[r st up why] n]. rewrite request_line_app. unfold read_request. simpl in Hs, Hn.
  cbn [fst snd route status upstream reason].
  rewrite expect_app. cbn [mbind option_bind]. rewrite read_named_label. cbn [mbind option_bind].
  rewrite expect_app. cbn [mbind option_bind]. rewrite read_int_show by done. cbn [mbind option_bind].
  rewrite expect_app. cbn [mbind option_bind]. rewrite read_named_label. cbn [mbind option_bind].
  assert (Hnum : read_number (to_string n ++ [NEWLINE] ++ rest) = Some (n, [NEWLINE] ++ rest)) by (by apply read_number_to_string).
  case_bool_decide as Hw.
  - subst why. rewrite app_nil_l. change (expect (lit ",") (lit "} " ++ to_string n ++ [NEWLINE] ++ rest)) with (@None bytes).
    cbn [mbind option_bind]. rewrite expect_app. cbn [mbind option_bind]. rewrite Hnum. done.
  - rewrite <- app_assoc, expect_app, read_named_label. cbn [mbind option_bind]. rewrite expect_app. cbn [mbind option_bind].
    by rewrite Hnum.
Qed.

Lemma request_line_length x : (0 < length (request_line x))%nat.
Proof. unfold request_line. rewrite length_app. simpl. lia. Qed.

Lemma read_requests_lines xs rest fuel :
  Forall (fun x => is_int (status x.1) /\ is_u64 x.2) xs -> read_request rest = None ->
  (length (concat (request_line <$> xs)) <= fuel)%nat ->
  read_requests fuel (concat (request_line <$> xs) ++ rest) = xs.
Proof.
  intros Hx Hr. revert fuel. induction Hx as [|x xs [H1 H2] Hx IH]; intros fuel Hf; cbn [fmap list_fmap concat] in *.
  - destruct fuel; cbn [read_requests app]; [done|]. by rewrite Hr.
  - rewrite length_app in Hf. pose proof (request_line_length x). destruct fuel as [|fuel]; [lia|]. cbn [read_requests].
    rewrite <- app_assoc, read_request_line by done. rewrite IH by lia. done.
Qed.

(** The request section is read the same whatever follows. *)
Lemma read_rendered d protection more :
  map_Forall (fun k n => is_int (status k) /\ is_u64 n) (requests d) ->
  read_metrics (RenderPrometheus d protection ++ more) = Some (in_order key_lt (requests d)).
Proof.
  intros Hd. unfold read_metrics, RenderPrometheus. rewrite <- !app_assoc, (app_assoc (lit _) [NEWLINE]), expect_app.
  cbn [mbind option_bind]. f_equal. apply read_requests_lines.
  - rewrite in_order_perm. apply map_Forall_to_list in Hd. eapply Forall_impl; [exact Hd|]. by intros [].
  - done.
  - rewrite length_app. lia.
Qed.

(** C36: Round trip of the exposition: whatever the counters, and whatever bytes
    the route, upstream and reason labels hold (quotes, backslashes and line
    breaks included), a reader of the rendered text gets back exactly the
    request counters, each key once, in increasing key order. *)
Theorem metrics_roundtrip d protection :
  map_Forall (fun k n => is_int (status k) /\ is_u64 n) (requests d) ->
  exists l, read_metrics (RenderPrometheus d protection) = Some l /\ list_to_map l = requests d /\
  StronglySorted (fun x y => key_lt x y = true) l.*1.
Proof.
  intros Hd. exists (in_order key_lt (requests d)). split; [|split; [apply in_order_map; apply _|apply in_order_sorted; apply _]].
  rewrite <- (app_nil_r (RenderPrometheus d protection)). by apply read_rendered.
Qed.

(** Labels with quotes, a backslash and a line break; a negative status. *)
Definition example_data : Data :=
  mkData (<[ mkKey [QUOTE; BACKSLASH] (-1) (lit "a:1") [NEWLINE] := 7 ]> {[ mkKey (lit "r") 200 [] [] := 18446744073709551615 ]})
         ∅ {[ lit "r" := observe_duration (ratio 1 10) no_histogram ]} 1 2 3 4.

Lemma metrics_roundtrip_witness : exists l,
  read_metrics (RenderPrometheus example_data [mkSample (lit "r") (lit "a:1") (lit "open") true]) = Some l /\
  list_to_map l = requests example_data /\ StronglySorted (fun x y => key_lt x y = true) l.*1.
Proof.
  apply metrics_roundtrip. apply map_Forall_insert_2; [|apply map_Forall_singleton];
    (split; [unfold is_int; simpl; lia|mlia]).
Defined.

End Metrics.
