(* ===== verification/MetricsCounts.v ===== *)
(** * What the metrics count

    The workers' counters (Metrics) against the observations that were made:
    every counter, histogram line and gauge of the aggregate that the control
    plane renders is the number of the observations, handles and transitions it
    stands for, modulo the width of the counters. *)

From S2P Require Import Prelude Bytes Double Metrics.

Module MetricsCounts.
Import Double Metrics.

(** ** A worker's metrics and its handles

    [obs]: the observations made; [begun], [immediate] and [released] count the
    requests begun, the immediate records, and the handles given up without an
    observation. *)
Record observation := mkObservation { o_key : RequestKey; o_limited : bool; o_seconds : double }.

Record sys := mkSys {
  st : State;
  handles : gmap nat RequestHandle;
  obs : list observation;
  begun : nat;
  immediate : nat;
  released : nat
}.

Definition init : sys := mkSys (mkState no_data ∅ ∅) ∅ [] 0 0 0.

Inductive op :=
| OBegin (i : nat) (r : bytes) (now : Z)
| OImmediate (r : bytes) (s : Z) (up : bytes) (limited : bool) (why : bytes)
| OComplete (i : nat) (now : Z) (s : Z) (up : bytes) (limited : bool) (why : bytes)
| ODestroy (i : nat)
| OMoveConstruct (i j : nat)
| OMoveAssign (i j : nat)
| OSetActive (n : Z)
| OPause
| OResume
| OCircuit (r up state : bytes)
| OHealth (r up : bytes) (healthy : bool).

Definition on_data (f : Data -> Data) (x : sys) : sys :=
  mkSys (with_data (f (data (st x))) (st x)) (handles x) (obs x) (begun x) (immediate x) (released x).

Definition held (h : RequestHandle) : bool := match h with Some _ => true | None => false end.

Definition elapsed (now : Z) (q : request) : double :=
  let s := seconds (now - h_started q) in if lt s zero then zero else s.

(** Handle [i] is new, or exists, as the operation needs. *)
Definition exec (o : op) (x : sys) : option sys :=
  let d := data (st x) in
  match o with
  | OBegin i r now =>
      if handles x !! i is Some _ then None
      else let '(h, d) := BeginRequest r now d in
           Some (mkSys (with_data d (st x)) (<[i := h]> (handles x)) (obs x) (S (begun x)) (immediate x) (released x))
  | OImmediate r s up limited why =>
      Some (mkSys (with_data (RecordImmediate r s up limited why d) (st x)) (handles x)
              (obs x ++ [mkObservation (mkKey r s up why) limited zero]) (begun x) (S (immediate x)) (released x))
  | OComplete i now s up limited why =>
      h ← handles x !! i;
      let '(h', d) := Complete now s up limited why h d in
      Some (mkSys (with_data d (st x)) (<[i := h']> (handles x))
              (obs x ++ match h with
                        | Some q => [mkObservation (mkKey (h_route q) s up why) limited (elapsed now q)]
                        | None => []
                        end) (begun x) (immediate x) (released x))
  | ODestroy i =>
      h ← handles x !! i;
      Some (mkSys (with_data (Release h d).2 (st x)) (delete i (handles x)) (obs x) (begun x) (immediate x)
              (released x + (if held h then 1 else 0)))
  | OMoveConstruct i j =>
      h ← handles x !! j;
      if handles x !! i is Some _ then None
      else Some (mkSys (st x) (<[i := h]> (<[j := None]> (handles x))) (obs x) (begun x) (immediate x) (released x))
  | OMoveAssign i j =>
      target ← handles x !! i; source ← handles x !! j;
      if bool_decide (i = j) then Some x
      else let '(target', source', d) := move_assign target source d in
           Some (mkSys (with_data d (st x)) (<[i := target']> (<[j := source']> (handles x))) (obs x) (begun x) (immediate x)
                   (released x + (if held target then 1 else 0)))
  | OSetActive n => Some (on_data (SetActiveConnections n) x)
  | OPause => Some (on_data RecordUpstreamReadPause x)
  | OResume => Some (on_data RecordUpstreamReadResume x)
  | OCircuit r up state => Some (mkSys (SetCircuitState r up state (st x)) (handles x) (obs x) (begun x) (immediate x) (released x))
  | OHealth r up healthy => Some (mkSys (SetUpstreamHealth r up healthy (st x)) (handles x) (obs x) (begun x) (immediate x) (released x))
  end.

Fixpoint run (os : list op) (x : sys) : option sys :=
  match os with
  | [] => Some x
  | o :: os => x ← exec o x; run os x
  end.

(** ** The specification *)

Definition number (P : observation -> bool) (os : list observation) : Z := Z.of_nat (length (List.filter P os)).

(** A counter that is in the map once something was counted. *)
Definition tally (n : Z) : option Z := if n =? 0 then None else Some (wrap_u64 n).

Definition of_route (r : bytes) (o : observation) : bool := beq (route (o_key o)) r.

(** The histogram of a route: how many observations there are, and for each
    bound how many took at most that long. *)
Definition histogram_counts (os : list observation) (r : bytes) (h : Histogram) : Prop :=
  length (buckets h) = length kDurationBounds /\
  count h = wrap_u64 (number (of_route r) os) /\
  cumulative 0 (buckets h) =
    (fun b => wrap_u64 (number (fun o => of_route r o && le (o_seconds o) b) os)) <$> kDurationBounds.

Definition counts (os : list observation) (d : Data) : Prop :=
  (forall k, requests d !! k = tally (number (fun o => bool_decide (o_key o = k)) os)) /\
  (forall r, rate_limited d !! r = tally (number (fun o => o_limited o && of_route r o) os)) /\
  (forall r, histogram_counts os r (default no_histogram (duration d !! r))) /\
  (forall r, duration d !! r = None <-> number (of_route r) os = 0).

(** ** Counting observations *)

Lemma number_nil P : number P [] = 0.
Proof. done. Qed.
Lemma number_app P l k : number P (l ++ k) = number P l + number P k.
Proof. unfold number. rewrite List.filter_app, length_app. lia. Qed.
Lemma number_one P o : number P [o] = if P o then 1 else 0.
Proof. unfold number. simpl. by destruct (P o). Qed.
Lemma number_nonneg P os : 0 <= number P os.
Proof. unfold number. lia. Qed.

Lemma tally_default n : 0 <= n -> default 0 (tally n) = wrap_u64 n.
Proof. intros Hn. unfold tally. destruct (Z.eqb_spec n 0) as [->|]; done. Qed.

Lemma tally_pos n : 0 < n -> tally n = Some (wrap_u64 n).
Proof. intros Hn. unfold tally. destruct (Z.eqb_spec n 0); [lia|done]. Qed.

Lemma increment_tally {K} `{Countable K} (m : gmap K Z) (f : K -> Z) k :
  (forall j, 0 <= f j) -> (forall j, m !! j = tally (f j)) ->
  forall j, increment k m !! j = tally (f j + (if bool_decide (k = j) then 1 else 0)).
Proof.
  intros Hf Hm j. unfold increment. case_bool_decide as Hj; [subst j|].
  - rewrite lookup_insert_eq, Hm, tally_default by done. rewrite tally_pos by (specialize (Hf k); lia). f_equal. wraps.
  - rewrite lookup_insert_ne by done. by rewrite Z.add_0_r.
Qed.

(** *** Histograms *)

Lemma cumulative_length t bs : length (cumulative t bs) = length bs.
Proof. revert t. induction bs as [|n bs IH]; intros t; simpl; [done|]. by rewrite IH. Qed.

Lemma cumulative_shift t bs k : cumulative (wrap_u64 (t + k)) bs = (fun c => wrap_u64 (c + k)) <$> cumulative t bs.
Proof.
  revert t. induction bs as [|n bs IH]; intros t; simpl; [done|].
  replace (wrap_u64 (wrap_u64 (t + k) + n)) with (wrap_u64 (wrap_u64 (t + n) + k)) by wraps. f_equal. apply IH.
Qed.

(** The bounds increase, so a duration within one bound is within the later ones. *)
Definition monotone (bounds : list double) : Prop :=
  forall s i j b c, (i <= j)%nat -> bounds !! i = Some b -> bounds !! j = Some c -> le s b = true -> le s c = true.

Lemma monotone_tail b bounds : monotone (b :: bounds) -> monotone bounds.
Proof. intros Hm s i j x y Hij Hi Hj. apply (Hm s (S i) (S j)); [lia|done|done]. Qed.

Lemma cumulative_bump s bounds bs t :
  monotone bounds -> length bs = length bounds ->
  cumulative t (bump s bounds bs) = zip_with (fun b c => wrap_u64 (c + (if le s b then 1 else 0))) bounds (cumulative t bs).
Proof.
  revert bs t. induction bounds as [|b bounds IH]; intros [|n bs] t Hm Hl; simpl in *; try done.
  destruct (le s b) eqn:E; simpl.
  - replace (wrap_u64 (t + wrap_u64 (n + 1))) with (wrap_u64 (wrap_u64 (t + n) + 1)) by wraps. f_equal.
    rewrite cumulative_shift. apply list_eq. intros i. rewrite list_lookup_fmap, lookup_zip_with.
    destruct (bounds !! i) as [c|] eqn:Ec; simpl.
    + rewrite (Hm s 0%nat (S i) b c) by (done || lia). by destruct (cumulative _ bs !! i).
    + rewrite (proj2 (lookup_ge_None _ i)); [done|]. rewrite cumulative_length. apply lookup_ge_None in Ec. lia.
  - f_equal; [wraps|]. apply IH; [by eapply monotone_tail|lia].
Qed.

Lemma bump_length s bounds bs : length (bump s bounds bs) = length bs.
Proof. revert bs. induction bounds as [|b bounds IH]; intros [|n bs]; simpl; try done. destruct (le s b); simpl; [done|]. by rewrite IH. Qed.

Lemma cumulative_add t1 t2 bs1 bs2 :
  length bs1 = length bs2 ->
  cumulative (wrap_u64 (t1 + t2)) (zip_with (fun x y => wrap_u64 (x + y)) bs1 bs2) =
  zip_with (fun x y => wrap_u64 (x + y)) (cumulative t1 bs1) (cumulative t2 bs2).
Proof.
  revert t1 t2 bs2. induction bs1 as [|n bs1 IH]; intros t1 t2 [|m bs2] Hl; simpl in *; try done.
  replace (wrap_u64 (wrap_u64 (t1 + t2) + wrap_u64 (n + m))) with (wrap_u64 (wrap_u64 (t1 + n) + wrap_u64 (t2 + m))) by wraps.
  f_equal. apply IH. lia.
Qed.

Lemma bounds_monotone : monotone kDurationBounds.
Proof.
  assert (Hpos : Forall (fun b => exists m e, b = SpecFloat.S754_finite false m e) kDurationBounds).
  { unfold kDurationBounds. repeat constructor; vm_compute; eauto. }
  assert (Hle : forall i j b c, (i <= j)%nat -> kDurationBounds !! i = Some b -> kDurationBounds !! j = Some c -> le b c = true).
  { intros i j b c Hij Hi Hj.
    assert (Hall : forallb (fun j => forallb (fun i => match kDurationBounds !! i, kDurationBounds !! j with
              Some b, Some c => le b c | _, _ => true end) (seq 0 (S j))) (seq 0 8) = true) by (vm_compute; reflexivity).
    rewrite forallb_forall in Hall. specialize (Hall j). rewrite in_seq in Hall.
    pose proof (lookup_lt_Some _ _ _ Hj) as Hlt. change (length kDurationBounds) with 8%nat in Hlt.
    specialize (Hall ltac:(lia)). rewrite forallb_forall in Hall. specialize (Hall i). rewrite in_seq in Hall.
    specialize (Hall ltac:(lia)). by rewrite Hi, Hj in Hall. }
  intros s i j b c Hij Hi Hj Hs. pose proof (Hle i j b c Hij Hi Hj) as Hbc. rewrite Forall_lookup in Hpos.
  destruct (Hpos i b Hi) as (m1 & e1 & ->), (Hpos j c Hj) as (m2 & e2 & ->). by eapply le_finite_trans.
Qed.

(** ** One observation *)

Lemma observe_counts os r h o :
  histogram_counts os r h -> of_route r o = true -> histogram_counts (os ++ [o]) r (observe_duration (o_seconds o) h).
Proof.
  intros (Hl & Hc & Hb) Hr. unfold histogram_counts, observe_duration. cbn [buckets count].
  rewrite bump_length. split_and!; [done|rewrite Hc, number_app, number_one, Hr; wraps|].
  rewrite cumulative_bump, Hb by (apply bounds_monotone || done). apply list_eq. intros i.
  rewrite lookup_zip_with, !list_lookup_fmap. destruct (kDurationBounds !! i) as [b|]; simpl; [|done].
  rewrite number_app, number_one, Hr. simpl. f_equal. wraps.
Qed.

(** Observations of other routes do not matter. *)
Lemma number_subset (P Q : observation -> bool) os : (forall o, P o = true -> Q o = true) -> number Q os = 0 -> number P os = 0.
Proof.
  intros HPQ. unfold number. induction os as [|o os IH]; simpl; [done|]. intros Hz. specialize (HPQ o).
  destruct (Q o); simpl in Hz; [lia|]. destruct (P o); [by specialize (HPQ eq_refl)|]. by apply IH.
Qed.

Lemma number_zero_app (P : observation -> bool) l k : number P k = 0 -> number P (l ++ k) = number P l.
Proof. rewrite number_app. lia. Qed.

Lemma histogram_counts_app os os' r h : histogram_counts os r h -> number (of_route r) os' = 0 -> histogram_counts (os ++ os') r h.
Proof.
  intros (Hl & Hc & Hb) Hz. split_and!; [done|by rewrite number_zero_app|]. rewrite Hb. apply list_fmap_ext. intros _ b _.
  rewrite number_zero_app; [done|]. eapply number_subset; [|exact Hz]. intros o [? _]%andb_true_iff. done.
Qed.

Lemma route_one r o : number (of_route r) [o] = if beq (route (o_key o)) r then 1 else 0.
Proof. apply number_one. Qed.

Lemma record_counts os d r s up limited secs why :
  counts os d ->
  counts (os ++ [mkObservation (mkKey r s up why) limited secs]) (record r s up limited secs why d).
Proof.
  intros (Hq & Hl & Hd & Hn). set (o := mkObservation _ _ _). unfold record. split_and!; cbn [requests rate_limited duration].
  - intros k. rewrite (increment_tally _ (fun k => number (fun o => bool_decide (o_key o = k)) os)) by (intros; apply number_nonneg || done).
    by rewrite number_app, number_one.
  - intros r'. rewrite number_app, number_one. subst o. cbn [o_limited o_key]. destruct limited; simpl.
    + rewrite (increment_tally _ (fun r => number (fun o => o_limited o && of_route r o) os)) by (intros; apply number_nonneg || done).
      unfold of_route at 3. simpl. unfold beq. done.
    + rewrite Hl, Z.add_0_r. done.
  - intros r'. destruct (decide (r = r')) as [<-|Hne].
    + rewrite lookup_insert_eq. simpl. apply (observe_counts os r _ o); [apply Hd|]. unfold of_route, beq. simpl. by rewrite bool_decide_eq_true_2.
    + rewrite lookup_insert_ne by done. apply histogram_counts_app; [apply Hd|]. rewrite route_one. subst o. simpl.
      unfold beq. by rewrite bool_decide_eq_false_2.
  - intros r'. rewrite number_app, route_one. subst o. simpl. destruct (decide (r = r')) as [<-|Hne].
    + rewrite lookup_insert_eq. unfold beq. rewrite bool_decide_eq_true_2 by done. pose proof (number_nonneg (of_route r) os). split; [done|lia].
    + rewrite lookup_insert_ne by done. unfold beq. rewrite bool_decide_eq_false_2 by done. rewrite Z.add_0_r. apply Hn.
Qed.

(** ** Sums over workers *)

Lemma fold_lookup {K A} `{Countable K} (f : option A -> A -> A) (source target : gmap K A) k :
  map_fold (fun k v m => <[ k := f (m !! k) v ]> m) target source !! k =
  match source !! k with None => target !! k | Some v => Some (f (target !! k) v) end.
Proof.
  apply (map_fold_weak_ind (fun acc m => acc !! k = match m !! k with None => target !! k | Some v => Some (f (target !! k) v) end)).
  - by rewrite lookup_empty.
  - intros i v m r Hi Hr. destruct (decide (i = k)) as [->|Hne].
    + rewrite !lookup_insert_eq. by rewrite Hr, Hi.
    + by rewrite !lookup_insert_ne.
Qed.

Lemma add_maps_tally {K} `{Countable K} (t s : gmap K Z) n m k :
  0 <= n -> 0 <= m -> t !! k = tally n -> s !! k = tally m -> add_maps t s !! k = tally (n + m).
Proof.
  intros Hf Hg Ht Hs. unfold add_maps. rewrite (fold_lookup (fun o n => wrap_u64 (default 0 o + n))), Hs, Ht.
  destruct (Z.eqb_spec m 0) as [E|E].
  - rewrite E, Z.add_0_r. done.
  - rewrite (tally_pos m), (tally_pos (n + m)), tally_default by lia. f_equal. wraps.
Qed.

Lemma merge_histogram_counts os1 os2 r h1 h2 :
  histogram_counts os1 r h1 -> histogram_counts os2 r h2 -> histogram_counts (os1 ++ os2) r (merge_histogram h1 h2).
Proof.
  intros (Hl1 & Hc1 & Hb1) (Hl2 & Hc2 & Hb2). unfold histogram_counts, merge_histogram. cbn [buckets count].
  split_and!; [rewrite length_zip_with; lia|rewrite Hc1, Hc2, number_app; wraps|].
  change 0 with (wrap_u64 (0 + 0)) at 1. rewrite cumulative_add, Hb1, Hb2 by lia. apply list_eq. intros i.
  rewrite lookup_zip_with, !list_lookup_fmap. destruct (kDurationBounds !! i) as [b|]; simpl; [|done].
  rewrite number_app. f_equal. wraps.
Qed.

Lemma MergeInto_counts os1 os2 d1 d2 : counts os1 d1 -> counts os2 d2 -> counts (os1 ++ os2) (MergeInto d1 d2).
Proof.
  intros (Hq1 & Hl1 & Hd1 & Hn1) (Hq2 & Hl2 & Hd2 & Hn2). unfold MergeInto. split_and!; cbn [requests rate_limited duration].
  - intros k. rewrite number_app. apply add_maps_tally; auto using number_nonneg.
  - intros r. rewrite number_app. apply add_maps_tally; auto using number_nonneg.
  - intros r. rewrite (fold_lookup (fun o h => merge_histogram (default no_histogram o) h)).
    specialize (Hd1 r). specialize (Hd2 r). destruct (duration d2 !! r) as [h2|] eqn:E2; simpl in *.
    + by apply merge_histogram_counts.
    + apply histogram_counts_app; [done|]. by apply Hn2.
  - intros r. rewrite (fold_lookup (fun o h => merge_histogram (default no_histogram o) h)), number_app.
    pose proof (number_nonneg (of_route r) os1). pose proof (number_nonneg (of_route r) os2). specialize (Hn1 r). specialize (Hn2 r).
    destruct (duration d2 !! r) as [h2|]; [|rewrite Hn1; destruct Hn2; intuition lia]. split; [done|]. intros Hz.
    assert (Some h2 = None) by (apply Hn2; lia). done.
Qed.

Lemma no_data_counts : counts [] no_data.
Proof.
  split_and!; intros; simpl; rewrite ?lookup_empty; try done.
Qed.

(** ** Executions *)

Definition live (x : sys) : Z := mcount (A := RequestHandle) held (handles x).

Record inv (x : sys) : Prop := {
  i_counts : counts (obs x) (data (st x));
  i_inflight : inflight (data (st x)) = live x;
  i_begun : Z.of_nat (begun x) = live x + Z.of_nat (length (obs x)) - Z.of_nat (immediate x) + Z.of_nat (released x);
  i_immediate : (immediate x <= length (obs x))%nat
}.

Lemma init_metrics_inv : inv init.
Proof. split; [apply no_data_counts|done|done|done]. Qed.

Lemma decrement_spec d n : inflight d = n -> 0 < n -> inflight (decrement_inflight d) = n - 1.
Proof. intros <- Hn. unfold decrement_inflight. destruct (Z.eqb_spec (inflight d) 0); [lia|done]. Qed.

Lemma decrement_counts os d : counts os d -> counts os (decrement_inflight d).
Proof. intros Hc. unfold decrement_inflight. by destruct (inflight d =? 0). Qed.

Lemma live_pos x i q : handles x !! i = Some (Some q) -> 1 <= live x.
Proof. intros Hi. by apply (mcount_pos held (handles x) i (Some q)). Qed.

(** A handle's request ends: by an observation or without. *)
Lemma release_counts os h d : counts os d -> counts os (Release h d).2.
Proof. destruct h; [apply decrement_counts|done]. Qed.

Lemma release_inflight h d n :
  inflight d = n -> (held h = true -> 1 <= n) -> inflight (Release h d).2 = n - (if held h then 1 else 0).
Proof. intros Hn Hh. destruct h; simpl in *; [|lia]. apply decrement_spec; [done|]. specialize (Hh eq_refl). lia. Qed.

Lemma live_insert x i (h h' : RequestHandle) : handles x !! i = Some h ->
  mcount (A := RequestHandle) held (<[i := h']> (handles x)) = live x - (if held h then 1 else 0) + (if held h' then 1 else 0).
Proof. intros Hi. by apply mcount_insert. Qed.

Ltac counters := simpl in *; rewrite ?length_app in *; simpl in *; lia.

Lemma metrics_exec_inv o x x' : inv x -> live x + 1 < u64_modulus -> exec o x = Some x' -> inv x'.
Proof.
  intros [Hc Hf Hb Hi] Hroom. pose proof (mcount_nonneg held (handles x)) as H0. fold (live x) in H0.
  destruct o as [i r now|r s up limited why|i now s up limited why|i|i j|i j|n| | |r up state|r up healthy]; simpl.
  - destruct (handles x !! i) eqn:Ei; [done|]. intros [= <-].
    assert (Hl : mcount (A := RequestHandle) held (<[i := Some (mkRequest r now)]> (handles x)) = live x + 1) by (by rewrite mcount_insert_new).
    split; unfold live in *; simpl; rewrite ?Hl; [done| |lia|done]. rewrite Hf, wrap_u64_small by mlia. done.
  - intros [= <-]. split; unfold live in *; simpl; [by apply record_counts|done|counters|counters].
  - destruct (handles x !! i) as [[q|]|] eqn:Ei; simpl; [| |done]; intros [= <-].
    + pose proof (live_insert x i (Some q) None Ei) as Hl. pose proof (live_pos x i q Ei). split; unfold live in *; simpl in *.
      * by apply decrement_counts, record_counts.
      * rewrite Hl. rewrite (decrement_spec _ (mcount held (handles x))); [lia|done|lia].
      * rewrite Hl. counters.
      * counters.
    + pose proof (live_insert x i None None Ei) as Hl. split; unfold live in *; simpl in *; rewrite ?app_nil_r, ?Hl; [done|lia..].
  - destruct (handles x !! i) as [h|] eqn:Ei; [|done]. simpl. intros [= <-].
    assert (Hl : mcount (A := RequestHandle) held (delete i (handles x)) = live x - (if held h then 1 else 0)) by (by apply mcount_delete).
    split; unfold live in *; simpl.
    + by apply release_counts.
    + rewrite Hl. apply release_inflight; [done|]. destruct h; [|done]. intros _. by apply (live_pos x i r).
    + rewrite Hl. destruct (held h); lia.
    + done.
  - destruct (handles x !! j) as [h|] eqn:Ej; [|done]. simpl. destruct (handles x !! i) eqn:Ei; [done|]. intros [= <-].
    assert (Hne : i <> j) by congruence.
    assert (Hl : mcount (A := RequestHandle) held (<[i := h]> (<[j := None]> (handles x))) = live x).
    { rewrite mcount_insert_new by (by rewrite lookup_insert_ne). rewrite (live_insert x j h None Ej). simpl. lia. }
    split; unfold live in *; simpl; rewrite ?Hl; done.
  - destruct (handles x !! i) as [t|] eqn:Ei; [|done]. simpl. destruct (handles x !! j) as [h|] eqn:Ej; [|done]. simpl.
    case_bool_decide as Hne; intros [= <-]; [done|].
    assert (Hl : mcount (A := RequestHandle) held (<[i := h]> (<[j := None]> (handles x))) = live x - (if held t then 1 else 0)).
    { rewrite (mcount_insert held _ i t) by (by rewrite lookup_insert_ne). rewrite (live_insert x j h None Ej). simpl. lia. }
    split; unfold live in *; simpl.
    + by apply release_counts.
    + rewrite Hl. apply release_inflight; [done|]. destruct t; [|done]. intros _. by apply (live_pos x i r).
    + rewrite Hl. destruct (held t); lia.
    + done.
  - intros [= <-]. by split.
  - intros [= <-]. by split.
  - intros [= <-]. by split.
  - intros [= <-]. by split.
  - intros [= <-]. by split.
Qed.

Lemma live_le x : inv x -> live x <= Z.of_nat (begun x).
Proof. intros [_ _ Hb Hi]. lia. Qed.

Lemma begun_exec o x x' : exec o x = Some x' -> (begun x' <= S (begun x))%nat.
Proof.
  destruct o; cbn -[Nat.add]; unfold mbind, option_bind; repeat case_match; intros; simplify_eq/=; lia.
Qed.

Lemma metrics_run_inv os x x' :
  inv x -> Z.of_nat (begun x) + Z.of_nat (length os) < u64_modulus -> run os x = Some x' -> inv x'.
Proof.
  revert x. induction os as [|o os IH]; intros x Hi Hn; simpl; [by intros [= <-]|].
  destruct (exec o x) as [x1|] eqn:E; [|done]. simpl. apply IH.
  - apply (metrics_exec_inv o x); [done| |done]. pose proof (live_le x Hi). simpl in Hn. lia.
  - apply begun_exec in E. simpl in Hn. lia.
Qed.

(** ** The aggregate *)

(** The loop of the gateway over the workers' snapshots. *)
Definition aggregate (ds : list Data) : Data := foldl MergeInto no_data ds.

Lemma aggregate_counts (d : Data) os0 (xs : list (list observation * Data)) :
  counts os0 d -> Forall (fun x => counts x.1 x.2) xs -> counts (os0 ++ concat xs.*1) (foldl MergeInto d xs.*2).
Proof.
  intros Hd Hx. revert os0 d Hd. induction Hx as [|x xs Hx Hxs IH]; intros os0 d Hd; simpl; [by rewrite app_nil_r|].
  rewrite app_assoc. apply IH. by apply MergeInto_counts.
Qed.

Lemma aggregate_inflight (ds : list Data) d n :
  inflight d = wrap_u64 n -> inflight (foldl MergeInto d ds) = wrap_u64 (n + sumZ (inflight <$> ds)).
Proof.
  revert d n. induction ds as [|e ds IH]; intros d n Hd; [simpl; by rewrite Z.add_0_r|].
  rewrite fmap_cons, sumZ_cons. cbn [foldl]. rewrite (IH _ (n + inflight e)); [wraps|].
  unfold MergeInto. cbn [inflight]. rewrite Hd. wraps.
Qed.

(** A worker's metrics after some operations. *)
Definition worker_reached (x : sys) : Prop :=
  exists os, Z.of_nat (length os) < u64_modulus /\ run os init = Some x.

Lemma worker_inv x : worker_reached x -> inv x.
Proof. intros (os & Hn & Hr). by apply (metrics_run_inv os init); [apply init_metrics_inv|simpl; lia|]. Qed.

Lemma workers_counts (xs : list sys) :
  Forall worker_reached xs -> counts (concat (obs <$> xs)) (aggregate (Snapshot ∘ st <$> xs)).
Proof.
  intros Hx. pose proof (aggregate_counts no_data [] ((fun x => (obs x, Snapshot (st x))) <$> xs) no_data_counts) as H.
  rewrite <- !list_fmap_compose in H. apply H. apply Forall_fmap. eapply Forall_impl; [exact Hx|]. intros x Hr. by apply worker_inv.
Qed.

Lemma workers_inflight (xs : list sys) :
  Forall worker_reached xs -> inflight (aggregate (Snapshot ∘ st <$> xs)) = wrap_u64 (sumZ (live <$> xs)).
Proof.
  intros Hx. unfold aggregate. rewrite (aggregate_inflight _ no_data 0) by done. f_equal.
  rewrite Z.add_0_l, <- list_fmap_compose. induction Hx as [|x xs Hr Hx IH]; [done|]. rewrite !fmap_cons, !sumZ_cons, IH. f_equal. by apply worker_inv.
Qed.

End MetricsCounts.
