(* ===== verification/MetricsText.v ===== *)
(** * Reading the metrics page

    A reader of the Prometheus text format (comments, samples with escaped
    labels, one per line), written without reference to the renderer, and the
    proof that the page of Metrics.cpp reads back to the samples it stands for.
    GatewayView states what those samples are. *)

From S2P Require Import Prelude Bytes HttpText Double Metrics.

Module MetricsText.
Import HttpText Double Metrics.

(** ** The reader *)

Record line := mkLine { l_name : bytes; l_labels : list (bytes * bytes); l_value : bytes }.

(** The longest prefix without the bytes in [stop]. *)
Fixpoint until (stop : bytes) (s : bytes) : bytes * bytes :=
  match s with
  | [] => ([], [])
  | c :: r => if bool_decide (c ∈ stop) then ([], s) else let '(p, rest) := until stop r in (c :: p, rest)
  end.

Fixpoint read_labels (fuel : nat) (s : bytes) : option (list (bytes * bytes) * bytes) :=
  match fuel with
  | O => None
  | S fuel =>
      let '(name, s) := until (lit "=") s in
      s ← expect (lit "=" ++ [QUOTE]) s;
      '(value, s) ← read_label s;
      match expect (lit ",") s with
      | Some s => '(ls, s) ← read_labels fuel s; Some ((name, value) :: ls, s)
      | None => s ← expect (lit "}") s; Some ([(name, value)], s)
      end
  end.

(** One line: a comment gives no sample. *)
Definition read_line (s : bytes) : option (option line * bytes) :=
  match expect (lit "#") s with
  | Some s => s ← expect [NEWLINE] (until [NEWLINE] s).2; Some (None, s)
  | None =>
      let '(name, s) := until (lit "{ ") s in
      '(ls, s) ← match expect (lit "{") s with
                 | Some s => read_labels (length s) s
                 | None => Some ([], s)
                 end;
      s ← expect (lit " ") s;
      let '(value, s) := until [NEWLINE] s in
      s ← expect [NEWLINE] s;
      Some (Some (mkLine name ls value), s)
  end.

Fixpoint read_lines (fuel : nat) (s : bytes) : option (list line) :=
  match s, fuel with
  | [], _ => Some []
  | _, O => None
  | _, S fuel => '(x, s) ← read_line s; l ← read_lines fuel s; Some (option_list x ++ l)
  end.

(** What a scraper gets from a page; [None] if it is malformed. *)
Definition scrape (page : bytes) : option (list line) := read_lines (length page) page.

(** ** Texts it reads *)

Fixpoint labels_text (ls : list (bytes * bytes)) : bytes :=
  match ls with
  | [] => []
  | [(n, v)] => label n v
  | (n, v) :: ls => label n v ++ lit "," ++ labels_text ls
  end.

Definition line_text (x : line) : bytes :=
  l_name x
  ++ (if bool_decide (l_labels x = []) then [] else lit "{" ++ labels_text (l_labels x) ++ lit "}")
  ++ lit " " ++ l_value x ++ [NEWLINE].

Definition free (stop s : bytes) : Prop := Forall (fun c => c ∉ stop) s.

#[global] Instance free_dec stop s : Decision (free stop s).
Proof. unfold free. apply _. Defined.

Record readable (x : line) : Prop := {
  rd_name : exists n, l_name x = "a"%byte :: n;
  rd_plain : free (lit "{ ") (l_name x);
  rd_labels : Forall (fun l => free (lit "=") l.1) (l_labels x);
  rd_value : free [NEWLINE] (l_value x)
}.

Inductive item := Comment (text : bytes) | Sample (x : line).

Definition item_text (i : item) : bytes :=
  match i with Comment c => lit "#" ++ c ++ [NEWLINE] | Sample x => line_text x end.

Definition item_ok (i : item) : Prop :=
  match i with Comment c => free [NEWLINE] c | Sample x => readable x end.

Definition item_line (i : item) : option line := match i with Comment _ => None | Sample x => Some x end.

Lemma until_stop stop p c rest : free stop p -> c ∈ stop -> until stop (p ++ c :: rest) = (p, c :: rest).
Proof.
  intros Hp Hc. induction Hp as [|d p Hd _ IH]; simpl; [by rewrite bool_decide_eq_true_2|].
  by rewrite bool_decide_eq_false_2, IH.
Qed.

Lemma label_app n v rest : label n v ++ rest = n ++ "="%byte :: QUOTE :: EscapeLabel v ++ QUOTE :: rest.
Proof. unfold label. rewrite <- !app_assoc. done. Qed.

Lemma read_labels_text ls rest fuel :
  ls <> [] -> Forall (fun l => free (lit "=") l.1) ls -> (length ls <= fuel)%nat ->
  read_labels fuel (labels_text ls ++ lit "}" ++ rest) = Some (ls, rest).
Proof.
  intros Hne Hf. revert fuel. induction Hf as [|[n v] ls Hn Hf IH]; intros fuel Hl; [done|].
  destruct fuel as [|fuel]; [simpl in Hl; lia|]. simpl in Hn.
  assert (Hstep : forall k, read_labels (S fuel) (label n v ++ k) =
    match expect (lit ",") k with
    | Some s => '(ls, s) ← read_labels fuel s; Some ((n, v) :: ls, s)
    | None => s ← expect (lit "}") k; Some ([(n, v)], s)
    end).
  { intros k. cbn [read_labels]. rewrite label_app, until_stop by (done || by apply list_elem_of_singleton).
    change ("="%byte :: QUOTE :: ?r) with ((lit "=" ++ [QUOTE]) ++ r).
    rewrite expect_app. cbn [mbind option_bind]. by rewrite read_label_escape. }
  destruct ls as [|[n' v'] ls]; cbn [labels_text].
  - rewrite Hstep. done.
  - rewrite <- app_assoc, Hstep, <- app_assoc, expect_app, IH; [done|done|simpl in *; lia].
Qed.

Lemma labels_text_length ls : (length ls <= length (labels_text ls))%nat.
Proof.
  induction ls as [|[n v] [|[n' v'] ls] IH]; [done| |].
  - cbn [labels_text]. unfold label. rewrite !length_app. simpl. lia.
  - cbn [labels_text length] in *. rewrite !length_app. unfold label at 1. rewrite !length_app. simpl in *. lia.
Qed.

Lemma read_line_text x rest : readable x -> read_line (line_text x ++ rest) = Some (Some x, rest).
Proof.
  intros [[n Hn] Hp Hl Hv]. destruct x as [name ls value]. unfold read_line, line_text.
  cbn [l_name l_labels l_value] in *.
  assert (Hhash : forall k, expect (lit "#") (name ++ k) = None) by (by subst name).
  assert (Hend : forall k, until [NEWLINE] (value ++ [NEWLINE] ++ k) = (value, [NEWLINE] ++ k))
    by (intros k; by apply until_stop, list_elem_of_singleton).
  assert (Hstop : forall c k, c ∈ lit "{ " -> until (lit "{ ") (name ++ [c] ++ k) = (name, [c] ++ k))
    by (intros c k Hc; by apply until_stop).
  rewrite <- !app_assoc, Hhash. case_bool_decide as Hls.
  - subst ls. rewrite app_nil_l. change (lit " ") with [(" "%byte)].
    rewrite Hstop by (apply (bool_decide_unpack _); vm_compute; exact I).
    change (expect (lit "{") ([(" "%byte)] ++ value ++ [NEWLINE] ++ rest)) with (@None bytes).
    cbn [mbind option_bind]. rewrite expect_app. cbn [mbind option_bind]. by rewrite Hend, expect_app.
  - rewrite <- !app_assoc. change (lit "{") with [("{"%byte)].
    rewrite Hstop by (apply (bool_decide_unpack _); vm_compute; exact I).
    rewrite expect_app, read_labels_text; [|done|done|].
    2: { rewrite length_app. pose proof (labels_text_length ls). lia. }
    cbn [mbind option_bind]. rewrite expect_app. cbn [mbind option_bind]. by rewrite Hend, expect_app.
Qed.

Lemma read_item i rest : item_ok i -> read_line (item_text i ++ rest) = Some (item_line i, rest).
Proof.
  destruct i as [c|x]; [|apply read_line_text]. intros Hc. unfold read_line, item_text; simpl item_line.
  rewrite <- !app_assoc, expect_app. cbn [mbind option_bind].
  change ([NEWLINE] ++ rest) with (NEWLINE :: rest). rewrite until_stop by (done || by apply list_elem_of_singleton).
  done.
Qed.

Lemma item_text_nonempty i : (0 < length (item_text i))%nat.
Proof. destruct i; simpl; unfold line_text; rewrite ?length_app; simpl; lia. Qed.

Lemma scrape_items xs : Forall item_ok xs -> scrape (concat (item_text <$> xs)) = Some (omap item_line xs).
Proof.
  intros Hi. unfold scrape.
  assert (H : forall fuel, (length (concat (item_text <$> xs)) <= fuel)%nat ->
    read_lines fuel (concat (item_text <$> xs)) = Some (omap item_line xs)); [|by apply H].
  induction Hi as [|i xs Hi _ IH]; intros fuel Hf; [by destruct fuel|].
  cbn [fmap list_fmap concat] in *. rewrite length_app in Hf. pose proof (item_text_nonempty i).
  destruct fuel as [|fuel]; [lia|].
  assert (E : read_lines (S fuel) (item_text i ++ concat (item_text <$> xs)) =
    ('(x, s) ← read_line (item_text i ++ concat (item_text <$> xs)); l ← read_lines fuel s; Some (option_list x ++ l))).
  { destruct (item_text i); [simpl in *; lia|done]. }
  change (list_fmap _ _ item_text xs) with (item_text <$> xs) in *.
  rewrite E, read_item by done. cbn [mbind option_bind]. rewrite IH by lia. cbn [mbind option_bind omap list_omap].
  by destruct (item_line i).
Qed.

(** ** The samples of a page *)

Definition requests_total : bytes := lit "aegisgate_requests_total".
Definition duration_bucket : bytes := lit "aegisgate_request_duration_seconds_bucket".
Definition duration_sum : bytes := lit "aegisgate_request_duration_seconds_sum".
Definition duration_count : bytes := lit "aegisgate_request_duration_seconds_count".
Definition rate_limited_total : bytes := lit "aegisgate_rate_limited_total".

(** The labels of a request counter; an empty reason has none. *)
Definition key_labels (k : RequestKey) : list (bytes * bytes) :=
  [(lit "route", route k); (lit "status", show_int (status k)); (lit "upstream", upstream k)]
  ++ (if bool_decide (reason k = []) then [] else [(lit "reason", reason k)]).

Definition bucket_labels (r bound : bytes) : list (bytes * bytes) := [(lit "route", r); (lit "le", bound)].

Definition request_sample (x : RequestKey * Z) : line := mkLine requests_total (key_labels x.1) (to_string x.2).

Definition circuit_sample (s : ProtectionSample) (candidate : bytes) : line :=
  mkLine (lit "aegisgate_circuit_state") [(lit "route", s_route s); (lit "upstream", s_upstream s); (lit "state", candidate)]
         (if beq (s_state s) candidate then lit "1" else lit "0").

Definition health_sample (s : ProtectionSample) : line :=
  mkLine (lit "aegisgate_upstream_health") [(lit "route", s_route s); (lit "upstream", s_upstream s)]
         (if s_healthy s then lit "1" else lit "0").

Definition bucket_sample (r bound : bytes) (n : Z) : line := mkLine duration_bucket (bucket_labels r bound) (to_string n).

Definition duration_samples (x : bytes * Histogram) : list line :=
  zip_with (fun b n => bucket_sample x.1 (show b) n) kDurationBounds (cumulative 0 (buckets x.2))
  ++ [bucket_sample x.1 (lit "+Inf") (count x.2);
      mkLine duration_sum [(lit "route", x.1)] (show (sum x.2));
      mkLine duration_count [(lit "route", x.1)] (to_string (count x.2))].

Definition limited_sample (x : bytes * Z) : line := mkLine rate_limited_total [(lit "route", x.1)] (to_string x.2).

Definition gauge_items (kind name : bytes) (n : Z) : list item :=
  [Comment (lit " TYPE " ++ name ++ lit " " ++ kind); Sample (mkLine name [] (to_string n))].

Definition page_items (d : Data) (protection : list ProtectionSample) : list item :=
  Comment (lit " TYPE aegisgate_requests_total counter") :: (Sample ∘ request_sample <$> in_order key_lt (requests d))
  ++ Comment (lit " TYPE aegisgate_circuit_state gauge") ::
     (Sample <$> concat ((fun s => circuit_sample s <$> [lit "closed"; lit "open"; lit "half_open"]) <$> protection))
  ++ Comment (lit " TYPE aegisgate_upstream_health gauge") :: (Sample ∘ health_sample <$> protection)
  ++ Comment (lit " TYPE aegisgate_request_duration_seconds histogram") ::
     (Sample <$> concat (duration_samples <$> in_order bytes_lt (duration d)))
  ++ Comment (lit " TYPE aegisgate_rate_limited_total counter") :: (Sample ∘ limited_sample <$> in_order bytes_lt (rate_limited d))
  ++ gauge_items (lit "gauge") (lit "aegisgate_active_connections") (active_connections d)
  ++ gauge_items (lit "gauge") (lit "aegisgate_inflight_requests") (inflight d)
  ++ gauge_items (lit "counter") (lit "aegisgate_upstream_read_pauses_total") (upstream_read_pauses d)
  ++ gauge_items (lit "counter") (lit "aegisgate_upstream_read_resumes_total") (upstream_read_resumes d).

(** *** Numbers are plain texts *)

(** The bytes of a printed number. *)
Definition numeral (c : byte) : bool := is_digit c || bool_decide (c ∈ lit ".e+-infa").

Lemma numeral_free stop s : Forall (fun c => numeral c = true) s -> forallb (negb ∘ numeral) stop = true -> free stop s.
Proof.
  intros Hs Ht. eapply Forall_impl; [exact Hs|]. intros c Hc Hin. rewrite forallb_forall in Ht.
  specialize (Ht c). rewrite <- list_elem_of_In in Ht. specialize (Ht Hin). unfold compose in Ht. by rewrite Hc in Ht.
Qed.

Lemma digits_numeral fuel n acc :
  Forall (fun c => numeral c = true) acc -> Forall (fun c => numeral c = true) (digits fuel n acc).
Proof.
  revert n acc. induction fuel as [|fuel IH]; intros n acc Ha; simpl; [done|].
  assert (Forall (fun c => numeral c = true) (of_code (48 + n mod 10) :: acc)).
  { constructor; [|done]. unfold numeral. destruct (digit_code (n mod 10)) as [_ ->]; [|done].
    apply Z.mod_pos_bound. lia. }
  destruct (_ =? 0); [done|by apply IH].
Qed.

Lemma to_string_plain_digits n : Forall (fun c => numeral c = true) (to_string n).
Proof. by apply digits_numeral. Qed.

Lemma show_int_numeral n : Forall (fun c => numeral c = true) (show_int n).
Proof. unfold show_int. case_match; [|apply to_string_plain_digits]. constructor; [done|apply to_string_plain_digits]. Qed.

Lemma strip_zeros_numeral s : Forall (fun c => numeral c = true) s -> Forall (fun c => numeral c = true) (strip_zeros s).
Proof.
  intros Hs. unfold strip_zeros. apply Forall_rev. apply Forall_rev in Hs. induction Hs as [|c r Hc Hr IH]; [done|].
  simpl. case_bool_decide; [done|by constructor].
Qed.

Lemma with_fraction_numeral w f :
  Forall (fun c => numeral c = true) w -> Forall (fun c => numeral c = true) f ->
  Forall (fun c => numeral c = true) (with_fraction w f).
Proof.
  intros Hw Hf%strip_zeros_numeral. unfold with_fraction. destruct (strip_zeros f); [done|].
  apply Forall_app. split; [done|]. by constructor.
Qed.

Lemma show_digits_numeral ds x :
  Forall (fun c => numeral c = true) ds -> Forall (fun c => numeral c = true) (show_digits ds x).
Proof.
  intros Hd. unfold show_digits. destruct (_ && _).
  - destruct (0 <=? x); apply with_fraction_numeral;
      [by apply Forall_take|by apply Forall_drop|by constructor|].
    apply Forall_app. split; [by apply Forall_replicate|done].
  - apply Forall_app. split; [apply with_fraction_numeral; [by apply Forall_take|by apply Forall_drop]|].
    unfold show_exponent. apply Forall_app. split; [by destruct (x <? 0); repeat constructor|].
    assert (Forall (fun c => numeral c = true) (decimal (Z.abs x))) by (by apply digits_numeral).
    destruct (_ <? _)%nat; [by constructor|done].
Qed.

Lemma show_numeral x : Forall (fun c => numeral c = true) (show x).
Proof.
  assert (Hs : forall s, Forall (fun c => numeral c = true) (sign s)) by (intros []; by repeat constructor).
  destruct x as [s|s| |s m e]; simpl; try (apply Forall_app; split; [apply Hs|]); try (by repeat constructor).
  unfold show_positive. destruct (if 0 <=? e then _ else _) as [n d].
  destruct (_ =? 10 ^ 17); apply show_digits_numeral, digits_numeral; done.
Qed.

Lemma EscapeLabel_plain s : free [BACKSLASH; QUOTE; NEWLINE] s -> EscapeLabel s = s.
Proof.
  induction 1 as [|c s Hc _ IH]; [done|]. simpl. rewrite IH.
  rewrite !not_elem_of_cons in Hc. destruct Hc as (H1 & H2 & H3 & _). by rewrite !bool_decide_eq_false_2.
Qed.

(** *** The lines *)

Lemma request_line_text x : request_line x = line_text (request_sample x).
Proof.
  destruct x as [[r st up why] n]. unfold request_line, line_text, request_sample, key_labels.
  cbn [fst snd route status upstream reason l_name l_labels l_value].
  assert (Es : EscapeLabel (show_int st) = show_int st)
    by (apply EscapeLabel_plain, numeral_free; [apply show_int_numeral|done]).
  destruct (bool_decide (why = [])); cbn [app labels_text]; rewrite bool_decide_eq_false_2 by done;
    unfold label; rewrite Es, <- !app_assoc; done.
Qed.

Lemma circuit_line_text s c :
  c ∈ [lit "closed"; lit "open"; lit "half_open"] -> circuit_line s c = line_text (circuit_sample s c).
Proof.
  intros Hc. unfold circuit_line, line_text, circuit_sample. cbn [l_name l_labels l_value].
  rewrite bool_decide_eq_false_2 by done. cbn [labels_text]. unfold label.
  assert (E : EscapeLabel c = c) by (rewrite !elem_of_cons, elem_of_nil in Hc; by destruct Hc as [->|[->|[->|[]]]]).
  rewrite E, <- !app_assoc. done.
Qed.

Lemma health_line_text s : health_line s = line_text (health_sample s).
Proof.
  unfold health_line, line_text, health_sample. cbn [l_name l_labels l_value].
  rewrite bool_decide_eq_false_2 by done. cbn [labels_text]. rewrite <- !app_assoc. done.
Qed.

Lemma bucket_line_text r b n :
  EscapeLabel b = b -> bucket_line r b n = line_text (bucket_sample r b n).
Proof.
  intros E. unfold bucket_line, line_text, bucket_sample, bucket_labels. cbn [l_name l_labels l_value].
  rewrite bool_decide_eq_false_2 by done. cbn [labels_text]. unfold label. rewrite E, <- !app_assoc. done.
Qed.

Lemma route_line_text name r v :
  name ++ lit "{" ++ label (lit "route") r ++ lit "} " ++ v ++ [NEWLINE] =
  line_text (mkLine name [(lit "route", r)] v).
Proof.
  unfold line_text. cbn [l_name l_labels l_value]. rewrite bool_decide_eq_false_2 by done. cbn [labels_text].
  rewrite <- !app_assoc. done.
Qed.

Lemma duration_lines_text x : duration_lines x = concat (line_text <$> duration_samples x).
Proof.
  destruct x as [r h]. unfold duration_lines, duration_samples. cbn [fst snd].
  rewrite fmap_app, concat_app. f_equal.
  - f_equal. generalize (cumulative 0 (buckets h)). generalize kDurationBounds.
    induction l as [|b l IH]; intros [|n k]; [done..|]. cbn [zip_with fmap list_fmap]. f_equal; [|apply IH].
    apply bucket_line_text, EscapeLabel_plain, numeral_free; [apply show_numeral|done].
  - cbn [fmap list_fmap concat]. rewrite app_nil_r, (bucket_line_text r (lit "+Inf")) by done.
    rewrite <- !route_line_text, <- !app_assoc. done.
Qed.

Lemma gauge_text kind name n : gauge kind name n = concat (item_text <$> gauge_items kind name n).
Proof.
  unfold gauge, gauge_items. cbn [fmap list_fmap concat item_text]. unfold line_text. cbn [l_name l_labels l_value].
  rewrite bool_decide_eq_true_2 by done. rewrite app_nil_r, <- !app_assoc. done.
Qed.

Lemma lines_text {A} (f : A -> bytes) (g : A -> line) l :
  (forall x, f x = line_text (g x)) -> concat (f <$> l) = concat (item_text <$> (Sample ∘ g <$> l)).
Proof. intros Hf. induction l as [|x l IH]; [done|]. rewrite !fmap_cons. simpl. by rewrite Hf, <- IH. Qed.

Lemma groups_text {A} (f : A -> bytes) (g : A -> list line) l :
  (forall x, f x = concat (line_text <$> g x)) ->
  concat (f <$> l) = concat (item_text <$> (Sample <$> concat (g <$> l))).
Proof.
  intros Hf. induction l as [|x l IH]; [done|]. rewrite !fmap_cons. simpl.
  rewrite !fmap_app, concat_app, <- IH, Hf. by rewrite <- list_fmap_compose.
Qed.

Lemma circuit_lines_text s :
  circuit_lines s = concat (line_text <$> (circuit_sample s <$> [lit "closed"; lit "open"; lit "half_open"])).
Proof.
  unfold circuit_lines. cbn [fmap list_fmap concat].
  rewrite !circuit_line_text by (apply (bool_decide_unpack _); vm_compute; exact I). done.
Qed.

(** The renderer prints these items. *)
Lemma page_text d protection : RenderPrometheus d protection = concat (item_text <$> page_items d protection).
Proof.
  unfold RenderPrometheus, page_items. rewrite !gauge_text.
  rewrite (lines_text _ _ _ request_line_text), (groups_text _ _ _ circuit_lines_text),
    (lines_text _ _ _ health_line_text), (groups_text _ _ _ duration_lines_text).
  rewrite (lines_text limited_line limited_sample)
    by (intros [r n]; unfold limited_sample; cbn [fst snd]; rewrite <- route_line_text; done).
  rewrite !fmap_cons, !fmap_app, !fmap_cons, !fmap_app, !fmap_cons, !fmap_app, !fmap_cons, !fmap_app, !fmap_cons, !fmap_app.
  cbn [concat]. rewrite !concat_app. cbn [concat]. rewrite !concat_app. cbn [concat]. rewrite !concat_app.
  cbn [concat]. rewrite !concat_app. cbn [concat]. rewrite !concat_app. cbn [item_text]. rewrite <- !app_assoc. done.
Qed.

(** *** They are readable *)

Ltac readable_line :=
  split; cbn [l_name l_labels l_value];
  [by eexists|apply (bool_decide_unpack _); vm_compute; exact I|
   repeat constructor; apply (bool_decide_unpack _); vm_compute; exact I|].

Lemma numeral_value s : Forall (fun c => numeral c = true) s -> free [NEWLINE] s.
Proof. intros Hs. by apply numeral_free. Qed.

Lemma request_readable x : readable (request_sample x).
Proof.
  destruct x as [[r st up why] n]. unfold request_sample, key_labels. cbn [fst snd route status upstream reason].
  case_bool_decide; cbn [app]; readable_line; apply numeral_value, to_string_plain_digits.
Qed.

Lemma duration_readable x : Forall readable (duration_samples x).
Proof.
  destruct x as [r h]. unfold duration_samples. cbn [fst snd].
  assert (Hb : forall b n, readable (bucket_sample r b n))
    by (intros b n; readable_line; apply numeral_value, to_string_plain_digits).
  apply Forall_app. split.
  - generalize (cumulative 0 (buckets h)). generalize kDurationBounds.
    induction l as [|b l IH]; intros [|n k]; constructor; [apply Hb|apply IH].
  - apply Forall_cons. split; [apply Hb|]. apply Forall_cons. split; [|apply Forall_singleton].
    + readable_line. apply numeral_value, show_numeral.
    + readable_line. apply numeral_value, to_string_plain_digits.
Qed.

Lemma page_items_ok d protection : Forall item_ok (page_items d protection).
Proof.
  assert (Hg : forall kind name n, free (lit "{ ") name -> free [NEWLINE] name -> free [NEWLINE] kind ->
    (exists m, name = "a"%byte :: m) -> Forall item_ok (gauge_items kind name n)).
  { intros kind name n H1 H2 H3 H4. apply Forall_cons. split; [|apply Forall_singleton; split; try done].
    - unfold item_ok, free. rewrite !Forall_app. split_and!; try done;
        apply (bool_decide_unpack (free [NEWLINE] _)); vm_compute; exact I.
    - apply numeral_value, to_string_plain_digits. }
  assert (Hc : forall c, bool_decide (free [NEWLINE] c) = true -> item_ok (Comment c))
    by (intros c Hc; by apply bool_decide_eq_true in Hc).
  unfold page_items.
  repeat match goal with
  | |- Forall _ (Comment _ :: _) => apply Forall_cons; split; [apply Hc; vm_compute; reflexivity|]
  | |- Forall _ (_ ++ _) => apply Forall_app; split
  end; try (apply Hg; [apply (bool_decide_unpack (free _ _)); vm_compute; exact I..|by eexists]).
  - apply Forall_fmap, Forall_true. intros x. apply request_readable.
  - apply Forall_fmap, Forall_concat, Forall_fmap, Forall_true. intros s. apply Forall_fmap, Forall_true.
    intros c. unfold compose, circuit_sample; cbn [item_ok]. readable_line. destruct (beq _ _); apply (bool_decide_unpack _); vm_compute; exact I.
  - apply Forall_fmap, Forall_true. intros s. unfold compose, health_sample; cbn [item_ok]. readable_line.
    destruct (s_healthy s); apply (bool_decide_unpack _); vm_compute; exact I.
  - apply Forall_fmap, Forall_concat, Forall_fmap, Forall_true. intros x. exact (duration_readable x).
  - apply Forall_fmap, Forall_true. intros x. unfold compose; cbn [item_ok]. readable_line.
    apply numeral_value, to_string_plain_digits.
Qed.

(** *** Which samples a page has *)

Lemma sample_line (x : line) (xs : list item) : x ∈ omap item_line xs <-> Sample x ∈ xs.
Proof.
  rewrite list_elem_of_omap. split.
  - intros ([c|y] & Hin & E); simplify_eq/=. done.
  - intros Hin. by exists (Sample x).
Qed.

Lemma elem_of_samples {A} (g : A -> line) (l : list A) x : Sample x ∈ (Sample ∘ g <$> l) <-> exists y, y ∈ l /\ x = g y.
Proof.
  rewrite list_elem_of_fmap. split.
  - intros (y & E & Hy). unfold compose in E. simplify_eq. eauto.
  - intros (y & Hy & ->). by exists y.
Qed.

Lemma elem_of_concat {A} (x : A) (ls : list (list A)) : x ∈ concat ls <-> exists l, l ∈ ls /\ x ∈ l.
Proof. rewrite list_elem_of_In, in_concat. setoid_rewrite list_elem_of_In. done. Qed.

Lemma elem_of_groups {A} (g : A -> list line) (l : list A) x :
  Sample x ∈ (Sample <$> concat (g <$> l)) <-> exists y, y ∈ l /\ x ∈ g y.
Proof.
  rewrite list_elem_of_fmap. split.
  - intros (z & E & Hz). simplify_eq. apply elem_of_concat in Hz as (k & (y & -> & Hy)%list_elem_of_fmap & Hk). eauto.
  - intros (y & Hy & Hx). exists x. split; [done|]. apply elem_of_concat. exists (g y).
    split; [by apply list_elem_of_fmap_2|done].
Qed.

Lemma page_samples d p x :
  Sample x ∈ page_items d p <->
  (exists y, y ∈ in_order key_lt (requests d) /\ x = request_sample y) \/
  (exists s, s ∈ p /\ x ∈ circuit_sample s <$> [lit "closed"; lit "open"; lit "half_open"]) \/
  (exists s, s ∈ p /\ x = health_sample s) \/
  (exists y, y ∈ in_order bytes_lt (duration d) /\ x ∈ duration_samples y) \/
  (exists y, y ∈ in_order bytes_lt (rate_limited d) /\ x = limited_sample y) \/
  x = mkLine (lit "aegisgate_active_connections") [] (to_string (active_connections d)) \/
  x = mkLine (lit "aegisgate_inflight_requests") [] (to_string (inflight d)) \/
  x = mkLine (lit "aegisgate_upstream_read_pauses_total") [] (to_string (upstream_read_pauses d)) \/
  x = mkLine (lit "aegisgate_upstream_read_resumes_total") [] (to_string (upstream_read_resumes d)).
Proof.
  unfold page_items, gauge_items.
  repeat first [rewrite elem_of_cons | rewrite elem_of_app].
  rewrite !elem_of_samples, !elem_of_groups, elem_of_nil.
  assert (Hs : forall y : line, Sample x = Sample y <-> x = y) by (intros y; split; congruence).
  assert (Hc : forall c, Sample x = Comment c <-> False) by (intros c; by split).
  rewrite !Hs, !Hc. rewrite !(left_id False or), !(right_id False or). done.
Qed.

Lemma in_order_elem {K V} `{Countable K} (lt : K -> K -> bool) `{!StrictOrderb lt} (m : gmap K V) k v :
  (k, v) ∈ in_order lt m <-> m !! k = Some v.
Proof. rewrite in_order_perm. apply elem_of_map_to_list. Qed.

Lemma elem_of_zip_map {A B C} (f : A -> B -> C) (g : A -> B) (l : list A) x :
  x ∈ zip_with f l (g <$> l) <-> x ∈ (fun a => f a (g a)) <$> l.
Proof. by rewrite zip_with_fmap_r, zip_with_diag. Qed.

End MetricsText.
