(* ===== verification/LogRecord.v ===== *)
(** * Log records and their JSON lines

    Models [LogRecord], [JsonEscape], [TimestampIso8601] and
    [SerializeLogRecord] of src/src/observability/AsyncLogger.cpp.  The calendar
    of [gmtime_r] is the proleptic Gregorian one; it is checked against a count
    of the days before a date. *)

From S2P Require Import Prelude Bytes HttpText Double Metrics.

Module LogRecord.
Import HttpText.
Import Metrics(QUOTE, BACKSLASH, NEWLINE, expect, expect_app, span_digits, span_digits_app, no_digit, read_number, read_number_to_string).

Record LogRecord := mkRecord {
  timestamp_us : Z;
  level : bytes;
  event : bytes;
  generation : Z;
  worker : Z;
  route : bytes;
  upstream : bytes;
  status : Z;
  reason : bytes;
  latency_us : Z;
  retries : Z;
  request_bytes : Z;
  response_bytes : Z
}.

Definition CR : byte := "013"%byte.
Definition TAB : byte := "009"%byte.

Definition escape_char (c : byte) : bytes :=
  if bool_decide (c = QUOTE) then [BACKSLASH; QUOTE]
  else if bool_decide (c = BACKSLASH) then [BACKSLASH; BACKSLASH]
  else if bool_decide (c = NEWLINE) then [BACKSLASH; "n"%byte]
  else if bool_decide (c = CR) then [BACKSLASH; "r"%byte]
  else if bool_decide (c = TAB) then [BACKSLASH; "t"%byte]
  else [c].

Definition JsonEscape (sv : bytes) : bytes := concat (escape_char <$> sv).

(** ** Time *)

Record civil := mkCivil { year : Z; month : Z; day : Z }.

(** The date of a day number counted from 1970-01-01; years are counted from
    March, in cycles of 400 years. *)
Definition civil_of_cycle (era doe : Z) : civil :=
  let yoe := (doe - doe / 1460 + doe / 36524 - doe / 146096) / 365 in
  let doy := doe - (365 * yoe + yoe / 4 - yoe / 100) in
  let mp := (5 * doy + 2) / 153 in
  let m := if mp <? 10 then mp + 3 else mp - 9 in
  mkCivil (yoe + era * 400 + (if m <=? 2 then 1 else 0)) m (doy - (153 * mp + 2) / 5 + 1).

Definition civil_from_days (days : Z) : civil :=
  civil_of_cycle ((days + 719468) / 146097) ((days + 719468) mod 146097).

(** [%0wd]: zero padded to the width, the sign included. *)
Definition zeros (n : Z) : bytes := replicate (Z.to_nat n) "0"%byte.

Definition padded (w n : Z) : bytes :=
  if n <? 0 then lit "-" ++ zeros (w - 1 - size (to_string (- n))) ++ to_string (- n)
  else zeros (w - size (to_string n)) ++ to_string n.

(** Division of the microseconds truncates; the calendar takes the floor. *)
Definition TimestampIso8601 (us : Z) : bytes :=
  let tt := Z.quot us 1000000 in
  let us_part := Z.rem us 1000000 in
  let c := civil_from_days (tt / 86400) in
  let s := tt mod 86400 in
  padded 4 (year c) ++ lit "-" ++ padded 2 (month c) ++ lit "-" ++ padded 2 (day c) ++ lit "T"
  ++ padded 2 (s / 3600) ++ lit ":" ++ padded 2 (s / 60 mod 60) ++ lit ":" ++ padded 2 (s mod 60) ++ lit "."
  ++ padded 6 us_part ++ lit "Z".

(** ** Serialization *)

Definition UINT32_MAX : Z := 4294967295.

Definition quoted (s : bytes) : bytes := [QUOTE] ++ s ++ [QUOTE].

Definition key (name : bytes) : bytes := lit "," ++ quoted name ++ lit ":".

Definition field (name : bytes) (text : bytes) : bytes := key name ++ text.

Definition text_field (name value : bytes) : bytes :=
  if bool_decide (value = []) then [] else field name (quoted (JsonEscape value)).

Definition number_field (name : bytes) (skipped n : Z) : bytes :=
  if n =? skipped then [] else field name (to_string n).

Definition SerializeLogRecord (r : LogRecord) : bytes :=
  lit "{" ++ quoted (lit "timestamp") ++ lit ":" ++ quoted (TimestampIso8601 (timestamp_us r))
  ++ field (lit "level") (quoted (JsonEscape (level r)))
  ++ field (lit "event") (quoted (JsonEscape (event r)))
  ++ number_field (lit "generation") 0 (generation r)
  ++ number_field (lit "worker") UINT32_MAX (worker r)
  ++ text_field (lit "route") (route r)
  ++ text_field (lit "upstream") (upstream r)
  ++ number_field (lit "status") 0 (status r)
  ++ text_field (lit "reason") (reason r)
  ++ number_field (lit "latency_us") 0 (latency_us r)
  ++ number_field (lit "retries") 0 (retries r)
  ++ number_field (lit "request_bytes") 0 (request_bytes r)
  ++ number_field (lit "response_bytes") 0 (response_bytes r)
  ++ lit "}".

Definition example_record : LogRecord :=
  mkRecord 1709164800123456 (lit "warn") (lit "reload_rejected") 3 UINT32_MAX [] (lit "a:1") 503
    [QUOTE; NEWLINE; BACKSLASH] 0 1 0 10.

Example serialized_example : TimestampIso8601 (timestamp_us example_record) = lit "2024-02-29T00:00:00.123456Z".
Proof. vm_compute. reflexivity. Qed.

(** ** The calendar *)

Definition leap (y : Z) : bool := ((y mod 4 =? 0) && negb (y mod 100 =? 0)) || (y mod 400 =? 0).

Definition days_in_month (y m : Z) : Z :=
  if m =? 2 then (if leap y then 29 else 28)
  else if (m =? 4) || (m =? 6) || (m =? 9) || (m =? 11) then 30 else 31.

(** Days before the first of January of year [y], from year 0. *)
Definition days_before_year (y : Z) : Z := 365 * y + (y + 3) / 4 - (y + 99) / 100 + (y + 399) / 400.

Definition days_before_month (y m : Z) : Z :=
  sumZ ((fun k => days_in_month y (Z.of_nat k)) <$> seq 1 (Z.to_nat (m - 1))).

(** The day number of a date, by counting. *)
Definition days_from_civil (c : civil) : Z :=
  days_before_year (year c) + days_before_month (year c) (month c) + day c - 1 - 719528.

(** [days_before_year] counts: each year has its days. *)
Lemma days_before_year_step y : days_before_year (y + 1) = days_before_year y + (if leap y then 366 else 365).
Proof.
  unfold days_before_year, leap.
  pose proof (Z.div_mod y 4 ltac:(lia)). pose proof (Z.mod_pos_bound y 4 ltac:(lia)).
  pose proof (Z.div_mod y 100 ltac:(lia)). pose proof (Z.mod_pos_bound y 100 ltac:(lia)).
  pose proof (Z.div_mod y 400 ltac:(lia)). pose proof (Z.mod_pos_bound y 400 ltac:(lia)).
  assert (Hd : forall d, 0 < d -> (y + 1 + (d - 1)) / d = (y + (d - 1)) / d + (if y mod d =? 0 then 1 else 0)).
  { intros d Hd. pose proof (Z.div_mod y d ltac:(lia)) as E. pose proof (Z.mod_pos_bound y d Hd) as B.
    destruct (Z.eqb_spec (y mod d) 0) as [E0|E0].
    - assert (y = d * (y / d)) as Hy by lia. replace (y + 1 + (d - 1)) with ((y / d + 1) * d) by lia.
      replace (y + (d - 1)) with ((y / d) * d + (d - 1)) by lia.
      rewrite Z.div_mul, Z.div_add_l by lia. rewrite (Z.div_small (d - 1) d) by lia. lia.
    - replace (y + 1 + (d - 1)) with ((y / d + 1) * d + y mod d) by lia.
      replace (y + (d - 1)) with ((y / d + 1) * d + (y mod d - 1)) by lia.
      rewrite !Z.div_add_l by lia. rewrite (Z.div_small (y mod d) d), (Z.div_small (y mod d - 1) d) by lia. lia. }
  pose proof (Hd 4 ltac:(lia)) as Q4. pose proof (Hd 100 ltac:(lia)) as Q100. pose proof (Hd 400 ltac:(lia)) as Q400.
  change (4 - 1) with 3 in Q4. change (100 - 1) with 99 in Q100. change (400 - 1) with 399 in Q400. rewrite Q4, Q100, Q400.
  destruct (Z.eqb_spec (y mod 4) 0), (Z.eqb_spec (y mod 100) 0), (Z.eqb_spec (y mod 400) 0); simpl; try lia.
Qed.

Ltac div_lia := Z.to_euclidean_division_equations; lia.

Definition valid_date (c : civil) : bool :=
  (1 <=? month c) && (month c <=? 12) && (1 <=? day c) && (day c <=? days_in_month (year c) (month c)).

(** The year of the cycle: where it starts, and that only a leap year ends with
    a 366th day. *)
Lemma year_of_cycle doe :
  0 <= doe < 146097 ->
  let yoe := (doe - doe / 1460 + doe / 36524 - doe / 146096) / 365 in
  let doy := doe - (365 * yoe + yoe / 4 - yoe / 100) in
  0 <= yoe < 400 /\ 0 <= doy <= 365 /\ (doy = 365 -> yoe mod 4 = 3 /\ (yoe mod 100 <> 99 \/ yoe = 399)).
Proof. intros Hd yoe doy. subst doy yoe. div_lia. Qed.

(** Days before the first of January that follows. *)
Lemma days_before_next_year y : days_before_year (y + 1) = 365 * y + y / 4 - y / 100 + y / 400 + 366.
Proof. unfold days_before_year. div_lia. Qed.

Lemma leap_next era yoe : yoe mod 4 = 3 /\ (yoe mod 100 <> 99 \/ yoe = 399) -> leap (yoe + era * 400 + 1) = true.
Proof.
  intros H. unfold leap. apply orb_true_iff. rewrite andb_true_iff, negb_true_iff, !Z.eqb_eq, Z.eqb_neq. div_lia.
Qed.

(** Days before a month and in it, leap days apart. *)
Definition month_base (m : Z) : Z := nth (Z.to_nat m) [0; 0; 31; 59; 90; 120; 151; 181; 212; 243; 273; 304; 334] 0.

Lemma days_before_month_base y m :
  1 <= m <= 12 -> days_before_month y m = month_base m + (if leap y && (3 <=? m) then 1 else 0).
Proof.
  intros Hm. assert (m = 1 \/ m = 2 \/ m = 3 \/ m = 4 \/ m = 5 \/ m = 6 \/ m = 7 \/ m = 8 \/ m = 9 \/ m = 10 \/ m = 11 \/ m = 12) as Hc by lia.
  unfold days_before_month, days_in_month.
  destruct Hc as [->|[->|[->|[->|[->|[->|[->|[->|[->|[->|[->| ->]]]]]]]]]]]; destruct (leap y); reflexivity.
Qed.

Definition march_ok (mp : Z) : bool :=
  let m := if mp <? 10 then mp + 3 else mp - 9 in
  let before := (153 * mp + 2) / 5 in
  let days := (153 * (mp + 1) + 2) / 5 - before in
  (1 <=? m) && (m <=? 12) &&
  (if mp <? 10 then (3 <=? m) && (month_base m =? 59 + before) && (days =? days_in_month 1 m)
   else (m <=? 2) && (month_base m =? before - 306) && ((m =? 2) || (days =? 31))).

Lemma march_checked mp : 0 <= mp <= 11 -> march_ok mp = true.
Proof.
  intros Hm. assert (mp = 0 \/ mp = 1 \/ mp = 2 \/ mp = 3 \/ mp = 4 \/ mp = 5 \/ mp = 6 \/ mp = 7 \/ mp = 8 \/ mp = 9 \/ mp = 10 \/ mp = 11)
    as Hc by lia.
  destruct Hc as [->|[->|[->|[->|[->|[->|[->|[->|[->|[->|[->| ->]]]]]]]]]]]; reflexivity.
Qed.

(** The month of a day of the March year, and the days before it. *)
Lemma month_of_year y doy :
  0 <= doy <= 365 ->
  let mp := (5 * doy + 2) / 153 in
  let m := if mp <? 10 then mp + 3 else mp - 9 in
  let d := doy - (153 * mp + 2) / 5 + 1 in
  1 <= m <= 12 /\ 1 <= d /\
  (mp < 10 -> (m <=? 2) = false /\ d <= days_in_month y m /\ days_before_month y m + d - 1 = 59 + doy + (if leap y then 1 else 0)) /\
  (10 <= mp -> (m <=? 2) = true /\ (m = 2 \/ d <= 31) /\ (m = 2 -> d = doy - 336) /\
               days_before_month (y + 1) m + d - 1 = doy - 306).
Proof.
  intros Hd mp m d.
  assert (0 <= mp <= 11 /\ (153 * mp + 2) / 5 <= doy < (153 * (mp + 1) + 2) / 5) as [Hmp Hlo] by (subst mp; clear - Hd; div_lia).
  pose proof (march_checked mp Hmp) as Hok. unfold march_ok in Hok. fold m in Hok.
  rewrite !andb_true_iff, !Z.leb_le in Hok. destruct Hok as [Hm Hok]. rewrite !days_before_month_base by lia.
  split; [lia|]. split; [lia|]. split; intros Hlt.
  - destruct (Z.ltb_spec mp 10); [|lia]. rewrite !andb_true_iff, !Z.eqb_eq, Z.leb_le in Hok. destruct Hok as [[H3 Hb] Hds].
    replace (m <=? 2) with false by (symmetry; apply Z.leb_gt; lia). replace (3 <=? m) with true by (symmetry; apply Z.leb_le; lia).
    split; [done|]. rewrite andb_true_r. split; [|destruct (leap y); lia].
    assert (days_in_month y m = days_in_month 1 m) as -> by (unfold days_in_month; destruct (Z.eqb_spec m 2); [lia|done]). lia.
  - destruct (Z.ltb_spec mp 10); [lia|]. rewrite !andb_true_iff, orb_true_iff, !Z.eqb_eq, Z.leb_le in Hok. destruct Hok as [[H3 Hb] Hds].
    replace (m <=? 2) with true by (symmetry; apply Z.leb_le; lia). replace (3 <=? m) with false by (symmetry; apply Z.leb_gt; lia).
    rewrite andb_false_r. split; [done|]. split; [lia|]. split; [|lia].
    intros E2. assert (mp = 11) as E by (subst m; destruct (Z.ltb_spec mp 10); lia). subst d. rewrite E. change ((153 * 11 + 2) / 5) with 337. lia.
Qed.

(** The date is a date, and counting its days gives the day number back. *)
Lemma civil_from_days_correct days :
  valid_date (civil_from_days days) = true /\ days_from_civil (civil_from_days days) = days.
Proof.
  unfold civil_from_days. set (era := (days + 719468) / 146097). set (doe := (days + 719468) mod 146097).
  assert (0 <= doe < 146097 /\ days + 719468 = 146097 * era + doe) as [Hdoe He] by (subst era doe; div_lia).
  clearbody era doe. unfold civil_of_cycle. pose proof (year_of_cycle doe Hdoe) as Hy. simpl in Hy.
  set (yoe := (doe - doe / 1460 + doe / 36524 - doe / 146096) / 365) in *.
  set (doy := doe - (365 * yoe + yoe / 4 - yoe / 100)) in *. destruct Hy as (Hyoe & Hdoy & Hleap).
  pose proof (month_of_year (yoe + era * 400) doy Hdoy) as Hm. simpl in Hm.
  set (mp := (5 * doy + 2) / 153) in *. set (m := if mp <? 10 then mp + 3 else mp - 9) in *. set (d := doy - (153 * mp + 2) / 5 + 1) in *.
  destruct Hm as (Hm1 & Hd1 & Hlow & Hhigh).
  assert (Hnext : days_before_year (yoe + era * 400 + 1) = 365 * yoe + yoe / 4 - yoe / 100 + 146097 * era + 366)
    by (rewrite days_before_next_year; clear - Hyoe; div_lia).
  unfold valid_date, days_from_civil. cbn [year month day]. rewrite !andb_true_iff, !Z.leb_le.
  destruct (Z.lt_ge_cases mp 10) as [Hmp|Hmp].
  - destruct (Hlow Hmp) as (-> & Hdm & Hsum). rewrite Z.add_0_r. split; [lia|].
    pose proof (days_before_year_step (yoe + era * 400)) as Hstep. destruct (leap _); lia.
  - destruct (Hhigh Hmp) as (Hm2 & Hdm & Hd29 & Hsum). rewrite Hm2. apply Z.leb_le in Hm2. split; [|lia].
    split; [lia|]. unfold days_in_month. destruct (Z.eqb_spec m 2) as [Em|Em].
    + specialize (Hd29 Em). destruct (Z.eq_dec doy 365) as [Ed|Ed]; [rewrite (leap_next era yoe) by auto; lia|]. destruct (leap (yoe + era * 400 + 1)); clear - Hd29 Ed Hdoy; lia.
    + assert (m = 1) as -> by lia. cbn. lia.
Qed.

(** ** Reading a line back *)

Definition unescape (c : byte) : byte :=
  if bool_decide (c = "n"%byte) then NEWLINE else if bool_decide (c = "r"%byte) then CR
  else if bool_decide (c = "t"%byte) then TAB else c.

Fixpoint read_string (s : bytes) : option (bytes * bytes) :=
  match s with
  | [] => None
  | c :: r =>
      if bool_decide (c = QUOTE) then Some ([], r)
      else if bool_decide (c = BACKSLASH) then
        match r with [] => None | e :: r => '(v, rest) ← read_string r; Some (unescape e :: v, rest) end
      else '(v, rest) ← read_string r; Some (c :: v, rest)
  end.

Lemma read_string_escape v rest : read_string (JsonEscape v ++ QUOTE :: rest) = Some (v, rest).
Proof.
  induction v as [|c v IH]; [done|]. unfold JsonEscape in *. rewrite fmap_cons. cbn [concat]. rewrite <- app_assoc.
  set (t := concat (escape_char <$> v) ++ QUOTE :: rest) in *. clearbody t. unfold escape_char.
  destruct (decide (c = QUOTE)) as [->|H1]; [simpl; by rewrite IH|].
  destruct (decide (c = BACKSLASH)) as [->|H2]; [simpl; by rewrite IH|].
  destruct (decide (c = NEWLINE)) as [->|H3]; [simpl; by rewrite IH|].
  destruct (decide (c = CR)) as [->|H4]; [simpl; by rewrite IH|].
  destruct (decide (c = TAB)) as [->|H5]; [simpl; by rewrite IH|].
  rewrite !bool_decide_eq_false_2 by done. cbn [app read_string]. rewrite !bool_decide_eq_false_2 by done. by rewrite IH.
Qed.

(** *** Padded numbers *)

Lemma zeros_digits n : Forall (fun c => is_digit c = true) (zeros n).
Proof. unfold zeros. by apply Forall_replicate. Qed.

Lemma value_of_zeros k s : value_of (replicate k "0"%byte ++ s) 0 = value_of s 0.
Proof. induction k as [|k IH]; [done|]. exact IH. Qed.

Lemma to_string_value n : is_u64 n -> value_of (to_string n) 0 = n.
Proof.
  intros Hn. destruct (to_string_digits n Hn) as [Hd Hne]. pose proof (ParseContentLength_to_string n Hn) as Hp.
  unfold to_string in *. destruct (digits_spec 20 n [] 0) as (_ & _ & ->); [|lia|lia|constructor|done].
  change (10 ^ Z.of_nat 20) with 100000000000000000000. mlia.
Qed.

Lemma read_padded w n rest : is_u64 n -> no_digit rest -> read_number (padded w n ++ rest) = Some (n, rest).
Proof.
  intros Hn Hr. unfold padded. destruct (Z.ltb_spec n 0); [mlia|]. destruct (to_string_digits n Hn) as [Hd Hne].
  unfold read_number. rewrite <- app_assoc. rewrite app_assoc, span_digits_app; [|apply Forall_app; split; [apply zeros_digits|done]|done].
  assert (Hp : ParseContentLength (zeros (w - size (to_string n)) ++ to_string n) = Some n); [|by rewrite Hp].
  unfold ParseContentLength. destruct (_ ++ to_string n) as [|c s] eqn:E; [by apply app_nil in E as [_ ?]|]. rewrite <- E.
  rewrite parse_digits_value; [unfold zeros; by rewrite value_of_zeros, to_string_value|apply Forall_app; split; [apply zeros_digits|done]|lia|].
  unfold zeros. rewrite value_of_zeros, to_string_value by done. mlia.
Qed.

Definition read_timestamp (s : bytes) : option (Z * bytes) :=
  '(y, s) ← read_number s; s ← expect (lit "-") s;
  '(m, s) ← read_number s; s ← expect (lit "-") s;
  '(d, s) ← read_number s; s ← expect (lit "T") s;
  '(h, s) ← read_number s; s ← expect (lit ":") s;
  '(mi, s) ← read_number s; s ← expect (lit ":") s;
  '(sec, s) ← read_number s; s ← expect (lit ".") s;
  '(us, s) ← read_number s; s ← expect (lit "Z") s;
  Some ((days_from_civil (mkCivil y m d) * 86400 + h * 3600 + mi * 60 + sec) * 1000000 + us, s).

(** The years of the clock: none is negative, and all are small. *)
Lemma civil_small days : 0 <= days < 1000000000 ->
  let c := civil_from_days days in is_u64 (year c) /\ is_u64 (month c) /\ is_u64 (day c).
Proof.
  intros Hd c. destruct (civil_from_days_correct days) as [Hv _]. fold c in Hv. unfold valid_date in Hv.
  rewrite !andb_true_iff, !Z.leb_le in Hv. destruct Hv as [[[Hm1 Hm2] Hd1] Hd2].
  assert (days_in_month (year c) (month c) <= 31).
  { unfold days_in_month. destruct (month c =? 2), (leap (year c)), ((month c =? 4) || (month c =? 6) || (month c =? 9) || (month c =? 11)); lia. }
  split; [|split; mlia]. subst c. unfold civil_from_days, civil_of_cycle. cbn [year].
  pose proof (year_of_cycle ((days + 719468) mod 146097) ltac:(apply Z.mod_pos_bound; lia)) as Hy. cbv zeta in Hy.
  assert (0 <= (days + 719468) / 146097 <= 10000) by div_lia.
  match goal with |- context [if ?b then 1 else 0] => destruct b end; mlia.
Qed.

Lemma read_timestamp_text us rest :
  0 <= us < i64_modulus -> read_timestamp (TimestampIso8601 us ++ rest) = Some (us, rest).
Proof.
  intros Hus. unfold TimestampIso8601, read_timestamp. rewrite Z.quot_div_nonneg, Z.rem_mod_nonneg by lia.
  set (tt := us / 1000000). assert (0 <= tt < 9223372036855) as Htt by (unfold i64_modulus in Hus; subst tt; div_lia).
  assert (0 <= tt / 86400 < 1000000000) as Hdays by (clearbody tt; div_lia).
  destruct (civil_small _ Hdays) as (Uy & Um & Ud).
  assert (Hh : 0 <= tt mod 86400 < 86400) by (apply Z.mod_pos_bound; lia).
  rewrite <- !app_assoc.
  rewrite read_padded by (done || by simpl). cbn [mbind option_bind]. rewrite expect_app. cbn [mbind option_bind].
  rewrite read_padded by (done || by simpl). cbn [mbind option_bind]. rewrite expect_app. cbn [mbind option_bind].
  rewrite read_padded by (done || by simpl). cbn [mbind option_bind]. rewrite expect_app. cbn [mbind option_bind].
  rewrite read_padded by (done || (generalize dependent (tt mod 86400); intros; munfold; div_lia)). cbn [mbind option_bind]. rewrite expect_app. cbn [mbind option_bind].
  rewrite read_padded by (done || (generalize dependent (tt mod 86400); intros; munfold; div_lia)). cbn [mbind option_bind]. rewrite expect_app. cbn [mbind option_bind].
  rewrite read_padded by (done || (generalize dependent (tt mod 86400); intros; munfold; div_lia)). cbn [mbind option_bind]. rewrite expect_app. cbn [mbind option_bind].
  rewrite read_padded by (done || (munfold; div_lia)). cbn [mbind option_bind]. rewrite expect_app. cbn [mbind option_bind].
  destruct (civil_from_days_correct (tt / 86400)) as [_ Hc].
  replace (mkCivil (year (civil_from_days (tt / 86400))) (month (civil_from_days (tt / 86400))) (day (civil_from_days (tt / 86400))))
    with (civil_from_days (tt / 86400)) by (by destruct (civil_from_days (tt / 86400))).
  rewrite Hc. do 2 f_equal. subst tt. clear. div_lia.
Qed.

(** *** Fields *)

Definition read_quoted (s : bytes) : option (bytes * bytes) := s ← expect [QUOTE] s; read_string s.

Definition read_text_field (name s : bytes) : option (bytes * bytes) :=
  match expect (key name) s with Some s => read_quoted s | None => Some ([], s) end.

Definition read_number_field (name : bytes) (skipped : Z) (s : bytes) : option (Z * bytes) :=
  match expect (key name) s with Some s => read_number s | None => Some (skipped, s) end.

(** What can follow a field: the end of the object or one of the later keys. *)
Definition follows (names : list bytes) (s : bytes) : Prop :=
  (exists r, s = lit "}" ++ r) \/ (exists n r, n ∈ names /\ s = key n ++ r).

Definition other_keys (name : bytes) (names : list bytes) : Prop :=
  Forall (fun n => forall r, expect (key name) (key n ++ r) = None) names.

Lemma follows_no_key name names s : follows names s -> other_keys name names -> expect (key name) s = None.
Proof.
  intros [[r ->]|(n & r & Hn & ->)] Ho; [done|]. unfold other_keys in Ho. rewrite Forall_forall in Ho. by apply Ho.
Qed.

Lemma follows_no_digit names s : follows names s -> no_digit s.
Proof. intros [[r ->]|(n & r & Hn & ->)]; done. Qed.

Lemma follows_field name names text rest : follows (name :: names) (field name text ++ rest).
Proof. right. exists name, (text ++ rest). split; [set_solver|]. unfold field. by rewrite <- app_assoc. Qed.

Lemma follows_weaken name names s : follows names s -> follows (name :: names) s.
Proof. intros [?|(n & r & Hn & ->)]; [by left|]. right. exists n, r. split; [set_solver|done]. Qed.

Lemma read_text_field_ok name names value rest :
  follows names rest -> other_keys name names ->
  read_text_field name (text_field name value ++ rest) = Some (value, rest) /\ follows (name :: names) (text_field name value ++ rest).
Proof.
  intros Hf Ho. unfold text_field. case_bool_decide as Hv.
  - subst value. split; [|by apply follows_weaken]. unfold read_text_field. by rewrite app_nil_l, (follows_no_key name names).
  - split; [|apply follows_field]. unfold read_text_field, field, quoted, read_quoted. rewrite <- !app_assoc, expect_app, expect_app.
    cbn [mbind option_bind app]. apply read_string_escape.
Qed.

Lemma read_number_field_ok name names skipped n rest :
  is_u64 n -> follows names rest -> other_keys name names ->
  read_number_field name skipped (number_field name skipped n ++ rest) = Some (n, rest) /\
  follows (name :: names) (number_field name skipped n ++ rest).
Proof.
  intros Hn Hf Ho. unfold number_field. destruct (Z.eqb_spec n skipped) as [->|Hne].
  - split; [|by apply follows_weaken]. unfold read_number_field. by rewrite app_nil_l, (follows_no_key name names).
  - split; [|apply follows_field]. unfold read_number_field, field. rewrite <- !app_assoc, expect_app.
    apply read_number_to_string; [done|by eapply follows_no_digit].
Qed.

Definition read_log (s : bytes) : option (LogRecord * bytes) :=
  s ← expect (lit "{" ++ quoted (lit "timestamp") ++ lit ":" ++ [QUOTE]) s;
  '(ts, s) ← read_timestamp s;
  s ← expect ([QUOTE] ++ key (lit "level")) s;
  '(lv, s) ← read_quoted s;
  s ← expect (key (lit "event")) s;
  '(ev, s) ← read_quoted s;
  '(ge, s) ← read_number_field (lit "generation") 0 s;
  '(wo, s) ← read_number_field (lit "worker") UINT32_MAX s;
  '(ro, s) ← read_text_field (lit "route") s;
  '(up, s) ← read_text_field (lit "upstream") s;
  '(st, s) ← read_number_field (lit "status") 0 s;
  '(re, s) ← read_text_field (lit "reason") s;
  '(la, s) ← read_number_field (lit "latency_us") 0 s;
  '(rt, s) ← read_number_field (lit "retries") 0 s;
  '(rq, s) ← read_number_field (lit "request_bytes") 0 s;
  '(rp, s) ← read_number_field (lit "response_bytes") 0 s;
  s ← expect (lit "}") s;
  Some (mkRecord ts lv ev ge wo ro up st re la rt rq rp, s).

(** The ranges of the members' types, and a time after 1970. *)
Record well_ranged (r : LogRecord) : Prop := {
  r_timestamp : 0 <= timestamp_us r < i64_modulus;
  r_generation : is_u64 (generation r);
  r_worker : is_u32 (worker r);
  r_status : 0 <= status r < 65536;
  r_latency : is_u64 (latency_us r);
  r_retries : is_u32 (retries r);
  r_request : is_u64 (request_bytes r);
  r_response : is_u64 (response_bytes r)
}.

Lemma read_quoted_escape v rest : read_quoted (quoted (JsonEscape v) ++ rest) = Some (v, rest).
Proof. unfold read_quoted, quoted. rewrite <- !app_assoc, expect_app. cbn [mbind option_bind app]. apply read_string_escape. Qed.

Lemma SerializeLogRecord_app r rest :
  SerializeLogRecord r ++ rest =
  (lit "{" ++ quoted (lit "timestamp") ++ lit ":" ++ [QUOTE]) ++ TimestampIso8601 (timestamp_us r)
  ++ ([QUOTE] ++ key (lit "level")) ++ quoted (JsonEscape (level r))
  ++ key (lit "event") ++ quoted (JsonEscape (event r))
  ++ number_field (lit "generation") 0 (generation r) ++ number_field (lit "worker") UINT32_MAX (worker r)
  ++ text_field (lit "route") (route r) ++ text_field (lit "upstream") (upstream r)
  ++ number_field (lit "status") 0 (status r) ++ text_field (lit "reason") (reason r)
  ++ number_field (lit "latency_us") 0 (latency_us r) ++ number_field (lit "retries") 0 (retries r)
  ++ number_field (lit "request_bytes") 0 (request_bytes r) ++ number_field (lit "response_bytes") 0 (response_bytes r)
  ++ lit "}" ++ rest.
Proof. unfold SerializeLogRecord, field, quoted. by rewrite <- !app_assoc. Qed.

(** The later keys are other keys. *)
Ltac other := unfold other_keys; repeat (apply Forall_cons_2; [intros; reflexivity|]); apply Forall_nil_2.

Lemma read_log_record r rest : well_ranged r -> read_log (SerializeLogRecord r ++ rest) = Some (r, rest).
Proof.
  intros [R1 R2 R3 R4 R5 R6 R7 R8]. rewrite SerializeLogRecord_app.
  assert (U3 : is_u64 (worker r)) by mlia. assert (U4 : is_u64 (status r)) by mlia. assert (U6 : is_u64 (retries r)) by mlia.
  assert (F0 : follows [] (lit "}" ++ rest)) by (left; eauto).
  destruct (read_number_field_ok (lit "response_bytes") _ 0 (response_bytes r) _ R8 F0 ltac:(other)) as [E1 F1].
  destruct (read_number_field_ok (lit "request_bytes") _ 0 (request_bytes r) _ R7 F1 ltac:(other)) as [E2 F2].
  destruct (read_number_field_ok (lit "retries") _ 0 (retries r) _ U6 F2 ltac:(other)) as [E3 F3].
  destruct (read_number_field_ok (lit "latency_us") _ 0 (latency_us r) _ R5 F3 ltac:(other)) as [E4 F4].
  destruct (read_text_field_ok (lit "reason") _ (reason r) _ F4 ltac:(other)) as [E5 F5].
  destruct (read_number_field_ok (lit "status") _ 0 (status r) _ U4 F5 ltac:(other)) as [E6 F6].
  destruct (read_text_field_ok (lit "upstream") _ (upstream r) _ F6 ltac:(other)) as [E7 F7].
  destruct (read_text_field_ok (lit "route") _ (route r) _ F7 ltac:(other)) as [E8 F8].
  destruct (read_number_field_ok (lit "worker") _ UINT32_MAX (worker r) _ U3 F8 ltac:(other)) as [E9 F9].
  destruct (read_number_field_ok (lit "generation") _ 0 (generation r) _ R2 F9 ltac:(other)) as [E10 F10].
  unfold read_log. rewrite expect_app. cbn [mbind option_bind]. rewrite read_timestamp_text by done. cbn [mbind option_bind].
  rewrite expect_app. cbn [mbind option_bind]. rewrite read_quoted_escape. cbn [mbind option_bind].
  rewrite expect_app. cbn [mbind option_bind]. rewrite read_quoted_escape. cbn [mbind option_bind].
  rewrite E10. cbn [mbind option_bind]. rewrite E9. cbn [mbind option_bind]. rewrite E8. cbn [mbind option_bind].
  rewrite E7. cbn [mbind option_bind]. rewrite E6. cbn [mbind option_bind]. rewrite E5. cbn [mbind option_bind].
  rewrite E4. cbn [mbind option_bind]. rewrite E3. cbn [mbind option_bind]. rewrite E2. cbn [mbind option_bind].
  rewrite E1. cbn [mbind option_bind]. rewrite expect_app. cbn [mbind option_bind]. by destruct r.
Qed.

(** *** Files *)

Definition log_line (r : LogRecord) : bytes := SerializeLogRecord r ++ [NEWLINE].

Fixpoint read_file (fuel : nat) (s : bytes) : option (list LogRecord) :=
  match s, fuel with
  | [], _ => Some []
  | _, O => None
  | _, S fuel => '(r, s) ← read_log s; s ← expect [NEWLINE] s; rs ← read_file fuel s; Some (r :: rs)
  end.

Lemma read_file_lines rs : Forall well_ranged rs -> read_file (length rs) (concat (log_line <$> rs)) = Some rs.
Proof.
  induction 1 as [|r rs Hr Hrs IH]; [done|]. rewrite fmap_cons. cbn [concat length].
  assert (Hread : read_log (log_line r ++ concat (log_line <$> rs)) = Some (r, [NEWLINE] ++ concat (log_line <$> rs))).
  { unfold log_line at 1. rewrite <- app_assoc. by apply read_log_record. }
  destruct (log_line r ++ concat (log_line <$> rs)) as [|c s] eqn:E; [done|]. cbn [read_file].
  rewrite Hread. cbn [mbind option_bind]. rewrite expect_app. cbn [mbind option_bind]. by rewrite IH.
Qed.

End LogRecord.
