(* ===== verification/AsyncLogger.v ===== *)
(** * The asynchronous logger

    Models src/src/observability/AsyncLogger.cpp: threads submit records to a
    bounded queue under a mutex and then write to an eventfd; one writer thread
    swaps the queue out and writes the lines; [Stop] sets a flag, wakes the
    writer, joins it and closes the eventfd.  A step is one critical section or
    one system call of one thread.  The stream buffers lines: what reaches the
    file at a line, a flush or the stream's destruction, and whether the stream
    is good afterwards, are inputs of the writer's steps; a stream that went bad
    stays bad. *)

From S2P Require Import Prelude Bytes LogRecord.

Module AsyncLogger.
Import LogRecord.

Definition kCriticalSlots : nat := 16.

(** The eventfd and its counter. *)
Inductive eventfd := Open (counter : Z) | Closed.

(** Where the writer thread is: before [open], before [read], before the swap,
    writing the rest of a batch, before [flush], returning (the stream's
    destructor closes the file), returned. *)
Inductive writer_state :=
| Opening
| Reading
| Draining
| Writing (batch : list LogRecord) (io_failures : nat)
| Flushing
| Leaving
| Exited.

(** Where the [Stop] that set the flag is. *)
Inductive stop_state := NotStopping | Waking | Joining | Closing | Done.

(** [wakes]: submitters that hold the descriptor and have not written to it yet.
    [good]: no operation of the stream has failed.  The last lists are the
    record's fates: [accepted] by [Submit], completely in the [file], [buffered]
    by the stream, [lost] to a bad stream, refused because the queue was full or
    the writer had failed. *)
Record t := mk {
  capacity_ : nat;
  queue_ : list LogRecord;
  stopped_ : bool;
  critical_used_ : nat;
  wake_fd_ : eventfd;
  dropped_total_ : Z;
  io_dropped_total_ : Z;
  critical_overflow_ : Z;
  writer_failed_ : bool;
  writer : writer_state;
  stopper : stop_state;
  wakes : nat;
  good : bool;
  file : list LogRecord;
  buffered : list LogRecord;
  lost : list LogRecord;
  accepted : list LogRecord;
  refused_full : list LogRecord;
  refused_failed : list LogRecord
}.

Definition make (capacity : nat) : t :=
  mk capacity [] false 0 (Open 0) 0 0 0 false Opening NotStopping 0 true [] [] [] [] [] [].

Definition is_critical (r : LogRecord) : bool := beq (level r) (lit "warn") || beq (level r) (lit "error").

(** ** Submit *)

Definition push (r : LogRecord) (used : nat) (l : t) : t :=
  mk (capacity_ l) (queue_ l ++ [r]) (stopped_ l) used (wake_fd_ l) (dropped_total_ l) (io_dropped_total_ l)
     (critical_overflow_ l) (writer_failed_ l) (writer l) (stopper l) (S (wakes l)) (good l) (file l) (buffered l) (lost l)
     (accepted l ++ [r]) (refused_full l) (refused_failed l).

Definition refuse_failed (r : LogRecord) (l : t) : t :=
  mk (capacity_ l) (queue_ l) (stopped_ l) (critical_used_ l) (wake_fd_ l) (dropped_total_ l) (wrap_u64 (io_dropped_total_ l + 1))
     (critical_overflow_ l) (writer_failed_ l) (writer l) (stopper l) (wakes l) (good l) (file l) (buffered l) (lost l)
     (accepted l) (refused_full l) (refused_failed l ++ [r]).

Definition refuse_full (r : LogRecord) (l : t) : t :=
  mk (capacity_ l) (queue_ l) (stopped_ l) (critical_used_ l) (wake_fd_ l) (wrap_u64 (dropped_total_ l + 1)) (io_dropped_total_ l)
     (if is_critical r then wrap_u64 (critical_overflow_ l + 1) else critical_overflow_ l) (writer_failed_ l) (writer l)
     (stopper l) (wakes l) (good l) (file l) (buffered l) (lost l) (accepted l) (refused_full l ++ [r]) (refused_failed l).

(** The critical section of [Submit], and what it returns. *)
Definition Submit (r : LogRecord) (l : t) : t * bool :=
  if stopped_ l then (l, false)
  else if writer_failed_ l then (refuse_failed r l, false)
  else if (capacity_ l <=? length (queue_ l))%nat then
    if is_critical r && (critical_used_ l <? kCriticalSlots)%nat then (push r (S (critical_used_ l)) l, true)
    else (refuse_full r l, false)
  else (push r (critical_used_ l) l, true).

(** [write] on the eventfd: the counter grows unless it would reach its limit. *)
Definition signal (fd : eventfd) : eventfd :=
  match fd with
  | Open n => if n + 1 <? u64_modulus - 1 then Open (n + 1) else Open n
  | Closed => Closed
  end.

Definition with_fd (fd : eventfd) (k : nat) (l : t) : t :=
  mk (capacity_ l) (queue_ l) (stopped_ l) (critical_used_ l) fd (dropped_total_ l) (io_dropped_total_ l)
     (critical_overflow_ l) (writer_failed_ l) (writer l) (stopper l) k (good l) (file l) (buffered l) (lost l)
     (accepted l) (refused_full l) (refused_failed l).

(** The write after the critical section. *)
Definition submit_wake (l : t) : t := with_fd (signal (wake_fd_ l)) (pred (wakes l)) l.

(** ** Stop *)

Definition with_stop (b : bool) (s : stop_state) (l : t) : t :=
  mk (capacity_ l) (queue_ l) b (critical_used_ l) (wake_fd_ l) (dropped_total_ l) (io_dropped_total_ l)
     (critical_overflow_ l) (writer_failed_ l) (writer l) s (wakes l) (good l) (file l) (buffered l) (lost l)
     (accepted l) (refused_full l) (refused_failed l).

(** A second [Stop] returns at once. *)
Definition Stop (l : t) : t := if stopped_ l then l else with_stop true Waking l.

Definition WakeWriter (l : t) : t := with_fd (signal (wake_fd_ l)) (wakes l) l.

(** The steps of [Stop] after its critical section; [join] waits for the writer. *)
Definition stop_step (l : t) : option t :=
  match stopper l with
  | Waking => Some (with_stop (stopped_ l) Joining (WakeWriter l))
  | Joining => match writer l with Exited => Some (with_stop (stopped_ l) Closing l) | _ => None end
  | Closing => Some (with_stop (stopped_ l) Done (with_fd Closed (wakes l) l))
  | NotStopping | Done => None
  end.

(** ** WriterLoop *)

Definition with_writer (w : writer_state) (l : t) : t :=
  mk (capacity_ l) (queue_ l) (stopped_ l) (critical_used_ l) (wake_fd_ l) (dropped_total_ l) (io_dropped_total_ l)
     (critical_overflow_ l) (writer_failed_ l) w (stopper l) (wakes l) (good l) (file l) (buffered l) (lost l)
     (accepted l) (refused_full l) (refused_failed l).

(** The writer gives up: [n] more lines count as lost, and it goes on to [w]. *)
Definition fail_writer (n : nat) (w : writer_state) (l : t) : t :=
  mk (capacity_ l) (queue_ l) (stopped_ l) (critical_used_ l) (wake_fd_ l) (dropped_total_ l)
     (wrap_u64 (io_dropped_total_ l + Z.of_nat n)) (critical_overflow_ l) true w (stopper l) (wakes l) (good l)
     (file l) (buffered l) (lost l) (accepted l) (refused_full l) (refused_failed l).

(** [read] on the non-blocking eventfd resets the counter or returns an error;
    the loop goes on in either case. *)
Definition read_wake (l : t) : t :=
  with_writer Draining (with_fd (match wake_fd_ l with Open _ => Open 0 | Closed => Closed end) (wakes l) l).

Definition drain (l : t) : t :=
  let l' := mk (capacity_ l) [] (stopped_ l) 0 (wake_fd_ l) (dropped_total_ l) (io_dropped_total_ l)
               (critical_overflow_ l) (writer_failed_ l) (writer l) (stopper l) (wakes l) (good l) (file l) (buffered l) (lost l)
               (accepted l) (refused_full l) (refused_failed l) in
  if bool_decide (queue_ l = []) && stopped_ l then with_writer Leaving l' else with_writer (Writing (queue_ l) 0) l'.

Definition with_stream (g : bool) (f b lo : list LogRecord) (l : t) : t :=
  mk (capacity_ l) (queue_ l) (stopped_ l) (critical_used_ l) (wake_fd_ l) (dropped_total_ l) (io_dropped_total_ l)
     (critical_overflow_ l) (writer_failed_ l) (writer l) (stopper l) (wakes l) g f b lo
     (accepted l) (refused_full l) (refused_failed l).

(** [ofs << json << '\n'].  A good stream takes the line into its buffer and may
    pass [reach] buffered lines on; when that fails ([ok] is false), or the stream
    was bad, the line is lost. *)
Definition put_line (ok : bool) (reach : nat) (r : LogRecord) (l : t) : t :=
  if good l then
    if ok then let b := buffered l ++ [r] in with_stream true (file l ++ take reach b) (drop reach b) (lost l) l
    else with_stream false (file l ++ take reach (buffered l)) (drop reach (buffered l)) (lost l ++ [r]) l
  else with_stream false (file l) (buffered l) (lost l ++ [r]) l.

(** [ofs.flush()] and the stream's destructor: all buffered lines reach the file,
    or the stream fails and [reach] of them do. *)
Definition sync (ok : bool) (reach : nat) (l : t) : t :=
  if good l && ok then with_stream true (file l ++ buffered l) [] (lost l) l
  else with_stream false (file l ++ take reach (buffered l)) (drop reach (buffered l)) (lost l) l.

(** One turn of the loop over the batch. *)
Definition write_line (ok : bool) (reach : nat) (r : LogRecord) (batch : list LogRecord) (io_failures : nat) (l : t) : t :=
  let l := put_line ok reach r l in
  with_writer (Writing batch (if good l then io_failures else S io_failures)) l.

(** One step of the writer; [ok]: the system call or the stream operation
    succeeds; [reach]: the buffered lines that reach the file. *)
Definition writer_step (ok : bool) (reach : nat) (l : t) : t :=
  match writer l with
  | Opening => if ok then with_writer Reading l else fail_writer 0 Exited l
  | Reading => read_wake l
  | Draining => drain l
  | Writing (r :: batch) f => write_line ok reach r batch f l
  | Writing [] f => if (0 <? f)%nat then fail_writer f Leaving l else with_writer Flushing l
  | Flushing => with_writer Reading (sync ok reach l)
  | Leaving => with_writer Exited (sync ok reach l)
  | Exited => l
  end.

(** ** Executions *)

Inductive step : t -> t -> Prop :=
| step_submit r l : step l (Submit r l).1
| step_wake l : (0 < wakes l)%nat -> step l (submit_wake l)
| step_stop l : step l (Stop l)
| step_stopping l l' : stop_step l = Some l' -> step l l'
| step_writer ok reach l : step l (writer_step ok reach l).

Definition reached (capacity : nat) (l : t) : Prop := rtc step (make capacity) l.

(** The lines the writer holds. *)
Definition in_hand (l : t) : list LogRecord := match writer l with Writing batch _ => batch | _ => [] end.

Definition failures (l : t) : nat := match writer l with Writing _ f => f | _ => 0 end.

(** ** Invariant *)

Record inv (capacity : nat) (l : t) : Prop := {
  i_capacity : capacity_ l = capacity;
  i_queue : (length (queue_ l) <= capacity + critical_used_ l)%nat /\ (critical_used_ l <= kCriticalSlots)%nat;
  i_order : accepted l = file l ++ buffered l ++ lost l ++ in_hand l ++ queue_ l;
  i_full : dropped_total_ l = wrap_u64 (Z.of_nat (length (refused_full l)));
  i_critical : critical_overflow_ l = wrap_u64 (Z.of_nat (length (List.filter is_critical (refused_full l))));
  i_io : io_dropped_total_ l =
         wrap_u64 (Z.of_nat (length (refused_failed l)) + (if writer_failed_ l then Z.of_nat (length (lost l)) else 0));
  i_failures : writer_failed_ l = false -> failures l = length (lost l);
  i_good : lost l <> [] -> good l = false;
  i_failed : writer_failed_ l = true -> writer l = Leaving \/ writer l = Exited;
  i_clean : writer l = Leaving \/ writer l = Exited -> writer_failed_ l = false -> stopped_ l = true /\ queue_ l = [];
  i_opening : writer l = Opening -> buffered l = [];
  i_closed : writer l = Exited -> good l = true -> buffered l = [];
  i_stop : (stopper l = NotStopping <-> stopped_ l = false) /\
           (stopper l = Closing \/ stopper l = Done -> writer l = Exited) /\
           (wake_fd_ l = Closed -> stopper l = Done)
}.

Lemma make_logger_inv capacity : inv capacity (make capacity).
Proof.
  constructor; simpl; try done; try (split; [lia|unfold kCriticalSlots; lia]); [by intros [|]|].
  split_and!; [done|by intros [|]|done].
Qed.

Lemma submit_inv capacity r l : inv capacity l -> inv capacity (Submit r l).1.
Proof.
  intros Hi. pose proof Hi as [H1 [H2 H2'] H3 H4 H5 H6 H7 H8 H9 H10 Hop Hcl H11]. unfold Submit. destruct (stopped_ l) eqn:Es; [done|].
  assert (Hpush : forall used, (length (queue_ l) < capacity + used)%nat -> (critical_used_ l <= used <= kCriticalSlots)%nat ->
                    writer_failed_ l = false -> inv capacity (push r used l)).
  { intros used Hu Hk Hf. constructor; simpl; rewrite ?Es; try done.
    - rewrite length_app. simpl. lia.
    - rewrite H3. unfold in_hand. simpl. by rewrite !app_assoc.
    - intros Hx Hf'. destruct (H10 Hx Hf'). congruence. }
  destruct (writer_failed_ l) eqn:Ef.
  - constructor; simpl; rewrite ?Ef, ?Es; try done. rewrite H6, length_app. simpl. wraps.
  - destruct (Nat.leb_spec (capacity_ l) (length (queue_ l))).
    + destruct (is_critical r) eqn:Ec; simpl; [destruct (Nat.ltb_spec (critical_used_ l) kCriticalSlots)|].
      * apply Hpush; [lia|lia|done].
      * constructor; simpl; rewrite ?Ec, ?Ef, ?Es; try done; rewrite ?H4, ?H5, ?List.filter_app, ?length_app; simpl; rewrite ?Ec; simpl; wraps.
      * constructor; simpl; rewrite ?Ec, ?Ef, ?Es; try done; rewrite ?H4, ?H5, ?List.filter_app, ?length_app; simpl; rewrite ?Ec; simpl; wraps.
    + apply Hpush; [lia|lia|done].
Qed.

Lemma wake_inv capacity l k : inv capacity l -> inv capacity (with_fd (signal (wake_fd_ l)) k l).
Proof.
  intros []. constructor; try done. simpl. destruct i_stop0 as (Ha & Hb & Hc). split_and!; [done|done|].
  destruct (wake_fd_ l); simpl; [by destruct (_ <? _)|done].
Qed.

Lemma logger_Stop_inv capacity l : inv capacity l -> inv capacity (Stop l).
Proof.
  intros Hi. unfold Stop. destruct (stopped_ l) eqn:Es; [done|]. destruct Hi. constructor; simpl; try done.
  - intros Hx Hf. destruct (i_clean0 Hx Hf). congruence.
  - destruct i_stop0 as (Ha & Hb & Hc). split_and!; [done|by intros [|]|]. intros Hfd. specialize (Hc Hfd).
    assert (stopper l = NotStopping) by (by apply Ha). congruence.
Qed.

Lemma stop_step_inv capacity l l' : inv capacity l -> stop_step l = Some l' -> inv capacity l'.
Proof.
  intros Hi. pose proof (i_stop _ _ Hi) as (Ha & Hb & Hc). unfold stop_step. destruct (stopper l) eqn:Es; try done.
  - intros [= <-]. pose proof (wake_inv capacity l (wakes l) Hi) as [? ? ? ? ? ? ? ? ? ? ? ? Hs]. constructor; simpl in *; try done.
    destruct Hs as (Ha' & Hb' & Hc'). split_and!; [|by intros [|]|].
    + split; [done|]. intros Hf. by apply Ha in Hf.
    + intros Hfd. specialize (Hc' Hfd). congruence.
  - destruct (writer l) eqn:Ew; try done. intros [= <-]. destruct Hi. constructor; simpl in *; rewrite ?Ew in *; try done.
    split_and!; [|done|].
    + split; [done|]. intros Hf. by apply Ha in Hf.
    + intros Hfd. specialize (Hc Hfd). congruence.
  - intros [= <-]. destruct Hi. constructor; simpl in *; try done. split_and!; [|by auto|done].
    split; [done|]. intros Hf. by apply Ha in Hf.
Qed.

(** What the stream operations do to the records' fates. *)
Lemma put_line_spec ok reach r l :
  lost l = [] \/ good l = false ->
  let l' := put_line ok reach r l in
  file l' ++ buffered l' ++ lost l' = (file l ++ buffered l ++ lost l) ++ [r] /\
  length (lost l') = (length (lost l) + if good l' then 0 else 1)%nat /\ (lost l' <> [] -> good l' = false).
Proof.
  intros Hl. unfold put_line. destruct (good l) eqn:Eg; [|split_and!; simpl; [by rewrite <- !app_assoc|rewrite length_app; simpl; lia|done]].
  destruct Hl as [Hl|]; [|done]. destruct ok; simpl; rewrite Hl; simpl.
  - split_and!; [|done|done]. rewrite !app_nil_r, <- !app_assoc, take_drop. done.
  - split_and!; [|done|done]. rewrite <- !app_assoc, (app_assoc (take reach _)), take_drop. done.
Qed.

Lemma sync_spec ok reach l :
  let l' := sync ok reach l in
  file l' ++ buffered l' = file l ++ buffered l /\ lost l' = lost l /\ (good l' = true -> buffered l' = []) /\
  (good l = false -> good l' = false).
Proof.
  unfold sync. destruct (good l && ok) eqn:E; simpl.
  - split_and!; [by rewrite app_nil_r|done|done|]. by apply andb_true_iff in E as [-> _].
  - split_and!; [by rewrite <- app_assoc, take_drop|done|done|done].
Qed.

Lemma sync_rest ok reach l :
  let l' := sync ok reach l in
  capacity_ l' = capacity_ l /\ queue_ l' = queue_ l /\ stopped_ l' = stopped_ l /\ critical_used_ l' = critical_used_ l /\
  wake_fd_ l' = wake_fd_ l /\ dropped_total_ l' = dropped_total_ l /\ io_dropped_total_ l' = io_dropped_total_ l /\
  critical_overflow_ l' = critical_overflow_ l /\ writer_failed_ l' = writer_failed_ l /\ stopper l' = stopper l /\
  accepted l' = accepted l /\ refused_full l' = refused_full l /\ refused_failed l' = refused_failed l.
Proof. unfold sync. by destruct (good l && ok). Qed.

Lemma put_line_rest ok reach r l :
  let l' := put_line ok reach r l in
  capacity_ l' = capacity_ l /\ queue_ l' = queue_ l /\ stopped_ l' = stopped_ l /\ critical_used_ l' = critical_used_ l /\
  wake_fd_ l' = wake_fd_ l /\ dropped_total_ l' = dropped_total_ l /\ io_dropped_total_ l' = io_dropped_total_ l /\
  critical_overflow_ l' = critical_overflow_ l /\ writer_failed_ l' = writer_failed_ l /\ stopper l' = stopper l /\
  accepted l' = accepted l /\ refused_full l' = refused_full l /\ refused_failed l' = refused_failed l.
Proof. unfold put_line. by repeat case_match. Qed.

(** The writer moves on with what the records' fates are. *)
Lemma write_line_inv capacity ok reach r batch f l :
  inv capacity l -> writer l = Writing (r :: batch) f -> inv capacity (write_line ok reach r batch f l).
Proof.
  intros [H1 H2 H3 H4 H5 H6 H7 H8 H9 H10 Hop Hcl (Ha & Hb & Hc)] Ew.
  assert (Hf : writer_failed_ l = false).
  { destruct (writer_failed_ l); [|done]. rewrite Ew in H9. by destruct (H9 eq_refl). }
  assert (Hg : lost l = [] \/ good l = false).
  { destruct (lost l); [by left|right; by apply H8]. }
  destruct (put_line_spec ok reach r l Hg) as (P1 & P2 & P3).
  destruct (put_line_rest ok reach r l) as (E1 & E2 & E3 & E4 & E5 & E6 & E7 & E8 & E9 & E10 & E11 & E12 & E13).
  unfold write_line. set (l' := put_line ok reach r l) in *.
  specialize (H7 Hf). unfold failures, in_hand in *. rewrite Ew in *.
  constructor; simpl; rewrite ?E1, ?E2, ?E3, ?E4, ?E5, ?E6, ?E7, ?E8, ?E9, ?E10, ?E11, ?E12, ?E13, ?Hf in *; try done.
  - unfold in_hand. simpl. rewrite H3, !(app_assoc _ _ (batch ++ _)), P1, <- !app_assoc. done.
  - intros _. unfold failures. simpl. destruct (good l'); lia.
  - by intros [|].
  - split_and!; [done|intros Hd; by specialize (Hb Hd)|done].
Qed.

Lemma sync_inv capacity ok reach w l :
  inv capacity l -> writer l = Flushing /\ w = Reading \/ writer l = Leaving /\ w = Exited ->
  inv capacity (with_writer w (sync ok reach l)).
Proof.
  intros [H1 H2 H3 H4 H5 H6 H7 H8 H9 H10 Hop Hcl (Ha & Hb & Hc)] Hw.
  destruct (sync_spec ok reach l) as (P1 & P2 & P3 & P4).
  destruct (sync_rest ok reach l) as (E1 & E2 & E3 & E4 & E5 & E6 & E7 & E8 & E9 & E10 & E11 & E12 & E13).
  set (l' := sync ok reach l) in *. unfold failures, in_hand in *.
  assert (Hr : w = Reading \/ w = Exited) by naive_solver.
  assert (Hi : match writer l with Writing b _ => b | _ => [] end = [] /\ match writer l with Writing _ f => f | _ => 0%nat end = 0%nat)
    by (by destruct Hw as [[-> _]|[-> _]]).
  destruct Hi as [Hi1 Hi2]. rewrite Hi1 in H3. rewrite Hi2 in H7.
  constructor; simpl; rewrite ?E1, ?E2, ?E3, ?E4, ?E5, ?E6, ?E7, ?E8, ?E9, ?E10, ?E11, ?E12, ?E13, ?P2 in *; try done.
  - unfold in_hand. simpl. rewrite H3, !(app_assoc (file _)), P1. destruct Hr as [-> | ->]; done.
  - unfold failures. simpl. intros Hf. rewrite <- H7 by done. destruct Hr as [-> | ->]; done.
  - intros Hl. by apply P4, H8.
  - intros Hf. destruct Hw as [[Ew _]|[_ ->]]; [|by right]. specialize (H9 Hf). rewrite Ew in H9. by destruct H9.
  - intros Hw' Hf. apply H10; [|done]. destruct Hw as [[_ ->]|[Ew _]]; [by destruct Hw'|by left].
  - intros ->. by destruct Hr.
  - split_and!; [done| |done]. intros Hd. specialize (Hb Hd). destruct Hw as [[Ew _]|[Ew _]]; congruence.
Qed.

Lemma writer_step_inv capacity ok reach l : inv capacity l -> inv capacity (writer_step ok reach l).
Proof.
  intros Hi. pose proof Hi as [H1 [H2 H2'] H3 H4 H5 H6 H7 H8 H9 H10 Hop Hcl (Ha & Hb & Hc)]. unfold writer_step.
  assert (Hf : writer l <> Leaving -> writer l <> Exited -> writer_failed_ l = false).
  { intros Hw Hw'. destruct (writer_failed_ l) eqn:E; [|done]. by destruct (H9 eq_refl). }
  assert (Hs : writer l <> Exited -> stopper l = Closing \/ stopper l = Done -> False) by (intros Hw Hd; by apply Hw, Hb).
  assert (HR : forall w, stopper l = Closing \/ stopper l = Done -> writer l <> Exited -> w = Exited) by (intros w Hd Hw; by destruct (Hs Hw)).
  destruct (writer l) as [| | |[|r batch] f| | |] eqn:Ew; [..|done].
  - specialize (Hf ltac:(discriminate) ltac:(discriminate)). unfold in_hand, failures in *. rewrite Ew, Hf in *. destruct ok.
    + constructor; simpl; rewrite ?Hf; try done; [by intros [|]|]. split_and!; [done| |done]. intros Hd. by apply HR.
    + specialize (H7 eq_refl). simpl in H7. constructor; simpl; rewrite ?Hf; try done; [|by right|by intros _ _; apply Hop].
      rewrite H6. rewrite <- H7. wraps.
  - specialize (Hf ltac:(discriminate) ltac:(discriminate)). unfold in_hand, failures in *. rewrite Ew, Hf in *.
    constructor; simpl; rewrite ?Hf; try done; [by intros [|]|]. split_and!; [done|intros Hd; by apply HR|]. by destruct (wake_fd_ l).
  - specialize (Hf ltac:(discriminate) ltac:(discriminate)). unfold in_hand, failures in *. rewrite Ew, Hf in *. unfold drain.
    destruct (bool_decide_reflect (queue_ l = [])) as [Eq|Eq]; simpl; [destruct (stopped_ l) eqn:Est|].
    + constructor; simpl; rewrite ?Hf; try done; rewrite ?Est; try (split; [lia|unfold kCriticalSlots; lia]); [by rewrite Eq in H3|].
      split_and!; [done|intros Hd; by destruct (Hs ltac:(discriminate))|done].
    + constructor; simpl; rewrite ?Hf; try done; rewrite ?Est; try (split; [lia|unfold kCriticalSlots; lia]).
      * unfold in_hand. simpl. by rewrite app_nil_r.
      * by intros [|].
      * split_and!; [done|intros Hd; by destruct (Hs ltac:(discriminate))|done].
    + constructor; simpl; rewrite ?Hf; try done; try (split; [lia|unfold kCriticalSlots; lia]).
      * unfold in_hand. simpl. by rewrite app_nil_r.
      * by intros [|].
      * split_and!; [done|intros Hd; by destruct (Hs ltac:(discriminate))|done].
  - specialize (Hf ltac:(discriminate) ltac:(discriminate)). unfold in_hand, failures in *. rewrite Ew, Hf in *. specialize (H7 eq_refl). simpl in H7.
    destruct (Nat.ltb_spec 0 f).
    + constructor; simpl; rewrite ?Hf; try done; [|by left|].
      * rewrite H6, H7. wraps.
      * split_and!; [done|intros Hd; by destruct (Hs ltac:(discriminate))|done].
    + assert (lost l = []) as El by (apply length_zero_iff_nil; lia).
      constructor; simpl; rewrite ?Hf, ?El; try done; [by rewrite H3, El|by intros [|]|].
      split_and!; [done|intros Hd; by destruct (Hs ltac:(discriminate))|done].
  - by apply write_line_inv.
  - by apply sync_inv; [|left].
  - by apply sync_inv; [|right].
Qed.

Lemma logger_step_inv capacity l l' : inv capacity l -> step l l' -> inv capacity l'.
Proof.
  intros Hi. destruct 1.
  - by apply submit_inv.
  - by apply wake_inv.
  - by apply logger_Stop_inv.
  - by apply (stop_step_inv capacity l).
  - by apply writer_step_inv.
Qed.

Lemma reached_logger_inv capacity l : reached capacity l -> inv capacity l.
Proof. intros Hr. apply (rtc_preserves step (inv capacity) (logger_step_inv capacity) (make capacity) l Hr), make_logger_inv. Qed.

(** C35: However submitters, the writer and [Stop] interleave, and whatever the
    stream does, the queue never holds more than the capacity and the sixteen
    reserved slots; the accepted records, in order, are those in the file, those
    the stream still buffers, those lost to a bad stream, the batch in hand and
    the queue, so nothing is duplicated, reordered or dropped in between; the
    drop counters are the numbers of records refused, and after a failure of the
    writer also of those lost.  When [Stop] has returned and the writer did not
    fail, all accepted records were given to the stream, and those missing in
    the file are the last ones, left in the buffer by a failed flush and a failed
    close; when no operation of the stream failed none is missing, and the file,
    read back line by line, is exactly the accepted records. *)
Theorem logger_exact capacity l :
  reached capacity l ->
  (length (queue_ l) <= capacity + kCriticalSlots)%nat /\
  accepted l = file l ++ buffered l ++ lost l ++ in_hand l ++ queue_ l /\
  dropped_total_ l = wrap_u64 (Z.of_nat (length (refused_full l))) /\
  critical_overflow_ l = wrap_u64 (Z.of_nat (length (List.filter is_critical (refused_full l)))) /\
  io_dropped_total_ l =
    wrap_u64 (Z.of_nat (length (refused_failed l)) + (if writer_failed_ l then Z.of_nat (length (lost l)) else 0)) /\
  (stopper l = Done -> writer_failed_ l = false ->
   accepted l = file l ++ buffered l /\
   (good l = true -> file l = accepted l /\
    (Forall well_ranged (accepted l) -> read_file (length (accepted l)) (concat (log_line <$> file l)) = Some (accepted l)))).
Proof.
  intros Hr. pose proof (reached_logger_inv capacity l Hr) as [H1 [H2 H2'] H3 H4 H5 H6 H7 H8 H9 H10 _ Hcl (Ha & Hb & Hc)].
  split; [lia|]. split; [done|]. split; [done|]. split; [done|]. split; [done|]. intros Hd Hf.
  assert (Hw : writer l = Exited) by (apply Hb; by right). destruct (H10 (or_intror Hw) Hf) as [_ Hq]. specialize (H7 Hf).
  unfold failures, in_hand in *. rewrite Hw in *. assert (lost l = []) as El by (by apply length_zero_iff_nil).
  assert (Hall : accepted l = file l ++ buffered l) by (by rewrite H3, El, Hq, !app_nil_r). split; [done|]. intros Hg.
  rewrite (Hcl eq_refl Hg), app_nil_r in Hall. split; [done|]. intros Hwr. rewrite <- Hall. by apply read_file_lines.
Qed.

(** ** Stop returns *)

(** Steps the writer still takes when no record can be added. *)
Definition rest (l : t) : nat := match length (queue_ l) with O => 3 | n => n + 7 end.
Definition remaining (l : t) : nat :=
  match writer l with
  | Opening => S (rest l)
  | Reading => rest l
  | Draining => pred (rest l)
  | Writing batch _ => S (S (length batch + rest l))
  | Flushing => S (rest l)
  | Leaving => 1
  | Exited => 0
  end.

Lemma writer_step_decreases ok reach l :
  stopped_ l = true -> writer l <> Exited ->
  (remaining (writer_step ok reach l) < remaining l)%nat /\ stopped_ (writer_step ok reach l) = true.
Proof.
  intros Hs Hw. destruct (sync_rest ok reach l) as (_ & Y2 & Y3 & _).
  unfold writer_step, remaining, rest. destruct (writer l) as [| | |[|r batch] f| | |] eqn:Ew; try done.
  - destruct ok; simpl; rewrite ?Hs; (split; [|done]); destruct (length (queue_ l)); lia.
  - simpl. rewrite Hs. split; [|done]. destruct (length (queue_ l)); lia.
  - unfold drain. destruct (bool_decide_reflect (queue_ l = [])) as [Eq|Eq]; rewrite ?Hs; simpl.
    + rewrite Eq. simpl. split; [lia|done].
    + split; [|done]. destruct (queue_ l); simpl; [done|lia].
  - destruct (0 <? f)%nat; simpl; rewrite ?Hs; (split; [|done]); destruct (length (queue_ l)); lia.
  - destruct (put_line_rest ok reach r l) as (_ & E2 & E3 & _). simpl. rewrite E2, E3, Hs. split; [lia|done].
  - simpl. rewrite Y2, Y3, Hs. split; [lia|done].
  - simpl. rewrite Y3, Hs. split; [lia|done].
Qed.

#[global] Instance writer_exited_dec l : Decision (writer l = Exited).
Proof. destruct (writer l); [right; discriminate..|left; reflexivity]. Defined.

(** The writer alone, with given outcomes. *)
Definition writer_run (oks : list (bool * nat)) (l : t) : t := foldl (fun l x => writer_step x.1 x.2 l) l oks.

Lemma writer_run_exits oks l : stopped_ l = true -> (remaining l <= length oks)%nat -> writer (writer_run oks l) = Exited.
Proof.
  revert l. induction oks as [|ok oks IH]; intros l Hs Hn; simpl in *.
  - unfold remaining, rest in Hn. destruct (writer l); [..|done]; destruct (length (queue_ l)); simpl in Hn; lia.
  - destruct (decide (writer l = Exited)) as [Hw|Hw].
    + apply IH; unfold writer_step; rewrite Hw; [done|]. unfold remaining. rewrite Hw. lia.
    + destruct (writer_step_decreases ok.1 ok.2 l Hs Hw) as [Hlt Hs']. apply IH; [done|lia].
Qed.

Lemma writer_run_steps oks l : rtc step l (writer_run oks l).
Proof. revert l. induction oks as [|ok oks IH]; intros l; simpl; [done|]. eapply rtc_l; [by apply step_writer|done]. Qed.

(** [Stop] returns: once the flag is set, whatever the outcomes of its system
    calls, the writer leaves its loop within as many steps as there are lines
    left plus a constant, and then [Stop] runs to its end; the result is again
    a reachable state. *)
Theorem logger_stop_terminates capacity l oks :
  reached capacity l -> stopped_ l = true -> (remaining l <= length oks)%nat ->
  writer (writer_run oks l) = Exited /\
  exists l', reached capacity l' /\ rtc step (writer_run oks l) l' /\ stopper l' = Done.
Proof.
  intros Hr Hs Hn. pose proof (writer_run_exits oks l Hs Hn) as Hw. split; [done|].
  assert (Hr' : reached capacity (writer_run oks l)) by (unfold reached in *; etrans; [exact Hr|apply writer_run_steps]).
  pose proof (reached_logger_inv capacity _ Hr') as Hi. pose proof (i_stop _ _ Hi) as (Ha & _ & _).
  assert (Hstopped : stopped_ (writer_run oks l) = true).
  { clear - Hs. revert l Hs. induction oks as [|ok oks IH]; intros l Hs; simpl; [done|]. apply IH.
    destruct (decide (writer l = Exited)) as [Hw|Hw]; [unfold writer_step; by rewrite Hw|]. by apply writer_step_decreases. }
  set (m := writer_run oks l) in *. clearbody m.
  assert (Hend : exists l', rtc step m l' /\ stopper l' = Done).
  { assert (HC : forall x, stopper x = Closing -> exists l', rtc step x l' /\ stopper l' = Done).
    { intros x Hx. eexists. split; [apply rtc_once, step_stopping; unfold stop_step; by rewrite Hx|done]. }
    assert (HJ : forall x, stopper x = Joining -> writer x = Exited -> exists l', rtc step x l' /\ stopper l' = Done).
    { intros x Hx Hwx. destruct (HC (with_stop (stopped_ x) Closing x) eq_refl) as (l' & Hl & Hd). exists l'. split; [|done].
      eapply rtc_l; [|exact Hl]. apply step_stopping. unfold stop_step. by rewrite Hx, Hwx. }
    destruct (stopper m) eqn:Es.
    - rewrite (proj1 Ha eq_refl) in Hstopped. done.
    - destruct (HJ (with_stop (stopped_ m) Joining (WakeWriter m)) eq_refl Hw) as (l' & Hl & Hd). exists l'. split; [|done].
      eapply rtc_l; [|exact Hl]. apply step_stopping. unfold stop_step. by rewrite Es.
    - by apply HJ.
    - by apply HC.
    - exists m. split; [done|done]. }
  destruct Hend as (l' & Hl & Hd). exists l'. split_and!; [unfold reached in *; by etrans|done|done].
Qed.

(** ** Where the code falls short *)

(** The eventfd is non-blocking, so a writer with nothing to do does not wait for
    the next wake: four steps bring it back to where it was. *)
Lemma idle_writer_round l :
  writer l = Reading -> queue_ l = [] -> stopped_ l = false ->
  let l' := writer_run (replicate 4 (true, 0%nat)) l in
  writer l' = Reading /\ queue_ l' = [] /\ stopped_ l' = false /\ file l' ++ buffered l' = file l ++ buffered l.
Proof.
  intros Hw Hq Hs. unfold writer_run. cbn [replicate foldl fst snd].
  assert (writer_step true 0 l = read_wake l) as -> by (unfold writer_step; by rewrite Hw).
  assert (writer_step true 0 (read_wake l) = drain (read_wake l)) as -> by done.
  unfold drain. simpl. rewrite Hq, Hs. simpl. unfold writer_step. simpl.
  match goal with |- context [sync true 0 ?x] => set (m := x); destruct (sync_rest true 0 m) as (_ & E2 & E3 & _);
    destruct (sync_spec true 0 m) as (E1 & _) end.
  rewrite E2, E3. done.
Qed.

Theorem writer_spins n l :
  writer l = Reading -> queue_ l = [] -> stopped_ l = false ->
  let l' := writer_run (replicate (n * 4) (true, 0%nat)) l in
  writer l' = Reading /\ queue_ l' = [] /\ file l' ++ buffered l' = file l ++ buffered l.
Proof.
  revert l. induction n as [|n IH]; intros l Hw Hq Hs; [done|]. cbn [Nat.mul]. rewrite replicate_add. unfold writer_run in *. rewrite foldl_app.
  destruct (idle_writer_round l Hw Hq Hs) as (Hw' & Hq' & Hs' & Hf').
  destruct (IH _ Hw' Hq' Hs') as (H1 & H2 & H3). split_and!; [exact H1|exact H2|]. etrans; [exact H3|exact Hf'].
Qed.

Definition note : LogRecord := mkRecord 1 (lit "info") (lit "e") 0 UINT32_MAX [] [] 0 [] 0 0 0 0.

(** A submitter that has left the critical section can still hold the descriptor
    when [Stop] has closed it. *)
Theorem wake_after_close : exists l, reached 4 l /\ (0 < wakes l)%nat /\ wake_fd_ l = Closed.
Proof.
  eexists. split.
  - unfold reached. run_step ltac:(apply (step_submit note)). run_step ltac:(apply step_stop).
    run_step ltac:(apply step_stopping). do 9 (run_step ltac:(apply (step_writer true 0))).
    run_step ltac:(apply step_stopping). run_step ltac:(apply step_stopping). apply rtc_refl.
  - split; [simpl; lia|reflexivity].
Qed.

(** When the file cannot be opened, records accepted before the failure are lost
    and no counter says so. *)
Theorem open_failure_uncounted : exists l,
  reached 4 l /\ stopper l = Done /\ accepted l = [note] /\ file l = [] /\ io_dropped_total_ l = 0 /\ dropped_total_ l = 0.
Proof.
  eexists. split.
  - unfold reached. run_step ltac:(apply (step_submit note)). run_step ltac:(apply (step_writer false 0)). run_step ltac:(apply step_stop).
    run_step ltac:(apply step_stopping). run_step ltac:(apply step_stopping). run_step ltac:(apply step_stopping). apply rtc_refl.
  - split_and!; reflexivity.
Qed.

(** A line the stream took is gone when the flush and the closing of the file
    fail: the failure of the flush is not looked at, so the writer has not
    failed and no counter says so. *)
Theorem flush_failure_uncounted : exists l,
  reached 4 l /\ stopper l = Done /\ writer_failed_ l = false /\ accepted l = [note] /\ file l = [] /\
  io_dropped_total_ l = 0 /\ dropped_total_ l = 0.
Proof.
  eexists. split.
  - unfold reached. run_step ltac:(apply (step_submit note)). run_step ltac:(apply step_stop). run_step ltac:(apply step_stopping).
    do 5 (run_step ltac:(apply (step_writer true 0))). run_step ltac:(apply (step_writer false 0)).
    do 2 (run_step ltac:(apply (step_writer true 0))). run_step ltac:(apply (step_writer false 0)).
    run_step ltac:(apply step_stopping). run_step ltac:(apply step_stopping). apply rtc_refl.
  - split_and!; reflexivity.
Qed.

(** ** Witnesses *)

(** A record is accepted, another refused for a full queue, then [Stop]. *)
Lemma example_stopping : exists l, reached 1 l /\ stopped_ l = true /\ remaining l = 9%nat /\ accepted l = [note] /\
  refused_full l = [note] /\ writer l = Opening.
Proof.
  eexists. split.
  - unfold reached. run_step ltac:(apply (step_submit note)). run_step ltac:(apply (step_submit note)). run_step ltac:(apply step_stop).
    run_step ltac:(apply step_stopping). apply rtc_refl.
  - split_and!; reflexivity.
Defined.

Lemma example_stopped : exists l, reached 1 l /\ stopper l = Done /\ writer_failed_ l = false /\ accepted l = [note] /\ good l = true.
Proof.
  eexists. split.
  - unfold reached. run_step ltac:(apply (step_submit note)). run_step ltac:(apply (step_submit note)). run_step ltac:(apply step_stop).
    run_step ltac:(apply step_stopping). do 9 (run_step ltac:(apply (step_writer true 0))).
    run_step ltac:(apply step_stopping). run_step ltac:(apply step_stopping). apply rtc_refl.
  - split_and!; reflexivity.
Defined.

Lemma logger_exact_witness : exists l, reached 1 l /\ stopper l = Done /\ file l = [note] /\
  read_file 1 (concat (log_line <$> file l)) = Some [note].
Proof.
  destruct example_stopped as (l & Hr & Hd & Hf & Ha & Hg). exists l. split; [done|]. split; [done|].
  destruct (logger_exact 1 l Hr) as (_ & _ & _ & _ & _ & H). destruct (H Hd Hf) as [_ H0]. destruct (H0 Hg) as [H1 H2]. rewrite H1, Ha in *.
  split; [done|]. apply H2. apply Forall_cons_2; [|apply Forall_nil_2]. split; simpl; unfold UINT32_MAX; mlia.
Defined.

Lemma logger_stop_terminates_witness : exists l, reached 1 l /\
  writer (writer_run (replicate 9 (true, 0%nat)) l) = Exited /\
  exists l', reached 1 l' /\ rtc step (writer_run (replicate 9 (true, 0%nat)) l) l' /\ stopper l' = Done.
Proof.
  destruct example_stopping as (l & Hr & Hs & Hn & _). exists l. split; [done|].
  apply (logger_stop_terminates 1 l); [done|done|]. rewrite Hn. simpl. lia.
Defined.

End AsyncLogger.
