(* ===== verification/GatewayView.v ===== *)
(** * What the gateway reports about itself

    Models the read-only members of src/src/gateway/Gateway.cpp: the metrics
    page ([RenderMetrics]: the workers' counters, the coordinator's protection
    snapshot, the logger's counters), [EndpointHealthy], [BreakerState],
    [ClientCount]; and the log records it submits ([Log]). *)

From S2P Require Import Prelude Bytes Types HttpText Double Metrics MetricsCounts MetricsText CircuitBreaker CoordinatorState LogRecord AsyncLogger.

Module GatewayView.
Import HttpText Metrics MetricsCounts MetricsText.
Import CoordinatorState(HealthCircuitSnapshot, decisions, EndpointDecision, healthy, breaker_state).

(** The current generation: its routes and the coordinator's snapshot. *)
Record generation := mkGeneration { routes : list Route; snapshot : option HealthCircuitSnapshot }.

Definition decision_at (route_index endpoint_index : nat) (s : HealthCircuitSnapshot) : option EndpointDecision :=
  row ← decisions s !! route_index; row !! endpoint_index.

Definition EndpointHealthy (route_index endpoint_index : nat) (g : option generation) : bool :=
  match g with
  | None => true
  | Some g => match snapshot g with
              | None => true
              | Some s => match decision_at route_index endpoint_index s with Some d => healthy d | None => true end
              end
  end.

Definition BreakerState (route_index endpoint_index : nat) (g : option generation) : CircuitBreaker.State :=
  match g with
  | None => CircuitBreaker.kClosed
  | Some g => match snapshot g with
              | None => CircuitBreaker.kClosed
              | Some s => match decision_at route_index endpoint_index s with
                          | Some d => breaker_state d
                          | None => CircuitBreaker.kClosed
                          end
              end
  end.

Definition ClientCount (counts : list Z) : Z := foldl (fun total n => wrap_u64 (total + n)) 0 counts.

(** ** The metrics page *)

Definition state_name (s : CircuitBreaker.State) : bytes :=
  match s with
  | CircuitBreaker.kOpen => lit "open"
  | CircuitBreaker.kHalfOpen => lit "half_open"
  | CircuitBreaker.kClosed => lit "closed"
  end.

Definition sample_of (r : Route) (e : Endpoint) (d : EndpointDecision) : ProtectionSample :=
  mkSample (rt_name r) (ep_host e ++ lit ":" ++ to_string (ep_port e)) (state_name (breaker_state d)) (healthy d).

Definition endpoint_samples (r : Route) (row : list EndpointDecision) : list ProtectionSample :=
  concat (imap (fun endpoint_index e => match row !! endpoint_index with
                                        | None => []
                                        | Some d => [sample_of r e d]
                                        end) (rt_endpoints r)).

Definition route_samples (s : HealthCircuitSnapshot) (route_index : nat) (r : Route) : list ProtectionSample :=
  match circuit_breaker r, health_check r with
  | None, None => []
  | _, _ => match decisions s !! route_index with
            | None => []
            | Some row => endpoint_samples r row
            end
  end.

Definition protection (g : generation) : list ProtectionSample :=
  match snapshot g with
  | None => []
  | Some s => concat (imap (route_samples s) (routes g))
  end.

Definition worker_line (name : bytes) (index : nat) (n : Z) : bytes :=
  lit "aegisgate_worker_" ++ name ++ lit "{worker=" ++ [QUOTE] ++ to_string (Z.of_nat index) ++ [QUOTE] ++ lit "} "
  ++ to_string n ++ [NEWLINE].

Definition worker_lines (index : nat) (d : Data) : bytes :=
  worker_line (lit "active_connections") index (active_connections d)
  ++ worker_line (lit "inflight_requests") index (inflight d)
  ++ worker_line (lit "upstream_read_pauses_total") index (upstream_read_pauses d)
  ++ worker_line (lit "upstream_read_resumes_total") index (upstream_read_resumes d).

Definition logger_lines (l : AsyncLogger.t) : bytes :=
  lit "aegisgate_log_dropped_total " ++ to_string (AsyncLogger.dropped_total_ l) ++ [NEWLINE]
  ++ lit "aegisgate_log_io_dropped_total " ++ to_string (AsyncLogger.io_dropped_total_ l) ++ [NEWLINE]
  ++ lit "aegisgate_log_critical_overflow_total " ++ to_string (AsyncLogger.critical_overflow_ l) ++ [NEWLINE].

(** [merged] and [shown] are the two rounds of snapshots of the workers' metrics
    that the function takes. *)
Definition RenderMetrics (g : option generation) (merged shown : list Data) (logger : option AsyncLogger.t) : bytes :=
  match g with
  | None => RenderPrometheus no_data []
  | Some g =>
      RenderPrometheus (aggregate merged) (protection g)
      ++ concat (imap worker_lines shown)
      ++ match logger with Some l => logger_lines l | None => [] end
  end.

(** ** Log records *)

(** [version]: of the current generation; [now_us]: the clock. *)
Definition log_record (version : option Z) (now_us : Z) (level event r up : bytes) (st : Z) (why : bytes)
    (latency retries request_bytes response_bytes : Z) : LogRecord.LogRecord :=
  LogRecord.mkRecord now_us level event (default 0 version) LogRecord.UINT32_MAX r up st why latency retries request_bytes response_bytes.

Definition Log (logger : option AsyncLogger.t) (record : LogRecord.LogRecord) : option AsyncLogger.t :=
  match logger with
  | None => None
  | Some l => Some (AsyncLogger.Submit record l).1
  end.

(** ** The samples *)

Lemma elem_of_imap {A B} (f : nat -> A -> B) (l : list A) y : y ∈ imap f l <-> exists i x, l !! i = Some x /\ y = f i x.
Proof.
  rewrite list_elem_of_lookup. setoid_rewrite list_lookup_imap. split.
  - intros [i Hi]. destruct (l !! i) as [x|] eqn:E; [|done]. simpl in Hi. injection Hi as <-. eauto.
  - intros (i & x & Hi & ->). exists i. by rewrite Hi.
Qed.

(** The page shows exactly the endpoints of protected routes the snapshot
    decides on. *)
Lemma protection_samples_exact g s x :
  snapshot g = Some s ->
  (x ∈ protection g <->
   exists ri r ei e d, routes g !! ri = Some r /\ rt_endpoints r !! ei = Some e /\ decision_at ri ei s = Some d /\
     (circuit_breaker r <> None \/ health_check r <> None) /\ x = sample_of r e d).
Proof.
  intros Hs. unfold protection. rewrite Hs, elem_of_concat. setoid_rewrite elem_of_imap. split.
  - intros (l & (ri & r & Hr & ->) & Hx). unfold route_samples, decision_at in *.
    assert (Hp : (circuit_breaker r <> None \/ health_check r <> None) /\ exists row, decisions s !! ri = Some row /\ x ∈ endpoint_samples r row).
    { destruct (circuit_breaker r), (health_check r); [..|by apply elem_of_nil in Hx];
        (split; [eauto|]); (destruct (decisions s !! ri); [eauto|by apply elem_of_nil in Hx]). }
    destruct Hp as (Hp & row & Hrow & Hx'). unfold endpoint_samples in Hx'. rewrite elem_of_concat in Hx'.
    destruct Hx' as (l & (ei & e & He & ->)%elem_of_imap & Hx'). destruct (row !! ei) as [d|] eqn:Hd; [|by apply elem_of_nil in Hx'].
    apply list_elem_of_singleton in Hx' as ->. exists ri, r, ei, e, d. rewrite Hrow. simpl. eauto 10.
  - intros (ri & r & ei & e & d & Hr & He & Hd & Hp & ->). eexists. split; [eauto|]. unfold route_samples, decision_at in *.
    destruct (decisions s !! ri) as [row|]; [|done]. simpl in Hd.
    assert (Hin : sample_of r e d ∈ endpoint_samples r row).
    { unfold endpoint_samples. rewrite elem_of_concat. eexists. split; [apply elem_of_imap; eauto|]. rewrite Hd. set_solver. }
    destruct (circuit_breaker r), (health_check r); try done. by destruct Hp.
Qed.

(** ** The page read back *)

Definition worker_sample (name : bytes) (index : nat) (n : Z) : line :=
  mkLine (lit "aegisgate_worker_" ++ name) [(lit "worker", to_string (Z.of_nat index))] (to_string n).

Definition worker_samples (index : nat) (d : Data) : list line :=
  [worker_sample (lit "active_connections") index (active_connections d);
   worker_sample (lit "inflight_requests") index (inflight d);
   worker_sample (lit "upstream_read_pauses_total") index (upstream_read_pauses d);
   worker_sample (lit "upstream_read_resumes_total") index (upstream_read_resumes d)].

Definition logger_samples (l : AsyncLogger.t) : list line :=
  [mkLine (lit "aegisgate_log_dropped_total") [] (to_string (AsyncLogger.dropped_total_ l));
   mkLine (lit "aegisgate_log_io_dropped_total") [] (to_string (AsyncLogger.io_dropped_total_ l));
   mkLine (lit "aegisgate_log_critical_overflow_total") [] (to_string (AsyncLogger.critical_overflow_ l))].

(** The lines after the aggregate's. *)
Definition other_samples (shown : list Data) (logger : option AsyncLogger.t) : list line :=
  concat (imap worker_samples shown) ++ match logger with Some l => logger_samples l | None => [] end.

Lemma worker_line_text name index n : worker_line name index n = line_text (worker_sample name index n).
Proof.
  unfold worker_line, line_text, worker_sample. cbn [l_name l_labels l_value].
  rewrite bool_decide_eq_false_2 by done. cbn [labels_text]. unfold label.
  rewrite (EscapeLabel_plain (to_string _)) by (apply numeral_free; [apply to_string_plain_digits|done]).
  rewrite <- !app_assoc. done.
Qed.

Lemma worker_lines_text shown : forall i,
  concat (imap (fun k => worker_lines (i + k)) shown) =
  concat (item_text <$> (Sample <$> concat (imap (fun k => worker_samples (i + k)) shown))).
Proof.
  induction shown as [|d shown IH]; intros i; [done|]. rewrite !imap_cons. cbn [concat].
  rewrite !fmap_app, concat_app. f_equal.
  - unfold worker_lines, worker_samples. cbn [fmap list_fmap concat item_text].
    rewrite app_nil_r, <- !worker_line_text. done.
  - rewrite (imap_ext _ (fun k => worker_lines (S i + k))) by (intros k x _; simpl; f_equal; lia).
    rewrite (imap_ext (_ ∘ S) (fun k => worker_samples (S i + k))) by (intros k x _; simpl; f_equal; lia). apply IH.
Qed.

Lemma page_scrape g merged shown logger :
  scrape (RenderMetrics (Some g) merged shown logger) =
  Some (omap item_line (page_items (aggregate merged) (protection g)) ++ other_samples shown logger).
Proof.
  unfold RenderMetrics. rewrite page_text.
  rewrite (worker_lines_text shown 0 : concat (imap worker_lines shown) = concat (item_text <$> (Sample <$> concat (imap worker_samples shown)))).
  assert (El : match logger with Some l => logger_lines l | None => [] end =
               concat (item_text <$> (Sample <$> match logger with Some l => logger_samples l | None => [] end))).
  { destruct logger as [l|]; [|done]. unfold logger_lines, logger_samples. cbn [fmap list_fmap concat item_text].
    unfold line_text. cbn [l_name l_labels l_value]. rewrite bool_decide_eq_true_2 by done.
    rewrite app_nil_r, <- !app_assoc. done. }
  rewrite El, <- !concat_app, <- !fmap_app. fold (other_samples shown logger).
  rewrite scrape_items; [|apply Forall_app; split; [apply page_items_ok|]].
  - f_equal. rewrite omap_app. f_equal. induction (other_samples shown logger) as [|x l IH]; [done|]. simpl. by f_equal.
  - apply Forall_fmap. unfold other_samples. apply Forall_app. split.
    + apply Forall_concat, Forall_forall. intros l (i & d & _ & ->)%elem_of_imap.
      unfold worker_samples. rewrite !Forall_cons, Forall_nil. split_and!; try done; readable_line; apply numeral_value, to_string_plain_digits.
    + destruct logger as [l|]; [|constructor]. unfold logger_samples. rewrite !Forall_cons, Forall_nil.
      split_and!; try done; readable_line; apply numeral_value, to_string_plain_digits.
Qed.
(** The families the other lines do not belong to. *)
Lemma other_names shown logger x :
  x ∈ other_samples shown logger ->
  l_name x ∉ [requests_total; duration_bucket; duration_count; rate_limited_total; lit "aegisgate_inflight_requests"].
Proof.
  unfold other_samples. rewrite elem_of_app. intros [Hx|Hx].
  - apply elem_of_concat in Hx as (l & (i & d & _ & ->)%elem_of_imap & Hx). unfold worker_samples in Hx.
    rewrite !elem_of_cons, elem_of_nil in Hx. destruct Hx as [->|[->|[->|[->|[]]]]];
      apply (bool_decide_unpack _); vm_compute; exact I.
  - destruct logger as [l|]; [|by apply elem_of_nil in Hx]. unfold logger_samples in Hx.
    rewrite !elem_of_cons, elem_of_nil in Hx. destruct Hx as [->|[->|[->|[]]]];
      apply (bool_decide_unpack _); vm_compute; exact I.
Qed.

(** A sample of one of those families comes from the aggregate. *)
Lemma page_family d p shown logger name ls v :
  name ∈ [requests_total; duration_bucket; duration_count; rate_limited_total; lit "aegisgate_inflight_requests"] ->
  mkLine name ls v ∈ omap item_line (page_items d p) ++ other_samples shown logger <->
  Sample (mkLine name ls v) ∈ page_items d p.
Proof.
  intros Hn. rewrite elem_of_app, sample_line. split; [|by left].
  intros [H|H]; [done|]. apply other_names in H. done.
Qed.

Lemma duration_family r h name ls v :
  mkLine name ls v ∈ duration_samples (r, h) <->
  (name = duration_bucket /\
   ((exists b n, (b, n) ∈ zip kDurationBounds (cumulative 0 (buckets h)) /\
                 ls = bucket_labels r (Double.show b) /\ v = to_string n) \/
    ls = bucket_labels r (lit "+Inf") /\ v = to_string (count h))) \/
  (name = duration_sum /\ ls = [(lit "route", r)] /\ v = Double.show (sum h)) \/
  (name = duration_count /\ ls = [(lit "route", r)] /\ v = to_string (count h)).
Proof.
  unfold duration_samples. cbn [fst snd]. rewrite elem_of_app, !elem_of_cons, elem_of_nil.
  rewrite zip_with_zip, list_elem_of_fmap. unfold bucket_sample. split.
  - intros [([b n] & E & Hin)|[E|[E|[E|[]]]]]; cbn [uncurry] in E; simplify_eq; [left|left|right; left|right; right]; split; try done.
    + left. by exists b, n.
    + by right.
  - intros [[-> [(b & n & Hin & -> & ->)|[-> ->]]]|[(-> & -> & ->)|(-> & -> & ->)]]; [left|right; by left|right; right; by left|right; right; right; by left].
    by exists (b, n).
Qed.

Section Page.
Context (d : Data) (p : list ProtectionSample).

(** The samples of each family, from the maps of the aggregate. *)
Lemma request_family ls v :
  Sample (mkLine requests_total ls v) ∈ page_items d p <->
  exists k n, requests d !! k = Some n /\ ls = key_labels k /\ v = to_string n.
Proof.
  rewrite page_samples. split.
  - intros H. destruct H as [([k n] & Hin & E)|H].
    + apply in_order_elem in Hin; [|apply _]. unfold request_sample in E. simplify_eq. by exists k, n.
    + exfalso. destruct H as [(s & _ & (c & E & _)%list_elem_of_fmap)|[(s & _ & E)|[([r h] & _ & E)|[(y & _ & E)|E]]]];
        [discriminate E|discriminate E| |discriminate E|by repeat destruct E as [E|E]].
      apply duration_family in E. by destruct E as [[E _]|[[E _]|[E _]]].
  - intros (k & n & Hk & -> & ->). left. exists (k, n). split; [|done]. apply in_order_elem; [apply _|done].
Qed.

Lemma histogram_family name ls v :
  name ∈ [duration_bucket; duration_count] ->
  Sample (mkLine name ls v) ∈ page_items d p <->
  exists r h, duration d !! r = Some h /\ mkLine name ls v ∈ duration_samples (r, h).
Proof.
  intros Hn. rewrite page_samples. split.
  - intros H. destruct H as [(y & _ & E)|[(s & _ & (c & E & _)%list_elem_of_fmap)|[(s & _ & E)|[([r h] & Hin & E)|[(y & _ & E)|E]]]]].
    4: { apply in_order_elem in Hin; [|apply _]. by exists r, h. }
    all: exfalso; revert Hn; try (repeat destruct E as [E|E]); injection E as -> _ _;
      apply (bool_decide_unpack _); vm_compute; exact I.
  - intros (r & h & Hr & Hin). right; right; right; left. exists (r, h). split; [|done].
    apply in_order_elem; [apply _|done].
Qed.

Lemma limited_family ls v :
  Sample (mkLine rate_limited_total ls v) ∈ page_items d p <->
  exists r n, rate_limited d !! r = Some n /\ ls = [(lit "route", r)] /\ v = to_string n.
Proof.
  rewrite page_samples. split.
  - intros H. destruct H as [(y & _ & E)|[(s & _ & (c & E & _)%list_elem_of_fmap)|[(s & _ & E)|[([r h] & _ & E)|[([r n] & Hin & E)|E]]]]].
    5: { apply in_order_elem in Hin; [|apply _]. unfold limited_sample in E. simplify_eq/=. by exists r, n. }
    4: { apply duration_family in E. by destruct E as [[E _]|[[E _]|[E _]]]. }
    all: exfalso; try (repeat destruct E as [E|E]); discriminate E.
  - intros (r & n & Hr & -> & ->). do 4 right; left. exists (r, n). split; [|done].
    apply in_order_elem; [apply _|done].
Qed.

Lemma inflight_family ls v :
  Sample (mkLine (lit "aegisgate_inflight_requests") ls v) ∈ page_items d p <-> ls = [] /\ v = to_string (inflight d).
Proof.
  rewrite page_samples. split.
  - intros H. destruct H as [(y & _ & E)|[(s & _ & (c & E & _)%list_elem_of_fmap)|[(s & _ & E)|[([r h] & _ & E)|[(y & _ & E)|[E|[E|[E|E]]]]]]]];
      try discriminate E; [|by injection E as -> ->].
    apply duration_family in E. by destruct E as [[E _]|[[E _]|[E _]]].
  - intros [-> ->]. do 6 right. by left.
Qed.

End Page.

(** C33: The metrics page tells the truth.  A reader of the text format gets from it
    request counters that are, for every route, status, upstream and reason, the
    number of observations the workers made with them; for every route with
    observations a histogram that has at each bound the number of its
    observations that took at most that long, and at +Inf and in its count line
    all of them; per route the number of rate-limited observations; one in-flight
    gauge, the number of requests that have begun and neither been completed nor
    given up; and nothing else in these families (numbers are modulo 2^64).  A
    worker has made at most one observation per request begun. *)
Theorem gateway_metrics_exact g xs shown logger :
  Forall worker_reached xs ->
  let os := concat (obs <$> xs) in
  exists l, scrape (RenderMetrics (Some g) (Snapshot ∘ st <$> xs) shown logger) = Some l /\
  (forall ls v, mkLine requests_total ls v ∈ l <->
     exists k, 0 < number (fun o => bool_decide (o_key o = k)) os /\ ls = key_labels k /\
               v = to_string (wrap_u64 (number (fun o => bool_decide (o_key o = k)) os))) /\
  (forall ls v, mkLine duration_bucket ls v ∈ l <->
     exists r, 0 < number (of_route r) os /\
       ((exists b, b ∈ kDurationBounds /\ ls = bucket_labels r (Double.show b) /\
           v = to_string (wrap_u64 (number (fun o => of_route r o && Double.le (o_seconds o) b) os))) \/
        ls = bucket_labels r (lit "+Inf") /\ v = to_string (wrap_u64 (number (of_route r) os)))) /\
  (forall ls v, mkLine duration_count ls v ∈ l <->
     exists r, 0 < number (of_route r) os /\ ls = [(lit "route", r)] /\
               v = to_string (wrap_u64 (number (of_route r) os))) /\
  (forall ls v, mkLine rate_limited_total ls v ∈ l <->
     exists r, 0 < number (fun o => o_limited o && of_route r o) os /\ ls = [(lit "route", r)] /\
               v = to_string (wrap_u64 (number (fun o => o_limited o && of_route r o) os))) /\
  (forall ls v, mkLine (lit "aegisgate_inflight_requests") ls v ∈ l <->
     ls = [] /\ v = to_string (wrap_u64 (sumZ (live <$> xs)))) /\
  Forall (fun x => Z.of_nat (begun x) = live x + (Z.of_nat (length (obs x)) - Z.of_nat (immediate x)) + Z.of_nat (released x)) xs.
Proof.
  intros Hx os. pose proof (workers_counts xs Hx) as Hc. pose proof (workers_inflight xs Hx) as Hf. fold os in Hc.
  set (d := aggregate (Snapshot ∘ st <$> xs)) in *. destruct Hc as (Hq & Hl & Hd & Hn).
  eexists. split; [apply page_scrape|]. fold d.
  assert (Ht : forall n m, 0 <= n -> tally n = Some m <-> 0 < n /\ m = wrap_u64 n).
  { intros n m H0. unfold tally. destruct (Z.eqb_spec n 0) as [->|]; split; [done|by intros [? _]|intros [= <-]; split; [lia|done]|by intros [_ ->]]. }
  assert (Hhist : forall r h, duration d !! r = Some h <-> 0 < number (of_route r) os /\ duration d !! r = Some h).
  { intros r h. split; [|tauto]. intros Hr. split; [|done]. pose proof (number_nonneg (of_route r) os).
    destruct (Z.eq_dec (number (of_route r) os) 0) as [E|]; [|lia]. apply Hn in E. congruence. }
  assert (Hsome : forall r, 0 < number (of_route r) os -> exists h, duration d !! r = Some h).
  { intros r Hr. destruct (duration d !! r) eqn:E; [eauto|]. apply Hn in E. lia. }
  split_and!.
  - intros ls v. rewrite page_family, request_family by (apply (bool_decide_unpack _); vm_compute; exact I). split.
    + intros (k & n & Hk & -> & ->). rewrite Hq, Ht in Hk by apply number_nonneg. destruct Hk as [Hk ->]. by exists k.
    + intros (k & Hk & -> & ->). eexists k, _. split_and!; try done. rewrite Hq. apply Ht; [apply number_nonneg|done].
  - intros ls v. rewrite page_family, histogram_family by (apply (bool_decide_unpack _); vm_compute; exact I). split.
    + intros (r & h & (Hr & Hh)%Hhist & Hin). exists r. split; [done|]. specialize (Hd r). rewrite Hh in Hd.
      destruct Hd as (_ & Ec & Eb). cbn [default from_option] in Ec, Eb. unfold id in Ec, Eb. rewrite duration_family, Ec, Eb in Hin.
      destruct Hin as [[_ [(b & n & Hin & -> & ->)|[-> ->]]]|[[E _]|[E _]]]; [left|by right|discriminate E|discriminate E].
      apply elem_of_zip_map in Hin. apply list_elem_of_fmap in Hin as (b' & E & Hb). simplify_eq. by exists b'.
    + intros (r & Hr & Hls). destruct (Hsome r Hr) as [h Hh]. exists r, h. split; [done|]. specialize (Hd r).
      rewrite Hh in Hd. destruct Hd as (_ & Ec & Eb). cbn [default from_option] in Ec, Eb. unfold id in Ec, Eb. rewrite duration_family, Ec, Eb. left.
      split; [done|]. destruct Hls as [(b & Hb & -> & ->)|Hls]; [left|by right]. eexists b, _. split_and!; [|done|done].
      apply elem_of_zip_map, list_elem_of_fmap. by exists b.
  - intros ls v. rewrite page_family, histogram_family by (apply (bool_decide_unpack _); vm_compute; exact I). split.
    + intros (r & h & (Hr & Hh)%Hhist & Hin). exists r. split; [done|]. specialize (Hd r). rewrite Hh in Hd.
      destruct Hd as (_ & Ec & _). cbn [default from_option] in Ec. unfold id in Ec. rewrite duration_family, Ec in Hin.
      destruct Hin as [[E _]|[[E _]|[_ Hin]]]; [discriminate E|discriminate E|done].
    + intros (r & Hr & Hls). destruct (Hsome r Hr) as [h Hh]. exists r, h. split; [done|]. specialize (Hd r).
      rewrite Hh in Hd. destruct Hd as (_ & Ec & _). cbn [default from_option] in Ec. unfold id in Ec. rewrite duration_family, Ec. by right; right.
  - intros ls v. rewrite page_family, limited_family by (apply (bool_decide_unpack _); vm_compute; exact I). split.
    + intros (k & n & Hk & -> & ->). rewrite Hl, Ht in Hk by apply number_nonneg. destruct Hk as [Hk ->]. by exists k.
    + intros (k & Hk & -> & ->). eexists k, _. split_and!; try done. rewrite Hl. apply Ht; [apply number_nonneg|done].
  - intros ls v. rewrite page_family, inflight_family by (apply (bool_decide_unpack _); vm_compute; exact I). by rewrite Hf.
  - eapply Forall_impl; [exact Hx|]. intros x Hr. pose proof (i_begun x (worker_inv x Hr)). lia.
Qed.

(** Two workers: a completed request, one still in flight whose handle moved, an
    immediate rejection, a request given up. *)
Definition example_worker (os : list op) : sys := default init (run os init).

Definition example_first : list op :=
  [OBegin 1 (lit "r") 0; OBegin 2 (lit "r") 5; OComplete 1 2000000 200 (lit "a:1") false []; OMoveConstruct 3 2; ODestroy 2;
   OImmediate (lit "q") 429 [] true (lit "rate")].
Definition example_second : list op :=
  [OBegin 1 (lit "r") 0; OComplete 1 700000000 200 (lit "a:1") false []; OBegin 2 (lit "q") 0; ODestroy 2].

Lemma gateway_metrics_exact_witness :
  let xs := [example_worker example_first; example_worker example_second] in
  exists l, scrape (RenderMetrics (Some (mkGeneration [] None)) (Snapshot ∘ st <$> xs) [] None) = Some l /\
  mkLine requests_total (key_labels (mkKey (lit "r") 200 (lit "a:1") [])) (lit "2") ∈ l /\
  mkLine duration_bucket (bucket_labels (lit "r") (lit "0.5")) (lit "1") ∈ l /\
  mkLine (lit "aegisgate_inflight_requests") [] (lit "1") ∈ l.
Proof.
  intros xs.
  assert (Hx : Forall worker_reached xs).
  { subst xs. repeat constructor; [exists example_first|exists example_second]; (split; [done|vm_compute; reflexivity]). }
  destruct (gateway_metrics_exact (mkGeneration [] None) xs [] None Hx) as (l & Hl & Hk & Hb & _ & _ & Hf & _).
  exists l. split; [done|]. split; [|split].
  - apply Hk. exists (mkKey (lit "r") 200 (lit "a:1") []). split_and!; vm_compute; reflexivity.
  - apply Hb. exists (lit "r"). split; [vm_compute; reflexivity|]. left. exists (Double.ratio 5 10).
    split; [apply (list_elem_of_lookup_2 _ 5); reflexivity|]. split; vm_compute; reflexivity.
  - apply Hf. split; [done|]. vm_compute. reflexivity.
Defined.

End GatewayView.
