(* ===== verification/ReloadController.v ===== *)
(** * The reload controller

    Models src/src/runtime/ReloadController.cpp: requests start a background
    parse of the configuration file or ask the running one to repeat; results
    go to the control loop through a queue and an eventfd; [Stop] joins the
    parser.  A step is one critical section, one system call or one parse.  What
    a parse yields (the file's content through [LoadFromYaml], or an error) is
    given with the step that reads the file. *)

From Stdlib Require Import Sorting.Sorted.
From S2P Require Import Prelude Bytes.

Module ReloadController.

Section Controller.
Context {Config : Type}.

(** [covers]: how many requests had been accepted when the parse that gave this
    result began; only the model has it. *)
Record Result := mkResult { candidate : option Config; error : bytes; sequence : Z; covers : nat }.

(** The background thread: none to join, reading the file, about to publish, or
    returned and not joined yet. *)
Inductive thread := NoThread | Reading (began : nat) | Publishing (r : Result) | Returned.

Inductive stop_state := NotStopping | Joining | Closing | Stopped.

(** [wake]: the eventfd's counter, [None] when closed.  [draining]: the control
    loop is between reading the eventfd and taking the results.  [accepted]: the
    requests that were accepted; [published]: every result that was queued;
    [drained]: those the control loop took; [lost_wake]: a write to the eventfd
    failed. *)
Record t := mk {
  results_ : list Result;
  parser_ : thread;
  wake_fd_ : option Z;
  next_sequence_ : Z;
  stopping_ : bool;
  parsing_ : bool;
  pending_ : bool;
  stopper : stop_state;
  draining : bool;
  accepted : nat;
  published : list Result;
  drained : list Result;
  lost_wake : bool
}.

(** [None]: [std::invalid_argument] on an empty path. *)
Definition make (config_path : bytes) : option t :=
  if bool_decide (config_path = []) then None
  else Some (mk [] NoThread (Some 0) 1 false false false NotStopping false 0 [] [] false).

Definition with_thread (p : thread) (parsing pending : bool) (n : nat) (c : t) : t :=
  mk (results_ c) p (wake_fd_ c) (next_sequence_ c) (stopping_ c) parsing pending (stopper c) (draining c) n
     (published c) (drained c) (lost_wake c).

Definition joinable (p : thread) : bool := match p with NoThread => false | _ => true end.

Inductive outcome := Ok (accepted : bool) | Throws | Terminates.

(** [Request]; [thread_ok]: the system can start a thread.  When it cannot, the
    exception destroys the moved-out finished thread, which must not be
    joinable. *)
Definition Request (thread_ok : bool) (c : t) : t * outcome :=
  if stopping_ c then (c, Ok false)
  else if parsing_ c then (with_thread (parser_ c) (parsing_ c) true (S (accepted c)) c, Ok true)
  else if thread_ok then (with_thread (Reading (S (accepted c))) true (pending_ c) (S (accepted c)) c, Ok true)
  else (with_thread NoThread false (pending_ c) (accepted c) c, if joinable (parser_ c) then Terminates else Throws).

(** ** ParseLoop *)

(** The file is read and parsed, or that failed. *)
Definition parse (o : option Config) (why : bytes) (c : t) : option t :=
  match parser_ c with
  | Reading began =>
      Some (with_thread (Publishing (mkResult o (if o is Some _ then [] else why) 0 began)) (parsing_ c) (pending_ c) (accepted c) c)
  | _ => None
  end.

(** [WakeLocked]: [ok] is false for an error other than a full counter. *)
Definition WakeLocked (ok : bool) (fd : option Z) : option Z * bool :=
  match fd with
  | None => (None, false)
  | Some n => if ok then (Some (if n + 1 <? u64_modulus - 1 then n + 1 else n), true) else (Some n, false)
  end.

(** The critical section of the loop: publish, and go round again or return. *)
Definition publish (ok : bool) (c : t) : option t :=
  match parser_ c with
  | Publishing r =>
      let '(fd, woken) := if stopping_ c then (wake_fd_ c, false) else WakeLocked ok (wake_fd_ c) in
      let r := mkResult (candidate r) (error r) (next_sequence_ c) (covers r) in
      let queued := negb (stopping_ c) && woken in
      let repeat := pending_ c && negb (stopping_ c) in
      Some (mk (if queued then results_ c ++ [r] else results_ c)
               (if repeat then Reading (accepted c) else Returned) fd
               (if stopping_ c then next_sequence_ c else wrap_u64 (next_sequence_ c + 1))
               (stopping_ c) (if repeat then parsing_ c else false) false (stopper c) (draining c) (accepted c)
               (if queued then published c ++ [r] else published c) (drained c)
               (lost_wake c || (negb (stopping_ c) && negb woken)))
  | _ => None
  end.

(** ** Drain *)

Definition drain_read (c : t) : option t :=
  if draining c then None
  else Some (mk (results_ c) (parser_ c) (match wake_fd_ c with Some _ => Some 0 | None => None end) (next_sequence_ c) (stopping_ c)
               (parsing_ c) (pending_ c) (stopper c) true (accepted c) (published c) (drained c) (lost_wake c)).

Definition drain_swap (c : t) : option (t * list Result) :=
  if draining c then
    Some (mk [] (parser_ c) (wake_fd_ c) (next_sequence_ c) (stopping_ c) (parsing_ c) (pending_ c) (stopper c) false (accepted c)
             (published c) (drained c ++ results_ c) (lost_wake c), results_ c)
  else None.

(** What the gateway does with the results it took: only the newest counts. *)
Inductive reload_action := NoAction | LogFailure (why : bytes) | PublishCandidate (config : Config).

Definition HandleReloadResults (results : list Result) (last_reload_result_sequence : Z) : Z * reload_action :=
  match last results with
  | None => (last_reload_result_sequence, NoAction)
  | Some latest =>
      (foldl (fun n r => if n <? sequence r then sequence r else n) last_reload_result_sequence results,
       match candidate latest with Some config => PublishCandidate config | None => LogFailure (error latest) end)
  end.

(** ** Stop *)

Definition with_stop (p : thread) (fd : option Z) (stopping pending : bool) (s : stop_state) (c : t) : t :=
  mk (results_ c) p fd (next_sequence_ c) stopping (parsing_ c) pending s (draining c) (accepted c)
     (published c) (drained c) (lost_wake c).

(** The control loop calls [Stop] and waits for it, so one call runs at a time;
    the thread is moved out to be joined. *)
Definition Stop (c : t) : t :=
  match stopper c with
  | NotStopping => with_stop (parser_ c) (wake_fd_ c) true false Joining c
  | _ => c
  end.

Definition stop_step (c : t) : option t :=
  match stopper c with
  | Joining => match parser_ c with
               | NoThread | Returned => Some (with_stop NoThread (wake_fd_ c) (stopping_ c) (pending_ c) Closing c)
               | _ => None
               end
  | Closing => Some (with_stop (parser_ c) None (stopping_ c) (pending_ c) Stopped c)
  | _ => None
  end.

(** ** Executions *)

Inductive step : t -> t -> Prop :=
| step_request thread_ok c c' b : Request thread_ok c = (c', Ok b) -> step c c'
| step_throws c c' : Request false c = (c', Throws) -> step c c'
| step_parse o why c c' : parse o why c = Some c' -> step c c'
| step_publish ok c c' : publish ok c = Some c' -> step c c'
| step_drain_read c c' : drain_read c = Some c' -> step c c'
| step_drain_swap c c' rs : drain_swap c = Some (c', rs) -> step c c'
| step_stop c : step c (Stop c)
| step_stopping c c' : stop_step c = Some c' -> step c c'.

(** After [n] steps. *)
Definition reached (n : nat) (c : t) : Prop := exists path c0, make path = Some c0 /\ nsteps step n c0 c.

(** ** Invariant *)

Definition running (p : thread) : bool := match p with Reading _ | Publishing _ => true | _ => false end.
Definition began (p : thread) : option nat :=
  match p with Reading n => Some n | Publishing r => Some (covers r) | _ => None end.

Definition newest_covers (c : t) : nat := match last (published c) with Some r => covers r | None => 0 end.

Record inv (c : t) : Prop := {
  i_parsing : stopper c = NotStopping -> parsing_ c = running (parser_ c);
  i_pending : pending_ c = true -> running (parser_ c) = true;
  i_stopping : stopping_ c = false <-> stopper c = NotStopping;
  i_sequences : Forall (fun r => 0 < sequence r < next_sequence_ c) (published c) /\
                StronglySorted (fun r s => sequence r < sequence s) (published c) /\ 0 < next_sequence_ c;
  i_queue : published c = drained c ++ results_ c;
  i_wake : results_ c <> [] -> draining c = false -> wake_fd_ c = None \/ exists n, wake_fd_ c = Some n /\ 0 < n;
  i_covered : stopping_ c = false ->
              match began (parser_ c) with
              | Some n => (n <= accepted c)%nat /\ (pending_ c = false -> n = accepted c)
              | None => lost_wake c = false -> newest_covers c = accepted c
              end;
  i_open : stopping_ c = false -> exists n, wake_fd_ c = Some n /\ 0 <= n
}.

Lemma make_controller_inv path c : make path = Some c -> inv c /\ next_sequence_ c = 1.
Proof.
  unfold make. case_bool_decide; [done|]. intros [= <-]. split; [|done]. constructor; simpl; try done.
  - split_and!; [constructor|constructor|lia].
  - intros _. exists 0. split; [done|lia].
Qed.

Lemma request_inv thread_ok c c' o : inv c -> Request thread_ok c = (c', o) -> inv c' /\ next_sequence_ c' = next_sequence_ c.
Proof.
  intros Hi. pose proof Hi as [H1 H2 H3 H4 H5 H6 H7 H8]. unfold Request. destruct (stopping_ c) eqn:Es; [by intros [= <- <-]|].
  assert (Hns : stopper c = NotStopping) by (by apply H3). specialize (H1 Hns). specialize (H7 eq_refl).
  destruct (parsing_ c) eqn:Ep; [|destruct thread_ok]; intros [= <- <-]; (split; [|done]); constructor; simpl; rewrite ?Es; try done.
  - intros _. destruct (began (parser_ c)) as [n|] eqn:Eb.
    + destruct H7 as [Hle _]. split; [lia|done].
    + destruct (parser_ c); done.
  - intros Hpe. specialize (H2 Hpe). congruence.
  - intros _ Hw. destruct (parser_ c); simpl in H1; try done; unfold newest_covers in *; by apply H7.
Qed.

Lemma parse_inv o why c c' : inv c -> parse o why c = Some c' -> inv c' /\ next_sequence_ c' = next_sequence_ c.
Proof.
  intros Hi. pose proof Hi as [H1 H2 H3 H4 H5 H6 H7 H8]. unfold parse. destruct (parser_ c) as [|n|r|] eqn:Ep; try done.
  intros [= <-]. split; [|done]. by constructor.
Qed.

Lemma last_covers c r : match last (published c ++ [r]) with Some x => covers x | None => 0%nat end = covers r.
Proof. by rewrite last_snoc. Qed.

Lemma wake_spec ok fd fd' woken :
  WakeLocked ok fd = (fd', woken) -> (forall n, fd = Some n -> 0 <= n) ->
  (fd = None -> fd' = None /\ woken = false) /\ (forall n, fd = Some n -> exists m, fd' = Some m /\ 0 <= m /\ (0 < n -> 0 < m) /\ (woken = true -> 0 < m)).
Proof.
  unfold WakeLocked. intros Hw Hn. destruct fd as [n|]; [|by injection Hw as <- <-]. specialize (Hn n eq_refl).
  split; [done|]. intros m [= <-]. destruct ok.
  - injection Hw as <- <-. eexists. split; [done|]. unfold u64_modulus. destruct (Z.ltb_spec (n + 1) (18446744073709551616 - 1)); lia.
  - injection Hw as <- <-. exists n. split; [done|]. split; [lia|]. split; [lia|done].
Qed.

Lemma controller_publish_inv ok c c' :
  inv c -> next_sequence_ c + 1 < u64_modulus -> publish ok c = Some c' ->
  inv c' /\ next_sequence_ c' <= next_sequence_ c + 1.
Proof.
  intros Hi Hroom. pose proof Hi as [H1 H2 H3 [H4 [H4' H4'']] H5 H6 H7 H8]. unfold publish. destruct (parser_ c) as [|n|r|] eqn:Ep; try done.
  destruct (stopping_ c) eqn:Es; simpl.
  - intros [= <-]. rewrite andb_false_r. simpl. split; [|simpl; lia]. constructor; simpl; done.
  - specialize (H7 eq_refl). destruct (H8 eq_refl) as (n & Hfd & Hn0). simpl in H7. destruct H7 as [Hle Hcov].
    assert (Hns : stopper c = NotStopping) by (by apply H3). specialize (H1 Hns). simpl in H1.
    destruct (WakeLocked ok (wake_fd_ c)) as [fd woken] eqn:Ew.
    destruct (wake_spec ok _ fd woken Ew ltac:(intros k Hk; congruence)) as [_ Hwake]. destruct (Hwake n Hfd) as (m & -> & Hm0 & Hmn & Hmw).
    rewrite wrap_u64_small by mlia. intros [= <-]. rewrite andb_true_r. split; [|simpl; lia].
    set (r' := mkResult (candidate r) (error r) (next_sequence_ c) (covers r)).
    assert (Hs' : StronglySorted (fun r s => sequence r < sequence s) (published c ++ [r'])).
    { clear - H4 H4'. induction H4' as [|x l Hs IH Hx]; simpl; [by repeat constructor|]. apply Forall_cons_1 in H4 as [Hxr H4].
      constructor; [by apply IH|]. apply Forall_app. split; [done|]. constructor; [simpl; lia|constructor]. }
    constructor; simpl; try done.
    + intros _. destruct (pending_ c); [by rewrite H1|done].
    + split; [|split; [destruct woken; done|lia]].
      assert (Hold : Forall (fun r => 0 < sequence r < next_sequence_ c + 1) (published c)) by (eapply Forall_impl; [exact H4|simpl; lia]).
      destruct woken; [|done]. apply Forall_app. split; [done|]. constructor; [simpl; lia|constructor].
    + destruct woken; rewrite H5; [by rewrite app_assoc|done].
    + intros Hr Hd. right. exists m. split; [done|]. destruct woken; [by apply Hmw|].
      destruct (H6 Hr Hd) as [Hx|(k & Hk & Hk0)]; [congruence|]. apply Hmn. congruence.
    + intros _. destruct (pending_ c) eqn:Epe; simpl; [split; [lia|done]|]. rewrite orb_false_iff. intros [Hl Hw].
      destruct woken; [|done]. unfold newest_covers. simpl. rewrite last_snoc. simpl. by apply Hcov.
    + intros _. eauto.
Qed.

Lemma drain_inv c c' rs :
  inv c -> drain_read c = Some c' \/ drain_swap c = Some (c', rs) -> inv c' /\ next_sequence_ c' = next_sequence_ c.
Proof.
  intros [H1 H2 H3 H4 H5 H6 H7 H8] [Hd|Hd]; unfold drain_read, drain_swap in Hd; destruct (draining c); try done.
  - injection Hd as <-. split; [|done]. constructor; simpl; try done. intros Hs. destruct (H8 Hs) as (n & -> & _). exists 0. split; [done|lia].
  - injection Hd as <- <-. split; [|done]. constructor; simpl; try done. by rewrite app_nil_r.
Qed.

Lemma stop_inv c : inv c -> inv (Stop c) /\ next_sequence_ (Stop c) = next_sequence_ c.
Proof.
  intros Hi. unfold Stop. destruct (stopper c) eqn:E; try done. destruct Hi as [H1 H2 H3 H4 H5 H6 H7 H8]. split; [|done].
  constructor; simpl; done.
Qed.

Lemma stopping_inv c c' : inv c -> stop_step c = Some c' -> inv c' /\ next_sequence_ c' = next_sequence_ c.
Proof.
  intros [H1 H2 H3 H4 H5 H6 H7 H8]. unfold stop_step. destruct (stopper c) eqn:E; try done.
  - assert (Hs : stopping_ c = true) by (destruct (stopping_ c); [done|]; discriminate (proj1 H3 eq_refl)).
    destruct (parser_ c) eqn:Ep; try done; intros [= <-]; (split; [|done]); constructor; simpl; rewrite ?Hs; try done.
  - assert (Hs : stopping_ c = true) by (destruct (stopping_ c); [done|]; discriminate (proj1 H3 eq_refl)).
    intros [= <-]. split; [|done]. constructor; simpl; rewrite ?Hs; try done. intros. by left.
Qed.

Lemma controller_step_inv c c' :
  inv c -> next_sequence_ c + 1 < u64_modulus -> step c c' -> inv c' /\ next_sequence_ c' <= next_sequence_ c + 1.
Proof.
  intros Hi Hn. destruct 1 as [ok c c' b H|c c' H|o why c c' H|ok c c' H|c c' H|c c' rs H|c|c c' H].
  - destruct (request_inv _ _ _ _ Hi H) as [? ->]. split; [done|lia].
  - destruct (request_inv _ _ _ _ Hi H) as [? ->]. split; [done|lia].
  - destruct (parse_inv _ _ _ _ Hi H) as [? ->]. split; [done|lia].
  - by apply (controller_publish_inv ok c).
  - destruct (drain_inv c c' [] Hi (or_introl H)) as [? ->]. split; [done|lia].
  - destruct (drain_inv c c' rs Hi (or_intror H)) as [? ->]. split; [done|lia].
  - destruct (stop_inv c Hi) as [? ->]. split; [done|lia].
  - destruct (stopping_inv c c' Hi H) as [? ->]. split; [done|lia].
Qed.

Lemma reached_controller_inv n c : reached n c -> Z.of_nat n + 3 < u64_modulus -> inv c /\ next_sequence_ c <= Z.of_nat n + 1.
Proof.
  intros (path & c0 & Hm & Hs) Hn. destruct (make_controller_inv path c0 Hm) as [Hi Hq].
  assert (Hgen : forall n c0 c, nsteps step n c0 c -> inv c0 -> next_sequence_ c0 + Z.of_nat n + 1 < u64_modulus ->
                   inv c /\ next_sequence_ c <= next_sequence_ c0 + Z.of_nat n).
  { clear. induction 1 as [|n x y z Hxy Hyz IH]; intros Hi Hn; [split; [done|lia]|].
    destruct (controller_step_inv x y Hi ltac:(lia) Hxy) as [Hi' Hq]. destruct (IH Hi' ltac:(lia)) as [Hi'' Hq']. split; [done|lia]. }
  destruct (Hgen n c0 c Hs Hi ltac:(lia)) as [? ?]. split; [done|lia].
Qed.

(** ** Every accepted request is served *)

(** The parser alone, until it returns. *)
Inductive parser_step (o : option Config) (why : bytes) : t -> t -> Prop :=
| p_parse c c' : parse o why c = Some c' -> parser_step o why c c'
| p_publish c c' : publish true c = Some c' -> parser_step o why c c'.

Definition settles (o : option Config) (why : bytes) (k : nat) (c : t) : Prop :=
  exists j c', (j <= k)%nat /\ nsteps (parser_step o why) j c c' /\ running (parser_ c') = false /\ stopping_ c' = false /\
    accepted c' = accepted c /\ lost_wake c' = lost_wake c.

Lemma settles_step o why k c c' :
  parser_step o why c c' -> accepted c' = accepted c -> lost_wake c' = lost_wake c -> settles o why k c' -> settles o why (S k) c.
Proof.
  intros Hs Ha Hl (j & d & Hj & Hn & Hr & Hst & Hacc & Hlost). exists (S j), d. split; [lia|].
  split; [by eapply nsteps_l|]. split_and!; congruence.
Qed.

Lemma publish_once c r n :
  parser_ c = Publishing r -> stopping_ c = false -> wake_fd_ c = Some n ->
  exists c', publish true c = Some c' /\ stopping_ c' = false /\ accepted c' = accepted c /\ lost_wake c' = lost_wake c /\
    pending_ c' = false /\ (exists m, wake_fd_ c' = Some m) /\
    parser_ c' = if pending_ c then Reading (accepted c) else Returned.
Proof.
  intros Hp Hs Hw. unfold publish. rewrite Hp, Hs, Hw. simpl. eexists. split; [reflexivity|]. simpl.
  rewrite orb_false_r, andb_true_r. split_and!; eauto.
Qed.

Lemma settle_publishing o why c r n :
  parser_ c = Publishing r -> stopping_ c = false -> wake_fd_ c = Some n ->
  settles o why (if pending_ c then 3 else 1)%nat c.
Proof.
  intros Hp Hs Hw. destruct (publish_once c r n Hp Hs Hw) as (c1 & E1 & S1 & A1 & L1 & P1 & (m & W1) & T1).
  destruct (pending_ c).
  - apply (settles_step o why 2 c c1); [by apply p_publish|done..|].
    eassert (Hparse : parse o why c1 = Some _) by (unfold parse; rewrite T1; reflexivity).
    eapply (settles_step o why 1); [by apply p_parse|done..|].
    edestruct publish_once as (c3 & E3 & S3 & A3 & L3 & P3 & _ & T3); [| | |eapply (settles_step o why 0); [by apply p_publish|..]];
      [reflexivity|done|done|done|done|]. simpl in T3. rewrite P1 in T3.
    exists 0%nat, c3. split; [lia|]. split; [constructor|]. rewrite T3. done.
  - apply (settles_step o why 0 c c1); [by apply p_publish|done..|]. exists 0%nat, c1. split; [lia|]. split; [constructor|]. by rewrite T1.
Qed.

Lemma settle o why c : inv c -> stopping_ c = false -> settles o why 4 c.
Proof.
  intros Hi Hs. destruct (i_open c Hi Hs) as (n & Hw & _).
  assert (Hmono : forall j k c, (j <= k)%nat -> settles o why j c -> settles o why k c).
  { intros j k x Hjk (i & d & Hij & H). exists i, d. split; [lia|done]. }
  destruct (parser_ c) as [|b|r|] eqn:Ep.
  - exists 0%nat, c. split; [lia|]. split; [constructor|]. by rewrite Ep.
  - eassert (Hparse : parse o why c = Some _) by (unfold parse; rewrite Ep; reflexivity).
    eapply (settles_step o why 3); [by apply p_parse|done..|]. eapply Hmono; [|eapply settle_publishing; [reflexivity|done|done]].
    simpl. destruct (pending_ c); lia.
  - eapply Hmono; [|by eapply settle_publishing]. destruct (pending_ c); lia.
  - exists 0%nat, c. split; [lia|]. split; [constructor|]. by rewrite Ep.
Qed.

Lemma parser_steps o why j c c' : nsteps (parser_step o why) j c c' -> nsteps step j c c'.
Proof.
  induction 1 as [|j x y z Hxy Hyz IH]; [constructor|]. eapply nsteps_l; [|done]. destruct Hxy; [by eapply step_parse|by eapply step_publish].
Qed.

(** C28: However requests, parses, the control loop and [Stop] interleave: results
    are queued with increasing sequence numbers and taken in that order, each
    once; a queued result is never left without the eventfd being readable; and
    while the controller runs, a request that was accepted is served: whatever
    the file yields, after at most four steps of the parser no parse is running
    and the newest result comes from a parse that began after the last accepted
    request. *)
Theorem reload_served n c :
  reached n c -> Z.of_nat n + 7 < u64_modulus ->
  published c = drained c ++ results_ c /\
  StronglySorted (fun r s => sequence r < sequence s) (published c) /\
  (results_ c <> [] -> draining c = false -> wake_fd_ c = None \/ exists k, wake_fd_ c = Some k /\ 0 < k) /\
  (stopping_ c = false -> lost_wake c = false -> forall o why, exists j c',
     (j <= 4)%nat /\ nsteps (parser_step o why) j c c' /\ parsing_ c' = false /\ newest_covers c' = accepted c).
Proof.
  intros Hr Hn. destruct (reached_controller_inv n c Hr ltac:(lia)) as [Hi _].
  split; [apply Hi|]. split; [apply Hi|]. split; [apply Hi|]. intros Hs Hl o why.
  destruct (settle o why c Hi Hs) as (j & c' & Hj & Hsteps & Hrun & Hs' & Ha & Hlost).
  exists j, c'. split; [done|]. split; [done|].
  assert (Hr' : reached (n + j) c').
  { destruct Hr as (path & c0 & Hm & H0). exists path, c0. split; [done|]. eapply nsteps_trans; [done|]. by eapply parser_steps. }
  destruct (reached_controller_inv _ c' Hr' ltac:(lia)) as [Hi' _].
  pose proof (i_covered c' Hi' Hs') as Hcov. rewrite (i_parsing c' Hi') by (by apply (i_stopping c' Hi')).
  split; [done|]. destruct (parser_ c'); simpl in *; try done; rewrite <- Ha; apply Hcov; congruence.
Qed.

(** A thread that cannot be started while a finished one has not been joined ends
    the process: the exception destroys the joinable thread. *)
Theorem thread_failure_terminates :
  exists n c, reached n c /\ (Request false c).2 = Terminates.
Proof.
  eexists 3%nat, _. split.
  - exists [("x")%byte]. eexists. split; [reflexivity|].
    eapply nsteps_l; [eapply (step_request true); reflexivity|].
    eapply nsteps_l; [eapply (step_parse None []); reflexivity|].
    eapply nsteps_l; [eapply (step_publish true); reflexivity|]. constructor.
  - reflexivity.
Qed.

End Controller.

(** Two requests during one parse. *)
Lemma example_requests : exists c : t (Config := nat), reached 3 c /\ stopping_ c = false /\ lost_wake c = false /\ accepted c = 3%nat.
Proof.
  eexists. split.
  - exists [("x")%byte]. eexists. split; [reflexivity|].
    eapply nsteps_l; [eapply (step_request true); reflexivity|].
    eapply nsteps_l; [eapply (step_request true); reflexivity|].
    eapply nsteps_l; [eapply (step_request true); reflexivity|]. constructor.
  - split_and!; reflexivity.
Defined.

Lemma reload_served_witness : exists c c' : t (Config := nat), reached 3 c /\ accepted c = 3%nat /\
  parsing_ c' = false /\ newest_covers c' = 3%nat.
Proof.
  destruct example_requests as (c & Hr & Hs & Hl & Ha).
  destruct (reload_served 3 c Hr ltac:(reflexivity)) as (_ & _ & _ & H).
  destruct (H Hs Hl (Some 7%nat) []) as (j & c' & _ & _ & Hp & Hc). exists c, c'. split_and!; [done|done|done|congruence].
Defined.

End ReloadController.
