(* ===== verification/ReloadWatcher.v ===== *)
(** * The reload watcher

    Models src/src/runtime/ReloadWatcher.cpp: inotify events on the directory of
    the configuration file and SIGHUP, coalesced by a debounce timer into calls
    of the trigger, and the recovery of the watch when the directory goes away.
    The system calls' answers are parameters: [answer n] is what the n-th
    [inotify_add_watch] of [TryRewatch] returns, [clock id] the steady clock when
    the timer [id] is scheduled.  The bytes of the inotify
    descriptor are decoded as the code does. *)

From S2P Require Import Prelude Effects Bytes TimerQueue.

Module ReloadWatcher.
Open Scope effect_scope.

(** ** Linux's inotify interface *)

Definition IN_ATTRIB : Z := 4.
Definition IN_CLOSE_WRITE : Z := 8.
Definition IN_MOVED_TO : Z := 128.
Definition IN_DELETE_SELF : Z := 1024.
Definition IN_MOVE_SELF : Z := 2048.
Definition IN_IGNORED : Z := 32768.
Definition SIGHUP : Z := 1.

Definition kWatchInvalidationMask : Z := Z.lor (Z.lor IN_IGNORED IN_DELETE_SELF) IN_MOVE_SELF.
Definition change_mask : Z := Z.lor (Z.lor IN_CLOSE_WRITE IN_MOVED_TO) IN_ATTRIB.

(** Nanoseconds. *)
Definition kDebounceDelay : Z := 200000000.
Definition kWatchRetryDelay : Z := 500000000.

(** [struct inotify_event]: the descriptor and the mask, [len] bytes of name
    (padded with zeros); the cookie is not used. *)
Record inotify_event := mkEvent { wd : Z; mask : Z; cookie : Z; name : bytes }.

Definition le32 (s : bytes) : Z := foldr (fun b n => code b + 256 * n) 0 (take 4 s).
Definition to_i32 (z : Z) : Z := if z <? 2147483648 then z else z - u32_modulus.

Definition sizeof_inotify_event : nat := 16.

(** The event at an offset of the buffer and its size. *)
Definition event_len (buffer : bytes) (offset : nat) : nat := Z.to_nat (le32 (drop (offset + 12) buffer)).
Definition event_at (buffer : bytes) (offset : nat) : inotify_event :=
  mkEvent (to_i32 (le32 (drop offset buffer))) (le32 (drop (offset + 4) buffer)) (le32 (drop (offset + 8) buffer))
          (substr buffer (offset + sizeof_inotify_event) (event_len buffer offset)).

(** [std::string_view(event->name)]: up to the first zero. *)
Fixpoint c_str (s : bytes) : bytes :=
  match s with
  | [] => []
  | b :: r => if bool_decide (b = "000"%byte) then [] else b :: c_str r
  end.

(** ** State *)

Inductive callback := CbDebounce | CbRewatch.

(** What happens: descriptors are opened and closed, the directory is watched,
    the watch is lost, renewed, or cannot be renewed at [now], the retry timer
    expires, the watch is removed; a reload is asked for, the trigger runs; the
    watcher is stopped. *)
Inductive event :=
| EOpen (fd : Z)
| EClose (fd : Z)
| EWatch (wd : Z)
| ELost
| ERewatch (wd : Z)
| EMiss (now : Z)
| ERetry (now : Z)
| ERemove (wd : Z)
| ENote (now : Z)
| ETrigger (now : Z)
| EStop.

(** [timers_] is a [unique_ptr]; of a channel only whether it exists.  [calls]
    counts the [inotify_add_watch] of [TryRewatch]. *)
Record t := mk {
  directory_ : bytes;
  filename_ : bytes;
  timers_ : option (TimerQueue.t callback);
  inotify_channel_ : bool;
  sighup_channel_ : bool;
  inotify_fd_ : Z;
  watch_descriptor_ : Z;
  sighup_fd_ : Z;
  debounce_timer_ : Z;
  rewatch_timer_ : Z;
  rewatch_attempt_count_ : Z;
  calls : nat;
  log : list event
}.

Definition with_path (d f : bytes) (w : t) : t :=
  mk d f (timers_ w) (inotify_channel_ w) (sighup_channel_ w) (inotify_fd_ w) (watch_descriptor_ w) (sighup_fd_ w)
     (debounce_timer_ w) (rewatch_timer_ w) (rewatch_attempt_count_ w) (calls w) (log w).
Definition with_timers (q : option (TimerQueue.t callback)) (w : t) : t :=
  mk (directory_ w) (filename_ w) q (inotify_channel_ w) (sighup_channel_ w) (inotify_fd_ w) (watch_descriptor_ w) (sighup_fd_ w)
     (debounce_timer_ w) (rewatch_timer_ w) (rewatch_attempt_count_ w) (calls w) (log w).
Definition with_channels (i s : bool) (w : t) : t :=
  mk (directory_ w) (filename_ w) (timers_ w) i s (inotify_fd_ w) (watch_descriptor_ w) (sighup_fd_ w)
     (debounce_timer_ w) (rewatch_timer_ w) (rewatch_attempt_count_ w) (calls w) (log w).
Definition with_fds (i s : Z) (w : t) : t :=
  mk (directory_ w) (filename_ w) (timers_ w) (inotify_channel_ w) (sighup_channel_ w) i (watch_descriptor_ w) s
     (debounce_timer_ w) (rewatch_timer_ w) (rewatch_attempt_count_ w) (calls w) (log w).
Definition with_watch (d : Z) (w : t) : t :=
  mk (directory_ w) (filename_ w) (timers_ w) (inotify_channel_ w) (sighup_channel_ w) (inotify_fd_ w) d (sighup_fd_ w)
     (debounce_timer_ w) (rewatch_timer_ w) (rewatch_attempt_count_ w) (calls w) (log w).
Definition with_debounce (id : Z) (w : t) : t :=
  mk (directory_ w) (filename_ w) (timers_ w) (inotify_channel_ w) (sighup_channel_ w) (inotify_fd_ w) (watch_descriptor_ w)
     (sighup_fd_ w) id (rewatch_timer_ w) (rewatch_attempt_count_ w) (calls w) (log w).
Definition with_rewatch (id : Z) (w : t) : t :=
  mk (directory_ w) (filename_ w) (timers_ w) (inotify_channel_ w) (sighup_channel_ w) (inotify_fd_ w) (watch_descriptor_ w)
     (sighup_fd_ w) (debounce_timer_ w) id (rewatch_attempt_count_ w) (calls w) (log w).
Definition count_attempt (w : t) : t :=
  mk (directory_ w) (filename_ w) (timers_ w) (inotify_channel_ w) (sighup_channel_ w) (inotify_fd_ w) (watch_descriptor_ w)
     (sighup_fd_ w) (debounce_timer_ w) (rewatch_timer_ w) (rewatch_attempt_count_ w +u64 1)%machine (S (calls w)) (log w).
Definition say (e : event) (w : t) : t :=
  mk (directory_ w) (filename_ w) (timers_ w) (inotify_channel_ w) (sighup_channel_ w) (inotify_fd_ w) (watch_descriptor_ w)
     (sighup_fd_ w) (debounce_timer_ w) (rewatch_timer_ w) (rewatch_attempt_count_ w) (calls w) (log w ++ [e]).

Section Watcher.
Context (answer : nat -> Z) (clock : Z -> Z).

(** ** Timers *)

Definition when (b : bool) (m : M t unit) : M t unit := if b then m else ret tt.

(** [timers_->...]: stuck on a null pointer. *)
Definition the_timers : M t (TimerQueue.t callback) := fun w =>
  match timers_ w with Some q => Ret q w | None => Stuck end.

Definition cancel (id : Z) : M t unit :=
  q <- the_timers ;; modify (with_timers (Some (TimerQueue.Cancel id q).2)).

Definition schedule (delay : Z) (k : callback) : M t Z :=
  q <- the_timers ;;
  match TimerQueue.ScheduleAfter (clock (TimerQueue.next_identifier_ q)) delay k q with
  | None => throw
  | Some (id, q) => modify (with_timers (Some q)) ;; ret id
  end.

Definition Debounce : M t unit :=
  id <- gets debounce_timer_ ;;
  when (negb (id =? 0)) (cancel id) ;;
  id <- schedule kDebounceDelay CbDebounce ;;
  modify (fun w => say (ENote (clock id)) (with_debounce id w)).

Definition TryRewatch : M t unit :=
  modify count_attempt ;;
  n <- gets calls ;;
  let new_wd := answer n in
  if 0 <=? new_wd then
    modify (fun w => say (ERewatch new_wd) (with_watch new_wd w)) ;;
    id <- gets rewatch_timer_ ;;
    when (negb (id =? 0)) (cancel id ;; modify (with_rewatch 0)) ;;
    Debounce
  else
    id <- gets rewatch_timer_ ;;
    if negb (id =? 0) then ret tt
    else id <- schedule kWatchRetryDelay CbRewatch ;; modify (fun w => say (EMiss (clock id)) (with_rewatch id w)).

(** The two lambdas; what [trigger_] throws is swallowed. *)
Definition run_callback (now : Z) (k : callback) : M t unit :=
  match k with
  | CbDebounce => modify (fun w => say (ETrigger now) (with_debounce 0 w))
  | CbRewatch =>
      modify (fun w => say (ERetry now) (with_rewatch 0 w)) ;;
      d <- gets watch_descriptor_ ;;
      if 0 <=? d then ret tt else TryRewatch
  end.

(** ** Event sources *)

Definition matches (e : inotify_event) (w : t) : bool :=
  negb (Nat.eqb (length (name e)) 0) && beq (filename_ w) (c_str (name e)) && negb (Z.land (mask e) change_mask =? 0).

Definition invalidates (e : inotify_event) : bool := negb (Z.land (mask e) kWatchInvalidationMask =? 0).

(** The inner loop; [false]: it returns from [HandleInotify] on a truncated
    event.  After an invalidation the same event is examined again. *)
Fixpoint event_loop (fuel : nat) (buffer : bytes) (offset : nat) : M t bool :=
  match fuel with
  | O => spin
  | S fuel =>
      if bool_decide (offset < length buffer)%nat then
        let event := event_at buffer offset in
        let event_size := (sizeof_inotify_event + event_len buffer offset)%nat in
        if Nat.eqb event_size 0 || bool_decide (length buffer < offset + event_size)%nat then ret false
        else
          d <- gets watch_descriptor_ ;;
          if wd event =? d then
            if invalidates event then
              modify (fun w => say ELost (with_watch (-1) w)) ;; TryRewatch ;; event_loop fuel buffer offset
            else
              w <- gets id ;;
              when (matches event w) Debounce ;;
              event_loop fuel buffer (offset + event_size)
          else event_loop fuel buffer (offset + event_size)
      else ret true
  end.

(** What [read] does: interrupted, bytes, or nothing left. *)
Inductive read_result := Interrupted | Data (buffer : bytes) | Nothing.

(** The descriptor is non-blocking: after the given reads there is nothing. *)
Fixpoint HandleInotify (fuel : nat) (reads : list read_result) : M t unit :=
  match reads with
  | [] => ret tt
  | Interrupted :: reads => HandleInotify fuel reads
  | Nothing :: _ => ret tt
  | Data buffer :: reads =>
      more <- event_loop fuel buffer 0 ;;
      if more : bool then HandleInotify fuel reads else ret tt
  end.

Inductive signal_read := SInterrupted | Signal (signo : Z) | SNothing.

Fixpoint HandleSighup (reads : list signal_read) : M t unit :=
  match reads with
  | [] => ret tt
  | SInterrupted :: reads => HandleSighup reads
  | SNothing :: _ => ret tt
  | Signal signo :: reads => when (signo =? SIGHUP) Debounce ;; HandleSighup reads
  end.

(** ** Construction and destruction *)

Definition Stop (w : t) : t :=
  let cancel id w := match timers_ w with
                     | Some q => if id =? 0 then w else with_timers (Some (TimerQueue.Cancel id q).2) w
                     | None => w
                     end in
  let w := say EStop w in
  let w := with_debounce 0 (cancel (debounce_timer_ w) w) in
  let w := with_rewatch 0 (cancel (rewatch_timer_ w) w) in
  let w := with_timers None (with_channels false false w) in
  let w := if (0 <=? watch_descriptor_ w) && (0 <=? inotify_fd_ w) then say (ERemove (watch_descriptor_ w)) w else w in
  let w := with_watch (-1) w in
  let w := if 0 <=? sighup_fd_ w then say (EClose (sighup_fd_ w)) (with_fds (inotify_fd_ w) (-1) w) else w in
  if 0 <=? inotify_fd_ w then say (EClose (inotify_fd_ w)) (with_fds (-1) (sighup_fd_ w) w) else w.

Definition find_last_of (path : bytes) (b : byte) : option nat :=
  (fun n => length path - 1 - n)%nat <$> find (rev path) [b].

(** [None]: [std::invalid_argument]. *)
Definition SplitPath (path : bytes) : option (bytes * bytes) :=
  match find_last_of path "/"%byte with
  | None => Some (lit ".", path)
  | Some slash =>
      if Nat.eqb (slash + 1) (length path) then None
      else Some (if Nat.eqb slash 0 then lit "/" else take slash path, drop (slash + 1) path)
  end.

(** The system's answers to the constructor; [reading i]: the i-th channel can
    be made and [EnableReading] succeeds. *)
Record setup := mkSetup {
  inotify_init : Z; add_watch : Z; reading_inotify : bool; signal_set : bool; signal_fd : Z; reading_signal : bool
}.

Definition blank : t := mk [] [] (Some TimerQueue.make) false false (-1) (-1) (-1) 0 0 0 0 [].

Definition assert (b : bool) : M t unit := if b then ret tt else throw.

(** The body of the constructor's [try]. *)
Definition construct (path : bytes) (watch_sighup : bool) (a : setup) : M t unit :=
  match SplitPath path with
  | None => throw
  | Some (d, f) =>
      modify (with_path d f) ;;
      modify (fun w => with_fds (inotify_init a) (sighup_fd_ w) w) ;;
      assert (0 <=? inotify_init a) ;;
      modify (say (EOpen (inotify_init a))) ;;
      modify (with_watch (add_watch a)) ;;
      assert (0 <=? add_watch a) ;;
      modify (say (EWatch (add_watch a))) ;;
      assert (reading_inotify a) ;;
      modify (with_channels true false) ;;
      if negb watch_sighup then ret tt
      else
        assert (signal_set a) ;;
        modify (fun w => with_fds (inotify_fd_ w) (signal_fd a) w) ;;
        assert (0 <=? signal_fd a) ;;
        modify (say (EOpen (signal_fd a))) ;;
        assert (reading_signal a) ;;
        modify (with_channels true true)
  end.

(** [owner]: the caller is the loop's thread; [trigger]: the callback is not
    empty.  Before the [try] an exception only destroys the members. *)
Definition make (owner : bool) (path : bytes) (trigger watch_sighup : bool) (a : setup) : result t unit :=
  if negb owner || bool_decide (path = []) || negb trigger then Throw (with_timers None blank)
  else catch (construct path watch_sighup a) (modify Stop ;; throw) blank.

(** ** Operations

    A channel's callback runs while the channel exists; a timer fires when it
    is due. *)
Inductive op := OInotify (reads : list read_result) | OSighup (reads : list signal_read) | OFire (now : Z) | OStop.

Definition fire (now : Z) : M t unit := fun w =>
  match q ← timers_ w; TimerQueue.pop_due now q with
  | None => Ret tt w
  | Some (x, q) => run_callback now (TimerQueue.callback x) (with_timers (Some q) w)
  end.

Definition exec (fuel : nat) (o : op) : M t unit :=
  match o with
  | OInotify reads => b <- gets inotify_channel_ ;; when b (HandleInotify fuel reads)
  | OSighup reads => b <- gets sighup_channel_ ;; when b (HandleSighup reads)
  | OFire now => fire now
  | OStop => modify Stop
  end.

Fixpoint run (fuel : nat) (os : list op) : M t unit :=
  match os with
  | [] => ret tt
  | o :: os => exec fuel o ;; run fuel os
  end.

(** ** The specification

    The watcher's life as an automaton over the events: whether it is alive,
    the open descriptors, the watch, the time of the last request no trigger
    has followed, the time of the last failed attempt to renew the watch no
    retry has followed, and whether a renewed watch still has to ask for a
    reload. *)
Record view := View {
  alive : bool;
  opened : list Z;
  watching : option Z;
  owes : option Z;
  retries : option Z;
  must_note : bool
}.

Fixpoint remove_one (fd : Z) (l : list Z) : option (list Z) :=
  match l with
  | [] => None
  | x :: l => if x =? fd then Some l else cons x <$> remove_one fd l
  end.

(** A trigger comes a debounce delay after the last request, never without
    one; a lost watch is renewed at once or retried after the retry delay; a
    renewed watch asks for a reload; nothing but closing follows a stop. *)
Definition view_step (v : view) (e : event) : option view :=
  let '(View a o w n r m) := v in
  match e with
  | EOpen fd => if a && negb m then Some (View a (o ++ [fd]) w n r m) else None
  | EClose fd => if a then None else (fun o => View a o w n r m) <$> remove_one fd o
  | EWatch d => if a && negb m then if w is None then Some (View a o (Some d) n r m) else None else None
  | ELost => if a && negb m then Some (View a o None n r m) else None
  | ERewatch d => if a && negb m then if w is None then Some (View a o (Some d) n None true) else None else None
  | EMiss now =>
      if a && negb m then match w, r with None, None => Some (View a o w n (Some now) m) | _, _ => None end else None
  | ERetry now =>
      if a && negb m then
        match r with
        | Some t0 => if t0 + kWatchRetryDelay <=? now then Some (View a o w n None m) else None
        | None => None
        end
      else None
  | ERemove d => if a then None else if w is Some d' then if d' =? d then Some (View a o None n r m) else None else None
  | ENote now => if a then Some (View a o w (Some now) r false) else None
  | ETrigger now =>
      if a && negb m then
        match n with
        | Some t0 => if t0 + kDebounceDelay <=? now then Some (View a o w None r m) else None
        | None => None
        end
      else None
  | EStop => if m then None else Some (View false o w None None m)
  end.

Definition born : view := View true [] None None None false.

Abbreviation replay := (accepts view_step born).

(** Timers scheduled so far. *)
Definition used (l : list event) : Z :=
  sumZ ((fun e => match e with ENote _ | EMiss _ => 1 | _ => 0 end) <$> l).

(** The identifiers of the timer queue (64 bits) have not run out. *)
Definition fits (w : t) : Prop := 1 + used (log w) < u64_modulus.

(** ** The invariant *)

(** The timers are those the view asks for. *)
Record represents (w : t) (v : view) (q : TimerQueue.t callback) : Prop := {
  r_queue : timers_ w = Some q;
  r_wf : TimerQueue.wf q;
  r_next : TimerQueue.next_identifier_ q = 1 + used (log w);
  r_timers : forall y, y ∈ TimerQueue.timers_ q <->
    (exists n, owes v = Some n /\ y = TimerQueue.mkEntry (n + kDebounceDelay) (debounce_timer_ w) CbDebounce) \/
    (exists n, retries v = Some n /\ y = TimerQueue.mkEntry (n + kWatchRetryDelay) (rewatch_timer_ w) CbRewatch);
  r_debounce : debounce_timer_ w = 0 <-> owes v = None;
  r_rewatch : rewatch_timer_ w = 0 <-> retries v = None;
  r_distinct : debounce_timer_ w <> 0 -> debounce_timer_ w <> rewatch_timer_ w;
  r_watch : watching v = (if 0 <=? watch_descriptor_ w then Some (watch_descriptor_ w) else None)
}.

Definition live_fds (w : t) : list Z :=
  (if 0 <=? inotify_fd_ w then [inotify_fd_ w] else []) ++ (if 0 <=? sighup_fd_ w then [sighup_fd_ w] else []).

(** A live watcher. *)
Record live (w : t) (v : view) : Prop := {
  l_replay : replay (log w) = Some v;
  l_alive : alive v = true;
  l_opened : opened v = live_fds w;
  l_inotify : 0 <= inotify_fd_ w;
  l_timers : exists q, represents w v q
}.

(** A stopped one has nothing left. *)
Record stopped (w : t) : Prop := {
  s_replay : replay (log w) = Some (View false [] None None None false);
  s_timers : timers_ w = None;
  s_channels : inotify_channel_ w = false /\ sighup_channel_ w = false;
  s_fds : inotify_fd_ w < 0 /\ sighup_fd_ w < 0 /\ watch_descriptor_ w = -1
}.

(** Between operations a live watcher watches the directory, or a retry is
    pending. *)
Definition settled (v : view) : Prop := must_note v = false /\ (watching v = None <-> retries v <> None).

Lemma used_snoc l e :
  used (l ++ [e]) = used l + match e with ENote _ | EMiss _ => 1 | _ => 0 end.
Proof. unfold used. rewrite fmap_app, sumZ_app. simpl. lia. Qed.

Lemma used_nonneg l : 0 <= used l.
Proof. unfold used. apply sumZ_nonneg, Forall_fmap, Forall_true. intros []; simpl; lia. Qed.

(** *** Triples

    [m] takes a live watcher whose view satisfies [P] to one whose view
    satisfies [Q], provided the identifiers suffice; it throws only when they do
    not. *)
Definition good (P : view -> Prop) (w : t) : Prop :=
  timers_ w <> None /\ (fits w -> exists v, live w v /\ P v).

Definition triple {A : Type} (P : view -> Prop) (m : M t A) (Q : A -> view -> Prop) : Prop :=
  forall w, good P w ->
  wp m (fun a w' => used (log w) <= used (log w') /\ good (Q a) w') (fun w' => ~ fits w') w.

Lemma triple_bind {A B : Type} P (m : M t A) (k : A -> M t B) R Q :
  triple P m R -> (forall a, triple (R a) (k a) Q) -> triple P (bind m k) Q.
Proof.
  intros Hm Hk w Hw. apply wp_bind. eapply wp_mono; [by apply Hm| |done].
  intros a w1 [H1 H2]. eapply wp_mono; [by apply Hk| |done]. intros b w2 [H3 H4]. split; [lia|done].
Qed.

Lemma triple_ret {A : Type} (a : A) (P : view -> Prop) (Q : A -> view -> Prop) :
  (forall v, P v -> Q a v) -> triple P (ret a) Q.
Proof.
  intros H w [H1 H2]. split; [done|]. split; [done|]. intros Hf. destruct (H2 Hf) as (v & Hv & HP). eauto.
Qed.

Lemma triple_mono {A : Type} (P P' : view -> Prop) (m : M t A) (Q Q' : A -> view -> Prop) :
  triple P m Q -> (forall v, P' v -> P v) -> (forall a v, Q a v -> Q' a v) -> triple P' m Q'.
Proof.
  intros Hm HP HQ w [H1 H2]. eapply wp_mono; [apply Hm| |done].
  - split; [done|]. intros Hf. destruct (H2 Hf) as (v & Hv & HP'). eauto.
  - intros a w' (H3 & H4 & H5). split; [done|]. split; [done|]. intros Hf. destruct (H5 Hf) as (v & Hv & HQ'). eauto.
Qed.

(** Reading a field: the rest is proved for every value the field can have. *)
Lemma triple_gets {A B : Type} (f : t -> A) (k : A -> M t B) P (R : A -> view -> Prop) Q :
  (forall w v, live w v -> P v -> R (f w) v) -> (forall a, triple (R a) (k a) Q) -> triple P (bind (gets f) k) Q.
Proof.
  intros HR Hk w [H1 H2]. apply wp_bind, wp_gets, Hk. split; [done|]. intros Hf.
  destruct (H2 Hf) as (v & Hv & HP). eauto.
Qed.

Lemma triple_if {A : Type} (b : bool) P (m1 m2 : M t A) Q :
  (b = true -> triple P m1 Q) -> (b = false -> triple P m2 Q) -> triple P (if b then m1 else m2) Q.
Proof. destruct b; auto. Qed.

(** *** Timers *)

Definition drop_timer (id : Z) (q : TimerQueue.t callback) : TimerQueue.t callback :=
  if id =? 0 then q else (TimerQueue.Cancel id q).2.

Lemma drop_timer_spec id q :
  TimerQueue.wf q ->
  TimerQueue.wf (drop_timer id q) /\ TimerQueue.next_identifier_ (drop_timer id q) = TimerQueue.next_identifier_ q /\
  forall y, y ∈ TimerQueue.timers_ (drop_timer id q) <-> y ∈ TimerQueue.timers_ q /\ TimerQueue.identifier y <> id.
Proof.
  intros Hq. unfold drop_timer. destruct (Z.eqb_spec id 0) as [->|Hid].
  - split_and!; [done|done|]. intros y. split; [|tauto]. intros Hy. split; [done|].
    pose proof (TimerQueue.wf_fresh _ Hq y Hy). lia.
  - destruct (TimerQueue.Cancel_wf id q Hq) as [H1 H2]. split_and!; [done|apply TimerQueue.Cancel_next|done].
Qed.

Lemma live_represents w v q : live w v -> timers_ w = Some q -> represents w v q.
Proof. intros [_ _ _ _ (q0 & Hr)] Hq. pose proof (r_queue _ _ _ Hr) as E. rewrite Hq in E. by injection E as <-. Qed.

Lemma drop_timer_next id q : TimerQueue.next_identifier_ (drop_timer id q) = TimerQueue.next_identifier_ q.
Proof. unfold drop_timer. destruct (_ =? 0); [done|]. apply TimerQueue.Cancel_next. Qed.

Lemma schedule_possible w v q now delay k id0 :
  represents w v q -> 0 <= delay -> TimerQueue.ScheduleAfter now delay k (drop_timer id0 q) <> None.
Proof.
  intros Hr Hd. pose proof (used_nonneg (log w)).
  unfold TimerQueue.ScheduleAfter, TimerQueue.ScheduleAt. rewrite drop_timer_next, (r_next _ _ _ Hr).
  destruct (Z.ltb_spec delay 0); [lia|]. destruct (Z.eqb_spec (1 + used (log w)) 0); [lia|done].
Qed.

Lemma Debounce_eq w q :
  timers_ w = Some q ->
  Debounce w =
  match TimerQueue.ScheduleAfter (clock (TimerQueue.next_identifier_ (drop_timer (debounce_timer_ w) q))) kDebounceDelay CbDebounce
          (drop_timer (debounce_timer_ w) q) with
  | None => Throw (with_timers (Some (drop_timer (debounce_timer_ w) q)) w)
  | Some (id, q') => Ret tt (say (ENote (clock id)) (with_debounce id (with_timers (Some q') w)))
  end.
Proof.
  intros Hq. unfold Debounce, drop_timer, schedule, cancel, the_timers, bind, gets, when, modify, ret. destruct w; simpl in *; subst.
  destruct (_ =? 0); simpl; by destruct (TimerQueue.ScheduleAfter _ _ _ _) as [[]|].
Qed.

(** Replacing one of the two timers by a new one. *)
Lemma reschedule w v q now delay k id0 :
  represents w v q -> 2 + used (log w) < u64_modulus -> 0 <= delay ->
  exists q', TimerQueue.ScheduleAfter now delay k (drop_timer id0 q) = Some (1 + used (log w), q') /\ TimerQueue.wf q' /\
    TimerQueue.next_identifier_ q' = 2 + used (log w) /\
    forall y, y ∈ TimerQueue.timers_ q' <->
      y = TimerQueue.mkEntry (now + delay) (1 + used (log w)) k \/ (y ∈ TimerQueue.timers_ q /\ TimerQueue.identifier y <> id0).
Proof.
  intros Hr Hf Hd. destruct (drop_timer_spec id0 q (r_wf _ _ _ Hr)) as (H1 & H2 & H3). pose proof (r_next _ _ _ Hr) as Hn.
  destruct (TimerQueue.ScheduleAfter_ok now delay k (drop_timer id0 q) H1 Hd ltac:(lia)) as (q' & H4 & H5 & H6 & H7).
  rewrite H2, Hn in *. exists q'. split_and!; [done|done|lia|]. intros y. by rewrite H7, H3.
Qed.

(** The pending timers have identifiers that were handed out. *)
Lemma timers_old w v q :
  represents w v q -> debounce_timer_ w <= used (log w) /\ rewatch_timer_ w <= used (log w).
Proof.
  intros Hr. pose proof (used_nonneg (log w)). pose proof (r_next _ _ _ Hr) as Hn.
  assert (H1 : forall y, y ∈ TimerQueue.timers_ q -> TimerQueue.identifier y <= used (log w)).
  { intros y Hy%(TimerQueue.wf_fresh _ (r_wf _ _ _ Hr)). lia. }
  split.
  - destruct (owes v) as [n|] eqn:E; [|apply (r_debounce _ _ _ Hr) in E; lia].
    apply (H1 (TimerQueue.mkEntry (n + kDebounceDelay) (debounce_timer_ w) CbDebounce)), (r_timers _ _ _ Hr). eauto.
  - destruct (retries v) as [n|] eqn:E; [|apply (r_rewatch _ _ _ Hr) in E; lia].
    apply (H1 (TimerQueue.mkEntry (n + kWatchRetryDelay) (rewatch_timer_ w) CbRewatch)), (r_timers _ _ _ Hr). eauto.
Qed.

Definition note (n : Z) (v : view) : view := View (alive v) (opened v) (watching v) (Some n) (retries v) false.

Lemma Debounce_represents w v q q' :
  represents w v q -> 2 + used (log w) < u64_modulus ->
  TimerQueue.ScheduleAfter (clock (1 + used (log w))) kDebounceDelay CbDebounce (drop_timer (debounce_timer_ w) q)
    = Some (1 + used (log w), q') ->
  represents (say (ENote (clock (1 + used (log w)))) (with_debounce (1 + used (log w)) (with_timers (Some q') w)))
    (note (clock (1 + used (log w))) v) q'.
Proof.
  intros Hr Hf E. pose proof (used_nonneg (log w)). destruct (timers_old _ _ _ Hr) as [Ho1 Ho2].
  destruct (reschedule w v q (clock (1 + used (log w))) kDebounceDelay CbDebounce (debounce_timer_ w) Hr Hf ltac:(done))
    as (q1 & E1 & Hw & Hn & Hy). rewrite E in E1. injection E1 as <-.
  split; simpl; try done.
  - rewrite used_snoc. lia.
  - intros y. rewrite Hy, (r_timers _ _ _ Hr). split.
    + intros [->|[[(n & H1 & ->)|(n & H1 & ->)] Hne]]; [by eauto|done|by eauto].
    + intros [(n & H1 & ->)|(n & H1 & ->)]; [injection H1 as <-; by left|]. right. split; [by eauto|]. simpl.
      destruct (decide (debounce_timer_ w = 0)) as [->|Hd].
      * rewrite (r_rewatch _ _ _ Hr), H1. done.
      * by apply not_eq_sym, (r_distinct _ _ _ Hr).
  - split; [lia|done].
  - apply (r_rewatch _ _ _ Hr).
  - lia.
  - apply (r_watch _ _ _ Hr).
Qed.

Lemma Debounce_triple P : triple P Debounce (fun _ v' => exists v n, P v /\ v' = note n v).
Proof.
  intros w [Ht Hw]. destruct (timers_ w) as [q|] eqn:Eq; [clear Ht|done]. pose proof (used_nonneg (log w)).
  unfold wp. rewrite (Debounce_eq w q Eq), drop_timer_next.
  destruct (TimerQueue.ScheduleAfter _ _ _ _) as [[id q']|] eqn:E; simpl.
  - rewrite used_snoc. split; [lia|]. split; [done|]. unfold fits. simpl. rewrite used_snoc. intros Hf.
    destruct Hw as (v & Hv & HP); [unfold fits; lia|]. pose proof (live_represents w v q Hv Eq) as Hq.
    destruct Hv as [Hv1 Hv2 Hv3 Hv4 _]. rewrite (r_next _ _ _ Hq) in E.
    destruct (reschedule w v q (clock (1 + used (log w))) kDebounceDelay CbDebounce (debounce_timer_ w) Hq ltac:(lia) ltac:(done))
      as (q1 & E1 & _). assert (Hid : id = 1 + used (log w) /\ q1 = q') by (rewrite E in E1; by injection E1 as -> ->).
    destruct Hid as [-> ->]. exists (note (clock (1 + used (log w))) v). split; [|by eauto].
    split; simpl; [|done|done|done|].
    + rewrite accepts_snoc, Hv1. destruct v; simpl in *. by rewrite Hv2.
    + exists q'. apply (Debounce_represents w v q); [done|lia|done].
  - intros Hf. destruct (Hw Hf) as (v & Hv & _). by apply (schedule_possible w v q) in E; [|apply live_represents|].
Qed.

(** *** Renewing the watch *)

Definition renewed (d : Z) (q : TimerQueue.t callback) (w : t) : t :=
  say (ERewatch d) (with_watch d (with_rewatch 0 (with_timers (Some (drop_timer (rewatch_timer_ w) q)) (count_attempt w)))).

Lemma TryRewatch_eq w q :
  timers_ w = Some q ->
  TryRewatch w =
  let d := answer (S (calls w)) in
  if 0 <=? d then Debounce (renewed d q w)
  else if negb (rewatch_timer_ w =? 0) then Ret tt (count_attempt w)
  else match TimerQueue.ScheduleAfter (clock (TimerQueue.next_identifier_ q)) kWatchRetryDelay CbRewatch q with
       | None => Throw (count_attempt w)
       | Some (id, q') => Ret tt (say (EMiss (clock id)) (with_rewatch id (with_timers (Some q') (count_attempt w))))
       end.
Proof.
  intros Hq. unfold TryRewatch, renewed, schedule, cancel, the_timers, bind, gets, when, modify, ret, drop_timer.
  destruct w; simpl in *; subst. destruct (0 <=? answer _); simpl.
  - by destruct (Z.eqb_spec rewatch_timer_0 0) as [->|].
  - destruct (_ =? 0); simpl; [|done]. by destruct (TimerQueue.ScheduleAfter _ _ _ _) as [[]|].
Qed.

Lemma count_attempt_live w v : live w v -> live (count_attempt w) v.
Proof. intros [H1 H2 H3 H4 (q & [])]. split; try done. exists q. by split. Qed.

Lemma renewed_live d q w v :
  live w v -> timers_ w = Some q -> 0 <= d -> must_note v = false -> watching v = None ->
  live (renewed d q w) (View true (opened v) (Some d) (owes v) None true).
Proof.
  intros Hl Hq Hd Hm Hw. pose proof (live_represents w v q Hl Hq) as Hr. destruct Hl as [H1 H2 H3 H4 _].
  destruct (drop_timer_spec (rewatch_timer_ w) q (r_wf _ _ _ Hr)) as (D1 & D2 & D3).
  split; simpl; [|done|done|done|].
  - rewrite accepts_snoc, H1. destruct v; simpl in *. by subst.
  - exists (drop_timer (rewatch_timer_ w) q). split; simpl; try done.
    + by rewrite used_snoc, D2, (r_next _ _ _ Hr), Z.add_0_r.
    + intros y. rewrite D3, (r_timers _ _ _ Hr). split.
      * intros [[(n & Hn & ->)|(n & Hn & ->)] Hne]; [by eauto|done].
      * intros [(n & Hn & ->)|(n & Hn & _)]; [|done]. split; [by eauto|]. apply (r_distinct _ _ _ Hr).
        rewrite (r_debounce _ _ _ Hr), Hn. done.
    + apply (r_debounce _ _ _ Hr).
    + by destruct (Z.leb_spec 0 d); [|lia].
Qed.

Lemma missed_live w v q q' :
  live w v -> timers_ w = Some q -> must_note v = false -> watching v = None -> retries v = None ->
  2 + used (log w) < u64_modulus ->
  TimerQueue.ScheduleAfter (clock (1 + used (log w))) kWatchRetryDelay CbRewatch q = Some (1 + used (log w), q') ->
  live (say (EMiss (clock (1 + used (log w)))) (with_rewatch (1 + used (log w)) (with_timers (Some q') (count_attempt w))))
       (View true (opened v) None (owes v) (Some (clock (1 + used (log w)))) false).
Proof.
  intros Hl Hq Hm Hw Hn Hf E. pose proof (live_represents w v q Hl Hq) as Hr. destruct Hl as [H1 H2 H3 H4 _].
  pose proof (used_nonneg (log w)). destruct (timers_old _ _ _ Hr) as [Ho1 Ho2]. pose proof (r_watch _ _ _ Hr) as Hwd.
  destruct (reschedule w v q (clock (1 + used (log w))) kWatchRetryDelay CbRewatch 0 Hr Hf ltac:(done)) as (q1 & E1 & D1 & D2 & D3).
  change (drop_timer 0 q) with q in E1. rewrite E in E1. injection E1 as <-.
  split; simpl; [|done|done|done|].
  - rewrite accepts_snoc, H1. destruct v; simpl in *. by subst.
  - exists q'. split; simpl; try done.
    + rewrite used_snoc. lia.
    + intros y. rewrite D3, (r_timers _ _ _ Hr). split.
      * intros [->|[[(n & Hv & ->)|(n & Hv & ->)] Hne]]; [by eauto|by eauto|congruence].
      * intros [(n & Hv & ->)|(n & Hv & ->)]; [|injection Hv as <-; by left]. right. split; [by eauto|]. simpl.
        rewrite (r_debounce _ _ _ Hr), Hv. done.
    + apply (r_debounce _ _ _ Hr).
    + split; [lia|done].
    + lia.
    + by rewrite <- Hwd.
Qed.

(** An attempt ends with a watch and a request for a reload, or with a retry
    pending. *)
Lemma TryRewatch_triple :
  triple (fun v => must_note v = false /\ watching v = None) TryRewatch (fun _ => settled).
Proof.
  intros w [Ht Hw]. destruct (timers_ w) as [q|] eqn:Eq; [clear Ht|done]. pose proof (used_nonneg (log w)).
  unfold wp. rewrite (TryRewatch_eq w q Eq). cbv zeta. destruct (Z.leb_spec 0 (answer (S (calls w)))) as [Hd|Hd].
  - set (P := fun v => must_note v = true /\ watching v <> None /\ retries v = None).
    pose proof (Debounce_triple P (renewed (answer (S (calls w))) q w)) as HD. unfold wp in HD.
    assert (Hu : used (log (renewed (answer (S (calls w))) q w)) = used (log w)) by (simpl; rewrite used_snoc; lia).
    rewrite Hu in HD. assert (good P (renewed (answer (S (calls w))) q w)) as HG.
    { split; [done|]. unfold fits. rewrite Hu. intros Hf. destruct (Hw Hf) as (v & Hv & Hm & Hwa).
      eexists. split; [by apply renewed_live|done]. }
    specialize (HD HG). destruct (Debounce _) as [[] w'|w'| |]; try done. destruct HD as (HD1 & HD2 & HD3).
    split; [done|]. split; [done|]. intros Hf. destruct (HD3 Hf) as (v' & Hv' & v & n & (P1 & P2 & P3) & ->).
    eexists. split; [exact Hv'|]. split; [done|]. simpl. rewrite P3. split; [done|by intros []].
  - destruct (Z.eqb_spec (rewatch_timer_ w) 0) as [Hr|Hr]; simpl.
    + destruct (TimerQueue.ScheduleAfter _ _ _ _) as [[id q']|] eqn:E.
      * simpl. rewrite used_snoc. split; [lia|]. split; [done|]. unfold fits. simpl. rewrite used_snoc. intros Hf.
        destruct Hw as (v & Hv & Hm & Hwa); [unfold fits; lia|]. pose proof (live_represents w v q Hv Eq) as Hq.
        rewrite (r_next _ _ _ Hq) in E.
        destruct (reschedule w v q (clock (1 + used (log w))) kWatchRetryDelay CbRewatch 0 Hq ltac:(lia) ltac:(done)) as (q1 & E1 & _).
        change (drop_timer 0 q) with q in E1.
        assert (Hid : id = 1 + used (log w) /\ q1 = q') by (rewrite E in E1; by injection E1 as -> ->). destruct Hid as [-> ->].
        eexists. split; [apply (missed_live w v q); try done; [by apply (r_rewatch _ _ _ Hq)|lia]|]. by split.
      * intros Hf. destruct (Hw Hf) as (v & Hv & _). change q with (drop_timer 0 q) in E.
        by apply (schedule_possible w v q) in E; [|apply live_represents|].
    + split; [lia|]. split; [simpl; by rewrite Eq|]. intros Hf. destruct (Hw Hf) as (v & Hv & Hm & Hwa). exists v.
      split; [by apply count_attempt_live|]. split; [done|]. destruct Hv as [_ _ _ _ (q0 & Hq)]. rewrite Hwa. split; [|done].
      intros _ Hn. by apply Hr, (r_rewatch _ _ _ Hq).
Qed.

(** *** Event sources *)

Lemma triple_modify (f : t -> t) (P Q : view -> Prop) :
  (forall w, used (log (f w)) = used (log w) /\ timers_ (f w) = timers_ w) ->
  (forall w v, live w v -> P v -> exists v', live (f w) v' /\ Q v') ->
  triple P (modify f) (fun _ => Q).
Proof.
  intros Hf HQ w [H1 H2]. destruct (Hf w) as [H3 H4]. simpl. split; [lia|]. split; [by rewrite H4|].
  unfold fits. rewrite H3. intros H. destruct (H2 H) as (v & Hv & HP). by eapply HQ.
Qed.

Lemma lost_live w v :
  live w v -> must_note v = false ->
  live (say ELost (with_watch (-1) w)) (View true (opened v) None (owes v) (retries v) false).
Proof.
  intros [H1 H2 H3 H4 (q & Hr)] Hm. split; simpl; [|done|done|done|].
  - rewrite accepts_snoc, H1. destruct v; simpl in *. by subst.
  - exists q. destruct Hr. split; simpl; try done. rewrite used_snoc. lia.
Qed.

Lemma when_Debounce_triple b : triple settled (when b Debounce) (fun _ => settled).
Proof.
  destruct b; simpl; [|by apply triple_ret]. eapply triple_mono; [apply Debounce_triple|done|].
  intros _ v' (v & n & [_ H2] & ->). split; [done|exact H2].
Qed.

Lemma event_loop_triple fuel buffer offset : triple settled (event_loop fuel buffer offset) (fun _ => settled).
Proof.
  revert offset; induction fuel as [|fuel IH]; intros offset; simpl; [by intros w _|].
  apply triple_if; intros _; [|by apply triple_ret]. apply triple_if; intros _; [by apply triple_ret|].
  apply triple_gets with (R := fun _ => settled); [done|]. intros d. apply triple_if; intros _; [|apply IH].
  apply triple_if; intros _.
  - apply (triple_bind _ _ _ (fun _ v => must_note v = false /\ watching v = None)); [|intros _].
    2: { eapply triple_bind; [apply TryRewatch_triple|]. intros a. apply IH. }
    apply triple_modify; [intros w; simpl; rewrite used_snoc; split; [lia|done]|].
    intros w v Hv [Hm _]. eexists. split; [by apply lost_live|done].
  - apply triple_gets with (R := fun _ => settled); [done|]. intros w. eapply triple_bind; [apply when_Debounce_triple|].
    intros a. apply IH.
Qed.

Lemma HandleInotify_triple fuel reads : triple settled (HandleInotify fuel reads) (fun _ => settled).
Proof.
  induction reads as [|[|buffer|] reads IH]; simpl; [by apply triple_ret|done| |by apply triple_ret].
  eapply triple_bind; [apply event_loop_triple|]. intros more. apply triple_if; intros _; [done|by apply triple_ret].
Qed.

Lemma HandleSighup_triple reads : triple settled (HandleSighup reads) (fun _ => settled).
Proof.
  induction reads as [|[|signo|] reads IH]; simpl; [by apply triple_ret|done| |by apply triple_ret].
  eapply triple_bind; [apply when_Debounce_triple|]. intros a. exact IH.
Qed.

(** *** Timers that fire *)

(** The queue without the timer of the debounce, or without that of the retry. *)
Lemma popped_debounce w v q now q' n :
  represents w v q -> must_note v = false -> owes v = Some n -> replay (log w) = Some v -> alive v = true -> opened v = live_fds w -> 0 <= inotify_fd_ w ->
  TimerQueue.pop_due now q = Some (TimerQueue.mkEntry (n + kDebounceDelay) (debounce_timer_ w) CbDebounce, q') ->
  live (say (ETrigger now) (with_debounce 0 (with_timers (Some q') w)))
       (View true (opened v) (watching v) None (retries v) false).
Proof.
  intros Hr Hm Ho H1 H2 H3 H4 E. destruct (TimerQueue.pop_due_wf _ _ _ _ (r_wf _ _ _ Hr) E) as (P1 & P2 & _ & _ & P5 & P6).
  pose proof (TimerQueue.pop_due_next _ _ _ _ E) as Hn. simpl in P2, P6.
  split; simpl; [|done|done|done|].
  - rewrite accepts_snoc, H1. destruct v; simpl in *. subst. simpl. by destruct (Z.leb_spec (n + kDebounceDelay) now); [|lia].
  - exists q'. split; simpl; try done; [by rewrite used_snoc, Hn, (r_next _ _ _ Hr), Z.add_0_r| |apply (r_rewatch _ _ _ Hr)|apply (r_watch _ _ _ Hr)].
    intros y. split.
    + intros Hy. right. assert (y ∈ TimerQueue.timers_ q) as [(k & Hk & ->)|?]%(r_timers _ _ _ Hr); [apply P5; by right| |done].
      exfalso. apply P6, list_elem_of_fmap. by exists (TimerQueue.mkEntry (k + kDebounceDelay) (debounce_timer_ w) CbDebounce).
    + intros [(k & Hk & _)|(k & Hk & ->)]; [done|].
      destruct (proj1 (P5 (TimerQueue.mkEntry (k + kWatchRetryDelay) (rewatch_timer_ w) CbRewatch))) as [?|?]; [|done|done].
      apply (r_timers _ _ _ Hr). eauto.
Qed.

Lemma popped_rewatch w v q now q' n :
  represents w v q -> must_note v = false -> retries v = Some n -> replay (log w) = Some v -> alive v = true -> opened v = live_fds w -> 0 <= inotify_fd_ w ->
  TimerQueue.pop_due now q = Some (TimerQueue.mkEntry (n + kWatchRetryDelay) (rewatch_timer_ w) CbRewatch, q') ->
  live (say (ERetry now) (with_rewatch 0 (with_timers (Some q') w)))
       (View true (opened v) (watching v) (owes v) None false).
Proof.
  intros Hr Hm Ho H1 H2 H3 H4 E. destruct (TimerQueue.pop_due_wf _ _ _ _ (r_wf _ _ _ Hr) E) as (P1 & P2 & _ & _ & P5 & P6).
  pose proof (TimerQueue.pop_due_next _ _ _ _ E) as Hn. simpl in P2, P6.
  split; simpl; [|done|done|done|].
  - rewrite accepts_snoc, H1. destruct v; simpl in *. subst. simpl. by destruct (Z.leb_spec (n + kWatchRetryDelay) now); [|lia].
  - exists q'. split; simpl; try done; [by rewrite used_snoc, Hn, (r_next _ _ _ Hr), Z.add_0_r| |apply (r_debounce _ _ _ Hr)|apply (r_watch _ _ _ Hr)].
    intros y. split.
    + intros Hy. left. assert (y ∈ TimerQueue.timers_ q) as [?|(k & Hk & ->)]%(r_timers _ _ _ Hr); [apply P5; by right|done|].
      exfalso. apply P6, list_elem_of_fmap. by exists (TimerQueue.mkEntry (k + kWatchRetryDelay) (rewatch_timer_ w) CbRewatch).
    + intros [(k & Hk & ->)|(k & Hk & _)]; [|done].
      destruct (proj1 (P5 (TimerQueue.mkEntry (k + kDebounceDelay) (debounce_timer_ w) CbDebounce))) as [?|?]; [|done|done].
      apply (r_timers _ _ _ Hr). eauto.
Qed.

Lemma fire_triple now : triple settled (fire now) (fun _ => settled).
Proof.
  intros w [Ht Hw]. destruct (timers_ w) as [q|] eqn:Eq; [clear Ht|done]. unfold wp, fire. rewrite Eq. simpl.
  destruct (TimerQueue.pop_due now q) as [[x q']|] eqn:E; [|split; [lia|]; split; [by rewrite Eq|done]].
  assert (Hx : fits w -> exists v, live w v /\ settled v /\ represents w v q /\
    ((exists n, owes v = Some n /\ x = TimerQueue.mkEntry (n + kDebounceDelay) (debounce_timer_ w) CbDebounce) \/
     (exists n, retries v = Some n /\ x = TimerQueue.mkEntry (n + kWatchRetryDelay) (rewatch_timer_ w) CbRewatch))).
  { intros Hf. destruct (Hw Hf) as (v & Hv & Hs). pose proof (live_represents w v q Hv Eq) as Hr. exists v. split_and!; try done.
    apply (r_timers _ _ _ Hr). by destruct (TimerQueue.pop_due_wf _ _ _ _ (r_wf _ _ _ Hr) E) as (_ & _ & ? & _). }
  destruct (TimerQueue.callback x) eqn:Ec; simpl.
  - rewrite used_snoc. split; [lia|]. split; [done|]. unfold fits. simpl. rewrite used_snoc. intros Hf.
    destruct Hx as (v & Hv & [Hm Hs] & Hr & [(n & Hn & ->)|(n & Hn & ->)]); [unfold fits; lia| |done].
    destruct Hv as [H1 H2 H3 H4 _]. eexists. split; [by eapply popped_debounce|]. by split.
  - unfold bind, modify, gets. simpl. set (w1 := say (ERetry now) (with_rewatch 0 (with_timers (Some q') w))).
    assert (Hu : used (log w1) = used (log w)) by (simpl; rewrite used_snoc; lia).
    assert (Hl : fits w1 -> exists v, live w1 v /\ must_note v = false /\ watching v = None /\ watch_descriptor_ w < 0).
    { unfold fits. rewrite Hu. intros Hf. destruct (Hx Hf) as (v & Hv & [Hm Hs] & Hr & [(n & Hn & ->)|(n & Hn & ->)]); [done|].
      assert (watching v = None) as Hwa by (apply Hs; by rewrite Hn). pose proof (r_watch _ _ _ Hr) as Hd. rewrite Hwa in Hd.
      destruct Hv as [H1 H2 H3 H4 _]. eexists. split; [by eapply popped_rewatch|]. split_and!; [done|done|].
      by destruct (Z.leb_spec 0 (watch_descriptor_ w)). }
    destruct (Z.leb_spec 0 (watch_descriptor_ w)).
    + change (used (log w) <= used (log w1) /\ good settled w1). rewrite Hu. split; [lia|]. split; [done|]. intros Hf.
      destruct (Hl Hf) as (v & _ & _ & _ & ?). lia.
    + pose proof (TryRewatch_triple w1) as HT. unfold wp in HT. rewrite Hu in HT. apply HT. split; [done|]. intros Hf.
      destruct (Hl Hf) as (v & Hv & Hm & Hwa & _). eauto.
Qed.

(** *** Stopping and constructing *)

Lemma Stop_stopped w v : live w v -> must_note v = false -> stopped (Stop w).
Proof.
  intros [H1 H2 H3 H4 (q & Hr)] Hm. pose proof (r_queue _ _ _ Hr) as Hq. pose proof (r_watch _ _ _ Hr) as Hwa. clear Hr.
  unfold live_fds in H3. destruct v as [a o wa n r m]. destruct w; simpl in *. unfold Stop; simpl. subst. simpl.
  destruct (Z.leb_spec 0 inotify_fd_0) as [Hi|]; [|lia].
  destruct (debounce_timer_0 =? 0); simpl; (destruct (rewatch_timer_0 =? 0); simpl);
    (destruct (Z.leb_spec 0 watch_descriptor_0); simpl); rewrite ?(proj2 (Z.leb_le 0 inotify_fd_0) Hi); simpl;
    (destruct (Z.leb_spec 0 sighup_fd_0); simpl); rewrite ?(proj2 (Z.leb_le 0 inotify_fd_0) Hi);
    (split; simpl; [|done|done|split_and!; [lia|lia|done]]);
    rewrite !accepts_snoc, H1; simpl; rewrite ?Z.eqb_refl; simpl;
    try (destruct (Z.eqb_spec inotify_fd_0 sighup_fd_0) as [->|]; simpl; rewrite ?Z.eqb_refl; cbn; rewrite ?Z.eqb_refl); done.
Qed.

Lemma start_live w i s d :
  timers_ w = Some TimerQueue.make -> inotify_fd_ w = i -> sighup_fd_ w = s -> watch_descriptor_ w = d ->
  debounce_timer_ w = 0 -> rewatch_timer_ w = 0 -> used (log w) = 0 -> 0 <= i -> 0 <= d ->
  replay (log w) = Some (View true (live_fds w) (Some d) None None false) ->
  exists v, live w v /\ settled v.
Proof.
  intros Hq <- <- <- Hd Hr Hu Hi Hw Hl. eexists. split; [split; [exact Hl|done|done|done|]|by split].
  exists TimerQueue.make. split; simpl; try done.
  - apply TimerQueue.timers_make_wf.
  - by rewrite Hu.
  - intros y. split; [intros Hy; by apply elem_of_nil in Hy|]. by intros [(n & Hn & _)|(n & Hn & _)].
  - by destruct (Z.leb_spec 0 (watch_descriptor_ w)); [|lia].
Qed.

(** The constructor gives a live watcher, or throws after it gave everything
    back. *)
Lemma construct_ok path ws a :
  match construct path ws a blank with
  | Ret _ w => exists v, live w v /\ settled v
  | Throw w => stopped (Stop w)
  | Stuck | Spin => False
  end.
Proof.
  unfold construct. destruct (SplitPath path) as [[d f]|]; [|by split].
  unfold bind, modify, assert, ret, throw, blank. cbn.
  destruct (Z.leb_spec 0 (inotify_init a)) as [Hi|Hi]; cbn.
  2: { unfold Stop; cbn. destruct (Z.leb_spec 0 (inotify_init a)); [lia|]. by split. }
  assert (HS : forall w, (exists v, live w v /\ settled v) -> stopped (Stop w)).
  { intros w (v & Hv & [Hm _]). by eapply Stop_stopped. }
  destruct (Z.leb_spec 0 (add_watch a)) as [Hd|Hd]; cbn.
  2: { unfold Stop; cbn. destruct (Z.leb_spec 0 (add_watch a)); [lia|]. cbn. destruct (Z.leb_spec 0 (inotify_init a)); [|lia].
       split; cbn; [by rewrite Z.eqb_refl|done|done|split_and!; [done|done|done]]. }
  assert (HL : forall dir fn tc sc s l, used l = 0 ->
    replay l = Some (View true ([inotify_init a] ++ (if 0 <=? s then [s] else [])) (Some (add_watch a)) None None false) ->
    exists v, live (mk dir fn (Some TimerQueue.make) tc sc (inotify_init a) (add_watch a) s 0 0 0 0 l) v /\ settled v).
  { intros dir fn tc sc s l Hu Hr. apply (start_live _ (inotify_init a) s (add_watch a)); try done.
    change (replay l = Some (View true ((if 0 <=? inotify_init a then [inotify_init a] else []) ++ (if 0 <=? s then [s] else []))
                                  (Some (add_watch a)) None None false)).
    rewrite Hr. by destruct (Z.leb_spec 0 (inotify_init a)); [|lia]. }
  destruct (reading_inotify a); cbn; [|by apply HS, HL].
  destruct ws; cbn; [|by apply HL]. destruct (signal_set a); cbn; [|by apply HS, HL].
  destruct (Z.leb_spec 0 (signal_fd a)) as [Hs|Hs]; cbn.
  2: { apply HS, HL; [done|]. cbn. destruct (Z.leb_spec 0 (signal_fd a)); [lia|done]. }
  destruct (reading_signal a); cbn; [|apply HS]; (apply HL; [done|]); cbn;
    (destruct (Z.leb_spec 0 (signal_fd a)); [done|lia]).
Qed.

(** *** Histories *)

(** Alive and settled, or stopped. *)
Definition sound (w : t) : Prop :=
  good settled w \/
  (timers_ w = None /\ inotify_channel_ w = false /\ sighup_channel_ w = false /\ (fits w -> stopped w)).

Lemma Stop_used w : used (log (Stop w)) = used (log w) /\ timers_ (Stop w) = None /\
  inotify_channel_ (Stop w) = false /\ sighup_channel_ (Stop w) = false.
Proof.
  unfold Stop. destruct w as [? ? [?|]]; simpl; repeat case_match; simpl; rewrite ?used_snoc; split_and!; try done; lia.
Qed.

Lemma Stop_again w : stopped w -> stopped (Stop w).
Proof.
  intros [H1 H2 [H3 H4] (H5 & H6 & H7)]. destruct w; simpl in *. subst. unfold Stop; simpl.
  destruct (Z.leb_spec 0 inotify_fd_0); [lia|]. destruct (Z.leb_spec 0 sighup_fd_0); [lia|]. simpl.
  destruct (Z.leb_spec 0 inotify_fd_0); [lia|]. split; simpl; try done. by rewrite accepts_snoc, H1.
Qed.

Lemma exec_sound fuel o w :
  sound w -> wp (exec fuel o) (fun _ w' => sound w') (fun w' => ~ fits w') w.
Proof.
  intros [Hg|(H1 & H2 & H3 & H4)].
  - assert (HT : forall m : M t unit, triple settled m (fun _ => settled) -> wp m (fun _ w' => sound w') (fun w' => ~ fits w') w).
    { intros m Hm. eapply wp_mono; [by apply Hm| |done]. intros a w' [_ H]. by left. }
    destruct o as [reads|reads|now|]; simpl.
    + apply wp_bind, wp_gets. destruct (inotify_channel_ w); simpl; [apply HT, HandleInotify_triple|by left].
    + apply wp_bind, wp_gets. destruct (sighup_channel_ w); simpl; [apply HT, HandleSighup_triple|by left].
    + apply HT, fire_triple.
    + right. destruct (Stop_used w) as (U1 & U2 & U3 & U4). split_and!; try done. unfold fits. rewrite U1. intros Hf.
      destruct Hg as [_ Hg]. destruct (Hg Hf) as (v & Hv & [Hm _]). by eapply Stop_stopped.
  - destruct o as [reads|reads|now|]; simpl.
    + apply wp_bind, wp_gets. rewrite H2. by right.
    + apply wp_bind, wp_gets. rewrite H3. by right.
    + unfold wp, fire. rewrite H1. by right.
    + right. destruct (Stop_used w) as (U1 & U2 & U3 & U4). split_and!; try done. unfold fits. rewrite U1.
      intros Hf. by apply Stop_again, H4.
Qed.

Lemma run_sound fuel os w : sound w -> wp (run fuel os) (fun _ w' => sound w') (fun w' => ~ fits w') w.
Proof.
  revert w; induction os as [|o os IH]; intros w Hw; simpl; [done|].
  apply wp_bind. eapply wp_mono; [by apply exec_sound| |done]. intros a w' Hw'. by apply IH.
Qed.

(** ** Batches of events

    The bytes of a batch as the kernel lays them out, and what the events mean
    one by one. *)

Definition put32 (z : Z) : bytes :=
  [of_code (z mod 256); of_code (z / 256 mod 256); of_code (z / 65536 mod 256); of_code (z / 16777216 mod 256)].

Definition encode (e : inotify_event) : bytes :=
  put32 (wd e mod u32_modulus) ++ put32 (mask e) ++ put32 (cookie e) ++ put32 (Z.of_nat (length (name e))) ++ name e.

Record valid_event (e : inotify_event) : Prop := {
  v_wd : - 2147483648 <= wd e < 2147483648;
  v_mask : is_u32 (mask e);
  v_cookie : is_u32 (cookie e);
  v_name : is_u32 (Z.of_nat (length (name e)))
}.

Definition react (e : inotify_event) : M t unit :=
  w <- gets id ;;
  if negb (wd e =? watch_descriptor_ w) then ret tt
  else if invalidates e then modify (fun w => say ELost (with_watch (-1) w)) ;; TryRewatch
  else when (matches e w) Debounce.

Fixpoint react_all (es : list inotify_event) : M t unit :=
  match es with
  | [] => ret tt
  | e :: es => react e ;; react_all es
  end.

(** The descriptor of a watch that is gone is not handed out again. *)
Definition not_reused (e : inotify_event) : Prop :=
  invalidates e = true -> 0 <= wd e /\ forall n, answer n <> wd e.

Lemma le32_put32 z s : is_u32 z -> le32 (put32 z ++ s) = z.
Proof.
  intros Hz. unfold le32, put32. cbn [app take foldr]. rewrite !code_of_code by (apply Z.mod_pos_bound; lia).
  pose proof (Z.div_mod z 256 ltac:(lia)). pose proof (Z.div_mod (z / 256) 256 ltac:(lia)).
  pose proof (Z.div_mod (z / 65536) 256 ltac:(lia)).
  replace (z / 65536) with (z / 256 / 256) in * by (rewrite Z.div_div by lia; done).
  replace (z / 16777216) with (z / 256 / 256 / 256) in * by (rewrite !Z.div_div by lia; done).
  rewrite (Z.mod_small (z / 256 / 256 / 256)); [change (take 0 s) with (@nil byte); cbn [foldr]; lia|]. rewrite !Z.div_div by lia.
  split; [apply Z.div_pos; mlia|apply Z.div_lt_upper_bound; mlia].
Qed.

Lemma to_i32_mod z : - 2147483648 <= z < 2147483648 -> to_i32 (z mod u32_modulus) = z.
Proof.
  intros Hz. unfold to_i32. destruct (Z.ltb_spec z 0).
  - replace (z mod u32_modulus) with (z + u32_modulus).
    + destruct (Z.ltb_spec (z + u32_modulus) 2147483648); mlia.
    + apply Z.mod_unique with (-1); [left|]; mlia.
  - rewrite Z.mod_small by mlia. destruct (Z.ltb_spec z 2147483648); lia.
Qed.

Lemma drop_pre (pre s : bytes) n : drop (length pre + n) (pre ++ s) = drop n s.
Proof. by rewrite drop_app_ge, Nat.add_comm, Nat.add_sub by lia. Qed.

(** The decoder reads back what was laid out, at any offset. *)
Lemma event_at_encode pre e post :
  valid_event e ->
  event_at (pre ++ encode e ++ post) (length pre) = e /\
  event_len (pre ++ encode e ++ post) (length pre) = length (name e).
Proof.
  intros [H1 H2 H3 H4].
  assert (HL : event_len (pre ++ encode e ++ post) (length pre) = length (name e)).
  { unfold event_len. rewrite drop_pre. unfold encode. rewrite <- !app_assoc. cbn [put32 app drop].
    change (of_code (Z.of_nat (length (name e)) mod 256) :: ?s) with (put32 (Z.of_nat (length (name e))) ++ name e ++ post).
    rewrite le32_put32 by done. lia. }
  split; [|done]. unfold event_at. rewrite HL.
  replace (drop (length pre) (pre ++ encode e ++ post)) with (encode e ++ post) by (symmetry; rewrite drop_app_ge, Nat.sub_diag by lia; done).
  unfold substr, sizeof_inotify_event. rewrite !drop_pre. unfold encode. rewrite <- !app_assoc.
  rewrite le32_put32 by apply Z.mod_pos_bound, eq_refl. rewrite to_i32_mod by done.
  change (drop 4 ?s) with (put32 (mask e) ++ put32 (cookie e) ++ put32 (Z.of_nat (length (name e))) ++ name e ++ post).
  change (drop 8 ?s) with (put32 (cookie e) ++ put32 (Z.of_nat (length (name e))) ++ name e ++ post).
  change (drop 16 ?s) with (name e ++ post).
  rewrite !le32_put32 by done. rewrite take_app_length. by destruct e.
Qed.

Lemma length_encode e : length (encode e) = (sizeof_inotify_event + length (name e))%nat.
Proof. unfold encode. rewrite !length_app. done. Qed.

(** One turn of the inner loop on a complete event. *)
Lemma event_loop_step fuel pre e post :
  valid_event e ->
  event_loop (S fuel) (pre ++ encode e ++ post) (length pre) =
  (d <- gets watch_descriptor_ ;;
   if wd e =? d then
     if invalidates e then
       modify (fun w => say ELost (with_watch (-1) w)) ;; TryRewatch ;; event_loop fuel (pre ++ encode e ++ post) (length pre)
     else
       w <- gets id ;;
       when (matches e w) Debounce ;;
       event_loop fuel (pre ++ encode e ++ post) (length (pre ++ encode e))
   else event_loop fuel (pre ++ encode e ++ post) (length (pre ++ encode e))).
Proof.
  intros He. cbn [event_loop]. destruct (event_at_encode pre e post He) as [E1 E2]. rewrite E1, E2. clear E1 E2.
  rewrite (length_app pre (encode e)), length_encode.
  rewrite bool_decide_eq_true_2 by (rewrite !length_app, length_encode; unfold sizeof_inotify_event; lia).
  rewrite (bool_decide_eq_false_2 (length (pre ++ encode e ++ post) < _)%nat) by (rewrite !length_app, length_encode; lia).
  done.
Qed.

Lemma Debounce_watch w a w' : Debounce w = Ret a w' -> watch_descriptor_ w' = watch_descriptor_ w.
Proof.
  destruct (timers_ w) as [q|] eqn:Eq.
  - rewrite (Debounce_eq w q Eq). destruct (TimerQueue.ScheduleAfter _ _ _ _) as [[]|]; [|done]. by intros [= _ <-].
  - unfold Debounce, schedule, cancel, the_timers, bind, gets, when, ret. destruct (negb _); by rewrite Eq.
Qed.

Lemma TryRewatch_watch w a w' :
  TryRewatch w = Ret a w' ->
  watch_descriptor_ w' = watch_descriptor_ w \/ exists n, watch_descriptor_ w' = answer n.
Proof.
  destruct (timers_ w) as [q|] eqn:Eq.
  - rewrite (TryRewatch_eq w q Eq). cbv zeta. destruct (0 <=? _); [intros ->%Debounce_watch; right; by eexists|].
    destruct (negb _); [intros [= _ <-]; by left|].
    destruct (TimerQueue.ScheduleAfter _ _ _ _) as [[]|]; [|done]. intros [= _ <-]. by left.
  - unfold TryRewatch, Debounce, schedule, cancel, the_timers, bind, gets, when, modify, ret. simpl.
    destruct (0 <=? _); simpl; destruct (rewatch_timer_ w =? 0); simpl; rewrite ?Eq; try done;
      [by destruct (debounce_timer_ w =? 0); simpl; rewrite ?Eq|intros [= _ <-]; by left].
Qed.

Definition and_true (m : M t unit) : M t bool := m ;; ret true.

Lemma and_true_bind (m k : M t unit) w : and_true (m ;; k) w = (m ;; and_true k) w.
Proof. unfold and_true, bind. by destruct (m w). Qed.

(** Examining the event a second time passes over it. *)
Lemma event_loop_batch es pre fuel w :
  Forall valid_event es -> Forall not_reused es -> (2 * length es < fuel)%nat ->
  event_loop fuel (pre ++ concat (encode <$> es)) (length pre) w = and_true (react_all es) w.
Proof.
  intros Hv Hn. revert pre fuel w; induction es as [|e es IH]; intros pre fuel w Hf.
  { destruct fuel; [simpl in Hf; lia|]. simpl. rewrite app_nil_r, bool_decide_eq_false_2 by lia. done. }
  apply Forall_cons in Hv as [Hv1 Hv], Hn as [Hn1 Hn].
  destruct fuel as [|[|fuel]]; [simpl in Hf; lia|simpl in Hf; lia|]. simpl in Hf.
  assert (Hnext : forall f w, (2 * length es < f)%nat ->
    event_loop f (pre ++ encode e ++ concat (encode <$> es)) (length (pre ++ encode e)) w = and_true (react_all es) w).
  { intros f w1 Hf1. rewrite app_assoc. by apply IH. }
  cbn [react_all]. rewrite and_true_bind. cbn [fmap list_fmap concat]. rewrite event_loop_step by done. unfold react, bind, gets, id. cbv beta iota.
  destruct (Z.eqb_spec (wd e) (watch_descriptor_ w)) as [Hw|Hw]; cbn [negb]; [|by rewrite Hnext by lia].
  destruct (invalidates e) eqn:Ei.
  - unfold modify. destruct (TryRewatch _) as [[] w1|w1| |] eqn:ET; try done.
    assert (Hd : wd e <> watch_descriptor_ w1).
    { destruct (Hn1 Ei) as [Hd Ha]. apply TryRewatch_watch in ET as [->|(n & ->)]; [simpl; lia|]. by apply not_eq_sym. }
    rewrite event_loop_step by done. unfold bind, gets. cbv beta iota. destruct (Z.eqb_spec (wd e) (watch_descriptor_ w1)); [done|].
    by rewrite Hnext by lia.
  - destruct (when _ _ _) as [[] w1|w1| |]; try done. by rewrite Hnext by lia.
Qed.

(** A directory that is moved keeps its watch: [inotify_add_watch] on a path that
    still leads to it returns the descriptor of the event, and the loop examines
    the same event again, for ever. *)
Lemma event_loop_diverges fuel e w :
  valid_event e -> invalidates e = true -> (forall n, answer n = wd e) -> watch_descriptor_ w = wd e -> 0 <= wd e ->
  forall b w', event_loop fuel (encode e) 0 w <> Ret b w'.
Proof.
  intros He Hi Ha Hw Hd b w'. revert w Hw. induction fuel as [|fuel IH]; intros w Hw; [done|].
  pose proof (event_loop_step fuel [] e [] He) as HS. rewrite !app_nil_l, app_nil_r in HS. simpl length in HS. rewrite HS.
  unfold bind, gets, modify. cbv beta iota. rewrite Hw, Z.eqb_refl, Hi.
  destruct (TryRewatch _) as [[] w1|w1| |] eqn:ET; try done. apply IH.
  unfold TryRewatch, bind, modify, gets in ET. cbv beta iota zeta in ET. rewrite Ha in ET.
  destruct (Z.leb_spec 0 (wd e)); [|lia]. destruct (when _ _ _) as [[] w2|w2| |] eqn:E2 in ET; try done.
  apply Debounce_watch in ET. rewrite ET. unfold when, cancel, the_timers, bind, modify, ret in E2.
  destruct (negb _); [|by injection E2 as <-]. destruct (timers_ _); [|done]. by injection E2 as <-.
Qed.

End Watcher.

Abbreviation replay := (accepts view_step born).

(** C30: Every history of the reload watcher is one its contract allows: a
    failed construction gives every descriptor back; afterwards, whatever inotify
    and the signal descriptor deliver and whenever timers fire, the trigger runs
    exactly once for a burst of requests, a full debounce delay after the last of
    them; a lost watch is renewed at once (and then asks for a reload) or retried
    a full retry delay later, so the watcher always watches or has one retry
    pending; at most these two timers exist; a stop removes the watch, closes
    the descriptors and nothing follows it.  Exceptions need 2^64 timers. *)
Theorem watcher_refines (answer : nat -> Z) (clock : Z -> Z) owner path trigger watch_sighup (a : setup) fuel os :
  match make owner path trigger watch_sighup a with
  | Throw w => exists v, replay (log w) = Some v /\ opened v = [] /\ watching v = None /\ timers_ w = None
  | Ret _ w0 =>
      match run answer clock fuel os w0 with
      | Ret _ w => fits w -> stopped w \/ (exists v, live w v /\ settled v)
      | Throw w => ~ fits w
      | Stuck => False
      | Spin => True
      end
  | Stuck | Spin => False
  end.
Proof.
  unfold make. destruct (_ || _) eqn:E0; [by eexists|]. pose proof (construct_ok path watch_sighup a) as HC. unfold catch.
  destruct (construct path watch_sighup a blank) as [[] w0|w0| |]; try done.
  - pose proof (run_sound answer clock fuel os w0) as HR. unfold wp in HR.
    destruct HC as (v & Hv & Hs). assert (sound w0) as Hw0.
    { left. split; [|by eauto]. destruct Hv as [_ _ _ _ (q & Hq)]. by rewrite (r_queue _ _ _ Hq). }
    specialize (HR Hw0). destruct (run answer clock fuel os w0) as [[] w|w| |]; try done.
    intros Hf. destruct HR as [[_ H]|(_ & _ & _ & H)]; [right|left]; auto.
  - simpl. destruct HC. eexists. split_and!; done.
Qed.

(** The configuration file is replaced twice within the delay, the trigger runs;
    then the directory is deleted, comes back before the retry, which runs the
    trigger again; then the watcher is stopped. *)
Definition example_setup : setup := mkSetup 5 1 true true 6 true.
Definition example_answer (n : nat) : Z := if Nat.eqb n 1 then -1 else 2.
Definition example_clock (id : Z) : Z :=
  if id =? 3 then 500000000 else if id =? 4 then 1000000000 else id * 100000000.
Definition example_moved : inotify_event := mkEvent 1 IN_MOVED_TO 0 (lit "gw.yaml" ++ ["000"%byte]).
Definition example_deleted : inotify_event := mkEvent 1 IN_DELETE_SELF 0 [].
Definition example_ops : list op :=
  [ OInotify [Interrupted; Data (encode example_moved ++ encode example_moved)]; OFire 400000000;
    OInotify [Data (encode example_deleted)]; OFire 999999999; OFire 1000000000; OFire 9000000000; OStop ].

Definition final (r : result t unit) : t := match r with Ret _ w | Throw w => w | Stuck | Spin => blank end.
Definition example_start : t :=
  Eval vm_compute in final (make true (lit "conf/gw.yaml") true true example_setup).
Definition example_end : t :=
  Eval vm_compute in final (run example_answer example_clock 10 example_ops example_start).

Lemma watcher_refines_witness :
  make true (lit "conf/gw.yaml") true true example_setup = Ret tt example_start /\
  run example_answer example_clock 10 example_ops example_start = Ret tt example_end /\
  log example_end =
    [EOpen 5; EWatch 1; EOpen 6; ENote 100000000; ENote 200000000; ETrigger 400000000; ELost; EMiss 500000000;
     ERetry 1000000000; ERewatch 2; ENote 1000000000; ETrigger 9000000000; EStop; ERemove 2; EClose 6; EClose 5] /\
  (stopped example_end \/ exists v, live example_end v /\ settled v).
Proof.
  assert (E0 : make true (lit "conf/gw.yaml") true true example_setup = Ret tt example_start) by (vm_compute; reflexivity).
  assert (E1 : run example_answer example_clock 10 example_ops example_start = Ret tt example_end) by (vm_compute; reflexivity).
  pose proof (watcher_refines example_answer example_clock true (lit "conf/gw.yaml") true true example_setup 10 example_ops) as H.
  rewrite E0, E1 in H. split; [exact E0|]. split; [exact E1|]. split; [reflexivity|]. apply H. vm_compute. reflexivity.
Defined.

(** A batch of inotify events is decoded and handled event by event: on the
    bytes of any list of complete events the two nested loops end, with fuel for
    two turns per event, and do what reacting to the events one by one does
    (renew the watch on an event that ends it, ask for a reload on a change of the
    configuration file in the watched directory, ignore the rest), provided the
    kernel does not hand out the descriptor of a watch that ended again. *)
Theorem inotify_batch (answer : nat -> Z) (clock : Z -> Z) es fuel w :
  Forall valid_event es -> Forall (not_reused answer) es -> (2 * length es < fuel)%nat ->
  HandleInotify answer clock fuel [Data (concat (encode <$> es))] w = react_all answer clock es w.
Proof.
  intros Hv Hn Hf. simpl. unfold bind. pose proof (event_loop_batch answer clock es [] fuel w Hv Hn Hf) as HE.
  simpl in HE. rewrite HE. unfold and_true, bind. by destruct (react_all answer clock es w) as [[] ?|?| |].
Qed.

Definition example_batch : list inotify_event := [example_moved; example_deleted; example_moved].
Definition example_handled : t :=
  Eval vm_compute in final (react_all (fun _ => 2) example_clock example_batch example_start).

Lemma inotify_batch_witness :
  HandleInotify (fun _ => 2) example_clock 7 [Data (concat (encode <$> example_batch))] example_start = Ret tt example_handled /\
  watch_descriptor_ example_handled = 2 /\
  log example_handled = [EOpen 5; EWatch 1; EOpen 6; ENote 100000000; ELost; ERewatch 2; ENote 200000000].
Proof.
  split; [|split; reflexivity]. rewrite inotify_batch; [vm_compute; reflexivity| | |simpl; lia].
  - repeat constructor; vm_compute; intros; discriminate.
  - repeat constructor; vm_compute; intros; discriminate.
Defined.

(** Moving the watched directory stops the control loop: with the working
    directory watched ([directory_] is "."), IN_MOVE_SELF arrives, the new watch
    has the old descriptor, and [HandleInotify] never returns. *)
Theorem move_self_diverges (clock : Z -> Z) fuel d w :
  0 <= d < 2147483648 -> watch_descriptor_ w = d ->
  forall a w', HandleInotify (fun _ => d) clock fuel [Data (encode (mkEvent d IN_MOVE_SELF 0 []))] w <> Ret a w'.
Proof.
  intros Hd Hw a w'. cbn [HandleInotify]. unfold bind.
  pose proof (event_loop_diverges (fun _ => d) clock fuel (mkEvent d IN_MOVE_SELF 0 []) w) as HE.
  destruct (event_loop _ _ _ _ _ _) as [b w1|w1| |]; [|done|done|done]. exfalso. by eapply HE; [split; simpl; unfold IN_MOVE_SELF; mlia| | | |simpl; lia|].
Qed.

End ReloadWatcher.
