(* ===== verification/EventLoop.v ===== *)
(** * The event loop and its channels

    Models src/src/net/EventLoop.cpp and src/src/net/Channel.cpp: registrations
    of channels under tokens that are never reused, the dispatch of a batch of
    epoll events, deferred tasks and [Quit].  The state has the channel objects
    that exist and the place [Loop] is at; what runs inside a callback or a task
    is any sequence of operations.  What epoll answers is given with each
    operation: the batches of (token, events) are arbitrary, stale and unknown
    tokens included. *)

From S2P Require Import Prelude.

Module EventLoop.

(** ** Channels *)

Definition EPOLLIN : Z := 1.
Definition EPOLLOUT : Z := 4.
Definition EPOLLERR : Z := 8.
Definition EPOLLHUP : Z := 16.
Definition EPOLLRDHUP : Z := 8192.

(** Of a callback only whether it is set. *)
Record channel := mkChannel {
  fd_ : Z;
  events_ : Z;
  registration_token_ : Z;
  added_ : bool;
  read_callback_ : bool;
  write_callback_ : bool
}.

Definition Channel (fd : Z) : channel := mkChannel fd 0 0 false false false.
Definition SetReadCallback (b : bool) (c : channel) : channel :=
  mkChannel (fd_ c) (events_ c) (registration_token_ c) (added_ c) b (write_callback_ c).
Definition SetWriteCallback (b : bool) (c : channel) : channel :=
  mkChannel (fd_ c) (events_ c) (registration_token_ c) (added_ c) (read_callback_ c) b.
Definition with_events (e : Z) (c : channel) : channel :=
  mkChannel (fd_ c) e (registration_token_ c) (added_ c) (read_callback_ c) (write_callback_ c).
Definition with_token (t : Z) (b : bool) (c : channel) : channel :=
  mkChannel (fd_ c) (events_ c) t b (read_callback_ c) (write_callback_ c).

(** [events_ &= ~mask] *)
Definition clear (mask e : Z) : Z := Z.ldiff e mask.

(** What the interest becomes. *)
Definition EnableReading (e : Z) : Z := Z.lor e (Z.lor EPOLLIN EPOLLRDHUP).
Definition DisableReading (e : Z) : Z :=
  let e := clear EPOLLIN e in
  if Z.land e EPOLLOUT =? 0 then clear EPOLLRDHUP e else e.
Definition EnableWriting (e : Z) : Z := Z.lor e EPOLLOUT.
Definition DisableWriting (e : Z) : Z :=
  let e := clear EPOLLOUT e in
  if Z.land e EPOLLIN =? 0 then clear EPOLLRDHUP e else e.
Definition DisableAll (e : Z) : Z := 0.

(** Which callback [HandleEvent] calls. *)
Inductive handler := Read | Write.
Definition HandleEvent (events : Z) (c : channel) : option handler :=
  if negb (Z.land events (Z.lor (Z.lor (Z.lor EPOLLIN EPOLLERR) EPOLLHUP) EPOLLRDHUP) =? 0) && read_callback_ c then Some Read
  else if negb (Z.land events EPOLLOUT =? 0) && write_callback_ c then Some Write
  else None.

(** ** The loop *)

(** Where [Loop] is: not running, before [epoll_wait], with events left to
    dispatch, inside a channel's callback, with tasks of a round left to run,
    inside a task. *)
Inductive place :=
| Idle
| Top
| Batch (rest : list (Z * Z))
| Callback (c : nat) (rest : list (Z * Z))
| Drain (deferred : list nat)
| Task (rest : list nat).

(** What happens; [EDangling]: an event goes to a channel that was destroyed. *)
Inductive event :=
| EAdd (c : nat) (token mask : Z)
| EModify (c : nat) (token mask : Z)
| EDelete (c : nat) (token : Z)
| EDestroy (c : nat)
| ELoop
| EWait
| ECall (c : nat) (token : Z) (h : handler)
| EReturn
| EDangling
| EQueue (task : nat)
| ERun (task : nat)
| EThrow (lost : list nat)
| EExit.

(** [channels]: the objects that exist; [now_at] and [log] are the model's. *)
Record t := mk {
  quit_ : bool;
  dispatching_event_ : bool;
  next_registration_token_ : Z;
  registrations_ : gmap Z nat;
  deferred_tasks_ : list nat;
  channels : gmap nat channel;
  now_at : place;
  log : list event
}.

Definition make : t := mk false false 1 ∅ [] ∅ Idle [].

Definition with_quit (b : bool) (w : t) : t :=
  mk b (dispatching_event_ w) (next_registration_token_ w) (registrations_ w) (deferred_tasks_ w) (channels w) (now_at w) (log w).
Definition with_dispatching (b : bool) (w : t) : t :=
  mk (quit_ w) b (next_registration_token_ w) (registrations_ w) (deferred_tasks_ w) (channels w) (now_at w) (log w).
Definition with_registrations (n : Z) (m : gmap Z nat) (w : t) : t :=
  mk (quit_ w) (dispatching_event_ w) n m (deferred_tasks_ w) (channels w) (now_at w) (log w).
Definition with_deferred (l : list nat) (w : t) : t :=
  mk (quit_ w) (dispatching_event_ w) (next_registration_token_ w) (registrations_ w) l (channels w) (now_at w) (log w).
Definition with_channels (m : gmap nat channel) (w : t) : t :=
  mk (quit_ w) (dispatching_event_ w) (next_registration_token_ w) (registrations_ w) (deferred_tasks_ w) m (now_at w) (log w).
Definition goto (p : place) (w : t) : t :=
  mk (quit_ w) (dispatching_event_ w) (next_registration_token_ w) (registrations_ w) (deferred_tasks_ w) (channels w) p (log w).
Definition say (e : event) (w : t) : t :=
  mk (quit_ w) (dispatching_event_ w) (next_registration_token_ w) (registrations_ w) (deferred_tasks_ w) (channels w) (now_at w) (log w ++ [e]).

Definition put (c : nat) (ch : channel) (w : t) : t := with_channels (<[ c := ch ]> (channels w)) w.

(** [UpdateChannel]; [ctl]: [epoll_ctl] succeeds.  The state after an exception
    is the one the code leaves. *)
Definition UpdateChannel (ctl : bool) (c : nat) (ch : channel) (w : t) : t :=
  if added_ ch then
    if ctl then say (EModify c (registration_token_ ch) (events_ ch)) w else w
  else if next_registration_token_ w =? 0 then w
  else
    let token := next_registration_token_ w in
    let w := with_registrations (token +u64 1)%machine (<[ token := c ]> (registrations_ w)) w in
    if ctl then say (EAdd c token (events_ ch)) (put c (with_token token true ch) w)
    else put c (with_token 0 false ch) (with_registrations (next_registration_token_ w) (delete token (registrations_ w)) w).

(** [RemoveChannel]: the bookkeeping is undone whether [epoll_ctl] succeeds or
    not. *)
Definition RemoveChannel (c : nat) (ch : channel) (w : t) : t :=
  if negb (added_ ch) then w
  else
    let token := registration_token_ ch in
    say (EDelete c token)
        (put c (with_token 0 false ch) (with_registrations (next_registration_token_ w) (delete token (registrations_ w)) w)).

Definition UpdateOrRemove (ctl : bool) (c : nat) (ch : channel) (w : t) : t :=
  if events_ ch =? 0 then RemoveChannel c ch w else UpdateChannel ctl c ch w.

(** [events_] changes, then the registration. *)
Definition set_interest (f : Z -> Z) (ctl : bool) (c : nat) (ch : channel) (w : t) : t :=
  let ch := with_events (f (events_ ch)) ch in
  UpdateOrRemove ctl c ch (put c ch w).

(** The destructor swallows what [DisableAll] throws. *)
Definition destroy (c : nat) (ch : channel) (w : t) : t :=
  let w := if added_ ch then set_interest DisableAll true c ch w else w in
  say (EDestroy c) (with_channels (delete c (channels w)) w).

(** [owner]: on the loop's thread, otherwise [std::logic_error]. *)
Definition QueueAfterCurrentBatch (owner : bool) (task : nat) (w : t) : t :=
  if owner then say (EQueue task) (with_deferred (deferred_tasks_ w ++ [task]) w) else w.

Definition Quit (w : t) : t := with_quit true w.

(** ** Operations *)

Inductive interest := IEnableReading | IDisableReading | IEnableWriting | IDisableWriting | IDisableAll.
Definition new_interest (i : interest) : Z -> Z :=
  match i with
  | IEnableReading => EnableReading
  | IDisableReading => DisableReading
  | IEnableWriting => EnableWriting
  | IDisableWriting => DisableWriting
  | IDisableAll => DisableAll
  end.

(** What code outside the loop, a callback or a task does. *)
Inductive action :=
| AConstruct (c : nat) (fd : Z)
| ACallbacks (c : nat) (read write : bool)
| AInterest (c : nat) (i : interest) (ctl : bool)
| ARemove (c : nat)
| ADestroy (c : nat)
| AQueue (owner : bool) (task : nat)
| AQuit.

(** [None]: a channel that does not exist is used.  A callback may destroy its
    own channel: [HandleEvent] and the loop touch neither the channel nor its
    registration after a callback returns. *)
Definition act (a : action) (w : t) : option t :=
  match a with
  | AConstruct c fd => if channels w !! c is Some _ then None else Some (put c (Channel fd) w)
  | ACallbacks c r wr => ch ← channels w !! c; Some (put c (SetWriteCallback wr (SetReadCallback r ch)) w)
  | AInterest c i ctl => ch ← channels w !! c; Some (set_interest (new_interest i) ctl c ch w)
  | ARemove c => ch ← channels w !! c; Some (RemoveChannel c ch w)
  | ADestroy c => ch ← channels w !! c; Some (destroy c ch w)
  | AQueue owner task => Some (QueueAfterCurrentBatch owner task w)
  | AQuit => Some (Quit w)
  end.

(** The dispatch of one event. *)
Definition dispatch (token events : Z) (rest : list (Z * Z)) (w : t) : t :=
  match registrations_ w !! token with
  | None => goto (Batch rest) w
  | Some c =>
      match channels w !! c with
      | None => say EDangling (goto (Batch rest) w)
      | Some ch =>
          match HandleEvent events ch with
          | None => goto (Batch rest) w
          | Some h => say (ECall c token h) (with_dispatching true (goto (Callback c rest) w))
          end
      end
  end.

(** [OLoop]: [Loop] is called.  [OWait]: [epoll_wait] returns events, or fails.
    [OStep]: the loop goes on.  [OReturn], [OThrow]: the callback or task
    returns, or an exception leaves it (and [Loop]). *)
Inductive op := OAct (a : action) | OLoop | OWait (events : option (list (Z * Z))) | OStep | OReturn | OThrow.

Definition exec (o : op) (w : t) : option t :=
  match o, now_at w with
  | OAct a, (Idle | Callback _ _ | Task _) => act a w
  | OLoop, Idle => Some (say ELoop (goto Top (with_quit false w)))
  | OWait (Some events), Top =>
      if quit_ w then None else if bool_decide (length events <= 16)%nat then Some (say EWait (goto (Batch events) w)) else None
  | OWait None, Top => if quit_ w then None else Some (say (EThrow []) (goto Idle w))
  | OStep, Top => if quit_ w then Some (say EExit (goto Idle w)) else None
  | OStep, Batch ((token, events) :: rest) => Some (dispatch token events rest w)
  | OStep, Batch [] => Some (goto (Drain []) w)
  | OStep, Drain (task :: rest) => Some (say (ERun task) (goto (Task rest) w))
  | OStep, Drain [] =>
      match deferred_tasks_ w with
      | [] => Some (goto Top w)
      | deferred => Some (goto (Drain deferred) (with_deferred [] w))
      end
  | OReturn, Callback _ rest =>
      Some (say EReturn (with_dispatching false (goto (if quit_ w then Drain [] else Batch rest) w)))
  | OReturn, Task rest => Some (say EReturn (goto (Drain rest) w))
  | OThrow, Callback _ _ => Some (say (EThrow []) (with_dispatching false (goto Idle w)))
  | OThrow, Task rest => Some (say (EThrow rest) (goto Idle w))
  | _, _ => None
  end.

Fixpoint run (os : list op) (w : t) : option t :=
  match os with
  | [] => Some w
  | o :: os => w ← exec o w; run os w
  end.

(** ** The specification

    [active]: the registrations, by token, with the interest epoll has;
    [fresh]: tokens below it are used up; [busy]: the callback ([Some c]) or the
    task ([None]) that runs; [pending]: the deferred tasks in order; [first]: the
    loop was entered and has not waited yet. *)
Record view := View {
  active : gmap Z (nat * Z);
  fresh : Z;
  busy : option (option nat);
  pending : list nat;
  first : bool
}.

Definition unregistered (c : nat) (m : gmap Z (nat * Z)) : Prop := map_Forall (fun _ r => r.1 <> c) m.

Definition guard_view (P : Prop) `{Decision P} (v : view) : option view := if decide P then Some v else None.

(** A token is given out once.  A callback runs only for a registration that is
    active at that moment; a channel goes only when it has none.  Deferred tasks
    run in order, once, outside callbacks, and all of them before the loop waits
    again or returns. *)
Definition view_step (v : view) (e : event) : option view :=
  let '(View a f b p s) := v in
  match e with
  | EAdd c t m => guard_view (f <= t /\ unregistered c a) (View (<[ t := (c, m) ]> a) (t + 1) b p s)
  | EModify c t m => guard_view (fst <$> a !! t = Some c) (View (<[ t := (c, m) ]> a) f b p s)
  | EDelete c t => guard_view (fst <$> a !! t = Some c) (View (delete t a) f b p s)
  | EDestroy c => guard_view (unregistered c a) v
  | ELoop => guard_view (b = None) (View a f b p true)
  | EWait => guard_view (b = None /\ (s = false -> p = [])) (View a f b p false)
  | ECall c t _ => guard_view (b = None /\ fst <$> a !! t = Some c) (View a f (Some (Some c)) p s)
  | EReturn => guard_view (b <> None) (View a f None p s)
  | EDangling => None
  | EQueue k => Some (View a f b (p ++ [k]) s)
  | ERun k => guard_view (b = None /\ head p = Some k) (View a f (Some None) (tail p) s)
  | EThrow lost => guard_view (take (length lost) p = lost) (View a f None (drop (length lost) p) s)
  | EExit => guard_view (b = None /\ p = []) v
  end.

Definition born : view := View ∅ 1 None [] false.

Abbreviation replay := (accepts view_step born).

Lemma guard_view_Some (P : Prop) `{Decision P} v : P -> guard_view P v = Some v.
Proof. intros. unfold guard_view. by rewrite decide_True. Qed.

(** ** The invariant *)

Definition running (p : place) : option (option nat) :=
  match p with Callback c _ => Some (Some c) | Task _ => Some None | _ => None end.
Definition round (p : place) : list nat := match p with Drain l | Task l => l | _ => [] end.

Definition limit (w : t) : Z := if next_registration_token_ w =? 0 then u64_modulus else next_registration_token_ w.

(** The interests a channel can have. *)
Definition interests : list Z := [0; 4; 8193; 8196; 8197].

Record represents (w : t) (v : view) : Prop := {
  r_replay : replay (log w) = Some v;
  r_tokens : forall t c, registrations_ w !! t = Some c <-> exists m, active v !! t = Some (c, m);
  r_channel : forall t c m, active v !! t = Some (c, m) ->
    exists ch, channels w !! c = Some ch /\ added_ ch = true /\ registration_token_ ch = t;
  r_added : forall c ch, channels w !! c = Some ch -> added_ ch = true ->
    exists m, active v !! registration_token_ ch = Some (c, m);
  r_fresh : forall t x, active v !! t = Some x -> t < fresh v;
  r_limit : 0 < fresh v <= limit w /\ is_u64 (next_registration_token_ w);
  r_interest : forall c ch, channels w !! c = Some ch -> events_ ch ∈ interests;
  r_busy : busy v = running (now_at w);
  r_flag : dispatching_event_ w = match now_at w with Callback _ _ => true | _ => false end;
  r_pending : pending v = round (now_at w) ++ deferred_tasks_ w;
  r_first : first v = true -> now_at w = Top \/ now_at w = Idle;
  r_top : now_at w = Top -> if first v then quit_ w = false else deferred_tasks_ w = []
}.

Lemma unregistered_spec c m : unregistered c m <-> forall t x, m !! t = Some (c, x) -> False.
Proof.
  split.
  - intros H t x Ht. by apply (H t (c, x) Ht).
  - intros H t [c' x] Ht E. simpl in E. subst. by apply (H t x).
Qed.

(** *** Registrations *)

(** A channel changes without its registration. *)
Lemma put_represents w v c ch ch' :
  represents w v -> channels w !! c = Some ch ->
  added_ ch' = added_ ch -> (added_ ch = true -> registration_token_ ch' = registration_token_ ch) -> events_ ch' ∈ interests ->
  represents (put c ch' w) v.
Proof.
  intros [] Hc Ha Ht He. split; simpl; try done.
  - intros t c1 m Hm. destruct (r_channel0 t c1 m Hm) as (ch1 & H1 & H2 & H3).
    destruct (decide (c1 = c)) as [->|Hne]; [|exists ch1; by rewrite lookup_insert_ne].
    exists ch'. rewrite lookup_insert_eq. split; [done|]. rewrite Hc in H1. injection H1 as <-. by rewrite Ha, Ht.
  - intros c1 ch1 H1 H2. destruct (decide (c1 = c)) as [->|Hne].
    + rewrite lookup_insert_eq in H1. injection H1 as <-. rewrite Ha in H2. rewrite Ht by done. by apply r_added0.
    + rewrite lookup_insert_ne in H1 by done. by apply r_added0.
  - intros c1 ch1 H1. destruct (decide (c1 = c)) as [->|Hne].
    + rewrite lookup_insert_eq in H1. by injection H1 as <-.
    + rewrite lookup_insert_ne in H1 by done. eauto.
Qed.

Lemma not_added_unregistered w v c ch :
  represents w v -> channels w !! c = Some ch -> added_ ch = false -> unregistered c (active v).
Proof.
  intros Hr Hc Ha. apply unregistered_spec. intros t x Ht.
  destruct (r_channel _ _ Hr _ _ _ Ht) as (ch1 & H1 & H2 & _). rewrite Hc in H1. injection H1 as <-. congruence.
Qed.

Definition with_active (a : gmap Z (nat * Z)) (f : Z) (v : view) : view := View a f (busy v) (pending v) (first v).

Lemma RemoveChannel_represents w v c ch :
  represents w v -> channels w !! c = Some ch ->
  exists v', represents (RemoveChannel c ch w) v' /\ (added_ ch = true -> v' = with_active (delete (registration_token_ ch) (active v)) (fresh v) v).
Proof.
  intros Hr Hc. unfold RemoveChannel. destruct (added_ ch) eqn:Ha; simpl; [|exists v; split; [done|by intros ?]].
  destruct (r_added _ _ Hr c ch Hc Ha) as (m & Hm). eexists. split; [|by intros _].
  assert (Hone : forall t c' m', active v !! t = Some (c', m') -> c' = c -> t = registration_token_ ch).
  { intros t c' m' Ht ->. destruct (r_channel _ _ Hr _ _ _ Ht) as (ch1 & H1 & _ & <-). rewrite Hc in H1. by injection H1 as <-. }
  destruct Hr. split; simpl; try done.
  - rewrite accepts_snoc, r_replay0. destruct v; simpl in *. by rewrite guard_view_Some by (by rewrite Hm).
  - intros t c'. destruct (decide (t = registration_token_ ch)) as [->|Hne].
    + rewrite !lookup_delete_eq. split; [done|by intros (? & ?)].
    + by rewrite !lookup_delete_ne by done.
  - intros t c' m' Ht. destruct (decide (t = registration_token_ ch)) as [->|Hne]; [by rewrite lookup_delete_eq in Ht|].
    rewrite lookup_delete_ne in Ht by done. destruct (r_channel0 _ _ _ Ht) as (ch1 & H1 & H2 & H3). exists ch1.
    rewrite lookup_insert_ne; [done|]. intros ->. by eapply Hne, Hone.
  - intros c' ch' Hch Ha'. destruct (decide (c' = c)) as [->|Hne]; [rewrite lookup_insert_eq in Hch; by injection Hch as <-|].
    rewrite lookup_insert_ne in Hch by done. destruct (r_added0 _ _ Hch Ha') as (m' & Hm'). exists m'.
    rewrite lookup_delete_ne; [done|]. intros He. rewrite <- He in Hm'. congruence.
  - intros t x Ht. apply lookup_delete_Some in Ht as [_ Ht]. eauto.
  - intros c' ch' Hch. destruct (decide (c' = c)) as [->|Hne]; [rewrite lookup_insert_eq in Hch; injection Hch as <-; simpl; eauto|].
    rewrite lookup_insert_ne in Hch by done. eauto.
Qed.

Lemma modify_represents w v c ch :
  represents w v -> channels w !! c = Some ch -> added_ ch = true ->
  represents (say (EModify c (registration_token_ ch) (events_ ch)) w)
             (with_active (<[ registration_token_ ch := (c, events_ ch) ]> (active v)) (fresh v) v).
Proof.
  intros Hr Hc Ha. destruct (r_added _ _ Hr c ch Hc Ha) as (m & Hm). destruct Hr. split; simpl; try done.
  - rewrite accepts_snoc, r_replay0. destruct v; simpl in *. by rewrite guard_view_Some by (by rewrite Hm).
  - intros t c'. rewrite r_tokens0. destruct (decide (t = registration_token_ ch)) as [->|Hne].
    + rewrite lookup_insert_eq, Hm. split; intros (m' & E); inversion E; by eexists.
    + by rewrite lookup_insert_ne.
  - intros t c' m'. destruct (decide (t = registration_token_ ch)) as [->|Hne].
    + rewrite lookup_insert_eq. intros [= <- <-]. by exists ch.
    + rewrite lookup_insert_ne by done. apply r_channel0.
  - intros c' ch' H1 H2. destruct (r_added0 c' ch' H1 H2) as (m' & Hm').
    destruct (decide (registration_token_ ch' = registration_token_ ch)) as [E|Hne].
    + rewrite E in *. rewrite Hm in Hm'. injection Hm' as -> ->. rewrite lookup_insert_eq. by eexists.
    + rewrite lookup_insert_ne by done. by eexists.
  - intros t x. destruct (decide (t = registration_token_ ch)) as [->|Hne]; [intros _; by eapply r_fresh0|].
    rewrite lookup_insert_ne by done. apply r_fresh0.
Qed.

(** The next token is unused and the one after it too. *)
Lemma next_token_free w v :
  represents w v -> next_registration_token_ w <> 0 ->
  fresh v <= next_registration_token_ w /\ active v !! next_registration_token_ w = None /\
  registrations_ w !! next_registration_token_ w = None /\
  next_registration_token_ w + 1 <= (if wrap_u64 (next_registration_token_ w + 1) =? 0 then u64_modulus
                                     else wrap_u64 (next_registration_token_ w + 1)).
Proof.
  intros Hr Hn. pose proof (r_limit _ _ Hr) as [Hf Hn64]. unfold limit in Hf.
  destruct (Z.eqb_spec (next_registration_token_ w) 0); [done|].
  assert (Hfree : active v !! next_registration_token_ w = None).
  { destruct (active v !! next_registration_token_ w) as [x|] eqn:E; [|done]. apply (r_fresh _ _ Hr) in E. lia. }
  split_and!; [lia|done| |].
  - destruct (registrations_ w !! _) as [c'|] eqn:E; [|done]. apply (r_tokens _ _ Hr) in E as (m & E). congruence.
  - destruct (Z.eqb_spec (wrap_u64 (next_registration_token_ w + 1)) 0) as [|Hz]; [mlia|].
    destruct (decide (next_registration_token_ w + 1 = u64_modulus)) as [E|E]; [by rewrite E in Hz|].
    rewrite wrap_u64_small by mlia. lia.
Qed.

Lemma add_represents w v c ch :
  represents w v -> channels w !! c = Some ch -> added_ ch = false -> next_registration_token_ w <> 0 ->
  let token := next_registration_token_ w in
  represents (say (EAdd c token (events_ ch)) (put c (with_token token true ch)
               (with_registrations (wrap_u64 (token + 1)) (<[ token := c ]> (registrations_ w)) w)))
             (with_active (<[ token := (c, events_ ch) ]> (active v)) (token + 1) v).
Proof.
  intros Hr Hc Ha Hn token. pose proof (not_added_unregistered _ _ _ _ Hr Hc Ha) as Hu.
  destruct (next_token_free w v Hr Hn) as (Hlim & Hfree & _ & Hl'). fold token in Hlim, Hfree, Hl'. clearbody token.
  pose proof (r_limit _ _ Hr) as [Hf _]. destruct Hr. split; simpl; try done.
  - rewrite accepts_snoc, r_replay0. destruct v; simpl in *. by rewrite guard_view_Some.
  - intros t c'. destruct (decide (t = token)) as [->|Hne]; [|by rewrite !lookup_insert_ne].
    rewrite !lookup_insert_eq. split; [intros [= <-]; by eexists|by intros (m & [= <- <-])].
  - intros t c' m'. destruct (decide (t = token)) as [->|Hne].
    + rewrite lookup_insert_eq. intros [= <- <-]. eexists. by rewrite lookup_insert_eq.
    + rewrite lookup_insert_ne by done. intros Ht. rewrite lookup_insert_ne; [by apply (r_channel0 t c' m')|].
      intros ->. by apply (proj1 (unregistered_spec c' (active v)) Hu t m').
  - intros c' ch' H1 H2. destruct (decide (c' = c)) as [->|Hne].
    + rewrite lookup_insert_eq in H1. injection H1 as <-. simpl. rewrite lookup_insert_eq. by eexists.
    + rewrite lookup_insert_ne in H1 by done. destruct (r_added0 c' ch' H1 H2) as (m' & Hm'). exists m'.
      rewrite lookup_insert_ne; [done|]. intros E. rewrite <- E in Hm'. congruence.
  - intros t x. destruct (decide (t = token)) as [->|Hne]; [lia|]. rewrite lookup_insert_ne by done.
    intros Ht%r_fresh0. lia.
  - split; [|simpl; auto with aegis]. unfold limit; simpl. lia.
  - intros c' ch' H1. destruct (decide (c' = c)) as [->|Hne].
    + rewrite lookup_insert_eq in H1. injection H1 as <-. simpl. eauto.
    + rewrite lookup_insert_ne in H1 by done. eauto.
Qed.

Lemma UpdateChannel_represents ctl w v c ch :
  represents w v -> channels w !! c = Some ch -> exists v', represents (UpdateChannel ctl c ch w) v'.
Proof.
  intros Hr Hc. unfold UpdateChannel. destruct (added_ ch) eqn:Ha.
  - destruct ctl; [|by eexists]. eexists. by apply modify_represents.
  - destruct (Z.eqb_spec (next_registration_token_ w) 0) as [Hn|Hn]; [by eexists|].
    destruct ctl; [eexists; by apply add_represents|]. exists v. simpl.
    destruct (next_token_free w v Hr Hn) as (Hlim & _ & Hno & Hl').
    rewrite delete_insert_id by done. apply (put_represents _ _ c ch); simpl; [|done|done|by rewrite Ha|by apply (r_interest _ _ Hr c)].
    pose proof (r_limit _ _ Hr) as [Hf _]. destruct Hr. split; try done. split; [|simpl; auto with aegis]. unfold limit; simpl. lia.
Qed.

Lemma interests_closed i e : e ∈ interests -> new_interest i e ∈ interests.
Proof.
  unfold interests. rewrite !elem_of_cons, elem_of_nil.
  intros [->|[->|[->|[->|[->|[]]]]]]; destruct i; vm_compute; tauto.
Qed.

Lemma set_interest_represents i ctl w v c ch :
  represents w v -> channels w !! c = Some ch -> exists v', represents (set_interest (new_interest i) ctl c ch w) v'.
Proof.
  intros Hr Hc. unfold set_interest, UpdateOrRemove. set (ch' := with_events _ ch).
  assert (Hp : represents (put c ch' w) v).
  { apply (put_represents _ _ c ch); try done. simpl. by eapply interests_closed, r_interest. }
  assert (Hc' : channels (put c ch' w) !! c = Some ch') by (simpl; apply lookup_insert_eq).
  destruct (_ =? 0); [|by eapply UpdateChannel_represents].
  destruct (RemoveChannel_represents _ _ _ _ Hp Hc') as (v' & Hv' & _). eauto.
Qed.

(** An object without a registration goes. *)
Lemma erase_represents w v c :
  represents w v -> unregistered c (active v) ->
  represents (say (EDestroy c) (with_channels (delete c (channels w)) w)) v.
Proof.
  intros Hr Hu. rewrite unregistered_spec in Hu. destruct Hr. split; simpl; try done.
  - rewrite accepts_snoc, r_replay0. destruct v; simpl in *. rewrite guard_view_Some; [done|]. by apply unregistered_spec.
  - intros t c' m Ht. destruct (r_channel0 _ _ _ Ht) as (ch & H1 & H2). exists ch.
    rewrite lookup_delete_ne; [done|]. intros <-. by eapply Hu.
  - intros c' ch Hc'. apply lookup_delete_Some in Hc' as [_ Hc']. eauto.
  - intros c' ch Hc'. apply lookup_delete_Some in Hc' as [_ Hc']. eauto.
Qed.

Lemma destroy_represents w v c ch :
  represents w v -> channels w !! c = Some ch -> exists v', represents (destroy c ch w) v'.
Proof.
  intros Hr Hc. unfold destroy. destruct (added_ ch) eqn:Ha.
  - unfold set_interest, UpdateOrRemove. simpl. set (ch' := with_events (DisableAll (events_ ch)) ch).
    assert (Hp : represents (put c ch' w) v) by (apply (put_represents _ _ c ch); try done; by apply list_elem_of_here).
    destruct (RemoveChannel_represents (put c ch' w) v c ch' Hp) as (v' & Hv' & E); [simpl; apply lookup_insert_eq|].
    specialize (E Ha). exists v'. apply erase_represents; [done|].
    rewrite E. apply unregistered_spec. simpl. intros t x [Hne Ht]%lookup_delete_Some.
    destruct (r_channel _ _ Hr _ _ _ Ht) as (ch1 & H1 & _ & H3). rewrite Hc in H1. injection H1 as <-. done.
  - exists v. apply erase_represents; [done|]. by eapply not_added_unregistered.
Qed.

(** *** The loop *)

Lemma construct_represents w v c fd : represents w v -> channels w !! c = None -> represents (put c (Channel fd) w) v.
Proof.
  intros Hr Hc. destruct Hr. split; simpl; try done.
  - intros t c' m Ht. destruct (r_channel0 _ _ _ Ht) as (ch & H1 & H2). exists ch. rewrite lookup_insert_ne; [done|].
    by intros ->; rewrite Hc in H1.
  - intros c' ch' H1 H2. destruct (decide (c' = c)) as [->|Hne]; [rewrite lookup_insert_eq in H1; by injection H1 as <-|].
    rewrite lookup_insert_ne in H1 by done. eauto.
  - intros c' ch' H1. destruct (decide (c' = c)) as [->|Hne]; [rewrite lookup_insert_eq in H1; injection H1 as <-; apply list_elem_of_here|].
    rewrite lookup_insert_ne in H1 by done. eauto.
Qed.

Lemma act_represents a w v w' :
  represents w v -> now_at w <> Top -> act a w = Some w' -> exists v', represents w' v'.
Proof.
  intros Hr Ht. destruct a as [c fd|c r wr|c i ctl|c|c|owner k|]; simpl; try destruct (channels w !! c) as [ch|] eqn:Hc; try done; simpl.
  - intros [= <-]. exists v. by apply construct_represents.
  - intros [= <-]. exists v. apply (put_represents _ _ c ch); try done. exact (r_interest _ _ Hr c ch Hc).
  - intros [= <-]. by eapply set_interest_represents.
  - intros [= <-]. destruct (RemoveChannel_represents _ _ _ _ Hr Hc) as (v' & Hv' & _). eauto.
  - intros [= <-]. by eapply destroy_represents.
  - intros [= <-]. unfold QueueAfterCurrentBatch. destruct owner; [|by eexists].
    exists (View (active v) (fresh v) (busy v) (pending v ++ [k]) (first v)). destruct Hr. split; simpl; try done.
    + rewrite accepts_snoc, r_replay0. by destruct v.
    + by rewrite r_pending0, app_assoc.
  - intros [= <-]. exists v. destruct Hr. by split.
Qed.

(** The loop moves on without changing registrations: what remains to show is
    about the control state. *)
Lemma control_represents w v w' v' :
  represents w v ->
  next_registration_token_ w' = next_registration_token_ w -> registrations_ w' = registrations_ w ->
  channels w' = channels w -> active v' = active v -> fresh v' = fresh v ->
  replay (log w') = Some v' -> busy v' = running (now_at w') ->
  dispatching_event_ w' = match now_at w' with Callback _ _ => true | _ => false end ->
  pending v' = round (now_at w') ++ deferred_tasks_ w' ->
  (first v' = true -> now_at w' = Top \/ now_at w' = Idle) ->
  (now_at w' = Top -> if first v' then quit_ w' = false else deferred_tasks_ w' = []) ->
  represents w' v'.
Proof.
  intros [] E1 E2 E3 E4 E5. intros. split; try done; unfold limit; rewrite ?E1, ?E2, ?E3, ?E4, ?E5; done.
Qed.

Lemma dispatch_represents token events rest w v :
  represents w v -> now_at w = Batch ((token, events) :: rest) -> exists v', represents (dispatch token events rest w) v'.
Proof.
  intros Hr Hn. pose proof (r_busy _ _ Hr) as Hb. pose proof (r_flag _ _ Hr) as Hf. pose proof (r_pending _ _ Hr) as Hp.
  assert (Hs : first v = false).
  { destruct (first v) eqn:E; [|done]. destruct (r_first _ _ Hr E); congruence. }
  rewrite Hn in Hb, Hf, Hp. assert (Hsame : represents (goto (Batch rest) w) v).
  { apply (control_represents w v); try done; [apply (r_replay _ _ Hr)|by rewrite Hs]. }
  unfold dispatch. destruct (registrations_ w !! token) as [c|] eqn:Ht; [|by eexists].
  apply (r_tokens _ _ Hr) in Ht as (m & Ht). destruct (r_channel _ _ Hr _ _ _ Ht) as (ch & -> & _).
  destruct (HandleEvent events ch) as [h|]; [|by eexists].
  exists (View (active v) (fresh v) (Some (Some c)) (pending v) (first v)). apply (control_represents w v); try done; [|simpl; by rewrite Hs].
  simpl. rewrite accepts_snoc, (r_replay _ _ Hr). destruct v; simpl in *. by rewrite guard_view_Some by (by rewrite Ht).
Qed.

(** [go_to v'] takes a transition of the loop to the view [v']. *)
Ltac go_to v' :=
  intros [= <-]; exists v'; eapply control_represents; try done; simpl;
  try (rewrite accepts_snoc; match goal with H : replay _ = _ |- _ => rewrite H end; simpl; rewrite guard_view_Some by (split_and?; done); done).

Lemma exec_represents o w v w' : represents w v -> exec o w = Some w' -> exists v', represents w' v'.
Proof.
  intros Hr. pose proof (r_busy _ _ Hr) as Hb. pose proof (r_flag _ _ Hr) as Hf. pose proof (r_pending _ _ Hr) as Hp.
  pose proof (r_replay _ _ Hr) as Hl. pose proof (r_top _ _ Hr) as Ht. pose proof (r_first _ _ Hr) as Hs.
  assert (Hs' : now_at w <> Top -> now_at w <> Idle -> first v = false).
  { intros H1 H2. destruct (first v); [|done]. by destruct (Hs eq_refl). }
  destruct v as [a f b p s]. simpl in *. unfold exec.
  destruct o as [act| |[evs|]| | |].
  - intros Ha. eapply act_represents; [exact Hr| |]; destruct (now_at w); try done; exact Ha.
  - destruct (now_at w) eqn:Hn; try done. simpl in *; subst. go_to (View a f None (deferred_tasks_ w) true). by left.
  - destruct (now_at w) eqn:Hn; try done. simpl in *; subst. destruct (quit_ w); [done|]. case_bool_decide; [|done].
    specialize (Ht eq_refl). go_to (View a f None (deferred_tasks_ w) false).
    rewrite accepts_snoc, Hl; simpl. rewrite guard_view_Some; [done|]. split; [done|]. by intros ->.
  - destruct (now_at w) eqn:Hn; try done. simpl in *; subst. destruct (quit_ w); [done|].
    go_to (View a f None (deferred_tasks_ w) s). intros _; by right.
  - destruct (now_at w) as [| |[|[token events] rest]|c rest|[|k l]|l] eqn:Hn; try done; simpl in *; subst.
    + destruct (quit_ w) eqn:Hq; [|done]. specialize (Ht eq_refl). destruct s; [done|]. rewrite Ht in *.
      go_to (View a f None [] false).
    + rewrite Hs' in * by done. go_to (View a f None (deferred_tasks_ w) false).
    + intros [= <-]. by eapply dispatch_represents.
    + rewrite Hs' in * by done. destruct (deferred_tasks_ w) as [|k l] eqn:Hd.
      * go_to (View a f None [] false); by rewrite Hd.
      * go_to (View a f None (k :: l) false). by rewrite app_nil_r.
    + rewrite Hs' in * by done. go_to (View a f (Some None) (l ++ deferred_tasks_ w) false).
  - destruct (now_at w) as [| | |c rest| |l] eqn:Hn; try done; simpl in *; subst; rewrite Hs' in * by done.
    + go_to (View a f None (deferred_tasks_ w) false); by destruct (quit_ w).
    + go_to (View a f None (l ++ deferred_tasks_ w) false).
  - destruct (now_at w) as [| | |c rest| |l] eqn:Hn; try done; simpl in *; subst; rewrite Hs' in * by done.
    + go_to (View a f None (deferred_tasks_ w) false).
    + go_to (View a f None (deferred_tasks_ w) false).
      rewrite accepts_snoc, Hl; simpl. rewrite guard_view_Some by apply take_app_length. by rewrite drop_app_length.
Qed.

Lemma make_represents : represents make born.
Proof.
  split; try done.
  - intros t c. simpl. rewrite lookup_empty. split; [done|]. intros (m & Hm). by rewrite lookup_empty in Hm.
Qed.

Lemma run_represents os w v w' : represents w v -> run os w = Some w' -> exists v', represents w' v'.
Proof.
  revert w v; induction os as [|o os IH]; intros w v Hr; simpl; [intros [= <-]; eauto|].
  destruct (exec o w) as [w1|] eqn:E; [|done]. simpl. destruct (exec_represents _ _ _ _ Hr E) as (v1 & Hr1). by apply (IH w1 v1).
Qed.


(** A client closes its channel inside its callback and defers its destruction;
    an upstream connection destroys its own channel inside its callback; a new
    channel on the first descriptor gets another token; the events of the batch
    for the old channels are dropped. *)
Definition example_ops : list op :=
  [ OAct (AConstruct 1 7); OAct (ACallbacks 1 true false); OAct (AInterest 1 IEnableReading true);
    OAct (AConstruct 3 8); OAct (ACallbacks 3 true true); OAct (AInterest 3 IEnableReading true); OLoop;
    OWait (Some [(1, 1); (2, 1); (1, 8193); (2, 8193)]); OStep; OAct (AInterest 1 IDisableAll true); OAct (AQueue true 40);
    OAct (AConstruct 2 7); OAct (ACallbacks 2 true true); OAct (AInterest 2 IEnableReading true); OReturn;
    OStep; OAct (AInterest 3 IDisableAll true); OAct (ADestroy 3); OReturn; OStep; OStep; OStep;
    OStep; OStep; OAct (ADestroy 1); OAct AQuit; OReturn; OStep; OStep ].

Definition example_end : t := Eval vm_compute in default make (run example_ops make).


(** A channel that stops reading while it writes keeps EPOLLRDHUP, so a
    half-closed peer calls its read callback again and again. *)
Theorem write_only_wakes_on_half_close c :
  let interest := DisableReading (EnableWriting (EnableReading 0)) in
  read_callback_ c = true ->
  Z.land interest EPOLLIN = 0 /\ interest = Z.lor EPOLLOUT EPOLLRDHUP /\ HandleEvent EPOLLRDHUP c = Some Read.
Proof. intros interest Hc. split; [done|]. split; [done|]. unfold HandleEvent. by rewrite Hc. Qed.

End EventLoop.
