(* ===== verification/WorkerSet.v ===== *)
(** * The set of workers

    Models src/src/runtime/WorkerSet.cpp over the modelled workers: starting
    all of them or none, stopping, and the round-robin choice of the next one. *)

From S2P Require Import Prelude WorkerRuntime.

Module WorkerSet.

Record t := mk { workers_ : list WorkerRuntime.t; next_ : Z }.

(** [None]: [std::invalid_argument], or a worker could not be constructed. *)
Definition make (count task_capacity : nat) : option t :=
  if bool_decide (count = 0%nat) then None
  else w ← WorkerRuntime.make task_capacity; Some (mk (replicate count w) 0).

Definition size (s : t) : nat := length (workers_ s).

(** [None]: [std::out_of_range]. *)
Definition At (index : nat) (s : t) : option WorkerRuntime.t := workers_ s !! index.

(** The index and the advanced cursor. *)
Definition Next (s : t) : nat * t :=
  (Z.to_nat (next_ s mod Z.of_nat (size s)), mk (workers_ s) (next_ s +u64 1)%machine).

(** [WorkerRuntime::Start]: the thread makes its loop ready, or fails and the
    call throws ([false]). *)
Definition start_worker (loop_ok : bool) (w : WorkerRuntime.t) : option (WorkerRuntime.t * bool) :=
  w ← WorkerRuntime.run [WorkerRuntime.AStart; if loop_ok then WorkerRuntime.AWorker else WorkerRuntime.ACrash; WorkerRuntime.AReady] w;
  Some (w, negb (WorkerRuntime.stopping_ w)).

(** The worker thread runs until it has left its loop. *)
Fixpoint leave (fuel : nat) (w : WorkerRuntime.t) : option WorkerRuntime.t :=
  match WorkerRuntime.worker w with
  | WorkerRuntime.NoThread | WorkerRuntime.Exited => Some w
  | _ => match fuel with
         | O => None
         | S fuel => w ← WorkerRuntime.worker_step w; leave fuel w
         end
  end.

(** [WorkerRuntime::Stop], with the thread's steps until the join. *)
Definition stop_worker (fuel : nat) (w : WorkerRuntime.t) : option WorkerRuntime.t :=
  w ← WorkerRuntime.fire WorkerRuntime.AStop w;
  w ← leave fuel w;
  WorkerRuntime.fire WorkerRuntime.AJoined w.

Fixpoint stop_all (fuel : nat) (ws : list WorkerRuntime.t) : option (list WorkerRuntime.t) :=
  match ws with
  | [] => Some []
  | w :: ws => w ← stop_worker fuel w; ws ← stop_all fuel ws; Some (w :: ws)
  end.

Definition StopAll (fuel : nat) (s : t) : option t := ws ← stop_all fuel (workers_ s); Some (mk ws (next_ s)).

(** [started] are the workers already up; [oks]: how each start ends.  [false]:
    the exception, after the roll-back. *)
Fixpoint start_from (fuel : nat) (started rest : list WorkerRuntime.t) (oks : list bool) : option (list WorkerRuntime.t * bool) :=
  match rest, oks with
  | [], _ => Some (started, true)
  | w :: rest, ok :: oks =>
      '(w, up) ← start_worker ok w;
      if (up : bool) then start_from fuel (started ++ [w]) rest oks
      else stopped ← stop_all fuel started; Some (stopped ++ w :: rest, false)
  | _ :: _, [] => None
  end.

Definition Start (fuel : nat) (oks : list bool) (s : t) : option (t * bool) :=
  '(ws, ok) ← start_from fuel [] (workers_ s) oks; Some (mk ws (next_ s), ok).

(** ** Starting all or none *)

(** The states a worker goes through: made, up and waiting, stopped, failed to
    start, and failed and joined. *)
Definition fresh (cap : nat) : WorkerRuntime.t :=
  WorkerRuntime.mk cap true 0 [] None false false false false WorkerRuntime.NoThread WorkerRuntime.OwnerIdle [] [] [] [] [] 0 false.
Definition up (cap : nat) : WorkerRuntime.t :=
  WorkerRuntime.mk cap true 0 [] None true true true false WorkerRuntime.Parked WorkerRuntime.OwnerIdle [] [] [] [] [] 0 false.
Definition down (cap : nat) : WorkerRuntime.t :=
  WorkerRuntime.mk cap false 0 [] None false true true true WorkerRuntime.Exited WorkerRuntime.OwnerIdle [] [] [] [] [] 1 false.
Definition failed (cap : nat) : WorkerRuntime.t :=
  WorkerRuntime.mk cap true 0 [] None false true true true WorkerRuntime.Exited WorkerRuntime.OwnerIdle [] [] [] [] [] 0 true.

(** Nothing of the worker is left. *)
Definition gone (w : WorkerRuntime.t) : Prop :=
  (WorkerRuntime.worker w = WorkerRuntime.NoThread \/ WorkerRuntime.worker w = WorkerRuntime.Exited) /\
  WorkerRuntime.running_ w = false /\ WorkerRuntime.stopping_ w = true /\ WorkerRuntime.wake_closed w = 1%nat /\
  WorkerRuntime.owner w = WorkerRuntime.OwnerIdle.

Lemma start_worker_up cap : start_worker true (fresh cap) = Some (up cap, true).
Proof. done. Qed.
Lemma start_worker_failed cap : start_worker false (fresh cap) = Some (failed cap, false).
Proof. done. Qed.
Lemma stop_worker_up fuel cap : (6 <= fuel)%nat -> stop_worker fuel (up cap) = Some (down cap).
Proof. intros H. do 6 (destruct fuel as [|fuel]; [lia|]). by destruct fuel. Qed.
Lemma gone_down cap : gone (down cap).
Proof. split_and!; auto. Qed.
Lemma stop_worker_gone fuel cap w :
  (6 <= fuel)%nat -> w ∈ [fresh cap; up cap; down cap; failed cap] -> exists w', stop_worker fuel w = Some w' /\ gone w'.
Proof.
  intros H Hw. set_unfold in Hw. destruct Hw as [->|[->|[->|[->|[]]]]].
  - eexists. split; [by destruct fuel|]. split_and!; auto.
  - rewrite stop_worker_up by done. eexists. split; [done|]. apply gone_down.
  - eexists. split; [by destruct fuel|]. split_and!; auto.
  - eexists. split; [by destruct fuel|]. split_and!; auto.
Qed.

Lemma stop_all_up fuel cap n : (6 <= fuel)%nat -> stop_all fuel (replicate n (up cap)) = Some (replicate n (down cap)).
Proof. intros H. induction n as [|n IH]; [done|]. cbn [replicate stop_all]. rewrite stop_worker_up by done. simpl. by rewrite IH. Qed.

Lemma stop_all_gone fuel cap ws :
  (6 <= fuel)%nat -> Forall (fun w => w ∈ [fresh cap; up cap; down cap; failed cap]) ws ->
  exists ws', stop_all fuel ws = Some ws' /\ Forall gone ws'.
Proof.
  intros H. induction 1 as [|w ws Hw _ (ws' & IH & Hg)]; [by exists []|]. cbn [stop_all].
  destruct (stop_worker_gone fuel cap w H Hw) as (w' & -> & Hw'). simpl. rewrite IH. simpl. eexists. split; [done|]. by constructor.
Qed.

(** How many starts succeed before the first that fails. *)
Fixpoint good_starts (oks : list bool) : nat :=
  match oks with
  | true :: oks => S (good_starts oks)
  | _ => O
  end.

Lemma start_from_spec fuel cap oks n :
  (6 <= fuel)%nat ->
  start_from fuel (replicate n (up cap)) (replicate (length oks) (fresh cap)) oks =
  Some (if forallb id oks then (replicate (n + length oks) (up cap), true)
        else (replicate (n + good_starts oks) (down cap) ++ failed cap :: replicate (length oks - good_starts oks - 1) (fresh cap), false)).
Proof.
  intros H. revert n; induction oks as [|[|] oks IH]; intros n; cbn [length replicate start_from].
  - by rewrite Nat.add_0_r.
  - rewrite start_worker_up. simpl. rewrite <- replicate_cons_app. cbn [replicate]. fold (replicate (S n) (up cap)).
    change (up cap :: replicate n (up cap)) with (replicate (S n) (up cap)). rewrite IH. simpl.
    rewrite <- !Nat.add_succ_comm. by destruct (forallb id oks).
  - rewrite start_worker_failed. simpl. rewrite stop_all_up by done. simpl. by rewrite Nat.add_0_r, Nat.sub_0_r.
Qed.

Lemma good_starts_spec oks : forallb id oks = false -> oks !! good_starts oks = Some false.
Proof. induction oks as [|[|] oks IH]; simpl; auto. done. Qed.

Lemma forallb_id oks : forallb id oks = true <-> Forall (fun b => b = true) oks.
Proof. induction oks as [|b oks IH]; simpl; [by split|]. rewrite andb_true_iff, IH, Forall_cons. done. Qed.

(** The workers start together or not at all: when every worker comes up
    [Start] returns with all of them running; when one fails, the call throws
    after the workers already started were stopped and joined, the failed one has
    left its thread and the later ones were never started; and in every case
    stopping the set ends with no thread and every wake descriptor closed
    exactly once.  Six steps of each thread suffice for its stop. *)
Theorem workers_start_together count cap s oks fuel :
  make count cap = Some s -> length oks = count -> (6 <= fuel)%nat ->
  exists ws ok, Start fuel oks s = Some (mk ws 0, ok) /\ length ws = count /\
    (ok = true <-> Forall (fun b => b = true) oks) /\
    (ok = true -> Forall (fun w => w = up cap) ws) /\
    (ok = false -> exists k, oks !! k = Some false /\
       forall i w, ws !! i = Some w ->
         (i < k -> gone w)%nat /\ (i = k -> w = failed cap) /\ (k < i -> w = fresh cap)%nat) /\
    exists s', StopAll fuel (mk ws 0) = Some s' /\ Forall gone (workers_ s').
Proof.
  intros Hm Hl Hf. unfold make in Hm. case_bool_decide; [done|]. unfold WorkerRuntime.make in Hm.
  case_bool_decide; [done|]. injection Hm as <-. subst. unfold Start. simpl.
  pose proof (start_from_spec fuel cap oks 0 Hf) as HS. cbn [replicate Nat.add] in HS. change (WorkerRuntime.mk _ _ _ _ _ _ _ _ _ _ _ _ _ _ _ _ _ _) with (fresh cap).
  rewrite HS. clear HS. simpl. destruct (forallb id oks) eqn:E.
  - eexists _, _. split; [done|]. split_and!; [by rewrite length_replicate|by rewrite <- forallb_id, E|by intros _; apply Forall_replicate|done|].
    destruct (stop_all_gone fuel cap (replicate (length oks) (up cap)) Hf) as (ws' & Hw & Hg); [apply Forall_replicate; set_solver|].
    unfold StopAll. simpl. rewrite Hw. simpl. eauto.
  - pose proof (good_starts_spec oks E) as Hk. pose proof (lookup_lt_Some _ _ _ Hk) as Hlt. set (k := good_starts oks) in *.
    eexists _, _. split; [done|]. split_and!; [|by rewrite <- forallb_id, E|done| |].
    + rewrite length_app. cbn [length]. rewrite !length_replicate. lia.
    + intros _. exists k. split; [done|]. intros i w Hi.
      apply lookup_app_Some in Hi as [[Hw Hik]%lookup_replicate_1|[Hik Hi]].
      * split_and!; [intros _; rewrite Hw; apply gone_down|lia|lia].
      * rewrite length_replicate in Hik, Hi. destruct (i - k)%nat as [|j] eqn:Ej; simpl in Hi.
        -- injection Hi as <-. split_and!; [lia|done|lia].
        -- apply lookup_replicate_1 in Hi as [-> _]. split_and!; [lia|lia|done].
    + destruct (stop_all_gone fuel cap (replicate k (down cap) ++ failed cap :: replicate (length oks - k - 1) (fresh cap)) Hf) as (ws' & Hw & Hg).
      { apply Forall_app. split; [apply Forall_replicate; set_solver|]. apply Forall_cons. split; [set_solver|]. apply Forall_replicate. set_solver. }
      unfold StopAll. simpl. rewrite Hw. simpl. eauto.
Qed.

Lemma workers_start_together_witness :
  exists s, make 3 4 = Some s /\ Start 6 [true; true; false] s = Some (mk [down 4; down 4; failed 4] 0, false) /\
  exists ws ok, Start 6 [true; true; false] s = Some (mk ws 0, ok) /\ length ws = 3%nat.
Proof.
  eexists. split; [reflexivity|]. split; [reflexivity|].
  destruct (workers_start_together 3 4 (mk (replicate 3 (fresh 4)) 0) [true; true; false] 6) as (ws & ok & H1 & H2 & _);
    [reflexivity|reflexivity|lia|]. exists ws, ok. split; [exact H1|exact H2].
Defined.

End WorkerSet.
