(* ===== verification/Acceptance.v ===== *)
(** * Accepting connections

    Models the way of a new connection's descriptor: the owners of descriptors
    (src/include/aegisgate/net/Fd.h, src/src/net/Socket.cpp), the accept loop
    (Socket.cpp, src/src/net/Acceptor.cpp) and the hand-over to a worker
    (Gateway::Accept), over the modelled set of workers. *)

From S2P Require Import Prelude WorkerRuntime WorkerSet.

(** ** Owners of descriptors

    [FdOwner] and [Socket] hold a descriptor or -1.  Objects are cells of a
    store; [closed] and [released] are the descriptors closed and handed out. *)
Module Descriptors.

Record t := mk { cells : gmap nat Z; closed : list Z; released : list Z }.

Definition empty : t := mk ∅ [] [].

Definition set (x : nat) (fd : Z) (s : t) : t := mk (<[ x := fd ]> (cells s)) (closed s) (released s).
Definition close (fd : Z) (s : t) : t := mk (cells s) (closed s ++ [fd]) (released s).

(** [Socket::Close]. *)
Definition Close (x : nat) (s : t) : t :=
  match cells s !! x with
  | Some fd => if 0 <=? fd then set x (-1) (close fd s) else s
  | None => s
  end.

(** The destructors. *)
Definition destroy (x : nat) (s : t) : t :=
  match cells s !! x with
  | Some fd => let s := if 0 <=? fd then close fd s else s in mk (delete x (cells s)) (closed s) (released s)
  | None => s
  end.

(** [release]. *)
Definition release (x : nat) (s : t) : t :=
  match cells s !! x with
  | Some fd => let s := set x (-1) s in if 0 <=? fd then mk (cells s) (closed s) (released s ++ [fd]) else s
  | None => s
  end.

(** Move construction of [y] from [x] and move assignment. *)
Definition move_construct (x y : nat) (s : t) : t :=
  match cells s !! x with
  | Some fd => set y fd (set x (-1) s)
  | None => s
  end.
Definition move_assign (x y : nat) (s : t) : t :=
  if Nat.eqb x y then s
  else match cells s !! x, cells s !! y with
       | Some fd, Some _ => set x (-1) (set y fd (Close y s))
       | _, _ => s
       end.

Inductive op := OConstruct (y : nat) (fd : Z) | OMove (x y : nat) | OAssign (x y : nat) | ORelease (x : nat) | OClose (x : nat) | ODestroy (x : nat).

(** An object is constructed where there is none; [None]: the program does not
    do that. *)
Definition exec (o : op) (s : t) : option t :=
  match o with
  | OConstruct y fd => if cells s !! y is Some _ then None else if 0 <=? fd then Some (set y fd s) else None
  | OMove x y => if cells s !! y is Some _ then None else Some (move_construct x y s)
  | OAssign x y => Some (move_assign x y s)
  | ORelease x => Some (release x s)
  | OClose x => Some (Close x s)
  | ODestroy x => Some (destroy x s)
  end.

Fixpoint run (os : list op) (s : t) : option t :=
  match os with
  | [] => Some s
  | o :: os => s ← exec o s; run os s
  end.

Definition constructed (o : op) : list Z := match o with OConstruct _ fd => [fd] | _ => [] end.

Definition held_by (p : nat * Z) : list Z := if 0 <=? p.2 then [p.2] else [].
Definition held (m : gmap nat Z) : list Z := map_to_list m ≫= held_by.

Lemma held_insert m x fd : m !! x = None -> held (<[ x := fd ]> m) ≡ₚ held_by (x, fd) ++ held m.
Proof. intros Hx. unfold held. by rewrite map_to_list_insert. Qed.

Lemma held_delete m x fd : m !! x = Some fd -> held m ≡ₚ held_by (x, fd) ++ held (delete x m).
Proof. intros Hx. unfold held. by rewrite <- (map_to_list_delete m x fd Hx). Qed.

Lemma held_replace m x fd fd' : m !! x = Some fd -> held_by (x, fd) ++ held (<[ x := fd' ]> m) ≡ₚ held_by (x, fd') ++ held m.
Proof.
  intros Hx. rewrite (held_delete m x fd Hx), <- insert_delete_eq, held_insert by apply lookup_delete_eq.
  rewrite !app_assoc. apply Permutation_app_tail, Permutation_app_comm.
Qed.

(** Where every descriptor is. *)
Definition ledger (s : t) : list Z := held (cells s) ++ closed s ++ released s.

Lemma ledger_set_empty x fd s : cells s !! x = Some fd -> held_by (x, fd) ++ ledger (set x (-1) s) ≡ₚ ledger s.
Proof. intros Hx. unfold ledger. simpl. rewrite app_assoc. by rewrite (held_replace _ x fd (-1) Hx). Qed.

Lemma ledger_close fd s : ledger (close fd s) ≡ₚ fd :: ledger s.
Proof. unfold ledger. simpl. rewrite <- app_assoc. simpl. by rewrite <- !Permutation_middle. Qed.

Lemma Close_ledger x s : ledger (Close x s) ≡ₚ ledger s.
Proof.
  unfold Close. destruct (cells s !! x) as [fd|] eqn:Hx; [|done]. destruct (Z.leb_spec 0 fd) as [Hfd|]; [|done].
  pose proof (ledger_set_empty x fd (close fd s) Hx) as E. unfold held_by in E. simpl in E. rewrite (proj2 (Z.leb_le 0 fd) Hfd) in E.
  rewrite ledger_close in E. simpl in E. by apply Permutation_cons_inv in E.
Qed.

Lemma Close_empties y s fd : cells s !! y = Some fd -> exists fd', cells (Close y s) !! y = Some fd' /\ fd' < 0.
Proof.
  intros Hy. unfold Close. rewrite Hy. destruct (Z.leb_spec 0 fd); [|eauto].
  exists (-1). split; [apply lookup_insert_eq|done].
Qed.

Lemma Close_other x y s : x <> y -> cells (Close y s) !! x = cells s !! x.
Proof.
  intros Hne. unfold Close. destruct (cells s !! y) as [fd|]; [|done]. destruct (0 <=? fd); [|done]. simpl. by rewrite lookup_insert_ne.
Qed.

Lemma held_by_neg y fd : fd < 0 -> held_by (y, fd) = [].
Proof. intros H. unfold held_by. simpl. destruct (Z.leb_spec 0 fd); [lia|done]. Qed.

(** A descriptor moves from one object to an empty one. *)
Lemma move_ledger x y fd fd' s :
  x <> y -> cells s !! x = Some fd -> cells s !! y = Some fd' -> fd' < 0 -> ledger (set x (-1) (set y fd s)) ≡ₚ ledger s.
Proof.
  intros Hne Hx Hy Hn. assert (Hx' : cells (set y fd s) !! x = Some fd) by (simpl; by rewrite lookup_insert_ne).
  pose proof (ledger_set_empty x fd (set y fd s) Hx') as E. pose proof (held_replace _ y fd' fd Hy) as E2.
  rewrite (held_by_neg y fd' Hn) in E2. simpl in E2.
  assert (E3 : ledger (set y fd s) ≡ₚ held_by (y, fd) ++ ledger s) by (unfold ledger; simpl; rewrite E2, <- app_assoc; done).
  rewrite E3 in E. change (held_by (x, fd)) with (held_by (y, fd)) in E. by apply Permutation_app_inv_l in E.
Qed.

Lemma exec_ledger o s s' : exec o s = Some s' -> ledger s' ≡ₚ constructed o ++ ledger s.
Proof.
  destruct o as [y fd|x y|x y|x|x|x]; simpl.
  - destruct (cells s !! y) eqn:Hy; [done|]. destruct (Z.leb_spec 0 fd) as [Hfd|]; [|done]. intros [= <-].
    unfold ledger. simpl. rewrite held_insert by done. unfold held_by. simpl. by rewrite (proj2 (Z.leb_le 0 fd) Hfd).
  - destruct (cells s !! y) eqn:Hy; [done|]. intros [= <-]. unfold move_construct. destruct (cells s !! x) as [fd|] eqn:Hx; [|done].
    rewrite <- (ledger_set_empty x fd s Hx). unfold ledger. simpl.
    rewrite held_insert by (rewrite lookup_insert_ne; [done|congruence]). by rewrite <- app_assoc.
  - intros [= <-]. unfold move_assign. destruct (Nat.eqb_spec x y) as [|Hne]; [done|].
    destruct (cells s !! x) as [fd|] eqn:Hx; [|done]. destruct (cells s !! y) as [fd0|] eqn:Hy; [|done].
    destruct (Close_empties y s fd0 Hy) as (fd' & Hy' & Hn). rewrite <- (Close_ledger y s). simpl.
    eapply move_ledger; [done|by rewrite Close_other|done|done].
  - intros [= <-]. unfold release. destruct (cells s !! x) as [fd|] eqn:Hx; [|done]. simpl.
    pose proof (ledger_set_empty x fd s Hx) as E. unfold held_by in E. simpl in E. destruct (0 <=? fd); [|done].
    rewrite <- E. unfold ledger. simpl. by rewrite !app_assoc, <- Permutation_cons_append.
  - intros [= <-]. apply Close_ledger.
  - intros [= <-]. unfold destroy. destruct (cells s !! x) as [fd|] eqn:Hx; [|done].
    unfold ledger at 2. rewrite (held_delete _ x fd Hx). unfold held_by. simpl. destruct (0 <=? fd); [|done].
    unfold ledger. simpl. rewrite <- app_assoc. simpl. by rewrite <- !Permutation_middle.
Qed.

(** Owning a descriptor is exclusive: through any sequence of constructions,
    moves, assignments (to itself included), releases, closings and
    destructions, every descriptor is at all times held by exactly one object,
    or was released once, or was closed once. *)
Theorem descriptors_owned_once os s :
  run os empty = Some s -> held (cells s) ++ closed s ++ released s ≡ₚ concat (constructed <$> os).
Proof.
  change (held (cells s) ++ closed s ++ released s) with (ledger s).
  assert (H : forall s0, run os s0 = Some s -> ledger s ≡ₚ concat (constructed <$> os) ++ ledger s0).
  { induction os as [|o os IH]; intros s0; simpl; [by intros [= <-]|].
    destruct (exec o s0) as [s1|] eqn:E; [|done]. simpl. intros Hr. rewrite (IH s1 Hr), (exec_ledger _ _ _ E).
    by rewrite <- app_assoc, Permutation_app_swap_app. }
  intros Hr. specialize (H empty Hr). by rewrite app_nil_r in H.
Qed.

Lemma descriptors_owned_once_witness :
  let os := [OConstruct 1 5; OMove 1 2; OConstruct 3 6; OAssign 2 3; OAssign 3 3; ORelease 3; OConstruct 4 7; ODestroy 4] in
  exists s, run os empty = Some s /\ held (cells s) ++ closed s ++ released s ≡ₚ [5; 6; 7] /\ closed s = [6; 7] /\ released s = [5].
Proof.
  intros os. destruct (run os empty) as [s|] eqn:E; [|vm_compute in E; discriminate E].
  exists s. split; [reflexivity|]. split; [exact (descriptors_owned_once os s E)|].
  vm_compute in E. injection E as <-. split; reflexivity.
Defined.

End Descriptors.

(** ** Sockets *)
Module Socket.

(** What [connect] reports. *)
Inductive connect_errno := EINTR | EINPROGRESS | EAGAIN | EOTHER.
Inductive ConnectResult := kConnected | kInProgress | kError.

(** [None]: the loop still retries ([connect] was interrupted each time). *)
Fixpoint ConnectToIpv4 (answers : list (option connect_errno)) : option ConnectResult :=
  match answers with
  | [] => None
  | None :: _ => Some kConnected
  | Some EINTR :: answers => ConnectToIpv4 answers
  | Some (EINPROGRESS | EAGAIN) :: _ => Some kInProgress
  | Some EOTHER :: _ => Some kError
  end.

(** An interrupted [connect] is repeated and changes nothing. *)
Lemma ConnectToIpv4_retries answers n :
  ConnectToIpv4 (replicate n (Some EINTR) ++ answers) = ConnectToIpv4 answers.
Proof. by induction n. Qed.

End Socket.

(** ** The accept loop *)
Module Acceptor.

(** What [accept4] answers, with what the post to the worker needs ([seen],
    [writes]) and, between the calls, what the workers' threads and owners do
    ([Meanwhile]). *)
Inductive answer :=
| Accepted (fd : nat) (seen : bool) (writes : list WorkerRuntime.write_result)
| Interrupted
| WouldBlock
| Failed
| Meanwhile (index : nat) (a : WorkerRuntime.action).

(** The gateway's workers, whether the worker data exists, whether the acceptor
    has a callback, and the descriptors closed outside the workers. *)
Record t := mk {
  workers_ : option WorkerSet.t;
  worker_datas_ : bool;
  new_connection_callback_ : bool;
  closed : list nat
}.

Definition close (fd : nat) (g : t) : t := mk (workers_ g) (worker_datas_ g) (new_connection_callback_ g) (closed g ++ [fd]).
Definition with_workers (s : WorkerSet.t) (g : t) : t := mk (Some s) (worker_datas_ g) (new_connection_callback_ g) (closed g).

Definition set_worker (index : nat) (w : WorkerRuntime.t) (s : WorkerSet.t) : WorkerSet.t :=
  WorkerSet.mk (<[ index := w ]> (WorkerSet.workers_ s)) (WorkerSet.next_ s).

(** [Gateway::Accept]; a rejected post closes the descriptor in the worker's
    [PostFd].  [None]: the wake write still retries. *)
Definition Accept (fd : nat) (seen : bool) (writes : list WorkerRuntime.write_result) (g : t) : option t :=
  match workers_ g with
  | None => Some (close fd g)
  | Some s =>
      if negb (worker_datas_ g) then Some (close fd g)
      else
        let '(index, s) := WorkerSet.Next s in
        w ← WorkerSet.workers_ s !! index;
        '(w, _) ← WorkerRuntime.PostFd seen fd writes w;
        Some (with_workers (set_worker index w s) g)
  end.

Inductive exit := Returned | Threw.

(** [Acceptor::HandleRead] with the retries of [Socket::Accept]; after the given
    answers there is no connection left. *)
Fixpoint HandleRead (answers : list answer) (g : t) : option (t * exit) :=
  match answers with
  | [] | WouldBlock :: _ => Some (g, Returned)
  | Failed :: _ => Some (g, Threw)
  | Interrupted :: answers => HandleRead answers g
  | Meanwhile index a :: answers =>
      s ← workers_ g;
      w ← WorkerSet.workers_ s !! index;
      w ← WorkerRuntime.fire a w;
      HandleRead answers (with_workers (set_worker index w s) g)
  | Accepted fd seen writes :: answers =>
      if new_connection_callback_ g then g ← Accept fd seen writes g; HandleRead answers g
      else HandleRead answers (close fd g)
  end.

(** ** Round robin *)

(** The descriptors that were accepted, in order. *)
Fixpoint taken (answers : list answer) : list nat :=
  match answers with
  | [] | WouldBlock :: _ | Failed :: _ => []
  | (Interrupted | Meanwhile _ _) :: answers => taken answers
  | Accepted fd _ _ :: answers => fd :: taken answers
  end.

(** Nobody else hands descriptors to the workers. *)
Definition only_gateway (x : answer) : Prop := match x with Meanwhile _ a => WorkerRuntime.handed a = [] | _ => True end.

(** Every n-th of them, for one worker. *)
Fixpoint share (n next index : Z) (fds : list nat) : list nat :=
  match fds with
  | [] => []
  | fd :: fds => (if next mod n =? index then [fd] else []) ++ share n (next + 1) index fds
  end.

(** What a worker got: accepted for its handler, or closed by its interface. *)
Definition got (w : WorkerRuntime.t) : list nat :=
  WorkerRuntime.handlers (WorkerRuntime.accepted w) ++ WorkerRuntime.fds_closed w.

Lemma div_step n x i :
  0 <= i < n -> (x - i) / n - (x - 1 - i) / n = if x mod n =? i then 1 else 0.
Proof.
  intros Hi. pose proof (Z.div_mod x n ltac:(lia)) as Hx. pose proof (Z.mod_pos_bound x n ltac:(lia)) as Hm.
  set (q := x / n) in *. set (r := x mod n) in *.
  assert (H1 : (x - i) / n = if i <=? r then q else q - 1).
  { destruct (Z.leb_spec i r); symmetry; [apply Z.div_unique with (r - i)|apply Z.div_unique with (r - i + n)]; lia. }
  assert (H2 : (x - 1 - i) / n = if i <? r then q else q - 1).
  { destruct (Z.ltb_spec i r); symmetry; [apply Z.div_unique with (r - 1 - i)|apply Z.div_unique with (r - 1 - i + n)]; lia. }
  rewrite H1, H2. destruct (Z.leb_spec i r), (Z.ltb_spec i r), (Z.eqb_spec r i); lia.
Qed.

Lemma share_length n next index fds :
  0 <= index < n ->
  Z.of_nat (length (share n next index fds)) = (next + Z.of_nat (length fds) - 1 - index) / n - (next - 1 - index) / n.
Proof.
  intros Hi. revert next; induction fds as [|fd fds IH]; intros next; simpl.
  { change (Z.of_nat 0) with 0. rewrite Z.add_0_r. lia. }
  rewrite length_app, Nat2Z.inj_add, IH. pose proof (div_step n next index Hi) as H.
  replace (next + Z.of_nat (S (length fds)) - 1 - index) with (next + 1 + Z.of_nat (length fds) - 1 - index) by lia.
  replace (next + 1 - 1 - index) with (next - index) by lia.
  destruct (next mod n =? index); simpl; lia.
Qed.

(** The shares differ by at most one. *)
Lemma share_fair n next index fds :
  0 <= index < n ->
  Z.of_nat (length fds) / n <= Z.of_nat (length (share n next index fds)) <= Z.of_nat (length fds) / n + 1.
Proof.
  intros Hi. rewrite share_length by done. set (k := Z.of_nat (length fds)). set (a := next - 1 - index).
  replace (next + k - 1 - index) with (a + k) by (unfold a; lia).
  pose proof (Z.div_mod a n ltac:(lia)). pose proof (Z.mod_pos_bound a n ltac:(lia)).
  pose proof (Z.div_mod k n ltac:(lia)). pose proof (Z.mod_pos_bound k n ltac:(lia)).
  assert (E : (a + k) / n = a / n + k / n + (a mod n + k mod n) / n).
  { replace (a + k) with ((a / n + k / n) * n + (a mod n + k mod n)) by lia. rewrite Z.div_add_l by lia. lia. }
  assert (0 <= (a mod n + k mod n) / n <= 1).
  { split; [apply Z.div_pos; lia|]. enough ((a mod n + k mod n) / n < 2) by lia. apply Z.div_lt_upper_bound; lia. }
  lia.
Qed.

(** ** The loop hands over every descriptor *)

Definition sound (s : WorkerSet.t) : Prop := Forall WorkerRuntime.inv (WorkerSet.workers_ s).

Lemma set_worker_sound index w s : sound s -> WorkerRuntime.inv w -> sound (set_worker index w s).
Proof. intros Hs Hw. by apply Forall_insert. Qed.

(** What each worker has after the loop, given what it had. *)
Definition served (s s' : WorkerSet.t) (fds : list nat) : Prop :=
  length (WorkerSet.workers_ s') = length (WorkerSet.workers_ s) /\
  forall i w w', WorkerSet.workers_ s !! i = Some w -> WorkerSet.workers_ s' !! i = Some w' ->
    got w' ≡ₚ share (Z.of_nat (WorkerSet.size s)) (WorkerSet.next_ s) (Z.of_nat i) fds ++ got w.

(** One worker gets [fds0]; then the rest is handed over. *)
Lemma served_step s next index w w1 s' fds fds0 :
  WorkerSet.workers_ s !! index = Some w -> got w1 ≡ₚ fds0 ++ got w ->
  served (WorkerSet.mk (<[ index := w1 ]> (WorkerSet.workers_ s)) next) s' fds ->
  length (WorkerSet.workers_ s') = length (WorkerSet.workers_ s) /\
  forall i x x', WorkerSet.workers_ s !! i = Some x -> WorkerSet.workers_ s' !! i = Some x' ->
    got x' ≡ₚ (if decide (i = index) then fds0 else []) ++ share (Z.of_nat (WorkerSet.size s)) next (Z.of_nat i) fds ++ got x.
Proof.
  intros Hw Hg [Hl Hs]. simpl in Hl. rewrite length_insert in Hl. split; [done|]. intros i x x' Hx Hx'.
  unfold WorkerSet.size in Hs. simpl in Hs. rewrite length_insert in Hs. fold (WorkerSet.size s) in Hs. case_decide as Hi.
  - subst. rewrite Hw in Hx. injection Hx as <-. specialize (Hs index w1 x'). rewrite Hs; [|by apply list_lookup_insert_eq; eapply lookup_lt_Some|done].
    by rewrite Hg, Permutation_app_swap_app.
  - specialize (Hs i x x'). rewrite Hs; [done|by rewrite list_lookup_insert_ne|done].
Qed.

Lemma loop_served answers g s g' e :
  workers_ g = Some s -> worker_datas_ g = true -> new_connection_callback_ g = true ->
  sound s -> (0 < WorkerSet.size s)%nat -> Forall only_gateway answers ->
  0 <= WorkerSet.next_ s -> WorkerSet.next_ s + Z.of_nat (length (taken answers)) < u64_modulus ->
  HandleRead answers g = Some (g', e) ->
  exists s', workers_ g' = Some s' /\ closed g' = closed g /\ sound s' /\ served s s' (taken answers).
Proof.
  intros Hs Hd Hc Hso Hn Ho. revert g s Hs Hd Hc Hso Hn.
  assert (Hsame : forall g s, workers_ g = Some s -> sound s ->
    exists s', workers_ g = Some s' /\ closed g = closed g /\ sound s' /\ served s s' []).
  { intros g s Hs Hso. exists s. split_and!; try done. split; [done|]. intros i w w' H1 H2. simpl. by simplify_eq. }
  induction Ho as [|x answers Hx Ho IH]; intros g s Hs Hd Hc Hso Hn H0 Hb.
  { intros [= <- _]. by apply Hsame. }
  destruct x as [fd seen rs| | | |index a]; simpl.
  - rewrite Hc. unfold Accept. rewrite Hs, Hd. simpl. simpl in Hb. set (index := Z.to_nat (WorkerSet.next_ s mod Z.of_nat (WorkerSet.size s))).
    destruct (WorkerSet.workers_ s !! index) as [w|] eqn:Hw; [|done]. simpl.
    destruct (WorkerRuntime.PostFd seen fd rs w) as [[w1 ok]|] eqn:Ep; [|done]. simpl. intros Hr.
    assert (Hf : WorkerRuntime.fire (WorkerRuntime.APostFd seen fd rs) w = Some w1) by (simpl; by rewrite Ep).
    pose proof (Forall_lookup_1 _ _ _ _ Hso Hw) as Hi. pose proof (WorkerRuntime.fire_fds _ _ _ Hi Hf) as Hg.
    apply WorkerRuntime.action_inv in Hf; [|done].
    assert (Hwr : wrap_u64 (WorkerSet.next_ s + 1) = WorkerSet.next_ s + 1) by (apply wrap_u64_small; mlia).
    apply IH with (s := WorkerSet.mk (<[ index := w1 ]> (WorkerSet.workers_ s)) (WorkerSet.next_ s + 1)) in Hr as (s' & R1 & R2 & R3 & R4);
      [|simpl; by rewrite Hwr|done|done|by apply Forall_insert|unfold WorkerSet.size; simpl; by rewrite length_insert|simpl; lia|simpl; lia].
    exists s'. split_and!; try done.
    destruct (served_step s (WorkerSet.next_ s + 1) index w w1 s' (taken answers) [fd] Hw Hg R4) as [L1 L2]. split; [done|].
    intros i x x' Hx1 Hx2. rewrite (L2 i x x' Hx1 Hx2). simpl. rewrite <- app_assoc. apply Permutation_app_tail.
    pose proof (Z.mod_pos_bound (WorkerSet.next_ s) (Z.of_nat (WorkerSet.size s)) ltac:(lia)).
    case_decide as Hi2; destruct (Z.eqb_spec (WorkerSet.next_ s mod Z.of_nat (WorkerSet.size s)) (Z.of_nat i)); try done; unfold index in Hi2; lia.
  - apply IH; done.
  - intros [= <- _]. by apply Hsame.
  - intros [= <- _]. by apply Hsame.
  - rewrite Hs. simpl. destruct (WorkerSet.workers_ s !! index) as [w|] eqn:Hw; [|done]. simpl.
    destruct (WorkerRuntime.fire a w) as [w1|] eqn:Hf; [|done]. simpl. intros Hr.
    pose proof (Forall_lookup_1 _ _ _ _ Hso Hw) as Hi. pose proof (WorkerRuntime.fire_fds _ _ _ Hi Hf) as Hg. simpl in Hx. rewrite Hx in Hg.
    apply WorkerRuntime.action_inv in Hf; [|done].
    apply IH with (s := set_worker index w1 s) in Hr as (s' & R1 & R2 & R3 & R4);
      [|done|done|done|by apply set_worker_sound|unfold WorkerSet.size; simpl; by rewrite length_insert|done|done].
    exists s'. split_and!; try done.
    destruct (served_step s (WorkerSet.next_ s) index w w1 s' (taken answers) [] Hw Hg R4) as [L1 L2]. split; [done|].
    intros i x x' Hx1 Hx2. rewrite (L2 i x x' Hx1 Hx2). by case_decide.
Qed.

(** A worker in a state it can be in. *)
Definition reachable (w : WorkerRuntime.t) : Prop :=
  exists cap w0 os, WorkerRuntime.make cap = Some w0 /\ WorkerRuntime.run os w0 = Some w.

Lemma reachable_inv w : reachable w -> WorkerRuntime.inv w.
Proof. intros (cap & w0 & os & Hm & Hr). by eapply WorkerRuntime.run_inv in Hr as [H _]; [|by eapply WorkerRuntime.make_worker_inv]. Qed.

(** C24: The accept loop of a started gateway spreads the connections: whatever
    the workers do meanwhile, the j-th accepted descriptor goes to worker
    (next + j) mod n and to no other, where it is queued for its handler or, when
    the post is refused, closed once; the gateway itself closes none; and the
    numbers of connections the workers got differ by at most one. *)
Theorem connections_spread answers g s g' e :
  workers_ g = Some s -> worker_datas_ g = true -> new_connection_callback_ g = true ->
  Forall reachable (WorkerSet.workers_ s) -> (0 < WorkerSet.size s)%nat -> Forall only_gateway answers ->
  0 <= WorkerSet.next_ s -> WorkerSet.next_ s + Z.of_nat (length (taken answers)) < u64_modulus ->
  HandleRead answers g = Some (g', e) ->
  exists s', workers_ g' = Some s' /\ closed g' = closed g /\
    length (WorkerSet.workers_ s') = length (WorkerSet.workers_ s) /\
    forall i w w', WorkerSet.workers_ s !! i = Some w -> WorkerSet.workers_ s' !! i = Some w' ->
      let mine := share (Z.of_nat (WorkerSet.size s)) (WorkerSet.next_ s) (Z.of_nat i) (taken answers) in
      got w' ≡ₚ mine ++ got w /\
      Z.of_nat (length (taken answers)) / Z.of_nat (WorkerSet.size s) <= Z.of_nat (length mine)
        <= Z.of_nat (length (taken answers)) / Z.of_nat (WorkerSet.size s) + 1.
Proof.
  intros Hs Hd Hc Hr Hn Ho H0 Hb Hh. assert (Hso : sound s) by (eapply Forall_impl; [exact Hr|apply reachable_inv]).
  destruct (loop_served answers g s g' e Hs Hd Hc Hso Hn Ho H0 Hb Hh) as (s' & R1 & R2 & _ & R3 & R4).
  exists s'. split_and!; try done. intros i w w' Hw Hw'. split; [by apply R4|]. apply share_fair.
  apply lookup_lt_Some in Hw. unfold WorkerSet.size. lia.
Qed.

Definition example_gateway : t :=
  mk (Some (WorkerSet.mk [WorkerSet.up 1; WorkerSet.up 1] 1)) true true [].
Definition example_answers : list answer :=
  [ Accepted 7 true [WorkerRuntime.Wrote]; Interrupted; Accepted 8 true [WorkerRuntime.Interrupted; WorkerRuntime.Wrote];
    Accepted 9 true [WorkerRuntime.Wrote]; Meanwhile 0 WorkerRuntime.AWorker; WouldBlock ].
Definition example_after : t :=
  Eval vm_compute in from_option fst example_gateway (HandleRead example_answers example_gateway).

Lemma up_reachable : reachable (WorkerSet.up 1).
Proof.
  exists 1%nat, (WorkerSet.fresh 1), [WorkerRuntime.AStart; WorkerRuntime.AWorker; WorkerRuntime.AReady]. split; reflexivity.
Defined.

(** The second worker's queue is full when its second descriptor comes. *)
Lemma connections_spread_witness :
  HandleRead example_answers example_gateway = Some (example_after, Returned) /\
  (WorkerRuntime.fds_closed <$> from_option WorkerSet.workers_ [] (workers_ example_after)) = [[]; [9%nat]] /\
  exists s', workers_ example_after = Some s' /\ closed example_after = [].
Proof.
  assert (E : HandleRead example_answers example_gateway = Some (example_after, Returned)) by (vm_compute; reflexivity).
  split; [exact E|]. split; [reflexivity|].
  destruct (connections_spread example_answers example_gateway (WorkerSet.mk [WorkerSet.up 1; WorkerSet.up 1] 1) example_after Returned)
    as (s' & H1 & H2 & _); [reflexivity|reflexivity|reflexivity| |vm_compute; lia| |vm_compute; discriminate|vm_compute; reflexivity|exact E|].
  - constructor; [exact up_reachable|]. constructor; [exact up_reachable|constructor].
  - repeat constructor.
  - exists s'. split; [exact H1|exact H2].
Defined.

(** A gateway that has no workers yet, or an acceptor without a callback, closes
    what it accepts. *)
Lemma unready_closes answers g g' e :
  workers_ g = None \/ worker_datas_ g = false \/ new_connection_callback_ g = false ->
  Forall (fun x => match x with Meanwhile _ _ => False | _ => True end) answers ->
  HandleRead answers g = Some (g', e) -> closed g' = closed g ++ taken answers.
Proof.
  intros Hg Ha. revert g Hg. induction Ha as [|x answers Hx Ha IH]; intros g Hg; simpl.
  { intros [= <- _]. by rewrite app_nil_r. }
  destruct x as [fd seen rs| | | |]; try done; simpl; try (intros [= <- _]; by rewrite app_nil_r); [|by apply IH].
  assert (Hcl : HandleRead answers (close fd g) = Some (g', e) -> closed g' = closed g ++ fd :: taken answers).
  { intros Hr. rewrite (IH (close fd g) Hg Hr). simpl. by rewrite <- app_assoc. }
  destruct (new_connection_callback_ g) eqn:Hc; [|done]. unfold Accept. destruct (workers_ g) as [s|] eqn:Hs; simpl; [|done].
  destruct Hg as [?|[Hd|?]]; [done| |done]. by rewrite Hd.
Qed.

End Acceptor.
