(* ===== verification/Sockets.v ===== *)
(** * Creating sockets

    Models the part of src/src/net/Socket.cpp and src/src/net/Acceptor.cpp that
    makes sockets: each system call is one step of a small kernel state and may
    fail, a [Socket] that leaves its scope by an exception closes its
    descriptor.  The ports and addresses are kept in network byte order, as in
    [sockaddr_in] on a little-endian machine. *)

From S2P Require Import Prelude Bytes Acceptance.

Module Sockets.

(** ** Byte order *)

Definition htons (x : Z) : Z := Z.lor (Z.shiftl (Z.land x 255) 8) (Z.shiftr x 8).
Definition ntohs : Z -> Z := htons.
Definition htonl (x : Z) : Z :=
  Z.lor (Z.shiftl (Z.land x 255) 24)
    (Z.lor (Z.shiftl (Z.land (Z.shiftr x 8) 255) 16)
       (Z.lor (Z.shiftl (Z.land (Z.shiftr x 16) 255) 8) (Z.land (Z.shiftr x 24) 255))).

Record sockaddr_in := mkAddress { sin_addr : Z; sin_port : Z }.

Definition Ipv4Address (address : Z * Z * Z * Z) (port : Z) : sockaddr_in :=
  let '(b0, b1, b2, b3) := address in
  mkAddress (htonl (Z.lor (Z.lor (Z.lor (Z.shiftl b0 24) (Z.shiftl b1 16)) (Z.shiftl b2 8)) b3)) (htons port).

Definition is_u8 (x : Z) : Prop := 0 <= x < 256.

(** The bytes of the address in memory. *)
Definition in_memory (x : Z) : list Z := [x mod 256; x / 256 mod 256; x / 65536 mod 256; x / 16777216 mod 256].

Lemma lor_disjoint n x y : 0 <= n -> 0 <= y < 2 ^ n -> Z.lor (Z.shiftl x n) y = x * 2 ^ n + y.
Proof.
  intros Hn Hy. rewrite Z.shiftl_mul_pow2 by done. rewrite <- Z.lxor_lor, <- Z.add_nocarry_lxor; [done|..];
    (apply Z.bits_inj'; intros i Hi; rewrite Z.land_spec, Z.bits_0;
     destruct (Z.lt_ge_cases i n);
     [rewrite Z.mul_pow2_bits_low by done; done|
      rewrite <- (Z.mod_small y (2 ^ n)) by done; rewrite Z.mod_pow2_bits_high by lia; by rewrite andb_false_r]).
Qed.

Lemma land_255 x : Z.land x 255 = x mod 256.
Proof. apply (Z.land_ones x 8). done. Qed.

Lemma htonl_sum x : 0 <= x -> htonl x = x mod 256 * 2 ^ 24 + (x / 256 mod 256 * 2 ^ 16 + (x / 65536 mod 256 * 2 ^ 8 + x / 16777216 mod 256)).
Proof.
  intros Hx. unfold htonl. rewrite !land_255, !Z.shiftr_div_pow2 by done.
  change (2 ^ 8) with 256. change (2 ^ 16) with 65536. change (2 ^ 24) with 16777216.
  assert (forall z, 0 <= z mod 256 < 256) as H by (intros; by apply Z.mod_pos_bound).
  pose proof (H (x / 256)). pose proof (H (x / 65536)). pose proof (H (x / 16777216)).
  rewrite (lor_disjoint 8) by lia. rewrite (lor_disjoint 16) by lia. by rewrite (lor_disjoint 24) by lia.
Qed.

(** The address goes to the kernel with its bytes in the order written. *)
Theorem Ipv4Address_layout b0 b1 b2 b3 port :
  is_u8 b0 -> is_u8 b1 -> is_u8 b2 -> is_u8 b3 -> in_memory (sin_addr (Ipv4Address (b0, b1, b2, b3) port)) = [b0; b1; b2; b3].
Proof.
  unfold is_u8. intros H0 H1 H2 H3. simpl.
  assert (Z.lor (Z.lor (Z.lor (Z.shiftl b0 24) (Z.shiftl b1 16)) (Z.shiftl b2 8)) b3 = b0 * 16777216 + b1 * 65536 + b2 * 256 + b3) as ->.
  { rewrite <- !Z.lor_assoc. rewrite (lor_disjoint 8 b2 b3) by lia. rewrite (lor_disjoint 16) by lia. rewrite (lor_disjoint 24) by lia. lia. }
  rewrite htonl_sum by lia. unfold in_memory. change (2 ^ 24) with 16777216. change (2 ^ 16) with 65536. change (2 ^ 8) with 256.
  assert (E1 : (b0 * 16777216 + b1 * 65536 + b2 * 256 + b3) mod 256 = b3) by (symmetry; apply (Z.mod_unique_pos _ _ (b0 * 65536 + b1 * 256 + b2)); lia).
  assert (E2 : (b0 * 16777216 + b1 * 65536 + b2 * 256 + b3) / 256 = b0 * 65536 + b1 * 256 + b2) by (symmetry; apply (Z.div_unique_pos _ _ _ b3); lia).
  assert (E3 : (b0 * 16777216 + b1 * 65536 + b2 * 256 + b3) / 65536 = b0 * 256 + b1) by (symmetry; apply (Z.div_unique_pos _ _ _ (b2 * 256 + b3)); lia).
  assert (E4 : (b0 * 16777216 + b1 * 65536 + b2 * 256 + b3) / 16777216 = b0) by (symmetry; apply (Z.div_unique_pos _ _ _ (b1 * 65536 + b2 * 256 + b3)); lia).
  rewrite E1, E2, E3, E4.
  assert ((b0 * 65536 + b1 * 256 + b2) mod 256 = b2) as -> by (symmetry; apply (Z.mod_unique_pos _ _ (b0 * 256 + b1)); lia).
  assert ((b0 * 256 + b1) mod 256 = b1) as -> by (symmetry; apply (Z.mod_unique_pos _ _ b0); lia).
  rewrite (Z.mod_small b0) by lia. repeat f_equal; Z.to_euclidean_division_equations; lia.
Qed.

Lemma ntohs_htons x : 0 <= x < 65536 -> ntohs (htons x) = x.
Proof.
  intros Hx. unfold ntohs, htons. rewrite !land_255, !Z.shiftr_div_pow2 by done. change (2 ^ 8) with 256.
  assert (0 <= x mod 256 < 256) by by apply Z.mod_pos_bound.
  assert (0 <= x / 256 < 256) by (split; [apply Z.div_pos|apply Z.div_lt_upper_bound]; lia).
  rewrite (lor_disjoint 8 (x mod 256) (x / 256)) by lia. change (2 ^ 8) with 256.
  assert ((x mod 256 * 256 + x / 256) mod 256 = x / 256) as -> by (symmetry; apply (Z.mod_unique_pos _ _ (x mod 256)); lia).
  assert ((x mod 256 * 256 + x / 256) / 256 = x mod 256) as -> by (symmetry; apply (Z.div_unique_pos _ _ _ (x / 256)); lia).
  rewrite (lor_disjoint 8) by lia. change (2 ^ 8) with 256. pose proof (Z.div_mod x 256). lia.
Qed.

(** ** The kernel's sockets *)

Record sock := mkSock { nonblocking : bool; reuse_address : bool; bound : option sockaddr_in; listening : bool }.

(** The open sockets and the descriptors closed, in order. *)
Record kernel := mkKernel { open : gmap Z sock; closed : list Z }.

Definition close (fd : Z) (k : kernel) : kernel := mkKernel (delete fd (open k)) (closed k ++ [fd]).
Definition update (fd : Z) (f : sock -> sock) (k : kernel) : kernel := mkKernel (alter f fd (open k)) (closed k).

(** What the calls answer: [None] and [false] are errors. *)
Record answers := mkAnswers {
  socket_fd : option Z;
  setsockopt_ok : bool;
  bind_ok : bool;
  listen_ok : bool
}.

(** [Socket::CreateNonblockingTcp]; the result is [None] when it throws. *)
Definition CreateNonblockingTcp (a : answers) (k : kernel) : kernel * option Z :=
  match socket_fd a with
  | None => (k, None)
  | Some fd => (mkKernel (<[ fd := mkSock true false None false ]> (open k)) (closed k), Some fd)
  end.

(** An exception destroys the local [Socket]. *)
Definition unwind (fd : Z) (k : kernel) : kernel * option Z := (close fd k, None).

Definition reused (s : sock) : sock := mkSock (nonblocking s) true (bound s) (listening s).
Definition bound_to (x : sockaddr_in) (s : sock) : sock := mkSock (nonblocking s) (reuse_address s) (Some x) (listening s).
Definition listens (s : sock) : sock := mkSock (nonblocking s) (reuse_address s) (bound s) true.

(** [Socket::ListenLoopback]. *)
Definition ListenLoopback (a : answers) (k : kernel) : kernel * option Z :=
  let '(k, fd) := CreateNonblockingTcp a k in
  match fd with
  | None => (k, None)
  | Some fd =>
      if negb (setsockopt_ok a) then unwind fd k
      else
        let k := update fd reused k in
        if negb (bind_ok a) then unwind fd k
        else
          let k := update fd (bound_to (Ipv4Address (127, 0, 0, 1) 0)) k in
          if negb (listen_ok a) then unwind fd k else (update fd listens k, Some fd)
  end.

(** [Socket::ConnectLoopback]; [connects] are the answers of [connect] (see
    [Socket.ConnectToIpv4]), and the outer [None] is a call that still retries. *)
Definition ConnectLoopback (a : answers) (connects : list (option Socket.connect_errno)) (k : kernel) : option (kernel * option Z) :=
  let '(k, fd) := CreateNonblockingTcp a k in
  match fd with
  | None => Some (k, None)
  | Some fd =>
      r ← Socket.ConnectToIpv4 connects;
      Some (match r with Socket.kError => unwind fd k | _ => (k, Some fd) end)
  end.

(** [inet_pton] is the C library's. *)
Section Listening.
Context (inet_pton : bytes -> option (Z * Z * Z * Z)).

(** [CreateListeningSocket] of Acceptor.cpp. *)
Definition CreateListeningSocket (a : answers) (address : bytes) (port : Z) (k : kernel) : kernel * option Z :=
  let '(k, fd) := CreateNonblockingTcp a k in
  match fd with
  | None => (k, None)
  | Some fd =>
      if negb (setsockopt_ok a) then unwind fd k
      else
        let k := update fd reused k in
        match inet_pton address with
        | None => unwind fd k
        | Some quad =>
            if negb (bind_ok a) then unwind fd k
            else (update fd (bound_to (Ipv4Address quad port)) k, Some fd)
        end
  end.

(** The constructor of [Acceptor]: when the channel cannot be made, the member
    [listen_socket_] is destroyed. *)
Definition make_acceptor (a : answers) (channel_ok : bool) (address : bytes) (port : Z) (k : kernel) : kernel * option Z :=
  let '(k, fd) := CreateListeningSocket a address port k in
  match fd with
  | None => (k, None)
  | Some fd => if negb channel_ok then unwind fd k else (k, Some fd)
  end.

(** What a successful construction leaves, and a failed one. *)
Definition acceptor_made (a : answers) (address : bytes) (port : Z) (k : kernel) (r : kernel * option Z) : Prop :=
  match r.2 with
  | Some fd =>
      socket_fd a = Some fd /\ closed r.1 = closed k /\
      exists quad, inet_pton address = Some quad /\
        open r.1 = <[ fd := mkSock true true (Some (Ipv4Address quad port)) false ]> (open k)
  | None =>
      open r.1 = open k /\ closed r.1 = closed k ++ (match socket_fd a with Some fd => [fd] | None => [] end)
  end.

(** An acceptor is made completely or not at all: a bound, non-blocking socket
    that does not listen yet, or an exception that leaves no descriptor open and
    closes the one that was made once. *)
Theorem make_acceptor_exact a channel_ok address port k :
  (forall fd, socket_fd a = Some fd -> open k !! fd = None) ->
  acceptor_made a address port k (make_acceptor a channel_ok address port k).
Proof.
  intros Hf. unfold make_acceptor, CreateListeningSocket, CreateNonblockingTcp. destruct (socket_fd a) as [fd|] eqn:Hs; simpl.
  2: { unfold acceptor_made. simpl. rewrite Hs. by rewrite app_nil_r. }
  specialize (Hf fd eq_refl).
  assert (Hu : forall m, delete fd m = open k -> forall cl, cl = closed k -> acceptor_made a address port k (unwind fd (mkKernel m cl))).
  { intros m Hm cl ->. unfold acceptor_made. simpl. by rewrite Hs, Hm. }
  destruct (setsockopt_ok a); simpl; [|apply Hu; [by rewrite delete_insert_id|done]].
  unfold update. simpl. rewrite ?alter_insert_eq.
  destruct (inet_pton address) as [quad|] eqn:Hp; [|apply Hu; [by rewrite delete_insert_id|done]].
  destruct (bind_ok a); simpl; rewrite ?alter_insert_eq; [|apply Hu; [by rewrite delete_insert_id|done]].
  destruct channel_ok; simpl; rewrite ?alter_insert_eq; [|apply Hu; [by rewrite delete_insert_id|done]].
  unfold acceptor_made. simpl. eauto.
Qed.

End Listening.

(** [Acceptor::Listen]: [calls] are the answers of [listen], [None] is an
    interrupted call; the outer [None] still retries.  [false]: the exception of
    [listen], or of the channel's registration. *)
Fixpoint Listen (calls : list (option bool)) (enabled : bool) (fd : Z) (k : kernel) : option (kernel * bool) :=
  match calls with
  | [] => None
  | None :: calls => Listen calls enabled fd k
  | Some false :: _ => Some (k, false)
  | Some true :: _ => Some (update fd listens k, enabled)
  end.

(** [Socket::BoundPort] and [Acceptor::port]; [None]: the exception. *)
Definition BoundPort (getsockname_ok : bool) (fd : Z) (k : kernel) : option Z :=
  if negb getsockname_ok then None else s ← open k !! fd; x ← bound s; Some (ntohs (sin_port x)).

Definition O_NONBLOCK : Z := 2048.

(** [Socket::IsNonblocking]: the flags of [fcntl], negative for an error. *)
Definition IsNonblocking (flags : Z) : option bool :=
  if flags <? 0 then None else Some (negb (Z.land flags O_NONBLOCK =? 0)).

(** [Socket::PendingError]: the answer of [getsockopt]. *)
Definition PendingError (answer : option Z) : option Z := answer.

Definition Valid (fd : Z) : bool := 0 <=? fd.

(** The port asked for is the port reported, listening or not. *)
Theorem bound_port_reported pton a channel_ok address port k k' fd calls enabled k'' ok :
  0 <= port < 65536 -> (forall fd, socket_fd a = Some fd -> open k !! fd = None) ->
  make_acceptor pton a channel_ok address port k = (k', Some fd) -> Listen calls enabled fd k' = Some (k'', ok) ->
  BoundPort true fd k' = Some port /\ BoundPort true fd k'' = Some port.
Proof.
  intros Hport Hf Hm Hl. pose proof (make_acceptor_exact pton a channel_ok address port k Hf) as H. rewrite Hm in H.
  destruct H as (_ & _ & quad & _ & Ho). simpl in Ho.
  assert (Hb : BoundPort true fd k' = Some port).
  { unfold BoundPort. simpl. rewrite Ho, lookup_insert_eq. simpl. unfold Ipv4Address. destruct quad as [[[b0 b1] b2] b3]. simpl. by rewrite ntohs_htons. }
  split; [done|]. induction calls as [|[[]|] calls IH]; simpl in Hl; simplify_eq; try done; [|by apply IH].
  unfold BoundPort in *. simpl in *. rewrite Ho in *. rewrite lookup_insert_eq in Hb. rewrite alter_insert_eq, lookup_insert_eq. done.
Qed.

Lemma nonblocking_flag flags : 0 <= flags -> IsNonblocking flags = Some (Z.testbit flags 11).
Proof.
  intros H. unfold IsNonblocking. destruct (Z.ltb_spec flags 0); [lia|]. f_equal.
  change O_NONBLOCK with (2 ^ 11). destruct (Z.testbit flags 11) eqn:Ht.
  - apply negb_true_iff, Z.eqb_neq. intros E. assert (Z.testbit (Z.land flags (2 ^ 11)) 11 = false) by by rewrite E.
    rewrite Z.land_spec, Ht, Z.pow2_bits_true in *; done.
  - apply negb_false_iff, Z.eqb_eq, Z.bits_inj'. intros i Hi. rewrite Z.land_spec, Z.bits_0, Z.pow2_bits_eqb by done.
    destruct (Z.eqb_spec 11 i) as [<-|]; [by rewrite Ht|by rewrite andb_false_r].
Qed.

(** [SetNonblocking] of ClientConnection.cpp: what the calls of [fcntl] answer. *)
Inductive fcntl_answer := FlagsInterrupted | FlagsError | Flags (flags : Z).

(** [Some None]: the exception; [None]: the loop still retries. *)
Fixpoint get_flags (xs : list fcntl_answer) : option (option Z) :=
  match xs with
  | [] => None
  | FlagsInterrupted :: xs => get_flags xs
  | FlagsError :: _ => Some None
  | Flags flags :: _ => Some (Some flags)
  end.

(** The flags the descriptor has in the end. *)
Definition SetNonblocking (gets sets : list fcntl_answer) : option (option Z) :=
  flags ← get_flags gets;
  match flags with
  | None => Some None
  | Some flags => r ← get_flags sets; Some (r ≫= fun _ => Some (Z.lor flags O_NONBLOCK))
  end.

(** When it returns, the descriptor does not block, and its other flags are as
    they were. *)
Theorem SetNonblocking_sets gets sets flags n m :
  0 <= flags -> get_flags gets = Some (Some flags) -> SetNonblocking gets sets = Some (Some n) ->
  IsNonblocking n = Some true /\ (0 <= m -> m <> 11 -> Z.testbit n m = Z.testbit flags m).
Proof.
  intros Hf Hg H. unfold SetNonblocking in H. rewrite Hg in H. simpl in H. apply bind_Some in H as (r & _ & H). injection H as H.
  destruct r; [|done]. simpl in H. injection H as <-. change O_NONBLOCK with (2 ^ 11).
  assert (0 <= Z.lor flags (2 ^ 11)) by (apply Z.lor_nonneg; lia). split.
  - rewrite nonblocking_flag by done. f_equal. rewrite Z.lor_spec, Z.pow2_bits_true by done. apply orb_true_r.
  - intros Hm Hne. rewrite Z.lor_spec, Z.pow2_bits_false by done. apply orb_false_r.
Qed.

End Sockets.
