(* ===== verification/Lifecycle.v ===== *)
(** * Starting and destroying the gateway

    Models Gateway::Start and the destructor of src/src/gateway/Gateway.cpp over
    the modelled workers, the coordinator's thread included (Start, Stop and
    DrainOutcomesAndWait of src/src/health/Coordinator.cpp): the coordinator, the
    workers and their data come up in order, any step may fail, and the
    destructor takes down what exists, the data on its worker's thread.  What the system answers is given: how the starts
    end, the results of the wake writes, whether a worker's data can be made.
    Retiring generations are modelled in Retirement. *)

From S2P Require Import Prelude WorkerRuntime WorkerSet.

Module Lifecycle.

Inductive Lifecycle := kNotStarted | kStarting | kRunning | kStopped.

Inductive event :=
| ECoordinatorStarted
| EWorkersStarted
| EDataMade (index : nat)
| EListening
| EAcceptorClosed
| EOutcomesStopping
| EDestroyPosted (index : nat)
| EWorkersStopped
| EOutcomesDrained
| ECoordinatorStopped.

(** The coordinator's [runtime_] and whether its [loop_data_] exists; in
    [worker_datas_], which slots hold data. *)
Record t := mk {
  lifecycle_ : Lifecycle;
  runtime_ : WorkerRuntime.t;
  loop_data_ : bool;
  workers_ : option WorkerSet.t;
  worker_datas_ : list bool;
  log : list event
}.

Definition make (cap : nat) : t := mk kNotStarted (WorkerSet.fresh cap) false None [] [].

Definition with_lifecycle (l : Lifecycle) (g : t) : t := mk l (runtime_ g) (loop_data_ g) (workers_ g) (worker_datas_ g) (log g).
Definition with_coordinator (w : WorkerRuntime.t) (d : bool) (g : t) : t := mk (lifecycle_ g) w d (workers_ g) (worker_datas_ g) (log g).
Definition with_workers (s : WorkerSet.t) (ds : list bool) (g : t) : t := mk (lifecycle_ g) (runtime_ g) (loop_data_ g) (Some s) ds (log g).
Definition say (es : list event) (g : t) : t := mk (lifecycle_ g) (runtime_ g) (loop_data_ g) (workers_ g) (worker_datas_ g) (log g ++ es).

Abbreviation write_result := WorkerRuntime.write_result.

(** ** Waiting for a task *)

(** A thread runs until it waits again. *)
Fixpoint settle (fuel : nat) (w : WorkerRuntime.t) : option WorkerRuntime.t :=
  match WorkerRuntime.worker_step w with
  | None => Some w
  | Some w => match fuel with O => None | S fuel => settle fuel w end
  end.

(** A task is posted and its completion awaited; [false]: it was refused. *)
Definition post_and_wait (fuel : nat) (task : WorkerRuntime.Task) (rs : list write_result) (w : WorkerRuntime.t)
    : option (WorkerRuntime.t * bool) :=
  '(w, ok) ← WorkerRuntime.PostTask (WorkerRuntime.started_ w) task rs w;
  if (ok : bool) then w ← settle fuel w; Some (w, true) else Some (w, false).

(** ** The coordinator's thread *)

(** How its start ends: the thread; the wake write of the initialisation and
    whether it throws; the same of the activation. *)
Record coordinator_answers := mkCoordinator {
  thread_ok : bool;
  prepare : list write_result * bool;
  activate : list write_result * bool
}.

(** [Coordinator::Start]: the runtime, whether [loop_data_] exists, and [false]
    for the exception. *)
Definition start_coordinator (fuel : nat) (a : coordinator_answers) (w : WorkerRuntime.t) : option (WorkerRuntime.t * bool * bool) :=
  '(w, up) ← WorkerSet.start_worker (thread_ok a) w;
  if negb up then Some (w, false, false)
  else
    '(w, ok) ← post_and_wait fuel (WorkerRuntime.with_loop 0) (prepare a).1 w;
    if negb (ok && (prepare a).2) then Some (w, false, false)
    else
      '(w, ok) ← post_and_wait fuel (WorkerRuntime.with_loop 1) (activate a).1 w;
      Some (w, true, ok && (activate a).2).

(** [Coordinator::Stop]; [None] in the inner result: [std::terminate]. *)
Definition stop_coordinator (fuel : nat) (data : bool) (rs : list write_result) (w : WorkerRuntime.t) : option (option WorkerRuntime.t) :=
  '(w, ok) ← (if data then WorkerRuntime.PostShutdown (WorkerRuntime.with_loop 2) rs w else Some (w, true));
  if negb ok then Some None else w ← WorkerSet.stop_worker fuel w; Some (Some w).

(** ** Start *)

(** How the steps of [Start] end: the coordinator starts; the set of workers can
    be constructed; each worker comes up; for each worker the wake write of its
    initialisation and whether its data can be made; the listen call. *)
Record answers := mkAnswers {
  coordinator : coordinator_answers;
  construct_ok : bool;
  starts : list bool;
  inits : list (list write_result * bool);
  listen_ok : bool
}.

(** [PostWithLoop] of the initialisation and the wait for it; [false]: refused,
    or the data could not be made. *)
Definition init_worker (fuel index : nat) (init : list write_result * bool) (w : WorkerRuntime.t) : option (WorkerRuntime.t * bool) :=
  '(w, ok) ← post_and_wait fuel (WorkerRuntime.with_loop index) init.1 w;
  Some (w, ok && init.2).

(** The workers and the slots filled; [false]: an exception at some worker. *)
Fixpoint init_all (fuel index : nat) (ws : list WorkerRuntime.t) (xs : list (list write_result * bool))
    : option (list WorkerRuntime.t * list bool * bool) :=
  match ws, xs with
  | [], _ => Some ([], [], true)
  | w :: ws, x :: xs =>
      '(w, ok) ← init_worker fuel index x w;
      if (ok : bool) then '(ws, ds, ok) ← init_all fuel (S index) ws xs; Some (w :: ws, true :: ds, ok)
      else Some (w :: ws, false :: replicate (length ws) false, false)
  | _ :: _, [] => None
  end.

Definition made_events (ds : list bool) : list event :=
  omap (fun p => if (p.2 : bool) then Some (EDataMade p.1) else None) (zip (seq 0 (length ds)) ds).

(** [false]: the exception. *)
Definition Start (fuel count cap : nat) (a : answers) (g : t) : option (t * bool) :=
  match lifecycle_ g with
  | kNotStarted =>
      let g := with_lifecycle kStarting g in
      '(w, d, ok) ← start_coordinator fuel (coordinator a) (runtime_ g);
      let g := with_coordinator w d g in
      if negb ok then Some (g, false)
      else
        let g := say [ECoordinatorStarted] g in
        if negb (construct_ok a) then Some (g, false)
        else
          s ← WorkerSet.make count cap;
          '(s, up) ← WorkerSet.Start fuel (starts a) s;
          if negb up then Some (with_workers s [] g, false)
          else
            '(ws, ds, ok) ← init_all fuel 0 (WorkerSet.workers_ s) (inits a);
            let g := say (EWorkersStarted :: made_events ds) (with_workers (WorkerSet.mk ws (WorkerSet.next_ s)) ds g) in
            if negb ok || negb (listen_ok a) then Some (g, false)
            else Some (with_lifecycle kRunning (say [EListening] g), true)
  | _ => Some (g, false)
  end.

(** ** The destructor *)

Inductive destroyed := Done (g : t) | Terminated.

(** The shutdown tasks are posted, in the order of the workers; [None] in the
    inner result: a post was refused. *)
Fixpoint post_shutdowns (index : nat) (ws : list WorkerRuntime.t) (ds : list bool) (writes : list (list write_result))
    : option (option (list WorkerRuntime.t)) :=
  match ws, ds with
  | w :: ws, true :: ds =>
      match writes with
      | [] => None
      | rs :: writes =>
          '(w, ok) ← WorkerRuntime.PostShutdown (WorkerRuntime.with_loop index) rs w;
          if negb ok then Some None
          else r ← post_shutdowns (S index) ws ds writes; Some (option_map (cons w) r)
      end
  | w :: ws, false :: ds => r ← post_shutdowns (S index) ws ds writes; Some (option_map (cons w) r)
  | ws, _ => Some (Some ws)
  end.

Definition posted_events (ds : list bool) : list event :=
  omap (fun p => if (p.2 : bool) then Some (EDestroyPosted p.1) else None) (zip (seq 0 (length ds)) ds).

(** The slots whose destroy task has not run on their worker. *)
Definition slots_left (index : nat) (ds : list bool) (ws : list WorkerRuntime.t) : list bool :=
  zip_with (fun p w => (p.2 : bool) && negb (bool_decide (WorkerRuntime.with_loop p.1 ∈ WorkerRuntime.shutdown_ran w)))
           (zip (seq index (length ds)) ds) ws.

(** The wake writes of the shutdown tasks, of the drain and of the coordinator's
    shutdown task. *)
Record writes := mkWrites { shutdowns : list (list write_result); drain : list write_result; last_shutdown : list write_result }.

(** The workers' part: their data and their threads; [None] in the inner result:
    [std::terminate]. *)
Definition destroy_workers (fuel : nat) (rss : list (list write_result)) (g : t) : option (option t) :=
  match workers_ g with
  | None => Some (Some g)
  | Some s =>
      r ← post_shutdowns 0 (WorkerSet.workers_ s) (worker_datas_ g) rss;
      match r with
      | None => Some None
      | Some ws =>
          s ← WorkerSet.StopAll fuel (WorkerSet.mk ws (WorkerSet.next_ s));
          Some (Some (say (posted_events (worker_datas_ g))
                          (with_workers s (slots_left 0 (worker_datas_ g) (WorkerSet.workers_ s)) g)))
      end
  end.

(** The coordinator's part: a refused drain is an exception in a destructor. *)
Definition destroy_coordinator (fuel : nat) (x : writes) (g : t) : option destroyed :=
  '(w, ok) ← post_and_wait fuel (WorkerRuntime.plain 3) (drain x) (runtime_ g);
  if negb ok then Some Terminated
  else
    r ← stop_coordinator fuel (loop_data_ g) (last_shutdown x) w;
    Some (match r with
          | None => Terminated
          | Some w => Done (say [EOutcomesDrained; ECoordinatorStopped] (with_coordinator w false g))
          end).

Definition destroy (fuel : nat) (x : writes) (g : t) : option destroyed :=
  let g := say [EAcceptorClosed; EOutcomesStopping] (with_lifecycle kStopped g) in
  r ← destroy_workers fuel (shutdowns x) g;
  match r with
  | None => Some Terminated
  | Some g => destroy_coordinator fuel x (say [EWorkersStopped] g)
  end.

(** ** What is left *)

(** A wake write that ends (the retries of EINTR stop). *)
Definition ends (rs : list write_result) : Prop := exists n r rest, rs = replicate n WorkerRuntime.Interrupted ++ r :: rest /\ r <> WorkerRuntime.Interrupted.
Definition writes_ok (rs : list write_result) : Prop := exists n rest, rs = replicate n WorkerRuntime.Interrupted ++ WorkerRuntime.Wrote :: rest.

Lemma WakeLocked_ok rs w :
  writes_ok rs -> WorkerRuntime.wake_fd_ w = true -> WorkerRuntime.WakeLocked rs w = Some (WorkerRuntime.eventfd_write w, true).
Proof. intros (n & rest & ->) Hw. induction n as [|n IH]; simpl; by rewrite Hw. Qed.

Lemma WakeLocked_ends rs w :
  ends rs -> WorkerRuntime.wake_fd_ w = true ->
  WorkerRuntime.WakeLocked rs w = Some (WorkerRuntime.eventfd_write w, true) \/
  (~ writes_ok rs /\ WorkerRuntime.WakeLocked rs w = Some (w, false)).
Proof.
  intros (n & r & rest & -> & Hr) Hw. destruct r; [done| |].
  - left. apply WakeLocked_ok; [|done]. by exists n, rest.
  - right. split.
    + intros (m & rest' & E). revert m E. induction n as [|n IH]; intros [|m] E; simplify_eq/=. by eapply IH.
    + induction n as [|n IH]; simpl; by rewrite Hw.
Qed.

Lemma writes_ok_ends rs : writes_ok rs -> ends rs.
Proof. intros (n & rest & ->). by exists n, WorkerRuntime.Wrote, rest. Qed.

(** A worker that is up and has run [h]; the same with a shutdown task taken
    up; the worker after it was stopped. *)
Definition idle (cap : nat) (h : list WorkerRuntime.Task) : WorkerRuntime.t :=
  WorkerRuntime.mk cap true 0 [] None true true true false WorkerRuntime.Parked WorkerRuntime.OwnerIdle h h [] [] [] 0 false.
Definition asked (cap : nat) (h : list WorkerRuntime.Task) (k : WorkerRuntime.Task) : WorkerRuntime.t :=
  WorkerRuntime.mk cap true 1 [] (Some k) true true true false WorkerRuntime.Parked WorkerRuntime.OwnerIdle h h [k] [] [] 0 false.
Definition over (cap : nat) (h ks : list WorkerRuntime.Task) : WorkerRuntime.t :=
  WorkerRuntime.mk cap false 0 [] None false true true true WorkerRuntime.Exited WorkerRuntime.OwnerIdle h h ks ks [] 1 false.

Lemma over_gone cap h ks : WorkerSet.gone (over cap h ks).
Proof. split_and!; auto. Qed.

Lemma post_and_wait_idle fuel k rs cap h :
  (6 <= fuel)%nat -> (0 < cap)%nat -> ends rs ->
  post_and_wait fuel k rs (idle cap h) = Some (idle cap (h ++ [k]), true) \/
  (~ writes_ok rs /\ post_and_wait fuel k rs (idle cap h) = Some (idle cap h, false)).
Proof.
  intros Hf Hc Hx. unfold post_and_wait, WorkerRuntime.PostTask. simpl. rewrite bool_decide_eq_false_2 by lia.
  destruct (WakeLocked_ends rs (WorkerRuntime.with_queue [k] (h ++ [k]) h (idle cap h)) Hx eq_refl) as [E|[Hn E]];
    rewrite E; clear E; simpl; [left|by right].
  do 6 (destruct fuel as [|fuel]; [lia|]). by destruct fuel.
Qed.

Lemma init_worker_idle fuel index x cap :
  (6 <= fuel)%nat -> (0 < cap)%nat -> ends x.1 ->
  exists h ok, init_worker fuel index x (idle cap []) = Some (idle cap h, ok).
Proof.
  intros Hf Hc Hx. unfold init_worker. destruct (post_and_wait_idle fuel (WorkerRuntime.with_loop index) x.1 cap [] Hf Hc Hx) as [E|[_ E]];
    rewrite E; simpl; eauto.
Qed.

Lemma PostShutdown_idle cap h k rs :
  writes_ok rs -> WorkerRuntime.PostShutdown k rs (idle cap h) = Some (asked cap h k, true).
Proof. intros Hr. unfold WorkerRuntime.PostShutdown. simpl. by rewrite WakeLocked_ok. Qed.

Lemma stop_idle fuel cap h : (6 <= fuel)%nat -> WorkerSet.stop_worker fuel (idle cap h) = Some (over cap h []).
Proof. intros H. do 6 (destruct fuel as [|fuel]; [lia|]). by destruct fuel. Qed.

Lemma stop_asked fuel cap h k : (6 <= fuel)%nat -> WorkerSet.stop_worker fuel (asked cap h k) = Some (over cap h [k]).
Proof. intros H. do 6 (destruct fuel as [|fuel]; [lia|]). by destruct fuel. Qed.

Definition is_idle (cap : nat) (w : WorkerRuntime.t) : Prop := exists h, w = idle cap h.

Lemma init_all_spec fuel cap n index xs :
  (6 <= fuel)%nat -> (0 < cap)%nat -> length xs = n -> Forall (fun x => ends x.1) xs ->
  exists ws ds ok, init_all fuel index (replicate n (idle cap [])) xs = Some (ws, ds, ok) /\
    Forall (is_idle cap) ws /\ length ws = n /\ length ds = n /\ (ok = true -> ds = replicate n true).
Proof.
  intros Hf Hc <- Hx. revert index. induction Hx as [|x xs Hx _ IH]; intros index; simpl; [by exists [], [], true|].
  destruct (init_worker_idle fuel index x cap Hf Hc Hx) as (h & ok & ->). simpl. destruct ok.
  - destruct (IH (S index)) as (ws & ds & ok & -> & H1 & H2 & H3 & H4). simpl. eexists _, _, _. split; [done|]. simpl.
    split_and!; [constructor; [by eexists|done]|by f_equal|by f_equal|]. intros Hok. by rewrite H4.
  - eexists _, _, _. split; [done|]. simpl. rewrite !length_replicate.
    split_and!; [|done|done|done]. constructor; [by eexists|]. apply Forall_replicate. by exists [].
Qed.

(** The shutdown tasks are accepted, run, and the workers end. *)
Lemma shutdown_all fuel cap ws ds writes index :
  (6 <= fuel)%nat -> Forall (is_idle cap) ws -> length ds = length ws -> Forall writes_ok writes -> (length ws <= length writes)%nat ->
  exists ws1 ws2, post_shutdowns index ws ds writes = Some (Some ws1) /\ WorkerSet.stop_all fuel ws1 = Some ws2 /\
    Forall WorkerSet.gone ws2 /\ Forall (fun b => b = false) (slots_left index ds ws2) /\ length ws2 = length ws.
Proof.
  intros Hf Hi. revert ds writes index. induction Hi as [|w ws [h ->] _ IH]; intros ds writes index Hl Hw Hn.
  { destruct ds; [|done]. by exists [], []. }
  destruct ds as [|d ds]; [done|]. injection Hl as Hl. simpl in Hn. destruct d; simpl.
  - destruct Hw as [|rs writes Hrs Hw]; [simpl in Hn; lia|]. simpl in Hn. rewrite PostShutdown_idle by done. cbn.
    destruct (IH ds writes (S index) Hl Hw ltac:(lia)) as (ws1 & ws2 & -> & E2 & H3 & H4 & H5). simpl.
    eexists _, (over cap h [WorkerRuntime.with_loop index] :: ws2). split; [done|]. cbn [WorkerSet.stop_all].
    rewrite stop_asked by done. simpl. rewrite E2. simpl. split_and!; [done|constructor; [apply over_gone|done]| |by f_equal].
    unfold slots_left in *. simpl. constructor; [by rewrite bool_decide_eq_true_2 by apply list_elem_of_here|done].
  - destruct (IH ds writes (S index) Hl Hw ltac:(lia)) as (ws1 & ws2 & -> & E2 & H3 & H4 & H5). simpl.
    eexists _, (over cap h [] :: ws2). split; [done|]. cbn [WorkerSet.stop_all].
    rewrite stop_idle by done. simpl. rewrite E2. simpl. split_and!; [done|constructor; [apply over_gone|done]| |by f_equal].
    unfold slots_left in *. simpl. by constructor.
Qed.

(** The state [Start] leaves: a coordinator whose thread runs, and no workers,
    workers that were rolled back, or idle workers with some slots filled. *)
Definition workers_started (cap : nat) (g : t) : Prop :=
  match workers_ g with
  | None => worker_datas_ g = []
  | Some s =>
      (worker_datas_ g = [] /\ Forall (fun w => w ∈ [WorkerSet.fresh cap; WorkerSet.up cap; WorkerSet.down cap; WorkerSet.failed cap]) (WorkerSet.workers_ s)) \/
      (Forall (is_idle cap) (WorkerSet.workers_ s) /\ length (worker_datas_ g) = length (WorkerSet.workers_ s))
  end.

Definition worker_list (g : t) : list WorkerRuntime.t := from_option WorkerSet.workers_ [] (workers_ g).

(** How [Start] ends: with [true] the gateway runs, with [false] it does not
    listen. *)
Definition outcome (count : nat) (g : t) (ok : bool) : Prop :=
  if ok then lifecycle_ g = kRunning /\ worker_datas_ g = replicate count true
  else lifecycle_ g = kStarting /\ EListening ∉ log g.

Lemma start_coordinator_up fuel a cap :
  (6 <= fuel)%nat -> (0 < cap)%nat -> thread_ok a = true -> ends (prepare a).1 -> ends (activate a).1 ->
  exists h d ok, start_coordinator fuel a (WorkerSet.fresh cap) = Some (idle cap h, d, ok).
Proof.
  intros Hf Hc Ht H1 H2. unfold start_coordinator. rewrite Ht, WorkerSet.start_worker_up. cbn [mbind option_bind negb].
  change (WorkerSet.up cap) with (idle cap []).
  destruct (post_and_wait_idle fuel (WorkerRuntime.with_loop 0) (prepare a).1 cap [] Hf Hc H1) as [E|[_ E]]; rewrite E; simpl; [|by eauto].
  destruct (prepare a).2; simpl; [|by eauto].
  destruct (post_and_wait_idle fuel (WorkerRuntime.with_loop 1) (activate a).1 cap [WorkerRuntime.with_loop 0] Hf Hc H2) as [E2|[_ E2]];
    rewrite E2; simpl; eauto.
Qed.

(** The workers' part of [Start]. *)
Lemma Start_started fuel count cap a :
  (6 <= fuel)%nat -> (0 < count)%nat -> (0 < cap)%nat -> length (starts a) = count -> length (inits a) = count ->
  Forall (fun x => ends x.1) (inits a) ->
  thread_ok (coordinator a) = true -> ends (prepare (coordinator a)).1 -> ends (activate (coordinator a)).1 ->
  exists g ok, Start fuel count cap a (make cap) = Some (g, ok) /\ is_idle cap (runtime_ g) /\ workers_started cap g /\
    (length (worker_list g) <= count)%nat /\ outcome count g ok.
Proof.
  intros Hf Hn Hc Hs Hi Hx Ht H1 H2. unfold Start. cbn [lifecycle_ make].
  destruct (start_coordinator_up fuel (coordinator a) cap Hf Hc Ht H1 H2) as (h & d & ok & E).
  change (runtime_ (with_lifecycle kStarting (make cap))) with (WorkerSet.fresh cap). rewrite E. clear E. cbn [mbind option_bind].
  assert (Hh : is_idle cap (idle cap h)) by by eexists.
  destruct ok; simpl. 2: { eexists _, _. split; [done|]. split; [done|]. split; [done|]. split; [simpl; lia|]. split; [done|simpl; set_solver]. }
  destruct (construct_ok a); simpl. 2: { eexists _, _. split; [done|]. split; [done|]. split; [done|]. split; [simpl; lia|]. split; [done|simpl; set_solver]. }
  unfold WorkerSet.make. rewrite bool_decide_eq_false_2 by lia. unfold WorkerRuntime.make. rewrite bool_decide_eq_false_2 by lia.
  cbn [mbind option_bind]. unfold WorkerSet.Start. cbn [WorkerSet.workers_].
  pose proof (WorkerSet.start_from_spec fuel cap (starts a) 0 Hf) as HS. rewrite Hs in HS. cbn [replicate] in HS.
  change (WorkerRuntime.mk _ _ _ _ _ _ _ _ _ _ _ _ _ _ _ _ _ _) with (WorkerSet.fresh cap). rewrite HS. clear HS.
  destruct (forallb id (starts a)) eqn:Eg; simpl.
  - destruct (init_all_spec fuel cap count 0 (inits a) Hf Hc Hi Hx) as (ws & ds & ok & E & W1 & W2 & W3 & W4).
    change (WorkerSet.up cap) with (idle cap []). rewrite E. clear E. simpl.
    assert (Hev : EListening ∉ ([ECoordinatorStarted] ++ EWorkersStarted :: made_events ds)).
    { intros [H|[?|H]%elem_of_cons]%elem_of_app; [set_solver|done|]. apply list_elem_of_omap in H as ([i []] & _ & ?); done. }
    destruct ok, (listen_ok a); simpl; eexists _, _; (split; [done|]);
      (split; [done|]; split; [right; simpl; split; [done|congruence]|]; split; [unfold worker_list; simpl; lia|]); split; try done. by apply W4.
  - eexists _, _. split; [done|]. split; [done|]. split; [|split; [unfold worker_list; simpl|split; [done|simpl; set_solver]]].
    + left. simpl. split; [done|]. apply Forall_app. split; [apply Forall_replicate; set_solver|].
      apply Forall_cons. split; [set_solver|]. apply Forall_replicate. set_solver.
    + rewrite length_app. cbn [length]. rewrite !length_replicate.
      apply WorkerSet.good_starts_spec, lookup_lt_Some in Eg. lia.
Qed.

Lemma destroy_workers_started fuel cap rss g :
  (6 <= fuel)%nat -> workers_started cap g -> Forall writes_ok rss -> (length (worker_list g) <= length rss)%nat ->
  exists g', destroy_workers fuel rss g = Some (Some g') /\ lifecycle_ g' = lifecycle_ g /\ runtime_ g' = runtime_ g /\
    Forall (fun b => b = false) (worker_datas_ g') /\ Forall WorkerSet.gone (worker_list g') /\
    log g' = log g ++ posted_events (worker_datas_ g).
Proof.
  intros Hf Hg Hw Hn. unfold destroy_workers. unfold workers_started in Hg. unfold worker_list in *. destruct (workers_ g) as [[ws nx]|] eqn:Hs.
  2: { exists g. split; [done|]. rewrite Hg, Hs. split_and!; try done. by rewrite app_nil_r. }
  simpl in *. destruct Hg as [[Hd Hg]|[Hi Hl]].
  - rewrite Hd. assert (Hp : post_shutdowns 0 ws [] rss = Some (Some ws)) by (by destruct ws). rewrite Hp. simpl.
    destruct (WorkerSet.stop_all_gone fuel cap ws Hf Hg) as (ws' & E & Hgone). unfold WorkerSet.StopAll. simpl. rewrite E. simpl.
    eexists. split; [done|]. by split_and!.
  - destruct (shutdown_all fuel cap ws (worker_datas_ g) rss 0 Hf Hi Hl Hw Hn) as (ws1 & ws2 & -> & E2 & H3 & H4 & H5). simpl.
    unfold WorkerSet.StopAll. simpl. rewrite E2. simpl. eexists. split; [done|]. by split_and!.
Qed.

Lemma destroy_coordinator_up fuel cap x g :
  (6 <= fuel)%nat -> (0 < cap)%nat -> is_idle cap (runtime_ g) -> writes_ok (drain x) -> writes_ok (last_shutdown x) ->
  exists w, destroy_coordinator fuel x g = Some (Done (say [EOutcomesDrained; ECoordinatorStopped] (with_coordinator w false g))) /\
    WorkerSet.gone w.
Proof.
  intros Hf Hc (h & Hh) Hd Hl. unfold destroy_coordinator. rewrite Hh.
  destruct (post_and_wait_idle fuel (WorkerRuntime.plain 3) (drain x) cap h Hf Hc (writes_ok_ends _ Hd)) as [->|[? _]]; [|done]. simpl.
  unfold stop_coordinator. destruct (loop_data_ g).
  - rewrite PostShutdown_idle by done. cbn [mbind option_bind negb]. rewrite stop_asked by done. simpl.
    eexists. split; [done|apply over_gone].
  - cbn [mbind option_bind negb]. rewrite stop_idle by done. simpl. eexists. split; [done|apply over_gone].
Qed.

(** C25: The gateway comes up completely or not at all, and comes down: whichever
    step of [Start] fails after the coordinator's thread is up (its preparation
    or activation, the set of workers, one worker, the post of an
    initialisation, the data of one worker, the listening socket), the call
    throws and the gateway does not listen; when none fails it runs with every
    worker's data in place.  From either state the destructor ends without
    terminating the process: every slot was emptied by its own worker's thread,
    no thread is left, every wake descriptor is closed once, and the coordinator
    is drained and stopped after the workers. *)
Theorem gateway_up_and_down fuel count cap a x :
  (6 <= fuel)%nat -> (0 < count)%nat -> (0 < cap)%nat -> length (starts a) = count -> length (inits a) = count ->
  Forall (fun x => ends x.1) (inits a) ->
  thread_ok (coordinator a) = true -> ends (prepare (coordinator a)).1 -> ends (activate (coordinator a)).1 ->
  length (shutdowns x) = count -> Forall writes_ok (shutdowns x) -> writes_ok (drain x) -> writes_ok (last_shutdown x) ->
  exists g ok g', Start fuel count cap a (make cap) = Some (g, ok) /\ destroy fuel x g = Some (Done g') /\
    outcome count g ok /\ lifecycle_ g' = kStopped /\ Forall (fun b => b = false) (worker_datas_ g') /\
    Forall WorkerSet.gone (runtime_ g' :: worker_list g') /\
    log g' = log g ++ [EAcceptorClosed; EOutcomesStopping] ++ posted_events (worker_datas_ g) ++
             [EWorkersStopped; EOutcomesDrained; ECoordinatorStopped].
Proof.
  intros Hf Hn Hc Hs Hi Hx Ht H1 H2 Hl Hw Hd Hla.
  destruct (Start_started fuel count cap a Hf Hn Hc Hs Hi Hx Ht H1 H2) as (g & ok & E & Hr & Hg & Hlen & Hok).
  destruct (destroy_workers_started fuel cap (shutdowns x) (say [EAcceptorClosed; EOutcomesStopping] (with_lifecycle kStopped g)) Hf Hg Hw)
    as (g1 & E1 & L1 & L2 & L3 & L4 & L5); [unfold worker_list in *; simpl; lia|].
  destruct (destroy_coordinator_up fuel cap x (say [EWorkersStopped] g1) Hf Hc) as (w & E2 & Hgone); [simpl; by rewrite L2|done|done|].
  eexists g, ok, _. split; [done|]. unfold destroy. cbv zeta. rewrite E1. cbn [mbind option_bind]. split; [exact E2|]. simpl.
  split_and!; try done; [by constructor|]. rewrite L5. simpl. by rewrite <- !app_assoc.
Qed.

(** The data of the third worker cannot be made. *)
Definition wrote : list write_result := [WorkerRuntime.Wrote].
Definition example_answers : answers :=
  mkAnswers (mkCoordinator true (wrote, true) (wrote, true)) true [true; true; true]
    [(wrote, true); (WorkerRuntime.Interrupted :: wrote, true); (wrote, false)] true.
Definition example_writes : writes := mkWrites [wrote; wrote; wrote] wrote wrote.
Definition example_started : t := Eval vm_compute in from_option fst (make 4) (Start 6 3 4 example_answers (make 4)).
Definition example_gone : t :=
  Eval vm_compute in match destroy 6 example_writes example_started with Some (Done g) => g | _ => make 4 end.

Lemma gateway_up_and_down_witness :
  Start 6 3 4 example_answers (make 4) = Some (example_started, false) /\
  destroy 6 example_writes example_started = Some (Done example_gone) /\
  worker_datas_ example_started = [true; true; false] /\ worker_datas_ example_gone = [false; false; false] /\
  exists g ok g', Start 6 3 4 example_answers (make 4) = Some (g, ok) /\ destroy 6 example_writes g = Some (Done g') /\
    lifecycle_ g' = kStopped.
Proof.
  assert (Hw : writes_ok wrote) by (exists 0%nat, []; reflexivity).
  assert (He : ends wrote) by (exists 0%nat, WorkerRuntime.Wrote, []; split; [reflexivity|discriminate]).
  split; [vm_compute; reflexivity|]. split; [vm_compute; reflexivity|]. split; [reflexivity|]. split; [reflexivity|].
  destruct (gateway_up_and_down 6 3 4 example_answers example_writes) as (g & ok & g' & H1 & H2 & _ & H4 & _);
    [lia|lia|lia|reflexivity|reflexivity| |reflexivity|exact He|exact He|reflexivity| |exact Hw|exact Hw|].
  - constructor; [exact He|]. constructor; [exists 1%nat, WorkerRuntime.Wrote, []; split; [reflexivity|discriminate]|].
    constructor; [exact He|constructor].
  - constructor; [exact Hw|]. constructor; [exact Hw|]. constructor; [exact Hw|constructor].
  - exists g, ok, g'. split; [exact H1|]. split; [exact H2|exact H4].
Defined.

(** Destroying a gateway that was never started, or whose coordinator's thread
    could not be started, terminates the process: the drain is refused and its
    exception leaves the destructor. *)
Theorem unstarted_destruction_terminates fuel cap x : destroy fuel x (make cap) = Some Terminated.
Proof. done. Qed.

Theorem failed_coordinator_terminates fuel count cap a x :
  thread_ok (coordinator a) = false ->
  exists g, Start fuel count cap a (make cap) = Some (g, false) /\ destroy fuel x g = Some Terminated.
Proof.
  intros Ht. unfold Start. simpl. unfold start_coordinator. rewrite Ht, WorkerSet.start_worker_failed. simpl. by eexists.
Qed.

End Lifecycle.
