(* ===== verification/Migration.v ===== *)
(** * Reloading: the candidate generation takes over the protection state

    Models Gateway::RequestReload (src/src/gateway/Gateway.cpp) with the two
    coordinators it talks to: the construction of the candidate (the constructor
    of src/src/runtime/RuntimeGeneration.cpp), and the calls
    ExportProtectionSnapshotAndWait and ImportProtectionSnapshotAndWait of
    src/src/health/Coordinator.cpp, in which the control thread posts a task to a
    coordinator's thread and waits for it with a timeout.  Each critical section
    of the CompletionState's mutex is one step; the previous coordinator goes on
    working in between.  Publication and retirement are in Retirement. *)

From S2P Require Import Prelude Bytes Types Admission CircuitBreaker CoordinatorState TimerQueue Coordinator Selection Retirement.

Module Migration.
Import CoordinatorState(HealthCircuitSnapshot, EndpointState, lookup, configured, unique_identities, shaped, breaker_, health).

Abbreviation Snapshot := (list ProtectionSnapshot.EndpointProtectionSnapshot).

(** The object the two threads share; [snapshot] is used by the export only.
    [ok] is set where [done] is. *)
Record CompletionState := mkCompletion { done : bool; cancelled : bool; snapshot : option Snapshot }.

Definition fresh_completion : CompletionState := mkCompletion false false None.

(** A posted task: whether it still waits in the coordinator's queue, its
    completion and the snapshot the import task has copied. *)
Record posted := mkPosted { queued : bool; completion : CompletionState; copy : Snapshot }.

(** Where the control thread is in [RequestReload]. *)
Inductive control_at := CExport | CImport | CDone (reloaded : bool).

Record t := mk {
  previous : Coordinator.t;
  candidate : option Coordinator.t;
  exporting : option posted;
  importing : option posted;
  control : control_at
}.

Definition with_previous (p : Coordinator.t) (g : t) : t := mk p (candidate g) (exporting g) (importing g) (control g).
Definition with_candidate (c : Coordinator.t) (g : t) : t := mk (previous g) (Some c) (exporting g) (importing g) (control g).
Definition with_exporting (x : posted) (g : t) : t := mk (previous g) (candidate g) (Some x) (importing g) (control g).
Definition with_importing (x : posted) (g : t) : t := mk (previous g) (candidate g) (exporting g) (Some x) (control g).
Definition with_control (k : control_at) (g : t) : t := mk (previous g) (candidate g) (exporting g) (importing g) k.

Definition cancel (x : posted) : posted :=
  mkPosted (queued x) (mkCompletion (done (completion x)) true (snapshot (completion x))) (copy x).

(** ** The tasks, on the coordinators' threads *)

Definition run_export (now : Z) (c : Coordinator.t) (x : posted) : posted :=
  if cancelled (completion x) then mkPosted false (completion x) (copy x)
  else mkPosted false (mkCompletion true false (Some (CoordinatorState.ExportProtectionSnapshot now (Coordinator.state_ c)))) (copy x).

Definition run_import (now : Z) (c : Coordinator.t) (x : posted) : Coordinator.t * posted :=
  if cancelled (completion x) then (c, mkPosted false (completion x) (copy x))
  else (Coordinator.Publish (Coordinator.with_state c (CoordinatorState.ImportProtectionSnapshot (copy x) now (Coordinator.state_ c))),
        mkPosted false (mkCompletion true false None) (copy x)).

(** ** The control thread *)

(** The candidate is stopped: explicitly, or by its destructor after an
    exception. *)
Definition fail (g : t) : t :=
  mk (previous g) (Coordinator.Stop <$> candidate g) (exporting g) (importing g) (CDone false).

(** The import is posted; [accepted]: the queue takes the task. *)
Definition start_import (accepted : bool) (s : Snapshot) (g : t) : t :=
  match candidate g with
  | None => fail g
  | Some c =>
      if negb (bool_decide (Coordinator.lifecycle_ c = Coordinator.kPrepared)) then fail g
      else if negb accepted then fail g
      else with_control CImport (with_importing (mkPosted true fresh_completion s) g)
  end.

(** The export's wait ends with its predicate, or with the timeout: the
    predicate is evaluated once more under the lock. *)
Definition finish_export (accepted : bool) (x : posted) (g : t) : t :=
  if done (completion x) then
    match snapshot (completion x) with
    | Some s => start_import accepted s g
    | None => fail g
    end
  else fail (with_exporting (cancel x) g).

(** The same of the import, and the activation; [accepted]: its task is taken. *)
Definition finish_import (accepted : bool) (later : Z) (x : posted) (g : t) : t :=
  if done (completion x) then
    match candidate g with
    | None => fail g
    | Some c =>
        if negb accepted then fail g
        else let '(ok, c) := Coordinator.Activate later c in
             if ok : bool then with_control (CDone true) (with_candidate c g) else fail (with_candidate c g)
    end
  else fail (with_importing (cancel x) g).

Definition start_export (accepted : bool) (g : t) : t :=
  let l := Coordinator.lifecycle_ (previous g) in
  if negb (bool_decide (l = Coordinator.kPrepared)) && negb (bool_decide (l = Coordinator.kActive)) then fail g
  else if negb accepted then fail g
  else with_control CExport (with_exporting (mkPosted true fresh_completion []) g).

(** What a generation is made of; the coordinator holds the admissions. *)
Record bundle := mkBundle {
  version_ : Z;
  config_ : Config;
  coordinator_ : Coordinator.t;
  selection_states_ : list SelectionState.t
}.

(** The constructor of a generation; [None] is an exception of one of its
    parts. *)
Definition make_bundle (version : Z) (config : Config) (now now_admissions : Z) : option bundle :=
  c ← Coordinator.make config now;
  admissions ← mapM (fun r => GlobalAdmission.make r now_admissions) (routes config);
  states ← mapM (fun _ => SelectionState.make config version) (seq 0 (Z.to_nat (workers config)));
  Some (mkBundle version config (Coordinator.SetAdmissions admissions c) states).

(** What the call finds: the gateway runs, the number of retiring generations,
    the current version, the readings of the clock, whether the coordinator's thread starts and its
    initialisation ends well, whether the export's task is taken. *)
Record call := mkCall {
  running : bool; retiring : nat; version : Z;
  now_coordinator : Z; now_admissions : Z; now_refill : Z;
  thread_ok : bool; export_accepted : bool
}.

(** [RequestReload] up to its first wait. *)
Definition RequestReload (x : call) (config : Config) (p : Coordinator.t) : t :=
  let g := mk p None None None (CDone false) in
  if negb (running x) then g
  else if negb (workers config =? workers (Coordinator.config_ p)) then g
  else if bool_decide (Gateway.kMaxRetiringGenerations <= retiring x)%nat then g
  else match make_bundle (wrap_u64 (version x + 1)) config (now_coordinator x) (now_admissions x) with
       | None => g
       | Some b =>
           let c := coordinator_ b in
           if negb (thread_ok x) then fail (with_candidate c g)
           else match Coordinator.StartPrepared (now_refill x) c with
                | None => fail (with_candidate c g)
                | Some c => start_export (export_accepted x) (with_candidate c g)
                end
       end.

(** ** Runs *)

Inductive step : t -> t -> Prop :=
| st_previous g p : Coordinator.step (previous g) p -> step g (with_previous p g)
| st_export g x now : exporting g = Some x -> queued x = true -> step g (with_exporting (run_export now (previous g) x) g)
| st_import g x now c c' x' :
    importing g = Some x -> queued x = true -> candidate g = Some c -> run_import now c x = (c', x') ->
    step g (with_importing x' (with_candidate c' g))
| st_export_wait g x accepted : control g = CExport -> exporting g = Some x -> step g (finish_export accepted x g)
| st_import_wait g x accepted later : control g = CImport -> importing g = Some x -> step g (finish_import accepted later x g).

(** ** What holds in every run *)

(** A snapshot the previous coordinator exported on its way from [p0] to [p]. *)
Definition taken (p0 p : Coordinator.t) (s : Snapshot) : Prop :=
  exists q now, rtc Coordinator.step p0 q /\ rtc Coordinator.step q p /\
    s = CoordinatorState.ExportProtectionSnapshot now (Coordinator.state_ q).

(** The candidate before and after the import of a snapshot. *)
Definition prepared (c0 c : Coordinator.t) : Prop :=
  Coordinator.state_ c = Coordinator.state_ c0 /\ Coordinator.lifecycle_ c = Coordinator.kPrepared.
Definition imported (p0 p c0 c : Coordinator.t) : Prop :=
  exists s now, taken p0 p s /\
    CoordinatorState.BuildSnapshot (CoordinatorState.ImportProtectionSnapshot s now (Coordinator.state_ c0)) =
      (Coordinator.snapshot_ c, Coordinator.state_ c).

Definition stopped (c : Coordinator.t) : Prop := Coordinator.lifecycle_ c = Coordinator.kStopped /\ Coordinator.loop_data_ c = None.

Lemma taken_step p0 p p' s : taken p0 p s -> Coordinator.step p p' -> taken p0 p' s.
Proof. intros (q & now & H1 & H2 & ->) Hs. exists q, now. split; [done|]. split; [by eapply rtc_r|done]. Qed.

Lemma imported_step p0 p p' c0 c : imported p0 p c0 c -> Coordinator.step p p' -> imported p0 p' c0 c.
Proof. intros (s & now & H & E) Hs. exists s, now. split; [by eapply taken_step|done]. Qed.

(** The invariant: [c0] is the prepared candidate. *)
Definition export_inv (p0 p : Coordinator.t) (x : posted) : Prop :=
  if done (completion x) then queued x = false /\ exists s, snapshot (completion x) = Some s /\ taken p0 p s else True.

Definition inv (p0 c0 : Coordinator.t) (g : t) : Prop :=
  rtc Coordinator.step p0 (previous g) /\
  match control g with
  | CExport =>
      (exists c, candidate g = Some c /\ prepared c0 c) /\ importing g = None /\
      exists x, exporting g = Some x /\ cancelled (completion x) = false /\ export_inv p0 (previous g) x
  | CImport =>
      exists c x, candidate g = Some c /\ importing g = Some x /\ cancelled (completion x) = false /\
        taken p0 (previous g) (copy x) /\ Coordinator.lifecycle_ c = Coordinator.kPrepared /\
        if done (completion x) then queued x = false /\ imported p0 (previous g) c0 c
        else Coordinator.state_ c = Coordinator.state_ c0
  | CDone true =>
      (exists c, candidate g = Some c /\ Coordinator.lifecycle_ c = Coordinator.kActive /\ imported p0 (previous g) c0 c) /\
      (forall x, importing g = Some x -> queued x = false)
  | CDone false =>
      (forall c, candidate g = Some c -> stopped c) /\
      (forall x, importing g = Some x -> queued x = true -> cancelled (completion x) = true)
  end.

Lemma fail_inv p0 c0 g :
  rtc Coordinator.step p0 (previous g) ->
  (forall x, importing g = Some x -> queued x = true -> cancelled (completion x) = true) -> inv p0 c0 (fail g).
Proof.
  intros Hp Hi. split; [done|]. simpl. split; [|done].
  intros c Hc. destruct (candidate g); simplify_eq/=. done.
Qed.

Lemma Activate_keeps later c ok c' :
  Coordinator.Activate later c = (ok, c') ->
  Coordinator.state_ c' = Coordinator.state_ c /\ Coordinator.snapshot_ c' = Coordinator.snapshot_ c /\
  (ok = true -> Coordinator.lifecycle_ c' = Coordinator.kActive).
Proof.
  unfold Coordinator.Activate. destruct (negb _); [by intros [= <- <-]|]. unfold Coordinator.OnActivateLoopInit. simpl.
  destruct (Coordinator.loop_data_ c); [|by intros [= <- <-]]. case_bool_decide; [by intros [= <- <-]|].
  unfold Coordinator.ScheduleRefillTick. simpl. destruct (TimerQueue.ScheduleAfter _ _ _ _) as [[? q]|]; simpl; by intros [= <- <-].
Qed.

Lemma imported_keeps p0 p c0 c c' :
  imported p0 p c0 c -> Coordinator.state_ c' = Coordinator.state_ c -> Coordinator.snapshot_ c' = Coordinator.snapshot_ c ->
  imported p0 p c0 c'.
Proof. intros (s & now & H & E) E1 E2. exists s, now. split; [done|]. by rewrite E1, E2. Qed.

Lemma start_export_inv accepted p0 c0 g c :
  previous g = p0 -> importing g = None -> candidate g = Some c -> prepared c0 c -> inv p0 c0 (start_export accepted g).
Proof.
  intros Hp Hi Hc Hpr. unfold start_export.
  assert (Hf : inv p0 c0 (fail g)) by (apply fail_inv; [by rewrite Hp|by rewrite Hi]).
  destruct (_ && _); [done|]. destruct accepted; [|done]. split; simpl; [by rewrite Hp|].
  split; [by exists c|]. split; [done|]. by eexists.
Qed.

Lemma start_import_inv accepted p0 c0 g c s :
  rtc Coordinator.step p0 (previous g) -> importing g = None -> candidate g = Some c -> prepared c0 c ->
  taken p0 (previous g) s -> inv p0 c0 (start_import accepted s g).
Proof.
  intros Hp Hi Hc [Hs Hl] Ht. unfold start_import. rewrite Hc.
  assert (Hf : inv p0 c0 (fail g)) by (apply fail_inv; [done|by rewrite Hi]).
  rewrite bool_decide_eq_true_2 by done. simpl. destruct accepted; [|done]. split; [done|]. simpl. by eexists c, _.
Qed.

Lemma finish_export_inv accepted p0 c0 g x :
  inv p0 c0 g -> control g = CExport -> exporting g = Some x -> inv p0 c0 (finish_export accepted x g).
Proof.
  intros [Hp Hi] Hk Hx. rewrite Hk in Hi. destruct Hi as ((c & Hc & Hpr) & Hn & x' & Hx' & Hcan & He). assert (x' = x) as -> by congruence.
  unfold finish_export. unfold export_inv in He. destruct (done (completion x)).
  - destruct He as (_ & s & -> & Ht). by eapply start_import_inv.
  - apply fail_inv; [done|]. simpl. by rewrite Hn.
Qed.

Lemma finish_import_inv accepted later p0 c0 g x :
  inv p0 c0 g -> control g = CImport -> importing g = Some x -> inv p0 c0 (finish_import accepted later x g).
Proof.
  intros [Hp Hi] Hk Hx. rewrite Hk in Hi. destruct Hi as (c & x' & Hc & Hx' & Hcan & Ht & Hl & Hd). assert (x' = x) as -> by congruence.
  unfold finish_import. destruct (done (completion x)).
  - destruct Hd as [Hq Him]. rewrite Hc.
    assert (Hf : forall c', inv p0 c0 (fail (with_candidate c' g))) by (intros c'; apply fail_inv; [done|naive_solver]).
    destruct accepted; simpl; [|apply fail_inv; [done|naive_solver]].
    destruct (Coordinator.Activate later c) as [ok c'] eqn:Ea. destruct (Activate_keeps _ _ _ _ Ea) as (E1 & E2 & E3).
    destruct ok; [|done]. split; [done|]. simpl. split; [|naive_solver]. exists c'. split; [done|]. split; [by apply E3|].
    by eapply imported_keeps.
  - apply fail_inv; [done|]. simpl. intros y [= <-] _. done.
Qed.

Lemma run_import_inv now p0 c0 c x p c' x' :
  cancelled (completion x) = false -> queued x = true -> taken p0 p (copy x) -> Coordinator.lifecycle_ c = Coordinator.kPrepared ->
  Coordinator.state_ c = Coordinator.state_ c0 -> run_import now c x = (c', x') ->
  cancelled (completion x') = false /\ copy x' = copy x /\ done (completion x') = true /\ queued x' = false /\
  Coordinator.lifecycle_ c' = Coordinator.kPrepared /\ imported p0 p c0 c'.
Proof.
  intros Hc Hq Ht Hl Hs. unfold run_import. rewrite Hc. intros [= <- <-]. split_and!; try done.
  exists (copy x), now. split; [done|]. simpl. by rewrite Hs.
Qed.

Lemma migration_step_inv p0 c0 g g' : inv p0 c0 g -> step g g' -> inv p0 c0 g'.
Proof.
  intros Hg Hs. destruct Hs as [g p Hp|g x now Hx Hq|g x now c c' x' Hx Hq Hc Hr|g x a Hk Hx|g x a l Hk Hx].
  - destruct Hg as [H1 H2]. split; [simpl; by eapply rtc_r|]. simpl. destruct (control g) as [| |[]].
    + destruct H2 as (Hc & Hn & x & Hx & Hcan & He). split; [done|]. split; [done|]. exists x. split; [done|]. split; [done|].
      unfold export_inv in *. destruct (done (completion x)); [|done]. destruct He as (Hq & s & Hs & Ht).
      split; [done|]. exists s. split; [done|]. by eapply taken_step.
    + destruct H2 as (c & x & Hc & Hx & Hcan & Ht & Hl & Hd). exists c, x. split_and!; try done; [by eapply taken_step|].
      destruct (done (completion x)); [|done]. split; [by apply Hd|]. eapply imported_step; [apply Hd|done].
    + destruct H2 as [(c & Hc & Hl & Hi) H3]. split; [|done]. exists c. split; [done|]. split; [done|]. by eapply imported_step.
    + done.
  - destruct Hg as [H1 H2]. split; [done|]. simpl. destruct (control g); [|done..].
    destruct H2 as (Hc & Hn & y & Hy & Hcan & He). assert (y = x) as -> by congruence. split; [done|]. split; [done|]. eexists. split; [done|].
    unfold run_export. rewrite Hcan. split; [done|]. split; [done|]. simpl. eexists. split; [done|]. by exists (previous g), now.
  - destruct Hg as [H1 H2]. split; [done|]. simpl. destruct (control g) as [| |[]].
    + destruct H2 as (_ & Hn & _). congruence.
    + destruct H2 as (c1 & x1 & Hc1 & Hx1 & Hcan & Ht & Hl & Hd). assert (x1 = x) as -> by congruence. assert (c1 = c) as -> by congruence.
      assert (Hnd : done (completion x) = false) by (destruct (done (completion x)); [destruct Hd; congruence|done]).
      rewrite Hnd in Hd. destruct (run_import_inv _ _ _ _ _ _ _ _ Hcan Hq Ht Hl Hd Hr) as (E1 & E2 & E3 & E4 & E5 & E6).
      exists c', x'. rewrite E2, E3. by split_and!.
    + destruct H2 as [_ H2]. specialize (H2 x Hx). congruence.
    + destruct H2 as [H2 H3]. specialize (H3 x Hx Hq). unfold run_import in Hr. rewrite H3 in Hr. simplify_eq.
      split; [|naive_solver]. intros c1 [= <-]. by apply H2.
  - by eapply finish_export_inv.
  - by eapply finish_import_inv.
Qed.

(** The candidate's state after its preparation is that of its constructor. *)
Lemma make_bundle_fresh v config now na l b c' :
  make_bundle v config now na = Some b -> Coordinator.StartPrepared l (coordinator_ b) = Some c' ->
  exists s0, CoordinatorState.make config now = Some s0 /\ Coordinator.state_ c' = (CoordinatorState.BuildSnapshot s0).2 /\
    Coordinator.lifecycle_ c' = Coordinator.kPrepared.
Proof.
  unfold make_bundle, Coordinator.make. intros Hc Hp. repeat (apply bind_Some in Hc as (? & ? & Hc)); simplify_eq.
  unfold Coordinator.StartPrepared in Hp. repeat match goal with H : mbind _ _ = Some _ |- _ => apply bind_Some in H as (? & ? & ?) end.
  simplify_eq. simpl in Hp. unfold Coordinator.OnLoopInit in Hp. simpl in Hp. simplify_eq. by eexists.
Qed.

(** A coordinator with the candidate's fresh state. *)
Definition fresh_candidate (x : call) (config : Config) (p0 : Coordinator.t) : Coordinator.t :=
  Coordinator.with_state p0
    (from_option (fun s => (CoordinatorState.BuildSnapshot s).2) (Coordinator.state_ p0) (CoordinatorState.make config (now_coordinator x))).

Lemma RequestReload_begins x config p0 : inv p0 (fresh_candidate x config p0) (RequestReload x config p0).
Proof.
  assert (Hn : inv p0 (fresh_candidate x config p0) (mk p0 None None None (CDone false))) by (split; done).
  assert (Hf : forall c, inv p0 (fresh_candidate x config p0) (fail (with_candidate c (mk p0 None None None (CDone false)))))
    by (intros c; by apply fail_inv).
  unfold RequestReload. repeat (case_match; [done|]).
  destruct (make_bundle _ config _ _) as [b|] eqn:Hc; [|done]. cbv zeta. case_match; [done|].
  destruct (Coordinator.StartPrepared _ (coordinator_ b)) as [c'|] eqn:Hp; [|done].
  destruct (make_bundle_fresh _ _ _ _ _ _ _ Hc Hp) as (s0 & Hs & E1 & E2).
  eapply (start_export_inv _ _ _ _ c'); try done. split; [|done]. unfold fresh_candidate. by rewrite Hs.
Qed.

Lemma reload_inv x config p0 g : rtc step (RequestReload x config p0) g -> inv p0 (fresh_candidate x config p0) g.
Proof. intros H. eapply (rtc_preserves step (inv p0 _)); [|exact H|apply RequestReload_begins]. by intros; eapply migration_step_inv. Qed.

(** ** The call's answer is final *)

Lemma done_step p0 c0 b g g' :
  inv p0 c0 g -> control g = CDone b -> step g g' -> candidate g' = candidate g /\ control g' = CDone b.
Proof.
  intros [_ Hi] Hb Hs. rewrite Hb in Hi. destruct Hs as [| |g x now c c' x' Hx Hq Hc Hr| |]; try done; [|congruence..].
  assert (Hcan : cancelled (completion x) = true).
  { destruct b; destruct Hi as [_ Hi]; [|by apply Hi]. specialize (Hi x Hx). congruence. }
  unfold run_import in Hr. rewrite Hcan in Hr. simplify_eq/=. by rewrite Hc.
Qed.

Lemma done_final p0 c0 b g g' :
  inv p0 c0 g -> control g = CDone b -> rtc step g g' -> candidate g' = candidate g /\ control g' = CDone b.
Proof.
  intros Hi Hb Hs. induction Hs as [|g g1 g2 Hs _ IH]; [done|].
  destruct (done_step _ _ _ _ _ Hi Hb Hs) as [E1 E2]. rewrite <- E1. apply IH; [by eapply migration_step_inv|done].
Qed.

(** The waits end without the coordinators: the timeouts suffice. *)
Lemma control_ends p0 c0 g : inv p0 c0 g -> exists g' b, rtc step g g' /\ control g' = CDone b /\ previous g' = previous g.
Proof.
  intros [Hp Hi].
  assert (HI : forall g x, control g = CImport -> importing g = Some x -> exists g' b, rtc step g g' /\ control g' = CDone b /\ previous g' = previous g).
  { intros h x Hk Hx. exists (finish_import false 0 x h), false. split; [by apply rtc_once, st_import_wait|].
    unfold finish_import. destruct (done (completion x)); [|done]. by destruct (candidate h). }
  destruct (control g) as [| |b] eqn:Hk; [| |by exists g, b].
  - destruct Hi as (_ & _ & x & Hx & _). exists (finish_export false x g), false. split; [by apply rtc_once, st_export_wait|].
    unfold finish_export. destruct (done (completion x)), (snapshot (completion x)); try done.
    unfold start_import. destruct (candidate g); [|done]. by destruct (negb _).
  - destruct Hi as (c & x & _ & Hx & _). by eapply HI.
Qed.

Lemma step_config c c' :
  Coordinator.step c c' -> CoordinatorState.config_ (Coordinator.state_ c') = CoordinatorState.config_ (Coordinator.state_ c).
Proof.
  intros Hs. destruct Hs as [c result k c' _ _ Hr|c|c route ch vs ch' _ _|c r e ok|c d x q r e now fired n l c' _ _ _ _ Ha
                               |c d x q now ar l c' _ _ _ _ Ha|c r e snap p c' Hq|c route ok c' Hq|c|c]; try done.
  - unfold Coordinator.RecordResultDirect in Hr. case_match; [apply Coordinator.ScheduleArm_state in Hr as [Hr _]; by rewrite Hr|by simplify_eq].
  - unfold Coordinator.arm_fired in Ha. repeat case_match; simplify_eq; try done; try (apply Coordinator.ScheduleArm_state in Ha as [Ha _]; by rewrite Ha).
    all: unfold Coordinator.Publish, CoordinatorState.ArmHalfOpen; simpl; by repeat case_match.
  - unfold Coordinator.refill_fired, Coordinator.ScheduleRefillTick in Ha. simpl in Ha.
    apply bind_Some in Ha as ([id q'] & _ & Ha). by simplify_eq.
  - unfold Coordinator.ClaimProbe in Hq. case_match; simplify_eq; [done|].
    unfold CoordinatorState.ClaimProbe in Hq. by repeat case_match; simplify_eq.
  - unfold Coordinator.ReserveOutcome in Hq. by repeat case_match; simplify_eq.
  - unfold Coordinator.StopCheckers. by case_match.
Qed.

Lemma steps_config c c' :
  rtc Coordinator.step c c' -> CoordinatorState.config_ (Coordinator.state_ c') = CoordinatorState.config_ (Coordinator.state_ c).
Proof. induction 1 as [|c c1 c2 H _ IH]; [done|]. rewrite IH. by apply step_config. Qed.

(** ** What the candidate takes over *)

(** The protection of an endpoint of the candidate, which starts as [y], after
    the import of the record of the endpoint [y0] of the same identity. *)
Definition inherits (now now' : Z) (rt0 rt : Route) (y0 y y' : EndpointState) : Prop :=
  health y' = (if decide (health_check rt0 = health_check rt) then health y0 else CoordinatorState.baseline rt) /\
  breaker_ y' = match breaker_ y, breaker_ y0 with
                | Some b, Some b0 =>
                    if decide (circuit_breaker rt0 = circuit_breaker rt)
                    then Some (CircuitBreaker.ImportSnapshot (CircuitBreaker.ExportSnapshot now b0) now' b).2
                    else Some b
                | _, _ => breaker_ y
                end.

Definition same_identity (rt0 rt : Route) (ep0 ep : Endpoint) : Prop :=
  ProtectionSnapshot.RouteKey rt0 = ProtectionSnapshot.RouteKey rt /\
  ProtectionSnapshot.EndpointKey ep0 = ProtectionSnapshot.EndpointKey ep.

(** [s] is the candidate's state, [s0] its fresh state, [s_old] the state of the
    previous coordinator at the export. *)
Definition takes_over (now now' : Z) (s_old s0 s : CoordinatorState.t) : Prop :=
  forall r e rt ep y, configured (CoordinatorState.config_ s0) r e rt ep -> lookup r e s0 = Some y ->
  exists y', lookup r e s = Some y' /\
    forall r0 e0 rt0 ep0 y0, configured (CoordinatorState.config_ s_old) r0 e0 rt0 ep0 -> lookup r0 e0 s_old = Some y0 ->
      same_identity rt0 rt ep0 ep -> inherits now now' rt0 rt y0 y y'.

(** What the workers of the new generation read is the state. *)
Definition publishes (c : Coordinator.t) : Prop :=
  CoordinatorState.decisions (Coordinator.snapshot_ c) =
  map (map (CoordinatorState.decision_of (CoordinatorState.slots_ (Coordinator.state_ c)))) (CoordinatorState.endpoints_ (Coordinator.state_ c)).

Lemma import_takes_over now now' s_old s0 v :
  unique_identities (CoordinatorState.config_ s_old) -> unique_identities (CoordinatorState.config_ s0) -> shaped s0 ->
  takes_over now now' s_old s0
    (CoordinatorState.ImportProtectionSnapshot (CoordinatorState.ExportProtectionSnapshot now s_old) now'
       (CoordinatorState.mk (CoordinatorState.config_ s0) (CoordinatorState.endpoints_ s0) v (CoordinatorState.slots_ s0))).
Proof.
  intros H1 H2 H3 r e rt ep y Hc Hy.
  destruct (CoordinatorState.migration_by_identity s_old
             (CoordinatorState.mk (CoordinatorState.config_ s0) (CoordinatorState.endpoints_ s0) v (CoordinatorState.slots_ s0))
             now now' r e rt ep y H1 H2 H3 Hc Hy) as (y' & E & H & _).
  exists y'. split; [done|]. intros r0 e0 rt0 ep0 y0 Hc0 Hy0 [K1 K2]. by apply (H r0 e0 rt0 ep0 y0).
Qed.

(** The configuration of the candidate was valid when the call succeeds. *)
Lemma reloaded_fresh x config p0 g :
  rtc step (RequestReload x config p0) g -> control g = CDone true ->
  exists s0, CoordinatorState.make config (now_coordinator x) = Some s0.
Proof.
  intros Hs Hk. destruct (CoordinatorState.make config (now_coordinator x)) as [s0|] eqn:Hm; [by eexists|].
  assert (Hn : control (RequestReload x config p0) = CDone false).
  { unfold RequestReload. repeat (case_match; [done|]). unfold make_bundle, Coordinator.make. by rewrite Hm. }
  destruct (done_final p0 _ false _ g (RequestReload_begins x config p0) Hn Hs) as [_ E]. congruence.
Qed.

(** C19: A reload takes over the protection state or has no effect.  In every
    interleaving of the control thread, the two coordinators' threads and the
    timeouts of the waits: when the call reports success, the candidate is active
    and each of its endpoints that the previous configuration knew has the health
    and the breaker that the previous coordinator held at one moment of the call
    (where the policies agree), and publishes them; when it reports failure, the
    candidate is stopped and its loop's data is gone.  Either answer is final: no
    task left in a queue by a timed-out wait changes the candidate afterwards.
    While the call waits the candidate is not active, and the timeouts alone end
    it.  The previous coordinator only takes its own steps. *)
Theorem reload_migrates_or_nothing x config p0 g :
  unique_identities (CoordinatorState.config_ (Coordinator.state_ p0)) -> unique_identities config ->
  rtc step (RequestReload x config p0) g ->
  rtc Coordinator.step p0 (previous g) /\
  match control g with
  | CDone b =>
      (forall g', rtc step g g' -> candidate g' = candidate g /\ control g' = CDone b) /\
      if b then
        exists c q s0 now now', candidate g = Some c /\ Coordinator.lifecycle_ c = Coordinator.kActive /\ publishes c /\
          rtc Coordinator.step p0 q /\ rtc Coordinator.step q (previous g) /\
          CoordinatorState.make config (now_coordinator x) = Some s0 /\
          takes_over now now' (Coordinator.state_ q) s0 (Coordinator.state_ c)
      else forall c, candidate g = Some c -> stopped c
  | _ =>
      (forall c, candidate g = Some c -> Coordinator.lifecycle_ c = Coordinator.kPrepared) /\
      exists g' b, rtc step g g' /\ control g' = CDone b /\ previous g' = previous g
  end.
Proof.
  intros Hu0 Hu Hs. pose proof (reload_inv _ _ _ _ Hs) as Hi. pose proof (control_ends _ _ _ Hi) as He.
  split; [apply Hi|]. destruct (control g) as [| |b] eqn:Hk.
  - destruct Hi as [_ Hi]. rewrite Hk in Hi. destruct Hi as ((c & Hc & _ & Hl) & _). split; [naive_solver|done].
  - destruct Hi as [_ Hi]. rewrite Hk in Hi. destruct Hi as (c & y & Hc & _ & _ & _ & Hl & _). split; [naive_solver|done].
  - split; [by intros g' Hg'; eapply done_final|]. destruct Hi as [_ Hi]. rewrite Hk in Hi. destruct b; [|apply Hi].
    destruct Hi as [(c & Hc & Hl & s & now' & (q & now & Hq1 & Hq2 & ->) & E) _].
    destruct (reloaded_fresh _ _ _ _ Hs Hk) as [s0 Hm]. destruct (Coordinator.make_closed _ _ _ Hm) as (Hcfg & Hsh & _).
    exists c, q, s0, now, now'. unfold fresh_candidate in E. rewrite Hm in E. simpl in E.
    injection E as E1 E2. split; [done|]. split; [done|]. split; [unfold publishes; by rewrite <- E1, <- E2|].
    split; [done|]. split; [done|]. split; [done|]. rewrite <- E2. intros r e rt ep y Hcf Hy.
    destruct (import_takes_over now now' (Coordinator.state_ q) s0 (wrap_u64 (CoordinatorState.version_ s0 + 1)))
      with (r := r) (e := e) (rt := rt) (ep := ep) (y := y) as (y' & Hy' & H); try done;
      [by rewrite (steps_config _ _ Hq1)|by rewrite Hcfg|unfold shaped; by rewrite Hcfg|]. by exists y'.
Qed.

(** The breaker of the only endpoint is open when the configuration is read
    again unchanged. *)
Definition example_call : call := mkCall true 0 1 2100000000 2100000000 2100000000 true true.
Definition begun : t := Eval vm_compute in RequestReload example_call Coordinator.example_config Coordinator.example_open.
Definition nothing_posted : posted := mkPosted false fresh_completion [].
Definition exported : t :=
  Eval vm_compute in with_exporting (run_export 2200000000 (previous begun) (default nothing_posted (exporting begun))) begun.
Definition waiting : t := Eval vm_compute in finish_export true (default nothing_posted (exporting exported)) exported.
Definition imported_example : t :=
  Eval vm_compute in
    let '(c, x) := run_import 2300000000 (default Coordinator.nothing (candidate waiting)) (default nothing_posted (importing waiting)) in
    with_importing x (with_candidate c waiting).
Definition reloaded : t :=
  Eval vm_compute in finish_import true 2400000000 (default nothing_posted (importing imported_example)) imported_example.

Lemma reload_migrates_or_nothing_witness :
  rtc step (RequestReload example_call Coordinator.example_config Coordinator.example_open) reloaded /\
  control reloaded = CDone true /\
  (CoordinatorState.BreakerState 0 0 ∘ Coordinator.state_ <$> candidate reloaded) = Some CircuitBreaker.kOpen /\
  rtc Coordinator.step Coordinator.example_open (previous reloaded) /\
  exists c, candidate reloaded = Some c /\ Coordinator.lifecycle_ c = Coordinator.kActive /\ publishes c.
Proof.
  assert (Hr : rtc step (RequestReload example_call Coordinator.example_config Coordinator.example_open) reloaded).
  { eapply rtc_to with (y' := exported); [eapply (st_export _ _ 2200000000); reflexivity|vm_compute; reflexivity|].
    eapply rtc_to with (y' := waiting); [eapply (st_export_wait _ _ true); reflexivity|vm_compute; reflexivity|].
    eapply rtc_to with (y' := imported_example); [eapply (st_import _ _ 2300000000); reflexivity|vm_compute; reflexivity|].
    eapply rtc_to with (y' := reloaded); [eapply (st_import_wait _ _ true 2400000000); reflexivity|vm_compute; reflexivity|apply rtc_refl]. }
  split; [exact Hr|]. split; [reflexivity|]. split; [vm_compute; reflexivity|].
  destruct (reload_migrates_or_nothing example_call Coordinator.example_config Coordinator.example_open reloaded) as [H1 H2];
    [split; vm_compute; repeat constructor; apply not_elem_of_nil|split; vm_compute; repeat constructor; apply not_elem_of_nil|exact Hr|].
  split; [exact H1|]. destruct H2 as (_ & c & q & s0 & now & now' & Hc & Hl & Hp & _). exists c. split; [exact Hc|]. split; [exact Hl|exact Hp].
Defined.

End Migration.
