(* ===== verification/MockBackend.v ===== *)
(** * The mock backend

    Models src/src/mock/MockBackend.cpp, the upstream server of the integration
    tests and benchmarks, over the timer queue of TimerQueue: connections, the
    bounded number of delayed responses, their delivery, and the removal of closed
    connections by a queued task.  A client connection is reduced to what the
    server sees of it: its address, whether it is open and whether a request
    waits for its response.  The command line is that of
    src/apps/mock-backend/main.cpp. *)

From S2P Require Import Prelude Bytes HttpText HttpResponse TimerQueue.

Module MockBackend.
Import HttpText HttpResponse.

Record MockBackendOptions := mkOptions {
  opt_status : Z;
  delay : Z;
  reset : bool;
  max_inflight : Z;
  body_bytes : Z
}.

Definition default_options : MockBackendOptions := mkOptions 200 0 false 64 0.

Record client := mkClient { address : nat; open : bool; waiting : bool }.

(** [owner], [scheduled] and [closed] are the members of the shared [State];
    [sent] are the responses handed to connections. *)
Record t := mk {
  options_ : MockBackendOptions;
  owner : bool;
  scheduled : bool;
  closed : list Z;
  timers_ : TimerQueue.t Z;
  clients_ : gmap Z client;
  ids_ : gmap nat Z;
  pending_ : gmap Z Z;
  next_id_ : Z;
  inflight_ : Z;
  sent : list (Z * HttpResponse)
}.

Definition with_state (o : bool) (sch : bool) (cl : list Z) (b : t) : t :=
  mk (options_ b) o sch cl (timers_ b) (clients_ b) (ids_ b) (pending_ b) (next_id_ b) (inflight_ b) (sent b).
Definition with_timers (q : TimerQueue.t Z) (b : t) : t :=
  mk (options_ b) (owner b) (scheduled b) (closed b) q (clients_ b) (ids_ b) (pending_ b) (next_id_ b) (inflight_ b) (sent b).
Definition with_clients (cs : gmap Z client) (ids : gmap nat Z) (b : t) : t :=
  mk (options_ b) (owner b) (scheduled b) (closed b) (timers_ b) cs ids (pending_ b) (next_id_ b) (inflight_ b) (sent b).
Definition with_pending (p : gmap Z Z) (n : Z) (b : t) : t :=
  mk (options_ b) (owner b) (scheduled b) (closed b) (timers_ b) (clients_ b) (ids_ b) p (next_id_ b) n (sent b).
Definition with_next (n : Z) (b : t) : t :=
  mk (options_ b) (owner b) (scheduled b) (closed b) (timers_ b) (clients_ b) (ids_ b) (pending_ b) n (inflight_ b) (sent b).
Definition say (x : Z * HttpResponse) (b : t) : t :=
  mk (options_ b) (owner b) (scheduled b) (closed b) (timers_ b) (clients_ b) (ids_ b) (pending_ b) (next_id_ b) (inflight_ b) (sent b ++ [x]).

(** The constructor; [None]: an exception. *)
Definition make (o : MockBackendOptions) : option t :=
  if (opt_status o <? 200) || (599 <? opt_status o) then None
  else if delay o <? 0 then None
  else if max_inflight o =? 0 then None
  else if HttpResponseParser.kMaxUpstreamResponseBodyBytes <? body_bytes o then None
  else Some (mk o true false [] TimerQueue.make ∅ ∅ ∅ 1 0 []).

(** ** Connections *)

(** The close callback: the first closed connection queues the cleanup task. *)
Definition Closed (id : Z) (b : t) : t :=
  if negb (owner b) then b else with_state (owner b) true (closed b ++ [id]) b.

(** [ClientConnection::Close], which calls the callback once. *)
Definition close_client (id : Z) (b : t) : t :=
  match clients_ b !! id with
  | Some c => if open c then Closed id (with_clients (<[ id := mkClient (address c) false (waiting c) ]> (clients_ b)) (ids_ b) b) else b
  | None => b
  end.

(** How the construction of a connection and its start end. *)
Inductive acceptance := NotConstructed | NotStarted | Started.

(** [Accept]: the new connection lies at [a]. *)
Definition Accept (r : acceptance) (a : nat) (b : t) : t :=
  if next_id_ b =? 0 then b
  else
    let id := next_id_ b in
    let b := with_next (wrap_u64 (id + 1)) b in
    match r with
    | NotConstructed => b
    | NotStarted => b
    | Started => with_clients (<[ id := mkClient a true false ]> (clients_ b)) (<[ a := id ]> (ids_ b)) b
    end.

(** ** Responses *)

Definition response (o : MockBackendOptions) (capacity : bool) : HttpResponse :=
  let status := if capacity then 503 else opt_status o in
  let reason := if capacity then lit "Mock Capacity" else if 500 <=? status then lit "Mock Failure" else lit "Mock Response" in
  let body := if negb capacity && (200 <=? status) && (status <? 300) then replicate (Z.to_nat (body_bytes o)) ("x"%byte : byte) else [] in
  mkResponse status reason [] body kNormal None.

(** [Send]; [ok] is [false] when [SendResponse] throws. *)
Definition Send (id : Z) (capacity ok : bool) (b : t) : t :=
  match clients_ b !! id with
  | None => b
  | Some c =>
      if ok then say (id, response (options_ b) capacity) (with_clients (<[ id := mkClient (address c) (open c) false ]> (clients_ b)) (ids_ b) b)
      else close_client id b
  end.

(** What can go wrong in [HandleRequest]: the map's allocation and the two ways
    of sending. *)
Record answers := mkAnswers { now : Z; emplaced : bool; send_ok : bool }.

(** A request arrives at the connection [id], which lies at [a]. *)
Definition HandleRequest (id : Z) (a : nat) (x : answers) (b : t) : t :=
  if reset (options_ b) then close_client id b
  else if max_inflight (options_ b) <=? inflight_ b then Send id true (send_ok x) b
  else if delay (options_ b) =? 0 then Send id false (send_ok x) b
  else match ids_ b !! a with
       | None => close_client id b
       | Some id' =>
           let b := with_pending (pending_ b) (wrap_u64 (inflight_ b + 1)) b in
           match TimerQueue.ScheduleAfter (now x) (delay (options_ b)) id' (timers_ b) with
           | None => Send id true (send_ok x) (with_pending (pending_ b) (if inflight_ b =? 0 then 0 else inflight_ b - 1) b)
           | Some (timer, q) =>
               let b := with_timers q b in
               if emplaced x then
                 with_pending (match pending_ b !! id' with Some _ => pending_ b | None => <[ id' := timer ]> (pending_ b) end) (inflight_ b) b
               else
                 let b := with_timers (TimerQueue.Cancel timer (timers_ b)).2 b in
                 Send id true (send_ok x) (with_pending (pending_ b) (if inflight_ b =? 0 then 0 else inflight_ b - 1) b)
           end
       end.

Definition Deliver (id : Z) (ok : bool) (b : t) : t :=
  match pending_ b !! id with
  | None => b
  | Some _ =>
      let b := with_pending (delete id (pending_ b)) (if inflight_ b =? 0 then 0 else inflight_ b - 1) b in
      Send id false ok b
  end.

(** ** Cleanup and destruction *)

Definition reap_one (b : t) (id : Z) : t :=
  let b := match pending_ b !! id with
           | Some timer =>
               with_pending (delete id (pending_ b)) (if inflight_ b =? 0 then 0 else inflight_ b - 1)
                 (with_timers (TimerQueue.Cancel timer (timers_ b)).2 b)
           | None => b
           end in
  match clients_ b !! id with
  | Some c => with_clients (delete id (clients_ b)) (delete (address c) (ids_ b)) b
  | None => b
  end.

Definition Reap (ids : list Z) (b : t) : t := foldl reap_one b ids.

(** The task queued by [Closed]. *)
Definition cleanup (b : t) : t :=
  let b := with_state (owner b) false (closed b) b in
  if negb (owner b) then b else Reap (closed b) (with_state (owner b) false [] b).

Definition cancel_all (b : t) : t :=
  with_timers (foldl (fun q (p : Z * Z) => (TimerQueue.Cancel p.2 q).2) (timers_ b) (map_to_list (pending_ b))) b.

Definition destroy (b : t) : t :=
  let b := cancel_all (with_state false (scheduled b) (closed b) b) in
  with_clients ∅ ∅ (with_pending ∅ (inflight_ b) b).

(** ** Runs *)

Inductive event :=
| EAccept (r : acceptance) (a : nat)
| ERequest (id : Z) (x : answers)
| ETimer (now : Z) (ok : bool)
| EPeerCloses (id : Z)
| ECleanup.

(** A connection passes on a request while it is open and owes no response; a
    new connection lies where no other does; the cleanup runs when queued. *)
Definition possible (ev : event) (b : t) : bool :=
  match ev with
  | EAccept _ a => bool_decide (ids_ b !! a = None)
  | ERequest id _ => match clients_ b !! id with Some c => open c && negb (waiting c) | None => false end
  | ETimer now _ => match TimerQueue.pop_due now (timers_ b) with Some _ => true | None => false end
  | EPeerCloses id => bool_decide (is_Some (clients_ b !! id))
  | ECleanup => scheduled b
  end.

Definition asks (id : Z) (b : t) : t :=
  match clients_ b !! id with
  | Some c => with_clients (<[ id := mkClient (address c) (open c) true ]> (clients_ b)) (ids_ b) b
  | None => b
  end.

Definition exec (ev : event) (b : t) : t :=
  match ev with
  | EAccept r a => Accept r a b
  | ERequest id x => HandleRequest id (from_option address 0%nat (clients_ b !! id)) x (asks id b)
  | ETimer now ok =>
      match TimerQueue.pop_due now (timers_ b) with
      | Some (x, q) => Deliver (TimerQueue.callback x) ok (with_timers q b)
      | None => b
      end
  | EPeerCloses id => close_client id b
  | ECleanup => cleanup b
  end.

Fixpoint run (es : list event) (b : t) : option t :=
  match es with
  | [] => Some b
  | ev :: es => if possible ev b then run es (exec ev b) else None
  end.

(** ** The invariant *)

(** [e] is a connection whose request is being handled. *)
Record inv (e : option Z) (b : t) : Prop := {
  i_timers : TimerQueue.wf (timers_ b);
  i_count : inflight_ b = Z.of_nat (base.size (pending_ b));
  i_bound : inflight_ b <= max_inflight (options_ b);
  i_max : 0 < max_inflight (options_ b) < u64_modulus;
  i_delay : 0 <= delay (options_ b);
  i_pending : forall id timer, pending_ b !! id = Some timer ->
    (exists c, clients_ b !! id = Some c /\ waiting c = true) /\
    exists x, x ∈ TimerQueue.timers_ (timers_ b) /\ TimerQueue.identifier x = timer /\ TimerQueue.callback x = id;
  i_callback : forall x, x ∈ TimerQueue.timers_ (timers_ b) -> pending_ b !! TimerQueue.callback x = Some (TimerQueue.identifier x);
  i_ids : forall a id, ids_ b !! a = Some id <-> exists c, clients_ b !! id = Some c /\ address c = a;
  i_fresh : forall id, is_Some (clients_ b !! id) -> 0 < id < next_id_ b;
  i_waiting : forall id c, clients_ b !! id = Some c -> open c = true -> waiting c = true -> Some id <> e -> is_Some (pending_ b !! id);
  i_closed : forall id c, clients_ b !! id = Some c -> open c = false -> id ∈ closed b;
  i_owner : owner b = true;
  i_scheduled : closed b <> [] -> scheduled b = true
}.

Lemma mock_inv_weaken e b : inv None b -> inv e b.
Proof. intros []. split; try done. intros id c H1 H2 H3 _. by eapply i_waiting0. Qed.

(** A connection changes its flags. *)
Lemma flags_ids (cs : gmap Z client) (ids : gmap nat Z) id c c' :
  cs !! id = Some c -> address c' = address c ->
  (forall a i, ids !! a = Some i <-> exists c, cs !! i = Some c /\ address c = a) ->
  forall a i, ids !! a = Some i <-> exists c, <[ id := c' ]> cs !! i = Some c /\ address c = a.
Proof.
  intros Hc Ha H a i. rewrite H. destruct (decide (i = id)) as [->|Hne].
  - rewrite lookup_insert_eq. split; intros (d & Hd & <-); simplify_eq; eauto.
  - by rewrite lookup_insert_ne.
Qed.

Lemma close_client_inv e id b : (e = None \/ e = Some id) -> inv e b -> inv None (close_client id b).
Proof.
  intros He Hi. pose proof Hi as []. unfold close_client. destruct (clients_ b !! id) as [c|] eqn:Hc.
  2: { split; try done. intros i d Hd Ho Hw _. eapply i_waiting0; try done. intros E. destruct He as [->| ->]; [done|]. congruence. }
  destruct (open c) eqn:Ho.
  2: { split; try done. intros i d Hd Ho' Hw _. eapply i_waiting0; try done. intros E. destruct He as [->| ->]; [done|]. congruence. }
  unfold Closed. simpl. rewrite i_owner0. simpl. split; simpl; try done.
  - intros i timer Hp. destruct (i_pending0 i timer Hp) as [(d & Hd & Hw) Hx]. split; [|done].
    destruct (decide (i = id)) as [->|Hne]; [rewrite lookup_insert_eq; eexists; split; [done|]; simpl; congruence|].
    rewrite lookup_insert_ne by done. eauto.
  - by eapply flags_ids.
  - intros i. rewrite lookup_insert_is_Some'. intros [<-|Hi']; [by eapply i_fresh0|by eapply i_fresh0].
  - intros i d. rewrite lookup_insert_Some. intros [[_ <-]|[Hne Hd]]; [done|]. intros Ho' Hw _. eapply i_waiting0; try done.
    intros E. destruct He as [->| ->]; congruence.
  - intros i d. rewrite lookup_insert_Some. intros [[<- _]|[_ Hd]] Ho'; [set_solver|]. specialize (i_closed0 _ _ Hd Ho'). set_solver.
Qed.

Lemma mock_send_inv e id capacity ok b :
  (e = None \/ e = Some id) -> inv e b -> pending_ b !! id = None -> inv None (Send id capacity ok b).
Proof.
  intros He Hi Hp. unfold Send. destruct (clients_ b !! id) as [c|] eqn:Hc.
  2: { pose proof Hi as []. split; try done. intros i d Hd Ho' Hw _. eapply i_waiting0; try done. intros E. destruct He as [->| ->]; congruence. }
  destruct ok; [|by eapply close_client_inv]. pose proof Hi as []. split; simpl; try done.
  - intros i timer Hi'. destruct (i_pending0 i timer Hi') as [(d & Hd & Hw) Hx]. split; [|done].
    rewrite lookup_insert_ne by congruence. eauto.
  - by eapply flags_ids.
  - intros i. rewrite lookup_insert_is_Some'. intros [<-|Hi']; by eapply i_fresh0.
  - intros i d. rewrite lookup_insert_Some. intros [[_ <-]|[Hne Hd]]; [done|]. intros Ho' Hw _. eapply i_waiting0; try done.
    intros E. destruct He as [->| ->]; congruence.
  - intros i d. rewrite lookup_insert_Some. intros [[<- <-]|[_ Hd]] Ho'; [by eapply i_closed0|by eapply i_closed0].
Qed.

Lemma asks_inv id b : inv None b -> inv (Some id) (asks id b).
Proof.
  intros Hi. unfold asks. destruct (clients_ b !! id) as [c|] eqn:Hc; [|by apply mock_inv_weaken]. pose proof Hi as [].
  split; simpl; try done.
  - intros i timer Hp. destruct (i_pending0 i timer Hp) as [(d & Hd & Hw) Hx]. split; [|done].
    destruct (decide (i = id)) as [->|Hne]; [rewrite lookup_insert_eq; eauto|]. rewrite lookup_insert_ne by done. eauto.
  - by eapply flags_ids.
  - intros i. rewrite lookup_insert_is_Some'. intros [<-|Hi']; by eapply i_fresh0.
  - intros i d. rewrite lookup_insert_Some. intros [[<- _]|[Hne Hd]]; [done|]. intros Ho' Hw _. by eapply i_waiting0.
  - intros i d. rewrite lookup_insert_Some. intros [[<- <-]|[_ Hd]] Ho'; by eapply i_closed0.
Qed.

(** The timers and the count change together. *)
Lemma with_inflight_id b e : inv e b -> with_pending (pending_ b) (inflight_ b) b = b.
Proof. by destruct b. Qed.

Lemma unscheduled_inv e b q :
  inv e b -> TimerQueue.wf q -> (forall y, y ∈ TimerQueue.timers_ q <-> y ∈ TimerQueue.timers_ (timers_ b)) ->
  inv e (with_timers q b).
Proof.
  intros [] Hw Hq. split; simpl; try done.
  - intros id timer Hp. destruct (i_pending0 id timer Hp) as [Hc (x & Hx & E)]. split; [done|]. exists x. by rewrite Hq.
  - intros x Hx. apply i_callback0. by apply Hq.
Qed.

Lemma scheduled_inv id timer d q b :
  inv (Some id) b -> pending_ b !! id = None -> inflight_ b < max_inflight (options_ b) ->
  (exists c, clients_ b !! id = Some c /\ waiting c = true) ->
  TimerQueue.wf q -> (forall y, y ∈ TimerQueue.timers_ q <-> y = TimerQueue.mkEntry d timer id \/ y ∈ TimerQueue.timers_ (timers_ b)) ->
  inv None (with_pending (<[ id := timer ]> (pending_ b)) (inflight_ b + 1) (with_timers q b)).
Proof.
  intros [] Hp Hm Hc Hw Hq. split; simpl; try done; [|lia|..].
  - rewrite map_size_insert_None by done. lia.
  - intros i u. rewrite lookup_insert_Some. intros [[<- <-]|[Hne Hi]].
    + split; [done|]. eexists. rewrite Hq. split; [by left|done].
    + destruct (i_pending0 i u Hi) as [Hci (x & Hx & E)]. split; [done|]. exists x. rewrite Hq. auto.
  - intros x [->|Hx]%Hq; simpl; [apply lookup_insert_eq|]. specialize (i_callback0 x Hx). rewrite lookup_insert_ne; [done|congruence].
  - intros i c Hi Ho Hw' _. destruct (decide (i = id)) as [->|Hne]; [rewrite lookup_insert_eq; by eexists|].
    rewrite lookup_insert_ne by done. eapply i_waiting0; try done. congruence.
Qed.

Lemma mock_request_inv id a x b :
  inv (Some id) b -> TimerQueue.next_identifier_ (timers_ b) + 1 < u64_modulus -> pending_ b !! id = None ->
  ids_ b !! a = Some id -> (exists c, clients_ b !! id = Some c /\ waiting c = true) -> inv None (HandleRequest id a x b).
Proof.
  intros Hi Hn Hp Ha Hc. unfold HandleRequest. destruct (reset _); [eapply (close_client_inv (Some id)); eauto|].
  destruct (Z.leb_spec (max_inflight (options_ b)) (inflight_ b)) as [|Hlt]; cbn match; [eapply (mock_send_inv (Some id)); eauto|].
  destruct (_ =? 0); [eapply (mock_send_inv (Some id)); eauto|]. rewrite Ha. simpl. pose proof Hi as [].
  assert (Hwr : wrap_u64 (inflight_ b + 1) = inflight_ b + 1) by (apply wrap_u64_small; mlia).
  destruct (TimerQueue.ScheduleAfter_ok (now x) (delay (options_ b)) id (timers_ b) i_timers0 i_delay0 Hn) as (q & E & Hw & Hnq & Hq).
  rewrite E, Hwr. rewrite Hp. destruct (emplaced x); simpl.
  - eapply (scheduled_inv id _ _ q b); eauto.
  - destruct (Z.eqb_spec (inflight_ b + 1) 0); [lia|]. replace (inflight_ b + 1 - 1) with (inflight_ b) by lia.
    destruct (TimerQueue.Cancel_wf (TimerQueue.next_identifier_ (timers_ b)) q Hw) as [Hw' Hq'].
    eapply (mock_send_inv (Some id)); [by right| |done].
    change (inv (Some id) (with_timers (TimerQueue.Cancel (TimerQueue.next_identifier_ (timers_ b)) q).2 (with_pending (pending_ b) (inflight_ b) b))).
    rewrite (with_inflight_id _ _ Hi). apply unscheduled_inv; [done|done|]. intros y. rewrite Hq', Hq. split.
    + intros [[->|Hy] Hne]; [simpl in Hne; done|done].
    + intros Hy. split; [by right|]. apply (TimerQueue.wf_fresh _ i_timers0) in Hy. lia.
Qed.

(** A pending response leaves the table with its timer. *)
Lemma unpend_inv id timer q b :
  inv None b -> pending_ b !! id = Some timer -> TimerQueue.wf q ->
  (forall y, y ∈ TimerQueue.timers_ q <-> y ∈ TimerQueue.timers_ (timers_ b) /\ TimerQueue.identifier y <> timer) ->
  inv (Some id) (with_pending (delete id (pending_ b)) (if inflight_ b =? 0 then 0 else inflight_ b - 1) (with_timers q b)).
Proof.
  intros [] Hp Hw Hq. assert (Hs : base.size (pending_ b) = S (base.size (delete id (pending_ b)))).
  { rewrite map_size_delete, Hp. assert (base.size (pending_ b) <> 0)%nat; [|lia]. intros E. apply map_size_empty_inv in E. by rewrite E in Hp. }
  assert (Hinf : (if inflight_ b =? 0 then 0 else inflight_ b - 1) = inflight_ b - 1) by (destruct (Z.eqb_spec (inflight_ b) 0); lia).
  rewrite Hinf. split; simpl; try done; [lia|lia|..].
  - intros i u. rewrite lookup_delete_Some. intros [Hne Hi]. destruct (i_pending0 i u Hi) as [Hc (x & Hx & E1 & E2)]. split; [done|].
    exists x. rewrite Hq. split; [|done]. split; [done|]. intros E. destruct (i_pending0 id timer Hp) as [_ (y & Hy & E3 & E4)].
    assert (TimerQueue.callback x = TimerQueue.callback y); [|congruence].
    pose proof (TimerQueue.wf_unique _ x y i_timers0 Hx Hy ltac:(congruence)). congruence.
  - intros x [Hx Hne]%Hq. specialize (i_callback0 x Hx). rewrite lookup_delete_ne; [done|]. intros E. rewrite <- E in i_callback0. congruence.
  - intros i c Hi Ho Hw' He. rewrite lookup_delete_ne by congruence. by eapply i_waiting0.
Qed.

Lemma Deliver_inv now b x q ok :
  inv None b -> TimerQueue.pop_due now (timers_ b) = Some (x, q) -> inv None (Deliver (TimerQueue.callback x) ok (with_timers q b)).
Proof.
  intros Hi Hp. pose proof Hi as []. destruct (TimerQueue.pop_due_wf _ _ _ _ i_timers0 Hp) as (Hw & _ & Hx & _ & Hq & Hid).
  unfold Deliver. simpl. rewrite (i_callback0 x Hx). eapply (mock_send_inv (Some (TimerQueue.callback x))); [by right| |simpl; apply lookup_delete_eq].
  eapply (unpend_inv _ _ q b); [done|by apply i_callback0|done|]. intros y. split.
  - intros Hy. split; [apply Hq; by right|]. intros E. apply Hid. rewrite <- E. by apply list_elem_of_fmap_2.
  - intros [Hy Hne]. apply Hq in Hy as [->|Hy]; done.
Qed.

Lemma remove_client_inv id c ids b :
  inv (Some id) (with_state true true (id :: ids) b) -> pending_ b !! id = None -> clients_ b !! id = Some c ->
  inv None (with_state true true ids (with_clients (delete id (clients_ b)) (delete (address c) (ids_ b)) b)).
Proof.
  intros [] Hp Hc. simpl in *. split; simpl; try done.
  - intros i timer Hi. destruct (i_pending0 i timer Hi) as [(d & Hd & Hw) Hx]. split; [|done]. exists d.
    rewrite lookup_delete_ne by congruence. done.
  - intros a i. rewrite lookup_delete_Some, i_ids0. split.
    + intros [Hne (d & Hd & <-)]. exists d. split; [|done]. rewrite lookup_delete_ne; [done|]. intros <-. congruence.
    + intros (d & Hd & <-). rewrite lookup_delete_Some in Hd. destruct Hd as [Hne Hd]. split; [|eauto]. intros E.
      assert (ids_ b !! address c = Some id) by (apply i_ids0; eauto). assert (ids_ b !! address d = Some i) by (apply i_ids0; eauto). congruence.
  - intros i [d Hd]. rewrite lookup_delete_Some in Hd. apply i_fresh0. exists d. apply Hd.
  - intros i d. rewrite lookup_delete_Some. intros [Hne Hd] Ho Hw _. eapply i_waiting0; try done. congruence.
  - intros i d. rewrite lookup_delete_Some. intros [Hne Hd] Ho. specialize (i_closed0 i d Hd Ho). set_solver.
Qed.

Lemma no_client_inv id ids b :
  inv (Some id) (with_state true true (id :: ids) b) -> clients_ b !! id = None -> inv None (with_state true true ids b).
Proof.
  intros [] Hc. simpl in *. split; simpl; try done.
  - intros i d Hd Ho Hw _. eapply i_waiting0; try done. congruence.
  - intros i d Hd Ho. specialize (i_closed0 i d Hd Ho). set_solver.
Qed.

Lemma reap_one_inv id ids b :
  inv None (with_state true true (id :: ids) b) -> inv None (with_state true true ids (reap_one b id)).
Proof.
  intros Hi. unfold reap_one. destruct (pending_ b !! id) as [timer|] eqn:Hp.
  - destruct (TimerQueue.Cancel_wf timer (timers_ b) (i_timers _ _ Hi)) as [Hw Hq].
    pose proof (unpend_inv id timer _ _ Hi Hp Hw Hq) as Hu. simpl in Hu |- *.
    destruct (i_pending _ _ Hi id timer Hp) as [(c & Hc & _) _]. simpl in Hc. rewrite Hc.
    apply (remove_client_inv id c ids (with_pending (delete id (pending_ b)) (if inflight_ b =? 0 then 0 else inflight_ b - 1)
             (with_timers (TimerQueue.Cancel timer (timers_ b)).2 b)) Hu); [apply lookup_delete_eq|done].
  - destruct (clients_ b !! id) as [c|] eqn:Hc; [|by eapply no_client_inv; [apply mock_inv_weaken|]].
    eapply remove_client_inv; [by apply mock_inv_weaken|done|done].
Qed.

Lemma mock_reap_inv ids b : inv None (with_state true true ids b) -> inv None (with_state true true [] (Reap ids b)).
Proof.
  unfold Reap. revert b. induction ids as [|id ids IH]; intros b Hi; simpl; [done|]. apply IH. by apply reap_one_inv.
Qed.

Lemma Reap_scheduled ids b : scheduled (Reap ids b) = scheduled b /\ closed (Reap ids b) = closed b /\ owner (Reap ids b) = owner b.
Proof.
  unfold Reap. revert b. induction ids as [|id ids IH]; intros b; simpl; [done|].
  destruct (IH (reap_one b id)) as (-> & -> & ->). unfold reap_one. by destruct (pending_ b !! id); simpl; destruct (clients_ b !! id).
Qed.

Lemma cleanup_inv b : inv None b -> inv None (cleanup b).
Proof.
  intros Hi. unfold cleanup. simpl. rewrite (i_owner _ _ Hi). simpl.
  assert (H : inv None (with_state true true (closed b) (with_state true false [] (with_state true false (closed b) b)))).
  { destruct Hi. split; simpl; done. }
  apply mock_reap_inv in H. pose proof (Reap_scheduled (closed b) (with_state true false [] (with_state true false (closed b) b))) as (E1 & E2 & E3).
  simpl in E1, E2, E3. destruct H. split; simpl in *; try done.
  rewrite E2. done.
Qed.

Lemma mock_accept_inv r a b : inv None b -> next_id_ b + 1 < u64_modulus -> ids_ b !! a = None -> 0 < next_id_ b -> inv None (Accept r a b).
Proof.
  intros Hi Hn Ha H0. pose proof Hi as []. unfold Accept. destruct (Z.eqb_spec (next_id_ b) 0); [done|].
  assert (Hw : wrap_u64 (next_id_ b + 1) = next_id_ b + 1) by (apply wrap_u64_small; mlia). rewrite Hw.
  assert (Hnext : inv None (with_next (next_id_ b + 1) b)) by (split; simpl; try done; intros i Hi'; specialize (i_fresh0 i Hi'); lia).
  destruct r; [done..|]. assert (Hc : clients_ b !! next_id_ b = None).
  { apply eq_None_not_Some. intros Hs. specialize (i_fresh0 _ Hs). lia. }
  split; simpl; try done.
  - intros i timer Hp. destruct (i_pending0 i timer Hp) as [(d & Hd & Hwt) Hx]. split; [|done]. exists d. rewrite lookup_insert_ne by congruence. done.
  - intros a' i. rewrite lookup_insert_Some, i_ids0. split.
    + intros [[<- <-]|[Hne (d & Hd & E)]]; [rewrite lookup_insert_eq; eauto|]. exists d. rewrite lookup_insert_ne by congruence. done.
    + intros (d & Hd & <-). rewrite lookup_insert_Some in Hd. destruct Hd as [[<- <-]|[Hne Hd]]; [by left|]. right. split; [|eauto].
      intros E. assert (ids_ b !! address d = Some i) by (apply i_ids0; eauto). congruence.
  - intros i. rewrite lookup_insert_is_Some'. intros [<-|Hs]; [lia|]. specialize (i_fresh0 i Hs). lia.
  - intros i d. rewrite lookup_insert_Some. intros [[_ <-]|[Hne Hd]]; [done|]. intros; by eapply i_waiting0.
  - intros i d. rewrite lookup_insert_Some. intros [[_ <-]|[Hne Hd]]; [done|]. by apply i_closed0.
Qed.

(** The identifiers used by one event. *)
Definition counters (b : t) : Z * Z := (next_id_ b, TimerQueue.next_identifier_ (timers_ b)).

Lemma close_counters id b : counters (close_client id b) = counters b.
Proof. unfold close_client, Closed. by repeat case_match. Qed.

Lemma Send_counters id capacity ok b : counters (Send id capacity ok b) = counters b.
Proof. unfold Send. destruct (clients_ b !! id); [|done]. destruct ok; [done|]. apply close_counters. Qed.

Lemma Reap_counters ids b : counters (Reap ids b) = counters b.
Proof.
  unfold Reap. revert b. induction ids as [|id ids IH]; intros b; simpl; [done|]. rewrite IH. unfold reap_one, counters.
  destruct (pending_ b !! id); simpl; destruct (clients_ b !! id); simpl; by rewrite ?TimerQueue.Cancel_next.
Qed.

Definition room (n : Z) (b : t) : Prop :=
  0 < next_id_ b /\ next_id_ b + n < u64_modulus /\ TimerQueue.next_identifier_ (timers_ b) + n < u64_modulus.

Lemma room_counters n b b' : counters b' = counters b -> room n b -> room n b'.
Proof. unfold room, counters. intros [= -> ->]. done. Qed.

Lemma room_less n b : room (n + 1) b -> room n b.
Proof. unfold room. lia. Qed.

Lemma HandleRequest_room n id a x b :
  0 <= n -> inv (Some id) b -> room (n + 1) b -> room n (HandleRequest id a x b).
Proof.
  intros Hn Hi Hr. unfold HandleRequest. destruct (reset _); [eapply room_counters; [apply close_counters|by apply room_less]|].
  destruct (_ <=? _); [eapply room_counters; [apply Send_counters|by apply room_less]|].
  destruct (_ =? 0); [eapply room_counters; [apply Send_counters|by apply room_less]|].
  destruct (ids_ b !! a) as [id'|]; [|eapply room_counters; [apply close_counters|by apply room_less]]. simpl.
  destruct Hr as (H1 & H2 & H3). pose proof (i_timers _ _ Hi) as Hw.
  destruct (TimerQueue.ScheduleAfter _ _ _ _) as [[timer q]|] eqn:E.
  2: { eapply room_counters; [apply Send_counters|]. unfold room. simpl. lia. }
  destruct (TimerQueue.ScheduleAfter_grows _ _ _ _ _ _ Hw ltac:(lia) E) as (_ & Hq & _).
  destruct (emplaced x); [unfold room; simpl; lia|]. eapply room_counters; [apply Send_counters|]. unfold room. simpl. rewrite TimerQueue.Cancel_next. lia.
Qed.

Lemma exec_mock n ev b :
  0 <= n -> inv None b -> room (n + 1) b -> possible ev b = true -> inv None (exec ev b) /\ room n (exec ev b).
Proof.
  intros Hn Hi Hr Hp. destruct ev as [r a|id x|time ok|id|]; simpl in Hp |- *.
  - apply bool_decide_eq_true in Hp. destruct Hr as (H1 & H2 & H3). split; [apply mock_accept_inv; (done || lia)|].
    unfold Accept. destruct (_ =? 0); [unfold room; lia|]. unfold room. destruct r; simpl; rewrite wrap_u64_small by mlia; lia.
  - destruct (clients_ b !! id) as [c|] eqn:Hc; [|done]. apply andb_true_iff in Hp as [Ho Hw]. apply negb_true_iff in Hw. simpl.
    pose proof (asks_inv id b Hi) as Ha.
    assert (Hr' : room (n + 1) (asks id b)) by (unfold asks; rewrite Hc; done).
    split; [|by apply HandleRequest_room]. apply mock_request_inv; [done|destruct Hr' as (_ & _ & ?); lia|..].
    + unfold asks. rewrite Hc. simpl. apply eq_None_not_Some. intros [u Hu]. destruct (i_pending _ _ Hi id u Hu) as [(d & Hd & Hwd) _]. congruence.
    + apply (i_ids _ _ Ha). unfold asks. rewrite Hc. simpl. eexists. rewrite lookup_insert_eq. done.
    + unfold asks. rewrite Hc. simpl. eexists. rewrite lookup_insert_eq. done.
  - destruct (TimerQueue.pop_due time (timers_ b)) as [[y q]|] eqn:E; [|done]. split; [by eapply Deliver_inv|].
    assert (Hq : room n (with_timers q b)) by (unfold room in *; simpl; rewrite (TimerQueue.pop_due_next _ _ _ _ E); lia).
    unfold Deliver. simpl. destruct (pending_ b !! _); [|done]. eapply room_counters; [apply Send_counters|]. done.
  - split; [by eapply (close_client_inv None); auto|]. eapply room_counters; [apply close_counters|by apply room_less].
  - split; [by apply cleanup_inv|]. unfold cleanup. simpl. rewrite (i_owner _ _ Hi). simpl.
    eapply room_counters; [apply Reap_counters|]. apply room_less in Hr. done.
Qed.

(** What the server owes. *)
Definition served (b : t) : Prop :=
  inflight_ b = Z.of_nat (base.size (pending_ b)) /\ inflight_ b <= max_inflight (options_ b) /\
  (forall id c, clients_ b !! id = Some c ->
     (open c = true /\ waiting c = false) \/
     (open c = true /\ exists x, x ∈ TimerQueue.timers_ (timers_ b) /\ TimerQueue.callback x = id /\ pending_ b !! id = Some (TimerQueue.identifier x)) \/
     (open c = false /\ id ∈ closed b /\ scheduled b = true)) /\
  (forall x, x ∈ TimerQueue.timers_ (timers_ b) -> is_Some (clients_ b !! TimerQueue.callback x)).

(** The mock backend keeps its books: in every run of connections, requests,
    timers, closed peers and cleanups, the number of delayed responses is that of
    the pending entries and within its limit, and every connection is idle, or
    its request has one live timer that will answer it, or it is closed and the
    cleanup that removes it is queued; no timer outlives its connection. *)
Theorem mock_exact o es b0 b :
  max_inflight o < u64_modulus -> 0 < max_inflight o -> Z.of_nat (length es) + 1 < u64_modulus ->
  make o = Some b0 -> run es b0 = Some b -> served b.
Proof.
  intros Hm H0 Hl Hmk Hrun.
  assert (Hi : inv None b0 /\ room (Z.of_nat (length es)) b0).
  { unfold make in Hmk. destruct (_ || _); [done|]. destruct (Z.ltb_spec (delay o) 0); [done|]. destruct (_ =? 0); [done|]. destruct (_ <? _); [done|].
    injection Hmk as <-. split; [|unfold room; simpl; lia]. split; simpl; try done; [apply TimerQueue.timers_make_wf|lia|..].
    - intros x Hx. by apply elem_of_nil in Hx.
    - intros a id. rewrite lookup_empty. split; [done|]. by intros (c & ? & _).
    - by intros id [c Hc]. }
  clear Hmk Hl. revert b0 Hrun Hi. induction es as [|ev es IH]; intros b0 Hrun [Hi Hr]; simpl in Hrun.
  - injection Hrun as <-. pose proof Hi as []. split; [done|]. split; [done|]. split.
    + intros id c Hc. destruct (open c) eqn:Ho.
      * destruct (waiting c) eqn:Hw; [|by left]. right. left. split; [done|].
        destruct (i_waiting0 id c Hc Ho Hw ltac:(done)) as [u Hu]. destruct (i_pending0 id u Hu) as [_ (x & Hx & <- & E)]. eauto.
      * right. right. pose proof (i_closed0 id c Hc Ho) as Hin. split; [done|]. split; [done|]. apply i_scheduled0. intros E. rewrite E in Hin. by apply elem_of_nil in Hin.
    + intros x Hx. destruct (i_pending0 _ _ (i_callback0 x Hx)) as [(c & Hc & _) _]. eauto.
  - destruct (possible ev b0) eqn:Hp; [|done]. eapply IH; [done|]. apply exec_mock; [lia|done| |done].
    by replace (Z.of_nat (length es) + 1) with (Z.of_nat (S (length es))) by lia.
Qed.

(** The destructor leaves no connection and nothing pending, and later timers
    and cleanups find no owner. *)
Lemma destroy_clears b : clients_ (destroy b) = ∅ /\ ids_ (destroy b) = ∅ /\ pending_ (destroy b) = ∅ /\
  (forall id ok, Deliver id ok (destroy b) = destroy b) /\ clients_ (cleanup (destroy b)) = ∅.
Proof. by split_and!. Qed.

End MockBackend.
