(* ===== verification/Programs.v ===== *)
(** * The programs' command lines

    Models the argument handling of src/apps/aegisgate/main.cpp and
    src/apps/mock-backend/main.cpp: [std::from_chars] on unsigned values, the port
    and the options.  [argv] does not include the program's name; an exception is
    [None] inside and exit status 1 at the end. *)

From S2P Require Import Prelude Bytes HttpText HttpResponse MockBackend.

Module Programs.
Import HttpText MockBackend.

(** [std::from_chars] of an unsigned type with greatest value [limit]: the value
    and the rest of the text; [None]: an error. *)
Fixpoint digit_run (s : bytes) : bytes * bytes :=
  match s with
  | c :: r => if is_digit c then let '(d, rest) := digit_run r in (c :: d, rest) else ([], s)
  | [] => ([], [])
  end.

Definition from_chars (limit : Z) (s : bytes) : option (Z * bytes) :=
  let '(d, rest) := digit_run s in
  if bool_decide (d = []) then None
  else let v := value_of d 0 in if limit <? v then None else Some (v, rest).

(** ** The gateway *)

Definition ParsePort (value : bytes) : option Z :=
  '(port, rest) ← from_chars (u32_modulus - 1) value;
  if negb (bool_decide (rest = [])) || (port =? 0) || (65535 <? port) then None else Some port.

(** The loop over the arguments after the second. *)
Fixpoint log_path_from (args : list bytes) (log_path : bytes) : bytes :=
  match args with
  | arg :: ((value :: rest) as more) =>
      if beq arg (lit "--log-path") then log_path_from rest value else log_path_from more log_path
  | _ => log_path
  end.

Inductive gateway_main := Usage | Invalid | Serve (config_path : bytes) (port : Z) (log_path : bytes).

Definition main_gateway (argv : list bytes) : gateway_main :=
  match argv with
  | config_path :: port :: args =>
      match ParsePort port with
      | None => Invalid
      | Some p => Serve config_path p (log_path_from args [])
      end
  | _ => Usage
  end.

(** ** The mock backend *)

Definition ParseUnsigned (value : bytes) (maximum : Z) : option Z :=
  '(parsed, rest) ← from_chars (u64_modulus - 1) value;
  if negb (bool_decide (rest = [])) || (maximum <? parsed) then None else Some parsed.

(** One option with its value. *)
Definition set_option (option value : bytes) (o : MockBackendOptions) : Datatypes.option MockBackendOptions :=
  if beq option (lit "--status") then
    n ← ParseUnsigned value 599; Some (mkOptions n (delay o) (reset o) (max_inflight o) (body_bytes o))
  else if beq option (lit "--delay-ms") then
    n ← ParseUnsigned value 600000; Some (mkOptions (opt_status o) (n * 1000000) (reset o) (max_inflight o) (body_bytes o))
  else if beq option (lit "--max-inflight") then
    n ← ParseUnsigned value 1000000; Some (mkOptions (opt_status o) (delay o) (reset o) n (body_bytes o))
  else if beq option (lit "--body-bytes") then
    n ← ParseUnsigned value HttpResponse.HttpResponseParser.kMaxUpstreamResponseBodyBytes; Some (mkOptions (opt_status o) (delay o) (reset o) (max_inflight o) n)
  else None.

Fixpoint parse_options (args : list bytes) (o : MockBackendOptions) : option MockBackendOptions :=
  match args with
  | [] => Some o
  | option :: rest =>
      if beq option (lit "--reset") then
        parse_options rest (mkOptions (opt_status o) (delay o) true (max_inflight o) (body_bytes o))
      else match rest with
           | [] => None
           | value :: rest => o ← set_option option value o; parse_options rest o
           end
  end.

Inductive mock_main := MockUsage | MockInvalid | MockServe (port : Z) (b : MockBackend.t).

Definition main_mock (argv : list bytes) : mock_main :=
  match argv with
  | [] => MockUsage
  | port :: args =>
      match ParseUnsigned port 65535 with
      | None | Some 0 => MockInvalid
      | Some p =>
          match parse_options args default_options ≫= MockBackend.make with
          | None => MockInvalid
          | Some b => MockServe p b
          end
      end
  end.

(** ** What is accepted *)

Lemma digit_run_app d rest : Forall (fun c => is_digit c = true) d -> (forall c r, rest = c :: r -> is_digit c = false) -> digit_run (d ++ rest) = (d, rest).
Proof.
  intros Hd Hr. induction Hd as [|c d Hc _ IH]; simpl.
  - destruct rest as [|c r]; [done|]. simpl. by rewrite (Hr c r eq_refl).
  - by rewrite Hc, IH.
Qed.

Lemma digit_run_spec s d rest : digit_run s = (d, rest) -> s = d ++ rest /\ Forall (fun c => is_digit c = true) d.
Proof.
  revert d. induction s as [|c s IH]; intros d H; simpl in H; [by simplify_eq|].
  destruct (is_digit c) eqn:Hc; [|by simplify_eq]. destruct (digit_run s) as [d' rest']. injection H as <- <-.
  destruct (IH d' eq_refl) as [-> Hd]. split; [done|by constructor].
Qed.

Definition numeral (s : bytes) (n : Z) : Prop := s <> [] /\ Forall (fun c => is_digit c = true) s /\ value_of s 0 = n.

Lemma from_chars_whole limit s n : from_chars limit s = Some (n, []) <-> numeral s n /\ n <= limit.
Proof.
  unfold from_chars, numeral. split.
  - destruct (digit_run s) as [d rest] eqn:E. apply digit_run_spec in E as [-> Hd]. case_bool_decide as Hn; [done|].
    destruct (Z.ltb_spec limit (value_of d 0)); [done|]. intros [= <- ->]. rewrite app_nil_r. done.
  - intros [(Hn & Hd & <-) Hl]. pose proof (digit_run_app s [] Hd ltac:(done)) as E. rewrite app_nil_r in E. rewrite E.
    rewrite bool_decide_eq_false_2 by done. destruct (Z.ltb_spec limit (value_of s 0)); [lia|done].
Qed.

(** The accepted ports are the numerals of 1 to 65535, leading zeros allowed. *)
Theorem ParsePort_exact s n : ParsePort s = Some n <-> numeral s n /\ 1 <= n <= 65535.
Proof.
  assert (Hge : forall d, Forall (fun c => is_digit c = true) d -> 0 <= value_of d 0) by (intros d Hd; by apply value_of_ge).
  unfold ParsePort. split.
  - intros H. apply bind_Some in H as ([v rest] & Hf & H). case_bool_decide as Hr; [|done]. subst rest. simpl in H.
    apply from_chars_whole in Hf as [Hn Hl]. destruct (Z.eqb_spec v 0); [done|]. destruct (Z.ltb_spec 65535 v); [done|]. simpl in H. injection H as <-.
    split; [done|]. destruct Hn as (_ & Hd & <-). specialize (Hge s Hd). lia.
  - intros [Hn Hb]. assert (from_chars (u32_modulus - 1) s = Some (n, [])) as -> by (apply from_chars_whole; split; [done|mlia]). simpl.
    destruct (Z.eqb_spec n 0); [lia|]. destruct (Z.ltb_spec 65535 n); [lia|done].
Qed.

Lemma to_string_numeral n : is_u64 n -> numeral (to_string n) n.
Proof.
  intros Hn. destruct (to_string_digits n Hn) as [H1 H2]. split; [done|]. split; [done|].
  unfold to_string. destruct (digits_spec 20 n [] 0) as (_ & _ & ->); [|lia|lia|constructor|done].
  change (10 ^ Z.of_nat 20) with 100000000000000000000. mlia.
Qed.

(** A printed port is read back. *)
Corollary port_roundtrip n : 1 <= n <= 65535 -> ParsePort (to_string n) = Some n.
Proof. intros Hn. apply ParsePort_exact. split; [|done]. apply to_string_numeral. mlia. Qed.

(** What the parser of options leaves within bounds. *)
Definition in_bounds (o : MockBackendOptions) : Prop :=
  0 <= opt_status o <= 599 /\ 0 <= delay o <= 600000000000 /\ 0 <= max_inflight o <= 1000000 /\
  0 <= body_bytes o <= HttpResponse.HttpResponseParser.kMaxUpstreamResponseBodyBytes.

Lemma ParseUnsigned_bounds s m n : ParseUnsigned s m = Some n -> 0 <= n <= m.
Proof.
  unfold ParseUnsigned. intros H. apply bind_Some in H as ([v rest] & Hf & H). case_bool_decide as Hr; [|done]. subst rest. simpl in H.
  apply from_chars_whole in Hf as [(_ & Hd & <-) _]. pose proof (value_of_ge s 0 Hd ltac:(lia)).
  destruct (Z.ltb_spec m (value_of s 0)); [done|]. injection H as <-. lia.
Qed.

Lemma set_option_bounds k v o o' : in_bounds o -> set_option k v o = Some o' -> in_bounds o'.
Proof.
  intros Hb H. unfold set_option in H. destruct Hb as (H1 & H2 & H3 & H4).
  repeat (case_match; [apply bind_Some in H as (n & Hn & H); apply ParseUnsigned_bounds in Hn; injection H as <-; unfold in_bounds; simpl; lia|]).
  done.
Qed.

(** The options a command line gives construct a server exactly when the status
    is at least 200 and one response may be delayed. *)
Theorem mock_options_construct args o :
  parse_options args default_options = Some o ->
  in_bounds o /\ (is_Some (MockBackend.make o) <-> 200 <= opt_status o /\ 1 <= max_inflight o).
Proof.
  intros H. assert (Hb : in_bounds o).
  { assert (H0 : in_bounds default_options) by (unfold in_bounds; simpl; unfold HttpResponse.HttpResponseParser.kMaxUpstreamResponseBodyBytes; lia).
    revert H H0. generalize default_options. remember (length args) as n eqn:Hn. revert args Hn. induction n as [n IH] using lt_wf_ind.
    intros [|k args] -> o0 H H0; simpl in H; [by simplify_eq|]. destruct (beq k (lit "--reset")).
    - eapply (IH (length args)); [simpl; lia|done|exact H|]. exact H0.
    - destruct args as [|v args]; [done|]. apply bind_Some in H as (o1 & Hs & H).
      eapply (IH (length args)); [simpl; lia|done|exact H|]. by eapply set_option_bounds. }
  split; [done|]. destruct Hb as (H1 & H2 & H3 & H4). unfold MockBackend.make.
  destruct (Z.ltb_spec (opt_status o) 200); simpl; [split; [by intros [? ?]|lia]|].
  destruct (Z.ltb_spec 599 (opt_status o)); [lia|]. destruct (Z.ltb_spec (delay o) 0); [lia|].
  destruct (Z.eqb_spec (max_inflight o) 0); [split; [by intros [? ?]|lia]|].
  destruct (Z.ltb_spec HttpResponse.HttpResponseParser.kMaxUpstreamResponseBodyBytes (body_bytes o)); [lia|].
  split; [lia|]. by eexists.
Qed.

End Programs.
